(* ===== verification/_CoqProject ===== *)
-Q . S2P
Prelude.v
Constants.v
F64.v
Hashing.v
Curve.v
Cryptonight.v
CnTotal.v
Varint.v
Ser.v
Tx.v
TxExtra.v
Block.v
Base58.v
Wordlist.v
Mnemonic.v
Kv.v
Difficulty.v
Fees.v
Reward.v
Windows.v
Checkpoints.v
Parallel.v
Records.v
Store.v
Validate.v
Accept.v
Numbering.v
ChainState.v
ChainRecords.v
AltChains.v
AddBlock.v
Acceptance.v
PoolPriority.v
RejectionCache.v
Pool.v
PoolInv.v
PoolAdmission.v
Template.v
TemplateSpec.v
PoolUpdate.v
Stream.v
Levin.v
WsFrame.v
P2pMsg.v
P2pWire.v
Wallet.v
WalletSync.v
Transfer.v
TransferSpec.v
TransferRings.v
TransferBuild.v
TransferAccept.v
WalletScan.v
WalletFollow.v
WalletStep.v
WalletSend.v
Decimal.v
Json.v
JsonSpec.v
Peers.v
PeersSpec.v
PeersBans.v
