(* ===== verification/Prelude.v ===== *)
(** Verification of the WrkzCoin node and wallet (crates/ of this repository).

    * The program

    WrkzCoin is a CryptoNote node in Rust. This development models its consensus core and
    what feeds it. The core is made of: the primitives (crates/wrkz-primitives), that is the
    serialization of transactions and blocks, addresses, seeds, difficulty and fees;
    the hashes and the proof of work (crates/wrkz-pow); and the chain
    (crates/wrkz-chain), which validates the transactions of a block in one parallel
    batch, computes rewards, and keeps the main chain in a key-value store and the
    alternative chains in memory; and the store (crates/wrkz-storage). Around it: the
    transaction pool and the block templates (crates/wrkz-mempool), which read the chain
    through a trait and follow it block by block; the peer protocol (crates/wrkz-p2p), that
    is levin frames whose payloads are key-value sections; and the WebSocket frames
    (crates/wrkz-ws) of the RPC server. The wallet (crates/wrkz-wallet) downloads blocks from
    a daemon, scans them for its outputs, and builds, proves and relays transactions the node
    validates. Node, RPC and tools are built on these.

    * The library

    A shallow embedding. Pure functions are Rocq functions; a byte string is a
    [list Z] of values below 256, an integer of width w a [Z] below 2^w whose
    wrap-around, saturation or overflow check is written out; plain [+], [-] and [*]
    wrap, as in the release profile, which does not check overflow. Errors are
    [result]; a panic is [None] of an outer option. Readers are parsers over the input
    and a position; stateful code is a state monad or passes its state, and an error
    comes with the state it leaves behind; threads are a step relation.

    - Prelude: integers, bytes, results, tactics, the hint database [bytes_db].
    - Constants: wrkz-primitives/src/constants.rs.
    - F64: the double-precision operations the source uses, from the Standard Library's
      [SpecFloat].
    - Hashing: wrkz-pow/src/{keccak,tree,lib,curve}.rs over the class [Crypto] of
      external primitives.
    - Cryptonight, CnTotal: wrkz-pow/src/cryptonight/, the slow hash and its totality.
    - Varint, Ser: wrkz-primitives/src/{varint,ser}.rs.
    - Tx, TxExtra: wrkz-primitives/src/tx.rs.
    - Block: wrkz-primitives/src/block.rs.
    - Base58, Wordlist, Mnemonic, Kv, Difficulty: the files of these names in
      wrkz-primitives/src. Fees: fees.rs and mixins.rs.
    - Reward: wrkz-chain/src/{reward,fusion}.rs. Windows, Checkpoints: windows.rs and
      checkpoints.rs. Records: records.rs and keys.rs.
    - Parallel: wrkz-pow/src/parallel.rs, workers as a transition system.
    - Validate: wrkz-chain/src/validate.rs and step 8 of [add_block] in state.rs.
    - Accept: the consensus rules as one predicate, proved equivalent to Validate.
    - Store: wrkz-storage/src/{lib,batch}.rs, the store interface, the in-memory store and
      the batching overlay, and the paging loop of wrkz-node/src/snapshot.rs.
    - ChainState: wrkz-chain/src/state.rs, opening, reads, windows, push, unwind and
      rewind over any store; the rules and errors of lib.rs.
    - Numbering, ChainRecords: what push writes and unwind removes, record by record.
    - AltChains: the alternative blocks of state.rs as a map, pruning and branches.
    - AddBlock: block validation and acceptance of state.rs, the chain switch and its
      roll-back. Acceptance: their theorems.
    - PoolPriority, RejectionCache, Pool: wrkz-mempool/src/pool.rs, the order of preference,
      the memory of rejections and the pool itself, over the trait [PoolChain] of chain.rs.
      PoolInv, PoolAdmission: the pool's invariant, and what it admits and refuses.
    - Template: the rest of wrkz-mempool/src/chain.rs, coinbase.rs and template_builder.rs.
      TemplateSpec: its theorems.
    - PoolUpdate: a block taken by chain and pool together ([add_block_with_pool] of pool.rs)
      and [submit_block] of template_builder.rs, over AddBlock and Pool.
    - Stream: [std::io::Read] and [Write] as far as the wire code uses them.
    - Levin: wrkz-p2p/src/levin.rs. P2pMsg: msg.rs and limits.rs, over Kv. P2pWire: their
      theorems.
    - WsFrame: wrkz-ws/src/frame.rs.
    - Curve: the wrappers of wrkz-pow/src/curve.rs the wallet calls, over the classes
      [CurveKeys] and [CurveSecrets].
    - Wallet: the wallet document of wrkz-wallet/src/file.rs and its changes in sync.rs and
      transfer.rs. WalletSync: daemon.rs and the synchronizer of sync.rs. Transfer:
      transfer.rs, from the selection of inputs to relay, fusion and sweep.
    - TransferSpec, TransferRings, TransferBuild: amounts, selection and the nonce search;
      rings; a built transaction. TransferAccept: Transfer against Validate.
    - WalletScan, WalletFollow, WalletStep: the wallet against the chain it follows, for a
      subwallet, for a run of blocks and other events, and for a step of the synchronizer.
      WalletSend: failing and cancelled sends.
    - Decimal: 64-bit integers as text. Json: wrkz-rpc/src/json.rs. JsonSpec: its theorems.
    - Peers: wrkz-node/src/peers.rs. PeersSpec: the lists, their file and the choice of the
      addresses to dial. PeersBans: bans, their file and scores.

    * The theorems

    - Codecs: varints, transactions, blocks, key-value sections, addresses, seeds,
      state records and keys. The readers accept exactly the writers' output (blocks
      and key-value sections up to the stated exceptions), so that nothing has two
      encodings. The JSON parser ends on every input, accepts only well-formed values
      within its limits, and reads back what is written.
    - Hashing: the difficulty test is a 256-bit comparison; the Merkle tree is the
      recursive one and its branches authenticate; the AES tables are FIPS-197; the
      floating-point square root is exact; the slow hash is total and does not depend on
      what the scratchpad held.
    - Rules: difficulty, fees, ring sizes, rewards, fusion, checkpoints and replay
      windows against their schedules.
    - Parallelism: the workers' answer is the sequential one in every interleaving, and
      every run ends.
    - Validation: the batched validator, the inline validator and the block loop agree on
      verdict, rule, fault and fee; acceptance is the predicate [acceptable]; a block
      never claims a key image twice.
    - Storage: the overlay answers as the store it stands for, counts its bytes exactly,
      and a refused flush leaves the base as it was; paging visits every entry once.
    - Chain state: applying a block keeps the records and caches coherent, and taking it
      off restores them; pruning and forgetting alternative blocks leave no branch without
      its root, and every branch is found.
    - Acceptance: key images are never spent twice along the main chain outside the
      checkpoint zone; where and when the work is checked decides nothing; a branch takes
      over only when strictly heavier; the transactions are the ones named.
    - Pool: its indexes agree with its entries after any sequence of operations; it admits
      exactly the transactions that are valid and wanted; what it refuses from memory the
      validator would refuse; eviction keeps the preferred entries; across main, branch and
      switching blocks it never holds a transaction the chain has spent.
    - Templates: the coinbase, size and reward pass the chain's own checks; the selection is
      greedy in priority order and a pool that fits is taken whole; the cached context is the
      one read afresh; a submitted block is relayed exactly when it joins the main chain.
    - Wire: levin frames and WebSocket frames are read back in step, and their readers end on
      every stream within their limits; every message a node sends passes the cap of its
      command and parses to what was sent; what parses is within its types; fragments are
      joined; the sparse chain comes within a factor two of any fork.
    - Wallet: through blocks, reorganisations, sends and restarts it holds exactly the outputs
      received on the chain and not spent on it, and the multi-threaded synchronizer keeps it
      so; what it sends, the node's validator accepts with the fee it reports; amounts are
      paid in the denominations of the daemon; every input is selected once; the nonce search
      finds a nonce if there is one, and the fee loop ends; a send fails for want of ring
      members only at the smallest ring; inputs of a cancelled send stay locked, which is not
      what the documentation says.
    - Peers: whatever peers send, the lists stay within their limits and those of a network
      group; the addresses dialled are allowed and of different groups; the files keep lists
      and bans across a restart, but a line out of range in the ban file panics the node.

    * Parameters, bounds and fuel

    [Crypto] stands for keccak-f[1600] and the Groestl, JH, Skein and Argon2 digests of
    third-party crates and for the vendored C curve code; [CryptoTyped] states the types
    of their results. [ChainAccess] is the trait of validate.rs, [ChainAccessLaws] that a
    batched read answers what single reads do, which the chain state keeps over a store
    that does not fail ([ReliableStore]). [KvStore] is the trait of wrkz-storage and
    [KvStoreLaws] its contract; [SystemClock] is the time of day; [is_utf8] of
    [open] is [String::from_utf8]. [Scheduler] picks any answer the parallel
    workers can give. [PoolChain] is the trait the pool reads the chain through, and
    [chain_state_pool_chain] the chain's instance of it. [CurveKeys] stands for the key
    derivation of the C code, and the random key pairs of the coinbase are an argument.
    A stream is the bytes that will come and how it ends; [IoWrite] is a writer.
    [CurveSecrets] stands for key images, signing and secret keys of the C code; [SyncDaemon]
    and [TransferDaemon] are the traits of daemon.rs and transfer.rs a daemon answers,
    [TransferRandom] the trait of the random source, [Platform] the clock, the threads and
    the parser of an error body; their answers depend on a state that is threaded, so that
    they may change from call to call. [TransferTyped] states the widths of the answers.
    The wallet's theorems suppose of a daemon that its outputs are those of the chain
    ([honest_daemon]), of the wallet that it tracks the chain ([tracks_chain]), and of the
    chain its own rules ([chain_rules]). [IpText] is the text of an address, [HashOrder] the
    order a hash table is iterated in; the clock and the seed of the shuffle are arguments.
    [hex::decode] is an argument of [from_csv]; the compiled-in
    checkpoint table one of [mainnet]; the decimal form of a double one of [to_string]. Fuel is always the length of the list consumed, or
    a bound proved sufficient: ten varint bytes, [MAX_DEPTH] objects, nineteen decimal
    digits, 33 halvings of a 32-bit range, the number of alternative blocks, the entries of
    the pool for eviction, the length of the queue for forgetting rejections, the number
    of outputs for merging them, the tries of the template builder, the bytes left of a
    stream for the frame and message readers, two for each byte of a JSON text. Loops with no smaller bound, the nonce search,
    the fee loop and the retries of a request, run up to 2^64 turns through [iter_until],
    which is proved enough where it is used. A load of an atomic may return any earlier
    store.

    * Not modelled

    Hardware AES (processor instructions), the C curve code, error texts, preallocation,
    timing counters, files, sockets, the database engine and user interfaces. Of
    state.rs, snapshot import, the background pruning pass, the scans and the pre-computed
    hashes of several blocks are left out. That a failed switch restores the old chain
    is not proved: putting a block back checks it again, against the clock of that moment.
    Of wrkz-p2p the connection threads and socket set-up, of wrkz-ws the HTTP upgrade are
    left out. Of wrkz-wallet the encrypted file and its JSON, the HTTP client, the API server
    and the command line are left out; that the download of the synchronizer leaves no block
    out is not proved. Of the peer lists, opening and saving the files and the resolver are
    left out. The storage codecs and snapshots and the sync logic of the node are not
    modelled. *)
From stdpp Require Export base list gmap strings numbers sorting.
From Stdlib Require Export ZArith Lia.
Local Open Scope Z_scope.

(** * Machine integers

    An unsigned integer of width [w] is a [Z] in [0, 2^w); every operation
    below writes out what the Rust operation does at the edges of the width. *)

Definition in_u (w v : Z) : Prop := 0 ≤ v < 2 ^ w.
Abbreviation is_u8 := (in_u 8).
Abbreviation is_u16 := (in_u 16).
Abbreviation is_u32 := (in_u 32).
Abbreviation is_u64 := (in_u 64).
Abbreviation u64_max := (2 ^ 64 - 1).

#[export] Instance in_u_dec w v : Decision (in_u w v).
Proof. unfold in_u. apply _. Defined.

(** [x as uN], and the wrapping operators of a release build. *)
Definition wrap (w v : Z) : Z := v mod 2 ^ w.
Definition wrapping_add (w a b : Z) : Z := wrap w (a + b).
Definition wrapping_sub (w a b : Z) : Z := wrap w (a - b).
Definition wrapping_mul (w a b : Z) : Z := wrap w (a * b).

(** [x as iN] of a value taken modulo [2^N] (two's complement). *)
Definition as_signed (w v : Z) : Z :=
  let m := wrap w v in if m <? 2 ^ (w - 1) then m else m - 2 ^ w.

Definition checked_add (w a b : Z) : option Z := if a + b <? 2 ^ w then Some (a + b) else None.
Definition checked_sub (a b : Z) : option Z := if b <=? a then Some (a - b) else None.
Definition saturating_add (w a b : Z) : Z := Z.min (a + b) (2 ^ w - 1).
Definition saturating_sub (a b : Z) : Z := Z.max (a - b) 0.
Definition saturating_mul (w a b : Z) : Z := Z.min (a * b) (2 ^ w - 1).
Definition div_ceil (a b : Z) : Z := (a + b - 1) / b.

(** * Bytes *)

Abbreviation bytes := (list Z).
Abbreviation Hash := (list Z).

Definition is_bytes (bs : bytes) : Prop := Forall is_u8 bs.
Definition is_array (n : nat) (bs : bytes) : Prop := is_bytes bs ∧ length bs = n.
Abbreviation is_hash := (is_array 32).

(** [uN::to_le_bytes] / [uN::from_le_bytes] for an [n]-byte integer. *)
Fixpoint to_le_bytes (n : nat) (v : Z) : bytes :=
  match n with
  | O => []
  | S n => v mod 256 :: to_le_bytes n (v / 256)
  end.

Fixpoint from_le_bytes (bs : bytes) : Z :=
  match bs with
  | [] => 0
  | b :: bs => b + 256 * from_le_bytes bs
  end.

Definition to_be_bytes (n : nat) (v : Z) : bytes := reverse (to_le_bytes n v).
Definition from_be_bytes (bs : bytes) : Z := from_le_bytes (reverse bs).

(** [&s[a..a + n]], for ranges the caller has already bounded. *)
Definition slice {A} (l : list A) (a n : nat) : list A := take n (drop a l).

(** The bytes of an ASCII literal. *)
Definition ascii_bytes (s : string) : bytes :=
  map (λ c, Z.of_N (Ascii.N_of_ascii c)) (String.list_ascii_of_string s).

(** Text is its list of Unicode scalar values. *)
Abbreviation text := (list Z).

(** [char::is_whitespace] *)
Definition is_whitespace (c : Z) : bool :=
  (9 <=? c) && (c <=? 13) || (c =? 32) || (c =? 0x85) || (c =? 0xa0) || (c =? 0x1680) ||
  (0x2000 <=? c) && (c <=? 0x200a) || (c =? 0x2028) || (c =? 0x2029) || (c =? 0x202f) || (c =? 0x205f) || (c =? 0x3000).

(** * UTF-8 *)

(** [std::str::from_utf8(..).is_ok()] *)
Definition in_range (lo hi b : Z) : bool := (lo <=? b) && (b <=? hi).
Definition continuation (b : Z) : bool := in_range 0x80 0xbf b.

Fixpoint utf8_valid (bs : bytes) : bool :=
  match bs with
  | [] => true
  | b :: r0 =>
      if in_range 0 0x7f b then utf8_valid r0
      else
        match r0 with
        | [] => false
        | b1 :: r1 =>
            if in_range 0xc2 0xdf b then continuation b1 && utf8_valid r1
            else
              match r1 with
              | [] => false
              | b2 :: r2 =>
                  if in_range 0xe0 0xef b then
                    in_range (if b =? 0xe0 then 0xa0 else 0x80) (if b =? 0xed then 0x9f else 0xbf) b1 &&
                    continuation b2 && utf8_valid r2
                  else
                    match r2 with
                    | [] => false
                    | b3 :: r3 =>
                        in_range 0xf0 0xf4 b &&
                        in_range (if b =? 0xf0 then 0x90 else 0x80) (if b =? 0xf4 then 0x8f else 0xbf) b1 &&
                        continuation b2 && continuation b3 && utf8_valid r3
                    end
              end
        end
  end.

(** * Errors as values *)

Inductive result (E A : Type) : Type :=
| Ok (a : A)
| Err (e : E).
Arguments Ok {E A} a.
Arguments Err {E A} e.

#[export] Instance result_ret {E} : MRet (result E) := λ A a, Ok a.
#[export] Instance result_bind {E} : MBind (result E) := λ A B f m,
  match m with Ok a => f a | Err e => Err e end.
#[export] Instance result_fmap {E} : FMap (result E) := λ A B f m,
  match m with Ok a => Ok (f a) | Err e => Err e end.

(** [Option::ok_or] and [Result::map_err]. *)
Definition ok_or {E A} (e : E) (o : option A) : result E A :=
  match o with Some a => Ok a | None => Err e end.
Definition map_err {E E' A} (f : E → E') (m : result E A) : result E' A :=
  match m with Ok a => Ok a | Err e => Err (f e) end.

#[export] Instance result_eq_dec {E A} `{EqDecision E, EqDecision A} : EqDecision (result E A).
Proof. solve_decision. Defined.

(** * Lemmas on results *)

Lemma result_bind_Ok {E A B} (m : result E A) (f : A → result E B) b :
  m ≫= f = Ok b ↔ ∃ a, m = Ok a ∧ f a = Ok b.
Proof. destruct m; split; [eauto | by intros (?&[= ->]&?) | done | by intros (?&?&?)]. Qed.

Lemma result_bind_Err {E A B} (m : result E A) (f : A → result E B) e :
  m ≫= f = Err e ↔ m = Err e ∨ ∃ a, m = Ok a ∧ f a = Err e.
Proof.
  destruct m as [a|e']; split; [right; eauto | by intros [?|(?&[= ->]&?)] | | ].
  - intros [= ->]. by left.
  - by intros [[= ->]|(?&?&?)].
Qed.

Lemma ok_or_Ok {E A} (e : E) (o : option A) a : ok_or e o = Ok a ↔ o = Some a.
Proof. by destruct o; split; intros [=]; subst. Qed.

Lemma map_err_Ok {E E' A} (f : E → E') (m : result E A) a : map_err f m = Ok a ↔ m = Ok a.
Proof. by destruct m; split; intros [=]; subst. Qed.

(** Invert every successful bind of the context. *)
Ltac simplify_res :=
  repeat match goal with
  | H : _ ≫= _ = Ok _ |- _ => apply result_bind_Ok in H as (?&?&?)
  | H : ok_or _ _ = Ok _ |- _ => apply ok_or_Ok in H
  | H : map_err _ _ = Ok _ |- _ => apply map_err_Ok in H
  | H : mret _ = Ok _ |- _ => injection H as H
  | H : Ok _ = Ok _ |- _ => injection H as H
  | H : Err _ = Err _ |- _ => injection H as H
  | H : Ok _ = Err _ |- _ => discriminate H
  | H : Err _ = Ok _ |- _ => discriminate H
  | H : mret _ = Err _ |- _ => discriminate H
  | p : (_ * _)%type |- _ => destruct p
  | _ => progress simplify_eq/=
  end.

(** Split the boolean tests of a definition, leaving their meaning in the context. *)
Ltac case_bool :=
  match goal with
  | |- context [if ?b then _ else _] => let H := fresh "Hb" in destruct b eqn:H
  | H0 : context [if ?b then _ else _] |- _ => let H := fresh "Hb" in destruct b eqn:H
  end.

Ltac bool_hyps :=
  repeat match goal with
  | H : (_ && _)%bool = true |- _ => apply andb_prop in H as [??]
  | H : (_ || _)%bool = false |- _ => apply orb_false_elim in H as [??]
  | H : negb _ = true |- _ => apply negb_true_iff in H
  | H : negb _ = false |- _ => apply negb_false_iff in H
  | H : bool_decide _ = true |- _ => apply bool_decide_eq_true in H
  | H : bool_decide _ = false |- _ => apply bool_decide_eq_false in H
  | H : (_ <? _) = true |- _ => apply Z.ltb_lt in H
  | H : (_ <? _) = false |- _ => apply Z.ltb_ge in H
  | H : (_ <=? _) = true |- _ => apply Z.leb_le in H
  | H : (_ <=? _) = false |- _ => apply Z.leb_gt in H
  | H : (_ =? _) = true |- _ => apply Z.eqb_eq in H
  | H : (_ =? _) = false |- _ => apply Z.eqb_neq in H
  | H : (_ =? _)%nat = true |- _ => apply Nat.eqb_eq in H
  | H : (_ =? _)%nat = false |- _ => apply Nat.eqb_neq in H
  | H : (_ <? _)%nat = true |- _ => apply Nat.ltb_lt in H
  | H : (_ <? _)%nat = false |- _ => apply Nat.ltb_ge in H
  | H : (_ <=? _)%nat = true |- _ => apply Nat.leb_le in H
  | H : (_ <=? _)%nat = false |- _ => apply Nat.leb_gt in H
  end.

(** * Lemmas on machine integers *)

Lemma wrap_small w v : in_u w v → wrap w v = v.
Proof. unfold in_u, wrap. intros. by apply Z.mod_small. Qed.

Lemma wrap_bound w v : 0 ≤ w → in_u w (wrap w v).
Proof. unfold in_u, wrap. intros. apply Z.mod_pos_bound. by apply Z.pow_pos_nonneg. Qed.

Lemma in_u_mono w w' v : w ≤ w' → 0 ≤ w → in_u w v → in_u w' v.
Proof. unfold in_u. intros ?? [? ?]. split; [done|]. eapply Z.lt_le_trans; [done|]. by apply Z.pow_le_mono_r. Qed.

Lemma checked_add_Some w a b c : checked_add w a b = Some c ↔ a + b = c ∧ a + b < 2 ^ w.
Proof.
  unfold checked_add. case_bool; bool_hyps; split.
  - by intros [= <-].
  - by intros [-> _].
  - done.
  - intros [_ ?]. lia.
Qed.

Lemma checked_sub_Some a b c : checked_sub a b = Some c ↔ b ≤ a ∧ c = a - b.
Proof.
  unfold checked_sub. case_bool; bool_hyps; split.
  - by intros [= <-].
  - by intros [_ ->].
  - done.
  - intros [? _]. lia.
Qed.

Lemma as_signed_wrap w i : 0 < w → - 2 ^ (w - 1) ≤ i < 2 ^ (w - 1) → as_signed w (wrap w i) = i.
Proof.
  intros Hw Hi. assert (2 ^ w = 2 * 2 ^ (w - 1)) as E by (rewrite <- Z.pow_succ_r by lia; f_equal; lia).
  unfold as_signed, wrap. rewrite Z.mod_mod by lia. destruct (decide (0 ≤ i)).
  - rewrite Z.mod_small by lia. by destruct (i <? 2 ^ (w - 1)) eqn:El; bool_hyps; [|lia].
  - rewrite <- (Z.mod_unique i (2 ^ w) (-1) (i + 2 ^ w)) by lia. destruct (_ <? _) eqn:El; bool_hyps; lia.
Qed.

Lemma as_signed_bound w v : 0 < w → - 2 ^ (w - 1) ≤ as_signed w v < 2 ^ (w - 1).
Proof.
  intros Hw. assert (2 ^ w = 2 * 2 ^ (w - 1)) as E by (rewrite <- Z.pow_succ_r by lia; f_equal; lia).
  pose proof (wrap_bound w v ltac:(lia)) as Hb. unfold in_u in Hb. unfold as_signed. destruct (_ <? _) eqn:El; bool_hyps; lia.
Qed.

Lemma wrap_as_signed w v : 0 < w → in_u w v → wrap w (as_signed w v) = v.
Proof.
  intros Hw Hv. unfold as_signed. cbv zeta. rewrite (wrap_small w v) by done. destruct (_ <? _); [by apply wrap_small|].
  unfold wrap. replace (v - 2 ^ w) with (v + -1 * 2 ^ w) by lia. rewrite Z_mod_plus_full. by apply Z.mod_small.
Qed.

Lemma as_signed_range w v : 0 < w → - 2 ^ (w - 1) ≤ v < 2 ^ (w - 1) → as_signed w v = v.
Proof.
  intros Hw Hv. rewrite <- (as_signed_wrap w v) at 2 by done. unfold as_signed, wrap. by rewrite Z.mod_mod by lia.
Qed.

(** * Lemmas on bit operations *)

Lemma land_shiftl_0 a b k : 0 ≤ k → 0 ≤ a < 2 ^ k → Z.land a (Z.shiftl b k) = 0.
Proof.
  intros Hk Ha. apply Z.bits_inj'. intros n Hn. rewrite Z.land_spec, Z.bits_0, Z.shiftl_spec by done.
  destruct (Z.lt_ge_cases n k) as [?|?].
  - rewrite (Z.testbit_neg_r b) by lia. apply andb_false_r.
  - rewrite <- (Z.mod_small a (2 ^ k)), Z.mod_pow2_bits_high by lia. done.
Qed.

Lemma lor_shiftl_add a b k : 0 ≤ k → 0 ≤ a < 2 ^ k → Z.lor a (Z.shiftl b k) = a + b * 2 ^ k.
Proof.
  intros Hk Ha. rewrite <- Z.shiftl_mul_pow2 by done.
  pose proof (Z.add_lor_land a (Z.shiftl b k)) as H. rewrite land_shiftl_0 in H by done. lia.
Qed.

(** A decidable fact of bytes is checked on all 256 of them. *)
Lemma byte_cases (P : Z → bool) :
  forallb P (seqZ 0 256) = true → ∀ b, is_u8 b → P b = true.
Proof.
  intros HP b Hb. rewrite forallb_forall in HP. apply HP.
  apply list_elem_of_In, elem_of_seqZ. exact Hb.
Qed.

(** * Lemmas on bytes *)

Lemma is_bytes_nil : is_bytes [].
Proof. constructor. Qed.

Lemma is_bytes_cons b bs : is_bytes (b :: bs) ↔ is_u8 b ∧ is_bytes bs.
Proof. apply Forall_cons. Qed.

Lemma is_bytes_app a b : is_bytes (a ++ b) ↔ is_bytes a ∧ is_bytes b.
Proof. apply Forall_app. Qed.

Lemma is_bytes_take n bs : is_bytes bs → is_bytes (take n bs).
Proof. apply Forall_take. Qed.

Lemma is_bytes_drop n bs : is_bytes bs → is_bytes (drop n bs).
Proof. apply Forall_drop. Qed.

Lemma length_to_le_bytes n v : length (to_le_bytes n v) = n.
Proof. revert v. induction n; intros; simpl; auto. Qed.

Lemma to_le_bytes_is_bytes n v : is_bytes (to_le_bytes n v).
Proof.
  revert v. induction n as [|n IH]; intros v; simpl; [constructor|].
  apply is_bytes_cons; split; [|done]. unfold in_u. apply Z.mod_pos_bound. lia.
Qed.

Lemma to_le_bytes_is_array n v : is_array n (to_le_bytes n v).
Proof. split; [apply to_le_bytes_is_bytes | apply length_to_le_bytes]. Qed.

Lemma from_le_bytes_bound bs : is_bytes bs → 0 ≤ from_le_bytes bs < 256 ^ Z.of_nat (length bs).
Proof.
  induction bs as [|b bs IH]; simpl; [lia|]. intros [Hb Hbs]%is_bytes_cons.
  specialize (IH Hbs). unfold in_u in Hb. rewrite Nat2Z.inj_succ, Z.pow_succ_r by lia. lia.
Qed.

Lemma from_to_le_bytes n v : 0 ≤ v < 256 ^ Z.of_nat n → from_le_bytes (to_le_bytes n v) = v.
Proof.
  revert v. induction n as [|n IH]; intros v Hv; simpl.
  { change (256 ^ Z.of_nat 0) with 1 in Hv. lia. }
  rewrite Nat2Z.inj_succ, Z.pow_succ_r in Hv by lia.
  rewrite IH; [pose proof (Z.div_mod v 256); lia|].
  split; [apply Z.div_pos; lia | apply Z.div_lt_upper_bound; lia].
Qed.

Lemma to_from_le_bytes bs : is_bytes bs → to_le_bytes (length bs) (from_le_bytes bs) = bs.
Proof.
  induction bs as [|b bs IH]; simpl; [done|]. intros [Hb Hbs]%is_bytes_cons. unfold in_u in Hb.
  rewrite (Z.mul_comm 256), Z.mod_add, Z.div_add, Z.mod_small, Z.div_small, Z.add_0_l, IH; [done | done | lia..].
Qed.

Lemma length_to_be_bytes n v : length (to_be_bytes n v) = n.
Proof. unfold to_be_bytes. by rewrite length_reverse, length_to_le_bytes. Qed.

Lemma from_to_be_bytes n v : 0 ≤ v < 256 ^ Z.of_nat n → from_be_bytes (to_be_bytes n v) = v.
Proof. intros Hv. unfold from_be_bytes, to_be_bytes. rewrite reverse_involutive. by apply from_to_le_bytes. Qed.

Lemma from_le_bytes_app a b :
  from_le_bytes (a ++ b) = from_le_bytes a + 256 ^ Z.of_nat (length a) * from_le_bytes b.
Proof.
  induction a as [|x a IH]; simpl; [lia|].
  rewrite IH, Nat2Z.inj_succ, Z.pow_succ_r by lia. lia.
Qed.

Lemma length_slice {A} (l : list A) a n : (a + n ≤ length l)%nat → length (slice l a n) = n.
Proof. intros. unfold slice. rewrite length_take, length_drop. lia. Qed.

Lemma take_app_length_eq {A} (a b : list A) n : n = length a → take n (a ++ b) = a.
Proof. intros ->. by rewrite take_app_length. Qed.

Lemma drop_app_length_eq {A} (a b : list A) n : n = length a → drop n (a ++ b) = b.
Proof. intros ->. by rewrite drop_app_length. Qed.

(** * Sums of amounts *)

Definition total (amounts : list Z) : Z := foldr Z.add 0 amounts.

Lemma total_nonneg l : Forall is_u64 l → 0 ≤ total l.
Proof. induction 1 as [|a l [Ha _] _ IH]; simpl; lia. Qed.

Lemma total_app a b : total (a ++ b) = total a + total b.
Proof. induction a; simpl; lia. Qed.

Create HintDb bytes_db.
Create Rewrite HintDb len_db.
#[export] Hint Resolve is_bytes_nil is_bytes_take is_bytes_drop to_le_bytes_is_bytes
  to_le_bytes_is_array wrap_bound : bytes_db.
#[export] Hint Rewrite @length_app @length_take @length_drop length_to_le_bytes @length_replicate
  @length_cons @length_nil : len_db.

(** Lengths of byte strings put together from pieces. *)
Ltac len := autorewrite with len_db; simpl; try lia.

(** * Fallible maps *)

(** [iter().map(f).collect::<Result<Vec<_>>>()] *)
Fixpoint collect {F A B} (f : A → result F B) (l : list A) : result F (list B) :=
  match l with
  | [] => Ok []
  | a :: l => b ← f a; bs ← collect f l; Ok (b :: bs)
  end.

Lemma collect_Ok {F A B} (f : A → result F B) l bs : collect f l = Ok bs ↔ Forall2 (λ a b, f a = Ok b) l bs.
Proof.
  revert bs. induction l as [|a l IH]; intros bs; cbn [collect].
  - split; [intros [= <-]; constructor|by intros ->%Forall2_nil_inv_l].
  - split.
    + intros (b & Hb & (bs' & Hl & [= <-])%result_bind_Ok)%result_bind_Ok. constructor; [done|by apply IH].
    + intros (b & bs' & Hb & Hl & ->)%Forall2_cons_inv_l. rewrite Hb. cbn. by rewrite (proj2 (IH bs') Hl).
Qed.

Lemma collect_ext {F A B} (f g : A → result F B) l : (∀ a, a ∈ l → f a = g a) → collect f l = collect g l.
Proof.
  induction l as [|a l IH]; intros Hl; [done|]. cbn [collect]. rewrite (Hl a) by constructor.
  rewrite IH; [done|]. intros; apply Hl; by constructor.
Qed.

Lemma collect_total {F A B} (f : A → result F B) l : (∀ a, a ∈ l → ∃ b, f a = Ok b) → ∃ bs, collect f l = Ok bs.
Proof.
  induction l as [|a l IH]; intros Hl; [by eexists|]. destruct (Hl a ltac:(constructor)) as [b Hb].
  destruct IH as [bs Hbs]; [intros; apply Hl; by constructor|]. exists (b :: bs). cbn [collect]. by rewrite Hb; cbn; rewrite Hbs.
Qed.

(** * The order of byte strings *)

(** The order of a byte-wise comparison, the one an ordered store uses. *)
Fixpoint bytes_lt (a b : bytes) : Prop :=
  match a, b with
  | _, [] => False
  | [], _ => True
  | x :: a, y :: b => x < y ∨ x = y ∧ bytes_lt a b
  end.

Lemma bytes_lt_app_r a b x y : length a = length b → bytes_lt (a ++ x) (b ++ y) ↔ bytes_lt a b ∨ a = b ∧ bytes_lt x y.
Proof.
  revert b. induction a as [|c a IH]; intros [|d b] H; try done; cbn.
  - split; [by right|]. intros [[]|[_ H']]. exact H'.
  - rewrite IH by (injection H; auto). split; [intros [?|[-> [?|[-> ?]]]] | intros [[?|[-> ?]]|[[= -> ->] ?]]]; auto 6.
Qed.

Lemma bytes_lt_irrefl a : ¬ bytes_lt a a.
Proof. induction a as [|c a IH]; cbn; [auto|]. intros [?|[_ ?]]; [lia|auto]. Qed.

#[export] Instance bytes_lt_dec a b : Decision (bytes_lt a b).
Proof.
  revert b. induction a as [|x a IH]; intros [|y b]; cbn; [right; tauto|left; tauto|right; tauto|]. apply _.
Defined.

Definition bytes_le (a b : bytes) : Prop := ¬ bytes_lt b a.

#[export] Instance bytes_le_dec : RelDecision bytes_le.
Proof. intros a b. unfold bytes_le. apply _. Defined.

Lemma bytes_lt_trans a b c : bytes_lt a b → bytes_lt b c → bytes_lt a c.
Proof.
  revert b c. induction a as [|x a IH]; intros [|y b] [|z c]; cbn; try tauto.
  intros [?|[-> ?]] [?|[-> ?]]; [left; lia|by left|by left|right; eauto].
Qed.

Lemma bytes_trichotomy a b : bytes_lt a b ∨ a = b ∨ bytes_lt b a.
Proof.
  revert b. induction a as [|x a IH]; intros [|y b]; cbn; auto.
  destruct (Z.lt_trichotomy x y) as [?|[->|?]]; [by left; left| |by right; right; left].
  destruct (IH b) as [?|[->|?]]; auto.
Qed.

Lemma bytes_le_cases a b : bytes_le a b ↔ bytes_lt a b ∨ a = b.
Proof.
  unfold bytes_le. destruct (bytes_trichotomy a b) as [H|[->|H]].
  - split; [by left|]. intros _ H'. by apply (bytes_lt_irrefl a), (bytes_lt_trans a b a).
  - split; [by right|]. intros _. apply bytes_lt_irrefl.
  - split; [tauto|]. intros [H'| ->] _; [|by apply bytes_lt_irrefl in H]. by apply (bytes_lt_irrefl a), (bytes_lt_trans a b a).
Qed.

Lemma bytes_lt_not_ge a b : bytes_lt a b → ¬ bytes_le b a.
Proof. unfold bytes_le. tauto. Qed.

#[export] Instance bytes_le_total : Total bytes_le.
Proof. intros a b. rewrite !bytes_le_cases. destruct (bytes_trichotomy a b) as [?|[->|?]]; auto. Qed.

#[export] Instance bytes_le_trans : Transitive bytes_le.
Proof.
  intros a b c. rewrite !bytes_le_cases. intros [?| ->] [?| ->]; auto. left. by apply (bytes_lt_trans a b c).
Qed.

(** * Loops

    [loop] of the source with an exit, run at most [p] times. The bound is binary, so a
    bound of [2^64] costs nothing when the loop ends early. *)

Section IterUntil.
Context {S R : Type} (f : S → S + R).

Fixpoint iter_until (p : positive) (s : S) : S + R :=
  match p with
  | xH => f s
  | xO p => match iter_until p s with inl s => iter_until p s | inr r => inr r end
  | xI p =>
      match f s with
      | inl s => match iter_until p s with inl s => iter_until p s | inr r => inr r end
      | inr r => inr r
      end
  end.

Lemma iter_until_inv (P : S → Prop) (Q : R → Prop) p s :
  (∀ s, P s → match f s with inl s' => P s' | inr r => Q r end) → P s →
  match iter_until p s with inl s' => P s' | inr r => Q r end.
Proof.
  intros Hf. revert s. induction p as [p IH|p IH|]; intros s Hs; cbn [iter_until]; [| |by apply Hf].
  - specialize (Hf s Hs). destruct (f s) as [s1|r]; [|done]. specialize (IH s1 Hf) as IH1. destruct (iter_until p s1); [|done]. by apply IH.
  - specialize (IH s Hs) as IH1. destruct (iter_until p s); [|done]. by apply IH.
Qed.

(** A measure that goes down ends the loop within the bound. *)
Lemma iter_until_ends (P : S → Prop) (m : S → Z) p s :
  (∀ s s', P s → f s = inl s' → P s' ∧ 0 ≤ m s' < m s) → P s → m s < Zpos p → ∃ r, iter_until p s = inr r.
Proof.
  intros Hf. assert (∀ s s', P s → iter_until p s = inl s' → P s' ∧ 0 ≤ m s' ∧ m s' + Zpos p ≤ m s) as H.
  { clear s. induction p as [p IH|p IH|]; intros s s' Hs; cbn [iter_until].
    - destruct (f s) as [s1|] eqn:E1; [|done]. destruct (iter_until p s1) as [s2|] eqn:E2; [|done]. intros E3.
      destruct (Hf s s1) as [H1 ?]; [done..|]. destruct (IH s1 s2) as (H2 & ? & ?); [done..|]. destruct (IH s2 s') as (? & ? & ?); [done..|]. split; [done|lia].
    - destruct (iter_until p s) as [s2|] eqn:E2; [|done]. intros E3.
      destruct (IH s s2) as (H2 & ? & ?); [done..|]. destruct (IH s2 s') as (? & ? & ?); [done..|]. split; [done|lia].
    - intros E. destruct (Hf s s' Hs E) as [? ?]. split; [done|lia]. }
  intros Hs Hm. destruct (iter_until p s) as [s'|r] eqn:E; [|by exists r]. destruct (H s s' Hs E) as (_ & ? & ?). lia.
Qed.

End IterUntil.
