(* ===== verification/Constants.v ===== *)
(** Network parameters and the tables derived from them
    (crates/wrkz-primitives/src/constants.rs). *)
From S2P Require Import Prelude.
Local Open Scope Z_scope.

(** Identity. *)
Definition CRYPTONOTE_PUBLIC_ADDRESS_BASE58_PREFIX : Z := 999730.
Definition GENESIS_NONCE : Z := 70.

(** Supply and reward. *)
Definition MONEY_SUPPLY : Z := 50_000_000_000_000.
Definition EMISSION_SPEED_FACTOR : Z := 22.
Definition GENESIS_BLOCK_REWARD : Z := MONEY_SUPPLY * 3 / 100.
Definition FIXED_REWARD_V1 : Z := 1_000_000.
Definition FIXED_REWARD_V1_HEIGHT : Z := 1_500_000.
Definition CRYPTONOTE_MINED_MONEY_UNLOCK_WINDOW : Z := 40.
Definition CRYPTONOTE_REWARD_BLOCKS_WINDOW : nat := 100.
Definition CRYPTONOTE_BLOCK_GRANTED_FULL_REWARD_ZONE : Z := 100_000.
Definition CRYPTONOTE_BLOCK_GRANTED_FULL_REWARD_ZONE_V2 : Z := 20_000.
Definition CRYPTONOTE_BLOCK_GRANTED_FULL_REWARD_ZONE_V1 : Z := 10_000.
Definition CRYPTONOTE_COINBASE_BLOB_RESERVED_SIZE : Z := 600.

(** Block versions. *)
Definition UPGRADE_HEIGHTS : list (Z * Z) :=
  [(2, 1); (3, 2); (4, 3); (5, 302_400); (6, 600_000); (7, 1_000_000)].

(** The loop over the table from its last row. *)
Fixpoint version_loop (rows : list (Z * Z)) (index : Z) : Z :=
  match rows with
  | [] => 1
  | (version, height) :: rows => if height <? index then version else version_loop rows index
  end.

Definition block_major_version_for_index (index : Z) : Z :=
  version_loop (reverse UPGRADE_HEIGHTS) index.

Definition full_reward_zone (major_version : Z) : Z :=
  if 3 <=? major_version then CRYPTONOTE_BLOCK_GRANTED_FULL_REWARD_ZONE
  else if major_version =? 2 then CRYPTONOTE_BLOCK_GRANTED_FULL_REWARD_ZONE_V2
  else CRYPTONOTE_BLOCK_GRANTED_FULL_REWARD_ZONE_V1.

Definition FORK_HEIGHTS : list Z :=
  [1; 40_000; 100_000; 302_400; 430_000; 543_000; 600_000; 678_500; 777_777; 832_000; 864_864; 1_000_000; 1_123_000;
   1_200_000; 1_500_000; 1_800_000; 2_500_000; 2_800_000; 3_500_000; 3_800_000; 4_300_000; 4_500_000].

(** Difficulty. *)
Definition DIFFICULTY_TARGET : Z := 60.
Definition ZAWY_DIFFICULTY_BLOCK_INDEX : Z := 20_160.
Definition ZAWY_DIFFICULTY_V2 : bool := false.
Definition ZAWY_DIFFICULTY_DIFFICULTY_BLOCK_VERSION : Z := 3.
Definition LWMA_2_DIFFICULTY_BLOCK_INDEX : Z := 100_000.
Definition LWMA_2_DIFFICULTY_BLOCK_INDEX_V2 : Z := 100_000.
Definition LWMA_2_DIFFICULTY_BLOCK_INDEX_V3 : Z := 128_800.
Definition DIFFICULTY_WINDOW : nat := 17.
Definition DIFFICULTY_WINDOW_V1 : nat := 2880.
Definition DIFFICULTY_WINDOW_V2 : nat := 2880.
Definition DIFFICULTY_WINDOW_V3 : nat := 60.
Definition DIFFICULTY_BLOCKS_COUNT_V3 : nat := 61.
Definition DIFFICULTY_CUT : nat := 0.
Definition DIFFICULTY_CUT_V1 : nat := 60.
Definition DIFFICULTY_CUT_V2 : nat := 60.
Definition DIFFICULTY_LAG : nat := 0.
Definition DIFFICULTY_LAG_V1 : nat := 15.
Definition DIFFICULTY_LAG_V2 : nat := 15.
Definition CRYPTONOTE_BLOCK_FUTURE_TIME_LIMIT : Z := 7200.
Definition CRYPTONOTE_BLOCK_FUTURE_TIME_LIMIT_V3 : Z := 3 * DIFFICULTY_TARGET.
Definition CRYPTONOTE_BLOCK_FUTURE_TIME_LIMIT_V4 : Z := 6 * DIFFICULTY_TARGET.
Definition BLOCKCHAIN_TIMESTAMP_CHECK_WINDOW : nat := 60.
Definition BLOCKCHAIN_TIMESTAMP_CHECK_WINDOW_V3 : nat := 11.

Definition block_future_time_limit (index : Z) : Z :=
  if LWMA_2_DIFFICULTY_BLOCK_INDEX_V3 <=? index then CRYPTONOTE_BLOCK_FUTURE_TIME_LIMIT_V4
  else if LWMA_2_DIFFICULTY_BLOCK_INDEX <=? index then CRYPTONOTE_BLOCK_FUTURE_TIME_LIMIT_V3
  else CRYPTONOTE_BLOCK_FUTURE_TIME_LIMIT.

Definition timestamp_check_window (index : Z) : nat :=
  if LWMA_2_DIFFICULTY_BLOCK_INDEX_V3 <=? index then BLOCKCHAIN_TIMESTAMP_CHECK_WINDOW_V3
  else BLOCKCHAIN_TIMESTAMP_CHECK_WINDOW.

Definition difficulty_window (major_version : Z) : nat :=
  if 3 <=? major_version then DIFFICULTY_WINDOW
  else if major_version =? 2 then DIFFICULTY_WINDOW_V2
  else DIFFICULTY_WINDOW_V1.

Definition difficulty_cut (major_version : Z) : nat :=
  if 3 <=? major_version then DIFFICULTY_CUT
  else if major_version =? 2 then DIFFICULTY_CUT_V2
  else DIFFICULTY_CUT_V1.

Definition difficulty_lag (major_version : Z) : nat :=
  if 3 <=? major_version then DIFFICULTY_LAG
  else if major_version =? 2 then DIFFICULTY_LAG_V2
  else DIFFICULTY_LAG_V1.

Definition difficulty_blocks_count (major_version parent_index : Z) : nat :=
  if LWMA_2_DIFFICULTY_BLOCK_INDEX <=? parent_index then DIFFICULTY_BLOCKS_COUNT_V3
  else (difficulty_window major_version + difficulty_lag major_version)%nat.

(** Block size. *)
Definition CRYPTONOTE_MAX_BLOCK_NUMBER : Z := 500_000_000.
Definition MAX_BLOCK_SIZE_INITIAL : Z := 100_000.
Definition MAX_BLOCK_SIZE_GROWTH_SPEED_NUMERATOR : Z := 100 * 1024.
Definition MAX_BLOCK_SIZE_GROWTH_SPEED_DENOMINATOR : Z := 365 * 24 * 60 * 60 / DIFFICULTY_TARGET.
Definition MAX_EXTRA_SIZE_V2 : Z := 1024.
Definition MAX_EXTRA_SIZE_V2_HEIGHT : Z := 543_000.
Definition BLOCK_BLOB_SHUFFLE_CHECK_HEIGHT : Z := 600_000.
Definition TRANSACTION_SIGNATURE_COUNT_VALIDATION_HEIGHT : Z := 543_000.
Definition TRANSACTION_INPUT_BLOCKTIME_VALIDATION_HEIGHT : Z := 600_000.

Definition max_block_cumulative_size (height : Z) : Z :=
  wrapping_add 64 MAX_BLOCK_SIZE_INITIAL
    (wrapping_mul 64 height MAX_BLOCK_SIZE_GROWTH_SPEED_NUMERATOR / MAX_BLOCK_SIZE_GROWTH_SPEED_DENOMINATOR).

(** Fees. *)
Definition MINIMUM_FEE : Z := 5.
Definition MINIMUM_FEE_V1 : Z := 50_000.
Definition MINIMUM_FEE_V1_HEIGHT : Z := 678_500.
Definition FEE_PER_BYTE_CHUNK_SIZE : Z := 256.
Definition FEE_PER_BYTE_CHUNK_SIZE_V2 : Z := 128.
Definition MINIMUM_FEE_PER_BYTE_V1_HEIGHT : Z := 832_000.
Definition MINIMUM_FEE_PER_BYTE_V2_HEIGHT : Z := 1_500_000.
Definition FUSION_FEE_V1_HEIGHT : Z := 864_864.
Definition FUSION_FEE_V1 : Z := 10_000.
Definition FUSION_ZERO_FEE_V2_HEIGHT : Z := 1_123_000.

(** Mixins. *)
Definition MINIMUM_MIXIN_V1 : Z := 0.
Definition MAXIMUM_MIXIN_V1 : Z := 30.
Definition MINIMUM_MIXIN_V2 : Z := 3.
Definition MAXIMUM_MIXIN_V2 : Z := 7.
Definition MINIMUM_MIXIN_V3 : Z := 0.
Definition MAXIMUM_MIXIN_V3 : Z := 7.
Definition MINIMUM_MIXIN_V4 : Z := 1.
Definition MAXIMUM_MIXIN_V4 : Z := 3.
Definition MINIMUM_MIXIN_V5 : Z := 1.
Definition MAXIMUM_MIXIN_V5 : Z := 1.
Definition MINIMUM_MIXIN_V6 : Z := 1.
Definition MAXIMUM_MIXIN_V6 : Z := 7.
Definition MIXIN_LIMITS_V1_HEIGHT : Z := 10_000.
Definition MIXIN_LIMITS_V2_HEIGHT : Z := 302_400.
Definition MIXIN_LIMITS_V3_HEIGHT : Z := 430_000.
Definition MIXIN_LIMITS_V4_HEIGHT : Z := 658_500.
Definition MIXIN_LIMITS_V5_HEIGHT : Z := 1_000_000.
Definition MIXIN_LIMITS_V6_HEIGHT : Z := 4_300_000.
Definition DEFAULT_MIXIN_V0 : Z := 3.
Definition DEFAULT_MIXIN_V1 : Z := MINIMUM_MIXIN_V2.
Definition DEFAULT_MIXIN_V2 : Z := MINIMUM_MIXIN_V2.
Definition DEFAULT_MIXIN_V3 : Z := MINIMUM_MIXIN_V2.
Definition DEFAULT_MIXIN_V4 : Z := MAXIMUM_MIXIN_V4.
Definition DEFAULT_MIXIN_V5 : Z := MAXIMUM_MIXIN_V5.
Definition DEFAULT_MIXIN_V6 : Z := MAXIMUM_MIXIN_V6.

(** Unlock times and dust. *)
Definition UNLOCK_TIME_HEIGHT : Z := 1_200_000.
Definition UNLOCK_TIME_HEIGHT_V2 : Z := 1_500_000.
Definition MINIMUM_UNLOCK_TIME_BLOCKS : Z := 15.
Definition CRYPTONOTE_LOCKED_TX_ALLOWED_DELTA_BLOCKS : Z := 1.
Definition CRYPTONOTE_LOCKED_TX_ALLOWED_DELTA_SECONDS : Z :=
  DIFFICULTY_TARGET * CRYPTONOTE_LOCKED_TX_ALLOWED_DELTA_BLOCKS.
Definition DEFAULT_DUST_THRESHOLD : Z := 10.
Definition DEFAULT_DUST_THRESHOLD_V2 : Z := 0.
Definition DUST_THRESHOLD_V2_HEIGHT : Z := MIXIN_LIMITS_V2_HEIGHT.
Definition FUSION_DUST_THRESHOLD_HEIGHT_V2 : Z := 400_000.

Definition default_dust_threshold (height : Z) : Z :=
  if DUST_THRESHOLD_V2_HEIGHT <=? height then DEFAULT_DUST_THRESHOLD_V2 else DEFAULT_DUST_THRESHOLD.

Definition default_fusion_dust_threshold (height : Z) : Z :=
  if FUSION_DUST_THRESHOLD_HEIGHT_V2 <=? height then DEFAULT_DUST_THRESHOLD_V2 else DEFAULT_DUST_THRESHOLD.

(** Outputs and fusion. *)
Definition MAX_OUTPUT_SIZE_NODE : Z := 12_500_000_000_000.
Definition MAX_OUTPUT_SIZE_HEIGHT : Z := 800_000.
Definition NORMAL_TX_MAX_OUTPUT_COUNT_V1 : Z := 90.
Definition NORMAL_TX_MAX_OUTPUT_COUNT_V1_HEIGHT : Z := 777_777.
Definition FUSION_TX_MAX_SIZE : Z := CRYPTONOTE_BLOCK_GRANTED_FULL_REWARD_ZONE * 30 / 100.
Definition FUSION_TX_MIN_INPUT_COUNT : Z := 12.
Definition FUSION_TX_MIN_IN_OUT_COUNT_RATIO : Z := 4.

(** Transaction proof of work. *)
Definition TRANSACTION_POW_HEIGHT : Z := 1_123_000.
Definition TRANSACTION_POW_DIFFICULTY : Z := 20_000.
Definition FUSION_TRANSACTION_POW_DIFFICULTY : Z := 60_000.
Definition TRANSACTION_POW_HEIGHT_DYN_V1 : Z := 1_200_000.
Definition TRANSACTION_POW_DIFFICULTY_DYN_V1 : Z := 40_000.
Definition MULTIPLIER_TRANSACTION_POW_DIFFICULTY_PER_IO_V1 : Z := 1000.
Definition MULTIPLIER_TRANSACTION_POW_DIFFICULTY_FACTORED_OUT_V1 : Z := 4.
Definition FUSION_TRANSACTION_POW_DIFFICULTY_V2 : Z := 320_000.
Definition TRANSACTION_POW_PASS_WITH_FEE_HEIGHT : Z := 1_500_000.
Definition TRANSACTION_POW_PASS_WITH_FEE : Z := 10_000.

Definition transaction_pow_difficulty (h : Z) (is_fusion : bool) (inputs outputs : Z) : option Z :=
  if h <? TRANSACTION_POW_HEIGHT then None
  else Some (
    if h <=? TRANSACTION_POW_HEIGHT_DYN_V1 then
      if is_fusion then FUSION_TRANSACTION_POW_DIFFICULTY else TRANSACTION_POW_DIFFICULTY
    else if is_fusion then FUSION_TRANSACTION_POW_DIFFICULTY_V2
    else saturating_add 64 TRANSACTION_POW_DIFFICULTY_DYN_V1
      (saturating_mul 64
        (saturating_add 64 inputs (saturating_mul 64 outputs MULTIPLIER_TRANSACTION_POW_DIFFICULTY_FACTORED_OUT_V1))
        MULTIPLIER_TRANSACTION_POW_DIFFICULTY_PER_IO_V1)).

(** Alternative chains. *)
Definition CRYPTONOTE_MAX_ALT_BLOCK_DEPTH : Z := 180.

(** Wallet. *)
Definition GENESIS_BLOCK_TIMESTAMP : Z := 1_529_831_318.
Definition UNLOCK_TIME_TRANSACTION_POOL_WINDOW : Z := 40.
Definition UNLOCK_TIME_TRANSACTION_POOL_WINDOW_V2 : Z := 20.
Definition MAX_OUTPUT_SIZE_CLIENT : Z := 500_000_000_000.
Definition WALLET_FILE_FORMAT_VERSION : Z := 0.
Definition LAST_KNOWN_BLOCK_HASHES_SIZE : nat := 50.
Definition BLOCK_HASH_CHECKPOINTS_INTERVAL : Z := 5000.
Definition PRUNE_SPENT_INPUTS_INTERVAL : Z := 2880.
Definition GLOBAL_INDEXES_OBSCURITY : Z := 10.
Definition BLOCK_PROCESSING_CHUNK : nat := 500.
Definition ADDRESS_PREFIX : bytes := ascii_bytes "Wrkz".
Definition BLOCKS_SYNCHRONIZING_DEFAULT_COUNT : Z := 100.
Definition MAX_BLOCKS_PER_SYNC_REQUEST : Z := 1000.
Definition SYNC_REQUEST_CONCURRENCY : Z := 4.
Definition UNEXPLAINED_SYNC_START_LIMIT : Z := 3.
Definition GLOBAL_INDEX_MAX_RETRIES : nat := 3.
Definition BLOCKS_SYNCHRONIZING_SKIP_EMPTY_SCAN_MULTIPLIER : Z := 20.
Definition BLOCKS_SYNCHRONIZING_SKIP_EMPTY_MAX_SCAN : Z := 50_000.
Definition SHORT_PAYMENT_ID_LENGTH : nat := 16.
Definition LONG_PAYMENT_ID_LENGTH : nat := 64.
Definition TX_POW_NONCE_SIZE : nat := 8.

(** Pretty amounts. The loop [while a.is_multiple_of(10) { a /= 10 }] ends within
    nineteen divisions on a non-zero [u64]. *)
Fixpoint strip_zeros (fuel : nat) (a : Z) : Z :=
  match fuel with
  | O => a
  | S fuel => if a mod 10 =? 0 then strip_zeros fuel (a / 10) else a
  end.

Definition is_pretty_amount (amount : Z) : bool :=
  if (amount =? 0) || (9_000_000_000_000_000_000 <? amount) then false
  else strip_zeros 20 amount <? 10.

Fixpoint pretty_loop (n : nat) (order : Z) (out : list Z) : list Z :=
  match n with
  | O => out
  | S n => pretty_loop n (wrapping_mul 64 order 10) (out ++ map (λ d, d * order) (seqZ 1 9))
  end.

Definition pretty_amounts : list Z := pretty_loop 19 1 [].

(** * Properties of the tables *)

Lemma strip_zeros_spec fuel a :
  0 < a → ∃ k, (k ≤ fuel)%nat ∧ a = strip_zeros fuel a * 10 ^ Z.of_nat k ∧ 0 < strip_zeros fuel a ∧
    (strip_zeros fuel a mod 10 ≠ 0 ∨ k = fuel).
Proof.
  revert a. induction fuel as [|fuel IH]; intros a Ha; simpl.
  { exists 0%nat. simpl. split_and!; lia. }
  destruct (Z.eqb_spec (a mod 10) 0) as [Hz|Hz].
  - destruct (IH (a / 10)) as (k & Hk & Heq & Hp & Hs); [pose proof (Z.div_mod a 10); lia|].
    exists (S k). rewrite Nat2Z.inj_succ, Z.pow_succ_r by lia.
    pose proof (Z.div_mod a 10). split_and!; [lia | nia | done | lia].
  - exists 0%nat. simpl. split_and!; lia.
Qed.

Lemma pow10_lt (k : nat) m : (m < k)%nat → 10 ^ Z.of_nat (S m) ≤ 10 ^ Z.of_nat k.
Proof. intros. apply Z.pow_le_mono_r; lia. Qed.

(** [is_pretty_amount] decides membership in the 171-entry table
    [pretty_amounts] of amounts [d * 10^k], so the wallet's output check and the
    table agree on every 64-bit amount, the amounts above the table included. *)
Theorem is_pretty_amount_spec amount :
  is_u64 amount → is_pretty_amount amount = true ↔ amount ∈ pretty_amounts.
Proof.
  intros Hu. unfold in_u in Hu. split.
  - unfold is_pretty_amount. case_bool; bool_hyps; [done|]. intros ?; bool_hyps.
    destruct (strip_zeros_spec 20 amount) as (k & Hk & Heq & Hp & Hs); [lia|].
    remember (strip_zeros 20 amount) as d eqn:Hd. clear Hd.
    assert (k < 19)%nat as Hk19.
    { destruct (decide (k < 19)%nat) as [|Hge]; [done|].
      pose proof (pow10_lt k 18 ltac:(lia)) as Hpow. simpl in Hpow. nia. }
    subst amount. apply list_elem_of_In.
    assert (∀ k d, (k < 19)%nat → 0 < d < 10 → In (d * 10 ^ Z.of_nat k) pretty_amounts) as Hin.
    { clear. intros k d Hk Hd.
      assert (forallb (λ k, forallb (λ d, existsb (Z.eqb (d * 10 ^ Z.of_nat k)) pretty_amounts) (seqZ 1 9)) (seq 0 19) = true)
        as Hall by (vm_compute; reflexivity).
      rewrite forallb_forall in Hall. specialize (Hall k). rewrite in_seq in Hall.
      specialize (Hall ltac:(lia)). rewrite forallb_forall in Hall.
      specialize (Hall d ltac:(apply list_elem_of_In, elem_of_seqZ; lia)).
      apply existsb_exists in Hall as (x & Hx & Heq). apply Z.eqb_eq in Heq. by subst. }
    by apply Hin.
  - intros Hin. apply list_elem_of_In in Hin.
    assert (forallb is_pretty_amount pretty_amounts = true) as Hall by (vm_compute; reflexivity).
    rewrite forallb_forall in Hall. by apply Hall.
Qed.

Lemma is_pretty_amount_spec_witness : is_u64 700_000 ∧ (is_pretty_amount 700_000 = true ↔ 700_000 ∈ pretty_amounts).
Proof. split; [unfold in_u; lia|]. apply (is_pretty_amount_spec 700_000). unfold in_u; lia. Defined.
