(* ===== verification/F64.v ===== *)
(** The binary64 operations the sources use ([f64] of the language): conversions,
    [from_bits], [to_bits], [sqrt], [*], [/], comparison, as the IEEE-754
    operations of the Standard Library's [SpecFloat] at precision 53, with the
    lemmas that say when they are exact. *)
From Stdlib Require Import SpecFloat.
From S2P Require Import Prelude.
Local Open Scope Z_scope.

Definition f64 : Type := spec_float.

Definition f64_sqrt (x : f64) : f64 := SFsqrt 53 1024 x.
Definition f64_mul (x y : f64) : f64 := SFmul 53 1024 x y.
Definition f64_div (x y : f64) : f64 := SFdiv 53 1024 x y.
Definition f64_gt (x y : f64) : bool := SFltb y x.

(** [v as f64] for a [u64]. *)
Definition f64_of_u64 (v : Z) : f64 := binary_normalize 53 1024 v 0 false.

(** [x as u64]: truncation, saturating at both ends, zero for NaN. *)
Definition f64_to_u64 (x : f64) : Z :=
  match x with
  | S754_finite false m e => Z.min u64_max (Z.shiftl (Z.pos m) e)
  | S754_infinity false => u64_max
  | _ => 0
  end.

Definition f64_from_bits (b : Z) : f64 :=
  let s := Z.testbit b 63 in
  let e := Z.land (Z.shiftr b 52) 2047 in
  let m := b mod 2 ^ 52 in
  if e =? 0 then match m with Z.pos p => S754_finite s p (-1074) | _ => S754_zero s end
  else if e =? 2047 then (if m =? 0 then S754_infinity s else S754_nan)
  else match m + 2 ^ 52 with Z.pos p => S754_finite s p (e - 1075) | _ => S754_nan end.

Definition f64_to_bits (x : f64) : Z :=
  let sign (s : bool) := if s then 2 ^ 63 else 0 in
  match x with
  | S754_zero s => sign s
  | S754_infinity s => sign s + 2047 * 2 ^ 52
  | S754_nan => 2047 * 2 ^ 52 + 2 ^ 51
  | S754_finite s m e =>
      if Z.pos m <? 2 ^ 52 then sign s + Z.pos m
      else sign s + (e + 1075) * 2 ^ 52 + (Z.pos m - 2 ^ 52)
  end.

(** * Digits and shifts *)

Lemma digits2_log2 p : Z.pos (digits2_pos p) = Z.log2 (Z.pos p) + 1.
Proof.
  assert (digits2_pos p = Pos.size p) as -> by (induction p; simpl; congruence).
  destruct p; simpl Pos.size; rewrite ?Pos2Z.inj_succ; done.
Qed.

Lemma Zdigits2_unique m d : 0 ≤ d → 2 ^ d ≤ m < 2 ^ (d + 1) → Zdigits2 m = d + 1.
Proof.
  intros Hd Hm. destruct m as [|p|p]; [pose proof (Z.pow_pos_nonneg 2 d); lia | | pose proof (Z.pow_pos_nonneg 2 d); lia].
  simpl Zdigits2. rewrite digits2_log2. f_equal. apply Z.log2_unique; [lia|]. by rewrite Z.add_1_r in Hm.
Qed.

Lemma iter_pos_nat {A} (f : A → A) (p : positive) (x : A) : SpecFloat.iter_pos f p x = Nat.iter (Pos.to_nat p) f x.
Proof.
  assert (∀ n m y, Nat.iter n f (Nat.iter m f y) = Nat.iter (n + m) f y) as Hadd.
  { induction n; intros; simpl; congruence. }
  revert x. induction p as [p IH|p IH|]; intros x; simpl SpecFloat.iter_pos; [| |done].
  - rewrite !IH, Hadd. change (f x) with (Nat.iter 1 f x). rewrite Hadd. f_equal. lia.
  - rewrite !IH, Hadd. f_equal. lia.
Qed.

(** Shifting out zero bits loses nothing. *)
Lemma shr_1_even m : 0 < m →
  shr_1 {| shr_m := m * 2; shr_r := false; shr_s := false |} = {| shr_m := m; shr_r := false; shr_s := false |}.
Proof. intros. destruct m as [|p|p]; try lia. rewrite Z.mul_comm. done. Qed.

Lemma shr_exact m e n : 0 < m → 0 ≤ n →
  shr {| shr_m := m * 2 ^ n; shr_r := false; shr_s := false |} e n =
  ({| shr_m := m; shr_r := false; shr_s := false |}, e + n).
Proof.
  intros Hm Hn. destruct n as [|p|p]; [simpl; by rewrite Z.mul_1_r, Z.add_0_r | | lia].
  unfold shr. rewrite iter_pos_nat. f_equal. rewrite <- (positive_nat_Z p).
  generalize (Pos.to_nat p). intros n. induction n as [|n IH]; [simpl; by rewrite Z.mul_1_r|].
  rewrite Nat2Z.inj_succ, Z.pow_succ_r, Nat.iter_succ_r by lia.
  replace (m * (2 * 2 ^ Z.of_nat n)) with (m * 2 ^ Z.of_nat n * 2) by ring.
  rewrite shr_1_even; [done|]. pose proof (Z.pow_pos_nonneg 2 (Z.of_nat n)). nia.
Qed.

(** * Normal positive numbers *)

(** [x] is the float of value [m * 2 ^ e], [m] an integer of at most 53 bits. *)
Definition is_norm (x : f64) (m e : Z) : Prop :=
  ∃ p k, x = S754_finite false p (e - k) ∧ 0 ≤ k ∧ Z.pos p = m * 2 ^ k ∧ 2 ^ 52 ≤ Z.pos p < 2 ^ 53.

Lemma fexp_normal e : -900 ≤ e → fexp 53 1024 e = e - 53.
Proof. unfold fexp, emin. lia. Qed.

(** A mantissa of 53 bits rounds to itself. *)
Lemma round_aux_53 p e : 2 ^ 52 ≤ Z.pos p < 2 ^ 53 → -900 ≤ e ≤ 900 →
  binary_round_aux 53 1024 false (Z.pos p) e loc_Exact = S754_finite false p e.
Proof.
  intros Hp He. unfold binary_round_aux, shr_fexp.
  rewrite (Zdigits2_unique (Z.pos p) 52), fexp_normal by lia.
  replace (52 + 1 + e - 53 - e) with 0 by lia. cbn [shr shr_record_of_loc shr_m loc_of_shr_record round_nearest_even].
  rewrite (Zdigits2_unique (Z.pos p) 52), fexp_normal by lia.
  replace (52 + 1 + e - 53 - e) with 0 by lia. cbn [shr shr_m].
  destruct (e <=? _) eqn:E; bool_hyps; [done|lia].
Qed.

Lemma round_aux_exact c n e : 2 ^ 52 ≤ Z.pos c < 2 ^ 53 → 0 ≤ n → -900 ≤ e → e + n ≤ 900 →
  binary_round_aux 53 1024 false (Z.pos c * 2 ^ n) e loc_Exact = S754_finite false c (e + n).
Proof.
  intros Hc Hn He Hen.
  assert (shr_fexp 53 1024 (Z.pos c * 2 ^ n) e loc_Exact =
    ({| shr_m := Z.pos c; shr_r := false; shr_s := false |}, e + n)) as Hs.
  { unfold shr_fexp. rewrite (Zdigits2_unique _ (52 + n)), fexp_normal; [| lia | lia |].
    - replace (52 + n + 1 + e - 53 - e) with n by lia. by apply shr_exact.
    - replace (52 + n + 1) with (53 + n) by lia. rewrite !Z.pow_add_r by lia.
      pose proof (Z.pow_pos_nonneg 2 n). nia. }
  rewrite <- (round_aux_53 c (e + n)) by lia. unfold binary_round_aux. rewrite Hs.
  assert (shr_fexp 53 1024 (Z.pos c) (e + n) loc_Exact =
    ({| shr_m := Z.pos c; shr_r := false; shr_s := false |}, e + n)) as Hs2; [|by rewrite Hs2].
  unfold shr_fexp. rewrite (Zdigits2_unique _ 52), fexp_normal by lia.
  by replace (52 + 1 + (e + n) - 53 - (e + n)) with 0 by lia.
Qed.

(** The scale of a 53-bit mantissa. *)
Lemma norm_scale m : 0 < m < 2 ^ 53 → 2 ^ 52 ≤ m * 2 ^ (52 - Z.log2 m) < 2 ^ 53 ∧ 0 ≤ Z.log2 m ≤ 52.
Proof.
  intros Hm. pose proof (Z.log2_nonneg m).
  assert (Z.log2 m ≤ 52) by (apply Z.lt_succ_r, Z.log2_lt_pow2; lia).
  destruct (Z.log2_spec m) as [Hl Hu]; [lia|]. split; [|lia].
  assert (2 ^ 52 = 2 ^ Z.log2 m * 2 ^ (52 - Z.log2 m)) as E1 by (rewrite <- Z.pow_add_r by lia; f_equal; lia).
  assert (2 ^ 53 = 2 ^ Z.succ (Z.log2 m) * 2 ^ (52 - Z.log2 m)) as E2 by (rewrite <- Z.pow_add_r by lia; f_equal; lia).
  rewrite E1 at 1. rewrite E2. pose proof (Z.pow_pos_nonneg 2 (52 - Z.log2 m)). nia.
Qed.

Lemma of_u64_norm v : 0 < v < 2 ^ 53 → is_norm (f64_of_u64 v) v 0.
Proof.
  intros Hv. pose proof (norm_scale v Hv) as [Hs Hl]. destruct v as [|p|p]; try lia.
  unfold f64_of_u64, binary_normalize, binary_round.
  rewrite digits2_log2, fexp_normal by lia. unfold shl_align.
  set (k := 52 - Z.log2 (Z.pos p)) in *.
  replace (Z.log2 (Z.pos p) + 1 + 0 - 53 - 0) with (- k) by lia.
  assert (0 ≤ k) as Hk by lia. destruct k as [|q|q] eqn:Ek; [| |lia].
  - exists p, 0. rewrite Z.mul_1_r in *. split_and!; try lia. simpl. by rewrite round_aux_53 by lia.
  - change (- Z.pos q) with (Z.neg q). cbv iota.
    exists (Pos.iter xO p q), (Z.pos q).
    assert (Z.pos (Pos.iter xO p q) = Z.pos p * 2 ^ Z.pos q) as Eq.
    { clear. induction q as [|q IH] using Pos.peano_ind; [by rewrite Z.mul_comm|].
      rewrite Pos.iter_succ, Pos2Z.inj_succ, Z.pow_succ_r, (Pos2Z.inj_xO (Pos.iter xO p q)), IH by lia. ring. }
    rewrite Eq. split_and!; try lia.
    replace (Z.log2 (Z.pos p) + 1 + 0 - 53) with (0 - Z.pos q) by lia.
    rewrite <- Eq. apply round_aux_53; lia.
Qed.

Lemma mul_norm x y a b ea eb : is_norm x a ea → is_norm y b eb → 0 < a * b < 2 ^ 53 →
  0 < a → 0 < b → -200 ≤ ea ≤ 200 → -200 ≤ eb ≤ 200 →
  is_norm (f64_mul x y) (a * b) (ea + eb).
Proof.
  intros (p&k&->&Hk&Ep&Hp) (q&l&->&Hl&Eq&Hq) Hab Ha Hb Hea Heb.
  destruct (norm_scale (a * b) Hab) as [Hs Hlog]. set (j := 52 - Z.log2 (a * b)) in *.
  unfold f64_mul, SFmul. cbn [xorb]. rewrite Pos2Z.inj_mul, Ep, Eq.
  assert (k ≤ 52 ∧ l ≤ 52) as [Hk2 Hl2].
  { split; apply Z.lt_succ_r, (Z.pow_lt_mono_r_iff 2); nia. }
  assert (j ≤ k + l) as Hj.
  { apply Z.lt_succ_r, (Z.pow_lt_mono_r_iff 2); [lia|lia|]. rewrite Z.pow_succ_r by lia.
    rewrite Z.pow_add_r by lia.
    assert (2 ^ 104 ≤ a * b * (2 ^ k * 2 ^ l)) by nia.
    assert (a * b * 2 ^ j < 2 ^ 53) by lia. nia. }
  assert (∃ c, Z.pos c = a * b * 2 ^ j) as [c Ec].
  { destruct (a * b * 2 ^ j) as [|c|c] eqn:E; [lia | by exists c | lia]. }
  replace (a * 2 ^ k * (b * 2 ^ l)) with (Z.pos c * 2 ^ (k + l - j)).
  2:{ rewrite Ec. replace (a * 2 ^ k * (b * 2 ^ l)) with (a * b * (2 ^ k * 2 ^ l)) by ring.
      rewrite <- Z.pow_add_r by lia. rewrite <- Z.mul_assoc, <- Z.pow_add_r by lia. do 2 f_equal. lia. }
  rewrite round_aux_exact by lia. exists c, j. split_and!; try lia. f_equal. lia.
Qed.

Lemma to_u64_norm x m e : is_norm x m e → f64_to_u64 x = Z.min u64_max (Z.shiftl m e).
Proof.
  intros (p&k&->&Hk&Ep&Hp). simpl. f_equal. rewrite Ep, <- Z.shiftl_mul_pow2 by done.
  rewrite Z.shiftl_shiftl by done. f_equal. lia.
Qed.

(** * Square root of a number in [1, 2) *)

Lemma f64_from_bits_1 f : 0 ≤ f < 2 ^ 52 →
  f64_from_bits (f + Z.shiftl 1023 52) = S754_finite false (Z.to_pos (f + 2 ^ 52)) (-52).
Proof.
  intros Hf. unfold f64_from_bits. change (Z.shiftl 1023 52) with (1023 * 2 ^ 52).
  rewrite Z.shiftr_div_pow2, Z.div_add, Z.div_small, Z.mod_add, Z.mod_small by lia.
  change (Z.land (0 + 1023) 2047) with 1023. simpl Z.eqb. cbv iota.
  assert (Z.testbit (f + 1023 * 2 ^ 52) 63 = false) as ->.
  { apply Z.bits_above_log2; [lia|]. apply Z.log2_lt_pow2; lia. }
  destruct (f + 2 ^ 52) as [|p|p] eqn:E; [lia | done | lia].
Qed.

(** The correctly rounded root: [sqrtf f] over [2 ^ 52], nearest to the root of
    [(2 ^ 52 + f) / 2 ^ 52]. *)
Definition sqrt_nearest (m : Z) : Z :=
  let q := Z.sqrt m in if m - q * q <=? q then q else q + 1.

Lemma f64_sqrt_1 f : 0 ≤ f < 2 ^ 52 →
  f64_to_bits (f64_sqrt (f64_from_bits (f + Z.shiftl 1023 52))) - Z.shiftl 1023 52 =
  sqrt_nearest ((f + 2 ^ 52) * 2 ^ 52) - 2 ^ 52.
Proof.
  intros Hf. rewrite f64_from_bits_1 by done. unfold f64_sqrt, SFsqrt, SFsqrt_core_binary.
  rewrite Z2Pos.id by lia. rewrite (Zdigits2_unique _ 52) by lia.
  change (Z.min (fexp 53 1024 (Z.div2 (52 + 1 + -52 + 1))) (Z.div2 (-52))) with (-52).
  change (-52 - 2 * -52) with 52. cbv iota zeta. rewrite Z.shiftl_mul_pow2 by lia.
  set (m := (f + 2 ^ 52) * 2 ^ 52). pose proof (Z.sqrtrem_sqrt m) as Hq.
  pose proof (Z.sqrtrem_spec m ltac:(lia)) as Hr. destruct (Z.sqrtrem m) as [q r] eqn:Eqr. cbn [fst] in Hq. subst q.
  unfold sqrt_nearest. replace (m - Z.sqrt m * Z.sqrt m) with r by lia.
  assert (2 ^ 52 ≤ Z.sqrt m) by (apply Z.sqrt_le_square; unfold m; nia).
  assert (Z.sqrt m < 2 ^ 53 - 1) by (apply Z.sqrt_lt_square; unfold m; nia).
  set (q := Z.sqrt m) in *.
  assert (∀ X, 2 ^ 52 ≤ X < 2 ^ 53 → f64_to_bits (S754_finite false (Z.to_pos X) (-52)) - Z.shiftl 1023 52 = X - 2 ^ 52) as Hbits.
  { intros X HX. unfold f64_to_bits. rewrite Z2Pos.id by lia. case_bool; bool_hyps; [lia|].
    change (Z.shiftl 1023 52) with (1023 * 2 ^ 52). lia. }
  assert (∀ l X, round_nearest_even q l = X → 2 ^ 52 ≤ X < 2 ^ 53 → (∀ o, l = loc_Inexact o → o ≠ Eq) →
    binary_round_aux 53 1024 false q (-52) l = S754_finite false (Z.to_pos X) (-52)) as Hround.
  { intros l X HX HXb Hl. unfold binary_round_aux, shr_fexp at 1.
    rewrite (Zdigits2_unique q 52) by lia. change (fexp 53 1024 (52 + 1 + -52) - -52) with 0. cbn [shr].
    assert (shr_m (shr_record_of_loc q l) = q ∧ loc_of_shr_record (shr_record_of_loc q l) = l) as [-> ->].
    { by destruct l as [|[]]. }
    rewrite HX. pose proof (round_aux_53 (Z.to_pos X) (-52)) as H53. rewrite Z2Pos.id in H53 by lia.
    rewrite <- H53 by lia. unfold binary_round_aux, shr_fexp.
    rewrite (Zdigits2_unique X 52) by lia. change (fexp 53 1024 (52 + 1 + -52) - -52) with 0.
    cbn [shr shr_record_of_loc shr_m loc_of_shr_record round_nearest_even].
    rewrite (Zdigits2_unique X 52) by lia. done. }
  rewrite <- Hbits by (case_bool; bool_hyps; lia). do 2 f_equal.
  apply Hround; [|case_bool; bool_hyps; lia|].
  - destruct (r =? 0) eqn:E0; bool_hyps; destruct (r <=? q) eqn:Er; bool_hyps; done || lia.
  - intros o. destruct (r =? 0); [done|]. intros [= <-]. by destruct (r <=? q).
Qed.
