(* ===== verification/Hashing.v ===== *)
(** Hashing (crates/wrkz-pow/src/{keccak,tree,lib,curve}.rs): Keccak absorption,
    the CryptoNote Merkle tree, the difficulty test and the Rust side of the curve
    operations, over the interface to the code that is not Rust of this
    repository. *)
From S2P Require Import Prelude.
Local Open Scope Z_scope.

(** * The external primitives *)

(** What the development calls and does not define: the permutation of the crate
    [keccak], the digests of the crates [groestl], [jh] and [skein], the tag
    [argon2id password salt] of the crate [argon2] (version 1.3, t = 4,
    m = 256 KiB, p = 1, 32 bytes), and the C functions [wrkz_*] of the vendored
    ref10 code that src/curve.rs calls. *)
Class Crypto := {
  f1600 : list Z → list Z;
  groestl256 : bytes → Hash;
  jh256 : bytes → Hash;
  skein512_256 : bytes → Hash;
  argon2id : bytes → bytes → Hash;
  wrkz_check_key : bytes → bool;
  wrkz_scalarmult_key : bytes → bytes → option bytes;
  wrkz_check_ring_signature : Hash → bytes → bytes → nat → bytes → bool
}.

(** Their types: [f1600] works in place on [[u64; 25]], a digest is [[u8; 32]]. *)
Class CryptoTyped (C : Crypto) : Prop := {
  f1600_typed st :
    length st = 25%nat → Forall is_u64 st →
    length (f1600 st) = 25%nat ∧ Forall is_u64 (f1600 st);
  groestl256_typed data : is_hash (groestl256 data);
  jh256_typed data : is_hash (jh256 data);
  skein512_256_typed data : is_hash (skein512_256 data);
  argon2id_typed data salt : is_hash (argon2id data salt)
}.

(** An instance for witnesses: every primitive a constant of its type. *)
Definition toy_crypto : Crypto := {|
  f1600 := λ st, st; groestl256 := λ _, replicate 32 1; jh256 := λ _, replicate 32 2;
  skein512_256 := λ _, replicate 32 3; argon2id := λ _ _, replicate 32 4;
  wrkz_check_key := λ _, true; wrkz_scalarmult_key := λ p _, Some p;
  wrkz_check_ring_signature := λ _ _ _ _ _, true |}.

(** * Curve wrappers *)

Section Curve.
Context `{C : Crypto}.

Definition L : bytes :=
  to_be_bytes 16 0xedd3f55c1a631258d69cf7a2def9de14 ++
  to_be_bytes 16 0x00000000000000000000000000000010.

Definition IDENTITY : bytes := <[0%nat := 1]> (replicate 32 0).

Definition check_key (pk : bytes) : bool := wrkz_check_key pk.

Definition scalarmult_key (p a : bytes) : option bytes := wrkz_scalarmult_key p a.

Definition key_image_in_prime_subgroup (image : bytes) : bool :=
  bool_decide (scalarmult_key image L = Some IDENTITY).

Definition check_ring_signature (prefix_hash : Hash) (image : bytes) (pubs sigs : list bytes) : bool :=
  if negb (length pubs =? length sigs)%nat then false
  else wrkz_check_ring_signature prefix_hash image (concat pubs) (length pubs) (concat sigs).

End Curve.

(** * Keccak *)

Section Keccak.
Context `{C : Crypto}.

Definition RATE : nat := 136.

(** [as_chunks::<n>().0] and its remainder. *)
Fixpoint chunks_loop {A} (fuel n : nat) (l : list A) : list (list A) * list A :=
  match fuel with
  | O => ([], l)
  | S fuel =>
      if (length l <? n)%nat then ([], l)
      else let '(cs, r) := chunks_loop fuel n (drop n l) in (take n l :: cs, r)
  end.

Definition as_chunks {A} (n : nat) (l : list A) : list (list A) * list A := chunks_loop (length l) n l.

Fixpoint xor_words (st : list Z) (chunks : list bytes) : list Z :=
  match st, chunks with
  | w :: st, c :: chunks => Z.lxor w (from_le_bytes c) :: xor_words st chunks
  | _, _ => st
  end.

Definition xor_block (st : list Z) (block : bytes) : list Z := xor_words st (as_chunks 8 block).1.

Definition absorb (data : bytes) : list Z :=
  let st := replicate 25 0 in
  let '(blocks, rest) := as_chunks RATE data in
  let st := foldl (λ st block, f1600 (xor_block st block)) st blocks in
  let last := rest ++ replicate (RATE - length rest) 0 in
  let last := <[length rest := 0x01]> last in
  let last := alter (λ b, Z.lor b 0x80) (RATE - 1)%nat last in
  f1600 (xor_block st last).

(** [out.as_chunks_mut::<8>().iter_mut().zip(st)]: as many words as chunks. *)
Definition words_to_bytes (n : nat) (st : list Z) : bytes :=
  concat (map (to_le_bytes 8) (take n st)).

Definition keccakf (state : bytes) : bytes :=
  words_to_bytes 25 (f1600 (map from_le_bytes (as_chunks 8 state).1)).

Definition keccak1600 (data : bytes) : bytes := words_to_bytes 25 (absorb data).

Definition cn_fast_hash (data : bytes) : Hash := words_to_bytes 4 (absorb data).

End Keccak.

(** * The difficulty test *)

(** The schoolbook 256x64 product of [check_hash], carry by carry. *)
Definition check_hash (hash : Hash) (difficulty : Z) : bool :=
  let w i := from_le_bytes (slice hash (8 * i) 8) in
  let d := difficulty in
  let p3 := w 3%nat * d in
  if negb (Z.shiftr p3 64 =? 0) then false
  else
    let p0 := w 0%nat * d in
    let p1 := w 1%nat * d in
    let p2 := w 2%nat * d in
    let s1 := Z.land p1 u64_max + Z.shiftr p0 64 in
    let s2 := Z.land p2 u64_max + Z.shiftr p1 64 + Z.shiftr s1 64 in
    let s3 := p3 + Z.shiftr p2 64 + Z.shiftr s2 64 in
    Z.shiftr s3 64 =? 0.

(** * The Merkle tree

    An index out of range or a failed [assert!] is a panic: [None]. *)

Section Tree.
Context `{C : Crypto}.

Definition hash_pair (l r : Hash) : Hash := cn_fast_hash (l ++ r).

Definition floor_pow2 (n : nat) : nat := 2 ^ Nat.log2 n.

(** [hashes.as_chunks::<2>().0.iter().map(hash_pair)] *)
Fixpoint pair_up (l : list Hash) : list Hash :=
  match l with
  | a :: b :: l => hash_pair a b :: pair_up l
  | _ => []
  end.

(** [for j in j0..j0+n { ints[j] = hash_pair(&ints[2*j + off], &ints[2*j + off + 1]) }] *)
Fixpoint fold_row (off n j : nat) (ints : list Hash) : option (list Hash) :=
  match n with
  | O => Some ints
  | S n =>
      l ← ints !! (2 * j + off)%nat;
      r ← ints !! (2 * j + off + 1)%nat;
      fold_row off n (S j) (<[j := hash_pair l r]> ints)
  end.

(** [while cnt > 2 { cnt >>= 1; .. }]; the loop halves [cnt], so [cnt] itself is fuel. *)
Fixpoint tree_hash_loop (fuel cnt : nat) (ints : list Hash) : option (list Hash) :=
  match fuel with
  | O => None
  | S fuel =>
      if (2 <? cnt)%nat
      then let cnt := (cnt / 2)%nat in ints ← fold_row 0 cnt 0 ints; tree_hash_loop fuel cnt ints
      else Some ints
  end.

Definition tree_hash (hashes : list Hash) : option Hash :=
  match hashes with
  | [] => None
  | [h] => Some h
  | [a; b] => Some (hash_pair a b)
  | _ =>
      let count := length hashes in
      let cnt := floor_pow2 (count - 1) in
      let direct := (2 * cnt - count)%nat in
      let ints := take direct hashes ++ pair_up (drop direct hashes) in
      ints ← tree_hash_loop cnt cnt ints;
      a ← ints !! 0%nat;
      b ← ints !! 1%nat;
      Some (hash_pair a b)
  end.

Definition tree_depth (count : nat) : nat :=
  if (count =? 0)%nat then 0 else Nat.log2 count.

Fixpoint tree_branch_loop (depth cnt : nat) (ints branch : list Hash) : option (list Hash) :=
  match depth with
  | O => Some branch
  | S depth =>
      let cnt := (cnt / 2)%nat in
      h ← ints !! 0%nat;
      let branch := <[depth := h]> branch in
      ints ← fold_row 1 (cnt - 1) 0 ints;
      tree_branch_loop depth cnt ints branch
  end.

Definition tree_branch (hashes : list Hash) : option (list Hash) :=
  match hashes with
  | [] => None
  | _ =>
      let count := length hashes in
      let cnt := floor_pow2 count in
      let depth := tree_depth count in
      let direct := (2 * cnt - count)%nat in
      let ints := take (direct - 1) (drop 1 hashes) ++ pair_up (drop direct hashes) in
      tree_branch_loop depth cnt ints (replicate depth (replicate 32 0))
  end.

(** Bit [depth] of the path; bits beyond the path read as zero. *)
Definition path_bit (path : option Hash) (depth : nat) : bool :=
  match path ≫= λ p, p !! (depth / 8)%nat with
  | Some byte => negb (Z.land byte (Z.shiftl 1 (Z.of_nat (depth mod 8))) =? 0)
  | None => false
  end.

(** The loop over [(0..branch.len()).rev()]: [branch] is given deepest entry
    first, [depth] is the index of its head. *)
Fixpoint from_branch_loop (branch : list Hash) (depth : nat) (path : option Hash)
    (leaf : Hash) (from_leaf : bool) (buffer : Hash * Hash) : Hash * Hash :=
  match branch with
  | [] => buffer
  | b :: branch =>
      let x := if from_leaf then leaf else hash_pair buffer.1 buffer.2 in
      let buffer := if path_bit path depth then (b, x) else (x, b) in
      from_branch_loop branch (depth - 1) path leaf false buffer
  end.

Definition tree_hash_from_branch_with_path (branch : list Hash) (leaf : Hash) (path : option Hash) : Hash :=
  match branch with
  | [] => leaf
  | _ =>
      let buffer := from_branch_loop (reverse branch) (length branch - 1) path leaf true
                      (replicate 32 0, replicate 32 0) in
      hash_pair buffer.1 buffer.2
  end.

Definition tree_hash_from_branch (branch : list Hash) (leaf : Hash) : Hash :=
  tree_hash_from_branch_with_path branch leaf None.

End Tree.

(** * The difficulty test is a 256-bit comparison *)

Lemma hash_words (h : Hash) : is_hash h →
  from_le_bytes h =
    from_le_bytes (slice h 0 8) + 2 ^ 64 * from_le_bytes (slice h 8 8) +
    2 ^ 128 * from_le_bytes (slice h 16 8) + 2 ^ 192 * from_le_bytes (slice h 24 8).
Proof.
  intros [Hb Hl]. unfold slice.
  rewrite <- (take_drop 8 h) at 1. rewrite from_le_bytes_app, length_take.
  rewrite <- (take_drop 8 (drop 8 h)) at 1. rewrite from_le_bytes_app, length_take, length_drop.
  rewrite <- (take_drop 8 (drop 8 (drop 8 h))) at 1.
  rewrite from_le_bytes_app, length_take, !length_drop, !drop_drop, Hl.
  rewrite <- (take_ge (drop (8 + (8 + 8)) h) 8) at 1 by (rewrite length_drop; simpl; lia).
  change (256 ^ Z.of_nat (8 `min` 32)) with (2 ^ 64).
  change (256 ^ Z.of_nat (8 `min` (32 - 8))) with (2 ^ 64).
  change (256 ^ Z.of_nat (8 `min` (32 - 8 - 8))) with (2 ^ 64).
  simpl Nat.add. rewrite drop_0. lia.
Qed.

Lemma hash_word_bound (h : Hash) i : is_hash h → (i + 8 ≤ 32)%nat →
  0 ≤ from_le_bytes (slice h i 8) < 2 ^ 64.
Proof.
  intros [Hb Hl] Hi. pose proof (from_le_bytes_bound (slice h i 8)) as H.
  rewrite length_slice in H by lia. apply H. unfold slice. auto with bytes_db.
Qed.

Lemma land_u64_max v : 0 ≤ v → Z.land v u64_max = v mod 2 ^ 64.
Proof. intros. change u64_max with (Z.ones 64). by rewrite Z.land_ones. Qed.

(** The carry chain, on products of the words. *)
Lemma carry_chain p0 p1 p2 p3 B :
  0 < B → 0 ≤ p0 → 0 ≤ p1 → 0 ≤ p2 → 0 ≤ p3 →
  let s1 := p1 mod B + p0 / B in
  let s2 := p2 mod B + p1 / B + s1 / B in
  let s3 := p3 + p2 / B + s2 / B in
  s3 / B = (p0 + B * p1 + B * B * p2 + B * B * B * p3) / (B * B * B * B).
Proof.
  intros HB H0 H1 H2 H3 s1 s2 s3.
  replace (B * B * B * B) with (B * (B * (B * B))) by ring.
  rewrite <- !Z.div_div by nia.
  replace (p0 + B * p1 + B * B * p2 + B * B * B * p3) with (p0 + (p1 + B * p2 + B * B * p3) * B) by ring.
  rewrite Z.div_add by lia.
  pose proof (Z.div_mod p1 B ltac:(lia)) as E1. pose proof (Z.div_mod p2 B ltac:(lia)) as E2.
  replace (p0 / B + (p1 + B * p2 + B * B * p3)) with (s1 + (p1 / B + p2 + B * p3) * B)
    by (unfold s1; rewrite E1 at 3; ring).
  rewrite Z.div_add by lia.
  replace (s1 / B + (p1 / B + p2 + B * p3)) with (s2 + (p2 / B + p3) * B)
    by (unfold s2; rewrite E2 at 3; ring).
  rewrite Z.div_add by lia.
  unfold s3. f_equal. ring.
Qed.

(** C36. The carry-by-carry test of [check_hash] accepts exactly the hashes
    whose value as a 256-bit little-endian integer, multiplied by the
    difficulty, stays below 2^256. *)
Theorem check_hash_spec (h : Hash) (d : Z) :
  is_hash h → is_u64 d →
  (check_hash h d = true ↔ from_le_bytes h * d < 2 ^ 256).
Proof.
  intros Hh Hd. rewrite (hash_words h Hh). unfold check_hash, in_u in *.
  pose proof (hash_word_bound h 0 Hh ltac:(lia)). pose proof (hash_word_bound h 8 Hh ltac:(lia)).
  pose proof (hash_word_bound h 16 Hh ltac:(lia)). pose proof (hash_word_bound h 24 Hh ltac:(lia)).
  simpl Nat.mul.
  generalize dependent (from_le_bytes (slice h 0 8)). generalize dependent (from_le_bytes (slice h 8 8)).
  generalize dependent (from_le_bytes (slice h 16 8)). generalize dependent (from_le_bytes (slice h 24 8)).
  intros w3 H3 w2 H2 w1 H1 w0 H0.
  assert (0 ≤ w0 * d ∧ 0 ≤ w1 * d ∧ 0 ≤ w2 * d ∧ 0 ≤ w3 * d) as (?&?&?&?) by nia.
  rewrite !land_u64_max, !Z.shiftr_div_pow2 by lia.
  pose proof (carry_chain (w0 * d) (w1 * d) (w2 * d) (w3 * d) (2 ^ 64)) as Hc. cbv zeta in Hc.
  replace ((w0 + 2 ^ 64 * w1 + 2 ^ 128 * w2 + 2 ^ 192 * w3) * d) with
    (w0 * d + 2 ^ 64 * (w1 * d) + 2 ^ 64 * 2 ^ 64 * (w2 * d) + 2 ^ 64 * 2 ^ 64 * 2 ^ 64 * (w3 * d)) by ring.
  change (2 ^ 256) with (2 ^ 64 * 2 ^ 64 * 2 ^ 64 * 2 ^ 64).
  set (P := _ + _ + _ + _ * (w3 * d)) in *. assert (w3 * d * 2 ^ 192 ≤ P) by lia. assert (0 ≤ P) by lia.
  rewrite Hc by lia. clear Hc. case_bool; bool_hyps.
  - split; [done|]. intros. exfalso. apply Hb. apply Z.div_small. lia.
  - rewrite Z.eqb_eq. split; intros HP; [|apply Z.div_small; lia].
    apply Z.div_small_iff in HP; lia.
Qed.

Lemma check_hash_spec_witness :
  check_hash (replicate 31 0 ++ [1]) 255 = true ↔ from_le_bytes (replicate 31 0 ++ [1]) * 255 < 2 ^ 256.
Proof.
  apply check_hash_spec; [split; [repeat constructor; vm_compute; congruence | done] | split; vm_compute; congruence].
Defined.

(** * The Merkle tree against a recursive reference *)

Section TreeProofs.
Context `{C : Crypto}.
Local Open Scope nat_scope.

(** The root of a perfect tree of [2 ^ k] leaves, by recursion on its halves. *)
Fixpoint perfect (k : nat) (leaves : list Hash) : Hash :=
  match k with
  | O => default [] (head leaves)
  | S k => hash_pair (perfect k (take (2 ^ k) leaves)) (perfect k (drop (2 ^ k) leaves))
  end.

(** A CryptoNote tree is perfect above its bottom row, in which only the last
    leaves are paired. *)
Definition bottom_row (hs : list Hash) : list Hash :=
  let direct := 2 ^ S (Nat.log2 (length hs)) - length hs in
  take direct hs ++ pair_up (drop direct hs).

Definition merkle_root (hs : list Hash) : Hash := perfect (Nat.log2 (length hs)) (bottom_row hs).

Lemma list_pair_ind {A} (P : list A → Prop) :
  P [] → (∀ a, P [a]) → (∀ a b l, P l → P (a :: b :: l)) → ∀ l, P l.
Proof.
  intros H0 H1 H2 l. enough (P l ∧ ∀ a, P (a :: l)) as [? _] by done.
  induction l as [|x l [IH1 IH2]]; auto.
Qed.

Lemma length_pair_up l : length (pair_up l) = length l / 2.
Proof.
  induction l as [|a|a b l IH] using list_pair_ind; [done..|].
  simpl length. rewrite IH. change (S (S (length l))) with (1 * 2 + length l).
  by rewrite Nat.div_add_l by lia.
Qed.

Lemma pair_up_take n l : pair_up (take (2 * n) l) = take n (pair_up l).
Proof.
  revert n. induction l as [|a|a b l IH] using list_pair_ind; intros n.
  - simpl pair_up. by rewrite !take_nil.
  - destruct n; [done|]. replace (2 * S n) with (S (S (2 * n))) by lia. simpl. by rewrite ?take_nil.
  - destruct n; [done|]. replace (2 * S n) with (S (S (2 * n))) by lia. simpl take. simpl. by rewrite <- IH.
Qed.

Lemma pair_up_drop n l : pair_up (drop (2 * n) l) = drop n (pair_up l).
Proof.
  revert n. induction l as [|a|a b l IH] using list_pair_ind; intros n.
  - simpl pair_up. by rewrite !drop_nil.
  - destruct n; [done|]. replace (2 * S n) with (S (S (2 * n))) by lia. simpl. by rewrite ?drop_nil.
  - destruct n; [done|]. replace (2 * S n) with (S (S (2 * n))) by lia. simpl drop. by rewrite <- IH.
Qed.

Lemma pair_up_app l1 l2 : Nat.even (length l1) = true → pair_up (l1 ++ l2) = pair_up l1 ++ pair_up l2.
Proof. induction l1 as [|a|a b l IH] using list_pair_ind; simpl; [done..|]. intros. by rewrite IH. Qed.

Lemma perfect_pair_up k l : length l = 2 ^ S k → perfect (S k) l = perfect k (pair_up l).
Proof.
  revert l. induction k as [|k IH]; intros l Hl.
  - destruct l as [|a [|b [|]]]; simpl in *; try lia. done.
  - change (perfect (S (S k)) l) with
      (hash_pair (perfect (S k) (take (2 ^ S k) l)) (perfect (S k) (drop (2 ^ S k) l))).
    rewrite !Nat.pow_succ_r' in Hl.
    rewrite !IH by (rewrite ?length_take, ?length_drop, ?Nat.pow_succ_r'; lia).
    rewrite Nat.pow_succ_r', pair_up_take, pair_up_drop. done.
Qed.

Lemma pow2_pos k : 0 < 2 ^ k.
Proof. apply Nat.neq_0_lt_0, Nat.pow_nonzero. lia. Qed.

Lemma fold_row_spec off n j ints :
  2 * (j + n) + off ≤ length ints →
  fold_row off n j ints = Some (take j ints ++ take n (pair_up (drop (2 * j + off) ints)) ++ drop (j + n) ints).
Proof.
  revert j ints. induction n as [|n IH]; intros j ints Hl; cbn [fold_row].
  { by rewrite take_0, Nat.add_0_r, app_nil_l, take_drop. }
  destruct (lookup_lt_is_Some_2 ints (2 * j + off) ltac:(lia)) as [l El].
  destruct (lookup_lt_is_Some_2 ints (2 * j + off + 1) ltac:(lia)) as [r Er].
  rewrite El. cbn [mbind option_bind]. rewrite Er. cbn [mbind option_bind]. rewrite IH by (rewrite length_insert; lia). f_equal.
  rewrite (drop_S ints l (2 * j + off) El), (drop_S ints r (S (2 * j + off))) by (rewrite <- Er; f_equal; lia).
  rewrite !drop_insert_lt by lia.
  replace (2 * S j + off) with (S (S (2 * j + off))) by lia.
  replace (S j + n) with (j + S n) by lia. simpl.
  rewrite (take_S_r _ j (hash_pair l r)) by (rewrite list_lookup_insert_eq; [done|lia]).
  rewrite take_insert_ge by lia. by rewrite <- app_assoc.
Qed.

Lemma fold_row_0 off n ints :
  2 * n + off ≤ length ints →
  fold_row off n 0 ints = Some (take n (pair_up (drop off ints)) ++ drop n ints).
Proof. intros. by rewrite fold_row_spec by lia. Qed.

Lemma tree_hash_loop_spec k fuel ints :
  k < fuel → 2 ^ S k ≤ length ints →
  ∃ a b rest, tree_hash_loop fuel (2 ^ S k) ints = Some (a :: b :: rest) ∧
    hash_pair a b = perfect (S k) (take (2 ^ S k) ints).
Proof.
  revert fuel ints. induction k as [|k IH]; intros [|fuel] ints Hf Hl; try lia.
  - destruct ints as [|a [|b ints]]; simpl in Hl; try lia. by exists a, b, ints.
  - cbn [tree_hash_loop]. pose proof (pow2_pos k) as Hk.
    replace (2 ^ S (S k) / 2) with (2 ^ S k)
      by (rewrite (Nat.pow_succ_r' 2 (S k)), Nat.mul_comm, Nat.div_mul; lia).
    rewrite !Nat.pow_succ_r' in Hl.
    destruct (2 <? _) eqn:E; bool_hyps; [|rewrite !Nat.pow_succ_r' in E; lia].
    rewrite fold_row_0, drop_0 by (rewrite Nat.pow_succ_r'; lia). cbn [mbind option_bind].
    assert (length (take (2 ^ S k) (pair_up ints)) = 2 ^ S k) as Hp.
    { rewrite length_take, length_pair_up, Nat.pow_succ_r'. apply Nat.min_l.
      apply Nat.div_le_lower_bound; lia. }
    destruct (IH fuel (take (2 ^ S k) (pair_up ints) ++ drop (2 ^ S k) ints)) as (a&b&rest&Hr&Hh); [lia | rewrite length_app; lia |].
    exists a, b, rest. split; [exact Hr|]. rewrite Hh, take_app_length_eq by done.
    rewrite <- pair_up_take, <- perfect_pair_up; [f_equal; f_equal; rewrite !Nat.pow_succ_r'; lia |].
    rewrite length_take, !Nat.pow_succ_r'. lia.
Qed.

Lemma length_bottom hs k :
  2 ^ k ≤ length hs ≤ 2 ^ S k →
  length (take (2 * 2 ^ k - length hs) hs ++ pair_up (drop (2 * 2 ^ k - length hs) hs)) = 2 ^ k.
Proof.
  rewrite Nat.pow_succ_r'. intros. rewrite length_app, length_take, length_pair_up, length_drop.
  replace (length hs - (2 * 2 ^ k - length hs)) with ((length hs - 2 ^ k) * 2) by lia.
  rewrite Nat.div_mul by lia. lia.
Qed.

Lemma merkle_root_strict hs k :
  2 ^ k ≤ length hs - 1 < 2 ^ S k → 2 ≤ length hs →
  merkle_root hs = perfect k (take (2 * 2 ^ k - length hs) hs ++ pair_up (drop (2 * 2 ^ k - length hs) hs)).
Proof.
  intros Hk H2. unfold merkle_root, bottom_row. rewrite Nat.pow_succ_r'.
  destruct (decide (length hs = 2 ^ S k)) as [E|E].
  - rewrite E, Nat.log2_pow2, take_ge, drop_ge, app_nil_r by lia.
    rewrite Nat.pow_succ_r', Nat.sub_diag, take_0, drop_0. by apply perfect_pair_up.
  - rewrite (Nat.log2_unique (length hs) k) by lia. done.
Qed.

Lemma tree_hash_root (hs : list Hash) : hs ≠ [] → tree_hash hs = Some (merkle_root hs).
Proof.
  intros Hne. destruct hs as [|a [|b [|c hs']]]; [done | done | done |].
  set (hs := a :: b :: c :: hs'). assert (3 ≤ length hs) as H3 by (simpl; lia).
  unfold tree_hash, hs. fold hs. cbv zeta. unfold floor_pow2.
  pose proof (Nat.log2_spec (length hs - 1) ltac:(lia)) as Hlog.
  destruct (Nat.log2 (length hs - 1)) as [|k] eqn:Ek; [simpl in Hlog; lia|].
  rewrite (merkle_root_strict hs (S k)) by lia.
  pose proof (length_bottom hs (S k) ltac:(lia)) as Hrow.
  set (row := take _ hs ++ _) in *.
  destruct (tree_hash_loop_spec k (2 ^ S k) row) as (x&y&rest&->&Hxy); [|lia|].
  { pose proof (Nat.pow_gt_lin_r 2 (S k)). lia. }
  cbn [mbind option_bind lookup list_lookup]. by rewrite Hxy, take_ge by lia.
Qed.

(** [tree_hash] returns, for every non-empty list of leaves, the root of
    the CryptoNote Merkle tree: the tree that is perfect above a bottom row in
    which the last leaves are paired. *)
Theorem tree_hash_merkle (hs : list Hash) : hs ≠ [] → tree_hash hs = Some (merkle_root hs).
Proof. apply tree_hash_root. Qed.

Lemma path_bit_None depth : path_bit None depth = false.
Proof. done. Qed.

(** Climbing from a leaf: one [hash_pair] per branch entry, deepest first. *)
Definition climb (leaf : Hash) (branch : list Hash) : Hash := foldl hash_pair leaf (reverse branch).

Lemma from_branch_loop_None br d leaf b0 b1 :
  from_branch_loop br d None leaf false (b0, b1) =
  match reverse br with
  | [] => (b0, b1)
  | last :: init => (foldl hash_pair (hash_pair b0 b1) (reverse init), last)
  end.
Proof.
  revert d b0 b1. induction br as [|b br IH]; intros d b0 b1; [done|].
  cbn [from_branch_loop]. rewrite path_bit_None, IH, reverse_cons. cbn [fst snd].
  destruct (reverse br) as [|x init] eqn:E; [done|]. simpl. by rewrite reverse_snoc.
Qed.

Lemma tree_hash_from_branch_climb branch leaf :
  tree_hash_from_branch branch leaf = climb leaf branch.
Proof.
  unfold tree_hash_from_branch, tree_hash_from_branch_with_path, climb.
  destruct branch as [|b br]; [done|]. set (branch := b :: br).
  assert (∃ x l, reverse branch = x :: l) as (x&l&E).
  { destruct (reverse branch) eqn:E; [|eauto]. apply (f_equal length) in E. by rewrite length_reverse in E. }
  rewrite E. cbn [from_branch_loop]. rewrite path_bit_None, from_branch_loop_None.
  destruct (reverse l) as [|y init] eqn:El.
  - apply (f_equal reverse) in El. rewrite reverse_involutive in El. by subst.
  - apply (f_equal reverse) in El. rewrite reverse_involutive, reverse_cons in El. subst.
    cbn [fst snd]. cbn [foldl]. by rewrite foldl_snoc.
Qed.

Lemma tree_branch_loop_spec k ints branch x :
  2 ^ k - 1 ≤ length ints → k ≤ length branch →
  ∃ br, tree_branch_loop k (2 ^ k) ints branch = Some (br ++ drop k branch) ∧ length br = k ∧
    climb x br = perfect k (x :: take (2 ^ k - 1) ints).
Proof.
  revert ints branch x. induction k as [|k IH]; intros ints branch x Hi Hb.
  { by exists []. }
  cbn [tree_branch_loop]. pose proof (pow2_pos k) as Hk.
  replace (2 ^ S k / 2) with (2 ^ k) by (rewrite Nat.pow_succ_r', Nat.mul_comm, Nat.div_mul; lia).
  rewrite Nat.pow_succ_r' in Hi. destruct ints as [|h ints]; [simpl in Hi; lia|]. simpl in Hi.
  change ((h :: ints) !! 0) with (Some h). cbn [mbind option_bind].
  rewrite fold_row_0 by (simpl; lia). cbn [mbind option_bind]. change (drop 1 (h :: ints)) with ints.
  assert (length (take (2 ^ k - 1) (pair_up ints)) = 2 ^ k - 1) as Hp.
  { rewrite length_take, length_pair_up. apply Nat.min_l, Nat.div_le_lower_bound; lia. }
  edestruct (IH (take (2 ^ k - 1) (pair_up ints) ++ drop (2 ^ k - 1) (h :: ints)) (<[k:=h]> branch) (hash_pair x h))
    as (br&->&Hl&Hc); [rewrite length_app; lia | rewrite length_insert; lia |].
  exists (br ++ [h]). split_and!.
  - rewrite (drop_S _ h) by (rewrite list_lookup_insert_eq; [done|lia]).
    rewrite drop_insert_lt by lia. by rewrite <- app_assoc.
  - rewrite length_app. simpl. lia.
  - unfold climb in *. rewrite reverse_snoc. cbn [foldl]. rewrite Hc, take_app_length_eq by done.
    rewrite perfect_pair_up; [|simpl; rewrite length_take; simpl; lia].
    rewrite Nat.pow_succ_r'. replace (2 * 2 ^ k - 1) with (S (2 * (2 ^ k - 1))) by lia.
    cbn [take pair_up]. by rewrite pair_up_take.
Qed.

(** For every non-empty list of transaction hashes, [tree_branch] returns a
    branch of [tree_depth] entries, and climbing it from the first leaf with
    [tree_hash_from_branch] gives the same root as [tree_hash]. *)
Theorem tree_branch_authenticates (leaf : Hash) (hs : list Hash) :
  ∃ branch, tree_branch (leaf :: hs) = Some branch ∧
    length branch = tree_depth (length (leaf :: hs)) ∧
    tree_hash (leaf :: hs) = Some (tree_hash_from_branch branch leaf).
Proof.
  set (all := leaf :: hs). assert (1 ≤ length all) as H1 by (simpl; lia).
  unfold tree_branch, all. fold all. cbv zeta. unfold floor_pow2.
  replace (tree_depth (length all)) with (Nat.log2 (length all)) by done.
  pose proof (Nat.log2_spec (length all) ltac:(lia)) as Hlog.
  pose proof (length_bottom all (Nat.log2 (length all)) ltac:(lia)) as Hrow.
  rewrite Nat.pow_succ_r' in Hlog.
  assert (merkle_root all = perfect (Nat.log2 (length all)) (bottom_row all)) as Hroot by done.
  unfold bottom_row in Hroot. rewrite Nat.pow_succ_r' in Hroot.
  set (k := Nat.log2 (length all)) in *.
  destruct (2 * 2 ^ k - length all) as [|d] eqn:Ed; [lia|].
  rewrite Nat.sub_succ, Nat.sub_0_r. change (drop 1 all) with hs.
  change (take (S d) all) with (leaf :: take d hs) in *. cbn [app] in *. rewrite length_cons in Hrow.
  edestruct (tree_branch_loop_spec k (take d hs ++ pair_up (drop (S d) all)) (replicate k (replicate 32 0%Z)) leaf)
    as (br&->&Hl&Hc); [lia | rewrite length_replicate; lia |].
  rewrite drop_ge, app_nil_r by (rewrite length_replicate; lia).
  exists br. split_and!; [done | done |]. rewrite tree_hash_root by done.
  rewrite tree_hash_from_branch_climb, Hc, Hroot, (take_ge (_ ++ _)) by lia. done.
Qed.

End TreeProofs.

Lemma tree_hash_merkle_witness :
  tree_hash (C:=toy_crypto) [[1]; [2]; [3]]%Z = Some (merkle_root (C:=toy_crypto) [[1]; [2]; [3]]%Z).
Proof. apply (tree_hash_merkle (C:=toy_crypto)). discriminate. Defined.

(** * The hash of bytes is 32 bytes *)

Section KeccakTyped.
Context `{C : Crypto} {T : CryptoTyped C}.

Lemma lxor_u w a b : 0 ≤ w → in_u w a → in_u w b → in_u w (Z.lxor a b).
Proof.
  intros Hw Ha Hb. assert (Z.lxor a b = (Z.lxor a b) mod 2 ^ w) as ->.
  - rewrite <- Z.land_ones by done. apply Z.bits_inj'. intros n Hn.
    rewrite Z.land_spec, Z.lxor_spec, Z.testbit_ones_nonneg by done.
    destruct (n <? w) eqn:E; [by rewrite andb_true_r|]. apply Z.ltb_ge in E. rewrite andb_false_r.
    unfold in_u in *. rewrite <- (Z.mod_small a (2 ^ w)), <- (Z.mod_small b (2 ^ w)), !Z.mod_pow2_bits_high by lia. done.
  - by apply wrap_bound.
Qed.

Lemma chunks_loop_spec fuel n (l : bytes) : is_bytes l → (0 < n)%nat → (length l ≤ fuel)%nat →
  let '(cs, r) := chunks_loop fuel n l in
  Forall (λ c, is_bytes c ∧ length c = n) cs ∧ is_bytes r ∧ (length r < n)%nat.
Proof.
  intros Hl Hn. revert l Hl. induction fuel as [|fuel IH]; intros l Hl Hf; simpl.
  - split_and!; [constructor | done | lia].
  - destruct (_ <? n)%nat eqn:E; bool_hyps; simpl; [split_and!; [constructor | done | done]|].
    specialize (IH (drop n l) ltac:(auto with bytes_db) ltac:(rewrite length_drop; lia)).
    destruct (chunks_loop fuel n (drop n l)) as [cs r]. destruct IH as (H1&H2&H3). split_and!; [|done|done].
    constructor; [|done]. split; [auto with bytes_db | rewrite length_take; lia].
Qed.

Lemma as_chunks_spec n (l : bytes) : is_bytes l → (0 < n)%nat →
  Forall (λ c, is_bytes c ∧ length c = n) (as_chunks n l).1 ∧ is_bytes (as_chunks n l).2 ∧ (length (as_chunks n l).2 < n)%nat.
Proof.
  intros Hl Hn. pose proof (chunks_loop_spec (length l) n l Hl Hn ltac:(lia)) as H.
  unfold as_chunks. by destruct (chunks_loop (length l) n l).
Qed.

Definition is_state (st : list Z) : Prop := length st = 25%nat ∧ Forall is_u64 st.

Lemma xor_words_state st cs : Forall (λ c, is_bytes c ∧ length c = 8%nat) cs →
  length (xor_words st cs) = length st ∧ (Forall is_u64 st → Forall is_u64 (xor_words st cs)).
Proof.
  intros Hcs. revert st. induction Hcs as [|c cs [Hc Hl] _ IH]; intros [|w st]; simpl; [done..|].
  destruct (IH st) as [H1 H2]. split; [by f_equal|]. intros [Hw Hst]%Forall_cons. constructor; [|auto].
  apply lxor_u; [lia | done |]. pose proof (from_le_bytes_bound c Hc) as Hb. by rewrite Hl in Hb.
Qed.

Lemma xor_block_state st block : is_state st → is_bytes block → is_state (xor_block st block).
Proof.
  intros [Hl Hs] Hb. destruct (as_chunks_spec 8 block Hb ltac:(lia)) as (Hc&_).
  destruct (xor_words_state st _ Hc) as [H1 H2]. split; [by rewrite <- Hl | auto].
Qed.

Lemma f1600_state st : is_state st → is_state (f1600 st).
Proof. intros [? ?]. by apply f1600_typed. Qed.

Lemma absorb_state data : is_bytes data → is_state (absorb data).
Proof.
  intros Hd. unfold absorb. destruct (as_chunks_spec RATE data Hd ltac:(unfold RATE; lia)) as (Hc&Hr&Hl).
  destruct (as_chunks RATE data) as [blocks rest]. simpl in Hc, Hr, Hl. apply f1600_state, xor_block_state.
  - assert (is_state (replicate 25 0)) as H0.
    { split; [done|]. apply Forall_replicate. unfold in_u. lia. }
    revert H0. generalize (replicate 25 0). induction Hc as [|c cs [Hcb _] _ IH]; intros st Hst; [done|].
    simpl. by apply IH, f1600_state, xor_block_state.
  - apply Forall_alter; [apply Forall_insert|].
    + apply is_bytes_app. split; [done|]. apply Forall_replicate. unfold in_u. lia.
    + unfold in_u. lia.
    + intros b _ Hb.
      pose proof (byte_cases (λ b, (0 <=? Z.lor b 128) && (Z.lor b 128 <? 256)) ltac:(vm_compute; reflexivity) b Hb) as H128. cbv beta in H128.
      bool_hyps. unfold in_u. change (2 ^ 8) with 256. lia.
Qed.

Lemma cn_fast_hash_typed data : is_bytes data → is_hash (cn_fast_hash data).
Proof.
  intros Hd. destruct (absorb_state data Hd) as [Hl _]. unfold cn_fast_hash, words_to_bytes.
  generalize dependent (absorb data). intros st Hl. split.
  - apply Forall_concat, Forall_map, Forall_true. intros. apply to_le_bytes_is_bytes.
  - do 4 (destruct st as [|? st]; [done|]). done.
Qed.

End KeccakTyped.

(** The witness instance is typed. *)
#[export] Instance toy_typed : CryptoTyped toy_crypto.
Proof.
  split; [done | ..]; intros; (split; [repeat constructor; vm_compute; congruence | done]).
Qed.
