(* ===== verification/Curve.v ===== *)
(** The key and signing wrappers of crates/wrkz-pow/src/curve.rs. The operations themselves
    are the vendored C code, which the wrappers call through a foreign interface: they are
    the fields of two classes, and what is relied on is stated where it is used. *)
From S2P Require Import Prelude Hashing.
Local Open Scope Z_scope.

(** What building an output needs. *)
Class CurveKeys := {
  generate_key_derivation : bytes → bytes → option bytes;
  derive_public_key : bytes → Z → bytes → option bytes
}.

(** What owning and spending an output needs besides. *)
Class CurveSecrets := {
  sc_check : bytes → bool;
  secret_key_to_public_key : bytes → option bytes;
  generate_view_from_spend : bytes → bytes * bytes;
  generate_deterministic_subwallet_key : bytes → Z → bytes;
  derive_secret_key : bytes → Z → bytes → bytes;
  underive_public_key : bytes → Z → bytes → option bytes;
  generate_key_image : bytes → bytes → bytes;
  wrkz_generate_ring_signature : Hash → bytes → bytes → nat → bytes → nat → bytes → list bytes → option (list bytes)
}.

Definition NULL_SECRET_KEY : bytes := replicate 32 0.

Section Sign.
Context `{CurveSecrets}.

(** The signature buffer goes in holding the random pairs [(c, r)]. *)
Definition generate_ring_signature_with_randomness (prefix_hash : Hash) (image : bytes) (pubs : list bytes) (sec : bytes) (real : nat)
    (k : bytes) (decoys : list (bytes * bytes)) : option (list bytes) :=
  if (length pubs =? 0)%nat || (length pubs <=? real)%nat || negb (length decoys =? length pubs)%nat then None
  else
    let sigs := map (λ '(c, r), c ++ r) decoys in
    wrkz_generate_ring_signature prefix_hash image (concat pubs) (length pubs) sec real k sigs.

End Sign.
