(* ===== verification/Cryptonight.v ===== *)
(** The CryptoNight family (crates/wrkz-pow/src/cryptonight/{mod,aes,blake256}.rs)
    and the choice of proof of work by block version (crates/wrkz-pow/src/lib.rs).

    A panic (an [assert!], an index or a slice out of range) is [None]. The
    scratchpad is the thread-local vector the code reuses between hashes; every
    hash takes it and returns it. The hardware AES rounds are processor
    instructions; the table-driven [Soft] round is the one modelled. *)
From Stdlib Require Import Btauto.
From S2P Require Import Prelude F64 Hashing.
Local Open Scope Z_scope.

(** [u32::rotate_left] and [rotate_right]. *)
Definition rotate_left (v n : Z) : Z := Z.lor (wrap 32 (Z.shiftl v n)) (Z.shiftr v (32 - n)).
Definition rotate_right (v n : Z) : Z := Z.lor (Z.shiftr v n) (wrap 32 (Z.shiftl v (32 - n))).

Abbreviation Block := (list Z).

(** * AES *)

Module aes.

(** One row of sixteen entries per number, most significant byte first. *)
Definition SBOX : list Z := concat (map (to_be_bytes 16) [
   0x637c777bf26b6fc53001672bfed7ab76;
   0xca82c97dfa5947f0add4a2af9ca472c0;
   0xb7fd9326363ff7cc34a5e5f171d83115;
   0x04c723c31896059a071280e2eb27b275;
   0x09832c1a1b6e5aa0523bd6b329e32f84;
   0x53d100ed20fcb15b6acbbe394a4c58cf;
   0xd0efaafb434d338545f9027f503c9fa8;
   0x51a3408f929d38f5bcb6da2110fff3d2;
   0xcd0c13ec5f974417c4a77e3d645d1973;
   0x60814fdc222a908846eeb814de5e0bdb;
   0xe0323a0a4906245cc2d3ac629195e479;
   0xe7c8376d8dd54ea96c56f4ea657aae08;
   0xba78252e1ca6b4c6e8dd741f4bbd8b8a;
   0x703eb5664803f60e613557b986c11d9e;
   0xe1f8981169d98e949b1e87e9ce5528df;
   0x8ca1890dbfe6426841992d0fb054bb16]).

Definition sbox (b : Z) : Z := SBOX !!! Z.to_nat b.

(** The column word of one S-box entry, from which the four tables are rotations. *)
Definition T0 (x : Z) : Z :=
  let s := sbox x in
  let s2 := Z.lxor (Z.shiftl s 1) (Z.land (Z.shiftr s 7) 1 * 0x11b) in
  let s3 := Z.lxor s2 s in
  Z.lor (Z.lor (Z.lor s2 (Z.shiftl s 8)) (Z.shiftl s 16)) (Z.shiftl s3 24).

Definition T (n : nat) (x : Z) : Z :=
  match n with O => T0 x | _ => rotate_left (T0 x) (8 * Z.of_nat n) end.

(** [Soft::round] *)
Definition round (block key : Block) : Block :=
  let w b c := from_le_bytes (slice b (4 * c) 4) in
  let x c := w block (c mod 4)%nat in
  concat (map (λ c,
    let y :=
      Z.lxor (Z.lxor (Z.lxor (Z.lxor (w key c)
        (T 0 (Z.land (x c) 0xff)))
        (T 1 (Z.land (Z.shiftr (x (c + 1)%nat) 8) 0xff)))
        (T 2 (Z.land (Z.shiftr (x (c + 2)%nat) 16) 0xff)))
        (T 3 (Z.shiftr (x (c + 3)%nat) 24)) in
    to_le_bytes 4 y) (seq 0 4)).

Definition pseudo_round (block : Block) (keys : list Block) : Block := foldl round block keys.

(** The word [w[i]] of the key schedule from the words before it. *)
Definition next_word (w : list bytes) (i : nat) : bytes :=
  let t := w !!! (i - 1)%nat in
  let RCON := [0x01; 0x02; 0x04; 0x08] in
  let t :=
    if (i mod 8 =? 0)%nat then
      [Z.lxor (sbox (t !!! 1%nat)) (RCON !!! (i / 8 - 1)%nat);
       sbox (t !!! 2%nat); sbox (t !!! 3%nat); sbox (t !!! 0%nat)]
    else if (i mod 8 =? 4)%nat then map sbox t
    else t in
  zip_with Z.lxor (w !!! (i - 8)%nat) t.

Definition expand_key (key : bytes) : list Block :=
  let w := map (λ i, slice key (4 * i) 4) (seq 0 8) in
  let w := foldl (λ w i, w ++ [next_word w i]) w (seq 8 32) in
  map (λ r, concat (map (λ c, w !!! (4 * r + c)%nat) (seq 0 4))) (seq 0 10).

End aes.

(** * BLAKE-256 *)

Module blake256.

(** One row per number, one hexadecimal digit per entry. *)
Definition nibbles (v : Z) : list nat :=
  map (λ i, Z.to_nat (Z.land (Z.shiftr v (60 - 4 * Z.of_nat i)) 15)) (seq 0 16).

Definition SIGMA : list (list nat) := map nibbles [
   0x0123456789abcdef;
   0xea489fd61c02b753;
   0xb8c052fdae367194;
   0x7931dcbe265a40f8;
   0x905724afe1bc683d;
   0x2c6a0b834d75fe19;
   0xc51fed4a0763928b;
   0xdb7ec13950f4862a;
   0x6fe9b308c2d714a5;
   0xa2847615fb9e3cd0;
   0x0123456789abcdef;
   0xea489fd61c02b753;
   0xb8c052fdae367194;
   0x7931dcbe265a40f8].

(** Four 32-bit words per number. *)
Definition CST : list Z := concat (map
  (λ v, map (λ i, wrap 32 (Z.shiftr v (96 - 32 * Z.of_nat i))) (seq 0 4)) [
   0x243F6A8885A308D313198A2E03707344;
   0xA4093822299F31D0082EFA98EC4E6C89;
   0x452821E638D01377BE5466CF34E90C6C;
   0xC0AC29B7C97C50DD3F84D5B5B5470917]).

Definition PADDING : bytes := <[0%nat := 0x80]> (replicate 64 0).

Record State := mkState {
  h : list Z; s : list Z; t : Z * Z; buflen : nat; nullt : bool; buf : bytes }.

Definition new : State :=
  mkState [0x6A09E667; 0xBB67AE85; 0x3C6EF372; 0xA54FF53A;
           0x510E527F; 0x9B05688C; 0x1F83D9AB; 0x5BE0CD19]
    (replicate 4 0) (0, 0) 0 false (replicate 64 0).

Definition g (m : list Z) (sigma : list nat) (v : list Z) (a b c d e : nat) : list Z :=
  let se := sigma !!! e in let se1 := sigma !!! (e + 1)%nat in
  let v := <[a := wrapping_add 32 (wrapping_add 32 (v !!! a) (Z.lxor (m !!! se) (CST !!! se1))) (v !!! b)]> v in
  let v := <[d := rotate_right (Z.lxor (v !!! d) (v !!! a)) 16]> v in
  let v := <[c := wrapping_add 32 (v !!! c) (v !!! d)]> v in
  let v := <[b := rotate_right (Z.lxor (v !!! b) (v !!! c)) 12]> v in
  let v := <[a := wrapping_add 32 (wrapping_add 32 (v !!! a) (Z.lxor (m !!! se1) (CST !!! se))) (v !!! b)]> v in
  let v := <[d := rotate_right (Z.lxor (v !!! d) (v !!! a)) 8]> v in
  let v := <[c := wrapping_add 32 (v !!! c) (v !!! d)]> v in
  <[b := rotate_right (Z.lxor (v !!! b) (v !!! c)) 7]> v.

Definition round (m : list Z) (v : list Z) (sigma : list nat) : list Z :=
  (let g := g m sigma in
  let v := g v 0 4 8 12 0 in
  let v := g v 1 5 9 13 2 in
  let v := g v 2 6 10 14 4 in
  let v := g v 3 7 11 15 6 in
  let v := g v 3 4 9 14 14 in
  let v := g v 2 7 8 13 12 in
  let v := g v 0 5 10 15 8 in
  g v 1 6 11 12 10)%nat.

Definition compress (st : State) (block : bytes) : State :=
  let m := map (λ i, from_be_bytes (slice block (4 * i) 4)) (seq 0 16) in
  let v := h st ++ zip_with Z.lxor (s st) (take 4 CST) ++ take 4 (drop 4 CST) in
  let x i t := alter (Z.lxor t) i in
  let v := if nullt st then v
           else x 15%nat (t st).2 (x 14%nat (t st).2 (x 13%nat (t st).1 (x 12%nat (t st).1 v))) in
  let v := foldl (round m) v SIGMA in
  let h := zip_with Z.lxor (zip_with Z.lxor (h st) (take 8 v)) (drop 8 v) in
  let h := zip_with Z.lxor h (s st ++ s st) in
  mkState h (s st) (t st) (buflen st) (nullt st) (buf st).

Definition set_t0 (st : State) (t0 : Z) : State :=
  mkState (h st) (s st) (t0, (t st).2) (buflen st) (nullt st) (buf st).
Definition set_nullt (st : State) : State :=
  mkState (h st) (s st) (t st) (buflen st) true (buf st).
Definition set_buf (st : State) (b : bytes) : State :=
  mkState (h st) (s st) (t st) (buflen st) (nullt st) b.
Definition set_buflen (st : State) (n : nat) : State :=
  mkState (h st) (s st) (t st) n (nullt st) (buf st).

Definition count_block (st : State) : State :=
  let t0 := wrapping_add 32 (t st).1 512 in
  let t1 := if t0 =? 0 then wrapping_add 32 (t st).2 1 else (t st).2 in
  mkState (h st) (s st) (t0, t1) (buflen st) (nullt st) (buf st).

(** [buf[left..left + n].copy_from_slice(&data[..n])] *)
Definition copy_in (b : bytes) (left n : nat) (data : bytes) : option bytes :=
  if (length data <? n)%nat || (length b <? left + n)%nat then None
  else Some (take left b ++ take n data ++ drop (left + n) b).

(** [while bits >= 512]; each round takes 512 bits, [fuel] bounds their number. *)
Fixpoint update_loop (fuel : nat) (st : State) (data : bytes) (bits : nat) : option (State * bytes * nat) :=
  match fuel with
  | O => Some (st, data, bits)
  | S fuel =>
      if (512 <=? bits)%nat then
        if (length data <? 64)%nat then None
        else update_loop fuel (compress (count_block st) (take 64 data)) (drop 64 data) (bits - 512)
      else Some (st, data, bits)
  end.

Definition update_tail (st : State) (data : bytes) (bits left : nat) : option State :=
  '(st, data, bits) ← update_loop (bits / 512) st data bits;
  if (0 <? bits)%nat then
    b ← copy_in (buf st) left (bits / 8) data;
    Some (set_buflen (set_buf st b) (left * 8 + bits))
  else Some (set_buflen st 0).

Definition update (st : State) (data : bytes) (bits : nat) : option State :=
  let left := (buflen st / 8)%nat in
  let fill := (64 - left)%nat in
  if negb (left =? 0)%nat && (fill <=? (bits / 8) mod 64)%nat then
    b ← copy_in (buf st) left fill data;
    let st := count_block (set_buf st b) in
    let st := compress st (buf st) in
    update_tail st (drop fill data) (bits - fill * 8) 0
  else update_tail st data bits left.

Definition finalize (st : State) : option Hash :=
  let bl := buflen st in
  let lo := wrapping_add 32 (t st).1 (Z.of_nat bl) in
  let hi := if lo <? Z.of_nat bl then wrapping_add 32 (t st).2 1 else (t st).2 in
  let msglen := to_be_bytes 4 hi ++ to_be_bytes 4 lo in
  let sub st n := set_t0 st (wrapping_sub 32 (t st).1 (Z.of_nat n)) in
  st ←
    (if (bl =? 440)%nat then update (sub st 8%nat) [0x81] 8
     else
       st ←
         (if (bl <? 440)%nat then
            let st := if (bl =? 0)%nat then set_nullt st else st in
            update (sub st (440 - bl)%nat) PADDING (440 - bl)
          else
            st ← update (sub st (512 - bl)%nat) PADDING (512 - bl);
            st ← update (sub st 440%nat) (drop 1 PADDING) 440;
            Some (set_nullt st));
       st ← update st [0x01] 8;
       Some (sub st 8%nat));
  st ← update (sub st 64%nat) msglen 64;
  Some (concat (map (to_be_bytes 4) (h st))).

Definition blake256 (data : bytes) : option Hash :=
  st ← update new data (length data * 8);
  finalize st.

End blake256.

Example blake256_vectors :
  blake256.blake256 [0] = Some (to_be_bytes 32 0x0ce8d4ef4dd7cd8d62dfded9d4edb0a774ae6a41929a74da23109e8f11139c87) ∧
  blake256.blake256 (replicate 72 0) =
    Some (to_be_bytes 32 0xd419bad32d504fb7d44d460c42c5593fe544fa4c135dec31e21bd9abdcc22d41).
Proof. split; vm_compute; reflexivity. Qed.

Example aes_vectors :
  aes.round (replicate 16 0) (replicate 16 0) = replicate 16 0x63 ∧
  aes.expand_key (map Z.of_nat (seq 0 32)) !! 2%nat = Some (to_be_bytes 16 0xa573c29fa176c498a97fce93a572c09c) ∧
  aes.expand_key (map Z.of_nat (seq 0 32)) !! 3%nat = Some (to_be_bytes 16 0x1651a8cd0244beda1a5da4c10640bade).
Proof. split_and!; vm_compute; reflexivity. Qed.

(** * The slow hash *)

Record CnParams := mkCnParams {
  light : Z; variant : Z; page_size : Z; scratchpad : Z; iterations : Z; mask : Z }.

Definition CN_V0 : CnParams := mkCnParams 0 0 2097152 2097152 1048576 0x1FFFF0.
Definition CN_LITE_V1 : CnParams := mkCnParams 1 1 2097152 1048576 524288 0xFFFF0.
Definition CN_TURTLE_LITE_V2 : CnParams := mkCnParams 1 2 262144 262144 131072 0x1FFF0.
Definition CN_UPX : CnParams := mkCnParams 2 2 131072 131072 32768 0x1FFF0.

Section SlowHash.
Context `{C : Crypto}.

Definition words (b : Block) : Z * Z := (from_le_bytes (take 8 b), from_le_bytes (drop 8 b)).
Definition block (w : Z * Z) : Block := to_le_bytes 8 w.1 ++ to_le_bytes 8 w.2.
Definition xor (a b : Z * Z) : Z * Z := (Z.lxor a.1 b.1, Z.lxor a.2 b.2).
Definition add (a b : Z * Z) : Z * Z := (wrapping_add 64 a.1 b.1, wrapping_add 64 a.2 b.2).

Definition shuffle_add (pad : list Block) (j : nat) (a b b1 : Z * Z) (light2 : bool) : option (list Block) :=
  c1 ← words <$> pad !! Nat.lxor j 1;
  c2 ← words <$> pad !! Nat.lxor j 2;
  c3 ← words <$> pad !! Nat.lxor j 3;
  let '(to1, to2) := if light2 then (c1, c3) else (c3, c1) in
  let pad := <[Nat.lxor j 1 := block (add to1 b1)]> pad in
  let pad := <[Nat.lxor j 2 := block (add to2 b)]> pad in
  Some (<[Nat.lxor j 3 := block (add c2 a)]> pad).

Definition variant2_sqrt (n : Z) : Z :=
  let EXP_DOUBLE_BIAS := Z.shiftl 1023 52 in
  let x := f64_sqrt (f64_from_bits (Z.shiftr n 12 + EXP_DOUBLE_BIAS)) in
  let r := Z.shiftr (f64_to_bits x - EXP_DOUBLE_BIAS) 19 in
  let s := Z.shiftr r 1 in
  let b := Z.land r 1 in
  let r2 := wrapping_add 64 (wrapping_mul 64 s (s + b)) (wrap 64 (Z.shiftl r 32)) in
  let dec := n <? wrapping_add 64 r2 b in
  let inc := wrapping_add 64 r2 (Z.shiftl 1 32) <? wrapping_sub 64 n s in
  wrapping_sub 64 (wrapping_add 64 r (Z.b2z inc)) (Z.b2z dec).

Definition variant1_1 (b : Block) : Block :=
  let tmp := b !!! 11%nat in
  let index := wrap 8 (Z.shiftl (Z.lor (Z.land (Z.shiftr tmp 3) 6) (Z.land tmp 1)) 1) in
  <[11%nat := Z.lxor tmp (Z.land (Z.shiftr 0x75310 index) 0x30)]> b.

Definition finalize (which : Z) (data : bytes) : option Hash :=
  match Z.land which 3 with
  | 0 => blake256.blake256 data
  | 1 => Some (groestl256 data)
  | 2 => Some (jh256 data)
  | _ => Some (skein512_256 data)
  end.

(** The variables of the mixing loop. *)
Record Mix := mkMix {
  m_pad : list Block; m_a : Z * Z; m_b : Z * Z; m_b1 : Z * Z; m_division : Z; m_sqrt : Z }.

(** First half of an iteration, at the address of [a]: yields the pad and [c]. *)
Definition mix_first (p : CnParams) (m : Mix) : option (list Block * (Z * Z)) :=
  let j := Z.to_nat (Z.shiftr (Z.land (m_a m).1 (mask p)) 4) in
  pj ← m_pad m !! j;
  let c := words (aes.round pj (block (m_a m))) in
  pad ← (if variant p =? 2 then shuffle_add (m_pad m) j (m_a m) (m_b m) (m_b1 m) (light p =? 2)
         else Some (m_pad m));
  let pad := <[j := block (xor (m_b m) c)]> pad in
  let pad := if variant p =? 1 then alter variant1_1 j pad else pad in
  Some (pad, c).

(** Division and square root of variant 2. *)
Definition integer_math (c d : Z * Z) (division sqrt : Z) : (Z * Z) * Z * Z :=
  let d := (Z.lxor d.1 (Z.lxor division (wrap 64 (Z.shiftl sqrt 32))), d.2) in
  let dividend := c.2 in
  let divisor := Z.lor (wrapping_add 32 (wrap 32 c.1) (wrap 32 (wrap 64 (Z.shiftl sqrt 1)))) 0x80000001 in
  let division := wrapping_add 64 (wrap 32 (dividend / divisor))
                    (wrap 64 (Z.shiftl (dividend mod divisor) 32)) in
  (d, division, variant2_sqrt (wrapping_add 64 c.1 division)).

(** One iteration of the mixing loop. *)
Definition mix (p : CnParams) (tweak1_2 : Z) (m : Mix) : option Mix :=
  '(pad, c) ← mix_first p m;
  let j := Z.to_nat (Z.shiftr (Z.land c.1 (mask p)) 4) in
  d ← words <$> pad !! j;
  let '(d, division, sqrt) :=
    if variant p =? 2 then integer_math c d (m_division m) (m_sqrt m) else (d, m_division m, m_sqrt m) in
  let product := c.1 * d.1 in
  let hi := wrap 64 (Z.shiftr product 64) in
  let lo := wrap 64 product in
  '(pad, hi, lo) ←
    (if variant p =? 2 then
       w1 ← words <$> pad !! Nat.lxor j 1;
       let pad := <[Nat.lxor j 1 := block (xor w1 (hi, lo))]> pad in
       e ← words <$> pad !! Nat.lxor j 2;
       pad ← shuffle_add pad j (m_a m) (m_b m) (m_b1 m) (light p =? 2);
       Some (pad, Z.lxor hi e.1, Z.lxor lo e.2)
     else Some (pad, hi, lo));
  let a := add (m_a m) (hi, lo) in
  let stored := if variant p =? 1 then (a.1, Z.lxor a.2 tweak1_2) else a in
  let pad := <[j := block stored]> pad in
  Some (mkMix pad (xor a d) c (m_b m) division sqrt).

Fixpoint mix_loop (n : nat) (p : CnParams) (tweak1_2 : Z) (m : Mix) : option Mix :=
  match n with
  | O => Some m
  | S n => m ← mix p tweak1_2 m; mix_loop n p tweak1_2 m
  end.

(** Step 2: [n] lines of eight blocks, each the previous line after a pseudo round. *)
Fixpoint explode (n : nat) (text : list Block) (keys : list Block) : list Block :=
  match n with
  | O => []
  | S n => let text := map (λ t, aes.pseudo_round t keys) text in text ++ explode n text keys
  end.

(** Step 4. *)
Definition implode_line (keys text line : list Block) : list Block :=
  zip_with (λ t s, aes.pseudo_round (block (xor (words t) (words s))) keys) text line.

Definition state_text (state : bytes) : list Block := map (λ i, slice state (64 + 16 * i) 16) (seq 0 8).

Definition hash_with (data : bytes) (p : CnParams) (pad : list Block) : option (Hash * list Block) :=
  let state := keccak1600 data in
  let w i := from_le_bytes (slice state (8 * i) 8) in
  tweak1_2 ←
    (if variant p =? 1 then
       if (length data <? 43)%nat then None else Some (Z.lxor (w 24%nat) (from_le_bytes (slice data 35 8)))
     else Some 0);
  let '(division, sqrt) := if variant p =? 2 then (w 12%nat, w 13%nat) else (0, 0) in
  let b1 := if variant p =? 2 then (Z.lxor (w 8%nat) (w 10%nat), Z.lxor (w 9%nat) (w 11%nat)) else (0, 0) in
  let lines := (length pad / 8)%nat in
  let pad := explode lines (state_text state) (aes.expand_key (take 32 state)) ++ drop (8 * lines) pad in
  let a := (Z.lxor (w 0%nat) (w 4%nat), Z.lxor (w 1%nat) (w 5%nat)) in
  let b := (Z.lxor (w 2%nat) (w 6%nat), Z.lxor (w 3%nat) (w 7%nat)) in
  m ← mix_loop (Z.to_nat (iterations p / 2)) p tweak1_2 (mkMix pad a b b1 division sqrt);
  let pad := m_pad m in
  let keys := aes.expand_key (slice state 32 32) in
  let text := foldl (implode_line keys) (state_text state) (as_chunks 8 pad).1 in
  let state := take 64 state ++ concat text ++ drop 192 state in
  let state := keccakf state in
  h ← finalize (state !!! 0%nat) state;
  Some (h, pad).

(** [cryptonight::cn_slow_hash] on the thread's scratchpad. *)
Definition slow_hash (data : bytes) (p : CnParams) (SCRATCHPAD : list Block) : option (Hash * list Block) :=
  let blocks := Z.to_nat (scratchpad p / 16) in
  let pad := if (length SCRATCHPAD <? blocks)%nat then replicate blocks (replicate 16 0) else SCRATCHPAD in
  '(h, used) ← hash_with data p (take blocks pad);
  Some (h, used ++ drop blocks pad).

(** * Entry points of crates/wrkz-pow/src/lib.rs *)

Definition check_params (data : bytes) (p : CnParams) : bool :=
  ((0 <=? variant p) && (variant p <=? 2)) &&
  (negb (variant p =? 1) || (43 <=? length data)%nat) &&
  ((0 <? scratchpad p) && (scratchpad p mod 128 =? 0)) &&
  ((Z.land (mask p) 0xF =? 0) && (Z.lor (mask p) 0x3F <? scratchpad p)).

Definition cn_slow_hash (data : bytes) (p : CnParams) (SCRATCHPAD : list Block) : option (Hash * list Block) :=
  if check_params data p then slow_hash data p SCRATCHPAD else None.

Definition cn_slow_hash_v0 (data : bytes) := cn_slow_hash data CN_V0.
Definition cn_lite_slow_hash_v1 (data : bytes) := cn_slow_hash data CN_LITE_V1.
Definition cn_turtle_lite_slow_hash_v2 (data : bytes) := cn_slow_hash data CN_TURTLE_LITE_V2.
Definition cn_upx (data : bytes) := cn_slow_hash data CN_UPX.

(** The value of [cn_upx], which no scratchpad changes (CnTotal.v). *)
Definition cn_upx_hash (data : bytes) : Hash := default [] (fst <$> cn_upx data []).

Definition chukwa_slow_hash (data : bytes) : option Hash :=
  if (length data <? 16)%nat then None else Some (argon2id data (take 16 data)).

(** The outer [option] is a panic, the inner one the function's own [None]. *)
Definition pow_hash_for_block_version (major_version : Z) (data : bytes) (SCRATCHPAD : list Block)
    : option (option Hash * list Block) :=
  let some r := '(h, pad) ← r; Some (Some h, pad) in
  if (1 <=? major_version) && (major_version <=? 3) then some (cn_slow_hash_v0 data SCRATCHPAD)
  else if major_version =? 4 then some (cn_lite_slow_hash_v1 data SCRATCHPAD)
  else if major_version =? 5 then some (cn_turtle_lite_slow_hash_v2 data SCRATCHPAD)
  else if major_version =? 6 then h ← chukwa_slow_hash data; Some (Some h, SCRATCHPAD)
  else if major_version =? 7 then some (cn_upx data SCRATCHPAD)
  else Some (None, SCRATCHPAD).

End SlowHash.

(** * The table-driven AES round is the round of FIPS-197 *)

Module fips197.

(** Multiplication in GF(2^8) modulo x^8 + x^4 + x^3 + x + 1. *)
Definition xtime (b : Z) : Z := if b <? 128 then 2 * b else Z.lxor (2 * b) 0x11b.

Fixpoint gmul_loop (n : nat) (a b : Z) : Z :=
  match n with
  | O => 0
  | S n => Z.lxor (if Z.odd b then a else 0) (gmul_loop n (xtime a) (Z.div2 b))
  end.

Definition gmul (a b : Z) : Z := gmul_loop 8 a b.

(** The multiplicative inverse, as the power 254. *)
Definition ginv (b : Z) : Z := Nat.iter 254 (gmul b) 1.

Definition rotl8 (b n : Z) : Z := Z.lor (wrap 8 (Z.shiftl b n)) (Z.shiftr b (8 - n)).

Definition sub_byte (b : Z) : Z :=
  let x := ginv b in
  Z.lxor x (Z.lxor (rotl8 x 1) (Z.lxor (rotl8 x 2) (Z.lxor (rotl8 x 3) (Z.lxor (rotl8 x 4) 0x63)))).

(** Row [r] of column [c] of the state is byte [4 * c + r]. *)
Definition build (f : nat → nat → Z) : Block := concat (map (λ c, map (λ r, f r c) (seq 0 4)) (seq 0 4)).
Definition cell (s : Block) (r c : nat) : Z := s !!! (4 * (c mod 4) + r mod 4)%nat.

Definition sub_bytes (s : Block) : Block := map sub_byte s.
Definition shift_rows (s : Block) : Block := build (λ r c, cell s r (c + r)).
Definition mix_columns (s : Block) : Block := build (λ r c,
  Z.lxor (Z.lxor (Z.lxor (gmul 2 (cell s r c)) (gmul 3 (cell s (r + 1) c))) (cell s (r + 2) c)) (cell s (r + 3) c)).
Definition add_round_key (s key : Block) : Block := zip_with Z.lxor s key.

Definition round (s key : Block) : Block := add_round_key (mix_columns (shift_rows (sub_bytes s))) key.

End fips197.

Lemma sbox_sub_byte b : is_u8 b → aes.sbox b = fips197.sub_byte b.
Proof. intros Hb. apply Z.eqb_eq. revert b Hb. apply byte_cases. vm_compute. reflexivity. Qed.

Lemma sbox_column b : is_u8 b →
  let s := fips197.sub_byte b in let s2 := fips197.gmul 2 s in let s3 := fips197.gmul 3 s in
  to_le_bytes 4 (aes.T 0 b) = [s2; s; s; s3] ∧ to_le_bytes 4 (aes.T 1 b) = [s3; s2; s; s] ∧
  to_le_bytes 4 (aes.T 2 b) = [s; s3; s2; s] ∧ to_le_bytes 4 (aes.T 3 b) = [s; s; s3; s2].
Proof.
  intros Hb. rewrite <- sbox_sub_byte by done. cbv zeta. apply (bool_decide_eq_true_1 _).
  revert b Hb. apply byte_cases. vm_compute. reflexivity.
Qed.

Lemma to_le_bytes_lxor n a b :
  to_le_bytes n (Z.lxor a b) = zip_with Z.lxor (to_le_bytes n a) (to_le_bytes n b).
Proof.
  revert a b. induction n as [|n IH]; intros a b; [done|]. cbn [to_le_bytes zip_with].
  assert (∀ x, x / 256 = Z.shiftr x 8) as Hd by (intros; by rewrite Z.shiftr_div_pow2).
  assert (∀ x, x mod 256 = Z.land x (Z.ones 8)) as Hm by (intros; by rewrite Z.land_ones).
  rewrite !Hd, Z.shiftr_lxor, IH, !Hm. f_equal.
  apply Z.bits_inj'. intros k Hk. rewrite Z.lxor_spec, !Z.land_spec, Z.lxor_spec.
  by destruct (Z.testbit a k), (Z.testbit b k), (Z.testbit (Z.ones 8) k).
Qed.

Lemma le_word_bytes a b c d : is_u8 a → is_u8 b → is_u8 c → is_u8 d →
  let x := from_le_bytes [a; b; c; d] in
  Z.land x 0xff = a ∧ Z.land (Z.shiftr x 8) 0xff = b ∧ Z.land (Z.shiftr x 16) 0xff = c ∧ Z.shiftr x 24 = d.
Proof.
  unfold in_u. intros Ha Hb Hc Hd. change 0xff with (Z.ones 8).
  rewrite !Z.land_ones, !Z.shiftr_div_pow2 by lia. cbn [from_le_bytes].
  change (2 ^ 8) with 256 in *. change (2 ^ 16) with 65536. change (2 ^ 24) with 16777216.
  rewrite Z.mul_0_r, Z.add_0_r. split_and!; Z.to_euclidean_division_equations; lia.
Qed.

Lemma block_16 (b : Block) : is_array 16 b →
  ∃ b0 b1 b2 b3 b4 b5 b6 b7 b8 b9 b10 b11 b12 b13 b14 b15,
    b = [b0; b1; b2; b3; b4; b5; b6; b7; b8; b9; b10; b11; b12; b13; b14; b15].
Proof. intros [_ Hl]. do 16 (destruct b as [|? b]; [done|]). destruct b; [eauto 17|done]. Qed.

Ltac lxor_eq := apply Z.bits_inj'; intros; rewrite !Z.lxor_spec; btauto.

(** One output column: byte [r] of column [c + r] for each row, and the key word. *)
Lemma round_column a0 a1 a2 a3 b0 b1 b2 b3 c0 c1 c2 c3 d0 d1 d2 d3 k0 k1 k2 k3 :
  is_bytes [a0; a1; a2; a3; b0; b1; b2; b3; c0; c1; c2; c3; d0; d1; d2; d3; k0; k1; k2; k3] →
  let S := fips197.sub_byte in
  let out x y z w k := Z.lxor (Z.lxor (Z.lxor (Z.lxor (fips197.gmul 2 (S x)) (fips197.gmul 3 (S y))) (S z)) (S w)) k in
  to_le_bytes 4
    (Z.lxor (Z.lxor (Z.lxor (Z.lxor (from_le_bytes [k0; k1; k2; k3])
      (aes.T 0 (Z.land (from_le_bytes [a0; a1; a2; a3]) 0xff)))
      (aes.T 1 (Z.land (Z.shiftr (from_le_bytes [b0; b1; b2; b3]) 8) 0xff)))
      (aes.T 2 (Z.land (Z.shiftr (from_le_bytes [c0; c1; c2; c3]) 16) 0xff)))
      (aes.T 3 (Z.shiftr (from_le_bytes [d0; d1; d2; d3]) 24))) =
  [out a0 b1 c2 d3 k0; out b1 c2 d3 a0 k1; out c2 d3 a0 b1 k2; out d3 a0 b1 c2 k3].
Proof.
  intros H S out. unfold is_bytes in H. rewrite !Forall_cons in H.
  destruct H as (?&?&?&?&?&?&?&?&?&?&?&?&?&?&?&?&?&?&?&?&_).
  destruct (le_word_bytes a0 a1 a2 a3) as (->&_); [done..|].
  destruct (le_word_bytes b0 b1 b2 b3) as (_&->&_); [done..|].
  destruct (le_word_bytes c0 c1 c2 c3) as (_&_&->&_); [done..|].
  destruct (le_word_bytes d0 d1 d2 d3) as (_&_&_&->); [done..|].
  rewrite !to_le_bytes_lxor.
  destruct (sbox_column a0) as (->&_); [done|]. destruct (sbox_column b1) as (_&->&_); [done|].
  destruct (sbox_column c2) as (_&_&->&_); [done|]. destruct (sbox_column d3) as (_&_&_&->); [done|].
  pose proof (to_from_le_bytes [k0; k1; k2; k3]) as Hk. simpl length in Hk.
  rewrite Hk by (unfold is_bytes; rewrite !Forall_cons; eauto 6).
  cbn [zip_with]. unfold out, S. f_equal; [|f_equal; [|f_equal; [|f_equal]]]; lxor_eq.
Qed.

(** One software AES round, a lookup in four tables derived from the S-box,
    is SubBytes, ShiftRows, MixColumns and AddRoundKey of FIPS-197 over the
    algebraically defined S-box. *)
Theorem aes_round_fips197 (block key : Block) :
  is_array 16 block → is_array 16 key → aes.round block key = fips197.round block key.
Proof.
  intros Hb Hk. destruct (block_16 block Hb) as (?&?&?&?&?&?&?&?&?&?&?&?&?&?&?&?&->).
  destruct (block_16 key Hk) as (?&?&?&?&?&?&?&?&?&?&?&?&?&?&?&?&->).
  destruct Hb as [Hb _], Hk as [Hk _]. unfold is_bytes in Hb, Hk. rewrite !Forall_cons in Hb, Hk. destruct_and!.
  pose proof round_column as Hcol.
  unfold aes.round, fips197.round, fips197.mix_columns, fips197.shift_rows, fips197.sub_bytes.
  revert Hcol. generalize aes.T fips197.sub_byte fips197.gmul from_le_bytes (to_le_bytes 4).
  intros T sub gmul from_le to_le Hcol. cbn [map seq concat]. unfold slice.
  simpl (_ mod _)%nat. simpl (_ * _)%nat. cbn [take drop]. cbv zeta in Hcol.
  rewrite !Hcol by (unfold is_bytes; rewrite !Forall_cons; split_and!; done).
  reflexivity.
Qed.

Lemma aes_round_fips197_witness :
  aes.round (map Z.of_nat (seq 0 16)) (replicate 16 0xa5) =
  fips197.round (map Z.of_nat (seq 0 16)) (replicate 16 0xa5).
Proof.
  apply aes_round_fips197; (split; [repeat constructor; vm_compute; congruence | done]).
Defined.

(** * The float square root of variant 2 is exact *)

Lemma sqrt_nearest_bounds m : 0 < m →
  let X := sqrt_nearest m in X * X - X + 1 ≤ m ≤ X * X + X ∧ 0 < X.
Proof.
  intros Hm. unfold sqrt_nearest. pose proof (Z.sqrt_spec m ltac:(lia)) as [H1 H2].
  assert (0 < Z.sqrt m) by (apply Z.sqrt_pos; lia).
  case_bool; bool_hyps; nia.
Qed.

(** The estimate [X / 2 ^ 19] of [R = sqrt (4 * N)] is off by at most one. *)
Lemma estimate_off_by_one N rho X :
  2 ^ 64 ≤ N - rho → N < 2 ^ 65 → 0 ≤ rho < 4096 →
  X * X - X + 1 ≤ 2 ^ 40 * (N - rho) ≤ X * X + X → 0 < X →
  let R := Z.sqrt (4 * N) in let Q := X / 2 ^ 19 in
  R - 1 ≤ Q ≤ R + 1 ∧ 2 ^ 33 ≤ Q ≤ 12148001999.
Proof.
  intros HN HN' Hrho HX HX0 R Q. pose proof (Z.sqrt_spec (4 * N) ltac:(lia)) as [H1 H2]. fold R in H1, H2.
  assert (2 ^ 33 ≤ R) by (apply Z.sqrt_le_square; lia).
  pose proof (Z.div_mod X (2 ^ 19) ltac:(lia)) as Hd. pose proof (Z.mod_pos_bound X (2 ^ 19) ltac:(lia)) as Hm.
  fold Q in Hd. split_and!.
  - apply Z.nlt_ge. intros Hlt.
    assert (X + 1 ≤ 2 ^ 19 * (R - 1)) by lia.
    assert (X * (X + 1) ≤ (2 ^ 19 * (R - 1)) * (2 ^ 19 * (R - 1))) by (apply Z.mul_le_mono_nonneg; lia). nia.
  - apply Z.nlt_ge. intros Hlt.
    assert (2 ^ 19 * (R + 2) ≤ X) by lia.
    assert ((2 ^ 19 * (R + 2)) * (2 ^ 19 * (R + 2) - 1) ≤ X * (X - 1)) by (apply Z.mul_le_mono_nonneg; lia). nia.
  - apply Z.nlt_ge. intros Hlt.
    assert (X + 1 ≤ 2 ^ 52) by lia.
    assert (X * (X + 1) ≤ (2 ^ 52 - 1) * 2 ^ 52) by (apply Z.mul_le_mono_nonneg; lia). lia.
  - apply Z.nlt_ge. intros Hlt.
    assert (2 ^ 19 * 12148002000 ≤ X) by lia.
    assert ((2 ^ 19 * 12148002000) * (2 ^ 19 * 12148002000 - 1) ≤ X * (X - 1)) by (apply Z.mul_le_mono_nonneg; lia). lia.
Qed.

(** The fixup on exact integers: one step towards the root. *)
Lemma fixup_exact n r :
  is_u64 n → 0 ≤ r → 2 ^ 33 + r ≤ 12148001999 →
  let R := Z.sqrt (4 * (2 ^ 64 + n)) in
  R - 1 ≤ 2 ^ 33 + r ≤ R + 1 →
  let s := Z.shiftr r 1 in let b := Z.land r 1 in
  let r2 := wrapping_add 64 (wrapping_mul 64 s (s + b)) (wrap 64 (Z.shiftl r 32)) in
  wrapping_sub 64
    (wrapping_add 64 r (Z.b2z (wrapping_add 64 r2 (Z.shiftl 1 32) <? wrapping_sub 64 n s)))
    (Z.b2z (n <? wrapping_add 64 r2 b)) = R - 2 ^ 33.
Proof.
  intros Hn Hr Hmax R HR s b r2. unfold in_u in Hn.
  pose proof (Z.sqrt_spec (4 * (2 ^ 64 + n)) ltac:(lia)) as [H1 H2]. fold R in H1, H2.
  assert (2 ^ 33 ≤ R) by (apply Z.sqrt_le_square; lia).
  assert (r = 2 * s + b ∧ 0 ≤ b ≤ 1) as [Er Hb].
  { assert (b = r mod 2) as -> by exact (Z.land_ones r 1 ltac:(lia)).
    assert (s = r / 2) as -> by exact (Z.shiftr_div_pow2 r 1 ltac:(lia)).
    Z.to_euclidean_division_equations; lia. }
  assert (0 ≤ s < 2 ^ 31) as Hs by lia. assert (b * b = b) as Hbb by nia.
  set (Q := 2 ^ 33 + r) in *.
  assert (Q * Q = 4 * (2 ^ 64 + (s * (s + b) + r * 2 ^ 32)) + b) as HQ by (unfold Q; nia).
  assert (Q * Q ≤ 12148001999 * 12148001999) as HQm by (apply Z.mul_le_mono_nonneg; lia).
  assert (0 ≤ s * (s + b) ∧ 0 ≤ r * 2 ^ 32) as [Hp1 Hp2] by nia.
  assert (r2 = s * (s + b) + r * 2 ^ 32) as E2.
  { unfold r2, wrapping_add, wrapping_mul. rewrite Z.shiftl_mul_pow2 by lia.
    rewrite !(wrap_small 64) by (unfold in_u; rewrite ?(wrap_small 64) by (unfold in_u; lia); lia). lia. }
  assert (s ≤ n) as Hsn.
  { destruct (Z.lt_ge_cases r 2) as [?|?]; [lia|].
    assert ((2 ^ 33 + 1) * (2 ^ 33 + 1) ≤ R * R) by (apply Z.mul_le_mono_nonneg; lia). lia. }
  change (Z.shiftl 1 32) with (2 ^ 32). unfold wrapping_add, wrapping_sub.
  rewrite (wrap_small 64 (r2 + 2 ^ 32)), (wrap_small 64 (n - s)), (wrap_small 64 (r2 + b)) by (unfold in_u; lia).
  assert ((r2 + 2 ^ 32 <? n - s) = ((Q + 1) * (Q + 1) <=? 4 * (2 ^ 64 + n))) as -> by lia.
  assert ((n <? r2 + b) = (4 * (2 ^ 64 + n) <? Q * Q)) as -> by lia.
  assert (((Q + 1) * (Q + 1) <=? 4 * (2 ^ 64 + n)) = (Q + 1 <=? R)) as ->.
  { apply eq_iff_eq_true. rewrite !Z.leb_le. apply Z.sqrt_le_square; lia. }
  assert ((4 * (2 ^ 64 + n) <? Q * Q) = (R <? Q)) as ->.
  { apply eq_iff_eq_true. rewrite !Z.ltb_lt. apply Z.sqrt_lt_square; lia. }
  clear H1 H2 HQ HQm E2 Er Hp1 Hp2 Hbb.
  destruct (_ <=? R) eqn:Ei, (R <? _) eqn:Ed; bool_hyps; cbn [Z.b2z]; try lia;
    rewrite !(wrap_small 64) by (unfold in_u; rewrite ?(wrap_small 64) by (unfold in_u; lia); lia); lia.
Qed.

(** The double-precision square root of CryptoNight variant 2, with its
    one-step fixup, is exact on every 64-bit input: it is the integer part of
    2 * sqrt(2^64 + n), less 2^33. *)
Theorem variant2_sqrt_exact (n : Z) : is_u64 n →
  variant2_sqrt n = Z.sqrt (4 * (2 ^ 64 + n)) - 2 ^ 33.
Proof.
  intros Hn. unfold variant2_sqrt. unfold in_u in Hn.
  pose proof (Z.div_mod n 4096 ltac:(lia)) as Hd. pose proof (Z.mod_pos_bound n 4096 ltac:(lia)) as Hm.
  rewrite (Z.shiftr_div_pow2 n 12) by lia. change (2 ^ 12) with 4096.
  set (f := n / 4096) in *. rewrite f64_sqrt_1 by lia.
  pose proof (sqrt_nearest_bounds ((f + 2 ^ 52) * 2 ^ 52) ltac:(lia)) as [HX HX0]. cbv zeta in HX, HX0.
  set (X := sqrt_nearest _) in *.
  destruct (estimate_off_by_one (2 ^ 64 + n) (n mod 4096) X) as (HR&HQ); [lia..|].
  replace (Z.shiftr (X - 2 ^ 52) 19) with (X / 2 ^ 19 - 2 ^ 33).
  2:{ rewrite Z.shiftr_div_pow2 by lia. replace (X - 2 ^ 52) with (X + (- 2 ^ 33) * 2 ^ 19) by lia.
      rewrite Z.div_add by lia. lia. }
  apply fixup_exact; [done | lia..].
Qed.

Lemma variant2_sqrt_exact_witness :
  is_u64 18446744073709551615 ∧ variant2_sqrt 18446744073709551615 = 3558067407.
Proof.
  assert (is_u64 18446744073709551615) as H by (split; vm_compute; congruence).
  split; [exact H|]. rewrite (variant2_sqrt_exact _ H). reflexivity.
Defined.
