(* ===== verification/CnTotal.v ===== *)
(** Totality of CryptoNight: with parameters that pass [check_params] no index,
    slice or assertion of the hash panics, and its value does not depend on what
    an earlier hash left in the thread's scratchpad. *)
From Stdlib Require Import Btauto.
From S2P Require Import Prelude Hashing Cryptonight.
Local Open Scope Z_scope.

(** * BLAKE-256 returns on every input *)

Module BlakeTotal.
Import blake256.
Local Open Scope nat_scope.

Definition wf (st : State) : Prop :=
  (∃ k, buflen st = 8 * k ∧ k < 64) ∧ length (buf st) = 64 ∧ length (h st) = 8 ∧ length (s st) = 4.

Lemma length_g m sigma v a b c d e : length (g m sigma v a b c d e) = length v.
Proof. unfold g. by rewrite !length_insert. Qed.

Lemma length_rounds m rows v : length (foldl (round m) v rows) = length v.
Proof.
  revert v. induction rows as [|r rows IH]; intros v; [done|]. simpl. rewrite IH. unfold round. by rewrite !length_g.
Qed.

Lemma compress_wf st block : wf st → wf (compress st block).
Proof.
  intros (Hb&Hbuf&Hh&Hs). split_and!; [exact Hb | exact Hbuf | | exact Hs].
  unfold compress. cbn [h].
  rewrite !length_zip_with, length_take, length_drop, !length_rounds, !length_app, Hh, Hs.
  case_bool; rewrite ?length_alter, !length_app, Hh, length_zip_with, Hs; vm_compute; reflexivity.
Qed.

Lemma count_block_wf st : wf st → wf (count_block st).
Proof. done. Qed.

Lemma copy_in_Some b left n data : n ≤ length data → left + n ≤ length b →
  ∃ b', copy_in b left n data = Some b' ∧ length b' = length b.
Proof.
  intros H1 H2. unfold copy_in. case_bool; [apply orb_true_iff in Hb as [Hb|Hb]; bool_hyps; lia|].
  eexists. split; [done|]. rewrite !length_app, !length_take, length_drop. lia.
Qed.

Lemma update_loop_Some fuel st data n : wf st → n ≤ length data → fuel = n / 64 →
  ∃ st' data', update_loop fuel st data (8 * n) = Some (st', data', 8 * (n mod 64)) ∧
    wf st' ∧ buflen st' = buflen st ∧ n mod 64 ≤ length data'.
Proof.
  revert st data n. induction fuel as [|fuel IH]; intros st data n Hwf Hn Hf.
  - exists st, data. assert (n mod 64 = n) as -> by (apply Nat.mod_small; apply Nat.div_small_iff; lia). done.
  - assert (64 ≤ n) by (destruct (Nat.lt_ge_cases n 64); [rewrite Nat.div_small in Hf; lia|done]).
    cbn [update_loop]. case_bool; bool_hyps; [|lia]. case_bool; bool_hyps; [lia|].
    replace (8 * n - 512) with (8 * (n - 64)) by lia.
    assert (n = n - 64 + 1 * 64) as En by lia.
    destruct (IH (compress (count_block st) (take 64 data)) (drop 64 data) (n - 64)) as (st'&data'&->&?&?&?).
    + by apply compress_wf.
    + rewrite length_drop. lia.
    + rewrite En, Nat.div_add in Hf by lia. lia.
    + assert (n mod 64 = (n - 64) mod 64) as -> by (rewrite En at 1; by rewrite Nat.Div0.mod_add).
      by exists st', data'.
Qed.

Lemma update_tail_Some st data n left : wf st → n ≤ length data → left + n mod 64 < 64 →
  ∃ st', update_tail st data (8 * n) left = Some st' ∧ wf st'.
Proof.
  intros Hwf Hn Hl. unfold update_tail.
  replace (8 * n / 512) with (n / 64) by (rewrite <- (Nat.Div0.div_mul_cancel_l n 64 8); [done|lia]).
  destruct (update_loop_Some (n / 64) st data n Hwf Hn eq_refl) as (st'&data'&->&Hwf'&_&Hd).
  cbn [mbind option_bind]. destruct Hwf' as (Hb&Hbuf&Hh&Hs). case_bool; bool_hyps.
  - rewrite (Nat.mul_comm 8), Nat.div_mul by lia.
    destruct (copy_in_Some (buf st') left (n mod 64) data') as (b'&->&Hlb); [done|lia|].
    eexists. split; [done|]. split_and!; [|simpl; lia|done|done].
    exists (left + n mod 64). cbn [buflen set_buflen]. lia.
  - eexists. split; [done|]. split_and!; [|done..]. exists 0. simpl. lia.
Qed.

Lemma update_Some st data n : wf st → n ≤ length data →
  ∃ st', update st data (8 * n) = Some st' ∧ wf st'.
Proof.
  intros Hwf Hn. pose proof Hwf as ((k&Hk&Hk64)&Hbuf&Hh&Hs). unfold update.
  rewrite Hk, !(Nat.mul_comm 8), !Nat.div_mul by lia. rewrite !(Nat.mul_comm _ 8).
  pose proof (Nat.mod_upper_bound n 64 ltac:(lia)). pose proof (Nat.Div0.mod_le n 64).
  case_bool; bool_hyps.
  - destruct (copy_in_Some (buf st) k (64 - k) data) as (b'&->&Hb'); [lia..|]. cbn [mbind option_bind].
    replace (8 * n - 8 * (64 - k)) with (8 * (n - (64 - k))) by lia.
    apply update_tail_Some; [|rewrite length_drop; lia|].
    + apply compress_wf, count_block_wf. split_and!; [by exists k | simpl; lia | done..].
    + apply Nat.mod_upper_bound. lia.
  - apply update_tail_Some; [done..|]. apply andb_false_iff in Hb as [Hb|Hb]; bool_hyps; lia.
Qed.

Lemma set_t0_wf st t0 : wf st → wf (set_t0 st t0).
Proof. done. Qed.

Lemma set_nullt_wf st : wf st → wf (set_nullt st).
Proof. done. Qed.

(** One padding call: [bits] is [8 * n], the data holds [n] bytes. *)
Lemma update_bits st data bits n : wf st → bits = 8 * n → n ≤ length data →
  ∃ st', update st data bits = Some st' ∧ wf st'.
Proof. intros ? -> ?. by apply update_Some. Qed.

Ltac step_update k :=
  match goal with
  | |- context [update ?st ?d ?b] =>
      let st' := fresh "st" in let E := fresh "E" in let W := fresh "W" in
      destruct (update_bits st d b k) as (st'&E&W);
      [ repeat first [apply set_t0_wf | apply set_nullt_wf]; try case_bool; try apply set_nullt_wf; assumption
      | lia | rewrite ?length_drop; unfold PADDING; rewrite ?length_insert, ?length_replicate; simpl; try lia
      | rewrite E; cbn [mbind option_bind] ]
  end.

Lemma finalize_Some st : wf st → ∃ o, finalize st = Some o ∧ is_hash o.
Proof.
  intros Hwf. pose proof Hwf as ((k&Hk&Hk64)&_). unfold finalize.
  match goal with |- context [mbind _ ?m] => assert (∃ st', m = Some st' ∧ wf st') as (st'&->&Hwf') end.
  - case_bool; bool_hyps; [step_update 1; eauto|].
    case_bool; bool_hyps; [step_update (55 - k) | step_update (64 - k); step_update 55];
      step_update 1; eauto.
  - cbn [mbind option_bind]. step_update 8. eexists. split; [done|]. destruct W as (_&_&Hh&_).
    generalize dependent (h st0). intros l Hl. split.
    + apply Forall_concat, Forall_map, Forall_true. intros. apply Forall_reverse, to_le_bytes_is_bytes.
    + do 8 (destruct l as [|? l]; [done|]). by destruct l.
Qed.

Lemma blake256_Some data : ∃ o, blake256 data = Some o ∧ is_hash o.
Proof.
  unfold blake256. destruct (update_bits new data (length data * 8) (length data)) as (st&->&Hwf); [|lia|lia|].
  - split_and!; [exists 0; simpl; lia | done..].
  - by apply finalize_Some.
Qed.

End BlakeTotal.

(** * The scratchpad accesses of the mixing loop are in range *)

Section MixTotal.
Context `{C : Crypto}.

Lemma lxor_in_range (j k n : nat) : (k < 4)%nat → (n mod 4 = 0)%nat → (j < n)%nat → (Nat.lxor j k < n)%nat.
Proof.
  intros Hk Hn Hj. assert (Nat.lxor j k / 4 = j / 4)%nat as E.
  { rewrite <- !(Nat.shiftr_div_pow2 _ 2), Nat.shiftr_lxor, (Nat.shiftr_div_pow2 k 2), (Nat.div_small k) by done.
    apply Nat.lxor_0_r. }
  pose proof (Nat.div_mod_eq (Nat.lxor j k) 4). pose proof (Nat.div_mod_eq j 4).
  pose proof (Nat.div_mod_eq n 4). pose proof (Nat.mod_upper_bound (Nat.lxor j k) 4).
  pose proof (Nat.mod_upper_bound j 4). lia.
Qed.

Lemma lookup_words (pad : list Block) i : (i < length pad)%nat → ∃ w, words <$> pad !! i = Some w.
Proof. intros Hi. destruct (lookup_lt_is_Some_2 pad i Hi) as [b ->]. by eexists. Qed.

Lemma shuffle_add_Some pad j a b b1 l2 :
  (length pad mod 4 = 0)%nat → (j < length pad)%nat →
  ∃ pad', shuffle_add pad j a b b1 l2 = Some pad' ∧ length pad' = length pad.
Proof.
  intros Hm Hj. unfold shuffle_add.
  destruct (lookup_words pad (Nat.lxor j 1)) as [w1 ->]; [by apply lxor_in_range; [lia| |]|].
  destruct (lookup_words pad (Nat.lxor j 2)) as [w2 ->]; [by apply lxor_in_range; [lia| |]|].
  destruct (lookup_words pad (Nat.lxor j 3)) as [w3 ->]; [by apply lxor_in_range; [lia| |]|].
  cbn [mbind option_bind]. destruct l2; eexists; (split; [reflexivity | by rewrite !length_insert]).
Qed.

(** The addresses are masked into the scratchpad. *)
Definition mask_fits (p : CnParams) (n : nat) : Prop :=
  0 ≤ mask p ∧ mask p < 16 * Z.of_nat n ∧ (n mod 4 = 0)%nat.

Lemma land_le_r a m : 0 ≤ m → 0 ≤ Z.land a m ≤ m.
Proof.
  intros Hm. split; [by apply Z.land_nonneg; right|].
  assert (m = Z.land a m + Z.ldiff m a) as E.
  { rewrite Z.add_nocarry_lxor; [|apply Z.bits_inj'; intros; rewrite Z.land_spec, Z.land_spec, Z.ldiff_spec, Z.bits_0; btauto].
    apply Z.bits_inj'. intros. rewrite Z.lxor_spec, Z.land_spec, Z.ldiff_spec. btauto. }
  assert (0 ≤ Z.ldiff m a) by (apply Z.ldiff_nonneg; by left). lia.
Qed.

Lemma address_in_range p n a : mask_fits p n → (Z.to_nat (Z.shiftr (Z.land a (mask p)) 4) < n)%nat.
Proof.
  intros (H0&H1&_). pose proof (land_le_r a (mask p) H0). rewrite Z.shiftr_div_pow2 by lia.
  apply Nat2Z.inj_lt. rewrite Z2Nat.id by (apply Z.div_pos; lia). apply Z.div_lt_upper_bound; lia.
Qed.

Lemma mix_first_Some p m : mask_fits p (length (m_pad m)) →
  ∃ pad c, mix_first p m = Some (pad, c) ∧ length pad = length (m_pad m).
Proof.
  intros Hf. pose proof (address_in_range p _ (m_a m).1 Hf) as Hj. unfold mix_first.
  destruct (lookup_lt_is_Some_2 _ _ Hj) as [pj ->]. cbn [mbind option_bind].
  match goal with |- context [mbind _ ?o] => assert (∃ pad, o = Some pad ∧ length pad = length (m_pad m)) as (pad&->&Hl) end.
  { case_bool; [by apply shuffle_add_Some; [apply Hf|] | eauto]. }
  cbn [mbind option_bind]. do 2 eexists. split; [reflexivity|].
  case_bool; rewrite ?length_alter, length_insert; done.
Qed.

Lemma mix_Some p tw m : mask_fits p (length (m_pad m)) →
  ∃ m', mix p tw m = Some m' ∧ length (m_pad m') = length (m_pad m).
Proof.
  intros Hf. unfold mix. destruct (mix_first_Some p m Hf) as (pad&c&->&Hl). cbn [mbind option_bind].
  rewrite <- Hl in *. pose proof (address_in_range p _ c.1 Hf) as Hj. set (j := Z.to_nat _) in *.
  destruct (lookup_words pad j Hj) as [d ->]. cbn [mbind option_bind].
  destruct (if variant p =? 2 then integer_math _ _ _ _ else _) as [[d' dv] sq].
  match goal with |- context [mbind _ ?o] => assert (∃ pad' hi lo, o = Some (pad', hi, lo) ∧ length pad' = length pad) as (pad'&hi&lo&->&Hl') end.
  { case_bool; [|by eauto]. destruct Hf as (_&_&Hm).
    destruct (lookup_words pad (Nat.lxor j 1)) as [w1 ->]; [by apply lxor_in_range; [lia| |]|].
    cbn [mbind option_bind]. set (pad1 := <[_ := _]> pad).
    assert (length pad1 = length pad) as Hl1 by apply length_insert.
    destruct (lookup_words pad1 (Nat.lxor j 2)) as [e ->]; [rewrite Hl1; by apply lxor_in_range; [lia| |]|].
    cbn [mbind option_bind].
    destruct (shuffle_add_Some pad1 j (m_a m) (m_b m) (m_b1 m) (light p =? 2)) as (pad2&->&Hl2); [rewrite Hl1; done..|].
    cbn [mbind option_bind]. do 3 eexists. split; [done|congruence]. }
  cbn [mbind option_bind]. eexists. split; [reflexivity|]. cbn [m_pad]. rewrite length_insert. done.
Qed.

Lemma mix_loop_Some n p tw m : mask_fits p (length (m_pad m)) →
  ∃ m', mix_loop n p tw m = Some m' ∧ length (m_pad m') = length (m_pad m).
Proof.
  revert m. induction n as [|n IH]; intros m Hf; [by eexists|]. cbn [mix_loop].
  destruct (mix_Some p tw m Hf) as (m1&->&H1). cbn [mbind option_bind].
  destruct (IH m1) as (m2&->&H2); [by rewrite H1|]. eexists. split; [done|congruence].
Qed.

End MixTotal.

(** * The whole hash *)

Section HashTotal.
Context `{C : Crypto} {T : CryptoTyped C}.

Lemma length_explode n text keys : length text = 8%nat → length (explode n text keys) = (8 * n)%nat.
Proof.
  revert text. induction n as [|n IH]; intros text Ht; [done|]. cbn [explode].
  rewrite length_app, IH, length_map by (by rewrite length_map). lia.
Qed.

(** Every line of the scratchpad is written before it is read. *)
Lemma hash_with_fresh data p pad1 pad2 :
  length pad1 = length pad2 → (length pad1 mod 8 = 0)%nat → hash_with data p pad1 = hash_with data p pad2.
Proof.
  intros Hl Hm. unfold hash_with. rewrite <- Hl.
  assert (8 * (length pad1 / 8) = length pad1)%nat as -> by (pose proof (Nat.div_mod_eq (length pad1) 8); lia).
  rewrite (drop_ge pad1), (drop_ge pad2) by lia. done.
Qed.

Lemma final_digest_Some which data : ∃ h, finalize which data = Some h ∧ is_hash h.
Proof.
  unfold finalize. repeat case_match; eauto using groestl256_typed, jh256_typed, skein512_256_typed, BlakeTotal.blake256_Some.
Qed.

Lemma hash_with_Some data p pad :
  mask_fits p (length pad) → (length pad mod 8 = 0)%nat → (variant p = 1 → (43 ≤ length data)%nat) →
  ∃ h pad', hash_with data p pad = Some (h, pad') ∧ is_hash h ∧ length pad' = length pad.
Proof.
  intros Hf Hm Hv. unfold hash_with.
  match goal with |- context [mbind _ ?o] => assert (∃ tw, o = Some tw) as (tw&->) end.
  { case_bool; [|by eauto]. bool_hyps. case_bool; bool_hyps; [|by eauto]. specialize (Hv Hb). lia. }
  cbn [mbind option_bind]. destruct (if variant p =? 2 then _ else _) as [dv sq].
  match goal with |- context [mix_loop ?n ?p ?tw ?m] => destruct (mix_loop_Some n p tw m) as (m'&->&Hl) end.
  - cbn [m_pad]. rewrite length_app, length_explode, length_drop by done.
    by replace (_ + _)%nat with (length pad) by (pose proof (Nat.div_mod_eq (length pad) 8); lia).
  - cbn [mbind option_bind]. match goal with |- context [finalize ?w ?d] => destruct (final_digest_Some w d) as (h&->&Hh) end.
    cbn [mbind option_bind]. do 2 eexists. split_and!; [done..|]. rewrite Hl. cbn [m_pad].
    rewrite length_app, length_explode, length_drop by done. pose proof (Nat.div_mod_eq (length pad) 8). lia.
Qed.

Lemma check_params_fits data p : is_u64 (mask p) → check_params data p = true →
  let n := Z.to_nat (scratchpad p / 16) in
  mask_fits p n ∧ (n mod 8 = 0)%nat ∧ (variant p = 1 → (43 ≤ length data)%nat).
Proof.
  intros [Hm _] Hc. unfold check_params in Hc. bool_hyps.
  assert (mask p ≤ Z.lor (mask p) 63) as Hor.
  { pose proof (land_le_r (mask p) (Z.lor (mask p) 63)) as H6.
    assert (Z.land (mask p) (Z.lor (mask p) 63) = mask p) as E.
    { apply Z.bits_inj'. intros. rewrite Z.land_spec, Z.lor_spec. btauto. }
    rewrite E in H6. apply H6. apply Z.lor_nonneg. lia. }
  set (q := scratchpad p / 128).
  assert (scratchpad p = 128 * q) as Eq by (unfold q; Z.to_euclidean_division_equations; lia).
  assert (Z.to_nat (scratchpad p / 16) = 8 * Z.to_nat q)%nat as ->.
  { rewrite Eq. replace (128 * q) with (8 * q * 16) by lia. rewrite Z.div_mul by lia. lia. }
  cbv zeta. split_and!; [| by rewrite Nat.mul_comm, Nat.Div0.mod_mul |].
  - split_and!; [lia | lia |]. replace (8 * Z.to_nat q)%nat with (2 * Z.to_nat q * 4)%nat by lia. apply Nat.Div0.mod_mul.
  - intros Hv. match goal with H : (_ || _)%bool = true |- _ => apply orb_true_iff in H as [H|H] end; bool_hyps; lia.
Qed.

(** With parameters that pass [check_params], CryptoNight returns a 32-byte
    hash without any out-of-range access, and it is the same hash whatever the
    thread's scratchpad held before the call. *)
Theorem cn_slow_hash_pure (data : bytes) (p : CnParams) :
  is_u64 (mask p) → check_params data p = true →
  ∃ h, is_hash h ∧ ∀ SCRATCHPAD, ∃ SCRATCHPAD', cn_slow_hash data p SCRATCHPAD = Some (h, SCRATCHPAD').
Proof.
  intros Hm Hc. unfold cn_slow_hash. rewrite Hc. destruct (check_params_fits data p Hm Hc) as (Hf&H8&Hv).
  unfold slow_hash. set (n := Z.to_nat (scratchpad p / 16)) in *.
  destruct (hash_with_Some data p (replicate n (replicate 16 0))) as (h&pad&Hh&Hty&Hl); [by rewrite length_replicate..|done|].
  exists h. split; [done|]. intros SP. match goal with |- context [take n ?x] => set (pad0 := x) end.
  assert (length (take n pad0) = n) as Hn.
  { unfold pad0. case_bool; bool_hyps; rewrite length_take, ?length_replicate; lia. }
  rewrite (hash_with_fresh data p _ (replicate n (replicate 16 0))) by (rewrite Hn, ?length_replicate; done).
  rewrite Hh. cbn [mbind option_bind]. by eexists.
Qed.

End HashTotal.

Lemma cn_slow_hash_pure_witness :
  ∃ h, is_hash h ∧ ∀ pad, ∃ pad', cn_slow_hash (C:=toy_crypto) (replicate 76 0) CN_UPX pad = Some (h, pad').
Proof.
  apply (cn_slow_hash_pure (C:=toy_crypto)); [split; vm_compute; congruence | reflexivity].
Defined.
