(* ===== verification/Varint.v ===== *)
(** Unsigned LEB128 (crates/wrkz-primitives/src/varint.rs): the writer, the
    bounded reader, and the proof that they are inverse to each other, so that
    every value has exactly one accepted encoding. *)
From S2P Require Import Prelude.
Local Open Scope Z_scope.

(** The parsers' error type (crates/wrkz-primitives/src/lib.rs). *)
Inductive Error : Type :=
| Truncated
| TrailingBytes (n : nat)
| BadVarint
| Malformed (what : string).

#[export] Instance Error_eq_dec : EqDecision Error.
Proof. solve_decision. Defined.

Module varint.

(** [while v >= 0x80 { out.push((v as u8 & 0x7f) | 0x80); v >>= 7 } out.push(v as u8)].
    Ten iterations exhaust a [u64]; [write_loop_leb] shows the bound is never
    what stops the loop. *)
Fixpoint write_loop (fuel : nat) (out : bytes) (v : Z) : bytes :=
  match fuel with
  | O => out
  | S fuel =>
      if 0x80 <=? v
      then write_loop fuel (out ++ [Z.lor (Z.land (wrap 8 v) 0x7f) 0x80]) (Z.shiftr v 7)
      else out ++ [wrap 8 v]
  end.

Definition write (out : bytes) (v : Z) : bytes := write_loop 10 out v.

Definition encode (v : Z) : bytes := write [] v.

(** The loop of [read_bits] over the bytes not yet read. *)
Fixpoint read_loop (input : bytes) (bits value shift : Z) (i : nat) : result Error (Z * nat) :=
  match input with
  | [] => Err Truncated
  | b :: rest =>
      if bits <=? shift then Err BadVarint
      else if (b =? 0) && negb (shift =? 0) then Err BadVarint
      else
        let piece := Z.land b 0x7f in
        if (bits <? shift + 7) && negb (Z.shiftr piece (bits - shift) =? 0) then Err BadVarint
        else
          let value := Z.lor value (wrap 64 (Z.shiftl piece shift)) in
          if Z.land b 0x80 =? 0 then Ok (value, S i)
          else read_loop rest bits value (shift + 7) (S i)
  end.

Definition read_bits (input : bytes) (bits : Z) : result Error (Z * nat) :=
  read_loop input bits 0 0 0.

Definition read (input : bytes) : result Error (Z * nat) := read_bits input 64.

(** ** The encoding as arithmetic *)

(** Seven bits per byte, least significant first, with the continuation flag. *)
Fixpoint leb (fuel : nat) (v : Z) : bytes :=
  match fuel with
  | O => []
  | S fuel => if v <? 128 then [v] else v mod 128 + 128 :: leb fuel (v / 128)
  end.

Lemma low7_flag v : Z.lor (Z.land (wrap 8 v) 0x7f) 0x80 = v mod 128 + 128.
Proof.
  change 0x80 with (Z.shiftl 1 7). change 0x7f with (Z.ones 7). unfold wrap.
  rewrite Z.land_ones by lia.
  rewrite Z.mod_mod_divide by (by exists 2).
  rewrite lor_shiftl_add by (lia || apply Z.mod_pos_bound; lia). done.
Qed.

Lemma write_loop_leb fuel out v :
  0 ≤ v → write_loop fuel out v = out ++ leb fuel v.
Proof.
  revert out v. induction fuel as [|fuel IH]; intros out v Hv; simpl; [by rewrite app_nil_r|].
  destruct (Z.leb_spec 0x80 v), (Z.ltb_spec v 128); try lia.
  - rewrite Z.shiftr_div_pow2, IH, <- app_assoc, low7_flag by (lia || apply Z.div_pos; lia). done.
  - rewrite wrap_small; [done | unfold in_u; lia].
Qed.

Lemma leb_bytes fuel v : 0 ≤ v → is_bytes (leb fuel v).
Proof.
  revert v. induction fuel as [|fuel IH]; intros v Hv; simpl; [constructor|].
  case_bool; bool_hyps; apply is_bytes_cons; unfold in_u.
  - split; [lia | constructor].
  - pose proof (Z.mod_pos_bound v 128). split; [lia|]. apply IH, Z.div_pos; lia.
Qed.

Lemma leb_length fuel v : (length (leb fuel v) ≤ fuel)%nat.
Proof. revert v. induction fuel as [|fuel IH]; intros v; simpl; [done|]. case_bool; simpl; [lia|]. specialize (IH (v / 128)). lia. Qed.

(** One iteration of the reader, as arithmetic. *)
Lemma low7 b : Z.land b 0x7f = b mod 128.
Proof. change 0x7f with (Z.ones 7). by rewrite Z.land_ones by lia. Qed.

Lemma flag_clear b : is_u8 b → (Z.land b 0x80 =? 0) = (b <? 128).
Proof.
  intros Hb. apply eqb_prop.
  by apply (byte_cases (λ b, eqb (Z.land b 0x80 =? 0) (b <? 128))).
Qed.

Definition rejects (b bits shift : Z) : bool :=
  (bits <=? shift) || (b =? 0) && negb (shift =? 0)
  || (bits <? shift + 7) && negb (b mod 128 / 2 ^ (bits - shift) =? 0).

Lemma read_loop_cons b rest bits value shift i :
  is_u8 b → 0 ≤ shift → bits ≤ 64 → 0 ≤ value < 2 ^ shift →
  read_loop (b :: rest) bits value shift i =
    if rejects b bits shift then Err BadVarint
    else if b <? 128 then Ok (value + (b mod 128) * 2 ^ shift, S i)
    else read_loop rest bits (value + (b mod 128) * 2 ^ shift) (shift + 7) (S i).
Proof.
  intros Hb Hs Hbits Hval. unfold rejects. simpl. rewrite low7, flag_clear by done.
  destruct (Z.leb_spec bits shift); [done|]. simpl.
  destruct ((b =? 0) && _); [done|]. simpl. rewrite Z.shiftr_div_pow2 by lia.
  destruct (_ && _) eqn:Hfit; [done|].
  assert (b mod 128 < 2 ^ (bits - shift)) as Hp.
  { destruct (Z.ltb_spec bits (shift + 7)); simpl in Hfit; bool_hyps.
    - apply Z.div_small_iff in Hfit; lia.
    - apply Z.lt_le_trans with (2 ^ 7); [apply Z.mod_pos_bound; lia | apply Z.pow_le_mono_r; lia]. }
  assert (2 ^ bits = 2 ^ shift * 2 ^ (bits - shift)) by (rewrite <- Z.pow_add_r by lia; f_equal; lia).
  assert (2 ^ bits ≤ 2 ^ 64) by (apply Z.pow_le_mono_r; lia).
  pose proof (Z.mod_pos_bound b 128).
  rewrite wrap_small by (unfold in_u; rewrite Z.shiftl_mul_pow2 by lia; nia).
  by rewrite lor_shiftl_add by lia.
Qed.

Lemma rejects_false b bits shift :
  is_u8 b → 0 ≤ shift →
  rejects b bits shift = false ↔ shift < bits ∧ (b = 0 → shift = 0) ∧ b mod 128 < 2 ^ (bits - shift).
Proof.
  intros Hb Hs. unfold rejects. pose proof (Z.mod_pos_bound b 128).
  destruct (Z.leb_spec bits shift); simpl; [split; [done | lia]|].
  assert ((bits <? shift + 7) && negb (b mod 128 / 2 ^ (bits - shift) =? 0) = false
          ↔ b mod 128 < 2 ^ (bits - shift)) as Hfit.
  { assert (0 < 2 ^ (bits - shift)) by (apply Z.pow_pos_nonneg; lia).
    destruct (Z.ltb_spec bits (shift + 7)) as [?|Hge]; simpl.
    - rewrite negb_false_iff, Z.eqb_eq, Z.div_small_iff; lia.
    - split; [intros _ | done]. apply Z.lt_le_trans with (2 ^ 7); [lia | apply Z.pow_le_mono_r; lia]. }
  rewrite orb_false_iff, Hfit.
  destruct (Z.eqb_spec b 0), (Z.eqb_spec shift 0); simpl; intuition (done || lia).
Qed.

(** What the reader makes of an encoding that fits the bits that are left. *)
Lemma read_loop_leb fuel v k bits value shift i :
  0 ≤ shift < bits → bits ≤ 64 → 0 ≤ value < 2 ^ shift →
  0 ≤ v < 128 ^ Z.of_nat fuel → v < 2 ^ (bits - shift) → (shift ≠ 0 → v ≠ 0) → (0 < fuel)%nat →
  read_loop (leb fuel v ++ k) bits value shift i = Ok (value + v * 2 ^ shift, (i + length (leb fuel v))%nat).
Proof.
  revert v value shift i. induction fuel as [|fuel IH]; [lia|].
  intros v value shift i Hs Hb Hval Hv Hfit Hnz _. simpl leb.
  assert (0 < 2 ^ shift) by (apply Z.pow_pos_nonneg; lia).
  destruct (Z.ltb_spec v 128) as [Hlt|Hge]; simpl app.
  - assert (is_u8 v) by (unfold in_u; lia).
    rewrite read_loop_cons by (done || lia).
    rewrite Z.mod_small by lia. replace (rejects _ _ _) with false.
    2: { symmetry. apply rejects_false; [done | lia|]. rewrite Z.mod_small by lia. lia. }
    destruct (Z.ltb_spec v 128); [|lia]. simpl. f_equal. f_equal. lia.
  - pose proof (Z.mod_pos_bound v 128). pose proof (Z.div_mod v 128).
    assert (is_u8 (v mod 128 + 128)) by (unfold in_u; lia).
    assert ((v mod 128 + 128) mod 128 = v mod 128) as Hm.
    { rewrite <- (Z.mul_1_l 128) at 2. rewrite Z.mod_add, Z.mod_mod; lia. }
    assert (7 < bits - shift) by (apply (Z.pow_lt_mono_r_iff 2); lia).
    assert (2 ^ (shift + 7) = 2 ^ shift * 128) as Hp7 by (rewrite Z.pow_add_r by lia; done).
    assert (2 ^ (bits - shift) = 2 ^ (bits - (shift + 7)) * 128) as Hq7.
    { replace (bits - shift) with (bits - (shift + 7) + 7) by lia. by rewrite Z.pow_add_r by lia. }
    rewrite read_loop_cons by (done || lia). replace (rejects _ _ _) with false.
    2: { symmetry. apply rejects_false; [done | lia|]. rewrite Hm. lia. }
    destruct (Z.ltb_spec (v mod 128 + 128) 128); [lia|]. rewrite Hm.
    rewrite Nat2Z.inj_succ, Z.pow_succ_r in Hv by lia.
    assert (0 < fuel)%nat by (destruct fuel; [simpl in Hv; lia | lia]).
    rewrite IH; [|lia | lia | rewrite Hp7; nia | split; [apply Z.div_pos | apply Z.div_lt_upper_bound]; lia
                 | apply Z.div_lt_upper_bound; lia | lia | done].
    rewrite Hp7. simpl length. f_equal. f_equal; lia.
Qed.

(** Whatever the reader accepts is the encoding of what it returns. *)
Lemma read_loop_sound input bits value shift i v' n :
  is_bytes input → 0 ≤ shift → bits ≤ 64 → 0 ≤ value < 2 ^ shift →
  read_loop input bits value shift i = Ok (v', n) →
  ∃ v, v' = value + v * 2 ^ shift ∧ 0 ≤ v < 2 ^ (bits - shift) ∧ shift < bits ∧ (shift ≠ 0 → v ≠ 0) ∧
    ∀ fuel, v < 128 ^ Z.of_nat fuel → (0 < fuel)%nat →
      ∃ rest, input = leb fuel v ++ rest ∧ n = (i + length (leb fuel v))%nat.
Proof.
  revert value shift i. induction input as [|b input IH]; intros value shift i Hin Hs Hbits Hval; [done|].
  apply is_bytes_cons in Hin as [Hb Hin]. rewrite read_loop_cons by done.
  destruct (rejects b bits shift) eqn:Hrej; [done|].
  apply rejects_false in Hrej as (Hlt & Hz & Hfit); [|done..].
  assert (0 < 2 ^ shift) by (apply Z.pow_pos_nonneg; lia).
  pose proof (Z.mod_pos_bound b 128). unfold in_u in Hb.
  destruct (Z.ltb_spec b 128) as [Hsmall|Hbig].
  - intros [= <- <-]. exists b. rewrite Z.mod_small in * by lia.
    do 4 (split; [first [done | lia]|]). intros [|fuel] ??; [lia|]. simpl.
    destruct (Z.ltb_spec b 128); [|lia]. exists input. split; [done | simpl; lia].
  - intros Hr. assert (2 ^ (shift + 7) = 2 ^ shift * 128) as Hp7 by (rewrite Z.pow_add_r by lia; done).
    apply IH in Hr as (v & -> & Hv & Hlt7 & Hnz & Henc); [|done | lia.. | rewrite Hp7; nia].
    assert (2 ^ (bits - shift) = 2 ^ (bits - (shift + 7)) * 128) as Hq7.
    { replace (bits - shift) with (bits - (shift + 7) + 7) by lia. by rewrite Z.pow_add_r by lia. }
    assert (b mod 128 = b - 128) as Hbm by (symmetry; apply Z.mod_unique with 1; lia).
    exists (b mod 128 + v * 128). rewrite Hp7, Hq7. do 4 (split; [nia|]).
    intros [|fuel] Hf ?; [lia|]. rewrite Nat2Z.inj_succ, Z.pow_succ_r in Hf by lia. simpl.
    destruct (Z.ltb_spec (b mod 128 + v * 128) 128); [lia|].
    assert ((b mod 128 + v * 128) / 128 = v) as ->.
    { rewrite Z.div_add, Z.div_small; lia. }
    rewrite Z.mod_add, Z.mod_mod by lia.
    destruct (Henc fuel) as (rest & -> & ->); [lia | destruct fuel; simpl in Hf; lia|].
    exists rest. split; [|simpl; lia]. simpl. f_equal. lia.
Qed.

(** ** The codec *)

Lemma write_encode out v : is_u64 v → write out v = out ++ encode v.
Proof. intros [? _]. unfold encode, write. by rewrite !write_loop_leb. Qed.

Lemma encode_leb v : 0 ≤ v → encode v = leb 10 v.
Proof. intros. unfold encode, write. by rewrite write_loop_leb. Qed.

Lemma encode_bytes v : 0 ≤ v → is_bytes (encode v).
Proof. intros. rewrite encode_leb by done. by apply leb_bytes. Qed.

Lemma encode_length v : 0 ≤ v → (1 ≤ length (encode v) ≤ 10)%nat.
Proof.
  intros. rewrite encode_leb by done. split; [|apply leb_length].
  simpl. case_bool; simpl; lia.
Qed.

Lemma read_bits_encode bits v k :
  0 < bits ≤ 64 → in_u bits v → read_bits (encode v ++ k) bits = Ok (v, length (encode v)).
Proof.
  intros Hbits Hv. unfold in_u in Hv. unfold read_bits. rewrite encode_leb by lia.
  assert (2 ^ bits ≤ 2 ^ 64) by (apply Z.pow_le_mono_r; lia).
  rewrite read_loop_leb; try lia; [f_equal; f_equal; lia|..].
  rewrite Z.sub_0_r. lia.
Qed.

Lemma read_bits_sound input bits v n :
  is_bytes input → 0 < bits ≤ 64 → read_bits input bits = Ok (v, n) →
  in_u bits v ∧ n = length (encode v) ∧ ∃ rest, input = encode v ++ rest.
Proof.
  intros Hin Hbits Hr. unfold read_bits in Hr.
  apply read_loop_sound in Hr as (v' & -> & Hv & _ & _ & Henc); [|done | lia..].
  rewrite Z.sub_0_r in Hv. simpl. rewrite Z.mul_1_r.
  assert (2 ^ bits ≤ 2 ^ 64) by (apply Z.pow_le_mono_r; lia).
  destruct (Henc 10%nat) as (rest & -> & ->); [simpl; lia | lia|].
  rewrite encode_leb by lia. split; [done|]. split; [done|]. by exists rest.
Qed.

End varint.

#[export] Hint Resolve varint.encode_bytes : bytes_db.

(** A LEB128 reader bounded to [bits] bits succeeds on an input exactly when
    the input starts with the writer's encoding of a value that fits, and then it
    returns that value and the number of bytes the writer produced: nothing
    overlong, overflowing or otherwise non-canonical is accepted, and every
    written value is read back. *)
Theorem varint_read_iff input bits v n :
  is_bytes input → 0 < bits ≤ 64 →
  varint.read_bits input bits = Ok (v, n) ↔
    in_u bits v ∧ n = length (varint.encode v) ∧ varint.encode v `prefix_of` input.
Proof.
  intros Hin Hbits. split.
  - intros Hr. by apply varint.read_bits_sound in Hr.
  - intros (Hv & -> & k & ->). by apply varint.read_bits_encode.
Qed.

Lemma varint_read_iff_witness :
  varint.read_bits [0xac; 0x02; 7] 32 = Ok (300, 2%nat).
Proof.
  apply (varint_read_iff [0xac; 0x02; 7] 32 300 2).
  - unfold is_bytes, in_u. repeat (constructor; [lia|]). constructor.
  - lia.
  - split; [unfold in_u; lia|]. split; [reflexivity|]. exists [7]. reflexivity.
Defined.
