(* ===== verification/Ser.v ===== *)
(** The binary serializer (crates/wrkz-primitives/src/ser.rs): the [Writer] that
    appends to a buffer, the [Reader] that walks a slice, and the two relations
    every codec of the development is proved against: [emits] (what the writer
    produced is read back) and [consumed] (what the reader accepted is what the
    writer would have produced). *)
From S2P Require Import Prelude Varint.
Local Open Scope Z_scope.

(** * Writer *)

Module Writer.

Definition varint (buf : bytes) (v : Z) : bytes := varint.write buf v.
Definition u8_raw (buf : bytes) (v : Z) : bytes := buf ++ [v].
Definition bool (buf : bytes) (v : bool) : bytes := buf ++ [if v then 1 else 0].
Definition raw (buf : bytes) (bs : bytes) : bytes := buf ++ bs.
Definition bytes (buf : bytes) (bs : bytes) : bytes := varint buf (Z.of_nat (length bs)) ++ bs.
Definition u32_le (buf : Prelude.bytes) (v : Z) : Prelude.bytes := buf ++ to_le_bytes 4 v.

End Writer.

(** * Reader *)

Record Reader := mkReader { r_data : bytes; r_pos : nat }.

(** A method [&mut self -> Result<A>]. *)
Definition Parser (A : Type) : Type := Reader → result Error (A * Reader).

#[export] Instance Parser_ret : MRet Parser := λ A a r, Ok (a, r).
#[export] Instance Parser_bind : MBind Parser := λ A B f p r,
  match p r with Ok (a, r') => f a r' | Err e => Err e end.

Definition fail {A} (e : Error) : Parser A := λ _, Err e.

(** [for _ in 0..n { v.push(p(r)?) }] *)
Fixpoint read_n {A} (n : nat) (p : Parser A) : Parser (list A) :=
  match n with
  | O => mret []
  | S n => a ← p; l ← read_n n p; mret (a :: l)
  end.

Module Reader.

Definition new (data : bytes) : Reader := mkReader data 0.
Definition remaining (r : Reader) : nat := length (r_data r) - r_pos r.
Definition advance (r : Reader) (n : nat) : Reader := mkReader (r_data r) (r_pos r + n).

Definition varint_bits (bits : Z) : Parser Z := λ r,
  '(v, n) ← varint.read_bits (drop (r_pos r) (r_data r)) bits;
  Ok (v, advance r n).

Definition varint : Parser Z := varint_bits 64.

Definition u8_raw : Parser Z := λ r,
  b ← ok_or Truncated (r_data r !! r_pos r);
  Ok (b, advance r 1).

Definition bool : Parser bool :=
  b ← u8_raw;
  if b =? 0 then mret false
  else if b =? 1 then mret true
  else fail (Malformed "bool").

Definition raw (n : nat) : Parser bytes := λ r,
  if (remaining r <? n)%nat then Err Truncated
  else Ok (slice (r_data r) (r_pos r) n, advance r n).

Definition hash : Parser Hash := raw 32.

Definition u32_le : Parser Z :=
  bs ← raw 4; mret (from_le_bytes bs).

Definition bytes : Parser bytes := λ r,
  '(n, r) ← varint r;
  if Z.of_nat (remaining r) <? n then Err Truncated
  else raw (Z.to_nat n) r.

Definition count (min_elem_size : nat) : Parser nat := λ r,
  '(n, r) ← varint r;
  if Z.of_nat (remaining r / Nat.max min_elem_size 1) <? n then Err Truncated
  else Ok (Z.to_nat n, r).

Definition finish (r : Reader) : result Error unit :=
  if (r_pos r =? length (r_data r))%nat then Ok ()
  else Err (TrailingBytes (length (r_data r) - r_pos r)).

End Reader.

(** [T::read] on a fresh reader, then [finish]: the [from_bytes] functions. *)
Definition parse_all {A} (p : Parser A) (data : bytes) : result Error A :=
  '(a, r) ← p (Reader.new data);
  _ ← Reader.finish r;
  Ok a.

(** * The two codec relations *)

Definition rest (r : Reader) : bytes := drop (r_pos r) (r_data r).
Definition wf_reader (r : Reader) : Prop := is_bytes (r_data r) ∧ (r_pos r ≤ length (r_data r))%nat.

(** Reading [w] in front of [k] gives [a] and moves the cursor past [w]. *)
Definition emits {A} (p : Parser A) (a : A) (w k : bytes) : Prop :=
  ∀ r, (r_pos r ≤ length (r_data r))%nat → rest r = w ++ k → p r = Ok (a, Reader.advance r (length w)).

(** The cursor moved from [r] to [r'] over exactly the bytes [w]. *)
Definition consumed (r : Reader) (w : bytes) (r' : Reader) : Prop :=
  rest r = w ++ rest r' ∧ r' = Reader.advance r (length w).

(** Everything [p] accepts satisfies [Q] and is the encoding of what it returns. *)
Definition accepts {A} (p : Parser A) (Q : A → Prop) (enc : A → bytes) : Prop :=
  ∀ r a r', wf_reader r → p r = Ok (a, r') → Q a ∧ consumed r (enc a) r'.

Lemma rest_advance r n : rest (Reader.advance r n) = drop n (rest r).
Proof. unfold rest, Reader.advance. simpl. by rewrite drop_drop. Qed.

Lemma advance_0 r : Reader.advance r 0 = r.
Proof. destruct r. unfold Reader.advance. simpl. by rewrite Nat.add_0_r. Qed.

Lemma advance_advance r n m : Reader.advance (Reader.advance r n) m = Reader.advance r (n + m).
Proof. unfold Reader.advance. simpl. by rewrite Nat.add_assoc. Qed.

Lemma length_rest r : length (rest r) = Reader.remaining r.
Proof. unfold rest, Reader.remaining. by rewrite length_drop. Qed.

Lemma Parser_bind_Ok {A B} (p : Parser A) (f : A → Parser B) r b r'' :
  (p ≫= f) r = Ok (b, r'') ↔ ∃ a r', p r = Ok (a, r') ∧ f a r' = Ok (b, r'').
Proof.
  unfold mbind, Parser_bind. destruct (p r) as [[a r']|e]; split; try done; eauto.
  - by intros (?&?&[= -> ->]&?).
  - by intros (?&?&?&?).
Qed.

(** ** Cursor moves *)

Lemma consumed_nil r : consumed r [] r.
Proof. split; [done|]. by rewrite advance_0. Qed.

Lemma consumed_trans r w1 r' w2 r'' :
  consumed r w1 r' → consumed r' w2 r'' → consumed r (w1 ++ w2) r''.
Proof.
  intros [H1 ->] [H2 ->]. split.
  - by rewrite H1, H2, app_assoc.
  - by rewrite advance_advance, length_app.
Qed.

Lemma consumed_wf r w r' : wf_reader r → consumed r w r' → wf_reader r' ∧ is_bytes w.
Proof.
  intros [Hb Hp] [Hr ->]. assert (is_bytes (rest r)) as Hrest by (by apply is_bytes_drop).
  pose proof (length_rest r) as Hlen. rewrite Hr in Hrest, Hlen. apply is_bytes_app in Hrest as [? _].
  split; [|done]. split; [done|]. simpl. rewrite length_app in Hlen. unfold Reader.remaining in Hlen. lia.
Qed.

Lemma consumed_intro r n :
  (n ≤ length (rest r))%nat → consumed r (take n (rest r)) (Reader.advance r n).
Proof.
  intros Hn. split; [by rewrite rest_advance, take_drop|]. by rewrite length_take_le.
Qed.

(** ** [emits] *)

Lemma emits_ret {A} (a : A) k : emits (mret a) a [] k.
Proof. intros r _ _. by rewrite advance_0. Qed.

Lemma emits_bind {A B} (p : Parser A) (f : A → Parser B) a b w1 w2 k :
  emits p a w1 (w2 ++ k) → emits (f a) b w2 k → emits (p ≫= f) b (w1 ++ w2) k.
Proof.
  intros Hp Hf r Hr Hrest. apply Parser_bind_Ok. exists a, (Reader.advance r (length w1)).
  rewrite <- app_assoc in Hrest. split; [by apply Hp|].
  pose proof (length_rest r) as Hl. rewrite Hrest in Hl. rewrite length_app in Hl.
  unfold Reader.remaining in Hl.
  rewrite Hf; [|simpl; lia|].
  - by rewrite advance_advance, length_app.
  - by rewrite rest_advance, Hrest, drop_app_length.
Qed.

Lemma emits_ext {A} (p q : Parser A) a w k : (∀ r, p r = q r) → emits q a w k → emits p a w k.
Proof. intros Hpq Hq r Hr Hw. rewrite Hpq. by apply Hq. Qed.

Lemma emits_varint_bits bits v k :
  0 < bits ≤ 64 → in_u bits v → emits (Reader.varint_bits bits) v (varint.encode v) k.
Proof.
  intros Hb Hv r Hr Hrest. unfold Reader.varint_bits. fold (rest r). rewrite Hrest.
  by rewrite varint.read_bits_encode.
Qed.

Lemma emits_varint v k : is_u64 v → emits Reader.varint v (varint.encode v) k.
Proof. by apply emits_varint_bits. Qed.

Lemma emits_u8_raw b k : emits Reader.u8_raw b [b] k.
Proof.
  intros r Hr Hrest. unfold Reader.u8_raw.
  assert (r_data r !! r_pos r = Some b) as ->; [|done].
  rewrite <- (Nat.add_0_r (r_pos r)), <- lookup_drop. fold (rest r). by rewrite Hrest.
Qed.

Lemma emits_raw n bs k : n = length bs → emits (Reader.raw n) bs bs k.
Proof.
  intros -> r Hr Hrest. unfold Reader.raw. pose proof (length_rest r) as Hl.
  rewrite Hrest, length_app in Hl. destruct (Nat.ltb_spec (Reader.remaining r) (length bs)); [lia|].
  unfold slice. fold (rest r). by rewrite Hrest, take_app_length.
Qed.

Lemma emits_hash h k : length h = 32%nat → emits Reader.hash h h k.
Proof. intros. by apply emits_raw. Qed.

Lemma emits_u32_le v k : is_u32 v → emits Reader.u32_le v (to_le_bytes 4 v) k.
Proof.
  intros Hv. rewrite <- (app_nil_r (to_le_bytes 4 v)) at 1.
  eapply emits_bind; [apply emits_raw; by rewrite length_to_le_bytes|].
  rewrite from_to_le_bytes by done. apply emits_ret.
Qed.

Lemma emits_bytes bs k :
  Z.of_nat (length bs) < 2 ^ 64 →
  emits Reader.bytes bs (varint.encode (Z.of_nat (length bs)) ++ bs) k.
Proof.
  intros Hl r Hr Hrest. unfold Reader.bytes. rewrite <- app_assoc in Hrest.
  rewrite (emits_varint (Z.of_nat (length bs)) (bs ++ k) ltac:(unfold in_u; lia) r Hr Hrest). simpl.
  set (r' := Reader.advance _ _).
  assert (rest r' = bs ++ k) as Hrest' by (subst r'; by rewrite rest_advance, Hrest, drop_app_length).
  pose proof (length_rest r') as Hlen. rewrite Hrest', length_app in Hlen.
  destruct (Z.ltb_spec (Z.of_nat (Reader.remaining r')) (Z.of_nat (length bs))); [lia|].
  assert (r_pos r' ≤ length (r_data r'))%nat as Hr'.
  { pose proof (length_rest r) as Hlr. rewrite Hrest, !length_app in Hlr.
    unfold Reader.remaining in Hlr. subst r'. simpl. lia. }
  rewrite Nat2Z.id, (emits_raw (length bs) bs k eq_refl r' Hr' Hrest').
  subst r'. by rewrite advance_advance, length_app.
Qed.

Lemma emits_count n m k :
  Z.of_nat n < 2 ^ 64 → (n * Nat.max m 1 ≤ length k)%nat →
  emits (Reader.count m) n (varint.encode (Z.of_nat n)) k.
Proof.
  intros Hn Hk r Hr Hrest. unfold Reader.count.
  rewrite (emits_varint (Z.of_nat n) k ltac:(unfold in_u; lia) r Hr Hrest). simpl.
  set (r' := Reader.advance _ _).
  assert (rest r' = k) as Hrest' by (subst r'; by rewrite rest_advance, Hrest, drop_app_length).
  rewrite <- (length_rest r'), Hrest'.
  assert (n ≤ length k / Nat.max m 1)%nat by (apply Nat.div_le_lower_bound; lia).
  destruct (Z.ltb_spec (Z.of_nat (length k / Nat.max m 1)) (Z.of_nat n)); [lia|].
  by rewrite Nat2Z.id.
Qed.

Lemma emits_read_n {A} (p : Parser A) (enc : A → bytes) l k :
  (∀ a k, a ∈ l → emits p a (enc a) k) →
  emits (read_n (length l) p) l (concat (map enc l)) k.
Proof.
  induction l as [|a l IH]; intros Hp; simpl; [apply emits_ret|].
  apply emits_bind with a; [apply Hp; set_solver|].
  rewrite <- (app_nil_r (concat _)). apply emits_bind with l; [|apply emits_ret].
  apply IH. set_solver.
Qed.

(** ** [accepts] *)

Lemma varint_bits_Ok bits r v r' :
  0 < bits ≤ 64 → wf_reader r → Reader.varint_bits bits r = Ok (v, r') →
  in_u bits v ∧ consumed r (varint.encode v) r'.
Proof.
  intros Hbits [Hb Hp] H. unfold Reader.varint_bits in H. simplify_res.
  match goal with Hr : varint.read_bits _ _ = _ |- _ => apply varint.read_bits_sound in Hr as (Hv & -> & k & Hk) end.
  - split; [done|]. fold (rest r) in Hk. split; [|done].
    by rewrite rest_advance, Hk, drop_app_length.
  - by apply is_bytes_drop.
  - done.
Qed.

Lemma varint_Ok r v r' :
  wf_reader r → Reader.varint r = Ok (v, r') → is_u64 v ∧ consumed r (varint.encode v) r'.
Proof. intros. by apply varint_bits_Ok. Qed.

Lemma u8_raw_Ok r b r' :
  wf_reader r → Reader.u8_raw r = Ok (b, r') → is_u8 b ∧ consumed r [b] r'.
Proof.
  intros [Hb Hp] H. unfold Reader.u8_raw in H. simplify_res.
  match goal with Hr : _ !! _ = Some _ |- _ => rename Hr into Hlk end.
  split; [by apply (Forall_lookup_1 _ _ _ _ Hb Hlk)|].
  split; [|done]. unfold rest, Reader.advance. simpl.
  by rewrite (drop_S _ _ _ Hlk), Nat.add_1_r.
Qed.

Lemma raw_Ok n r bs r' :
  wf_reader r → Reader.raw n r = Ok (bs, r') → is_array n bs ∧ consumed r bs r'.
Proof.
  intros [Hb Hp] H. unfold Reader.raw in H. case_bool; bool_hyps; simplify_res.
  unfold slice. fold (rest r). assert (n ≤ length (rest r))%nat by (by rewrite length_rest).
  split; [|by apply consumed_intro]. split; [|by rewrite length_take_le].
  by apply is_bytes_take, is_bytes_drop.
Qed.

Lemma hash_Ok r h r' : wf_reader r → Reader.hash r = Ok (h, r') → is_hash h ∧ consumed r h r'.
Proof. apply raw_Ok. Qed.

Lemma u32_le_Ok r v r' :
  wf_reader r → Reader.u32_le r = Ok (v, r') → is_u32 v ∧ consumed r (to_le_bytes 4 v) r'.
Proof.
  intros Hr H. apply Parser_bind_Ok in H as (bs & r1 & Hbs & [= <- <-]).
  apply raw_Ok in Hbs as [[Hb Hl] Hc]; [|done]. split.
  - pose proof (from_le_bytes_bound bs Hb) as Hbd. by rewrite Hl in Hbd.
  - by rewrite <- Hl, to_from_le_bytes.
Qed.

Lemma bytes_Ok r bs r' :
  wf_reader r → Reader.bytes r = Ok (bs, r') →
  is_bytes bs ∧ is_u64 (Z.of_nat (length bs)) ∧
  consumed r (varint.encode (Z.of_nat (length bs)) ++ bs) r'.
Proof.
  intros Hr H. unfold Reader.bytes in H. apply result_bind_Ok in H as ([n r1] & Hn & H).
  apply varint_Ok in Hn as [Hn Hc]; [|done]. case_bool; bool_hyps; [done|].
  pose proof (consumed_wf _ _ _ Hr Hc) as [Hr1 _].
  apply raw_Ok in H as [[Hbs Hl] Hc']; [|done].
  rewrite Hl, Z2Nat.id by (unfold in_u in Hn; lia). split; [done|]. split; [done|].
  by eapply consumed_trans.
Qed.

Lemma count_Ok m r n r' :
  wf_reader r → Reader.count m r = Ok (n, r') →
  is_u64 (Z.of_nat n) ∧ consumed r (varint.encode (Z.of_nat n)) r'.
Proof.
  intros Hr H. unfold Reader.count in H. apply result_bind_Ok in H as ([v r1] & Hn & H).
  apply varint_Ok in Hn as [Hn Hc]; [|done]. case_bool; simplify_res.
  rewrite Z2Nat.id by (unfold in_u in Hn; lia). done.
Qed.

Lemma read_n_Ok {A} (p : Parser A) (Q : A → Prop) (enc : A → bytes) n r l r' :
  accepts p Q enc → wf_reader r → read_n n p r = Ok (l, r') →
  Forall Q l ∧ length l = n ∧ consumed r (concat (map enc l)) r'.
Proof.
  intros Hp. revert r l r'. induction n as [|n IH]; intros r l r' Hr H; simpl in H.
  { injection H as <- <-. split_and!; [constructor | done | apply consumed_nil]. }
  apply Parser_bind_Ok in H as (a & r1 & Ha & H).
  apply Hp in Ha as [HQ Hc]; [|done]. pose proof (consumed_wf _ _ _ Hr Hc) as [Hr1 _].
  apply Parser_bind_Ok in H as (l' & r2 & Hl & [= <- <-]).
  apply IH in Hl as (HQs & <- & Hc'); [|done]. split_and!; [by constructor | done|].
  simpl. by eapply consumed_trans.
Qed.

(** ** Whole buffers *)

Lemma parse_all_emits {A} (p : Parser A) a w : emits p a w [] → parse_all p w = Ok a.
Proof.
  intros Hp. unfold parse_all. rewrite Hp; [|simpl; lia | unfold rest; simpl; by rewrite drop_0, app_nil_r].
  simpl. unfold Reader.finish. simpl. by rewrite Nat.eqb_refl.
Qed.

Lemma parse_all_Ok {A} (p : Parser A) data a :
  parse_all p data = Ok a ↔ ∃ r, p (Reader.new data) = Ok (a, r) ∧ r_pos r = length (r_data r).
Proof.
  unfold parse_all. split.
  - intros H. apply result_bind_Ok in H as ([a' r] & Hp & H). exists r.
    apply result_bind_Ok in H as (u & Hf & [= <-]). unfold Reader.finish in Hf.
    case_bool; bool_hyps; done.
  - intros (r & -> & Hr). simpl. unfold Reader.finish. rewrite Hr, Nat.eqb_refl. done.
Qed.

Lemma parse_all_accepts {A} (p : Parser A) (Q : A → Prop) enc data a :
  accepts p Q enc → is_bytes data → parse_all p data = Ok a → Q a ∧ data = enc a.
Proof.
  intros Hp Hd H. apply parse_all_Ok in H as (r & Hr & Hpos).
  apply Hp in Hr as [HQ [Hc _]]; [|split; [done | simpl; lia]]. split; [done|].
  unfold rest in Hc at 2. rewrite drop_ge, app_nil_r in Hc by lia. exact Hc.
Qed.

(** * Steps of codec proofs shared by the wire formats *)

(** Split the next bind of the parse [H] with the acceptance lemma [L]. *)
Ltac parse_step H L v Q :=
  let r1 := fresh "r" in let Hp := fresh "Hp" in let Hc := fresh "Hc" in let Hw := fresh "Hwf" in
  apply Parser_bind_Ok in H as (v & r1 & Hp & H);
  apply L in Hp as [Q Hc]; [|assumption];
  match type of Hc with
  | consumed ?r _ _ => assert (wf_reader r1) as Hw by (eapply consumed_wf; [|exact Hc]; assumption)
  end.

(** The same for a counted loop whose element parser has acceptance lemma [L]. *)
Ltac parse_many H L l Q :=
  let r1 := fresh "r" in let Hp := fresh "Hp" in let Hc := fresh "Hc" in let Hw := fresh "Hwf" in
  apply Parser_bind_Ok in H as (l & r1 & Hp & H);
  apply (read_n_Ok _ _ _ _ _ _ _ L) in Hp as (Q & <- & Hc); [|assumption];
  match type of Hc with
  | consumed ?r _ _ => assert (wf_reader r1) as Hw by (eapply consumed_wf; [|exact Hc]; assumption)
  end.

(** Compose the cursor moves of the context. *)
Ltac consumed_steps := repeat (eapply consumed_trans; [eassumption|]); first [eassumption | apply consumed_nil].

Lemma foldl_write {A} (f : bytes → A → bytes) (enc : A → bytes) (l : list A) w :
  (∀ w a, a ∈ l → f w a = w ++ enc a) → foldl f w l = w ++ concat (map enc l).
Proof.
  revert w. induction l as [|a l IH]; intros w Hf; simpl; [by rewrite app_nil_r|].
  rewrite Hf by left. rewrite IH by (intros; apply Hf; by right). by rewrite <- app_assoc.
Qed.

Lemma length_concat_ge {A} (enc : A → bytes) (m : nat) (l : list A) :
  (∀ a, a ∈ l → (m ≤ length (enc a))%nat) → (length l * m ≤ length (concat (map enc l)))%nat.
Proof.
  induction l as [|a l IH]; intros Hm; simpl; [lia|]. rewrite length_app.
  pose proof (Hm a ltac:(left)). specialize (IH ltac:(intros; apply Hm; by right)). lia.
Qed.
