(* ===== verification/Tx.v ===== *)
(** Transactions (crates/wrkz-primitives/src/tx.rs): data, wire format, hashes,
    sums and fee, and the relative encoding of ring member offsets. *)
From S2P Require Import Prelude Varint Ser Hashing.
Local Open Scope Z_scope.

Definition CURRENT_TRANSACTION_VERSION : Z := 1.
Definition TAG_BASE_INPUT : Z := 0xff.
Definition TAG_KEY_INPUT : Z := 0x02.
Definition TAG_KEY_OUTPUT : Z := 0x02.

Inductive Input : Type :=
| Base (block_index : Z)
| Key (amount : Z) (key_offsets : list Z) (key_image : bytes).

Record Output := mkOutput { o_amount : Z; o_key : bytes }.

Record TransactionPrefix := mkPrefix {
  version : Z; unlock_time : Z; inputs : list Input; outputs : list Output; extra : bytes }.

Record Transaction := mkTransaction {
  prefix : TransactionPrefix; signatures : list (list bytes) }.

#[export] Instance Input_eq_dec : EqDecision Input.
Proof. solve_decision. Defined.
#[export] Instance Output_eq_dec : EqDecision Output.
Proof. solve_decision. Defined.
#[export] Instance TransactionPrefix_eq_dec : EqDecision TransactionPrefix.
Proof. solve_decision. Defined.
#[export] Instance Transaction_eq_dec : EqDecision Transaction.
Proof. solve_decision. Defined.

(** The number of signatures an input carries. *)
Definition ring (i : Input) : nat :=
  match i with Key _ key_offsets _ => length key_offsets | Base _ => 0 end.

Module TransactionPrefix.

Definition write_input (w : bytes) (input : Input) : bytes :=
  match input with
  | Base block_index => Writer.varint (Writer.u8_raw w TAG_BASE_INPUT) block_index
  | Key amount key_offsets key_image =>
      let w := Writer.varint (Writer.u8_raw w TAG_KEY_INPUT) amount in
      let w := Writer.varint w (Z.of_nat (length key_offsets)) in
      let w := foldl Writer.varint w key_offsets in
      Writer.raw w key_image
  end.

Definition write_output (w : bytes) (o : Output) : bytes :=
  Writer.raw (Writer.u8_raw (Writer.varint w (o_amount o)) TAG_KEY_OUTPUT) (o_key o).

Definition write (w : bytes) (p : TransactionPrefix) : bytes :=
  let w := Writer.varint (Writer.varint w (version p)) (unlock_time p) in
  let w := Writer.varint w (Z.of_nat (length (inputs p))) in
  let w := foldl write_input w (inputs p) in
  let w := Writer.varint w (Z.of_nat (length (outputs p))) in
  let w := foldl write_output w (outputs p) in
  Writer.bytes w (extra p).

Definition to_bytes (p : TransactionPrefix) : bytes := write [] p.

Definition read_input : Parser Input :=
  tag ← Reader.u8_raw;
  if tag =? TAG_BASE_INPUT then
    block_index ← Reader.varint_bits 32; mret (Base block_index)
  else if tag =? TAG_KEY_INPUT then
    amount ← Reader.varint;
    n ← Reader.count 1;
    key_offsets ← read_n n (Reader.varint_bits 32);
    key_image ← Reader.hash;
    mret (Key amount key_offsets key_image)
  else fail (Malformed "input tag").

Definition read_output : Parser Output :=
  amount ← Reader.varint;
  tag ← Reader.u8_raw;
  if negb (tag =? TAG_KEY_OUTPUT) then fail (Malformed "output tag")
  else key ← Reader.hash; mret (mkOutput amount key).

Definition read_any_version : Parser TransactionPrefix :=
  version ← Reader.varint_bits 8;
  unlock_time ← Reader.varint;
  n_in ← Reader.count 2;
  inputs ← read_n n_in read_input;
  n_out ← Reader.count 34;
  outputs ← read_n n_out read_output;
  extra ← Reader.bytes;
  mret (mkPrefix version unlock_time inputs outputs extra).

Definition read : Parser TransactionPrefix :=
  p ← read_any_version;
  if CURRENT_TRANSACTION_VERSION <? version p then fail (Malformed "transaction version")
  else mret p.

Definition from_bytes (data : bytes) : result Error TransactionPrefix := parse_all read data.

Definition hash `{C : Crypto} (p : TransactionPrefix) : Hash := cn_fast_hash (to_bytes p).

Definition is_coinbase (p : TransactionPrefix) : bool :=
  match inputs p with [Base _] => true | _ => false end.

Definition ring_sizes (p : TransactionPrefix) : list nat :=
  omap (λ i, match i with Key _ key_offsets _ => Some (length key_offsets) | _ => None end) (inputs p).

(** [try_fold(0, checked_add)] *)
Fixpoint try_sum (acc : Z) (amounts : list Z) : option Z :=
  match amounts with
  | [] => Some acc
  | a :: amounts => acc ← checked_add 64 acc a; try_sum acc amounts
  end.

Definition input_amounts (ins : list Input) : list Z :=
  omap (λ i, match i with Key amount _ _ => Some amount | Base _ => None end) ins.

Definition sum_inputs (p : TransactionPrefix) : option Z := try_sum 0 (input_amounts (inputs p)).

Definition sum_outputs (p : TransactionPrefix) : option Z := try_sum 0 (map o_amount (outputs p)).

End TransactionPrefix.

(** The coinbase of a merge-mining parent block. *)
Module BaseTransaction.

Definition write (w : bytes) (p : TransactionPrefix) : bytes :=
  let w := TransactionPrefix.write w p in
  if 2 <=? version p then Writer.varint w 0 else w.

Definition to_bytes (p : TransactionPrefix) : bytes := write [] p.

Definition read : Parser TransactionPrefix :=
  p ← TransactionPrefix.read_any_version;
  if 2 <=? version p then _ignored ← Reader.varint; mret p else mret p.

Definition hash `{C : Crypto} (p : TransactionPrefix) : Hash :=
  if version p <? 2 then cn_fast_hash (TransactionPrefix.to_bytes p)
  else cn_fast_hash (cn_fast_hash (TransactionPrefix.to_bytes p) ++ cn_fast_hash [0] ++ replicate 32 0).

End BaseTransaction.

Module Transaction.

Definition missing_signatures (i : Input) : bool :=
  match i with Key _ key_offsets _ => negb (length key_offsets =? 0)%nat | Base _ => false end.

(** [for (input, sigs) in inputs.iter().zip(&signatures)] *)
Fixpoint write_signatures (w : bytes) (ins : list Input) (sigs : list (list bytes)) : result Error bytes :=
  match ins, sigs with
  | i :: ins, s :: sigs =>
      if negb (length s =? ring i)%nat then Err (Malformed "signature count != ring size")
      else write_signatures (foldl Writer.raw w s) ins sigs
  | _, _ => Ok w
  end.

Definition write (w : bytes) (t : Transaction) : result Error bytes :=
  let w := TransactionPrefix.write w (prefix t) in
  match signatures t with
  | [] =>
      if existsb missing_signatures (inputs (prefix t))
      then Err (Malformed "signatures missing for a key input")
      else Ok w
  | _ =>
      if negb (length (signatures t) =? length (inputs (prefix t)))%nat
      then Err (Malformed "signature vector count != input count")
      else write_signatures w (inputs (prefix t)) (signatures t)
  end.

Definition to_bytes (t : Transaction) : result Error bytes := write [] t.

Fixpoint read_signatures (ins : list Input) : Parser (list (list bytes)) :=
  match ins with
  | [] => mret []
  | i :: ins => s ← read_n (ring i) (Reader.raw 64); l ← read_signatures ins; mret (s :: l)
  end.

Definition read : Parser Transaction :=
  prefix ← TransactionPrefix.read;
  signatures ← read_signatures (inputs prefix);
  let signatures := if TransactionPrefix.is_coinbase prefix then [] else signatures in
  mret (mkTransaction prefix signatures).

Definition from_bytes (data : bytes) : result Error Transaction := parse_all read data.

Definition hash `{C : Crypto} (t : Transaction) : result Error Hash :=
  bs ← to_bytes t; Ok (cn_fast_hash bs).

Definition fee (t : Transaction) : option Z :=
  i ← TransactionPrefix.sum_inputs (prefix t);
  o ← TransactionPrefix.sum_outputs (prefix t);
  checked_sub i o.

End Transaction.

(** * Ring member offsets *)

Fixpoint relative_loop (i : nat) (acc : Z) (offsets : list Z) : option (list Z) :=
  match offsets with
  | [] => Some []
  | o :: offsets =>
      acc ← (if (i =? 0)%nat then Some o else checked_add 64 acc o);
      out ← relative_loop (S i) acc offsets;
      Some (acc :: out)
  end.

Definition relative_offsets_to_absolute (offsets : list Z) : option (list Z) := relative_loop 0 0 offsets.

(** [prev] is [abs[i - 1]]. *)
Fixpoint absolute_loop (i : nat) (prev : Z) (abs : list Z) : option (list Z) :=
  match abs with
  | [] => Some []
  | a :: abs =>
      d ← (if (i =? 0)%nat then Some a
           else d ← checked_sub a prev; if d =? 0 then None else Some d);
      out ← absolute_loop (S i) a abs;
      Some (d :: out)
  end.

Definition absolute_to_relative_offsets (abs : list Z) : option (list Z) := absolute_loop 0 0 abs.

(** * Encodings *)

Definition enc_input (i : Input) : bytes :=
  match i with
  | Base block_index => TAG_BASE_INPUT :: varint.encode block_index
  | Key amount key_offsets key_image =>
      TAG_KEY_INPUT :: varint.encode amount ++ varint.encode (Z.of_nat (length key_offsets)) ++
      concat (map varint.encode key_offsets) ++ key_image
  end.

Definition enc_output (o : Output) : bytes := varint.encode (o_amount o) ++ TAG_KEY_OUTPUT :: o_key o.

Definition enc_prefix (p : TransactionPrefix) : bytes :=
  varint.encode (version p) ++ varint.encode (unlock_time p) ++
  varint.encode (Z.of_nat (length (inputs p))) ++ concat (map enc_input (inputs p)) ++
  varint.encode (Z.of_nat (length (outputs p))) ++ concat (map enc_output (outputs p)) ++
  varint.encode (Z.of_nat (length (extra p))) ++ extra p.

(** The values the Rust types and the 32-bit wire fields allow. *)
Definition wf_input (i : Input) : Prop :=
  match i with
  | Base block_index => is_u32 block_index
  | Key amount key_offsets key_image =>
      is_u64 amount ∧ Forall is_u32 key_offsets ∧ is_u64 (Z.of_nat (length key_offsets)) ∧ is_hash key_image
  end.

Definition wf_output (o : Output) : Prop := is_u64 (o_amount o) ∧ is_hash (o_key o).

Record wf_prefix (p : TransactionPrefix) : Prop := {
  wf_version : is_u8 (version p);
  wf_unlock : is_u64 (unlock_time p);
  wf_n_in : is_u64 (Z.of_nat (length (inputs p)));
  wf_inputs : Forall wf_input (inputs p);
  wf_n_out : is_u64 (Z.of_nat (length (outputs p)));
  wf_outputs : Forall wf_output (outputs p);
  wf_extra : is_bytes (extra p);
  wf_n_extra : is_u64 (Z.of_nat (length (extra p)))
}.

(** ** The writer appends the encoding *)

Lemma u32_u64 v : is_u32 v → is_u64 v.
Proof. by apply in_u_mono. Qed.

Lemma u8_u64 v : is_u8 v → is_u64 v.
Proof. by apply in_u_mono. Qed.

Lemma Writer_varint w v : is_u64 v → Writer.varint w v = w ++ varint.encode v.
Proof. apply varint.write_encode. Qed.

Lemma write_input_enc w i : wf_input i → TransactionPrefix.write_input w i = w ++ enc_input i.
Proof.
  destruct i as [b|a os ki]; simpl.
  - intros Hb. rewrite Writer_varint by (by apply u32_u64). unfold Writer.u8_raw. by rewrite <- app_assoc.
  - intros (Ha&Hos&Hn&Hk). unfold Writer.raw, Writer.u8_raw. rewrite !Writer_varint by done.
    rewrite (foldl_write _ varint.encode) by (intros; apply Writer_varint, u32_u64; rewrite Forall_forall in Hos; auto).
    by rewrite <- !app_assoc.
Qed.

Lemma write_output_enc w o : wf_output o → TransactionPrefix.write_output w o = w ++ enc_output o.
Proof.
  intros [Ha _]. unfold TransactionPrefix.write_output, Writer.raw, Writer.u8_raw, enc_output.
  rewrite Writer_varint by done. by rewrite <- !app_assoc.
Qed.

Lemma write_prefix_enc w p : wf_prefix p → TransactionPrefix.write w p = w ++ enc_prefix p.
Proof.
  intros [? ? ? Hin ? Hout ? ?]. rewrite Forall_forall in Hin. rewrite Forall_forall in Hout.
  unfold TransactionPrefix.write, Writer.bytes, enc_prefix. pose proof u8_u64.
  rewrite (Writer_varint _ (Z.of_nat (length (extra p)))) by done.
  rewrite (foldl_write _ enc_output) by (intros; apply write_output_enc; auto).
  rewrite (Writer_varint _ (Z.of_nat (length (outputs p)))) by done.
  rewrite (foldl_write _ enc_input) by (intros; apply write_input_enc; auto).
  rewrite !Writer_varint by auto. by rewrite <- !app_assoc.
Qed.

(** ** Reading the encoding back *)

Lemma enc_input_length i : wf_input i → (2 ≤ length (enc_input i))%nat.
Proof.
  destruct i as [b|a os ki]; simpl.
  - intros [Hb _]. pose proof (varint.encode_length b Hb). lia.
  - intros ([Ha _]&_&_&_). pose proof (varint.encode_length a Ha). rewrite length_app. lia.
Qed.

Lemma enc_output_length o : wf_output o → (34 ≤ length (enc_output o))%nat.
Proof.
  intros [[Ha _] [_ Hk]]. pose proof (varint.encode_length (o_amount o) Ha).
  unfold enc_output. rewrite length_app. simpl. lia.
Qed.

Lemma emits_cons {B} (f : Z → Parser B) (b : Z) y w k :
  emits (f b) y w k → emits (Reader.u8_raw ≫= f) y (b :: w) k.
Proof. intros H. apply (emits_bind _ _ b y [b] w); [apply emits_u8_raw | done]. Qed.

Lemma emits_last {A B} (p : Parser A) (f : A → B) a w k :
  emits p a w k → emits (x ← p; mret (f x)) (f a) w k.
Proof.
  intros H. rewrite <- (app_nil_r w). eapply emits_bind; [|apply emits_ret]. by rewrite app_nil_l.
Qed.

Lemma emits_offsets os k : Forall is_u32 os →
  emits (read_n (length os) (Reader.varint_bits 32)) os (concat (map varint.encode os)) k.
Proof.
  intros Hos. apply emits_read_n. rewrite Forall_forall in Hos. intros o k' Ho. apply emits_varint_bits; [lia|auto].
Qed.

Lemma emits_input i k : wf_input i → emits TransactionPrefix.read_input i (enc_input i) k.
Proof.
  destruct i as [b|a os ki]; intros Hwf; apply emits_cons; simpl.
  - apply (emits_last _ Base), emits_varint_bits; [lia|done].
  - destruct Hwf as (Ha&Hos&Hn&Hk). eapply emits_bind; [by apply emits_varint|].
    eapply emits_bind; [apply emits_count; [apply Hn|]|].
    { rewrite !length_app, Nat.max_id. rewrite Forall_forall in Hos.
      pose proof (length_concat_ge varint.encode 1 os) as Hl. 
      assert (∀ o, o ∈ os → (1 ≤ length (varint.encode o))%nat) by (intros o Ho; apply varint.encode_length, Hos, Ho).
      specialize (Hl H). lia. }
    eapply emits_bind; [by apply emits_offsets|]. apply (emits_last _ (Key a os)), emits_hash, Hk.
Qed.

Lemma emits_output o k : wf_output o → emits TransactionPrefix.read_output o (enc_output o) k.
Proof.
  destruct o as [a key]. intros [Ha Hk]. unfold TransactionPrefix.read_output, enc_output. simpl in *.
  eapply emits_bind; [by apply emits_varint|]. apply emits_cons. simpl.
  apply (emits_last _ (mkOutput a)), emits_hash, Hk.
Qed.

Lemma emits_prefix_any p k : wf_prefix p → emits TransactionPrefix.read_any_version p (enc_prefix p) k.
Proof.
  destruct p as [ver ul ins outs ex]. intros [? ? Hni Hin Hno Hout ? Hne]. simpl in *. rewrite Forall_forall in Hin. rewrite Forall_forall in Hout.
  unfold TransactionPrefix.read_any_version, enc_prefix. simpl.
  eapply emits_bind; [apply emits_varint_bits; [lia|done]|].
  eapply emits_bind; [by apply emits_varint|].
  eapply emits_bind; [apply emits_count; [apply Hni|]|].
  { pose proof (length_concat_ge enc_input 2 ins) as Hl. rewrite !length_app. simpl Nat.max.
    specialize (Hl ltac:(intros; apply enc_input_length; auto)). lia. }
  eapply emits_bind; [apply emits_read_n; intros; apply emits_input; auto|].
  eapply emits_bind; [apply emits_count; [apply Hno|]|].
  { pose proof (length_concat_ge enc_output 34 outs) as Hl. rewrite !length_app. simpl Nat.max.
    specialize (Hl ltac:(intros; apply enc_output_length; auto)). lia. }
  eapply emits_bind; [apply emits_read_n; intros; apply emits_output; auto|].
  apply (emits_last _ (mkPrefix ver ul ins outs)). apply emits_bytes, Hne.
Qed.

(** ** Everything accepted is an encoding *)

Lemma accepts_varint_32 : accepts (Reader.varint_bits 32) is_u32 varint.encode.
Proof. intros r v r' Hr H. by apply varint_bits_Ok. Qed.

Lemma accepts_varint_8 : accepts (Reader.varint_bits 8) is_u8 varint.encode.
Proof. intros r v r' Hr H. by apply varint_bits_Ok. Qed.

Lemma accepts_input : accepts TransactionPrefix.read_input wf_input enc_input.
Proof.
  intros r i r' Hr H. unfold TransactionPrefix.read_input in H. parse_step H u8_raw_Ok tag Ht.
  case_bool; bool_hyps; subst.
  - parse_step H accepts_varint_32 b Hb. injection H as <- <-. split; [done|].
    change (enc_input (Base b)) with ([TAG_BASE_INPUT] ++ varint.encode b). consumed_steps.
  - case_bool; bool_hyps; [|done]. subst.
    parse_step H varint_Ok a Ha. parse_step H count_Ok n Hn.
    parse_many H accepts_varint_32 os Hos.
    parse_step H hash_Ok ki Hk. injection H as <- <-. split; [by split_and!|].
    change (enc_input (Key a os ki)) with ([TAG_KEY_INPUT] ++ varint.encode a ++
      varint.encode (Z.of_nat (length os)) ++ concat (map varint.encode os) ++ ki). consumed_steps.
Qed.

Lemma accepts_output : accepts TransactionPrefix.read_output wf_output enc_output.
Proof.
  intros r o r' Hr H. unfold TransactionPrefix.read_output in H.
  parse_step H varint_Ok a Ha. parse_step H u8_raw_Ok tag Ht. case_bool; bool_hyps; [done|]. subst.
  parse_step H hash_Ok k Hk. injection H as <- <-. split; [by split|].
  change (enc_output _) with (varint.encode a ++ [TAG_KEY_OUTPUT] ++ k). consumed_steps.
Qed.

Lemma accepts_prefix_any : accepts TransactionPrefix.read_any_version wf_prefix enc_prefix.
Proof.
  intros r p r' Hr H. unfold TransactionPrefix.read_any_version in H.
  parse_step H accepts_varint_8 ver Hver. parse_step H varint_Ok ul Hul.
  parse_step H count_Ok ni Hni. parse_many H accepts_input ins Hins.
  parse_step H count_Ok no Hno. parse_many H accepts_output outs Houts.
  apply Parser_bind_Ok in H as (ex & r6 & Hex & H). injection H as <- <-.
  apply bytes_Ok in Hex as (Hex&Hne&Hc6); [|done]. split; [done|].
  unfold enc_prefix. cbn [version unlock_time inputs outputs extra]. consumed_steps.
Qed.

(** ** Whole transactions *)

Definition is_signature (s : bytes) : Prop := is_array 64 s.

Definition wf_signatures (ins : list Input) (sigs : list (list bytes)) : Prop :=
  Forall2 (λ i s, length s = ring i ∧ Forall is_signature s) ins sigs.

Definition wf_transaction (t : Transaction) : Prop :=
  wf_prefix (prefix t) ∧ version (prefix t) ≤ CURRENT_TRANSACTION_VERSION ∧
  if TransactionPrefix.is_coinbase (prefix t) then signatures t = []
  else wf_signatures (inputs (prefix t)) (signatures t).

Definition enc_transaction (t : Transaction) : bytes :=
  enc_prefix (prefix t) ++ concat (map (@concat Z) (signatures t)).

Lemma is_coinbase_inputs p : TransactionPrefix.is_coinbase p = true → ∃ b, inputs p = [Base b].
Proof. unfold TransactionPrefix.is_coinbase. repeat case_match; naive_solver. Qed.

Lemma foldl_raw w s : foldl Writer.raw w s = w ++ concat s.
Proof. rewrite (foldl_write _ id), map_id; done. Qed.

Lemma write_signatures_enc w ins sigs : wf_signatures ins sigs →
  Transaction.write_signatures w ins sigs = Ok (w ++ concat (map (@concat Z) sigs)).
Proof.
  intros H. revert w. induction H as [|i s ins sigs [Hl _] _ IH]; intros w; simpl; [by rewrite app_nil_r|].
  rewrite Hl, Nat.eqb_refl. simpl. by rewrite IH, foldl_raw, <- app_assoc.
Qed.

Lemma transaction_write_enc w t : wf_transaction t → Transaction.write w t = Ok (w ++ enc_transaction t).
Proof.
  intros (Hp&_&Hs). unfold Transaction.write, enc_transaction.
  rewrite write_prefix_enc, app_assoc by done. destruct (TransactionPrefix.is_coinbase _) eqn:Hb.
  - destruct (is_coinbase_inputs _ Hb) as [b ->]. rewrite Hs. simpl. by rewrite app_nil_r.
  - destruct (signatures t) as [|s sigs] eqn:E.
    + apply Forall2_nil_inv_r in Hs. rewrite Hs. simpl. by rewrite app_nil_r.
    + rewrite <- E in *. rewrite <- (Forall2_length _ _ _ Hs), Nat.eqb_refl. simpl. by rewrite write_signatures_enc.
Qed.

Lemma to_bytes_enc t : wf_transaction t → Transaction.to_bytes t = Ok (enc_transaction t).
Proof. apply (transaction_write_enc []). Qed.

Lemma emits_signatures ins sigs k : wf_signatures ins sigs →
  emits (Transaction.read_signatures ins) sigs (concat (map (@concat Z) sigs)) k.
Proof.
  intros H. revert k. induction H as [|i s ins sigs [Hl Hs] _ IH]; intros k; simpl; [apply emits_ret|].
  eapply emits_bind; [|apply (emits_last _ (cons s)), IH].
  rewrite <- Hl. replace (concat s) with (concat (map id s)) by (by rewrite map_id). apply (emits_read_n _ id). rewrite Forall_forall in Hs.
  intros a k' Ha. apply emits_raw. symmetry. apply (Hs a Ha).
Qed.

Lemma emits_transaction t k : wf_transaction t → emits Transaction.read t (enc_transaction t) k.
Proof.
  destruct t as [p sigs]. intros (Hp&Hv&Hs). unfold Transaction.read, enc_transaction. simpl in *.
  eapply emits_bind.
  - unfold TransactionPrefix.read. rewrite <- (app_nil_r (enc_prefix p)).
    eapply emits_bind; [by apply emits_prefix_any|]. destruct (_ <? _) eqn:E; bool_hyps; [lia|]. apply emits_ret.
  - destruct (TransactionPrefix.is_coinbase p) eqn:E.
    + destruct (is_coinbase_inputs _ E) as [b ->]. subst. simpl.
      apply (emits_last _ (λ _, mkTransaction p []) [[]]). apply (emits_signatures [Base b] [[]]). by repeat constructor.
    + by apply (emits_last _ (mkTransaction p)), emits_signatures.
Qed.

Lemma accepts_signature : accepts (Reader.raw 64) is_signature id.
Proof. intros r s r' Hr H. by apply raw_Ok. Qed.

Lemma accepts_signatures ins : accepts (Transaction.read_signatures ins) (wf_signatures ins) (λ s, concat (map (@concat Z) s)).
Proof.
  induction ins as [|i ins IH]; intros r sigs r' Hr H; simpl in H.
  { injection H as <- <-. split; [constructor | apply consumed_nil]. }
  apply Parser_bind_Ok in H as (s & r1 & Hs & H).
  apply (read_n_Ok _ _ _ _ _ _ _ accepts_signature) in Hs as (Hs&Hl&Hc); [|done].
  destruct (consumed_wf _ _ _ Hr Hc) as [? _]. parse_step H IH l Hl'. injection H as <- <-.
  split; [by constructor|]. simpl. rewrite map_id in Hc. consumed_steps.
Qed.

Lemma accepts_transaction : accepts Transaction.read wf_transaction enc_transaction.
Proof.
  intros r t r' Hr H. unfold Transaction.read, TransactionPrefix.read in H.
  apply Parser_bind_Ok in H as (p & r1 & Hp & H).
  parse_step Hp accepts_prefix_any p' Hp'. destruct (_ <? _) eqn:Hv in Hp; bool_hyps; [done|]. injection Hp as <- <-.
  parse_step H (accepts_signatures (inputs p')) sigs Hs. injection H as <- <-.
  unfold enc_transaction, wf_transaction. simpl. destruct (TransactionPrefix.is_coinbase _) eqn:Hcb.
  - split; [done|]. destruct (is_coinbase_inputs _ Hcb) as [b Eb]. rewrite Eb in Hs.
    inversion Hs as [|? s ? ? [Hls _] Hnil]; subst. inversion Hnil; subst.
    destruct s; [|done]. simpl in *. consumed_steps.
  - split; [done|]. consumed_steps.
Qed.

(** C34. A byte string parses as a transaction exactly when it is the
    serialization of a well-formed one, so that parsing and printing are inverse
    to each other and no transaction has two serializations. *)
Theorem transaction_from_bytes_iff (data : bytes) (t : Transaction) : is_bytes data →
  (Transaction.from_bytes data = Ok t ↔ wf_transaction t ∧ Transaction.to_bytes t = Ok data).
Proof.
  intros Hd. split.
  - intros H. apply (parse_all_accepts _ _ _ _ _ accepts_transaction) in H as [Hwf ->]; [|done].
    split; [done | by apply to_bytes_enc].
  - intros [Hwf Hb]. rewrite to_bytes_enc in Hb by done. injection Hb as <-.
    apply parse_all_emits. by apply emits_transaction.
Qed.

(** A coinbase of one output. *)
Definition sample_coinbase : Transaction :=
  mkTransaction (mkPrefix 1 41 [Base 1] [mkOutput 1000 (replicate 32 7)] [1; 2; 3]) [].

Lemma transaction_from_bytes_iff_witness :
  ∃ data, Transaction.to_bytes sample_coinbase = Ok data ∧ Transaction.from_bytes data = Ok sample_coinbase.
Proof.
  eexists. split; [vm_compute; reflexivity|].
  apply transaction_from_bytes_iff; [repeat constructor; vm_compute; congruence|].
  split; [|vm_compute; reflexivity]. split_and!; [constructor | vm_compute; congruence | reflexivity];
    repeat first [split | constructor]; vm_compute; congruence.
Defined.

(** * Sums and fees *)

Lemma try_sum_Some acc l s : Forall is_u64 l → acc < 2 ^ 64 →
  TransactionPrefix.try_sum acc l = Some s ↔ s = acc + total l ∧ acc + total l < 2 ^ 64.
Proof.
  intros Hl. revert acc. induction Hl as [|a l [Ha _] Hl IH]; intros acc Hacc; simpl.
  - rewrite Z.add_0_r. split; [by intros [= ->] | by intros [-> _]].
  - pose proof (total_nonneg l Hl). rewrite bind_Some. split.
    + intros (acc'&[<- ?]%checked_add_Some&H2). apply IH in H2; lia.
    + intros [-> ?]. exists (acc + a). rewrite checked_add_Some, IH by lia. lia.
Qed.

Lemma sum_inputs_Some p s : wf_prefix p →
  TransactionPrefix.sum_inputs p = Some s ↔
  s = total (TransactionPrefix.input_amounts (inputs p)) ∧ total (TransactionPrefix.input_amounts (inputs p)) < 2 ^ 64.
Proof.
  intros Hp. apply try_sum_Some; [|lia]. apply wf_inputs in Hp. unfold TransactionPrefix.input_amounts.
  induction Hp as [|i ins Hi _ IH]; simpl; [constructor|]. destruct i; [done|]. constructor; [apply Hi | done].
Qed.

Lemma sum_outputs_Some p s : wf_prefix p →
  TransactionPrefix.sum_outputs p = Some s ↔
  s = total (map o_amount (outputs p)) ∧ total (map o_amount (outputs p)) < 2 ^ 64.
Proof.
  intros Hp. apply try_sum_Some; [|lia]. apply wf_outputs in Hp. apply Forall_map.
  eapply Forall_impl; [exact Hp|]. by intros o [? _].
Qed.

Lemma fee_Some (t : Transaction) (f : Z) : wf_prefix (prefix t) →
  let i := total (TransactionPrefix.input_amounts (inputs (prefix t))) in
  let o := total (map o_amount (outputs (prefix t))) in
  Transaction.fee t = Some f ↔ i < 2 ^ 64 ∧ o ≤ i ∧ f = i - o.
Proof.
  intros Hp i o. unfold Transaction.fee. rewrite bind_Some. setoid_rewrite bind_Some. split.
  - intros (i'&Hi&o'&Ho&[? ->]%checked_sub_Some).
    apply sum_inputs_Some in Hi as [-> ?]; [|done]. apply sum_outputs_Some in Ho as [-> ?]; [|done]. done.
  - intros (Hi&Hoi&->). exists i. split; [by apply sum_inputs_Some|]. exists o.
    split; [apply sum_outputs_Some; [done|]; split; [done|]; lia|]. by apply checked_sub_Some.
Qed.

(** [Transaction::fee] is the exact difference of the input and the output
    amounts, and is absent exactly when a sum leaves 64 bits or the outputs
    exceed the inputs. *)
Theorem fee_spec (t : Transaction) (f : Z) : wf_prefix (prefix t) →
  let i := total (TransactionPrefix.input_amounts (inputs (prefix t))) in
  let o := total (map o_amount (outputs (prefix t))) in
  Transaction.fee t = Some f ↔ i < 2 ^ 64 ∧ o ≤ i ∧ f = i - o.
Proof. apply fee_Some. Qed.

Lemma fee_spec_witness :
  Transaction.fee (mkTransaction (mkPrefix 1 0 [Key 50 [1] (replicate 32 1)] [mkOutput 40 (replicate 32 2)] []) []) = Some 10.
Proof.
  apply fee_spec; [|vm_compute; split_and!; congruence].
  constructor; repeat first [split | constructor]; vm_compute; congruence.
Defined.

(** * Offsets *)

Lemma offsets_loop_inverse i prev abs rel : i ≠ 0%nat → Forall is_u64 abs →
  absolute_loop i prev abs = Some rel ↔ relative_loop i prev rel = Some abs ∧ Forall (λ o, 0 < o) rel.
Proof.
  intros Hi Hu. revert i prev rel Hi.
  induction Hu as [|a abs [Ha Ha'] Hu IH]; intros i prev rel Hi; assert ((i =? 0)%nat = false) as Ei by (by apply Nat.eqb_neq); simpl.
  - split; [by intros [= <-]|]. intros [H _]. destruct rel as [|o rel]; [done|]. simpl in H.
    rewrite Ei in H. by apply bind_Some in H as (?&_&(?&_&[=])%bind_Some).
  - rewrite Ei. split.
    + intros (d&Hd&(out&Hout&[= <-])%bind_Some)%bind_Some. apply bind_Some in Hd as (d'&[? ->]%checked_sub_Some&Hd).
      destruct (_ =? 0) eqn:Hb in Hd; [done|]. apply Z.eqb_neq in Hb. injection Hd as <-. apply IH in Hout as [Hr Hpos]; [|lia].
      split; [|by constructor; [lia|]]. simpl. rewrite Ei.
      assert (checked_add 64 prev (a - prev) = Some a) as -> by (apply checked_add_Some; lia). simpl. by rewrite Hr.
    + intros [H Hpos]. destruct rel as [|o rel]; [done|]. simpl in H. rewrite Ei in H.
      apply Forall_cons in Hpos as [Ho Hpos].
      apply bind_Some in H as (acc&[<- ?]%checked_add_Some&(out&Hout&[= <- ->])%bind_Some).
      assert (checked_sub (prev + o) prev = Some o) as -> by (apply checked_sub_Some; lia). simpl.
      destruct (o =? 0) eqn:Hb; [apply Z.eqb_eq in Hb; lia|]. simpl. assert (absolute_loop (S i) (prev + o) abs = Some rel) as ->; [|done].
      by apply IH.
Qed.

(** The relative offsets of a ring decode to its absolute output indexes
    exactly when they are their encoding: the two conversions are inverse on
    encodings whose offsets after the first are non-zero, which are those of
    strictly ascending rings. *)
Theorem offsets_inverse (abs rel : list Z) : Forall is_u64 abs →
  absolute_to_relative_offsets abs = Some rel ↔
  relative_offsets_to_absolute rel = Some abs ∧ Forall (λ o, 0 < o) (tail rel).
Proof.
  intros Hu. unfold absolute_to_relative_offsets, relative_offsets_to_absolute.
  destruct Hu as [|a abs Ha Hu]; simpl.
  - split; [by intros [= <-]|]. intros [H _]. destruct rel as [|o rel]; [done|].
    simpl in H. by apply bind_Some in H as (?&_&[=]).
  - rewrite bind_Some. setoid_rewrite offsets_loop_inverse; [|done..]. split.
    + intros (out&[Hr Hpos]&[= <-]). simpl. by rewrite Hr.
    + intros [H Hpos]. destruct rel as [|o rel]; [done|]. simpl in *.
      apply bind_Some in H as (out&Hout&[= -> ->]). by exists rel.
Qed.

Lemma offsets_inverse_witness :
  absolute_to_relative_offsets [5; 7; 12] = Some [5; 2; 5] ∧ relative_offsets_to_absolute [5; 2; 5] = Some [5; 7; 12].
Proof.
  assert (absolute_to_relative_offsets [5; 7; 12] = Some [5; 2; 5]) as H by reflexivity.
  split; [exact H|]. apply (offsets_inverse [5; 7; 12] [5; 2; 5]); [|exact H].
  repeat constructor; vm_compute; congruence.
Defined.
