(* ===== verification/TxExtra.v ===== *)
(** The [extra] field of a transaction (crates/wrkz-primitives/src/tx.rs): the
    consensus parser, the wallet parser, their builders, and the decomposition of
    an amount into outputs.

    Both parsers move a cursor over the field; the models carry the bytes that
    remain from the cursor on, and each step removes at least the tag byte, so
    the length of the field is enough fuel. *)
From S2P Require Import Prelude Varint.
Local Open Scope Z_scope.

Definition TX_EXTRA_TAG_PADDING : Z := 0x00.
Definition TX_EXTRA_TAG_PUBKEY : Z := 0x01.
Definition TX_EXTRA_NONCE : Z := 0x02.
Definition TX_EXTRA_MERGE_MINING_TAG : Z := 0x03.
Definition TX_EXTRA_TRANSACTION_POW_NONCE : Z := 0x04.
Definition TX_EXTRA_NONCE_PAYMENT_ID : Z := 0x00.
Definition TX_EXTRA_NONCE_ENCRYPTED_SHORT_PAYMENT_ID : Z := 0x03.
Definition TX_EXTRA_ARBITRARY_DATA : Z := 0x7f.

Record MergeMiningTag := mkMMTag { depth : Z; merkle_root : bytes }.

Record ParsedExtra := mkParsed {
  public_key : option bytes; nonce : option bytes; merge_mining_tag : option MergeMiningTag;
  padding : option nat; well_formed : bool }.

(** * The consensus parser *)

(** How a field leaves the loop: with the next cursor, or returning. *)
Inductive flow (A : Type) : Type :=
| Continue (out : A) (rest : bytes)
| Return (out : A).
Arguments Continue {A} out rest.
Arguments Return {A} out.

Definition fail (o : ParsedExtra) : ParsedExtra :=
  mkParsed (public_key o) (nonce o) (merge_mining_tag o) (padding o) false.

(** The inner loop of a padding field: the zero bytes it walks, [None] on another byte. *)
Fixpoint padding_loop (size : nat) (rest : bytes) : option (nat * bytes) :=
  match rest with
  | b :: rest' =>
      if (size <=? 255)%nat then if negb (b =? 0) then None else padding_loop (S size) rest'
      else Some (size, rest)
  | [] => Some (size, [])
  end.

Definition parse_field (out : ParsedExtra) (tag : Z) (rest : bytes) : flow ParsedExtra :=
  if tag =? TX_EXTRA_TAG_PADDING then
    match padding out with
    | Some _ => Return out
    | None =>
        match padding_loop 1 rest with
        | None => Return (fail out)
        | Some (size, rest) =>
            if (255 <? size)%nat then Return (fail out)
            else Continue (mkParsed (public_key out) (nonce out) (merge_mining_tag out) (Some size) (well_formed out)) rest
        end
    end
  else if tag =? TX_EXTRA_TAG_PUBKEY then
    match public_key out with
    | Some _ => Return out
    | None =>
        if (length rest <? 32)%nat then Return (fail out)
        else Continue (mkParsed (Some (take 32 rest)) (nonce out) (merge_mining_tag out) (padding out) (well_formed out))
               (drop 32 rest)
    end
  else if tag =? TX_EXTRA_NONCE then
    match nonce out with
    | Some _ => Return out
    | None =>
        match rest with
        | [] => Return (fail out)
        | b :: rest =>
            let n := Z.to_nat b in
            if (length rest <? n)%nat then Return (fail out)
            else Continue (mkParsed (public_key out) (Some (take n rest)) (merge_mining_tag out) (padding out) (well_formed out))
                   (drop n rest)
        end
    end
  else if tag =? TX_EXTRA_MERGE_MINING_TAG then
    match merge_mining_tag out with
    | Some _ => Continue out rest
    | None =>
        match varint.read rest with
        | Err _ => Return (fail out)
        | Ok (len, ln) =>
            let rest := drop ln rest in
            if Z.of_nat (length rest) <? len then Return (fail out)
            else
              let body := take (Z.to_nat len) rest in
              let rest := drop (Z.to_nat len) rest in
              match varint.read body with
              | Err _ => Return (fail out)
              | Ok (d, dn) =>
                  if (length body - dn <? 32)%nat then Return (fail out)
                  else Continue (mkParsed (public_key out) (nonce out) (Some (mkMMTag d (slice body dn 32)))
                         (padding out) (well_formed out)) rest
              end
        end
    end
  else Continue out rest.

Fixpoint parse_loop (fuel : nat) (out : ParsedExtra) (rest : bytes) : ParsedExtra :=
  match fuel, rest with
  | S fuel, tag :: rest =>
      match parse_field out tag rest with
      | Continue out rest => parse_loop fuel out rest
      | Return out => out
      end
  | _, _ => out
  end.

Definition parse_extra (extra : bytes) : ParsedExtra :=
  parse_loop (length extra) (mkParsed None None None None true) extra.

(** * The wallet parser *)

Inductive PaymentId : Type :=
| Long (id : bytes)
| EncryptedShort (id : bytes).

Record WalletParsedExtra := mkWParsed {
  w_public_key : option bytes; w_payment_id : option PaymentId; w_arbitrary_data : option bytes;
  w_merge_mining_tag : option MergeMiningTag; w_pow_nonce : option bytes }.

(** The result and the [seen_*] flags. *)
Record WState := mkW {
  w_out : WalletParsedExtra;
  seen_pk : bool; seen_nonce : bool; seen_data : bool; seen_pid : bool; seen_mm : bool; seen_pow : bool }.

(** [match varint::read(..) { Ok((v, n)) => (v, n), Err(_) => (0, 0) }] *)
Definition read_or_zero (bs : bytes) : Z * nat :=
  match varint.read bs with Ok (v, n) => (v, n) | Err _ => (0, 0%nat) end.

Definition set_payment_id (o : WalletParsedExtra) (id : PaymentId) : WalletParsedExtra :=
  mkWParsed (w_public_key o) (Some id) (w_arbitrary_data o) (w_merge_mining_tag o) (w_pow_nonce o).
Definition set_data (o : WalletParsedExtra) (d : bytes) : WalletParsedExtra :=
  mkWParsed (w_public_key o) (w_payment_id o) (Some d) (w_merge_mining_tag o) (w_pow_nonce o).
Definition set_public_key (o : WalletParsedExtra) (k : bytes) : WalletParsedExtra :=
  mkWParsed (Some k) (w_payment_id o) (w_arbitrary_data o) (w_merge_mining_tag o) (w_pow_nonce o).
Definition set_mm (o : WalletParsedExtra) (t : MergeMiningTag) : WalletParsedExtra :=
  mkWParsed (w_public_key o) (w_payment_id o) (w_arbitrary_data o) (Some t) (w_pow_nonce o).
Definition set_pow (o : WalletParsedExtra) (p : bytes) : WalletParsedExtra :=
  mkWParsed (w_public_key o) (w_payment_id o) (w_arbitrary_data o) (w_merge_mining_tag o) (Some p).

(** One byte of the nonce payload: the state, how far the outer cursor advances,
    and how many payload bytes are consumed. *)
Definition nonce_step (st : WState) (sb : Z) (after : bytes) : WState * nat * nat :=
  let nrem := S (length after) in
  let o := w_out st in
  if (sb =? TX_EXTRA_NONCE_PAYMENT_ID) && (32 <? nrem)%nat && negb (seen_pid st) then
    (mkW (set_payment_id o (Long (take 32 after))) (seen_pk st) (seen_nonce st) (seen_data st) true (seen_mm st) (seen_pow st),
     33, 33)%nat
  else if ((sb =? 0x01) || (sb =? 0x02)) && (8 <? nrem)%nat then (st, 9, 9)%nat
  else if (sb =? TX_EXTRA_NONCE_ENCRYPTED_SHORT_PAYMENT_ID) && (8 <? nrem)%nat && negb (seen_pid st) then
    (mkW (set_payment_id o (EncryptedShort (take 8 after))) (seen_pk st) (seen_nonce st) (seen_data st) true (seen_mm st) (seen_pow st),
     9, 9)%nat
  else if (sb =? TX_EXTRA_ARBITRARY_DATA) && (1 <? nrem)%nat && negb (seen_data st) then
    let '(data_size, read_data_size) := read_or_zero after in
    if data_size <=? Z.of_nat (nrem - 1 - read_data_size) then
      let n := (1 + read_data_size + Z.to_nat data_size)%nat in
      (mkW (set_data o (slice after read_data_size (Z.to_nat data_size)))
         (seen_pk st) (seen_nonce st) true (seen_pid st) (seen_mm st) (seen_pow st), n, n)
    else (st, 0, 1)%nat
  else (st, 0, 1)%nat.

Fixpoint nonce_loop (fuel : nat) (st : WState) (advance : nat) (payload : bytes) : WState * nat :=
  match fuel, payload with
  | S fuel, sb :: after =>
      let '(st, adv, used) := nonce_step st sb after in
      nonce_loop fuel st (advance + adv) (drop (used - 1) after)
  | _, _ => (st, advance)
  end.

(** A nonce field; [after] follows the tag. *)
Definition nonce_field (st : WState) (after : bytes) : WState * bytes :=
  let remaining := S (length after) in
  let '(nonce_size, read_nonce_size) := read_or_zero after in
  let '(st, advance) :=
    if nonce_size <? Z.of_nat (remaining - read_nonce_size) then
      let payload := slice after read_nonce_size (Z.to_nat nonce_size) in
      nonce_loop (length payload) st read_nonce_size payload
    else (st, read_nonce_size) in
  (mkW (w_out st) (seen_pk st) true (seen_data st) (seen_pid st) (seen_mm st) (seen_pow st), drop advance after).

(** A merge-mining tag, [None] when the body is not one and the walk goes on. *)
Definition mm_field (st : WState) (after : bytes) : option (WState * bytes) :=
  let remaining := S (length after) in
  let '(data_size, read_data_size) := read_or_zero after in
  if (data_size <? Z.of_nat (remaining - read_data_size)) && (33 <=? data_size) then
    let '(d, read_depth_size) := read_or_zero (drop read_data_size after) in
    let begin := (read_data_size + read_depth_size)%nat in
    if (begin + 32 <=? length after)%nat then
      Some (mkW (set_mm (w_out st) (mkMMTag d (slice after begin 32)))
              (seen_pk st) (seen_nonce st) (seen_data st) (seen_pid st) true (seen_pow st),
            drop (read_depth_size + 32) after)
    else None
  else None.

Definition pow_field (st : WState) (c : Z) (after : bytes) : WState * bytes :=
  if (c =? TX_EXTRA_TRANSACTION_POW_NONCE) && (8 <? S (length after))%nat && negb (seen_pow st) then
    (mkW (set_pow (w_out st) (take 8 after)) (seen_pk st) (seen_nonce st) (seen_data st) (seen_pid st) (seen_mm st) true,
     drop 8 after)
  else (st, after).

Definition wallet_step (st : WState) (c : Z) (after : bytes) : WState * bytes :=
  let remaining := S (length after) in
  if (c =? TX_EXTRA_TAG_PUBKEY) && (32 <? remaining)%nat && negb (seen_pk st) then
    (mkW (set_public_key (w_out st) (take 32 after)) true (seen_nonce st) (seen_data st) (seen_pid st) (seen_mm st) (seen_pow st),
     drop 32 after)
  else if (c =? TX_EXTRA_NONCE) && (1 <? remaining)%nat && negb (seen_nonce st) then nonce_field st after
  else if (c =? TX_EXTRA_MERGE_MINING_TAG) && (1 <? remaining)%nat && negb (seen_mm st) then
    match mm_field st after with Some r => r | None => pow_field st c after end
  else pow_field st c after.

Fixpoint wallet_loop (fuel : nat) (st : WState) (rest : bytes) : WalletParsedExtra :=
  match fuel, rest with
  | S fuel, c :: after =>
      if seen_pk st && seen_pid st && seen_mm st && seen_data st && seen_pow st then w_out st
      else let '(st, rest) := wallet_step st c after in wallet_loop fuel st rest
  | _, _ => w_out st
  end.

Definition parse_extra_wallet (extra : bytes) : WalletParsedExtra :=
  wallet_loop (length extra)
    (mkW (mkWParsed None None None None None) false false false false false false) extra.

(** * Builders *)

Definition build_extra (tx_public_key : bytes) (nonce pow_nonce : option bytes) : result Error bytes :=
  let out := TX_EXTRA_TAG_PUBKEY :: tx_public_key in
  out ← match nonce with
        | Some n =>
            if (255 <? length n)%nat then Err (Malformed "tx_extra nonce longer than 255 bytes")
            else Ok (out ++ TX_EXTRA_NONCE :: Z.of_nat (length n) :: n)
        | None => Ok out
        end;
  Ok match pow_nonce with
     | Some p => out ++ TX_EXTRA_TRANSACTION_POW_NONCE :: p
     | None => out
     end.

Definition build_nonce (payment_id : option PaymentId) (arbitrary_data : option bytes) : bytes :=
  let out := match payment_id with
             | Some (Long id) => TX_EXTRA_NONCE_PAYMENT_ID :: id
             | Some (EncryptedShort id) => TX_EXTRA_NONCE_ENCRYPTED_SHORT_PAYMENT_ID :: id
             | None => []
             end in
  match arbitrary_data with
  | Some d => varint.write (out ++ [TX_EXTRA_ARBITRARY_DATA]) (Z.of_nat (length d)) ++ d
  | None => out
  end.

Definition append_merge_mining_tag (extra : bytes) (tag : MergeMiningTag) : bytes :=
  let body := varint.encode (depth tag) ++ merkle_root tag in
  varint.write (extra ++ [TX_EXTRA_MERGE_MINING_TAG]) (Z.of_nat (length body)) ++ body.

(** * Amount decomposition *)

(** The variables of the digit loop. *)
Fixpoint decompose_loop (fuel : nat) (dust_threshold : Z) (out : list Z) (dust_handled : bool) (dust order a : Z)
    : list Z * bool * Z :=
  match fuel with
  | O => (out, dust_handled, dust)
  | S fuel =>
      if 0 <? a then
        let chunk := (a mod 10) * order in
        let a := a / 10 in
        let order := wrapping_mul 64 order 10 in
        if dust + chunk <=? dust_threshold then decompose_loop fuel dust_threshold out dust_handled (dust + chunk) order a
        else
          let '(out, dust_handled) :=
            if negb dust_handled && negb (dust =? 0) then (out ++ [dust], true) else (out, dust_handled) in
          let out := if negb (chunk =? 0) then out ++ [chunk] else out in
          decompose_loop fuel dust_threshold out dust_handled dust order a
      else (out, dust_handled, dust)
  end.

(** A [u64] has at most twenty decimal digits. *)
Definition decompose_amount (amount dust_threshold : Z) : list Z :=
  let '(out, dust_handled, dust) := decompose_loop 20 dust_threshold [] false 0 1 amount in
  if negb dust_handled && negb (dust =? 0) then out ++ [dust] else out.

Example decompose_documented :
  decompose_amount 62387455827 455827 = [455827; 7000000; 80000000; 300000000; 2000000000; 60000000000].
Proof. reflexivity. Qed.

(** * The decomposition pays the amount *)

(** What the pieces emitted so far and the dust not yet emitted add up to. *)
Definition pending (r : list Z * bool * Z) : Z :=
  let '(out, handled, dust) := r in total out + (if handled then 0 else dust).

Lemma decompose_loop_sum thr fuel out (handled : bool) dust order a :
  0 ≤ a < 10 ^ Z.of_nat fuel → 0 ≤ dust → Forall (λ c, 0 < c) out →
  (0 < a → 1 ≤ order ∧ a * order < 2 ^ 64 ∧ (handled → thr < dust + order)) →
  let r := decompose_loop fuel thr out handled dust order a in
  pending r = pending (out, handled, dust) + a * order ∧ Forall (λ c, 0 < c) r.1.1 ∧ 0 ≤ r.2.
Proof.
  revert out handled dust order a. induction fuel as [|fuel IH]; intros out handled dust order a Ha Hd Hout Hinv.
  { change (10 ^ Z.of_nat 0) with 1 in Ha. assert (a = 0) as -> by lia. simpl. split_and!; [lia|done|done]. }
  rewrite Nat2Z.inj_succ, Z.pow_succ_r in Ha by lia. cbn [decompose_loop].
  destruct (0 <? a) eqn:E; bool_hyps; [|assert (a = 0) as -> by lia; simpl; split_and!; [lia|done|done]].
  destruct (Hinv E) as (Ho&Hao&Hh).
  pose proof (Z.div_mod a 10 ltac:(lia)) as Hdiv. pose proof (Z.mod_pos_bound a 10 ltac:(lia)) as Hmod.
  set (q := a / 10) in *. set (d := a mod 10) in *. set (chunk := d * order).
  assert (0 ≤ q < 10 ^ Z.of_nat fuel) as Hq by lia.
  assert (0 ≤ chunk) by (unfold chunk; nia).
  assert (a * order = chunk + q * (order * 10)) as Eao by (unfold chunk; nia).
  assert (0 < q → wrapping_mul 64 order 10 = order * 10 ∧ 1 ≤ order * 10 ∧ q * (order * 10) < 2 ^ 64) as Hw.
  { intros. split_and!; [|lia|lia]. apply wrap_small. unfold in_u. nia. }
  assert (q = 0 ∨ 0 < q) as Hq0 by lia.
  assert (∀ out' (h' : bool) dust', 0 ≤ dust' → Forall (λ c, 0 < c) out' → (h' → thr < dust' + order * 10) →
    let r := decompose_loop fuel thr out' h' dust' (wrapping_mul 64 order 10) q in
    pending r = pending (out', h', dust') + q * (order * 10) ∧ Forall (λ c, 0 < c) r.1.1 ∧ 0 ≤ r.2) as Hstep.
  { intros out' h' dust' Hd' Ho' Hh'. destruct Hq0 as [E0|Hq0].
    - destruct (IH out' h' dust' (wrapping_mul 64 order 10) q Hq Hd' Ho' ltac:(lia)) as (H1&H2&H3).
      split_and!; [|done|done]. rewrite H1, E0. lia.
    - destruct (Hw Hq0) as (->&?&?). apply IH; [done..|]. intros _. split_and!; done. }
  destruct (dust + chunk <=? thr) eqn:Ec; bool_hyps.
  - destruct (Hstep out handled (dust + chunk)) as (P1&P2&P3); [lia | done | |].
    + intros ?. pose proof (Hh ltac:(done)). lia.
    + split_and!; [|done|done]. rewrite P1. simpl. destruct handled; [|lia].
      pose proof (Hh I). assert (d = 0) by (unfold chunk in Ec; nia). unfold chunk in *. nia.
  - assert (thr < dust + order * 10) by (unfold chunk in *; nia).
    destruct (negb handled && negb (dust =? 0)) eqn:Eh; bool_hyps.
    + destruct (Hstep (if negb (chunk =? 0) then (out ++ [dust]) ++ [chunk] else out ++ [dust]) true dust) as (P1&P2&P3); [done| |done|].
      * destruct (chunk =? 0) eqn:E0; bool_hyps; simpl; rewrite ?Forall_app, ?Forall_singleton; repeat split; done || lia.
      * split_and!; [|done|done]. rewrite P1. simpl. destruct handled; [done|].
        destruct (chunk =? 0) eqn:E0; bool_hyps; simpl; rewrite ?total_app; simpl; lia.
    + destruct (Hstep (if negb (chunk =? 0) then out ++ [chunk] else out) handled dust) as (P1&P2&P3); [done| |done|].
      * destruct (chunk =? 0) eqn:E0; bool_hyps; simpl; rewrite ?Forall_app, ?Forall_singleton; repeat split; done || lia.
      * split_and!; [|done|done]. rewrite P1. simpl.
        destruct (chunk =? 0) eqn:E0; bool_hyps; simpl; rewrite ?total_app; simpl; lia.
Qed.

Lemma decompose_pieces (amount dust_threshold : Z) : is_u64 amount →
  total (decompose_amount amount dust_threshold) = amount ∧
  Forall (λ c, 0 < c) (decompose_amount amount dust_threshold).
Proof.
  intros [H0 H1]. unfold decompose_amount.
  destruct (decompose_loop_sum dust_threshold 20 [] false 0 1 amount) as (Hs&Hp&Hd); [lia | lia | apply Forall_nil_2 | intros _; split_and!; [lia | lia | by intros []] |].
  destruct (decompose_loop _ _ _ _ _ _ _) as [[out h] dust]. simpl in *.
  destruct h; simpl; [split; [lia|done]|].
  destruct (dust =? 0) eqn:E; bool_hyps; simpl; [split; [lia|done]|].
  rewrite total_app, Forall_app, Forall_singleton. simpl. repeat split; done || lia.
Qed.

(** [decompose_amount] splits an amount into positive pieces that add up to
    it, for every 64-bit amount and dust threshold. *)
Theorem decompose_amount_sum (amount dust_threshold : Z) : is_u64 amount →
  total (decompose_amount amount dust_threshold) = amount ∧
  Forall (λ c, 0 < c) (decompose_amount amount dust_threshold).
Proof. apply decompose_pieces. Qed.

Lemma decompose_amount_sum_witness :
  total (decompose_amount 18446744073709551615 10) = 18446744073709551615 ∧
  Forall (λ c, 0 < c) (decompose_amount 18446744073709551615 10).
Proof. apply decompose_amount_sum. split; vm_compute; congruence. Defined.

(** * The consensus parser reads the builders back *)

(** Fields once set stay. *)
Definition extends (o o' : ParsedExtra) : Prop :=
  (∀ k, public_key o = Some k → public_key o' = Some k) ∧ (∀ n, nonce o = Some n → nonce o' = Some n).

Lemma extends_refl o : extends o o.
Proof. done. Qed.

Lemma parse_field_extends out tag rest :
  match parse_field out tag rest with Continue o _ => extends out o | Return o => extends out o end.
Proof. unfold parse_field. repeat case_match; simplify_eq; split; simpl; congruence. Qed.

Lemma parse_loop_cons fuel out tag rest : parse_loop (S fuel) out (tag :: rest) =
  match parse_field out tag rest with Continue out rest => parse_loop fuel out rest | Return out => out end.
Proof. done. Qed.

Lemma parse_loop_extends fuel out rest : extends out (parse_loop fuel out rest).
Proof.
  revert out rest. induction fuel as [|fuel IH]; intros out [|tag rest]; simpl; [apply extends_refl..|].
  pose proof (parse_field_extends out tag rest) as Hf. destruct (parse_field out tag rest) as [o r|o]; [|done].
  destruct (IH o r) as [IHk IHn], Hf as [Hk Hn]. split; auto.
Qed.

(** The consensus parser recovers, from every [extra] that [build_extra]
    makes, the transaction public key and the nonce payload, whatever proof-of-work
    nonce follows them. *)
Theorem extra_consensus_roundtrip (pk : bytes) (n pow : option bytes) (e : bytes) :
  length pk = 32%nat → build_extra pk n pow = Ok e →
  public_key (parse_extra e) = Some pk ∧ (∀ n', n = Some n' → nonce (parse_extra e) = Some n').
Proof.
  intros Hpk He. assert (∃ tail, e = TX_EXTRA_TAG_PUBKEY :: pk ++ tail ∧
    ∀ n', n = Some n' → ∃ tail', tail = TX_EXTRA_NONCE :: Z.of_nat (length n') :: n' ++ tail') as (tail&->&Htail).
  { unfold build_extra in He. apply result_bind_Ok in He as (out&Ho&[= <-]). destruct n as [n|].
    - destruct (_ <? _)%nat in Ho; [done|]. injection Ho as <-. destruct pow as [p|].
      + eexists. split; [by rewrite <- app_comm_cons, <- app_assoc|]. intros ? [= <-]. by eexists.
      + eexists. split; [done|]. intros ? [= <-]. eexists [] . by rewrite app_nil_r.
    - injection Ho as <-. destruct pow as [p|]; [by eexists|]. exists []. by rewrite app_nil_r. }
  unfold parse_extra. cbn [length]. rewrite parse_loop_cons. unfold parse_field at 1 2. simpl (_ =? _). cbn [public_key].
  rewrite length_app, Hpk. destruct (_ <? 32)%nat eqn:E; bool_hyps; [lia|].
  rewrite take_app_length_eq, drop_app_length_eq by done. split.
  - by apply parse_loop_extends.
  - intros n' Hn. destruct (Htail n' Hn) as [tail' ->]. cbn [length Nat.add]. rewrite parse_loop_cons.
    unfold parse_field. simpl (_ =? _). cbn [nonce]. rewrite Nat2Z.id, length_app.
    destruct (_ <? length n')%nat eqn:E'; bool_hyps; [lia|].
    rewrite take_app_length, drop_app_length. by apply parse_loop_extends.
Qed.

Lemma extra_consensus_roundtrip_witness :
  ∃ e, build_extra (replicate 32 9) (Some [0; 1; 2]) (Some (replicate 8 0)) = Ok e ∧
    public_key (parse_extra e) = Some (replicate 32 9) ∧
    (∀ n', Some [0; 1; 2] = Some n' → nonce (parse_extra e) = Some n').
Proof.
  eexists. split; [reflexivity|].
  apply (extra_consensus_roundtrip (replicate 32 9) (Some [0; 1; 2]) (Some (replicate 8 0))); reflexivity.
Defined.

(** The merge-mining tag of a parent coinbase. *)
Lemma parse_append_merge_mining_tag tag : is_u64 (depth tag) → length (merkle_root tag) = 32%nat →
  parse_extra (append_merge_mining_tag [] tag) = mkParsed None None (Some tag) None true.
Proof.
  intros Hd Hr. destruct tag as [d r]. simpl in *. pose proof (varint.encode_length d ltac:(apply Hd)) as Hl.
  unfold append_merge_mining_tag. cbn [depth merkle_root].
  rewrite varint.write_encode by (unfold in_u; rewrite length_app; lia).
  set (len := Z.of_nat _). assert (is_u64 len) as Hlen by (unfold len, in_u; rewrite length_app; lia).
  unfold parse_extra. simpl app. cbn [length]. rewrite parse_loop_cons. unfold parse_field. simpl (_ =? _). cbn [merge_mining_tag].
  unfold varint.read. rewrite varint.read_bits_encode by done.
  rewrite drop_app_length. destruct (_ <? len) eqn:E; bool_hyps; [unfold len in E; lia|].
  assert (Z.to_nat len = length (varint.encode d ++ r)) as -> by apply Nat2Z.id.
  rewrite take_ge, drop_ge by lia. rewrite varint.read_bits_encode by done.
  rewrite length_app, Hr. destruct (_ <? 32)%nat eqn:E'; bool_hyps; [lia|].
  unfold slice. rewrite drop_app_length, take_ge by lia. by destruct (length (varint.encode len ++ _)).
Qed.

(** * The wallet parser reads the builders back *)

Definition wf_payment_id (id : option PaymentId) : Prop :=
  match id with
  | Some (Long id) => length id = 32%nat
  | Some (EncryptedShort id) => length id = 8%nat
  | None => True
  end.

Lemma read_or_zero_encode v k : is_u64 v → read_or_zero (varint.encode v ++ k) = (v, length (varint.encode v)).
Proof. intros. unfold read_or_zero, varint.read. by rewrite varint.read_bits_encode. Qed.

Lemma encode_small v : 0 ≤ v < 128 → varint.encode v = [v].
Proof.
  intros Hv. rewrite varint.encode_leb by lia. simpl. case_bool; bool_hyps; [done|lia].
Qed.

(** The payload of a nonce is consumed to its end, whatever it holds. *)
Definition enc_data (data : option bytes) : bytes :=
  match data with
  | Some d => TX_EXTRA_ARBITRARY_DATA :: varint.encode (Z.of_nat (length d)) ++ d
  | None => []
  end.

Definition enc_pid (id : option PaymentId) : bytes :=
  match id with
  | Some (Long id) => TX_EXTRA_NONCE_PAYMENT_ID :: id
  | Some (EncryptedShort id) => TX_EXTRA_NONCE_ENCRYPTED_SHORT_PAYMENT_ID :: id
  | None => []
  end.

Lemma build_nonce_enc id data : (length (build_nonce id data) < 128)%nat →
  build_nonce id data = enc_pid id ++ enc_data data.
Proof.
  unfold build_nonce, enc_data. fold (enc_pid id). destruct data as [d|]; [|by rewrite app_nil_r].
  intros Hl. rewrite length_app in Hl. rewrite varint.write_encode by (unfold in_u; lia). by rewrite <- !app_assoc.
Qed.

Lemma nonce_loop_cons fuel st advance sb after :
  nonce_loop (S fuel) st advance (sb :: after) =
  let '(st, adv, used) := nonce_step st sb after in nonce_loop fuel st (advance + adv) (drop (used - 1) after).
Proof. done. Qed.

Lemma nonce_loop_nil fuel st advance : nonce_loop fuel st advance [] = (st, advance).
Proof. by destruct fuel. Qed.

Definition with_data (st : WState) (data : option bytes) : WState :=
  match data with
  | Some d => mkW (set_data (w_out st) d) (seen_pk st) (seen_nonce st) true (seen_pid st) (seen_mm st) (seen_pow st)
  | None => st
  end.

Definition with_pid (st : WState) (id : option PaymentId) : WState :=
  match id with
  | Some id => mkW (set_payment_id (w_out st) id) (seen_pk st) (seen_nonce st) (seen_data st) true (seen_mm st) (seen_pow st)
  | None => st
  end.

Lemma nonce_loop_data fuel st adv data :
  seen_data st = false → (length (enc_data data) ≤ fuel)%nat → (length (enc_data data) < 128)%nat →
  nonce_loop fuel st adv (enc_data data) = (with_data st data, (adv + length (enc_data data))%nat).
Proof.
  intros Hs Hf Hl. destruct data as [d|]; [|by rewrite nonce_loop_nil, Nat.add_0_r]. simpl enc_data in *.
  destruct fuel as [|fuel]; [simpl in Hf; lia|]. rewrite nonce_loop_cons. unfold nonce_step. rewrite Hs.
  assert (is_u64 (Z.of_nat (length d))) by (unfold in_u; simpl in Hl; rewrite length_app in Hl; lia).
  pose proof (varint.encode_length (Z.of_nat (length d)) ltac:(lia)).
  simpl (_ =? _). cbn [andb orb negb]. rewrite read_or_zero_encode, !length_app by done.
  destruct (1 <? _)%nat eqn:E; bool_hyps; [|lia]. cbn [andb].
  destruct (_ <=? _) eqn:E2; bool_hyps; [|lia]. rewrite Nat2Z.id.
  rewrite (drop_ge (_ ++ d)) by (rewrite length_app; lia). rewrite nonce_loop_nil.
  unfold slice. rewrite drop_app_length, take_ge by lia. f_equal. rewrite length_cons, length_app. lia.
Qed.

Lemma nonce_loop_payload st adv id data : wf_payment_id id →
  seen_data st = false → seen_pid st = false → (length (enc_pid id ++ enc_data data) < 128)%nat →
  nonce_loop (length (enc_pid id ++ enc_data data)) st adv (enc_pid id ++ enc_data data) =
  (with_data (with_pid st id) data, (adv + length (enc_pid id ++ enc_data data))%nat).
Proof.
  intros Hid Hd Hp Hl. rewrite length_app in Hl |- *. destruct id as [[id|id]|]; simpl in Hid.
  1, 2: simpl enc_pid in *; cbn [app length Nat.add]; rewrite nonce_loop_cons; unfold nonce_step;
    rewrite Hp, length_app, Hid; simpl (_ =? _); cbn [andb orb negb];
    match goal with |- context [(?a <? ?b)%nat] => destruct (a <? b)%nat eqn:E; bool_hyps; [|lia] end; cbn [andb];
    rewrite drop_app_length_eq, take_app_length_eq, nonce_loop_data by (done || (simpl in *; lia));
    f_equal; simpl in *; lia.
  simpl. by apply nonce_loop_data.
Qed.

Lemma wallet_loop_cons fuel st c after : seen_mm st = false →
  wallet_loop (S fuel) st (c :: after) =
  let '(st, rest) := wallet_step st c after in wallet_loop fuel st rest.
Proof. intros Hm. simpl. by rewrite Hm, andb_false_r. Qed.

(** A nonce field written by [build_extra] with a one-byte length. *)
Lemma nonce_field_payload st id data k : wf_payment_id id →
  seen_data st = false → seen_pid st = false → (length (enc_pid id ++ enc_data data) < 128)%nat →
  let n := enc_pid id ++ enc_data data in
  nonce_field st (Z.of_nat (length n) :: n ++ k) =
  (let st := with_data (with_pid st id) data in
   mkW (w_out st) (seen_pk st) true (seen_data st) (seen_pid st) (seen_mm st) (seen_pow st), k).
Proof.
  intros Hid Hd Hp Hl n. pose proof Hl as Hn. fold n in Hn. unfold nonce_field.
  change (Z.of_nat (length n) :: n ++ k) with ([Z.of_nat (length n)] ++ n ++ k).
  rewrite <- (encode_small (Z.of_nat (length n))) by lia. rewrite read_or_zero_encode by (unfold in_u; lia).
  rewrite (encode_small (Z.of_nat (length n))) by lia. cbn [length app]. rewrite length_app.
  destruct (_ <? _) eqn:E; bool_hyps; [|lia]. rewrite Nat2Z.id.
  replace (slice _ _ _) with n by (unfold slice; simpl; by rewrite ?drop_0, take_app_length).
  unfold n at 1 3. rewrite nonce_loop_payload by done. fold n. cbn [Nat.add drop]. by rewrite drop_app_length.
Qed.

(** The wallet's parser recovers every part a wallet puts into [extra]: the
    transaction public key, the payment id, the arbitrary data and the
    proof-of-work nonce, for a nonce payload of less than 128 bytes, whose length
    is one varint byte. *)
Theorem wallet_extra_roundtrip (pk pow : bytes) (id : option PaymentId) (data : option bytes) :
  length pk = 32%nat → length pow = 8%nat → wf_payment_id id → (length (build_nonce id data) < 128)%nat →
  ∃ e, build_extra pk (Some (build_nonce id data)) (Some pow) = Ok e ∧
    parse_extra_wallet e = mkWParsed (Some pk) id data None (Some pow).
Proof.
  intros Hpk Hpow Hid Hl. pose proof Hl as Hl'. rewrite build_nonce_enc in Hl' |- * by done.
  set (n := enc_pid id ++ enc_data data) in *. unfold build_extra.
  destruct (255 <? length n)%nat eqn:E; bool_hyps; [lia|]. eexists. split; [reflexivity|].
  rewrite <- !app_comm_cons, <- app_assoc, <- !app_comm_cons. unfold parse_extra_wallet.
  assert (∃ fuel, length (TX_EXTRA_TAG_PUBKEY :: pk ++ TX_EXTRA_NONCE :: Z.of_nat (length n) :: n ++ TX_EXTRA_TRANSACTION_POW_NONCE :: pow)
    = S (S (S fuel))) as [fuel ->].
  { eexists. simpl. rewrite length_app, Hpk. simpl. reflexivity. }
  rewrite wallet_loop_cons by done. unfold wallet_step at 1. simpl (_ =? _). rewrite length_app, Hpk. cbn [andb negb seen_pk].
  destruct (32 <? _)%nat eqn:E1; bool_hyps; [|lia]. cbn [andb]. rewrite take_app_length_eq, drop_app_length_eq by done.
  cbv beta iota. rewrite wallet_loop_cons by done. unfold wallet_step at 1. simpl (_ =? _). cbn [andb negb seen_nonce length].
  unfold n at 1 2. rewrite nonce_field_payload by done.
  destruct (1 <? _)%nat eqn:E2; bool_hyps; [|lia]. cbn [andb].
  cbv beta iota zeta. rewrite wallet_loop_cons by (by destruct id, data). unfold wallet_step. simpl (_ =? _). cbn [andb].
  unfold pow_field. simpl (_ =? _). rewrite Hpow. simpl Nat.ltb. cbn [andb negb].
  rewrite take_ge, drop_ge by lia. by destruct id as [[]|], data, fuel.
Qed.

Lemma wallet_extra_roundtrip_witness :
  ∃ e, build_extra (replicate 32 5) (Some (build_nonce (Some (EncryptedShort (replicate 8 6))) (Some [1; 2]))) (Some (replicate 8 7)) = Ok e ∧
    parse_extra_wallet e = mkWParsed (Some (replicate 32 5)) (Some (EncryptedShort (replicate 8 6))) (Some [1; 2]) None (Some (replicate 8 7)).
Proof. apply wallet_extra_roundtrip; try reflexivity. vm_compute. lia. Defined.
