(* ===== verification/Block.v ===== *)
(** Blocks (crates/wrkz-primitives/src/block.rs): the template and its
    merge-mining parent block, their wire format, the hashing blobs, block
    identity and the proof-of-work check. *)
From S2P Require Import Prelude Varint Ser Constants Hashing Cryptonight Tx TxExtra.
Local Open Scope Z_scope.

Definition BLOCK_MAJOR_VERSION_1 : Z := 1.
Definition BLOCK_MAJOR_VERSION_2 : Z := 2.
Definition BLOCK_MAJOR_VERSION_7 : Z := 7.
Definition MAX_BLOCK_MAJOR_VERSION : Z := BLOCK_MAJOR_VERSION_7.

(** [p_base_transaction] is the prefix of the parent coinbase, [p_tag] the tag
    cached from its [extra]. *)
Record ParentBlock := mkParent {
  p_major : Z; p_minor : Z; p_previous : Hash; p_count : Z; p_branch : list Hash;
  p_base_transaction : TransactionPrefix; p_blockchain_branch : list Hash; p_tag : option MergeMiningTag }.

Record BlockTemplate := mkBlock {
  major_version : Z; minor_version : Z; timestamp : Z; previous_block_hash : Hash; b_nonce : Z;
  parent_block : option ParentBlock; base_transaction : Transaction; transaction_hashes : list Hash }.

Module ParentBlock.

Definition new (major minor : Z) (previous : Hash) (count : Z) (branch : list Hash)
    (base : TransactionPrefix) (blockchain_branch : list Hash) : ParentBlock :=
  mkParent major minor previous count branch base blockchain_branch
    (merge_mining_tag (parse_extra (extra base))).

(** The structural checks that precede the first byte. *)
Definition check (pb : ParentBlock) (header_only : bool) : result Error unit :=
  if p_count pb <? 1 then Err (Malformed "parent numberOfTransactions")
  else if negb (length (p_branch pb) =? tree_depth (Z.to_nat (p_count pb)))%nat
  then Err (Malformed "miner transaction branch size")
  else if header_only then Ok ()
  else
    tag ← ok_or (Malformed "merge mining tag missing") (p_tag pb);
    if 256 <? depth tag then Err (Malformed "merge mining tag depth")
    else if negb (depth tag =? Z.of_nat (length (p_blockchain_branch pb)))
    then Err (Malformed "blockchain branch size != mm depth")
    else Ok ().

Section Write.
Context `{C : Crypto}.

Definition write (w : bytes) (pb : ParentBlock) (block_timestamp block_nonce : Z) (hashing header_only : bool)
    : result Error bytes :=
  _ ← check pb header_only;
  let w := Writer.varint (Writer.varint w (p_major pb)) (p_minor pb) in
  let w := Writer.varint w block_timestamp in
  let w := Writer.raw w (p_previous pb) in
  let w := Writer.u32_le w block_nonce in
  let w := if hashing
           then Writer.raw w (tree_hash_from_branch (p_branch pb) (BaseTransaction.hash (p_base_transaction pb)))
           else w in
  let w := Writer.varint w (p_count pb) in
  if header_only then Ok w
  else
    let w := foldl Writer.raw w (p_branch pb) in
    let w := BaseTransaction.write w (p_base_transaction pb) in
    Ok (foldl Writer.raw w (p_blockchain_branch pb)).

End Write.

Definition read : Parser (ParentBlock * Z * Z) :=
  major ← Reader.varint_bits 8;
  minor ← Reader.varint_bits 8;
  timestamp ← Reader.varint;
  previous ← Reader.hash;
  nonce ← Reader.u32_le;
  tx_num ← Reader.varint_bits 16;
  if tx_num <? 1 then Ser.fail (Malformed "parent numberOfTransactions")
  else
    branch ← read_n (tree_depth (Z.to_nat tx_num)) Reader.hash;
    base ← BaseTransaction.read;
    match merge_mining_tag (parse_extra (extra base)) with
    | None => Ser.fail (Malformed "merge mining tag missing")
    | Some tag =>
        if 256 <? depth tag then Ser.fail (Malformed "merge mining tag depth")
        else
          blockchain_branch ← read_n (Z.to_nat (depth tag)) Reader.hash;
          mret (mkParent major minor previous tx_num branch base blockchain_branch (Some tag), timestamp, nonce)
    end.

End ParentBlock.

(** [hash_as_object] *)
Definition hash_as_object `{C : Crypto} (blob : bytes) : Hash :=
  cn_fast_hash (varint.encode (Z.of_nat (length blob)) ++ blob).

Module BlockTemplate.

Definition write_header (w : bytes) (b : BlockTemplate) : bytes :=
  let w := Writer.varint (Writer.varint w (major_version b)) (minor_version b) in
  if major_version b =? BLOCK_MAJOR_VERSION_1 then
    Writer.u32_le (Writer.raw (Writer.varint w (timestamp b)) (previous_block_hash b)) (b_nonce b)
  else Writer.raw w (previous_block_hash b).

Definition read : Parser BlockTemplate :=
  major ← Reader.varint_bits 8;
  if (major =? 0) || (MAX_BLOCK_MAJOR_VERSION <? major) then Ser.fail (Malformed "block major version")
  else
    minor ← Reader.varint_bits 8;
    '(ts, prev, nonce, parent) ←
      (if major =? BLOCK_MAJOR_VERSION_1 then
         ts ← Reader.varint;
         prev ← Reader.hash;
         nonce ← Reader.u32_le;
         mret (ts, prev, nonce, None)
       else
         prev ← Reader.hash;
         '(pb, ts, nonce) ← ParentBlock.read;
         mret (ts, prev, nonce, Some pb));
    base ← Transaction.read;
    n ← Reader.count 32;
    hashes ← read_n n Reader.hash;
    mret (mkBlock major minor ts prev nonce parent base hashes).

Definition from_bytes (data : bytes) : result Error BlockTemplate := parse_all read data.

Section Hashing.
Context `{C : Crypto}.

Definition to_bytes (b : BlockTemplate) : result Error bytes :=
  if (major_version b =? 0) || (MAX_BLOCK_MAJOR_VERSION <? major_version b)
  then Err (Malformed "block major version")
  else
    let w := write_header [] b in
    w ← (if BLOCK_MAJOR_VERSION_2 <=? major_version b then
           pb ← ok_or (Malformed "parent block missing") (parent_block b);
           ParentBlock.write w pb (timestamp b) (b_nonce b) false false
         else Ok w);
    w ← Transaction.write w (base_transaction b);
    let w := Writer.varint w (Z.of_nat (length (transaction_hashes b))) in
    Ok (foldl Writer.raw w (transaction_hashes b)).

Definition all_transaction_hashes (b : BlockTemplate) : result Error (list Hash) :=
  h ← Transaction.hash (base_transaction b);
  Ok (h :: transaction_hashes b).

(** [tree_hash] panics on an empty list only, which this one is not. *)
Definition transaction_tree_hash (b : BlockTemplate) : result Error Hash :=
  hs ← all_transaction_hashes b;
  Ok (default [] (tree_hash hs)).

Definition header_hashing_blob (b : BlockTemplate) : result Error bytes :=
  let w := write_header [] b in
  root ← transaction_tree_hash b;
  Ok (Writer.varint (Writer.raw w root) (Z.of_nat (length (transaction_hashes b)) + 1)).

Definition parent_hashing_blob (b : BlockTemplate) (header_only : bool) : result Error bytes :=
  pb ← ok_or (Malformed "parent block missing") (parent_block b);
  ParentBlock.write [] pb (timestamp b) (b_nonce b) true header_only.

Definition auxiliary_header_hash (b : BlockTemplate) : result Error Hash :=
  blob ← header_hashing_blob b;
  Ok (hash_as_object blob).

Definition hash (b : BlockTemplate) : result Error Hash :=
  blob ← header_hashing_blob b;
  blob ← (if BLOCK_MAJOR_VERSION_2 <=? major_version b
          then pblob ← parent_hashing_blob b false; Ok (blob ++ pblob)
          else Ok blob);
  Ok (hash_as_object blob).

Definition pow_input (b : BlockTemplate) : result Error bytes :=
  if major_version b =? BLOCK_MAJOR_VERSION_1 then header_hashing_blob b else parent_hashing_blob b true.

(** On a scratchpad, which the value does not depend on; [None] is a panic. *)
Definition pow_hash (b : BlockTemplate) (SCRATCHPAD : list (list Z)) : option (result Error Hash) :=
  match pow_input b with
  | Err e => Some (Err e)
  | Ok input =>
      '(h, _) ← pow_hash_for_block_version (major_version b) input SCRATCHPAD;
      Some (ok_or (Malformed "no PoW for this block version") h)
  end.

Definition validate_parent_block (b : BlockTemplate) : result Error bool :=
  if major_version b <? BLOCK_MAJOR_VERSION_2 then Ok true
  else
    pb ← ok_or (Malformed "parent block missing") (parent_block b);
    if (major_version b =? BLOCK_MAJOR_VERSION_2) && (BLOCK_MAJOR_VERSION_1 <? p_major pb) then Ok false
    else
      w ← ParentBlock.write [] pb (timestamp b) (b_nonce b) false false;
      Ok (length w <=? 2048)%nat.

End Hashing.

Definition coinbase_output_total (b : BlockTemplate) : option Z :=
  TransactionPrefix.sum_outputs (prefix (base_transaction b)).

Definition coinbase_height (b : BlockTemplate) : option Z :=
  match inputs (prefix (base_transaction b)) with [Base block_index] => Some block_index | _ => None end.

End BlockTemplate.

(** * The genesis block *)

Definition GENESIS_COINBASE_TX : bytes :=
  to_be_bytes 157 0x012801ff00038090cad2c60e02484ab563a5ec4cb8aa159b878e4ca0a417e7258ec4fd338128059f2b7193dcaa8090cad2c60e02655ed6ab140ef3ca45d8d913125b8bc8917c590af4d1b9d7b4a67396e4a764088090cad2c60e020e06bf1587f9768cfd735a95e8254e98c68604f690e699f8403058422ede04282101c47eee4cfef6f30b5368d0251ad66a5800e2f0b2b70a4a3034c7bba3c5d0d6e0.

(** [expect]: [None] is the panic. *)
Definition expect {E A} (r : result E A) : option A := match r with Ok a => Some a | Err _ => None end.

Definition genesis_block : option BlockTemplate :=
  (λ t, mkBlock BLOCK_MAJOR_VERSION_1 0 0 (replicate 32 0) GENESIS_NONCE None t [])
    <$> expect (Transaction.from_bytes GENESIS_COINBASE_TX).

Definition genesis_block_hash `{C : Crypto} : Hash :=
  default [] (genesis_block ≫= λ b, expect (BlockTemplate.hash b)).

(** * The proof-of-work check *)

Definition check_proof_of_work_with `{C : Crypto} (b : BlockTemplate) (pow_hash : Hash) (difficulty : Z)
    : result Error bool :=
  if negb (check_hash pow_hash difficulty) then Ok false
  else if major_version b =? BLOCK_MAJOR_VERSION_1 then Ok true
  else
    pb ← ok_or (Malformed "parent block missing") (parent_block b);
    match p_tag pb with
    | None => Ok false
    | Some tag =>
        if (256 <? length (p_blockchain_branch pb))%nat then Ok false
        else
          aux ← BlockTemplate.auxiliary_header_hash b;
          let root := tree_hash_from_branch_with_path (p_blockchain_branch pb) aux (Some genesis_block_hash) in
          Ok (bool_decide (root = merkle_root tag))
    end.

Definition check_proof_of_work `{C : Crypto} (b : BlockTemplate) (difficulty : Z) (SCRATCHPAD : list (list Z))
    : option (result Error bool) :=
  h ← BlockTemplate.pow_hash b SCRATCHPAD;
  Some (h ≫= λ h, check_proof_of_work_with b h difficulty).

(** The embedded coinbase parses, pays the genesis reward, and claims height 0. *)
Example genesis_block_parses :
  ∃ b, genesis_block = Some b ∧ BlockTemplate.coinbase_height b = Some 0 ∧
    BlockTemplate.coinbase_output_total b = Some GENESIS_BLOCK_REWARD.
Proof. eexists. split; [vm_compute; reflexivity | split; vm_compute; reflexivity]. Qed.

(** * Encodings *)

(** [ign] is the varint that follows a foreign coinbase of version 2 or more. *)
Definition enc_base (ign : Z) (p : TransactionPrefix) : bytes :=
  enc_prefix p ++ (if 2 <=? version p then varint.encode ign else []).

Definition enc_parent (ign : Z) (pb : ParentBlock) (ts nonce : Z) : bytes :=
  varint.encode (p_major pb) ++ varint.encode (p_minor pb) ++ varint.encode ts ++ p_previous pb ++
  to_le_bytes 4 nonce ++ varint.encode (p_count pb) ++ concat (p_branch pb) ++
  enc_base ign (p_base_transaction pb) ++ concat (p_blockchain_branch pb).

Definition enc_header (ign : Z) (b : BlockTemplate) : bytes :=
  if major_version b =? BLOCK_MAJOR_VERSION_1
  then varint.encode (timestamp b) ++ previous_block_hash b ++ to_le_bytes 4 (b_nonce b)
  else previous_block_hash b ++
       match parent_block b with Some pb => enc_parent ign pb (timestamp b) (b_nonce b) | None => [] end.

Definition enc_block (ign : Z) (b : BlockTemplate) : bytes :=
  varint.encode (major_version b) ++ varint.encode (minor_version b) ++ enc_header ign b ++
  enc_transaction (base_transaction b) ++
  varint.encode (Z.of_nat (length (transaction_hashes b))) ++ concat (transaction_hashes b).

Record wf_parent (pb : ParentBlock) : Prop := {
  wfp_major : is_u8 (p_major pb);
  wfp_minor : is_u8 (p_minor pb);
  wfp_prev : is_hash (p_previous pb);
  wfp_count : is_u16 (p_count pb) ∧ 1 ≤ p_count pb;
  wfp_branch : Forall is_hash (p_branch pb);
  wfp_depth : length (p_branch pb) = tree_depth (Z.to_nat (p_count pb));
  wfp_base : wf_prefix (p_base_transaction pb);
  wfp_tag : p_tag pb = merge_mining_tag (parse_extra (extra (p_base_transaction pb)));
  wfp_chain : ∃ tag, p_tag pb = Some tag ∧ Z.of_nat (length (p_blockchain_branch pb)) = depth tag ∧ depth tag ≤ 256;
  wfp_chain_branch : Forall is_hash (p_blockchain_branch pb)
}.

Record wf_block (b : BlockTemplate) : Prop := {
  wfb_major : 1 ≤ major_version b ≤ MAX_BLOCK_MAJOR_VERSION;
  wfb_minor : is_u8 (minor_version b);
  wfb_ts : is_u64 (timestamp b);
  wfb_prev : is_hash (previous_block_hash b);
  wfb_nonce : is_u32 (b_nonce b);
  wfb_parent : match parent_block b with
               | Some pb => major_version b ≠ BLOCK_MAJOR_VERSION_1 ∧ wf_parent pb
               | None => major_version b = BLOCK_MAJOR_VERSION_1
               end;
  wfb_base : wf_transaction (base_transaction b);
  wfb_n : is_u64 (Z.of_nat (length (transaction_hashes b)));
  wfb_hashes : Forall is_hash (transaction_hashes b)
}.

(** ** Writing *)

Lemma u16_u64 v : is_u16 v → is_u64 v.
Proof. by apply in_u_mono. Qed.

Section WriteEnc.
Context `{C : Crypto}.

Lemma write_base_enc w p : wf_prefix p → BaseTransaction.write w p = w ++ enc_base 0 p.
Proof.
  intros Hp. unfold BaseTransaction.write, enc_base. rewrite write_prefix_enc by done.
  destruct (2 <=? version p); [by rewrite Writer_varint, <- app_assoc | by rewrite app_nil_r].
Qed.

Lemma parent_check_ok pb : wf_parent pb → ParentBlock.check pb false = Ok ().
Proof.
  intros [? ? ? [? ?] ? Hd ? ? (tag&Htag&Hl&H256) ?]. unfold ParentBlock.check.
  destruct (_ <? 1) eqn:E; bool_hyps; [lia|]. rewrite Hd, Nat.eqb_refl, Htag. simpl.
  destruct (256 <? _) eqn:E2; bool_hyps; [lia|]. by rewrite Hl, Z.eqb_refl.
Qed.

Lemma write_parent_enc w pb ts nonce : wf_parent pb → is_u64 ts →
  ParentBlock.write w pb ts nonce false false = Ok (w ++ enc_parent 0 pb ts nonce).
Proof.
  intros Hwf Hts. unfold ParentBlock.write. rewrite parent_check_ok by done. destruct Hwf as [? ? ? [? ?] ? ? ? ? ? ?].
  cbn [mbind result_bind]. f_equal. rewrite !foldl_raw, write_base_enc by done.
  unfold Writer.raw, Writer.u32_le. rewrite !Writer_varint by auto using u8_u64, u16_u64.
  unfold enc_parent. by rewrite <- !app_assoc.
Qed.

Lemma to_bytes_enc_block b : wf_block b → BlockTemplate.to_bytes b = Ok (enc_block 0 b).
Proof.
  intros [Hmaj ? ? ? ? Hpar ? ? ?]. unfold BlockTemplate.to_bytes.
  assert (is_u64 (major_version b)) by (unfold in_u; unfold MAX_BLOCK_MAJOR_VERSION, BLOCK_MAJOR_VERSION_7 in Hmaj; lia).
  destruct (_ || _) eqn:E; [apply orb_true_iff in E as [E|E]; bool_hyps; lia|].
  assert (BlockTemplate.write_header [] b = (varint.encode (major_version b) ++ varint.encode (minor_version b)) ++
    (if major_version b =? BLOCK_MAJOR_VERSION_1 then varint.encode (timestamp b) ++ previous_block_hash b ++ to_le_bytes 4 (b_nonce b)
     else previous_block_hash b)) as ->.
  { unfold BlockTemplate.write_header. rewrite !Writer_varint by auto using u8_u64. unfold Writer.raw, Writer.u32_le.
    case_bool; by rewrite <- ?app_assoc. }
  unfold enc_block, enc_header. unfold BLOCK_MAJOR_VERSION_1, BLOCK_MAJOR_VERSION_2 in *.
  destruct (parent_block b) as [pb|].
  - destruct Hpar as [Hne Hpar]. destruct (_ =? 1) eqn:E1; bool_hyps; [done|].
    destruct (2 <=? _) eqn:E2; bool_hyps; [|lia]. cbn [mbind result_bind ok_or].
    rewrite write_parent_enc by done. cbn [mbind result_bind]. rewrite transaction_write_enc by done. cbn [mbind result_bind].
    rewrite foldl_raw, Writer_varint by done. by rewrite <- !app_assoc.
  - rewrite Hpar. change (1 =? 1) with true. change (2 <=? 1) with false. cbn [mbind result_bind]. cbv iota.
    rewrite transaction_write_enc by done. cbn [mbind result_bind].
    rewrite foldl_raw, Writer_varint by done. by rewrite <- !app_assoc.
Qed.

End WriteEnc.

(** ** Reading *)

Lemma emits_hashes n l k : Forall is_hash l → n = length l → emits (read_n n Reader.hash) l (concat l) k.
Proof.
  intros Hl ->. replace (concat l) with (concat (map id l)) by (by rewrite map_id).
  apply (emits_read_n _ id). rewrite Forall_forall in Hl. intros a k' Ha. apply emits_hash, Hl, Ha.
Qed.

Lemma accepts_hash : accepts Reader.hash is_hash id.
Proof. intros r h r' Hr H. by apply hash_Ok. Qed.

Lemma emits_base ign p k : wf_prefix p → is_u64 ign → emits BaseTransaction.read p (enc_base ign p) k.
Proof.
  intros Hp Hi. unfold BaseTransaction.read, enc_base. eapply emits_bind; [by apply emits_prefix_any|].
  destruct (2 <=? version p); [|apply emits_ret]. by apply (emits_last _ (λ _, p) ign), emits_varint.
Qed.

Lemma accepts_base r p r' : wf_reader r → BaseTransaction.read r = Ok (p, r') →
  wf_prefix p ∧ ∃ ign, is_u64 ign ∧ consumed r (enc_base ign p) r'.
Proof.
  intros Hr H. unfold BaseTransaction.read in H. parse_step H accepts_prefix_any p1 Hp1.
  unfold enc_base. destruct (2 <=? version p1) eqn:E in H.
  - parse_step H varint_Ok ign Hi. injection H as <- <-. split; [done|]. exists ign. rewrite E. split; [done|]. consumed_steps.
  - injection H as <- <-. split; [done|]. exists 0. rewrite E, app_nil_r. done.
Qed.

Lemma read_loop_nonneg bs bits value shift i v n : 0 ≤ value →
  varint.read_loop bs bits value shift i = Ok (v, n) → 0 ≤ v.
Proof.
  revert value shift i. induction bs as [|b bs IH]; intros value shift i Hv H; simpl in H; [done|].
  assert (0 ≤ Z.lor value (wrap 64 (Z.shiftl (Z.land b 127) shift))).
  { apply Z.lor_nonneg. split; [done|]. apply Z.mod_pos_bound. lia. }
  repeat case_match; simplify_res; try done. by eapply IH.
Qed.

Lemma read_nonneg bs v n : varint.read bs = Ok (v, n) → 0 ≤ v.
Proof. by apply read_loop_nonneg. Qed.

Lemma parse_extra_depth ex tag : merge_mining_tag (parse_extra ex) = Some tag → 0 ≤ depth tag.
Proof.
  unfold parse_extra. set (out := mkParsed None None None None true).
  assert (∀ t, merge_mining_tag out = Some t → 0 ≤ depth t) as Hout by done.
  generalize (length ex). generalize dependent out. intros out Hout fuel.
  revert out Hout ex. induction fuel as [|fuel IH]; intros out Hout [|t rest]; simpl; [by auto..|].
  assert (match parse_field out t rest with
    | Continue o _ | Return o => ∀ t, merge_mining_tag o = Some t → 0 ≤ depth t end) as Hf.
  { unfold parse_field. repeat case_match; simplify_eq/=; intros tg Htg; simplify_eq/=; try by eauto.
    eapply read_nonneg. eassumption. }
  destruct (parse_field out t rest) as [o r|o]; [by apply IH | by apply Hf].
Qed.

Lemma emits_parent ign pb ts nonce k : wf_parent pb → is_u64 ts → is_u32 nonce → is_u64 ign →
  emits ParentBlock.read (pb, ts, nonce) (enc_parent ign pb ts nonce) k.
Proof.
  intros [? ? Hprev [Hc Hc1] Hbr Hd Hbase Htag (tag&Et&Hl&H256) Hcb] Hts Hn Hi.
  destruct pb as [maj mi prev cnt br base cb tg]. simpl in *. unfold ParentBlock.read, enc_parent.
  cbn [p_major p_minor p_previous p_count p_branch p_base_transaction p_blockchain_branch].
  eapply emits_bind; [apply emits_varint_bits; [lia|done]|].
  eapply emits_bind; [apply emits_varint_bits; [lia|done]|].
  eapply emits_bind; [by apply emits_varint|]. eapply emits_bind; [apply emits_hash, Hprev|].
  eapply emits_bind; [by apply emits_u32_le|]. eapply emits_bind; [apply emits_varint_bits; [lia|done]|].
  destruct (cnt <? 1) eqn:E; bool_hyps; [lia|]. eapply emits_bind; [by apply emits_hashes|].
  eapply emits_bind; [by apply emits_base|]. rewrite <- Htag, Et.
  destruct (256 <? _) eqn:E2; bool_hyps; [lia|].
  apply (emits_last _ (λ cb, (mkParent maj mi prev cnt br base cb (Some tag), ts, nonce)) cb), emits_hashes; [done|lia].
Qed.

Lemma accepts_varint_16 : accepts (Reader.varint_bits 16) is_u16 varint.encode.
Proof. intros r v r' Hr H. by apply varint_bits_Ok. Qed.

Lemma accepts_parent r pb ts nonce r' : wf_reader r → ParentBlock.read r = Ok ((pb, ts, nonce), r') →
  wf_parent pb ∧ is_u64 ts ∧ is_u32 nonce ∧ ∃ ign, is_u64 ign ∧ consumed r (enc_parent ign pb ts nonce) r'.
Proof.
  intros Hr H. unfold ParentBlock.read in H.
  parse_step H accepts_varint_8 maj Hmaj. parse_step H accepts_varint_8 mi Hmi. parse_step H varint_Ok t Hts.
  parse_step H hash_Ok prev Hprev. parse_step H u32_le_Ok nn Hnn. parse_step H accepts_varint_16 cnt Hcnt.
  destruct (cnt <? 1) eqn:E in H; bool_hyps; [done|].
  apply Parser_bind_Ok in H as (br & rb & Hbr & H).
  apply (read_n_Ok _ _ _ _ _ _ _ accepts_hash) in Hbr as (Hbr&Hlbr&Hcbr); [|done]. rewrite map_id in Hcbr.
  destruct (consumed_wf _ _ _ Hwf4 Hcbr) as [? _].
  apply Parser_bind_Ok in H as (base & r6 & Hbase & H).
  apply accepts_base in Hbase as (Hbase&ign&Hign&Hcb); [|done]. destruct (consumed_wf _ _ _ ltac:(eassumption) Hcb) as [? _].
  destruct (merge_mining_tag _) as [tag|] eqn:Etag in H; [|done].
  destruct (256 <? depth tag) eqn:E2 in H; bool_hyps; [done|]. pose proof (parse_extra_depth _ _ Etag).
  apply Parser_bind_Ok in H as (cb & r7 & Hcc & H).
  apply (read_n_Ok _ _ _ _ _ _ _ accepts_hash) in Hcc as (Hcc&Hlcc&Hccc); [|done]. rewrite map_id in Hccc.
  injection H as <- <- <- <-. split_and!; [|done|done|].
  - constructor; simpl; try done. exists tag. split_and!; [done|lia|lia].
  - exists ign. split; [done|]. unfold enc_parent.
    cbn [p_major p_minor p_previous p_count p_branch p_base_transaction p_blockchain_branch]. consumed_steps.
Qed.

(** ** Whole blocks *)

Lemma emits_block ign b k : wf_block b → is_u64 ign → emits BlockTemplate.read b (enc_block ign b) k.
Proof.
  intros [Hmaj Hmin Hts Hprev Hnonce Hpar Hbase Hn Hhs] Hi.
  destruct b as [maj mi ts prev nonce par base hs].
  cbn [major_version minor_version timestamp previous_block_hash b_nonce parent_block base_transaction transaction_hashes] in *.
  unfold BlockTemplate.read, enc_block, enc_header.
  cbn [major_version minor_version timestamp previous_block_hash b_nonce parent_block base_transaction transaction_hashes].
  eapply emits_bind; [apply emits_varint_bits; [lia|unfold in_u; unfold MAX_BLOCK_MAJOR_VERSION, BLOCK_MAJOR_VERSION_7 in Hmaj; lia]|].
  destruct (_ || _) eqn:E; [apply orb_true_iff in E as [E|E]; bool_hyps; lia|].
  eapply emits_bind; [apply emits_varint_bits; [lia|done]|].
  eapply (emits_bind _ _ (ts, prev, nonce, par)).
  - destruct par as [pb|].
    + destruct Hpar as [Hne Hpb]. apply Z.eqb_neq in Hne. rewrite Hne.
      eapply emits_bind; [apply emits_hash, Hprev|].
      rewrite <- (app_nil_r (enc_parent _ _ _ _)).
      eapply (emits_bind _ _ (pb, ts, nonce)); [by apply emits_parent | apply emits_ret].
    + rewrite Hpar. simpl (_ =? _). cbv iota. eapply emits_bind; [by apply emits_varint|].
      eapply emits_bind; [apply emits_hash, Hprev|].
      by apply (emits_last _ (λ nonce, (ts, prev, nonce, None)) nonce), emits_u32_le.
  - cbv beta iota. eapply emits_bind; [by apply emits_transaction|].
    eapply emits_bind; [apply emits_count; [apply Hn|]|].
    + rewrite length_app. pose proof (length_concat_ge (@id Hash) 32 hs) as Hl. rewrite map_id in Hl.
      rewrite Forall_forall in Hhs. specialize (Hl ltac:(intros a Ha; destruct (Hhs a Ha) as [_ Hla]; unfold id; lia)). simpl Nat.max. lia.
    + apply (emits_last _ (mkBlock maj mi ts prev nonce par base) hs). by apply emits_hashes.
Qed.

Lemma accepts_block r b r' : wf_reader r → BlockTemplate.read r = Ok (b, r') →
  wf_block b ∧ ∃ ign, is_u64 ign ∧ consumed r (enc_block ign b) r'.
Proof.
  intros Hr H. unfold BlockTemplate.read in H. parse_step H accepts_varint_8 maj Hmaj.
  destruct (_ || _) eqn:E in H; [done|]. apply orb_false_elim in E as [E0 E7]. bool_hyps.
  parse_step H accepts_varint_8 mi Hmi. apply Parser_bind_Ok in H as ([[[ts prev] nonce] par] & r2 & Hh & H).
  assert (∃ ign, is_u64 ign ∧ is_u64 ts ∧ is_hash prev ∧ is_u32 nonce ∧
    match par with Some pb => maj ≠ BLOCK_MAJOR_VERSION_1 ∧ wf_parent pb | None => maj = BLOCK_MAJOR_VERSION_1 end ∧
    ∀ base hs, consumed r1 (enc_header ign (mkBlock maj mi ts prev nonce par base hs)) r2) as (ign&Hign&Hts&Hprev&Hnonce&Hpar&Hc2).
  { unfold enc_header. cbn [major_version timestamp previous_block_hash b_nonce parent_block].
    destruct (maj =? BLOCK_MAJOR_VERSION_1) eqn:E1; bool_hyps.
    - parse_step Hh varint_Ok t Ht. parse_step Hh hash_Ok p Hp. parse_step Hh u32_le_Ok n Hn. injection Hh as <- <- <- <- <-.
      exists 0. split_and!; try done. intros _ _. consumed_steps.
    - parse_step Hh hash_Ok p Hp. apply Parser_bind_Ok in Hh as ([[pb t] n] & r4 & Hpb & Hh). injection Hh as <- <- <- <- <-.
      apply accepts_parent in Hpb as (Hpb&Ht&Hn&ign&Hign&Hcp); [|done]. exists ign. split_and!; try done.
      intros _ _. consumed_steps. }
  specialize (Hc2 (mkTransaction (mkPrefix 0 0 [] [] []) []) []) as Hc2'.
  destruct (consumed_wf _ _ _ ltac:(eassumption) Hc2') as [? _]. clear Hc2'.
  parse_step H accepts_transaction base Hbase. parse_step H count_Ok n Hn. parse_many H accepts_hash hs Hhs.
  injection H as <- <-. rewrite map_id in *. split.
  - unfold MAX_BLOCK_MAJOR_VERSION, BLOCK_MAJOR_VERSION_7 in *. unfold in_u in Hmaj. constructor; simpl; try done. unfold MAX_BLOCK_MAJOR_VERSION, BLOCK_MAJOR_VERSION_7. lia.
  - exists ign. split; [done|]. unfold enc_block. specialize (Hc2 base hs).
    cbn [major_version minor_version base_transaction transaction_hashes]. consumed_steps.
Qed.

(** No parent coinbase of version 2 or more: such a one is followed by a varint
    that is read and dropped, and written back as zero. *)
Definition no_foreign_v2 (b : BlockTemplate) : Prop :=
  match parent_block b with Some pb => version (p_base_transaction pb) < 2 | None => True end.

Lemma enc_block_ign ign b : no_foreign_v2 b → enc_block ign b = enc_block 0 b.
Proof.
  intros Hb. unfold enc_block, enc_header, no_foreign_v2 in *. destruct (parent_block b) as [pb|]; [|done].
  unfold enc_parent, enc_base. destruct (2 <=? version _) eqn:E; bool_hyps; [lia|done].
Qed.

Section BlockCodec.
Context `{C : Crypto}.

(** C35. The block codec. What [to_bytes] writes for a well-formed block is read
    back as that block; what [from_bytes] accepts is well formed, its cached
    merge-mining tag is the one of the parent coinbase, and unless the parent
    coinbase is a foreign one of version 2 or more, writing it again gives the
    very bytes that were read. *)
Theorem block_codec (data : bytes) (b : BlockTemplate) : is_bytes data →
  (wf_block b ∧ BlockTemplate.to_bytes b = Ok data → BlockTemplate.from_bytes data = Ok b) ∧
  (BlockTemplate.from_bytes data = Ok b →
   wf_block b ∧ (no_foreign_v2 b → BlockTemplate.to_bytes b = Ok data)).
Proof.
  intros Hd. split.
  - intros [Hwf Hb]. rewrite to_bytes_enc_block in Hb by done. injection Hb as <-.
    apply parse_all_emits, emits_block; [done|]. by split.
  - intros H. apply parse_all_Ok in H as (r & Hr & Hpos).
    apply accepts_block in Hr as (Hwf & ign & Hign & Hc & Hadv); [|split; [done | simpl; lia]].
    split; [done|]. intros Hf. rewrite to_bytes_enc_block by done. f_equal.
    rewrite <- (enc_block_ign ign) by done. unfold rest in Hc at 2. rewrite drop_ge, app_nil_r in Hc by lia. by symmetry.
Qed.

(** * Merge mining against oneself *)

(** The template a daemon serves: a parent block whose coinbase carries nothing
    but the merge-mining tag of the block's own header, with an empty branch. *)
Definition self_parent (aux : Hash) (cnt : Z) (branch : list Hash) : ParentBlock :=
  ParentBlock.new 0 0 (replicate 32 0) cnt branch
    (mkPrefix 0 0 [] [] (append_merge_mining_tag [] (mkMMTag 0 aux))) [].

Definition with_parent (b : BlockTemplate) (pb : ParentBlock) : BlockTemplate :=
  mkBlock (major_version b) (minor_version b) (timestamp b) (previous_block_hash b) (b_nonce b)
    (Some pb) (base_transaction b) (transaction_hashes b).

(** The hash the merge-mining tag commits to does not depend on the parent
    block, so a template can carry the tag of its own header; such a block
    passes the proof-of-work check exactly when its hash meets the difficulty. *)
Theorem self_merge_mined_pow (b : BlockTemplate) (aux pow : Hash) (difficulty cnt : Z) (branch : list Hash) :
  BlockTemplate.auxiliary_header_hash b = Ok aux → length aux = 32%nat →
  check_proof_of_work_with (with_parent b (self_parent aux cnt branch)) pow difficulty = Ok (check_hash pow difficulty).
Proof.
  intros Haux Hl. unfold check_proof_of_work_with.
  assert (BlockTemplate.auxiliary_header_hash (with_parent b (self_parent aux cnt branch)) = Ok aux) as -> by done.
  destruct (check_hash pow difficulty); [|done]. cbn [negb].
  destruct (major_version _ =? _); [done|]. unfold with_parent. cbn [parent_block ok_or mbind result_bind].
  unfold self_parent, ParentBlock.new. cbn [p_tag extra p_blockchain_branch].
  rewrite parse_append_merge_mining_tag; [|by split|done]. cbn [merge_mining_tag length Nat.ltb Nat.leb].
  cbn [mbind result_bind]. simpl tree_hash_from_branch_with_path. by rewrite bool_decide_true.
Qed.

End BlockCodec.

Lemma block_codec_witness :
  ∃ b data, genesis_block = Some b ∧ BlockTemplate.to_bytes (C:=toy_crypto) b = Ok data ∧
    BlockTemplate.from_bytes data = Ok b.
Proof.
  eexists. eexists. split; [vm_compute; reflexivity|]. split; [vm_compute; reflexivity|].
  eapply (proj1 (block_codec (C:=toy_crypto) _ _ _)). split; [|vm_compute; reflexivity].
  constructor; repeat first [split | constructor]; vm_compute; congruence.
  Unshelve. repeat constructor; vm_compute; congruence.
Defined.

Lemma self_merge_mined_pow_witness :
  ∃ aux, BlockTemplate.auxiliary_header_hash (C:=toy_crypto) (mkBlock 7 0 0 (replicate 32 0) 0 None sample_coinbase []) = Ok aux ∧
    check_proof_of_work_with (C:=toy_crypto)
      (with_parent (mkBlock 7 0 0 (replicate 32 0) 0 None sample_coinbase []) (self_parent aux 1 []))
      (replicate 32 0) 1000 = Ok (check_hash (replicate 32 0) 1000).
Proof.
  eexists. split; [vm_compute; reflexivity|].
  apply (self_merge_mined_pow (C:=toy_crypto)); vm_compute; reflexivity.
Defined.
