(* ===== verification/Base58.v ===== *)
(** CryptoNote base58 and addresses (crates/wrkz-primitives/src/base58.rs).
    Strings are their bytes. *)
From S2P Require Import Prelude Constants Varint Hashing.
Local Open Scope Z_scope.

Definition ALPHABET : bytes := ascii_bytes "123456789ABCDEFGHJKLMNPQRSTUVWXYZabcdefghijkmnopqrstuvwxyz".
Definition FULL_BLOCK_SIZE : nat := 8.
Definition FULL_ENCODED_BLOCK_SIZE : nat := 11.
Definition ENCODED_BLOCK_SIZES : list nat := [0; 2; 3; 5; 6; 7; 9; 10; 11]%nat.
Definition ADDR_CHECKSUM_SIZE : nat := 4.
Definition STANDARD_ADDRESS_LENGTH : nat := 98.
Definition INTEGRATED_ADDRESS_LENGTH : nat := 120.
Definition INTEGRATED_ADDRESS_LENGTH_LONG : nat := 186.

Inductive Base58Error : Type :=
| InvalidCharacter (position : nat) (character : Z)
| InvalidLength (n : nat)
| BlockOverflow
| TooShort
| BadChecksum
| BadTag
| WrongPrefix (tag : Z)
| WrongAddressLength (n : nat)
| WrongPayloadLength (n : nat)
| BadPaymentId
| BadPublicKey.

(** [iter().position(|a| a == c)] *)
Fixpoint position {A} `{EqDecision A} (c : A) (l : list A) : option nat :=
  match l with
  | [] => None
  | a :: l => if decide (a = c) then Some 0%nat else S <$> position c l
  end.

Definition reverse_char (c : Z) : option Z := Z.of_nat <$> position c ALPHABET.

(** The slots of [out] from the last one to the first. *)
Fixpoint encode_slots (n : nat) (num : Z) (out : bytes) : bytes :=
  match n with
  | O => out
  | S n => encode_slots n (num / 58) (ALPHABET !!! Z.to_nat (num mod 58) :: out)
  end.

Definition encode_block (block : bytes) (n : nat) : bytes :=
  let num := foldl (λ num b, Z.lor (wrap 64 (Z.shiftl num 8)) b) 0 block in
  encode_slots n num [].

Definition encode (data : bytes) : bytes :=
  match data with
  | [] => []
  | _ =>
      let full := (length data / FULL_BLOCK_SIZE)%nat in
      let last := (length data mod FULL_BLOCK_SIZE)%nat in
      concat (map (λ i, encode_block (slice data (i * 8) 8) 11) (seq 0 full)) ++
      (if (0 <? last)%nat then encode_block (drop (full * 8) data) (ENCODED_BLOCK_SIZES !!! last) else [])
  end.

(** The loop of [decode_block], over the characters from the last to the first;
    [i] is the number of characters before the current one. *)
Fixpoint decode_loop (rev_block : bytes) (offset : nat) (num order : Z) : result Base58Error Z :=
  match rev_block with
  | [] => Ok num
  | c :: rest =>
      d ← ok_or (InvalidCharacter (offset + length rest) c) (reverse_char c);
      let num := num + order * d in
      if u64_max <? num then Err BlockOverflow
      else decode_loop rest offset num (order * 58)
  end.

Definition decode_block (block : bytes) (res_size offset : nat) : result Base58Error bytes :=
  num ← decode_loop (reverse block) offset 0 1;
  if (res_size <? FULL_BLOCK_SIZE)%nat && (Z.shiftl 1 (8 * Z.of_nat res_size) <=? num) then Err BlockOverflow
  else Ok (drop (8 - res_size) (to_be_bytes 8 num)).

(** [for i in ..  { out.extend(f(i)?) }] *)
Fixpoint try_map {E A B} (f : A → result E B) (l : list A) : result E (list B) :=
  match l with
  | [] => Ok []
  | a :: l => b ← f a; bs ← try_map f l; Ok (b :: bs)
  end.

Definition decode (s : bytes) : result Base58Error bytes :=
  match s with
  | [] => Ok []
  | _ =>
      let full := (length s / FULL_ENCODED_BLOCK_SIZE)%nat in
      let last := (length s mod FULL_ENCODED_BLOCK_SIZE)%nat in
      last_decoded ← (if (last =? 0)%nat then Ok 0%nat
                      else ok_or (InvalidLength (length s)) (position last ENCODED_BLOCK_SIZES));
      blocks ← try_map (λ i, decode_block (slice s (i * 11) 11) FULL_BLOCK_SIZE (i * 11)) (seq 0 full);
      tail ← (if (0 <? last)%nat then decode_block (drop (full * 11) s) last_decoded (full * 11) else Ok []);
      Ok (concat blocks ++ tail)
  end.

Record Address := mkAddress {
  spend_public_key : bytes; view_public_key : bytes; payment_id : option bytes }.

Definition is_ascii_hexdigit (c : Z) : bool :=
  (48 <=? c) && (c <=? 57) || (97 <=? c) && (c <=? 102) || (65 <=? c) && (c <=? 70).

Definition is_integrated_address (addr : bytes) : bool :=
  (length addr =? INTEGRATED_ADDRESS_LENGTH)%nat || (length addr =? INTEGRATED_ADDRESS_LENGTH_LONG)%nat.

Section Addresses.
Context `{C : Crypto}.

Definition encode_addr (tag : Z) (data : bytes) : bytes :=
  let buf := varint.encode tag ++ data in
  encode (buf ++ take ADDR_CHECKSUM_SIZE (cn_fast_hash buf)).

Definition decode_addr (addr : bytes) : result Base58Error (Z * bytes) :=
  data ← decode addr;
  if (length data <=? ADDR_CHECKSUM_SIZE)%nat then Err TooShort
  else
    let checksum := drop (length data - ADDR_CHECKSUM_SIZE) data in
    let data := take (length data - ADDR_CHECKSUM_SIZE) data in
    if negb (bool_decide (take ADDR_CHECKSUM_SIZE (cn_fast_hash data) = checksum)) then Err BadChecksum
    else
      '(tag, n) ← map_err (λ _, BadTag) (varint.read data);
      Ok (tag, drop n data).

Definition standard_address (spend view : bytes) : bytes :=
  encode_addr CRYPTONOTE_PUBLIC_ADDRESS_BASE58_PREFIX (spend ++ view).

Definition integrated_address (spend view payment_id_hex : bytes) : result Base58Error bytes :=
  if negb ((length payment_id_hex =? 16)%nat || (length payment_id_hex =? 64)%nat) ||
     negb (forallb is_ascii_hexdigit payment_id_hex)
  then Err BadPaymentId
  else Ok (encode_addr CRYPTONOTE_PUBLIC_ADDRESS_BASE58_PREFIX (payment_id_hex ++ spend ++ view)).

(** [str::from_utf8] and the hexadecimal test fail with the same error, and
    hexadecimal digits are valid UTF-8. *)
Definition parse_address (addr : bytes) : result Base58Error Address :=
  '(tag, data) ← decode_addr addr;
  if negb (tag =? CRYPTONOTE_PUBLIC_ADDRESS_BASE58_PREFIX) then Err (WrongPrefix tag)
  else
    pid_len ← (if (length addr =? STANDARD_ADDRESS_LENGTH)%nat then Ok 0%nat
               else if (length addr =? INTEGRATED_ADDRESS_LENGTH)%nat then Ok 16%nat
               else if (length addr =? INTEGRATED_ADDRESS_LENGTH_LONG)%nat then Ok 64%nat
               else Err (WrongAddressLength (length addr)));
    if negb (length data =? pid_len + 64)%nat then Err (WrongPayloadLength (length data))
    else
      payment_id ← (if (0 <? pid_len)%nat then
                      if negb (forallb is_ascii_hexdigit (take pid_len data)) then Err BadPaymentId
                      else Ok (Some (take pid_len data))
                    else Ok None);
      let spend := slice data pid_len 32 in
      let view := drop (pid_len + 32) data in
      if negb (check_key spend) || negb (check_key view) then Err BadPublicKey
      else Ok (mkAddress spend view payment_id).

End Addresses.

(** * Digits *)

Definition char58 (d : Z) : Z := ALPHABET !!! Z.to_nat d.

Lemma position_Some {A} `{EqDecision A} (c : A) l i : position c l = Some i → l !! i = Some c.
Proof.
  revert i. induction l as [|a l IH]; intros i; simpl; [done|]. case_decide; [by intros [= <-]; subst|].
  destruct (position c l) as [j|]; [|done]. intros [= <-]. by apply IH.
Qed.

Lemma reverse_char_Some c d : reverse_char c = Some d ↔ 0 ≤ d < 58 ∧ c = char58 d.
Proof.
  split.
  - unfold reverse_char. destruct (position c ALPHABET) as [i|] eqn:E; [|done]. intros [= <-].
    apply position_Some in E. pose proof (lookup_lt_Some _ _ _ E) as Hi. change (length ALPHABET) with 58%nat in Hi.
    split; [lia|]. unfold char58. rewrite Nat2Z.id. by erewrite list_lookup_total_correct.
  - intros [Hd ->]. assert (forallb (λ d, bool_decide (reverse_char (char58 d) = Some d)) (seqZ 0 58) = true) as H
      by (vm_compute; reflexivity).
    rewrite forallb_forall in H. eapply bool_decide_eq_true_1, H, list_elem_of_In, elem_of_seqZ. lia.
Qed.

(** Base-58 digits, least significant first, and their value. *)
Fixpoint digs (n : nat) (num : Z) : list Z :=
  match n with O => [] | S n => num mod 58 :: digs n (num / 58) end.

Definition le58 (ds : list Z) : Z := foldr (λ d acc, d + 58 * acc) 0 ds.

Definition is_digit (d : Z) : Prop := 0 ≤ d < 58.

Lemma digs_digits n num : Forall is_digit (digs n num) ∧ length (digs n num) = n.
Proof.
  revert num. induction n as [|n IH]; intros num; simpl; [done|]. destruct (IH (num / 58)) as [H1 H2].
  split; [constructor; [apply Z.mod_pos_bound; lia|done] | by f_equal].
Qed.

Lemma le58_digs n num : 0 ≤ num < 58 ^ Z.of_nat n → le58 (digs n num) = num.
Proof.
  revert num. induction n as [|n IH]; intros num Hn; simpl.
  - change (58 ^ Z.of_nat 0) with 1 in Hn. lia.
  - rewrite Nat2Z.inj_succ, Z.pow_succ_r in Hn by lia. fold (le58 (digs n (num / 58))).
    rewrite IH; [pose proof (Z.div_mod num 58); lia|]. split; [apply Z.div_pos; lia | apply Z.div_lt_upper_bound; lia].
Qed.

Lemma le58_nonneg ds : Forall is_digit ds → 0 ≤ le58 ds.
Proof. induction 1 as [|d ds Hd _ IH]; simpl; [lia|]. unfold le58, is_digit in *. lia. Qed.

Lemma digs_le58 ds : Forall is_digit ds → digs (length ds) (le58 ds) = ds.
Proof.
  induction 1 as [|d ds Hd Hds IH]; [done|]. simpl. fold (le58 ds). unfold is_digit in Hd.
  replace (d + 58 * le58 ds) with (d + le58 ds * 58) by lia.
  rewrite Z.mod_add, Z.div_add, Z.mod_small, Z.div_small, Z.add_0_l, IH by lia. done.
Qed.

Lemma encode_slots_digs n num out : encode_slots n num out = map char58 (reverse (digs n num)) ++ out.
Proof.
  revert num out. induction n as [|n IH]; intros num out; [done|]. simpl.
  rewrite IH, reverse_cons, map_app, <- app_assoc. done.
Qed.

Lemma map_reverse {A B} (f : A → B) l : map f (reverse l) = reverse (map f l).
Proof. induction l as [|a l IH]; [done|]. simpl. by rewrite !reverse_cons, map_app, IH. Qed.

(** * One block *)

Lemma decode_loop_Ok rl offset num order v : 0 ≤ num ≤ u64_max → 0 < order →
  decode_loop rl offset num order = Ok v ↔
  ∃ ds, Forall2 (λ c d, is_digit d ∧ c = char58 d) rl ds ∧ v = num + order * le58 ds ∧ v ≤ u64_max.
Proof.
  revert num order. induction rl as [|c rl IH]; intros num order Hn Ho; simpl.
  - split; [intros [= <-]; exists []; simpl; split_and!; [constructor | lia | lia]|].
    intros (ds&Hds&->&_). apply Forall2_nil_inv_l in Hds as ->. simpl. f_equal. lia.
  - rewrite result_bind_Ok. split.
    + intros (d&Hd&H). apply ok_or_Ok, reverse_char_Some in Hd as [Hd ->].
      destruct (_ <? _) eqn:E; bool_hyps; [done|]. apply IH in H as (ds&Hds&->&Hv); [|nia|lia].
      exists (d :: ds). split_and!; [by constructor | simpl; fold (le58 ds); ring | done].
    + intros (ds&Hds&->&Hv). inversion Hds as [|? d ? ds' [Hd ->] Hds']; subst. exists d.
      split; [by apply ok_or_Ok, reverse_char_Some|]. simpl in Hv. fold (le58 ds') in Hv.
      assert (0 ≤ le58 ds') by (apply le58_nonneg; clear -Hds'; induction Hds' as [|??? ? [? _]]; by constructor).
      destruct (_ <? _) eqn:E; bool_hyps; [unfold is_digit in Hd; nia|].
      apply IH; [unfold is_digit in Hd; nia | lia|]. exists ds'. split_and!; [done | simpl; fold (le58 ds'); ring | exact Hv].
Qed.

Lemma from_be_bytes_cons x b : from_be_bytes (x :: b) = x * 256 ^ Z.of_nat (length b) + from_be_bytes b.
Proof. unfold from_be_bytes. rewrite reverse_cons, from_le_bytes_app, length_reverse. simpl. lia. Qed.

Lemma from_be_bytes_bound b : is_bytes b → 0 ≤ from_be_bytes b < 256 ^ Z.of_nat (length b).
Proof.
  intros Hb. unfold from_be_bytes. rewrite <- (length_reverse b). apply from_le_bytes_bound. by apply Forall_reverse.
Qed.

Lemma fold_be b acc : is_bytes b → 0 ≤ acc → acc * 256 ^ Z.of_nat (length b) + from_be_bytes b < 2 ^ 64 →
  foldl (λ num b, Z.lor (wrap 64 (Z.shiftl num 8)) b) acc b = acc * 256 ^ Z.of_nat (length b) + from_be_bytes b.
Proof.
  intros Hb. revert acc. induction Hb as [|x b Hx Hb IH]; intros acc Ha Hlt.
  - simpl. change (from_be_bytes []) with 0. change (256 ^ Z.of_nat 0) with 1. lia.
  - rewrite from_be_bytes_cons in *. rewrite length_cons, Nat2Z.inj_succ, Z.pow_succ_r in * by lia.
    pose proof (from_be_bytes_bound b Hb). pose proof (Z.pow_pos_nonneg 256 (Z.of_nat (length b))).
    unfold in_u in Hx. simpl foldl.
    assert (Z.lor (wrap 64 (Z.shiftl acc 8)) x = acc * 256 + x) as ->.
    { rewrite wrap_small; [|unfold in_u; rewrite Z.shiftl_mul_pow2 by lia; nia].
      rewrite Z.lor_comm, lor_shiftl_add by lia. lia. }
    rewrite IH; nia.
Qed.

Lemma to_be_bytes_drop m v : (m ≤ 8)%nat → 0 ≤ v < 256 ^ Z.of_nat m → drop (8 - m) (to_be_bytes 8 v) = to_be_bytes m v.
Proof.
  intros Hm Hv. unfold to_be_bytes.
  assert (to_le_bytes 8 v = to_le_bytes m v ++ replicate (8 - m) 0) as ->.
  { rewrite <- (from_to_le_bytes m v Hv) at 1.
    replace (from_le_bytes (to_le_bytes m v)) with (from_le_bytes (to_le_bytes m v ++ replicate (8 - m) 0)).
    - assert (length (to_le_bytes m v ++ replicate (8 - m) 0) = 8%nat) as Hl by (len; lia).
      rewrite <- Hl at 1. apply to_from_le_bytes, is_bytes_app. split; [auto with bytes_db|].
      apply Forall_replicate. unfold in_u. lia.
    - rewrite from_le_bytes_app. assert (∀ k, from_le_bytes (replicate k 0) = 0) as -> by (induction k; simpl; lia). lia. }
  rewrite reverse_app, drop_app_length_eq by (rewrite length_reverse, length_replicate; done). done.
Qed.

Lemma to_from_be_bytes b : is_bytes b → to_be_bytes (length b) (from_be_bytes b) = b.
Proof.
  intros Hb. unfold from_be_bytes, to_be_bytes. rewrite <- (length_reverse b), to_from_le_bytes; [apply reverse_involutive|].
  by apply Forall_reverse.
Qed.

(** A block of [m] bytes and its characters. *)
Definition block_chars (m n : nat) : Prop := (m ≤ 8)%nat ∧ 256 ^ Z.of_nat m ≤ 58 ^ Z.of_nat n.

Lemma encode_block_digs b n : is_bytes b → (length b ≤ 8)%nat →
  encode_block b n = map char58 (reverse (digs n (from_be_bytes b))).
Proof.
  intros Hb Hl. unfold encode_block. pose proof (from_be_bytes_bound b Hb).
  assert (256 ^ Z.of_nat (length b) ≤ 2 ^ 64) by (change (2 ^ 64) with (256 ^ 8); apply Z.pow_le_mono_r; lia).
  rewrite fold_be by (done || lia). by rewrite encode_slots_digs, app_nil_r, Z.mul_0_l, Z.add_0_l.
Qed.

Lemma length_encode_block b n : length (encode_block b n) = n.
Proof.
  unfold encode_block. rewrite encode_slots_digs, app_nil_r, length_map, length_reverse. apply digs_digits.
Qed.

Lemma Forall2_chars rl ds : Forall2 (λ c d, is_digit d ∧ c = char58 d) rl ds ↔ Forall is_digit ds ∧ rl = map char58 ds.
Proof.
  split.
  - induction 1 as [|c d rl ds [Hd ->] _ [IH1 ->]]; [done|]. split; [by constructor|done].
  - intros [Hds ->]. induction Hds; simpl; by constructor.
Qed.

Lemma decode_block_iff cs m off b : block_chars m (length cs) →
  decode_block cs m off = Ok b ↔ is_bytes b ∧ length b = m ∧ encode_block b (length cs) = cs.
Proof.
  intros [Hm Hle]. unfold decode_block. rewrite result_bind_Ok. setoid_rewrite decode_loop_Ok; [|unfold u64_max; lia..].
  setoid_rewrite Forall2_chars. unfold FULL_BLOCK_SIZE.
  assert (∀ v, v ≤ u64_max → ((m <? 8)%nat && (Z.shiftl 1 (8 * Z.of_nat m) <=? v) = false ↔ v < 256 ^ Z.of_nat m)) as Hov.
  { intros v Hv. rewrite Z.shiftl_mul_pow2, Z.mul_1_l, Z.pow_mul_r by lia. change (2 ^ 8) with 256.
    destruct (decide (m = 8%nat)) as [->|Hne]; [simpl; unfold u64_max in Hv; change (256 ^ Z.of_nat 8) with (2 ^ 64); split; [lia|done]|].
    assert ((m <? 8)%nat = true) as -> by (apply Nat.ltb_lt; lia). simpl. apply Z.leb_gt. }
  split.
  - intros (v&(ds&[Hds Hrev]&->&Hv)&H). rewrite Z.add_0_l, Z.mul_1_l in *. pose proof (le58_nonneg ds Hds).
    destruct (_ && _) eqn:E in H; [done|]. apply Hov in E; [|done]. injection H as <-.
    rewrite to_be_bytes_drop by lia. assert (length cs = length ds) as Hlen.
    { rewrite <- (length_reverse cs), Hrev. by rewrite length_map. }
    assert (is_bytes (to_be_bytes m (le58 ds))) by (apply Forall_reverse, to_le_bytes_is_bytes).
    assert (length (to_be_bytes m (le58 ds)) = m) by (unfold to_be_bytes; rewrite length_reverse; apply length_to_le_bytes).
    split_and!; [done..|]. rewrite encode_block_digs by (done || lia).
    rewrite from_to_be_bytes, Hlen, digs_le58 by (done || lia).
    rewrite map_reverse, <- Hrev. apply reverse_involutive.
  - intros (Hb&<-&Hcs). rewrite encode_block_digs in Hcs by (done || lia).
    pose proof (from_be_bytes_bound b Hb) as Hbd. set (v := from_be_bytes b) in *.
    assert (v ≤ u64_max) as Hv.
    { assert (256 ^ Z.of_nat (length b) ≤ 256 ^ 8) by (apply Z.pow_le_mono_r; lia). unfold u64_max. lia. }
    exists v. split.
    + exists (digs (length cs) v). rewrite le58_digs by lia. split_and!; [apply digs_digits | | lia | done].
      rewrite <- Hcs at 1. by rewrite map_reverse, reverse_involutive.
    + destruct (_ && _) eqn:E; [|by rewrite to_be_bytes_drop, to_from_be_bytes by (done || lia)].
      apply not_false_iff_true in E. exfalso. apply E, Hov; [done|lia].
Qed.

(** * Whole strings *)

Lemma try_map_Ok {E A B} (f : A → result E B) l ys : try_map f l = Ok ys ↔ Forall2 (λ x y, f x = Ok y) l ys.
Proof.
  revert ys. induction l as [|a l IH]; intros ys; simpl.
  - split; [by intros [= <-] | by intros ->%Forall2_nil_inv_l].
  - rewrite result_bind_Ok. setoid_rewrite result_bind_Ok. split.
    + intros (b&Hb&bs&Hbs&[= <-]). constructor; [done | by apply IH].
    + intros H. inversion H; subst. eexists. split; [done|]. eexists. split; [by apply IH | done].
Qed.

(** The [n] consecutive pieces of [k] elements at the head of [l]. *)
Definition pieces {A} (k n : nat) (l : list A) : list (list A) := map (λ i, slice l (i * k) k) (seq 0 n).

Lemma pieces_S {A} k n (l : list A) : pieces k (S n) l = take k l :: pieces k n (drop k l).
Proof.
  unfold pieces. simpl. f_equal. rewrite <- seq_shift, map_map. apply map_ext. intros i. unfold slice. by rewrite drop_drop.
Qed.

Lemma concat_pieces {A} k n (l : list A) : concat (pieces k n l) = take (n * k) l.
Proof.
  revert l. induction n as [|n IH]; intros l; [by rewrite take_0|]. rewrite pieces_S. simpl. rewrite IH.
  rewrite <- (take_drop k l) at 3. rewrite take_app, length_take. 
  destruct (decide (k ≤ length l)%nat).
  - rewrite Nat.min_l by done. rewrite take_take, Nat.min_r by lia. do 2 f_equal. lia.
  - rewrite Nat.min_r by lia. rewrite (drop_ge l) by lia. rewrite !take_nil, take_take, !app_nil_r. f_equal. lia.
Qed.

Lemma pieces_concat {A} k (bs : list (list A)) t :
  Forall (λ b, length b = k) bs → pieces k (length bs) (concat bs ++ t) = bs.
Proof.
  induction 1 as [|b bs Hb _ IH]; [done|]. simpl length. rewrite pieces_S. simpl concat. rewrite <- app_assoc.
  rewrite take_app_length_eq, drop_app_length_eq by done. by rewrite IH.
Qed.

Lemma pieces_length {A} k n (l : list A) : (n * k ≤ length l)%nat → Forall (λ b, length b = k) (pieces k n l).
Proof.
  intros Hl. apply Forall_map, Forall_forall. intros i Hi%elem_of_seq. apply length_slice. nia.
Qed.

Lemma length_concat_same {A} k (bs : list (list A)) : Forall (λ b, length b = k) bs → length (concat bs) = (length bs * k)%nat.
Proof. induction 1 as [|b bs Hb _ IH]; [done|]. simpl. rewrite length_app. lia. Qed.

Lemma full_block_chars : block_chars 8 11.
Proof. split; [lia|]. vm_compute. congruence. Qed.

(** The table of tail sizes and its inverse. *)
Lemma tail_size m : (0 < m < 8)%nat →
  let n := ENCODED_BLOCK_SIZES !!! m in block_chars m n ∧ (0 < n < 11)%nat ∧ position n ENCODED_BLOCK_SIZES = Some m.
Proof.
  intros Hm. destruct m as [|[|[|[|[|[|[|[|m]]]]]]]]; try lia; cbv zeta;
    (split; [split; [lia | vm_compute; congruence] | split; [vm_compute; lia | reflexivity]]).
Qed.

Lemma tail_position n m : (0 < n < 11)%nat → position n ENCODED_BLOCK_SIZES = Some m →
  (0 < m < 8)%nat ∧ ENCODED_BLOCK_SIZES !!! m = n.
Proof.
  intros Hn H. do 11 (destruct n as [|n]; [first [lia | vm_compute in H; first [discriminate H | injection H as <-; vm_compute; lia]]|]). lia.
Qed.

Definition enc_blocks (bs : list bytes) : list bytes := map (λ b, encode_block b 11) bs.

Lemma encode_split bs t : Forall (λ b, length b = 8%nat) bs → (length t < 8)%nat →
  encode (concat bs ++ t) = concat (enc_blocks bs) ++ (if (0 <? length t)%nat then encode_block t (ENCODED_BLOCK_SIZES !!! length t) else []).
Proof.
  intros Hbs Ht. pose proof (length_concat_same 8 bs Hbs) as Hl.
  assert (length (concat bs ++ t) = length t + length bs * 8)%nat as Hlen by (rewrite length_app; lia).
  unfold encode. destruct (concat bs ++ t) eqn:E.
  { simpl in Hlen. destruct t; [|simpl in Hlen; lia]. destruct bs; [done|simpl in Hlen; lia]. }
  rewrite <- E in *. clear E. unfold FULL_BLOCK_SIZE. rewrite Hlen, Nat.div_add, Nat.Div0.mod_add, Nat.div_small, Nat.mod_small by lia.
  simpl (0 + _)%nat. f_equal.
  - f_equal. rewrite <- (pieces_concat 8 bs t) at 2 by done. unfold enc_blocks, pieces. by rewrite map_map.
  - rewrite drop_app_length_eq by lia. done.
Qed.

Lemma decode_full_iff s n blocks : (n * 11 ≤ length s)%nat →
  try_map (λ i, decode_block (slice s (i * 11) 11) FULL_BLOCK_SIZE (i * 11)) (seq 0 n) = Ok blocks ↔
  Forall (λ b, is_bytes b ∧ length b = 8%nat) blocks ∧ enc_blocks blocks = pieces 11 n s.
Proof.
  intros Hl. rewrite try_map_Ok. unfold enc_blocks, pieces.
  assert (∀ i, i ∈ seq 0 n → ∀ b, decode_block (slice s (i * 11) 11) FULL_BLOCK_SIZE (i * 11) = Ok b ↔
    is_bytes b ∧ length b = 8%nat ∧ encode_block b 11 = slice s (i * 11) 11) as Hi.
  { intros i Hin%elem_of_seq b. rewrite decode_block_iff; rewrite length_slice by nia; [done | apply full_block_chars]. }
  revert blocks Hi. generalize (seq 0 n) as l. clear Hl. induction l as [|i l IH]; intros blocks Hi; simpl.
  - split; [by intros ->%Forall2_nil_inv_l|]. intros [_ H]. by destruct blocks.
  - assert (∀ j, j ∈ l → j ∈ i :: l) as Hsub by (intros; by right). split.
    + intros H. inversion H as [|? b ? bs Hb Hbs]; subst. apply Hi in Hb as (?&?&<-); [|left].
      apply IH in Hbs as [Hf <-]; [|auto]. split; [by constructor|done].
    + intros [Hf H]. destruct blocks as [|b bs]; [done|]. injection H as Hb Hbs. apply Forall_cons in Hf as [[??] Hf].
      constructor; [apply Hi; [left|done] | apply IH; auto].
Qed.

Lemma encode_nil s : encode s = [] → s = [].
Proof.
  destruct s as [|x s]; [done|]. intros H. apply (f_equal length) in H. unfold encode in H.
  rewrite length_app, (length_concat_same 11) in H.
  - rewrite length_map, length_seq in H. unfold FULL_BLOCK_SIZE in H.
    assert (0 < length (x :: s))%nat as Hpos by (simpl; lia). set (n := length (x :: s)) in *.
    pose proof (Nat.div_mod_eq n 8) as Hd. pose proof (Nat.mod_upper_bound n 8).
    destruct (0 <? _)%nat eqn:E in H; bool_hyps; [|change (length (@nil Z)) with 0%nat in H; lia].
    rewrite length_encode_block in H. change (length (@nil Z)) with 0%nat in H. destruct (tail_size (n mod 8)) as (_&?&_); lia.
  - apply Forall_map, Forall_true. intros. apply length_encode_block.
Qed.

Lemma decode_unfold s : s ≠ [] → decode s =
  (last_decoded ← (if (length s mod 11 =? 0)%nat then Ok 0%nat
                   else ok_or (InvalidLength (length s)) (position (length s mod 11)%nat ENCODED_BLOCK_SIZES));
   blocks ← try_map (λ i, decode_block (slice s (i * 11) 11) FULL_BLOCK_SIZE (i * 11)) (seq 0 (length s / 11));
   tail ← (if (0 <? length s mod 11)%nat then decode_block (drop (length s / 11 * 11) s) last_decoded (length s / 11 * 11) else Ok []);
   Ok (concat blocks ++ tail)).
Proof. by destruct s. Qed.

Lemma decode_sound s d : s ≠ [] → decode s = Ok d → is_bytes d ∧ encode d = s.
Proof.
  intros Hs H. rewrite decode_unfold in H by done.
  pose proof (Nat.div_mod_eq (length s) 11) as Hdiv. pose proof (Nat.mod_upper_bound (length s) 11 ltac:(lia)) as Hmod.
  set (full := (length s / 11)%nat) in *. set (last := (length s mod 11)%nat) in *.
  assert (length (drop (full * 11) s) = last) as Hdl by (rewrite length_drop; lia).
  apply result_bind_Ok in H as (m&Hm&H). apply result_bind_Ok in H as (blocks&Hb&H).
  apply result_bind_Ok in H as (tail&Ht&[= <-]). apply decode_full_iff in Hb as [Hf He]; [|lia].
  assert (is_bytes tail ∧ (length tail < 8)%nat ∧
    (if (0 <? length tail)%nat then encode_block tail (ENCODED_BLOCK_SIZES !!! length tail) else []) = drop (full * 11) s) as (Htb&Htl&Hte).
  { destruct (last =? 0)%nat eqn:E0; bool_hyps.
    - rewrite E0 in Ht. injection Ht as <-. simpl. rewrite drop_ge by lia. split_and!; [constructor | lia | done].
    - apply ok_or_Ok in Hm. apply tail_position in Hm as [Hm1 Hm2]; [|lia].
      assert ((0 <? last)%nat = true) as E1 by (apply Nat.ltb_lt; lia). rewrite E1 in Ht.
      apply decode_block_iff in Ht as (?&Hl&Hte); [|rewrite Hdl, <- Hm2; by apply tail_size].
      split_and!; [done | lia |]. rewrite Hl, Hm2. assert ((0 <? m)%nat = true) as -> by (apply Nat.ltb_lt; lia).
      by rewrite <- Hdl. }
  split; [apply is_bytes_app; split; [apply Forall_concat; eapply Forall_impl; [exact Hf|]; by intros ? [? _] | done]|].
  rewrite encode_split; [| eapply Forall_impl; [exact Hf|]; by intros ? [_ ?] | done].
  rewrite He, concat_pieces, Hte. apply take_drop.
Qed.

Lemma decode_complete d : is_bytes d → encode d ≠ [] → decode (encode d) = Ok d.
Proof.
  intros Hd Hs. remember (encode d) as s eqn:He. symmetry in He. rewrite decode_unfold by done.
  set (full := (length s / 11)%nat) in *. set (last := (length s mod 11)%nat) in *.
  set (n8 := (length d / 8)%nat). set (bs := pieces 8 n8 d). set (t := drop (n8 * 8) d).
  pose proof (Nat.div_mod_eq (length d) 8) as Hd8. pose proof (Nat.mod_upper_bound (length d) 8 ltac:(lia)) as Hm8.
  assert (Forall (λ b, length b = 8%nat) bs) as Hbs by (apply pieces_length; unfold n8; lia).
  assert (length bs = n8) as Hlbs by (unfold bs, pieces; by rewrite length_map, length_seq).
  assert (length t = length d mod 8)%nat as Hlt by (unfold t; rewrite length_drop; unfold n8; lia).
  assert (d = concat bs ++ t) as Ed by (unfold bs; rewrite concat_pieces; symmetry; apply take_drop).
  rewrite Ed, encode_split in He by (done || lia).
  set (te := if (0 <? length t)%nat then _ else _) in He.
  assert (Forall (λ b, length b = 11%nat) (enc_blocks bs)) as H11.
  { apply Forall_map, Forall_true. intros. apply length_encode_block. }
  assert (length (enc_blocks bs) = n8) as Hleb by (unfold enc_blocks; by rewrite length_map).
  assert (length te < 11 ∧ length te = if (0 <? length t)%nat then ENCODED_BLOCK_SIZES !!! length t else 0)%nat as [Hte Hte'].
  { unfold te. destruct (0 <? length t)%nat eqn:E; bool_hyps; [|simpl; lia]. rewrite length_encode_block.
    split; [|done]. apply tail_size. lia. }
  assert (length s = length te + n8 * 11)%nat as Hls.
  { rewrite <- He, length_app, (length_concat_same 11), Hleb by done. lia. }
  assert (full = n8) as Ef by (unfold full; rewrite Hls, Nat.div_add, Nat.div_small; lia).
  assert (last = length te) as El by (unfold last; rewrite Hls, Nat.Div0.mod_add, Nat.mod_small; lia).
  assert (try_map (λ i, decode_block (slice s (i * 11) 11) FULL_BLOCK_SIZE (i * 11)) (seq 0 full) = Ok bs) as Htm.
  { apply decode_full_iff; [lia|]. split.
    - apply Forall_and. split; [|done]. unfold bs, pieces. apply Forall_map, Forall_true. intros. unfold slice. auto with bytes_db.
    - rewrite Ef, <- He, <- Hleb. symmetry. by apply pieces_concat. }
  rewrite Htm. assert (drop (full * 11) s = te) as Hdrop.
  { rewrite <- He, drop_app_length_eq; [done|]. rewrite (length_concat_same 11), Hleb by done. lia. }
  rewrite Hdrop, El, Ed. destruct (0 <? length t)%nat eqn:E; bool_hyps.
  + destruct (tail_size (length t) ltac:(lia)) as (Hbc&Hn&Hpos). rewrite Hte'.
    set (n := ENCODED_BLOCK_SIZES !!! length t) in *.
    assert ((n =? 0)%nat = false) as -> by (apply Nat.eqb_neq; lia).
    assert ((0 <? n)%nat = true) as -> by (apply Nat.ltb_lt; lia). rewrite Hpos. simpl.
    assert (decode_block te (length t) (full * 11) = Ok t) as ->; [|done].
    apply decode_block_iff; rewrite Hte'; [done|]. split_and!; [unfold t; auto with bytes_db | done | done].
  + rewrite Hte'. simpl. destruct t; [done|simpl in E; lia].
Qed.

Lemma decode_iff (s d : bytes) : decode s = Ok d ↔ is_bytes d ∧ encode d = s.
Proof.
  destruct (decide (s = [])) as [->|Hs].
  - simpl. split; [intros [= <-]; by split; [constructor|] | intros [_ H%encode_nil]; by subst].
  - split; [by apply decode_sound | intros [Hd <-]; by apply decode_complete].
Qed.

(** [decode] accepts exactly the strings [encode] produces: it is the
    inverse of [encode], and no byte string has a second base58 form. *)
Theorem base58_decode_iff (s d : bytes) : decode s = Ok d ↔ is_bytes d ∧ encode d = s.
Proof.
  apply decode_iff.
Qed.

(** * Addresses *)

Lemma length_encode d : d ≠ [] → length (encode d) =
  (length d / 8 * 11 + if (0 <? length d mod 8)%nat then ENCODED_BLOCK_SIZES !!! (length d mod 8) else 0)%nat.
Proof.
  intros Hd. destruct d as [|x d]; [done|]. unfold encode. rewrite length_app, (length_concat_same 11).
  - rewrite length_map, length_seq. unfold FULL_BLOCK_SIZE. f_equal. case_bool; [apply length_encode_block | done].
  - apply Forall_map, Forall_true. intros. apply length_encode_block.
Qed.

Section AddressProofs.
Context `{C : Crypto} {T : CryptoTyped C}.

Lemma decode_addr_iff a tag data :
  decode_addr a = Ok (tag, data) ↔ is_u64 tag ∧ is_bytes data ∧ encode_addr tag data = a.
Proof.
  unfold decode_addr, encode_addr. split.
  - intros H. apply result_bind_Ok in H as (d&Hd&H). apply decode_iff in Hd as [Hdb <-].
    destruct (_ <=? _)%nat eqn:E in H; bool_hyps; [done|]. unfold ADDR_CHECKSUM_SIZE in *.
    destruct (negb _) eqn:Ec in H; bool_hyps; [done|].
    apply result_bind_Ok in H as ([tg n]&Hr&[= <- <-]). apply map_err_Ok in Hr.
    set (body := take (length d - 4) d) in *. assert (is_bytes body) as Hbody by (unfold body; auto with bytes_db).
    apply varint.read_bits_sound in Hr as (Htag&Hn&rest&Hbd); [|done|lia].
    split_and!; [done | auto with bytes_db |].
    assert (varint.encode tg ++ drop n body = body) as ->.
    { subst n. rewrite Hbd, drop_app_length. done. }
    rewrite Ec. f_equal. apply take_drop.
  - intros (Htag&Hdata&<-). set (buf := varint.encode tag ++ data).
    assert (is_bytes buf) as Hbuf by (apply is_bytes_app; split; [apply varint.encode_bytes, Htag | done]).
    destruct (cn_fast_hash_typed buf Hbuf) as [Hhb Hhl].
    assert (length (take ADDR_CHECKSUM_SIZE (cn_fast_hash buf)) = 4%nat) as Hl4 by (rewrite length_take, Hhl; done).
    set (cs := take _ (cn_fast_hash buf)) in *.
    assert (decode (encode (buf ++ cs)) = Ok (buf ++ cs)) as ->.
    { apply decode_iff. split; [|done]. apply is_bytes_app. split; [done|]. unfold cs. auto with bytes_db. }
    cbn [mbind result_bind]. pose proof (varint.encode_length tag ltac:(apply Htag)).
    assert (length buf = length (varint.encode tag) + length data)%nat as Hlb by apply length_app.
    rewrite length_app, Hl4. unfold ADDR_CHECKSUM_SIZE. destruct (_ <=? 4)%nat eqn:E; bool_hyps; [lia|].
    replace (length buf + 4 - 4)%nat with (length buf) by lia.
    rewrite take_app_length, drop_app_length, bool_decide_true by done. cbn [negb].
    unfold varint.read, buf. rewrite varint.read_bits_encode by done. simpl. by rewrite drop_app_length.
Qed.

Definition wf_address (ad : Address) : Prop :=
  is_hash (spend_public_key ad) ∧ is_hash (view_public_key ad) ∧
  check_key (spend_public_key ad) = true ∧ check_key (view_public_key ad) = true ∧
  match payment_id ad with
  | Some pid => (length pid = 16%nat ∨ length pid = 64%nat) ∧ forallb is_ascii_hexdigit pid = true
  | None => True
  end.

Definition address_string (ad : Address) : result Base58Error bytes :=
  match payment_id ad with
  | Some pid => integrated_address (spend_public_key ad) (view_public_key ad) pid
  | None => Ok (standard_address (spend_public_key ad) (view_public_key ad))
  end.

(** The length of an address with a payment id of [n] characters. *)
Lemma length_encode_addr data : is_bytes data →
  (length data = 64 ∨ length data = 80 ∨ length data = 128)%nat →
  length (encode_addr CRYPTONOTE_PUBLIC_ADDRESS_BASE58_PREFIX data) =
  if (length data =? 64)%nat then 98%nat else if (length data =? 80)%nat then 120%nat else 186%nat.
Proof.
  intros Hd Hl. unfold encode_addr. set (buf := varint.encode _ ++ data).
  assert (length buf = 3 + length data)%nat as Hbuf by (unfold buf; rewrite length_app; reflexivity).
  destruct (cn_fast_hash_typed buf) as [_ Hh].
  { apply is_bytes_app. split; [|done]. apply varint.encode_bytes. vm_compute. congruence. }
  assert (length (buf ++ take ADDR_CHECKSUM_SIZE (cn_fast_hash buf)) = 7 + length data)%nat as Hlen.
  { rewrite length_app, length_take, Hh, Hbuf. simpl. lia. }
  rewrite length_encode by (intros E; rewrite E in Hlen; simpl in Hlen; lia). rewrite Hlen.
  destruct Hl as [-> | [-> | ->]]; reflexivity.
Qed.

(** The payload of an address. *)
Definition payload (ad : Address) : bytes :=
  default [] (payment_id ad) ++ spend_public_key ad ++ view_public_key ad.

Lemma hexdigit_u8 c : is_ascii_hexdigit c = true → is_u8 c.
Proof. unfold is_ascii_hexdigit, in_u. rewrite !orb_true_iff, !andb_true_iff, !Z.leb_le. change (2 ^ 8) with 256. lia. Qed.

Lemma payload_bytes ad : wf_address ad → is_bytes (payload ad) ∧
  length (payload ad) = (length (default [] (payment_id ad)) + 64)%nat.
Proof.
  intros ([Hs Hsl]&[Hv Hvl]&_&_&Hp). unfold payload. rewrite !length_app, Hsl, Hvl. split; [|lia].
  rewrite !is_bytes_app. split_and!; [|done|done]. destruct (payment_id ad) as [pid|]; [|constructor].
  destruct Hp as [_ Hp]. apply Forall_forall. intros c Hc. apply hexdigit_u8. rewrite forallb_forall in Hp. by apply Hp, list_elem_of_In.
Qed.

Lemma address_string_payload ad : wf_address ad →
  address_string ad = Ok (encode_addr CRYPTONOTE_PUBLIC_ADDRESS_BASE58_PREFIX (payload ad)).
Proof.
  intros (_&_&_&_&Hp). unfold address_string, payload, integrated_address, standard_address.
  destruct (payment_id ad) as [pid|]; [|done]. destruct Hp as [Hl ->].
  destruct Hl as [-> | ->]; reflexivity.
Qed.

Lemma parse_address_payload ad : wf_address ad →
  parse_address (encode_addr CRYPTONOTE_PUBLIC_ADDRESS_BASE58_PREFIX (payload ad)) = Ok ad.
Proof.
  intros Hwf. destruct (payload_bytes ad Hwf) as [Hb Hl]. unfold parse_address.
  set (a := encode_addr _ _).
  assert (decode_addr a = Ok (CRYPTONOTE_PUBLIC_ADDRESS_BASE58_PREFIX, payload ad)) as ->.
  { apply decode_addr_iff. split_and!; [split; vm_compute; congruence | done | done]. }
  cbn [mbind result_bind]. rewrite Z.eqb_refl. cbn [negb]. set (n := length (default [] (payment_id ad))) in *.
  assert (n = 0 ∨ n = 16 ∨ n = 64)%nat as Hn.
  { destruct Hwf as (_&_&_&_&Hp). unfold n. destruct (payment_id ad); [|by left]. destruct Hp as [? _]. by right. }
  assert ((if (length a =? STANDARD_ADDRESS_LENGTH)%nat then Ok 0%nat
           else if (length a =? INTEGRATED_ADDRESS_LENGTH)%nat then Ok 16%nat
           else if (length a =? INTEGRATED_ADDRESS_LENGTH_LONG)%nat then Ok 64%nat
           else Err (WrongAddressLength (length a))) = Ok n) as ->.
  { unfold a. rewrite length_encode_addr by (done || lia). rewrite Hl. by destruct Hn as [-> | [-> | ->]]. }
  cbn [mbind result_bind]. rewrite Hl, Nat.eqb_refl. cbn [negb].
  destruct Hwf as ([Hs Hsl]&[Hv Hvl]&Hks&Hkv&Hp). destruct ad as [sp vw pid]. unfold payload, n in *. simpl in *.
  unfold slice. rewrite drop_app_length, take_app_length, take_app_length_eq by done.
  rewrite (drop_app_ge (default [] pid)), Nat.add_comm, Nat.add_sub by lia. rewrite drop_app_length_eq by done.
  rewrite Hks, Hkv. destruct pid as [pid|]; [|done]. destruct Hp as [Hpl Hph]. simpl. rewrite Hph.
  by destruct Hpl as [-> | ->].
Qed.

Lemma parse_address_sound a ad : parse_address a = Ok ad →
  wf_address ad ∧ encode_addr CRYPTONOTE_PUBLIC_ADDRESS_BASE58_PREFIX (payload ad) = a.
Proof.
  unfold parse_address. intros H. apply result_bind_Ok in H as ([tag data]&Hd&H).
  apply decode_addr_iff in Hd as (Htag&Hdata&Ha). destruct (tag =? _) eqn:Et in H; bool_hyps; [|done]. subst tag. cbn [negb] in H.
  apply result_bind_Ok in H as (n&Hn&H). destruct (length data =? n + 64)%nat eqn:El in H; bool_hyps; [|done]. cbn [negb] in H.
  apply result_bind_Ok in H as (pid&Hp&H). destruct (negb _ || negb _) eqn:Ek in H; [done|]. injection H as <-.
  apply orb_false_elim in Ek as [Es Ev]. bool_hyps.
  assert (n = 0 ∨ n = 16 ∨ n = 64)%nat as Hn3 by (repeat case_match; simplify_res; lia).
  assert (data = take n data ++ slice data n 32 ++ drop (n + 32) data) as Edata.
  { unfold slice. rewrite <- (drop_drop data 32 n), !take_drop. done. }
  assert (default [] pid = take n data ∧
    match pid with Some p => (length p = 16%nat ∨ length p = 64%nat) ∧ forallb is_ascii_hexdigit p = true | None => True end) as [Epid Hpid].
  { destruct (0 <? n)%nat eqn:E0; bool_hyps.
    - destruct (forallb _ _) eqn:Eh; simpl in Hp; simplify_res. split; [done|]. rewrite length_take. split; [lia|done].
    - simplify_res. by replace n with 0%nat by lia. }
  unfold payload. cbn [payment_id spend_public_key view_public_key]. rewrite Epid, <- Edata. split; [|done].
  split_and!; cbn [payment_id spend_public_key view_public_key]; try done.
  - split; [unfold slice; auto with bytes_db | apply length_slice; lia].
  - split; [auto with bytes_db | rewrite length_drop; lia].
Qed.

(** A string parses as an address exactly when it is the string of that
    address: the standard form without a payment id, the integrated form with
    one of 16 or 64 hexadecimal digits, both keys curve points. *)
Theorem parse_address_iff (a : bytes) (ad : Address) :
  parse_address a = Ok ad ↔ wf_address ad ∧ address_string ad = Ok a.
Proof.
  split.
  - intros [Hwf <-]%parse_address_sound. split; [done | by apply address_string_payload].
  - intros [Hwf Hs]. rewrite address_string_payload in Hs by done. injection Hs as <-. by apply parse_address_payload.
Qed.

End AddressProofs.

Lemma parse_address_iff_witness :
  ∃ a, address_string (C:=toy_crypto) (mkAddress (replicate 32 1) (replicate 32 2) None) = Ok a ∧
    parse_address (C:=toy_crypto) a = Ok (mkAddress (replicate 32 1) (replicate 32 2) None).
Proof.
  eexists. split; [vm_compute; reflexivity|]. apply (parse_address_iff (C:=toy_crypto)). split; [|vm_compute; reflexivity].
  split_and!; try reflexivity; (split; [repeat constructor; vm_compute; congruence | reflexivity]).
Defined.
