(* ===== verification/Mnemonic.v ===== *)
(** Mnemonic seeds (crates/wrkz-primitives/src/mnemonic.rs). Text is its sequence
    of Unicode scalar values; the words of the list are ASCII, so their values
    are their bytes. *)
From S2P Require Import Prelude Wordlist.
Local Open Scope Z_scope.

Definition WL : Z := 1626.

Inductive MnemonicError : Type :=
| WrongLength (n : nat)
| InvalidWord (w : bytes)
| InvalidChecksum
| Invalid.

(** [str] comparison: bytewise, which for UTF-8 is the order of scalar values. *)
Fixpoint str_cmp (a b : bytes) : comparison :=
  match a, b with
  | [], [] => Eq
  | [], _ => Lt
  | _, [] => Gt
  | x :: a, y :: b => match x ?= y with Eq => str_cmp a b | c => c end
  end.

(** [<[T]>::binary_search]: [base] moves up while the middle is not greater. *)
Fixpoint bisect (fuel : nat) (l : list bytes) (w : bytes) (base size : nat) : nat :=
  match fuel with
  | O => base
  | S fuel =>
      if (1 <? size)%nat then
        let half := (size / 2)%nat in
        let mid := (base + half)%nat in
        let base := match str_cmp (l !!! mid) w with Gt => base | _ => mid end in
        bisect fuel l w base (size - half)
      else base
  end.

Definition binary_search (l : list bytes) (w : bytes) : option nat :=
  match l with
  | [] => None
  | _ =>
      let i := bisect (length l) l w 0 (length l) in
      match str_cmp (l !!! i) w with Eq => Some i | _ => None end
  end.

Definition word_index (word : bytes) : option nat := binary_search ENGLISH word.

Definition crc_bit (crc : Z) : Z :=
  if negb (Z.land crc 1 =? 0) then Z.lxor (Z.shiftr crc 1) 0xEDB88320 else Z.shiftr crc 1.

Definition crc32 (data : bytes) : Z :=
  let crc := foldl (λ crc b, Nat.iter 8 crc_bit (Z.lxor crc b)) 0xFFFFFFFF data in
  Z.lxor crc 0xFFFFFFFF.

Definition checksum_word (words : list bytes) : bytes :=
  let trimmed := concat (map (take 3) words) in
  let idx := Z.to_nat (crc32 trimmed mod Z.of_nat (length words)) in
  let w := words !!! idx in
  match word_index w with Some i => ENGLISH !!! i | None => [] end.

(** The three word indexes of one 32-bit chunk. *)
Definition triple (val : Z) : list Z :=
  let w1 := val mod WL in
  let w2 := (val / WL + w1) mod WL in
  let w3 := (val / WL / WL + w2) mod WL in
  [w1; w2; w3].

Definition chunk (key : bytes) (k : nat) : Z := from_le_bytes (slice key (4 * k) 4).

Definition key_words (key : bytes) : list bytes :=
  let words := map (λ i, ENGLISH !!! Z.to_nat i) (concat (map (λ k, triple (chunk key k)) (seq 0 8))) in
  words ++ [checksum_word words].

(** [words.join(" ")] *)
Fixpoint join (words : list bytes) : bytes :=
  match words with
  | [] => []
  | [w] => w
  | w :: words => w ++ 32 :: join words
  end.

Definition private_key_to_mnemonic (key : bytes) : bytes := join (key_words key).

(** [split_whitespace], with the word read so far reversed. *)
Fixpoint split_whitespace (text word : bytes) : list bytes :=
  match text with
  | [] => match word with [] => [] | _ => [reverse word] end
  | c :: text =>
      if is_whitespace c
      then match word with [] => split_whitespace text [] | _ => reverse word :: split_whitespace text [] end
      else split_whitespace text (c :: word)
  end.

Definition to_ascii_lowercase (w : bytes) : bytes :=
  map (λ c, if (65 <=? c) && (c <=? 90) then c + 32 else c) w.

(** The loop that looks every word up. *)
Fixpoint lookup_words (lowered : list bytes) : result MnemonicError (list nat) :=
  match lowered with
  | [] => Ok []
  | w :: lowered =>
      i ← ok_or (InvalidWord w) (word_index w);
      rest ← lookup_words lowered;
      Ok (i :: rest)
  end.

Definition untriple (w1 w2 w3 : Z) : Z :=
  wrapping_add 32
    (wrapping_add 32 w1 (wrapping_mul 32 WL ((WL - w1 + w2) mod WL)))
    (wrapping_mul 32 (wrapping_mul 32 WL WL) ((WL - w2 + w3) mod WL)).

Fixpoint decode_triples (idx : list nat) : result MnemonicError bytes :=
  match idx with
  | w1 :: w2 :: w3 :: idx =>
      let val := untriple (Z.of_nat w1) (Z.of_nat w2) (Z.of_nat w3) in
      if negb (val mod WL =? Z.of_nat w1) then Err Invalid
      else rest ← decode_triples idx; Ok (to_le_bytes 4 val ++ rest)
  | _ => Ok []
  end.

Definition mnemonic_to_private_key (text : bytes) : result MnemonicError bytes :=
  let lowered := map to_ascii_lowercase (split_whitespace text []) in
  if negb (length lowered =? 25)%nat then Err (WrongLength (length lowered))
  else
    idx ← lookup_words lowered;
    let words := map (λ i, ENGLISH !!! i) idx in
    if negb (bool_decide (checksum_word (take 24 words) = words !!! 24%nat)) then Err InvalidChecksum
    else decode_triples (take 24 idx).

(** * The list *)

Definition str_ltb (a b : bytes) : bool := match str_cmp a b with Lt => true | _ => false end.

Fixpoint sortedb (l : list bytes) : bool :=
  match l with
  | a :: (b :: _) as l' => str_ltb a b && sortedb l'
  | _ => true
  end.

Lemma ENGLISH_checked :
  (length ENGLISH =? 1626)%nat && sortedb ENGLISH &&
  forallb (λ w, negb (length w =? 0)%nat && forallb (λ c, (97 <=? c) && (c <=? 122)) w) ENGLISH = true.
Proof. vm_compute. reflexivity. Qed.

Lemma length_ENGLISH : length ENGLISH = 1626%nat.
Proof. pose proof ENGLISH_checked as H. apply andb_prop in H as [[H _]%andb_prop _]. by apply Nat.eqb_eq. Qed.

Lemma ENGLISH_words w : w ∈ ENGLISH → w ≠ [] ∧ Forall (λ c, 97 ≤ c ≤ 122) w.
Proof.
  intros Hw. pose proof ENGLISH_checked as H. apply andb_prop in H as [_ H]. rewrite forallb_forall in H.
  specialize (H w ltac:(by apply list_elem_of_In)). apply andb_prop in H as [H1 H2]. split; [by destruct w|].
  rewrite forallb_forall in H2. apply Forall_forall. intros c Hc. specialize (H2 c ltac:(by apply list_elem_of_In)).
  bool_hyps. lia.
Qed.

(** ** Binary search *)

Lemma str_cmp_Eq a b : str_cmp a b = Eq ↔ a = b.
Proof.
  revert b. induction a as [|x a IH]; intros [|y b]; simpl; try (split; done).
  destruct (Z.compare_spec x y) as [->|H|H]; [rewrite IH; split; congruence | split; [done|intros [= -> _]; lia]..].
Qed.

Lemma str_cmp_antisym a b : str_cmp b a = CompOpp (str_cmp a b).
Proof.
  revert b. induction a as [|x a IH]; intros [|y b]; simpl; [done..|]. rewrite (Z.compare_antisym x y).
  destruct (x ?= y); simpl; auto.
Qed.

Lemma str_cmp_trans a b c : str_cmp a b = Lt → str_cmp b c = Lt → str_cmp a c = Lt.
Proof.
  revert b c. induction a as [|x a IH]; intros [|y b] [|z c]; simpl; try done.
  destruct (Z.compare_spec x y), (Z.compare_spec y z), (Z.compare_spec x z); subst; try done; try lia; eauto.
Qed.

Lemma sortedb_lt l i j : sortedb l = true → (i < j < length l)%nat → str_cmp (l !!! i) (l !!! j) = Lt.
Proof.
  revert i j. induction l as [|a l IH]; intros i j Hs Hij; [simpl in Hij; lia|].
  assert (sortedb l = true ∧ ∀ k, (k < length l)%nat → str_cmp a (l !!! k) = Lt) as [Hsl Ha].
  { destruct l as [|b l]; [split; [done|intros; simpl in *; lia]|]. simpl in Hs. apply andb_prop in Hs as [H1 H2].
    unfold str_ltb in H1. destruct (str_cmp a b) eqn:E; try done. split; [done|].
    intros [|k] Hk; [done|]. eapply str_cmp_trans; [exact E|]. apply (IH 0%nat (S k) H2). simpl in *. lia. }
  destruct j as [|j]; [lia|]. destruct i as [|i]; simpl; [apply Ha; simpl in Hij; lia | apply IH; [done|simpl in Hij; lia]].
Qed.

Lemma bisect_finds l w k fuel base size : sortedb l = true → l !! k = Some w →
  (base ≤ k < base + size)%nat → (base + size ≤ length l)%nat → (size ≤ fuel)%nat → bisect fuel l w base size = k.
Proof.
  intros Hs Hk. revert base size. induction fuel as [|fuel IH]; intros base size Hb Hl Hf; cbn [bisect]; [lia|].
  destruct (1 <? size)%nat eqn:E; bool_hyps; [|lia].
  pose proof (Nat.div_mod_eq size 2). pose proof (Nat.mod_upper_bound size 2 ltac:(lia)).
  set (half := (size / 2)%nat) in *. assert (1 ≤ half)%nat by lia.
  assert (l !!! k = w) as Ew by (by apply list_lookup_total_correct).
  destruct (decide (k < base + half)%nat) as [Hlt|Hge].
  - assert (str_cmp (l !!! (base + half)%nat) w = Gt) as ->.
    { rewrite str_cmp_antisym, <- Ew, (sortedb_lt l k (base + half)) by (done || lia). done. }
    apply IH; lia.
  - assert (str_cmp (l !!! (base + half)%nat) w ≠ Gt) as Hng.
    { destruct (decide (base + half = k)%nat) as [->|Hne].
      - rewrite Ew. assert (str_cmp w w = Eq) as -> by (by apply str_cmp_Eq). done.
      - rewrite <- Ew, (sortedb_lt l (base + half) k) by (done || lia). done. }
    destruct (str_cmp _ w); [| |done]; apply IH; lia.
Qed.

Lemma bisect_bound l w fuel base size :
  (0 < size)%nat → (base + size ≤ length l)%nat → (bisect fuel l w base size < length l)%nat.
Proof.
  revert base size. induction fuel as [|fuel IH]; intros base size H Hl; cbn [bisect]; [lia|].
  destruct (1 <? size)%nat eqn:E; bool_hyps; [|lia].
  pose proof (Nat.div_mod_eq size 2). pose proof (Nat.mod_upper_bound size 2 ltac:(lia)).
  destruct (str_cmp _ w); apply IH; lia.
Qed.

(** On a strictly sorted list the binary search is lookup by value. *)
Lemma binary_search_Some l w i : sortedb l = true → binary_search l w = Some i ↔ l !! i = Some w.
Proof.
  intros Hs. destruct (decide (l = [])) as [->|Hne]; [by destruct i|].
  assert (0 < length l)%nat by (destruct l; simpl; [done|lia]).
  assert (binary_search l w =
    let j := bisect (length l) l w 0 (length l) in match str_cmp (l !!! j) w with Eq => Some j | _ => None end) as ->
    by (by destruct l). cbv zeta. split.
  - pose proof (bisect_bound l w (length l) 0 (length l) ltac:(lia) ltac:(lia)) as Hb. set (j := bisect _ _ _ _ _) in *.
    destruct (str_cmp _ w) eqn:E; try done. intros [= <-]. apply str_cmp_Eq in E. rewrite <- E.
    by apply list_lookup_lookup_total_lt.
  - intros Hi. pose proof (lookup_lt_Some _ _ _ Hi) as Hlt.
    rewrite (bisect_finds l w i) by (done || lia). rewrite (list_lookup_total_correct _ _ _ Hi).
    by rewrite (proj2 (str_cmp_Eq w w) eq_refl).
Qed.

Lemma word_index_Some w i : word_index w = Some i ↔ ENGLISH !! i = Some w.
Proof.
  apply binary_search_Some. pose proof ENGLISH_checked as Hc. by apply andb_prop in Hc as [[_ Hs]%andb_prop _].
Qed.

(** * Triples *)

Lemma untriple_wrap w1 w2 w3 : untriple w1 w2 w3 =
  (w1 + WL * ((WL - w1 + w2) mod WL) + WL * WL * ((WL - w2 + w3) mod WL)) mod 2 ^ 32.
Proof.
  unfold untriple, wrapping_add, wrapping_mul, wrap. rewrite Z.mul_mod_idemp_l, Z.add_mod_idemp_r, Z.add_mod_idemp_r by lia.
  by rewrite Z.add_mod_idemp_l by lia.
Qed.

Lemma shift_unshift a b : (WL - a + (b + a) mod WL) mod WL = b mod WL.
Proof.
  unfold WL. rewrite Z.add_mod_idemp_r by lia. replace (1626 - a + (b + a)) with (b + 1 * 1626) by lia.
  by rewrite Z.mod_add by lia.
Qed.

Lemma unshift_shift a w : ((WL - a + w) mod WL + a) mod WL = w mod WL.
Proof.
  unfold WL. rewrite Z.add_mod_idemp_l by lia. replace (1626 - a + w + a) with (w + 1 * 1626) by lia.
  by rewrite Z.mod_add by lia.
Qed.

Lemma triple_digits a b c : 0 ≤ a < WL → 0 ≤ b < WL →
  triple (a + WL * b + WL * WL * c) = [a; (b + a) mod WL; (c + (b + a) mod WL) mod WL].
Proof.
  intros Ha Hb. unfold triple.
  assert ((a + WL * b + WL * WL * c) / WL = b + WL * c) as -> by (symmetry; apply (Z.div_unique _ _ _ a); unfold WL in *; lia).
  assert ((b + WL * c) / WL = c) as -> by (symmetry; apply (Z.div_unique _ _ _ b); unfold WL in *; lia).
  assert ((a + WL * b + WL * WL * c) mod WL = a) as -> by (symmetry; apply (Z.mod_unique _ _ (b + WL * c)); unfold WL in *; lia).
  f_equal. assert ((b + WL * c + a) mod WL = (b + a) mod WL) as ->; [|done].
  replace (b + WL * c + a) with (b + a + c * WL) by lia. by rewrite Z.mod_add by (unfold WL; lia).
Qed.

(** [WL] does not divide [2 ^ 32], and three digits overflow it at most once:
    the test on the first word rejects exactly the triples that overflow. *)
Lemma overflow_rejected a b c : 0 ≤ a < WL → 0 ≤ b < WL → 0 ≤ c < WL →
  ((a + WL * b + WL * WL * c) mod 2 ^ 32) mod WL = a → 0 ≤ a + WL * b + WL * WL * c < 2 ^ 32.
Proof.
  unfold WL. intros Ha Hb Hc. destruct (decide (a + 1626 * b + 1626 * 1626 * c < 2 ^ 32)) as [|Hge]; [lia|].
  rewrite <- (Z.mod_unique _ (2 ^ 32) 1 (a + 1626 * b + 1626 * 1626 * c - 2 ^ 32)) by lia.
  pose proof (Z.div_mod (a + 1626 * b + 1626 * 1626 * c - 2 ^ 32) 1626 ltac:(lia)) as E. intros E2.
  rewrite E2 in E. lia.
Qed.

Lemma triple_iff w1 w2 w3 v : 0 ≤ w1 < WL → 0 ≤ w2 < WL → 0 ≤ w3 < WL → is_u32 v →
  triple v = [w1; w2; w3] ↔ untriple w1 w2 w3 = v ∧ v mod WL = w1.
Proof.
  rewrite untriple_wrap. intros H1 H2 H3 Hv. split.
  - intros H. assert (∃ a b c, v = a + WL * b + WL * WL * c ∧ 0 ≤ a < WL ∧ 0 ≤ b < WL ∧ 0 ≤ c < WL) as (a & b & c & -> & Ha & Hb & Hc).
    { exists (v mod WL), (v / WL mod WL), (v / WL / WL). pose proof (Z.div_mod v WL). pose proof (Z.div_mod (v / WL) WL).
      pose proof (Z.mod_pos_bound v WL). pose proof (Z.mod_pos_bound (v / WL) WL). unfold in_u, WL in *. lia. }
    rewrite triple_digits in H by done. simplify_eq. rewrite !shift_unshift, !(Z.mod_small b), !(Z.mod_small c) by done.
    split; [by apply Z.mod_small|]. replace (w1 + WL * b + WL * WL * c) with (w1 + (b + WL * c) * WL) by lia.
    rewrite Z.mod_add by (unfold WL; lia). by apply Z.mod_small.
  - set (b := (WL - w1 + w2) mod WL). set (c := (WL - w2 + w3) mod WL).
    assert (0 ≤ b < WL ∧ 0 ≤ c < WL) as [Hb Hc] by (split; apply Z.mod_pos_bound; unfold WL; lia).
    intros [<- E]. rewrite Z.mod_small.
    + rewrite triple_digits by done. unfold b, c. rewrite unshift_shift, (Z.mod_small w2) by done.
      by rewrite unshift_shift, (Z.mod_small w3) by done.
    + clearbody b c. apply overflow_rejected; [done..|]. exact E.
Qed.

Lemma triple_in_list v i : i ∈ triple v → 0 ≤ i < WL.
Proof.
  unfold triple. rewrite !elem_of_cons, elem_of_nil. intros [->|[->|[->|[]]]]; apply Z.mod_pos_bound; unfold WL; lia.
Qed.

Lemma chunks_S key n : map (chunk key) (seq 0 (S n)) = from_le_bytes (take 4 key) :: map (chunk (drop 4 key)) (seq 0 n).
Proof.
  cbn [seq map]. unfold chunk at 1, slice. rewrite drop_0. f_equal. rewrite <- seq_shift, map_map.
  apply map_ext. intros k. unfold chunk, slice. rewrite drop_drop. do 3 f_equal. lia.
Qed.

Lemma decode_triples_iff n idx key : length idx = (3 * n)%nat → Forall (λ i, (i < 1626)%nat) idx →
  decode_triples idx = Ok key ↔
  is_array (4 * n) key ∧ map Z.of_nat idx = concat (map triple (map (chunk key) (seq 0 n))).
Proof.
  revert idx key. induction n as [|n IH]; intros idx key Hlen Hidx.
  - destruct idx; [|done]. cbn. split; [intros [= <-]; by repeat split; constructor | intros [[_ H] _]; by destruct key].
  - destruct idx as [|w1 [|w2 [|w3 idx]]]; try (simpl in Hlen; lia). cbn [decode_triples].
    repeat (apply Forall_cons in Hidx as [? Hidx]). specialize (IH idx). rewrite chunks_S. cbn [map concat].
    set (val := untriple _ _ _). assert (is_u32 val) as Hval by (unfold val; rewrite untriple_wrap; by apply wrap_bound).
    pose proof (λ v, triple_iff (Z.of_nat w1) (Z.of_nat w2) (Z.of_nat w3) v ltac:(unfold WL; lia) ltac:(unfold WL; lia) ltac:(unfold WL; lia)) as HT.
    fold val in HT. split.
    + intros HH. destruct (val mod WL =? Z.of_nat w1) eqn:E; [|done]. cbn [negb] in HH. bool_hyps. apply result_bind_Ok in HH as (rest & Hr & Hk).
      assert (key = to_le_bytes 4 val ++ rest) as -> by congruence. clear Hk.
      apply IH in Hr; [|simpl in Hlen; lia|done]. destruct Hr as [[Hb Hl] Hi]. rewrite take_app_length_eq, drop_app_length_eq by len.
      split; [split; [apply is_bytes_app; auto with bytes_db | len]|].
      rewrite from_to_le_bytes by done. rewrite (proj2 (HT val Hval)) by done. by rewrite Hi.
    + intros [[Hb Hl] Hi]. set (v := from_le_bytes (take 4 key)) in *.
      assert (is_u32 v) as Hv. { pose proof (from_le_bytes_bound (take 4 key) ltac:(auto with bytes_db)) as Hbd. rewrite length_take_le in Hbd by lia. exact Hbd. }
      assert (triple v = [Z.of_nat w1; Z.of_nat w2; Z.of_nat w3] ∧ map Z.of_nat idx = concat (map triple (map (chunk (drop 4 key)) (seq 0 n)))) as [Ht Hr].
      { unfold triple in *. cbn [app] in Hi. by injection Hi as -> -> -> ->. }
      apply HT in Ht as [-> Hm]; [|done]. rewrite Hm, Z.eqb_refl. cbn [negb].
      rewrite (proj2 (IH (drop 4 key) ltac:(simpl in Hlen; lia) ltac:(done))); [|split; [split; [auto with bytes_db | len]|done]].
      cbn. f_equal. rewrite <- (take_drop 4 key) at 2. f_equal.
      rewrite <- (to_from_le_bytes (take 4 key)) by auto with bytes_db. by rewrite length_take_le by lia.
Qed.

(** * Words *)

#[local] Opaque ENGLISH word_index.

Lemma lookup_words_iff lowered idx :
  lookup_words lowered = Ok idx ↔ Forall2 (λ i w, ENGLISH !! i = Some w) idx lowered.
Proof.
  revert idx. induction lowered as [|w ws IH]; intros idx; cbn [lookup_words].
  - split; [intros [= <-]; constructor | by intros ->%Forall2_nil_inv_r].
  - split.
    + intros (i & Hi%ok_or_Ok & (l & Hl & Hr)%result_bind_Ok)%result_bind_Ok. injection Hr as <-.
      constructor; [apply word_index_Some; exact Hi | apply IH; exact Hl].
    + intros (i & l & Hi & Hl & ->)%Forall2_cons_inv_r. rewrite (proj2 (word_index_Some _ _) Hi). cbn. by rewrite (proj2 (IH l) Hl).
Qed.

Lemma Forall2_words idx ws : Forall2 (λ i w, ENGLISH !! i = Some w) idx ws →
  map (λ i, ENGLISH !!! i) idx = ws ∧ Forall (λ i, (i < 1626)%nat) idx ∧ length idx = length ws.
Proof.
  induction 1 as [|i w idx ws Hi _ (E & Hf & Hl)]; [done|]. cbn [map length]. repeat split; [|constructor; [|done]|lia].
  - by rewrite E, (list_lookup_total_correct _ _ _ Hi).
  - apply lookup_lt_Some in Hi. by rewrite length_ENGLISH in Hi.
Qed.

Lemma checksum_word_elem ws : ws ≠ [] → Forall (λ w, w ∈ ENGLISH) ws → checksum_word ws ∈ ENGLISH.
Proof.
  intros Hne Hws. unfold checksum_word. set (i := Z.to_nat _).
  assert (i < length ws)%nat as Hi.
  { unfold i. destruct ws; [done|]. set (n := Z.of_nat _). assert (0 < n) by (unfold n; simpl; lia).
    pose proof (Z.mod_pos_bound (crc32 (concat (map (take 3) (l :: ws)))) n ltac:(done)). unfold n in *. lia. }
  destruct (lookup_lt_is_Some_2 _ _ Hi) as [w Hw]. rewrite (list_lookup_total_correct _ _ _ Hw).
  rewrite Forall_lookup in Hws. pose proof (Hws _ _ Hw) as [j Hj]%list_elem_of_lookup.
  rewrite (proj2 (word_index_Some _ _) Hj), (list_lookup_total_correct _ _ _ Hj). by eapply list_elem_of_lookup_2.
Qed.

(** The 24 data words of a key. *)
Lemma key_indexes key : is_hash key →
  ∃ idx, map Z.of_nat idx = concat (map (λ k, triple (chunk key k)) (seq 0 8)) ∧ length idx = 24%nat ∧
    Forall2 (λ i w, ENGLISH !! i = Some w) idx (map (λ i, ENGLISH !!! Z.to_nat i) (concat (map (λ k, triple (chunk key k)) (seq 0 8)))).
Proof.
  intros _. assert (Forall (λ i, 0 ≤ i < WL) (concat (map (λ k, triple (chunk key k)) (seq 0 8)))) as Hb.
  { apply Forall_concat, Forall_map, Forall_true. intros k. apply Forall_forall. apply triple_in_list. }
  assert (length (concat (map (λ k, triple (chunk key k)) (seq 0 8))) = 24%nat) as Hl by done.
  set (l := concat _) in *. clearbody l. exists (map Z.to_nat l). rewrite map_map, length_map. repeat split; [|done|].
  - rewrite <- (map_id l) at 2. apply map_ext_Forall. eapply Forall_impl; [exact Hb|]. intros i Hi. cbn in Hi |- *. lia.
  - clear Hl. induction Hb as [|i l Hi _ IH]; cbn [map]; constructor; [|exact IH].
    apply list_lookup_lookup_total_lt. rewrite length_ENGLISH. unfold WL in Hi. lia.
Qed.

Lemma words_of_indexes key idx : map Z.of_nat idx = concat (map (λ k, triple (chunk key k)) (seq 0 8)) →
  map (λ i, ENGLISH !!! Z.to_nat i) (concat (map (λ k, triple (chunk key k)) (seq 0 8))) = map (λ i, ENGLISH !!! i) idx.
Proof. intros <-. rewrite map_map. apply map_ext. intros i. by rewrite Nat2Z.id. Qed.

(** ** Tokens *)

Definition word_char (c : Z) : Prop := 97 ≤ c ≤ 122.

Lemma word_char_not_space c : word_char c → is_whitespace c = false.
Proof. unfold word_char, is_whitespace. intros. repeat (apply orb_false_intro); lia. Qed.

Lemma split_word w acc text : Forall word_char w →
  split_whitespace (w ++ text) acc = split_whitespace text (reverse w ++ acc).
Proof.
  revert acc. induction w as [|c w IH]; intros acc Hw; [done|]. apply Forall_cons in Hw as [Hc Hw].
  cbn [app split_whitespace]. rewrite word_char_not_space by done. rewrite IH by done. by rewrite reverse_cons, <- app_assoc.
Qed.

Lemma split_join ws : Forall (λ w, w ≠ [] ∧ Forall word_char w) ws → split_whitespace (join ws) [] = ws.
Proof.
  induction 1 as [|w ws [Hne Hw] _ IH]; [done|].
  assert (reverse w ≠ []) as Hr by (intros Hr; apply Hne; by rewrite <- (reverse_involutive w), Hr).
  destruct ws as [|w' ws].
  - cbn [join]. rewrite <- (app_nil_r w) at 1. rewrite split_word, app_nil_r by done. cbn [split_whitespace].
    destruct (reverse w) eqn:E; [done|]. by rewrite <- E, reverse_involutive.
  - change (join (w :: w' :: ws)) with (w ++ 32 :: join (w' :: ws)). rewrite split_word, app_nil_r by done.
    cbn [split_whitespace]. change (is_whitespace 32) with true. cbv iota. rewrite IH.
    destruct (reverse w) eqn:E; [done|]. by rewrite <- E, reverse_involutive.
Qed.

Lemma lowercase_word w : Forall word_char w → to_ascii_lowercase w = w.
Proof.
  unfold to_ascii_lowercase, word_char. induction 1 as [|c w Hc _ IH]; cbn [map]; [done|]. rewrite IH. f_equal.
  by destruct ((65 <=? c) && (c <=? 90)) eqn:E; [bool_hyps; lia|].
Qed.

Lemma key_words_listed key : is_hash key → Forall (λ w, w ∈ ENGLISH) (key_words key).
Proof.
  intros Hk. destruct (key_indexes key Hk) as (idx & _ & Hl & H). unfold key_words.
  set (ws := map _ (concat _)) in *. assert (Forall (λ w, w ∈ ENGLISH) ws) as Hws.
  { eapply Forall2_Forall_r; [exact H|]. apply Forall_true. intros i w. apply list_elem_of_lookup_2. }
  apply Forall_app. split; [done|]. constructor; [|done]. apply checksum_word_elem; [|done].
  intros E. apply Forall2_length in H. rewrite E in H. cbn in H. lia.
Qed.

Definition tokens (text : bytes) : list bytes := map to_ascii_lowercase (split_whitespace text []).

Lemma tokens_of_key key : is_hash key → tokens (private_key_to_mnemonic key) = key_words key.
Proof.
  intros Hk. pose proof (key_words_listed key Hk) as Hw. unfold tokens, private_key_to_mnemonic.
  assert (Forall (λ w, w ≠ [] ∧ Forall word_char w) (key_words key)) as Hc by (eapply Forall_impl; [exact Hw|]; apply ENGLISH_words).
  rewrite split_join by done. rewrite <- (map_id (key_words key)) at 2. apply map_ext_Forall.
  eapply Forall_impl; [exact Hc|]. intros w [_ H]. by apply lowercase_word.
Qed.

Lemma drop_last_word (ws : list bytes) n : length ws = S n → drop n ws = [ws !!! n].
Proof.
  revert n. induction ws as [|w ws IH]; intros n H; [done|]. destruct n as [|n]; [by destruct ws|].
  cbn [drop]. apply IH. by injection H.
Qed.

Lemma mnemonic_iff text key :
  mnemonic_to_private_key text = Ok key ↔ is_hash key ∧ tokens text = key_words key.
Proof.
  unfold mnemonic_to_private_key. fold (tokens text). generalize (tokens text) as ws. intros ws. split.
  - destruct (length ws =? 25)%nat eqn:El; cbn [negb]; [|done]. apply Nat.eqb_eq in El.
    intros (idx & Hi%lookup_words_iff & H)%result_bind_Ok. destruct (Forall2_words _ _ Hi) as (Ew & Hb & Hlen).
    cbv zeta in H. rewrite Ew in H. destruct (bool_decide _) eqn:Ec in H; cbn [negb] in H; [|done]. apply bool_decide_eq_true in Ec.
    apply (decode_triples_iff 8) in H as [Hk Hidx]; [|rewrite length_take; lia|by apply Forall_take].
    rewrite map_map in Hidx. split; [done|]. unfold key_words. rewrite (words_of_indexes _ _ Hidx), <- firstn_map, Ew, Ec.
    rewrite <- (take_drop 24 ws) at 1. f_equal. by apply drop_last_word.
  - intros [Hk ->]. destruct (key_indexes key Hk) as (idx & Hidx & Hlen & Hw). unfold key_words. set (ws := map _ (concat _)) in *.
    pose proof (Forall2_length _ _ _ Hw) as Hl. rewrite length_app, <- Hl, Hlen. cbn [length Nat.add Nat.eqb negb].
    destruct (proj1 (list_elem_of_lookup _ _) (checksum_word_elem ws ltac:(intros E; rewrite E in Hl; cbn in Hl; lia)
      ltac:(eapply Forall2_Forall_r; [exact Hw|]; apply Forall_true; intros i w; apply list_elem_of_lookup_2))) as [c Hc].
    rewrite (proj2 (lookup_words_iff _ (idx ++ [c]))) by (apply Forall2_app; [exact Hw | by repeat constructor]).
    cbn [mbind result_bind]. rewrite map_app, take_app_length_eq by (rewrite length_map; lia).
    destruct (Forall2_words _ _ Hw) as (Ew & Hb & _). rewrite Ew. cbn [map].
    apply list_lookup_total_correct in Hc. rewrite Hc. generalize (checksum_word ws) as w. intros w. clear Hc.
    rewrite take_app_length_eq by lia. rewrite lookup_total_app_r by lia. rewrite <- Hl, Hlen. cbn [Nat.sub].
    rewrite bool_decide_eq_true_2 by done. cbn [negb].
    apply (decode_triples_iff 8 idx key Hlen Hb). rewrite map_map. split; assumption.
Qed.

(** A text is a valid seed of [key] exactly when, lower-cased and split at white
    space, it is the 25 words written for [key]: no other word sequence decodes
    to the key, a triple of words that overflows 32 bits is rejected, and the
    mnemonic written for a key reads back as that key. *)
Theorem mnemonic_codec text key :
  (mnemonic_to_private_key text = Ok key ↔
     is_hash key ∧ map to_ascii_lowercase (split_whitespace text []) = key_words key) ∧
  (is_hash key → mnemonic_to_private_key (private_key_to_mnemonic key) = Ok key).
Proof.
  split; [apply mnemonic_iff|]. intros Hk. apply mnemonic_iff. split; [done | by apply tokens_of_key].
Qed.
