(* ===== verification/Kv.v ===== *)
(** KV binary "portable storage" (crates/wrkz-primitives/src/kv.rs), the encoding of
    every P2P payload, database record and of the peer state file. Field names
    are the UTF-8 bytes of the [String]; a [Double] is its 64-bit pattern, which
    is all the codec looks at. [None] is a panic of the writer. *)
From S2P Require Import Prelude Varint.
Local Open Scope Z_scope.

Definition HEADER : bytes := [0x01; 0x11; 0x01; 0x01; 0x01; 0x01; 0x02; 0x01; 0x01].

Definition TYPE_INT64 : Z := 1.
Definition TYPE_INT32 : Z := 2.
Definition TYPE_INT16 : Z := 3.
Definition TYPE_INT8 : Z := 4.
Definition TYPE_UINT64 : Z := 5.
Definition TYPE_UINT32 : Z := 6.
Definition TYPE_UINT16 : Z := 7.
Definition TYPE_UINT8 : Z := 8.
Definition TYPE_DOUBLE : Z := 9.
Definition TYPE_STRING : Z := 10.
Definition TYPE_BOOL : Z := 11.
Definition TYPE_OBJECT : Z := 12.
Definition TYPE_ARRAY : Z := 13.
Definition ARRAY_FLAG : Z := 0x80.
Definition MAX_DEPTH : nat := 32.
Definition MAX_VALUES : Z := 1000000.
Definition MIN_ENTRY_BYTES : Z := 4.

#[local] Set Warnings "-register-all".

Inductive Value : Type :=
| Int (v : Z) (t : Z)
| Uint (v : Z) (t : Z)
| Double (bits : Z)
| String (s : bytes)
| Bool (b : bool)
| Object (entries : list (bytes * Value))
| Array (items : list Value).

(** [Section], its one field. *)
Abbreviation KvSection := (list (bytes * Value)).

(** * The accessors and builders of [Section] *)

Module KvSection.

Definition get (s : KvSection) (name : bytes) : option Value :=
  snd <$> List.find (λ e, bool_decide (fst e = name)) s.

Definition get_u64 (s : KvSection) (name : bytes) : option Z :=
  v ← get s name;
  match v with
  | Uint v _ => Some v
  | Int v _ => Some (wrap 64 v)
  | _ => None
  end.

Definition get_bytes (s : KvSection) (name : bytes) : option bytes :=
  v ← get s name;
  match v with String s => Some s | _ => None end.

Definition get_bool (s : KvSection) (name : bytes) : option bool :=
  v ← get s name;
  match v with Bool b => Some b | _ => None end.

Definition get_object (s : KvSection) (name : bytes) : option KvSection :=
  v ← get s name;
  match v with Object o => Some o | _ => None end.

Definition get_array (s : KvSection) (name : bytes) : list Value :=
  match get s name with Some (Array a) => a | _ => [] end.

Definition u8 (s : KvSection) (name : bytes) (v : Z) : KvSection := s ++ [(name, Uint v TYPE_UINT8)].
Definition u16 (s : KvSection) (name : bytes) (v : Z) : KvSection := s ++ [(name, Uint v TYPE_UINT16)].
Definition u32 (s : KvSection) (name : bytes) (v : Z) : KvSection := s ++ [(name, Uint v TYPE_UINT32)].
Definition u64 (s : KvSection) (name : bytes) (v : Z) : KvSection := s ++ [(name, Uint v TYPE_UINT64)].
Definition i32 (s : KvSection) (name : bytes) (v : Z) : KvSection := s ++ [(name, Int v TYPE_INT32)].
Definition string (s : KvSection) (name v : bytes) : KvSection :=
  if negb (length v =? 0)%nat then s ++ [(name, String v)] else s.
Definition text (s : KvSection) (name v : bytes) : KvSection := s ++ [(name, String v)].
Definition bool (s : KvSection) (name : bytes) (v : bool) : KvSection := s ++ [(name, Bool v)].
Definition object (s : KvSection) (name : bytes) (v : KvSection) : KvSection := s ++ [(name, Object v)].
Definition string_array (s : KvSection) (name : bytes) (v : list bytes) : KvSection :=
  if negb (length v =? 0)%nat then s ++ [(name, Array (map String v))] else s.
Definition object_array (s : KvSection) (name : bytes) (v : list KvSection) : KvSection :=
  if negb (length v =? 0)%nat then s ++ [(name, Array (map Object v))] else s.

End KvSection.

(** * Encoding *)

(** The [debug_assert!] on 62 bits is not part of a release build; the shift drops
    the top bits, as the comment in the source says. *)
Definition write_kv_varint (out : bytes) (v : Z) : bytes :=
  let shifted := wrap 64 (Z.shiftl v 2) in
  if v <=? 63 then out ++ [wrap 8 shifted]
  else if v <=? 16383 then out ++ to_le_bytes 2 (wrap 16 (Z.lor shifted 1))
  else if v <? 2 ^ 30 then out ++ to_le_bytes 4 (wrap 32 (Z.lor shifted 2))
  else out ++ to_le_bytes 8 (Z.lor shifted 3).

Definition type_of (v : Value) : Z :=
  match v with
  | Uint _ t | Int _ t => t
  | Double _ => TYPE_DOUBLE
  | String _ => TYPE_STRING
  | Bool _ => TYPE_BOOL
  | Object _ => TYPE_OBJECT
  | Array _ => TYPE_ARRAY
  end.

(** [for e in items { write_scalar(out, e) }] *)
Definition write_items (write_scalar : bytes → Value → option bytes) : bytes → list Value → option bytes :=
  fix go (out : bytes) (items : list Value) : option bytes :=
    match items with
    | [] => Some out
    | e :: items => match write_scalar out e with Some out => go out items | None => None end
    end.

(** The loop of [write_section]. *)
Definition write_entries (write_scalar : bytes → Value → option bytes) : bytes → KvSection → option bytes :=
  fix go (out : bytes) (s : KvSection) : option bytes :=
    match s with
    | [] => Some out
    | (name, v) :: s =>
        if negb (length name =? 0)%nat && (length name <=? 255)%nat then
          let out := (out ++ [Z.of_nat (length name)]) ++ name in
          match
            match v with
            | Array items =>
                let elem_ty := match items with e :: _ => type_of e | [] => TYPE_STRING end in
                let out := out ++ [Z.lor elem_ty ARRAY_FLAG] in
                write_items write_scalar (write_kv_varint out (Z.of_nat (length items))) items
            | _ => write_scalar (out ++ [type_of v]) v
            end
          with Some out => go out s | None => None end
        else None
    end.

Fixpoint write_scalar (out : bytes) (v : Value) : option bytes :=
  match v with
  | Uint u t =>
      if t =? TYPE_UINT8 then Some (out ++ [wrap 8 u])
      else if t =? TYPE_UINT16 then Some (out ++ to_le_bytes 2 (wrap 16 u))
      else if t =? TYPE_UINT32 then Some (out ++ to_le_bytes 4 (wrap 32 u))
      else Some (out ++ to_le_bytes 8 u)
  | Int i t =>
      if t =? TYPE_INT8 then Some (out ++ [wrap 8 i])
      else if t =? TYPE_INT16 then Some (out ++ to_le_bytes 2 (wrap 16 i))
      else if t =? TYPE_INT32 then Some (out ++ to_le_bytes 4 (wrap 32 i))
      else Some (out ++ to_le_bytes 8 (wrap 64 i))
  | Double d => Some (out ++ to_le_bytes 8 d)
  | String s => Some (write_kv_varint out (Z.of_nat (length s)) ++ s)
  | Bool b => Some (out ++ [if b then 1 else 0])
  | Object s => write_entries write_scalar (write_kv_varint out (Z.of_nat (length s))) s
  | Array _ => None
  end.

Definition write_section (out : bytes) (s : KvSection) : option bytes :=
  write_entries write_scalar (write_kv_varint out (Z.of_nat (length s))) s.

Definition encode (s : KvSection) : option bytes := write_section HEADER s.

(** * Decoding *)

Definition min_wire_bytes (ty : Z) : Z :=
  if (ty =? TYPE_INT64) || (ty =? TYPE_UINT64) || (ty =? TYPE_DOUBLE) then 8
  else if (ty =? TYPE_INT32) || (ty =? TYPE_UINT32) then 4
  else if (ty =? TYPE_INT16) || (ty =? TYPE_UINT16) then 2
  else 1.

(** The two mutable places a reader is given: [pos] and the [Budget]. *)
Record Cursor := mkCursor { c_pos : nat; c_budget : Z }.

(** A function [(&[u8], &mut usize, &mut Budget) -> Result<A>]. *)
Definition KvReader (A : Type) : Type := bytes → Cursor → result Error (A * Cursor).

#[export] Instance KvReader_ret : MRet KvReader := λ A a input c, Ok (a, c).
#[export] Instance KvReader_bind : MBind KvReader := λ A B f p input c,
  match p input c with Ok (a, c') => f a input c' | Err e => Err e end.

Definition fail {A} (e : Error) : KvReader A := λ _ _, Err e.

(** [input.len() - *pos] *)
Definition left : KvReader Z := λ input c, Ok (Z.of_nat (length input) - Z.of_nat (c_pos c), c).

Definition Budget_take (n : Z) : KvReader unit := λ input c,
  if c_budget c <? n then Err (Malformed "kv value budget")
  else Ok (tt, mkCursor (c_pos c) (c_budget c - n)).

Definition take (n : nat) : KvReader bytes := λ input c,
  if (length input <? c_pos c + n)%nat then Err Truncated
  else Ok (slice input (c_pos c) n, mkCursor (c_pos c + n) (c_budget c)).

Definition read_kv_varint : KvReader Z := λ input c,
  b0 ← ok_or Truncated (input !! c_pos c);
  let size := match Z.land b0 3 with 0 => 1%nat | 1 => 2%nat | 2 => 4%nat | _ => 8%nat end in
  if (length input <? c_pos c + size)%nat then Err Truncated
  else
    let raw := slice input (c_pos c) size ++ replicate (8 - size) 0 in
    Ok (Z.shiftr (from_le_bytes raw) 2, mkCursor (c_pos c + size) (c_budget c)).

(** [take(input, pos, n)?.try_into().unwrap()] of an integer. *)
Definition take_uint (n : nat) : KvReader Z := bs ← take n; mret (from_le_bytes bs).
Definition take_int (n : nat) : KvReader Z := bs ← take n; mret (as_signed (8 * Z.of_nat n) (from_le_bytes bs)).

Definition read_scalar (read_section : KvReader KvSection) (ty : Z) : KvReader Value :=
  if ty =? TYPE_INT64 then v ← take_int 8; mret (Int v ty)
  else if ty =? TYPE_INT32 then v ← take_int 4; mret (Int v ty)
  else if ty =? TYPE_INT16 then v ← take_int 2; mret (Int v ty)
  else if ty =? TYPE_INT8 then v ← take_int 1; mret (Int v ty)
  else if ty =? TYPE_UINT64 then v ← take_uint 8; mret (Uint v ty)
  else if ty =? TYPE_UINT32 then v ← take_uint 4; mret (Uint v ty)
  else if ty =? TYPE_UINT16 then v ← take_uint 2; mret (Uint v ty)
  else if ty =? TYPE_UINT8 then v ← take_uint 1; mret (Uint v ty)
  else if ty =? TYPE_DOUBLE then v ← take_uint 8; mret (Double v)
  else if ty =? TYPE_STRING then
    n ← read_kv_varint;
    have ← left;
    if have <? n then fail Truncated
    else s ← take (Z.to_nat n); mret (String s)
  else if ty =? TYPE_BOOL then b ← take_uint 1; mret (Bool (negb (b =? 0)))
  else if ty =? TYPE_OBJECT then s ← read_section; mret (Object s)
  else fail (Malformed "kv type").

Fixpoint read_many {A} (n : nat) (p : KvReader A) : KvReader (list A) :=
  match n with
  | O => mret []
  | S n => a ← p; l ← read_many n p; mret (a :: l)
  end.

(** One turn of the loop of [read_section]. *)
Definition read_entry (read_section : KvReader KvSection) : KvReader (bytes * Value) :=
  n ← take_uint 1;
  if n =? 0 then fail (Malformed "kv name")
  else
    name ← take (Z.to_nat n);
    if negb (utf8_valid name) then fail (Malformed "kv name encoding")
    else
      ty ← take_uint 1;
      if negb (Z.land ty ARRAY_FLAG =? 0) then
        let elem := Z.land ty (255 - ARRAY_FLAG) in
        if elem =? TYPE_ARRAY then fail (Malformed "kv nested array")
        else
          cnt ← read_kv_varint;
          have ← left;
          if have / min_wire_bytes elem <? cnt then fail Truncated
          else
            _ ← Budget_take cnt;
            items ← read_many (Z.to_nat cnt) (read_scalar read_section elem);
            mret (name, Array items)
      else if ty =? TYPE_ARRAY then fail (Malformed "kv bare array type")
      else v ← read_scalar read_section ty; mret (name, v).

(** [levels] is [MAX_DEPTH + 1 - depth]: the guard [depth > MAX_DEPTH] is the base
    case of the recursion, and each nested object is read one level down. *)
Fixpoint read_section (levels : nat) : KvReader KvSection :=
  match levels with
  | O => fail (Malformed "kv nesting")
  | S levels =>
      count ← read_kv_varint;
      have ← left;
      if have / MIN_ENTRY_BYTES <? count then fail Truncated
      else
        _ ← Budget_take count;
        read_many (Z.to_nat count) (read_entry (read_section levels))
  end.

Definition decode (input : bytes) : result Error KvSection :=
  if (length input <? length HEADER)%nat || negb (bool_decide (slice input 0 (length HEADER) = HEADER))
  then Err (Malformed "kv header")
  else
    '(s, _) ← read_section (MAX_DEPTH + 1) input (mkCursor (length HEADER) MAX_VALUES);
    Ok s.

Example kv_ping :
  let s := KvSection.u64 (KvSection.string [] (ascii_bytes "status") (ascii_bytes "OK")) (ascii_bytes "peer_id") 1 in
  encode s = Some (HEADER ++ [0x08; 0x06] ++ ascii_bytes "status" ++ [0x0a; 0x08] ++ ascii_bytes "OK" ++
    [0x07] ++ ascii_bytes "peer_id" ++ [0x05; 1; 0; 0; 0; 0; 0; 0; 0]) ∧
  (w ← encode s; Some (decode w)) = Some (Ok s).
Proof. split; vm_compute; reflexivity. Qed.

(** * What can be written and read back *)

(** The values the budget counts: section entries and array elements, at every depth. *)
Definition sum_items (f : Value → Z) : list Value → Z :=
  fix go (l : list Value) : Z := match l with [] => 0 | v :: l => f v + go l end.

Definition sum_entries (f : Value → Z) : KvSection → Z :=
  fix go (s : KvSection) : Z :=
    match s with
    | [] => 0
    | (_, v) :: s => match v with Array items => Z.of_nat (length items) + sum_items f items | _ => f v end + go s
    end.

Fixpoint values_scalar (v : Value) : Z :=
  match v with
  | Object s => Z.of_nat (length s) + sum_entries values_scalar s
  | _ => 0
  end.

Definition values_section (s : KvSection) : Z := Z.of_nat (length s) + sum_entries values_scalar s.

(** An integer fits the width its type byte announces. *)
Definition uint_width (t : Z) : option Z :=
  if t =? TYPE_UINT64 then Some 64 else if t =? TYPE_UINT32 then Some 32
  else if t =? TYPE_UINT16 then Some 16 else if t =? TYPE_UINT8 then Some 8 else None.
Definition int_width (t : Z) : option Z :=
  if t =? TYPE_INT64 then Some 64 else if t =? TYPE_INT32 then Some 32
  else if t =? TYPE_INT16 then Some 16 else if t =? TYPE_INT8 then Some 8 else None.

Definition wf_length (n : nat) : Prop := Z.of_nat n < 2 ^ 62.

Definition wf_scalar (wf_section : KvSection → Prop) (v : Value) : Prop :=
  match v with
  | Uint u t => match uint_width t with Some w => 0 ≤ u < 2 ^ w | None => False end
  | Int i t => match int_width t with Some w => - 2 ^ (w - 1) ≤ i < 2 ^ (w - 1) | None => False end
  | Double d => is_u64 d
  | String s => is_bytes s ∧ wf_length (length s)
  | Bool _ => True
  | Object s => wf_section s
  | Array _ => False
  end.

Definition wf_name (name : bytes) : Prop :=
  is_bytes name ∧ utf8_valid name = true ∧ (1 ≤ length name ≤ 255)%nat.

Definition wf_entry (wf_section : KvSection → Prop) (e : bytes * Value) : Prop :=
  wf_name e.1 ∧
  match e.2 with
  | Array items => wf_length (length items) ∧ ∃ t, Forall (λ v, wf_scalar wf_section v ∧ type_of v = t) items
  | v => wf_scalar wf_section v
  end.

(** Sections nested at most [levels] deep, with names the format can express,
    integers of their width and arrays of one type. *)
Fixpoint wf_section (levels : nat) (s : KvSection) : Prop :=
  match levels with
  | O => False
  | S levels => wf_length (length s) ∧ Forall (wf_entry (wf_section levels)) s
  end.

(** ** Readers on written bytes *)

Definition emits {A} (p : KvReader A) (a : A) (w : bytes) (cost : Z) : Prop :=
  ∀ input pos b k, drop pos input = w ++ k → (pos ≤ length input)%nat → cost ≤ b →
  p input (mkCursor pos b) = Ok (a, mkCursor (pos + length w) (b - cost)).

Lemma kv_emits_ret {A} (a : A) : emits (mret a) a [] 0.
Proof. intros input pos b k Hd Hp Hb. cbn. by rewrite Nat.add_0_r, Z.sub_0_r. Qed.

Lemma kv_emits_bind {A B} (p : KvReader A) (f : A → KvReader B) a b w1 w2 c1 c2 :
  emits p a w1 c1 → emits (f a) b w2 c2 → 0 ≤ c2 → emits (p ≫= f) b (w1 ++ w2) (c1 + c2).
Proof.
  intros H1 H2 Hc input pos bud k Hd Hp Hb. unfold mbind, KvReader_bind.
  rewrite <- app_assoc in Hd. rewrite (H1 input pos bud (w2 ++ k)) by (done || lia).
  assert (length w1 ≤ length input - pos)%nat as Hw by (rewrite <- length_drop, Hd, length_app; lia).
  rewrite (H2 input (pos + length w1)%nat (bud - c1) k).
  - do 3 f_equal; [rewrite length_app; lia | lia].
  - by rewrite <- drop_drop, Hd, drop_app_length.
  - lia.
  - lia.
Qed.

Lemma emits_left {A} (f : Z → KvReader A) a w c :
  (∀ have, Z.of_nat (length w) ≤ have → emits (f have) a w c) → emits (left ≫= f) a w c.
Proof.
  intros H input pos b k Hd Hp Hb. unfold mbind, KvReader_bind, left. cbn [c_pos].
  eapply H; [|done..]. apply (f_equal length) in Hd. rewrite length_drop, length_app in Hd. lia.
Qed.

Lemma emits_budget n : emits (Budget_take n) () [] n.
Proof.
  intros input pos b k Hd Hp Hb. unfold Budget_take. cbn [c_budget c_pos]. rewrite (proj2 (Z.ltb_ge b n)) by lia.
  by rewrite Nat.add_0_r.
Qed.

Lemma emits_take n bs : length bs = n → emits (take n) bs bs 0.
Proof.
  intros <- input pos b k Hd Hp Hb. unfold take, slice. cbn [c_pos c_budget]. rewrite Hd, take_app_length, Z.sub_0_r.
  apply (f_equal length) in Hd. rewrite length_drop, length_app in Hd.
  by destruct (length input <? pos + length bs)%nat eqn:E; [bool_hyps; lia|].
Qed.

Lemma emits_eq {A} (p : KvReader A) a w w' c c' : emits p a w c → w = w' → c = c' → emits p a w' c'.
Proof. by intros ? -> ->. Qed.

Lemma emits_take_uint n v : 0 ≤ v < 256 ^ Z.of_nat n → emits (take_uint n) v (to_le_bytes n v) 0.
Proof.
  intros Hv. eapply emits_eq; [eapply kv_emits_bind; [by apply emits_take, length_to_le_bytes| |] | by rewrite app_nil_r | done]; [|done].
  rewrite from_to_le_bytes by done. apply kv_emits_ret.
Qed.

Lemma emits_take_int n i : (0 < n)%nat → - 2 ^ (8 * Z.of_nat n - 1) ≤ i < 2 ^ (8 * Z.of_nat n - 1) →
  emits (take_int n) i (to_le_bytes n (wrap (8 * Z.of_nat n) i)) 0.
Proof.
  intros Hn Hi. eapply emits_eq; [eapply kv_emits_bind; [by apply emits_take, length_to_le_bytes| |] | by rewrite app_nil_r | done]; [|done].
  rewrite from_to_le_bytes.
  - rewrite as_signed_wrap by (done || lia). apply kv_emits_ret.
  - replace (256 ^ Z.of_nat n) with (2 ^ (8 * Z.of_nat n)); [apply wrap_bound; lia|].
    rewrite Z.pow_mul_r by lia. done.
Qed.

(** ** Varints *)

Lemma from_le_bytes_zeros n : from_le_bytes (replicate n 0) = 0.
Proof. induction n as [|n IH]; [done|]. cbn [replicate from_le_bytes]. by rewrite IH. Qed.

Definition kv_varint (v : Z) : bytes := write_kv_varint [] v.

Lemma write_kv_varint_app out v : write_kv_varint out v = out ++ kv_varint v.
Proof. unfold kv_varint, write_kv_varint. by repeat destruct (_ : bool). Qed.

Lemma emits_varint_width (n : nat) (tag x : Z) v :
  (n, tag) ∈ [(1%nat, 0); (2%nat, 1); (4%nat, 2); (8%nat, 3)] → 0 ≤ v → x = 4 * v + tag → x < 256 ^ Z.of_nat n →
  emits read_kv_varint v (to_le_bytes n x) 0.
Proof.
  intros Ht Hv Hx Hlt input pos b k Hd Hp Hb. unfold read_kv_varint. cbn [c_pos c_budget].
  assert (Z.land (x mod 256) 3 = tag ∧ (0 < n ≤ 8)%nat ∧ 0 ≤ tag < 4) as (Htag & Hn & Htag4).
  { change 3 with (Z.ones 2). rewrite Z.land_ones by lia. change (2 ^ 2) with 4. subst x.
    rewrite !elem_of_cons, elem_of_nil in Ht. destruct Ht as [Ht|[Ht|[Ht|[Ht|[]]]]]; injection Ht as -> ->;
      (split; [|lia]); Z.to_euclidean_division_equations; lia. }
  assert (input !! pos = Some (x mod 256)) as ->.
  { rewrite <- (Nat.add_0_r pos), <- lookup_drop, Hd. destruct n; [lia|done]. }
  cbn [ok_or mbind result_bind]. rewrite Htag.
  assert (match tag with 0 => 1%nat | 1 => 2%nat | 2 => 4%nat | _ => 8%nat end = n) as ->.
  { rewrite !elem_of_cons, elem_of_nil in Ht. by destruct Ht as [Ht|[Ht|[Ht|[Ht|[]]]]]; injection Ht as -> ->. }
  assert (length input - pos = n + length k)%nat as Hlen by (rewrite <- length_drop, Hd; len).
  rewrite (proj2 (Nat.ltb_ge _ _)) by lia. unfold slice. rewrite Hd, take_app_length_eq by len.
  rewrite from_le_bytes_app, from_to_le_bytes, from_le_bytes_zeros by lia.
  rewrite Z.mul_0_r, Z.add_0_r, Z.shiftr_div_pow2, length_to_le_bytes, Z.sub_0_r by lia. do 2 f_equal.
  change (2 ^ 2) with 4. subst x. rewrite Z.mul_comm, Z.div_add_l by lia. rewrite (Z.div_small tag) by lia. f_equal. lia.
Qed.

Lemma emits_kv_varint v : 0 ≤ v < 2 ^ 62 → emits read_kv_varint v (kv_varint v) 0.
Proof.
  intros Hv. unfold kv_varint, write_kv_varint. cbn [app].
  rewrite (wrap_small 64 (Z.shiftl v 2)) by (unfold in_u; rewrite Z.shiftl_mul_pow2 by lia; lia).
  assert (∀ tag, 0 ≤ tag < 4 → Z.lor (Z.shiftl v 2) tag = 4 * v + tag) as Hor.
  { intros tag Htag. rewrite Z.lor_comm, lor_shiftl_add by lia. change (2 ^ 2) with 4. lia. }
  destruct (v <=? 63) eqn:E1; [|destruct (v <=? 16383) eqn:E2; [|destruct (v <? 2 ^ 30) eqn:E3]]; bool_hyps.
  - change [wrap 8 (Z.shiftl v 2)] with (to_le_bytes 1 (Z.shiftl v 2)).
    eapply (emits_varint_width 1 0); [apply list_elem_of_In; simpl; auto|lia| |]; rewrite Z.shiftl_mul_pow2 by lia; change (2 ^ 2) with 4; [lia|].
    change (256 ^ Z.of_nat 1) with 256. lia.
  - rewrite wrap_small by (unfold in_u; rewrite Hor by lia; lia).
    eapply (emits_varint_width 2 1); [apply list_elem_of_In; simpl; auto|lia|by apply Hor|]. rewrite Hor by lia. change (256 ^ Z.of_nat 2) with 65536. lia.
  - rewrite wrap_small by (unfold in_u; rewrite Hor by lia; lia).
    eapply (emits_varint_width 4 2); [apply list_elem_of_In; simpl; auto|lia|by apply Hor|]. rewrite Hor by lia. change (256 ^ Z.of_nat 4) with (2 ^ 32). lia.
  - eapply (emits_varint_width 8 3); [apply list_elem_of_In; simpl; auto|lia|by apply Hor|]. rewrite Hor by lia. change (256 ^ Z.of_nat 8) with (2 ^ 64). lia.
Qed.

Lemma length_kv_varint v : (1 ≤ length (kv_varint v))%nat.
Proof. unfold kv_varint, write_kv_varint. repeat destruct (_ : bool); simpl; lia. Qed.

Lemma values_scalar_nonneg (v : Value) : 0 ≤ values_scalar v.
Proof.
  revert v. fix IH 1. intros [| | | | |s|]; try (cbn; lia). cbn [values_scalar]. apply Z.add_nonneg_nonneg; [lia|].
  induction s as [|[name v] s IHs]; [done|]. cbn [sum_entries]. apply Z.add_nonneg_nonneg; [|exact IHs].
  pose proof (IH v) as Hv. destruct v as [| | | | |s'|items]; try exact Hv. clear Hv. apply Z.add_nonneg_nonneg; [lia|].
  induction items as [|v items IHi]; [done|]. cbn [sum_items]. apply Z.add_nonneg_nonneg; [apply IH | exact IHi].
Qed.

Lemma sum_items_nonneg items : 0 ≤ sum_items values_scalar items.
Proof. induction items as [|v items IH]; [done|]. cbn [sum_items]. pose proof (values_scalar_nonneg v). lia. Qed.

Definition values_entry (v : Value) : Z :=
  match v with Array items => Z.of_nat (length items) + sum_items values_scalar items | _ => values_scalar v end.

Lemma values_entry_nonneg v : 0 ≤ values_entry v.
Proof. destruct v as [| | | | | |items]; try apply values_scalar_nonneg. pose proof (sum_items_nonneg items). cbn. lia. Qed.

Lemma sum_entries_cons name v s : sum_entries values_scalar ((name, v) :: s) = values_entry v + sum_entries values_scalar s.
Proof. by destruct v. Qed.

Lemma sum_entries_nonneg s : 0 ≤ sum_entries values_scalar s.
Proof.
  induction s as [|[name v] s IH]; [done|]. rewrite sum_entries_cons. pose proof (values_entry_nonneg v). lia.
Qed.

(** ** The round trip *)

Section RoundTrip.
Context (P : KvSection → Prop) (R : KvReader KvSection).

(** [write] appends bytes, at least [m], that [p] reads back as [a] at cost [c]. *)
Definition writes {A} (write : bytes → option bytes) (p : KvReader A) (a : A) (m c : Z) : Prop :=
  ∃ w, (∀ out, write out = Some (out ++ w)) ∧ emits p a w c ∧ m ≤ Z.of_nat (length w).

Hypothesis section_writes : ∀ s, P s → writes (λ out, write_section out s) R s 1 (values_section s).

Lemma byte_le v : [wrap 8 v] = to_le_bytes 1 (wrap 8 v).
Proof. cbn [to_le_bytes]. unfold wrap. change (2 ^ 8) with 256. by rewrite Z.mod_mod. Qed.

Lemma int_codec t w : int_width t = Some w → ∃ n, w = 8 * Z.of_nat n ∧ (0 < n)%nat ∧
  read_scalar R t = (v ← take_int n; mret (Int v t)) ∧ min_wire_bytes t = Z.of_nat n ∧
  ∀ out i, write_scalar out (Int i t) = Some (out ++ to_le_bytes n (wrap w i)).
Proof.
  unfold int_width. intros H. repeat (destruct (t =? _) eqn:E in H; [|clear E]); try done; bool_hyps; subst t; injection H as <-;
    [exists 8%nat|exists 4%nat|exists 2%nat|exists 1%nat]; repeat split; try lia; intros out i; cbn; by rewrite ?byte_le.
Qed.

Lemma uint_codec t w : uint_width t = Some w → ∃ n, w = 8 * Z.of_nat n ∧
  read_scalar R t = (v ← take_uint n; mret (Uint v t)) ∧ min_wire_bytes t = Z.of_nat n ∧
  ∀ out u, 0 ≤ u < 2 ^ w → write_scalar out (Uint u t) = Some (out ++ to_le_bytes n u).
Proof.
  unfold uint_width. intros H. repeat (destruct (t =? _) eqn:E in H; [|clear E]); try done; bool_hyps; subst t; injection H as <-;
    [exists 8%nat|exists 4%nat|exists 2%nat|exists 1%nat]; repeat split; try lia; intros out u Hu; cbn [write_scalar];
    cbn [Z.eqb Pos.eqb TYPE_UINT8 TYPE_UINT16 TYPE_UINT32 TYPE_UINT64]; rewrite ?byte_le, ?wrap_small by done; done.
Qed.

Lemma pow256 n : 256 ^ Z.of_nat n = 2 ^ (8 * Z.of_nat n).
Proof. by rewrite Z.pow_mul_r by lia. Qed.

(** A reader that wraps what another one read. *)
Lemma emits_wrap {A B} (p : KvReader A) (f : A → B) a w c : emits p a w c → emits (v ← p; mret (f v)) (f a) w c.
Proof.
  intros H. eapply emits_eq; [eapply kv_emits_bind; [exact H|apply kv_emits_ret|done] | apply app_nil_r | apply Z.add_0_r].
Qed.

Lemma string_emits s : wf_length (length s) →
  emits (read_scalar R TYPE_STRING) (String s) (kv_varint (Z.of_nat (length s)) ++ s) 0.
Proof.
  intros Hs. change (read_scalar R TYPE_STRING) with
    (n ← read_kv_varint; have ← left; if have <? n then fail Truncated else s ← take (Z.to_nat n); mret (String s)).
  eapply (kv_emits_bind _ _ _ _ _ _ 0 0); [apply emits_kv_varint; unfold wf_length in Hs; lia | | done].
  apply emits_left. intros have Hh. rewrite (proj2 (Z.ltb_ge _ _)) by lia. apply emits_wrap, emits_take. lia.
Qed.

Lemma scalar_writes v : wf_scalar P v →
  writes (λ out, write_scalar out v) (read_scalar R (type_of v)) v (min_wire_bytes (type_of v)) (values_scalar v).
Proof.
  destruct v as [i t|u t|d|s|b|s|items]; cbn [wf_scalar type_of values_scalar]; intros Hv; [| | | | | |done].
  - destruct (int_width t) as [w|] eqn:Et; [|done]. destruct (int_codec t w Et) as (n & -> & Hn & -> & -> & Hw).
    eexists. split; [intros out; apply Hw|]. split; [by apply (emits_wrap _ (λ v, Int v t)), emits_take_int | len].
  - destruct (uint_width t) as [w|] eqn:Et; [|done]. destruct (uint_codec t w Et) as (n & -> & -> & -> & Hw).
    eexists. split; [intros out; by apply Hw|]. split; [apply (emits_wrap _ (λ v, Uint v t)), emits_take_uint; by rewrite pow256 | len].
  - exists (to_le_bytes 8 d). split; [done|]. split; [by apply (emits_wrap _ Double), emits_take_uint | done].
  - exists (kv_varint (Z.of_nat (length s)) ++ s). split; [intros out; cbn; by rewrite write_kv_varint_app, app_assoc|].
    split; [apply string_emits, Hv | pose proof (length_kv_varint (Z.of_nat (length s))); rewrite length_app; cbn; lia].
  - exists (to_le_bytes 1 (if b then 1 else 0)). split; [by destruct b|]. split; [|done].
    eapply emits_eq; [eapply kv_emits_bind; [apply (emits_take_uint 1 (if b then 1 else 0)); by destruct b| |] | apply app_nil_r | done];
      [|done]. destruct b; apply kv_emits_ret.
  - destruct (section_writes s Hv) as (w & Hw & He & Hl). exists w. split; [exact Hw|]. split; [|exact Hl].
    by apply (emits_wrap _ Object).
Qed.

(** An array: all elements read back, each at least [m] bytes long. *)
Lemma items_writes t items : Forall (λ v, wf_scalar P v ∧ type_of v = t) items →
  writes (λ out, write_items write_scalar out items) (read_many (length items) (read_scalar R t)) items
    (min_wire_bytes t * Z.of_nat (length items)) (sum_items values_scalar items).
Proof.
  induction 1 as [|v items [Hv <-] _ (w & Hw & He & Hl)].
  - exists []. split; [intros out; by rewrite app_nil_r|]. split; [apply kv_emits_ret | cbn; lia].
  - destruct (scalar_writes v Hv) as (w1 & Hw1 & He1 & Hl1). exists (w1 ++ w). split; [|split].
    + intros out. cbn [write_items]. by rewrite Hw1, Hw, app_assoc.
    + cbn [length read_many sum_items]. eapply kv_emits_bind; [exact He1 | by apply emits_wrap | apply sum_items_nonneg].
    + rewrite length_app. cbn [length]. lia.
Qed.

Lemma scalar_type v : wf_scalar P v → 1 ≤ type_of v ≤ 12.
Proof.
  destruct v as [i t|u t|d|s|b|s|items]; cbn [wf_scalar type_of]; intros Hv; try done.
  - unfold int_width in Hv. repeat (destruct (t =? _) eqn:E in Hv; [bool_hyps; subst t; done|clear E]); done.
  - unfold uint_width in Hv. repeat (destruct (t =? _) eqn:E in Hv; [bool_hyps; subst t; done|clear E]); done.
Qed.

Lemma type_bits t : 1 ≤ t ≤ 12 →
  Z.land t ARRAY_FLAG = 0 ∧ t <> TYPE_ARRAY ∧ (Z.land (Z.lor t ARRAY_FLAG) ARRAY_FLAG =? 0) = false ∧
  Z.land (Z.lor t ARRAY_FLAG) (255 - ARRAY_FLAG) = t ∧ 0 ≤ Z.lor t ARRAY_FLAG < 256.
Proof.
  intros Ht. assert (t ∈ [1;2;3;4;5;6;7;8;9;10;11;12]) as H by (rewrite !elem_of_cons; lia).
  repeat (apply elem_of_cons in H as [->|H]; [repeat split; vm_compute; congruence|]). by apply elem_of_nil in H.
Qed.

Lemma emits_byte b : 0 ≤ b < 256 → emits (take_uint 1) b [b] 0.
Proof. intros Hb. rewrite <- (Z.mod_small b 256) at 2 by done. by apply (emits_take_uint 1). Qed.

(** The part of an entry after its name. *)
Definition write_value (out : bytes) (v : Value) : option bytes :=
  match v with
  | Array items =>
      let elem_ty := match items with e :: _ => type_of e | [] => TYPE_STRING end in
      let out := out ++ [Z.lor elem_ty ARRAY_FLAG] in
      write_items write_scalar (write_kv_varint out (Z.of_nat (length items))) items
  | _ => write_scalar (out ++ [type_of v]) v
  end.

Definition read_value (name : bytes) : KvReader (bytes * Value) :=
  ty ← take_uint 1;
  if negb (Z.land ty ARRAY_FLAG =? 0) then
    let elem := Z.land ty (255 - ARRAY_FLAG) in
    if elem =? TYPE_ARRAY then fail (Malformed "kv nested array")
    else
      cnt ← read_kv_varint;
      have ← left;
      if have / min_wire_bytes elem <? cnt then fail Truncated
      else
        _ ← Budget_take cnt;
        items ← read_many (Z.to_nat cnt) (read_scalar R elem);
        mret (name, Array items)
  else if ty =? TYPE_ARRAY then fail (Malformed "kv bare array type")
  else v ← read_scalar R ty; mret (name, v).

Lemma min_wire_bytes_pos t : 0 < min_wire_bytes t.
Proof. unfold min_wire_bytes. by repeat destruct (_ || _). Qed.

Lemma array_value_writes name items t : wf_length (length items) → 1 ≤ t ≤ 12 →
  t = match items with e :: _ => type_of e | [] => TYPE_STRING end →
  Forall (λ v, wf_scalar P v ∧ type_of v = t) items →
  writes (λ out, write_value out (Array items)) (read_value name) (name, Array items) 2 (values_entry (Array items)).
Proof.
  intros Hlen Ht Et Hi. destruct (items_writes t items Hi) as (w & Hw & He & Hl).
  destruct (type_bits t Ht) as (_ & Hna & Hflag & Helem & Hbyte). pose proof (min_wire_bytes_pos t).
  pose proof (length_kv_varint (Z.of_nat (length items))). exists ([Z.lor t ARRAY_FLAG] ++ kv_varint (Z.of_nat (length items)) ++ w).
  split; [|split; [|rewrite !length_app; cbn; lia]].
  - intros out. cbn [write_value]. rewrite <- Et, Hw, write_kv_varint_app, <- !app_assoc. done.
  - unfold read_value. eapply (kv_emits_bind _ _ _ _ _ _ 0); [by apply emits_byte | | apply (values_entry_nonneg (Array items))].
    rewrite Hflag. cbn [negb]. cbv zeta. rewrite Helem, (proj2 (Z.eqb_neq _ _) Hna).
    eapply (kv_emits_bind _ _ _ _ _ _ 0); [apply emits_kv_varint; unfold wf_length in Hlen; lia | | apply (values_entry_nonneg (Array items))].
    apply emits_left. intros have Hh. rewrite (proj2 (Z.ltb_ge _ _)) by (apply Z.div_le_lower_bound; lia).
    eapply (kv_emits_bind _ _ _ _ [] w); [apply emits_budget | | apply sum_items_nonneg].
    rewrite Nat2Z.id. by apply (emits_wrap _ (λ l, (name, Array l))).
Qed.

Lemma value_writes name v : wf_entry P (name, v) →
  writes (λ out, write_value out v) (read_value name) (name, v) 2 (values_entry v).
Proof.
  intros [_ Hv]. cbn [snd] in Hv. destruct (match v with Array _ => true | _ => false end) eqn:Ev.
  - destruct v as [| | | | | |items]; try done. destruct Hv as [Hlen [t Hi]]. destruct items as [|e items].
    + by apply (array_value_writes _ _ TYPE_STRING).
    + pose proof Hi as [[He Et] _]%Forall_cons. apply (array_value_writes _ _ t); [done| |by symmetry|done].
      rewrite <- Et. by apply scalar_type.
  - assert (wf_scalar P v ∧ values_entry v = values_scalar v ∧ ∀ out, write_value out v = write_scalar (out ++ [type_of v]) v)
      as (Hs & -> & Hwv) by (by destruct v).
    destruct (type_bits _ (scalar_type v Hs)) as (Hfl & Hna & _). destruct (scalar_writes v Hs) as (w & Hw & He & Hl).
    pose proof (min_wire_bytes_pos (type_of v)). exists ([type_of v] ++ w). split; [|split; [|rewrite length_app; cbn; lia]].
    + intros out. by rewrite Hwv, Hw, app_assoc.
    + unfold read_value. pose proof (scalar_type v Hs). eapply (kv_emits_bind _ _ _ _ _ _ 0); [apply emits_byte; lia | | apply values_scalar_nonneg].
      rewrite Hfl, (proj2 (Z.eqb_neq _ _) Hna). by apply (emits_wrap _ (λ v, (name, v))).
Qed.

Lemma entry_emits name w v c : wf_name name → emits (read_value name) (name, v) w c → 0 ≤ c →
  emits (read_entry R) (name, v) ([Z.of_nat (length name)] ++ name ++ w) c.
Proof.
  intros (Hb & Hu & Hl) He Hc. unfold read_entry.
  eapply (kv_emits_bind _ _ _ _ _ _ 0); [apply emits_byte; lia | | done]. rewrite (proj2 (Z.eqb_neq _ 0)) by lia.
  eapply (kv_emits_bind _ _ _ _ _ _ 0); [apply emits_take; by rewrite Nat2Z.id | | done]. rewrite Hu. exact He.
Qed.

Lemma write_entries_cons out name v s : wf_name name →
  write_entries write_scalar out ((name, v) :: s) =
  match write_value ((out ++ [Z.of_nat (length name)]) ++ name) v with
  | Some out => write_entries write_scalar out s
  | None => None
  end.
Proof.
  intros (_ & _ & Hl). cbn [write_entries]. rewrite (proj2 (Nat.eqb_neq _ 0)), (proj2 (Nat.leb_le _ 255)) by lia. done.
Qed.

Lemma entries_writes s : Forall (wf_entry P) s →
  writes (λ out, write_entries write_scalar out s) (read_many (length s) (read_entry R)) s
    (MIN_ENTRY_BYTES * Z.of_nat (length s)) (sum_entries values_scalar s).
Proof.
  induction 1 as [|[name v] s He _ (w & Hw & Hem & Hl)].
  - exists []. split; [intros out; by rewrite app_nil_r|]. split; [apply kv_emits_ret | done].
  - destruct (value_writes name v He) as (w1 & Hw1 & He1 & Hl1). destruct He as [Hn _]. cbn [fst] in Hn.
    exists (([Z.of_nat (length name)] ++ name ++ w1) ++ w). split; [|split].
    + intros out. rewrite write_entries_cons by done. rewrite Hw1, Hw, <- !app_assoc. done.
    + rewrite sum_entries_cons. cbn [length read_many]. eapply kv_emits_bind; [|by apply (emits_wrap _ (cons (name, v))) | apply sum_entries_nonneg].
      apply entry_emits; [done..|apply values_entry_nonneg].
    + destruct Hn as (_ & _ & Hn). rewrite !length_app. cbn [length]. unfold MIN_ENTRY_BYTES in *. lia.
Qed.

End RoundTrip.

Lemma section_writes levels s : wf_section levels s →
  writes (λ out, write_section out s) (read_section levels) s 1 (values_section s).
Proof.
  revert s. induction levels as [|levels IH]; intros s; [done|]. intros [Hl Hs].
  destruct (entries_writes _ _ IH s Hs) as (w & Hw & He & Hlen).
  exists (kv_varint (Z.of_nat (length s)) ++ w). split; [|split].
  - intros out. unfold write_section. by rewrite Hw, write_kv_varint_app, app_assoc.
  - cbn [read_section]. pose proof (sum_entries_nonneg s).
    eapply (kv_emits_bind _ _ _ _ _ _ 0 (values_section s));
      [apply emits_kv_varint; unfold wf_length in Hl; lia | | unfold values_section; lia].
    apply emits_left. intros have Hh. rewrite (proj2 (Z.ltb_ge _ _)) by (apply Z.div_le_lower_bound; unfold MIN_ENTRY_BYTES in *; lia).
    eapply (kv_emits_bind _ _ _ _ [] w); [apply emits_budget | | done]. by rewrite Nat2Z.id.
  - pose proof (length_kv_varint (Z.of_nat (length s))). rewrite length_app. lia.
Qed.

Lemma encode_decode s : wf_section (MAX_DEPTH + 1) s → values_section s ≤ MAX_VALUES →
  ∃ w, encode s = Some w ∧ ∀ k, decode (w ++ k) = Ok s.
Proof.
  intros Hs Hv. destruct (section_writes _ _ Hs) as (w & Hw & He & _). exists (HEADER ++ w).
  split; [apply Hw|]. intros k. unfold decode. rewrite <- app_assoc, !length_app.
  rewrite (proj2 (Nat.ltb_ge _ _)) by lia. unfold slice. rewrite drop_0, take_app_length, bool_decide_eq_true_2 by done. cbn [orb negb].
  rewrite (He (HEADER ++ w ++ k) (length HEADER) MAX_VALUES k); [done|by rewrite drop_app_length|rewrite length_app; lia|done].
Qed.

(** ** What the reader accepts *)

(** Every result of [p] satisfies [Q], and [cost] of it was charged to the budget. *)
Definition yields {A} (p : KvReader A) (Q : A → Prop) (cost : A → Z) : Prop :=
  ∀ input c a c', is_bytes input → 0 ≤ c_budget c → p input c = Ok (a, c') →
  Q a ∧ c_budget c = c_budget c' + cost a ∧ 0 ≤ c_budget c'.

Lemma yields_bind {A B} (p : KvReader A) (f : A → KvReader B) (Q : A → Prop) (ca : A → Z) Q' cb :
  yields p Q ca → (∀ a, Q a → yields (f a) Q' (λ b, cb b - ca a)) → yields (p ≫= f) Q' cb.
Proof.
  intros Hp Hf input c b c'' Hi Hc. unfold mbind, KvReader_bind. destruct (p input c) as [[a c']|e] eqn:E; [|done].
  intros H. apply Hp in E as (Ha & Hb & Hc'); [|done..]. apply (Hf a Ha) in H as (? & ? & ?); [|done..]. repeat split; [done|lia|done].
Qed.

Lemma yields_ret {A} (a : A) (Q : A → Prop) cost : Q a → cost a = 0 → yields (mret a) Q cost.
Proof. intros HQ Hc input c a' c' _ H [= <- <-]. rewrite Hc, Z.add_0_r. done. Qed.

Lemma yields_fail {A} e (Q : A → Prop) cost : yields (fail e) Q cost.
Proof. intros input c a c' _ _ [=]. Qed.

Lemma yields_if {A} (b : bool) (p q : KvReader A) Q cost :
  (b = true → yields p Q cost) → (b = false → yields q Q cost) → yields (if b then p else q) Q cost.
Proof. destruct b; auto. Qed.

(** A bind whose first reader costs nothing. *)
Lemma yields_bind0 {A B} (p : KvReader A) (f : A → KvReader B) (Q : A → Prop) Q' cb :
  yields p Q (λ _, 0) → (∀ a, Q a → yields (f a) Q' cb) → yields (p ≫= f) Q' cb.
Proof.
  intros Hp Hf. eapply yields_bind; [exact Hp|]. intros a Ha input c b c' Hi Hc H.
  destruct (Hf a Ha input c b c' Hi Hc H) as (? & ? & ?). repeat split; [done|lia|done].
Qed.

Lemma yields_left : yields left (λ _, True) (λ _, 0).
Proof. intros input c a c' _ H [= <- <-]. repeat split; [lia|done]. Qed.

Lemma yields_budget n : 0 ≤ n → yields (Budget_take n) (λ _, True) (λ _, n).
Proof.
  intros Hn input c a c' _ H. unfold Budget_take. destruct (c_budget c <? n) eqn:E; [done|]. intros [= <- <-]. bool_hyps.
  cbn. repeat split; lia.
Qed.

Lemma yields_take n : yields (take n) (λ bs, is_bytes bs ∧ length bs = n) (λ _, 0).
Proof.
  intros input c a c' Hi H. unfold take. destruct (_ <? _)%nat eqn:E; [done|]. intros [= <- <-]. bool_hyps. cbn.
  split; [split; [unfold slice; auto with bytes_db | apply length_slice; lia] | split; [lia|done]].
Qed.

Lemma yields_take_uint n : yields (take_uint n) (λ v, 0 ≤ v < 256 ^ Z.of_nat n) (λ _, 0).
Proof.
  eapply yields_bind0; [apply yields_take|]. intros bs [Hb <-]. apply yields_ret; [by apply from_le_bytes_bound|done].
Qed.

Lemma yields_take_int n : (0 < n)%nat →
  yields (take_int n) (λ i, - 2 ^ (8 * Z.of_nat n - 1) ≤ i < 2 ^ (8 * Z.of_nat n - 1)) (λ _, 0).
Proof.
  intros Hn. eapply yields_bind0; [apply yields_take|]. intros bs [Hb <-]. apply yields_ret; [apply as_signed_bound; lia|done].
Qed.

Lemma yields_kv_varint : yields read_kv_varint (λ v, 0 ≤ v < 2 ^ 62) (λ _, 0).
Proof.
  intros input c v c' Hi H. unfold read_kv_varint. intros (b0 & _ & Hr)%result_bind_Ok. cbv zeta in Hr.
  set (size := match Z.land b0 3 with 0 => 1%nat | 1 => 2%nat | 2 => 4%nat | _ => 8%nat end) in *.
  assert (size ≤ 8)%nat as Hs by (unfold size; repeat case_match; lia). clearbody size.
  destruct (_ <? _)%nat eqn:E in Hr; [done|]. bool_hyps. injection Hr as <- <-. cbn. split; [|lia].
  pose proof (from_le_bytes_bound (slice input (c_pos c) size ++ replicate (8 - size) 0)) as Hb.
  rewrite length_app, length_slice, length_replicate in Hb by lia. replace (size + (8 - size))%nat with 8%nat in Hb by lia.
  change (256 ^ Z.of_nat 8) with (2 ^ 62 * 4) in Hb. rewrite Z.shiftr_div_pow2 by lia. change (2 ^ 2) with 4.
  split; [apply Z.div_pos; [apply Hb|lia] | apply Z.div_lt_upper_bound; [lia|]; rewrite Z.mul_comm; apply Hb];
    (apply is_bytes_app; split; [unfold slice; auto with bytes_db | by apply Forall_replicate]).
Qed.

Fixpoint total_cost {A} (cost : A → Z) (l : list A) : Z := match l with [] => 0 | a :: l => cost a + total_cost cost l end.

Lemma yields_many {A} (p : KvReader A) Q cost n : yields p Q cost →
  yields (read_many n p) (λ l, Forall Q l ∧ length l = n) (total_cost cost).
Proof.
  intros Hp. induction n as [|n IH]; [by apply yields_ret|]. cbn [read_many].
  eapply yields_bind; [exact Hp|]. intros a Ha. eapply yields_bind; [exact IH|]. intros l [Hl <-].
  apply yields_ret; [split; [by constructor|done] | cbn; lia].
Qed.

Section Accepted.
Context (P : KvSection → Prop) (R : KvReader KvSection).
Hypothesis HR : yields R P values_section.

Lemma yields_map {A} (p : KvReader A) (f : A → Value) Q Q' :
  yields p Q (λ _, 0) → (∀ a, Q a → Q' (f a)) → (∀ a, values_scalar (f a) = 0) → yields (v ← p; mret (f v)) Q' values_scalar.
Proof. intros Hp HQ Hc. eapply yields_bind0; [exact Hp|]. intros a Ha. apply yields_ret; auto. Qed.

Lemma yields_scalar ty : yields (read_scalar R ty) (λ v, wf_scalar P v ∧ type_of v = ty) values_scalar.
Proof.
  unfold read_scalar.
  do 4 (apply yields_if; [intros E%Z.eqb_eq; subst ty; eapply yields_map; [apply yields_take_int; lia | by intros a Ha | done] | intros _]).
  do 4 (apply yields_if; [intros E%Z.eqb_eq; subst ty; eapply yields_map; [by apply yields_take_uint | by intros a Ha | done] | intros _]).
  apply yields_if; [intros E%Z.eqb_eq; subst ty; eapply yields_map; [by apply yields_take_uint | by intros a Ha | done] | intros _].
  apply yields_if; [intros E%Z.eqb_eq; subst ty|intros _].
  { eapply yields_bind0; [apply yields_kv_varint|]. intros n Hn. eapply yields_bind0; [apply yields_left|]. intros have _.
    apply yields_if; [intros _; apply yields_fail|intros _]. eapply yields_map; [apply yields_take| |done].
    intros s [Hs Hl]. split; [|done]. cbn [wf_scalar]. cbv beta in Hn. split; [done|]. unfold wf_length. lia. }
  apply yields_if; [intros E%Z.eqb_eq; subst ty; eapply yields_map; [by apply yields_take_uint | by intros a Ha | done] | intros _].
  apply yields_if; [intros E%Z.eqb_eq; subst ty|intros _; apply yields_fail].
  eapply yields_bind; [exact HR|]. intros s Hs. apply yields_ret; [done|]. cbn. unfold values_section. lia.
Qed.

Lemma total_items l : total_cost values_scalar l = sum_items values_scalar l.
Proof. by induction l as [|v l IH]; [|cbn; rewrite IH]. Qed.

Lemma yields_entry : yields (read_entry R) (wf_entry P) (λ e, values_entry e.2).
Proof.
  unfold read_entry. eapply yields_bind0; [apply yields_take_uint|]. intros n Hn.
  apply yields_if; [intros _; apply yields_fail|]. intros Hn0%Z.eqb_neq.
  eapply yields_bind0; [apply yields_take|]. intros name [Hb Hl].
  apply yields_if; [intros _; apply yields_fail|]. intros Hu%negb_false_iff.
  assert (wf_name name) as Hname by (cbv beta in Hn; change (256 ^ Z.of_nat 1) with 256 in Hn; split; [done|split; [done|lia]]).
  eapply yields_bind0; [apply yields_take_uint|]. intros ty _. apply yields_if; intros _.
  - cbv zeta. apply yields_if; [intros _; apply yields_fail|]. intros _. set (elem := Z.land ty _).
    eapply yields_bind0; [apply yields_kv_varint|]. intros cnt Hcnt. cbv beta in Hcnt. eapply yields_bind0; [apply yields_left|]. intros have _.
    apply yields_if; [intros _; apply yields_fail|]. intros _. eapply yields_bind; [apply yields_budget; lia|]. intros [] _.
    eapply yields_bind; [apply yields_many, yields_scalar|]. intros items [Hi Hli].
    apply yields_ret; [|cbn; rewrite total_items; lia]. split; [done|]. cbn. split; [unfold wf_length; lia|by exists elem].
  - apply yields_if; [intros _; apply yields_fail|]. intros _. eapply yields_bind; [apply yields_scalar|]. intros v [Hv _].
    assert (match v with Array _ => False | _ => True end) as Hna by (by destruct v).
    apply yields_ret; [split; [done|by destruct v] | destruct v; try done; apply Z.sub_diag].
Qed.

End Accepted.

Lemma total_entries s : total_cost (λ e, values_entry e.2) s = sum_entries values_scalar s.
Proof. induction s as [|[name v] s IH]; [done|]. rewrite sum_entries_cons, <- IH. done. Qed.

Lemma yields_section levels : yields (read_section levels) (wf_section levels) values_section.
Proof.
  induction levels as [|levels IH]; [apply yields_fail|]. cbn [read_section].
  eapply yields_bind0; [apply yields_kv_varint|]. intros count Hcount. cbv beta in Hcount. eapply yields_bind0; [apply yields_left|]. intros have _.
  apply yields_if; [intros _; apply yields_fail|]. intros _. eapply yields_bind; [apply yields_budget; lia|]. intros [] _.
  intros input c s c' Hi Hc H. destruct (yields_many _ _ _ _ (yields_entry _ _ IH) input c s c' Hi Hc H) as ([Hs Hl] & Hb & Hc').
  rewrite total_entries in Hb. split; [split; [unfold wf_length; lia|done]|]. unfold values_section. split; [lia|done].
Qed.

(** Whatever the reader accepts is such a section. *)
Lemma decode_wf input s : is_bytes input → decode input = Ok s → wf_section (MAX_DEPTH + 1) s ∧ values_section s ≤ MAX_VALUES.
Proof.
  intros Hi. unfold decode. destruct (_ || _); [done|]. intros ([s' c'] & H & [= ->])%result_bind_Ok.
  apply yields_section in H as (Hs & Hb & Hc); [|done|cbn; unfold MAX_VALUES; lia]. cbn [c_budget] in Hb. split; [done|lia].
Qed.

(** C38. The KV codec loses nothing. A section whose names are 1 to 255 UTF-8 bytes,
    whose integers fit their declared width, whose arrays are of one type, nested
    at most [MAX_DEPTH] objects deep and holding at most [MAX_VALUES] values, is
    encoded without a panic and read back from any document that starts with the
    encoding; and every section the reader accepts, whatever the peer sent, is
    such a section, so that it can be re-encoded and read back. *)
Theorem kv_codec s :
  (wf_section (MAX_DEPTH + 1) s → values_section s ≤ MAX_VALUES →
     ∃ w, encode s = Some w ∧ ∀ k, decode (w ++ k) = Ok s) ∧
  (∀ input, is_bytes input → decode input = Ok s → wf_section (MAX_DEPTH + 1) s ∧ values_section s ≤ MAX_VALUES).
Proof.
  split; [apply encode_decode|]. intros input. apply decode_wf.
Qed.
