(* ===== verification/Difficulty.v ===== *)
(** The difficulty algorithms (crates/wrkz-primitives/src/difficulty.rs). The
    functions return [option (option Z)]: the outer [None] is a panic (a division
    by zero, an index out of range), the inner option is the source's. Plain
    [i64] operators wrap, as in the release build. *)
From stdpp Require Import sorting.
From S2P Require Import Prelude Constants.
Local Open Scope Z_scope.

(** [v as i64], and the result of a plain or [wrapping_] operation on [i64]. *)
Abbreviation i64 := (as_signed 64).
Definition i64_max : Z := 2 ^ 63 - 1.

(** [Ord::clamp] *)
Definition clamp (v low high : Z) : Z := if v <? low then low else if high <? v then high else v.

(** [st] of one turn of the loop. *)
Definition solve_time (ts : list Z) (clamp_low clamp_high : Z) (i : nat) : Z :=
  clamp (i64 (i64 (ts !!! i) - i64 (ts !!! (i - 1)%nat))) clamp_low clamp_high.

Definition lwma_step (ts : list Z) (clamp_low clamp_high : Z) (acc : Z * Z) (i : nat) : Z * Z :=
  let n := Z.of_nat DIFFICULTY_WINDOW_V3 in
  let '(l, sum_3_st) := acc in
  let st := solve_time ts clamp_low clamp_high i in
  (i64 (l + i64 (st * Z.of_nat i)),
   if n - 3 <? Z.of_nat i then i64 (sum_3_st + st) else sum_3_st).

(** A division of [i64]: it panics on a zero divisor and on [i64::MIN / -1]. *)
Definition i64_div (a b : Z) : option Z :=
  if (b =? 0) || (a =? - 2 ^ 63) && (b =? -1) then None else Some (Z.quot a b).

Definition lwma_common (ts cum : list Z) (clamp_low clamp_high band_low band_high : Z) : option (option (Z * Z * Z)) :=
  let t := DIFFICULTY_TARGET in
  let n := Z.of_nat DIFFICULTY_WINDOW_V3 in
  let '(l, sum_3_st) := foldl (lwma_step ts clamp_low clamp_high) (0, 0) (seq 1 DIFFICULTY_WINDOW_V3) in
  if l =? 0 then Some None
  else
    let total := i64 (wrapping_sub 64 (cum !!! DIFFICULTY_WINDOW_V3) (cum !!! 0%nat)) in
    let scaled := i64 (i64 (i64 (total * t) * (n + 1)) * 99) in
    next_d ← i64_div scaled (i64 (100 * 2 * l));
    let prev_d := i64 (wrapping_sub 64 (cum !!! DIFFICULTY_WINDOW_V3) (cum !!! (DIFFICULTY_WINDOW_V3 - 1)%nat)) in
    let low := Z.quot (i64 (prev_d * band_low)) 100 in
    let high := Z.quot (i64 (prev_d * band_high)) 100 in
    let next_d := Z.max low (Z.min next_d high) in
    Some (Some (next_d, prev_d, sum_3_st)).

Definition windows_long_enough (ts cum : list Z) : bool :=
  let need := (DIFFICULTY_WINDOW_V3 + 1)%nat in
  (need <=? length ts)%nat && (need <=? length cum)%nat.

(** [lwma_common(..)?] *)
Definition try_lwma (o : option (option (Z * Z * Z))) (k : Z → Z → Z → Z) : option (option Z) :=
  match o with
  | None => None
  | Some None => Some None
  | Some (Some (next_d, prev_d, sum_3_st)) => Some (Some (wrap 64 (k next_d prev_d sum_3_st)))
  end.

Definition next_difficulty_v5 (ts cum : list Z) : option (option Z) :=
  if negb (windows_long_enough ts cum) then Some (Some 10000)
  else
    let t := DIFFICULTY_TARGET in
    try_lwma (lwma_common ts cum (-4 * t) (6 * t) 67 150) (λ next_d prev_d sum_3_st,
      if sum_3_st <? Z.quot (8 * t) 10 then Z.max next_d (Z.quot (i64 (prev_d * 108)) 100) else next_d).

Definition next_difficulty_v4 (ts cum : list Z) : option (option Z) :=
  if negb (windows_long_enough ts cum) then Some (Some 1000)
  else
    let t := DIFFICULTY_TARGET in
    try_lwma (lwma_common ts cum (-6 * t) i64_max 67 150) (λ next_d prev_d sum_3_st,
      if sum_3_st <? Z.quot (8 * t) 10 then Z.max next_d (Z.quot (i64 (prev_d * 110)) 100) else next_d).

Definition next_difficulty_v3 (ts cum : list Z) : option (option Z) :=
  if negb (windows_long_enough ts cum) then Some (Some 1000)
  else
    let t := DIFFICULTY_TARGET in
    let ftl := CRYPTONOTE_BLOCK_FUTURE_TIME_LIMIT_V3 in
    try_lwma (lwma_common ts cum (- ftl) (6 * t) 70 107) (λ next_d prev_d sum_3_st,
      if sum_3_st <? Z.quot (8 * t) 10 then Z.quot (i64 (prev_d * 110)) 100 else next_d).

(** [sort_unstable] on integers. *)
Definition sort (l : list Z) : list Z := merge_sort Z.le l.

(** [v.max(1)] written as the source's [if v == 0 { v = 1 }]. *)
Definition at_least_one (span : Z) : Z := if span =? 0 then 1 else span.

Definition next_difficulty_legacy (version parent_index : Z) (timestamps_in cum_in : list Z) : option (option Z) :=
  let window := difficulty_window version in
  let cut := difficulty_cut version in
  let len := Nat.min (length timestamps_in) window in
  if (len <=? 1)%nat then Some (Some 1)
  else if (length cum_in <? len)%nat then Some None
  else
    let timestamps_o := take len timestamps_in in
    let cum := take len cum_in in
    let timestamps := sort timestamps_o in
    let '(cut_begin, cut_end) :=
      if (len <=? window - 2 * cut)%nat then (0%nat, len)
      else
        let b := ((len - (window - 2 * cut) + 1) / 2)%nat in
        (b, (b + (window - 2 * cut))%nat) in
    let time_span := at_least_one (timestamps !!! (cut_end - 1)%nat - timestamps !!! cut_begin) in
    let total_work := wrapping_sub 64 (cum !!! (cut_end - 1)%nat) (cum !!! cut_begin) in
    let product := total_work * DIFFICULTY_TARGET in
    let low := wrap 64 product in
    let high := wrap 64 (Z.shiftr product 64) in
    if negb (high =? 0) || (u64_max - low <? time_span - 1) then Some (Some 0)
    else
      let zawy_version := if ZAWY_DIFFICULTY_V2 then 2 else ZAWY_DIFFICULTY_DIFFICULTY_BLOCK_VERSION in
      if (zawy_version <=? version) && negb (zawy_version =? 0) then Some (Some (low / time_span))
      else if negb (ZAWY_DIFFICULTY_BLOCK_INDEX =? 0) && (ZAWY_DIFFICULTY_BLOCK_INDEX <=? parent_index) then
        let t_window := Nat.min 17 (length timestamps_o) in
        let ts := sort (drop (length timestamps_o - t_window) timestamps_o) in
        let cd := drop (length cum - t_window) cum in
        let span := at_least_one (ts !!! (t_window - 1)%nat - ts !!! 0%nat) in
        let work := wrapping_sub 64 (cd !!! (t_window - 1)%nat) (cd !!! 0%nat) in
        let p := work * DIFFICULTY_TARGET in
        if negb (Z.shiftr p 64 =? 0) then Some (Some 0)
        else Some (Some (Z.max (wrap 64 p / span) 100))
      else Some (Some (div_ceil low time_span)).

Definition next_difficulty (next_version parent_index : Z) (ts cum : list Z) : option (option Z) :=
  if LWMA_2_DIFFICULTY_BLOCK_INDEX_V3 <=? parent_index then next_difficulty_v5 ts cum
  else if LWMA_2_DIFFICULTY_BLOCK_INDEX_V2 <=? parent_index then next_difficulty_v4 ts cum
  else if LWMA_2_DIFFICULTY_BLOCK_INDEX <=? parent_index then next_difficulty_v3 ts cum
  else next_difficulty_legacy next_version parent_index ts cum.

Definition is_valid_difficulty (d : Z) : bool := negb (d =? 0).

(** * Proofs *)

Lemma i64_small v : - 2 ^ 63 ≤ v < 2 ^ 63 → i64 v = v.
Proof. by apply (as_signed_range 64). Qed.

Lemma clamp_bounds v low high : low ≤ high → low ≤ clamp v low high ≤ high.
Proof. intros H. unfold clamp. destruct (v <? low) eqn:E1, (high <? v) eqn:E2; bool_hyps; lia. Qed.

(** The linearly weighted sum of the first [n] solve times, and the sum of those
    after the 57th. *)
Fixpoint weighted (st : nat → Z) (n : nat) : Z :=
  match n with O => 0 | S m => weighted st m + st (S m) * Z.of_nat (S m) end.
Fixpoint tail_sum (st : nat → Z) (n : nat) : Z :=
  match n with O => 0 | S m => tail_sum st m + if (57 <? S m)%nat then st (S m) else 0 end.

Lemma weighted_bound st B n : (∀ i, - B ≤ st i ≤ B) → 0 ≤ B →
  - (B * Z.of_nat (n * (n + 1))) ≤ 2 * weighted st n ≤ B * Z.of_nat (n * (n + 1)).
Proof.
  intros Hst HB. induction n as [|n IH]; [cbn; lia|]. cbn [weighted]. pose proof (Hst (S n)).
  rewrite Nat2Z.inj_mul, Nat2Z.inj_add in *. rewrite Nat2Z.inj_succ in *. nia.
Qed.

Lemma tail_sum_bound st B n : (∀ i, - B ≤ st i ≤ B) → 0 ≤ B → - (B * Z.of_nat n) ≤ tail_sum st n ≤ B * Z.of_nat n.
Proof.
  intros Hst HB. induction n as [|n IH]; [cbn; lia|]. cbn [tail_sum]. pose proof (Hst (S n)). destruct (_ <? _)%nat; nia.
Qed.

(** The weighted sum of the solve times of the window. *)
Definition lwma_weight (ts : list Z) (lo hi : Z) : Z := weighted (solve_time ts lo hi) 60.

(** Without overflow the loop of [lwma_common] computes those two sums. *)
Lemma lwma_loop ts lo hi : lo ≤ hi → - 2 ^ 44 ≤ lo →
  (∀ i, (1 ≤ i ≤ 60)%nat → solve_time ts lo hi i ≤ 2 ^ 44) →
  foldl (lwma_step ts lo hi) (0, 0) (seq 1 60) = (lwma_weight ts lo hi, tail_sum (solve_time ts lo hi) 60) ∧
  - (2 ^ 44 * 1830) ≤ lwma_weight ts lo hi ≤ 2 ^ 44 * 1830.
Proof.
  unfold lwma_weight.
  intros Hlh Hlo Hhi. set (st := solve_time ts lo hi) in *.
  set (st' := λ i, if decide (1 ≤ i ≤ 60)%nat then st i else 0).
  assert (∀ i, - 2 ^ 44 ≤ st' i ≤ 2 ^ 44) as Hst'.
  { intros i. unfold st'. destruct (decide _) as [Hi|]; [|lia]. pose proof (Hhi i Hi).
    pose proof (clamp_bounds (i64 (i64 (ts !!! i) - i64 (ts !!! (i - 1)%nat))) lo hi Hlh). unfold st, solve_time in *. lia. }
  assert (∀ k, (k ≤ 60)%nat → foldl (lwma_step ts lo hi) (0, 0) (seq 1 k) = (weighted st' k, tail_sum st' k)
    ∧ weighted st k = weighted st' k ∧ tail_sum st k = tail_sum st' k) as H.
  { induction k as [|k IH]; intros Hk; [done|]. destruct (IH ltac:(lia)) as (E1 & E2 & E3).
    assert (st (S k) = st' (S k)) as Est by (unfold st'; destruct (decide _); [done|lia]).
    rewrite seq_S, foldl_app, E1. cbn [foldl weighted tail_sum lwma_step]. fold st. rewrite E2, E3.
    replace (1 + k)%nat with (S k) by lia. rewrite Est.
    pose proof (Hst' (S k)). pose proof (weighted_bound st' (2 ^ 44) k Hst' ltac:(lia)). pose proof (tail_sum_bound st' (2 ^ 44) k Hst' ltac:(lia)).
    assert (k * (k + 1) ≤ 3540)%nat by nia.
    rewrite (i64_small (st' (S k) * _)), (i64_small (weighted _ _ + _)), (i64_small (tail_sum _ _ + _)) by nia.
    split; [|done]. f_equal. change (Z.of_nat DIFFICULTY_WINDOW_V3 - 3) with 57.
    destruct (57 <? Z.of_nat (S k)) eqn:Ea, (57 <? S k)%nat eqn:Eb; bool_hyps; lia. }
  destruct (H 60%nat ltac:(lia)) as (-> & -> & ->). split; [done|].
  pose proof (weighted_bound st' (2 ^ 44) 60 Hst' ltac:(lia)). lia.
Qed.


Section Window.
Context (ts cum : list Z).

(** The last difficulty and the work of the window, as the cumulative
    difficulties give them. *)
Definition prev_difficulty : Z := cum !!! 60%nat - cum !!! 59%nat.
Definition window_work : Z := cum !!! 60%nat - cum !!! 0%nat.

Hypothesis Hprev : 0 ≤ prev_difficulty ≤ window_work.
Hypothesis Hwork : window_work ≤ 25_000_000_000_000.

Lemma lwma_common_exact lo hi bl bh : lo ≤ hi → - 2 ^ 44 ≤ lo →
  (∀ i, (1 ≤ i ≤ 60)%nat → solve_time ts lo hi i ≤ 2 ^ 44) → 0 ≤ bl ≤ bh → bh ≤ 150 →
  lwma_common ts cum lo hi bl bh =
    if lwma_weight ts lo hi =? 0 then Some None
    else Some (Some
      (Z.max (prev_difficulty * bl / 100)
         (Z.min (Z.quot (window_work * 60 * 61 * 99) (200 * lwma_weight ts lo hi)) (prev_difficulty * bh / 100)),
       prev_difficulty, tail_sum (solve_time ts lo hi) 60)).
Proof.
  intros Hlh Hlo Hhi Hb1 Hb2. unfold lwma_common, DIFFICULTY_WINDOW_V3.
  destruct (lwma_loop ts lo hi Hlh Hlo Hhi) as [-> HW]. generalize dependent (lwma_weight ts lo hi). intros W HW.
  destruct (_ =? 0) eqn:E; [done|]. bool_hyps. unfold wrapping_sub.
  change (cum !!! 60%nat - cum !!! (60 - 1)%nat) with prev_difficulty. change (cum !!! 60%nat - cum !!! 0%nat) with window_work.
  generalize Hprev Hwork. generalize window_work as work, prev_difficulty as prev. clear Hprev Hwork. intros work prev Hprev Hwork. rewrite !wrap_small by (unfold in_u; lia).
  rewrite (i64_small work), (i64_small prev) by lia.
  unfold DIFFICULTY_TARGET. change (Z.of_nat 60 + 1) with 61.
  rewrite (i64_small (work * 60)) by lia. rewrite (i64_small (work * 60 * 61)) by lia.
  rewrite (i64_small (work * 60 * 61 * 99)) by lia.
  rewrite (i64_small (100 * 2 * _)) by lia. change (100 * 2) with 200.
  unfold i64_div. rewrite (proj2 (Z.eqb_neq (200 * _) 0)), (proj2 (Z.eqb_neq (200 * _) (-1))), andb_false_r by lia. cbn [orb mbind option_bind].
  rewrite !i64_small by nia. rewrite !(Z.quot_div_nonneg (prev * _)) by nia. done.
Qed.

End Window.

Lemma windows_long ts cum : (61 ≤ length ts)%nat → (61 ≤ length cum)%nat → windows_long_enough ts cum = true.
Proof. intros. unfold windows_long_enough, DIFFICULTY_WINDOW_V3. rewrite !(proj2 (Nat.leb_le _ _)) by lia. done. Qed.

Lemma band_u64 prev x : 0 ≤ prev ≤ 25_000_000_000_000 →
  let d := Z.max (prev * 67 / 100) (Z.min x (prev * 150 / 100)) in is_u64 d ∧ is_u64 (Z.max d (prev * 108 / 100)).
Proof.
  intros Hp. pose proof (Z.div_pos (prev * 67) 100 ltac:(lia) ltac:(lia)).
  pose proof (Z.div_le_upper_bound (prev * 67) 100 prev ltac:(lia) ltac:(lia)).
  pose proof (Z.div_le_upper_bound (prev * 150) 100 (prev * 2) ltac:(lia) ltac:(lia)).
  pose proof (Z.div_le_upper_bound (prev * 108) 100 (prev * 2) ltac:(lia) ltac:(lia)). cbv zeta. unfold in_u. split; lia.
Qed.

Lemma tail_sum_const st s : (∀ i, (1 ≤ i ≤ 60)%nat → st i = s) → tail_sum st 60 = 3 * s.
Proof.
  intros H. assert (∀ k, (k ≤ 57)%nat → tail_sum st k = 0) as H0.
  { induction k as [|k IH]; intros Hk; [done|]. cbn [tail_sum]. rewrite IH by lia. by rewrite (proj2 (Nat.ltb_ge 57 (S k))) by lia. }
  change (tail_sum st 60) with (tail_sum st 57 + st 58%nat + st 59%nat + st 60%nat). rewrite H0, !H by lia. lia.
Qed.

Lemma v5_exact ts cum : (61 ≤ length ts)%nat → (61 ≤ length cum)%nat →
  0 ≤ prev_difficulty cum ≤ window_work cum → window_work cum ≤ 25_000_000_000_000 →
  next_difficulty_v5 ts cum =
    let prev := prev_difficulty cum in
    let W := lwma_weight ts (-240) 360 in
    if W =? 0 then Some None
    else
      let d := Z.max (prev * 67 / 100) (Z.min (Z.quot (window_work cum * 60 * 61 * 99) (200 * W)) (prev * 150 / 100)) in
      Some (Some (if tail_sum (solve_time ts (-240) 360) 60 <? 48 then Z.max d (prev * 108 / 100) else d)).
Proof.
  intros Hts Hcum Hprev Hwork. unfold next_difficulty_v5. rewrite windows_long by done. cbn [negb].
  unfold DIFFICULTY_TARGET. change (-4 * 60) with (-240). change (6 * 60) with 360.
  rewrite (lwma_common_exact ts cum Hprev Hwork) by
    (lia || intros; pose proof (clamp_bounds (i64 (i64 (ts !!! i) - i64 (ts !!! (i - 1)%nat))) (-240) 360 ltac:(lia)); unfold solve_time; lia).
  cbv zeta. destruct (_ =? 0) eqn:E; [done|]. cbn [try_lwma]. change (Z.quot (8 * 60) 10) with 48.
  revert Hprev Hwork. generalize (window_work cum) as work, (prev_difficulty cum) as prev. intros work prev Hprev Hwork.
  rewrite (i64_small (prev * 108)) by lia. rewrite (Z.quot_div_nonneg (prev * 108)) by lia.
  pose proof (band_u64 prev (Z.quot (work * 60 * 61 * 99) (200 * lwma_weight ts (-240) 360)) ltac:(lia)) as [Hd Hm].
  by destruct (_ <? 48); rewrite wrap_small.
Qed.

(** C37. From height 128,800 one block moves the difficulty by at most a band: over a
    window of 61 blocks, whatever time stamps they carry, the next difficulty is
    between 67% and 150% of the last one, and it is undefined (the block is then
    rejected) exactly when the weighted solve times sum to zero. The work of the
    window is below the 2.5e13 at which the source says the product wraps. *)
Theorem lwma_band ts cum (parent_index version : Z) :
  LWMA_2_DIFFICULTY_BLOCK_INDEX_V3 ≤ parent_index → (61 ≤ length ts)%nat → (61 ≤ length cum)%nat →
  0 ≤ prev_difficulty cum ≤ window_work cum → window_work cum ≤ 25_000_000_000_000 →
  (next_difficulty version parent_index ts cum = Some None ↔ lwma_weight ts (-240) 360 = 0) ∧
  (lwma_weight ts (-240) 360 ≠ 0 → ∃ d, next_difficulty version parent_index ts cum = Some (Some d) ∧
     prev_difficulty cum * 67 / 100 ≤ d ≤ prev_difficulty cum * 150 / 100).
Proof.
  intros Hp Hts Hcum Hprev Hwork. unfold next_difficulty. rewrite (proj2 (Z.leb_le _ _) Hp), v5_exact by done. cbv zeta.
  generalize dependent (lwma_weight ts (-240) 360). intros W. destruct (W =? 0) eqn:E; bool_hyps; [done|]. split; [done|].
  intros _. eexists. split; [done|]. assert (prev_difficulty cum * 67 / 100 ≤ prev_difficulty cum * 108 / 100 ≤ prev_difficulty cum * 150 / 100).
  { split; apply Z.div_le_mono; lia. }
  destruct (_ <? 48); lia.
Qed.

Definition even_times (t0 s : Z) : list Z := map (λ i, t0 + s * Z.of_nat i) (seq 0 61).
Definition even_work (c0 d : Z) : list Z := map (λ i, c0 + d * Z.of_nat i) (seq 0 61).

Lemma lwma_band_witness : ∃ d, next_difficulty 5 200_000 (even_times 1_600_000_000 30) (even_work 5 1_000_000) = Some (Some d) ∧
  1_000_000 * 67 / 100 ≤ d ≤ 1_000_000 * 150 / 100.
Proof.
  apply (lwma_band (even_times 1_600_000_000 30) (even_work 5 1_000_000) 200_000 5); vm_compute; try (split; congruence); try congruence; lia.
Defined.

Lemma lookup_even a b k : (k < 61)%nat → map (λ i, a + b * Z.of_nat i) (seq 0 61) !!! k = a + b * Z.of_nat k.
Proof.
  intros Hk. apply list_lookup_total_correct. change (map ?f ?l) with (f <$> l). rewrite list_lookup_fmap, lookup_seq_lt by done. done.
Qed.

Lemma weighted_const st s n : (∀ i, (1 ≤ i ≤ n)%nat → st i = s) → 2 * weighted st n = s * Z.of_nat (n * (n + 1)).
Proof.
  induction n as [|n IH]; intros H; [cbn; lia|]. cbn [weighted]. rewrite H by lia. specialize (IH ltac:(intros; apply H; lia)).
  rewrite Nat2Z.inj_mul, Nat2Z.inj_add in *. rewrite Nat2Z.inj_succ in *. nia.
Qed.

(** Calibration of the LWMA: on a window whose blocks are [s] seconds apart and of
    difficulty [d], the next difficulty is 99% of [d * 60 / s] (the target spacing
    being 60 seconds), kept within the band. At the target spacing it is 99% of [d]. *)
Theorem lwma_steady_state t0 s c0 d : 16 ≤ s ≤ 360 → 0 ≤ t0 < 2 ^ 62 → 0 ≤ c0 → 0 < d ≤ 400_000_000_000 →
  next_difficulty_v5 (even_times t0 s) (even_work c0 d) =
    Some (Some (Z.max (d * 67 / 100) (Z.min (297 * d / (5 * s)) (d * 150 / 100)))).
Proof.
  intros Hs Ht Hc Hd. set (ts := even_times t0 s).
  assert (∀ i, (1 ≤ i ≤ 60)%nat → solve_time ts (-240) 360 i = s) as Hst.
  { intros i Hi. unfold solve_time, ts, even_times. rewrite !lookup_even by lia.
    rewrite (i64_small (t0 + s * Z.of_nat i)), (i64_small (t0 + s * Z.of_nat (i - 1))) by nia.
    replace (t0 + s * Z.of_nat i - (t0 + s * Z.of_nat (i - 1))) with s by nia. rewrite i64_small by lia.
    unfold clamp. destruct (s <? -240) eqn:E1, (360 <? s) eqn:E2; bool_hyps; lia. }
  assert (lwma_weight ts (-240) 360 = 1830 * s) as HW.
  { pose proof (weighted_const _ s 60 Hst) as H. unfold lwma_weight. lia. }
  assert (tail_sum (solve_time ts (-240) 360) 60 = 3 * s) as Htail by (apply tail_sum_const, Hst).
  assert (prev_difficulty (even_work c0 d) = d ∧ window_work (even_work c0 d) = 60 * d) as [Ep Ew].
  { unfold prev_difficulty, window_work, even_work. rewrite !lookup_even by lia. lia. }
  rewrite v5_exact by (rewrite ?Ep, ?Ew; try lia; done). cbv zeta. rewrite HW, Htail, Ep, Ew.
  rewrite (proj2 (Z.eqb_neq _ 0)), (proj2 (Z.ltb_ge _ 48)) by lia. do 4 f_equal. rewrite Z.quot_div_nonneg by lia.
  replace (60 * d * 60 * 61 * 99) with (297 * d * 73200) by lia. replace (200 * (1830 * s)) with (5 * s * 73200) by lia.
  rewrite Z.div_mul_cancel_r by lia. done.
Qed.

Lemma lwma_steady_state_witness : next_difficulty_v5 (even_times 1_600_000_000 60) (even_work 7 1_000_000) = Some (Some 990_000).
Proof. rewrite (lwma_steady_state 1_600_000_000 60 7 1_000_000); [reflexivity|lia..]. Defined.
