(* ===== verification/Fees.v ===== *)
(** The fee rules (crates/wrkz-primitives/src/fees.rs) and the mixin tiers
    (crates/wrkz-primitives/src/mixins.rs). The per-byte rates are [f64] constants,
    computed here with the binary64 operations of [F64]. *)
From Stdlib Require Import SpecFloat.
From S2P Require Import Prelude Constants F64.
Local Open Scope Z_scope.

Definition MINIMUM_FEE_PER_BYTE_V1 : f64 := f64_div (f64_of_u64 500) (f64_of_u64 FEE_PER_BYTE_CHUNK_SIZE).
Definition MINIMUM_FEE_PER_BYTE_V2 : f64 := f64_div (f64_of_u64 10) (f64_of_u64 FEE_PER_BYTE_CHUNK_SIZE_V2).

Definition transaction_fee (size h : Z) (fee_per_byte : f64) : Z :=
  if h <=? MINIMUM_FEE_V1_HEIGHT + 1 then MINIMUM_FEE
  else if h <? MINIMUM_FEE_PER_BYTE_V1_HEIGHT then MINIMUM_FEE_V1
  else if h <? MINIMUM_FEE_PER_BYTE_V2_HEIGHT then
    let chunks := div_ceil size FEE_PER_BYTE_CHUNK_SIZE in
    f64_to_u64 (f64_mul (f64_mul (f64_of_u64 chunks) fee_per_byte) (f64_of_u64 FEE_PER_BYTE_CHUNK_SIZE))
  else
    let chunks := div_ceil size FEE_PER_BYTE_CHUNK_SIZE_V2 in
    f64_to_u64 (f64_mul (f64_mul (f64_of_u64 chunks) fee_per_byte) (f64_of_u64 FEE_PER_BYTE_CHUNK_SIZE_V2)).

Definition minimum_transaction_fee (size h : Z) : Z :=
  let rate := if f64_gt (f64_of_u64 h) MINIMUM_FEE_PER_BYTE_V1 then MINIMUM_FEE_PER_BYTE_V2 else MINIMUM_FEE_PER_BYTE_V1 in
  transaction_fee size h rate.

Definition required_minimum_fee (size h : Z) : Z :=
  if MINIMUM_FEE_PER_BYTE_V1_HEIGHT <=? h then minimum_transaction_fee size h
  else if MINIMUM_FEE_V1_HEIGHT + 1 <? h then MINIMUM_FEE_V1
  else MINIMUM_FEE.

Definition is_valid_normal_fee (fee size h : Z) : bool := negb (fee =? 0) && (required_minimum_fee size h <=? fee).

Definition is_valid_fusion_fee (fee h : Z) : bool :=
  if (FUSION_FEE_V1_HEIGHT <=? h) && (h <? FUSION_ZERO_FEE_V2_HEIGHT) then FUSION_FEE_V1 <=? fee else true.

Definition wallet_max_tx_size (height : Z) : Z :=
  Z.min (max_block_cumulative_size height) 125_000 - CRYPTONOTE_COINBASE_BLOB_RESERVED_SIZE.

(** * Mixins *)

Record MixinRange := mkMixinRange { mr_min : Z; mr_max : Z; mr_default : Z }.

Definition mixin_allowable_range (height : Z) : MixinRange :=
  if MIXIN_LIMITS_V6_HEIGHT <=? height then mkMixinRange MINIMUM_MIXIN_V6 MAXIMUM_MIXIN_V6 DEFAULT_MIXIN_V6
  else if MIXIN_LIMITS_V5_HEIGHT <=? height then mkMixinRange MINIMUM_MIXIN_V5 MAXIMUM_MIXIN_V5 DEFAULT_MIXIN_V5
  else if MIXIN_LIMITS_V4_HEIGHT <=? height then mkMixinRange MINIMUM_MIXIN_V4 MAXIMUM_MIXIN_V4 DEFAULT_MIXIN_V4
  else if MIXIN_LIMITS_V3_HEIGHT <=? height then mkMixinRange MINIMUM_MIXIN_V3 MAXIMUM_MIXIN_V3 DEFAULT_MIXIN_V3
  else if MIXIN_LIMITS_V2_HEIGHT <=? height then mkMixinRange MINIMUM_MIXIN_V2 MAXIMUM_MIXIN_V2 DEFAULT_MIXIN_V2
  else if MIXIN_LIMITS_V1_HEIGHT <=? height then mkMixinRange MINIMUM_MIXIN_V1 MAXIMUM_MIXIN_V1 DEFAULT_MIXIN_V1
  else mkMixinRange 0 u64_max DEFAULT_MIXIN_V0.

Inductive MixinError : Type :=
| TooLarge (largest_mixin max : Z)
| TooSmall (smallest_mixin min : Z).

(** One turn of the loop: the largest and the smallest ring so far. *)
Definition ring_step (acc : Z * Z) (r : Z) : Z * Z :=
  let '(largest_ring, smallest_ring) := acc in
  (if largest_ring <? r then r else largest_ring, if r <? smallest_ring then r else smallest_ring).

Definition validate_ring_sizes (ring_sizes : list Z) (height : Z) : result MixinError unit :=
  let range := mixin_allowable_range height in
  let have_key_input := negb (length ring_sizes =? 0)%nat in
  let '(largest_ring, smallest_ring) := foldl ring_step (1, u64_max) ring_sizes in
  let smallest_ring :=
    if negb have_key_input || (smallest_ring <? 1) then (if have_key_input then 1 else largest_ring) else smallest_ring in
  let largest_mixin := largest_ring - 1 in
  let smallest_mixin := if MIXIN_LIMITS_V6_HEIGHT <=? height then smallest_ring - 1 else largest_mixin in
  if mr_max range <? largest_mixin then Err (TooLarge largest_mixin (mr_max range))
  else if smallest_mixin <? mr_min range then Err (TooSmall smallest_mixin (mr_min range))
  else Ok ().

(** * Proofs *)

(** A floating-point product by one of the two rates is exact. *)
Lemma rate_product c r m k chunk : is_norm r m (-6) → 0 < m → 0 < chunk < 2 ^ 53 → 0 ≤ c → c * m * chunk < 2 ^ 53 → m * chunk = k * 64 →
  f64_to_u64 (f64_mul (f64_mul (f64_of_u64 c) r) (f64_of_u64 chunk)) = c * k.
Proof.
  intros Hr Hm Hchunk Hc Hlt Hk. destruct (decide (c = 0)) as [->|Hne].
  - destruct (of_u64_norm chunk) as (p & e & -> & _); [done|]. by destruct Hr as (q & e' & -> & _).
  - assert (is_norm (f64_mul (f64_mul (f64_of_u64 c) r) (f64_of_u64 chunk)) (c * m * chunk) (-6)) as Hn.
    { replace (-6) with (0 + -6 + 0) by lia. apply mul_norm; [|by apply of_u64_norm|nia|nia|lia..].
      apply mul_norm; [apply of_u64_norm; nia|done|nia|lia..]. }
    rewrite (to_u64_norm _ _ _ Hn). change (-6) with (- (6)). rewrite Z.shiftl_opp_r, Z.shiftr_div_pow2 by lia.
    change (2 ^ 6) with 64. rewrite <- Z.mul_assoc, Hk, Z.mul_assoc, Z.div_mul by lia. nia.
Qed.

Lemma rate_v2_norm : is_norm MINIMUM_FEE_PER_BYTE_V2 5 (-6).
Proof. exists (Z.to_pos (5 * 2 ^ 50)), 50. split; [vm_compute; reflexivity | lia]. Qed.

(** From height 2 on the height compares above the old rate, 1.953125. *)
Lemma height_above_rate h : 2 ≤ h < 2 ^ 53 → f64_gt (f64_of_u64 h) MINIMUM_FEE_PER_BYTE_V1 = true.
Proof.
  intros Hh. destruct (of_u64_norm h ltac:(lia)) as (p & k & -> & Hk & Ep & Hp).
  assert (MINIMUM_FEE_PER_BYTE_V1 = S754_finite false (Z.to_pos (125 * 2 ^ 46)) (-52)) as -> by (vm_compute; reflexivity).
  assert (k < 52) as Hk2.
  { destruct (Z.lt_ge_cases k 52); [done|]. pose proof (Z.pow_le_mono_r 2 52 k). nia. }
  unfold f64_gt, SFltb, SFcompare. by rewrite (proj2 (Z.compare_lt_iff (-52) (0 - k))) by lia.
Qed.

(** The fee schedule in integers. *)
Definition fee_schedule (size h : Z) : Z :=
  if h <=? 678_501 then 5
  else if h <? 832_000 then 50_000
  else if h <? 1_500_000 then 20 * div_ceil size 256
  else 10 * div_ceil size 128.

Lemma div_ceil_bound a b : 0 ≤ a → 1 < b → 0 ≤ div_ceil a b ≤ a + 1.
Proof. intros Ha Hb. unfold div_ceil. split; [apply Z.div_pos; lia|]. apply Z.div_le_upper_bound; nia. Qed.

Lemma required_minimum_fee_schedule size h : 0 ≤ h < 2 ^ 53 → 0 ≤ size < 2 ^ 40 →
  required_minimum_fee size h = fee_schedule size h.
Proof.
  intros Hh Hsize. unfold required_minimum_fee, fee_schedule, minimum_transaction_fee, transaction_fee.
  unfold MINIMUM_FEE_PER_BYTE_V1_HEIGHT, MINIMUM_FEE_PER_BYTE_V2_HEIGHT, MINIMUM_FEE_V1_HEIGHT, MINIMUM_FEE, MINIMUM_FEE_V1.
  change (678_500 + 1) with 678_501.
  destruct (832_000 <=? h) eqn:E1, (h <=? 678_501) eqn:E2, (h <? 832_000) eqn:E3, (678_501 <? h) eqn:E4; bool_hyps; try lia; try done.
  rewrite height_above_rate by lia. pose proof rate_v2_norm.
  pose proof (div_ceil_bound size 256). pose proof (div_ceil_bound size 128).
  unfold FEE_PER_BYTE_CHUNK_SIZE, FEE_PER_BYTE_CHUNK_SIZE_V2.
  destruct (h <? 1_500_000); [rewrite (rate_product _ _ 5 20)|rewrite (rate_product _ _ 5 10)]; done || lia.
Qed.

(** The minimum fee, computed by the source in floating point with a rate chosen by
    comparing the height with another rate, is an integer schedule: 5 up to
    678,501, 50,000 up to 831,999, then 20 per started 256 bytes and, from
    1,500,000, 10 per started 128 bytes. A fee is valid when it is non-zero and
    reaches the schedule. *)
Theorem normal_fee_rule fee size h : 0 ≤ h < 2 ^ 53 → 0 ≤ size < 2 ^ 40 →
  is_valid_normal_fee fee size h = true ↔ fee ≠ 0 ∧ fee_schedule size h ≤ fee.
Proof.
  intros Hh Hs. unfold is_valid_normal_fee. rewrite required_minimum_fee_schedule by done.
  rewrite andb_true_iff, negb_true_iff, Z.eqb_neq, Z.leb_le. done.
Qed.

Lemma normal_fee_rule_witness : is_valid_normal_fee 30 257 4_000_000 = true ↔ 30 ≠ 0 ∧ fee_schedule 257 4_000_000 ≤ 30.
Proof. apply (normal_fee_rule 30 257 4_000_000); lia. Defined.

(** The largest ring is folded with 1, so an input without a ring counts as one. *)
Lemma ring_fold l a b : foldl ring_step (a, b) l = (foldr Z.max a l, foldr Z.min b l).
Proof.
  revert a b. induction l as [|r l IH]; intros a b; [done|]. cbn [foldl ring_step foldr]. rewrite IH. clear IH.
  f_equal.
  - revert a. induction l as [|x l IH]; intros a; cbn [foldr]; [destruct (a <? r) eqn:E; bool_hyps; lia|]. rewrite IH. lia.
  - revert b. induction l as [|x l IH]; intros b; cbn [foldr]; [destruct (r <? b) eqn:E; bool_hyps; lia|]. rewrite IH. lia.
Qed.

Lemma foldr_max_le a l m : foldr Z.max a l ≤ m ↔ a ≤ m ∧ Forall (λ r, r ≤ m) l.
Proof. induction l as [|r l IH]; cbn [foldr]; [rewrite Forall_nil; tauto|]. rewrite Forall_cons, Z.max_lub_iff, IH. tauto. Qed.

Lemma foldr_min_ge b l m : m ≤ foldr Z.min b l ↔ m ≤ b ∧ Forall (λ r, m ≤ r) l.
Proof. induction l as [|r l IH]; cbn [foldr]; [rewrite Forall_nil; tauto|]. rewrite Forall_cons, Z.min_glb_iff, IH. tauto. Qed.

Lemma foldr_max_ge a l m : m ≤ foldr Z.max a l ↔ m ≤ a ∨ Exists (λ r, m ≤ r) l.
Proof. induction l as [|r l IH]; cbn [foldr]; [rewrite Exists_nil; tauto|]. rewrite Exists_cons, Z.max_le_iff, IH. tauto. Qed.

Lemma limits_Ok mx mn a b :
  (if mx <? a then Err (TooLarge a mx) else if b <? mn then Err (TooSmall b mn) else Ok ()) = Ok () ↔ a ≤ mx ∧ mn ≤ b.
Proof. destruct (mx <? a) eqn:E1, (b <? mn) eqn:E2; bool_hyps; (split; [done || intros; lia | done || intros; lia]). Qed.

(** The ring-size rule. Every ring has at most [max] mixins. The floor [min], when it
    is not zero, is met by every ring from height 4,300,000 (and a transaction
    without key inputs fails it), and by at least one ring below that height. *)
Theorem ring_sizes_rule rings height : Forall (λ r, 0 ≤ r < u64_max) rings →
  validate_ring_sizes rings height = Ok () ↔
  Forall (λ r, r - 1 ≤ mr_max (mixin_allowable_range height)) rings ∧
  (mr_min (mixin_allowable_range height) = 0 ∨
   if MIXIN_LIMITS_V6_HEIGHT <=? height
   then rings ≠ [] ∧ Forall (λ r, mr_min (mixin_allowable_range height) ≤ r - 1) rings
   else Exists (λ r, mr_min (mixin_allowable_range height) ≤ r - 1) rings).
Proof.
  intros Hr. unfold validate_ring_sizes. rewrite ring_fold.
  assert (∃ mn mx df, mixin_allowable_range height = mkMixinRange mn mx df ∧ 0 ≤ mn ≤ 100 ∧ 0 ≤ mx) as (mn & mx & df & -> & Hmn & Hmx).
  { unfold mixin_allowable_range. repeat destruct (_ <=? _); do 3 eexists; (split; [reflexivity|]); vm_compute; split_and!; congruence. }
  cbn [mr_min mr_max]. set (largest := foldr Z.max 1 rings). set (smallest := foldr Z.min u64_max rings).
  assert (1 ≤ largest) as Hl by (apply foldr_max_ge; by left).
  assert (0 ≤ smallest) as Hs by (apply foldr_min_ge; split; [lia|]; eapply Forall_impl; [exact Hr|]; cbn; lia).
  assert (largest - 1 ≤ mx ↔ Forall (λ r, r - 1 ≤ mx) rings) as Hmax.
  { transitivity (largest ≤ mx + 1); [lia|]. unfold largest. rewrite foldr_max_le.
    split; [intros [_ H] | intros H; split; [lia|]]; (eapply Forall_impl; [exact H|]); cbn; lia. }
  assert (mn ≤ largest - 1 ↔ mn = 0 ∨ Exists (λ r, mn ≤ r - 1) rings) as Hex.
  { transitivity (mn + 1 ≤ largest); [lia|]. unfold largest. rewrite foldr_max_ge.
    assert (Exists (λ r, mn + 1 ≤ r) rings ↔ Exists (λ r, mn ≤ r - 1) rings) as -> by (split; intros H; (eapply Exists_impl; [exact H|]); cbn; lia). assert (mn + 1 ≤ 1 ↔ mn = 0) as -> by lia. done. }
  assert (mn ≤ smallest - 1 ↔ Forall (λ r, mn ≤ r - 1) rings) as Hall.
  { transitivity (mn + 1 ≤ smallest); [lia|]. unfold smallest. rewrite foldr_min_ge.
    split; [intros [_ H] | intros H; split; [lia|]]; (eapply Forall_impl; [exact H|]); cbn; lia. }
  rewrite limits_Ok, Hmax. apply Morphisms_Prop.and_iff_morphism; [done|].
  destruct (MIXIN_LIMITS_V6_HEIGHT <=? height); [|exact Hex].
  destruct rings as [|r rings]; cbn [length Nat.eqb negb orb].
  - rewrite Hex, Exists_nil. tauto.
  - rewrite <- Hall. destruct (smallest <? 1) eqn:E0; bool_hyps; (split; [|intros [?|[_ ?]]; lia]); intros H; [left; lia|right; done].
Qed.

Lemma ring_sizes_rule_witness : validate_ring_sizes [4; 8] 5_000_000 = Ok () ↔
  Forall (λ r, r - 1 ≤ 7) [4; 8] ∧ (1 = 0 ∨ [4; 8] ≠ [] ∧ Forall (λ r, 1 ≤ r - 1) [4; 8]).
Proof. apply (ring_sizes_rule [4; 8] 5_000_000). repeat constructor; lia. Defined.
