(* ===== verification/Reward.v ===== *)
(** The block reward and its size penalty (crates/wrkz-chain/src/reward.rs) and
    fusion transactions (crates/wrkz-chain/src/fusion.rs). Plain operators on
    unsigned integers wrap, as in the release build; [None] of
    [get_penalized_amount] is a division by zero. *)
From stdpp Require Import sorting.
From S2P Require Import Prelude Constants Tx TxExtra Block.
Local Open Scope Z_scope.

(** [median_value] sorts the slice it is given in place; the value is the median. *)
Definition median_value (v : list Z) : Z :=
  match v with
  | [] => 0
  | [x] => x
  | _ =>
      let n := (length v / 2)%nat in
      let v := merge_sort Z.le v in
      if (length v mod 2 =? 1)%nat then v !!! n
      else wrap 64 ((v !!! (n - 1)%nat + v !!! n) / 2)
  end.

Definition get_penalized_amount (amount median_size current_block_size : Z) : option Z :=
  if amount =? 0 then Some 0
  else if current_block_size <=? median_size then Some amount
  else
    let factor := wrapping_mul 128 current_block_size (saturating_sub (2 * median_size) current_block_size) in
    let product := wrapping_mul 128 amount factor in
    let m := median_size in
    if m =? 0 then None else Some (wrap 64 (product / m / m)).

Record Reward := mkReward { reward : Z; emission_change : Z }.

(** The source's [Option<Reward>] inside the option of a panic. *)
Definition get_block_reward (block_major_version median_size current_block_size already_generated_coins fee block_height : Z) :
    option (option Reward) :=
  let base_reward :=
    if FIXED_REWARD_V1_HEIGHT <=? block_height then FIXED_REWARD_V1
    else Z.shiftr (saturating_sub MONEY_SUPPLY already_generated_coins) EMISSION_SPEED_FACTOR in
  let median_size := Z.max median_size (full_reward_zone block_major_version) in
  if wrapping_mul 64 2 median_size <? current_block_size then Some None
  else
    penalized_base_reward ← get_penalized_amount base_reward median_size current_block_size;
    penalized_fee ←
      (if BLOCK_MAJOR_VERSION_2 <=? block_major_version
       then get_penalized_amount fee median_size current_block_size
       else Some fee);
    let emission_change := penalized_base_reward - (fee - penalized_fee) in
    Some (Some (mkReward (wrapping_add 64 penalized_base_reward penalized_fee) (as_signed 64 emission_change))).

(** * Fusion *)

(** The loop over the inputs: [None] when one is below the threshold. *)
Fixpoint fusion_inputs (threshold input_amount : Z) (inputs : list Input) : option Z :=
  match inputs with
  | [] => Some input_amount
  | i :: inputs =>
      let amount := match i with Key amount _ _ => amount | Base _ => 0 end in
      if amount <? threshold then None
      else fusion_inputs threshold (wrapping_add 64 input_amount amount) inputs
  end.

Definition is_fusion_transaction (prefix : TransactionPrefix) (size height : Z) : bool :=
  if FUSION_TX_MAX_SIZE <? size then false
  else if Z.of_nat (length (inputs prefix)) <? FUSION_TX_MIN_INPUT_COUNT then false
  else if Z.of_nat (length (inputs prefix)) <? Z.of_nat (length (outputs prefix)) * FUSION_TX_MIN_IN_OUT_COUNT_RATIO then false
  else
    let threshold := default_fusion_dust_threshold height in
    match fusion_inputs threshold 0 (inputs prefix) with
    | None => false
    | Some input_amount =>
        let input_amount :=
          if (FUSION_FEE_V1_HEIGHT <=? height) && (height <? FUSION_ZERO_FEE_V2_HEIGHT)
          then wrapping_sub 64 input_amount FUSION_FEE_V1 else input_amount in
        let expected := merge_sort Z.le (decompose_amount input_amount threshold) in
        let actual := map o_amount (outputs prefix) in
        bool_decide (expected = actual)
    end.

(** * The penalty *)

(** [amount * s * (2m - s) / m ^ 2] above the median [m], else [amount]. *)
Definition penalty (amount m s : Z) : Z := if s <=? m then amount else amount * (s * (2 * m - s)) / (m * m).

Lemma penalty_bounds amount m s : 0 ≤ amount → 0 < m → 0 ≤ s ≤ 2 * m → 0 ≤ penalty amount m s ≤ amount.
Proof.
  intros Ha Hm Hs. unfold penalty. destruct (s <=? m); [lia|].
  assert (s * (2 * m - s) ≤ m * m) by (pose proof (Z.square_nonneg (m - s)); lia). split.
  - apply Z.div_pos; nia.
  - apply Z.div_le_upper_bound; nia.
Qed.

Lemma get_penalized_amount_exact amount m s : is_u64 amount → 0 < m < 2 ^ 32 → 0 ≤ s ≤ 2 * m →
  get_penalized_amount amount m s = Some (penalty amount m s).
Proof.
  intros Ha Hm Hs. unfold get_penalized_amount. destruct (amount =? 0) eqn:E0; bool_hyps.
  { subst amount. unfold penalty. destruct (s <=? m); [done|]. by rewrite Z.mul_0_l, Z.div_0_l by nia. }
  pose proof (penalty_bounds amount m s) as Hb. unfold penalty in *. destruct (s <=? m) eqn:Es; [done|]. bool_hyps.
  rewrite (proj2 (Z.eqb_neq m 0)) by lia. f_equal.
  unfold saturating_sub. rewrite Z.max_l by lia. unfold wrapping_mul, in_u in *.
  assert (s * (2 * m - s) ≤ m * m) by (pose proof (Z.square_nonneg (m - s)); lia).
  assert (m * m ≤ 2 ^ 32 * 2 ^ 32) by (apply Z.mul_le_mono_nonneg; lia).
  rewrite (wrap_small 128 (s * _)) by (unfold in_u; nia).
  rewrite (wrap_small 128 (amount * _)).
  2:{ unfold in_u. split; [nia|]. apply Z.le_lt_trans with (amount * (2 ^ 32 * 2 ^ 32)); [apply Z.mul_le_mono_nonneg_l|]; lia. }
  rewrite Z.div_div by lia. apply wrap_small. unfold in_u. specialize (Hb ltac:(lia) ltac:(lia) Hs). lia.
Qed.

(** The reward before the penalty. *)
Definition base_reward (already_generated_coins block_height : Z) : Z :=
  if FIXED_REWARD_V1_HEIGHT <=? block_height then FIXED_REWARD_V1
  else Z.shiftr (Z.max (MONEY_SUPPLY - already_generated_coins) 0) EMISSION_SPEED_FACTOR.

Lemma base_reward_bound g h : 0 ≤ g → 0 ≤ base_reward g h ≤ 11_920_929.
Proof.
  intros Hg. unfold base_reward, FIXED_REWARD_V1, MONEY_SUPPLY, EMISSION_SPEED_FACTOR. destruct (_ <=? h); [lia|].
  rewrite Z.shiftr_div_pow2 by lia. split; [apply Z.div_pos; lia|]. apply Z.lt_succ_r, Z.div_lt_upper_bound; lia.
Qed.

Lemma zone_bounds v : 10_000 ≤ full_reward_zone v ≤ 100_000.
Proof. unfold full_reward_zone. repeat destruct (_ : bool); vm_compute; split; congruence. Qed.

(** C40. The block reward. With [M] the median raised to the full reward zone, a block
    above [2 * M] has no reward and is refused; otherwise the reward is the
    penalised base reward plus the (from version 2, penalised) fees, the coinbase
    pays out exactly the fees plus the change of the emission, and that change
    never exceeds the base reward. *)
Theorem block_reward_spec version median size generated fee height :
  0 ≤ median < 2 ^ 32 → 0 ≤ size → 0 ≤ generated → 0 ≤ fee < 2 ^ 62 →
  let M := Z.max median (full_reward_zone version) in
  let base := base_reward generated height in
  (get_block_reward version median size generated fee height = Some None ↔ 2 * M < size) ∧
  (size ≤ 2 * M → ∃ r, get_block_reward version median size generated fee height = Some (Some r) ∧
     reward r = penalty base M size + (if 2 <=? version then penalty fee M size else fee) ∧
     reward r = fee + emission_change r ∧ emission_change r ≤ base).
Proof.
  intros Hm Hs Hg Hf M base. pose proof (zone_bounds version). assert (0 < M < 2 ^ 32) as HM by lia.
  pose proof (base_reward_bound generated height Hg) as Hbase. fold base in Hbase.
  assert (get_block_reward version median size generated fee height =
    if 2 * M <? size then Some None else
    pb ← get_penalized_amount base M size; pf ← (if 2 <=? version then get_penalized_amount fee M size else Some fee);
    Some (Some (mkReward (wrapping_add 64 pb pf) (as_signed 64 (pb - (fee - pf)))))) as ->.
  { unfold get_block_reward. fold M. unfold wrapping_mul. by rewrite wrap_small by (unfold in_u; lia). }
  destruct (2 * M <? size) eqn:E; bool_hyps; [split; [done|lia]|]. 
  rewrite (get_penalized_amount_exact base M size) by (unfold in_u; lia). cbn [mbind option_bind].
  pose proof (penalty_bounds base M size ltac:(lia) ltac:(lia) ltac:(lia)) as Hpb.
  pose proof (penalty_bounds fee M size ltac:(lia) ltac:(lia) ltac:(lia)) as Hpf.
  set (pb := penalty base M size) in *. set (pf := if 2 <=? version then penalty fee M size else fee).
  assert (0 ≤ pf ≤ fee) as Hpf2 by (unfold pf; destruct (2 <=? version); lia).
  assert ((if 2 <=? version then get_penalized_amount fee M size else Some fee) = Some pf) as ->.
  { unfold pf. destruct (2 <=? version); [|done]. rewrite get_penalized_amount_exact by (unfold in_u; lia). done. }
  cbn [mbind option_bind]. split; [split; [done|lia]|]. intros _. eexists. split; [reflexivity|]. cbn [reward emission_change].
  unfold wrapping_add. rewrite wrap_small by (unfold in_u; lia).
  rewrite as_signed_range by lia. lia.
Qed.

Lemma block_reward_spec_witness :
  get_block_reward 7 50_000 150_000 0 4_000 2_000_000 = Some None ↔ 2 * 100_000 < 150_000.
Proof. apply (block_reward_spec 7 50_000 150_000 0 4_000 2_000_000); lia. Defined.

(** * Fusion transactions *)

Lemma fusion_inputs_Some threshold acc ins a : fusion_inputs threshold acc ins = Some a →
  acc = wrap 64 acc →
  a = wrap 64 (acc + total (TransactionPrefix.input_amounts ins)).
Proof.
  revert acc. induction ins as [|i ins IH]; intros acc H Hacc; cbn in H.
  - injection H as ->. cbn. by rewrite Z.add_0_r.
  - destruct (_ <? threshold) in H; [done|]. apply IH in H; [|unfold wrapping_add, wrap; by rewrite Z.mod_mod].
    subst a. unfold wrapping_add, wrap. rewrite Z.add_mod_idemp_l by lia. f_equal.
    assert (total (TransactionPrefix.input_amounts (i :: ins)) =
      match i with Key amount _ _ => amount | Base _ => 0 end + total (TransactionPrefix.input_amounts ins)) as -> by (by destruct i).
    lia.
Qed.

Lemma total_Permutation l l' : l ≡ₚ l' → total l = total l'.
Proof. unfold total. induction 1; cbn; lia. Qed.

(** The fee of a fusion transaction at [height]. *)
Definition fusion_fee (height : Z) : Z :=
  if (FUSION_FEE_V1_HEIGHT <=? height) && (height <? FUSION_ZERO_FEE_V2_HEIGHT) then FUSION_FEE_V1 else 0.

Lemma fusion_outputs p size height : is_fusion_transaction p size height = true →
  total (map o_amount (outputs p)) = wrap 64 (total (TransactionPrefix.input_amounts (inputs p)) - fusion_fee height) ∧
  12 ≤ Z.of_nat (length (inputs p)) ∧ 4 * Z.of_nat (length (outputs p)) ≤ Z.of_nat (length (inputs p)).
Proof.
  unfold is_fusion_transaction. destruct (_ <? size); [done|]. unfold FUSION_TX_MIN_INPUT_COUNT, FUSION_TX_MIN_IN_OUT_COUNT_RATIO.
  destruct (_ <? 12) eqn:E1; [done|]. destruct (_ <? _ * 4) eqn:E2; [done|]. bool_hyps.
  destruct (fusion_inputs _ _ _) as [a|] eqn:Ea; [|done]. intros H%bool_decide_eq_true. split; [|lia].
  rewrite <- H, (total_Permutation _ _ (merge_sort_Permutation _ _)).
  apply fusion_inputs_Some in Ea; [|done]. rewrite Z.add_0_l in Ea. unfold fusion_fee.
  assert (is_u64 a) as Hu by (subst a; by apply wrap_bound).
  destruct (_ && _).
  - rewrite (proj1 (decompose_pieces (wrapping_sub 64 a FUSION_FEE_V1) _ ltac:(by apply wrap_bound))). subst a.
    unfold wrapping_sub, wrap. by rewrite Zminus_mod_idemp_l.
  - rewrite (proj1 (decompose_pieces a _ Hu)). subst a. by rewrite Z.sub_0_r.
Qed.

(** A fusion transaction pays no fee, except the flat 10,000 between heights 864,864
    and 1,122,999: when its inputs do not overflow and cover that fee, its fee is
    exactly that, and it joins at least twelve inputs into at most a quarter as
    many outputs. *)
Theorem fusion_transaction_fee t size height :
  wf_prefix (prefix t) → is_fusion_transaction (prefix t) size height = true →
  fusion_fee height ≤ total (TransactionPrefix.input_amounts (inputs (prefix t))) < 2 ^ 64 →
  Transaction.fee t = Some (fusion_fee height) ∧
  12 ≤ Z.of_nat (length (inputs (prefix t))) ∧
  4 * Z.of_nat (length (outputs (prefix t))) ≤ Z.of_nat (length (inputs (prefix t))).
Proof.
  intros Hp H Hi. apply fusion_outputs in H as (Ho & Hn & Hr). split; [|done].
  assert (0 ≤ fusion_fee height) by (unfold fusion_fee, FUSION_FEE_V1; destruct (_ && _); lia).
  rewrite wrap_small in Ho by (unfold in_u; lia). apply fee_Some; [done|]. lia.
Qed.

(** Twelve inputs of 10,000,000 joined into one output of 120,000,000, which is the
    decomposition 20,000,000 and 100,000,000. *)
Definition sample_fusion : Transaction :=
  mkTransaction (mkPrefix 1 0 (replicate 12 (Key 10_000_000 [1] (replicate 32 1)))
    [mkOutput 20_000_000 (replicate 32 2); mkOutput 100_000_000 (replicate 32 2)] []) [].

Lemma fusion_transaction_fee_witness : Transaction.fee sample_fusion = Some 0 ∧
  12 ≤ Z.of_nat (length (inputs (prefix sample_fusion))) ∧
  4 * Z.of_nat (length (outputs (prefix sample_fusion))) ≤ Z.of_nat (length (inputs (prefix sample_fusion))).
Proof.
  apply (fusion_transaction_fee sample_fusion 2000 2_000_000); [|vm_compute; reflexivity|vm_compute; split; congruence].
  constructor; repeat first [split | constructor]; vm_compute; congruence.
Defined.
