(* ===== verification/Windows.v ===== *)
(** The windows of a partial replay (crates/wrkz-chain/src/windows.rs): where they lie
    around the heights at which a rule changes, and how they are merged. *)
From stdpp Require Import sorting.
From S2P Require Import Prelude Constants.
Local Open Scope Z_scope.

Definition LAST_CHECKPOINT_HEIGHT : Z := 4_188_000.

Record Window := mkWindow { start : Z; end_ : Z }.

#[export] Instance Window_eq_dec : EqDecision Window.
Proof. solve_decision. Defined.

Module Window.

Definition len (w : Window) : Z := wrapping_sub 32 (wrapping_add 32 (end_ w) 1) (start w).
Definition is_empty (w : Window) : bool := end_ w <? start w.

End Window.

(** [Vec::dedup]: drop an element equal to the one kept before it. *)
Fixpoint dedup (l : list Z) : list Z :=
  match l with
  | x :: (y :: _) as l' => if x =? y then dedup l' else x :: dedup l'
  | _ => l
  end.

Definition fork_heights : list Z :=
  let heights := map snd UPGRADE_HEIGHTS ++ FORK_HEIGHTS ++ [
    MIXIN_LIMITS_V1_HEIGHT; MIXIN_LIMITS_V2_HEIGHT; MIXIN_LIMITS_V3_HEIGHT; MIXIN_LIMITS_V4_HEIGHT;
    MIXIN_LIMITS_V5_HEIGHT; MIXIN_LIMITS_V6_HEIGHT;
    MINIMUM_FEE_V1_HEIGHT; MINIMUM_FEE_V1_HEIGHT + 1; MINIMUM_FEE_PER_BYTE_V1_HEIGHT; MINIMUM_FEE_PER_BYTE_V2_HEIGHT;
    ZAWY_DIFFICULTY_BLOCK_INDEX; LWMA_2_DIFFICULTY_BLOCK_INDEX; LWMA_2_DIFFICULTY_BLOCK_INDEX_V3;
    TRANSACTION_SIGNATURE_COUNT_VALIDATION_HEIGHT; MAX_EXTRA_SIZE_V2_HEIGHT;
    MAX_EXTRA_SIZE_V2_HEIGHT + CRYPTONOTE_MINED_MONEY_UNLOCK_WINDOW; BLOCK_BLOB_SHUFFLE_CHECK_HEIGHT;
    TRANSACTION_INPUT_BLOCKTIME_VALIDATION_HEIGHT; NORMAL_TX_MAX_OUTPUT_COUNT_V1_HEIGHT; MAX_OUTPUT_SIZE_HEIGHT;
    DUST_THRESHOLD_V2_HEIGHT; FUSION_DUST_THRESHOLD_HEIGHT_V2; FUSION_FEE_V1_HEIGHT; FUSION_ZERO_FEE_V2_HEIGHT;
    TRANSACTION_POW_HEIGHT; TRANSACTION_POW_HEIGHT_DYN_V1; TRANSACTION_POW_PASS_WITH_FEE_HEIGHT;
    FIXED_REWARD_V1_HEIGHT; UNLOCK_TIME_HEIGHT; UNLOCK_TIME_HEIGHT_V2; LAST_CHECKPOINT_HEIGHT] in
  dedup (merge_sort Z.le heights).

Definition around (height window top : Z) : option Window :=
  let w := Z.max window 1 in
  let start := Z.max (saturating_sub height (w - 1)) 1 in
  let end_ := Z.min (saturating_add 64 height w) top in
  if (end_ <? start) || (top <? start) then None
  else Some (mkWindow (wrap 32 start) (wrap 32 end_)).

(** The derived [Ord] of [Window]: lexicographic. *)
Definition window_le (a b : Window) : Prop := start a < start b ∨ start a = start b ∧ end_ a ≤ end_ b.
#[export] Instance window_le_dec : RelDecision window_le.
Proof. intros a b. unfold window_le. apply _. Defined.

(** The loop of [merge], with [out] reversed so that its head is [out.last_mut()]. *)
Fixpoint merge_loop (out windows : list Window) : list Window :=
  match windows with
  | [] => reverse out
  | w :: windows =>
      match out with
      | last :: out' =>
          if start w <=? saturating_add 32 (end_ last) 1
          then merge_loop (mkWindow (start last) (Z.max (end_ last) (end_ w)) :: out') windows
          else merge_loop (w :: out) windows
      | [] => merge_loop [w] windows
      end
  end.

Definition merge (windows : list Window) : list Window := merge_loop [] (merge_sort window_le windows).

Definition fork_windows (window top : Z) : list Window :=
  merge (omap (λ h, around h window top) fork_heights).

Definition splitmix64 (state : Z) : Z * Z :=
  let state := wrapping_add 64 state 0x9E3779B97F4A7C15 in
  let z := wrapping_mul 64 (Z.lxor state (Z.shiftr state 30)) 0xBF58476D1CE4E5B9 in
  let z := wrapping_mul 64 (Z.lxor z (Z.shiftr z 27)) 0x94D049BB133111EB in
  (state, Z.lxor z (Z.shiftr z 31)).

(** The loop of [sample_windows]. *)
Fixpoint pick (count : nat) (window span top state : Z) : list Window :=
  match count with
  | O => []
  | S count =>
      let '(state, r) := splitmix64 state in
      let start := wrapping_add 32 1 (wrap 32 (r mod span)) in
      let end_ := wrap 32 (Z.min (start + window - 1) top) in
      mkWindow start end_ :: pick count window span top state
  end.

Definition sample_windows (count : nat) (window seed top : Z) : list Window :=
  let window := Z.max window 1 in
  if top <? 1 then []
  else
    let highest_start := Z.max (saturating_sub (top + 1) window) 1 in
    merge (pick count window highest_start top seed).

(** * Merging *)

Definition covers (ws : list Window) (i : Z) : Prop := ∃ w, w ∈ ws ∧ start w ≤ i ≤ end_ w.

(** Windows of 32-bit indexes with at least one block each. *)
Definition wf_window (w : Window) : Prop := 0 ≤ start w ≤ end_ w ∧ end_ w < 2 ^ 32.

(** The first list ends at least two blocks before the second starts: nothing
    overlaps or touches. *)
Definition apart (a b : Window) : Prop := end_ a + 1 < start b.

Lemma covers_cons w ws i : covers (w :: ws) i ↔ start w ≤ i ≤ end_ w ∨ covers ws i.
Proof.
  unfold covers. split.
  - intros (v & [->|Hv]%elem_of_cons & Hi); [by left | right; eauto].
  - intros [Hi|(v & Hv & Hi)]; [exists w | exists v]; (split; [|done]); apply elem_of_cons; auto.
Qed.

Lemma covers_reverse ws i : covers (reverse ws) i ↔ covers ws i.
Proof. unfold covers. by setoid_rewrite elem_of_reverse. Qed.

Lemma StronglySorted_reverse {A} (R : relation A) (l : list A) : StronglySorted (flip R) l → StronglySorted R (reverse l).
Proof.
  induction 1 as [|x l Hl IH Hx]; [constructor|]. rewrite reverse_cons. apply StronglySorted_app_2; [|done|by repeat constructor].
  intros y z Hy ->%list_elem_of_singleton. rewrite elem_of_reverse in Hy. rewrite Forall_forall in Hx. by apply Hx.
Qed.

(** What the loop keeps: [out] is strictly apart, and no later window starts before its last one. *)
Lemma merge_loop_spec out ws :
  StronglySorted (flip apart) out → Forall wf_window out → StronglySorted window_le ws → Forall wf_window ws →
  (∀ last w, head out = Some last → w ∈ ws → start last ≤ start w) →
  StronglySorted apart (merge_loop out ws) ∧ Forall wf_window (merge_loop out ws) ∧
  ∀ i, covers (merge_loop out ws) i ↔ covers out i ∨ covers ws i.
Proof.
  revert out. induction ws as [|w ws IH]; intros out Ho Hwo Hs Hw Hlast; cbn [merge_loop].
  - split; [by apply StronglySorted_reverse|]. split; [by apply Forall_reverse|]. intros i. rewrite covers_reverse.
    assert (¬ covers [] i) by (intros (v & Hv & _); by apply elem_of_nil in Hv). tauto.
  - apply StronglySorted_cons in Hs as [Hle Hs]. apply Forall_cons in Hw as [Hw1 Hw].
    assert (∀ v, v ∈ ws → start w ≤ start v) as Hmin by (intros v Hv; rewrite Forall_forall in Hle; destruct (Hle v Hv); lia).
    destruct out as [|last out].
    + destruct (IH [w]) as (H1 & H2 & H3); [by repeat constructor|by constructor|done|done|by intros ? v [= <-]; apply Hmin|].
      split; [done|]. split; [done|]. intros i. rewrite H3, !covers_cons. assert (¬ covers [] i) by (intros (v & Hv & _); by apply elem_of_nil in Hv). tauto.
    + pose proof (Hlast last w eq_refl ltac:(apply elem_of_cons; auto)) as Hlw.
      apply Forall_cons in Hwo as [Hl1 Hwo]. pose proof Hl1 as [Hl2 Hl3]. pose proof Hw1 as [Hw2 Hw3].
      apply StronglySorted_cons in Ho as [Hap Ho]. unfold saturating_add. destruct (start w <=? _) eqn:E; bool_hyps.
      * destruct (IH (mkWindow (start last) (Z.max (end_ last) (end_ w)) :: out)) as (H1 & H2 & H3).
        -- apply StronglySorted_cons. split; [|done]. eapply Forall_impl; [exact Hap|]. intros e He. exact He.
        -- constructor; [split; cbn; lia|done].
        -- done.
        -- done.
        -- intros ? v [= <-] Hv. cbn. specialize (Hmin v Hv). lia.
        -- split; [done|]. split; [done|]. intros i. rewrite H3, !covers_cons. cbn [start end_]. 
           assert (start last ≤ i ≤ Z.max (end_ last) (end_ w) ↔ start last ≤ i ≤ end_ last ∨ start w ≤ i ≤ end_ w) by lia. tauto.
      * destruct (IH (w :: last :: out)) as (H1 & H2 & H3).
        -- apply StronglySorted_cons. split; [|by apply StronglySorted_cons].
           constructor; [unfold flip, apart; lia|]. rewrite Forall_forall in Hap |- *. intros e He. specialize (Hap e He). unfold flip, apart in *. lia.
        -- constructor; [done|by constructor].
        -- done.
        -- done.
        -- by intros ? v [= <-]; apply Hmin.
        -- split; [done|]. split; [done|]. intros i. rewrite H3, !covers_cons. tauto.
Qed.

#[export] Instance window_le_trans : Transitive window_le.
Proof. intros a b c. unfold window_le. lia. Qed.
#[export] Instance window_le_total : Total window_le.
Proof. intros a b. unfold window_le. lia. Qed.

Lemma covers_Permutation ws ws' i : ws ≡ₚ ws' → covers ws i ↔ covers ws' i.
Proof. intros H. unfold covers. split; intros (w & Hw & Hi); exists w; (split; [|done]); by rewrite H in * || rewrite <- H in *. Qed.

Lemma merge_exact ws : Forall wf_window ws →
  StronglySorted apart (merge ws) ∧ Forall wf_window (merge ws) ∧ ∀ i, covers (merge ws) i ↔ covers ws i.
Proof.
  intros Hw. unfold merge. pose proof (merge_sort_Permutation window_le ws) as Hp.
  destruct (merge_loop_spec [] (merge_sort window_le ws)) as (H1 & H2 & H3);
    [constructor|constructor|apply StronglySorted_merge_sort; apply _|by rewrite Hp|done|].
  split; [done|]. split; [done|]. intros i. rewrite H3, (covers_Permutation _ _ i Hp).
  assert (¬ covers [] i) by (intros (v & Hv & _); by apply elem_of_nil in Hv). tauto.
Qed.

Lemma fork_heights_range : Forall (λ h, 0 ≤ h < 2 ^ 32) fork_heights.
Proof. apply (bool_decide_unpack _). vm_compute. reflexivity. Qed.

Lemma around_window h window top w : 0 ≤ h < 2 ^ 32 → 0 ≤ window < 2 ^ 32 → 0 ≤ top < 2 ^ 32 →
  around h window top = Some w →
  start w = Z.max (h - Z.max window 1 + 1) 1 ∧ end_ w = Z.min (h + Z.max window 1) top ∧ start w ≤ end_ w.
Proof.
  intros Hh Hw Ht. unfold around, saturating_sub, saturating_add. destruct (_ || _) eqn:E; [done|]. intros [= <-]. bool_hyps.
  cbn. rewrite !wrap_small by (unfold in_u; lia). lia.
Qed.

Lemma around_None h window top : 0 ≤ h < 2 ^ 32 → 0 ≤ window < 2 ^ 32 → 0 ≤ top < 2 ^ 32 →
  around h window top = None → Z.min (h + Z.max window 1) top < Z.max (h - Z.max window 1 + 1) 1.
Proof.
  intros Hh Hw Ht. unfold around, saturating_sub, saturating_add. destruct (_ || _) eqn:E; [|done]. intros _.
  apply orb_prop in E as [E|E]; bool_hyps; lia.
Qed.

(** The windowed replay covers what it says: for every window size and chain height,
    block [i] is in a window exactly when it is on the chain, is not genesis and
    lies within [window] blocks on either side of a height where a rule changes.
    The windows are disjoint, do not touch, and come in ascending order, so no
    block is replayed twice. *)
Theorem fork_windows_cover window top : 0 ≤ window < 2 ^ 32 → 0 ≤ top < 2 ^ 32 →
  StronglySorted apart (fork_windows window top) ∧
  ∀ i, covers (fork_windows window top) i ↔
       1 ≤ i ≤ top ∧ ∃ h, h ∈ fork_heights ∧ h - Z.max window 1 < i ≤ h + Z.max window 1.
Proof.
  intros Hw Ht. pose proof fork_heights_range as Hf. rewrite Forall_forall in Hf.
  destruct (merge_exact (omap (λ h, around h window top) fork_heights)) as (H1 & _ & H2).
  { apply Forall_forall. intros w (h & Hh & Hr)%list_elem_of_omap. specialize (Hf h Hh).
    apply around_window in Hr as (Es & Ee & Hle); [|done..]. split; lia. }
  split; [done|]. intros i. unfold fork_windows. rewrite H2. split.
  - intros (w & (h & Hh & Hr)%list_elem_of_omap & Hi). apply around_window in Hr as (Es & Ee & Hle); [|by apply Hf|done..].
    split; [lia|]. exists h. split; [done|lia].
  - intros (Hi & h & Hh & Hhi). destruct (around h window top) as [w|] eqn:Ew.
    + exists w. split; [apply list_elem_of_omap; eauto|]. apply around_window in Ew as (Es & Ee & Hle); [lia|by apply Hf|done..].
    + apply around_None in Ew; [lia|by apply Hf|done..].
Qed.

Lemma fork_windows_cover_witness : StronglySorted apart (fork_windows 500 4_200_000) ∧
  ∀ i, covers (fork_windows 500 4_200_000) i ↔
       1 ≤ i ≤ 4_200_000 ∧ ∃ h, h ∈ fork_heights ∧ h - Z.max 500 1 < i ≤ h + Z.max 500 1.
Proof. apply (fork_windows_cover 500 4_200_000); lia. Defined.
