(* ===== verification/Checkpoints.v ===== *)
(** Checkpoints (crates/wrkz-chain/src/checkpoints.rs). The ordered map is a [gmap];
    [iter] gives its entries in key order. The compiled-in table is the argument of
    [mainnet], and [hex::decode] of the [hex] crate an argument of [from_csv]. *)
From stdpp Require Import gmap sorting.
From S2P Require Import Prelude Hashing.
Local Open Scope Z_scope.

Definition ENTRY_LEN : nat := 4 + 32.

Record Checkpoints := mkCheckpoints { points : gmap Z Hash; disabled_from : Z }.

(** The errors of [from_csv], with the line number they report. *)
Inductive CsvError : Type :=
| NoComma (line : nat)
| BadIndex (line : nat)
| BadHash (line : nat)
| HashLength (line : nat)
| Duplicate (line : nat) (index : Z).

Definition u32_max : Z := 2 ^ 32 - 1.

Definition key_le (a b : Z * Hash) : Prop := a.1 ≤ b.1.
#[export] Instance key_le_dec : RelDecision key_le.
Proof. intros a b. unfold key_le. apply _. Defined.

Module Checkpoints.

Definition none : Checkpoints := mkCheckpoints ∅ u64_max.

Definition mainnet (table : bytes) : Checkpoints :=
  let points := foldl (λ points entry, <[from_le_bytes (take 4 entry) := drop 4 entry]> points) ∅ (as_chunks ENTRY_LEN table).1 in
  mkCheckpoints points u64_max.

Definition add (cp : Checkpoints) (index : Z) (hash : Hash) : bool * Checkpoints :=
  match points cp !! index with
  | None => (true, mkCheckpoints (<[index := hash]> (points cp)) (disabled_from cp))
  | Some _ => (false, cp)
  end.

Definition disable_from (cp : Checkpoints) (height : option Z) : Checkpoints :=
  mkCheckpoints (points cp) (default u64_max height).

Definition get_disabled_from (cp : Checkpoints) : option Z :=
  if negb (disabled_from cp =? u64_max) then Some (disabled_from cp) else None.

(** [u32::try_from(self.disabled_from).unwrap_or(u32::MAX)] *)
Definition clamp_disabled (cp : Checkpoints) : Z :=
  if disabled_from cp <=? u32_max then disabled_from cp else u32_max.

(** [self.points.range(..self.clamp_disabled())] *)
Definition iter (cp : Checkpoints) : list (Z * Hash) :=
  merge_sort key_le (map_to_list (filter (λ e, e.1 < clamp_disabled cp) (points cp))).

Definition top_index (cp : Checkpoints) : option Z := fst <$> last (iter cp).

Definition len (cp : Checkpoints) : nat := length (iter cp).

Definition is_empty (cp : Checkpoints) : bool := match top_index cp with None => true | Some _ => false end.

Definition is_in_checkpoint_zone (cp : Checkpoints) (index : Z) : bool :=
  if disabled_from cp <=? index then false
  else match top_index cp with Some top => index <=? top | None => false end.

Definition get (cp : Checkpoints) (index : Z) : option Hash :=
  if disabled_from cp <=? index then None else points cp !! index.

Definition check_block (cp : Checkpoints) (index : Z) (hash : Hash) : bool :=
  match get cp index with
  | Some expected => bool_decide (expected = hash)
  | None => true
  end.

End Checkpoints.

(** ** The CSV of [--load-checkpoints] *)

(** [str::lines]: split after each newline, dropping it and a carriage return before it;
    [cur] is the line read so far, reversed. *)
Fixpoint lines (t cur : text) : list text :=
  match t with
  | [] => match cur with [] => [] | _ => [reverse cur] end
  | c :: t =>
      if c =? 10 then reverse (match cur with 13 :: cur => cur | _ => cur end) :: lines t []
      else lines t (c :: cur)
  end.

Fixpoint trim_start (t : text) : text :=
  match t with
  | c :: t' => if is_whitespace c then trim_start t' else t
  | [] => []
  end.

Definition trim (t : text) : text := reverse (trim_start (reverse (trim_start t))).

Fixpoint split_once (sep : Z) (t : text) : option (text * text) :=
  match t with
  | [] => None
  | c :: t =>
      if c =? sep then Some ([], t)
      else '(a, b) ← split_once sep t; Some (c :: a, b)
  end.

(** [u32::from_str]: an optional plus sign, then decimal digits, without overflow. *)
Fixpoint parse_digits (acc : Z) (t : text) : option Z :=
  match t with
  | [] => Some acc
  | c :: t =>
      if (48 <=? c) && (c <=? 57) then
        let v := acc * 10 + (c - 48) in
        if v <=? u32_max then parse_digits v t else None
      else None
  end.

Definition parse_u32 (t : text) : option Z :=
  match t with
  | [] => None
  | c :: rest =>
      if c =? 43 then match rest with [] => None | _ => parse_digits 0 rest end
      else parse_digits 0 t
  end.

Section Csv.
Context (hex_decode : text → option bytes).

(** One turn of the loop, up to the insertion; [None] is a blank line. *)
Definition csv_row (n : nat) (line : text) : option (result CsvError (Z * Hash)) :=
  let line := trim line in
  match line with
  | [] => None
  | _ =>
      Some (
        '(index, hash) ← ok_or (NoComma (n + 1)) (split_once 44 line);
        index ← ok_or (BadIndex (n + 1)) (parse_u32 (trim index));
        bytes ← ok_or (BadHash (n + 1)) (hex_decode (trim hash));
        hash ← (if (length bytes =? 32)%nat then Ok bytes else Err (HashLength (n + 1)));
        Ok (index, hash))
  end.

Fixpoint csv_loop (n : nat) (cp : Checkpoints) (ls : list text) : result CsvError Checkpoints :=
  match ls with
  | [] => Ok cp
  | line :: ls =>
      match csv_row n line with
      | None => csv_loop (S n) cp ls
      | Some row =>
          '(index, hash) ← row;
          let '(ok, cp) := Checkpoints.add cp index hash in
          if negb ok then Err (Duplicate (n + 1) index) else csv_loop (S n) cp ls
      end
  end.

Definition from_csv (t : text) : result CsvError Checkpoints := csv_loop 0 Checkpoints.none (lines t []).

(** The rows of the non-blank lines, numbered as the source numbers them. *)
Fixpoint csv_rows (n : nat) (ls : list text) : list (result CsvError (Z * Hash)) :=
  match ls with
  | [] => []
  | line :: ls => match csv_row n line with None => csv_rows (S n) ls | Some r => r :: csv_rows (S n) ls end
  end.

Lemma csv_loop_iff n cp ls cp' :
  csv_loop n cp ls = Ok cp' ↔
  ∃ rows, csv_rows n ls = map Ok rows ∧ NoDup rows.*1 ∧ (∀ k, k ∈ rows.*1 → points cp !! k = None) ∧
    cp' = mkCheckpoints (list_to_map rows ∪ points cp) (disabled_from cp).
Proof.
  revert n cp. induction ls as [|line ls IH]; intros n cp; cbn [csv_loop csv_rows].
  - split.
    + intros [= <-]. exists []. split_and!; [done|constructor|by intros k ?%elem_of_nil|]. by destruct cp; cbn; rewrite map_empty_union.
    + intros ([|] & ? & _ & _ & ->); [|done]. cbn. rewrite map_empty_union. by destruct cp.
  - destruct (csv_row n line) as [row|]; [|apply IH]. destruct row as [[k h]|e]; cbn [mbind result_bind].
    2:{ split; [done|]. by intros ([|? rows] & ? & _). }
    unfold Checkpoints.add. destruct (points cp !! k) as [h'|] eqn:Ek; cbn [negb].
    { split; [done|]. intros ([|[k' h''] rows] & [= -> -> _] & _ & Hnone & _).
      rewrite Hnone in Ek; [done|]. cbn. apply elem_of_cons; auto. }
    rewrite IH. cbn [points disabled_from]. split.
    + intros (rows & -> & Hnd & Hnone & ->). exists ((k, h) :: rows). cbn [map fmap list_fmap fst list_to_map foldr].
      assert (k ∉ rows.*1) as Hk by (intros Hk; specialize (Hnone k Hk); by rewrite lookup_insert_eq in Hnone).
      split_and!; [done|by constructor| |].
      * intros k' [->|Hk']%elem_of_cons; [done|]. specialize (Hnone k' Hk'). by apply lookup_insert_None in Hnone as [? _].
      * f_equal. cbn. by rewrite <- insert_union_l, insert_union_r by (by apply not_elem_of_list_to_map_1).
    + intros ([|[k' h'] rows] & Hr & Hnd & Hnone & ->); [done|]. injection Hr as -> -> Hr. exists rows.
      cbn [fmap list_fmap fst] in Hnd, Hnone. apply NoDup_cons in Hnd as [Hk Hnd].
      split_and!; [done|done| |].
      * intros k2 Hk2. rewrite lookup_insert_ne by (intros ->; done). apply Hnone, elem_of_cons. auto.
      * f_equal. cbn. by rewrite <- insert_union_l, insert_union_r by (by apply not_elem_of_list_to_map_1).
Qed.

End Csv.

(** A CSV is accepted exactly when every non-blank line parses and no index is named
    twice; the set is then exactly the rows of the file, all in force. *)
Theorem from_csv_rows (hex_decode : text → option bytes) t cp :
  from_csv hex_decode t = Ok cp ↔
  ∃ rows, csv_rows hex_decode 0 (lines t []) = map Ok rows ∧ NoDup rows.*1 ∧
    cp = mkCheckpoints (list_to_map rows) u64_max.
Proof.
  unfold from_csv. rewrite csv_loop_iff. split.
  - intros (rows & H1 & H2 & _ & ->). exists rows. split_and!; [done..|]. by cbn; rewrite map_union_empty.
  - intros (rows & H1 & H2 & ->). exists rows. split_and!; [done..| |]; [intros k _; apply lookup_empty|].
    by cbn; rewrite map_union_empty.
Qed.

(** ** The zone *)

#[export] Instance key_le_trans : Transitive key_le.
Proof. intros a b c. unfold key_le. lia. Qed.
#[export] Instance key_le_total : Total key_le.
Proof. intros a b. unfold key_le. lia. Qed.

Lemma elem_of_iter cp k h : (k, h) ∈ Checkpoints.iter cp ↔ points cp !! k = Some h ∧ k < Checkpoints.clamp_disabled cp.
Proof.
  unfold Checkpoints.iter. rewrite merge_sort_Permutation, elem_of_map_to_list, map_lookup_filter_Some. done.
Qed.

Lemma iter_last cp e : e ∈ Checkpoints.iter cp → ∃ top, last (Checkpoints.iter cp) = Some top ∧ e.1 ≤ top.1.
Proof.
  assert (StronglySorted key_le (Checkpoints.iter cp)) as Hs by (apply StronglySorted_merge_sort; apply _).
  revert e Hs. induction (Checkpoints.iter cp) as [|x l IH]; intros e Hs He; [by apply elem_of_nil in He|].
  apply StronglySorted_cons in Hs as [Hx Hs]. rewrite Forall_forall in Hx. destruct l as [|y l].
  - exists x. apply elem_of_cons in He as [->|He]; [split; [done|lia]|by apply elem_of_nil in He].
  - rewrite last_cons_cons. apply elem_of_cons in He as [->|He]; [|by apply IH].
    destruct (IH y Hs ltac:(apply elem_of_cons; by left)) as (top & Ht & Hle). exists top. split; [done|].
    apply Hx. by apply last_Some_elem_of.
Qed.

Lemma zone_iff cp i : Checkpoints.is_in_checkpoint_zone cp i = true ↔
  ∃ k h, points cp !! k = Some h ∧ i ≤ k ∧ k < Z.min (disabled_from cp) u32_max.
Proof.
  assert (∀ k, k < Checkpoints.clamp_disabled cp ↔ k < Z.min (disabled_from cp) u32_max) as Hc.
  { intros k. unfold Checkpoints.clamp_disabled. destruct (_ <=? _) eqn:E; bool_hyps; lia. }
  unfold Checkpoints.is_in_checkpoint_zone, Checkpoints.top_index. split.
  - destruct (disabled_from cp <=? i); [done|]. destruct (last (Checkpoints.iter cp)) as [[k h]|] eqn:El; [|done]. cbn.
    intros Hi%Z.leb_le. apply last_Some_elem_of, elem_of_iter in El as [Hk Hlt]. rewrite Hc in Hlt. eauto.
  - intros (k & h & Hk & Hi & Hlt). rewrite (proj2 (Z.leb_gt _ _)) by lia.
    destruct (iter_last cp (k, h)) as ([k' h'] & -> & Hle); [apply elem_of_iter; by rewrite Hc|]. cbn in *. by apply Z.leb_le; lia.
Qed.

(** The checkpoint zone. After [disable_from] with a limit, an index is in the zone
    (its proof of work and signatures are skipped) exactly when some checkpoint
    at or above it lies below the limit: lowering the limit can only shrink the
    zone, so verification is added and never removed, and a block of the zone at
    a checkpointed index is still compared with its checkpoint. *)
Theorem checkpoint_zone cp limit i :
  (Checkpoints.is_in_checkpoint_zone (Checkpoints.disable_from cp limit) i = true ↔
     ∃ k h, points cp !! k = Some h ∧ i ≤ k ∧ k < Z.min (default u64_max limit) u32_max) ∧
  (∀ hash h, Checkpoints.is_in_checkpoint_zone (Checkpoints.disable_from cp limit) i = true →
     points cp !! i = Some h →
     Checkpoints.check_block (Checkpoints.disable_from cp limit) i hash = true ↔ hash = h).
Proof.
  split; [apply zone_iff|]. intros hash h Hz Hi. apply zone_iff in Hz as (k & h' & _ & Hik & Hk). cbn in Hk.
  unfold Checkpoints.check_block, Checkpoints.get. cbn [disabled_from points Checkpoints.disable_from].
  rewrite (proj2 (Z.leb_gt _ _)) by lia. rewrite Hi, bool_decide_eq_true. split; congruence.
Qed.
