(* ===== verification/Parallel.v ===== *)
(** Settling a batch of pure checks on several threads
    (crates/wrkz-pow/src/parallel.rs [first_invalid_ring] and [run_worker], and the
    same loop in [first_invalid_check] of crates/wrkz-chain/src/validate.rs).

    The threads are a transition system: one step is one atomic access, or one
    verification, of one worker. A read-modify-write acts on the latest value; a load
    of [lowest] may return any value that was ever stored there, so the result
    does not depend on how promptly a store becomes visible. *)
From S2P Require Import Prelude.

(** Where a worker is in its loop. *)
Inductive pc : Type :=
| Claim                      (* at [next.fetch_add(batch)] *)
| Claimed (start : nat)      (* tests [start >= len], then loads [lowest] *)
| At (i end_ : nat)          (* at the head of the [for] loop, then loads [lowest] *)
| Verify (i end_ : nat)      (* at [check.verify()] *)
| Fold (i : nat)             (* at [lowest.fetch_min(i)] *)
| Finished.

#[export] Instance pc_eq_dec : EqDecision pc.
Proof. solve_decision. Defined.

(** [lowest] is its history, latest first; [None] is [usize::MAX]. *)
Record Sys := mkSys { next : nat; lowest : list (option nat); workers : list pc }.

(** [v < i] on values of [lowest]. *)
Definition below (v : option nat) (i : nat) : bool :=
  match v with Some l => l <? i | None => false end.

Definition fetch_min (v : option nat) (i : nat) : option nat :=
  match v with Some l => Some (Nat.min l i) | None => Some i end.

Section Run.
Context (verify : nat → bool) (n batch : nat).

Definition latest (s : Sys) : option nat := match lowest s with v :: _ => v | [] => None end.

(** One step of a worker at [p]; [stale] chooses the value a load of [lowest] returns. *)
Definition worker_step (s : Sys) (p : pc) (stale : nat) : option (pc * nat * list (option nat)) :=
  let load := default (latest s) (lowest s !! stale) in
  match p with
  | Claim => Some (Claimed (next s), next s + batch, lowest s)
  | Claimed start =>
      let p := if n <=? start then Finished
               else if below load start then Finished
               else At start (Nat.min (start + batch) n) in
      Some (p, next s, lowest s)
  | At i end_ =>
      let p := if end_ <=? i then Claim
               else if below load i then Finished
               else Verify i end_ in
      Some (p, next s, lowest s)
  | Verify i end_ => Some (if verify i then At (S i) end_ else Fold i, next s, lowest s)
  | Fold i => Some (Claim, next s, fetch_min (latest s) i :: lowest s)
  | Finished => None
  end.

(** One step of the system: worker [w] moves. *)
Definition step (s : Sys) (w stale : nat) : option Sys :=
  p ← workers s !! w;
  '(p, next', lowest') ← worker_step s p stale;
  Some (mkSys next' lowest' (<[w := p]> (workers s))).

Definition steps_to (s s' : Sys) : Prop := ∃ w stale, step s w stale = Some s'.

Definition init (threads : nat) : Sys := mkSys 0 [None] (replicate threads Claim).

Definition all_finished (s : Sys) : Prop := Forall (λ p, p = Finished) (workers s).

(** [checks.iter().position(|c| !c.verify())] *)
Fixpoint first_failing_from (i k : nat) : option nat :=
  match k with
  | O => None
  | S k => if verify i then first_failing_from (S i) k else Some i
  end.

Definition first_failing : option nat := first_failing_from 0 n.

Lemma first_failing_from_Some i k j : first_failing_from i k = Some j ↔
  i ≤ j < i + k ∧ verify j = false ∧ ∀ l, i ≤ l < j → verify l = true.
Proof.
  revert i. induction k as [|k IH]; intros i; cbn; [split; [done|lia]|].
  destruct (verify i) eqn:E.
  - rewrite IH. split.
    + intros (Hj & Hf & Hl). split; [lia|]. split; [done|]. intros l Hle. destruct (decide (l = i)) as [->|]; [done|]. apply Hl. lia.
    + intros (Hj & Hf & Hl). assert (j ≠ i) by (intros ->; congruence). split; [lia|]. split; [done|]. intros l Hle. apply Hl. lia.
  - split.
    + intros [= ->]. split; [lia|]. split; [done|]. lia.
    + intros (Hj & Hf & Hl). destruct (decide (j = i)) as [->|]; [done|]. rewrite Hl in E by lia. done.
Qed.

Lemma first_failing_from_None i k : first_failing_from i k = None ↔ ∀ l, i ≤ l < i + k → verify l = true.
Proof.
  revert i. induction k as [|k IH]; intros i; cbn; [split; [lia|done]|].
  destruct (verify i) eqn:E; [rewrite IH|]; split; try done.
  - intros H l Hl. destruct (decide (l = i)) as [->|]; [done|]. apply H. lia.
  - intros H l Hl. apply H. lia.
  - intros H. rewrite H in E by lia. done.
Qed.

(** ** The invariant *)

(** A failing index. *)
Definition failing (l : nat) : Prop := l < n ∧ verify l = false.

(** Worker at [p] still has to verify, or to report, index [j]. *)
Definition pending (j : nat) (p : pc) : Prop :=
  match p with
  | Claimed start => start ≤ j < start + batch
  | At i end_ | Verify i end_ => i ≤ j < end_
  | Fold i => i = j
  | Claim | Finished => False
  end.

(** What holds of one worker: its indexes are in range and were claimed, what it
    reports failed, and it finished only for lack of work or past a failure. *)
Definition wf_pc (nx : nat) (p : pc) : Prop :=
  match p with
  | Claim => True
  | Claimed start => start + batch ≤ nx
  | At _ end_ => end_ ≤ n ∧ end_ ≤ nx
  | Verify i end_ => i < end_ ∧ end_ ≤ n ∧ end_ ≤ nx
  | Fold i => failing i
  | Finished => n ≤ nx ∨ ∃ l, failing l ∧ l < nx
  end.

Definition genuine (v : option nat) : Prop := match v with Some l => failing l | None => True end.

Record inv (s : Sys) : Prop := {
  inv_history : Forall genuine (lowest s);
  inv_workers : Forall (wf_pc (next s)) (workers s);
  (* the lowest failing index is unclaimed, in the hands of a worker, or found *)
  inv_lowest j : first_failing = Some j →
    next s ≤ j ∨ (∃ w p, workers s !! w = Some p ∧ pending j p) ∨ latest s = Some j
}.

Hypothesis batch_pos : 1 ≤ batch.

Lemma latest_genuine s : inv s → genuine (latest s).
Proof. intros [H _ _]. unfold latest. destruct H; done. Qed.

Lemma load_genuine s stale : inv s → genuine (default (latest s) (lowest s !! stale)).
Proof.
  intros Hs. destruct (lowest s !! stale) as [v|] eqn:E; [|by apply latest_genuine].
  destruct Hs as [H _ _]. rewrite Forall_lookup in H. eauto.
Qed.

Lemma below_true v i : genuine v → below v i = true → ∃ l, failing l ∧ l < i.
Proof. destruct v as [l|]; [|done]. intros H Hlt%Nat.ltb_lt. eauto. Qed.

Lemma first_failing_min j l : first_failing = Some j → failing l → j ≤ l.
Proof.
  intros H%first_failing_from_Some [Hl Hf]. destruct H as (_ & _ & H). destruct (decide (j ≤ l)); [done|].
  rewrite H in Hf by lia. done.
Qed.

Lemma wf_pc_mono nx nx' p : nx ≤ nx' → wf_pc nx p → wf_pc nx' p.
Proof.
  intros Hle. destruct p; cbn; try done; try lia. intros [?|(l & ? & ?)]; [left; lia|right; exists l; split; [done|lia]].
Qed.

(** The effect of one worker's step on what it is responsible for. *)
Lemma worker_step_ok s p stale p' nx lo : inv s → wf_pc (next s) p → worker_step s p stale = Some (p', nx, lo) →
  next s ≤ nx ∧ wf_pc nx p' ∧ Forall genuine lo ∧
  ∀ j, first_failing = Some j →
    (next s ≤ j → nx ≤ j ∨ pending j p') ∧
    (pending j p → pending j p' ∨ match lo with v :: _ => v | [] => None end = Some j) ∧
    (latest s = Some j → match lo with v :: _ => v | [] => None end = Some j).
Proof.
  intros Hs Hp. pose proof (load_genuine s stale Hs) as Hload. pose proof (latest_genuine s Hs) as Hlat.
  pose proof (inv_history s Hs) as Hhist. fold (latest s). destruct p as [|start|i e|i e|i|]; cbn [worker_step]; cbn in Hp; [..|done].
  - intros [= <- <- <-]. split; [lia|]. split; [cbn; lia|]. split; [done|]. intros j Hj. cbn. split_and!; [lia|done|done].
  - destruct (n <=? start) eqn:E1; bool_hyps; [|destruct (below _ start) eqn:E2]; intros [= <- <- <-].
    + split; [lia|]. split; [left; lia|]. split; [done|]. intros j Hj. split_and!; [auto|cbn|done].
      apply first_failing_from_Some in Hj. lia.
    + destruct (below_true _ _ Hload E2) as (l & Hl & Hlt). split; [lia|].
      split; [right; exists l; split; [done|lia]|]. split; [done|]. intros j Hj. split_and!; [auto|cbn|done].
      pose proof (first_failing_min j l Hj Hl). lia.
    + split; [lia|]. split; [cbn; lia|]. split; [done|]. intros j Hj. split_and!; [auto|cbn|done].
      apply first_failing_from_Some in Hj as [Hj _]. lia.
  - destruct (e <=? i) eqn:E1; bool_hyps; [|destruct (below _ i) eqn:E2]; intros [= <- <- <-].
    + split; [lia|]. split; [done|]. split; [done|]. intros j Hj. split_and!; [auto|cbn; lia|done].
    + destruct (below_true _ _ Hload E2) as (l & Hl & Hlt). split; [lia|].
      split; [right; exists l; split; [done|lia]|]. split; [done|]. intros j Hj. split_and!; [auto|cbn|done].
      pose proof (first_failing_min j l Hj Hl). lia.
    + split; [lia|]. split; [cbn; lia|]. split; [done|]. intros j Hj. split_and!; [auto|cbn; lia|done].
  - intros [= <- <- <-]. split; [lia|]. destruct (verify i) eqn:Ev.
    + split; [cbn; lia|]. split; [done|]. intros j Hj. split_and!; [auto|cbn|done].
      apply first_failing_from_Some in Hj as (_ & Hf & _). intros Hij. left. assert (i ≠ j) by congruence. lia.
    + assert (failing i) as Hfi by (split; [lia|done]). split; [done|]. split; [done|]. intros j Hj. split_and!; [auto|cbn|done].
      pose proof (first_failing_min j i Hj Hfi). lia.
  - intros [= <- <- <-]. split; [lia|]. split; [done|]. split.
    + constructor; [|done]. unfold fetch_min. destruct (latest s) as [l|]; [|done]. cbn. destruct (Nat.min_spec l i) as [[_ ->]|[_ ->]]; done.
    + intros j Hj. pose proof (first_failing_min j i Hj Hp). split_and!; [auto| |].
      * cbn. intros ->. right. destruct (latest s) as [l|]; cbn; [|done]. pose proof (first_failing_min j l Hj Hlat). f_equal. lia.
      * intros Hlj. rewrite Hlj. cbn. f_equal. lia.
Qed.

Lemma step_inv s w stale s' : inv s → step s w stale = Some s' → inv s'.
Proof.
  intros Hs. unfold step. destruct (workers s !! w) as [p|] eqn:Ep; [|done]. cbn.
  destruct (worker_step s p stale) as [[[p' nx] lo]|] eqn:E; [|done]. cbn. intros [= <-].
  assert (wf_pc (next s) p) as Hp by (pose proof (inv_workers s Hs) as H; rewrite Forall_lookup in H; eauto).
  destruct (worker_step_ok s p stale p' nx lo Hs Hp E) as (Hnx & Hp' & Hlo & Hj).
  split; cbn.
  - done.
  - apply Forall_insert; [|done]. eapply Forall_impl; [apply (inv_workers s Hs)|]. intros q. by apply wf_pc_mono.
  - intros j Hfj. destruct (Hj j Hfj) as (H1 & H2 & H3). pose proof (lookup_lt_Some _ _ _ Ep) as Hlt.
    assert (pending j p' → ∃ w0 p0, <[w:=p']> (workers s) !! w0 = Some p0 ∧ pending j p0) as Hpend.
    { intros Hpj. exists w, p'. split; [by apply list_lookup_insert_eq|done]. }
    destruct (inv_lowest s Hs j Hfj) as [H|[(w0 & q & Hq & Hqj)|H]].
    + destruct (H1 H); auto.
    + destruct (decide (w0 = w)) as [->|Hne].
      * rewrite Ep in Hq. injection Hq as <-. destruct (H2 Hqj); auto.
      * right. left. exists w0, q. by rewrite list_lookup_insert_ne.
    + right. right. auto.
Qed.

Lemma init_inv threads : inv (init threads).
Proof.
  split; cbn.
  - by repeat constructor.
  - by apply Forall_replicate.
  - intros j _. left. lia.
Qed.

(** ** The answer *)

Lemma finished_answer s : inv s → workers s ≠ [] → all_finished s → latest s = first_failing.
Proof.
  intros Hs Hne Hf. unfold all_finished in Hf. rewrite Forall_lookup in Hf.
  destruct first_failing as [j|] eqn:Ej.
  - destruct (inv_lowest s Hs j Ej) as [H|[(w & p & Hp & Hpj)|H]]; [|by rewrite (Hf _ _ Hp) in Hpj|done].
    exfalso. destruct (workers s) as [|p ps] eqn:Ew; [done|]. pose proof (Hf 0 p eq_refl) as ->.
    pose proof (inv_workers s Hs) as Hw. rewrite Ew in Hw. apply Forall_cons in Hw as [Hw _]. cbn in Hw.
    pose proof Ej as (Hjn & _)%first_failing_from_Some. destruct Hw as [?|(l & Hl & Hlt)]; [lia|].
    pose proof (first_failing_min j l Ej Hl). lia.
  - pose proof (latest_genuine s Hs) as Hl. destruct (latest s) as [l|]; [|done]. destruct Hl as [Hl Hfl].
    rewrite (proj1 (first_failing_from_None 0 n) Ej l ltac:(lia)) in Hfl. done.
Qed.

(** ** Termination *)

(** What a worker can still do before it claims again, and the whole system. *)
Definition local_work (p : pc) : nat :=
  match p with
  | Claim => 3
  | Claimed start => if n <=? start then 1 else 3 * batch + 6
  | At i end_ => 3 * (end_ - i) + 5
  | Verify i end_ => 3 * (end_ - i) + 4
  | Fold _ => 4
  | Finished => 0
  end.

Definition work (s : Sys) : nat := (3 * batch + 10) * (n - next s) + sum_list (local_work <$> workers s).

Lemma worker_step_work s p stale p' nx lo : wf_pc (next s) p → worker_step s p stale = Some (p', nx, lo) →
  (3 * batch + 10) * (n - nx) + local_work p' < (3 * batch + 10) * (n - next s) + local_work p.
Proof.
  intros Hp. destruct p as [|start|i e|i e|i|]; cbn [worker_step]; cbn in Hp; [..|done].
  - intros [= <- <- <-]. cbn [local_work]. destruct (n <=? next s) eqn:E; bool_hyps.
    + replace (n - (next s + batch)) with 0 by lia. replace (n - next s) with 0 by lia. lia.
    + assert (n - (next s + batch) + 1 ≤ n - next s) by lia. nia.
  - destruct (n <=? start) eqn:E1; [|destruct (below _ start)]; intros [= <- <- <-]; cbn [local_work]; rewrite E1; bool_hyps; lia.
  - destruct (e <=? i) eqn:E1; bool_hyps; [|destruct (below _ i)]; intros [= <- <- <-]; cbn [local_work]; lia.
  - intros [= <- <- <-]. destruct (verify i); cbn [local_work]; lia.
  - intros [= <- <- <-]. cbn [local_work]. lia.
Qed.

Lemma sum_list_insert (l : list nat) w x y : l !! w = Some x → sum_list (<[w := y]> l) + x = sum_list l + y.
Proof.
  revert w. induction l as [|a l IH]; intros [|w] H; try done.
  - injection H as ->. cbn. lia.
  - change (<[S w := y]> (a :: l)) with (a :: <[w := y]> l). specialize (IH w H). cbn [sum_list_with]. unfold id in *. lia.
Qed.

Lemma step_work s w stale s' : inv s → step s w stale = Some s' → work s' < work s.
Proof.
  intros Hs. unfold step. destruct (workers s !! w) as [p|] eqn:Ep; [|done]. cbn.
  destruct (worker_step s p stale) as [[[p' nx] lo]|] eqn:E; [|done]. cbn. intros [= <-].
  assert (wf_pc (next s) p) as Hp by (pose proof (inv_workers s Hs) as H; rewrite Forall_lookup in H; eauto).
  pose proof (worker_step_work s p stale p' nx lo Hp E). unfold work. cbn [next workers].
  rewrite list_fmap_insert. pose proof (sum_list_insert (local_work <$> workers s) w (local_work p) (local_work p')) as Hsum.
  rewrite list_lookup_fmap, Ep in Hsum. specialize (Hsum eq_refl). lia.
Qed.

Lemma run_inv k s s' : inv s → nsteps steps_to k s s' → inv s' ∧ k + work s' ≤ work s ∧ length (workers s') = length (workers s).
Proof.
  intros Hs H. revert Hs. induction H as [s|k s1 s2 s3 (w & stale & H1) _ IH]; intros Hs; [split; [done|lia]|].
  pose proof (step_inv _ _ _ _ Hs H1) as H2. destruct (IH H2) as (? & ? & Hl). split; [done|].
  pose proof (step_work _ _ _ _ Hs H1). split; [lia|]. rewrite Hl. clear - H1. unfold step in H1.
  destruct (workers s1 !! w); [|done]. cbn in H1. destruct (worker_step _ _ _) as [[[? ?] ?]|]; [|done]. cbn in H1.
  injection H1 as <-. cbn. apply length_insert.
Qed.

Lemma not_finished_steps s : ¬ all_finished s → ∃ s', steps_to s s'.
Proof.
  intros H. unfold all_finished in H. apply not_Forall_Exists in H; [|intros p; apply _]. apply Exists_exists in H as (p & Hp & Hne).
  apply list_elem_of_lookup in Hp as [w Hw]. destruct (worker_step s p 0) as [[[p' nx] lo]|] eqn:E; [|destruct p; cbn in *; congruence].
  eexists. exists w, 0. unfold step. rewrite Hw. cbn. rewrite E. done.
Qed.

End Run.

(** * The two entry points *)

Definition PARALLEL_THRESHOLD : nat := 4.

(** [first_invalid_ring(checks, threads)] may return [r]: on the sequential path the
    position of the first failure, else what [lowest] holds after some run of the
    workers to the end. *)
Definition runs_to (verify : nat → bool) (n batch threads : nat) (r : option nat) : Prop :=
  ∃ s, rtc (steps_to verify n batch) (init threads) s ∧ all_finished s ∧ r = latest s.

Definition first_invalid_ring (verify : nat → bool) (n threads : nat) (r : option nat) : Prop :=
  let workers := Nat.min threads (n / 2) in
  if (n <? PARALLEL_THRESHOLD) || (workers <? 2) then r = first_failing verify n
  else
    let batch := Nat.max ((n + workers * 4 - 1) / (workers * 4)) 1 in
    runs_to verify n batch workers r.

Lemma runs_to_first_failing verify n batch threads r : 1 ≤ batch → 1 ≤ threads →
  runs_to verify n batch threads r ↔ r = first_failing verify n.
Proof.
  intros Hb Ht.
  assert (∀ s, rtc (steps_to verify n batch) (init threads) s → inv verify n batch s ∧ workers s ≠ []) as Hreach.
  { intros s [k Hk]%rtc_nsteps. destruct (run_inv verify n batch Hb _ _ _ (init_inv verify n batch Hb threads) Hk) as (Hi & _ & Hl).
    split; [done|]. intros E. rewrite E in Hl. cbn in Hl. rewrite length_replicate in Hl. lia. }
  split.
  - intros (s & Hs & Hf & ->). destruct (Hreach s Hs) as [Hi Hne]. by apply (finished_answer verify n batch).
  - intros ->. assert (∀ m s, rtc (steps_to verify n batch) (init threads) s → work n batch s ≤ m →
      ∃ s', rtc (steps_to verify n batch) (init threads) s' ∧ all_finished s') as Hterm.
    { induction m as [|m IH]; intros s Hs Hm; (destruct (decide (all_finished s)) as [|Hnf]; [by eauto|]);
        destruct (not_finished_steps verify n batch s Hnf) as (s' & w & stale & Hst);
        pose proof (step_work verify n batch Hb s w stale s' (proj1 (Hreach s Hs)) Hst); [lia|].
      apply (IH s'); [|lia]. eapply rtc_r; [exact Hs|]. by exists w, stale. }
    destruct (Hterm _ _ (rtc_refl _ _) (Nat.le_refl _)) as (s & Hs & Hf). exists s. split; [done|]. split; [done|].
    destruct (Hreach s Hs) as [Hi Hne]. symmetry. by apply (finished_answer verify n batch).
Qed.

(** C25. The parallel verifier is deterministic: whatever the number of threads, the
    interleaving of the workers and the staleness of the loads of [lowest], it
    returns the index the sequential loop would have stopped at, and it does
    return. *)
Theorem first_invalid_ring_deterministic verify n threads r :
  first_invalid_ring verify n threads r ↔ r = first_failing verify n.
Proof.
  unfold first_invalid_ring. destruct (_ || _) eqn:E; [done|]. bool_hyps. apply runs_to_first_failing; lia.
Qed.

(** No run of the workers is longer than a bound fixed by the batch: every step of
    every interleaving consumes some of it, and a system whose workers have not
    all finished can always take a step. *)
Theorem workers_terminate verify n batch threads k s : 1 ≤ batch →
  nsteps (steps_to verify n batch) k (init threads) s →
  k ≤ (3 * batch + 10) * n + 3 * threads ∧ (all_finished s ∨ ∃ s', steps_to verify n batch s s').
Proof.
  intros Hb Hk. destruct (run_inv verify n batch Hb _ _ _ (init_inv verify n batch Hb threads) Hk) as (_ & Hw & _). split.
  - unfold work at 2 in Hw. cbn [init next workers] in Hw. rewrite fmap_replicate, sum_list_replicate, Nat.sub_0_r in Hw.
    cbn [local_work] in Hw. lia.
  - destruct (decide (all_finished s)); [by left|right]. by apply not_finished_steps.
Qed.

(** The state after the moves of a schedule. *)
Definition run (verify : nat → bool) (n batch : nat) (schedule : list (nat * nat)) (s : Sys) : option Sys :=
  foldl (λ os m, s ← os; step verify n batch s m.1 m.2) (Some s) schedule.

(** Two workers over four checks of which the third fails. The second worker claims 0
    and 1, the first claims 2 and 3, reports 2 and finds no more work. *)
Definition sample_schedule : list (nat * nat) :=
  [(1, 0); (0, 0); (0, 0); (0, 0); (0, 0); (0, 0); (0, 0); (0, 0); (1, 1); (1, 1); (1, 0); (1, 1); (1, 0); (1, 1); (1, 0); (1, 0)].

Definition sample_verify (i : nat) : bool := negb (i =? 2).

Ltac run_moves l :=
  lazymatch l with
  | (?w, ?stale) :: ?l => eapply nsteps_l; [exists w, stale; vm_compute; reflexivity|]; run_moves l
  | [] => constructor
  end.

Lemma workers_terminate_witness : ∃ s, run sample_verify 4 2 sample_schedule (init 2) = Some s ∧ latest s = Some 2 ∧
  length sample_schedule ≤ (3 * 2 + 10) * 4 + 3 * 2 ∧ (all_finished s ∨ ∃ s', steps_to sample_verify 4 2 s s').
Proof.
  eexists. split; [vm_compute; reflexivity|]. split; [reflexivity|].
  eapply (workers_terminate sample_verify 4 2 2 16); [lia|].
  let l := eval cbv in sample_schedule in run_moves l.
Defined.
