(* ===== verification/Records.v ===== *)
(** The records of the chain state (crates/wrkz-chain/src/records.rs) and the keys they are
    stored under (crates/wrkz-chain/src/keys.rs). *)
From S2P Require Import Prelude Hashing.
Local Open Scope Z_scope.

(** [ChainError::Corrupt]: the record kind and its length. *)
Inductive Corrupt : Type :=
| BadLength (what : string) (len : nat)
| RawBlockTruncated
| RawBlockTrailing.

Definition hash_at (b : bytes) (off : nat) : Hash := slice b off 32.
Definition u64_at (b : bytes) (off : nat) : Z := from_le_bytes (slice b off 8).
Definition u32_at (b : bytes) (off : nat) : Z := from_le_bytes (slice b off 4).
Definition u16_at (b : bytes) (off : nat) : Z := from_le_bytes (slice b off 2).

Record BlockInfo := mkBlockInfo {
  block_hash : Hash; bi_timestamp : Z; block_size : Z; cumulative_difficulty : Z;
  already_generated_coins : Z; already_generated_transactions : Z }.

Module BlockInfo.

Definition LEN : nat := 32 + 8 + 4 + 8 + 8 + 8.

Definition encode (b : BlockInfo) : bytes :=
  block_hash b ++ to_le_bytes 8 (bi_timestamp b) ++ to_le_bytes 4 (block_size b) ++
  to_le_bytes 8 (cumulative_difficulty b) ++ to_le_bytes 8 (already_generated_coins b) ++
  to_le_bytes 8 (already_generated_transactions b).

Definition decode (b : bytes) : result Corrupt BlockInfo :=
  if negb (length b =? LEN)%nat then Err (BadLength "block info" (length b))
  else Ok (mkBlockInfo (hash_at b 0) (u64_at b 32) (u32_at b 40) (u64_at b 44) (u64_at b 52) (u64_at b 60)).

End BlockInfo.

Record OutputRecord := mkOutputRecord {
  public_key : Hash; or_unlock_time : Z; transaction_hash : Hash; output_index : Z; or_block_index : Z }.

Module OutputRecord.

Definition LEN : nat := 32 + 8 + 32 + 2 + 4.

Definition encode (o : OutputRecord) : bytes :=
  public_key o ++ to_le_bytes 8 (or_unlock_time o) ++ transaction_hash o ++
  to_le_bytes 2 (output_index o) ++ to_le_bytes 4 (or_block_index o).

Definition decode (b : bytes) : result Corrupt OutputRecord :=
  if negb (length b =? LEN)%nat then Err (BadLength "output" (length b))
  else Ok (mkOutputRecord (hash_at b 0) (u64_at b 32) (hash_at b 40) (u16_at b 72) (u32_at b 74)).

End OutputRecord.

Definition encode_hashes (hashes : list Hash) : bytes := concat hashes.

Definition decode_hashes (b : bytes) : result Corrupt (list Hash) :=
  if negb (length b mod 32 =? 0)%nat then Err (BadLength "hash list" (length b))
  else Ok (as_chunks 32 b).1.

Definition encode_payment_id_refs (refs : list (Hash * Hash)) : bytes := concat (map (λ r, r.1 ++ r.2) refs).

Definition decode_payment_id_refs (b : bytes) : result Corrupt (list (Hash * Hash)) :=
  if negb (length b mod 64 =? 0)%nat then Err (BadLength "payment id reference list" (length b))
  else Ok (map (λ c, (take 32 c, drop 32 c)) (as_chunks 64 b).1).

Definition encode_output_refs (refs : list (Z * Z)) : bytes :=
  concat (map (λ r, to_le_bytes 8 r.1 ++ to_le_bytes 4 r.2) refs).

Definition decode_output_refs (b : bytes) : result Corrupt (list (Z * Z)) :=
  if negb (length b mod 12 =? 0)%nat then Err (BadLength "output reference list" (length b))
  else Ok (map (λ c, (u64_at c 0, u32_at c 8)) (as_chunks 12 b).1).

Definition encode_raw_block (block : bytes) (transactions : list bytes) : bytes :=
  to_le_bytes 4 (Z.of_nat (length block)) ++ block ++ to_le_bytes 4 (Z.of_nat (length transactions)) ++
  concat (map (λ t, to_le_bytes 4 (Z.of_nat (length t)) ++ t) transactions).

(** The closure [take]: [n] bytes at [at], which then moves past them. *)
Definition take_at (b : bytes) (at_ n : nat) : result Corrupt (bytes * nat) :=
  if (length b <? at_ + n)%nat then Err RawBlockTruncated else Ok (slice b at_ n, (at_ + n)%nat).

Fixpoint take_blobs (count : nat) (b : bytes) (at_ : nat) : result Corrupt (list bytes * nat) :=
  match count with
  | O => Ok ([], at_)
  | S count =>
      '(n, at_) ← take_at b at_ 4;
      '(t, at_) ← take_at b at_ (Z.to_nat (from_le_bytes n));
      '(ts, at_) ← take_blobs count b at_;
      Ok (t :: ts, at_)
  end.

Definition decode_raw_block (b : bytes) : result Corrupt (bytes * list bytes) :=
  '(n, at_) ← take_at b 0 4;
  '(block, at_) ← take_at b at_ (Z.to_nat (from_le_bytes n));
  '(c, at_) ← take_at b at_ 4;
  '(transactions, at_) ← take_blobs (Z.to_nat (from_le_bytes c)) b at_;
  if negb (at_ =? length b)%nat then Err RawBlockTrailing else Ok (block, transactions).

(** * Keys *)

Definition NS : Z := 87.              (* b'W' *)
Definition TAG_META : Z := 77.        (* b'M' *)
Definition TAG_BLOCK_INFO : Z := 98.  (* b'b' *)
Definition TAG_HASH_TO_INDEX : Z := 104.     (* b'h' *)
Definition TAG_BLOCK_TX_HASHES : Z := 116.   (* b't' *)
Definition TAG_TRANSACTION_INDEX : Z := 120. (* b'x' *)
Definition TAG_KEY_IMAGE : Z := 107.         (* b'k' *)
Definition TAG_BLOCK_KEY_IMAGES : Z := 75.   (* b'K' *)
Definition TAG_OUTPUT : Z := 111.            (* b'o' *)
Definition TAG_OUTPUT_COUNT : Z := 99.       (* b'c' *)
Definition TAG_BLOCK_OUTPUTS : Z := 79.      (* b'O' *)
Definition TAG_RAW_BLOCK : Z := 114.         (* b'r' *)
Definition TAG_PAYMENT_ID : Z := 112.        (* b'p' *)
Definition TAG_PAYMENT_ID_ENTRY : Z := 113.  (* b'q' *)
Definition TAG_PAYMENT_ID_COUNT : Z := 81.   (* b'Q' *)
Definition TAG_BLOCK_PAYMENT_IDS : Z := 80.  (* b'P' *)

Module keys.

Definition head (tag : Z) : bytes := [NS; tag].
Definition meta (name : bytes) : bytes := head TAG_META ++ name.
Definition block_info (index : Z) : bytes := head TAG_BLOCK_INFO ++ to_be_bytes 4 index.
Definition hash_to_index (hash : Hash) : bytes := head TAG_HASH_TO_INDEX ++ hash.
Definition block_tx_hashes (index : Z) : bytes := head TAG_BLOCK_TX_HASHES ++ to_be_bytes 4 index.
Definition transaction_index (hash : Hash) : bytes := head TAG_TRANSACTION_INDEX ++ hash.
Definition key_image (image : Hash) : bytes := head TAG_KEY_IMAGE ++ image.
Definition block_key_images (index : Z) : bytes := head TAG_BLOCK_KEY_IMAGES ++ to_be_bytes 4 index.
Definition output (amount global_index : Z) : bytes := head TAG_OUTPUT ++ to_be_bytes 8 amount ++ to_be_bytes 4 global_index.
Definition output_count (amount : Z) : bytes := head TAG_OUTPUT_COUNT ++ to_be_bytes 8 amount.
Definition block_outputs (index : Z) : bytes := head TAG_BLOCK_OUTPUTS ++ to_be_bytes 4 index.
Definition raw_block (index : Z) : bytes := head TAG_RAW_BLOCK ++ to_be_bytes 4 index.
Definition payment_id (id : Hash) : bytes := head TAG_PAYMENT_ID ++ id.
Definition payment_id_entry (id : Hash) (n : Z) : bytes := head TAG_PAYMENT_ID_ENTRY ++ id ++ to_be_bytes 4 n.
Definition payment_id_count (id : Hash) : bytes := head TAG_PAYMENT_ID_COUNT ++ id.
Definition block_payment_ids (index : Z) : bytes := head TAG_BLOCK_PAYMENT_IDS ++ to_be_bytes 4 index.

End keys.

(** Every key the state uses, by the record it names. *)
Inductive StateKey : Type :=
| KMeta (name : bytes) | KBlockInfo (index : Z) | KHashToIndex (hash : Hash) | KBlockTxHashes (index : Z)
| KTransactionIndex (hash : Hash) | KKeyImage (image : Hash) | KBlockKeyImages (index : Z)
| KOutput (amount global_index : Z) | KOutputCount (amount : Z) | KBlockOutputs (index : Z) | KRawBlock (index : Z)
| KPaymentId (id : Hash) | KPaymentIdEntry (id : Hash) (n : Z) | KPaymentIdCount (id : Hash) | KBlockPaymentIds (index : Z).

Definition key_bytes (k : StateKey) : bytes :=
  match k with
  | KMeta name => keys.meta name
  | KBlockInfo index => keys.block_info index
  | KHashToIndex hash => keys.hash_to_index hash
  | KBlockTxHashes index => keys.block_tx_hashes index
  | KTransactionIndex hash => keys.transaction_index hash
  | KKeyImage image => keys.key_image image
  | KBlockKeyImages index => keys.block_key_images index
  | KOutput amount global_index => keys.output amount global_index
  | KOutputCount amount => keys.output_count amount
  | KBlockOutputs index => keys.block_outputs index
  | KRawBlock index => keys.raw_block index
  | KPaymentId id => keys.payment_id id
  | KPaymentIdEntry id n => keys.payment_id_entry id n
  | KPaymentIdCount id => keys.payment_id_count id
  | KBlockPaymentIds index => keys.block_payment_ids index
  end.

(** The types of the arguments. *)
Definition wf_key (k : StateKey) : Prop :=
  match k with
  | KMeta name => is_bytes name
  | KBlockInfo i | KBlockTxHashes i | KBlockKeyImages i | KBlockOutputs i | KRawBlock i | KBlockPaymentIds i => is_u32 i
  | KHashToIndex h | KTransactionIndex h | KKeyImage h | KPaymentId h | KPaymentIdCount h => is_hash h
  | KOutput amount i => is_u64 amount ∧ is_u32 i
  | KOutputCount amount => is_u64 amount
  | KPaymentIdEntry h n => is_hash h ∧ is_u32 n
  end.

(** ** Key order *)

Lemma to_be_bytes_inj n a b : 0 ≤ a < 256 ^ Z.of_nat n → 0 ≤ b < 256 ^ Z.of_nat n → to_be_bytes n a = to_be_bytes n b → a = b.
Proof. intros Ha Hb H. rewrite <- (from_to_be_bytes n a Ha), H. by apply from_to_be_bytes. Qed.

(** Big-endian integers sort numerically. *)
Lemma to_be_bytes_S n v : 0 ≤ v → to_be_bytes (S n) v = to_be_bytes n (v / 256) ++ [v mod 256].
Proof. intros. unfold to_be_bytes. cbn [to_le_bytes]. by rewrite reverse_cons. Qed.

Lemma to_be_bytes_lt n a b : 0 ≤ a < 256 ^ Z.of_nat n → 0 ≤ b < 256 ^ Z.of_nat n →
  bytes_lt (to_be_bytes n a) (to_be_bytes n b) ↔ a < b.
Proof.
  revert a b. induction n as [|n IH]; intros a b Ha Hb.
  - change (256 ^ Z.of_nat 0) with 1 in *. cbn. lia.
  - rewrite Nat2Z.inj_succ, Z.pow_succ_r in Ha, Hb by lia.
    assert (∀ v, 0 ≤ v < 256 * 256 ^ Z.of_nat n → 0 ≤ v / 256 < 256 ^ Z.of_nat n) as Hdiv.
    { intros v Hv. split; [apply Z.div_pos; lia | apply Z.div_lt_upper_bound; lia]. }
    rewrite !to_be_bytes_S, bytes_lt_app_r, IH by (try apply Hdiv; try lia; by rewrite !length_to_be_bytes).
    pose proof (Z.div_mod a 256 ltac:(lia)). pose proof (Z.div_mod b 256 ltac:(lia)).
    pose proof (Z.mod_pos_bound a 256 ltac:(lia)). pose proof (Z.mod_pos_bound b 256 ltac:(lia)). cbn [bytes_lt].
    split.
    + intros [Hlt|[E Hlt]]; [lia|]. apply (to_be_bytes_inj n) in E; [lia|by apply Hdiv..].
    + intros Hlt. destruct (decide (a / 256 < b / 256)); [by left|right]. assert (a / 256 = b / 256) as E by nia. rewrite E. split; [done|]. left. lia.
Qed.

Lemma be32_inj a b : is_u32 a → is_u32 b → to_be_bytes 4 a = to_be_bytes 4 b → a = b.
Proof. apply (to_be_bytes_inj 4). Qed.

Lemma be64_inj a b : is_u64 a → is_u64 b → to_be_bytes 8 a = to_be_bytes 8 b → a = b.
Proof. apply (to_be_bytes_inj 8). Qed.

Lemma key_bytes_inj k1 k2 : wf_key k1 → wf_key k2 → key_bytes k1 = key_bytes k2 → k1 = k2.
Proof.
  intros H1 H2 E. destruct k1, k2; try discriminate E; apply app_inv_head in E; cbn in H1, H2.
  all: try (by subst); try (by f_equal; apply be32_inj); try (by f_equal; apply be64_inj).
  - apply app_inj_1 in E as [E1 E2]; [|by rewrite !length_to_be_bytes]. destruct H1, H2. f_equal; [by apply be64_inj | by apply be32_inj].
  - destruct H1 as [[_ Hl1] Hn1], H2 as [[_ Hl2] Hn2]. apply app_inj_1 in E as [-> E2]; [|congruence]. f_equal. by apply be32_inj.
Qed.

(** Every key names one record: two keys are equal only when they were built for the
    same record kind and arguments, whatever the store holds under either. And the
    keys of the block records and of the outputs of one amount sort, byte by byte,
    in the order of the block index and of the global index, so a range scan visits
    them in order. *)
Theorem state_keys k1 k2 i j amount : wf_key k1 → wf_key k2 → is_u32 i → is_u32 j →
  (key_bytes k1 = key_bytes k2 → k1 = k2) ∧
  (bytes_lt (keys.block_info i) (keys.block_info j) ↔ i < j) ∧
  (bytes_lt (keys.output amount i) (keys.output amount j) ↔ i < j).
Proof.
  intros H1 H2 Hi Hj. split_and!; [by apply key_bytes_inj| |].
  - unfold keys.block_info. rewrite bytes_lt_app_r by done. rewrite (to_be_bytes_lt 4) by done.
    pose proof (bytes_lt_irrefl (keys.head TAG_BLOCK_INFO)). tauto.
  - unfold keys.output. rewrite !bytes_lt_app_r by (by rewrite ?length_to_be_bytes). rewrite (to_be_bytes_lt 4) by done.
    pose proof (bytes_lt_irrefl (keys.head TAG_OUTPUT)). pose proof (bytes_lt_irrefl (to_be_bytes 8 amount)). tauto.
Qed.

Lemma state_keys_witness :
  (key_bytes (KBlockInfo 256) = key_bytes (KBlockTxHashes 256) → KBlockInfo 256 = KBlockTxHashes 256) ∧
  (bytes_lt (keys.block_info 255) (keys.block_info 256) ↔ 255 < 256) ∧
  (bytes_lt (keys.output 1000 255) (keys.output 1000 256) ↔ 255 < 256).
Proof. apply (state_keys (KBlockInfo 256) (KBlockTxHashes 256) 255 256 1000); unfold wf_key, in_u; lia. Defined.

(** ** Codecs *)

Lemma slice_join (b : bytes) a n m c : c = (a + n)%nat → slice b a n ++ slice b c m = slice b a (n + m).
Proof. intros ->. unfold slice. by rewrite <- drop_drop, take_take_drop. Qed.

Lemma slice_is_bytes b a n : is_bytes b → is_bytes (slice b a n).
Proof. intros. unfold slice. auto with bytes_db. Qed.

Lemma slice_array b a n : is_bytes b → (a + n ≤ length b)%nat → is_array n (slice b a n).
Proof. intros Hb Hl. split; [by apply slice_is_bytes | by apply length_slice]. Qed.

(** A little-endian field read out of a record. *)
Lemma field_bound b a n : is_bytes b → (a + n ≤ length b)%nat → 0 ≤ from_le_bytes (slice b a n) < 256 ^ Z.of_nat n.
Proof.
  intros Hb Hl. pose proof (from_le_bytes_bound (slice b a n) (slice_is_bytes b a n Hb)) as H. by rewrite length_slice in H.
Qed.

Lemma field_bytes b a n : is_bytes b → (a + n ≤ length b)%nat → to_le_bytes n (from_le_bytes (slice b a n)) = slice b a n.
Proof.
  intros Hb Hl. pose proof (to_from_le_bytes (slice b a n) (slice_is_bytes b a n Hb)) as H. by rewrite length_slice in H.
Qed.

(** [slice] at the offset of the second part of a concatenation, and within the first. *)
Lemma slice_app_skip {A} (x y : list A) a n : (length x ≤ a)%nat → slice (x ++ y) a n = slice y (a - length x) n.
Proof. intros. unfold slice. by rewrite drop_app_ge by done. Qed.

Lemma slice_app_here {A} (x y : list A) n : length x = n → slice (x ++ y) 0 n = x.
Proof. intros <-. unfold slice. by rewrite drop_0, take_app_length. Qed.

Lemma slice_all {A} (x : list A) n : length x = n → slice x 0 n = x.
Proof. intros <-. unfold slice. by rewrite drop_0, firstn_all. Qed.

Definition wf_block_info (b : BlockInfo) : Prop :=
  is_hash (block_hash b) ∧ is_u64 (bi_timestamp b) ∧ is_u32 (block_size b) ∧ is_u64 (cumulative_difficulty b) ∧
  is_u64 (already_generated_coins b) ∧ is_u64 (already_generated_transactions b).

Definition wf_output_record (o : OutputRecord) : Prop :=
  is_hash (public_key o) ∧ is_u64 (or_unlock_time o) ∧ is_hash (transaction_hash o) ∧ is_u16 (output_index o) ∧ is_u32 (or_block_index o).

(** Project the fields of a record in hand, and nothing else. *)
Ltac proj := cbn [block_hash bi_timestamp block_size cumulative_difficulty already_generated_coins
  already_generated_transactions public_key or_unlock_time transaction_hash output_index or_block_index] in *.

(** The fields after [x] of a record, then the first of them. *)
Ltac skip x := rewrite !(slice_app_skip x) by (rewrite ?length_to_le_bytes; lia); rewrite ?length_to_le_bytes; cbn [Nat.sub].
Ltac here x := rewrite (slice_app_here x) by (rewrite ?length_to_le_bytes; lia).

Lemma block_info_decode_encode b : wf_block_info b → BlockInfo.decode (BlockInfo.encode b) = Ok b.
Proof.
  destruct b as [h ts sz cd ac at_]. intros ([_ Hh] & Hts & Hsz & Hcd & Hac & Hat). proj.
  unfold BlockInfo.decode, BlockInfo.encode, hash_at, u64_at, u32_at. proj.
  rewrite !length_app, !length_to_le_bytes, Hh. cbn [Nat.add Nat.eqb BlockInfo.LEN negb].
  here h. skip h. rewrite Hh. cbn [Nat.sub].
  here (to_le_bytes 8 ts). skip (to_le_bytes 8 ts). here (to_le_bytes 4 sz). skip (to_le_bytes 4 sz).
  here (to_le_bytes 8 cd). skip (to_le_bytes 8 cd). here (to_le_bytes 8 ac). skip (to_le_bytes 8 ac).
  rewrite slice_all by apply length_to_le_bytes. by rewrite !from_to_le_bytes by done.
Qed.

Lemma block_info_encode_decode x b : is_bytes x → BlockInfo.decode x = Ok b → wf_block_info b ∧ x = BlockInfo.encode b.
Proof.
  unfold BlockInfo.decode. intros Hx. destruct (length x =? BlockInfo.LEN)%nat eqn:E; [|done]. cbn [negb]. intros [= <-]. bool_hyps.
  unfold BlockInfo.LEN in E. cbn in E. split.
  - unfold wf_block_info. proj. split_and!; try (apply slice_array; [done|lia]); apply field_bound; done || lia.
  - unfold BlockInfo.encode, u64_at, u32_at, hash_at. proj.
    rewrite !field_bytes by (done || lia). rewrite (slice_join x 52), (slice_join x 44), (slice_join x 40), (slice_join x 32), (slice_join x 0) by done.
    symmetry. by apply slice_all.
Qed.

Lemma output_record_decode_encode o : wf_output_record o → OutputRecord.decode (OutputRecord.encode o) = Ok o.
Proof.
  destruct o as [k u h oi bi]. intros ([_ Hk] & Hu & [_ Hh] & Hoi & Hbi). proj.
  unfold OutputRecord.decode, OutputRecord.encode, hash_at, u64_at, u32_at, u16_at. proj.
  rewrite !length_app, !length_to_le_bytes, Hk, Hh. cbn [Nat.add Nat.eqb OutputRecord.LEN negb].
  here k. skip k. rewrite Hk. cbn [Nat.sub]. here (to_le_bytes 8 u). skip (to_le_bytes 8 u). here h. skip h. rewrite Hh. cbn [Nat.sub].
  here (to_le_bytes 2 oi). skip (to_le_bytes 2 oi). rewrite slice_all by apply length_to_le_bytes. by rewrite !from_to_le_bytes by done.
Qed.

Lemma output_record_encode_decode x o : is_bytes x → OutputRecord.decode x = Ok o → wf_output_record o ∧ x = OutputRecord.encode o.
Proof.
  unfold OutputRecord.decode. intros Hx. destruct (length x =? OutputRecord.LEN)%nat eqn:E; [|done]. cbn [negb]. intros [= <-]. bool_hyps.
  unfold OutputRecord.LEN in E. cbn in E. split.
  - unfold wf_output_record. proj. split_and!; try (apply slice_array; [done|lia]); apply field_bound; done || lia.
  - unfold OutputRecord.encode, u64_at, u32_at, u16_at, hash_at. proj.
    rewrite !field_bytes by (done || lia). rewrite (slice_join x 72), (slice_join x 40), (slice_join x 32), (slice_join x 0) by done.
    symmetry. by apply slice_all.
Qed.

(** The fixed-layout records of the chain state: a value decodes exactly when it is
    the encoding of a record, so nothing truncated, padded or foreign is read as a
    block info or an output, and every record written is read back. *)
Theorem records_codec x b o : is_bytes x →
  (BlockInfo.decode x = Ok b ↔ wf_block_info b ∧ x = BlockInfo.encode b) ∧
  (OutputRecord.decode x = Ok o ↔ wf_output_record o ∧ x = OutputRecord.encode o).
Proof.
  intros Hx. split; split; try (intros [Hw ->]; by first [apply block_info_decode_encode | apply output_record_decode_encode]).
  - by apply block_info_encode_decode.
  - by apply output_record_encode_decode.
Qed.

Lemma records_codec_witness :
  let x := replicate 68 7 in
  let b := mkBlockInfo (replicate 32 7) 506381209866536711 117901063 506381209866536711 506381209866536711 506381209866536711 in
  let o := mkOutputRecord [] 0 [] 0 0 in
  (BlockInfo.decode x = Ok b ↔ wf_block_info b ∧ x = BlockInfo.encode b) ∧
  (OutputRecord.decode x = Ok o ↔ wf_output_record o ∧ x = OutputRecord.encode o).
Proof. apply records_codec. apply Forall_replicate. split; vm_compute; congruence. Defined.

(** ** Lists of fixed-size items *)

Lemma chunks_loop_concat (n fuel : nat) (l : list bytes) : (0 < n)%nat → (length (concat l) ≤ fuel)%nat →
  Forall (λ c, length c = n) l → chunks_loop fuel n (concat l) = (l, []).
Proof.
  intros Hn. revert fuel. induction l as [|c l IH]; intros fuel Hf Hl.
  - destruct fuel; cbn [chunks_loop concat length]; [done|]. by rewrite (proj2 (Nat.ltb_lt 0 n) Hn).
  - apply Forall_cons in Hl as [Hc Hl]. cbn [concat] in *. rewrite length_app in Hf. destruct fuel as [|fuel]; [lia|].
    cbn [chunks_loop]. rewrite length_app, (proj2 (Nat.ltb_ge _ _)) by lia.
    rewrite drop_app_length_eq, take_app_length_eq by done. by rewrite IH by (done || lia).
Qed.

Lemma chunks_loop_exact {A} (n fuel k : nat) (b : list A) : (0 < n)%nat → length b = (k * n)%nat → (length b ≤ fuel)%nat →
  concat (chunks_loop fuel n b).1 = b ∧ Forall (λ c, length c = n) (chunks_loop fuel n b).1.
Proof.
  intros Hn. revert fuel b. induction k as [|k IH]; intros fuel b Hb Hf.
  - destruct b; [|done]. destruct fuel; cbn [chunks_loop concat length]; [done|]. by rewrite (proj2 (Nat.ltb_lt 0 n) Hn).
  - destruct fuel as [|fuel]; [cbn in Hb; lia|]. cbn [chunks_loop]. rewrite (proj2 (Nat.ltb_ge _ _)) by (cbn in Hb; lia).
    destruct (IH fuel (drop n b)) as [E Hl]; [rewrite length_drop; cbn in Hb; lia..|].
    destruct (chunks_loop fuel n (drop n b)) as [cs r]. cbn in *. rewrite E. split; [apply take_drop|].
    constructor; [rewrite length_take; lia|done].
Qed.

Lemma as_chunks_iff n (b : bytes) l : (0 < n)%nat →
  (length b mod n)%nat = 0%nat ∧ (as_chunks n b).1 = l ↔ b = concat l ∧ Forall (λ c, length c = n) l.
Proof.
  intros Hn. split.
  - intros [Hm <-]. apply Nat.Lcm0.mod_divide in Hm as [k Hk].
    destruct (chunks_loop_exact n (length b) k b Hn Hk (Nat.le_refl _)) as [E Hl]. split; [by symmetry|done].
  - intros [-> Hl]. split.
    + assert (length (concat l) = n * length l)%nat as ->.
      { induction Hl as [|c l Hc _ IH]; cbn; [lia|]. rewrite length_app, IH, Hc. lia. }
      rewrite Nat.mul_comm. by apply Nat.Div0.mod_mul.
    + unfold as_chunks. by rewrite chunks_loop_concat.
Qed.

(** The list codecs in one shape: items of [n] bytes, one after the other. *)
Section ListCodec.
Context {A : Type} (n : nat) (enc : A → bytes) (dec : bytes → A) (wf : A → Prop).
Hypothesis n_pos : (0 < n)%nat.
Hypothesis enc_array : ∀ a, wf a → is_array n (enc a).
Hypothesis dec_enc : ∀ a, wf a → dec (enc a) = a.
Hypothesis enc_dec : ∀ c, is_array n c → wf (dec c) ∧ enc (dec c) = c.

Lemma list_codec (b : bytes) l : is_bytes b →
  (length b mod n)%nat = 0%nat ∧ map dec (as_chunks n b).1 = l ↔ Forall wf l ∧ b = concat (map enc l).
Proof.
  intros Hb. split.
  - intros [Hm <-]. destruct (proj1 (as_chunks_iff n b _ n_pos) (conj Hm eq_refl)) as [E Hl].
    assert (Forall (λ c, wf (dec c) ∧ enc (dec c) = c) (as_chunks n b).1) as H.
    { rewrite E in Hb. clear E. induction Hl as [|c l Hc _ IH]; [done|]. apply is_bytes_app in Hb as [Hc' Hb].
      constructor; [by apply enc_dec | by apply IH]. }
    split; [apply Forall_map; eapply Forall_impl; [exact H|]; by intros c [Hc _]|]. rewrite E at 1. f_equal. rewrite map_map. rewrite <- (map_id (as_chunks n b).1) at 1.
    apply map_ext_Forall. eapply Forall_impl; [exact H|]. intros c [_ Hc]. by rewrite Hc.
  - intros [Hl ->]. assert (Forall (λ c, length c = n) (map enc l)) as Hlen.
    { apply Forall_map. eapply Forall_impl; [exact Hl|]. intros a Ha. by apply enc_array. }
    destruct (proj2 (as_chunks_iff n (concat (map enc l)) (map enc l) n_pos) (conj eq_refl Hlen)) as [Hm ->].
    split; [done|]. rewrite map_map. rewrite <- (map_id l) at 2. apply map_ext_Forall.
    eapply Forall_impl; [exact Hl|]. intros a Ha. by apply dec_enc.
Qed.

End ListCodec.

Definition wf_output_ref (r : Z * Z) : Prop := is_u64 r.1 ∧ is_u32 r.2.

Lemma decode_output_refs_iff b refs : is_bytes b →
  decode_output_refs b = Ok refs ↔ Forall wf_output_ref refs ∧ b = encode_output_refs refs.
Proof.
  intros Hb. unfold decode_output_refs, encode_output_refs.
  rewrite <- (list_codec 12 (λ r, to_le_bytes 8 r.1 ++ to_le_bytes 4 r.2) (λ c, (u64_at c 0, u32_at c 8)) wf_output_ref).
  - destruct (_ =? 0)%nat eqn:E; bool_hyps; cbn [negb]; [split; [by intros [= <-]|by intros [_ <-]]|]. split; [done|]. by intros [? _].
  - lia.
  - intros [a i] _. split; [apply is_bytes_app; auto with bytes_db|len].
  - intros [a i] [Ha Hi]. unfold u64_at, u32_at. cbn in Ha, Hi. cbn [fst snd]. here (to_le_bytes 8 a). skip (to_le_bytes 8 a).
    rewrite slice_all by apply length_to_le_bytes. by rewrite !from_to_le_bytes by done.
  - intros c [Hc Hl]. unfold u64_at, u32_at. split; [split; apply field_bound; done || lia|]. cbn [fst snd].
    rewrite !field_bytes by (done || lia). rewrite slice_join by done. by apply slice_all.
  - done.
Qed.

Lemma decode_hashes_iff b hs : is_bytes b → decode_hashes b = Ok hs ↔ Forall is_hash hs ∧ b = encode_hashes hs.
Proof.
  intros Hb. unfold decode_hashes, encode_hashes.
  pose proof (list_codec 32 (λ h, h) (λ h, h) is_hash ltac:(lia) ltac:(done) ltac:(done) ltac:(done) b hs Hb) as H.
  rewrite !map_id in H. rewrite <- H.
  destruct (_ =? 0)%nat eqn:E; bool_hyps; cbn [negb]; [split; [by intros [= <-]|by intros [_ <-]]|]. split; [done|]. by intros [? _].
Qed.

Lemma decode_payment_id_refs_iff b refs : is_bytes b →
  decode_payment_id_refs b = Ok refs ↔ Forall (λ r, is_hash r.1 ∧ is_hash r.2) refs ∧ b = encode_payment_id_refs refs.
Proof.
  intros Hb. unfold decode_payment_id_refs, encode_payment_id_refs.
  rewrite <- (list_codec 64 (λ r, r.1 ++ r.2) (λ c, (take 32 c, drop 32 c)) (λ r, is_hash r.1 ∧ is_hash r.2)).
  - destruct (_ =? 0)%nat eqn:E; bool_hyps; cbn [negb]; [split; [by intros [= <-]|by intros [_ <-]]|]. split; [done|]. by intros [? _].
  - lia.
  - intros [a i] [[Ha La] [Hi Li]]. cbn in *. split; [apply is_bytes_app; auto|]. rewrite length_app. lia.
  - intros [a i] [[_ La] _]. cbn in *. by rewrite take_app_length_eq, drop_app_length_eq by done.
  - intros c [Hc Hl]. cbn. split; [|apply take_drop]. split; split; auto with bytes_db; [rewrite length_take|rewrite length_drop]; lia.
  - done.
Qed.

(** ** Raw blocks *)

Definition blob_bytes (t : bytes) : bytes := to_le_bytes 4 (Z.of_nat (length t)) ++ t.
Definition wf_blob (t : bytes) : Prop := is_bytes t ∧ is_u32 (Z.of_nat (length t)).

Lemma take_at_Ok b a n s a' : (a ≤ length b)%nat →
  take_at b a n = Ok (s, a') ↔ length s = n ∧ drop a b = s ++ drop a' b ∧ a' = (a + n)%nat ∧ (a' ≤ length b)%nat.
Proof.
  intros Ha. unfold take_at. destruct (_ <? _)%nat eqn:E; bool_hyps.
  - split; [done|]. intros (? & ? & ? & ?). lia.
  - split.
    + intros [= <- <-]. split_and!; [apply length_slice; lia| |done|lia]. unfold slice. by rewrite <- drop_drop, take_drop.
    + intros (Hn & Hd & -> & _). unfold slice. rewrite Hd, take_app_length_eq by done. done.
Qed.

(** A length-prefixed blob at [a]. *)
Lemma take_blob_Ok b a t a' : is_bytes b → (a ≤ length b)%nat →
  ('(n, c) ← take_at b a 4; take_at b c (Z.to_nat (from_le_bytes n))) = Ok (t, a') ↔
  wf_blob t ∧ drop a b = blob_bytes t ++ drop a' b ∧ a' = (a + length (blob_bytes t))%nat ∧ (a' ≤ length b)%nat.
Proof.
  intros Hb Ha. unfold blob_bytes. rewrite length_app, length_to_le_bytes. split.
  - intros ([n c] & Hn & Ht)%result_bind_Ok. apply take_at_Ok in Hn as (Ln & Dn & -> & Hc); [|done].
    apply take_at_Ok in Ht as (Lt & Dt & -> & Ht); [|done].
    assert (is_bytes n ∧ is_bytes t) as [Hbn Hbt].
    { assert (is_bytes (drop a b)) as Hda by auto with bytes_db. rewrite Dn, Dt in Hda. apply is_bytes_app in Hda as [? Hda].
      apply is_bytes_app in Hda as [? _]. done. }
    pose proof (from_le_bytes_bound n Hbn) as Hbd. rewrite Ln in Hbd.
    assert (Z.of_nat (length t) = from_le_bytes n) as El by lia. split_and!.
    + split; [done|]. unfold in_u. rewrite El. exact Hbd.
    + assert (to_le_bytes 4 (from_le_bytes n) = n) as En by (rewrite <- Ln; by apply to_from_le_bytes).
      rewrite El, En, <- app_assoc, Dn. f_equal. exact Dt.
    + lia.
    + done.
  - intros ([Hbt Hl] & Hd & -> & Hle). apply result_bind_Ok. exists (to_le_bytes 4 (Z.of_nat (length t)), (a + 4)%nat).
    rewrite <- app_assoc in Hd. assert (drop (a + 4) b = t ++ drop (a + (4 + length t)) b) as Hd4.
    { rewrite <- drop_drop, Hd. by rewrite drop_app_length_eq by (by rewrite length_to_le_bytes). }
    split; [apply take_at_Ok; [done|]; split_and!; [apply length_to_le_bytes|by rewrite Hd4|done|lia]|].
    rewrite from_to_le_bytes by done. rewrite Nat2Z.id. apply take_at_Ok; [lia|]. split_and!; [done| |lia|done]. rewrite Hd4. do 2 f_equal.
Qed.

Lemma take_blobs_Ok count b a ts a' : is_bytes b → (a ≤ length b)%nat →
  take_blobs count b a = Ok (ts, a') ↔
  length ts = count ∧ Forall wf_blob ts ∧ drop a b = concat (map blob_bytes ts) ++ drop a' b ∧
  a' = (a + length (concat (map blob_bytes ts)))%nat ∧ (a' ≤ length b)%nat.
Proof.
  intros Hb. revert a ts. induction count as [|count IH]; intros a ts Ha; cbn [take_blobs].
  - split; [intros [= <- <-]; split_and!; try done; cbn; lia|]. intros (Hl & _ & _ & -> & _). destruct ts; [|done]. cbn. by rewrite Nat.add_0_r.
  - assert (('(n, at_) ← take_at b a 4; '(t, at_) ← take_at b at_ (Z.to_nat (from_le_bytes n)); '(ts, at_) ← take_blobs count b at_; Ok (t :: ts, at_)) =
      ('(t, c) ← ('(n, c) ← take_at b a 4; take_at b c (Z.to_nat (from_le_bytes n))); '(ts, c) ← take_blobs count b c; Ok (t :: ts, c))) as ->.
    { destruct (take_at b a 4) as [[n c]|]; done. }
    split.
    + intros ([t c] & Ht & Hr)%result_bind_Ok. apply take_blob_Ok in Ht as (Hwt & Hdt & -> & Hc); [|done..].
      apply result_bind_Ok in Hr as ([ts' c'] & Hts & [= <- <-]). apply IH in Hts as (<- & Hw & Hd & -> & Hc'); [|done].
      cbn [map concat length]. rewrite !length_app. split_and!; [done|by constructor| |lia|lia].
      rewrite Hdt, <- app_assoc. f_equal. exact Hd.
    + intros (Hl & Hw & Hd & Ea & Hle). destruct ts as [|t ts]; [done|]. apply Forall_cons in Hw as [Hwt Hw]. cbn [map concat] in Hd, Ea.
      rewrite length_app in Ea. rewrite <- app_assoc in Hd. apply result_bind_Ok. exists (t, (a + length (blob_bytes t))%nat).
      assert (drop (a + length (blob_bytes t)) b = concat (map blob_bytes ts) ++ drop a' b) as Hd'.
      { rewrite <- drop_drop, Hd. by rewrite drop_app_length. }
      split; [apply take_blob_Ok; [done|done|]; split_and!; [done|by rewrite Hd'|done|lia]|].
      apply result_bind_Ok. exists (ts, a'). split; [|done]. apply IH; [lia|]. split_and!; [by injection Hl|done|done|lia|done].
Qed.

Lemma decode_raw_block_iff x block txs : is_bytes x →
  decode_raw_block x = Ok (block, txs) ↔
  wf_blob block ∧ is_u32 (Z.of_nat (length txs)) ∧ Forall wf_blob txs ∧ x = encode_raw_block block txs.
Proof.
  intros Hx. unfold decode_raw_block.
  assert (∀ k, ('(n, at_) ← take_at x 0 4; '(block, at_) ← take_at x at_ (Z.to_nat (from_le_bytes n)); k block at_) =
    ('(block, c) ← ('(n, c) ← take_at x 0 4; take_at x c (Z.to_nat (from_le_bytes n))); k block c : result Corrupt (bytes * list bytes))) as ->.
  { intros k. destruct (take_at x 0 4) as [[n c]|]; done. }
  unfold encode_raw_block. fold blob_bytes. change (λ t, to_le_bytes 4 (Z.of_nat (length t)) ++ t) with blob_bytes.
  rewrite (app_assoc (to_le_bytes 4 (Z.of_nat (length block)))). fold (blob_bytes block). split.
  - intros ([bl c] & Hbl & H)%result_bind_Ok. apply take_blob_Ok in Hbl as (Hwb & Hdb & -> & Hc); [|done|lia].
    apply result_bind_Ok in H as ([n c] & Hn & H). apply take_at_Ok in Hn as (Ln & Dn & -> & Hcn); [|done].
    apply result_bind_Ok in H as ([ts c] & Hts & H). apply take_blobs_Ok in Hts as (Lts & Hwts & Dts & -> & Hcts); [|done|done].
    destruct (_ =? _)%nat eqn:E in H; [|done]. injection H as -> ->. apply Nat.eqb_eq in E.
    assert (is_bytes n) as Hbn.
    { assert (is_bytes (drop (0 + length (blob_bytes block)) x)) as Hd by auto with bytes_db. rewrite Dn in Hd. by apply is_bytes_app in Hd as [? _]. }
    pose proof (from_le_bytes_bound n Hbn) as Hbd. rewrite Ln in Hbd. split_and!; [done|unfold in_u; rewrite Lts; change (2 ^ 32) with (256 ^ Z.of_nat 4); lia|done|].
    assert (to_le_bytes 4 (from_le_bytes n) = n) as En by (rewrite <- Ln; by apply to_from_le_bytes).
    rewrite E, drop_all, app_nil_r in Dts. rewrite drop_0 in Hdb. rewrite Hdb, Dn, Dts, Lts, Z2Nat.id, En by lia. done.
  - intros (Hwb & Hn & Hwts & E). apply result_bind_Ok. exists (block, length (blob_bytes block)).
    set (tail := to_le_bytes 4 (Z.of_nat (length txs)) ++ concat (map blob_bytes txs)) in *.
    assert (drop (length (blob_bytes block)) x = tail) as Dt by (by rewrite E, drop_app_length).
    assert (length x = length (blob_bytes block) + (4 + length (concat (map blob_bytes txs))))%nat as Lx.
    { rewrite E, length_app. unfold tail. by rewrite length_app, length_to_le_bytes. }
    assert (drop (length (blob_bytes block) + 4) x = concat (map blob_bytes txs)) as Dc.
    { rewrite <- drop_drop, Dt. unfold tail. by rewrite drop_app_length_eq by (by rewrite length_to_le_bytes). }
    split; [apply take_blob_Ok; [done|lia|]; split_and!; [done|by rewrite drop_0, Dt|done|lia]|].
    apply result_bind_Ok. exists (to_le_bytes 4 (Z.of_nat (length txs)), (length (blob_bytes block) + 4)%nat).
    split; [apply take_at_Ok; [lia|]; split_and!; [apply length_to_le_bytes|by rewrite Dt, Dc|done|lia]|].
    apply result_bind_Ok. exists (txs, length x). rewrite from_to_le_bytes by done.
    split; [apply take_blobs_Ok; [done|lia|]; split_and!; [by rewrite Nat2Z.id|done| |lia|lia]|by rewrite Nat.eqb_refl].
    by rewrite Dc, drop_all, app_nil_r.
Qed.

(** The list values and the stored raw block: a value decodes exactly when it is an
    encoding (a whole number of fixed-size items; a block and its transactions, each
    length-prefixed, with nothing left over), and what decodes is what was encoded. *)
Theorem record_lists_codec x hashes refs outputs block txs : is_bytes x →
  (decode_hashes x = Ok hashes ↔ Forall is_hash hashes ∧ x = encode_hashes hashes) ∧
  (decode_payment_id_refs x = Ok refs ↔ Forall (λ r, is_hash r.1 ∧ is_hash r.2) refs ∧ x = encode_payment_id_refs refs) ∧
  (decode_output_refs x = Ok outputs ↔ Forall (λ r, is_u64 r.1 ∧ is_u32 r.2) outputs ∧ x = encode_output_refs outputs) ∧
  (decode_raw_block x = Ok (block, txs) ↔
    wf_blob block ∧ is_u32 (Z.of_nat (length txs)) ∧ Forall wf_blob txs ∧ x = encode_raw_block block txs).
Proof.
  intros Hx. split_and!; [by apply decode_hashes_iff|by apply decode_payment_id_refs_iff|by apply decode_output_refs_iff|by apply decode_raw_block_iff].
Qed.

Lemma record_lists_codec_witness :
  let x := encode_raw_block [1; 2] [[3]; []] in
  (decode_hashes x = Ok [] ↔ Forall is_hash [] ∧ x = encode_hashes []) ∧
  (decode_payment_id_refs x = Ok [] ↔ Forall (λ r, is_hash r.1 ∧ is_hash r.2) [] ∧ x = encode_payment_id_refs []) ∧
  (decode_output_refs x = Ok [] ↔ Forall (λ r, is_u64 r.1 ∧ is_u32 r.2) [] ∧ x = encode_output_refs []) ∧
  (decode_raw_block x = Ok ([1; 2], [[3]; []]) ↔
    wf_blob [1; 2] ∧ is_u32 2 ∧ Forall wf_blob [[3]; []] ∧ x = encode_raw_block [1; 2] [[3]; []]).
Proof. apply (record_lists_codec (encode_raw_block [1; 2] [[3]; []])). by apply (bool_decide_unpack _). Defined.
