(* ===== verification/Store.v ===== *)
(** Key-value storage ([crates/wrkz-storage/src/lib.rs] and [batch.rs]).

    [KvStore] is the trait, as a class of operations; an operation that takes
    [&mut self] returns the new store beside its result, also when it fails.
    [MemStore] is the in-memory store and [BatchStore] the write-batching
    overlay over any base store. [KvStoreLaws] states what a store promises
    its client in terms of the map it shows ([contents]); [MemStore] has the
    laws, and [BatchStore] has them over every base that has them.

    A [BTreeMap] is a [gmap] whose iteration order is [btree_entries]. Sizes
    are mathematical integers: they measure vectors held in memory at once. *)
From stdpp Require Import base gmap list sorting strings.
From S2P Require Import Prelude.
Open Scope Z_scope.

(** * Ordered maps *)

Definition entry_le {V} (a b : bytes * V) : Prop := bytes_le a.1 b.1.

#[export] Instance entry_le_dec {V} : RelDecision (@entry_le V).
Proof. intros a b. unfold entry_le. apply _. Defined.

#[export] Instance entry_le_total {V} : Total (@entry_le V).
Proof. intros a b. apply bytes_le_total. Qed.

#[export] Instance entry_le_trans {V} : Transitive (@entry_le V).
Proof. intros a b c. apply bytes_le_trans. Qed.

(** [BTreeMap::into_iter] and [iter]: ascending by key. *)
Definition btree_entries {V} (m : gmap bytes V) : list (bytes * V) := merge_sort entry_le (map_to_list m).

(** [std::ops::Bound] *)
Inductive Bound := Included (k : bytes) | Excluded (k : bytes) | Unbounded.

Definition above (b : Bound) (k : bytes) : bool :=
  match b with
  | Included s => bool_decide (bytes_le s k)
  | Excluded s => bool_decide (bytes_lt s k)
  | Unbounded => true
  end.

Definition below (b : Bound) (k : bytes) : bool :=
  match b with
  | Included e => bool_decide (bytes_le k e)
  | Excluded e => bool_decide (bytes_lt k e)
  | Unbounded => true
  end.

(** [BTreeMap::range] *)
Definition btree_range {V} (m : gmap bytes V) (s e : Bound) : list (bytes * V) :=
  filter (λ p, above s p.1 = true ∧ below e p.1 = true) (btree_entries m).

(** * The trait *)

Inductive StorageError :=
| Engine (message : string)
| Decode (message : string)
| Missing (what : string).

Definition WriteOp : Type := bytes * option bytes.

Record ScanPage := { entries : list (bytes * bytes); resume_after : option bytes }.

Definition starts_with (k p : bytes) : bool := bool_decide (p `prefix_of` k).

Definition scan_start (prefix : bytes) (after : option bytes) : Bound :=
  match after with
  | Some a => if bool_decide (bytes_le prefix a) then Excluded a else Included prefix
  | None => Included prefix
  end.

Fixpoint collect_page_loop (run : list (bytes * bytes)) (prefix : bytes) (limit : nat) (page : ScanPage) : ScanPage :=
  match run with
  | [] => page
  | e :: run =>
      if starts_with e.1 prefix then
        let es := entries page ++ [e] in
        if bool_decide (length es = limit) then {| entries := es; resume_after := fst <$> last es |}
        else collect_page_loop run prefix limit {| entries := es; resume_after := resume_after page |}
      else page
  end.

Definition collect_page (run : list (bytes * bytes)) (prefix : bytes) (limit : nat) : ScanPage :=
  collect_page_loop run prefix (limit `max` 1) {| entries := []; resume_after := None |}.

Class KvStore (S : Type) := {
  get : S → bytes → result StorageError (option bytes);
  multi_get : S → list bytes → result StorageError (list (option bytes));
  write_batch : S → list WriteOp → result StorageError unit * S;
  flush : S → result StorageError unit * S;
  flush_if_full : S → result StorageError bool * S;
  sync : S → result StorageError unit * S;
  set_write_ahead_log : S → bool → result StorageError unit * S;
  pending_bytes : S → Z;
  scan : S → bytes → option bytes → nat → result StorageError ScanPage
}.

(** The provided methods. *)
Definition multi_get_default {S} (get : S → bytes → result StorageError (option bytes)) (s : S) (keys : list bytes)
  : result StorageError (list (option bytes)) := collect (get s) keys.

Definition put {S : Type} `{KvStore S} (s : S) (key value : bytes) : result StorageError unit * S :=
  write_batch s [(key, Some value)].

Definition delete {S : Type} `{KvStore S} (s : S) (key : bytes) : result StorageError unit * S :=
  write_batch s [(key, None)].

(** The provided [scan] refuses. *)
Definition scan_default {S} (s : S) (prefix : bytes) (after : option bytes) (limit : nat) : result StorageError ScanPage :=
  Err (Engine "this store cannot scan its keys in order").

(** * The in-memory store *)

Definition MemStore : Type := gmap bytes bytes.

Fixpoint apply_ops (ops : list WriteOp) (m : gmap bytes bytes) : gmap bytes bytes :=
  match ops with
  | [] => m
  | (k, Some v) :: ops => apply_ops ops (<[k := v]> m)
  | (k, None) :: ops => apply_ops ops (base.delete k m)
  end.

Definition mem_get (s : MemStore) (k : bytes) : result StorageError (option bytes) := Ok (s !! k).

Definition mem_write_batch (s : MemStore) (ops : list WriteOp) : result StorageError unit * MemStore :=
  (Ok (), apply_ops ops s).

Definition mem_scan (s : MemStore) (prefix : bytes) (after : option bytes) (limit : nat) : result StorageError ScanPage :=
  Ok (collect_page (btree_range s (scan_start prefix after) Unbounded) prefix limit).

#[export] Instance mem_store : KvStore MemStore := {
  get := mem_get;
  multi_get := multi_get_default mem_get;
  write_batch := mem_write_batch;
  flush s := (Ok (), s);
  flush_if_full s := (Ok false, s);
  sync s := (Ok (), s);
  set_write_ahead_log s _ := (Ok (), s);
  pending_bytes _ := 0;
  scan := mem_scan
}.

(** * The batching store *)

Definition DEFAULT_BATCH_POINTS : Z := 1000.
Definition DEFAULT_BATCH_BYTES : Z := 67108864.
Definition ENTRY_OVERHEAD : Z := 64.

Record BatchStats := {
  st_flushes : Z;
  st_points : Z;
  st_ops : Z;
  st_coalesced : Z;
  st_peak_bytes : Z
}.

Record BatchStore (S : Type) := {
  bs_base : S;
  bs_pending : gmap bytes (option bytes);
  bs_bytes : Z;
  bs_points : Z;
  bs_max_points : Z;
  bs_max_bytes : Z;
  bs_stats : BatchStats
}.
Arguments bs_base {_}. Arguments bs_pending {_}. Arguments bs_bytes {_}. Arguments bs_points {_}.
Arguments bs_max_points {_}. Arguments bs_max_bytes {_}. Arguments bs_stats {_}.
Arguments Build_BatchStore {_}.

Definition olen (v : option bytes) : Z := Z.of_nat (length (default [] v)).

Section batch.
Context {S : Type} `{KvStore S}.

Definition with_limits (base : S) (max_points max_bytes : Z) : BatchStore S :=
  Build_BatchStore base ∅ 0 0 (Z.max max_points 1) max_bytes (Build_BatchStats 0 0 0 0 0).

Definition batch_new (base : S) : BatchStore S := with_limits base DEFAULT_BATCH_POINTS DEFAULT_BATCH_BYTES.

Definition set_base (b : BatchStore S) (base : S) : BatchStore S :=
  Build_BatchStore base (bs_pending b) (bs_bytes b) (bs_points b) (bs_max_points b) (bs_max_bytes b) (bs_stats b).

Definition abandon_pending (b : BatchStore S) : nat * BatchStore S :=
  (size (bs_pending b), Build_BatchStore (bs_base b) ∅ 0 0 (bs_max_points b) (bs_max_bytes b) (bs_stats b)).

Definition count_flush (st : BatchStats) : BatchStats :=
  Build_BatchStats (wrapping_add 64 (st_flushes st) 1) (st_points st) (st_ops st) (st_coalesced st) (st_peak_bytes st).

Definition drain (b : BatchStore S) : result StorageError unit * BatchStore S :=
  let done base stats := Build_BatchStore base ∅ 0 0 (bs_max_points b) (bs_max_bytes b) stats in
  if bool_decide (bs_pending b = ∅) then (Ok (), done (bs_base b) (bs_stats b))
  else
    match write_batch (bs_base b) (btree_entries (bs_pending b)) with
    | (Ok _, base) => (Ok (), done base (count_flush (bs_stats b)))
    | (Err e, base) =>
        (Err e, Build_BatchStore base ∅ (bs_bytes b) (bs_points b) (bs_max_points b) (bs_max_bytes b) (bs_stats b))
    end.

Definition batch_get (b : BatchStore S) (key : bytes) : result StorageError (option bytes) :=
  match bs_pending b !! key with
  | Some pending => Ok pending
  | None => get (bs_base b) key
  end.

(** The first pass of [multi_get]: the answers so far, the slots left and their keys. *)
Fixpoint multi_get_overlay (pending : gmap bytes (option bytes)) (i : nat) (keys : list bytes)
  : list (option bytes) * list nat * list bytes :=
  match keys with
  | [] => ([], [], [])
  | key :: keys =>
      let '(out, slots, misses) := multi_get_overlay pending (i + 1) keys in
      match pending !! key with
      | Some v => (v :: out, slots, misses)
      | None => (None :: out, i :: slots, key :: misses)
      end
  end.

(** [out[slot] = value] for each slot and value; the slots are indexes of [out]. *)
Fixpoint fill_slots (out : list (option bytes)) (fills : list (nat * option bytes)) : list (option bytes) :=
  match fills with
  | [] => out
  | (slot, value) :: fills => fill_slots (<[slot := value]> out) fills
  end.

Definition batch_multi_get (b : BatchStore S) (keys : list bytes) : result StorageError (list (option bytes)) :=
  let '(out, slots, misses) := multi_get_overlay (bs_pending b) 0 keys in
  if bool_decide (misses = []) then Ok out
  else values ← multi_get (bs_base b) misses; Ok (fill_slots out (zip slots values)).

(** One entry of [write_batch]. *)
Definition write_op (b : BatchStore S) (op : WriteOp) : BatchStore S :=
  let '(key, value) := op in
  let st := bs_stats b in
  let '(bytes, coalesced) :=
    match bs_pending b !! key with
    | Some previous => (saturating_sub (bs_bytes b + olen value) (olen previous), wrapping_add 64 (st_coalesced st) 1)
    | None => (bs_bytes b + (Z.of_nat (length key) + olen value + ENTRY_OVERHEAD), st_coalesced st)
    end in
  Build_BatchStore (bs_base b) (<[key := value]> (bs_pending b)) bytes (bs_points b) (bs_max_points b) (bs_max_bytes b)
    (Build_BatchStats (st_flushes st) (st_points st) (wrapping_add 64 (st_ops st) 1) coalesced (st_peak_bytes st)).

Definition batch_write_batch (b : BatchStore S) (ops : list WriteOp) : result StorageError unit * BatchStore S :=
  let b := foldl write_op b ops in
  let st := bs_stats b in
  (Ok (), Build_BatchStore (bs_base b) (bs_pending b) (bs_bytes b) (bs_points b) (bs_max_points b) (bs_max_bytes b)
            (Build_BatchStats (st_flushes st) (st_points st) (st_ops st) (st_coalesced st)
               (Z.max (st_peak_bytes st) (bs_bytes b)))).

Definition batch_flush (b : BatchStore S) : result StorageError unit * BatchStore S :=
  match drain b with
  | (Ok _, b) => let '(r, base) := flush (bs_base b) in (r, set_base b base)
  | (Err e, b) => (Err e, b)
  end.

Definition count_point (b : BatchStore S) : BatchStore S :=
  let st := bs_stats b in
  Build_BatchStore (bs_base b) (bs_pending b) (bs_bytes b) (wrapping_add 32 (bs_points b) 1) (bs_max_points b)
    (bs_max_bytes b)
    (Build_BatchStats (st_flushes st) (wrapping_add 64 (st_points st) 1) (st_ops st) (st_coalesced st) (st_peak_bytes st)).

Definition batch_flush_if_full (b : BatchStore S) : result StorageError bool * BatchStore S :=
  let b := count_point b in
  if (bs_max_points b <=? bs_points b) || (bs_max_bytes b <=? bs_bytes b) then
    match batch_flush b with
    | (Ok _, b) => (Ok true, b)
    | (Err e, b) => (Err e, b)
    end
  else (Ok false, b).

Definition batch_sync (b : BatchStore S) : result StorageError unit * BatchStore S :=
  match batch_flush b with
  | (Ok _, b) => let '(r, base) := sync (bs_base b) in (r, set_base b base)
  | (Err e, b) => (Err e, b)
  end.

Definition batch_set_write_ahead_log (b : BatchStore S) (on : bool) : result StorageError unit * BatchStore S :=
  let '(r, base) := set_write_ahead_log (bs_base b) on in (r, set_base b base).

(** [impl Drop]: drains what is pending; the error can only be printed. *)
Definition batch_drop (b : BatchStore S) : BatchStore S :=
  if bool_decide (bs_pending b = ∅) then b else (drain b).2.

Definition inverted (start stop : Bound) : bool :=
  match start, stop with
  | (Included s | Excluded s), Included e => bool_decide (bytes_lt e s)
  | _, _ => false
  end.

(** The loop over the overlay's range: a pending value wins, a pending delete removes. *)
Fixpoint merge_overlay (run : list (bytes * option bytes)) (prefix : bytes) (merged : gmap bytes bytes) : gmap bytes bytes :=
  match run with
  | [] => merged
  | (key, pending) :: run =>
      if starts_with key prefix then
        merge_overlay run prefix
          match pending with Some v => <[key := v]> merged | None => base.delete key merged end
      else merged
  end.

Definition batch_scan (b : BatchStore S) (prefix : bytes) (after : option bytes) (limit : nat) : result StorageError ScanPage :=
  let limit := (limit `max` 1)%nat in
  base ← scan (bs_base b) prefix after limit;
  let start := scan_start prefix after in
  let stop := match resume_after base with Some k => Included k | None => Unbounded end in
  let merged : gmap bytes bytes := list_to_map (reverse (entries base)) in
  let merged := if inverted start stop then merged
                else merge_overlay (btree_range (bs_pending b) start stop) prefix merged in
  let es := btree_entries merged in
  if bool_decide (limit < length es)%nat then
    Ok {| entries := take limit es; resume_after := fst <$> last (take limit es) |}
  else Ok {| entries := es; resume_after := resume_after base |}.

#[export] Instance batch_store : KvStore (BatchStore S) := {
  get := batch_get;
  multi_get := batch_multi_get;
  write_batch := batch_write_batch;
  flush := batch_flush;
  flush_if_full := batch_flush_if_full;
  sync := batch_sync;
  set_write_ahead_log := batch_set_write_ahead_log;
  pending_bytes := bs_bytes;
  scan := batch_scan
}.
End batch.

(** * What a store promises *)

(** The keys a scan of [prefix] after [after] is about. *)
Definition in_scan (prefix : bytes) (after : option bytes) (k : bytes) : Prop :=
  prefix `prefix_of` k ∧ match after with Some a => bytes_lt a k | None => True end.

#[export] Instance in_scan_dec prefix after k : Decision (in_scan prefix after k).
Proof. unfold in_scan. destruct after; apply _. Defined.

Definition up_to (resume : option bytes) (k : bytes) : Prop :=
  match resume with Some r => bytes_le k r | None => True end.

(** A page holds, in key order and at most [limit] of them, exactly the entries
    of the scan up to the key it resumes from, and that key moves the scan on. *)
Record page_ok (m : gmap bytes bytes) (prefix : bytes) (after : option bytes) (limit : nat) (page : ScanPage) : Prop := {
  page_sorted : StronglySorted bytes_lt (entries page).*1;
  page_exact k v : (k, v) ∈ entries page ↔ m !! k = Some v ∧ in_scan prefix after k ∧ up_to (resume_after page) k;
  page_resume r : resume_after page = Some r → in_scan prefix after r;
  page_length : (length (entries page) ≤ limit `max` 1)%nat
}.

(** [contents] is the map a client sees; [scan_keys] holds the keys a scan can
    resume from, which bounds the number of pages. A batch is atomic: one that
    fails changes nothing. *)
Class KvStoreLaws (S : Type) `{KvStore S} := {
  contents : S → gmap bytes bytes;
  get_law s k v : get s k = Ok v → v = contents s !! k;
  multi_get_law s ks vs : multi_get s ks = Ok vs → vs = (λ k, contents s !! k) <$> ks;
  write_batch_Ok s ops u s' : write_batch s ops = (Ok u, s') → contents s' = apply_ops ops (contents s);
  write_batch_Err s ops e s' : write_batch s ops = (Err e, s') → contents s' = contents s;
  flush_law s u s' : flush s = (Ok u, s') → contents s' = contents s;
  flush_if_full_law s r s' : flush_if_full s = (Ok r, s') → contents s' = contents s;
  sync_law s u s' : sync s = (Ok u, s') → contents s' = contents s;
  wal_law s on r s' : set_write_ahead_log s on = (r, s') → contents s' = contents s;
  scan_law s p a n page : scan s p a n = Ok page → page_ok (contents s) p a n page;
  scan_keys : S → gset bytes;
  scan_resume s p a n page r : scan s p a n = Ok page → resume_after page = Some r → r ∈ scan_keys s
}.

(** ** Ordered maps *)

Lemma btree_entries_perm {V} (m : gmap bytes V) : btree_entries m ≡ₚ map_to_list m.
Proof. apply merge_sort_Permutation. Qed.

Lemma elem_of_btree_entries {V} (m : gmap bytes V) k v : (k, v) ∈ btree_entries m ↔ m !! k = Some v.
Proof. rewrite btree_entries_perm. apply elem_of_map_to_list. Qed.

Lemma NoDup_btree_entries {V} (m : gmap bytes V) : NoDup (btree_entries m).*1.
Proof. rewrite btree_entries_perm. apply NoDup_fst_map_to_list. Qed.

Lemma StronglySorted_keys {V} (l : list (bytes * V)) :
  StronglySorted entry_le l → NoDup l.*1 → StronglySorted bytes_lt l.*1.
Proof.
  induction 1 as [|e l Hl IH He]; cbn; [constructor|]. intros [Hn Hd]%NoDup_cons. constructor; [by apply IH|].
  apply Forall_forall. intros k Hk. apply list_elem_of_fmap in Hk as Hk'. destruct Hk' as (x & -> & Hx).
  rewrite Forall_forall in He. specialize (He x Hx). apply bytes_le_cases in He as [?|Heq]; [done|].
  destruct Hn. by rewrite Heq.
Qed.

Lemma btree_entries_sorted {V} (m : gmap bytes V) : StronglySorted bytes_lt (btree_entries m).*1.
Proof.
  apply StronglySorted_keys; [|apply NoDup_btree_entries]. apply (StronglySorted_merge_sort _).
Qed.

Lemma StronglySorted_filter_keys {V} (P : bytes * V → Prop) `{!∀ x, Decision (P x)} (l : list (bytes * V)) :
  StronglySorted bytes_lt l.*1 → StronglySorted bytes_lt (filter P l).*1.
Proof.
  induction l as [|e l IH]; [done|]. rewrite fmap_cons. intros [Hl He]%StronglySorted_inv. rewrite filter_cons.
  case_decide; [|by apply IH]. rewrite fmap_cons. constructor; [by apply IH|]. apply Forall_forall. intros k (x & -> & [_ Hx]%list_elem_of_filter)%list_elem_of_fmap.
  rewrite Forall_forall in He. apply He. by apply list_elem_of_fmap_2.
Qed.

Lemma StronglySorted_take {A} (R : A → A → Prop) n (l : list A) : StronglySorted R l → StronglySorted R (take n l).
Proof.
  intros H. revert n. induction H as [|x l Hl IH Hx]; intros [|n]; cbn; constructor; [done|]. by apply Forall_take.
Qed.

(** ** Prefixes *)

Lemma prefix_le p k : p `prefix_of` k → bytes_le p k.
Proof.
  intros [x ->]. unfold bytes_le. induction p as [|a p IH]; cbn; [destruct x; cbn; tauto|]. intros [?|[_ ?]]; [lia|tauto].
Qed.

(** The keys of a prefix are contiguous. *)
Lemma prefix_convex p a k : p `prefix_of` a → bytes_le p k → ¬ p `prefix_of` k → bytes_lt a k.
Proof.
  intros [x ->]. unfold bytes_le. revert k. induction p as [|b p IH]; intros k Hle Hn; [by destruct Hn; apply prefix_nil|].
  destruct k as [|c k]; cbn in *; [tauto|]. destruct (Z.lt_trichotomy c b) as [?|[->|?]]; [tauto| |by left].
  right. split; [done|]. apply IH; [tauto|]. intros ?. apply Hn. by apply prefix_cons.
Qed.

Lemma above_scan_start p a k : p `prefix_of` k → above (scan_start p a) k = true ↔ in_scan p a k.
Proof.
  intros Hp. unfold in_scan, scan_start. destruct a as [a|].
  - case_bool_decide as Ha; cbn; rewrite bool_decide_eq_true; [tauto|].
    split; [intros _; split; [done|]|by intros; apply prefix_le]. unfold bytes_le in Ha. apply dec_stable in Ha.
    pose proof (prefix_le _ _ Hp) as Hk. apply bytes_le_cases in Hk as [?| <-]; [|done]. by apply (bytes_lt_trans a p k).
  - cbn. rewrite bool_decide_eq_true. pose proof (prefix_le _ _ Hp). tauto.
Qed.

(** A scan's run never goes below its prefix. *)
Lemma scan_start_le p a k : above (scan_start p a) k = true → bytes_le p k.
Proof.
  unfold scan_start. destruct a as [a|]; [case_bool_decide|]; cbn; rewrite bool_decide_eq_true; try done.
  intros Hl. transitivity a; [done|]. apply bytes_le_cases. by left.
Qed.

(** ** Pages *)

Lemma sorted_take_le {V} (l : list (bytes * V)) n e x :
  StronglySorted bytes_lt l.*1 → last (take n l) = Some e → x ∈ take n l ↔ x ∈ l ∧ bytes_le x.1 e.1.
Proof.
  intros Hs [l1 Hl]%last_Some. pose proof (take_drop n l) as Hd. rewrite Hl in Hd. rewrite Hl, <- Hd.
  rewrite <- Hd in Hs. rewrite fmap_app in Hs. apply StronglySorted_app in Hs as (Hlt & Hs1 & _).
  rewrite fmap_app in Hs1. apply StronglySorted_app in Hs1 as (Hlt1 & _ & _).
  rewrite (elem_of_app (l1 ++ [e])). split.
  - intros Hx. split; [by left|]. apply elem_of_app in Hx as [Hx|Hx%list_elem_of_singleton].
    + apply bytes_le_cases. left. apply Hlt1; [by apply list_elem_of_fmap_2|cbn; by apply list_elem_of_singleton].
    + subst. apply bytes_lt_irrefl.
  - intros [[?|Hx] Hle]; [done|]. destruct Hle. apply Hlt; [|by apply list_elem_of_fmap_2].
    rewrite fmap_app. apply elem_of_app. right. by apply list_elem_of_singleton.
Qed.

(** Cutting a page and resuming from the cut leaves a page. *)
Lemma page_cut m p a n n' l r :
  page_ok m p a n {| entries := l; resume_after := r |} → (1 ≤ n' ≤ length l)%nat →
  page_ok m p a n' {| entries := take n' l; resume_after := fst <$> last (take n' l) |}.
Proof.
  intros [Hs He Hr _] Hn. cbn in *. destruct (last (take n' l)) as [[ek ev]|] eqn:Hlast; cycle 1.
  { apply last_None in Hlast. apply (f_equal length) in Hlast. rewrite length_take in Hlast. cbn in Hlast. lia. }
  pose proof (sorted_take_le l n' (ek, ev) (ek, ev) Hs Hlast) as Hmem.
  assert ((ek, ev) ∈ l) as (Hm & Hin & Hup)%He. { apply Hmem. by apply last_Some_elem_of. }
  split; cbn.
  - rewrite fmap_take. by apply StronglySorted_take.
  - intros k v. rewrite (sorted_take_le l n' (ek, ev)), He by done. cbn. split; [tauto|].
    intros (? & ? & Hk). split_and!; try done. unfold up_to in *. destruct r; [|done]. by transitivity ek.
  - by intros r' [= <-].
  - rewrite length_take. lia.
Qed.

Lemma starts_with_true k p : starts_with k p = true ↔ p `prefix_of` k.
Proof. apply bool_decide_eq_true. Qed.

Lemma starts_with_false k p : starts_with k p = false ↔ ¬ p `prefix_of` k.
Proof. apply bool_decide_eq_false. Qed.

(** Past the first key without the prefix there is no key with it. *)
Lemma no_prefix_after {V} p k (l : list (bytes * V)) :
  Forall (bytes_lt k) l.*1 → bytes_le p k → ¬ p `prefix_of` k → ∀ x, x ∈ l → ¬ p `prefix_of` x.1.
Proof.
  intros Hl Hk Hn x Hx Hp. rewrite Forall_forall in Hl. specialize (Hl x.1 (list_elem_of_fmap_2 _ _ _ Hx)).
  pose proof (prefix_convex p x.1 k Hp Hk Hn). by apply (bytes_lt_irrefl k), (bytes_lt_trans k x.1 k).
Qed.

Lemma filter_none {A} (P : A → Prop) `{!∀ x, Decision (P x)} (l : list A) : (∀ x, x ∈ l → ¬ P x) → filter P l = [].
Proof.
  induction l as [|x l IH]; intros Hl; [done|]. rewrite filter_cons, decide_False by (apply Hl; constructor).
  apply IH. intros y Hy. apply Hl. by constructor.
Qed.

Lemma collect_page_loop_filter run p limit acc :
  StronglySorted bytes_lt run.*1 → Forall (bytes_le p) run.*1 → (length acc < limit)%nat →
  collect_page_loop run p limit {| entries := acc; resume_after := None |} =
  let l := acc ++ filter (λ x, p `prefix_of` x.1) run in
  if bool_decide (limit ≤ length l)%nat then {| entries := take limit l; resume_after := fst <$> last (take limit l) |}
  else {| entries := l; resume_after := None |}.
Proof.
  revert acc. induction run as [|e run IH]; intros acc Hs Hp Hlen; cbn zeta.
  { cbn [collect_page_loop filter list_filter]. rewrite app_nil_r, bool_decide_eq_false_2 by lia. done. }
  rewrite fmap_cons in Hs, Hp. apply StronglySorted_inv in Hs as [Hs He]. apply Forall_cons in Hp as [Hpe Hp].
  cbn [collect_page_loop]. rewrite filter_cons. unfold starts_with. case_bool_decide as Hpre.
  - rewrite decide_True by done. cbn [entries resume_after].
    replace (acc ++ e :: filter (λ x, p `prefix_of` x.1) run) with ((acc ++ [e]) ++ filter (λ x, p `prefix_of` x.1) run)
      by by rewrite <- app_assoc.
    case_bool_decide as Hl.
    + rewrite bool_decide_eq_true_2 by (rewrite length_app; lia). by rewrite take_app_length' by done.
    + rewrite length_app in Hl. cbn in Hl. by rewrite IH by (rewrite ?length_app; cbn; auto; lia).
  - rewrite decide_False by done.
    assert (filter (λ x, p `prefix_of` x.1) run = []) as ->.
    { apply filter_none. by apply (no_prefix_after p e.1). }
    rewrite app_nil_r, bool_decide_eq_false_2 by lia. done.
Qed.

(** A page collected from a run that holds the scan's entries. *)
Lemma collect_page_ok m p a run n :
  StronglySorted bytes_lt run.*1 → Forall (bytes_le p) run.*1 →
  (∀ k v, p `prefix_of` k → (k, v) ∈ run ↔ m !! k = Some v ∧ in_scan p a k) →
  page_ok m p a n (collect_page run p n).
Proof.
  intros Hs Hp Hrun. unfold collect_page. rewrite collect_page_loop_filter by (cbn; auto; lia). cbn zeta. cbn [app].
  set (l := filter _ run).
  assert (∀ lim, (length l ≤ lim `max` 1)%nat → page_ok m p a lim {| entries := l; resume_after := None |}) as Hl.
  { intros lim Hlim. split; cbn; [by apply StronglySorted_filter_keys| |done|done].
    intros k v. unfold l. rewrite list_elem_of_filter. cbn. split.
    - intros [Hk Hr]. by apply Hrun in Hr as [? ?].
    - intros (? & [? ?] & _). split; [done|]. by apply Hrun. }
  case_bool_decide as Hn.
  - pose proof (page_cut m p a (length l) (n `max` 1) l None (Hl (length l) ltac:(lia)) ltac:(lia)) as [? ? ? Hle]. split; try done. cbn in *. lia.
  - apply Hl. lia.
Qed.

(** A page resumes from a key of the run. *)
Lemma collect_page_loop_resume run p limit acc r :
  resume_after (collect_page_loop run p limit {| entries := acc; resume_after := None |}) = Some r →
  ∃ v, (r, v) ∈ acc ++ run.
Proof.
  revert acc. induction run as [|[k v] run IH]; intros acc; [done|]. cbn [collect_page_loop fst].
  destruct (starts_with k p); [|done]. cbn [entries]. case_bool_decide.
  - cbn [resume_after]. rewrite last_snoc. intros [= <-]. exists v. apply elem_of_app. right. constructor.
  - intros (v' & Hv)%IH. exists v'. by rewrite <- app_assoc in Hv.
Qed.

Lemma collect_page_resume run p n r : resume_after (collect_page run p n) = Some r → ∃ v, (r, v) ∈ run.
Proof. apply (collect_page_loop_resume run p _ []). Qed.

(** ** The in-memory store has the laws *)

Lemma mem_scan_ok m p a n page : mem_scan m p a n = Ok page → page_ok m p a n page.
Proof.
  intros [= <-]. apply collect_page_ok; unfold btree_range.
  - apply StronglySorted_filter_keys, btree_entries_sorted.
  - apply Forall_forall. intros k (x & -> & [[Ha _] _]%list_elem_of_filter)%list_elem_of_fmap. by apply scan_start_le in Ha.
  - intros k v Hp. rewrite list_elem_of_filter, elem_of_btree_entries. cbn. rewrite (above_scan_start p a k Hp). tauto.
Qed.

#[export] Instance mem_store_laws : KvStoreLaws MemStore.
Proof.
  refine {| contents := λ s : MemStore, s; scan_keys := λ s : MemStore, dom s |}; cbn; try by intros; simplify_eq.
  - by intros s k v [= <-].
  - intros s ks vs Hv%collect_Ok. induction Hv as [|k v ks vs [= <-] _ IH]; [done|]. cbn. by rewrite IH.
  - by intros s ops u s' [= <-].
  - apply mem_scan_ok.
  - intros s p a n page r Hs Hr. destruct (collect_page_resume _ _ _ _ ltac:(by injection Hs as <-)) as (v & Hv).
    unfold btree_range in Hv. apply list_elem_of_filter in Hv as [_ Hv%elem_of_btree_entries]. by apply elem_of_dom_2 in Hv.
Defined.

(** ** The batching store has the laws *)

(** What a client sees through an overlay. *)
Definition overlay (pending : gmap bytes (option bytes)) (m : gmap bytes bytes) : gmap bytes bytes :=
  apply_ops (btree_entries pending) m.

Lemma apply_ops_app a b m : apply_ops (a ++ b) m = apply_ops b (apply_ops a m).
Proof. revert m. induction a as [|[k [v|]] a IH]; intros m; cbn; auto. Qed.

Lemma apply_ops_not_in l m k : k ∉ l.*1 → apply_ops l m !! k = m !! k.
Proof.
  revert m. induction l as [|[k' o] l IH]; intros m; cbn; [done|]. intros [Hk Hl]%not_elem_of_cons.
  destruct o; rewrite IH by done; [by rewrite lookup_insert_ne|by rewrite lookup_delete_ne].
Qed.

Lemma apply_ops_in l m k o : NoDup l.*1 → (k, o) ∈ l → apply_ops l m !! k = o.
Proof.
  revert m. induction l as [|[k' o'] l IH]; intros m; cbn; [by intros _ ?%not_elem_of_nil|].
  intros [Hn Hd]%NoDup_cons [[= -> ->]|Hl]%elem_of_cons.
  - destruct o'; rewrite apply_ops_not_in by done; [by rewrite lookup_insert_eq|by rewrite lookup_delete_eq].
  - destruct o'; by apply IH.
Qed.

(** A key whose writes all carry one value has that value. *)
Lemma apply_ops_det l m k o : k ∈ l.*1 → (∀ o', (k, o') ∈ l → o' = o) → apply_ops l m !! k = o.
Proof.
  revert m. induction l as [|[k' o'] l IH]; intros m; [by intros ?%not_elem_of_nil|]. intros Hk Ho. rewrite fmap_cons in Hk.
  destruct (decide (k ∈ l.*1)) as [Hin|Hn].
  - destruct o'; apply IH; auto; intros; apply Ho; by right.
  - apply elem_of_cons in Hk as [->|?]; [|done]. cbn [fst] in *. rewrite <- (Ho o' ltac:(constructor)).
    destruct o'; cbn [apply_ops]; rewrite apply_ops_not_in by done; [by rewrite lookup_insert_eq|by rewrite lookup_delete_eq].
Qed.

(** Writes that put back what a map holds restore it at every key they name. *)
Lemma apply_ops_restore (l : list WriteOp) (m m' : gmap bytes bytes) k : (∀ k o, (k, o) ∈ l → o = m !! k) → k ∈ l.*1 → apply_ops l m' !! k = m !! k.
Proof. intros Hl Hk. apply apply_ops_det; [done|]. intros o' Ho'. by apply Hl. Qed.

(** Only the writes that share a property of the key matter to it. *)
Lemma apply_ops_filter (P : bytes → Prop) `{!∀ k, Decision (P k)} l m k :
  P k → apply_ops l m !! k = apply_ops (filter (λ op, P op.1) l) m !! k.
Proof.
  intros Hk. assert (∀ m m', m !! k = m' !! k →
    apply_ops l m !! k = apply_ops (filter (λ op, P op.1) l) m' !! k) as Hl; [|by apply Hl].
  induction l as [|[k' o'] l IH]; intros m1 m2 Hm; [done|]. rewrite filter_cons. cbn [fst].
  case_decide as Hp; destruct o'; cbn [apply_ops]; apply IH; destruct (decide (k' = k)) as [->|?];
    rewrite ?lookup_insert_eq, ?lookup_delete_eq, ?lookup_insert_ne, ?lookup_delete_ne by done; done.
Qed.

Lemma lookup_overlay pending m k :
  overlay pending m !! k = match pending !! k with Some o => o | None => m !! k end.
Proof.
  unfold overlay. destruct (pending !! k) as [o|] eqn:Hk.
  - apply apply_ops_in; [apply NoDup_btree_entries|]. by apply elem_of_btree_entries.
  - apply apply_ops_not_in. intros ([k' o] & -> & Hx%elem_of_btree_entries)%list_elem_of_fmap. cbn in Hk. congruence.
Qed.

Lemma overlay_empty m : overlay ∅ m = m.
Proof. apply map_eq. intros k. by rewrite lookup_overlay, lookup_empty. Qed.

Lemma overlay_insert pending m k o : overlay (<[k := o]> pending) m = apply_ops [(k, o)] (overlay pending m).
Proof.
  apply map_eq. intros k'. rewrite lookup_overlay. destruct (decide (k = k')) as [<-|Hk].
  - rewrite lookup_insert_eq. symmetry. apply apply_ops_in; [cbn; apply NoDup_singleton|by apply list_elem_of_singleton].
  - rewrite lookup_insert_ne by done. rewrite apply_ops_not_in by (cbn; intros ?%list_elem_of_singleton; done).
    by rewrite lookup_overlay.
Qed.

Lemma fill_slots_overlay pending f keys i out slots misses pre :
  multi_get_overlay pending i keys = (out, slots, misses) → length pre = i →
  fill_slots (pre ++ out) (zip slots (f <$> misses)) =
  pre ++ ((λ k, match pending !! k with Some o => o | None => f k end) <$> keys).
Proof.
  revert i out slots misses pre. induction keys as [|key keys IH]; intros i out slots misses pre; cbn [multi_get_overlay].
  { by intros [= <- <- <-] _. }
  destruct (multi_get_overlay pending (i + 1) keys) as [[out' slots'] misses'] eqn:Hrec. rewrite fmap_cons.
  destruct (pending !! key) as [v|] eqn:Hkey; intros [= <- <- <-] Hpre.
  - rewrite (cons_middle v pre out'), app_assoc, (IH _ _ _ _ (pre ++ [v]) Hrec) by (rewrite length_app; cbn; lia).
    by rewrite <- app_assoc.
  - rewrite fmap_cons. cbn [zip_with fill_slots]. rewrite <- Hpre at 1. rewrite insert_app_r_alt by lia. rewrite Nat.sub_diag.
    cbn [insert list_insert]. rewrite (cons_middle (f key) pre out'), app_assoc, (IH _ _ _ _ (pre ++ [f key]) Hrec) by (rewrite length_app; cbn; lia).
    by rewrite <- app_assoc.
Qed.

Lemma merge_overlay_filter run p M :
  StronglySorted bytes_lt run.*1 → Forall (bytes_le p) run.*1 →
  merge_overlay run p M = apply_ops (filter (λ x, p `prefix_of` x.1) run) M.
Proof.
  revert M. induction run as [|[k o] run IH]; intros M Hs Hp; [done|].
  rewrite fmap_cons in Hs, Hp. apply StronglySorted_inv in Hs as [Hs He]. apply Forall_cons in Hp as [Hpe Hp].
  cbn [merge_overlay]. rewrite filter_cons. unfold starts_with. case_bool_decide as Hpre.
  - rewrite decide_True by done. destruct o; cbn [apply_ops]; by apply IH.
  - rewrite decide_False by done. by rewrite filter_none by by apply (no_prefix_after p k).
Qed.

Lemma NoDup_sorted_keys (l : list bytes) : StronglySorted bytes_lt l → NoDup l.
Proof.
  induction 1 as [|k l Hl IH Hk]; constructor; [|done]. intros Hin. rewrite Forall_forall in Hk.
  by apply (bytes_lt_irrefl k), Hk.
Qed.

Lemma lookup_collected (l : list (bytes * bytes)) k v :
  StronglySorted bytes_lt l.*1 → (list_to_map (reverse l) : gmap bytes bytes) !! k = Some v ↔ (k, v) ∈ l.
Proof.
  intros Hs. rewrite <- elem_of_list_to_map.
  - by rewrite elem_of_reverse.
  - rewrite reverse_Permutation. by apply NoDup_sorted_keys.
Qed.

(** The overlay's run over a scan's range, as a merge. *)
Lemma lookup_merge_range pending p a stop M k :
  merge_overlay (btree_range pending (scan_start p a) stop) p M !! k =
  match pending !! k with
  | Some o => if bool_decide (in_scan p a k ∧ below stop k = true) then o else M !! k
  | None => M !! k
  end.
Proof.
  assert (StronglySorted bytes_lt (btree_range pending (scan_start p a) stop).*1) as Hs.
  { apply StronglySorted_filter_keys, btree_entries_sorted. }
  rewrite merge_overlay_filter; [|done|]; cycle 1.
  { apply Forall_forall. intros k' (x & -> & [[Ha _] _]%list_elem_of_filter)%list_elem_of_fmap. by apply scan_start_le in Ha. }
  set (l := filter _ _).
  assert (∀ k o, (k, o) ∈ l ↔ pending !! k = Some o ∧ in_scan p a k ∧ below stop k = true) as Hl.
  { intros k' o. unfold l, btree_range. rewrite !list_elem_of_filter, elem_of_btree_entries. cbn. split.
    - intros (Hp & [Ha Hb] & Hk). apply (above_scan_start p a k' Hp) in Ha. done.
    - intros (Hk & Ha & Hb). pose proof (proj1 Ha) as Hp. apply (above_scan_start p a k' Hp) in Ha. done. }
  destruct (pending !! k) as [o|] eqn:Hk; [case_bool_decide as Hin|].
  - apply apply_ops_in; [by apply NoDup_sorted_keys, StronglySorted_filter_keys|]. by apply Hl.
  - apply apply_ops_not_in. intros ([k' o'] & -> & Hx%Hl)%list_elem_of_fmap. by destruct Hx.
  - apply apply_ops_not_in. intros ([k' o'] & -> & Hx%Hl)%list_elem_of_fmap. cbn in Hk. by destruct Hx as [? _]; simplify_eq.
Qed.

Section batch_laws.
Context {S : Type} `{KvStoreLaws S}.
Implicit Types b : BatchStore S.

Definition batch_contents b : gmap bytes bytes := overlay (bs_pending b) (contents (bs_base b)).

Lemma drain_Ok b u b' : drain b = (Ok u, b') →
  bs_pending b' = ∅ ∧ contents (bs_base b') = batch_contents b ∧ bs_bytes b' = 0 ∧ bs_points b' = 0.
Proof.
  unfold drain, batch_contents. case_bool_decide as He; [intros [= <- <-]; cbn; by rewrite He, overlay_empty|].
  destruct (write_batch _ _) as [[?|?] base] eqn:Hw; intros [= <- <-]. cbn. by rewrite (write_batch_Ok _ _ _ _ Hw).
Qed.

Lemma drain_Err b e b' : drain b = (Err e, b') → bs_pending b' = ∅ ∧ contents (bs_base b') = contents (bs_base b).
Proof.
  unfold drain. case_bool_decide; [done|]. destruct (write_batch _ _) as [[?|?] base] eqn:Hw; intros [= <- <-]. cbn.
  by rewrite (write_batch_Err _ _ _ _ Hw).
Qed.

Lemma batch_flush_Ok b u b' : batch_flush b = (Ok u, b') →
  bs_pending b' = ∅ ∧ contents (bs_base b') = batch_contents b ∧ bs_bytes b' = 0 ∧ bs_points b' = 0.
Proof.
  unfold batch_flush. destruct (drain b) as [[?|?] b1] eqn:Hd; [|done]. apply drain_Ok in Hd as (? & Hc & ? & ?).
  destruct (flush (bs_base b1)) as [r base] eqn:Hf. intros [= -> <-]. cbn. by rewrite (flush_law _ _ _ Hf).
Qed.

Lemma flushed_contents b b' :
  bs_pending b' = ∅ → contents (bs_base b') = batch_contents b → batch_contents b' = batch_contents b.
Proof. intros Hp Hc. unfold batch_contents at 1. by rewrite Hp, overlay_empty. Qed.

Lemma write_op_contents b op : batch_contents (write_op b op) = apply_ops [op] (batch_contents b) ∧ bs_base (write_op b op) = bs_base b.
Proof.
  destruct op as [k o]. unfold write_op, batch_contents. destruct (bs_pending b !! k); cbn [bs_base bs_pending]; by rewrite overlay_insert.
Qed.

Lemma write_ops_contents ops b :
  batch_contents (foldl write_op b ops) = apply_ops ops (batch_contents b) ∧ bs_base (foldl write_op b ops) = bs_base b.
Proof.
  revert b. induction ops as [|op ops IH]; intros b; [done|]. cbn [foldl]. destruct (IH (write_op b op)) as [-> ->].
  destruct (write_op_contents b op) as [-> ->]. by rewrite <- apply_ops_app.
Qed.

Lemma batch_write_contents b ops r b' : batch_write_batch b ops = (r, b') →
  r = Ok () ∧ batch_contents b' = apply_ops ops (batch_contents b) ∧ bs_base b' = bs_base b.
Proof. intros [= <- <-]. split; [done|]. apply write_ops_contents. Qed.

Lemma batch_flush_if_full_Ok b r b' : batch_flush_if_full b = (Ok r, b') →
  batch_contents b' = batch_contents b ∧
  (if r then contents (bs_base b') = batch_contents b else bs_base b' = bs_base b).
Proof.
  unfold batch_flush_if_full. destruct (_ || _).
  - destruct (batch_flush (count_point b)) as [[?|?] b1] eqn:Hf; intros [= <- <-].
    apply batch_flush_Ok in Hf as (Hp & Hc & _). split; [|done]. by rewrite (flushed_contents _ _ Hp Hc).
  - by intros [= <- <-].
Qed.

Lemma batch_sync_Ok b u b' : batch_sync b = (Ok u, b') →
  batch_contents b' = batch_contents b ∧ contents (bs_base b') = batch_contents b.
Proof.
  unfold batch_sync. destruct (batch_flush b) as [[?|?] b1] eqn:Hf; [|done]. apply batch_flush_Ok in Hf as (Hp & Hc & _).
  destruct (sync (bs_base b1)) as [r base] eqn:Hs. intros [= -> <-]. apply sync_law in Hs. unfold batch_contents at 1. cbn.
  by rewrite Hs, Hp, overlay_empty.
Qed.

Lemma batch_get_ok b k v : batch_get b k = Ok v → v = batch_contents b !! k.
Proof.
  unfold batch_get, batch_contents. rewrite lookup_overlay. destruct (_ !! _); [by intros [= <-]|apply get_law].
Qed.

Lemma batch_multi_get_ok b ks vs : batch_multi_get b ks = Ok vs → vs = (λ k, batch_contents b !! k) <$> ks.
Proof.
  unfold batch_multi_get. destruct (multi_get_overlay (bs_pending b) 0 ks) as [[out slots] misses] eqn:Ho.
  pose proof (fill_slots_overlay _ (λ k, contents (bs_base b) !! k) _ _ _ _ _ [] Ho eq_refl) as Hfill. cbn [app] in Hfill.
  intros Hvs. transitivity (fill_slots out (zip slots ((λ k, contents (bs_base b) !! k) <$> misses))).
  - case_bool_decide as Hm; [subst misses; injection Hvs as <-; by destruct slots|].
    by apply result_bind_Ok in Hvs as (vals & ->%multi_get_law & [= <-]).
  - rewrite Hfill. apply list_fmap_ext. intros i k _. unfold batch_contents. by rewrite lookup_overlay.
Qed.

Lemma batch_scan_ok b p a n page : batch_scan b p a n = Ok page → page_ok (batch_contents b) p a n page.
Proof.
  unfold batch_scan. intros (base & Hb%scan_law & Hpage)%result_bind_Ok. revert Hpage. destruct Hb as [Hs He Hr _].
  set (stop := match resume_after base with Some k => Included k | None => Unbounded end).
  assert (∀ k, below stop k = true ↔ up_to (resume_after base) k) as Hstop.
  { intros k. unfold stop. destruct (resume_after base); cbn; [apply bool_decide_eq_true|done]. }
  assert (inverted (scan_start p a) stop = false) as ->.
  { unfold stop. destruct (resume_after base) as [r|] eqn:Hres; [|by destruct (scan_start p a)].
    pose proof (proj2 (above_scan_start p a r (proj1 (Hr r eq_refl))) (Hr r eq_refl)) as Ha. revert Ha.
    destruct (scan_start p a) as [s|s|]; cbn; [| |done]; rewrite bool_decide_eq_true, bool_decide_eq_false; [done|].
    intros Hl Hl'. by apply (bytes_lt_irrefl s), (bytes_lt_trans s r s). }
  cbv zeta. set (M := list_to_map _ : gmap bytes bytes). set (merged := merge_overlay _ p M). clearbody stop.
  assert (page_ok (batch_contents b) p a (length (btree_entries merged)) {| entries := btree_entries merged; resume_after := resume_after base |}) as Hp.
  { split; cbn; [apply btree_entries_sorted| |done|lia]. intros k v. rewrite elem_of_btree_entries. unfold merged.
    rewrite lookup_merge_range. unfold batch_contents. rewrite lookup_overlay.
    assert (∀ v, M !! k = Some v ↔ _) as HM by (intros v'; unfold M; rewrite lookup_collected, He by done; reflexivity).
    destruct (bs_pending b !! k) as [o|] eqn:Hk; [case_bool_decide as Hin|].
    - rewrite Hstop in Hin. tauto.
    - rewrite Hstop in Hin. rewrite HM. tauto.
    - apply HM. }
  clearbody merged. case_bool_decide as Hn; intros [= <-].
  - pose proof (page_cut _ _ _ _ (n `max` 1) _ _ Hp ltac:(lia)) as [? ? ? Hlen]. split; try done. cbn in *. lia.
  - destruct Hp as [? ? ? _]. split; try done. cbn. lia.
Qed.

Lemma batch_scan_resume b p a n page r : batch_scan b p a n = Ok page → resume_after page = Some r →
  r ∈ scan_keys (bs_base b) ∨ ∃ v, (r, v) ∈ entries page.
Proof.
  unfold batch_scan. intros (base & Hb & Hpage)%result_bind_Ok Hr. revert Hpage. cbv zeta. set (es := btree_entries _). clearbody es.
  case_bool_decide as Hn; intros [= <-]; cbn in Hr; [|left; by apply (scan_resume _ _ _ _ _ _ Hb)].
  right. cbn. destruct (last (take (n `max` 1) es)) as [[k v]|] eqn:Hl; [|done]. injection Hr as <-.
  exists v. by apply last_Some_elem_of.
Qed.

#[export] Instance batch_store_laws : KvStoreLaws (BatchStore S).
Proof.
  refine {| contents := batch_contents;
            scan_keys := λ b, scan_keys (bs_base b) ∪ dom (batch_contents b) |}; cbn.
  - apply batch_get_ok.
  - apply batch_multi_get_ok.
  - intros b ops u b' Hw. by apply batch_write_contents in Hw as (_ & ? & _).
  - intros b ops e b' Hw. by apply batch_write_contents in Hw as [? _].
  - intros b u b' (? & ? & _)%batch_flush_Ok. by apply flushed_contents.
  - by intros b r b' [? _]%batch_flush_if_full_Ok.
  - by intros b u b' [? _]%batch_sync_Ok.
  - intros b on r b'. unfold batch_set_write_ahead_log. destruct (set_write_ahead_log _ _) as [? base] eqn:Hw. intros [= <- <-].
    apply wal_law in Hw. unfold batch_contents. cbn. by rewrite Hw.
  - apply batch_scan_ok.
  - intros b p a n page r Hs Hr. apply elem_of_union. destruct (batch_scan_resume _ _ _ _ _ _ Hs Hr) as [?|(v & Hv)]; [by left|].
    right. apply elem_of_dom. exists v. by apply (page_exact _ _ _ _ _ (batch_scan_ok _ _ _ _ _ Hs)) in Hv as [? _].
Defined.
End batch_laws.

(** ** Stores that do not fail *)

(** What the theorems about the chain's records assume of the store: no engine fault.
    The in-memory store has it, and the batching store over any store that has it. *)
Class ReliableStore (S : Type) `{KvStoreLaws S} : Prop := {
  get_reliable s k : get s k = Ok (contents s !! k);
  multi_get_reliable s ks : multi_get s ks = Ok ((λ k, contents s !! k) <$> ks);
  write_reliable s ops : ∃ s', write_batch s ops = (Ok (), s')
}.

Lemma write_reliable_contents {S : Type} `{ReliableStore S} s ops :
  ∃ s', write_batch s ops = (Ok (), s') ∧ contents s' = apply_ops ops (contents s).
Proof.
  destruct (write_reliable s ops) as [s' Hs]. exists s'. split; [done|]. by apply (write_batch_Ok s ops ()).
Qed.

#[export] Instance mem_store_reliable : ReliableStore MemStore.
Proof.
  split; cbn; [done| |by eexists]. intros s ks. apply collect_Ok, Forall2_fmap_r, Forall2_same_length_lookup_2; [done|].
  intros i k k' Hk Hk'. by simplify_eq.
Qed.

#[export] Instance batch_store_reliable {S : Type} `{ReliableStore S} : ReliableStore (BatchStore S).
Proof.
  split; cbn; [| |by eexists].
  - intros b k. unfold batch_get, batch_contents. rewrite lookup_overlay. destruct (bs_pending b !! k); [done|apply get_reliable].
  - intros b ks. destruct (batch_multi_get b ks) as [vs|e] eqn:Hv; [by rewrite (batch_multi_get_ok _ _ _ Hv)|].
    unfold batch_multi_get in Hv. destruct (multi_get_overlay _ _ _) as [[out slots] misses]. case_bool_decide; [done|].
    by rewrite multi_get_reliable in Hv.
Qed.

(** * Clients *)

(** [TableStats] of [crates/wrkz-node/src/snapshot.rs], without the table's name. *)
Record TableStats := { ts_records : Z; ts_key_bytes : Z; ts_value_bytes : Z }.

Definition count_entry (st : TableStats) (e : bytes * bytes) : TableStats :=
  {| ts_records := wrapping_add 64 (ts_records st) 1;
     ts_key_bytes := wrapping_add 64 (ts_key_bytes st) (Z.of_nat (length e.1));
     ts_value_bytes := wrapping_add 64 (ts_value_bytes st) (Z.of_nat (length e.2)) |}.

(** The paging loop of [measure_storage] over one table; [None] is out of fuel. *)
Fixpoint measure_loop {S : Type} `{KvStore S} (fuel : nat) (s : S) (prefix : bytes) (limit : nat) (after : option bytes)
  (stats : TableStats) : option (result StorageError TableStats) :=
  match fuel with
  | O => None
  | Datatypes.S fuel =>
      match scan s prefix after limit with
      | Err e => Some (Err e)
      | Ok page =>
          let stats := foldl count_entry stats (entries page) in
          match resume_after page with
          | Some key => measure_loop fuel s prefix limit (Some key) stats
          | None => Some (Ok stats)
          end
      end
  end.

Definition measure_table {S : Type} `{KvStore S} (fuel : nat) (s : S) (prefix : bytes)
  : option (result StorageError TableStats) :=
  measure_loop fuel s prefix (Z.to_nat 65536) None {| ts_records := 0; ts_key_bytes := 0; ts_value_bytes := 0 |}.

(** The commands a client can issue and what it is answered. *)
Inductive Command :=
| CGet (k : bytes)
| CMultiGet (ks : list bytes)
| CWriteBatch (ops : list WriteOp)
| CFlush
| CFlushIfFull
| CSync
| CSetWriteAheadLog (on : bool)
| CScan (prefix : bytes) (after : option bytes) (limit : nat).

Inductive Answer :=
| AUnit
| ABool (b : bool)
| AValue (v : option bytes)
| AValues (vs : list (option bytes))
| APage (page : ScanPage).

Definition exec {S : Type} `{KvStore S} (s : S) (c : Command) : result StorageError Answer * S :=
  let unit_of (p : result StorageError unit * S) := ((λ _, AUnit) <$> p.1, p.2) in
  match c with
  | CGet k => (AValue <$> get s k, s)
  | CMultiGet ks => (AValues <$> multi_get s ks, s)
  | CWriteBatch ops => unit_of (write_batch s ops)
  | CFlush => unit_of (flush s)
  | CFlushIfFull => (ABool <$> (flush_if_full s).1, (flush_if_full s).2)
  | CSync => unit_of (sync s)
  | CSetWriteAheadLog on => unit_of (set_write_ahead_log s on)
  | CScan p a n => (APage <$> scan s p a n, s)
  end.

(** Runs in which every command succeeds. *)
Inductive runs {S : Type} `{KvStore S} : S → list (Command * Answer) → S → Prop :=
| runs_nil s : runs s [] s
| runs_cons s c a s' tr s'' : exec s c = (Ok a, s') → runs s' tr s'' → runs s ((c, a) :: tr) s''.

(** The specification of a buffered store: what a client sees, and what is
    left if the process dies. *)
Record Buffered := { visible : gmap bytes bytes; durable : gmap bytes bytes }.

Definition commit (d : Buffered) : Buffered := {| visible := visible d; durable := visible d |}.

Definition effect (d : Buffered) (ca : Command * Answer) : Buffered :=
  match ca with
  | (CWriteBatch ops, _) => {| visible := apply_ops ops (visible d); durable := durable d |}
  | ((CFlush | CSync), _) => commit d
  | (CFlushIfFull, ABool true) => commit d
  | _ => d
  end.

Definition allowed (m : gmap bytes bytes) (c : Command) (a : Answer) : Prop :=
  match c, a with
  | CGet k, AValue v => v = m !! k
  | CMultiGet ks, AValues vs => vs = (λ k, m !! k) <$> ks
  | CScan p a n, APage page => page_ok m p a n page
  | (CWriteBatch _ | CFlush | CSync | CSetWriteAheadLog _), AUnit => True
  | CFlushIfFull, ABool _ => True
  | _, _ => False
  end.

Inductive spec_runs : Buffered → list (Command * Answer) → Buffered → Prop :=
| spec_nil d : spec_runs d [] d
| spec_cons d c a tr d' : allowed (visible d) c a → spec_runs (effect d (c, a)) tr d' → spec_runs d ((c, a) :: tr) d'.

(** The footprint charged for an overlay. *)
Definition entry_size (k : bytes) (o : option bytes) : Z := Z.of_nat (length k) + olen o + ENTRY_OVERHEAD.
Definition pending_size (p : gmap bytes (option bytes)) : Z := map_fold (λ k o n, entry_size k o + n) 0 p.

Section batch_theorems.
Context {S : Type} `{KvStoreLaws S}.
Implicit Types b : BatchStore S.

Definition abstraction b : Buffered := {| visible := batch_contents b; durable := contents (bs_base b) |}.

Lemma exec_simulates b c a b' : exec b c = (Ok a, b') →
  allowed (visible (abstraction b)) c a ∧ effect (abstraction b) (c, a) = abstraction b'.
Proof.
  unfold abstraction, exec, effect, commit. destruct c as [k|ks|ops| | | |on|p af n];
    cbn -[contents batch_contents batch_get batch_multi_get batch_write_batch batch_flush batch_flush_if_full batch_sync batch_scan].
  - destruct (batch_get b k) eqn:Hg; intros [= <- <-]. split; [by apply batch_get_ok|done].
  - destruct (batch_multi_get b ks) eqn:Hg; intros [= <- <-]. split; [by apply batch_multi_get_ok|done].
  - destruct (batch_write_batch b ops) as [r b1] eqn:Hw. apply batch_write_contents in Hw as (-> & Hc & Hb). intros [= <- <-].
    split; [done|]. cbn [visible durable]. by rewrite Hc, Hb.
  - destruct (batch_flush b) as [[u|] b1] eqn:Hf; intros [= <- <-]. apply batch_flush_Ok in Hf as (Hp & Hc & _).
    split; [done|]. cbn [visible durable]. by rewrite (flushed_contents _ _ Hp Hc), Hc.
  - destruct (batch_flush_if_full b) as [[[]|] b1] eqn:Hf; intros [= <- <-];
      apply batch_flush_if_full_Ok in Hf as [Hv Hb]; (split; [done|]); cbn [visible durable]; by rewrite Hv, Hb.
  - destruct (batch_sync b) as [[u|] b1] eqn:Hf; intros [= <- <-]. apply batch_sync_Ok in Hf as [Hv Hb].
    split; [done|]. cbn [visible durable]. by rewrite Hv, Hb.
  - unfold batch_set_write_ahead_log. destruct (set_write_ahead_log (bs_base b) on) as [[u|] base] eqn:Hw; intros [= <- <-].
    apply wal_law in Hw. split; [done|]. unfold batch_contents. cbn [bs_base bs_pending set_base snd]. by rewrite Hw.
  - destruct (batch_scan b p af n) eqn:Hg; intros [= <- <-]. split; [by apply batch_scan_ok|done].
Qed.

(** C24. The batching overlay implements the buffered store: in every run whose
    commands succeed, each read is answered from the latest writes, whether they
    are still pending or not (single reads, batched reads and scan pages alike), and
    what the base store holds is exactly the state at the last commit: a crash
    leaves a flush boundary, never a point inside a batch. *)
Theorem batch_store_refines b tr b' : runs b tr b' → spec_runs (abstraction b) tr (abstraction b').
Proof.
  induction 1 as [|b c a b1 tr b2 Hx _ IH]; [constructor|]. apply exec_simulates in Hx as [Ha He].
  constructor; [done|]. by rewrite He.
Qed.

(** A base store that refuses the batch costs the pending writes and
    nothing else: the store then shows what the last successful flush left. *)
Theorem failed_drain_keeps_base b e b' : drain b = (Err e, b') →
  contents (bs_base b') = contents (bs_base b) ∧ batch_contents b' = contents (bs_base b) ∧ bs_pending b' = ∅.
Proof.
  intros [Hp Hc]%drain_Err. split_and!; [done| |done]. unfold batch_contents. by rewrite Hp, overlay_empty.
Qed.

(** ** Byte accounting *)

Lemma pending_size_insert p k o : p !! k = None → pending_size (<[k := o]> p) = entry_size k o + pending_size p.
Proof. intros Hk. unfold pending_size. rewrite map_fold_insert_L; [done|intros; lia|done]. Qed.

Lemma pending_size_nonneg p : 0 ≤ pending_size p.
Proof.
  induction p as [|k o p Hk IH] using map_ind; [by unfold pending_size; rewrite map_fold_empty|].
  rewrite pending_size_insert by done. unfold entry_size, olen, ENTRY_OVERHEAD. lia.
Qed.

Lemma pending_size_update p k o o' : p !! k = Some o' →
  pending_size (<[k := o]> p) = pending_size p + olen o - olen o' ∧ olen o' ≤ pending_size p.
Proof.
  intros Hk. rewrite <- (insert_delete_id p k o') at 2 3 by done. rewrite <- (insert_delete_eq p k o).
  rewrite !pending_size_insert by apply lookup_delete_eq. pose proof (pending_size_nonneg (base.delete k p)).
  unfold entry_size, ENTRY_OVERHEAD. lia.
Qed.

Definition bytes_exact b : Prop := bs_bytes b = pending_size (bs_pending b).

Lemma write_op_exact b op : bytes_exact b → bytes_exact (write_op b op).
Proof.
  destruct op as [k o]. unfold bytes_exact, write_op. intros Hb. destruct (bs_pending b !! k) as [o'|] eqn:Hk; cbn.
  - destruct (pending_size_update _ _ o _ Hk) as [-> Hle]. unfold saturating_sub. rewrite Hb. unfold olen in *. lia.
  - rewrite pending_size_insert, Hb by done. unfold entry_size. lia.
Qed.

Lemma write_ops_exact ops b : bytes_exact b → bytes_exact (foldl write_op b ops).
Proof. revert b. induction ops as [|op ops IH]; intros b Hb; [done|]. by apply IH, write_op_exact. Qed.

Lemma flushed_exact b : bs_pending b = ∅ → bs_bytes b = 0 → bytes_exact b.
Proof. unfold bytes_exact. by intros -> ->. Qed.

Lemma flush_if_full_exact b r b' : bytes_exact b → batch_flush_if_full b = (Ok r, b') → bytes_exact b'.
Proof.
  intros Hb. unfold batch_flush_if_full. destruct (_ || _); [|by intros [= <- <-]].
  destruct (batch_flush (count_point b)) as [[?|?] b1] eqn:Hf; intros [= <- <-].
  apply batch_flush_Ok in Hf as (? & _ & ? & _). by apply flushed_exact.
Qed.

Lemma sync_exact b u b' : batch_sync b = (Ok u, b') → bytes_exact b'.
Proof.
  unfold batch_sync. destruct (batch_flush b) as [[?|?] b1] eqn:Hf; [|done]. apply batch_flush_Ok in Hf as (? & _ & ? & _).
  destruct (sync (bs_base b1)) as [r base]. intros [= -> <-]. by apply flushed_exact.
Qed.

(** A successful command keeps the count exact. *)
Lemma exec_exact b c a b' : bytes_exact b → exec b c = (Ok a, b') → bytes_exact b'.
Proof.
  intros Hb. unfold exec. destruct c as [k|ks|ops| | | |on|p af n];
    cbn -[batch_get batch_multi_get batch_write_batch batch_flush batch_flush_if_full batch_sync batch_scan].
  1,2,8: by intros [= _ <-].
  - intros [= _ <-]. apply (write_ops_exact ops b Hb).
  - destruct (batch_flush b) as [[?|?] b1] eqn:Hf; intros [= <- <-]. apply batch_flush_Ok in Hf as (? & _ & ? & _). by apply flushed_exact.
  - destruct (batch_flush_if_full b) as [[?|?] b1] eqn:Hf; intros [= <- <-]. by apply flush_if_full_exact in Hf.
  - destruct (batch_sync b) as [[?|?] b1] eqn:Hf; intros [= <- <-]. by apply sync_exact in Hf.
  - unfold batch_set_write_ahead_log. destruct (set_write_ahead_log (bs_base b) on). by intros [= _ <-].
Qed.

(** The overlay's byte count is an invariant of the store: in every run from
    a fresh store whose commands succeed, it is exactly the keys, the values and the
    overhead of the entries pending, so the subtraction that saturates never does. *)
Theorem batch_bytes_exact base max_points max_bytes tr b :
  runs (with_limits base max_points max_bytes) tr b → pending_bytes b = pending_size (bs_pending b).
Proof.
  assert (bytes_exact (with_limits base max_points max_bytes)) as Hb by by apply flushed_exact.
  revert Hb. generalize (with_limits base max_points max_bytes). intros b0 Hb Hr.
  change (bytes_exact b). induction Hr as [|b1 c a b2 tr b3 Hx _ IH]; [done|]. by apply IH, (exec_exact b1 c a).
Qed.
End batch_theorems.

(** ** Paging through a table *)

Lemma sorted_keys_unique (l l' : list (bytes * bytes)) :
  StronglySorted bytes_lt l.*1 → StronglySorted bytes_lt l'.*1 → (∀ x, x ∈ l ↔ x ∈ l') → l = l'.
Proof.
  revert l'. induction l as [|x l IH]; intros [|y l'] Hs Hs' Hl; [done| | |].
  1: by destruct (not_elem_of_nil y); apply Hl; constructor.
  1: by destruct (not_elem_of_nil x); apply Hl; constructor.
  rewrite fmap_cons in Hs, Hs'. apply StronglySorted_inv in Hs as [Hs Hx]. apply StronglySorted_inv in Hs' as [Hs' Hy].
  rewrite Forall_forall in Hx, Hy.
  assert (∀ z, z ∈ l → bytes_lt x.1 z.1) as Hx' by (intros; by apply Hx, list_elem_of_fmap_2).
  assert (∀ z, z ∈ l' → bytes_lt y.1 z.1) as Hy' by (intros; by apply Hy, list_elem_of_fmap_2).
  assert (x = y) as <-.
  { assert (x ∈ y :: l') as [?|Hxl]%elem_of_cons by (apply Hl; constructor); [done|].
    assert (y ∈ x :: l) as [?|Hyl]%elem_of_cons by (apply Hl; constructor); [done|].
    destruct (bytes_lt_irrefl x.1). apply (bytes_lt_trans _ y.1); auto. }
  f_equal. apply IH; [done..|]. intros z. specialize (Hl z). rewrite !elem_of_cons in Hl. split; intros Hz.
  - destruct (proj1 Hl (or_intror Hz)) as [->|?]; [|done]. by destruct (bytes_lt_irrefl x.1); apply Hx'.
  - destruct (proj2 Hl (or_intror Hz)) as [->|?]; [|done]. by destruct (bytes_lt_irrefl x.1); apply Hy'.
Qed.

Definition scan_rest (m : gmap bytes bytes) (prefix : bytes) (after : option bytes) : list (bytes * bytes) :=
  filter (λ e, in_scan prefix after e.1) (btree_entries m).

Lemma elem_of_scan_rest m p a k v : (k, v) ∈ scan_rest m p a ↔ m !! k = Some v ∧ in_scan p a k.
Proof. unfold scan_rest. rewrite list_elem_of_filter, elem_of_btree_entries. cbn. tauto. Qed.

Lemma scan_rest_sorted m p a : StronglySorted bytes_lt (scan_rest m p a).*1.
Proof. apply StronglySorted_filter_keys, btree_entries_sorted. Qed.

Lemma in_scan_resume p a r k : in_scan p a r → in_scan p (Some r) k ↔ in_scan p a k ∧ ¬ bytes_le k r.
Proof.
  intros [_ Hr]. unfold in_scan, bytes_le. split.
  - intros [Hp Hk]. split_and!; [done| |tauto]. destruct a as [a|]; [|done]. by apply (bytes_lt_trans a r k).
  - intros [[Hp _] Hk]. split; [done|]. by apply dec_stable in Hk.
Qed.

(** A page and the scan resumed from it make up the scan. *)
Lemma page_split m p a n page :
  page_ok m p a n page →
  scan_rest m p a = entries page ++ match resume_after page with Some r => scan_rest m p (Some r) | None => [] end.
Proof.
  intros [Hs He Hr _]. destruct (resume_after page) as [r|]; [specialize (Hr r eq_refl)|].
  - apply sorted_keys_unique; [apply scan_rest_sorted| |].
    + rewrite fmap_app. apply StronglySorted_app. split_and!; [|done|apply scan_rest_sorted].
      intros k1 k2 ([? v1] & -> & (_ & _ & Hle)%He)%list_elem_of_fmap ([? v2] & -> & [_ [_ Hlt]]%elem_of_scan_rest)%list_elem_of_fmap.
      cbn in *. apply bytes_le_cases in Hle as [?| ->]; [by apply (bytes_lt_trans _ r)|done].
    + intros [k v]. rewrite elem_of_app, He, !elem_of_scan_rest, (in_scan_resume p a r k Hr). cbn. destruct (decide (bytes_le k r)); tauto.
  - rewrite app_nil_r. apply sorted_keys_unique; [apply scan_rest_sorted|done|].
    intros [k v]. rewrite He, elem_of_scan_rest. cbn. tauto.
Qed.

Section paging.
Context {S : Type} `{KvStoreLaws S}.
Variable s : S.
Variable prefix : bytes.
Variable limit : nat.

(** The keys the scan can still resume from. *)
Definition resumable (after : option bytes) : gset bytes := filter (in_scan prefix after) (scan_keys s).

Lemma resumable_decreases a n page r : scan s prefix a n = Ok page → resume_after page = Some r →
  (size (resumable (Some r)) < size (resumable a))%nat.
Proof.
  intros Hs Hr. pose proof (page_resume _ _ _ _ _ (scan_law _ _ _ _ _ Hs) r Hr) as Hin.
  apply subset_size. split.
  - intros k [Hk ?]%elem_of_filter. apply elem_of_filter. split; [|done]. by apply (in_scan_resume _ a r) in Hk as [? _].
  - intros Hsub. assert (r ∈ resumable a) as Hra.
    { apply elem_of_filter. split; [done|]. by apply (scan_resume _ _ _ _ _ _ Hs). }
    apply Hsub, elem_of_filter in Hra as [[_ Hlt] _]. by apply bytes_lt_irrefl in Hlt.
Qed.

Lemma measure_loop_exact fuel a stats :
  (∀ a, ∃ page, scan s prefix a limit = Ok page) → (size (resumable a) < fuel)%nat →
  measure_loop fuel s prefix limit a stats = Some (Ok (foldl count_entry stats (scan_rest (contents s) prefix a))).
Proof.
  intros Hok. revert a stats. induction fuel as [|fuel IH]; intros a stats Hf; [lia|]. cbn [measure_loop].
  destruct (Hok a) as [page Hp]. rewrite Hp. cbv beta iota zeta.
  rewrite (page_split _ _ _ _ _ (scan_law _ _ _ _ _ Hp)), foldl_app.
  destruct (resume_after page) as [r|] eqn:Hr; [|done]. apply IH.
  pose proof (resumable_decreases _ _ _ _ Hp Hr). lia.
Qed.
End paging.

(** Measuring a table terminates and counts every record once: with fuel for
    the keys the store can page from, the loop ends with the totals of exactly the
    entries that carry the table's prefix, whatever page boundaries, pending writes
    and pending deletes the store has. *)
Theorem measure_table_exact {S : Type} `{KvStoreLaws S} (s : S) prefix fuel :
  (∀ a, ∃ page, scan s prefix a (Z.to_nat 65536) = Ok page) → (size (scan_keys s) < fuel)%nat →
  measure_table fuel s prefix =
  Some (Ok (foldl count_entry {| ts_records := 0; ts_key_bytes := 0; ts_value_bytes := 0 |}
              (filter (λ e, prefix `prefix_of` e.1) (btree_entries (contents s))))).
Proof.
  intros Hok Hf. unfold measure_table. rewrite (measure_loop_exact s prefix (Z.to_nat 65536)); [|done|].
  - do 3 f_equal. unfold scan_rest. apply list_filter_iff. intros e. unfold in_scan. tauto.
  - eapply Nat.le_lt_trans; [|exact Hf]. apply subseteq_size. intros k [_ ?]%elem_of_filter. done.
Qed.

(** * Witnesses *)

Module StoreWitness.

(** A store whose engine refuses every write. *)
Record Refusing := { ref_map : gmap bytes bytes }.

#[export] Instance refusing_store : KvStore Refusing := {
  get s k := Ok (ref_map s !! k);
  multi_get := multi_get_default (λ s k, Ok (ref_map s !! k));
  write_batch s _ := (Err (Engine "read-only"), s);
  flush s := (Ok (), s);
  flush_if_full s := (Ok false, s);
  sync s := (Ok (), s);
  set_write_ahead_log s _ := (Ok (), s);
  pending_bytes _ := 0;
  scan := scan_default
}.

#[export] Instance refusing_laws : KvStoreLaws Refusing.
Proof.
  refine {| contents := ref_map; scan_keys := λ _, ∅ |}; cbn; try by intros; simplify_eq.
  intros s ks vs Hv%collect_Ok. induction Hv as [|k v ks vs [= <-] _ IH]; [done|]. cbn. by rewrite IH.
Defined.

Definition start : BatchStore MemStore := with_limits ({[ [7; 1] := [9] ]} : MemStore) 2 1000.

Definition after_command (b : BatchStore MemStore) (c : Command) : BatchStore MemStore := (exec b c).2.

Definition commands : list Command :=
  [CWriteBatch [([7; 2], Some [5; 5]); ([7; 1], None)]; CWriteBatch [([7; 2], Some [6])]; CGet [7; 1]; CMultiGet [[7; 2]; [8]];
   CFlushIfFull; CScan [7] None 4; CFlushIfFull; CWriteBatch [([8], Some [1])]].

Definition answers : list Answer :=
  [AUnit; AUnit; AValue None; AValues [Some [6]; None]; ABool false; APage {| entries := [([7; 2], [6])]; resume_after := None |};
   ABool true; AUnit].

Definition final : BatchStore MemStore := foldl after_command start commands.

Lemma runs_answers b cs ans : (λ n, (exec (foldl after_command b (take n cs)) (default CFlush (cs !! n))).1) <$> seq 0 (length cs) = Ok <$> ans →
  runs b (zip cs ans) (foldl after_command b cs).
Proof.
  revert b ans. induction cs as [|c cs IH]; intros b ans; [intros _; constructor|]. destruct ans as [|a ans]; [done|].
  cbn [length seq fmap list_fmap]. intros [= Ha Hr]. cbn [zip_with foldl]. apply (runs_cons _ _ _ (after_command b c)).
  - cbn in Ha. unfold after_command. destruct (exec b c). cbn in *. by subst.
  - apply IH. rewrite <- Hr, <- fmap_S_seq, <- list_fmap_compose. done.
Qed.

Lemma start_runs : runs start (zip commands answers) final.
Proof. apply runs_answers. vm_compute. reflexivity. Qed.
End StoreWitness.
Import StoreWitness.

Lemma batch_store_refines_witness :
  spec_runs (abstraction start) (zip commands answers) (abstraction final) ∧
  durable (abstraction final) = {[ [7; 2] := [6] ]} ∧ visible (abstraction final) = {[ [7; 2] := [6]; [8] := [1] ]}.
Proof.
  split_and!; [apply batch_store_refines, start_runs|vm_compute; reflexivity|vm_compute; reflexivity].
Defined.

Lemma failed_drain_keeps_base_witness :
  let b := (batch_write_batch (batch_new {| ref_map := {[ [1] := [2] ]} |}) [([1], None)]).2 in
  batch_contents (drain b).2 = {[ [1] := [2] ]}.
Proof.
  intros b. assert (drain b = (Err (Engine "read-only"), (drain b).2)) as Hd by (vm_compute; reflexivity).
  destruct (failed_drain_keeps_base _ _ _ Hd) as (_ & Hc & _). rewrite Hc. vm_compute. reflexivity.
Defined.

Lemma batch_bytes_exact_witness : pending_bytes final = pending_size (bs_pending final) ∧ pending_bytes final = 66.
Proof. split; [exact (batch_bytes_exact _ _ _ _ _ start_runs)|vm_compute; reflexivity]. Defined.

Lemma measure_table_exact_witness :
  measure_table 4 ({[ [7; 1] := [9]; [7; 2] := []; [8] := [1] ]} : MemStore) [7] =
  Some (Ok {| ts_records := 2; ts_key_bytes := 4; ts_value_bytes := 1 |}).
Proof.
  rewrite (measure_table_exact ({[ [7; 1] := [9]; [7; 2] := []; [8] := [1] ]} : MemStore) [7] 4).
  - vm_compute. reflexivity.
  - intros a. eexists. reflexivity.
  - vm_compute. lia.
Defined.
