(* ===== verification/Validate.v ===== *)
(** Transaction validation (crates/wrkz-chain/src/validate.rs) and the block's
    transaction loop (step 8 of [add_block], crates/wrkz-chain/src/state.rs).

    The two validators share one monad: a computation reads and changes the key
    images claimed so far and the batch of postponed checks. [Some] batch is the
    deferred validator, [None] the inline one, as in the argument
    [deferred: Option<&mut BlockRingBatch>]. *)
From stdpp Require Import gmap sets.
From S2P Require Import Prelude Constants Hashing Cryptonight Tx Fees Reward Checkpoints Parallel Records.
Local Open Scope Z_scope.

(** * Rules and errors *)

Inductive TxRule : Type :=
| SizeTooLarge (size : nat) (limit : Z)
| EmptyInputs
| InputUnknownType
| InputIdenticalKeyImages
| InputEmptyOutputUsage
| InputInvalidDomainKeyImages
| InputIdenticalOutputIndexes
| InputKeyImageAlreadySpent (key_image : Hash)
| InputsAmountOverflow
| OutputZeroAmount
| OutputAmountTooLarge (amount : Z)
| OutputInvalidKey
| OutputsAmountOverflow
| WrongAmount
| WrongFee (fee minimum : Z)
| ExtraTooLarge (size : nat)
| UnlockTimeTooSmall (unlock_time minimum : Z)
| ExcessiveOutputs (count : nat)
| InvalidMixin (e : MixinError)
| PowInvalid (difficulty : Z)
| InputInvalidGlobalIndex (amount global_index : Z)
| InputSpendLockedOut (amount global_index unlock_time : Z)
| InputInvalidSignaturesCount (expected got : nat)
| InputInvalidSignatures (input : nat)
| ZeroInputSum.

(** A fault is a [ChainError] of the store, kept abstract. *)
Inductive TxError (F : Type) : Type :=
| Rule (r : TxRule)
| Chain (e : F).
Arguments Rule {F} r.
Arguments Chain {F} e.

Definition TxError_rule {F} (e : TxError F) : option TxRule :=
  match e with Rule r => Some r | Chain _ => None end.

(** * The chain a validator reads *)

(** The trait [ChainAccess]. One validation reads one state of the chain: the answers
    are functions of the arguments. *)
Class ChainAccess (F : Type) := {
  key_image_spent : Hash → Z → result F bool;
  key_output : Z → Z → result F (option OutputRecord);
  key_outputs : Z → list Z → result F (list (option OutputRecord));
  top_block_timestamp : Z;
  now : Z
}.

(** The default method. *)
Definition key_outputs_default {F} (key_output : Z → Z → result F (option OutputRecord))
  (amount : Z) (global_indexes : list Z) : result F (list (option OutputRecord)) :=
  collect (key_output amount) global_indexes.

Definition is_spend_time_unlocked `{ChainAccess F} (unlock_time block_index : Z) : bool :=
  if unlock_time <? CRYPTONOTE_MAX_BLOCK_NUMBER then
    unlock_time <=? wrapping_add 64 block_index CRYPTONOTE_LOCKED_TX_ALLOWED_DELTA_BLOCKS
  else if TRANSACTION_INPUT_BLOCKTIME_VALIDATION_HEIGHT <=? block_index then
    unlock_time <=? wrapping_add 64 top_block_timestamp CRYPTONOTE_LOCKED_TX_ALLOWED_DELTA_SECONDS
  else unlock_time <=? wrapping_add 64 now CRYPTONOTE_LOCKED_TX_ALLOWED_DELTA_SECONDS.

Record TxContext := mkTxContext {
  block_height : Z; block_median_size : Z; block_timestamp : Z;
  is_pool_transaction : bool; checkpoints : Checkpoints }.

Record TxValidation := mkTxValidation { v_fee : Z; v_is_fusion : bool }.

(** * Postponed checks *)

Record GatheredRing := mkGatheredRing {
  g_tx_index : nat; g_input_index : nat; g_prefix_hash : Hash; g_image : Hash;
  g_ring : list bytes; g_signatures : list bytes }.

Inductive PureCheck : Type :=
| KeyImageDomain (tx_index input_index : nat) (image : Hash)
| OutputKey (tx_index output_index : nat) (key : Hash)
| TxPow (tx_index : nat) (prefix : bytes) (difficulty : Z)
| Ring (r : GatheredRing).

Module PureCheck.

Definition weight (c : PureCheck) : nat :=
  match c with
  | KeyImageDomain _ _ _ => 10
  | OutputKey _ _ _ => 1
  | TxPow _ _ _ => 57
  | Ring r => 20 * Nat.max (length (g_ring r)) 1
  end.

Definition verify `{C : Crypto} (c : PureCheck) : bool :=
  match c with
  | KeyImageDomain _ _ image => key_image_in_prime_subgroup image
  | OutputKey _ _ key => check_key key
  | TxPow _ prefix difficulty => check_hash (cn_upx_hash prefix) difficulty
  | Ring r => check_ring_signature (g_prefix_hash r) (g_image r) (g_ring r) (g_signatures r)
  end.

Definition position (c : PureCheck) : nat * nat * nat :=
  match c with
  | KeyImageDomain tx_index input_index _ => (tx_index, 0, input_index)%nat
  | OutputKey tx_index output_index _ => (tx_index, 1, output_index)%nat
  | TxPow tx_index _ _ => (tx_index, 2, 0)%nat
  | Ring r => (g_tx_index r, 3, g_input_index r)%nat
  end.

Definition failure (c : PureCheck) : nat * TxRule :=
  match c with
  | KeyImageDomain tx_index _ _ => (tx_index, InputInvalidDomainKeyImages)
  | OutputKey tx_index _ _ => (tx_index, OutputInvalidKey)
  | TxPow tx_index _ difficulty => (tx_index, PowInvalid difficulty)
  | Ring r => (g_tx_index r, InputInvalidSignatures (g_input_index r))
  end.

End PureCheck.

Definition WORK_PER_WORKER : nat := 60.
Definition PARALLEL_WORK_THRESHOLD : nat := 2 * WORK_PER_WORKER.
Definition RING_BATCH_MEMBER_LIMIT : nat := 2 ^ 20.

(** The answer of check [i]; the workers only ask below the length. *)
Definition verify_at `{C : Crypto} (checks : list PureCheck) (i : nat) : bool :=
  match checks !! i with Some c => PureCheck.verify c | None => true end.

(** [first_invalid_check(checks, threads)] may return [r]. *)
Definition first_invalid_check `{C : Crypto} (checks : list PureCheck) (threads : nat) (r : option nat) : Prop :=
  let n := length checks in
  let work := sum_list (map PureCheck.weight checks) in
  let workers := Nat.min (Nat.min threads (work / WORK_PER_WORKER)) (n / 2) in
  if (n <? PARALLEL_THRESHOLD)%nat || (workers <? 2)%nat || (work <? PARALLEL_WORK_THRESHOLD)%nat
  then r = first_failing (verify_at checks) n
  else runs_to (verify_at checks) n (Nat.max ((n + workers * 4 - 1) / (workers * 4)) 1) workers r.

(** A scheduler picks, for each batch it is given, one of the possible answers. *)
Class Scheduler `{C : Crypto} := {
  settle : list PureCheck → nat → option nat;
  settle_runs checks threads : first_invalid_check checks threads (settle checks threads)
}.

Record BlockRingBatch := mkBatch { checks : list PureCheck; members : nat }.

Module BlockRingBatch.

Definition new : BlockRingBatch := mkBatch [] 0.

Definition len (b : BlockRingBatch) : nat := length (checks b).

Definition is_empty (b : BlockRingBatch) : bool := (len b =? 0)%nat.

Definition count (p : PureCheck → bool) (b : BlockRingBatch) : nat := length (filter (λ c, p c = true) (checks b)).

Definition key_image_checks : BlockRingBatch → nat := count (λ c, match c with KeyImageDomain _ _ _ => true | _ => false end).
Definition output_key_checks : BlockRingBatch → nat := count (λ c, match c with OutputKey _ _ _ => true | _ => false end).
Definition tx_pow_checks : BlockRingBatch → nat := count (λ c, match c with TxPow _ _ _ => true | _ => false end).
Definition ring_checks : BlockRingBatch → nat := count (λ c, match c with Ring _ => true | _ => false end).

(** The [debug_assert!] is not part of a release build; see [deferred_visit_order]. *)
Definition push (b : BlockRingBatch) (c : PureCheck) : BlockRingBatch :=
  mkBatch (checks b ++ [c]) (members b + match c with Ring r => length (g_ring r) | _ => 1 end).

Definition clear (b : BlockRingBatch) : BlockRingBatch := mkBatch [] 0.

Definition first_invalid `{Scheduler} (b : BlockRingBatch) (threads : nat) : option (nat * TxRule) :=
  at_ ← settle (checks b) threads; PureCheck.failure <$> checks b !! at_.

End BlockRingBatch.

(** * The validators' effects *)

Record World := mkWorld { spent_key_images : gset Hash; batch : option BlockRingBatch }.

Definition TxM (E A : Type) : Type := World → result E A * World.

#[export] Instance TxM_ret {E} : MRet (TxM E) := λ A a w, (Ok a, w).
#[export] Instance TxM_bind {E} : MBind (TxM E) := λ A B f m w,
  match m w with (Ok a, w) => f a w | (Err e, w) => (Err e, w) end.

Definition throw {E A} (e : E) : TxM E A := λ w, (Err e, w).
Definition ensure {E} (ok : bool) (e : E) : TxM E unit := if ok then mret () else throw e.
Definition lift {E A} (r : result E A) : TxM E A := λ w, (r, w).

(** [?] on a [RuleResult], and on a result of the chain, inside a [TxResult]. *)
Definition rule {F A} (m : TxM TxRule A) : TxM (TxError F) A := λ w, let '(r, w) := m w in (map_err Rule r, w).
Definition fault {F A} (r : result F A) : TxM (TxError F) A := lift (map_err Chain r).

(** [batch.push(c)] *)
Definition push {E} (c : PureCheck) : TxM E unit :=
  λ w, (Ok (), mkWorld (spent_key_images w) ((λ b, BlockRingBatch.push b c) <$> batch w)).

(** [match deferred { Some(batch) => batch.push(c), None if !ok => return Err(r), None => {} }] *)
Definition defer (c : PureCheck) (ok : bool) (r : TxRule) : TxM TxRule unit :=
  λ w, match batch w with Some _ => push c w | None => ensure ok r w end.

(** [state.spent_key_images.insert(i)] *)
Definition insert_key_image {E} (i : Hash) : TxM E bool :=
  λ w, (Ok (bool_decide (i ∉ spent_key_images w)), mkWorld ({[i]} ∪ spent_key_images w) (batch w)).

(** * The checks *)

Section Checks.
Context `{C : Crypto}.

Fixpoint inputs_loop (tx_index input_index : nat) (in_this_tx : gset Hash) (sum : Z) (ins : list Input) : TxM TxRule Z :=
  match ins with
  | [] => mret sum
  | Base _ :: _ => throw InputUnknownType
  | Key amount key_offsets key_image :: ins =>
      ensure (bool_decide (key_image ∉ in_this_tx)) InputIdenticalKeyImages;;
      ensure (negb (length key_offsets =? 0)%nat) InputEmptyOutputUsage;;
      defer (KeyImageDomain tx_index input_index key_image) (key_image_in_prime_subgroup key_image) InputInvalidDomainKeyImages;;
      ensure (negb (existsb (Z.eqb 0) (drop 1 key_offsets))) InputIdenticalOutputIndexes;;
      fresh ← insert_key_image key_image;
      ensure fresh (InputKeyImageAlreadySpent key_image);;
      sum ← lift (ok_or InputsAmountOverflow (checked_add 64 sum amount));
      inputs_loop tx_index (S input_index) ({[key_image]} ∪ in_this_tx) sum ins
  end.

Definition validate_inputs (tx : Transaction) (tx_index : nat) : TxM TxRule Z :=
  ensure (negb (length (inputs (prefix tx)) =? 0)%nat) EmptyInputs;;
  inputs_loop tx_index 0 ∅ 0 (inputs (prefix tx)).

Fixpoint outputs_loop (block_height : Z) (tx_index output_index : nat) (sum : Z) (outs : list Output) : TxM TxRule Z :=
  match outs with
  | [] => mret sum
  | output :: outs =>
      ensure (negb (o_amount output =? 0)) OutputZeroAmount;;
      ensure (negb ((MAX_OUTPUT_SIZE_HEIGHT <=? block_height) && (MAX_OUTPUT_SIZE_NODE <? o_amount output)))
        (OutputAmountTooLarge (o_amount output));;
      defer (OutputKey tx_index output_index (o_key output)) (check_key (o_key output)) OutputInvalidKey;;
      sum ← lift (ok_or OutputsAmountOverflow (checked_add 64 sum (o_amount output)));
      outputs_loop block_height tx_index (S output_index) sum outs
  end.

Definition validate_outputs (tx : Transaction) (block_height : Z) (tx_index : nat) : TxM TxRule Z :=
  outputs_loop block_height tx_index 0 0 (outputs (prefix tx)).

Definition validate_fee (tx : Transaction) (blob : bytes) (sum_of_inputs sum_of_outputs block_height : Z) : result TxRule (Z * bool) :=
  let size := Z.of_nat (length blob) in
  if sum_of_inputs =? 0 then Err ZeroInputSum
  else if sum_of_inputs <? sum_of_outputs then Err WrongAmount
  else
    let fee := sum_of_inputs - sum_of_outputs in
    let is_fusion := is_fusion_transaction (prefix tx) size block_height in
    if is_fusion then
      if negb (is_valid_fusion_fee fee block_height) then Err (WrongFee fee FUSION_FEE_V1) else Ok (fee, is_fusion)
    else
      let minimum := required_minimum_fee size block_height in
      if negb (is_valid_normal_fee fee size block_height) then Err (WrongFee fee minimum) else Ok (fee, is_fusion).

Definition validate_extra (tx : Transaction) (block_height : Z) (is_pool_transaction : bool) : result TxRule unit :=
  let enforce_from := MAX_EXTRA_SIZE_V2_HEIGHT + CRYPTONOTE_MINED_MONEY_UNLOCK_WINDOW in
  if (is_pool_transaction || (enforce_from <=? block_height)) && (MAX_EXTRA_SIZE_V2 <=? Z.of_nat (length (extra (prefix tx))))
  then Err (ExtraTooLarge (length (extra (prefix tx)))) else Ok ().

Definition validate_unlock_time (tx : Transaction) (block_height block_timestamp : Z) : result TxRule unit :=
  if block_height <=? UNLOCK_TIME_HEIGHT then Ok ()
  else
    let unlock_time := unlock_time (prefix tx) in
    let minimum :=
      if CRYPTONOTE_MAX_BLOCK_NUMBER <? unlock_time
      then saturating_add 64 block_timestamp (MINIMUM_UNLOCK_TIME_BLOCKS * DIFFICULTY_TARGET)
      else wrapping_add 64 block_height MINIMUM_UNLOCK_TIME_BLOCKS in
    if unlock_time <? minimum then Err (UnlockTimeTooSmall unlock_time minimum) else Ok ().

Definition validate_input_output_ratio (tx : Transaction) (ctx : TxContext) : result TxRule unit :=
  if (is_pool_transaction ctx || (NORMAL_TX_MAX_OUTPUT_COUNT_V1_HEIGHT <=? block_height ctx)) &&
     (NORMAL_TX_MAX_OUTPUT_COUNT_V1 <? Z.of_nat (length (outputs (prefix tx))))
  then Err (ExcessiveOutputs (length (outputs (prefix tx)))) else Ok ().

(** [transaction_pow_difficulty(...).expect(...)]: both callers test the height that
    makes it [Some]. *)
Definition pow_difficulty (tx : Transaction) (is_fusion : bool) (block_height : Z) : Z :=
  default 0 (transaction_pow_difficulty block_height is_fusion
    (Z.of_nat (length (inputs (prefix tx)))) (Z.of_nat (length (outputs (prefix tx))))).

(** From 1,500,000 a fee stands in for the work. *)
Definition fee_escape (fee : Z) (is_fusion : bool) (block_height : Z) : bool :=
  (TRANSACTION_POW_PASS_WITH_FEE_HEIGHT <=? block_height) && negb is_fusion && (TRANSACTION_POW_PASS_WITH_FEE <=? fee).

Definition validate_transaction_pow (tx : Transaction) (prefix_bytes : bytes) (fee : Z) (is_fusion : bool) (block_height : Z) : result TxRule unit :=
  let difficulty := pow_difficulty tx is_fusion block_height in
  let hash := cn_upx_hash prefix_bytes in
  if check_hash hash difficulty then Ok ()
  else if fee_escape fee is_fusion block_height then Ok ()
  else Err (PowInvalid difficulty).

Definition gather_transaction_pow {E} (tx : Transaction) (prefix_bytes : bytes) (fee : Z) (is_fusion : bool) (block_height : Z)
  (tx_index : nat) : TxM E unit :=
  if fee_escape fee is_fusion block_height then mret ()
  else push (TxPow tx_index prefix_bytes (pow_difficulty tx is_fusion block_height)).

(** * The expensive input checks *)

Section Chain.
Context `{A : ChainAccess F}.

Fixpoint ring_loop (ctx : TxContext) (amount : Z) (found : list (Z * option OutputRecord)) : result (TxError F) (list bytes) :=
  match found with
  | [] => Ok []
  | (global_index, record) :: found =>
      record ← ok_or (Rule (InputInvalidGlobalIndex amount global_index)) record;
      if negb (is_spend_time_unlocked (or_unlock_time record) (block_height ctx))
      then Err (Rule (InputSpendLockedOut amount global_index (or_unlock_time record)))
      else ring ← ring_loop ctx amount found; Ok (public_key record :: ring)
  end.

Definition gather_ring (tx : Transaction) (input : Input) (input_index : nat) (ctx : TxContext)
  : result (TxError F) (Hash * list bytes * list bytes) :=
  match input with
  | Base _ => Err (Rule InputUnknownType)
  | Key amount key_offsets key_image =>
      spent ← map_err Chain (key_image_spent key_image (block_height ctx));
      if (spent : bool) then Err (Rule (InputKeyImageAlreadySpent key_image))
      else
        absolute ← ok_or (Rule (InputInvalidGlobalIndex amount u64_max)) (relative_offsets_to_absolute key_offsets);
        found ← map_err Chain (key_outputs amount absolute);
        ring ← ring_loop ctx amount (zip absolute found);
        let signatures := default [] (signatures tx !! input_index) in
        let bad_count :=
          if is_pool_transaction ctx || (TRANSACTION_SIGNATURE_COUNT_VALIDATION_HEIGHT <=? block_height ctx)
          then negb (length ring =? length signatures)%nat
          else (length signatures <? length ring)%nat in
        if bad_count then Err (Rule (InputInvalidSignaturesCount (length ring) (length signatures)))
        else Ok (key_image, ring, take (length ring) signatures)
  end.

Fixpoint gather_loop (tx : Transaction) (prefix_hash : Hash) (ctx : TxContext) (tx_index input_index : nat) (ins : list Input)
  : TxM (TxError F) unit :=
  match ins with
  | [] => mret ()
  | input :: ins =>
      '(image, ring, signatures) ← lift (gather_ring tx input input_index ctx);
      push (Ring (mkGatheredRing tx_index input_index prefix_hash image ring signatures));;
      gather_loop tx prefix_hash ctx tx_index (S input_index) ins
  end.

Definition gather_inputs_expensive (tx : Transaction) (prefix_bytes : bytes) (ctx : TxContext) (tx_index : nat) : TxM (TxError F) unit :=
  gather_loop tx (cn_fast_hash prefix_bytes) ctx tx_index 0 (inputs (prefix tx)).

(** The loop of step 10 of the inline validator. *)
Fixpoint verify_loop (tx : Transaction) (prefix_hash : Hash) (ctx : TxContext) (input_index : nat) (ins : list Input)
  : TxM (TxError F) unit :=
  match ins with
  | [] => mret ()
  | input :: ins =>
      '(image, ring, signatures) ← lift (gather_ring tx input input_index ctx);
      ensure (check_ring_signature prefix_hash image ring signatures) (Rule (InputInvalidSignatures input_index));;
      verify_loop tx prefix_hash ctx (S input_index) ins
  end.

(** * The validators *)

Definition max_size (block_median_size : Z) : Z :=
  wrapping_sub 64 (wrapping_mul 64 block_median_size 2) CRYPTONOTE_COINBASE_BLOB_RESERVED_SIZE.

Definition validate_mixin (tx : Transaction) (block_height : Z) : result TxRule unit :=
  map_err InvalidMixin (validate_ring_sizes (map Z.of_nat (TransactionPrefix.ring_sizes (prefix tx))) block_height).

Definition validate_transaction_deferred (tx : Transaction) (blob : bytes) (ctx : TxContext) (tx_index : nat) : TxM (TxError F) TxValidation :=
  let max_size := max_size (block_median_size ctx) in
  ensure (negb (max_size <? Z.of_nat (length blob))) (Rule (SizeTooLarge (length blob) max_size));;
  sum_of_inputs ← rule (validate_inputs tx tx_index);
  sum_of_outputs ← rule (validate_outputs tx (block_height ctx) tx_index);
  '(fee, is_fusion) ← rule (lift (validate_fee tx blob sum_of_inputs sum_of_outputs (block_height ctx)));
  rule (lift (validate_extra tx (block_height ctx) (is_pool_transaction ctx)));;
  rule (lift (validate_unlock_time tx (block_height ctx) (block_timestamp ctx)));;
  rule (lift (validate_input_output_ratio tx ctx));;
  rule (lift (validate_mixin tx (block_height ctx)));;
  let in_checkpoint_zone := Checkpoints.is_in_checkpoint_zone (checkpoints ctx) (wrapping_add 64 (block_height ctx) 1) in
  let pow_applies := (TRANSACTION_POW_HEIGHT <=? block_height ctx) && (is_pool_transaction ctx || negb in_checkpoint_zone) in
  let expensive_applies := negb in_checkpoint_zone in
  let prefix_bytes := TransactionPrefix.to_bytes (prefix tx) in
  (if pow_applies then
     if is_pool_transaction ctx then rule (lift (validate_transaction_pow tx prefix_bytes fee is_fusion (block_height ctx)))
     else gather_transaction_pow tx prefix_bytes fee is_fusion (block_height ctx) tx_index
   else mret ());;
  (if expensive_applies then gather_inputs_expensive tx prefix_bytes ctx tx_index else mret ());;
  mret (mkTxValidation fee is_fusion).

Definition validate_transaction_early_exit (tx : Transaction) (blob : bytes) (ctx : TxContext) : TxM (TxError F) TxValidation :=
  let max_size := max_size (block_median_size ctx) in
  ensure (negb (max_size <? Z.of_nat (length blob))) (Rule (SizeTooLarge (length blob) max_size));;
  sum_of_inputs ← rule (validate_inputs tx 0);
  sum_of_outputs ← rule (validate_outputs tx (block_height ctx) 0);
  '(fee, is_fusion) ← rule (lift (validate_fee tx blob sum_of_inputs sum_of_outputs (block_height ctx)));
  rule (lift (validate_extra tx (block_height ctx) (is_pool_transaction ctx)));;
  rule (lift (validate_unlock_time tx (block_height ctx) (block_timestamp ctx)));;
  rule (lift (validate_input_output_ratio tx ctx));;
  rule (lift (validate_mixin tx (block_height ctx)));;
  let in_checkpoint_zone := Checkpoints.is_in_checkpoint_zone (checkpoints ctx) (wrapping_add 64 (block_height ctx) 1) in
  let pow_applies := (TRANSACTION_POW_HEIGHT <=? block_height ctx) && (is_pool_transaction ctx || negb in_checkpoint_zone) in
  let expensive_applies := negb in_checkpoint_zone in
  let prefix_bytes := TransactionPrefix.to_bytes (prefix tx) in
  (if pow_applies then rule (lift (validate_transaction_pow tx prefix_bytes fee is_fusion (block_height ctx))) else mret ());;
  (if expensive_applies then verify_loop tx (cn_fast_hash prefix_bytes) ctx 0 (inputs (prefix tx)) else mret ());;
  mret (mkTxValidation fee is_fusion).

(** One transaction, its checks settled at once. *)
Definition validate_transaction_with_threads `{Sch : !Scheduler} (tx : Transaction) (blob : bytes) (state : gset Hash) (ctx : TxContext)
  (threads : nat) : result (TxError F) TxValidation * gset Hash :=
  let '(outcome, w) := validate_transaction_deferred tx blob ctx 0 (mkWorld state (Some BlockRingBatch.new)) in
  let batch := default BlockRingBatch.new (batch w) in
  match BlockRingBatch.first_invalid batch threads with
  | Some (_, r) => (Err (Rule r), spent_key_images w)
  | None => (outcome, spent_key_images w)
  end.

End Chain.

(** * Revalidation *)

Record RevalidateContext := mkRevalidateContext {
  rc_block_height : Z; rc_block_median_size : Z; rc_block_timestamp : Z }.

Definition revalidate_after_height_change (tx : Transaction) (blob : bytes) (ctx : RevalidateContext) : result TxRule TxValidation :=
  let h := rc_block_height ctx in
  let max_size := max_size (rc_block_median_size ctx) in
  fst ((ensure (negb (max_size <? Z.of_nat (length blob))) (SizeTooLarge (length blob) max_size);;
    lift (validate_extra tx h true);;
    lift (validate_mixin tx h);;
    sum_of_inputs ← validate_inputs tx 0;
    sum_of_outputs ← validate_outputs tx h 0;
    lift (validate_unlock_time tx h (rc_block_timestamp ctx));;
    '(fee, is_fusion) ← lift (validate_fee tx blob sum_of_inputs sum_of_outputs h);
    (if (TRANSACTION_POW_HEIGHT <=? h) && (h <=? TRANSACTION_POW_HEIGHT + 100)
     then lift (validate_transaction_pow tx (TransactionPrefix.to_bytes (prefix tx)) fee is_fusion h) else mret ());;
    mret (mkTxValidation fee is_fusion)) (mkWorld ∅ None)).

End Checks.

(** * The transactions of a block *)

Section BlockLoop.
Context `{C : Crypto} `{A : ChainAccess F} `{Sch : !Scheduler}.

(** The [ChainError]s of step 8: [Rule::Transaction], or a fault passed on. *)
Inductive BlockError : Type :=
| TransactionRule (hash : Hash) (index : nat) (r : TxRule)
| StoreFault (e : F).

Context (ctx : TxContext) (threads : nat) (transaction_hashes : list Hash).

Definition tx_hash (i : nat) : Hash := default [] (transaction_hashes !! i).

Definition batched_failure (f : nat * TxRule) : BlockError := TransactionRule (tx_hash f.1) f.1 f.2.

Definition held_back (i : nat) (e : TxError F) : BlockError :=
  match e with Rule r => TransactionRule (tx_hash i) i r | Chain e => StoreFault e end.

(** The settle after the loop: the batch first, then the error held back. *)
Definition settle_block (b : BlockRingBatch) (outcome : result BlockError (Z * gset Hash)) : result BlockError (Z * gset Hash) :=
  match BlockRingBatch.first_invalid b threads with
  | Some f => Err (batched_failure f)
  | None => outcome
  end.

(** [i] is the index of the next transaction, [cumulative_fee] the fees so far. *)
Fixpoint block_loop (i : nat) (cumulative_fee : Z) (st : gset Hash) (b : BlockRingBatch) (txs : list (Transaction * bytes))
  : result BlockError (Z * gset Hash) :=
  match txs with
  | [] => settle_block b (Ok (cumulative_fee, st))
  | (tx, blob) :: txs =>
      let '(r, w) := validate_transaction_deferred tx blob ctx i (mkWorld st (Some b)) in
      let b := default BlockRingBatch.new (batch w) in
      match r with
      | Err e => settle_block b (Err (held_back i e))
      | Ok v =>
          let cumulative_fee := saturating_add 64 cumulative_fee (v_fee v) in
          if (RING_BATCH_MEMBER_LIMIT <=? members b)%nat then
            match BlockRingBatch.first_invalid b threads with
            | Some f => Err (batched_failure f)
            | None => block_loop (S i) cumulative_fee (spent_key_images w) (BlockRingBatch.clear b) txs
            end
          else block_loop (S i) cumulative_fee (spent_key_images w) b txs
      end
  end.

Definition validate_block_transactions (txs : list (Transaction * bytes)) : result BlockError (Z * gset Hash) :=
  block_loop 0 0 ∅ BlockRingBatch.new txs.

(** The specification: one transaction after the other, every check in place, ending at
    the first failure. *)
Fixpoint sequential_block (i : nat) (cumulative_fee : Z) (st : gset Hash) (txs : list (Transaction * bytes))
  : result BlockError (Z * gset Hash) :=
  match txs with
  | [] => Ok (cumulative_fee, st)
  | (tx, blob) :: txs =>
      match validate_transaction_early_exit tx blob ctx (mkWorld st None) with
      | (Ok v, w) => sequential_block (S i) (saturating_add 64 cumulative_fee (v_fee v)) (spent_key_images w) txs
      | (Err e, _) => Err (held_back i e)
      end
  end.

End BlockLoop.
Arguments BlockError F : clear implicits.

(** * Settling a batch *)

Section Settle.
Context `{C : Crypto}.

(** The check a sequential loop over the batch would stop at. *)
Fixpoint first_bad (l : list PureCheck) : option PureCheck :=
  match l with
  | [] => None
  | c :: l => if PureCheck.verify c then first_bad l else Some c
  end.

Lemma first_bad_app l k : first_bad (l ++ k) = match first_bad l with Some c => Some c | None => first_bad k end.
Proof. induction l as [|c l IH]; [done|]. cbn. by destruct (PureCheck.verify c). Qed.

Lemma first_bad_elem_of l c : first_bad l = Some c → c ∈ l.
Proof.
  induction l as [|d l IH]; [done|]. cbn. case_match; [intros ?; right; auto|]. intros [= ->]. left.
Qed.

Lemma first_failing_from_bad pre l :
  first_failing_from (verify_at (pre ++ l)) (length pre) (length l) ≫= (λ i, (pre ++ l) !! i) = first_bad l.
Proof.
  revert pre. induction l as [|c l IH]; intros pre; [done|]. cbn [first_failing_from first_bad length].
  assert ((pre ++ c :: l) !! length pre = Some c) as Hc by (by rewrite lookup_app_r, Nat.sub_diag by lia).
  unfold verify_at at 1. rewrite Hc. destruct (PureCheck.verify c).
  - specialize (IH (pre ++ [c])). rewrite <- app_assoc, length_app, Nat.add_1_r in IH. exact IH.
  - exact Hc.
Qed.

Lemma first_invalid_check_first checks threads r :
  first_invalid_check checks threads r ↔ r = first_failing (verify_at checks) (length checks).
Proof.
  unfold first_invalid_check. destruct (_ || _) eqn:E; [done|]. bool_hyps. apply runs_to_first_failing; lia.
Qed.

Lemma first_invalid_spec `{!Scheduler} b threads :
  BlockRingBatch.first_invalid b threads = PureCheck.failure <$> first_bad (checks b).
Proof.
  unfold BlockRingBatch.first_invalid. pose proof (settle_runs (checks b) threads) as Hs.
  apply first_invalid_check_first in Hs as ->. rewrite <- (first_failing_from_bad [] (checks b)).
  unfold first_failing. cbn. by destruct (first_failing_from _ 0 _).
Qed.

(** ** Visit order *)

Definition ple (p q : nat * nat * nat) : Prop :=
  (p.1.1 < q.1.1 ∨ p.1.1 = q.1.1 ∧ (p.1.2 < q.1.2 ∨ p.1.2 = q.1.2 ∧ p.2 ≤ q.2))%nat.
Definition psucc (p : nat * nat * nat) : nat * nat * nat := (p.1, S p.2).

(** The positions of [l] increase strictly, from [lo] on and below [hi]. *)
Fixpoint ascends (lo : nat * nat * nat) (l : list PureCheck) (hi : nat * nat * nat) : Prop :=
  match l with
  | [] => ple lo hi
  | c :: l => ple lo (PureCheck.position c) ∧ ascends (psucc (PureCheck.position c)) l hi
  end.

Lemma ple_refl p : ple p p.
Proof. unfold ple. lia. Qed.

Lemma ple_trans p q r : ple p q → ple q r → ple p r.
Proof. unfold ple. lia. Qed.

Lemma ascends_weaken lo lo' l hi hi' : ple lo' lo → ple hi hi' → ascends lo l hi → ascends lo' l hi'.
Proof.
  revert lo lo'. induction l as [|c l IH]; intros lo lo' Hl Hh; cbn.
  - intros H. by eapply ple_trans, ple_trans.
  - intros [H1 H2]. split; [by eapply ple_trans|]. eapply IH; [apply ple_refl|done|done].
Qed.

Lemma ascends_app lo l mid k hi : ascends lo l mid → ascends mid k hi → ascends lo (l ++ k) hi.
Proof.
  revert lo. induction l as [|c l IH]; intros lo; cbn.
  - intros H1 H2. eapply ascends_weaken; [exact H1|apply ple_refl|exact H2].
  - intros [H1 H2] H3. eauto.
Qed.

Lemma ascends_bounds lo l hi : ascends lo l hi →
  ple lo hi ∧ Forall (λ c, ple lo (PureCheck.position c) ∧ ple (psucc (PureCheck.position c)) hi) l.
Proof.
  revert lo. induction l as [|c l IH]; intros lo; cbn; [by intros ?|]. intros [H1 H2]. apply IH in H2 as [H2 H3].
  assert (ple (PureCheck.position c) (psucc (PureCheck.position c))) by (unfold ple, psucc; cbn; lia).
  split; [by eapply ple_trans, ple_trans|]. constructor; [done|]. eapply Forall_impl; [exact H3|]. cbn.
  intros x [Hx1 Hx2]. split; [|done]. eapply ple_trans; [exact H1|]. by eapply ple_trans.
Qed.

Lemma ascends_sorted lo l hi : ascends lo l hi →
  StronglySorted (λ c d, ple (psucc (PureCheck.position c)) (PureCheck.position d)) l.
Proof.
  revert lo. induction l as [|c l IH]; intros lo; cbn; [constructor|]. intros [H1 H2]. constructor; [by eapply IH|].
  apply ascends_bounds in H2 as [_ H2]. eapply Forall_impl; [exact H2|]. cbn. tauto.
Qed.

Lemma position_tx c : (PureCheck.position c).1.1 = (PureCheck.failure c).1.
Proof. by destruct c. Qed.

(** ** Deferred and inline computations *)

(** [d], in the deferred mode, appends checks at the positions from [lo] to [hi]; [e], inline,
    does what [d] does when they all pass, and stops with the rule of the first one
    that does not. *)
Definition sim {E A} (of_rule : TxRule → E) (lo hi : nat * nat * nat) (d e : TxM E A) : Prop :=
  ∀ st b, ∃ new b' r st',
    d (mkWorld st (Some b)) = (r, mkWorld st' (Some b')) ∧ checks b' = checks b ++ new ∧ ascends lo new hi ∧
    match first_bad new with
    | None => e (mkWorld st None) = (r, mkWorld st' None)
    | Some c => ∃ w, e (mkWorld st None) = (Err (of_rule (PureCheck.failure c).2), w)
    end.

Lemma sim_pure {E A} of_rule lo hi (r : result E A) : ple lo hi → sim of_rule lo hi (lift r) (lift r).
Proof. intros Hle st b. exists [], b, r, st. split_and!; [done|by rewrite app_nil_r|done|done]. Qed.

Lemma sim_ret {E A} of_rule lo hi (a : A) : ple lo hi → sim of_rule lo hi (mret a : TxM E A) (mret a).
Proof. apply (sim_pure of_rule lo hi (Ok a)). Qed.

Lemma sim_throw {E A} of_rule lo hi (x : E) : ple lo hi → sim of_rule lo hi (throw x : TxM E A) (throw x).
Proof. apply (sim_pure of_rule lo hi (Err x)). Qed.

Lemma sim_ensure {E} of_rule lo hi ok (x : E) : ple lo hi → sim of_rule lo hi (ensure ok x) (ensure ok x).
Proof. intros Hle. unfold ensure. destruct ok; [by apply sim_ret|by apply sim_throw]. Qed.

Lemma sim_insert {E} of_rule lo hi i : ple lo hi → sim (E := E) of_rule lo hi (insert_key_image i) (insert_key_image i).
Proof. intros Hle st b. eexists [], b, _, _. split_and!; [done|by rewrite app_nil_r|done|done]. Qed.

Lemma sim_bind {E A B} of_rule lo mid hi (m m' : TxM E A) (f f' : A → TxM E B) :
  sim of_rule lo mid m m' → ple mid hi → (∀ a, sim of_rule mid hi (f a) (f' a)) → sim of_rule lo hi (m ≫= f) (m' ≫= f').
Proof.
  intros Hm Hle Hf st b. destruct (Hm st b) as (new1 & b1 & r1 & st1 & Em & Hc1 & Ha1 & H1). unfold mbind, TxM_bind. rewrite Em.
  destruct r1 as [a|x].
  - destruct (Hf a st1 b1) as (new2 & b2 & r2 & st2 & Ef & Hc2 & Ha2 & H2). exists (new1 ++ new2), b2, r2, st2.
    split_and!; [done|by rewrite Hc2, Hc1, app_assoc|by eapply ascends_app|]. rewrite first_bad_app. destruct (first_bad new1) as [c|].
    + destruct H1 as [w ->]. by exists w.
    + by rewrite H1.
  - exists new1, b1, (Err x), st1. split_and!; [done|done|eapply ascends_weaken; [apply ple_refl|done|done]|].
    destruct (first_bad new1) as [c|]; [destruct H1 as [w ->]; by exists w|by rewrite H1].
Qed.

Lemma sim_rule {F A} lo hi (m m' : TxM TxRule A) : sim id lo hi m m' → sim (E := TxError F) Rule lo hi (rule m) (rule m').
Proof.
  intros Hm st b. destruct (Hm st b) as (new & b' & r & st' & Em & Hc & Ha & H). exists new, b', (map_err Rule r), st'.
  unfold rule. rewrite Em. split_and!; [done|done|done|]. destruct (first_bad new) as [c|].
  - destruct H as [w ->]. by exists w.
  - by rewrite H.
Qed.

Lemma sim_push {E} of_rule lo hi c (x : E) :
  ple lo (PureCheck.position c) → ple (psucc (PureCheck.position c)) hi → x = of_rule (PureCheck.failure c).2 →
  sim of_rule lo hi (push c) (ensure (PureCheck.verify c) x).
Proof.
  intros H1 H2 -> st b. exists [c], (BlockRingBatch.push b c), (Ok ()), st. split_and!; [done|done|done|]. cbn.
  destruct (PureCheck.verify c); [done|]. by eexists.
Qed.

Lemma sim_defer lo hi c c' ok r :
  ple lo (PureCheck.position c) → ple (psucc (PureCheck.position c)) hi → ok = PureCheck.verify c → r = (PureCheck.failure c).2 →
  sim id lo hi (defer c ok r) (defer c' ok r).
Proof.
  intros H1 H2 -> Hr st b. destruct (sim_push id lo hi c r H1 H2 Hr st b) as (new & b' & r' & st' & Em & H).
  exists new, b', r', st'. done.
Qed.

End Settle.

(** ** The two validators agree *)

Ltac ple_solve := unfold ple, psucc; cbn; lia.

(** One step of a simulation whose two sides have the same shape. *)
Ltac sim_step mid := apply (sim_bind _ _ mid); [|ple_solve|intros ?].

Section Agree.
Context `{C : Crypto}.
#[local] Opaque check_hash cn_upx_hash.

Lemma inputs_loop_sim ti k seen sum ins :
  sim id (ti, 0, k)%nat (ti, 1, 0)%nat (inputs_loop ti k seen sum ins) (inputs_loop 0 k seen sum ins).
Proof.
  revert k seen sum. induction ins as [|[|amount offsets image] ins IH]; intros k seen sum; cbn [inputs_loop].
  - apply sim_ret. ple_solve.
  - apply sim_throw. ple_solve.
  - sim_step (ti, 0, k)%nat; [apply sim_ensure, ple_refl|]. sim_step (ti, 0, k)%nat; [apply sim_ensure, ple_refl|].
    sim_step (ti, 0, S k)%nat; [apply sim_defer; [ple_solve|ple_solve|done|done]|].
    sim_step (ti, 0, S k)%nat; [apply sim_ensure, ple_refl|]. sim_step (ti, 0, S k)%nat; [apply sim_insert, ple_refl|].
    sim_step (ti, 0, S k)%nat; [apply sim_ensure, ple_refl|]. sim_step (ti, 0, S k)%nat; [apply sim_pure, ple_refl|]. apply IH.
Qed.

Lemma validate_inputs_sim ti tx : sim id (ti, 0, 0)%nat (ti, 1, 0)%nat (validate_inputs tx ti) (validate_inputs tx 0).
Proof. unfold validate_inputs. sim_step (ti, 0, 0)%nat; [apply sim_ensure, ple_refl|]. apply inputs_loop_sim. Qed.

Lemma outputs_loop_sim h ti k sum outs :
  sim id (ti, 1, k)%nat (ti, 2, 0)%nat (outputs_loop h ti k sum outs) (outputs_loop h 0 k sum outs).
Proof.
  revert k sum. induction outs as [|o outs IH]; intros k sum; cbn [outputs_loop]; [apply sim_ret; ple_solve|].
  sim_step (ti, 1, k)%nat; [apply sim_ensure, ple_refl|]. sim_step (ti, 1, k)%nat; [apply sim_ensure, ple_refl|].
  sim_step (ti, 1, S k)%nat; [apply sim_defer; [ple_solve|ple_solve|done|done]|].
  sim_step (ti, 1, S k)%nat; [apply sim_pure, ple_refl|]. apply IH.
Qed.

Lemma verify_tx_pow ti p difficulty : PureCheck.verify (TxPow ti p difficulty) = check_hash (cn_upx_hash p) difficulty.
Proof. reflexivity. Qed.

(** The fee escape is decided before the hash by one validator and after it by the other. *)
Lemma pow_sim {F} tx p fee fusion h ti :
  sim Rule (ti, 2, 0)%nat (ti, 3, 0)%nat
    (gather_transaction_pow tx p fee fusion h ti) (rule (lift (validate_transaction_pow tx p fee fusion h)) : TxM (TxError F) unit).
Proof.
  unfold gather_transaction_pow, validate_transaction_pow. destruct (fee_escape fee fusion h).
  - destruct (check_hash _ _); apply (sim_ret Rule); ple_solve.
  - pose proof (sim_push (E := TxError F) Rule (ti, 2, 0)%nat (ti, 3, 0)%nat (TxPow ti p (pow_difficulty tx fusion h))
      (Rule (PowInvalid (pow_difficulty tx fusion h))) ltac:(ple_solve) ltac:(ple_solve) eq_refl) as Hp.
    rewrite verify_tx_pow in Hp. by destruct (check_hash _ _).
Qed.

Context `{A : ChainAccess F}.

Lemma gather_loop_sim tx ph ctx ti k ins :
  sim Rule (ti, 3, k)%nat (S ti, 0, 0)%nat (gather_loop tx ph ctx ti k ins) (verify_loop tx ph ctx k ins).
Proof.
  revert k. induction ins as [|i ins IH]; intros k; cbn [gather_loop verify_loop]; [apply sim_ret; ple_solve|].
  sim_step (ti, 3, k)%nat; [apply sim_pure, ple_refl|]. destruct a as [[image ring] sigs].
  sim_step (ti, 3, S k)%nat; [|apply IH].
  apply (sim_push Rule _ _ (Ring (mkGatheredRing ti k ph image ring sigs))); [ple_solve|ple_solve|done].
Qed.

Lemma validate_transaction_sim tx blob ctx ti :
  sim Rule (ti, 0, 0)%nat (S ti, 0, 0)%nat (validate_transaction_deferred tx blob ctx ti) (validate_transaction_early_exit tx blob ctx).
Proof.
  unfold validate_transaction_deferred, validate_transaction_early_exit. cbv zeta.
  sim_step (ti, 0, 0)%nat; [apply sim_ensure, ple_refl|].
  sim_step (ti, 1, 0)%nat; [apply sim_rule, validate_inputs_sim|].
  sim_step (ti, 2, 0)%nat; [apply sim_rule, outputs_loop_sim|].
  sim_step (ti, 2, 0)%nat; [apply sim_rule, sim_pure, ple_refl|]. destruct a2 as [fee fusion].
  do 4 (sim_step (ti, 2, 0)%nat; [apply sim_rule, sim_pure, ple_refl|]).
  sim_step (ti, 3, 0)%nat.
  - destruct (_ && _); [|apply sim_ret; ple_solve].
    destruct (is_pool_transaction ctx); [apply sim_rule, sim_pure; ple_solve|apply pow_sim].
  - sim_step (S ti, 0, 0)%nat; [|apply sim_ret, ple_refl].
    destruct (negb _); [apply gather_loop_sim|apply sim_ret; ple_solve].
Qed.

End Agree.

(** The scheduler that never starts a thread. *)
Definition sequential_scheduler `{C : Crypto} : Scheduler := {|
  settle checks _ := first_failing (verify_at checks) (length checks);
  settle_runs checks threads := proj2 (first_invalid_check_first checks threads _) eq_refl |}.

Section Theorems.
Context `{C : Crypto} `{A : ChainAccess F} `{Sch : !Scheduler}.

Lemma with_threads_early_exit tx blob st ctx threads :
  let '(r, st') := validate_transaction_with_threads tx blob st ctx threads in
  let '(r', w) := validate_transaction_early_exit tx blob ctx (mkWorld st None) in
  r = r' ∧ ∀ v, r = Ok v → st' = spent_key_images w.
Proof.
  unfold validate_transaction_with_threads.
  destruct (validate_transaction_sim tx blob ctx 0 st BlockRingBatch.new) as (new & b' & r & st' & -> & Hc & _ & Hs).
  cbn [batch from_option id]. rewrite first_invalid_spec, Hc. cbn [checks BlockRingBatch.new app]. destruct (first_bad new) as [c|]; cbn [fmap option_fmap option_map].
  - destruct Hs as [w ->]. by destruct (PureCheck.failure c).
  - by rewrite Hs.
Qed.

(** C19. The batched validator and the sequential one agree on a transaction: whatever the
    thread count and the interleaving of the workers, postponing the pure checks
    changes neither the verdict, nor the rule or fault reported, nor the fee, and an
    accepted transaction leaves the same key images behind. *)
Theorem validators_agree tx blob st ctx threads :
  let '(r, st') := validate_transaction_with_threads tx blob st ctx threads in
  let '(r', w) := validate_transaction_early_exit tx blob ctx (mkWorld st None) in
  r = r' ∧ ∀ v, r = Ok v → st' = spent_key_images w.
Proof. apply with_threads_early_exit. Qed.

(** The loop with pending checks: they decide first. *)
Lemma block_loop_spec ctx threads hashes i fee st b txs :
  block_loop ctx threads hashes i fee st b txs =
  match first_bad (checks b) with
  | Some c => Err (batched_failure hashes (PureCheck.failure c))
  | None => sequential_block ctx hashes i fee st txs
  end.
Proof.
  revert i fee st b. induction txs as [|[tx blob] txs IH]; intros i fee st b; cbn [block_loop sequential_block].
  { unfold settle_block. rewrite first_invalid_spec. by destruct (first_bad (checks b)). }
  destruct (validate_transaction_sim tx blob ctx i st b) as (new & b' & r & st' & -> & Hc & Ha & Hs).
  cbn [batch spent_key_images from_option id].
  assert (∀ c, first_bad new = Some c → (PureCheck.failure c).1 = i) as Hi.
  { intros c Hb. apply ascends_bounds in Ha as [_ Ha]. rewrite Forall_forall in Ha.
    destruct (Ha c (first_bad_elem_of _ _ Hb)) as [H1 H2]. rewrite <- position_tx. revert H1 H2. unfold ple, psucc. cbn. lia. }
  assert (first_bad (checks b') = match first_bad (checks b) with Some c => Some c | None => first_bad new end) as Hb'
    by (by rewrite Hc, first_bad_app).
  destruct r as [v|e]; cbv zeta; unfold settle_block; rewrite ?IH, !first_invalid_spec, Hb'; cbn [checks BlockRingBatch.clear first_bad];
    try (destruct (_ <=? _)%nat); (destruct (first_bad (checks b)) as [c|]; [done|]);
    (destruct (first_bad new) as [c|] eqn:Hb; [destruct Hs as [w ->]|by rewrite Hs]);
    unfold held_back; by rewrite <- (Hi c eq_refl).
Qed.

(** C17. Step 8 of block validation, with one batch of postponed checks for the whole
    block, settled early when it grows too large and once at the end, and with the
    first other error held back, gives what checking the transactions one after the
    other would: the same total fee and claimed key images, or the same transaction,
    rule or fault. *)
Theorem block_transactions_sequential ctx threads hashes txs :
  validate_block_transactions ctx threads hashes txs = sequential_block ctx hashes 0 0 ∅ txs.
Proof. apply block_loop_spec. Qed.

(** The checks a transaction postpones are appended in visit order, so the assertion of
    [BlockRingBatch::push] holds. *)
Lemma deferred_visit_order tx blob ctx ti st b : ascends (0, 0, 0)%nat (checks b) (ti, 0, 0)%nat →
  ∃ b', batch (validate_transaction_deferred tx blob ctx ti (mkWorld st (Some b))).2 = Some b' ∧
    ascends (0, 0, 0)%nat (checks b') (S ti, 0, 0)%nat.
Proof.
  intros Hb. destruct (validate_transaction_sim tx blob ctx ti st b) as (new & b' & r & st' & -> & Hc & Ha & _).
  exists b'. split; [done|]. rewrite Hc. by eapply ascends_app.
Qed.

End Theorems.

(** * Witnesses *)

(** A chain on which every output exists and nothing is spent. *)
Definition toy_chain : ChainAccess unit := {|
  key_image_spent _ _ := Ok false;
  key_output _ g := Ok (Some (mkOutputRecord (replicate 32 g) 0 (replicate 32 0) 0 0));
  key_outputs := key_outputs_default (λ _ g, Ok (Some (mkOutputRecord (replicate 32 g) 0 (replicate 32 0) 0 0)));
  top_block_timestamp := 0;
  now := 0 |}.

Definition toy_context : TxContext := mkTxContext 10 100_000 0 false Checkpoints.none.

(** One input with a ring of two, one output, a fee of 500. *)
Definition toy_transaction : Transaction :=
  mkTransaction (mkPrefix 1 0 [Key 1_500 [3; 2] IDENTITY] [mkOutput 1_000 (replicate 32 9)] []) [[replicate 64 1; replicate 64 2]].

#[local] Instance toy_crypto_instance : Crypto := toy_crypto.
#[local] Instance toy_chain_instance : ChainAccess unit := toy_chain.
#[local] Instance toy_scheduler : Scheduler := sequential_scheduler.

Lemma validators_agree_witness :
  ∃ w, validate_transaction_early_exit toy_transaction (replicate 200 0) toy_context (mkWorld ∅ None) = (Ok (mkTxValidation 500 false), w) ∧
    spent_key_images w = {[IDENTITY]}.
Proof.
  pose proof (validators_agree toy_transaction (replicate 200 0) ∅ toy_context 4) as Hw.
  assert (validate_transaction_with_threads toy_transaction (replicate 200 0) ∅ toy_context 4 =
    (Ok (mkTxValidation 500 false), {[IDENTITY]})) as E by (vm_compute; reflexivity).
  rewrite E in Hw. destruct (validate_transaction_early_exit _ _ _ _) as [r w]. destruct Hw as [<- Hw]. exists w. by rewrite <- (Hw _ eq_refl).
Defined.

(** Two transactions that claim one key image: the second is refused. *)
Lemma block_transactions_sequential_witness :
  sequential_block toy_context [] 0 0 ∅ [(toy_transaction, replicate 200 0); (toy_transaction, replicate 200 0)] =
  Err (TransactionRule [] 1 (InputKeyImageAlreadySpent IDENTITY)).
Proof.
  rewrite <- (block_transactions_sequential toy_context 4 [] [(toy_transaction, replicate 200 0); (toy_transaction, replicate 200 0)]).
  vm_compute. reflexivity.
Defined.
