(* ===== verification/Accept.v ===== *)
(** What the validator accepts (crates/wrkz-chain/src/validate.rs
    [validate_transaction_early_exit], and step 8 of [add_block] through Validate.v):
    the rules as one predicate, and the facts an accepted block gives. *)
From stdpp Require Import gmap sets.
From S2P Require Import Prelude Constants Hashing Cryptonight Tx Fees Reward Checkpoints Records Validate.
Local Open Scope Z_scope.

(** A store may answer a whole ring at once, as long as it answers what the default
    method would. *)
Class ChainAccessLaws {F} (A : ChainAccess F) : Prop :=
  key_outputs_each amount idx : key_outputs amount idx = key_outputs_default key_output amount idx.

(** * The rules *)

Definition key_image_of (i : Input) : option Hash := match i with Key _ _ image => Some image | Base _ => None end.
Definition key_images (ins : list Input) : list Hash := omap key_image_of ins.

Section Rules.
Context `{C : Crypto} `{A : ChainAccess F}.

Definition input_ok (i : Input) : Prop :=
  match i with
  | Base _ => False
  | Key _ offsets image => offsets ≠ [] ∧ ¬ (0 ∈ tail offsets) ∧ key_image_in_prime_subgroup image = true
  end.

Definition output_ok (h : Z) (o : Output) : Prop :=
  o_amount o ≠ 0 ∧ (MAX_OUTPUT_SIZE_HEIGHT ≤ h → o_amount o ≤ MAX_OUTPUT_SIZE_NODE) ∧ check_key (o_key o) = true.

(** Input [k] of [tx] spends an output it may spend: its key image is not on the chain,
    each of its ring members is an unlocked output of the chain, it has as many
    signatures as members (from 543,000; at least as many before), and they verify. *)
Definition ring_ok (tx : Transaction) (ctx : TxContext) (k : nat) (i : Input) : Prop :=
  match i with
  | Base _ => False
  | Key amount offsets image =>
      key_image_spent image (block_height ctx) = Ok false ∧
      ∃ absolute recs, relative_offsets_to_absolute offsets = Some absolute ∧
        Forall2 (λ g rec, key_output amount g = Ok (Some rec) ∧ is_spend_time_unlocked (or_unlock_time rec) (block_height ctx) = true) absolute recs ∧
        let sigs := default [] (signatures tx !! k) in
        (length recs ≤ length sigs)%nat ∧
        (is_pool_transaction ctx = true ∨ TRANSACTION_SIGNATURE_COUNT_VALIDATION_HEIGHT ≤ block_height ctx → length recs = length sigs) ∧
        check_ring_signature (cn_fast_hash (TransactionPrefix.to_bytes (prefix tx))) image (map public_key recs) (take (length recs) sigs) = true
  end.

Definition in_zone (ctx : TxContext) : bool :=
  Checkpoints.is_in_checkpoint_zone (checkpoints ctx) (wrapping_add 64 (block_height ctx) 1).

Definition fee_ok (tx : Transaction) (blob : bytes) (h : Z) (v : TxValidation) : Prop :=
  let size := Z.of_nat (length blob) in
  v_is_fusion v = is_fusion_transaction (prefix tx) size h ∧
  if v_is_fusion v then is_valid_fusion_fee (v_fee v) h = true else is_valid_normal_fee (v_fee v) size h = true.

Record acceptable (st : gset Hash) (tx : Transaction) (blob : bytes) (ctx : TxContext) (v : TxValidation) : Prop := {
  ok_size : Z.of_nat (length blob) ≤ max_size (block_median_size ctx);
  ok_some_input : inputs (prefix tx) ≠ [];
  ok_inputs : Forall input_ok (inputs (prefix tx));
  ok_images : NoDup (key_images (inputs (prefix tx)));
  ok_fresh i : i ∈ key_images (inputs (prefix tx)) → i ∉ st;
  ok_outputs : Forall (output_ok (block_height ctx)) (outputs (prefix tx));
  ok_balance : ∃ si so, TransactionPrefix.sum_inputs (prefix tx) = Some si ∧ TransactionPrefix.sum_outputs (prefix tx) = Some so ∧
    si ≠ 0 ∧ so ≤ si ∧ v_fee v = si - so;
  ok_fee : fee_ok tx blob (block_height ctx) v;
  ok_extra : validate_extra tx (block_height ctx) (is_pool_transaction ctx) = Ok ();
  ok_unlock_time : validate_unlock_time tx (block_height ctx) (block_timestamp ctx) = Ok ();
  ok_ratio : validate_input_output_ratio tx ctx = Ok ();
  ok_mixin : validate_ring_sizes (map Z.of_nat (TransactionPrefix.ring_sizes (prefix tx))) (block_height ctx) = Ok ();
  ok_pow : TRANSACTION_POW_HEIGHT ≤ block_height ctx → is_pool_transaction ctx = true ∨ in_zone ctx = false →
    check_hash (cn_upx_hash (TransactionPrefix.to_bytes (prefix tx))) (pow_difficulty tx (v_is_fusion v) (block_height ctx)) = true ∨
    fee_escape (v_fee v) (v_is_fusion v) (block_height ctx) = true;
  ok_rings k i : in_zone ctx = false → inputs (prefix tx) !! k = Some i → ring_ok tx ctx k i
}.

End Rules.

(** * Inverting the monad *)

Section Invert.

Lemma bind_Ok {E A B} (m : TxM E A) (f : A → TxM E B) w b w2 :
  (m ≫= f) w = (Ok b, w2) ↔ ∃ a w1, m w = (Ok a, w1) ∧ f a w1 = (Ok b, w2).
Proof.
  unfold mbind, TxM_bind. destruct (m w) as [[a|e] w1]; split.
  - intros ?. by exists a, w1.
  - by intros (? & ? & [= <- <-] & ?).
  - done.
  - by intros (? & ? & ? & _).
Qed.

Lemma ensure_Ok {E} ok (e : E) w u w2 : ensure ok e w = (Ok u, w2) ↔ ok = true ∧ w2 = w.
Proof.
  unfold ensure. destruct ok, u; split; [by intros [= <-]|by intros [_ ->]|done|by intros [? _]].
Qed.

Lemma lift_Ok {E A} (r : result E A) w a w2 : lift r w = (Ok a, w2) ↔ r = Ok a ∧ w2 = w.
Proof. unfold lift. split; [by intros [= -> ->]|by intros [-> ->]]. Qed.

Lemma ret_Ok {E A} (x a : A) w w2 : (mret x : TxM E A) w = (Ok a, w2) ↔ a = x ∧ w2 = w.
Proof. split; [by intros [= -> ->]|by intros [-> ->]]. Qed.

Lemma rule_Ok {F A} (m : TxM TxRule A) w a w2 : (rule m : TxM (TxError F) A) w = (Ok a, w2) ↔ m w = (Ok a, w2).
Proof. unfold rule. destruct (m w) as [[x|e] w1]; cbn; split; congruence. Qed.

Lemma defer_inline_Ok c ok r st u w2 : defer c ok r (mkWorld st None) = (Ok u, w2) ↔ ok = true ∧ w2 = mkWorld st None.
Proof. apply ensure_Ok. Qed.

Lemma insert_Ok {E} i st (b : option BlockRingBatch) a w2 :
  (insert_key_image i : TxM E bool) (mkWorld st b) = (Ok a, w2) ↔ a = bool_decide (i ∉ st) ∧ w2 = mkWorld ({[i]} ∪ st) b.
Proof. unfold insert_key_image. cbn. split; [by intros [= <- <-]|by intros [-> ->]]. Qed.

End Invert.

(** Invert a run that succeeded, and build one. *)
Ltac tx_inv :=
  repeat match goal with
  | H : (_ ≫= _) _ = (Ok _, _) |- _ => apply bind_Ok in H as (?&?&?&?)
  | H : rule _ _ = (Ok _, _) |- _ => apply rule_Ok in H
  | H : ensure _ _ _ = (Ok _, _) |- _ => apply ensure_Ok in H as [??]; subst
  | H : lift _ _ = (Ok _, _) |- _ => apply lift_Ok in H as [??]; subst
  | H : defer _ _ _ (mkWorld _ None) = (Ok _, _) |- _ => apply defer_inline_Ok in H as [??]; subst
  | H : insert_key_image _ (mkWorld _ _) = (Ok _, _) |- _ => apply insert_Ok in H as [??]; subst
  | H : mret _ _ = (Ok _, _) |- _ => apply ret_Ok in H as [??]; subst
  | H : ok_or _ _ = Ok _ |- _ => apply ok_or_Ok in H
  end.
Ltac tx_bind := apply bind_Ok; eexists _, _; split.
Ltac tx_ensure := apply (ensure_Ok _ _ _ ()); split; [|reflexivity].

Section Loops.
Context `{C : Crypto}.

Lemma existsb_zero l : existsb (Z.eqb 0) l = true ↔ 0 ∈ l.
Proof.
  rewrite existsb_exists. split; [intros (x & Hx & ->%Z.eqb_eq)|intros Hx; exists 0; split; [|done]]; by apply list_elem_of_In.
Qed.

Lemma inputs_loop_inline k seen sum ins st s w :
  inputs_loop 0 k seen sum ins (mkWorld st None) = (Ok s, w) ↔
  Forall input_ok ins ∧ NoDup (key_images ins) ∧ (∀ i, i ∈ key_images ins → (i ∉ seen) ∧ (i ∉ st)) ∧
  TransactionPrefix.try_sum sum (TransactionPrefix.input_amounts ins) = Some s ∧
  w = mkWorld (list_to_set (key_images ins) ∪ st) None.
Proof.
  revert k seen sum st. induction ins as [|[h|amount offsets image] ins IH]; intros k seen sum st; cbn [inputs_loop].
  - rewrite ret_Ok. cbn. rewrite (left_id_L ∅ (∪)). split; [intros [-> ->]|intros (_ & _ & _ & [= ->] & ->)]; [|done].
    split_and!; [constructor|constructor|by intros i ?%elem_of_nil|done|done].
  - split; [done|]. intros [H _]. by apply Forall_cons in H as [[] _].
  - assert (key_images (Key amount offsets image :: ins) = image :: key_images ins) as -> by done.
    cbn [TransactionPrefix.input_amounts omap list_omap TransactionPrefix.try_sum]. rewrite Forall_cons, NoDup_cons. split.
    + intros Hr. tx_inv. bool_hyps. match goal with H : inputs_loop _ _ _ _ _ _ = _ |- _ => apply IH in H as (Hi & Hn & Hf & Hs & ->) end.
      split_and!; [|done| |done| | |].
      * split_and!; [by destruct offsets| |done]. rewrite <- existsb_zero. destruct offsets as [|z l]; [done|]. change (drop 1 (z :: l)) with l in H2. cbn [tail]. by rewrite H2.
      * intros Hin. apply Hf in Hin as [Hin _]. apply Hin, elem_of_union_l. by apply elem_of_singleton.
      * intros i [->|Hin]%elem_of_cons; [split; [done|]; symmetry in H3; by apply bool_decide_eq_true in H3|].
        apply Hf in Hin as [[_ H5]%not_elem_of_union [_ H6]%not_elem_of_union]. done.
      * by rewrite H4.
      * f_equal. cbn. by rewrite !(assoc_L (∪)), (comm_L (∪) {[image]}).
    + intros ((Ho & Hi) & (Hni & Hn) & Hf & Hs & ->). destruct Ho as (Ho & Hz & Hd).
      destruct (Hf image) as [Hf1 Hf2]; [by left|].
      tx_bind; [tx_ensure; by apply bool_decide_eq_true|]. tx_bind; [tx_ensure; by destruct offsets|].
      tx_bind; [by apply (defer_inline_Ok _ _ _ _ ())|].
      tx_bind; [tx_ensure; apply negb_true_iff, not_true_iff_false; destruct offsets as [|z l]; [done|]; change (drop 1 (z :: l)) with l; cbn [tail] in Hz; by rewrite existsb_zero|].
      tx_bind; [by apply insert_Ok|]. tx_bind; [tx_ensure; by apply bool_decide_eq_true|].
      destruct (checked_add 64 sum amount) as [s'|] eqn:Ea; [|done].
      tx_bind; [by apply lift_Ok|]. apply IH. split_and!; [done|done| |exact Hs|f_equal; cbn; by rewrite !(assoc_L (∪)), (comm_L (∪) {[image]})].
      intros i Hin. destruct (Hf i) as [? ?]; [by right|]. assert (i ≠ image) by congruence.
      by rewrite !not_elem_of_union, !not_elem_of_singleton.
Qed.

Lemma outputs_loop_inline h k sum outs st s w :
  outputs_loop h 0 k sum outs (mkWorld st None) = (Ok s, w) ↔
  Forall (output_ok h) outs ∧ TransactionPrefix.try_sum sum (map o_amount outs) = Some s ∧ w = mkWorld st None.
Proof.
  revert k sum. induction outs as [|o outs IH]; intros k sum; cbn [outputs_loop].
  - rewrite ret_Ok. cbn. split; [intros [-> ->]|intros (_ & [= ->] & ->)]; [|done]. split_and!; [constructor|done|done].
  - cbn [map TransactionPrefix.try_sum]. rewrite Forall_cons. split.
    + intros Hr. tx_inv. match goal with H : outputs_loop _ _ _ _ _ _ = _ |- _ => apply IH in H as (Ho & Hs & ->) end.
      match goal with H : checked_add _ _ _ = Some _ |- _ => rewrite H end. bool_hyps. split_and!; [|done|done|done].
      split_and!; [done| |done]. intros Hh. match goal with H : (_ && _) = false |- _ => apply andb_false_iff in H as [H|H] end; lia.
    + intros ((Ho & Hos) & Hs & ->). destruct Ho as (Hz & Hm & Hk). tx_bind; [tx_ensure; by apply negb_true_iff, Z.eqb_neq|].
      tx_bind; [tx_ensure; apply negb_true_iff, andb_false_iff; destruct (Z.leb_spec MAX_OUTPUT_SIZE_HEIGHT h); [right; lia|by left]|].
      tx_bind; [by apply (defer_inline_Ok _ _ _ _ ())|]. destruct (checked_add 64 sum (o_amount o)) as [s'|]; [|done].
      tx_bind; [by apply lift_Ok|]. by apply IH.
Qed.

Context `{A : ChainAccess F} `{!ChainAccessLaws A}.

Lemma ring_loop_Ok ctx amount absolute ring :
  (∃ found, key_outputs amount absolute = Ok found ∧ ring_loop ctx amount (zip absolute found) = Ok ring) ↔
  ∃ recs, Forall2 (λ g rec, key_output amount g = Ok (Some rec) ∧ is_spend_time_unlocked (or_unlock_time rec) (block_height ctx) = true) absolute recs ∧
    ring = map public_key recs.
Proof.
  rewrite key_outputs_each. unfold key_outputs_default.
  revert ring. induction absolute as [|g absolute IH]; intros ring; cbn [collect].
  - split; [intros (found & [= <-] & [= <-])|intros (recs & ->%Forall2_nil_inv_l & ->)]; [by exists []|by exists []].
  - split.
    + intros (found & Hf & Hr). apply result_bind_Ok in Hf as (o & Ho & Hf). apply result_bind_Ok in Hf as (os & Hos & [= <-]).
      cbn [zip zip_with ring_loop] in Hr. destruct o as [rec|]; [|done]. cbn in Hr. destruct (is_spend_time_unlocked _ _) eqn:Hu; [|done].
      apply result_bind_Ok in Hr as (ring' & Hr & [= <-]). destruct (proj1 (IH ring')) as (recs & HF & ->); [by exists os|].
      exists (rec :: recs). split; [by constructor|done].
    + intros (recs & HF & ->). apply Forall2_cons_inv_l in HF as (rec & recs' & [Ho Hu] & HF & ->).
      destruct (proj2 (IH (map public_key recs'))) as (os & Hos & Hr); [by exists recs'|].
      exists (Some rec :: os). rewrite Ho. cbn. rewrite Hos. split; [done|].
      cbn [zip zip_with ring_loop ok_or]. cbn [mbind result_bind]. rewrite Hu. cbn [negb]. by rewrite Hr.
Qed.

(** Whether the number of signatures is wrong. *)
Lemma count_rule ctx (n m : nat) :
  (if is_pool_transaction ctx || (TRANSACTION_SIGNATURE_COUNT_VALIDATION_HEIGHT <=? block_height ctx)
   then negb (n =? m)%nat else (m <? n)%nat) = false ↔
  (n ≤ m)%nat ∧ (is_pool_transaction ctx = true ∨ TRANSACTION_SIGNATURE_COUNT_VALIDATION_HEIGHT ≤ block_height ctx → n = m).
Proof.
  destruct (is_pool_transaction ctx); cbn [orb].
  - rewrite negb_false_iff, Nat.eqb_eq. split; [intros ->; by split|]. intros [_ H]. auto.
  - destruct (Z.leb_spec TRANSACTION_SIGNATURE_COUNT_VALIDATION_HEIGHT (block_height ctx)).
    + rewrite negb_false_iff, Nat.eqb_eq. split; [intros ->; by split|]. intros [_ H']. auto.
    + rewrite Nat.ltb_ge. split; [|tauto]. intros ?. split; [done|]. intros [?|?]; [done|lia].
Qed.

Lemma gather_ring_ok tx ctx k i :
  (∃ image ring sigs, gather_ring tx i k ctx = Ok (image, ring, sigs) ∧
    check_ring_signature (cn_fast_hash (TransactionPrefix.to_bytes (prefix tx))) image ring sigs = true) ↔ ring_ok tx ctx k i.
Proof.
  destruct i as [h|amount offsets image]; cbn [gather_ring ring_ok]; [split; [by intros (? & ? & ? & ? & _)|done]|]. split.
  - intros (image' & ring & sigs & Hg & Hv). apply result_bind_Ok in Hg as (spent & Hsp & Hg). apply map_err_Ok in Hsp.
    destruct spent; [done|]. apply result_bind_Ok in Hg as (absolute & Ha & Hg). apply ok_or_Ok in Ha.
    apply result_bind_Ok in Hg as (found & Hf & Hg). apply map_err_Ok in Hf. apply result_bind_Ok in Hg as (ring' & Hr & Hg).
    destruct (proj1 (ring_loop_Ok ctx amount absolute ring')) as (recs & HF & ->); [by exists found|]. cbv zeta in Hg.
    rewrite length_map in Hg. match type of Hg with (if ?b then _ else _) = _ => destruct b eqn:Hc end; [done|]. apply count_rule in Hc as [Hc1 Hc2].
    injection Hg as <- <- <-. split; [done|]. exists absolute, recs. done.
  - intros (Hsp & absolute & recs & Ha & HF & Hc1 & Hc2 & Hv). exists image, (map public_key recs), (take (length recs) (default [] (signatures tx !! k))).
    split; [|done]. rewrite Hsp, Ha. cbn [map_err ok_or mbind result_bind]. destruct (proj2 (ring_loop_Ok ctx amount absolute (map public_key recs))) as (found & -> & Hr); [by exists recs|].
    cbn [map_err mbind result_bind]. rewrite Hr. cbn [mbind result_bind]. cbv zeta. rewrite length_map. rewrite (proj2 (count_rule ctx _ _)) by done. done.
Qed.

Lemma verify_loop_Ok tx ctx k ins w u w2 :
  verify_loop tx (cn_fast_hash (TransactionPrefix.to_bytes (prefix tx))) ctx k ins w = (Ok u, w2) ↔
  (∀ j i, ins !! j = Some i → ring_ok tx ctx (k + j) i) ∧ w2 = w.
Proof.
  revert k. induction ins as [|i ins IH]; intros k; cbn [verify_loop].
  - rewrite ret_Ok. destruct u. split; [intros [_ ->]; split; [done|done]|by intros [_ ->]].
  - split.
    + intros Hr. tx_inv. match goal with x : (_ * _ * _)%type |- _ => destruct x as [[image ring] sigs] end. tx_inv.
      match goal with H : verify_loop _ _ _ _ _ _ = _ |- _ => apply IH in H as [Hv ->] end. split; [|done].
      intros [|j] i' Hi; [injection Hi as <-; rewrite Nat.add_0_r; apply gather_ring_ok; eauto|].
      replace (k + S j)%nat with (S k + j)%nat by lia. by apply Hv.
    + intros [Hv ->]. pose proof (Hv 0%nat i eq_refl) as H0. rewrite Nat.add_0_r in H0. apply gather_ring_ok in H0 as (image & ring & sigs & Hg & Hs).
      tx_bind; [by apply lift_Ok|]. cbv beta iota. tx_bind; [by tx_ensure|]. apply IH. split; [|done].
      intros j i' Hi. replace (S k + j)%nat with (k + S j)%nat by lia. by apply Hv.
Qed.

End Loops.

(** * The theorems *)

Section Pieces.
Context `{C : Crypto}.

Lemma validate_fee_Ok tx blob si so h v :
  validate_fee tx blob si so h = Ok (v_fee v, v_is_fusion v) ↔ (si ≠ 0 ∧ so ≤ si ∧ v_fee v = si - so) ∧ fee_ok tx blob h v.
Proof.
  destruct v as [fee fusion]. unfold validate_fee, fee_ok. cbn [v_fee v_is_fusion].
  destruct (Z.eqb_spec si 0); [split; [done|tauto]|]. destruct (Z.ltb_spec si so); [split; [done|lia]|].
  destruct (is_fusion_transaction _ _ _).
  - destruct (is_valid_fusion_fee (si - so) h) eqn:E; cbn [negb]; split.
    + intros [= <- <-]. done.
    + by intros [(_ & _ & ->) [-> _]].
    + done.
    + intros [(_ & _ & ->) [-> ?]]. congruence.
  - destruct (is_valid_normal_fee (si - so) _ h) eqn:E; cbn [negb]; split.
    + intros [= <- <-]. done.
    + by intros [(_ & _ & ->) [-> _]].
    + done.
    + intros [(_ & _ & ->) [-> ?]]. congruence.
Qed.

Lemma validate_transaction_pow_Ok tx p fee fusion h :
  validate_transaction_pow tx p fee fusion h = Ok () ↔
  check_hash (cn_upx_hash p) (pow_difficulty tx fusion h) = true ∨ fee_escape fee fusion h = true.
Proof.
  unfold validate_transaction_pow. destruct (check_hash _ _), (fee_escape _ _ _); cbv beta iota zeta; split; auto; [done|]. by intros [?|?].
Qed.

Lemma validate_mixin_Ok tx h :
  validate_mixin tx h = Ok () ↔ validate_ring_sizes (map Z.of_nat (TransactionPrefix.ring_sizes (prefix tx))) h = Ok ().
Proof. unfold validate_mixin. apply map_err_Ok. Qed.

(** A step skipped when [b] is false. *)
Lemma when_Ok {E} (b : bool) (m : TxM E unit) (P : Prop) w w2 : (m w = (Ok (), w2) ↔ P ∧ w2 = w) →
  (if b then m else mret ()) w = (Ok (), w2) ↔ (b = true → P) ∧ w2 = w.
Proof. intros Hm. destruct b; [rewrite Hm; tauto|]. rewrite ret_Ok. split; [by intros [_ ->]|tauto]. Qed.

Lemma pow_step {F} (b : bool) (r : result TxRule unit) w w2 :
  (if b then rule (lift r) else mret () : TxM (TxError F) unit) w = (Ok (), w2) ↔ (b = true → r = Ok ()) ∧ w2 = w.
Proof. apply when_Ok. by rewrite rule_Ok, lift_Ok. Qed.

Lemma validate_inputs_inline tx st s w :
  validate_inputs tx 0 (mkWorld st None) = (Ok s, w) ↔
  inputs (prefix tx) ≠ [] ∧ Forall input_ok (inputs (prefix tx)) ∧ NoDup (key_images (inputs (prefix tx))) ∧
  (∀ i, i ∈ key_images (inputs (prefix tx)) → i ∉ st) ∧
  TransactionPrefix.sum_inputs (prefix tx) = Some s ∧ w = mkWorld (list_to_set (key_images (inputs (prefix tx))) ∪ st) None.
Proof.
  unfold validate_inputs, TransactionPrefix.sum_inputs. split.
  - intros Hr. tx_inv. bool_hyps. match goal with H : inputs_loop _ _ _ _ _ _ = _ |- _ => apply inputs_loop_inline in H as (? & ? & Hf & ? & ?) end.
    split_and!; [by destruct (inputs (prefix tx))|done|done|intros i Hi; by apply Hf|done|done].
  - intros (Hn & Hi & Hd & Hf & Hs & ->). tx_bind; [tx_ensure; by destruct (inputs (prefix tx))|].
    apply inputs_loop_inline. split_and!; [done|done| |done|done]. intros i Hin. split; [apply not_elem_of_empty|auto].
Qed.

End Pieces.

Section Theorems.
Context `{C : Crypto} `{A : ChainAccess F} `{!ChainAccessLaws A}.
#[local] Opaque check_hash cn_upx_hash cn_fast_hash.

Lemma expensive_step (b : bool) tx ctx w w2 :
  (if b then verify_loop tx (cn_fast_hash (TransactionPrefix.to_bytes (prefix tx))) ctx 0 (inputs (prefix tx)) else mret ()) w = (Ok (), w2) ↔
  (b = true → ∀ k i, inputs (prefix tx) !! k = Some i → ring_ok tx ctx k i) ∧ w2 = w.
Proof. apply when_Ok. by rewrite verify_loop_Ok. Qed.

Lemma early_exit_iff tx blob st ctx v w :
  validate_transaction_early_exit tx blob ctx (mkWorld st None) = (Ok v, w) ↔
  acceptable st tx blob ctx v ∧ w = mkWorld (list_to_set (key_images (inputs (prefix tx))) ∪ st) None.
Proof.
  unfold validate_transaction_early_exit, validate_outputs. cbv zeta. fold (in_zone ctx). split.
  - intros Hr. tx_inv. match goal with x : (Z * bool)%type |- _ => destruct x as [fee fusion] end. tx_inv.
    repeat match goal with u : () |- _ => destruct u end.
    repeat match goal with
    | H : validate_inputs _ _ _ = _ |- _ => apply validate_inputs_inline in H as (? & ? & ? & ? & ? & ->)
    | H : outputs_loop _ _ _ _ _ _ = _ |- _ => apply outputs_loop_inline in H as (? & ? & ->)
    | H : validate_fee _ _ _ _ _ = Ok (?fee, ?fusion) |- _ => apply (validate_fee_Ok _ _ _ _ _ (mkTxValidation fee fusion)) in H as [? ?]
    | H : validate_mixin _ _ = Ok () |- _ => apply validate_mixin_Ok in H
    | H : (if _ then rule _ else _) _ = (Ok (), _) |- _ => apply pow_step in H as [Hpow ->]
    | H : (if _ then _ else _) _ = (Ok (), _) |- _ => apply expensive_step in H as [Hring ->]
    end. bool_hyps. split; [|reflexivity]. split; repeat match goal with H : ?P |- ?P => exact H end.
    + eexists _, _. split_and!; [exact H12|exact H13|tauto..].
    + intros Hh Hz. apply validate_transaction_pow_Ok, Hpow. apply andb_true_iff. split; [by apply Z.leb_le|]. by rewrite orb_true_iff, negb_true_iff.
    + intros k i Hz. apply Hring. by rewrite Hz.
  - intros [[? ? ? ? ? ? (si & so & Hsi & Hso & Hb) ? ? ? ? ? Hpow Hring] ->].
    tx_bind; [tx_ensure; apply negb_true_iff; lia|]. tx_bind; [apply rule_Ok, validate_inputs_inline; split_and!; done|].
    tx_bind; [apply rule_Ok, outputs_loop_inline; split_and!; done|]. tx_bind; [apply rule_Ok, lift_Ok; split; [by apply validate_fee_Ok|done]|].
    cbv beta iota. do 4 (tx_bind; [apply rule_Ok, lift_Ok; split; [first [eassumption|by apply validate_mixin_Ok]|done]|]).
    tx_bind; [apply pow_step; split; [|done]|].
    { intros [Hh Hz]%andb_true_iff. apply validate_transaction_pow_Ok, Hpow; [lia|]. by rewrite orb_true_iff, negb_true_iff in Hz. }
    tx_bind; [apply expensive_step; split; [|done]|by destruct v].
    intros Hz%negb_true_iff k i. by apply Hring.
Qed.

Lemma with_threads_iff `{Sch : !Scheduler} tx blob st ctx threads v st' :
  validate_transaction_with_threads tx blob st ctx threads = (Ok v, st') ↔
  acceptable st tx blob ctx v ∧ st' = list_to_set (key_images (inputs (prefix tx))) ∪ st.
Proof.
  pose proof (with_threads_early_exit tx blob st ctx threads) as Hag.
  pose proof (early_exit_iff tx blob st ctx v (mkWorld (list_to_set (key_images (inputs (prefix tx))) ∪ st) None)) as Hiff.
  destruct (validate_transaction_with_threads tx blob st ctx threads) as [r s].
  destruct (validate_transaction_early_exit tx blob ctx (mkWorld st None)) as [r' w] eqn:E. destruct Hag as [-> Hs]. split.
  - intros [= -> ->]. specialize (Hs v eq_refl). apply early_exit_iff in E as [Ha ->]. done.
  - intros [Ha ->]. injection (proj2 Hiff (conj Ha eq_refl)) as -> ->. by rewrite (Hs v eq_refl).
Qed.

(** C18. The validator accepts a transaction exactly when every rule holds of it: sizes,
    inputs, outputs, balance and fee, extra, unlock time, ring sizes, proof of work
    and, outside the checkpoint zone, every ring. Its fee is inputs less outputs, and
    the key images it claims, all new and distinct, are added to the state. *)
Theorem transaction_rules `{Sch : !Scheduler} tx blob st ctx threads v st' :
  validate_transaction_with_threads tx blob st ctx threads = (Ok v, st') ↔
  acceptable st tx blob ctx v ∧ st' = list_to_set (key_images (inputs (prefix tx))) ∪ st.
Proof. apply with_threads_iff. Qed.

(** A transaction the pool admitted passes the cheap revalidation at the same height,
    median and timestamp, with the same fee: the revalidator's subset of the rules, in
    its own order, never drops what the full validator accepts. *)
Theorem revalidate_admitted `{Sch : !Scheduler} tx blob st ctx threads v st' : is_pool_transaction ctx = true →
  validate_transaction_with_threads tx blob st ctx threads = (Ok v, st') →
  revalidate_after_height_change tx blob (mkRevalidateContext (block_height ctx) (block_median_size ctx) (block_timestamp ctx)) = Ok v.
Proof.
  intros Hpool Hv. apply with_threads_iff in Hv as [[? ? ? ? ? ? (si & so & Hsi & Hso & Hb) ? Hx Hu ? ? Hpow _] _].
  unfold revalidate_after_height_change, validate_outputs. cbn [rc_block_height rc_block_median_size rc_block_timestamp]. cbv zeta.
  match goal with |- (?m ?w0).1 = _ => assert (∃ w, m w0 = (Ok v, w)) as [w ->]; [|reflexivity] end. eexists.
  tx_bind; [tx_ensure; apply negb_true_iff; lia|]. rewrite Hpool in Hx. tx_bind; [by apply lift_Ok|]. tx_bind; [apply lift_Ok; split; [by apply validate_mixin_Ok|done]|].
  tx_bind; [apply validate_inputs_inline; split_and!; try done; intros i _; apply not_elem_of_empty|].
  tx_bind; [by apply outputs_loop_inline|]. tx_bind; [by apply lift_Ok|]. tx_bind; [apply lift_Ok; split; [by apply validate_fee_Ok|done]|].
  cbv beta iota. tx_bind; [apply (when_Ok _ _ _ _ _ (lift_Ok _ _ () _)); split; [|reflexivity]|by apply ret_Ok; destruct v].
  intros [Hh _]%andb_true_iff. apply validate_transaction_pow_Ok, Hpow; [by apply Z.leb_le|by left].
Qed.

(** ** Blocks *)

Definition block_images (txs : list (Transaction * bytes)) : list Hash :=
  concat (map (λ t, key_images (inputs (prefix t.1))) txs).

Lemma acceptable_fresh st tx blob ctx v :
  acceptable st tx blob ctx v ↔ acceptable ∅ tx blob ctx v ∧ ∀ i, i ∈ key_images (inputs (prefix tx)) → i ∉ st.
Proof.
  split.
  - intros [? ? ? ? Hf ? ? ? ? ? ? ? ? ?]. split; [|exact Hf]. split; try assumption. intros i _. apply not_elem_of_empty.
  - intros [[? ? ? ? _ ? ? ? ? ? ? ? ? ?] Hf]. by split.
Qed.

Lemma sequential_block_Ok ctx hashes i fee st txs fee' st' :
  sequential_block ctx hashes i fee st txs = Ok (fee', st') ↔
  ∃ vs, Forall2 (λ t v, acceptable ∅ t.1 t.2 ctx v) txs vs ∧ NoDup (block_images txs) ∧
    (∀ i, i ∈ block_images txs → i ∉ st) ∧ st' = list_to_set (block_images txs) ∪ st ∧
    fee' = foldl (λ a v, saturating_add 64 a (v_fee v)) fee vs.
Proof.
  revert i fee st. induction txs as [|[tx blob] txs IH]; intros i fee st; cbn [sequential_block].
  - split.
    + intros [= <- <-]. exists []. split_and!; [by apply Forall2_nil|by apply NoDup_nil|by intros ? ?%elem_of_nil|cbn; by rewrite (left_id_L ∅ (∪))|done].
    + intros (vs & ->%Forall2_nil_inv_l & _ & _ & -> & ->). cbn. by rewrite (left_id_L ∅ (∪)).
  - assert (block_images ((tx, blob) :: txs) = key_images (inputs (prefix tx)) ++ block_images txs) as -> by done.
    setoid_rewrite NoDup_app. setoid_rewrite elem_of_app. rewrite list_to_set_app_L. split.
    + destruct (validate_transaction_early_exit tx blob ctx (mkWorld st None)) as [[v|e] w] eqn:E; [|done].
      apply early_exit_iff in E as [Ha ->]. apply acceptable_fresh in Ha as [Ha Hf].
      intros (vs & HF & Hn & Hd & -> & ->)%IH. exists (v :: vs). cbn [spent_key_images] in *. split_and!; [by constructor|apply Ha| |done| | |done].
      * intros x Hx Hx'. apply Hd in Hx'. apply Hx', elem_of_union_l. by apply elem_of_list_to_set.
      * intros x [Hx|Hx]; [auto|]. apply Hd in Hx. apply not_elem_of_union in Hx as [_ Hx]. done.
      * by rewrite (assoc_L (∪)), (comm_L (∪) (list_to_set (block_images txs))).
    + intros (vs & HF & (Hn1 & Hx & Hn2) & Hd & -> & ->). apply Forall2_cons_inv_l in HF as (v & vs' & Ha & HF & ->). cbn [fst snd] in Ha.
      assert (acceptable st tx blob ctx v) as Ha' by (apply acceptable_fresh; auto).
      rewrite (proj2 (early_exit_iff tx blob st ctx v _) (conj Ha' eq_refl)). apply IH. exists vs'. cbn [spent_key_images].
      split_and!; [done|done| |by rewrite (assoc_L (∪)), (comm_L (∪) (list_to_set (block_images txs)))|done].
      intros x Hin. rewrite not_elem_of_union, elem_of_list_to_set. split; [|auto]. intros Hin'. by apply (Hx x).
Qed.

Lemma foldl_saturating l a : Forall (λ v, 0 ≤ v_fee v) l → a < 2 ^ 64 →
  foldl (λ a v, saturating_add 64 a (v_fee v)) a l = Z.min (a + total (map v_fee l)) u64_max.
Proof.
  revert a. induction l as [|v l IH]; intros a Hl Ha; cbn [foldl map]; [cbn; lia|]. apply Forall_cons in Hl as [Hv Hl].
  rewrite IH by (done || (unfold saturating_add; lia)). unfold saturating_add.
  change (total (v_fee v :: map v_fee l)) with (v_fee v + total (map v_fee l)).
  assert (0 ≤ total (map v_fee l)) as Ht.
  { clear -Hl. induction Hl as [|x l Hx _ IH]; [done|]. simpl in *. lia. }
  lia.
Qed.

Lemma block_transactions_Ok `{Sch : !Scheduler} ctx threads hashes txs fee st :
  validate_block_transactions ctx threads hashes txs = Ok (fee, st) ↔
  NoDup (block_images txs) ∧ st = list_to_set (block_images txs) ∧
  ∃ vs, Forall2 (λ t v, acceptable ∅ t.1 t.2 ctx v) txs vs ∧ fee = Z.min (total (map v_fee vs)) u64_max.
Proof.
  unfold validate_block_transactions. rewrite block_loop_spec. cbn [BlockRingBatch.new checks first_bad]. rewrite sequential_block_Ok.
  assert (∀ vs, Forall2 (λ t v, acceptable ∅ t.1 t.2 ctx v) txs vs →
    foldl (λ a v, saturating_add 64 a (v_fee v)) 0 vs = Z.min (total (map v_fee vs)) u64_max) as Hfee.
  { intros vs HF. rewrite foldl_saturating; [done| |lia]. clear -HF. induction HF as [|t v txs vs Ha _ IH]; [constructor|].
    constructor; [|done]. destruct (ok_balance _ _ _ _ _ Ha) as (si & so & _ & _ & _ & Hle & ->). lia. }
  rewrite (right_id_L ∅ (∪)). split.
  - intros (vs & HF & Hn & _ & -> & ->). split_and!; [done|done|]. exists vs. split; [done|auto].
  - intros (Hn & -> & vs & HF & ->). exists vs. rewrite Hfee by done. split_and!; [done|done|intros ? _; apply not_elem_of_empty|done|done].
Qed.

(** A key image of an accepted block outside the checkpoint zone is not spent on the chain. *)
Lemma accepted_not_spent ctx txs vs : Forall2 (λ t v, acceptable ∅ t.1 t.2 ctx v) txs vs → in_zone ctx = false →
  ∀ i, i ∈ block_images txs → key_image_spent i (block_height ctx) = Ok false.
Proof.
  intros HF Hz i. induction HF as [|[tx blob] v txs vs Ha _ IH]; [by intros ?%elem_of_nil|].
  change (block_images ((tx, blob) :: txs)) with (key_images (inputs (prefix tx)) ++ block_images txs).
  intros [(x & Hx & Hk)%list_elem_of_omap|Hi]%elem_of_app; [|auto].
  apply list_elem_of_lookup in Hx as [k Hx]. pose proof (ok_rings _ _ _ _ _ Ha k x Hz Hx) as Hr.
  destruct x as [|amount offsets image]; [done|]. injection Hk as ->. by destruct Hr.
Qed.

(** The transactions of a block pass step 8 exactly when each of them is acceptable
    by itself and no key image is claimed twice in the whole block. The fees are
    their sum, up to saturation, and the claimed key images are those of the block. *)
Theorem block_no_double_spend `{Sch : !Scheduler} ctx threads hashes txs fee st :
  validate_block_transactions ctx threads hashes txs = Ok (fee, st) ↔
  NoDup (block_images txs) ∧ st = list_to_set (block_images txs) ∧
  ∃ vs, Forall2 (λ t v, acceptable ∅ t.1 t.2 ctx v) txs vs ∧ fee = Z.min (total (map v_fee vs)) u64_max.
Proof. apply block_transactions_Ok. Qed.

End Theorems.

(** * Witnesses *)

#[local] Instance toy_laws : ChainAccessLaws toy_chain.
Proof. done. Qed.

Lemma transaction_rules_witness :
  acceptable (C := toy_crypto) (A := toy_chain) ∅ toy_transaction (replicate 200 0) toy_context (mkTxValidation 500 false) ∧
  {[IDENTITY]} = list_to_set (key_images (inputs (prefix toy_transaction))) ∪ (∅ : gset Hash).
Proof.
  apply (transaction_rules (C := toy_crypto) (A := toy_chain) (Sch := sequential_scheduler (C := toy_crypto))
    toy_transaction (replicate 200 0) ∅ toy_context 4 (mkTxValidation 500 false)).
  vm_compute. reflexivity.
Defined.

Lemma block_no_double_spend_witness :
  NoDup (block_images [(toy_transaction, replicate 200 0)]) ∧
  {[IDENTITY]} = (list_to_set (block_images [(toy_transaction, replicate 200 0)]) : gset Hash) ∧
  ∃ vs, Forall2 (λ t v, acceptable (C := toy_crypto) (A := toy_chain) ∅ t.1 t.2 toy_context v) [(toy_transaction, replicate 200 0)] vs ∧
    500 = Z.min (total (map v_fee vs)) u64_max.
Proof.
  apply (block_no_double_spend (C := toy_crypto) (A := toy_chain) (Sch := sequential_scheduler (C := toy_crypto))
    toy_context 4 [] [(toy_transaction, replicate 200 0)] 500 {[IDENTITY]}).
  vm_compute. reflexivity.
Defined.

Lemma revalidate_admitted_witness :
  revalidate_after_height_change (C := toy_crypto) toy_transaction (replicate 200 0) (mkRevalidateContext 10 100_000 0) = Ok (mkTxValidation 500 false).
Proof.
  apply (revalidate_admitted (C := toy_crypto) (A := toy_chain) (Sch := sequential_scheduler (C := toy_crypto))
    toy_transaction (replicate 200 0) ∅ (mkTxContext 10 100_000 0 true Checkpoints.none) 4 (mkTxValidation 500 false) {[IDENTITY]}).
  - reflexivity.
  - vm_compute. reflexivity.
Defined.
