(* ===== verification/Numbering.v ===== *)
(** Consecutive numbers per key, as [push_block] hands out global output indexes per amount
    and entry numbers per payment id (crates/wrkz-chain/src/state.rs): the first item of a
    key takes the stored counter, each further one the next number. *)
From stdpp Require Import gmap.
From S2P Require Import Prelude.
Local Open Scope Z_scope.

Section Numbering.
Context {K : Type} `{Countable K}.
Implicit Types (base : K → Z) (counts : gmap K Z) (l : list K).

Definition current base counts (k : K) : Z := default (base k) (counts !! k).

Definition advance base counts (k : K) : gmap K Z := <[k := wrapping_add 32 (current base counts k) 1]> counts.

Fixpoint numbers base counts l : list Z :=
  match l with
  | [] => []
  | k :: l => current base counts k :: numbers base (advance base counts k) l
  end.

(** How often a key occurs. *)
Definition occurs (k : K) l : Z := Z.of_nat (length (filter (k =.) l)).

(** No counter passes 32 bits. *)
Definition fits base l : Prop := ∀ k, 0 ≤ base k ∧ base k + occurs k l < 2 ^ 32.

Lemma occurs_nil k : occurs k [] = 0.
Proof. done. Qed.

Lemma occurs_app k l l' : occurs k (l ++ l') = occurs k l + occurs k l'.
Proof. unfold occurs. rewrite filter_app, length_app. lia. Qed.

Lemma occurs_cons k k' l : occurs k (k' :: l) = (if decide (k = k') then 1 else 0) + occurs k l.
Proof. unfold occurs. rewrite filter_cons. case_decide; cbn [length]; lia. Qed.

Lemma occurs_nonneg k l : 0 ≤ occurs k l.
Proof. unfold occurs. lia. Qed.

Lemma occurs_pos k l : 0 < occurs k l ↔ k ∈ l.
Proof.
  induction l as [|k' l IH]; [rewrite occurs_nil; split; [lia|by intros ?%not_elem_of_nil]|].
  rewrite occurs_cons, elem_of_cons. pose proof (occurs_nonneg k l). case_decide; [split; [by left|lia]|].
  rewrite Z.add_0_l, IH. tauto.
Qed.

Lemma occurs_take_lt l i k : l !! i = Some k → occurs k (take i l) < occurs k l.
Proof.
  intros Hk. rewrite <- (take_drop i l) at 2. rewrite (drop_S l k i Hk), occurs_app, occurs_cons, decide_True by done.
  pose proof (occurs_nonneg k (drop (S i) l)). lia.
Qed.

Lemma occurs_le_length k l : occurs k l ≤ Z.of_nat (length l).
Proof. unfold occurs. pose proof (length_filter (k =.) l). lia. Qed.

(** Two items of one key have different numbers. *)
Lemma occurs_take_inj l i j k :
  l !! i = Some k → l !! j = Some k → occurs k (take i l) = occurs k (take j l) → i = j.
Proof.
  assert (∀ i j, (i < j)%nat → l !! i = Some k → occurs k (take i l) < occurs k (take j l)) as Hlt.
  { intros i' j' Hij Hk. replace (take i' l) with (take i' (take j' l)) by (rewrite take_take; f_equal; lia).
    apply occurs_take_lt. by rewrite lookup_take_lt. }
  intros Hi Hj Heq. destruct (Nat.lt_trichotomy i j) as [?|[?|?]]; [|done|].
  - pose proof (Hlt i j ltac:(done) Hi). lia.
  - pose proof (Hlt j i ltac:(done) Hj). lia.
Qed.

Lemma current_advance base counts k k' :
  current base (advance base counts k) k' =
  if decide (k' = k) then wrapping_add 32 (current base counts k) 1 else current base counts k'.
Proof.
  unfold advance, current. case_decide as Hk; [subst; by rewrite lookup_insert_eq|by rewrite lookup_insert_ne].
Qed.

Lemma fits_advance base counts k l :
  fits (current base counts) (k :: l) →
  fits (current base (advance base counts k)) l ∧
  current base (advance base counts k) k = current base counts k + 1.
Proof.
  intros Hf. pose proof (Hf k) as Hk. rewrite occurs_cons, decide_True in Hk by done. pose proof (occurs_nonneg k l).
  assert (wrapping_add 32 (current base counts k) 1 = current base counts k + 1) as Hw.
  { unfold wrapping_add. apply wrap_small. unfold in_u. lia. }
  split; [|by rewrite current_advance, decide_True].
  intros k'. rewrite current_advance. specialize (Hf k'). rewrite occurs_cons in Hf. case_decide; subst; lia.
Qed.

Lemma length_numbers base counts l : length (numbers base counts l) = length l.
Proof. revert counts. induction l as [|k l IH]; intros counts; cbn; [done|by rewrite IH]. Qed.

Lemma numbers_app base counts l l' :
  numbers base counts (l ++ l') = numbers base counts l ++ numbers base (foldl (advance base) counts l) l'.
Proof. revert counts. induction l as [|k l IH]; intros counts; cbn; [done|by rewrite IH]. Qed.

(** The number of an item: the counter plus the items of its key before it. *)
Lemma numbers_lookup base counts l i k :
  fits (current base counts) l → l !! i = Some k →
  numbers base counts l !! i = Some (current base counts k + occurs k (take i l)).
Proof.
  revert counts i. induction l as [|k' l IH]; intros counts i Hf; [done|]. destruct (fits_advance _ _ _ _ Hf) as [Hf' Hc].
  destruct i as [|i]; cbn [numbers take].
  - intros [= <-]. by rewrite occurs_nil, Z.add_0_r.
  - intros Hk. change (l !! i = Some k) in Hk. change (numbers base (advance base counts k') l !! i = Some (current base counts k + occurs k (k' :: take i l))).
    rewrite (IH _ _ Hf' Hk), occurs_cons, current_advance. f_equal. case_decide as He; [subst|lia].
    rewrite current_advance, decide_True in Hc by done. lia.
Qed.

(** The counters after a list: moved on by the occurrences. *)
Lemma current_foldl base counts l k :
  fits (current base counts) l → current base (foldl (advance base) counts l) k = current base counts k + occurs k l.
Proof.
  revert counts. induction l as [|k' l IH]; intros counts Hf; cbn [foldl]; [rewrite occurs_nil; lia|].
  destruct (fits_advance _ _ _ _ Hf) as [Hf' Hc]. rewrite (IH _ Hf'), occurs_cons.
  rewrite current_advance. case_decide as He; [subst|lia]. rewrite current_advance, decide_True in Hc by done. lia.
Qed.

Lemma foldl_advance_dom base counts l k :
  is_Some (foldl (advance base) counts l !! k) ↔ is_Some (counts !! k) ∨ k ∈ l.
Proof.
  revert counts. induction l as [|k' l IH]; intros counts; cbn [foldl]; [rewrite elem_of_nil; tauto|].
  rewrite IH, elem_of_cons. unfold advance. destruct (decide (k = k')) as [->|Hk].
  - rewrite lookup_insert_eq. split; [tauto|eauto].
  - rewrite lookup_insert_ne by done. tauto.
Qed.

(** The counter written for a key of the list, from no counter read before. *)
Lemma foldl_advance_lookup base l k n :
  fits base l → foldl (advance base) ∅ l !! k = Some n → k ∈ l ∧ n = base k + occurs k l.
Proof.
  intros Hf Hn. assert (∀ k, current base ∅ k = base k) as Hc by (intros; unfold current; by rewrite lookup_empty).
  split.
  - assert (is_Some (foldl (advance base) ∅ l !! k)) as [[? He]|?]%foldl_advance_dom by eauto; [done|done].
  - assert (fits (current base ∅) l) as Hf' by (intros k'; rewrite Hc; apply Hf).
    pose proof (current_foldl base ∅ l k Hf') as He. rewrite Hc in He. rewrite <- He. unfold current. by rewrite Hn.
Qed.

(** ** The least number of a key *)

Definition lower (lowest : gmap K Z) (r : K * Z) : gmap K Z :=
  <[r.1 := match lowest !! r.1 with Some e => Z.min e r.2 | None => r.2 end]> lowest.

Lemma lower_step lowest k k' n : lower lowest (k', n) !! k =
  if decide (k = k') then Some (match lowest !! k with Some e => Z.min e n | None => n end) else lowest !! k.
Proof. unfold lower. cbn. case_decide as Hk; [subst; by rewrite lookup_insert_eq|by rewrite lookup_insert_ne]. Qed.

Lemma lower_numbers base counts l lowest k :
  fits (current base counts) l → (∀ e, lowest !! k = Some e → e ≤ current base counts k) →
  foldl lower lowest (zip l (numbers base counts l)) !! k =
  match lowest !! k with Some e => Some e | None => if decide (k ∈ l) then Some (current base counts k) else None end.
Proof.
  revert counts lowest. induction l as [|k' l IH]; intros counts lowest Hf Hlow.
  { cbn [numbers zip_with foldl]. rewrite decide_False by apply not_elem_of_nil. by destruct (lowest !! k). }
  destruct (fits_advance _ _ _ _ Hf) as [Hf' Hc]. cbn [numbers zip_with foldl]. rewrite IH; [|exact Hf'|].
  - rewrite lower_step. destruct (decide (k = k')) as [<-|Hk].
    + destruct (lowest !! k) as [e|]; [f_equal; specialize (Hlow e eq_refl); lia|]. by rewrite decide_True by constructor.
    + rewrite current_advance, (decide_False (P := k = k')) by done. destruct (lowest !! k); [done|].
      destruct (decide (k ∈ l)); [rewrite decide_True by by constructor|rewrite decide_False by by intros [?|?]%elem_of_cons]; done.
  - intros e. rewrite lower_step, current_advance. destruct (decide (k = k')) as [<-|Hk]; [|apply Hlow].
    rewrite current_advance, decide_True in Hc by done. rewrite Hc. intros [= <-].
    destruct (lowest !! k) as [e'|] eqn:He; [specialize (Hlow e' eq_refl)|]; lia.
Qed.
End Numbering.
