(* ===== verification/ChainState.v ===== *)
(** The chain state (crates/wrkz-chain/src/state.rs) over a key-value store: its
    configuration, opening a database, the reads, the windows the rules look at, and the
    writes that apply a block and take it off again.

    A method that takes [&mut self] returns the new state beside its result, also when it
    fails. Timings and read counters are left out: nothing reads them back. The texts of
    [ChainError::Corrupt] keep what is wrong and not the numbers formatted into them. *)
From stdpp Require Import gmap sorting.
From S2P Require Import Prelude Constants Hashing Tx TxExtra Block Reward Difficulty Checkpoints Records Store Validate.
Local Open Scope Z_scope.

(** * Rules and errors (crates/wrkz-chain/src/lib.rs) *)

Inductive ChainRule : Type :=
| AlreadyExists
| RejectedAsOrphaned
| DeserializationFailed (what : string)
| CumulativeBlockSizeTooBig (size limit : Z)
| WrongVersion (expected got : Z)
| ParentBlockWrongVersion
| ParentBlockSizeTooBig
| TimestampTooFarInFuture (timestamp limit : Z)
| TimestampTooFarInPast (timestamp median : Z)
| CoinbaseInputWrongCount (n : nat)
| CoinbaseInputUnexpectedType
| BaseInputWrongBlockIndex (expected got : Z)
| CoinbaseWrongUnlockTime (expected got : Z)
| CoinbaseHasSignatures
| CoinbaseOutputZeroAmount
| CoinbaseOutputInvalidKey
| CoinbaseOutputsAmountOverflow
| DifficultyOverhead
| TransactionDuplicates
| TransactionInconsistency
| BlockRewardMismatch (expected got : Z)
| CheckpointBlockHashMismatch (expected got : Hash)
| ProofOfWorkTooWeak (difficulty : Z)
| TransactionFailed (hash : Hash) (index : nat) (rule : TxRule)
| ReorganisationUnavailable (at_index : Z)
| ReorganisationBelowBodyFloor (at_index floor : Z).

(** [ChainError]. The source's [Corrupt] holds a text: [CorruptState] keeps a shortened one,
    [CorruptRecord] the error of a record decoder whose text it would be. *)
Inductive ChainError : Type :=
| RuleError (r : ChainRule)
| StorageFault (e : StorageError)
| CorruptState (what : string)
| CorruptRecord (e : Corrupt).

Definition ChainError_rule (e : ChainError) : option ChainRule :=
  match e with RuleError r => Some r | _ => None end.

Definition fails {A} (r : ChainRule) : result ChainError A := Err (RuleError r).
Definition corrupt {A} (what : string) : result ChainError A := Err (CorruptState what).

(** The [?] on a store call and on a record decoder. *)
Definition stored {A} (r : result StorageError A) : result ChainError A := map_err StorageFault r.
Definition decoded {A} (r : result Corrupt A) : result ChainError A := map_err CorruptRecord r.

(** * Configuration *)

Definition MIN_PRUNE_DEPTH : Z := CRYPTONOTE_MAX_ALT_BLOCK_DEPTH + 1.
Definition SIMNET_DIFFICULTY : Z := 1.

Record Config := mkConfig {
  store_raw_blocks : bool;
  lite_start_height : Z;
  prune_depth : option Z;
  unwind_history : Z;
  recent_window : nat;
  validate_threads : nat;
  simnet : bool }.

Definition Config_default (default_threads : nat) : Config := mkConfig true 0 None 512 256 default_threads false.

Definition keeps_body (cfg : Config) (index tip : Z) : bool :=
  if negb (store_raw_blocks cfg) then false
  else if negb (lite_start_height cfg =? 0) && negb (index =? 0) && (index <? lite_start_height cfg) then false
  else match prune_depth cfg with
       | Some depth => negb (index + depth <=? tip)
       | None => true
       end.

Definition body_floor (cfg : Config) (tip : Z) : option Z :=
  if negb (store_raw_blocks cfg) then None
  else
    let prune_floor := match prune_depth cfg with Some d => saturating_sub (tip + 1) d | None => 0 end in
    Some (Z.max (lite_start_height cfg) (wrap 32 prune_floor)).

(** * State *)

Record AltBlock := mkAltBlock {
  ab_index : Z; ab_prev_hash : Hash; ab_info : BlockInfo; ab_block_blob : bytes; ab_tx_blobs : list bytes }.

Record UnwoundBlock := mkUnwoundBlock {
  ub_index : Z; ub_hash : Hash; ub_transaction_hashes : list Hash; ub_transactions : list bytes }.

Record PowHint := mkPowHint { ph_block_hash : Hash; ph_pow_hash : Hash }.

Record ChainView := mkView { fork_index : Z; branch : list BlockInfo }.

Definition main_chain (tip : Z) : ChainView := mkView tip [].
Definition with_branch (fork_index : Z) (branch : list BlockInfo) : ChainView := mkView fork_index branch.
Definition top_index (v : ChainView) : Z := fork_index v + Z.of_nat (length (branch v)).

Record ChainState (S : Type) := mkState {
  store : S;
  cfg : Config;
  cs_checkpoints : Checkpoints;
  tip : option Z;
  recent : list BlockInfo;
  cs_block_median_size : Z;
  alt_blocks : gmap Hash AltBlock;
  unwound : list UnwoundBlock;
  clock : option Z;
  pow_hint : option PowHint;
  strict_transaction_list : bool;
  transactions_floor : Z }.
Arguments mkState {_}. Arguments store {_}. Arguments cfg {_}. Arguments cs_checkpoints {_}. Arguments tip {_}.
Arguments recent {_}. Arguments cs_block_median_size {_}. Arguments alt_blocks {_}. Arguments unwound {_}.
Arguments clock {_}. Arguments pow_hint {_}. Arguments strict_transaction_list {_}. Arguments transactions_floor {_}.

Section Setters.
Context {S : Type}.
Implicit Types s : ChainState S.

Definition set_store s (v : S) := mkState v (cfg s) (cs_checkpoints s) (tip s) (recent s) (cs_block_median_size s) (alt_blocks s)
  (unwound s) (clock s) (pow_hint s) (strict_transaction_list s) (transactions_floor s).
Definition set_tip s v := mkState (store s) (cfg s) (cs_checkpoints s) v (recent s) (cs_block_median_size s) (alt_blocks s)
  (unwound s) (clock s) (pow_hint s) (strict_transaction_list s) (transactions_floor s).
Definition set_recent s v := mkState (store s) (cfg s) (cs_checkpoints s) (tip s) v (cs_block_median_size s) (alt_blocks s)
  (unwound s) (clock s) (pow_hint s) (strict_transaction_list s) (transactions_floor s).
Definition set_median s v := mkState (store s) (cfg s) (cs_checkpoints s) (tip s) (recent s) v (alt_blocks s)
  (unwound s) (clock s) (pow_hint s) (strict_transaction_list s) (transactions_floor s).
Definition set_alt_blocks s v := mkState (store s) (cfg s) (cs_checkpoints s) (tip s) (recent s) (cs_block_median_size s) v
  (unwound s) (clock s) (pow_hint s) (strict_transaction_list s) (transactions_floor s).
Definition set_unwound s v := mkState (store s) (cfg s) (cs_checkpoints s) (tip s) (recent s) (cs_block_median_size s) (alt_blocks s)
  v (clock s) (pow_hint s) (strict_transaction_list s) (transactions_floor s).
Definition set_pow_hint s v := mkState (store s) (cfg s) (cs_checkpoints s) (tip s) (recent s) (cs_block_median_size s) (alt_blocks s)
  (unwound s) (clock s) v (strict_transaction_list s) (transactions_floor s).
Definition set_floor s v := mkState (store s) (cfg s) (cs_checkpoints s) (tip s) (recent s) (cs_block_median_size s) (alt_blocks s)
  (unwound s) (clock s) (pow_hint s) (strict_transaction_list s) v.
End Setters.

(** The system clock, read where the state has no fixed one. *)
Class SystemClock := { system_now : Z }.

(** * Reads *)

Section Reads.
Context {S : Type} `{KvStore S}.
Implicit Types s : ChainState S.

Definition store_get s (key : bytes) : result ChainError (option bytes) := stored (get (store s) key).
Definition store_multi_get s (keys : list bytes) : result ChainError (list (option bytes)) := stored (multi_get (store s) keys).

(** A four-byte little-endian record. *)
Definition le32_record (what : string) (raw : option bytes) : result ChainError (option Z) :=
  match raw with
  | Some raw => if (length raw =? 4)%nat then Ok (Some (from_le_bytes raw)) else corrupt what
  | None => Ok None
  end.

Definition read_le32 s (what : string) (key : bytes) : result ChainError (option Z) :=
  raw ← store_get s key; le32_record what raw.

Definition tip_info s : option BlockInfo := last (recent s).

Definition block_info s (index : Z) : result ChainError (option BlockInfo) :=
  let cached :=
    match tip s with
    | Some tip =>
        if index <=? tip then
          let back := Z.to_nat (tip - index) in
          if (back <? length (recent s))%nat then recent s !! (length (recent s) - 1 - back)%nat else None
        else None
    | None => None
    end in
  match cached with
  | Some info => Ok (Some info)
  | None =>
      raw ← store_get s (keys.block_info index);
      match raw with
      | Some raw => Some <$> decoded (BlockInfo.decode raw)
      | None => Ok None
      end
  end.

Definition required_info (o : option BlockInfo) : result ChainError BlockInfo :=
  ok_or (CorruptState "block info is missing") o.

Definition block_index_by_hash s (hash : Hash) : result ChainError (option Z) :=
  read_le32 s "hash index record" (keys.hash_to_index hash).

Definition transaction_block_index s (hash : Hash) : result ChainError (option Z) :=
  read_le32 s "transaction index record" (keys.transaction_index hash).

Definition has_transaction s (hash : Hash) : result ChainError bool :=
  i ← transaction_block_index s hash; Ok (bool_decide (is_Some i)).

Definition transaction_block_indexes s (hashes : list Hash) : result ChainError (list (option Z)) :=
  raws ← store_multi_get s (map keys.transaction_index hashes);
  collect (le32_record "transaction index record") raws.

Definition block_transaction_hashes s (index : Z) : result ChainError (list Hash) :=
  raw ← store_get s (keys.block_tx_hashes index);
  match raw with Some raw => decoded (decode_hashes raw) | None => Ok [] end.

Definition raw_block s (index : Z) : result ChainError (option (bytes * list bytes)) :=
  if negb (keeps_body (cfg s) index (default index (tip s))) then Ok None
  else
    raw ← store_get s (keys.raw_block index);
    match raw with Some raw => Some <$> decoded (decode_raw_block raw) | None => Ok None end.

Definition key_image_spent_at s (image : Hash) : result ChainError (option Z) :=
  read_le32 s "key image record" (keys.key_image image).

Definition output_count_for_amount s (amount : Z) : result ChainError Z :=
  n ← read_le32 s "output count record" (keys.output_count amount); Ok (default 0 n).

Definition legacy_payment_id_list s (id : Hash) : result ChainError (list Hash) :=
  raw ← store_get s (keys.payment_id id);
  match raw with Some raw => decoded (decode_hashes raw) | None => Ok [] end.

Definition payment_id_entry_count s (id : Hash) : result ChainError Z :=
  n ← read_le32 s "payment-id count record" (keys.payment_id_count id); Ok (default 0 n).

Definition decode_payment_id_entry (raw : option bytes) : result ChainError Hash :=
  match raw with
  | Some raw => if (length raw =? 32)%nat then Ok raw else corrupt "payment-id entry"
  | None => corrupt "payment-id entry is missing"
  end.

Definition transaction_hashes_by_payment_id s (id : Hash) : result ChainError (list Hash) :=
  hashes ← legacy_payment_id_list s id;
  count ← payment_id_entry_count s id;
  if 0 <? count then
    raws ← store_multi_get s (map (λ n, keys.payment_id_entry id (Z.of_nat n)) (seq 0 (Z.to_nat count)));
    entries ← collect decode_payment_id_entry raws;
    Ok (hashes ++ entries)
  else Ok hashes.

Definition has_block s (hash : Hash) : result ChainError bool :=
  if bool_decide (is_Some (alt_blocks s !! hash)) then Ok true
  else i ← block_index_by_hash s hash; Ok (bool_decide (is_Some i)).

(** [impl ChainAccess for ChainState] *)

Definition chain_key_image_spent s (image : Hash) (block_index : Z) : result ChainError bool :=
  at_ ← key_image_spent_at s image;
  Ok match at_ with Some at_ => at_ <=? block_index | None => false end.

Definition output_record (raw : option bytes) : result ChainError (option OutputRecord) :=
  match raw with Some raw => Some <$> decoded (OutputRecord.decode raw) | None => Ok None end.

Definition chain_key_output s (amount global_index : Z) : result ChainError (option OutputRecord) :=
  if bool_decide (is_u32 global_index) then
    raw ← store_get s (keys.output amount global_index); output_record raw
  else Ok None.

(** The answers put back in order: an oversized index has none, the others take the next
    value read. *)
Fixpoint place_outputs (global_indexes : list Z) (found : list (option bytes)) : result ChainError (list (option OutputRecord)) :=
  match global_indexes with
  | [] => Ok []
  | gi :: gis =>
      if bool_decide (is_u32 gi) then
        o ← output_record (head found ≫= id);
        os ← place_outputs gis (tail found);
        Ok (o :: os)
      else os ← place_outputs gis found; Ok (None :: os)
  end.

Definition chain_key_outputs s (amount : Z) (global_indexes : list Z) : result ChainError (list (option OutputRecord)) :=
  found ← store_multi_get s (map (keys.output amount) (filter is_u32 global_indexes));
  place_outputs global_indexes found.

Definition chain_now `{SystemClock} s : Z := default system_now (clock s).

#[export] Instance chain_access `{SystemClock} s : ChainAccess ChainError := {
  key_image_spent := chain_key_image_spent s;
  key_output := chain_key_output s;
  key_outputs := chain_key_outputs s;
  top_block_timestamp := default 0 (bi_timestamp <$> tip_info s);
  now := chain_now s
}.

(** ** The outputs a block created *)

(** The binary search of [first_output_from_block]; the interval halves, so the number of
    bits of an index is enough fuel, and the loop has ended when it is spent. *)
Fixpoint first_output_loop s (fuel : nat) (amount index low high : Z) : result ChainError Z :=
  match fuel with
  | O => Ok low
  | Datatypes.S fuel =>
      if low <? high then
        let mid := low + (high - low) / 2 in
        record ← chain_key_output s amount mid;
        match record with
        | Some record =>
            if index <=? or_block_index record then first_output_loop s fuel amount index low mid
            else first_output_loop s fuel amount index (mid + 1) high
        | None => corrupt "no output record below its count"
        end
      else Ok low
  end.

Definition first_output_from_block s (amount index : Z) : result ChainError Z :=
  high ← output_count_for_amount s amount;
  first_output_loop s 33 amount index 0 high.

(** The outputs of one transaction: amount, transaction hash, position ([as u16]). *)
Definition tx_outputs (tx : Transaction) (hash : Hash) : list (Z * Hash * Z) :=
  imap (λ i o, (o_amount o, hash, wrap 16 (Z.of_nat i))) (outputs (prefix tx)).

Fixpoint body_outputs (tx_blobs : list bytes) (hashes : list Hash) : result ChainError (list (Z * Hash * Z)) :=
  match tx_blobs, hashes with
  | blob :: tx_blobs, hash :: hashes =>
      tx ← map_err (λ _, CorruptState "a transaction does not parse") (Transaction.from_bytes blob);
      rest ← body_outputs tx_blobs hashes;
      Ok (tx_outputs tx hash ++ rest)
  | _, _ => Ok []
  end.

(** The pairs rebuilt, each checked against its output record; [next] holds the next
    index of the amounts already met. *)
Fixpoint rebuild_refs s (index : Z) (next : gmap Z Z) (outs : list (Z * Hash * Z)) : result ChainError (list (Z * Z)) :=
  match outs with
  | [] => Ok []
  | (amount, tx_hash, output_index) :: outs =>
      global_index ← match next !! amount with
                     | Some g => Ok g
                     | None => first_output_from_block s amount index
                     end;
      record ← chain_key_output s amount global_index;
      if match record with
         | Some r => (or_block_index r =? index) && bool_decide (transaction_hash r = tx_hash) &&
                     (Records.output_index r =? output_index)
         | None => false
         end
      then
        refs ← rebuild_refs s index (<[amount := wrapping_add 32 global_index 1]> next) outs;
        Ok ((amount, global_index) :: refs)
      else corrupt "an output is not at the global index where the chain's order puts it"
  end.

Definition block_output_refs `{C : Crypto} s (index : Z) : result ChainError (option (list (Z * Z))) :=
  raw ← store_get s (keys.block_outputs index);
  match raw with
  | Some raw => Some <$> decoded (decode_output_refs raw)
  | None =>
      if match tip s with Some tip => tip <? index | None => true end then Ok None
      else
        raw ← store_get s (keys.raw_block index);
        match raw with
        | None => Ok None
        | Some raw =>
            '(block_blob, tx_blobs) ← decoded (decode_raw_block raw);
            block ← map_err (λ _, CorruptState "the block does not parse") (BlockTemplate.from_bytes block_blob);
            coinbase_hash ← map_err (λ _, CorruptState "the coinbase does not hash") (Transaction.hash (base_transaction block));
            outs ← body_outputs tx_blobs (transaction_hashes block);
            Some <$> rebuild_refs s index ∅ (tx_outputs (base_transaction block) coinbase_hash ++ outs)
        end
  end.

(** * Windows *)

Definition info_in_view s (view : ChainView) (index : Z) : result ChainError (option BlockInfo) :=
  if fork_index view <? index then Ok (branch view !! Z.to_nat (index - fork_index view - 1))
  else block_info s index.

(** The infos of [n] indexes from [from] up. *)
Definition view_infos s (view : ChainView) (from : Z) (n : nat) : result ChainError (list BlockInfo) :=
  collect (λ i, o ← info_in_view s view (from + Z.of_nat i); required_info o) (seq 0 n).

Definition last_infos s (view : ChainView) (count : nat) (index : Z) (use_genesis : bool) : result ChainError (list BlockInfo) :=
  let from := saturating_sub (index + 1) (Z.of_nat count) in
  let from := if negb use_genesis && (from =? 0) then 1 else from in
  if index <? from then Ok [] else view_infos s view from (Z.to_nat (index - from + 1)).

(** The first and last index of the range; it is empty when the first is above the last. *)
Definition difficulty_window_indexes (parent_index : Z) : Z * Z :=
  let next_version := block_major_version_for_index (parent_index + 1) in
  let count := Z.of_nat (difficulty_blocks_count next_version parent_index) in
  let from := saturating_sub (parent_index + 1) count in
  let from := if from =? 0 then 1 else from in
  (wrap 32 (Z.min from (parent_index + 1)), parent_index).

(** The outer option is a panic of the arithmetic below. *)
Definition difficulty_for_next_block_from (parent_index : Z) (window : list BlockInfo) : option (option Z) :=
  let next_version := block_major_version_for_index (parent_index + 1) in
  d ← next_difficulty next_version parent_index (map bi_timestamp window) (map cumulative_difficulty window);
  Some (d ≫= λ d, if is_valid_difficulty d then Some d else None).

Definition difficulty_for_next_block s (view : ChainView) (parent_index : Z) : option (result ChainError (option Z)) :=
  if simnet (cfg s) then Some (Ok (Some SIMNET_DIFFICULTY))
  else
    let '(from, last) := difficulty_window_indexes parent_index in
    match view_infos s view from (Z.to_nat (last - from + 1)) with
    | Err e => Some (Err e)
    | Ok window => Ok <$> difficulty_for_next_block_from parent_index window
    end.

Definition timestamp_median s (view : ChainView) (parent_index : Z) : result ChainError (option Z) :=
  let window := timestamp_check_window (parent_index + 1) in
  infos ← last_infos s view window parent_index true;
  Ok (if (length infos <? window)%nat then None else Some (median_value (map bi_timestamp infos))).

Definition reward_size_median s (view : ChainView) (parent_index : Z) : result ChainError Z :=
  infos ← last_infos s view CRYPTONOTE_REWARD_BLOCKS_WINDOW parent_index true;
  Ok (median_value (map block_size infos)).

Definition update_block_median_size s : result ChainError unit * ChainState S :=
  match tip s with
  | None => (Ok (), set_median s (full_reward_zone (block_major_version_for_index 0)))
  | Some tip =>
      match reward_size_median s (main_chain tip) tip with
      | Err e => (Err e, s)
      | Ok median => (Ok (), set_median s (Z.max median (full_reward_zone (block_major_version_for_index (tip + 1)))))
      end
  end.

(** What [reload_recent] has pushed before an error stays in the window. *)
Fixpoint reload_loop s (from : Z) (n : nat) : result ChainError unit * ChainState S :=
  match n with
  | O => (Ok (), s)
  | Datatypes.S n =>
      match (raw ← store_get s (keys.block_info from);
             raw ← ok_or (CorruptState "block info is missing") raw;
             decoded (BlockInfo.decode raw)) with
      | Err e => (Err e, s)
      | Ok info => reload_loop (set_recent s (recent s ++ [info])) (from + 1) n
      end
  end.

Definition reload_recent s : result ChainError unit * ChainState S :=
  let s := set_recent s [] in
  match tip s with
  | None => (Ok (), s)
  | Some tip =>
      let from := wrap 32 (saturating_sub (tip + 1) (Z.of_nat (recent_window (cfg s)))) in
      reload_loop s from (Z.to_nat (tip + 1 - from))
  end.
End Reads.

(** * Writes *)

Definition le32 (n : Z) : bytes := to_le_bytes 4 n.
Definition META_VERSION : bytes := ascii_bytes "version".
Definition META_TIP : bytes := ascii_bytes "tip".
Definition STATE_SCHEMA_VERSION : Z := 4.

Section Writes.
Context {S : Type} `{KvStore S} `{C : Crypto}.
Implicit Types s : ChainState S.

(** Sequencing of methods that return [Result<()>]. *)
Definition and_then (p : result ChainError unit * ChainState S) (f : ChainState S → result ChainError unit * ChainState S)
  : result ChainError unit * ChainState S :=
  match p with (Ok _, s) => f s | (Err e, s) => (Err e, s) end.

Definition store_write s (ops : list WriteOp) : result ChainError unit * ChainState S :=
  let '(r, st) := write_batch (store s) ops in (stored r, set_store s st).

(** ** Applying a block *)

(** The outputs of one transaction: the records written, the next index of each amount
    met in this block, and the pairs created. *)
Fixpoint push_outputs s (index : Z) (hash : Hash) (unlock_time : Z) (i : nat) (counts : gmap Z Z) (outs : list Output)
  : result ChainError (list WriteOp * gmap Z Z * list (Z * Z)) :=
  match outs with
  | [] => Ok ([], counts, [])
  | o :: outs =>
      next ← match counts !! o_amount o with Some n => Ok n | None => output_count_for_amount s (o_amount o) end;
      let record := mkOutputRecord (o_key o) unlock_time hash (wrap 16 (Z.of_nat i)) index in
      '(ops, counts, refs) ←
        push_outputs s index hash unlock_time (Datatypes.S i) (<[o_amount o := wrapping_add 32 next 1]> counts) outs;
      Ok ((keys.output (o_amount o) next, Some (OutputRecord.encode record)) :: ops, counts, (o_amount o, next) :: refs)
  end.

(** Transactions in block order. *)
Fixpoint push_all_outputs s (index : Z) (counts : gmap Z Z) (txs : list (Transaction * Hash))
  : result ChainError (list WriteOp * gmap Z Z * list (Z * Z)) :=
  match txs with
  | [] => Ok ([], counts, [])
  | (tx, hash) :: txs =>
      '(ops, counts, refs) ← push_outputs s index hash (unlock_time (prefix tx)) 0 counts (outputs (prefix tx));
      '(ops', counts, refs') ← push_all_outputs s index counts txs;
      Ok (ops ++ ops', counts, refs ++ refs')
  end.

Definition long_payment_id (tx : Transaction) : option Hash :=
  match w_payment_id (parse_extra_wallet (extra (prefix tx))) with
  | Some (Long id) => Some id
  | _ => None
  end.

Definition payment_refs (txs : list (Transaction * Hash)) : list (Hash * Hash) :=
  omap (λ p : Transaction * Hash, (λ id, (id, p.2)) <$> long_payment_id p.1) txs.

(** One entry per reference, numbered from the id's counter. *)
Fixpoint push_payment_ids s (counts : gmap Hash Z) (refs : list (Hash * Hash)) : result ChainError (list WriteOp * gmap Hash Z) :=
  match refs with
  | [] => Ok ([], counts)
  | (id, tx_hash) :: refs =>
      n ← match counts !! id with Some n => Ok n | None => payment_id_entry_count s id end;
      '(ops, counts) ← push_payment_ids s (<[id := wrapping_add 32 n 1]> counts) refs;
      Ok ((keys.payment_id_entry id n, Some tx_hash) :: ops, counts)
  end.

(** The iteration order of a [HashMap] is arbitrary; its keys are distinct, so the order
    of these writes changes nothing. *)
Definition count_ops (counts : gmap Z Z) : list WriteOp :=
  map (λ p : Z * Z, (keys.output_count p.1, Some (le32 p.2))) (map_to_list counts).

Definition payment_ops s (index : Z) (refs : list (Hash * Hash)) : result ChainError (list WriteOp) :=
  if bool_decide (refs = []) then Ok []
  else
    '(ops, counts) ← push_payment_ids s ∅ refs;
    Ok (ops ++ map (λ p : Hash * Z, (keys.payment_id_count p.1, Some (le32 p.2))) (map_to_list counts) ++
        [(keys.block_payment_ids index, Some (encode_payment_id_refs refs))]).

Definition image_ops (index : Z) (spent : gset Hash) : list WriteOp :=
  let images := merge_sort bytes_le (elements spent) in
  map (λ image, (keys.key_image image, Some (le32 index))) images ++
  (if bool_decide (images = []) then [] else [(keys.block_key_images index, Some (encode_hashes images))]).

Definition body_ops (cfg : Config) (index : Z) (block_blob : bytes) (tx_blobs : list bytes) : list WriteOp :=
  (if keeps_body cfg index index then [(keys.raw_block index, Some (encode_raw_block block_blob tx_blobs))] else []) ++
  match prune_depth cfg ≫= checked_sub index with Some victim => [(keys.raw_block victim, None)] | None => [] end ++
  (if unwind_history cfg <=? index then [(keys.block_outputs (index - unwind_history cfg), None)] else []).

Definition push_ops s (index : Z) (block : BlockTemplate) (block_blob : bytes) (tx_blobs : list bytes)
    (transactions : list Transaction) (info : BlockInfo) (spent : gset Hash) : result ChainError (list WriteOp) :=
  coinbase_hash ← map_err (λ _, RuleError (DeserializationFailed "coinbase hash")) (Transaction.hash (base_transaction block));
  let tx_hashes := coinbase_hash :: transaction_hashes block in
  let named := zip transactions (transaction_hashes block) in
  '(out_ops, counts, output_refs) ← push_all_outputs s index ∅ ((base_transaction block, coinbase_hash) :: named);
  pay_ops ← payment_ops s index (payment_refs named);
  Ok (out_ops ++ count_ops counts ++ image_ops index spent ++
      [(keys.block_info index, Some (BlockInfo.encode info));
       (keys.hash_to_index (block_hash info), Some (le32 index));
       (keys.block_tx_hashes index, Some (encode_hashes tx_hashes))] ++
      map (λ h, (keys.transaction_index h, Some (le32 index))) tx_hashes ++
      [(keys.block_outputs index, Some (encode_output_refs output_refs))] ++
      pay_ops ++ body_ops (cfg s) index block_blob tx_blobs ++
      [(keys.meta META_VERSION, Some (le32 STATE_SCHEMA_VERSION)); (keys.meta META_TIP, Some (le32 index))]).

Definition push_block s (index : Z) (block : BlockTemplate) (block_blob : bytes) (tx_blobs : list bytes)
    (transactions : list Transaction) (info : BlockInfo) (spent : gset Hash) : result ChainError unit * ChainState S :=
  match push_ops s index block block_blob tx_blobs transactions info spent with
  | Err e => (Err e, s)
  | Ok ops =>
      and_then (store_write s ops) (λ s,
        let recent := recent s ++ [info] in
        let s := set_recent (set_tip s (Some index)) (drop (length recent - recent_window (cfg s)) recent) in
        update_block_median_size s)
  end.

(** ** Taking a block off *)

Record UnwindScratch := mkScratch {
  lowest_output : gmap Z Z; entry_counts : gmap Hash Z; legacy : gmap Hash (list Hash) }.

Definition scratch_new : UnwindScratch := mkScratch ∅ ∅ ∅.

Definition finish (x : UnwindScratch) : list WriteOp :=
  map (λ p : Z * Z, (keys.output_count p.1, if p.2 =? 0 then None else Some (le32 p.2))) (map_to_list (lowest_output x)) ++
  map (λ p : Hash * Z, (keys.payment_id_count p.1, if 0 <? p.2 then Some (le32 p.2) else None)) (map_to_list (entry_counts x)) ++
  map (λ p : Hash * list Hash, (keys.payment_id p.1, match p.2 with [] => None | l => Some (encode_hashes l) end))
    (map_to_list (legacy x)).

(** The references in reverse order, entries before the legacy list. *)
Fixpoint unwind_payment_ids s (x : UnwindScratch) (refs : list (Hash * Hash)) : result ChainError (list WriteOp * UnwindScratch) :=
  match refs with
  | [] => Ok ([], x)
  | (id, tx_hash) :: refs =>
      count ← match entry_counts x !! id with Some n => Ok n | None => payment_id_entry_count s id end;
      if 0 <? count then
        let last := count - 1 in
        raw ← store_get s (keys.payment_id_entry id last);
        h ← decode_payment_id_entry raw;
        if bool_decide (h = tx_hash) then
          '(ops, x) ← unwind_payment_ids s (mkScratch (lowest_output x) (<[id := last]> (entry_counts x)) (legacy x)) refs;
          Ok ((keys.payment_id_entry id last, None) :: ops, x)
        else corrupt "payment-id index does not end with the entry that block added"
      else
        hashes ← match legacy x !! id with Some l => Ok l | None => legacy_payment_id_list s id end;
        if bool_decide (last hashes = Some tx_hash) then
          unwind_payment_ids s (mkScratch (lowest_output x) (entry_counts x) (<[id := removelast hashes]> (legacy x))) refs
        else corrupt "payment-id index does not end with the entry that block added"
  end.

Definition lower_output (lowest : gmap Z Z) (ref : Z * Z) : gmap Z Z :=
  <[ref.1 := match lowest !! ref.1 with Some e => Z.min e ref.2 | None => ref.2 end]> lowest.

Definition unwind_images s (index : Z) : result ChainError (list WriteOp) :=
  raw ← store_get s (keys.block_key_images index);
  match raw with
  | None => Ok []
  | Some raw =>
      images ← decoded (decode_hashes raw);
      Ok (map (λ image, (keys.key_image image, None)) images ++ [(keys.block_key_images index, None)])
  end.

Definition unwind_payments s (index : Z) (x : UnwindScratch) : result ChainError (list WriteOp * UnwindScratch) :=
  raw ← store_get s (keys.block_payment_ids index);
  match raw with
  | None => Ok ([], x)
  | Some raw =>
      refs ← decoded (decode_payment_id_refs raw);
      '(ops, x) ← unwind_payment_ids s x (reverse refs);
      Ok (ops ++ [(keys.block_payment_ids index, None)], x)
  end.

Definition unwind_ops s (index : Z) (x : UnwindScratch) : result ChainError (list WriteOp * UnwindScratch) :=
  o ← block_info s index;
  info ← required_info o;
  images ← unwind_images s index;
  '(payments, x) ← unwind_payments s index x;
  o ← block_output_refs s index;
  refs ← ok_or (RuleError (ReorganisationUnavailable index)) o;
  hashes ← block_transaction_hashes s index;
  Ok (images ++ payments ++ map (λ r : Z * Z, (keys.output r.1 r.2, None)) refs ++
      [(keys.block_outputs index, None); (keys.block_info index, None); (keys.hash_to_index (block_hash info), None)] ++
      map (λ h, (keys.transaction_index h, None)) hashes ++
      [(keys.block_tx_hashes index, None); (keys.raw_block index, None)],
      mkScratch (foldl lower_output (lowest_output x) refs) (entry_counts x) (legacy x)).

Definition reload s : result ChainError unit * ChainState S := and_then (reload_recent s) update_block_median_size.

Definition unwind_block s (index : Z) : result ChainError unit * ChainState S :=
  if negb (bool_decide (tip s = Some index)) then (corrupt "unwind of a block that is not the tip", s)
  else
    match unwind_ops s index scratch_new with
    | Err e => (Err e, s)
    | Ok (ops, x) =>
        let tip_op := if index =? 0 then (keys.meta META_TIP, None) else (keys.meta META_TIP, Some (le32 (index - 1))) in
        and_then (store_write s (ops ++ finish x ++ [tip_op])) (λ s, reload (set_tip s (checked_sub index 1)))
    end.
(** ** Rewinding *)

(** From the top down: [n] blocks, the highest at [index]. *)
Fixpoint unwind_many s (n : nat) (index : Z) (x : UnwindScratch) : result ChainError (list WriteOp * UnwindScratch) :=
  match n with
  | O => Ok ([], x)
  | Datatypes.S n =>
      '(ops, x) ← unwind_ops s index x;
      '(ops', x) ← unwind_many s n (index - 1) x;
      Ok (ops ++ ops', x)
  end.

Definition restore_one s (index : Z) : result ChainError (list WriteOp) :=
  raw ← store_get s (keys.block_outputs index);
  match raw with
  | Some _ => Ok []
  | None =>
      refs ← block_output_refs s index;
      Ok match refs with Some refs => [(keys.block_outputs index, Some (encode_output_refs refs))] | None => [] end
  end.

Definition restore_output_refs s (top_index old_tip : Z) : result ChainError (list WriteOp) :=
  let history := unwind_history (cfg s) in
  match checked_sub old_tip history with
  | None => Ok []
  | Some last_dropped =>
      let low := saturating_sub (top_index + 1) history in
      let high := Z.min top_index last_dropped in
      ops ← collect (λ i, restore_one s (low + Z.of_nat i)) (seq 0 (Z.to_nat (high + 1 - low)));
      Ok (concat ops)
  end.

Definition rewind_to s (top_index : Z) : result ChainError Z * ChainState S :=
  match tip s with
  | None => (Ok 0, s)
  | Some old_tip =>
      if old_tip <=? top_index then (Ok 0, s)
      else
        let lite := lite_start_height (cfg s) in
        if negb (lite =? 0) && (top_index + 1 <? lite) then (fails (ReorganisationBelowBodyFloor (top_index + 1) lite), s)
        else
          match ('(ops, x) ← unwind_many s (Z.to_nat (old_tip - top_index)) old_tip scratch_new;
                 restored ← restore_output_refs s top_index old_tip;
                 Ok (ops ++ finish x ++ restored ++ [(keys.meta META_TIP, Some (le32 top_index))])) with
          | Err e => (Err e, s)
          | Ok ops =>
              let '(r, s) := and_then (store_write s ops) (λ s,
                reload (set_unwound (set_alt_blocks (set_tip s (Some top_index)) ∅) [])) in
              ((λ _, old_tip - top_index) <$> r, s)
          end
  end.

(** ** Genesis *)

(** [None] is the panic of [genesis_block]. *)
Definition apply_genesis s : option (result ChainError unit * ChainState S) :=
  block ← genesis_block;
  Some
    match (blob ← map_err (λ _, CorruptState "genesis does not serialize") (BlockTemplate.to_bytes block);
           hash ← map_err (λ _, CorruptState "genesis has no hash") (BlockTemplate.hash block);
           coinbase ← map_err (λ _, CorruptState "genesis coinbase does not serialize") (Transaction.to_bytes (base_transaction block));
           miner_reward ← ok_or (CorruptState "genesis coinbase total overflows") (BlockTemplate.coinbase_output_total block);
           Ok (blob, mkBlockInfo hash (timestamp block) (wrap 32 (Z.of_nat (length coinbase))) 1 miner_reward 1)) with
    | Err e => (Err e, s)
    | Ok (blob, info) => push_block s 0 block blob [] [] info ∅
    end.

(** * Opening a database *)

Definition META_TAG : bytes := ascii_bytes "tag".
Definition META_LITE_HEIGHT : bytes := ascii_bytes "lite_height".
Definition META_NETWORK : bytes := ascii_bytes "network".
Definition META_PRUNE_DEPTH : bytes := ascii_bytes "prune_depth".
Definition NETWORK_SIMNET : bytes := ascii_bytes "simnet".
Definition TAG_LITE_SNAPSHOT : bytes := ascii_bytes "lite-snapshot".
Definition OLDEST_READABLE_SCHEMA_VERSION : Z := 3.

Definition store_put s (key value : bytes) : result ChainError unit * ChainState S := store_write s [(key, Some value)].

Definition recorded_lite_height s : result ChainError (option Z) := read_le32 s "lite height record" (keys.meta META_LITE_HEIGHT).

Definition settle_lite_height s : result ChainError unit * ChainState S :=
  match recorded_lite_height s with
  | Err e => (Err e, s)
  | Ok None =>
      if lite_start_height (cfg s) =? 0 then (Ok (), s)
      else match tip s with
           | None => store_put s (keys.meta META_LITE_HEIGHT) (le32 (lite_start_height (cfg s)))
           | Some _ => (corrupt "built as a full node, cannot be reopened as a lite node", s)
           end
  | Ok (Some r) =>
      if r =? lite_start_height (cfg s) then (Ok (), s)
      else (corrupt "created as a lite node with another height", s)
  end.

Definition settle_network s : result ChainError unit * ChainState S :=
  match store_get s (keys.meta META_NETWORK) with
  | Err e => (Err e, s)
  | Ok recorded =>
      if bool_decide (recorded = None ∨ recorded = Some NETWORK_SIMNET) then
        match bool_decide (recorded = Some NETWORK_SIMNET), simnet (cfg s) with
        | false, false | true, true => (Ok (), s)
        | false, true =>
            match tip s with
            | None => store_put s (keys.meta META_NETWORK) NETWORK_SIMNET
            | Some _ => (corrupt "holds a mainnet chain and cannot be opened as a simnet", s)
            end
        | true, false => (corrupt "belongs to a simnet and can never be opened as mainnet", s)
        end
      else (corrupt "records a network this build does not know", s)
  end.

(** The tag compared with [TAG_LITE_SNAPSHOT]; [is_utf8] is [String::from_utf8]. *)
Definition read_transactions_floor (is_utf8 : bytes → bool) s : result ChainError Z :=
  raw ← store_get s (keys.meta META_TAG);
  match raw with
  | None => Ok 0
  | Some tag =>
      if negb (is_utf8 tag) then corrupt "state tag is not UTF-8"
      else if bool_decide (tag = TAG_LITE_SNAPSHOT) then
        h ← recorded_lite_height s;
        ok_or (CorruptState "tagged as a lite snapshot import but records no lite height") h
      else Ok 0
  end.

Definition check_version (raw : option bytes) : result ChainError unit :=
  v ← le32_record "state version record" raw;
  match v with
  | Some v => if (OLDEST_READABLE_SCHEMA_VERSION <=? v) && (v <=? STATE_SCHEMA_VERSION) then Ok () else corrupt "state schema version"
  | None => Ok ()
  end.

Definition fresh_state (st : S) (cfg : Config) (checkpoints : Checkpoints) : ChainState S :=
  mkState st cfg checkpoints None [] 0 ∅ [] None None true 0.

(** [open]. The state is returned beside an error too: what was written stays written.
    [None] is the assertion on [recent_window]. *)
Definition open (is_utf8 : bytes → bool) (st : S) (cfg : Config) (checkpoints : Checkpoints)
  : option (result ChainError unit * ChainState S) :=
  if negb (CRYPTONOTE_REWARD_BLOCKS_WINDOW <=? recent_window cfg)%nat then None
  else
    let s := fresh_state st cfg checkpoints in
    Some
      (if match prune_depth cfg with Some depth => depth <? MIN_PRUNE_DEPTH | None => false end
       then (corrupt "prune depth is below what a reorganisation can need", s)
       else if unwind_history cfg <? MIN_PRUNE_DEPTH then (corrupt "unwind_history is below what a reorganisation can need", s)
       else
         match (raw ← store_get s (keys.meta META_VERSION);
                check_version raw;;
                read_le32 s "tip record" (keys.meta META_TIP)) with
         | Err e => (Err e, s)
         | Ok t =>
             and_then (settle_lite_height (set_tip s t)) (λ s,
             and_then (settle_network s) (λ s,
             match read_transactions_floor is_utf8 s with
             | Err e => (Err e, s)
             | Ok floor =>
                 and_then
                   (match prune_depth cfg with
                    | Some depth => store_put (set_floor s floor) (keys.meta META_PRUNE_DEPTH) (le32 depth)
                    | None => (Ok (), set_floor s floor)
                    end) reload
             end))
         end).

Definition open_or_genesis (is_utf8 : bytes → bool) (st : S) (cfg : Config) (checkpoints : Checkpoints)
  : option (result ChainError unit * ChainState S) :=
  p ← open is_utf8 st cfg checkpoints;
  match p with
  | (Ok _, s) => match tip s with None => apply_genesis s | Some _ => Some (Ok (), s) end
  | (Err e, s) => Some (Err e, s)
  end.
End Writes.
