(* ===== verification/ChainRecords.v ===== *)
(** What applying a block writes and taking it off removes (crates/wrkz-chain/src/state.rs,
    [push_block], [unwind_ops], [unwind_block]): unwinding the block just applied puts every
    record back as it was.

    The store is one that does not fail ([ReliableStore]); [records s] is the map it shows. *)
From stdpp Require Import gmap sorting.
From S2P Require Import Prelude Constants Hashing Tx TxExtra Block Reward Difficulty Checkpoints Records Store Validate.
From S2P Require Import Numbering ChainState.
Local Open Scope Z_scope.

(** * Records by tag *)

Definition tag_of (k : bytes) : option Z := k !! 1%nat.

Definition tagged (t : Z) (ops : list WriteOp) : Prop := Forall (λ op, tag_of op.1 = Some t) ops.

Definition with_tag (t : Z) (ops : list WriteOp) : list WriteOp := filter (λ op, tag_of op.1 = Some t) ops.

Lemma with_tag_app t a b : with_tag t (a ++ b) = with_tag t a ++ with_tag t b.
Proof. apply filter_app. Qed.

Lemma with_tag_all t ops : tagged t ops → with_tag t ops = ops.
Proof.
  induction 1 as [|op ops Hop _ IH]; [done|]. unfold with_tag in *. rewrite filter_cons, decide_True by done. f_equal. exact IH.
Qed.

Lemma with_tag_none t t' ops : tagged t' ops → t ≠ t' → with_tag t ops = [].
Proof.
  induction 1 as [|op ops Hop _ IH]; [done|]. intros Ht. unfold with_tag in *.
  rewrite filter_cons, decide_False by congruence. exact (IH Ht).
Qed.

Lemma apply_ops_with_tag t ops m k : tag_of k = Some t → apply_ops ops m !! k = apply_ops (with_tag t ops) m !! k.
Proof. intros Hk. rewrite (apply_ops_filter (λ k, tag_of k = Some t)) by done. reflexivity. Qed.

Lemma tagged_app t a b : tagged t (a ++ b) ↔ tagged t a ∧ tagged t b.
Proof. apply Forall_app. Qed.

Lemma tagged_map {A} t (f : A → WriteOp) l : (∀ a, tag_of (f a).1 = Some t) → tagged t (map f l).
Proof. intros Hf. apply Forall_forall. intros op (a & -> & _)%list_elem_of_fmap. apply Hf. Qed.

(** Writes put together from pieces of one tag each. *)
Fixpoint pick (t : Z) (segs : list (Z * list WriteOp)) : list WriteOp :=
  match segs with
  | [] => []
  | (t', ops) :: segs => if t =? t' then ops ++ pick t segs else pick t segs
  end.

Definition segments_ok (segs : list (Z * list WriteOp)) : Prop := Forall (λ p, tagged p.1 p.2) segs.

Lemma with_tag_segments t segs : segments_ok segs → with_tag t (concat segs.*2) = pick t segs.
Proof.
  induction 1 as [|[t' ops] segs Ht _ IH]; [done|]. cbn [fmap list_fmap snd concat pick]. rewrite with_tag_app.
  destruct (t =? t') eqn:E; bool_hyps.
  - subst. rewrite with_tag_all by done. by f_equal.
  - rewrite (with_tag_none t t') by done. exact IH.
Qed.

Lemma lookup_segments t segs m k : segments_ok segs → tag_of k = Some t →
  apply_ops (concat segs.*2) m !! k = apply_ops (pick t segs) m !! k.
Proof. intros Hs Hk. by rewrite (apply_ops_with_tag t) by done; rewrite with_tag_segments. Qed.

Lemma elem_of_segments k o segs : (k, o) ∈ concat segs.*2 ↔ ∃ p : Z * list WriteOp, p ∈ segs ∧ (k, o) ∈ p.2.
Proof.
  rewrite list_elem_of_In, in_concat. split.
  - intros (ops & Hops & Hk). apply list_elem_of_In, list_elem_of_fmap in Hops as (p & -> & Hp). exists p. split; [done|by apply list_elem_of_In].
  - intros (p & Hp & Hk). exists p.2. split; [|by apply list_elem_of_In]. apply list_elem_of_In. by apply list_elem_of_fmap_2.
Qed.

(** * Keys *)

Lemma output_count_inj a b : is_u64 a → is_u64 b → keys.output_count a = keys.output_count b → a = b.
Proof. intros Ha Hb Hk. by injection (key_bytes_inj (KOutputCount a) (KOutputCount b) Ha Hb Hk). Qed.

Lemma payment_count_inj a b : is_hash a → is_hash b → keys.payment_id_count a = keys.payment_id_count b → a = b.
Proof. intros Ha Hb Hk. by injection (key_bytes_inj (KPaymentIdCount a) (KPaymentIdCount b) Ha Hb Hk). Qed.

Lemma output_inj a n b n' : is_u64 a → is_u32 n → is_u64 b → is_u32 n' → keys.output a n = keys.output b n' → a = b ∧ n = n'.
Proof. intros Ha Hn Hb Hn' Hk. by injection (key_bytes_inj (KOutput a n) (KOutput b n') (conj Ha Hn) (conj Hb Hn') Hk). Qed.

Lemma entry_inj a n b n' : is_hash a → is_u32 n → is_hash b → is_u32 n' → keys.payment_id_entry a n = keys.payment_id_entry b n' → a = b ∧ n = n'.
Proof. intros Ha Hn Hb Hn' Hk. by injection (key_bytes_inj (KPaymentIdEntry a n) (KPaymentIdEntry b n') (conj Ha Hn) (conj Hb Hn') Hk). Qed.

(** The keys of a block's records name its index. *)
Lemma index_key_inj i j tag : is_u32 i → is_u32 j → keys.head tag ++ to_be_bytes 4 i = keys.head tag ++ to_be_bytes 4 j → i = j.
Proof. intros Hi Hj Hk%app_inv_head. by apply (to_be_bytes_inj 4) in Hk. Qed.

(** Two records of one kind at different indexes. *)
Ltac other_index :=
  match goal with
  | H : (?k, ?o) = (?k', ?o') |- _ => apply (f_equal fst) in H; change (k = k') in H; apply index_key_inj in H; [lia|done|done]
  end.

(** * Values *)

Lemma length_le32 n : length (le32 n) = 4%nat.
Proof. apply length_to_le_bytes. Qed.

Lemma from_le32 n : is_u32 n → from_le_bytes (le32 n) = n.
Proof. intros Hn. by apply from_to_le_bytes. Qed.

Lemma is_bytes_concat (l : list bytes) : Forall is_bytes l → is_bytes (concat l).
Proof. induction 1; cbn; [apply is_bytes_nil|by apply is_bytes_app]. Qed.

Lemma decode_encode_hashes hs : Forall is_hash hs → decode_hashes (encode_hashes hs) = Ok hs.
Proof.
  intros Hh. apply decode_hashes_iff; [|done]. apply is_bytes_concat. eapply Forall_impl; [exact Hh|]. by intros h [? _].
Qed.

Lemma decode_encode_output_refs refs :
  Forall wf_output_ref refs → decode_output_refs (encode_output_refs refs) = Ok refs.
Proof.
  intros Hr. apply decode_output_refs_iff; [|done]. apply is_bytes_concat, Forall_map, Forall_true.
  intros r. apply is_bytes_app; auto with bytes_db.
Qed.

Lemma decode_encode_payment_id_refs refs :
  Forall (λ r, is_hash r.1 ∧ is_hash r.2) refs → decode_payment_id_refs (encode_payment_id_refs refs) = Ok refs.
Proof.
  intros Hr. apply decode_payment_id_refs_iff; [|done]. apply is_bytes_concat, Forall_map. eapply Forall_impl; [exact Hr|].
  intros r [[? _] [? _]]. by apply is_bytes_app.
Qed.

(** A counter record: absent for zero. *)
Definition counter (m : gmap bytes bytes) (k : bytes) (n : Z) : Prop :=
  is_u32 n ∧ m !! k = if n =? 0 then None else Some (le32 n).

Definition count_of (m : gmap bytes bytes) (k : bytes) : Z := default 0 (from_le_bytes <$> m !! k).

Lemma counter_count m k n : counter m k n → count_of m k = n.
Proof.
  intros [Hn Hk]. unfold count_of. rewrite Hk. destruct (n =? 0) eqn:E; bool_hyps; [done|].
  change (from_le_bytes (le32 n) = n). by apply from_le32.
Qed.

Lemma apply_ops_none (l : list WriteOp) (m : gmap bytes bytes) k :
  m !! k = None → (∀ o, (k, o) ∈ l → o = None) → apply_ops l m !! k = None.
Proof.
  intros Hk Ho. destruct (decide (k ∈ l.*1)); [by apply apply_ops_det|by rewrite apply_ops_not_in].
Qed.

(** ** Counters moved on by a list of keys *)

Section Counters.
Context {K : Type} `{Countable K} (key : K → bytes) (wf : K → Prop).
Hypothesis key_inj : ∀ a b, wf a → wf b → key a = key b → a = b.
Variables (m : gmap bytes bytes) (l : list K).
Hypothesis l_wf : Forall wf l.

Definition stored_count (k : K) : Z := count_of m (key k).
Hypothesis l_fits : fits stored_count l.

Definition counter_ops : list WriteOp :=
  map (λ p : K * Z, (key p.1, Some (le32 p.2))) (map_to_list (foldl (advance stored_count) ∅ l)).

Lemma elem_of_counter_ops k o : (k, o) ∈ counter_ops ↔
  ∃ a, a ∈ l ∧ k = key a ∧ o = Some (le32 (stored_count a + occurs a l)).
Proof.
  unfold counter_ops. rewrite list_elem_of_fmap. split.
  - intros ([a n] & [= -> ->] & Ha%elem_of_map_to_list). cbn. apply foldl_advance_lookup in Ha as [Hin ->]; [|done]. by exists a.
  - intros (a & Ha & -> & ->). assert (is_Some (foldl (advance stored_count) ∅ l !! a)) as [n Hn] by (apply foldl_advance_dom; by right).
    exists (a, n). rewrite elem_of_map_to_list. split; [|done]. by apply foldl_advance_lookup in Hn as [_ ->].
Qed.

Lemma counter_written a : a ∈ l → apply_ops counter_ops m !! key a = Some (le32 (stored_count a + occurs a l)).
Proof.
  intros Ha. rewrite Forall_forall in l_wf. apply apply_ops_det.
  - apply list_elem_of_fmap. exists (key a, Some (le32 (stored_count a + occurs a l))). split; [done|]. apply elem_of_counter_ops. by exists a.
  - intros o (b & Hb & Hk & ->)%elem_of_counter_ops. apply key_inj in Hk as ->; auto.
Qed.

Lemma written_counter a : a ∈ l → counter (apply_ops counter_ops m) (key a) (stored_count a + occurs a l).
Proof.
  intros Ha. pose proof (l_fits a) as Hf. pose proof (proj2 (occurs_pos a l) Ha) as Hp. split; [unfold in_u; lia|].
  rewrite counter_written by done. destruct (_ =? 0) eqn:E; bool_hyps; [lia|done].
Qed.

Lemma counter_kept k : (∀ a, a ∈ l → k ≠ key a) → apply_ops counter_ops m !! k = m !! k.
Proof.
  intros Hk. apply apply_ops_not_in. intros ([k' o] & -> & (a & Ha & -> & _)%elem_of_counter_ops)%list_elem_of_fmap. by apply (Hk a).
Qed.

(** The new count of a well-formed key. *)
Lemma count_written a : wf a → count_of (apply_ops counter_ops m) (key a) = stored_count a + occurs a l.
Proof.
  intros Ha. destruct (decide (a ∈ l)) as [Hin|Hn].
  - by apply counter_count, written_counter.
  - assert (occurs a l = 0) as -> by (pose proof (occurs_pos a l); pose proof (occurs_nonneg a l); destruct (decide (0 < occurs a l)); [tauto|lia]).
    rewrite Z.add_0_r. unfold stored_count, count_of. rewrite counter_kept; [done|]. rewrite Forall_forall in l_wf.
    intros b Hb Hk. apply key_inj in Hk as ->; auto.
Qed.

(** Every counter stays well formed. *)
Lemma counters_written k : counter m k (count_of m k) → counter (apply_ops counter_ops m) k (count_of (apply_ops counter_ops m) k).
Proof.
  intros Hk. destruct (decide (k ∈ key <$> l)) as [(a & -> & Ha)%list_elem_of_fmap|Hn].
  - pose proof (written_counter a Ha) as Hw. by rewrite (counter_count _ _ _ Hw).
  - assert (apply_ops counter_ops m !! k = m !! k) as He.
    { apply counter_kept. intros a Ha ->. apply Hn. by apply list_elem_of_fmap_2. }
    unfold counter, count_of in *. by rewrite He.
Qed.
End Counters.

(** * Reads of a store that does not fail *)

Section Unwind.
Context {S : Type} `{ReliableStore S} `{C : Crypto}.
Implicit Types s : ChainState S.

Definition records s : gmap bytes bytes := contents (store s).

Lemma store_get_records s k : store_get s k = Ok (records s !! k).
Proof. unfold store_get. by rewrite get_reliable. Qed.

Lemma store_write_records s ops : ∃ st, store_write s ops = (Ok (), set_store s st) ∧ contents st = apply_ops ops (records s).
Proof.
  unfold store_write. destruct (write_reliable_contents (store s) ops) as (st & -> & Hst). by exists st.
Qed.

Lemma read_counter s what k n : counter (records s) k n → (o ← read_le32 s what k; Ok (default 0 o)) = Ok n.
Proof.
  intros [Hn Hk]. unfold read_le32. rewrite store_get_records, Hk. destruct (n =? 0) eqn:E; bool_hyps; [by subst|].
  cbn [mbind result_bind le32_record]. rewrite length_le32. cbn [Nat.eqb mbind result_bind]. by rewrite from_le32.
Qed.

Lemma output_count_counter s a n : counter (records s) (keys.output_count a) n → output_count_for_amount s a = Ok n.
Proof. apply read_counter. Qed.

Lemma payment_count_counter s id n : counter (records s) (keys.payment_id_count id) n → payment_id_entry_count s id = Ok n.
Proof. apply read_counter. Qed.

(** * Applying a block *)

Definition out_base s (a : Z) : Z := count_of (records s) (keys.output_count a).
Definition pay_base s (id : Hash) : Z := count_of (records s) (keys.payment_id_count id).

(** The counter records are well formed. *)
Record counters_ok s : Prop := {
  out_counter a : counter (records s) (keys.output_count a) (out_base s a);
  pay_counter id : counter (records s) (keys.payment_id_count id) (pay_base s id)
}.

Definition amounts_of (txs : list (Transaction * Hash)) : list Z := flat_map (λ p : Transaction * Hash, map o_amount (outputs (prefix p.1))) txs.

Fixpoint records_from (index : Z) (h : Hash) (unlock : Z) (i : nat) (outs : list Output) : list OutputRecord :=
  match outs with
  | [] => []
  | o :: outs => mkOutputRecord (o_key o) unlock h (wrap 16 (Z.of_nat i)) index :: records_from index h unlock (Datatypes.S i) outs
  end.

Definition records_of (index : Z) (txs : list (Transaction * Hash)) : list OutputRecord :=
  flat_map (λ p : Transaction * Hash, records_from index p.2 (unlock_time (prefix p.1)) 0 (outputs (prefix p.1))) txs.

Definition output_op (r : Z * Z) (o : OutputRecord) : WriteOp := (keys.output r.1 r.2, Some (OutputRecord.encode o)).

Lemma length_records_from index h unlock i outs : length (records_from index h unlock i outs) = length outs.
Proof. revert i. induction outs as [|o outs IH]; intros i; cbn; [done|by rewrite IH]. Qed.

(** The pairs a list of amounts is given. *)
Definition allot (base : Z → Z) (counts : gmap Z Z) (l : list Z) : list (Z * Z) := zip l (numbers base counts l).

Lemma length_allot base counts l : length (allot base counts l) = length l.
Proof. unfold allot. rewrite length_zip_with, length_numbers. lia. Qed.

Lemma allot_app base counts l l' :
  allot base counts (l ++ l') = allot base counts l ++ allot base (foldl (advance base) counts l) l'.
Proof. unfold allot. by rewrite numbers_app, zip_with_app by by rewrite length_numbers. Qed.

Lemma push_outputs_spec s index h unlock i counts outs : counters_ok s →
  push_outputs s index h unlock i counts outs =
  Ok (zip_with output_op (allot (out_base s) counts (map o_amount outs)) (records_from index h unlock i outs),
      foldl (advance (out_base s)) counts (map o_amount outs), allot (out_base s) counts (map o_amount outs)).
Proof.
  intros Hc. revert i counts. induction outs as [|o outs IH]; intros i counts; [done|].
  cbn [push_outputs map records_from foldl].
  assert (match counts !! o_amount o with Some n => Ok n | None => output_count_for_amount s (o_amount o) end =
    (Ok (current (out_base s) counts (o_amount o)) : result ChainError Z)) as ->.
  { unfold current. destruct (counts !! o_amount o); [done|]. apply output_count_counter, Hc. }
  cbn [mbind result_bind]. fold (advance (out_base s) counts (o_amount o)). by rewrite IH.
Qed.

Lemma push_all_outputs_spec s index counts txs : counters_ok s →
  push_all_outputs s index counts txs =
  Ok (zip_with output_op (allot (out_base s) counts (amounts_of txs)) (records_of index txs),
      foldl (advance (out_base s)) counts (amounts_of txs), allot (out_base s) counts (amounts_of txs)).
Proof.
  intros Hc. revert counts. induction txs as [|[tx h] txs IH]; intros counts; [done|].
  cbn [push_all_outputs amounts_of records_of flat_map fst snd]. rewrite push_outputs_spec by done. cbn [mbind result_bind].
  rewrite IH. cbn [mbind result_bind]. rewrite foldl_app, allot_app, zip_with_app; [done|].
  rewrite length_allot, length_map. by rewrite length_records_from.
Qed.

Definition entry_op (r : Hash * Hash) (n : Z) : WriteOp := (keys.payment_id_entry r.1 n, Some r.2).

Lemma push_payment_ids_spec s counts refs : counters_ok s →
  push_payment_ids s counts refs =
  Ok (zip_with entry_op refs (numbers (pay_base s) counts refs.*1), foldl (advance (pay_base s)) counts refs.*1).
Proof.
  intros Hc. revert counts. induction refs as [|[id h] refs IH]; intros counts; [done|].
  cbn [push_payment_ids fmap list_fmap fst numbers zip_with foldl].
  assert (match counts !! id with Some n => Ok n | None => payment_id_entry_count s id end =
    (Ok (current (pay_base s) counts id) : result ChainError Z)) as ->.
  { unfold current. destruct (counts !! id); [done|]. apply payment_count_counter, Hc. }
  cbn [mbind result_bind]. fold (advance (pay_base s) counts id). rewrite IH. done.
Qed.

(** * Coherent states *)

Definition info_at (m : gmap bytes bytes) (i : Z) : option BlockInfo :=
  raw ← m !! keys.block_info i;
  match BlockInfo.decode raw with Ok info => Some info | Err _ => None end.

(** The records a block has under its index. *)
Definition block_keys (i : Z) : list bytes :=
  [keys.block_info i; keys.block_tx_hashes i; keys.block_key_images i; keys.block_outputs i; keys.raw_block i; keys.block_payment_ids i].

Definition above_tip (t : option Z) (i : Z) : Prop := match t with Some t => t < i | None => True end.

#[export] Instance above_tip_dec t i : Decision (above_tip t i).
Proof. unfold above_tip. destruct t; apply _. Defined.

(** The indexes [from], [from + 1], ..., [n] of them. *)
Definition range (from : Z) (n : nat) : list Z := map (λ i, from + Z.of_nat i) (seq 0 n).

Definition window_start (w : nat) (t : Z) : Z := saturating_sub (t + 1) (Z.of_nat w).
Definition window (w : nat) (t : option Z) : list Z :=
  match t with Some t => range (window_start w t) (Z.to_nat (t + 1 - window_start w t)) | None => [] end.

(** The records of a chain whose top block is [t]: infos up to the tip and nothing of a
    block above it, counters well formed, no output or payment-id entry at or past its
    counter, and key images spent at or below the tip. *)
Record chain_map (m : gmap bytes bytes) (c : Config) (t : option Z) : Prop := {
  cm_tip : m !! keys.meta META_TIP = le32 <$> t;
  cm_u32 i : t = Some i → is_u32 i;
  cm_infos i : 0 ≤ i → ¬ above_tip t i →
    ∃ info, wf_block_info info ∧ m !! keys.block_info i = Some (BlockInfo.encode info);
  cm_above i k : is_u32 i → above_tip t i → k ∈ block_keys i → m !! k = None;
  cm_out_counter a : counter m (keys.output_count a) (count_of m (keys.output_count a));
  cm_pay_counter id : counter m (keys.payment_id_count id) (count_of m (keys.payment_id_count id));
  cm_outputs a n : is_u64 a → is_u32 n → count_of m (keys.output_count a) ≤ n → m !! keys.output a n = None;
  cm_entries id n : is_hash id → is_u32 n → count_of m (keys.payment_id_count id) ≤ n → m !! keys.payment_id_entry id n = None;
  cm_images i v : m !! keys.key_image i = Some v → ∃ b, v = le32 b ∧ is_u32 b ∧ ¬ above_tip t b;
  cm_window : (CRYPTONOTE_REWARD_BLOCKS_WINDOW ≤ recent_window c)%nat;
  cm_history : MIN_PRUNE_DEPTH ≤ unwind_history c;
  cm_prune d : prune_depth c = Some d → MIN_PRUNE_DEPTH ≤ d
}.

Definition recent_ok s : Prop := Some <$> recent s = info_at (records s) <$> window (recent_window (cfg s)) (tip s).

(** A coherent state: the records of a chain, the cached infos the last ones stored, the
    median the one the infos give. *)
Record chain_ok s : Prop := {
  ok_map : chain_map (records s) (cfg s) (tip s);
  ok_recent : recent_ok s;
  ok_median : update_block_median_size s = (Ok (), s)
}.

Lemma info_at_encode m i info : wf_block_info info → m !! keys.block_info i = Some (BlockInfo.encode info) → info_at m i = Some info.
Proof. intros Hw Hm. unfold info_at. rewrite Hm. cbn [mbind option_bind]. by rewrite block_info_decode_encode. Qed.

Lemma info_at_below m c t i : chain_map m c (Some t) → 0 ≤ i ≤ t → ∃ info, info_at m i = Some info.
Proof.
  intros Hm Hi. destruct (cm_infos _ _ _ Hm i ltac:(lia)) as (info & Hw & Hl); [cbn; lia|].
  exists info. by apply info_at_encode.
Qed.

Lemma range_S from n : range from (Datatypes.S n) = from :: range (from + 1) n.
Proof.
  unfold range. cbn [seq map]. f_equal; [lia|]. rewrite <- fmap_S_seq.
  change (Datatypes.S <$> seq 0 n) with (map Datatypes.S (seq 0 n)). rewrite map_map. apply map_ext. intros i. lia.
Qed.

Lemma range_lookup from n i : (i < n)%nat → range from n !! i = Some (from + Z.of_nat i).
Proof. intros Hi. unfold range. rewrite list_lookup_fmap, lookup_seq_lt by done. done. Qed.

Lemma length_range from n : length (range from n) = n.
Proof. unfold range. by rewrite length_map, length_seq. Qed.

Lemma range_snoc from n : range from (Datatypes.S n) = range from n ++ [from + Z.of_nat n].
Proof. unfold range. by rewrite seq_S, map_app. Qed.

Lemma drop_range from n k : (k ≤ n)%nat → drop k (range from n) = range (from + Z.of_nat k) (n - k).
Proof.
  revert from n. induction k as [|k IH]; intros from n Hk; [by rewrite Z.add_0_r, Nat.sub_0_r|].
  destruct n as [|n]; [lia|]. rewrite range_S. cbn [drop Nat.sub]. rewrite IH by lia. f_equal; lia.
Qed.

(** A stored info is read back. *)
Lemma stored_info s i : chain_map (records s) (cfg s) (tip s) → is_u32 i →
  (raw ← store_get s (keys.block_info i); match raw with Some raw => Some <$> decoded (BlockInfo.decode raw) | None => Ok None end) =
  Ok (info_at (records s) i).
Proof.
  intros Hm Hi. rewrite store_get_records. cbn [mbind result_bind]. destruct (decide (above_tip (tip s) i)) as [Ha|Ha].
  - unfold info_at. rewrite (cm_above _ _ _ Hm i) by (done || by left). done.
  - destruct (cm_infos _ _ _ Hm i) as (info & Hw & Hl); [unfold in_u in Hi; lia|done|].
    rewrite (info_at_encode _ _ _ Hw Hl), Hl, block_info_decode_encode by done. done.
Qed.

(** The cache answers what the store holds. *)
Lemma block_info_cache s i : chain_map (records s) (cfg s) (tip s) → recent_ok s → is_u32 i →
  block_info s i = Ok (info_at (records s) i).
Proof.
  intros Hm Hr Hi. unfold block_info.
  destruct (match tip s with Some tip => _ | None => None end) as [info|] eqn:Hc; [|by apply stored_info].
  destruct (tip s) as [t|] eqn:Ht; [|done]. destruct (i <=? t) eqn:Hit; [|done]. destruct (_ <? _)%nat eqn:Hb; [|done]. bool_hyps.
  unfold recent_ok in Hr. rewrite Ht in Hr. cbn [window] in Hr.
  pose proof (f_equal length Hr) as Hlen. rewrite !length_fmap, length_range in Hlen.
  pose proof (cm_u32 _ _ _ Hm t eq_refl) as Htu. unfold in_u in Hi, Htu.
  assert (0 ≤ window_start (recent_window (cfg s)) t ≤ t + 1) as Hw by (unfold window_start, saturating_sub; lia).
  set (j := (length (recent s) - 1 - Z.to_nat (t - i))%nat) in *.
  pose proof (f_equal (lookup j) Hr) as Hj. rewrite !list_lookup_fmap, Hc, range_lookup in Hj by lia. cbn in Hj.
  injection Hj as Hj. rewrite Hj. do 2 f_equal. lia.
Qed.

(** ** Reloading the window and the median *)

Lemma reload_loop_ok s from n : 0 ≤ from → (∀ i, i ∈ range from n → ∃ info, info_at (records s) i = Some info) →
  ∃ l, reload_loop s from n = (Ok (), set_recent s (recent s ++ l)) ∧ Some <$> l = info_at (records s) <$> range from n.
Proof.
  revert s from. induction n as [|n IH]; intros s from Hf Hi.
  { exists []. rewrite app_nil_r. by destruct s. }
  rewrite range_S in *. destruct (Hi from ltac:(constructor)) as [info Hinfo]. cbn [reload_loop]. rewrite store_get_records.
  cbn [mbind result_bind]. pose proof Hinfo as Hraw. unfold info_at in Hraw. destruct (records s !! keys.block_info from) as [raw|]; [|done].
  cbn [mbind option_bind ok_or result_bind] in *. destruct (BlockInfo.decode raw) as [info'|]; [|done]. injection Hraw as ->.
  cbn [decoded map_err]. destruct (IH (set_recent s (recent s ++ [info])) (from + 1) ltac:(lia)) as (l & Hl & Hr).
  { intros i Hin. apply Hi. by constructor. }
  exists (info :: l). rewrite Hl. split; [by cbn; rewrite <- app_assoc|]. rewrite !fmap_cons, Hinfo. f_equal. exact Hr.
Qed.

Lemma window_start_bounds w t : is_u32 t → 0 ≤ window_start w t ≤ t + 1 ∧ ((1 ≤ w)%nat → window_start w t ≤ t).
Proof. unfold window_start, saturating_sub, in_u. lia. Qed.

Lemma elem_of_range from n i : i ∈ range from n ↔ from ≤ i < from + Z.of_nat n.
Proof.
  unfold range. rewrite list_elem_of_fmap. split.
  - intros (j & -> & Hj%elem_of_seq). lia.
  - intros Hi. exists (Z.to_nat (i - from)). split; [lia|]. apply elem_of_seq. lia.
Qed.

Lemma window_infos m c t i : chain_map m c (Some t) → i ∈ window (recent_window c) (Some t) → ∃ info, info_at m i = Some info.
Proof.
  intros Hm. pose proof (cm_u32 _ _ _ Hm t eq_refl) as Ht. cbn [window]. rewrite elem_of_range. intros Hi.
  destruct (window_start_bounds (recent_window c) t Ht) as [Hw _]. apply (info_at_below m c t); [done|lia].
Qed.

Lemma reload_recent_ok s : chain_map (records s) (cfg s) (tip s) →
  ∃ l, reload_recent s = (Ok (), set_recent s l) ∧ recent_ok (set_recent s l).
Proof.
  intros Hm. unfold reload_recent, recent_ok. cbn [set_recent tip]. destruct (tip s) as [t|] eqn:Ht.
  - pose proof (cm_u32 _ _ _ Hm t eq_refl) as Htu. destruct (window_start_bounds (recent_window (cfg s)) t Htu) as [Hw Hw1].
    pose proof (cm_window _ _ _ Hm) as Hwin. unfold CRYPTONOTE_REWARD_BLOCKS_WINDOW in Hwin.
    change (saturating_sub (t + 1) (Z.of_nat (recent_window (cfg (set_recent s []))))) with (window_start (recent_window (cfg s)) t).
    rewrite wrap_small by (unfold in_u in *; lia).
    destruct (reload_loop_ok (set_recent s []) (window_start (recent_window (cfg s)) t) (Z.to_nat (t + 1 - window_start (recent_window (cfg s)) t)))
      as (l & -> & Hl); [lia| |].
    { intros i Hi. by apply (window_infos (records s) (cfg s) t). }
    exists l. split; [done|exact Hl].
  - by exists [].
Qed.

Lemma last_infos_ok s t n : tip s = Some t → chain_map (records s) (cfg s) (tip s) → recent_ok s →
  ∃ l, last_infos s (main_chain t) n t true = Ok l.
Proof.
  intros Ht Hm Hr. pose proof Hm as Hm'. rewrite Ht in Hm'. pose proof (cm_u32 _ _ _ Hm' t eq_refl) as Htu. unfold last_infos. cbn [negb andb].
  fold (window_start n t). destruct (window_start_bounds n t Htu) as [Hw _]. destruct (t <? window_start n t); [by eexists|].
  apply collect_total. intros i Hi%elem_of_seq. unfold info_in_view. cbn [main_chain fork_index].
  rewrite (proj2 (Z.ltb_ge t _)) by lia. rewrite block_info_cache by (done || (unfold in_u in *; lia)).
  destruct (info_at_below _ _ _ (window_start n t + Z.of_nat i) Hm') as [info Hinfo]; [lia|]. exists info. cbn [mbind result_bind].
  by rewrite Hinfo.
Qed.

Lemma update_median_ok s : chain_map (records s) (cfg s) (tip s) → recent_ok s →
  ∃ v, update_block_median_size s = (Ok (), set_median s v) ∧
    update_block_median_size (set_median s v) = (Ok (), set_median s v).
Proof.
  intros Hm Hr. unfold update_block_median_size. cbn [set_median tip]. destruct (tip s) as [t|] eqn:Ht; [|by eexists].
  destruct (last_infos_ok s t CRYPTONOTE_REWARD_BLOCKS_WINDOW Ht ltac:(by rewrite Ht) Hr) as [l Hl].
  assert (∀ v, reward_size_median (set_median s v) (main_chain t) t = reward_size_median s (main_chain t) t) as Hv by done.
  unfold reward_size_median in *. rewrite Hl in *. cbn [mbind result_bind] in *. eexists. split; [done|]. rewrite Hv. done.
Qed.

(** The median is a function of the infos stored. *)
Lemma median_unique s s' : chain_ok s → chain_ok s' → tip s = tip s' →
  (∀ i, is_u32 i → info_at (records s) i = info_at (records s') i) → cs_block_median_size s = cs_block_median_size s'.
Proof.
  intros [Hm Hr Hv] [Hm' Hr' Hv'] Ht Hi. apply (f_equal snd) in Hv, Hv'. cbn [snd] in Hv, Hv'. rewrite <- Hv, <- Hv'. clear Hv Hv'.
  unfold update_block_median_size. rewrite <- Ht. destruct (tip s) as [t|] eqn:Hts; [|done].
  assert (last_infos s (main_chain t) CRYPTONOTE_REWARD_BLOCKS_WINDOW t true = last_infos s' (main_chain t) CRYPTONOTE_REWARD_BLOCKS_WINDOW t true) as He.
  { unfold last_infos. cbn [negb andb]. fold (window_start CRYPTONOTE_REWARD_BLOCKS_WINDOW t). pose proof (cm_u32 _ _ _ Hm t eq_refl) as Htu.
    destruct (window_start_bounds CRYPTONOTE_REWARD_BLOCKS_WINDOW t Htu) as [Hw _]. destruct (_ <? _); [done|].
    apply collect_ext. intros i Hin%elem_of_seq. unfold info_in_view. destruct (_ <? _) eqn:E; [done|].
    assert (is_u32 (window_start CRYPTONOTE_REWARD_BLOCKS_WINDOW t + Z.of_nat i)) as Hu by (unfold in_u in *; lia).
    rewrite (block_info_cache s), (block_info_cache s'), Hi; first [done|by rewrite Hts]. }
  destruct (last_infos_ok s t CRYPTONOTE_REWARD_BLOCKS_WINDOW Hts ltac:(by rewrite Hts) Hr) as [l Hl].
  unfold reward_size_median. by rewrite <- He, Hl.
Qed.

(** A state is coherent once its window and median are reloaded. *)
Lemma reload_ok s : chain_map (records s) (cfg s) (tip s) →
  ∃ l v, reload s = (Ok (), set_median (set_recent s l) v) ∧ chain_ok (set_median (set_recent s l) v).
Proof.
  intros Hm. unfold reload, and_then. destruct (reload_recent_ok s Hm) as (l & -> & Hr).
  destruct (update_median_ok (set_recent s l)) as (v & Hv & Hv'); [done|done|]. exists l, v. split; [done|]. by split.
Qed.

Section Block.
Variables (s : ChainState S) (index : Z) (block : BlockTemplate) (block_blob : bytes) (tx_blobs : list bytes)
  (transactions : list Transaction) (info : BlockInfo) (spent : gset Hash) (coinbase_hash : Hash).

Definition named : list (Transaction * Hash) := zip transactions (transaction_hashes block).
Definition all_txs : list (Transaction * Hash) := (base_transaction block, coinbase_hash) :: named.
Definition all_hashes : list Hash := coinbase_hash :: transaction_hashes block.
Definition amounts : list Z := amounts_of all_txs.
Definition refs : list (Z * Z) := allot (out_base s) ∅ amounts.
Definition prefs : list (Hash * Hash) := payment_refs named.
Definition images : list Hash := merge_sort bytes_le (elements spent).

Definition new_counts : gmap Z Z := foldl (advance (out_base s)) ∅ amounts.
Definition new_entry_counts : gmap Hash Z := foldl (advance (pay_base s)) ∅ prefs.*1.

(** What applying the block writes, by tag. *)
Definition push_segments : list (Z * list WriteOp) :=
  [(TAG_OUTPUT, zip_with output_op refs (records_of index all_txs));
   (TAG_OUTPUT_COUNT, count_ops new_counts);
   (TAG_KEY_IMAGE, map (λ image, (keys.key_image image, Some (le32 index))) images);
   (TAG_BLOCK_KEY_IMAGES, if bool_decide (images = []) then [] else [(keys.block_key_images index, Some (encode_hashes images))]);
   (TAG_BLOCK_INFO, [(keys.block_info index, Some (BlockInfo.encode info))]);
   (TAG_HASH_TO_INDEX, [(keys.hash_to_index (block_hash info), Some (le32 index))]);
   (TAG_BLOCK_TX_HASHES, [(keys.block_tx_hashes index, Some (encode_hashes all_hashes))]);
   (TAG_TRANSACTION_INDEX, map (λ h, (keys.transaction_index h, Some (le32 index))) all_hashes);
   (TAG_BLOCK_OUTPUTS, [(keys.block_outputs index, Some (encode_output_refs refs))]);
   (TAG_PAYMENT_ID_ENTRY, zip_with entry_op prefs (numbers (pay_base s) ∅ prefs.*1));
   (TAG_PAYMENT_ID_COUNT, map (λ p : Hash * Z, (keys.payment_id_count p.1, Some (le32 p.2))) (map_to_list new_entry_counts));
   (TAG_BLOCK_PAYMENT_IDS, if bool_decide (prefs = []) then [] else [(keys.block_payment_ids index, Some (encode_payment_id_refs prefs))]);
   (TAG_RAW_BLOCK, if keeps_body (cfg s) index index then [(keys.raw_block index, Some (encode_raw_block block_blob tx_blobs))] else []);
   (TAG_RAW_BLOCK, match prune_depth (cfg s) ≫= checked_sub index with Some victim => [(keys.raw_block victim, None)] | None => [] end);
   (TAG_BLOCK_OUTPUTS, if unwind_history (cfg s) <=? index then [(keys.block_outputs (index - unwind_history (cfg s)), None)] else []);
   (TAG_META, [(keys.meta META_VERSION, Some (le32 STATE_SCHEMA_VERSION)); (keys.meta META_TIP, Some (le32 index))])].

Lemma tagged_zip_with {A B} t (f : A → B → WriteOp) (l : list A) (l' : list B) :
  (∀ a b, tag_of (f a b).1 = Some t) → tagged t (zip_with f l l').
Proof.
  intros Hf. revert l'. induction l as [|a l IH]; intros [|b l']; try constructor; [apply Hf|apply IH].
Qed.

Lemma push_segments_ok : segments_ok push_segments.
Proof.
  unfold segments_ok, push_segments. repeat (apply Forall_cons; split); [..|apply Forall_nil]; cbn [fst snd];
    try (by apply tagged_zip_with); try (by apply tagged_map); repeat case_match; repeat constructor.
Qed.

Lemma push_ops_spec : counters_ok s → Transaction.hash (base_transaction block) = Ok coinbase_hash →
  push_ops s index block block_blob tx_blobs transactions info spent = Ok (concat push_segments.*2).
Proof.
  intros Hc Hh. unfold push_ops. rewrite Hh. cbn [map_err mbind result_bind]. rewrite push_all_outputs_spec by done.
  cbn [mbind result_bind]. unfold payment_ops. fold named prefs.
  assert ((if bool_decide (prefs = []) then Ok [] else
    '(ops, counts) ← push_payment_ids s ∅ prefs;
    Ok (ops ++ map (λ p : Hash * Z, (keys.payment_id_count p.1, Some (le32 p.2))) (map_to_list counts) ++
        [(keys.block_payment_ids index, Some (encode_payment_id_refs prefs))])) =
    (Ok (zip_with entry_op prefs (numbers (pay_base s) ∅ prefs.*1) ++
      map (λ p : Hash * Z, (keys.payment_id_count p.1, Some (le32 p.2))) (map_to_list new_entry_counts) ++
      (if bool_decide (prefs = []) then [] else [(keys.block_payment_ids index, Some (encode_payment_id_refs prefs))]))
      : result ChainError (list WriteOp))) as ->.
  { case_bool_decide as Hp; [|by rewrite push_payment_ids_spec]. unfold new_entry_counts. rewrite Hp. cbn. by rewrite map_to_list_empty. }
  cbn [mbind result_bind]. f_equal. unfold push_segments, image_ops, body_ops. fold images.
  cbn [fmap list_fmap snd concat]. rewrite app_nil_r, <- !app_assoc. done.
Qed.

(** ** The records afterwards *)

Definition pushed : gmap bytes bytes := apply_ops (concat push_segments.*2) (records s).

Lemma lookup_pushed t k : tag_of k = Some t → pushed !! k = apply_ops (pick t push_segments) (records s) !! k.
Proof. apply lookup_segments, push_segments_ok. Qed.

(** What the block must not collide with, and the types of its parts. A block that passed
    validation on a chain with these records meets them, barring a hash collision. *)
Record block_fresh : Prop := {
  bf_coinbase : Transaction.hash (base_transaction block) = Ok coinbase_hash;
  bf_index : is_u32 index;
  bf_tip : tip s = checked_sub index 1;
  bf_info : wf_block_info info;
  bf_hash : records s !! keys.hash_to_index (block_hash info) = None;
  bf_hashes : Forall is_hash all_hashes;
  bf_txs h : h ∈ all_hashes → records s !! keys.transaction_index h = None;
  bf_images i : i ∈ spent → is_hash i ∧ records s !! keys.key_image i = None;
  bf_amounts : Forall is_u64 amounts;
  bf_amounts_fit : fits (out_base s) amounts;
  bf_payments : Forall (λ r, is_hash r.1 ∧ is_hash r.2) prefs;
  bf_payments_fit : fits (pay_base s) prefs.*1
}.

Context (Hf : block_fresh) (Hm : chain_map (records s) (cfg s) (tip s)).

Lemma map_counters_ok : counters_ok s.
Proof. split; [apply (cm_out_counter _ _ _ Hm)|apply (cm_pay_counter _ _ _ Hm)]. Qed.

Lemma above_index i : index ≤ i → above_tip (tip s) i.
Proof.
  rewrite (bf_tip Hf). destruct (checked_sub index 1) as [t|] eqn:E; [|done]. apply checked_sub_Some in E. cbn. lia.
Qed.

Lemma refs_lookup i r : refs !! i = Some r →
  amounts !! i = Some r.1 ∧ r.2 = out_base s r.1 + occurs r.1 (take i amounts).
Proof.
  unfold refs, allot. intros (a & n & -> & Ha & Hn)%lookup_zip_with_Some. split; [done|].
  rewrite (numbers_lookup _ _ _ _ a) in Hn; [|apply (bf_amounts_fit Hf)|done]. by injection Hn as <-.
Qed.

Lemma refs_bound r : r ∈ refs → wf_output_ref r ∧ r.1 ∈ amounts ∧ out_base s r.1 ≤ r.2 < out_base s r.1 + occurs r.1 amounts.
Proof.
  intros [i Hi]%list_elem_of_lookup. apply refs_lookup in Hi as [Ha Hn]. pose proof (occurs_take_lt _ _ _ Ha) as Ht.
  pose proof (occurs_nonneg r.1 (take i amounts)). pose proof (bf_amounts_fit Hf r.1) as Hb.
  assert (r.1 ∈ amounts) as Hin by by apply list_elem_of_lookup_2 in Ha. pose proof (bf_amounts Hf) as Hu. rewrite Forall_forall in Hu.
  split; [split; [by apply Hu|unfold in_u; lia]|]. split; [done|lia].
Qed.

Lemma elem_of_output_ops k o : (k, o) ∈ zip_with output_op refs (records_of index all_txs) → ∃ r, r ∈ refs ∧ k = keys.output r.1 r.2.
Proof.
  intros [i Hi]%list_elem_of_lookup. apply lookup_zip_with_Some in Hi as (r & x & [= -> ->] & Hr & _).
  exists r. split; [by apply list_elem_of_lookup_2 in Hr|done].
Qed.

Lemma entries_lookup i r : prefs !! i = Some r →
  numbers (pay_base s) ∅ prefs.*1 !! i = Some (pay_base s r.1 + occurs r.1 (take i prefs.*1)).
Proof.
  intros Hr. rewrite (numbers_lookup _ _ _ _ r.1); [done|apply (bf_payments_fit Hf)|]. by rewrite list_lookup_fmap, Hr.
Qed.

Lemma entry_bound i r : prefs !! i = Some r → is_hash r.1 ∧ is_hash r.2 ∧
  0 ≤ pay_base s r.1 + occurs r.1 (take i prefs.*1) < pay_base s r.1 + occurs r.1 prefs.*1 ∧
  pay_base s r.1 + occurs r.1 prefs.*1 < 2 ^ 32.
Proof.
  intros Hr. assert (prefs.*1 !! i = Some r.1) as Hr1 by by rewrite list_lookup_fmap, Hr.
  pose proof (occurs_take_lt _ _ _ Hr1). pose proof (occurs_nonneg r.1 (take i prefs.*1)). pose proof (bf_payments_fit Hf r.1).
  pose proof (bf_payments Hf) as Hp. rewrite Forall_forall in Hp. destruct (Hp r (list_elem_of_lookup_2 _ _ _ Hr)).
  split_and!; done || lia.
Qed.

Lemma elem_of_entry_ops k o : (k, o) ∈ zip_with entry_op prefs (numbers (pay_base s) ∅ prefs.*1) ↔
  ∃ i r, prefs !! i = Some r ∧ k = keys.payment_id_entry r.1 (pay_base s r.1 + occurs r.1 (take i prefs.*1)) ∧ o = Some r.2.
Proof.
  rewrite list_elem_of_lookup. split.
  - intros [i Hi]. apply lookup_zip_with_Some in Hi as (r & n & [= -> ->] & Hr & Hn). rewrite (entries_lookup _ _ Hr) in Hn.
    injection Hn as <-. by exists i, r.
  - intros (i & r & Hr & -> & ->). exists i. by rewrite lookup_zip_with, Hr, (entries_lookup _ _ Hr).
Qed.

(** *** Each kind of record *)

Lemma pushed_tip : pushed !! keys.meta META_TIP = Some (le32 index).
Proof. rewrite (lookup_pushed TAG_META) by done. apply lookup_insert_eq. Qed.

Lemma pushed_info i : pushed !! keys.block_info i =
  if decide (keys.block_info i = keys.block_info index) then Some (BlockInfo.encode info) else records s !! keys.block_info i.
Proof.
  rewrite (lookup_pushed TAG_BLOCK_INFO) by done. change (pick TAG_BLOCK_INFO push_segments) with [(keys.block_info index, Some (BlockInfo.encode info))].
  cbn [apply_ops]. case_decide as Hk; [rewrite Hk; apply lookup_insert_eq|by rewrite lookup_insert_ne].
Qed.

Lemma pushed_out_counter k : tag_of k = Some TAG_OUTPUT_COUNT →
  pushed !! k = apply_ops (counter_ops keys.output_count (records s) amounts) (records s) !! k.
Proof.
  intros Hk. rewrite (lookup_pushed TAG_OUTPUT_COUNT) by done.
  change (pick TAG_OUTPUT_COUNT push_segments) with (counter_ops keys.output_count (records s) amounts ++ []). by rewrite app_nil_r.
Qed.

Lemma pushed_pay_counter k : tag_of k = Some TAG_PAYMENT_ID_COUNT →
  pushed !! k = apply_ops (counter_ops keys.payment_id_count (records s) prefs.*1) (records s) !! k.
Proof.
  intros Hk. rewrite (lookup_pushed TAG_PAYMENT_ID_COUNT) by done.
  change (pick TAG_PAYMENT_ID_COUNT push_segments) with (counter_ops keys.payment_id_count (records s) prefs.*1 ++ []). by rewrite app_nil_r.
Qed.

Lemma prefs_ids : Forall is_hash prefs.*1.
Proof. apply Forall_fmap. eapply Forall_impl; [apply (bf_payments Hf)|]. by intros r [? _]. Qed.

Lemma pushed_out_count a : is_u64 a → count_of pushed (keys.output_count a) = out_base s a + occurs a amounts.
Proof.
  intros Ha. unfold count_of. rewrite pushed_out_counter by done.
  apply (count_written keys.output_count (in_u 64) output_count_inj (records s) amounts (bf_amounts Hf) (bf_amounts_fit Hf) a Ha).
Qed.

Lemma pushed_pay_count id : is_hash id → count_of pushed (keys.payment_id_count id) = pay_base s id + occurs id prefs.*1.
Proof.
  intros Hid. unfold count_of. rewrite pushed_pay_counter by done.
  apply (count_written keys.payment_id_count (is_array 32) payment_count_inj (records s) prefs.*1 prefs_ids (bf_payments_fit Hf) id Hid).
Qed.

Lemma pushed_output a n : is_u64 a → is_u32 n → out_base s a + occurs a amounts ≤ n → pushed !! keys.output a n = None.
Proof.
  intros Ha Hn Hle. rewrite (lookup_pushed TAG_OUTPUT) by done.
  change (pick TAG_OUTPUT push_segments) with (zip_with output_op refs (records_of index all_txs) ++ []). rewrite app_nil_r.
  pose proof (occurs_nonneg a amounts). apply apply_ops_none; [apply (cm_outputs _ _ _ Hm); [done|done|]; unfold out_base in Hle; lia|].
  intros o ([b n'] & Hr & Hk)%elem_of_output_ops. destruct (refs_bound _ Hr) as ([Hb Hn'] & _ & Hlt). cbn in *.
  apply output_inj in Hk as [-> ->]; [lia|done..].
Qed.

Lemma pushed_entry id n : is_hash id → is_u32 n → pay_base s id + occurs id prefs.*1 ≤ n → pushed !! keys.payment_id_entry id n = None.
Proof.
  intros Hid Hn Hle. rewrite (lookup_pushed TAG_PAYMENT_ID_ENTRY) by done.
  change (pick TAG_PAYMENT_ID_ENTRY push_segments) with (zip_with entry_op prefs (numbers (pay_base s) ∅ prefs.*1) ++ []). rewrite app_nil_r.
  pose proof (occurs_nonneg id prefs.*1). apply apply_ops_none; [apply (cm_entries _ _ _ Hm); [done|done|]; unfold pay_base in Hle; lia|].
  intros o (i & r & Hr & Hk & _)%elem_of_entry_ops. destruct (entry_bound _ _ Hr) as (Hr1 & _ & Hlt & Hmax).
  apply entry_inj in Hk as [-> ->]; [lia|done|done|done|]. unfold in_u. lia.
Qed.

(** Past the new block nothing is written. *)
Lemma pushed_above i k : is_u32 i → index < i → k ∈ block_keys i → pushed !! k = None.
Proof.
  intros Hi Hlt Hk. assert (records s !! k = None) as Hn by (apply (cm_above _ _ _ Hm i); [done|apply above_index; lia|done]).
  pose proof (bf_index Hf) as Hidx. unfold block_keys in Hk. rewrite !elem_of_cons in Hk.
  destruct Hk as [->|[->|[->|[->|[->|[->|[]%not_elem_of_nil]]]]]].
  - rewrite (lookup_pushed TAG_BLOCK_INFO) by done. apply apply_ops_none; [done|]. intros o [Hk|[]%not_elem_of_nil]%elem_of_cons.
    other_index.
  - rewrite (lookup_pushed TAG_BLOCK_TX_HASHES) by done. apply apply_ops_none; [done|]. intros o [Hk|[]%not_elem_of_nil]%elem_of_cons.
    other_index.
  - rewrite (lookup_pushed TAG_BLOCK_KEY_IMAGES) by done.
    change (pick TAG_BLOCK_KEY_IMAGES push_segments) with ((if bool_decide (images = []) then [] else [(keys.block_key_images index, Some (encode_hashes images))]) ++ []).
    rewrite app_nil_r. apply apply_ops_none; [done|]. case_bool_decide; [by intros o ?%not_elem_of_nil|].
    intros o Hk%list_elem_of_singleton. other_index.
  - rewrite (lookup_pushed TAG_BLOCK_OUTPUTS) by done.
    change (pick TAG_BLOCK_OUTPUTS push_segments) with ((keys.block_outputs index, Some (encode_output_refs refs)) :: (if unwind_history (cfg s) <=? index then [(keys.block_outputs (index - unwind_history (cfg s)), None)] else []) ++ []).
    rewrite app_nil_r. apply apply_ops_none; [done|]. intros o [Hk|Ho]%elem_of_cons; [other_index|].
    destruct (_ <=? _); [by apply list_elem_of_singleton, (f_equal snd) in Ho|by apply not_elem_of_nil in Ho].
  - rewrite (lookup_pushed TAG_RAW_BLOCK) by done.
    change (pick TAG_RAW_BLOCK push_segments) with ((if keeps_body (cfg s) index index then [(keys.raw_block index, Some (encode_raw_block block_blob tx_blobs))] else []) ++
      match prune_depth (cfg s) ≫= checked_sub index with Some victim => [(keys.raw_block victim, None)] | None => [] end ++ []).
    rewrite app_nil_r. apply apply_ops_none; [done|]. intros o [Ho|Ho]%elem_of_app.
    + destruct (keeps_body _ _ _); [|by apply not_elem_of_nil in Ho]. apply list_elem_of_singleton in Ho. other_index.
    + destruct (prune_depth _ ≫= _); [by apply list_elem_of_singleton, (f_equal snd) in Ho|by apply not_elem_of_nil in Ho].
  - rewrite (lookup_pushed TAG_BLOCK_PAYMENT_IDS) by done.
    change (pick TAG_BLOCK_PAYMENT_IDS push_segments) with ((if bool_decide (prefs = []) then [] else [(keys.block_payment_ids index, Some (encode_payment_id_refs prefs))]) ++ []).
    rewrite app_nil_r. apply apply_ops_none; [done|]. case_bool_decide; [by intros o ?%not_elem_of_nil|].
    intros o Hk%list_elem_of_singleton. other_index.
Qed.

Lemma pushed_image i : pushed !! keys.key_image i =
  if decide (keys.key_image i ∈ keys.key_image <$> images) then Some (le32 index) else records s !! keys.key_image i.
Proof.
  rewrite (lookup_pushed TAG_KEY_IMAGE) by done.
  change (pick TAG_KEY_IMAGE push_segments) with (map (λ image, (keys.key_image image, Some (le32 index))) images ++ []). rewrite app_nil_r.
  assert ((map (λ image, (keys.key_image image, Some (le32 index))) images).*1 = keys.key_image <$> images) as Hk by (by rewrite <- list_fmap_compose).
  case_decide as Hi; [|by rewrite apply_ops_not_in by by rewrite Hk]. apply apply_ops_det; [by rewrite Hk|].
  by intros o (j & [= _ ->] & _)%list_elem_of_fmap.
Qed.

Lemma push_chain_map : chain_map pushed (cfg s) (Some index).
Proof.
  pose proof (bf_index Hf) as Hidx. split.
  - apply pushed_tip.
  - by intros i [= <-].
  - intros i Hi Ha. cbn in Ha. rewrite pushed_info. case_decide as Hk; [exists info; split; [apply (bf_info Hf)|done]|].
    apply (cm_infos _ _ _ Hm); [done|]. rewrite (bf_tip Hf). destruct (checked_sub index 1) as [t|] eqn:E.
    + apply checked_sub_Some in E as [_ ->]. cbn. intros ?. destruct Hk. do 2 f_equal. lia.
    + exfalso. apply Hk. do 2 f_equal. unfold checked_sub in E. destruct (1 <=? index) eqn:E'; [done|]. bool_hyps. unfold in_u in Hidx. lia.
  - intros i k Hi Ha. cbn in Ha. by apply pushed_above.
  - intros a. unfold counter, count_of. rewrite pushed_out_counter by done.
    apply (counters_written keys.output_count (in_u 64) output_count_inj _ _ (bf_amounts Hf) (bf_amounts_fit Hf)), (cm_out_counter _ _ _ Hm).
  - intros id. unfold counter, count_of. rewrite pushed_pay_counter by done.
    apply (counters_written keys.payment_id_count (is_array 32) payment_count_inj _ _ prefs_ids (bf_payments_fit Hf)), (cm_pay_counter _ _ _ Hm).
  - intros a n Ha Hn. rewrite pushed_out_count by done. by apply pushed_output.
  - intros id n Hid Hn. rewrite pushed_pay_count by done. by apply pushed_entry.
  - intros i v. rewrite pushed_image. case_decide; [intros [= <-]; exists index; split_and!; [done|done|cbn; lia]|].
    intros (b & -> & Hb & Ha)%(cm_images _ _ _ Hm). exists b. split_and!; [done|done|]. cbn. intros ?. apply Ha, above_index. lia.
  - apply (cm_window _ _ _ Hm).
  - apply (cm_history _ _ _ Hm).
  - apply (cm_prune _ _ _ Hm).
Qed.

(** ** The window afterwards *)

Lemma pushed_info_at i : is_u32 i → info_at pushed i = if decide (i = index) then Some info else info_at (records s) i.
Proof.
  intros Hi. pose proof (bf_index Hf) as Hidx. case_decide as Hk.
  - subst i. apply info_at_encode; [apply (bf_info Hf)|]. by rewrite pushed_info, decide_True.
  - unfold info_at. rewrite pushed_info, decide_False; [done|]. intros He. by apply index_key_inj in He.
Qed.

(** Adding an index moves the window on by one. *)
Lemma window_next w : (1 ≤ w)%nat →
  window w (Some index) = drop (length (window w (tip s)) + 1 - w) (window w (tip s) ++ [index]).
Proof.
  intros Hw. pose proof (bf_index Hf) as Hidx. rewrite (bf_tip Hf). unfold in_u in Hidx. unfold checked_sub. destruct (1 <=? index) eqn:E; bool_hyps.
  - cbn [window]. unfold window_start, saturating_sub. rewrite length_range.
    set (n := Z.to_nat (index - 1 + 1 - Z.max (index - 1 + 1 - Z.of_nat w) 0)).
    replace [index] with [Z.max (index - 1 + 1 - Z.of_nat w) 0 + Z.of_nat n] by (f_equal; lia).
    rewrite <- range_snoc, drop_range by lia. f_equal; lia.
  - assert (index = 0) as -> by lia. cbn [window length app]. unfold window_start, saturating_sub.
    replace (0 + 1 - w)%nat with 0%nat by lia. replace (Z.to_nat (0 + 1 - Z.max (0 + 1 - Z.of_nat w) 0)) with 1%nat by lia.
    replace (Z.max (0 + 1 - Z.of_nat w) 0) with 0 by lia. done.
Qed.

Lemma window_below w i : i ∈ window w (tip s) → 0 ≤ i < index.
Proof.
  pose proof (bf_index Hf) as Hidx. rewrite (bf_tip Hf). unfold in_u in Hidx. unfold checked_sub. destruct (1 <=? index) eqn:E; bool_hyps; [|by intros ?%not_elem_of_nil].
  cbn [window]. rewrite elem_of_range. unfold window_start, saturating_sub. lia.
Qed.

Lemma push_recent : recent_ok s →
  Some <$> drop (length (recent s ++ [info]) - recent_window (cfg s)) (recent s ++ [info]) =
  info_at pushed <$> window (recent_window (cfg s)) (Some index).
Proof.
  intros Hr. pose proof (cm_window _ _ _ Hm) as Hw. unfold CRYPTONOTE_REWARD_BLOCKS_WINDOW in Hw. pose proof (bf_index Hf) as Hidx.
  assert (info_at pushed <$> window (recent_window (cfg s)) (tip s) = Some <$> recent s) as Hold.
  { rewrite Hr. apply list_fmap_ext. intros j i Hi%list_elem_of_lookup_2%window_below. unfold in_u in Hidx.
    rewrite pushed_info_at, decide_False by (unfold in_u; lia). done. }
  pose proof (f_equal length Hold) as Hlen. rewrite !length_fmap in Hlen.
  rewrite (window_next (recent_window (cfg s))) by lia. rewrite !fmap_drop, !fmap_app, Hold, length_app. cbn [length].
  rewrite Hlen. do 2 f_equal. cbn [fmap list_fmap]. by rewrite pushed_info_at, decide_True.
Qed.

Definition after_push : result ChainError unit * ChainState S := push_block s index block block_blob tx_blobs transactions info spent.

(** Applying a fresh block succeeds and leaves a coherent state. *)
Lemma push_block_coherent : recent_ok s → ∃ st v,
  after_push = (Ok (), set_median (set_recent (set_tip (set_store s st) (Some index))
    (drop (length (recent s ++ [info]) - recent_window (cfg s)) (recent s ++ [info]))) v) ∧
  contents st = pushed ∧ chain_ok after_push.2.
Proof.
  intros Hr. unfold after_push, push_block. rewrite push_ops_spec by (apply map_counters_ok || apply (bf_coinbase Hf)).
  destruct (store_write_records s (concat push_segments.*2)) as (st & Hst & Hc). rewrite Hst. unfold and_then.
  set (s1 := set_recent _ _). assert (records s1 = pushed) as Hrec by done.
  assert (chain_map (records s1) (cfg s1) (tip s1)) as Hm1 by (rewrite Hrec; apply push_chain_map).
  assert (recent_ok s1) as Hr1 by (unfold recent_ok; rewrite Hrec; by apply push_recent).
  destruct (update_median_ok s1 Hm1 Hr1) as (v & Hv & Hv'). rewrite Hv. exists st, v. split_and!; [done|done|]. by split.
Qed.

(** ** Unwinding it *)

Section After.
Variables (s1 : ChainState S) (Hs1 : records s1 = pushed).

Lemma images_spec i : i ∈ images ↔ i ∈ spent.
Proof. unfold images. rewrite merge_sort_Permutation. apply elem_of_elements. Qed.

Lemma images_hashes : Forall is_hash images.
Proof. apply Forall_forall. intros i Hi%images_spec. by apply (bf_images Hf). Qed.

Definition unwound_images : list WriteOp :=
  if bool_decide (images = []) then []
  else map (λ image, (keys.key_image image, None)) images ++ [(keys.block_key_images index, None)].

Lemma unwind_images_spec : unwind_images s1 index = Ok unwound_images.
Proof.
  unfold unwind_images, unwound_images. rewrite store_get_records, Hs1, (lookup_pushed TAG_BLOCK_KEY_IMAGES) by done.
  change (pick TAG_BLOCK_KEY_IMAGES push_segments) with ((if bool_decide (images = []) then [] else [(keys.block_key_images index, Some (encode_hashes images))]) ++ []).
  rewrite app_nil_r. case_bool_decide as Hi; cbn [apply_ops mbind result_bind].
  - rewrite (cm_above _ _ _ Hm index); [done|apply (bf_index Hf)|by apply above_index|]. unfold block_keys. do 2 right. by left.
  - rewrite lookup_insert_eq. cbn [decoded]. rewrite decode_encode_hashes by apply images_hashes. done.
Qed.

Lemma pushed_entry_lookup i r : prefs !! i = Some r →
  pushed !! keys.payment_id_entry r.1 (pay_base s r.1 + occurs r.1 (take i prefs.*1)) = Some r.2.
Proof.
  intros Hr. rewrite (lookup_pushed TAG_PAYMENT_ID_ENTRY) by done.
  change (pick TAG_PAYMENT_ID_ENTRY push_segments) with (zip_with entry_op prefs (numbers (pay_base s) ∅ prefs.*1) ++ []). rewrite app_nil_r.
  apply apply_ops_det.
  - apply list_elem_of_fmap. exists (keys.payment_id_entry r.1 (pay_base s r.1 + occurs r.1 (take i prefs.*1)), Some r.2).
    split; [done|]. apply elem_of_entry_ops. by exists i, r.
  - intros o (j & r' & Hr' & Hk & ->)%elem_of_entry_ops. destruct (entry_bound _ _ Hr) as (Hh & _ & Hb & Hmax). destruct (entry_bound _ _ Hr') as (Hh' & _ & Hb' & Hmax').
    apply entry_inj in Hk as [He Hn]; [|done|unfold in_u; lia|done|unfold in_u; lia]. rewrite He in Hn.
    assert (i = j) as <-; [|by simplify_eq]. apply (occurs_take_inj prefs.*1 i j r'.1); [by rewrite list_lookup_fmap, Hr; cbn; rewrite He|by rewrite list_lookup_fmap, Hr'|lia].
Qed.

Definition entry_count (x : UnwindScratch) (id : Hash) : result ChainError Z :=
  match entry_counts x !! id with Some n => Ok n | None => payment_id_entry_count s1 id end.

Lemma entry_count_insert x id id' n : entry_count (mkScratch (lowest_output x) (<[id := n]> (entry_counts x)) (legacy x)) id' =
  if decide (id' = id) then Ok n else entry_count x id'.
Proof. unfold entry_count. cbn. case_decide; [subst; by rewrite lookup_insert_eq|by rewrite lookup_insert_ne]. Qed.

(** The entries come off from the last to the first, and each id is left with the count
    it had. *)
Lemma unwind_payment_ids_spec j x : (j ≤ length prefs)%nat →
  (∀ id, id ∈ (take j prefs).*1 → entry_count x id = Ok (pay_base s id + occurs id (take j prefs).*1)) →
  ∃ ops x', unwind_payment_ids s1 x (reverse (take j prefs)) = Ok (ops, x') ∧
    (∀ k o, (k, o) ∈ ops ↔ o = None ∧ ∃ i r, (i < j)%nat ∧ prefs !! i = Some r ∧
       k = keys.payment_id_entry r.1 (pay_base s r.1 + occurs r.1 (take i prefs.*1))) ∧
    (∀ id, entry_counts x' !! id = if decide (id ∈ (take j prefs).*1) then Some (pay_base s id) else entry_counts x !! id) ∧
    lowest_output x' = lowest_output x ∧ legacy x' = legacy x.
Proof.
  revert x. induction j as [|j IH]; intros x Hj Hx.
  { exists [], x. cbn. split_and!; [done| |by intros id; rewrite decide_False by apply not_elem_of_nil|done|done].
    intros k o. split; [by intros ?%not_elem_of_nil|by intros (_ & i & r & ? & _); lia]. }
  destruct (lookup_lt_is_Some_2 prefs j ltac:(lia)) as [[id h] Hr]. pose proof (entry_bound _ _ Hr) as (_ & [_ Hlen] & Hb & Hmax). cbn [fst snd] in *.
  rewrite (take_S_r _ _ _ Hr) in *. rewrite reverse_snoc. rewrite fmap_app in *. cbn [fmap list_fmap fst] in *.
  cbn [unwind_payment_ids]. fold (entry_count x id). rewrite (Hx id) by (apply elem_of_app; right; by constructor).
  rewrite fmap_take in *. rewrite occurs_app, occurs_cons, decide_True, occurs_nil by done. cbn [mbind result_bind].
  pose proof (bf_payments_fit Hf id) as [Hbase _]. pose proof (occurs_nonneg id (take j prefs.*1)) as Hocc.
  rewrite (proj2 (Z.ltb_lt 0 _)) by lia. replace (pay_base s id + (occurs id (take j prefs.*1) + (1 + 0)) - 1) with (pay_base s id + occurs id (take j prefs.*1)) by lia.
  pose proof (pushed_entry_lookup _ _ Hr) as He. cbn [fst snd] in He. rewrite store_get_records, Hs1, He. clear He. cbn [mbind result_bind decode_payment_id_entry fst snd]. rewrite Hlen. cbn [Nat.eqb mbind result_bind].
  rewrite bool_decide_eq_true_2 by done.
  destruct (IH (mkScratch (lowest_output x) (<[id := pay_base s id + occurs id (take j prefs.*1)]> (entry_counts x)) (legacy x)) ltac:(lia)) as (ops & x' & Hu & Hops & Hec & Hlo & Hle).
  { intros id' Hid'. rewrite entry_count_insert. rewrite ?fmap_take in *. case_decide as He; [by subst|]. rewrite (Hx id') by (apply elem_of_app; by left).
    rewrite occurs_app, occurs_cons, decide_False, occurs_nil by done. do 2 f_equal. lia. }
  rewrite Hu. cbn [mbind result_bind]. eexists _, x'. split_and!; [done| | |by rewrite Hlo|by rewrite Hle].
  - intros k o. rewrite elem_of_cons, Hops. split.
    + intros [[= -> ->]|(-> & i & r & Hi & Hr' & ->)]; (split; [done|]); [by exists j, (id, h); split_and!; [lia|done|]|by exists i, r; split_and!; [lia|done|]].
    + intros (-> & i & r & Hi & Hr' & ->). destruct (decide (i = j)) as [->|Hne]; [left; by rewrite Hr in Hr'; injection Hr' as <-|].
      right. split; [done|]. exists i, r. split_and!; [lia|done|done].
  - intros id'. rewrite Hec. cbn [entry_counts]. rewrite ?fmap_take. destruct (decide (id' ∈ take j prefs.*1)) as [Hin|Hn].
    + by rewrite decide_True by (apply elem_of_app; by left).
    + destruct (decide (id' = id)) as [->|He].
      * rewrite lookup_insert_eq, decide_True by (apply elem_of_app; right; by constructor).
        assert (occurs id (take j prefs.*1) = 0) as -> by (pose proof (occurs_pos id (take j prefs.*1)); destruct (decide (0 < occurs id (take j prefs.*1))); [tauto|lia]). f_equal. lia.
      * rewrite lookup_insert_ne by done. rewrite decide_False; [done|]. intros [?|?%list_elem_of_singleton]%elem_of_app; done.
Qed.

Lemma unwind_payments_spec : ∃ ops x', unwind_payments s1 index scratch_new = Ok (ops, x') ∧
  (∀ k o, (k, o) ∈ ops ↔ o = None ∧ ((∃ i r, prefs !! i = Some r ∧ k = keys.payment_id_entry r.1 (pay_base s r.1 + occurs r.1 (take i prefs.*1))) ∨
    (prefs ≠ [] ∧ k = keys.block_payment_ids index))) ∧
  (∀ id, entry_counts x' !! id = if decide (id ∈ prefs.*1) then Some (pay_base s id) else None) ∧
  lowest_output x' = ∅ ∧ legacy x' = ∅.
Proof.
  unfold unwind_payments. rewrite store_get_records, Hs1, (lookup_pushed TAG_BLOCK_PAYMENT_IDS) by done.
  change (pick TAG_BLOCK_PAYMENT_IDS push_segments) with ((if bool_decide (prefs = []) then [] else [(keys.block_payment_ids index, Some (encode_payment_id_refs prefs))]) ++ []).
  rewrite app_nil_r. case_bool_decide as Hp; cbn [apply_ops mbind result_bind].
  { rewrite (cm_above _ _ _ Hm index); [|apply (bf_index Hf)|by apply above_index|unfold block_keys; do 5 right; by left].
    exists [], scratch_new. rewrite Hp. split_and!; [done| |intros id; by rewrite decide_False by apply not_elem_of_nil|done|done].
    intros k o. split; [by intros ?%not_elem_of_nil|by intros (_ & [(i & r & ? & _)|[? _]])]. }
  rewrite lookup_insert_eq. cbn [decoded]. rewrite decode_encode_payment_id_refs by apply (bf_payments Hf). unfold decoded. cbn [map_err mbind result_bind].
  destruct (unwind_payment_ids_spec (length prefs) scratch_new ltac:(lia)) as (ops & x' & Hu & Hops & Hec & Hlo & Hle).
  { rewrite firstn_all. intros id Hid. assert (is_hash id) as Hh by (pose proof prefs_ids as Hi; rewrite Forall_forall in Hi; by apply Hi).
    unfold entry_count. cbn. rewrite <- pushed_pay_count by done. apply payment_count_counter. rewrite Hs1. apply (cm_pay_counter _ _ _ push_chain_map). }
  rewrite firstn_all in *. rewrite Hu. cbn [mbind result_bind]. eexists _, x'. split_and!; [done| |done|done|done].
  intros k o. rewrite elem_of_app, Hops, list_elem_of_singleton. split.
  - intros [(-> & i & r & _ & Hr & ->)|[= -> ->]]; (split; [done|]); [left; by exists i, r|by right].
  - intros (-> & [(i & r & Hr & ->)|[_ ->]]); [left|by right]. split; [done|]. exists i, r. split_and!; [by apply lookup_lt_Some in Hr|done|done].
Qed.

Lemma pushed_outputs_record : pushed !! keys.block_outputs index = Some (encode_output_refs refs).
Proof.
  rewrite (lookup_pushed TAG_BLOCK_OUTPUTS) by done. pose proof (bf_index Hf) as Hidx. pose proof (cm_history _ _ _ Hm) as Hh.
  unfold MIN_PRUNE_DEPTH, CRYPTONOTE_MAX_ALT_BLOCK_DEPTH in Hh.
  change (pick TAG_BLOCK_OUTPUTS push_segments) with ((keys.block_outputs index, Some (encode_output_refs refs)) :: (if unwind_history (cfg s) <=? index then [(keys.block_outputs (index - unwind_history (cfg s)), None)] else []) ++ []).
  rewrite app_nil_r. cbn [apply_ops]. rewrite apply_ops_not_in; [apply lookup_insert_eq|].
  destruct (unwind_history (cfg s) <=? index) eqn:E; cbn; [|apply not_elem_of_nil]. bool_hyps. intros Hk%list_elem_of_singleton.
  apply index_key_inj in Hk; [lia|done|unfold in_u in *; lia].
Qed.

Lemma refs_wf : Forall wf_output_ref refs.
Proof. apply Forall_forall. intros r Hr. by apply refs_bound. Qed.

Lemma unwind_ops_spec : recent_ok s1 → tip s1 = Some index → cfg s1 = cfg s → ∃ pays x,
  unwind_ops s1 index scratch_new =
  Ok (unwound_images ++ pays ++ map (λ r : Z * Z, (keys.output r.1 r.2, None)) refs ++
      [(keys.block_outputs index, None); (keys.block_info index, None); (keys.hash_to_index (block_hash info), None)] ++
      map (λ h, (keys.transaction_index h, None)) all_hashes ++
      [(keys.block_tx_hashes index, None); (keys.raw_block index, None)], x) ∧
  (∀ k o, (k, o) ∈ pays ↔ o = None ∧ ((∃ i r, prefs !! i = Some r ∧ k = keys.payment_id_entry r.1 (pay_base s r.1 + occurs r.1 (take i prefs.*1))) ∨
    (prefs ≠ [] ∧ k = keys.block_payment_ids index))) ∧
  (∀ a, lowest_output x !! a = if decide (a ∈ amounts) then Some (out_base s a) else None) ∧
  (∀ id, entry_counts x !! id = if decide (id ∈ prefs.*1) then Some (pay_base s id) else None) ∧ legacy x = ∅.
Proof.
  intros Hr Ht Hc. unfold unwind_ops.
  rewrite block_info_cache; [|rewrite Hs1, Ht, Hc; apply push_chain_map|done|apply (bf_index Hf)].
  rewrite Hs1, pushed_info_at, decide_True by (done || apply (bf_index Hf)). cbn [mbind result_bind required_info ok_or].
  rewrite unwind_images_spec. cbn [mbind result_bind]. destruct unwind_payments_spec as (pays & x & -> & Hpays & Hec & Hlo & Hle).
  cbn [mbind result_bind]. unfold block_output_refs. rewrite (store_get_records s1 (keys.block_outputs index)), Hs1, pushed_outputs_record. cbn [mbind result_bind decoded].
  rewrite decode_encode_output_refs by apply refs_wf. unfold decoded at 1. cbn [map_err fmap result_fmap mbind result_bind ok_or].
  unfold block_transaction_hashes. rewrite store_get_records, Hs1, (lookup_pushed TAG_BLOCK_TX_HASHES) by done.
  change (pick TAG_BLOCK_TX_HASHES push_segments) with [(keys.block_tx_hashes index, Some (encode_hashes all_hashes))]. cbn [apply_ops].
  rewrite lookup_insert_eq. cbn [mbind result_bind decoded]. rewrite decode_encode_hashes by apply (bf_hashes Hf). unfold decoded. cbn [map_err mbind result_bind].
  eexists pays, _. split; [done|]. cbn [lowest_output entry_counts legacy]. split_and!; [done| |done|done].
  intros a. rewrite Hlo. change (foldl lower ∅ refs !! a = if decide (a ∈ amounts) then Some (out_base s a) else None).
  unfold refs, allot. rewrite (lower_numbers (out_base s) ∅ amounts ∅ a); [by rewrite lookup_empty|apply (bf_amounts_fit Hf)|done].
Qed.

(** Records that applying a block drops for good: the schema version it states, the body
    that falls out of a pruned node's window and the output references past the history. *)
Definition dropped (k : bytes) : Prop :=
  k = keys.meta META_VERSION ∨
  (∃ v, prune_depth (cfg s) ≫= checked_sub index = Some v ∧ k = keys.raw_block v) ∨
  (unwind_history (cfg s) ≤ index ∧ k = keys.block_outputs (index - unwind_history (cfg s))).

Section Ops.
Variables (pays : list WriteOp) (x : UnwindScratch).
Hypothesis Hpays : ∀ k o, (k, o) ∈ pays ↔ o = None ∧
  ((∃ i r, prefs !! i = Some r ∧ k = keys.payment_id_entry r.1 (pay_base s r.1 + occurs r.1 (take i prefs.*1))) ∨
   (prefs ≠ [] ∧ k = keys.block_payment_ids index)).
Hypothesis Hlow : ∀ a, lowest_output x !! a = if decide (a ∈ amounts) then Some (out_base s a) else None.
Hypothesis Hec : ∀ id, entry_counts x !! id = if decide (id ∈ prefs.*1) then Some (pay_base s id) else None.
Hypothesis Hlegacy : legacy x = ∅.

Definition tip_op : WriteOp := if index =? 0 then (keys.meta META_TIP, None) else (keys.meta META_TIP, Some (le32 (index - 1))).

Definition undo : list WriteOp :=
  unwound_images ++ pays ++ map (λ r : Z * Z, (keys.output r.1 r.2, None)) refs ++
  [(keys.block_outputs index, None); (keys.block_info index, None); (keys.hash_to_index (block_hash info), None)] ++
  map (λ h, (keys.transaction_index h, None)) all_hashes ++ [(keys.block_tx_hashes index, None); (keys.raw_block index, None)].

Lemma block_key_absent k : k ∈ block_keys index → records s !! k = None.
Proof. apply (cm_above _ _ _ Hm); [apply (bf_index Hf)|by apply above_index]. Qed.

(** Every deletion is of a record the chain did not have. *)
Lemma undo_restores k o : (k, o) ∈ undo → o = records s !! k.
Proof.
  unfold undo. rewrite !elem_of_app. intros [Hi|[Hp|[Ho|[Hb|[Ht|Hr]]]]].
  - unfold unwound_images in Hi. case_bool_decide; [by apply not_elem_of_nil in Hi|]. apply elem_of_app in Hi as [(i & [= -> ->] & Hi%images_spec)%list_elem_of_fmap|[= -> ->]%list_elem_of_singleton].
    + by rewrite (proj2 (bf_images Hf i Hi)).
    + rewrite block_key_absent; [done|]. unfold block_keys. do 2 right. by left.
  - apply Hpays in Hp as (-> & [(i & r & Hr & ->)|[_ ->]]).
    + destruct (entry_bound _ _ Hr) as (Hh & _ & Hb & Hmax). pose proof (occurs_nonneg r.1 (take i prefs.*1)).
      rewrite (cm_entries _ _ _ Hm); [done|done|unfold in_u; lia|unfold pay_base in *; lia].
    + rewrite block_key_absent; [done|]. unfold block_keys. do 5 right. by left.
  - apply list_elem_of_fmap in Ho as (r & [= -> ->] & Hr). destruct (refs_bound _ Hr) as ([Ha Hn] & _ & Hb).
    rewrite (cm_outputs _ _ _ Hm); [done|done|done|unfold out_base in *; lia].
  - apply elem_of_cons in Hb as [[= -> ->]|Hb]; [rewrite block_key_absent; [done|unfold block_keys; do 3 right; by left]|].
    apply elem_of_cons in Hb as [[= -> ->]|[= -> ->]%list_elem_of_singleton]; [rewrite block_key_absent; [done|by left]|]. by rewrite (bf_hash Hf).
  - apply list_elem_of_fmap in Ht as (h & [= -> ->] & Hh). by rewrite (bf_txs Hf h Hh).
  - apply elem_of_cons in Hr as [[= -> ->]|[= -> ->]%list_elem_of_singleton]; (rewrite block_key_absent; [done|unfold block_keys]); [right; by left|do 4 right; by left].
Qed.

(** The counters go back to what they were. *)
Lemma finish_restores k o : (k, o) ∈ finish x → o = records s !! k.
Proof.
  unfold finish. rewrite !elem_of_app, Hlegacy, map_to_list_empty. intros [Hl|[He|[]%not_elem_of_nil]].
  - apply list_elem_of_fmap in Hl as ([a n] & [= -> ->] & Hn%elem_of_map_to_list). cbn [fst snd]. rewrite Hlow in Hn. case_decide; [|done]. injection Hn as <-.
    symmetry. apply (cm_out_counter _ _ _ Hm).
  - apply list_elem_of_fmap in He as ([id n] & [= -> ->] & Hn%elem_of_map_to_list). cbn [fst snd]. rewrite Hec in Hn. case_decide; [|done]. injection Hn as <-.
    destruct (cm_pay_counter _ _ _ Hm id) as [Hu Hk]. change (count_of (records s) (keys.payment_id_count id)) with (pay_base s id) in *. rewrite Hk. unfold in_u in Hu.
    destruct (pay_base s id =? 0) eqn:E; bool_hyps; [by rewrite E|]. by rewrite (proj2 (Z.ltb_lt _ _)) by lia.
Qed.

Lemma tip_restores : tip_op.2 = records s !! tip_op.1.
Proof.
  pose proof (cm_tip _ _ _ Hm) as Ht. pose proof (bf_index Hf) as Hidx. unfold in_u in Hidx. rewrite (bf_tip Hf) in Ht. unfold tip_op, checked_sub in *.
  destruct (index =? 0) eqn:E; bool_hyps; [rewrite (proj2 (Z.leb_gt 1 index)) in Ht by lia; cbn [fst snd]; by rewrite Ht|]. rewrite (proj2 (Z.leb_le 1 index)) in Ht by lia. cbn [fst snd]. by rewrite Ht.
Qed.

Lemma unwind_restores k o : (k, o) ∈ undo ++ finish x ++ [tip_op] → o = records s !! k.
Proof.
  rewrite !elem_of_app. intros [?|[?|Ht%list_elem_of_singleton]]; [by apply undo_restores|by apply finish_restores|].
  pose proof tip_restores as Hr. by rewrite <- Ht in Hr.
Qed.

Lemma in_undo k : (k, None) ∈ undo → k ∈ (undo ++ finish x ++ [tip_op]).*1.
Proof. intros Hk. apply list_elem_of_fmap. exists (k, None). split; [done|]. apply elem_of_app. by left. Qed.

Lemma in_finish k o : (k, o) ∈ finish x → k ∈ (undo ++ finish x ++ [tip_op]).*1.
Proof. intros Hk. apply list_elem_of_fmap. exists (k, o). split; [done|]. apply elem_of_app. right. apply elem_of_app. by left. Qed.

Lemma in_undo_images k o :
  (k, o) ∈ map (λ image, (keys.key_image image, Some (le32 index))) images ∨
  (k, o) ∈ (if bool_decide (images = []) then [] else [(keys.block_key_images index, Some (encode_hashes images))]) →
  k ∈ (undo ++ finish x ++ [tip_op]).*1.
Proof.
  intros Hk. apply in_undo. unfold undo. apply elem_of_app. left. unfold unwound_images. case_bool_decide as Hi.
  - rewrite Hi in Hk. by destruct Hk as [?%not_elem_of_nil|?%not_elem_of_nil].
  - apply elem_of_app. destruct Hk as [(i & [= -> ->] & Hin)%list_elem_of_fmap|[= -> ->]%list_elem_of_singleton].
    + left. apply list_elem_of_fmap. by exists i.
    + right. by apply list_elem_of_singleton.
Qed.

Lemma in_undo_payments k o :
  (k, o) ∈ zip_with entry_op prefs (numbers (pay_base s) ∅ prefs.*1) ∨
  (k, o) ∈ (if bool_decide (prefs = []) then [] else [(keys.block_payment_ids index, Some (encode_payment_id_refs prefs))]) →
  k ∈ (undo ++ finish x ++ [tip_op]).*1.
Proof.
  intros Hk. apply in_undo. unfold undo. apply elem_of_app. right. apply elem_of_app. left. apply Hpays. split; [done|].
  destruct Hk as [(i & r & Hr & -> & _)%elem_of_entry_ops|Hk]; [left; by exists i, r|right].
  case_bool_decide; [by apply not_elem_of_nil in Hk|]. by apply list_elem_of_singleton in Hk as [= -> _].
Qed.

Lemma in_finish_counts k o :
  (k, o) ∈ count_ops new_counts ∨
  (k, o) ∈ map (λ p : Hash * Z, (keys.payment_id_count p.1, Some (le32 p.2))) (map_to_list new_entry_counts) →
  k ∈ (undo ++ finish x ++ [tip_op]).*1.
Proof.
  intros [(a & Ha & -> & _)%(elem_of_counter_ops keys.output_count (records s) amounts (bf_amounts_fit Hf))|
    (id & Hid & -> & _)%(elem_of_counter_ops keys.payment_id_count (records s) prefs.*1 (bf_payments_fit Hf))].
  - eapply in_finish. unfold finish. apply elem_of_app. left. apply list_elem_of_fmap. exists (a, out_base s a). split; [done|].
    apply elem_of_map_to_list. by rewrite Hlow, decide_True.
  - eapply in_finish. unfold finish. apply elem_of_app. right. apply elem_of_app. left. apply list_elem_of_fmap. exists (id, pay_base s id).
    split; [done|]. apply elem_of_map_to_list. by rewrite Hec, decide_True.
Qed.

Lemma in_undo_outputs k o : (k, o) ∈ zip_with output_op refs (records_of index all_txs) → k ∈ (undo ++ finish x ++ [tip_op]).*1.
Proof.
  intros (r & Hr & ->)%elem_of_output_ops. apply in_undo. unfold undo. do 2 (apply elem_of_app; right). apply elem_of_app. left.
  apply list_elem_of_fmap. by exists r.
Qed.

Lemma in_undo_block k : k ∈ [keys.block_outputs index; keys.block_info index; keys.hash_to_index (block_hash info); keys.block_tx_hashes index; keys.raw_block index] ∨
  k ∈ keys.transaction_index <$> all_hashes → k ∈ (undo ++ finish x ++ [tip_op]).*1.
Proof.
  intros Hk. apply in_undo. unfold undo. do 3 (apply elem_of_app; right). destruct Hk as [Hk|(h & -> & Hh)%list_elem_of_fmap].
  - rewrite !elem_of_app, !elem_of_cons in *. destruct Hk as [->|[->|[->|[->|[->|[]%not_elem_of_nil]]]]]; tauto.
  - apply elem_of_app. right. apply elem_of_app. left. apply list_elem_of_fmap. by exists h.
Qed.

(** What the block wrote is taken out again, or is dropped for good. *)
Lemma undo_covers k o : (k, o) ∈ concat push_segments.*2 → dropped k ∨ k ∈ (undo ++ finish x ++ [tip_op]).*1.
Proof.
  rewrite elem_of_segments. unfold push_segments. intros (p & Hp & Hk). rewrite !elem_of_cons in Hp.
  destruct Hp as [->|[->|[->|[->|[->|[->|[->|[->|[->|[->|[->|[->|[->|[->|[->|[->|[]%not_elem_of_nil]]]]]]]]]]]]]]]]; cbn [snd] in Hk.
  - right. by eapply in_undo_outputs.
  - right. eapply in_finish_counts. by left.
  - right. eapply in_undo_images. by left.
  - right. eapply in_undo_images. by right.
  - right. apply in_undo_block. left. apply list_elem_of_singleton in Hk as [= -> _]. right. by left.
  - right. apply in_undo_block. left. apply list_elem_of_singleton in Hk as [= -> _]. do 2 right. by left.
  - right. apply in_undo_block. left. apply list_elem_of_singleton in Hk as [= -> _]. do 3 right. by left.
  - right. apply in_undo_block. right. apply list_elem_of_fmap in Hk as (h & [= -> _] & Hh). by apply list_elem_of_fmap_2.
  - right. apply in_undo_block. left. apply list_elem_of_singleton in Hk as [= -> _]. by left.
  - right. eapply in_undo_payments. by left.
  - right. eapply in_finish_counts. by right.
  - right. eapply in_undo_payments. by right.
  - right. apply in_undo_block. left. destruct (keeps_body _ _ _); [|by apply not_elem_of_nil in Hk]. apply list_elem_of_singleton in Hk as [= -> _]. do 4 right. by left.
  - left. right. left. destruct (prune_depth (cfg s) ≫= checked_sub index) as [v|]; [|by apply not_elem_of_nil in Hk]. exists v. by apply list_elem_of_singleton in Hk as [= -> _].
  - left. right. right. destruct (unwind_history (cfg s) <=? index) eqn:E; [|by apply not_elem_of_nil in Hk]. bool_hyps. by apply list_elem_of_singleton in Hk as [= -> _].
  - apply elem_of_cons in Hk as [[= -> _]|[= -> _]%list_elem_of_singleton]; [by left; left|]. right. rewrite !fmap_app. do 2 (apply elem_of_app; right).
    apply list_elem_of_singleton. unfold tip_op. by destruct (index =? 0).
Qed.

(** The records after the unwind. *)
Lemma restored k : ¬ dropped k → apply_ops (undo ++ finish x ++ [tip_op]) pushed !! k = records s !! k.
Proof.
  intros Hk. destruct (decide (k ∈ (undo ++ finish x ++ [tip_op]).*1)) as [Hin|Hn].
  - apply apply_ops_restore; [apply unwind_restores|done].
  - rewrite apply_ops_not_in by done. unfold pushed. apply apply_ops_not_in. intros ([k' o] & -> & Ho%undo_covers)%list_elem_of_fmap.
    by destruct Ho.
Qed.

Lemma dropped_tag k : dropped k → tag_of k = Some TAG_META ∨ tag_of k = Some TAG_RAW_BLOCK ∨ tag_of k = Some TAG_BLOCK_OUTPUTS.
Proof. intros [->|[(v & _ & ->)|[_ ->]]]; auto. Qed.

Lemma not_dropped k t : tag_of k = Some t → t ≠ TAG_META → t ≠ TAG_RAW_BLOCK → t ≠ TAG_BLOCK_OUTPUTS → ¬ dropped k.
Proof. intros Hk ? ? ? Hd%dropped_tag. rewrite Hk in Hd. destruct Hd as [[= ?]|[[= ?]|[= ?]]]; done. Qed.

Lemma tip_not_dropped : ¬ dropped (keys.meta META_TIP).
Proof. intros [Hk|[(v & _ & Hk)|[_ Hk]]]; discriminate Hk. Qed.

Lemma above_not_dropped i k : is_u32 i → index ≤ i → k ∈ block_keys i → ¬ dropped k.
Proof.
  intros Hi Hle Hk Hd. pose proof (bf_index Hf) as Hidx. pose proof (cm_history _ _ _ Hm) as Hh. unfold MIN_PRUNE_DEPTH, CRYPTONOTE_MAX_ALT_BLOCK_DEPTH in Hh.
  unfold block_keys in Hk. rewrite !elem_of_cons in Hk. destruct Hk as [->|[->|[->|[->|[->|[->|[]%not_elem_of_nil]]]]]];
    destruct Hd as [Hd|[(v & Hv & Hd)|[Hv Hd]]]; try discriminate Hd.
  - apply index_key_inj in Hd; [lia|done|unfold in_u in *; lia].
  - destruct (prune_depth (cfg s)) as [d|] eqn:Ep; [|done]. cbn in Hv. apply checked_sub_Some in Hv as [Hv ->].
    pose proof (cm_prune _ _ _ Hm d Ep) as Hd'. unfold MIN_PRUNE_DEPTH, CRYPTONOTE_MAX_ALT_BLOCK_DEPTH in Hd'.
    apply index_key_inj in Hd; [lia|done|unfold in_u in *; lia].
Qed.

Lemma restored_map : chain_map (apply_ops (undo ++ finish x ++ [tip_op]) pushed) (cfg s) (tip s).
Proof.
  assert (∀ k t, tag_of k = Some t → t ≠ TAG_META → t ≠ TAG_RAW_BLOCK → t ≠ TAG_BLOCK_OUTPUTS →
    apply_ops (undo ++ finish x ++ [tip_op]) pushed !! k = records s !! k) as Hr.
  { intros k t ? ? ? ?. apply restored. by apply (not_dropped k t). }
  assert (∀ i, apply_ops (undo ++ finish x ++ [tip_op]) pushed !! keys.output_count i = records s !! keys.output_count i) as Ho.
  { intros i. by apply (Hr _ TAG_OUTPUT_COUNT). }
  assert (∀ i, apply_ops (undo ++ finish x ++ [tip_op]) pushed !! keys.payment_id_count i = records s !! keys.payment_id_count i) as Hp.
  { intros i. by apply (Hr _ TAG_PAYMENT_ID_COUNT). }
  destruct Hm as [Ht Hu Hi Ha Hc Hpc Hout Hent Him Hw Hh Hpr]. split; try done.
  - rewrite restored by apply tip_not_dropped. done.
  - intros i ? ?. rewrite (Hr _ TAG_BLOCK_INFO) by done. by apply Hi.
  - intros i k Hiu Hab Hk. rewrite restored; [by apply (Ha i)|]. apply (above_not_dropped i); [done| |done].
    rewrite (bf_tip Hf) in Hab. pose proof (bf_index Hf) as Hidx. unfold in_u, checked_sub, above_tip in *. destruct (1 <=? index) eqn:E; bool_hyps; lia.
  - intros a. unfold counter, count_of. rewrite Ho. apply Hc.
  - intros id. unfold counter, count_of. rewrite Hp. apply Hpc.
  - intros a n ? ?. unfold count_of. rewrite Ho, (Hr _ TAG_OUTPUT) by done. by apply Hout.
  - intros id n ? ?. unfold count_of. rewrite Hp, (Hr _ TAG_PAYMENT_ID_ENTRY) by done. by apply Hent.
  - intros i v. rewrite (Hr _ TAG_KEY_IMAGE) by done. apply Him.
Qed.

Lemma restored_info_at i : info_at (apply_ops (undo ++ finish x ++ [tip_op]) pushed) i = info_at (records s) i.
Proof. unfold info_at. rewrite restored; [done|]. by apply (not_dropped _ TAG_BLOCK_INFO). Qed.
End Ops.
End After.

(** Unwinding the block just applied gives the state before it, up to the store, and the
    store's records are those from before, but for what applying drops for good. *)
Lemma unwind_push_state : chain_ok s → ∃ st, unwind_block after_push.2 index = (Ok (), set_store s st) ∧
  (∀ k, ¬ dropped k → contents st !! k = records s !! k) ∧ chain_ok (set_store s st).
Proof.
  intros Hok. destruct (push_block_coherent (ok_recent _ Hok)) as (st1 & v1 & Hpush & Hst1 & Hok1). rewrite Hpush in *. cbn [snd] in *.
  set (s1 := set_median _ v1) in *. destruct (unwind_ops_spec s1 Hst1 (ok_recent _ Hok1) eq_refl eq_refl) as (pays & x & Hops & Hpays & Hlow & Hec & Hleg).
  unfold unwind_block. rewrite bool_decide_eq_true_2 by done. cbn [negb]. rewrite Hops. cbv zeta.
  match goal with |- context [store_write s1 ?o] => change o with (undo pays ++ finish x ++ [tip_op]) end.
  destruct (store_write_records s1 (undo pays ++ finish x ++ [tip_op])) as (st2 & Hw & Hst2). rewrite Hw. unfold and_then.
  assert (records s1 = pushed) as Hs1 by done. rewrite Hs1 in Hst2.
  set (s2 := set_tip (set_store s1 st2) (checked_sub index 1)).
  assert (chain_map (records s2) (cfg s2) (tip s2)) as Hm2.
  { change (chain_map (contents st2) (cfg s) (checked_sub index 1)). rewrite Hst2, <- (bf_tip Hf). by apply restored_map. }
  destruct (reload_ok s2 Hm2) as (l & v & -> & Hok2). exists st2.
  assert (∀ i, info_at (contents st2) i = info_at (records s) i) as Hinfo by (intros i; rewrite Hst2; by apply restored_info_at).
  assert (l = recent s) as ->.
  { apply (inj (fmap Some)). etransitivity; [apply (ok_recent _ Hok2)|]. rewrite (ok_recent _ Hok).
    change (info_at (contents st2) <$> window (recent_window (cfg s)) (checked_sub index 1) = info_at (records s) <$> window (recent_window (cfg s)) (tip s)).
    rewrite (bf_tip Hf). apply list_fmap_ext. intros j i _. apply Hinfo. }
  assert (v = cs_block_median_size s) as ->.
  { apply (median_unique _ s Hok2 Hok); [cbn; by rewrite (bf_tip Hf)|]. intros i _. apply Hinfo. }
  assert (set_median (set_recent s2 (recent s)) (cs_block_median_size s) = set_store s st2) as He by (unfold s2; rewrite <- (bf_tip Hf); by destruct s).
  rewrite He in *. split_and!; [done| |done]. intros k Hk. rewrite Hst2. by apply restored.
Qed.
End Block.

(** An empty store is the coherent state before genesis. *)
Lemma empty_chain_ok s : records s = ∅ → tip s = None → recent s = [] →
  cs_block_median_size s = full_reward_zone (block_major_version_for_index 0) →
  (CRYPTONOTE_REWARD_BLOCKS_WINDOW ≤ recent_window (cfg s))%nat → MIN_PRUNE_DEPTH ≤ unwind_history (cfg s) →
  (∀ d, prune_depth (cfg s) = Some d → MIN_PRUNE_DEPTH ≤ d) → chain_ok s.
Proof.
  intros Hr Ht Hrec Hmed Hw Hh Hp. split.
  - rewrite Hr, Ht. split; try done; intros; try (by apply lookup_empty); try (by destruct (_ : ¬ True)).
    all: unfold counter, count_of; rewrite lookup_empty; done.
  - unfold recent_ok. by rewrite Hrec, Ht.
  - unfold update_block_median_size. rewrite Ht. destruct s. cbn in *. by subst.
Qed.
End Unwind.

(** * Theorems *)


(** C3. Taking a block off undoes applying it: the unwind succeeds, gives back the state
    from before the block in every field, and its store holds the records from before
    (outputs and counters, key images, transaction and payment-id indexes, block records, the
    tip), but for the schema version and what applying drops behind the node's windows. *)
Theorem push_unwind_roundtrip {S : Type} `{ReliableStore S} `{C : Crypto} (s : ChainState S)
    index block block_blob tx_blobs transactions info spent coinbase_hash :
  chain_ok s → block_fresh s index block transactions info spent coinbase_hash →
  ∃ s1 st, push_block s index block block_blob tx_blobs transactions info spent = (Ok (), s1) ∧
    unwind_block s1 index = (Ok (), set_store s st) ∧
    ∀ k, ¬ dropped s index k → contents st !! k = records s !! k.
Proof.
  intros Hok Hf. destruct (push_block_coherent s index block block_blob tx_blobs transactions info spent coinbase_hash Hf (ok_map _ Hok) (ok_recent _ Hok))
    as (st1 & v & Hp & _). destruct (unwind_push_state s index block block_blob tx_blobs transactions info spent coinbase_hash Hf (ok_map _ Hok) Hok) as (st & Hu & Hr & _).
  unfold after_push in *. rewrite Hp in *. eexists _, st. split_and!; [done|done|done].
Qed.

(** * Witnesses *)

Module RecordsWitness.
#[local] Existing Instance toy_crypto.

(** Before genesis, in memory. *)
Definition empty_state : ChainState MemStore :=
  mkState (∅ : MemStore) (Config_default 1) Checkpoints.none None [] (full_reward_zone (block_major_version_for_index 0)) ∅ [] (Some 0) None true 0.

Definition genesis : BlockTemplate := Eval vm_compute in default (mkBlock 0 0 0 [] 0 None sample_coinbase []) genesis_block.
Definition coinbase : Hash := Eval vm_compute in match Transaction.hash (base_transaction genesis) with Ok h => h | Err _ => [] end.
Definition genesis_info : BlockInfo := mkBlockInfo (replicate 32 7) 0 157 1 1500000000000 1.

Lemma empty_state_ok : chain_ok empty_state.
Proof. apply empty_chain_ok; try done. cbn. unfold CRYPTONOTE_REWARD_BLOCKS_WINDOW. lia. Qed.

Lemma genesis_fresh : block_fresh empty_state 0 genesis [] genesis_info ∅ coinbase.
Proof.
  assert (∀ k, records empty_state !! k = None) as He by (intros k; change ((∅ : gmap bytes bytes) !! k = None); apply lookup_empty).
  split; try (intros; apply He); try done.
  - apply (bool_decide_unpack _). vm_compute. exact I.
  - apply (bool_decide_unpack _). vm_compute. exact I.
  - apply (bool_decide_unpack _). vm_compute. exact I.
  - intros a. unfold out_base, count_of. rewrite He. cbn [fmap option_fmap option_map default].
    pose proof (occurs_le_length a (amounts genesis [] coinbase)) as Hl. pose proof (occurs_nonneg a (amounts genesis [] coinbase)).
    assert (length (amounts genesis [] coinbase) = 3%nat) as Hn by (vm_compute; reflexivity). rewrite Hn in Hl. set (o := occurs a _) in *. clearbody o. cbn. lia.
Qed.
End RecordsWitness.
Import RecordsWitness.


Lemma push_unwind_roundtrip_witness : ∃ s1 st,
  push_block (C := toy_crypto) empty_state 0 genesis [1] [] [] genesis_info ∅ = (Ok (), s1) ∧
  unwind_block (C := toy_crypto) s1 0 = (Ok (), set_store empty_state st) ∧
  ∀ k, ¬ dropped empty_state 0 k → contents st !! k = records empty_state !! k.
Proof. exact (push_unwind_roundtrip empty_state 0 genesis [1] [] [] genesis_info ∅ coinbase empty_state_ok genesis_fresh). Defined.
