(* ===== verification/AltChains.v ===== *)
(** Alternative chains (crates/wrkz-chain/src/state.rs): the tree of blocks kept in memory
    beside the main chain, its leaves and leaf segments, the pruning policy, the branch that
    ends at a block, and forgetting a subtree. *)
From stdpp Require Import gmap.
From S2P Require Import Prelude Constants Hashing Records ChainState.
Local Open Scope Z_scope.

Definition CRYPTONOTE_MAX_ALT_CHAIN_COUNT : nat := 50.
Definition CRYPTONOTE_MAX_ALT_BLOCK_COUNT : nat := 100.

(** * Definitions *)

(** [parents], as the list of the map's values. *)
Definition parents (m : gmap Hash AltBlock) : list Hash := map (λ p : Hash * AltBlock, ab_prev_hash p.2) (map_to_list m).

Definition alternative_leaves (m : gmap Hash AltBlock) : list Hash := filter (λ h, h ∉ parents m) (map fst (map_to_list m)).

(** The order of [(cumulative_difficulty, index, hash)]. *)
Definition leaf_lt (m : gmap Hash AltBlock) (a b : Hash) : bool :=
  match m !! a, m !! b with
  | Some x, Some y =>
      let '(dx, dy) := (cumulative_difficulty (ab_info x), cumulative_difficulty (ab_info y)) in
      (dx <? dy) || ((dx =? dy) && ((ab_index x <? ab_index y) || ((ab_index x =? ab_index y) && bool_decide (bytes_lt a b))))
  | _, _ => false
  end.

(** [min_by_key]: the first of the least. *)
Fixpoint min_leaf (m : gmap Hash AltBlock) (best : Hash) (l : list Hash) : Hash :=
  match l with
  | [] => best
  | h :: l => min_leaf m (if leaf_lt m h best then h else best) l
  end.

Definition weakest_leaf (m : gmap Hash AltBlock) (exclude : option Hash) : option Hash :=
  match filter (λ h, Some h ≠ exclude) (alternative_leaves m) with
  | [] => None
  | h :: l => Some (min_leaf m h l)
  end.

Definition children (m : gmap Hash AltBlock) (h : Hash) : nat := length (filter (h =.) (parents m)).

(** The walk of [leaf_segment] down from [cursor]; a block is visited once, so the number
    of blocks is enough fuel. *)
Fixpoint segment_loop (fuel : nat) (m : gmap Hash AltBlock) (cursor : Hash) : list Hash :=
  match fuel with
  | O => []
  | S fuel =>
      match m !! cursor with
      | None => []
      | Some block => if (1 <? children m cursor)%nat then [] else cursor :: segment_loop fuel m (ab_prev_hash block)
      end
  end.

Definition leaf_segment (m : gmap Hash AltBlock) (leaf : Hash) : list Hash :=
  leaf :: match m !! leaf with Some b => segment_loop (size m) m (ab_prev_hash b) | None => [] end.

Definition remove_all (m : gmap Hash AltBlock) (hs : list Hash) : gmap Hash AltBlock := foldl (λ m h, delete h m) m hs.

(** Passes 2 and 3: the weakest leaf segment goes while there is too much. *)
Fixpoint prune_while (fuel : nat) (too_much : gmap Hash AltBlock → bool) (exclude : option Hash) (m : gmap Hash AltBlock) : gmap Hash AltBlock :=
  match fuel with
  | O => m
  | S fuel =>
      if too_much m then
        match weakest_leaf m exclude with
        | None => m
        | Some weakest => prune_while fuel too_much exclude (remove_all m (leaf_segment m weakest))
        end
      else m
  end.

Definition stale (tip : Z) (m : gmap Hash AltBlock) (leaf : Hash) : bool :=
  match m !! leaf with
  | Some b => (ab_index b <? tip) && (CRYPTONOTE_MAX_ALT_BLOCK_DEPTH <? tip - ab_index b)
  | None => false
  end.

Definition stale_segments (tip : Z) (exclude : option Hash) (m : gmap Hash AltBlock) : list Hash :=
  concat (map (leaf_segment m) (filter (λ h, Some h ≠ exclude ∧ stale tip m h = true) (alternative_leaves m))).

Definition too_many_chains (m : gmap Hash AltBlock) : bool := (CRYPTONOTE_MAX_ALT_CHAIN_COUNT <? length (alternative_leaves m))%nat.
Definition too_many_blocks (m : gmap Hash AltBlock) : bool := (CRYPTONOTE_MAX_ALT_BLOCK_COUNT <? size m)%nat.

Definition prune_alternative_chains (tip : option Z) (exclude : option Hash) (m : gmap Hash AltBlock) : gmap Hash AltBlock :=
  match tip with
  | None => m
  | Some tip =>
      let m := remove_all m (stale_segments tip exclude m) in
      let m := prune_while (size m) too_many_chains exclude m in
      prune_while (size m) too_many_blocks exclude m
  end.

(** One round of [drop_alternative_subtree]: the blocks built on a doomed one join them. *)
Definition doom (m : gmap Hash AltBlock) (doomed : gset Hash) : gset Hash :=
  doomed ∪ list_to_set (map fst (filter (λ p : Hash * AltBlock, ab_prev_hash p.2 ∈ doomed) (map_to_list m))).

Fixpoint doom_loop (fuel : nat) (m : gmap Hash AltBlock) (doomed : gset Hash) : gset Hash :=
  match fuel with
  | O => doomed
  | S fuel => let d := doom m doomed in if (size d =? size doomed)%nat then d else doom_loop fuel m d
  end.

Definition drop_alternative_subtree (m : gmap Hash AltBlock) (root : Hash) : gmap Hash AltBlock :=
  let doomed := doom_loop (S (size m)) m {[ root ]} in
  filter (λ p : Hash * AltBlock, p.1 ∉ doomed) m.

(** The walk of [branch_hashes]: [chain] holds the blocks met, the lowest first. *)
Fixpoint branch_loop (fuel : nat) (m : gmap Hash AltBlock) (main : Hash → result ChainError (option Z)) (cursor : Hash) (chain : list Hash)
  : result ChainError (Z * list Hash) :=
  match m !! cursor with
  | None =>
      o ← main cursor;
      match o with Some index => Ok (index, chain) | None => fails RejectedAsOrphaned end
  | Some alt =>
      if (size m <? S (length chain))%nat then corrupt "alternative chain loops back on itself"
      else match fuel with
           | O => corrupt "alternative chain loops back on itself"
           | S fuel => branch_loop fuel m main (ab_prev_hash alt) (cursor :: chain)
           end
  end.

Definition branch_hashes (m : gmap Hash AltBlock) (main : Hash → result ChainError (option Z)) (hash : Hash) : result ChainError (Z * list Hash) :=
  branch_loop (size m) m main hash [].

(** * The tree *)

(** Removing a set closed under "built on" leaves no block without its parent. *)
Definition closed (m : gmap Hash AltBlock) (hs : Hash → Prop) : Prop :=
  ∀ h b, m !! h = Some b → hs (ab_prev_hash b) → hs h.

Lemma lookup_remove_all m hs h : remove_all m hs !! h = if decide (h ∈ hs) then None else m !! h.
Proof.
  unfold remove_all. revert m. induction hs as [|h' hs IH]; intros m; cbn [foldl]; [by rewrite decide_False by apply not_elem_of_nil|].
  rewrite IH. destruct (decide (h ∈ hs)) as [Hin|Hn]; [by rewrite decide_True by by right|]. destruct (decide (h = h')) as [->|He].
  - by rewrite lookup_delete_eq, decide_True by constructor.
  - rewrite lookup_delete_ne, decide_False; [done|by intros [?|?]%elem_of_cons|done].
Qed.

Lemma lookup_removed m hs h b : remove_all m hs !! h = Some b ↔ m !! h = Some b ∧ h ∉ hs.
Proof. rewrite lookup_remove_all. case_decide; split; try done; by intros []. Qed.

Lemma elem_of_parents m x : x ∈ parents m ↔ ∃ h b, m !! h = Some b ∧ ab_prev_hash b = x.
Proof.
  unfold parents. rewrite list_elem_of_fmap. split.
  - intros ([h b] & -> & Hb%elem_of_map_to_list). by exists h, b.
  - intros (h & b & Hb & <-). exists (h, b). by rewrite elem_of_map_to_list.
Qed.

Lemma elem_of_leaves m h : h ∈ alternative_leaves m ↔ is_Some (m !! h) ∧ h ∉ parents m.
Proof.
  unfold alternative_leaves. rewrite list_elem_of_filter, list_elem_of_fmap. split.
  - intros (Hn & [h' b] & -> & Hb%elem_of_map_to_list). split; [by exists b|done].
  - intros [[b Hb] Hn]. split; [done|]. exists (h, b). by rewrite elem_of_map_to_list.
Qed.

Lemma NoDup_leaves m : NoDup (alternative_leaves m).
Proof. apply NoDup_filter, NoDup_fst_map_to_list. Qed.

(** A block with at most one child. *)
Lemma only_child m x h b h' b' : (children m x ≤ 1)%nat →
  m !! h = Some b → ab_prev_hash b = x → m !! h' = Some b' → ab_prev_hash b' = x → h = h'.
Proof.
  intros Hc Hb Hp Hb' Hp'. destruct (decide (h = h')) as [|Hne]; [done|exfalso].
  assert (map_to_list m ≡ₚ (h, b) :: (h', b') :: map_to_list (delete h' (delete h m))) as Hperm.
  { rewrite <- (map_to_list_delete m h b Hb). constructor. rewrite <- (map_to_list_delete (delete h m) h' b'); [done|].
    by rewrite lookup_delete_ne. }
  assert (parents m ≡ₚ x :: x :: parents (delete h' (delete h m))) as Hpar.
  { unfold parents. etransitivity; [apply Permutation_map, Hperm|]. cbn. by rewrite Hp, Hp'. }
  unfold children in Hc. rewrite Hpar in Hc. rewrite !filter_cons, !decide_True in Hc by done. cbn in Hc. lia.
Qed.

(** ** Leaf segments *)

Lemma segment_loop_elem fuel m cursor x : x ∈ segment_loop fuel m cursor →
  is_Some (m !! x) ∧ (children m x ≤ 1)%nat ∧ (x = cursor ∨ ∃ y b, y ∈ segment_loop fuel m cursor ∧ m !! y = Some b ∧ ab_prev_hash b = x).
Proof.
  revert cursor. induction fuel as [|fuel IH]; intros cursor; cbn [segment_loop]; [by intros ?%not_elem_of_nil|].
  destruct (m !! cursor) as [b|] eqn:Hb; [|by intros ?%not_elem_of_nil]. destruct (1 <? children m cursor)%nat eqn:Hc; [by intros ?%not_elem_of_nil|]. bool_hyps.
  intros [->|Hx]%elem_of_cons; [split_and!; [by exists b|done|by left]|].
  destruct (IH _ Hx) as (? & ? & [->|(y & b' & Hy & Hb' & Hp)]); (split_and!; [done|done|right]).
  - exists cursor, b. split_and!; [constructor|done|done].
  - exists y, b'. split_and!; [by right|done|done].
Qed.

Lemma leaf_segment_closed m leaf : leaf ∈ alternative_leaves m → closed m (.∈ leaf_segment m leaf).
Proof.
  intros [[bl Hl] Hn]%elem_of_leaves h b Hb Hp. unfold leaf_segment in *. rewrite Hl in *.
  apply elem_of_cons in Hp as [Hp|Hp]; [destruct Hn; apply elem_of_parents; by exists h, b|].
  destruct (segment_loop_elem _ _ _ _ Hp) as (_ & Hc & [He|(y & b' & Hy & Hb' & Hp')]).
  - rewrite (only_child m (ab_prev_hash b) h b leaf bl) by done. constructor.
  - rewrite (only_child m (ab_prev_hash b) h b y b') by done. by right.
Qed.

(** Below the leaf a segment holds no leaf. *)
Lemma leaf_segment_leaf m leaf x : leaf ∈ alternative_leaves m → x ∈ leaf_segment m leaf → x ∈ alternative_leaves m → x = leaf.
Proof.
  intros [[bl Hl] _]%elem_of_leaves Hx [_ Hn]%elem_of_leaves. unfold leaf_segment in Hx. rewrite Hl in Hx.
  apply elem_of_cons in Hx as [->|Hx]; [done|]. destruct Hn. apply elem_of_parents.
  destruct (segment_loop_elem _ _ _ _ Hx) as (_ & _ & [->|(y & b & _ & Hb & Hp)]); [by exists leaf, bl|by exists y, b].
Qed.

(** ** What a removal keeps *)

(** Every block reaches the main chain: its parent is an alternative block one below it, or
    the main-chain block one below it. *)
Definition alts_ok (on_main : Hash → Z → Prop) (m : gmap Hash AltBlock) : Prop := ∀ h b, m !! h = Some b →
  (∃ p, m !! ab_prev_hash b = Some p ∧ ab_index b = ab_index p + 1) ∨
  (m !! ab_prev_hash b = None ∧ on_main (ab_prev_hash b) (ab_index b - 1)).

(** Blocks only go, and none that stays loses its parent. *)
Definition keeps_roots (m m' : gmap Hash AltBlock) : Prop := m' ⊆ m ∧
  ∀ h b, m' !! h = Some b → is_Some (m !! ab_prev_hash b) → is_Some (m' !! ab_prev_hash b).

#[export] Instance keeps_roots_preorder : PreOrder keeps_roots.
Proof.
  split; [done|]. intros m1 m2 m3 [Hs Hk] [Hs' Hk']. split; [by transitivity m2|]. intros h b Hb Hp.
  apply (Hk' h b Hb), (Hk h b); [|done]. by apply (lookup_weaken m3 m2).
Qed.

Lemma keeps_roots_ok on_main m m' : alts_ok on_main m → keeps_roots m m' → alts_ok on_main m'.
Proof.
  intros Hok [Hs Hk] h b Hb. destruct (Hok h b (lookup_weaken _ _ _ _ Hb Hs)) as [(p & Hp & Hi)|[Hp Hi]].
  - left. destruct (Hk h b Hb ltac:(by exists p)) as [p' Hp']. pose proof (lookup_weaken _ _ _ _ Hp' Hs). simplify_eq. by exists p.
  - right. split; [|done]. destruct (m' !! ab_prev_hash b) eqn:E; [|done]. pose proof (lookup_weaken _ _ _ _ E Hs). congruence.
Qed.

Lemma remove_closed m hs : closed m (.∈ hs) → keeps_roots m (remove_all m hs).
Proof.
  intros Hc. split.
  - apply map_subseteq_spec. by intros h b [? _]%lookup_removed.
  - intros h b [Hb Hn]%lookup_removed [p Hp]. exists p. apply lookup_removed. split; [done|]. intros Hin. by apply Hn, (Hc h b).
Qed.

Lemma remove_segment_size m leaf : leaf ∈ alternative_leaves m → (size (remove_all m (leaf_segment m leaf)) < size m)%nat.
Proof.
  intros [[b Hb] _]%elem_of_leaves. apply map_subset_size. split; [apply map_subseteq_spec; by intros h x [? _]%lookup_removed|].
  intros Hs. pose proof (lookup_weaken _ _ _ _ Hb Hs) as [_ Hn]%lookup_removed. apply Hn. constructor.
Qed.

(** In a tree the indexes fall along a segment, so its blocks have different parents. *)
Lemma segment_loop_index on_main fuel m cursor x b c : alts_ok on_main m → x ∈ segment_loop fuel m cursor →
  m !! cursor = Some c → m !! x = Some b → ab_index b ≤ ab_index c ∧ (ab_index b = ab_index c → x = cursor).
Proof.
  intros Hok. revert cursor c. induction fuel as [|fuel IH]; intros cursor c; cbn [segment_loop]; [by intros ?%not_elem_of_nil|].
  intros Hx Hc Hb. rewrite Hc in Hx. destruct (_ <? _)%nat; [by apply not_elem_of_nil in Hx|]. apply elem_of_cons in Hx as [->|Hx]; [by simplify_eq|].
  destruct (Hok cursor c Hc) as [(p & Hp & Hi)|[Hp _]].
  - destruct (IH _ p Hx Hp Hb). split; [lia|]. intros ?. lia.
  - destruct fuel; cbn [segment_loop] in Hx; [by apply not_elem_of_nil in Hx|]. rewrite Hp in Hx. by apply not_elem_of_nil in Hx.
Qed.

Lemma segment_loop_injective on_main fuel m cursor x y bx by_ : alts_ok on_main m →
  x ∈ segment_loop fuel m cursor → y ∈ segment_loop fuel m cursor → m !! x = Some bx → m !! y = Some by_ →
  ab_index bx = ab_index by_ → x = y.
Proof.
  intros Hok. revert cursor. induction fuel as [|fuel IH]; intros cursor; cbn [segment_loop]; [by intros ?%not_elem_of_nil|].
  destruct (m !! cursor) as [c|] eqn:Hc; [|by intros ?%not_elem_of_nil]. destruct (_ <? _)%nat; [by intros ?%not_elem_of_nil|].
  assert (∀ z bz, z ∈ segment_loop fuel m (ab_prev_hash c) → m !! z = Some bz → ab_index bz < ab_index c) as Hlt.
  { intros z bz Hz Hbz. destruct (Hok cursor c Hc) as [(p & Hp & Hi)|[Hp _]].
    - destruct (segment_loop_index on_main _ _ _ _ _ _ Hok Hz Hp Hbz). lia.
    - destruct fuel; cbn [segment_loop] in Hz; [by apply not_elem_of_nil in Hz|]. rewrite Hp in Hz. by apply not_elem_of_nil in Hz. }
  intros [->|Hx]%elem_of_cons [->|Hy]%elem_of_cons Hbx Hby He; simplify_eq; [done| | |by apply (IH (ab_prev_hash c))].
  - pose proof (Hlt _ _ Hy Hby). lia.
  - pose proof (Hlt _ _ Hx Hbx). lia.
Qed.

Lemma leaf_segment_injective on_main m leaf x y bx by_ : alts_ok on_main m →
  x ∈ leaf_segment m leaf → y ∈ leaf_segment m leaf → m !! x = Some bx → m !! y = Some by_ → ab_index bx = ab_index by_ → x = y.
Proof.
  intros Hok. unfold leaf_segment. destruct (m !! leaf) as [c|] eqn:Hc.
  2: { intros [->|?%not_elem_of_nil]%elem_of_cons [->|?%not_elem_of_nil]%elem_of_cons; done. }
  assert (∀ z bz, z ∈ segment_loop (size m) m (ab_prev_hash c) → m !! z = Some bz → ab_index bz < ab_index c) as Hlt.
  { intros z bz Hz Hbz. destruct (Hok leaf c Hc) as [(p & Hp & Hi)|[Hp _]].
    - destruct (segment_loop_index on_main _ _ _ _ _ _ Hok Hz Hp Hbz). lia.
    - destruct (size m); cbn [segment_loop] in Hz; [by apply not_elem_of_nil in Hz|]. rewrite Hp in Hz. by apply not_elem_of_nil in Hz. }
  intros [->|Hx]%elem_of_cons [->|Hy]%elem_of_cons Hbx Hby He; simplify_eq; [done| | |].
  - pose proof (Hlt _ _ Hy Hby). lia.
  - pose proof (Hlt _ _ Hx Hbx). lia.
  - by apply (segment_loop_injective on_main (size m) m (ab_prev_hash c) x y bx by_).
Qed.

Lemma filter_map_length {A B} `{EqDecision B} (f : A → B) (x : B) (l : list A) :
  length (filter (x =.) (map f l)) = length (filter (λ a, x = f a) l).
Proof.
  induction l as [|a l IH]; [done|]. cbn [map]. rewrite !filter_cons. case_decide; cbn [length]; by rewrite ?IH.
Qed.

Lemma two_children m h : (1 < children m h)%nat →
  ∃ x bx y by_, x ≠ y ∧ m !! x = Some bx ∧ ab_prev_hash bx = h ∧ m !! y = Some by_ ∧ ab_prev_hash by_ = h.
Proof.
  unfold children, parents. rewrite filter_map_length. set (l := filter _ _). intros Hl.
  assert (NoDup l) as Hd by apply NoDup_filter, NoDup_map_to_list.
  assert (∀ p, p ∈ l → m !! p.1 = Some p.2 ∧ ab_prev_hash p.2 = h) as Hin.
  { intros [k b] [Hp Hb%elem_of_map_to_list]%list_elem_of_filter. by cbn in *. }
  destruct l as [|[x bx] [|[y by_] l]]; cbn in Hl; [lia|lia|]. apply NoDup_cons in Hd as [Hn _].
  destruct (Hin (x, bx)) as [? ?]; [constructor|]. destruct (Hin (y, by_)) as [? ?]; [by right; constructor|].
  exists x, bx, y, by_. split_and!; try done. intros ->. apply Hn. cbn in *. simplify_eq. constructor.
Qed.

(** A segment stops only at a fork or at the main chain, unless its fuel is spent. *)
Lemma segment_loop_maximal fuel m cursor x b :
  x ∈ segment_loop fuel m cursor → m !! x = Some b → is_Some (m !! ab_prev_hash b) → (children m (ab_prev_hash b) ≤ 1)%nat →
  ab_prev_hash b ∈ segment_loop fuel m cursor ∨ length (segment_loop fuel m cursor) = fuel.
Proof.
  revert cursor. induction fuel as [|fuel IH]; intros cursor; cbn [segment_loop]; [by intros ?%not_elem_of_nil|].
  destruct (m !! cursor) as [c|] eqn:Hc; [|by intros ?%not_elem_of_nil]. destruct (_ <? _)%nat; [by intros ?%not_elem_of_nil|].
  intros [->|Hx]%elem_of_cons Hb [p Hp] Hch.
  - simplify_eq. destruct fuel as [|fuel]; [by right|]. left. right. cbn [segment_loop]. rewrite Hp.
    rewrite (proj2 (Nat.ltb_ge _ _)) by done. constructor.
  - destruct (IH _ Hx Hb ltac:(by exists p) Hch) as [?|Hl]; [left; by right|right]. cbn. by rewrite Hl.
Qed.

Lemma segment_NoDup on_main m leaf b : alts_ok on_main m → m !! leaf = Some b → NoDup (leaf_segment m leaf) ∧ (length (leaf_segment m leaf) ≤ size m)%nat.
Proof.
  intros Hok Hb. assert (∀ fuel cursor, (∀ c, m !! cursor = Some c → ab_index c < ab_index b) →
    NoDup (segment_loop fuel m cursor) ∧ ∀ z bz, z ∈ segment_loop fuel m cursor → m !! z = Some bz → ab_index bz < ab_index b) as Hloop.
  { induction fuel as [|fuel IH]; intros cursor Hlt; cbn [segment_loop]; [split; [constructor|by intros ? ? ?%not_elem_of_nil]|].
    destruct (m !! cursor) as [c|] eqn:Hc; [|split; [constructor|by intros ? ? ?%not_elem_of_nil]].
    destruct (_ <? _)%nat; [split; [constructor|by intros ? ? ?%not_elem_of_nil]|].
    specialize (Hlt c eq_refl). assert (∀ p, m !! ab_prev_hash c = Some p → ab_index p < ab_index c) as Hp.
    { intros p Hp. destruct (Hok cursor c Hc) as [(p' & Hp' & Hi)|[Hp' _]]; simplify_eq. lia. }
    destruct (IH (ab_prev_hash c)) as [Hd Hall]; [intros p ?%Hp; lia|]. split.
    - constructor; [|done]. intros Hin. destruct (m !! ab_prev_hash c) as [p|] eqn:Hpc.
      + destruct (segment_loop_index on_main _ _ _ _ _ _ Hok Hin Hpc Hc). specialize (Hp p eq_refl). lia.
      + destruct fuel; cbn [segment_loop] in Hin; [by apply not_elem_of_nil in Hin|]. rewrite Hpc in Hin. by apply not_elem_of_nil in Hin.
    - intros z bz [->|Hz]%elem_of_cons Hbz; [by simplify_eq|by apply (Hall z)]. }
  assert (NoDup (leaf_segment m leaf)) as Hd.
  { unfold leaf_segment. rewrite Hb. destruct (Hloop (size m) (ab_prev_hash b)) as [Hd Hall].
    - intros c Hc. destruct (Hok leaf b Hb) as [(p & Hp & Hi)|[Hp _]]; simplify_eq. lia.
    - constructor; [|done]. intros Hin. specialize (Hall leaf b Hin Hb). lia. }
  split; [done|]. rewrite <- (size_list_to_set (C := gset Hash)), <- (size_dom (D := gset Hash)) by done. apply subseteq_size.
  intros x Hx%elem_of_list_to_set. apply elem_of_dom. unfold leaf_segment in Hx. rewrite Hb in Hx.
  apply elem_of_cons in Hx as [->|Hx]; [by exists b|]. by destruct (segment_loop_elem _ _ _ _ Hx).
Qed.

(** Removing a leaf segment frees no new leaf. *)
Lemma remove_segment_leaves on_main m leaf h : alts_ok on_main m → leaf ∈ alternative_leaves m →
  h ∈ alternative_leaves (remove_all m (leaf_segment m leaf)) → h ∈ alternative_leaves m.
Proof.
  intros Hok Hleaf [[bh [Hbh Hn]%lookup_removed] Hp]%elem_of_leaves. apply elem_of_leaves. split; [by exists bh|]. intros (x & bx & Hbx & Hx)%elem_of_parents.
  destruct (decide (x ∈ leaf_segment m leaf)) as [Hin|Hout].
  2: { destruct Hp. apply elem_of_parents. exists x, bx. by rewrite lookup_removed. }
  pose proof Hleaf as [[bl Hl] _]%elem_of_leaves. destruct (segment_NoDup on_main m leaf bl Hok Hl) as [_ Hlen].
  assert (1 < children m h)%nat as Hch.
  { destruct (decide (1 < children m h)%nat) as [|Hc]; [done|exfalso]. apply Hn. unfold leaf_segment in *. rewrite Hl in *. cbn [length] in Hlen.
    apply elem_of_cons in Hin as [->|Hin].
    - simplify_eq. right. destruct (size m) as [|n]; [lia|]. cbn [segment_loop]. rewrite Hbh, (proj2 (Nat.ltb_ge _ _)) by lia. constructor.
    - right. subst h. destruct (segment_loop_maximal (size m) m _ x bx Hin Hbx) as [?|?]; [by exists bh|lia|done|lia]. }
  destruct (two_children m h Hch) as (y & b1 & z & b2 & Hne & Hy & Hyp & Hz & Hzp).
  assert (∀ w b, m !! w = Some b → ab_prev_hash b = h → w ∈ leaf_segment m leaf) as Hall.
  { intros w b Hw Hwp. destruct (decide (w ∈ leaf_segment m leaf)) as [|Hw']; [done|]. destruct Hp. apply elem_of_parents. exists w, b. by rewrite lookup_removed. }
  apply Hne, (leaf_segment_injective on_main m leaf y z b1 b2); [done|by apply (Hall y b1)|by apply (Hall z b2)|done|done|].
  destruct (Hok y b1 Hy) as [(p & Hp1 & ->)|[Hp1 _]]; destruct (Hok z b2 Hz) as [(p2 & Hp2 & ->)|[Hp2 _]]; rewrite ?Hyp, ?Hzp in *; by simplify_eq.
Qed.

(** ** The weakest leaf *)

Lemma min_leaf_in m best l : min_leaf m best l ∈ best :: l.
Proof.
  revert best. induction l as [|h l IH]; intros best; cbn [min_leaf]; [constructor|].
  specialize (IH (if leaf_lt m h best then h else best)). apply elem_of_cons in IH as [IH|IH]; [|by do 2 right].
  rewrite IH. destruct (leaf_lt m h best); [by right; constructor|constructor].
Qed.

Lemma weakest_leaf_spec m exclude w : weakest_leaf m exclude = Some w → w ∈ alternative_leaves m ∧ Some w ≠ exclude.
Proof.
  unfold weakest_leaf. destruct (filter _ _) as [|h l] eqn:E; [done|]. intros [= <-].
  assert (min_leaf m h l ∈ filter (λ h, Some h ≠ exclude) (alternative_leaves m)) as Hw by (rewrite E; apply min_leaf_in).
  apply list_elem_of_filter in Hw. tauto.
Qed.

Lemma weakest_leaf_None m exclude : weakest_leaf m exclude = None → ∀ h, h ∈ alternative_leaves m → Some h = exclude.
Proof.
  unfold weakest_leaf. destruct (filter _ _) as [|h l] eqn:E; [|done]. intros _ h Hh. destruct (decide (Some h = exclude)) as [|Hne]; [done|].
  assert (h ∈ filter (λ h, Some h ≠ exclude) (alternative_leaves m)) as Hf by by apply list_elem_of_filter. rewrite E in Hf. by apply not_elem_of_nil in Hf.
Qed.

(** ** Pruning *)

(** A leaf stays a leaf while other segments go. *)
Lemma keep_leaf m hs h : h ∈ alternative_leaves m → h ∉ hs → h ∈ alternative_leaves (remove_all m hs).
Proof.
  intros [[b Hb] Hn]%elem_of_leaves Hh. apply elem_of_leaves. split; [exists b; by rewrite lookup_removed|].
  intros (x & bx & [Hx _]%lookup_removed & Hp)%elem_of_parents. apply Hn, elem_of_parents. by exists x, bx.
Qed.

Definition excluded_leaf (exclude : option Hash) (m : gmap Hash AltBlock) : Prop := ∀ e, exclude = Some e → e ∈ alternative_leaves m.

Lemma prune_while_spec on_main too_much exclude fuel m :
  alts_ok on_main m → excluded_leaf exclude m → (size m ≤ fuel)%nat →
  let m' := prune_while fuel too_much exclude m in
  keeps_roots m m' ∧ excluded_leaf exclude m' ∧ (∀ h, h ∈ alternative_leaves m' → h ∈ alternative_leaves m) ∧
  (too_much m' = false ∨ ∀ h, h ∈ alternative_leaves m' → Some h = exclude).
Proof.
  revert m. induction fuel as [|fuel IH]; intros m Hok He Hsz; cbn [prune_while].
  { split_and!; [done|done|done|right]. intros h [[b Hb] _]%elem_of_leaves. rewrite (map_size_empty_inv m) in Hb by lia. done. }
  destruct (too_much m) eqn:Ht; [|by split_and!; [done|done|done|left]].
  destruct (weakest_leaf m exclude) as [w|] eqn:Hw; [|by split_and!; [done|done|done|right; by apply weakest_leaf_None]].
  apply weakest_leaf_spec in Hw as [Hw Hne]. pose proof (remove_closed _ _ (leaf_segment_closed m w Hw)) as Hk.
  destruct (IH (remove_all m (leaf_segment m w))) as (Hk' & He' & Hl & Hend).
  - by apply (keeps_roots_ok on_main m).
  - intros e Hx. apply keep_leaf; [by apply He|]. intros Hin. apply (leaf_segment_leaf m w) in Hin; [congruence|done|by apply He].
  - pose proof (remove_segment_size m w Hw). lia.
  - split_and!; [by etransitivity|done| |done]. intros h Hh%Hl. by apply (remove_segment_leaves on_main m w).
Qed.

Lemma stale_segments_closed t exclude m : closed m (.∈ stale_segments t exclude m).
Proof.
  intros h b Hb Hp. unfold stale_segments in *. rewrite list_elem_of_In, in_concat in *. destruct Hp as (seg & Hs & Hin). exists seg. split; [done|].
  apply in_map_iff in Hs as (leaf & <- & Hl). apply list_elem_of_In in Hl. apply list_elem_of_filter in Hl as [_ Hl]. rewrite <- list_elem_of_In in *. by apply (leaf_segment_closed m leaf Hl h b).
Qed.

Lemma stale_segments_spec t exclude m x : x ∈ alternative_leaves m →
  x ∈ stale_segments t exclude m ↔ Some x ≠ exclude ∧ stale t m x = true.
Proof.
  intros Hx. unfold stale_segments. rewrite list_elem_of_In, in_concat. split.
  - intros (seg & Hs & Hin). apply in_map_iff in Hs as (leaf & <- & Hl). apply list_elem_of_In, list_elem_of_filter in Hl as [Hc Hl].
    apply list_elem_of_In in Hin. by rewrite (leaf_segment_leaf m leaf x Hl Hin Hx).
  - intros Hc. exists (leaf_segment m x). split; [|left; done]. apply in_map. apply list_elem_of_In, list_elem_of_filter. done.
Qed.

(** C16. Pruning alternative chains keeps what a reorganisation needs: blocks only go, no
    block that stays loses its parent, so every one still reaches the main chain; the leaf
    just extended is never pruned, nor any block under it; a leaf that fell behind is
    gone; at most 50 leaves remain, and at most 100 blocks unless the extended branch is
    the only one left. *)
Theorem prune_alternative_chains_spec on_main t exclude m :
  alts_ok on_main m → excluded_leaf exclude m →
  let m' := prune_alternative_chains (Some t) exclude m in
  alts_ok on_main m' ∧ keeps_roots m m' ∧ excluded_leaf exclude m' ∧
  (∀ h, h ∈ alternative_leaves m → Some h ≠ exclude → stale t m h = true → m' !! h = None) ∧
  (length (alternative_leaves m') ≤ CRYPTONOTE_MAX_ALT_CHAIN_COUNT)%nat ∧
  ((size m' ≤ CRYPTONOTE_MAX_ALT_BLOCK_COUNT)%nat ∨ ∀ h, h ∈ alternative_leaves m' → Some h = exclude).
Proof.
  intros Hok He. cbn zeta. unfold prune_alternative_chains. set (m1 := remove_all m _).
  assert (keeps_roots m m1) as Hk1 by apply remove_closed, stale_segments_closed. pose proof (keeps_roots_ok on_main _ _ Hok Hk1) as Hok1.
  assert (excluded_leaf exclude m1) as He1.
  { intros e Hx. apply keep_leaf; [by apply He|]. rewrite stale_segments_spec by by apply He. rewrite Hx. tauto. }
  destruct (prune_while_spec on_main too_many_chains exclude (size m1) m1 Hok1 He1 ltac:(lia)) as (Hk2 & He2 & _ & Hend2). set (m2 := prune_while _ _ _ m1) in *.
  pose proof (keeps_roots_ok on_main _ _ Hok1 Hk2) as Hok2.
  destruct (prune_while_spec on_main too_many_blocks exclude (size m2) m2 Hok2 He2 ltac:(lia)) as (Hk3 & He3 & Hl3 & Hend3). set (m3 := prune_while _ _ _ m2) in *.
  assert (keeps_roots m m3) as Hk by (by transitivity m1; [|transitivity m2]).
  assert (keeps_roots m1 m3) as Hk13 by by transitivity m2.
  split_and!; [by apply (keeps_roots_ok on_main m)|exact Hk|exact He3| | |].
  - intros h Hh Hne Hs. destruct (m3 !! h) as [b|] eqn:E; [|done]. pose proof (lookup_weaken _ _ _ _ E (proj1 Hk13)) as [_ Hn]%lookup_removed.
    destruct Hn. by apply stale_segments_spec.
  - etransitivity; [apply (submseteq_length _ (alternative_leaves m2)), NoDup_submseteq; [apply NoDup_leaves|done]|].
    destruct Hend2 as [Hc|Hc]; [unfold too_many_chains in Hc; by apply Nat.ltb_ge in Hc|].
    destruct (alternative_leaves m2) as [|a [|b l]] eqn:E; cbn; [lia|unfold CRYPTONOTE_MAX_ALT_CHAIN_COUNT; lia|exfalso].
    pose proof (NoDup_leaves m2) as Hd. rewrite E in Hd. apply NoDup_cons in Hd as [Hn _].
    assert (Some a = Some b) as [= ->] by (rewrite (Hc a), (Hc b); [done|by right; constructor|constructor]). apply Hn. constructor.
  - destruct Hend3 as [Hc|Hc]; [left|by right]. unfold too_many_blocks in Hc. by apply Nat.ltb_ge in Hc.
Qed.

(** ** Branches *)

(** The blocks of [chain], each built on the one before it, the first on [parent]. *)
Fixpoint linked (m : gmap Hash AltBlock) (parent : Hash) (chain : list Hash) : Prop :=
  match chain with
  | [] => True
  | h :: chain => (∃ b, m !! h = Some b ∧ ab_prev_hash b = parent) ∧ linked m h chain
  end.

(** Every block of [chain] is an alternative block above index [i]. *)
Definition all_above (m : gmap Hash AltBlock) (i : Z) (chain : list Hash) : Prop :=
  Forall (λ h, ∃ b, m !! h = Some b ∧ i < ab_index b) chain.

Lemma chain_fits (m : gmap Hash AltBlock) (chain : list Hash) : NoDup chain → Forall (λ h, is_Some (m !! h)) chain → (length chain ≤ size m)%nat.
Proof.
  intros Hd Hc. rewrite <- (size_list_to_set (C := gset Hash)), <- (size_dom (D := gset Hash)) by done. apply subseteq_size.
  intros x Hx%elem_of_list_to_set. apply elem_of_dom. rewrite Forall_forall in Hc. by apply Hc.
Qed.

Section Branch.
Variables (on_main : Hash → Z → Prop) (main : Hash → result ChainError (option Z)) (m : gmap Hash AltBlock).
Hypothesis main_ok : ∀ h i, on_main h i → main h = Ok (Some i).
Hypothesis Hok : alts_ok on_main m.

Lemma cursor_fits cursor chain b : m !! cursor = Some b → NoDup chain → all_above m (ab_index b) chain →
  NoDup (cursor :: chain) ∧ (S (length chain) ≤ size m)%nat.
Proof.
  intros Hb Hd Ha. assert (NoDup (cursor :: chain)) as Hd'.
  { constructor; [|done]. intros Hin. unfold all_above in Ha. rewrite Forall_forall in Ha. destruct (Ha cursor Hin) as (b' & Hb' & Hlt). simplify_eq. lia. }
  split; [done|]. apply (chain_fits m (cursor :: chain) Hd'). constructor; [by exists b|].
  eapply Forall_impl; [exact Ha|]. intros h (b' & Hb' & _). by exists b'.
Qed.

Lemma branch_loop_spec fuel cursor chain b :
  m !! cursor = Some b → NoDup chain → all_above m (ab_index b) chain → linked m cursor chain → (fuel + length chain = size m)%nat →
  ∃ fork index below, branch_loop fuel m main cursor chain = Ok (index, below ++ cursor :: chain) ∧ m !! fork = None ∧ on_main fork index ∧
    linked m fork (below ++ cursor :: chain) ∧ ab_index b = index + Z.of_nat (length below) + 1.
Proof.
  revert cursor chain b. induction fuel as [|fuel IH]; intros cursor chain b Hb Hd Ha Hl Hf;
    destruct (cursor_fits cursor chain b Hb Hd Ha) as [Hd' Hlen]; [lia|].
  cbn [branch_loop]. rewrite Hb, (proj2 (Nat.ltb_ge _ _)) by lia.
  assert (linked m (ab_prev_hash b) (cursor :: chain)) as Hl' by (split; [by exists b|done]).
  destruct (Hok cursor b Hb) as [(p & Hp & Hi)|[Hp Hi]].
  - destruct (IH (ab_prev_hash b) (cursor :: chain) p Hp Hd') as (fork & index & below & Hr & Hfork & Hm & Hlk & He); [| done|cbn; lia|].
    + constructor; [exists b; split; [done|lia]|]. eapply Forall_impl; [exact Ha|]. intros h (b' & Hb' & Hlt). exists b'. split; [done|lia].
    + exists fork, index, (below ++ [ab_prev_hash b]). rewrite <- app_assoc. split_and!; try done. rewrite length_app. cbn. lia.
  - exists (ab_prev_hash b), (ab_index b - 1), []. destruct fuel; cbn [branch_loop]; rewrite Hp, (main_ok _ _ Hi);
      (repeat (split; [first [done|exact Hl']|]); cbn; lia).
Qed.
End Branch.

(** The branch of an alternative block is found and ends on the main chain: the walk
    never reports a loop or an orphan, and returns the blocks from the fork point up to
    the block asked for, each built on the one before, as many as its height above the fork. *)
Theorem branch_hashes_spec on_main main m hash b :
  (∀ h i, on_main h i → main h = Ok (Some i)) → alts_ok on_main m → m !! hash = Some b →
  ∃ fork index chain, branch_hashes m main hash = Ok (index, chain) ∧ on_main fork index ∧ m !! fork = None ∧
    linked m fork chain ∧ last chain = Some hash ∧ ab_index b = index + Z.of_nat (length chain).
Proof.
  intros Hmain Hok Hb. destruct (branch_loop_spec on_main main m Hmain Hok (size m) hash [] b Hb) as (fork & index & below & Hr & Hf & Hm & Hl & Hi);
    [constructor|constructor|done|cbn; lia|].
  exists fork, index, (below ++ [hash]). split_and!; [done|done|done|done|by rewrite last_snoc|]. rewrite length_app. cbn. lia.
Qed.

(** ** Forgetting a subtree *)

(** [h] is [root] or built, block upon block, on it. *)
Inductive descends (m : gmap Hash AltBlock) (root : Hash) : Hash → Prop :=
| descends_root : descends m root root
| descends_child h b : m !! h = Some b → descends m root (ab_prev_hash b) → descends m root h.

Lemma elem_of_doom m d h : h ∈ doom m d ↔ h ∈ d ∨ ∃ b, m !! h = Some b ∧ ab_prev_hash b ∈ d.
Proof.
  unfold doom. rewrite elem_of_union, elem_of_list_to_set, list_elem_of_fmap. split.
  - intros [?|([k b] & -> & [Hp Hb%elem_of_map_to_list]%list_elem_of_filter)]; [by left|right]. by exists b.
  - intros [?|(b & Hb & Hp)]; [by left|right]. exists (h, b). split; [done|]. apply list_elem_of_filter. by rewrite elem_of_map_to_list.
Qed.

Lemma doom_loop_spec m root fuel d :
  d ⊆ {[ root ]} ∪ dom m → root ∈ d → (∀ h, h ∈ d → descends m root h) → (size (({[ root ]} : gset Hash) ∪ dom m) < fuel + size d)%nat →
  ∀ h, h ∈ doom_loop fuel m d ↔ descends m root h.
Proof.
  revert d. induction fuel as [|fuel IH]; intros d Hd Hr Hs Hf h.
  { pose proof (subseteq_size _ _ Hd). lia. }
  cbn [doom_loop]. set (d' := doom m d). assert (d ⊆ d') as Hsub by (intros x Hx; apply elem_of_doom; by left).
  assert (d' ⊆ {[ root ]} ∪ dom m) as Hd'.
  { intros x [Hx|(b & Hb & _)]%elem_of_doom; [by apply Hd|]. apply elem_of_union. right. by apply elem_of_dom_2 in Hb. }
  assert (∀ x, x ∈ d' → descends m root x) as Hs' by (intros x [?|(b & Hb & Hp)]%elem_of_doom; [by apply Hs|by eapply descends_child; [|apply Hs]]).
  destruct (_ =? _)%nat eqn:E; bool_hyps.
  - split; [apply Hs'|]. assert (d' ⊆ d) as Hback.
    { destruct (decide (d' ⊆ d)) as [|Hn]; [done|]. assert (d ⊂ d') as Hlt by done. apply subset_size in Hlt. lia. }
    induction 1 as [|x b Hb _ IHd]; [by apply Hsub|]. apply elem_of_doom. right. exists b. split; [done|]. by apply Hback.
  - apply IH; [done|by apply Hsub|done|]. pose proof (subseteq_size _ _ Hsub). lia.
Qed.

(** Dropping an alternative subtree forgets the block and exactly the blocks built on
    it, directly or not, and keeps every other one; the loop that finds them ends. *)
Theorem drop_alternative_subtree_spec m root h b :
  drop_alternative_subtree m root !! h = Some b ↔ m !! h = Some b ∧ ¬ descends m root h.
Proof.
  unfold drop_alternative_subtree. rewrite map_lookup_filter_Some. cbn [fst].
  rewrite (doom_loop_spec m root (S (size m)) {[ root ]}); [done| | | |].
  - intros x Hx. apply elem_of_union. by left.
  - by apply elem_of_singleton.
  - intros x ->%elem_of_singleton. constructor.
  - pose proof (size_union_alt ({[ root ]} : gset Hash) (dom m)) as Hu. pose proof (subseteq_size (dom m ∖ {[ root ]}) (dom m) ltac:(by intros x [? _]%elem_of_difference)) as Hs.
    rewrite size_dom in Hs. rewrite size_singleton in *. lia.
Qed.

(** * Witnesses *)

Module AltWitness.

(** Two branches above main-chain block 9: one of two blocks and one of a single block. *)
Definition h (n : Z) : Hash := replicate 32 n.
Definition info (work : Z) : BlockInfo := mkBlockInfo (h 0) 0 0 work 0 0.
Definition tree : gmap Hash AltBlock :=
  {[ h 1 := mkAltBlock 10 (h 9) (info 5) [] []; h 2 := mkAltBlock 11 (h 1) (info 6) [] []; h 3 := mkAltBlock 10 (h 9) (info 4) [] [] ]}.
Definition on_main (k : Hash) (i : Z) : Prop := k = h 9 ∧ i = 9.

Lemma tree_ok : alts_ok on_main tree.
Proof.
  intros k b Hb. unfold tree in Hb. apply lookup_insert_Some in Hb as [[<- <-]|[_ Hb]]; [by right|].
  apply lookup_insert_Some in Hb as [[<- <-]|[_ Hb]]; [left; eexists; split; [vm_compute; reflexivity|done]|].
  apply lookup_singleton_Some in Hb as [<- <-]. by right.
Qed.
End AltWitness.
Import AltWitness.

(** At tip 191 the short branch is 181 behind and goes; the extended one stays. *)
Lemma prune_alternative_chains_spec_witness :
  prune_alternative_chains (Some 191) (Some (h 2)) tree !! h 3 = None ∧ h 2 ∈ alternative_leaves (prune_alternative_chains (Some 191) (Some (h 2)) tree).
Proof.
  destruct (prune_alternative_chains_spec on_main 191 (Some (h 2)) tree tree_ok) as (_ & _ & He & Hs & _).
  - intros e [= <-]. apply (bool_decide_unpack _). vm_compute. exact I.
  - split; [apply Hs; [apply (bool_decide_unpack _); vm_compute; exact I|done|vm_compute; reflexivity]|by apply He].
Defined.

Lemma branch_hashes_spec_witness :
  branch_hashes tree (λ k, Ok (if bool_decide (k = h 9) then Some 9 else None)) (h 2) = Ok (9, [h 1; h 2]) ∧
  ∃ fork index chain, branch_hashes tree (λ k, Ok (if bool_decide (k = h 9) then Some 9 else None)) (h 2) = Ok (index, chain) ∧ on_main fork index ∧
    tree !! fork = None ∧ linked tree fork chain ∧ last chain = Some (h 2) ∧ 11 = index + Z.of_nat (length chain).
Proof.
  split; [vm_compute; reflexivity|].
  apply (branch_hashes_spec on_main _ tree (h 2) (mkAltBlock 11 (h 1) (info 6) [] [])); [|apply tree_ok|vm_compute; reflexivity].
  intros k i [-> ->]. by rewrite bool_decide_eq_true_2.
Defined.
