(* ===== verification/AddBlock.v ===== *)
(** Block acceptance (crates/wrkz-chain/src/state.rs): [validate_block], [add_block] and the
    paths under it, the main chain, the alternative chains and the chain switch.

    A check is a [Checked] value: [None] is a panic of the arithmetic it calls (a difficulty
    or reward division by zero, an index out of range), otherwise its [Result]. *)
From stdpp Require Import gmap.
From S2P Require Import Prelude Constants Hashing Tx Block Reward Difficulty Checkpoints Parallel Records Store Validate.
From S2P Require Import ChainState AltChains.
Local Open Scope Z_scope.

Definition Checked (A : Type) : Type := option (result ChainError A).

Definition ok {A} (a : A) : Checked A := Some (Ok a).
Definition fail_with {A} (r : ChainRule) : Checked A := Some (fails r).
Definition of_result {A} (r : result ChainError A) : Checked A := Some r.

Definition and_then_check {A B} (m : Checked A) (f : A → Checked B) : Checked B :=
  match m with
  | None => None
  | Some (Err e) => Some (Err e)
  | Some (Ok a) => f a
  end.

Declare Scope checked_scope.
Notation "'let?' x := m 'in' k" := (and_then_check m (λ x, k)) (at level 10, x name, m at level 100, k at level 200) : checked_scope.
Local Open Scope checked_scope.

Definition ensure_rule (b : bool) (r : ChainRule) : Checked unit := if b then ok () else fail_with r.
Definition or_rule {E A} (what : string) (r : result E A) : Checked A := of_result (map_err (λ _, RuleError (DeserializationFailed what)) r).

Inductive AddStatus : Type := Main | Alternative | AlternativeAndSwitched.

Record AddOutcome := mkAddOutcome {
  ao_index : Z; ao_hash : Hash; ao_cumulative_difficulty : Z; ao_already_generated_coins : Z;
  ao_difficulty : Z; ao_status : AddStatus }.

Record AddReport := mkAddReport { outcome : AddOutcome; report_unwound : list UnwoundBlock }.

Inductive Parent : Type := MainTip (index : Z) | MainDepth (index : Z) | InAlternative (hash : Hash).

Section AddBlock.
Context {S : Type} `{KvStore S} `{C : Crypto} `{SystemClock} `{Sch : !Scheduler}.
(** The thread's scratchpad, which the value of a hash does not depend on. *)
Variable SCRATCHPAD : list (list Z).
Implicit Types s : ChainState S.

(** * The block by itself *)

Fixpoint coinbase_outputs (miner_reward : Z) (outs : list Output) : Checked Z :=
  match outs with
  | [] => ok miner_reward
  | o :: outs =>
      if o_amount o =? 0 then fail_with CoinbaseOutputZeroAmount
      else if negb (check_key (o_key o)) then fail_with CoinbaseOutputInvalidKey
      else match checked_add 64 miner_reward (o_amount o) with
           | None => fail_with CoinbaseOutputsAmountOverflow
           | Some sum => coinbase_outputs sum outs
           end
  end.

Definition check_parent_block (block : BlockTemplate) : Checked unit :=
  if BLOCK_MAJOR_VERSION_2 <=? major_version block then
    match parent_block block with
    | None => fail_with (DeserializationFailed "v2+ block without a parent block")
    | Some parent =>
        if (major_version block =? BLOCK_MAJOR_VERSION_2) && (BLOCK_MAJOR_VERSION_1 <? p_major parent) then fail_with ParentBlockWrongVersion
        else
          let? w := or_rule "parent block does not re-serialize" (ParentBlock.write [] parent (timestamp block) (b_nonce block) false false) in
          ensure_rule (length w <=? 2048)%nat ParentBlockSizeTooBig
    end
  else ok ().

Definition check_coinbase (block : BlockTemplate) (claimed_index index : Z) : Checked Z :=
  let coinbase := base_transaction block in
  match inputs (prefix coinbase) with
  | [Base block_index] =>
      let? _ := ensure_rule (block_index =? index) (BaseInputWrongBlockIndex index block_index) in
      let expected_unlock := index + CRYPTONOTE_MINED_MONEY_UNLOCK_WINDOW in
      let? _ := ensure_rule (unlock_time (prefix coinbase) =? expected_unlock)
                  (CoinbaseWrongUnlockTime expected_unlock (unlock_time (prefix coinbase))) in
      let? _ := ensure_rule (negb ((TRANSACTION_SIGNATURE_COUNT_VALIDATION_HEIGHT <=? claimed_index) && negb (bool_decide (signatures coinbase = []))))
                  CoinbaseHasSignatures in
      coinbase_outputs 0 (outputs (prefix coinbase))
  | [_] => fail_with CoinbaseInputUnexpectedType
  | ins => fail_with (CoinbaseInputWrongCount (length ins))
  end.

Definition validate_block s (block : BlockTemplate) (view : ChainView) (previous_index : Z) : Checked Z :=
  let claimed_index := default 0 (BlockTemplate.coinbase_height block) in
  let index := previous_index + 1 in
  let expected_version := block_major_version_for_index claimed_index in
  let? _ := ensure_rule (expected_version =? major_version block) (WrongVersion expected_version (major_version block)) in
  let? _ := check_parent_block block in
  let limit := saturating_add 64 (chain_now s) (block_future_time_limit index) in
  let? _ := ensure_rule (timestamp block <=? limit) (TimestampTooFarInFuture (timestamp block) limit) in
  let? median := of_result (timestamp_median s view previous_index) in
  let? _ := match median with
            | Some median => ensure_rule (median <=? timestamp block) (TimestampTooFarInPast (timestamp block) median)
            | None => ok ()
            end in
  check_coinbase block claimed_index index.

(** * The transactions of a block *)

Fixpoint parse_blobs (tx_blobs : list bytes) : Checked (list Transaction) :=
  match tx_blobs with
  | [] => ok []
  | blob :: tx_blobs =>
      let? tx := or_rule "transaction" (Transaction.from_bytes blob) in
      let? txs := parse_blobs tx_blobs in
      ok (tx :: txs)
  end.

Definition parse_transactions (block : BlockTemplate) (tx_blobs : list bytes) : Checked (list Transaction) :=
  if negb (length tx_blobs =? length (transaction_hashes block))%nat
  then fail_with (DeserializationFailed "transaction count does not match tx_hashes")
  else parse_blobs tx_blobs.

Fixpoint hashes_match (transactions : list Transaction) (hashes : list Hash) : Checked unit :=
  match transactions, hashes with
  | tx :: transactions, h :: hashes =>
      let? hash := or_rule "transaction hash" (Transaction.hash tx) in
      let? _ := ensure_rule (bool_decide (hash = h)) TransactionInconsistency in
      hashes_match transactions hashes
  | _, _ => ok ()
  end.

Fixpoint hash_all (transactions : list Transaction) : Checked (list Hash) :=
  match transactions with
  | [] => ok []
  | tx :: transactions =>
      let? h := or_rule "transaction hash" (Transaction.hash tx) in
      let? hs := hash_all transactions in
      ok (h :: hs)
  end.

Definition check_transaction_list (block : BlockTemplate) (transactions : list Transaction) (claimed_index : Z) (strict : bool)
  : Checked unit :=
  let template := transaction_hashes block in
  if claimed_index <? BLOCK_BLOB_SHUFFLE_CHECK_HEIGHT then
    if negb strict then ok () else hashes_match transactions template
  else
    let? _ := ensure_rule (bool_decide (NoDup template)) TransactionDuplicates in
    let? supplied := hash_all transactions in
    let? _ := ensure_rule (bool_decide (NoDup supplied)) TransactionDuplicates in
    let? _ := ensure_rule (forallb (λ h, bool_decide (h ∈ template)) supplied) TransactionInconsistency in
    ensure_rule (bool_decide (template = supplied)) TransactionInconsistency.

(** * Proof of work *)

Definition PowHint_compute (block : BlockTemplate) : option (option PowHint) :=
  match BlockTemplate.hash block with
  | Err _ => Some None
  | Ok h =>
      r ← BlockTemplate.pow_hash block SCRATCHPAD;
      Some match r with Ok p => Some (mkPowHint h p) | Err _ => None end
  end.

Definition proof_of_work_passes s (block : BlockTemplate) (hash : Hash) (difficulty : Z) : Checked bool :=
  if simnet (cfg s) then ok true
  else
    let passes :=
      match pow_hint s with
      | Some hint =>
          if bool_decide (ph_block_hash hint = hash) then Some (check_proof_of_work_with block (ph_pow_hash hint) difficulty)
          else check_proof_of_work block difficulty SCRATCHPAD
      | None => check_proof_of_work block difficulty SCRATCHPAD
      end in
    map_err (λ _, RuleError (DeserializationFailed "proof of work input")) <$> passes.

(** [claimed_index as u32] truncates; inside the zone the index has 32 bits. *)
Definition checkpoint_or_proof_of_work s (block : BlockTemplate) (claimed_index : Z) (hash : Hash) (difficulty : Z) : Checked unit :=
  if Checkpoints.is_in_checkpoint_zone (cs_checkpoints s) claimed_index then
    if Checkpoints.check_block (cs_checkpoints s) (wrap 32 claimed_index) hash then ok ()
    else match Checkpoints.get (cs_checkpoints s) (wrap 32 claimed_index) with
         | Some expected => fail_with (CheckpointBlockHashMismatch expected hash)
         | None => None
         end
  else
    let? passes := proof_of_work_passes s block hash difficulty in
    ensure_rule passes (ProofOfWorkTooWeak difficulty).

(** * The rules of a block in its place *)

(** The serialized coinbase and the transaction blobs, under the hard cap. *)
Definition check_size (block : BlockTemplate) (tx_blobs : list bytes) (index : Z) : Checked Z :=
  let cumulative_size := total (map (λ t, Z.of_nat (length t)) tx_blobs) in
  let? coinbase := or_rule "coinbase does not re-serialize" (Transaction.to_bytes (base_transaction block)) in
  let cumulative_block_size := wrapping_add 64 (Z.of_nat (length coinbase)) (wrap 64 cumulative_size) in
  let max_cumulative := max_block_cumulative_size index in
  if max_cumulative <? cumulative_block_size then fail_with (CumulativeBlockSizeTooBig cumulative_block_size max_cumulative)
  else ok cumulative_block_size.

Definition check_difficulty s (view : ChainView) (previous_index : Z) : Checked Z :=
  let? d := difficulty_for_next_block s view previous_index in
  match d with Some d => ok d | None => fail_with DifficultyOverhead end.

Definition check_reward (block : BlockTemplate) (size_median cumulative_block_size : Z) (parent_info : BlockInfo)
    (cumulative_fee claimed_index miner_reward : Z) : Checked Reward :=
  match get_block_reward (major_version block) size_median cumulative_block_size (already_generated_coins parent_info)
          cumulative_fee claimed_index with
  | None => None
  | Some None =>
      fail_with (CumulativeBlockSizeTooBig cumulative_block_size
                   (wrapping_mul 64 2 (Z.max size_median (full_reward_zone (major_version block)))))
  | Some (Some r) =>
      let? _ := ensure_rule (miner_reward =? reward r) (BlockRewardMismatch (reward r) miner_reward) in
      ok r
  end.

Definition next_info (block : BlockTemplate) (hash : Hash) (cumulative_block_size difficulty : Z) (parent_info : BlockInfo)
    (r : Reward) (transactions : nat) : Checked BlockInfo :=
  if bool_decide (is_u32 cumulative_block_size) then
    ok (mkBlockInfo hash (timestamp block) cumulative_block_size
          (wrapping_add 64 (cumulative_difficulty parent_info) difficulty)
          (wrapping_add 64 (already_generated_coins parent_info) (wrap 64 (emission_change r)))
          (wrapping_add 64 (wrapping_add 64 (already_generated_transactions parent_info) (Z.of_nat transactions)) 1))
  else of_result (corrupt "cumulative block size exceeds uint32").

(** ** On the main chain *)

Definition block_error (e : BlockError ChainError) : ChainError :=
  match e with TransactionRule h i r => RuleError (TransactionFailed h i r) | StoreFault e => e end.

Definition main_context s (block : BlockTemplate) (previous_index : Z) : TxContext :=
  mkTxContext previous_index (cs_block_median_size s) (timestamp block) false (cs_checkpoints s).

(** Steps 3 to 10: the transactions, the info record, the difficulty and the key images. *)
Definition main_checks s (block : BlockTemplate) (tx_blobs : list bytes) (hash : Hash) (previous_index : Z)
  : Checked (list Transaction * BlockInfo * Z * gset Hash) :=
  let index := wrapping_add 32 previous_index 1 in
  let claimed_index := default 0 (BlockTemplate.coinbase_height block) in
  let view := main_chain previous_index in
  let? transactions := parse_transactions block tx_blobs in
  let? cumulative_block_size := check_size block tx_blobs index in
  let? miner_reward := validate_block s block view previous_index in
  let? difficulty := check_difficulty s view previous_index in
  let? _ := check_transaction_list block transactions claimed_index (strict_transaction_list s) in
  let work_first := negb (bool_decide (transactions = [])) in
  let? _ := if work_first then checkpoint_or_proof_of_work s block claimed_index hash difficulty else ok () in
  let? step8 := of_result (map_err block_error
                  (validate_block_transactions (A := chain_access s) (main_context s block previous_index)
                     (validate_threads (cfg s)) (transaction_hashes block) (zip transactions tx_blobs))) in
  let? parent_info := of_result (o ← block_info s previous_index; required_info o) in
  let? size_median := of_result (reward_size_median s view previous_index) in
  let? r := check_reward block size_median cumulative_block_size parent_info step8.1 claimed_index miner_reward in
  let? _ := if work_first then ok () else checkpoint_or_proof_of_work s block claimed_index hash difficulty in
  let? info := next_info block hash cumulative_block_size difficulty parent_info r (length transactions) in
  ok (transactions, info, difficulty, step8.2).

(** * Effects *)

(** A method that may panic, fail and change the state. *)
Definition Act (A : Type) : Type := ChainState S → option (result ChainError A * ChainState S).

Definition act_ret {A} (a : A) : Act A := λ s, Some (Ok a, s).
Definition act_bind {A B} (m : Act A) (f : A → Act B) : Act B := λ s,
  match m s with
  | None => None
  | Some (Err e, s) => Some (Err e, s)
  | Some (Ok a, s) => f a s
  end.
Definition act_read {A} (f : ChainState S → Checked A) : Act A := λ s,
  match f s with None => None | Some r => Some (r, s) end.
Definition act_do {A} (f : ChainState S → result ChainError A * ChainState S) : Act A := λ s, Some (f s).
Definition act_modify (f : ChainState S → ChainState S) : Act unit := λ s, Some (Ok (), f s).
(** The [Result] as a value, for a [match] on it. *)
Definition attempt {A} (m : Act A) : Act (result ChainError A) := λ s,
  match m s with None => None | Some (r, s) => Some (Ok r, s) end.

Fixpoint act_each {A} (f : A → Act unit) (l : list A) : Act unit :=
  match l with
  | [] => act_ret ()
  | a :: l => act_bind (f a) (λ _, act_each f l)
  end.

Local Notation "'let!' x := m 'in' k" := (act_bind m (λ x, k)) (at level 10, x name, m at level 100, k at level 200).

Definition add_to_main (block : BlockTemplate) (block_blob : bytes) (tx_blobs : list bytes) (hash : Hash) (previous_index : Z)
  : Act AddOutcome :=
  let index := wrapping_add 32 previous_index 1 in
  let! checked := act_read (λ s, main_checks s block tx_blobs hash previous_index) in
  let '(transactions, info, difficulty, spent) := checked in
  let! _ := act_do (λ s, push_block s index block block_blob tx_blobs transactions info spent) in
  act_ret (mkAddOutcome index hash (cumulative_difficulty info) (already_generated_coins info) difficulty Main).

(** * The switch *)

Definition UnwoundRaw : Type := Z * BlockInfo * bytes * list bytes.

Definition state_branch s (hash : Hash) : result ChainError (Z * list Hash) :=
  branch_hashes (alt_blocks s) (block_index_by_hash s) hash.

(** The blocks above the fork point, the tip first. *)
Definition leaving s (from tip : Z) : result ChainError (list UnwoundRaw) :=
  collect (λ i,
    let index := tip - Z.of_nat i in
    o ← block_info s index;
    info ← required_info o;
    o ← raw_block s index;
    '(blob, txs) ← ok_or (RuleError (ReorganisationUnavailable index)) o;
    Ok (index, info, blob, txs)) (seq 0 (Z.to_nat (tip - from + 1))).

(** The branch applied in order, up to its first failure: how many blocks were applied,
    and the failure with its block. The blob is parsed by the argument of the call, whose
    [?] leaves [switch_to]; indexing the map with an absent hash panics. *)
Fixpoint apply_branch (branch : list Hash) (applied : nat) : Act (nat * option (ChainError * Hash)) :=
  match branch with
  | [] => act_ret (applied, None)
  | h :: branch => λ s,
      match alt_blocks s !! h with
      | None => None
      | Some alt =>
          (let! block := act_read (λ _, or_rule "alternative block blob" (BlockTemplate.from_bytes (ab_block_blob alt))) in
           let! r := attempt (add_to_main block (ab_block_blob alt) (ab_tx_blobs alt) h (wrapping_sub 32 (ab_index alt) 1)) in
           match r with
           | Ok _ => apply_branch branch (Datatypes.S applied)
           | Err e => act_ret (applied, Some (e, h))
           end) s
      end
  end.

Definition put_back (u : UnwoundRaw) : Act unit :=
  let '(index, _, blob, txs) := u in
  let! block := act_read (λ _, of_result (map_err (λ _, CorruptState "stored block no longer parses") (BlockTemplate.from_bytes blob))) in
  let! h := act_read (λ _, of_result (map_err (λ _, CorruptState "stored block has no hash") (BlockTemplate.hash block))) in
  let! _ := add_to_main block blob txs h (wrapping_sub 32 index 1) in
  act_ret ().

Definition drop_subtree (e : ChainError) (bad : Hash) (s : ChainState S) : ChainState S :=
  match e with
  | RuleError _ => set_alt_blocks s (drop_alternative_subtree (alt_blocks s) bad)
  | _ => s
  end.

Definition roll_back (fork_index : Z) (applied : nat) (unwound_raw : list UnwoundRaw) (e : ChainError) (bad : Hash) : Act unit :=
  let! _ := act_each (λ i, act_do (λ s, unwind_block s i))
              (map (λ i, fork_index + Z.of_nat i) (reverse (seq 1 applied))) in
  let! _ := act_each put_back (reverse unwound_raw) in
  let! _ := act_modify (drop_subtree e bad) in
  act_read (λ _, Some (Err e)).

(** A block that left the main chain becomes an alternative one. *)
Definition keep_unwound (u : UnwoundRaw) : Act unit :=
  let '(index, info, blob, txs) := u in
  let! block := act_read (λ _, of_result (map_err (λ _, CorruptState "stored block no longer parses") (BlockTemplate.from_bytes blob))) in
  act_modify (λ s,
    set_alt_blocks
      (set_unwound s (unwound s ++ [mkUnwoundBlock index (block_hash info) (transaction_hashes block) txs]))
      (<[block_hash info := mkAltBlock index (previous_block_hash block) info blob txs]> (alt_blocks s))).

Definition check_floor s (fork_index tip : Z) : Checked unit :=
  let at_index := wrapping_add 32 fork_index 1 in
  match body_floor (cfg s) tip with
  | Some floor => ensure_rule (floor <=? at_index) (ReorganisationBelowBodyFloor at_index floor)
  | None => ok ()
  end.

Definition switch_to (hash : Hash) : Act unit :=
  let! found := act_read (λ s, of_result (state_branch s hash)) in
  let '(fork_index, branch) := found in
  let! tip := act_read (λ s, of_result (ok_or (CorruptState "switching chains on an empty state") (tip s))) in
  let! _ := act_read (λ s, check_floor s fork_index tip) in
  let! unwound_raw := act_read (λ s, of_result (leaving s (wrapping_add 32 fork_index 1) tip)) in
  let! _ := act_each (λ u : UnwoundRaw, act_do (λ s, unwind_block s u.1.1.1)) unwound_raw in
  let! applied := apply_branch branch 0 in
  match applied with
  | (n, Some (e, bad)) => roll_back fork_index n unwound_raw e bad
  | (_, None) =>
      let! _ := act_modify (λ s, set_alt_blocks s (remove_all (alt_blocks s) branch)) in
      act_each keep_unwound unwound_raw
  end.

(** * Alternative blocks *)

(** The fees of transactions whose validation waits for the switch. *)
Fixpoint alternative_fees (hashes : list Hash) (i : nat) (cumulative_fee : Z) (transactions : list Transaction) : Checked Z :=
  match transactions with
  | [] => ok cumulative_fee
  | tx :: transactions =>
      let failed rule := fail_with (TransactionFailed (default [] (hashes !! i)) i rule) in
      match TransactionPrefix.sum_inputs (prefix tx) with
      | None => failed InputsAmountOverflow
      | Some sum_in =>
          match TransactionPrefix.sum_outputs (prefix tx) with
          | None => failed OutputsAmountOverflow
          | Some sum_out =>
              match checked_sub sum_in sum_out with
              | None => failed WrongAmount
              | Some fee => alternative_fees hashes (Datatypes.S i) (saturating_add 64 cumulative_fee fee) transactions
              end
          end
      end
  end.

(** Indexing the map with an absent hash panics. *)
Definition branch_infos s (parent_alt : option Hash) (previous_index : Z) : Checked (Z * list BlockInfo) :=
  match parent_alt with
  | None => ok (previous_index, [])
  | Some parent =>
      let? found := of_result (state_branch s parent) in
      match mapM (λ h, ab_info <$> alt_blocks s !! h) found.2 with
      | None => None
      | Some infos => ok (found.1, infos)
      end
  end.

Definition alternative_checks s (block : BlockTemplate) (tx_blobs : list bytes) (hash : Hash) (previous_index : Z) (parent_alt : option Hash)
  : Checked (BlockInfo * Z) :=
  let? found := branch_infos s parent_alt previous_index in
  let view := with_branch found.1 found.2 in
  let index := wrapping_add 32 previous_index 1 in
  let claimed_index := default 0 (BlockTemplate.coinbase_height block) in
  let? transactions := parse_transactions block tx_blobs in
  let? cumulative_block_size := check_size block tx_blobs index in
  let? miner_reward := validate_block s block view previous_index in
  let? difficulty := check_difficulty s view previous_index in
  let? _ := check_transaction_list block transactions claimed_index (strict_transaction_list s) in
  let? cumulative_fee := alternative_fees (transaction_hashes block) 0 0 transactions in
  let? parent_info := of_result (o ← info_in_view s view previous_index; required_info o) in
  let? size_median := of_result (reward_size_median s view previous_index) in
  let? r := check_reward block size_median cumulative_block_size parent_info cumulative_fee claimed_index miner_reward in
  let? _ := checkpoint_or_proof_of_work s block claimed_index hash difficulty in
  let? info := next_info block hash cumulative_block_size difficulty parent_info r (length transactions) in
  ok (info, difficulty).

Definition prune_alternatives (exclude : option Hash) : Act unit :=
  act_modify (λ s, set_alt_blocks s (prune_alternative_chains (tip s) exclude (alt_blocks s))).

(** Strictly greater: a tie keeps the main chain. *)
Definition outweighs_main s (info : BlockInfo) : bool :=
  default 0 (cumulative_difficulty <$> tip_info s) <? cumulative_difficulty info.

Definition add_to_alternative (block : BlockTemplate) (block_blob : bytes) (tx_blobs : list bytes) (hash : Hash)
    (previous_index : Z) (parent_alt : option Hash) : Act AddOutcome :=
  let index := wrapping_add 32 previous_index 1 in
  let! checked := act_read (λ s, alternative_checks s block tx_blobs hash previous_index parent_alt) in
  let '(info, difficulty) := checked in
  let! _ := act_modify (λ s, set_alt_blocks s
              (<[hash := mkAltBlock index (previous_block_hash block) info block_blob tx_blobs]> (alt_blocks s))) in
  let! switch := act_read (λ s, ok (outweighs_main s info)) in
  let! _ := if switch then switch_to hash else act_ret () in
  let! _ := prune_alternatives (Some hash) in
  act_ret (mkAddOutcome index hash (cumulative_difficulty info) (already_generated_coins info) difficulty
             (if switch then AlternativeAndSwitched else Alternative)).

(** * [add_block] *)

Definition locate_parent s (prev_hash : Hash) : Checked Parent :=
  if bool_decide (is_Some (alt_blocks s !! prev_hash)) then ok (InAlternative prev_hash)
  else
    let? found := of_result (block_index_by_hash s prev_hash) in
    match found with
    | Some index => ok (if bool_decide (tip s = Some index) then MainTip index else MainDepth index)
    | None => fail_with RejectedAsOrphaned
    end.

Definition add_block_inner (block_blob : bytes) (tx_blobs : list bytes) : Act AddOutcome :=
  let! block := act_read (λ _, or_rule "block blob" (BlockTemplate.from_bytes block_blob)) in
  let! hash := act_read (λ _, or_rule "block hash" (BlockTemplate.hash block)) in
  let! known := act_read (λ s, of_result (has_block s hash)) in
  let! _ := act_read (λ _, ensure_rule (negb known) AlreadyExists) in
  let! parent := act_read (λ s, locate_parent s (previous_block_hash block)) in
  match parent with
  | MainTip previous_index =>
      let! o := add_to_main block block_blob tx_blobs hash previous_index in
      let! _ := prune_alternatives None in
      act_ret o
  | MainDepth previous_index => add_to_alternative block block_blob tx_blobs hash previous_index None
  | InAlternative prev_hash => λ s,
      match alt_blocks s !! prev_hash with
      | None => None
      | Some alt => add_to_alternative block block_blob tx_blobs hash (ab_index alt) (Some prev_hash) s
      end
  end.

Definition add_block_detailed (block_blob : bytes) (tx_blobs : list bytes) : Act AddReport :=
  let! _ := act_modify (λ s, set_unwound s []) in
  let! o := add_block_inner block_blob tx_blobs in
  let! u := act_read (λ s, ok (unwound s)) in
  let! _ := act_modify (λ s, set_unwound s []) in
  act_ret (mkAddReport o u).

Definition add_block (block_blob : bytes) (tx_blobs : list bytes) : Act AddOutcome :=
  let! r := add_block_detailed block_blob tx_blobs in
  act_ret (outcome r).

(** The hint is taken back whatever the result. *)
Definition add_block_detailed_with_pow (block_blob : bytes) (tx_blobs : list bytes) (hint : option PowHint) : Act AddReport :=
  let! _ := act_modify (λ s, set_pow_hint s hint) in
  let! r := attempt (add_block_detailed block_blob tx_blobs) in
  let! _ := act_modify (λ s, set_pow_hint s None) in
  act_read (λ _, of_result r).
End AddBlock.
