(* ===== verification/Acceptance.v ===== *)
(** What block acceptance guarantees (crates/wrkz-chain/src/state.rs, AddBlock.v): where a
    proof of work was computed and when it is checked decide nothing, the supplied
    transactions are the ones the block names, a branch takes over only when it is strictly
    heavier, and no key image is spent twice along the main chain. *)
From stdpp Require Import gmap.
From S2P Require Import Prelude Constants Hashing Tx Block Reward Checkpoints Parallel Records Store Validate Accept.
From S2P Require Import ChainState ChainRecords AltChains AddBlock.
Local Open Scope Z_scope.
Local Open Scope checked_scope.

(** * Checks that pass *)

Lemma and_then_Ok {A B} (m : Checked A) (f : A → Checked B) b :
  and_then_check m f = Some (Ok b) ↔ ∃ a, m = Some (Ok a) ∧ f a = Some (Ok b).
Proof. destruct m as [[a|e]|]; cbn; [|split; [done|by intros (? & ? & _)]..]. split; [eauto|by intros (? & [= <-] & ?)]. Qed.

Lemma ensure_rule_Ok b r u : ensure_rule b r = Some (Ok u) ↔ b = true.
Proof. destruct b, u; cbn; split; done. Qed.

Lemma or_rule_Ok {E A} what (r : result E A) a : or_rule what r = Some (Ok a) ↔ r = Ok a.
Proof. unfold or_rule, of_result. destruct r; cbn; split; congruence. Qed.

Lemma of_result_Ok {A} (r : result ChainError A) a : of_result r = Some (Ok a) ↔ r = Ok a.
Proof. unfold of_result. split; congruence. Qed.

Lemma and_then_ext {A B} (m m' : Checked A) (f f' : A → Checked B) :
  m = m' → (∀ a, f a = f' a) → and_then_check m f = and_then_check m' f'.
Proof. intros <- Hf. destruct m as [[a|e]|]; cbn; auto. Qed.

Lemma and_then_iff {A B} (m : Checked A) (f f' : A → Checked B) x :
  (∀ a, f a = Some (Ok x) ↔ f' a = Some (Ok x)) → and_then_check m f = Some (Ok x) ↔ and_then_check m f' = Some (Ok x).
Proof. intros Hf. destruct m as [[a|e]|]; cbn; auto. Qed.

(** A check that gives nothing to the next one may follow it. *)
Lemma check_later {A B} (p : Checked unit) (m : Checked A) (k k' : A → Checked B) x :
  (∀ a, (let? _ := p in k a) = Some (Ok x) ↔ k' a = Some (Ok x)) →
  (let? _ := p in let? a := m in k a) = Some (Ok x) ↔ and_then_check m k' = Some (Ok x).
Proof.
  intros Hk. rewrite !and_then_Ok. setoid_rewrite and_then_Ok. setoid_rewrite <- Hk. setoid_rewrite and_then_Ok.
  split; intros (a & ? & b & ? & ?); eauto 6.
Qed.

(** * The list of transactions *)

Section TransactionList.
Context `{C : Crypto}.

Lemma hash_all_Ok txs hs : hash_all txs = Some (Ok hs) ↔ Forall2 (λ tx h, Transaction.hash tx = Ok h) txs hs.
Proof.
  revert hs. induction txs as [|tx txs IH]; intros hs; cbn [hash_all].
  - split; [intros [= <-]; constructor|by intros ->%Forall2_nil_inv_l].
  - setoid_rewrite and_then_Ok. setoid_rewrite and_then_Ok. setoid_rewrite or_rule_Ok. setoid_rewrite IH. split.
    + intros (h & Hh & hs' & Hhs & [= <-]). by constructor.
    + intros (h & hs' & Hh & Hhs & ->)%Forall2_cons_inv_l. eauto.
Qed.

Lemma hashes_match_Ok txs hs : length txs = length hs →
  hashes_match txs hs = Some (Ok ()) ↔ Forall2 (λ tx h, Transaction.hash tx = Ok h) txs hs.
Proof.
  revert hs. induction txs as [|tx txs IH]; intros [|h hs] Hl; [by split|done|done|]; cbn [hashes_match].
  - setoid_rewrite and_then_Ok. setoid_rewrite and_then_Ok. setoid_rewrite or_rule_Ok. setoid_rewrite ensure_rule_Ok.
    rewrite Forall2_cons, <- IH by (cbn in Hl; lia). split.
    + intros (h' & Hh & [] & ->%bool_decide_eq_true & Hr). done.
    + intros [Hh Hr]. exists h. split; [done|]. exists (). by rewrite bool_decide_true.
Qed.

(** A block's supplied transactions pass the list check exactly when each is, at its
    place, the transaction the block names and (from height 600,000) no hash is named twice;
    below that height a state that is not strict takes any list of the right length. *)
Theorem transaction_list_spec block txs claimed_index strict :
  length txs = length (transaction_hashes block) →
  check_transaction_list block txs claimed_index strict = Some (Ok ()) ↔
  (claimed_index < BLOCK_BLOB_SHUFFLE_CHECK_HEIGHT ∧ strict = false) ∨
  (Forall2 (λ tx h, Transaction.hash tx = Ok h) txs (transaction_hashes block) ∧
   (BLOCK_BLOB_SHUFFLE_CHECK_HEIGHT ≤ claimed_index → NoDup (transaction_hashes block))).
Proof.
  intros Hl. unfold check_transaction_list. destruct (claimed_index <? _) eqn:E; bool_hyps.
  - destruct strict; cbn [negb].
    + rewrite hashes_match_Ok by done. split; [intros; right; split; [done|lia]|by intros [[_ ?]|[? _]]].
    + split; [auto|done].
  - setoid_rewrite and_then_Ok. setoid_rewrite and_then_Ok. setoid_rewrite and_then_Ok. setoid_rewrite and_then_Ok.
    setoid_rewrite ensure_rule_Ok. setoid_rewrite hash_all_Ok. split.
    + intros (_ & Hn%bool_decide_eq_true & hs & Hh & _ & _ & _ & _ & <-%bool_decide_eq_true). right. by split.
    + intros [[? _]|[Hh Hn]]; [lia|]. exists (). split; [apply bool_decide_eq_true; auto|].
      exists (transaction_hashes block). split; [done|]. exists (). split; [apply bool_decide_eq_true; auto|].
      exists (). split; [|by apply bool_decide_eq_true]. apply forallb_forall. intros h Hh'. by apply bool_decide_eq_true, list_elem_of_In.
Qed.
End TransactionList.

(** * Where and when the proof of work is checked *)

Section Work.
Context {S : Type} `{KvStore S} `{C : Crypto} `{SystemClock} `{Sch : !Scheduler}.
Variable SCRATCHPAD : list (list Z).
Implicit Types s : ChainState S.

(** A hint is about another block, or is the one computed from this block. *)
Definition honest_hint (block : BlockTemplate) (hash : Hash) (hint : PowHint) : Prop :=
  ph_block_hash hint ≠ hash ∨ PowHint_compute SCRATCHPAD block = Some (Some hint).

Lemma hint_proof_of_work s block hash hint difficulty : honest_hint block hash hint →
  proof_of_work_passes SCRATCHPAD (set_pow_hint s (Some hint)) block hash difficulty =
  proof_of_work_passes SCRATCHPAD (set_pow_hint s None) block hash difficulty.
Proof.
  intros Hh. unfold proof_of_work_passes. cbn [cfg set_pow_hint pow_hint]. destruct (simnet (cfg s)); [done|].
  destruct (bool_decide (ph_block_hash hint = hash)) eqn:E; [|done]. apply bool_decide_eq_true in E. destruct Hh as [?|Hh]; [done|].
  unfold PowHint_compute in Hh. destruct (BlockTemplate.hash block) as [h|e]; [|done].
  unfold check_proof_of_work. destruct (BlockTemplate.pow_hash block SCRATCHPAD) as [[p|e]|] eqn:Hp; cbn in Hh; try done.
  by injection Hh as <-.
Qed.

Lemma hint_work s block claimed_index hash hint difficulty : honest_hint block hash hint →
  checkpoint_or_proof_of_work SCRATCHPAD (set_pow_hint s (Some hint)) block claimed_index hash difficulty =
  checkpoint_or_proof_of_work SCRATCHPAD (set_pow_hint s None) block claimed_index hash difficulty.
Proof. intros Hh. unfold checkpoint_or_proof_of_work. by rewrite hint_proof_of_work. Qed.

(** C5. A proof-of-work hash computed ahead of time changes no verdict: on the main chain
    and on a branch, a block is accepted, or refused with the same error, exactly as without
    a hint. The hint may be another block's, or the one computed from this block. *)
Theorem pow_hint_irrelevant s block tx_blobs hash previous_index parent_alt hint : honest_hint block hash hint →
  main_checks SCRATCHPAD (set_pow_hint s (Some hint)) block tx_blobs hash previous_index =
  main_checks SCRATCHPAD (set_pow_hint s None) block tx_blobs hash previous_index ∧
  alternative_checks SCRATCHPAD (set_pow_hint s (Some hint)) block tx_blobs hash previous_index parent_alt =
  alternative_checks SCRATCHPAD (set_pow_hint s None) block tx_blobs hash previous_index parent_alt.
Proof.
  intros Hh. pose proof (λ c d, hint_work s block c hash hint d Hh) as Hw.
  split; [unfold main_checks|unfold alternative_checks];
    repeat (apply and_then_ext; [try case_match; first [reflexivity | apply Hw]|intros ?]); reflexivity.
Qed.

(** Steps 3 to 10 in the order of the C++ daemon, the work last for every block. *)
Definition daemon_order s (block : BlockTemplate) (tx_blobs : list bytes) (hash : Hash) (previous_index : Z)
  : Checked (list Transaction * BlockInfo * Z * gset Hash) :=
  let index := wrapping_add 32 previous_index 1 in
  let claimed_index := default 0 (BlockTemplate.coinbase_height block) in
  let view := main_chain previous_index in
  let? transactions := parse_transactions block tx_blobs in
  let? cumulative_block_size := check_size block tx_blobs index in
  let? miner_reward := validate_block s block view previous_index in
  let? difficulty := check_difficulty s view previous_index in
  let? _ := check_transaction_list block transactions claimed_index (strict_transaction_list s) in
  let? step8 := of_result (map_err block_error
                  (validate_block_transactions (A := chain_access s) (main_context s block previous_index)
                     (validate_threads (cfg s)) (transaction_hashes block) (zip transactions tx_blobs))) in
  let? parent_info := of_result (o ← block_info s previous_index; required_info o) in
  let? size_median := of_result (reward_size_median s view previous_index) in
  let? r := check_reward block size_median cumulative_block_size parent_info step8.1 claimed_index miner_reward in
  let? _ := checkpoint_or_proof_of_work SCRATCHPAD s block claimed_index hash difficulty in
  let? info := next_info block hash cumulative_block_size difficulty parent_info r (length transactions) in
  ok (transactions, info, difficulty, step8.2).

Lemma daemon_order_Ok s block tx_blobs hash previous_index x :
  main_checks SCRATCHPAD s block tx_blobs hash previous_index = Some (Ok x) ↔
  daemon_order s block tx_blobs hash previous_index = Some (Ok x).
Proof.
  unfold main_checks, daemon_order. apply and_then_iff. intros txs. do 4 (apply and_then_iff; intros ?).
  destruct (bool_decide (txs = [])); cbn [negb]; [done|]. do 4 (apply check_later; intros ?). done.
Qed.

(** C4. Checking the work of a block with transactions ahead of them accepts exactly the
    blocks the C++ order accepts, with the same record, difficulty and key images. *)
Theorem work_first_equivalent s block tx_blobs hash previous_index :
  ∀ x, main_checks SCRATCHPAD s block tx_blobs hash previous_index = Some (Ok x) ↔
    daemon_order s block tx_blobs hash previous_index = Some (Ok x).
Proof. intros x. apply daemon_order_Ok. Qed.
End Work.

(** * Key images along the main chain *)

Section KeyImages.
Context {S : Type} `{ReliableStore S} `{C : Crypto} `{SystemClock} `{Sch : !Scheduler}.
Variable SCRATCHPAD : list (list Z).
Implicit Types s : ChainState S.

(** ** A ring read at once *)

Lemma key_output_read s amount g :
  chain_key_output s amount g = if bool_decide (is_u32 g) then output_record (records s !! keys.output amount g) else Ok None.
Proof. unfold chain_key_output. by rewrite store_get_records. Qed.

Lemma place_outputs_each s amount idx :
  place_outputs idx ((λ k, records s !! k) <$> map (keys.output amount) (filter is_u32 idx)) = collect (chain_key_output s amount) idx.
Proof.
  induction idx as [|g idx IH]; [done|]. cbn [place_outputs collect]. rewrite (key_output_read s amount g), filter_cons.
  destruct (decide (is_u32 g)) as [Hg|Hg].
  - rewrite bool_decide_true by done. cbn [map fmap list_fmap head tail mbind option_bind]. unfold id.
    destruct (output_record _) as [o|e]; [|done]. cbn [mbind result_bind]. by rewrite <- IH.
  - rewrite bool_decide_false by done. cbn [mbind result_bind]. by rewrite <- IH.
Qed.

(** The chain state keeps the promise the validator relies on. *)
#[export] Instance chain_access_laws s : ChainAccessLaws (chain_access s).
Proof.
  intros amount idx. cbn [key_outputs chain_access]. unfold chain_key_outputs, store_multi_get, key_outputs_default.
  rewrite multi_get_reliable. cbn [stored map_err mbind result_bind]. apply place_outputs_each.
Qed.

(** ** The records of key images *)

(** Spent at or below the tip. *)
Definition images_recorded s : Prop := ∀ i v, records s !! keys.key_image i = Some v →
  ∃ b t, v = le32 b ∧ is_u32 b ∧ tip s = Some t ∧ b ≤ t.

Lemma chain_ok_images s : chain_ok s → images_recorded s.
Proof.
  intros [Hm _ _] i v Hv. destruct (cm_images _ _ _ Hm i v Hv) as (b & -> & Hb & Ha).
  destruct (tip s) as [t|]; [|by destruct Ha]. exists b, t. split_and!; [done..|]. cbn in Ha. lia.
Qed.

Lemma not_spent_fresh s t i : images_recorded s → tip s = Some t →
  chain_key_image_spent s i t = Ok false → records s !! keys.key_image i = None.
Proof.
  intros Hi Ht. unfold chain_key_image_spent, key_image_spent_at, read_le32. rewrite store_get_records. cbn [mbind result_bind].
  destruct (records s !! keys.key_image i) as [v|] eqn:Hv; [|done]. destruct (Hi i v Hv) as (b & t' & -> & Hb & Ht' & Hle).
  unfold le32_record. rewrite length_le32. cbn [Nat.eqb mbind result_bind]. rewrite from_le32 by done.
  intros [= Hn]. bool_hyps. assert (t' = t) by congruence. lia.
Qed.

(** [injection] would reduce the lists of writes. *)
Lemma Ok_eq {E A} (a b : A) : @Ok E A a = Ok b → a = b.
Proof. by intros [= ->]. Qed.

Lemma push_outputs_tagged s index h u i counts outs ops c r :
  push_outputs s index h u i counts outs = Ok (ops, c, r) → tagged TAG_OUTPUT ops.
Proof.
  revert i counts ops c r. induction outs as [|o outs IH]; intros i counts ops c r; cbn [push_outputs].
  - intros [= <- _ _]. constructor.
  - destruct (match counts !! o_amount o with Some n => Ok n | None => _ end) as [n|e]; [|done]. cbn [mbind result_bind].
    destruct (push_outputs _ _ _ _ _ _ outs) as [[[ops' c'] r']|e] eqn:E; [|done]. cbn [mbind result_bind]. intros [= <- _ _].
    constructor; [done|]. by eapply IH.
Qed.

Lemma push_all_outputs_tagged s index counts txs ops c r :
  push_all_outputs s index counts txs = Ok (ops, c, r) → tagged TAG_OUTPUT ops.
Proof.
  revert counts ops c r. induction txs as [|[tx h] txs IH]; intros counts ops c r; cbn [push_all_outputs].
  - intros [= <- _ _]. constructor.
  - destruct (push_outputs _ _ _ _ _ _ _) as [[[ops1 c1] r1]|e] eqn:E1; [|done]. cbn [mbind result_bind].
    destruct (push_all_outputs _ _ _ txs) as [[[ops2 c2] r2]|e] eqn:E2; [|done]. cbn [mbind result_bind]. intros [= <- _ _].
    apply tagged_app. split; [by eapply push_outputs_tagged|by eapply IH].
Qed.

Lemma push_payment_ids_tagged s counts refs ops c :
  push_payment_ids s counts refs = Ok (ops, c) → tagged TAG_PAYMENT_ID_ENTRY ops.
Proof.
  revert counts ops c. induction refs as [|[id h] refs IH]; intros counts ops c; cbn [push_payment_ids].
  - intros [= <- _]. constructor.
  - destruct (match counts !! id with Some n => Ok n | None => _ end) as [n|e]; [|done]. cbn [mbind result_bind].
    destruct (push_payment_ids _ _ refs) as [[ops' c']|e] eqn:E; [|done]. cbn [mbind result_bind]. intros [= <- _].
    constructor; [done|]. by eapply IH.
Qed.

Lemma payment_ops_images s index refs ops : payment_ops s index refs = Ok ops → with_tag TAG_KEY_IMAGE ops = [].
Proof.
  unfold payment_ops. case_bool_decide; [by intros [= <-]|].
  destruct (push_payment_ids _ _ _) as [[ops' c]|e] eqn:E; [|done]. cbn [mbind result_bind]. intros [= <-].
  rewrite !with_tag_app, (with_tag_none _ TAG_PAYMENT_ID_ENTRY) by (done || by eapply push_payment_ids_tagged).
  by rewrite (with_tag_none _ TAG_PAYMENT_ID_COUNT) by (done || by apply tagged_map).
Qed.

Lemma body_ops_images c index blob blobs : with_tag TAG_KEY_IMAGE (body_ops c index blob blobs) = [].
Proof. unfold body_ops. rewrite !with_tag_app. by repeat case_match. Qed.

(** Applying a block writes the key images it spends, and no other. *)
Lemma push_ops_images s index block blob blobs txs info spent ops :
  push_ops s index block blob blobs txs info spent = Ok ops →
  with_tag TAG_KEY_IMAGE ops = map (λ i, (keys.key_image i, Some (le32 index))) (merge_sort bytes_le (elements spent)).
Proof.
  unfold push_ops. destruct (map_err _ _) as [ch|e]; [|done]. cbn [mbind result_bind].
  destruct (push_all_outputs _ _ _ _) as [[[out_ops counts] refs]|e] eqn:Eo; [|done]. cbn [mbind result_bind].
  destruct (payment_ops _ _ _) as [pay|e] eqn:Ep; [|done]. cbn [mbind result_bind]. intros <-%Ok_eq.
  rewrite !with_tag_app, (with_tag_none _ TAG_OUTPUT) by (done || by eapply push_all_outputs_tagged).
  unfold count_ops, image_ops. rewrite (with_tag_none _ TAG_OUTPUT_COUNT) by (done || by apply tagged_map).
  rewrite with_tag_app, with_tag_all by by apply tagged_map.
  rewrite (with_tag_none _ TAG_TRANSACTION_INDEX (map _ (ch :: _))) by (done || by apply tagged_map).
  rewrite (payment_ops_images _ _ _ _ Ep), body_ops_images. cbn [app].
  destruct (bool_decide _); cbn; by rewrite !app_nil_r.
Qed.

(** ** A block accepted on the tip *)

(** What an accepted block did: its checks passed and its records were written. *)
Lemma add_to_main_Ok block blob blobs hash prev s o s' :
  add_to_main SCRATCHPAD block blob blobs hash prev s = Some (Ok o, s') →
  ∃ txs info d spent, main_checks SCRATCHPAD s block blobs hash prev = Some (Ok (txs, info, d, spent)) ∧
    push_block s (wrapping_add 32 prev 1) block blob blobs txs info spent = (Ok (), s') ∧
    o = mkAddOutcome (wrapping_add 32 prev 1) hash (cumulative_difficulty info) (already_generated_coins info) d Main.
Proof.
  unfold add_to_main, act_bind, act_read, act_do, act_ret.
  destruct (main_checks _ _ _ _ _ _) as [[[[[txs info] d] spent]|e]|] eqn:E; try done.
  destruct (push_block _ _ _ _ _ _ _ _) as [[[]|e] s1] eqn:Ep; [|done]. intros [= <- <-]. by exists txs, info, d, spent.
Qed.

Lemma push_block_Ok s index block blob blobs txs info spent s' :
  push_block s index block blob blobs txs info spent = (Ok (), s') →
  ∃ ops, push_ops s index block blob blobs txs info spent = Ok ops ∧ records s' = apply_ops ops (records s) ∧ tip s' = Some index.
Proof.
  unfold push_block. destruct (push_ops _ _ _ _ _ _ _ _) as [ops|e]; [|done]. intros Hp. exists ops.
  destruct (store_write_records s ops) as (st & Hst & Hc). rewrite Hst in Hp. unfold and_then, update_block_median_size in Hp.
  cbn [set_recent set_tip tip] in Hp. destruct (reward_size_median _ _ _) as [m|e]; [|done]. injection Hp as <-. done.
Qed.

Lemma push_block_image s index block blob blobs txs info spent s' i :
  push_block s index block blob blobs txs info spent = (Ok (), s') →
  records s' !! keys.key_image i = if decide (i ∈ spent) then Some (le32 index) else records s !! keys.key_image i.
Proof.
  intros (ops & Ho & -> & _)%push_block_Ok. rewrite (apply_ops_with_tag TAG_KEY_IMAGE) by done. rewrite (push_ops_images _ _ _ _ _ _ _ _ _ Ho).
  assert (∀ j, j ∈ merge_sort bytes_le (elements spent) ↔ j ∈ spent) as Hin.
  { intros j. rewrite <- elem_of_elements. by rewrite (merge_sort_Permutation bytes_le (elements spent)). }
  destruct (decide (i ∈ spent)) as [Hi|Hi].
  - apply apply_ops_det.
    + apply list_elem_of_fmap. exists (keys.key_image i, Some (le32 index)). split; [done|]. apply list_elem_of_fmap. exists i. by rewrite Hin.
    + intros o' (j & [= _ ->] & _)%list_elem_of_fmap. done.
  - apply apply_ops_not_in. intros (op & Hk & (j & -> & Hj)%list_elem_of_fmap)%list_elem_of_fmap. cbn [fst] in Hk.
    apply app_inv_head in Hk as ->. by apply Hi, Hin.
Qed.

(** The key images a block spends. *)
Definition spends (block : BlockTemplate) (blobs : list bytes) (l : list Hash) : Prop :=
  ∃ txs, parse_transactions block blobs = Some (Ok txs) ∧ l = block_images (zip txs blobs).

Lemma main_checks_images s block blobs hash prev txs info d spent :
  main_checks SCRATCHPAD s block blobs hash prev = Some (Ok (txs, info, d, spent)) →
  parse_transactions block blobs = Some (Ok txs) ∧ NoDup (block_images (zip txs blobs)) ∧
  spent = list_to_set (block_images (zip txs blobs)) ∧
  (in_zone (main_context s block prev) = false → ∀ i, i ∈ block_images (zip txs blobs) → chain_key_image_spent s i prev = Ok false).
Proof.
  intros Hc. apply daemon_order_Ok in Hc. unfold daemon_order in Hc.
  apply and_then_Ok in Hc as (txs' & Hp & Hc). do 4 (apply and_then_Ok in Hc as (? & _ & Hc)).
  apply and_then_Ok in Hc as ([fee st] & H8 & Hc). do 5 (apply and_then_Ok in Hc as (? & _ & Hc)). injection Hc as -> _ _ <-.
  apply of_result_Ok, map_err_Ok, block_transactions_Ok in H8 as (Hn & -> & vs & HF & _). split_and!; [done..|].
  intros Hz i Hi. apply (accepted_not_spent _ _ _ HF Hz i Hi).
Qed.
(** Blocks accepted one after the other on the tip, outside the checkpoint zone (inside it
    the checkpoints stand for the spent check), and the key images they spend. *)
Inductive extends : ChainState S → list Hash → ChainState S → Prop :=
| extends_nil s : extends s [] s
| extends_block s prev block blob blobs hash o l s1 l' s2 :
    tip s = Some prev → is_u32 (prev + 1) → in_zone (main_context s block prev) = false →
    add_to_main SCRATCHPAD block blob blobs hash prev s = Some (Ok o, s1) → spends block blobs l →
    extends s1 l' s2 → extends s (l ++ l') s2.

(** One step: the images are new, get a record, and no record is lost. *)
Lemma accepted_images s prev block blob blobs hash o l s1 :
  images_recorded s → tip s = Some prev → is_u32 (prev + 1) → in_zone (main_context s block prev) = false →
  add_to_main SCRATCHPAD block blob blobs hash prev s = Some (Ok o, s1) → spends block blobs l →
  images_recorded s1 ∧ NoDup l ∧ (∀ i, i ∈ l → records s !! keys.key_image i = None) ∧
  (∀ i, i ∈ l → is_Some (records s1 !! keys.key_image i)) ∧
  (∀ i, is_Some (records s !! keys.key_image i) → is_Some (records s1 !! keys.key_image i)).
Proof.
  intros Hi Ht Hu Hz (txs & info & d & spent & Hc & Hp & _)%add_to_main_Ok (txs' & Hp' & ->).
  destruct (main_checks_images _ _ _ _ _ _ _ _ _ Hc) as (Hpt & Hn & -> & Hs). specialize (Hs Hz). rewrite Hpt in Hp'. injection Hp' as <-.
  unfold wrapping_add in Hp. rewrite wrap_small in Hp by done.
  pose proof (λ i, push_block_image _ _ _ _ _ _ _ _ _ i Hp) as Hr. apply push_block_Ok in Hp as (_ & _ & _ & Ht1).
  split_and!; [|done| | |].
  - intros i v. rewrite Hr. destruct (decide _) as [_|_].
    + intros [= <-]. exists (prev + 1), (prev + 1). split_and!; [done..|lia].
    + intros (b & t & -> & Hb & Ht' & Hle)%Hi. exists b, (prev + 1). split_and!; [done..|]. rewrite Ht in Ht'. injection Ht' as ->. lia.
  - intros i Hin. by apply (not_spent_fresh s prev), Hs.
  - intros i Hin. rewrite Hr, decide_True by by apply elem_of_list_to_set. done.
  - intros i Hin. rewrite Hr. by destruct (decide _).
Qed.

(** C1. No double spend along the main chain: whatever blocks are accepted one after the
    other on a coherent chain, the key images they spend are pairwise distinct, none of them
    was spent on the chain before, and each has its record afterwards. *)
Theorem main_chain_no_double_spend s l s' : chain_ok s → extends s l s' →
  NoDup l ∧ (∀ i, i ∈ l → records s !! keys.key_image i = None) ∧
  (∀ i, i ∈ l → is_Some (records s' !! keys.key_image i)).
Proof.
  intros Hs%chain_ok_images He.
  enough (NoDup l ∧ (∀ i, i ∈ l → records s !! keys.key_image i = None) ∧
    (∀ i, i ∈ l → is_Some (records s' !! keys.key_image i)) ∧
    (∀ i, is_Some (records s !! keys.key_image i) → is_Some (records s' !! keys.key_image i))) by tauto.
  induction He as [s|s prev block blob blobs hash o l s1 l' s2 Ht Hu Hz Ha Hl _ IH].
  - split_and!; [constructor|by intros ? ?%elem_of_nil..|done].
  - destruct (accepted_images _ _ _ _ _ _ _ _ _ Hs Ht Hu Hz Ha Hl) as (Hs1 & Hn & Hf & Hr & Hk).
    destruct (IH Hs1) as (Hn' & Hf' & Hr' & Hk'). split_and!.
    + apply NoDup_app. split_and!; [done| |done]. intros i Hi Hi'. apply Hr in Hi as [v Hv]. by rewrite Hf' in Hv.
    + intros i [Hi|Hi]%elem_of_app; [auto|]. destruct (records s !! keys.key_image i) as [v|] eqn:E; [|done].
      destruct (Hk i (ex_intro _ v E)) as [v' Hv']. by rewrite Hf' in Hv'.
    + intros i [Hi|Hi]%elem_of_app; auto.
    + auto.
Qed.
End KeyImages.

(** * Chain selection *)

Section Selection.
Context {S : Type} `{KvStore S} `{C : Crypto} `{SystemClock} `{Sch : !Scheduler}.
Variable SCRATCHPAD : list (list Z).
Implicit Types s : ChainState S.

Definition main_weight s : Z := default 0 (cumulative_difficulty <$> tip_info s).

(** The main chain and its caches. *)
Definition same_main s s' : Prop :=
  store s' = store s ∧ tip s' = tip s ∧ recent s' = recent s ∧ cs_block_median_size s' = cs_block_median_size s.

(** C6. A block off the tip touches the main chain only when its branch is strictly
    heavier: whatever the result, the store, the tip and the caches are unchanged unless the
    block passed its checks with more cumulative difficulty than the tip has; and an
    accepted block reports a switch exactly then. A tie keeps the main chain. *)
Theorem strictly_heavier_only block blob blobs hash prev parent_alt s r s' :
  add_to_alternative SCRATCHPAD block blob blobs hash prev parent_alt s = Some (r, s') →
  (same_main s s' ∨ ∃ info d, alternative_checks SCRATCHPAD s block blobs hash prev parent_alt = Some (Ok (info, d)) ∧
     main_weight s < cumulative_difficulty info) ∧
  (∀ o, r = Ok o → ao_cumulative_difficulty o ≤ main_weight s → ao_status o = Alternative ∧ same_main s s') ∧
  (∀ o, r = Ok o → main_weight s < ao_cumulative_difficulty o → ao_status o = AlternativeAndSwitched).
Proof.
  unfold add_to_alternative, act_bind at 1, act_read at 1.
  destruct (alternative_checks _ _ _ _ _ _ _) as [[[info d]|e]|] eqn:E; [|intros [= <- <-]; split_and!; [by left|done|done]|done].
  unfold act_bind at 1, act_modify at 1, act_bind at 1, act_read at 1, ok, outweighs_main, tip_info. cbn [set_alt_blocks recent].
  fold (tip_info s) (main_weight s). destruct (main_weight s <? cumulative_difficulty info) eqn:W; bool_hyps.
  - intros Hr. split_and!; [right; eauto| |]; intros o ->; revert Hr; unfold act_bind;
      (destruct (switch_to _ _ _) as [[[[]|e] s1]|]; [|done|done]); cbn; intros [= <- _]; cbn; [lia|done].
  - cbn. intros [= <- <-]. split_and!; [by left| |]; intros o [= <-]; cbn; [done|lia].
Qed.
End Selection.

(** * Witnesses *)

Module AcceptanceWitness.
#[local] Existing Instance toy_crypto.
#[local] Instance one_thread : Scheduler := sequential_scheduler.
#[local] Instance midnight : SystemClock := {| system_now := 0 |}.

(** A simnet whose first block pays two outputs of 1,500, and a second block that spends
    one of them in a ring of both. *)
Definition simnet_config : Config := mkConfig true 0 None 512 256 1 true.
Definition start : ChainState MemStore :=
  mkState (∅ : MemStore) simnet_config Checkpoints.none None [] (full_reward_zone (block_major_version_for_index 0)) ∅ [] (Some 0) None true 0.
Definition coinbase_of (height unlock : Z) (outs : list Z) : Transaction :=
  mkTransaction (mkPrefix 1 unlock [Base height] (map (λ a, mkOutput a (replicate 32 9)) outs) []) [].
Definition block0 : BlockTemplate := mkBlock 1 0 0 (replicate 32 0) 0 None (coinbase_of 0 0 [1_500; 1_500]) [].
Definition info0 : BlockInfo := mkBlockInfo (replicate 32 7) 0 100 1 3_000 1.
Definition coinbase0 : Hash := Eval vm_compute in match Transaction.hash (base_transaction block0) with Ok h => h | Err _ => [] end.
Definition spend : Transaction :=
  mkTransaction (mkPrefix 1 0 [Key 1_500 [0; 1] IDENTITY] [mkOutput 1_000 (replicate 32 9)] []) [[replicate 64 1; replicate 64 2]].
Definition spend_blob : bytes := Eval vm_compute in match Transaction.to_bytes spend with Ok b => b | Err _ => [] end.
Definition spend_hash : Hash := Eval vm_compute in match Transaction.hash spend with Ok h => h | Err _ => [] end.
Definition block1 : BlockTemplate := mkBlock 1 0 0 (replicate 32 7) 0 None (coinbase_of 1 41 [11_921_428]) [spend_hash].
Definition s0 : ChainState MemStore := (push_block start 0 block0 [] [] [] info0 ∅).2.

Lemma block0_fresh : block_fresh start 0 block0 [] info0 ∅ coinbase0.
Proof.
  assert (∀ k, records start !! k = None) as He by (intros k; change ((∅ : gmap bytes bytes) !! k = None); apply lookup_empty).
  split; try (intros; apply He); try done.
  - apply (bool_decide_unpack _). vm_compute. exact I.
  - apply (bool_decide_unpack _). vm_compute. exact I.
  - apply (bool_decide_unpack _). vm_compute. exact I.
  - intros a. unfold out_base, count_of. rewrite He. cbn [fmap option_fmap option_map default].
    pose proof (Numbering.occurs_le_length a (amounts block0 [] coinbase0)) as Hl. pose proof (Numbering.occurs_nonneg a (amounts block0 [] coinbase0)).
    assert (length (amounts block0 [] coinbase0) = 2%nat) as Hn by (vm_compute; reflexivity). rewrite Hn in Hl. set (o := Numbering.occurs a _) in *. clearbody o. cbn. lia.
Qed.

Lemma s0_ok : chain_ok s0.
Proof.
  assert (chain_ok start) as Hs by (apply empty_chain_ok; try done; cbn; unfold CRYPTONOTE_REWARD_BLOCKS_WINDOW; lia).
  by destruct (push_block_coherent start 0 block0 [] [] [] info0 ∅ coinbase0 block0_fresh (ok_map _ Hs) (ok_recent _ Hs)) as (_ & _ & _ & _ & Hok).
Qed.

Definition accepted {A} (r : option (result ChainError A * ChainState MemStore)) : bool :=
  match r with Some (Ok _, _) => true | _ => false end.

Lemma accepted_Ok {A} (r : option (result ChainError A * ChainState MemStore)) :
  accepted r = true → ∃ a s', r = Some (Ok a, s').
Proof. destruct r as [[[a|e] s']|]; [eauto|done|done]. Qed.

Lemma block1_accepted : accepted (add_to_main [] block1 [] [spend_blob] (replicate 32 8) 0 s0) = true.
Proof. vm_compute. reflexivity. Qed.

(** A rival of [block1], of the same weight. *)
Definition rival : BlockTemplate := mkBlock 1 0 0 (replicate 32 7) 0 None (coinbase_of 1 41 [11_920_928]) [].
Definition s1 : ChainState MemStore :=
  match add_to_main [] block1 [] [spend_blob] (replicate 32 8) 0 s0 with Some (_, s) => s | None => s0 end.

Lemma rival_accepted : accepted (add_to_alternative [] rival [] [] (replicate 32 6) 0 None s1) = true.
Proof. vm_compute. reflexivity. Qed.

(** A block of version 6 with a parent block, whose work is one Argon2id hash. *)
Definition block6 : BlockTemplate :=
  with_parent (mkBlock 6 0 0 (replicate 32 7) 0 None (coinbase_of 1 41 [5]) []) (self_parent (replicate 32 3) 1 []).
Definition hint6 : PowHint := Eval vm_compute in match PowHint_compute [] block6 with Some (Some h) => h | _ => mkPowHint [] [] end.
End AcceptanceWitness.
Import AcceptanceWitness.
#[local] Existing Instance toy_crypto.
#[local] Existing Instance one_thread.
#[local] Existing Instance midnight.

Lemma main_chain_no_double_spend_witness : ∃ s',
  NoDup [IDENTITY] ∧ (∀ i, i ∈ [IDENTITY] → records s0 !! keys.key_image i = None) ∧
  (∀ i, i ∈ [IDENTITY] → is_Some (records s' !! keys.key_image i)).
Proof.
  destruct (accepted_Ok _ block1_accepted) as (o & s1 & Ha). exists s1.
  apply (main_chain_no_double_spend (C := toy_crypto) (Sch := one_thread) [] s0 [IDENTITY] s1 s0_ok).
  apply (extends_block [] s0 0 block1 [] [spend_blob] (replicate 32 8) o [IDENTITY] s1 [] s1); [vm_compute; reflexivity|unfold in_u; lia|vm_compute; reflexivity|exact Ha| |constructor].
  exists [spend]. split; vm_compute; reflexivity.
Defined.

Lemma transaction_list_spec_witness :
  check_transaction_list (C := toy_crypto) block1 [spend] 1 true = Some (Ok ()) ↔
  (1 < BLOCK_BLOB_SHUFFLE_CHECK_HEIGHT ∧ true = false) ∨
  (Forall2 (λ tx h, Transaction.hash (C := toy_crypto) tx = Ok h) [spend] [spend_hash] ∧
   (BLOCK_BLOB_SHUFFLE_CHECK_HEIGHT ≤ 1 → NoDup [spend_hash])).
Proof. apply (transaction_list_spec (C := toy_crypto) block1 [spend] 1 true). reflexivity. Defined.

Lemma pow_hint_irrelevant_witness :
  main_checks [] (set_pow_hint s0 (Some hint6)) block6 [] (ph_block_hash hint6) 0 = main_checks [] (set_pow_hint s0 None) block6 [] (ph_block_hash hint6) 0 ∧
  alternative_checks [] (set_pow_hint s0 (Some hint6)) block6 [] (ph_block_hash hint6) 0 None =
  alternative_checks [] (set_pow_hint s0 None) block6 [] (ph_block_hash hint6) 0 None.
Proof. apply (pow_hint_irrelevant [] s0 block6 [] (ph_block_hash hint6) 0 None hint6). right. vm_compute. reflexivity. Defined.

Lemma strictly_heavier_only_witness : ∃ o s', add_to_alternative [] rival [] [] (replicate 32 6) 0 None s1 = Some (Ok o, s') ∧
  (ao_cumulative_difficulty o ≤ main_weight s1 → ao_status o = Alternative ∧ same_main s1 s').
Proof.
  destruct (accepted_Ok _ rival_accepted) as (o & s' & Ha). exists o, s'. split; [exact Ha|].
  by apply (strictly_heavier_only [] rival [] [] (replicate 32 6) 0 None s1 (Ok o) s' Ha).
Defined.
