(* ===== verification/PoolPriority.v ===== *)
(** The priority of a pooled transaction (crates/wrkz-mempool/src/pool.rs: [PoolEntry],
    [TxPriority], [PriorityKey]) and the ordered set the pool keeps its priorities in.

    A [BTreeSet] is the list of its elements in the order of [Ord]: an insertion that finds
    an equal element and a removal that finds none change nothing. *)
From stdpp Require Import base list sorting.
From S2P Require Import Prelude Tx.
Local Open Scope Z_scope.

Inductive PoolSource : Type := Network | Rpc | AlternativeBlock.

#[export] Instance PoolSource_eq_dec : EqDecision PoolSource.
Proof. solve_decision. Defined.

Record PoolEntry := mkPoolEntry {
  e_hash : Hash; e_transaction : Transaction; e_blob : bytes; e_fee : Z; e_amount : Z;
  e_is_fusion : bool; e_receive_time : Z; e_source : PoolSource; e_payment_id : option Hash }.

Definition e_size (e : PoolEntry) : nat := length (e_blob e).

Record TxPriority := mkTxPriority {
  t_fee : Z; t_size : Z; t_amount : Z; t_in_out_ratio : Z; t_receive_time : Z }.

Module TxPriority.

(** [TxPriority::of] *)
Definition of_entry (entry : PoolEntry) : TxPriority :=
  let inputs := Z.of_nat (length (inputs (prefix (e_transaction entry)))) in
  let outputs := Z.of_nat (length (outputs (prefix (e_transaction entry)))) in
  {| t_fee := e_fee entry;
     t_size := Z.of_nat (e_size entry);
     t_amount := e_amount entry;
     t_in_out_ratio := if outputs =? 0 then u64_max else inputs / outputs;
     t_receive_time := e_receive_time entry |}.

Definition prefers (self other : TxPriority) : bool :=
  let lhs := wrapping_mul 128 (t_fee self) (t_size other) in
  let rhs := wrapping_mul 128 (t_fee other) (t_size self) in
  if rhs <? lhs then true
  else if lhs <? rhs then false
  else if negb (t_amount self =? t_amount other) then t_amount other <? t_amount self
  else if negb (t_in_out_ratio self =? t_in_out_ratio other) then t_in_out_ratio other <? t_in_out_ratio self
  else if negb (t_size self =? t_size other) then t_size self <? t_size other
  else t_receive_time self <? t_receive_time other.

End TxPriority.

Record PriorityKey := mkPriorityKey { priority : TxPriority; seq : Z }.

Module PriorityKey.

Definition cmp (self other : PriorityKey) : comparison :=
  if TxPriority.prefers (priority self) (priority other) then Lt
  else if TxPriority.prefers (priority other) (priority self) then Gt
  else seq self ?= seq other.

(** [BTreeSet::insert] *)
Fixpoint insert (k : PriorityKey) (l : list PriorityKey) : list PriorityKey :=
  match l with
  | [] => [k]
  | x :: l => match cmp k x with Lt => k :: x :: l | Eq => x :: l | Gt => x :: insert k l end
  end.

(** [BTreeSet::remove] *)
Fixpoint remove (k : PriorityKey) (l : list PriorityKey) : list PriorityKey :=
  match l with
  | [] => []
  | x :: l => match cmp k x with Lt => x :: l | Eq => l | Gt => x :: remove k l end
  end.

End PriorityKey.

(** * The order of priorities *)

(** The fields at their widths. A transaction has at least one byte. *)
Definition priority_ok (p : TxPriority) : Prop := is_u64 (t_fee p) ∧ 0 < t_size p < 2 ^ 64.

(** [prefers] as a lexicographic comparison whose first key is the rational [fee / size]. *)
Definition preferred (a b : TxPriority) : Prop :=
  t_fee b * t_size a < t_fee a * t_size b ∨
  t_fee a * t_size b = t_fee b * t_size a ∧
  (t_amount b < t_amount a ∨ t_amount a = t_amount b ∧
  (t_in_out_ratio b < t_in_out_ratio a ∨ t_in_out_ratio a = t_in_out_ratio b ∧
  (t_size a < t_size b ∨ t_size a = t_size b ∧ t_receive_time a < t_receive_time b))).

Lemma cross_exact a b : priority_ok a → priority_ok b →
  wrapping_mul 128 (t_fee a) (t_size b) = t_fee a * t_size b.
Proof. intros [[? ?] _] [_ [? ?]]. apply wrap_small. unfold in_u. nia. Qed.

Lemma prefers_spec a b : priority_ok a → priority_ok b → TxPriority.prefers a b = true ↔ preferred a b.
Proof.
  intros Ha Hb. unfold TxPriority.prefers, preferred. rewrite !cross_exact by done.
  repeat match goal with |- context [if ?b then _ else _] => destruct b eqn:? end; bool_hyps; rewrite ?Z.ltb_lt; split; intros; try lia; done.
Qed.

Lemma prefers_false a b : priority_ok a → priority_ok b → TxPriority.prefers a b = false ↔ ¬ preferred a b.
Proof. intros Ha Hb. by rewrite <- (prefers_spec a b), not_true_iff_false. Qed.

(** Comparing rationals by cross products is transitive. *)
Lemma cross_le_trans fa sa fb sb fc sc : 0 < sa → 0 < sb → 0 < sc →
  fb * sa ≤ fa * sb → fc * sb ≤ fb * sc → fc * sa ≤ fa * sc.
Proof. intros. apply (Z.mul_le_mono_pos_r _ _ sb); nia. Qed.

Lemma cross_lt_trans fa sa fb sb fc sc : 0 < sa → 0 < sb → 0 < sc →
  fb * sa ≤ fa * sb → fc * sb ≤ fb * sc → fb * sa < fa * sb ∨ fc * sb < fb * sc → fc * sa < fa * sc.
Proof. intros ????? [?|?]; apply (Z.mul_lt_mono_pos_r sb); nia. Qed.

Lemma preferred_irrefl a : ¬ preferred a a.
Proof. unfold preferred. lia. Qed.

(** Not preferred either way, or preferred: the weak order. *)
Definition at_least (a b : TxPriority) : Prop := ¬ preferred b a.

Lemma at_least_spec a b : at_least a b ↔
  t_fee b * t_size a < t_fee a * t_size b ∨
  t_fee a * t_size b = t_fee b * t_size a ∧
  (t_amount b < t_amount a ∨ t_amount a = t_amount b ∧
  (t_in_out_ratio b < t_in_out_ratio a ∨ t_in_out_ratio a = t_in_out_ratio b ∧
  (t_size a < t_size b ∨ t_size a = t_size b ∧ t_receive_time a ≤ t_receive_time b))).
Proof. unfold at_least, preferred. lia. Qed.

Lemma preferred_weaken a b : preferred a b → at_least a b.
Proof. unfold at_least, preferred. lia. Qed.

Section Trans.
Context (a b c : TxPriority) (Ha : priority_ok a) (Hb : priority_ok b) (Hc : priority_ok c).

Lemma cross_cases : t_fee b * t_size a ≤ t_fee a * t_size b → t_fee c * t_size b ≤ t_fee b * t_size c →
  t_fee c * t_size a < t_fee a * t_size c ∨
  t_fee a * t_size b = t_fee b * t_size a ∧ t_fee b * t_size c = t_fee c * t_size b ∧ t_fee a * t_size c = t_fee c * t_size a.
Proof.
  intros H1 H2. destruct Ha as [_ [? _]], Hb as [_ [? _]], Hc as [_ [? _]].
  pose proof (cross_lt_trans (t_fee a) (t_size a) (t_fee b) (t_size b) (t_fee c) (t_size c)) as Hlt.
  destruct (Z.lt_ge_cases (t_fee b * t_size a) (t_fee a * t_size b)); [left; auto|].
  destruct (Z.lt_ge_cases (t_fee c * t_size b) (t_fee b * t_size c)); [left; auto|]. right.
  pose proof (cross_le_trans (t_fee a) (t_size a) (t_fee b) (t_size b) (t_fee c) (t_size c)).
  pose proof (cross_le_trans (t_fee c) (t_size c) (t_fee b) (t_size b) (t_fee a) (t_size a)). lia.
Qed.

Lemma at_least_trans : at_least a b → at_least b c → at_least a c.
Proof.
  rewrite !at_least_spec. intros H1 H2. destruct cross_cases as [?|(? & ? & ?)]; [lia|lia|by left|]. right. split; [done|lia].
Qed.

Lemma preferred_at_least : preferred a b → at_least b c → preferred a c.
Proof.
  rewrite at_least_spec. unfold preferred. intros H1 H2. destruct cross_cases as [?|(? & ? & ?)]; [lia|lia|by left|]. right. split; [done|lia].
Qed.

Lemma at_least_preferred : at_least a b → preferred b c → preferred a c.
Proof.
  rewrite at_least_spec. unfold preferred. intros H1 H2. destruct cross_cases as [?|(? & ? & ?)]; [lia|lia|by left|]. right. split; [done|lia].
Qed.

End Trans.

(** * The order of keys *)

Definition key_ok (k : PriorityKey) : Prop := priority_ok (priority k).
Definition key_lt (a b : PriorityKey) : Prop := PriorityKey.cmp a b = Lt.

Lemma key_lt_spec a b : key_ok a → key_ok b →
  key_lt a b ↔ preferred (priority a) (priority b) ∨ at_least (priority a) (priority b) ∧ seq a < seq b.
Proof.
  intros Ha Hb. unfold key_lt, PriorityKey.cmp, at_least.
  destruct (TxPriority.prefers _ _) eqn:E1; [apply prefers_spec in E1; [tauto|done|done]|]. apply prefers_false in E1; [|done|done].
  destruct (TxPriority.prefers (priority b) _) eqn:E2; [apply prefers_spec in E2; [|done|done]|apply prefers_false in E2; [|done|done]].
  - split; [done|tauto].
  - change ((seq a ?= seq b) = Lt) with (seq a < seq b). tauto.
Qed.

Lemma cmp_antisym a b : key_ok a → key_ok b → PriorityKey.cmp b a = CompOpp (PriorityKey.cmp a b).
Proof.
  intros Ha Hb. unfold PriorityKey.cmp.
  destruct (TxPriority.prefers (priority a) (priority b)) eqn:E1, (TxPriority.prefers (priority b) (priority a)) eqn:E2; try done.
  - apply prefers_spec in E1, E2; [|done..]. by apply preferred_weaken in E2.
  - apply Z.compare_antisym.
Qed.

Lemma cmp_Gt a b : key_ok a → key_ok b → PriorityKey.cmp a b = Gt ↔ key_lt b a.
Proof. intros Ha Hb. unfold key_lt. rewrite (cmp_antisym a b) by done. by destruct (PriorityKey.cmp a b). Qed.

Lemma cmp_Eq a b : PriorityKey.cmp a b = Eq → seq a = seq b.
Proof. unfold PriorityKey.cmp. do 2 (destruct (TxPriority.prefers _ _); [done|]). by intros ?%Z.compare_eq. Qed.

Lemma cmp_refl a : key_ok a → PriorityKey.cmp a a = Eq.
Proof.
  intros Ha. unfold PriorityKey.cmp. rewrite (proj2 (prefers_false _ _ Ha Ha)) by apply preferred_irrefl. apply Z.compare_refl.
Qed.

Lemma key_lt_irrefl a : key_ok a → ¬ key_lt a a.
Proof. intros Ha. unfold key_lt. by rewrite cmp_refl. Qed.

Lemma key_lt_trans a b c : key_ok a → key_ok b → key_ok c → key_lt a b → key_lt b c → key_lt a c.
Proof.
  intros Ha Hb Hc. rewrite !key_lt_spec by done. intros [H1|[H1 ?]] [H2|[H2 ?]].
  - left. by apply (preferred_at_least _ (priority b)), preferred_weaken.
  - left. by apply (preferred_at_least _ (priority b)).
  - left. by apply (at_least_preferred _ (priority b)).
  - right. split; [by apply (at_least_trans _ (priority b))|lia].
Qed.

(** * The ordered set *)

Abbreviation ordered := (StronglySorted key_lt).

Lemma elem_of_insert k l x : x ∈ PriorityKey.insert k l → x = k ∨ x ∈ l.
Proof.
  induction l as [|y l IH]; cbn [PriorityKey.insert]; [by intros ->%list_elem_of_singleton; left|].
  destruct (PriorityKey.cmp k y); rewrite !elem_of_cons; tauto.
Qed.

(** Every key of the set has another sequence number. *)
Definition fresh_key (k : PriorityKey) (l : list PriorityKey) : Prop := Forall (λ x, seq x ≠ seq k) l.

Lemma insert_permutation k l : fresh_key k l → PriorityKey.insert k l ≡ₚ k :: l.
Proof.
  induction 1 as [|x l Hx _ IH]; [done|]. cbn [PriorityKey.insert]. destruct (PriorityKey.cmp k x) eqn:E; [|done|].
  - by apply cmp_Eq in E.
  - rewrite IH. constructor.
Qed.

Lemma insert_ordered k l : key_ok k → Forall key_ok l → ordered l → ordered (PriorityKey.insert k l).
Proof.
  intros Hk Hl. induction 1 as [|x l Hs IH Hx]; cbn [PriorityKey.insert]; [repeat constructor|].
  apply Forall_cons in Hl as [Hxk Hl]. specialize (IH Hl). destruct (PriorityKey.cmp k x) eqn:E; [by constructor| |].
  - constructor; [by constructor|]. constructor; [done|]. rewrite Forall_forall in *. intros y Hy.
    apply (key_lt_trans _ x); auto.
  - constructor; [done|]. rewrite Forall_forall in *. intros y [->|Hy]%elem_of_insert; [by apply cmp_Gt|auto].
Qed.

Lemma remove_ordered k l : ordered l → ordered (PriorityKey.remove k l).
Proof.
  induction 1 as [|x l Hs IH Hx]; cbn [PriorityKey.remove]; [constructor|]. destruct (PriorityKey.cmp k x); [done|by constructor|].
  constructor; [done|]. rewrite Forall_forall in *. intros y Hy. apply Hx. clear -Hy. induction l as [|z l IH]; [done|].
  cbn [PriorityKey.remove] in Hy. destruct (PriorityKey.cmp k z); [by right|done|].
  apply elem_of_cons in Hy as [->|?]; [left|right; auto].
Qed.

Lemma remove_permutation k l : Forall key_ok l → ordered l → k ∈ l → k :: PriorityKey.remove k l ≡ₚ l.
Proof.
  induction l as [|x l IH]; intros Hl Hs Hin; [by apply elem_of_nil in Hin|]. apply Forall_cons in Hl as [Hx Hl].
  apply StronglySorted_inv in Hs as [Hs Hlt]. cbn [PriorityKey.remove]. apply elem_of_cons in Hin as [->|Hin].
  - by rewrite cmp_refl.
  - rewrite Forall_forall in Hlt. pose proof (Hlt k Hin) as Hk. assert (key_ok k) by (rewrite Forall_forall in Hl; auto).
    rewrite (proj2 (cmp_Gt k x ltac:(done) Hx) Hk). rewrite Permutation_swap. constructor. by apply IH.
Qed.

(** An ordered set is determined by its elements. *)
Lemma ordered_unique l k : Forall key_ok l → ordered l → ordered k → l ≡ₚ k → l = k.
Proof.
  revert k. induction l as [|x l IH]; intros k Hok Hl Hk Hp; [by apply Permutation_nil_l in Hp|].
  destruct k as [|y k]; [by apply Permutation_nil_r in Hp|]. assert (Forall key_ok (y :: k)) as Hok' by (by rewrite <- Hp).
  apply Forall_cons in Hok as [Hx Hok], Hok' as [Hy Hok']. apply StronglySorted_inv in Hl as [Hl Hlx], Hk as [Hk Hky].
  rewrite Forall_forall in Hlx, Hky. assert (x = y) as ->.
  { assert (x ∈ y :: k) as [?|H1]%elem_of_cons by (rewrite <- Hp; left); [done|].
    assert (y ∈ x :: l) as [?|H2]%elem_of_cons by (rewrite Hp; left); [done|].
    exfalso. apply (key_lt_irrefl x Hx), (key_lt_trans x y x); auto. }
  f_equal. apply IH; [done..|]. by apply (Permutation_cons_inv (a := y)).
Qed.

(** Nothing comes after the last key. *)
Lemma ordered_last l k : ordered (l ++ [k]) → ∀ x, x ∈ l → key_lt x k.
Proof.
  induction l as [|y l IH]; cbn; intros Hs x Hx; [by apply elem_of_nil in Hx|]. apply StronglySorted_inv in Hs as [Hs Hy].
  apply elem_of_cons in Hx as [->|Hx]; [|auto]. rewrite Forall_forall in Hy. apply Hy, elem_of_app. right. by left.
Qed.

(** * A stable sort *)

(** [std::stable_sort] of the pool in insertion order, as an insertion sort: a new element goes
    before the first one it is preferred over. *)
Fixpoint stable_insert (e : PoolEntry) (l : list PoolEntry) : list PoolEntry :=
  match l with
  | [] => [e]
  | x :: l => if TxPriority.prefers (TxPriority.of_entry e) (TxPriority.of_entry x) then e :: x :: l else x :: stable_insert e l
  end.

Definition stable_sort (l : list PoolEntry) : list PoolEntry := foldl (λ acc e, stable_insert e acc) [] l.

Definition key_of (se : Z * PoolEntry) : PriorityKey := mkPriorityKey (TxPriority.of_entry se.2) se.1.

Lemma stable_insert_key se l : Forall (λ x : Z * PoolEntry, x.1 < se.1) l →
  ∃ l', l' ≡ₚ se :: l ∧ map key_of l' = PriorityKey.insert (key_of se) (map key_of l) ∧ map snd l' = stable_insert se.2 (map snd l).
Proof.
  induction 1 as [|x l Hx _ (l' & Hp & Hk & He)]; [by exists [se]|]. cbn [map PriorityKey.insert stable_insert].
  unfold PriorityKey.cmp. cbn [key_of priority seq]. destruct (TxPriority.prefers (TxPriority.of_entry se.2) _); [by exists (se :: x :: l)|].
  exists (x :: l'). cbn [map]. rewrite Hk, He, (proj2 (Z.compare_gt_iff _ _) Hx).
  split_and!; [rewrite Hp; constructor|by destruct (TxPriority.prefers _ _)|done].
Qed.

(** Sorting a pool held in insertion order gives the entries in the order of their keys. *)
Lemma stable_sort_ordered (l : list (Z * PoolEntry)) : StronglySorted (λ a b, a.1 < b.1) l → Forall (λ se, key_ok (key_of se)) l →
  ∃ l', l' ≡ₚ l ∧ ordered (map key_of l') ∧ map snd l' = stable_sort (map snd l).
Proof.
  induction l as [|se l IH] using rev_ind; intros Hs Hok; [exists []; split_and!; [done|constructor|done]|].
  apply Forall_app in Hok as [Hok Hse]. apply Forall_cons in Hse as [Hse _].
  assert (StronglySorted (λ a b, a.1 < b.1) l ∧ Forall (λ x, x.1 < se.1) l) as [Hsl Hlt].
  { clear -Hs. induction l as [|y l IH]; [split; constructor|]. cbn in Hs. apply StronglySorted_inv in Hs as [Hs Hy].
    apply Forall_app in Hy as [Hy Hys]. apply Forall_cons in Hys as [Hys _]. destruct (IH Hs) as [H1 H2]. split; [by apply SSorted_cons|constructor; [exact Hys|exact H2]]. }
  destruct (IH Hsl Hok) as (m & Hp & Ho & Hm). destruct (stable_insert_key se m) as (m' & Hp' & Hk & He); [by rewrite Hp|].
  exists m'. split_and!.
  - rewrite Hp', Hp. apply Permutation_cons_append.
  - rewrite Hk. apply insert_ordered; [done| |done]. rewrite Forall_map, Hp. done.
  - unfold stable_sort in *. by rewrite map_app, foldl_app, He, Hm.
Qed.
