(* ===== verification/RejectionCache.v ===== *)
(** The pool's memory of refused transactions (crates/wrkz-mempool/src/pool.rs:
    [RejectionCategory], [RejectionCache]). *)
From stdpp Require Import gmap.
From S2P Require Import Prelude Tx Checkpoints Validate.
Local Open Scope Z_scope.

Inductive RejectionCategory : Type :=
| Malformed | Invalid | InvalidSignature | InvalidAtHeight | ChainStateDependent | Policy.

Definition RejectionCategory_of_rule (rule : TxRule) : RejectionCategory :=
  match rule with
  | EmptyInputs | InputUnknownType | InputIdenticalKeyImages | InputEmptyOutputUsage | InputInvalidDomainKeyImages
  | InputIdenticalOutputIndexes | InputsAmountOverflow | OutputZeroAmount | OutputInvalidKey | OutputsAmountOverflow
  | WrongAmount | ZeroInputSum | ExtraTooLarge _ | ExcessiveOutputs _ | InputInvalidSignaturesCount _ _ => Invalid
  | InputInvalidSignatures _ => InvalidSignature
  | SizeTooLarge _ _ | OutputAmountTooLarge _ | WrongFee _ _ | UnlockTimeTooSmall _ _ | InvalidMixin _ | PowInvalid _ => InvalidAtHeight
  | InputKeyImageAlreadySpent _ | InputInvalidGlobalIndex _ _ | InputSpendLockedOut _ _ _ => ChainStateDependent
  end.

Definition is_peer_fault (c : RejectionCategory) : bool :=
  match c with Malformed | Invalid | InvalidSignature => true | _ => false end.

Record ContextKey := mkContextKey { ck_height : Z; ck_median : Z; ck_timestamp : Z }.

#[export] Instance ContextKey_eq_dec : EqDecision ContextKey.
Proof. solve_decision. Defined.

Inductive CacheScope : Type := Always | UntilChainSwitch | Context_ (key : ContextKey).

#[export] Instance CacheScope_eq_dec : EqDecision CacheScope.
Proof. solve_decision. Defined.

Record Remembered := mkRemembered {
  r_rule : TxRule; r_scope : CacheScope; r_blob_len : nat; r_at : Z; r_seq : Z }.

Record RejectionCache := mkCache {
  c_entries : gmap Hash Remembered; c_order : list (Hash * Z); c_next_seq : Z }.

Module RejectionCache.

Definition default_ : RejectionCache := mkCache ∅ [] 0.

(** The closure [context] reads the chain, which the lookup does not change. *)
Definition lookup (c : RejectionCache) (hash : Hash) (blob_len : nat) (now ttl : Z) (context : ContextKey) : option TxRule * RejectionCache :=
  match c_entries c !! hash with
  | None => (None, c)
  | Some entry =>
      if negb (r_blob_len entry =? blob_len)%nat then (None, c)
      else
        let stands := (saturating_sub now (r_at entry) <? ttl) &&
          match r_scope entry with
          | Always | UntilChainSwitch => true
          | Context_ key => bool_decide (key = context)
          end in
        if stands then (Some (r_rule entry), c)
        else (None, mkCache (delete hash (c_entries c)) (c_order c) (c_next_seq c))
  end.

(** [entries.get(&old).is_some_and(|e| e.seq == old_seq)] *)
Definition current (entries : gmap Hash Remembered) (p : Hash * Z) : bool :=
  match entries !! p.1 with Some e => r_seq e =? p.2 | None => false end.

(** The loop of [insert]: one iteration per queue position, at most. *)
Fixpoint shed (capacity : nat) (entries : gmap Hash Remembered) (order : list (Hash * Z)) : gmap Hash Remembered * list (Hash * Z) :=
  if (capacity <? size entries)%nat || (2 * capacity <? length order)%nat then
    match order with
    | [] => (entries, [])
    | old :: order => shed capacity (if current entries old then delete old.1 entries else entries) order
    end
  else (entries, order).

Definition insert (c : RejectionCache) (hash : Hash) (blob_len : nat) (rule : TxRule) (scope : CacheScope) (now : Z) (capacity : nat) : RejectionCache :=
  if (capacity =? 0)%nat then c
  else
    let seq := c_next_seq c in
    let '(entries, order) := shed capacity (<[hash := mkRemembered rule scope blob_len now seq]> (c_entries c)) (c_order c ++ [(hash, seq)]) in
    mkCache entries order (wrapping_add 64 seq 1).

Definition expire (c : RejectionCache) (now ttl : Z) : RejectionCache :=
  let entries := filter (λ he, saturating_sub now (r_at he.2) < ttl) (c_entries c) in
  mkCache entries (filter (λ p, current entries p = true) (c_order c)) (c_next_seq c).

Definition forget_ring_dependent (c : RejectionCache) : RejectionCache :=
  mkCache (filter (λ he, r_scope he.2 ≠ UntilChainSwitch) (c_entries c)) (c_order c) (c_next_seq c).

(** [TransactionPool::forget_rejection] *)
Definition forget (c : RejectionCache) (hash : Hash) : bool * RejectionCache :=
  (bool_decide (is_Some (c_entries c !! hash)), mkCache (delete hash (c_entries c)) (c_order c) (c_next_seq c)).

End RejectionCache.

(** * The cache stays within its bounds *)

(** Every entry has its position in the queue, and no number is used twice. *)
Definition queued (entries : gmap Hash Remembered) (order : list (Hash * Z)) : Prop :=
  ∀ h e, entries !! h = Some e → (h, r_seq e) ∈ order.

Record cache_ok (capacity : nat) (c : RejectionCache) : Prop := {
  cache_queued : queued (c_entries c) (c_order c);
  cache_distinct : NoDup (c_order c);
  cache_numbers p : p ∈ c_order c → 0 ≤ p.2 < c_next_seq c;
  cache_next : is_u64 (c_next_seq c);
  cache_size : (size (c_entries c) ≤ capacity)%nat;
  cache_order : (length (c_order c) ≤ 2 * capacity)%nat }.

Lemma queued_size entries order : queued entries order → (size entries ≤ length order)%nat.
Proof.
  intros Hq. rewrite <- length_map_to_list, <- (length_map (λ he : Hash * Remembered, (he.1, r_seq he.2))).
  apply submseteq_length, NoDup_submseteq.
  - apply (NoDup_fmap_1 fst). change (NoDup (fst <$> ((λ he : Hash * Remembered, (he.1, r_seq he.2)) <$> map_to_list entries))).
    rewrite <- list_fmap_compose. apply NoDup_fst_map_to_list.
  - intros [h s] ([h' e] & [= -> ->] & He%elem_of_map_to_list)%list_elem_of_fmap. by apply Hq.
Qed.

Lemma current_true entries p : RejectionCache.current entries p = true ↔ ∃ e, entries !! p.1 = Some e ∧ r_seq e = p.2.
Proof.
  unfold RejectionCache.current. destruct (entries !! p.1) as [e|]; [rewrite Z.eqb_eq|]; split; [by exists e|by intros (? & [= ->] & ?)|done|by intros (? & ? & _)].
Qed.

(** Dropping the oldest position loses the entry there and nothing else. *)
Lemma drop_oldest entries old order : NoDup (old :: order) → queued entries (old :: order) →
  let entries' := if RejectionCache.current entries old then delete old.1 entries else entries in
  queued entries' order ∧ ∀ h e, entries' !! h = Some e ↔ entries !! h = Some e ∧ (h, r_seq e) ∈ order.
Proof.
  intros [Hni Hnd]%NoDup_cons Hq entries'.
  assert (∀ h e, entries' !! h = Some e ↔ entries !! h = Some e ∧ (h, r_seq e) ∈ order) as Hiff; [|split; [intros h e He; by apply Hiff in He as [_ ?]|done]].
  intros h e. unfold entries'. destruct (RejectionCache.current entries old) eqn:E.
  - apply current_true in E as (e0 & He0 & Hs). rewrite lookup_delete_Some. split.
    + intros [Hne He]. split; [done|]. apply Hq in He as [<-|?]%elem_of_cons; done.
    + intros [He Hin]. split; [|done]. intros <-. rewrite He in He0. injection He0 as ->. destruct old as [h s]. cbn in *. by subst s.
  - split; [|by intros [? _]]. intros He. split; [done|]. pose proof (Hq h e He) as [<-|?]%elem_of_cons; [|done].
    exfalso. apply not_true_iff_false in E. apply E, current_true. by exists e.
Qed.

(** The loop of [insert] ends within the bounds, keeps the newest entry, and drops the entries of a prefix of the queue. *)
Lemma shed_spec capacity entries order p : (0 < capacity)%nat → NoDup (order ++ [p]) → queued entries (order ++ [p]) →
  let r := RejectionCache.shed capacity entries (order ++ [p]) in
  (∃ dropped kept, order = dropped ++ kept ∧ r.2 = kept ++ [p]) ∧ queued r.1 r.2 ∧
  (size r.1 ≤ capacity)%nat ∧ (length r.2 ≤ 2 * capacity)%nat ∧
  ∀ h e, r.1 !! h = Some e ↔ entries !! h = Some e ∧ (h, r_seq e) ∈ r.2.
Proof.
  intros Hc. revert entries. induction order as [|old order IH]; intros entries Hnd Hq.
  - cbn [app] in *. assert (size entries ≤ 1)%nat by (by apply (queued_size entries [p])). cbn [RejectionCache.shed length].
    destruct (_ || _) eqn:E; [apply orb_true_iff in E as [?|?]; bool_hyps; lia|]. cbn [fst snd]. split_and!; [by exists [], []|done|lia|cbn; lia|].
    intros h e. split; [|tauto]. auto.
  - cbn [app] in *. cbn [RejectionCache.shed]. destruct (_ || _) eqn:E.
    + destruct (drop_oldest entries old (order ++ [p]) Hnd Hq) as [Hq' Hiff]. apply NoDup_cons in Hnd as [_ Hnd].
      destruct (IH _ Hnd Hq') as ((d & k & -> & Hk) & Hq2 & Hs & Hl & Hi). split_and!; [exists (old :: d), k; by rewrite Hk|done|done|done|].
      intros h e. rewrite Hi, Hiff. split; [tauto|]. intros [He Hin]. split_and!; [done| |done].
      rewrite Hk in Hin. rewrite <- app_assoc. apply elem_of_app. by right.
    + bool_hyps. cbn [fst snd]. split_and!; [by exists [], (old :: order)|done|lia|lia|]. intros h e. split; [|tauto]. auto.
Qed.

Section Operations.
Context (capacity : nat) (c : RejectionCache) (Hok : cache_ok capacity c).

Lemma insert_spec hash blob_len rule scope now : (0 < capacity)%nat → c_next_seq c < u64_max →
  let r := mkRemembered rule scope blob_len now (c_next_seq c) in
  let c' := RejectionCache.insert c hash blob_len rule scope now capacity in
  cache_ok capacity c' ∧ c_entries c' !! hash = Some r ∧
  (∃ dropped, c_order c ++ [(hash, c_next_seq c)] = dropped ++ c_order c') ∧
  ∀ h e, h ≠ hash → c_entries c' !! h = Some e ↔ c_entries c !! h = Some e ∧ (h, r_seq e) ∈ c_order c'.
Proof.
  intros Hcap Hseq r c'. destruct Hok as [Hq Hnd Hn [Hu1 Hu2] _ _]. unfold c', RejectionCache.insert. rewrite (proj2 (Nat.eqb_neq capacity 0)) by lia.
  pose proof (shed_spec capacity (<[hash := r]> (c_entries c)) (c_order c) (hash, c_next_seq c) Hcap) as Hs. cbv zeta in Hs. fold r.
  destruct (RejectionCache.shed _ _ _) as [entries order]. cbn [fst snd] in Hs.
  assert (∀ s, (s, c_next_seq c) ∉ c_order c) as Hnew by (intros s Hin%Hn; cbn in Hin; lia).
  destruct Hs as ((d & k & Ho & ->) & Hq' & Hsz & Hl & Hi).
  { apply NoDup_app. split_and!; [done| |apply NoDup_singleton]. intros x Hx ->%list_elem_of_singleton. by apply (Hnew hash). }
  { intros h e [[<- <-]|[_ He]]%lookup_insert_Some; apply elem_of_app; [right; by left|left; by apply Hq]. }
  assert (wrapping_add 64 (c_next_seq c) 1 = c_next_seq c + 1) as -> by (apply wrap_small; unfold in_u; lia).
  cbn [c_entries c_order c_next_seq]. split_and!; [split; cbn [c_entries c_order c_next_seq]| | |].
  - done.
  - rewrite Ho in Hnd, Hnew. apply NoDup_app in Hnd as (_ & _ & Hnd). apply NoDup_app. split_and!; [done| |apply NoDup_singleton].
    intros x Hx ->%list_elem_of_singleton. apply (Hnew hash), elem_of_app. by right.
  - intros x [Hx|Hx]%elem_of_app; [|apply list_elem_of_singleton in Hx as ->; cbn; lia].
    assert (0 ≤ x.2 < c_next_seq c) by (apply Hn; rewrite Ho, elem_of_app; by right). lia.
  - unfold in_u. lia.
  - done.
  - done.
  - apply Hi. split; [by rewrite lookup_insert_eq|]. apply elem_of_app. right. by left.
  - exists d. by rewrite Ho, app_assoc.
  - intros h e Hne. rewrite Hi, lookup_insert_ne by done. tauto.
Qed.

(** Dropping entries, and queue positions without one, keeps the cache well formed. *)
Lemma shrink_ok c' : c_entries c' ⊆ c_entries c → sublist (c_order c') (c_order c) → queued (c_entries c') (c_order c') →
  c_next_seq c' = c_next_seq c → cache_ok capacity c'.
Proof.
  intros He Ho Hq' Hn'. destruct Hok as [Hq Hnd Hn Hu Hs Hl]. split; [done|by eapply sublist_NoDup| |by rewrite Hn'| |].
  - intros p Hp. rewrite Hn'. apply Hn. eapply elem_of_submseteq; [exact Hp|]. by apply sublist_submseteq.
  - apply map_subseteq_size in He. lia.
  - apply sublist_length in Ho. lia.
Qed.

Lemma keep_queue_ok entries : entries ⊆ c_entries c → cache_ok capacity (mkCache entries (c_order c) (c_next_seq c)).
Proof.
  intros Hs. apply shrink_ok; [done|done| |done]. intros h e He. apply (cache_queued _ _ Hok). by eapply lookup_weaken.
Qed.

Lemma lookup_ok hash blob_len now ttl context : cache_ok capacity (RejectionCache.lookup c hash blob_len now ttl context).2.
Proof.
  unfold RejectionCache.lookup. destruct (c_entries c !! hash); [|done]. destruct (negb _); [done|]. cbv zeta. destruct (_ && _); [done|].
  apply keep_queue_ok, delete_subseteq.
Qed.

Lemma expire_ok now ttl : cache_ok capacity (RejectionCache.expire c now ttl).
Proof.
  apply shrink_ok; [apply map_filter_subseteq|apply sublist_filter| |done]. intros h e He. unfold RejectionCache.expire in *. cbn [c_entries c_order] in *.
  apply list_elem_of_filter. split; [apply current_true; by exists e|]. apply (cache_queued _ _ Hok). by apply map_lookup_filter_Some in He as [? _].
Qed.

Lemma forget_ring_dependent_ok : cache_ok capacity (RejectionCache.forget_ring_dependent c).
Proof. apply keep_queue_ok, map_filter_subseteq. Qed.

Lemma forget_ok hash : cache_ok capacity (RejectionCache.forget c hash).2.
Proof. apply keep_queue_ok, delete_subseteq. Qed.

End Operations.

Lemma default_ok capacity : cache_ok capacity RejectionCache.default_.
Proof. split; cbn [RejectionCache.default_ c_entries c_order c_next_seq length]; [done|apply NoDup_nil_2|by intros ? ?%elem_of_nil|done|rewrite map_size_empty; lia|lia]. Qed.

(** Remembering a rejection keeps the cache within its capacity, and its queue within twice
    that. The new rejection is held, and room is made oldest first: what is lost of the
    rest are the entries of the queue positions that came first. *)
Theorem rejection_cache_fifo capacity c hash blob_len rule scope now :
  cache_ok capacity c → (0 < capacity)%nat → c_next_seq c < u64_max →
  let c' := RejectionCache.insert c hash blob_len rule scope now capacity in
  cache_ok capacity c' ∧ c_entries c' !! hash = Some (mkRemembered rule scope blob_len now (c_next_seq c)) ∧
  (∃ dropped, c_order c ++ [(hash, c_next_seq c)] = dropped ++ c_order c') ∧
  ∀ h e, h ≠ hash → c_entries c' !! h = Some e ↔ c_entries c !! h = Some e ∧ (h, r_seq e) ∈ c_order c'.
Proof. intros Hok Hc Hn. by apply insert_spec. Qed.

(** A cache of one entry, refilled: the first rejection makes room for the second. *)
Lemma rejection_cache_fifo_witness :
  let c := RejectionCache.insert RejectionCache.default_ [1] 200 EmptyInputs Always 0 1 in
  let c' := RejectionCache.insert c [2] 100 ZeroInputSum Always 5 1 in
  c_entries c' !! [2] = Some (mkRemembered ZeroInputSum Always 100 5 1) ∧ c_entries c' !! [1] = None.
Proof.
  cbv zeta. destruct (insert_spec 1 _ (default_ok 1) [1] 200 EmptyInputs Always 0) as [Hc _]; [lia|done|].
  destruct (rejection_cache_fifo 1 _ [2] 100 ZeroInputSum Always 5 Hc) as (_ & H2 & _); [lia|vm_compute; reflexivity|].
  split; [exact H2|vm_compute; reflexivity].
Defined.
