(* ===== verification/Pool.v ===== *)
(** The transaction pool (crates/wrkz-mempool/src/pool.rs: [TransactionPool]) over the chain view
    it validates against (crates/wrkz-mempool/src/chain.rs: [PoolChain]).

    A [HashMap] is a finite map, a [BTreeMap] one too, its iteration order written out where
    it is used; the priority index is the ordered list of PoolPriority.v. Plain operators wrap. *)
From stdpp Require Import gmap sets.
From S2P Require Import Prelude Constants Hashing Tx TxExtra Fees Checkpoints Records Store Validate ChainState PoolPriority RejectionCache.
Local Open Scope Z_scope.

Definition CRYPTONOTE_MEMPOOL_MAX_SIZE_BYTES : Z := 64 * 1024 * 1024.
Definition CRYPTONOTE_MEMPOOL_EVICT_TO_PERCENT : Z := 90.
Definition CRYPTONOTE_MEMPOOL_TX_LIVETIME : Z := 60 * 60 * 24.
Definition FUSION_TX_MAX_POOL_COUNT : Z := 60.
Definition REJECTION_CACHE_CAPACITY : nat := Z.to_nat 10_000.
Definition REJECTION_CACHE_TTL : Z := 60 * 60.

Record PoolConfig := mkPoolConfig {
  max_size_bytes : Z; evict_to_percent : Z; tx_livetime : Z; alt_block_tx_livetime : Z;
  fusion_max_pool_count : Z; rejection_cache_capacity : nat; rejection_cache_ttl : Z }.

Definition PoolConfig_default : PoolConfig := {|
  max_size_bytes := CRYPTONOTE_MEMPOOL_MAX_SIZE_BYTES;
  evict_to_percent := CRYPTONOTE_MEMPOOL_EVICT_TO_PERCENT;
  tx_livetime := CRYPTONOTE_MEMPOOL_TX_LIVETIME;
  alt_block_tx_livetime := CRYPTONOTE_MEMPOOL_TX_LIVETIME;
  fusion_max_pool_count := FUSION_TX_MAX_POOL_COUNT;
  rejection_cache_capacity := REJECTION_CACHE_CAPACITY;
  rejection_cache_ttl := REJECTION_CACHE_TTL |}.

Inductive PoolStatus : Type :=
| Added
| PoolDeserializationFailed
| AlreadyInPool
| AlreadyInBlockchain
| RecentlyDeleted
| FusionPoolFull
| Rejected (rule : TxRule)
| KeyImageInPool (key_image holder : Hash)
| PoolFull
| CachedRejection (rule : TxRule).

Module PoolStatus.

Definition accepted (s : PoolStatus) : bool := match s with Added => true | _ => false end.

Definition rule (s : PoolStatus) : option TxRule :=
  match s with Rejected r | CachedRejection r => Some r | _ => None end.

Definition is_cached_rejection (s : PoolStatus) : bool := match s with CachedRejection _ => true | _ => false end.

Definition category (s : PoolStatus) : option RejectionCategory :=
  match s with
  | Added => None
  | PoolDeserializationFailed => Some Malformed
  | AlreadyInBlockchain => Some ChainStateDependent
  | AlreadyInPool | RecentlyDeleted | FusionPoolFull | KeyImageInPool _ _ | PoolFull => Some Policy
  | Rejected r | CachedRejection r => Some (RejectionCategory_of_rule r)
  end.

End PoolStatus.

(** * The chain a pool reads *)

(** The trait [PoolChain], with the defaults its methods have. *)
Class PoolChain (F : Type) := {
  pool_chain_access :: ChainAccess F;
  chain_top_index : Z;
  block_info_at : Z → result F (option BlockInfo);
  chain_block_median_size : Z;
  checkpoint_table : Checkpoints;
  fixed_difficulty : option Z;
  transaction_in_chain : Hash → result F bool;
  top_block_hash : result F Hash;
  chain_already_generated_coins : result F Z
}.

Definition fixed_difficulty_default : option Z := None.
Definition transaction_in_chain_default {F} (_ : Hash) : result F bool := Ok false.
Definition top_block_hash_default {F} (top_index : Z) (block_info_at : Z → result F (option BlockInfo)) : result F Hash :=
  info ← block_info_at top_index; Ok (default (replicate 32 0) (block_hash <$> info)).
Definition already_generated_coins_default {F} (top_index : Z) (block_info_at : Z → result F (option BlockInfo)) : result F Z :=
  info ← block_info_at top_index; Ok (default 0 (already_generated_coins <$> info)).

(** [impl PoolChain for ChainState] *)
Definition chain_state_pool_chain {S : Type} `{KvStore S} `{SystemClock} (s : ChainState S) : PoolChain ChainError :=
  let info_at index := if bool_decide (is_u32 index) then block_info s index else Ok None in
  {| pool_chain_access := chain_access s;
     chain_top_index := default 0 (tip s);
     block_info_at := info_at;
     chain_block_median_size := cs_block_median_size s;
     checkpoint_table := cs_checkpoints s;
     fixed_difficulty := if simnet (cfg s) then Some SIMNET_DIFFICULTY else None;
     transaction_in_chain := has_transaction s;
     top_block_hash := top_block_hash_default (default 0 (tip s)) info_at;
     chain_already_generated_coins := already_generated_coins_default (default 0 (tip s)) info_at |}.

Definition ContextKey_of `{PoolChain F} : ContextKey :=
  mkContextKey chain_top_index chain_block_median_size top_block_timestamp.

(** * What a pool reads off a transaction *)

Fixpoint fee_loop (outputs inputs : Z) (ins : list Input) : Z :=
  match ins with
  | [] => wrapping_sub 64 inputs outputs
  | Key amount _ _ :: ins => fee_loop outputs (wrapping_add 64 inputs amount) ins
  | Base _ :: _ => 0
  end.

Definition transaction_fee (tx : Transaction) : Z :=
  let outputs := foldl (λ a o, wrapping_add 64 a (o_amount o)) 0 (outputs (prefix tx)) in
  fee_loop outputs 0 (inputs (prefix tx)).

Definition payment_id_of (tx : Transaction) : option Hash :=
  match w_payment_id (parse_extra_wallet (extra (prefix tx))) with
  | Some (Long id) => Some id
  | _ => None
  end.

Fixpoint spent_in_loop `{PoolChain F} (block_index : Z) (ins : list Input) : result F bool :=
  match ins with
  | [] => Ok false
  | Key _ _ key_image :: ins =>
      spent ← key_image_spent key_image block_index;
      if (spent : bool) then Ok true else spent_in_loop block_index ins
  | Base _ :: ins => spent_in_loop block_index ins
  end.

Definition spends_on_chain `{PoolChain F} (tx : Transaction) (block_index : Z) : result F bool :=
  spent_in_loop block_index (inputs (prefix tx)).

(** * The pool *)

Record TransactionPool := mkPool {
  p_cfg : PoolConfig;
  p_entries : gmap Z PoolEntry;
  p_priority : list PriorityKey;
  p_by_hash : gmap Hash Z;
  p_by_payment_id : gmap Hash (list Hash);
  p_key_images : gmap Hash Hash;
  p_size_bytes : Z;
  p_fee_less : Z;
  p_next_seq : Z;
  p_evicted : list Hash;
  p_recently_deleted : gmap Hash Z;
  p_rejected : RejectionCache;
  p_clock : option Z }.

Definition set_rejected (p : TransactionPool) (c : RejectionCache) : TransactionPool :=
  mkPool (p_cfg p) (p_entries p) (p_priority p) (p_by_hash p) (p_by_payment_id p) (p_key_images p) (p_size_bytes p)
    (p_fee_less p) (p_next_seq p) (p_evicted p) (p_recently_deleted p) c (p_clock p).
Definition set_evicted (p : TransactionPool) (l : list Hash) : TransactionPool :=
  mkPool (p_cfg p) (p_entries p) (p_priority p) (p_by_hash p) (p_by_payment_id p) (p_key_images p) (p_size_bytes p)
    (p_fee_less p) (p_next_seq p) l (p_recently_deleted p) (p_rejected p) (p_clock p).
Definition set_recently_deleted (p : TransactionPool) (m : gmap Hash Z) : TransactionPool :=
  mkPool (p_cfg p) (p_entries p) (p_priority p) (p_by_hash p) (p_by_payment_id p) (p_key_images p) (p_size_bytes p)
    (p_fee_less p) (p_next_seq p) (p_evicted p) m (p_rejected p) (p_clock p).
Definition set_by_hash (p : TransactionPool) (m : gmap Hash Z) : TransactionPool :=
  mkPool (p_cfg p) (p_entries p) (p_priority p) m (p_by_payment_id p) (p_key_images p) (p_size_bytes p)
    (p_fee_less p) (p_next_seq p) (p_evicted p) (p_recently_deleted p) (p_rejected p) (p_clock p).

Module Pool.

Definition new (cfg : PoolConfig) : TransactionPool :=
  mkPool cfg ∅ [] ∅ ∅ ∅ 0 0 0 [] ∅ RejectionCache.default_ None.

Definition set_clock (p : TransactionPool) (now : option Z) : TransactionPool :=
  mkPool (p_cfg p) (p_entries p) (p_priority p) (p_by_hash p) (p_by_payment_id p) (p_key_images p) (p_size_bytes p)
    (p_fee_less p) (p_next_seq p) (p_evicted p) (p_recently_deleted p) (p_rejected p) now.

Definition now `{SystemClock} (p : TransactionPool) : Z := default system_now (p_clock p).

Definition len (p : TransactionPool) : nat := size (p_entries p).

Definition contains (p : TransactionPool) (hash : Hash) : bool := bool_decide (is_Some (p_by_hash p !! hash)).

Definition get (p : TransactionPool) (hash : Hash) : option PoolEntry := seq ← p_by_hash p !! hash; p_entries p !! seq.

Definition hashes_by_payment_id (p : TransactionPool) (payment_id : Hash) : list Hash := default [] (p_by_payment_id p !! payment_id).

Definition by_priority (p : TransactionPool) : list PoolEntry := omap (λ key, p_entries p !! seq key) (p_priority p).

Definition hashes (p : TransactionPool) : list Hash := map e_hash (by_priority p).

Definition for_block_template (p : TransactionPool) : list PoolEntry * list PoolEntry :=
  (filter (λ e, e_fee e ≠ 0) (by_priority p), filter (λ e, e_fee e = 0) (by_priority p)).

Definition transactions_for_relay (p : TransactionPool) (hashes : list Hash) : list bytes :=
  omap (λ h, e_blob <$> get p h) hashes.

Definition take_evicted (p : TransactionPool) : list Hash * TransactionPool := (p_evicted p, set_evicted p []).

(** ** Inserting and removing *)

Definition is_least_profitable (p : TransactionPool) (candidate : PoolEntry) : bool :=
  match last (p_priority p) with
  | None => false
  | Some worst => negb (TxPriority.prefers (TxPriority.of_entry candidate) (priority worst))
  end.

(** The iteration order of the set of key images is not specified, and the map it fills does
    not depend on it. *)
Definition insert (p : TransactionPool) (entry : PoolEntry) (key_images : gset Hash) : TransactionPool :=
  let seq := p_next_seq p in
  {| p_cfg := p_cfg p;
     p_entries := <[seq := entry]> (p_entries p);
     p_priority := PriorityKey.insert (mkPriorityKey (TxPriority.of_entry entry) seq) (p_priority p);
     p_by_hash := <[e_hash entry := seq]> (p_by_hash p);
     p_by_payment_id :=
       match e_payment_id entry with
       | Some pid => <[pid := default [] (p_by_payment_id p !! pid) ++ [e_hash entry]]> (p_by_payment_id p)
       | None => p_by_payment_id p
       end;
     p_key_images := set_fold (λ image m, <[image := e_hash entry]> m) (p_key_images p) key_images;
     p_size_bytes := wrapping_add 64 (p_size_bytes p) (Z.of_nat (e_size entry));
     p_fee_less := if e_fee entry =? 0 then wrapping_add 64 (p_fee_less p) 1 else p_fee_less p;
     p_next_seq := wrapping_add 64 seq 1;
     p_evicted := p_evicted p;
     p_recently_deleted := p_recently_deleted p;
     p_rejected := p_rejected p;
     p_clock := p_clock p |}.

(** The images of [ins] whose holder is [hash] are released. *)
Fixpoint release (hash : Hash) (ins : list Input) (key_images : gmap Hash Hash) : gmap Hash Hash :=
  match ins with
  | [] => key_images
  | Key _ _ image :: ins =>
      release hash ins (if bool_decide (key_images !! image = Some hash) then base.delete image key_images else key_images)
  | Base _ :: ins => release hash ins key_images
  end.

Definition forget_payment_id (hash : Hash) (pid : option Hash) (m : gmap Hash (list Hash)) : gmap Hash (list Hash) :=
  match pid with
  | None => m
  | Some pid =>
      match m !! pid with
      | None => m
      | Some l => let l := filter (λ h, h ≠ hash) l in if (length l =? 0)%nat then base.delete pid m else <[pid := l]> m
      end
  end.

Definition remove (p : TransactionPool) (hash : Hash) : bool * TransactionPool :=
  match p_by_hash p !! hash with
  | None => (false, p)
  | Some seq =>
      let p := set_by_hash p (base.delete hash (p_by_hash p)) in
      match p_entries p !! seq with
      | None => (false, p)
      | Some entry =>
          (true,
           {| p_cfg := p_cfg p;
              p_entries := base.delete seq (p_entries p);
              p_priority := PriorityKey.remove (mkPriorityKey (TxPriority.of_entry entry) seq) (p_priority p);
              p_by_hash := p_by_hash p;
              p_by_payment_id := forget_payment_id hash (e_payment_id entry) (p_by_payment_id p);
              p_key_images := release hash (inputs (prefix (e_transaction entry))) (p_key_images p);
              p_size_bytes := saturating_sub (p_size_bytes p) (Z.of_nat (e_size entry));
              p_fee_less := if e_fee entry =? 0 then wrapping_sub 64 (p_fee_less p) 1 else p_fee_less p;
              p_next_seq := p_next_seq p;
              p_evicted := p_evicted p;
              p_recently_deleted := p_recently_deleted p;
              p_rejected := p_rejected p;
              p_clock := p_clock p |})
      end
  end.

Definition remove_all (p : TransactionPool) (hashes : list Hash) : TransactionPool := foldl (λ p h, (remove p h).2) p hashes.

(** One iteration per entry of the index is enough; see [evict_to_fit_spec]. *)
Fixpoint evict_loop (fuel : nat) (target : Z) (p : TransactionPool) : list Hash * TransactionPool :=
  match fuel with
  | O => ([], p)
  | Datatypes.S fuel =>
      if target <? p_size_bytes p then
        match last (p_priority p) with
        | None => ([], p)
        | Some worst =>
            match p_entries p !! seq worst with
            | None => ([], p)
            | Some e =>
                let '(evicted, p) := evict_loop fuel target (remove p (e_hash e)).2 in
                (e_hash e :: evicted, p)
            end
        end
      else ([], p)
  end.

Definition evict_to_fit (p : TransactionPool) : list Hash * TransactionPool :=
  if p_size_bytes p <=? max_size_bytes (p_cfg p) then ([], p)
  else
    let target := wrapping_mul 64 (max_size_bytes (p_cfg p) / 100) (evict_to_percent (p_cfg p)) in
    evict_loop (length (p_priority p)) target p.

Definition flush (p : TransactionPool) : TransactionPool := remove_all p (hashes p).

(** ** Admission *)

Section Admission.
Context `{C : Crypto} `{PC : PoolChain F} `{SystemClock}.

Definition remember_rejection (p : TransactionPool) (hash : Hash) (blob_len : nat) (rule : TxRule) (context : ContextKey) (now : Z) : TransactionPool :=
  let remembered scope :=
    set_rejected p (RejectionCache.insert (p_rejected p) hash blob_len rule scope now (rejection_cache_capacity (p_cfg p))) in
  match RejectionCategory_of_rule rule with
  | Invalid => remembered Always
  | InvalidSignature => remembered UntilChainSwitch
  | InvalidAtHeight => remembered (Context_ context)
  | ChainStateDependent | Policy | Malformed => p
  end.

(** The first key input whose image the pool holds. *)
Fixpoint held_image (key_images : gmap Hash Hash) (ins : list Input) : option (Hash * Hash) :=
  match ins with
  | [] => None
  | Key _ _ image :: ins =>
      match key_images !! image with Some holder => Some (image, holder) | None => held_image key_images ins end
  | Base _ :: ins => held_image key_images ins
  end.

Definition candidate (transaction : Transaction) (blob : bytes) (hash : Hash) (now : Z) (source : PoolSource) : PoolEntry :=
  {| e_hash := hash;
     e_transaction := transaction;
     e_blob := blob;
     e_fee := transaction_fee transaction;
     e_amount := default 0 (TransactionPrefix.sum_outputs (prefix transaction));
     e_is_fusion := false;
     e_receive_time := now;
     e_source := source;
     e_payment_id := payment_id_of transaction |}.

Definition with_fusion (e : PoolEntry) (is_fusion : bool) : PoolEntry :=
  mkPoolEntry (e_hash e) (e_transaction e) (e_blob e) (e_fee e) (e_amount e) is_fusion (e_receive_time e) (e_source e) (e_payment_id e).

(** [TxContext] at the chain's top. *)
Definition admission_context : TxContext :=
  mkTxContext chain_top_index chain_block_median_size top_block_timestamp true checkpoint_table.

(** The second half of [add_parsed], from the validator on. *)
Definition validate_and_insert (p : TransactionPool) (entry : PoolEntry) (now : Z) : PoolStatus * TransactionPool :=
  let hash := e_hash entry in
  match validate_transaction_early_exit (e_transaction entry) (e_blob entry) admission_context (mkWorld ∅ None) with
  | (Err (Rule r), _) => (Rejected r, remember_rejection p hash (e_size entry) r ContextKey_of now)
  | (Err (Chain _), _) => (Rejected (InputKeyImageAlreadySpent (replicate 32 0)), p)
  | (Ok validation, w) =>
      let p := insert p (with_fusion entry (v_is_fusion validation)) (spent_key_images w) in
      let '(evicted, p) := evict_to_fit p in
      let p := set_evicted p (p_evicted p ++ evicted) in
      (if contains p hash then Added else PoolFull, p)
  end.

Definition add_parsed (p : TransactionPool) (transaction : Transaction) (blob : bytes) (hash : Hash) (source : PoolSource) : PoolStatus * TransactionPool :=
  if contains p hash then (AlreadyInPool, p)
  else
    let now := now p in
    let '(cached, rejected) := RejectionCache.lookup (p_rejected p) hash (length blob) now (rejection_cache_ttl (p_cfg p)) ContextKey_of in
    let p := set_rejected p rejected in
    match cached with
    | Some rule => (CachedRejection rule, p)
    | None =>
        if match transaction_in_chain hash with Ok b => b | Err _ => false end then (AlreadyInBlockchain, p)
        else if bool_decide (is_Some (p_recently_deleted p !! hash)) then (RecentlyDeleted, p)
        else
          let fee := transaction_fee transaction in
          if (fee =? 0) && (fusion_max_pool_count (p_cfg p) <=? p_fee_less p) then (FusionPoolFull, p)
          else
            match held_image (p_key_images p) (inputs (prefix transaction)) with
            | Some (image, holder) => (KeyImageInPool image holder, p)
            | None =>
                let entry := candidate transaction blob hash now source in
                if (max_size_bytes (p_cfg p) <? wrapping_add 64 (p_size_bytes p) (Z.of_nat (length blob))) && is_least_profitable p entry
                then (PoolFull, p)
                else validate_and_insert p entry now
            end
    end.

Definition add (p : TransactionPool) (blob : bytes) (source : PoolSource) : PoolStatus * TransactionPool :=
  match Transaction.from_bytes blob with
  | Err _ => (PoolDeserializationFailed, p)
  | Ok transaction =>
      match Transaction.hash transaction with
      | Err _ => (PoolDeserializationFailed, p)
      | Ok hash => add_parsed p transaction blob hash source
      end
  end.

(** ** The cleaner *)

Definition clean_recently_deleted (p : TransactionPool) (now : Z) : TransactionPool :=
  set_recently_deleted p (filter (λ x, saturating_sub now x.2 < tx_livetime (p_cfg p)) (p_recently_deleted p)).

Definition bad_mixin (e : PoolEntry) (height : Z) : bool :=
  match validate_ring_sizes (map Z.of_nat (TransactionPrefix.ring_sizes (prefix (e_transaction e)))) height with Ok _ => false | Err _ => true end.

Definition stale (cfg : PoolConfig) (now : Z) (e : PoolEntry) : bool :=
  let timeout := match e_source e with AlternativeBlock => alt_block_tx_livetime cfg | _ => tx_livetime cfg end in
  timeout <=? saturating_sub now (e_receive_time e).

Fixpoint clean_loop (height now : Z) (hashes : list Hash) (p : TransactionPool) : list Hash * TransactionPool :=
  match hashes with
  | [] => ([], p)
  | hash :: hashes =>
      match get p hash with
      | None => clean_loop height now hashes p
      | Some entry =>
          if stale (p_cfg p) now entry || bad_mixin entry height then
            let p := set_recently_deleted p (<[hash := now]> (p_recently_deleted p)) in
            let '(deleted, p) := clean_loop height now hashes (remove p hash).2 in
            (hash :: deleted, p)
          else clean_loop height now hashes p
      end
  end.

Definition clean (p : TransactionPool) (height : Z) : list Hash * TransactionPool :=
  let now := now p in
  let '(deleted, p) := clean_loop height now (hashes p) p in
  let p := clean_recently_deleted p now in
  (deleted, set_rejected p (RejectionCache.expire (p_rejected p) now (rejection_cache_ttl (p_cfg p)))).

Definition forget_deleted (p : TransactionPool) (hash : Hash) : bool * TransactionPool :=
  (bool_decide (is_Some (p_recently_deleted p !! hash)), set_recently_deleted p (base.delete hash (p_recently_deleted p))).

Definition forget_rejection (p : TransactionPool) (hash : Hash) : bool * TransactionPool :=
  let '(known, c) := RejectionCache.forget (p_rejected p) hash in (known, set_rejected p c).

(** ** Reacting to the chain *)

Definition swept (block_transaction_hashes : list Hash) (spent_key_images : gset Hash) (e : PoolEntry) : bool :=
  let in_chain := bool_decide (e_hash e ∈ block_transaction_hashes) ||
    match transaction_in_chain (e_hash e) with Ok b => b | Err _ => false end in
  let too_big := max_size chain_block_median_size <? Z.of_nat (e_size e) in
  let double_spend := existsb (λ i, match i with Key _ _ image => bool_decide (image ∈ spent_key_images) | Base _ => false end)
    (inputs (prefix (e_transaction e))) in
  in_chain || bad_mixin e chain_top_index || too_big || double_spend.

(** The hashes of the pool, in priority order, whose entry [f] picks. *)
Definition select (p : TransactionPool) (f : PoolEntry → bool) : list Hash :=
  filter (λ hash, match get p hash with Some e => f e | None => false end = true) (hashes p).

Definition on_block_added (p : TransactionPool) (block_transaction_hashes : list Hash) (spent_key_images : gset Hash) : list Hash * TransactionPool :=
  let to_remove := select p (swept block_transaction_hashes spent_key_images) in
  (to_remove, remove_all p to_remove).

Definition remove_spent_in_chain (p : TransactionPool) : list Hash * TransactionPool :=
  let p := set_rejected p (RejectionCache.forget_ring_dependent (p_rejected p)) in
  let spent := map e_hash (filter (λ e, match spends_on_chain (e_transaction e) chain_top_index with Ok b => b | Err _ => false end = true) (by_priority p)) in
  (spent, remove_all p spent).

Fixpoint copy_loop (blobs : list bytes) (p : TransactionPool) : list Hash * TransactionPool :=
  match blobs with
  | [] => ([], p)
  | blob :: blobs =>
      match Transaction.from_bytes blob with
      | Err _ => copy_loop blobs p
      | Ok transaction =>
          match Transaction.hash transaction with
          | Err _ => copy_loop blobs p
          | Ok hash =>
              let p := (forget_deleted p hash).2 in
              let '(status, p) := add_parsed p transaction blob hash AlternativeBlock in
              let '(restored, p) := copy_loop blobs p in
              (if PoolStatus.accepted status then hash :: restored else restored, p)
          end
      end
  end.

Definition copy_transactions_to_pool (p : TransactionPool) (blobs : list bytes) : list Hash * TransactionPool :=
  copy_loop blobs (set_rejected p (RejectionCache.forget_ring_dependent (p_rejected p))).

End Admission.

End Pool.
