(* ===== verification/PoolInv.v ===== *)
(** The indexes of the transaction pool agree (crates/wrkz-mempool/src/pool.rs): the invariant of
    [TransactionPool], kept by every operation, what the priority index answers, and eviction. *)
From stdpp Require Import gmap sets sorting.
From S2P Require Import Prelude Constants Hashing Tx TxExtra Fees Checkpoints Records Validate Accept ChainState.
From S2P Require Import PoolPriority RejectionCache Pool.
Local Open Scope Z_scope.

(** * Sums over the pool *)

Definition msum (f : PoolEntry → Z) (m : gmap Z PoolEntry) : Z := map_fold (λ _ e a, f e + a) 0 m.

Lemma msum_empty f : msum f ∅ = 0.
Proof. apply map_fold_empty. Qed.

Lemma msum_insert f m s e : m !! s = None → msum f (<[s := e]> m) = f e + msum f m.
Proof. intros Hs. unfold msum. rewrite map_fold_insert_L; [done| |done]. intros. lia. Qed.

Lemma msum_delete f m s e : m !! s = Some e → msum f m = f e + msum f (base.delete s m).
Proof. intros Hs. unfold msum. apply (map_fold_delete_L (λ _ e a, f e + a)); [|done]. intros. lia. Qed.

Lemma msum_le f g m : (∀ s e, m !! s = Some e → f e ≤ g e) → msum f m ≤ msum g m.
Proof.
  induction m as [|s e m Hs IH] using map_ind; intros Hle; [by rewrite !msum_empty|]. rewrite !msum_insert by done.
  assert (f e ≤ g e) by (apply (Hle s); by rewrite lookup_insert_eq).
  assert (msum f m ≤ msum g m); [|lia]. apply IH. intros s' e' He. apply (Hle s'). rewrite lookup_insert_ne; [done|congruence].
Qed.

Lemma msum_zero m : msum (λ _, 0) m = 0.
Proof. induction m as [|s e m Hs IH] using map_ind; [apply msum_empty|]. by rewrite msum_insert, IH by done. Qed.

(** * The invariant *)

Definition images (e : PoolEntry) : list Hash := key_images (inputs (prefix (e_transaction e))).
Definition entry_bytes (e : PoolEntry) : Z := Z.of_nat (e_size e).
Definition is_fee_less (e : PoolEntry) : Z := if e_fee e =? 0 then 1 else 0.

(** A blob is a [Vec], which holds at most [isize::MAX] bytes, and a transaction is not empty. *)
Definition blob_ok (blob : bytes) : Prop := blob ≠ [] ∧ Z.of_nat (length blob) < 2 ^ 63.

Definition entry_ok (e : PoolEntry) : Prop := blob_ok (e_blob e) ∧ is_u64 (e_fee e).

Definition held (p : TransactionPool) (e : PoolEntry) : Prop := ∃ s, p_entries p !! s = Some e.

Record pool_wf (p : TransactionPool) : Prop := {
  wf_entries s e : p_entries p !! s = Some e → 0 ≤ s < p_next_seq p ∧ entry_ok e;
  wf_next : is_u64 (p_next_seq p);
  wf_by_hash h s : p_by_hash p !! h = Some s ↔ ∃ e, p_entries p !! s = Some e ∧ e_hash e = h;
  wf_ordered : ordered (p_priority p);
  wf_priority : p_priority p ≡ₚ map key_of (map_to_list (p_entries p));
  wf_images i h : p_key_images p !! i = Some h ↔ ∃ e, held p e ∧ e_hash e = h ∧ i ∈ images e;
  wf_payment_id pid h : h ∈ Pool.hashes_by_payment_id p pid ↔ ∃ e, held p e ∧ e_hash e = h ∧ e_payment_id e = Some pid;
  wf_payment_id_distinct pid : NoDup (Pool.hashes_by_payment_id p pid);
  wf_payment_id_used pid : p_by_payment_id p !! pid ≠ Some [];
  wf_size_bound : p_size_bytes p < 2 ^ 64;
  wf_size : p_size_bytes p = msum entry_bytes (p_entries p);
  wf_fee_less : p_fee_less p = msum is_fee_less (p_entries p)
}.

(** A budget of at most [2 ^ 63] bytes, of which an eviction keeps at most all. *)
Definition config_ok (cfg : PoolConfig) : Prop := 0 ≤ max_size_bytes cfg < 2 ^ 63 ∧ 0 ≤ evict_to_percent cfg ≤ 100.

Record pool_ok (p : TransactionPool) : Prop := {
  ok_wf : pool_wf p;
  ok_config : config_ok (p_cfg p);
  ok_budget : p_size_bytes p ≤ max_size_bytes (p_cfg p);
  ok_cache : cache_ok (rejection_cache_capacity (p_cfg p)) (p_rejected p)
}.

Lemma entry_bytes_pos e : entry_ok e → 0 < entry_bytes e < 2 ^ 63.
Proof. intros [[Hb Hl] _]. unfold entry_bytes, e_size. destruct (e_blob e); [done|]. cbn [length] in *. lia. Qed.

Lemma key_of_ok s e : entry_ok e → key_ok (key_of (s, e)).
Proof.
  intros He. pose proof (entry_bytes_pos e He). destruct He as [_ Hf]. unfold key_ok, priority_ok, key_of. cbn [priority fst snd].
  unfold TxPriority.of_entry. cbn [t_fee t_size]. unfold entry_bytes in *. split; [done|lia].
Qed.

Section Wf.
Context (p : TransactionPool) (Hwf : pool_wf p).

(** Entries are told apart by their hashes. *)
Lemma held_hash e e' : held p e → held p e' → e_hash e = e_hash e' → e = e'.
Proof.
  intros [s Hs] [s' Hs'] Hh. assert (p_by_hash p !! e_hash e = Some s) as H1 by (apply wf_by_hash; [done|by exists e]).
  assert (p_by_hash p !! e_hash e = Some s') as H2 by (apply wf_by_hash; [done|by exists e']). congruence.
Qed.

Lemma get_spec h e : Pool.get p h = Some e ↔ held p e ∧ e_hash e = h.
Proof.
  unfold Pool.get. rewrite bind_Some. split.
  - intros (s & Hs & He). split; [by exists s|]. apply wf_by_hash in Hs as (e' & He' & <-); [|done]. congruence.
  - intros [[s Hs] Hh]. exists s. split; [|done]. apply wf_by_hash; [done|by exists e].
Qed.

Lemma contains_spec h : Pool.contains p h = true ↔ ∃ e, held p e ∧ e_hash e = h.
Proof.
  unfold Pool.contains. rewrite bool_decide_eq_true. split.
  - intros [s Hs]. apply wf_by_hash in Hs as (e & He & Hh); [|done]. exists e. split; [by exists s|done].
  - intros (e & [s Hs] & Hh). exists s. apply wf_by_hash; [done|by exists e].
Qed.

(** A key image has one holder. *)
Lemma images_disjoint e e' i : held p e → held p e' → i ∈ images e → i ∈ images e' → e = e'.
Proof.
  intros He He' Hi Hi'. apply held_hash; [done..|].
  assert (p_key_images p !! i = Some (e_hash e)) as H1 by (apply wf_images; [done|by exists e]).
  assert (p_key_images p !! i = Some (e_hash e')) as H2 by (apply wf_images; [done|by exists e']). congruence.
Qed.

Lemma priority_keys_ok : Forall key_ok (p_priority p).
Proof.
  rewrite (wf_priority p Hwf), Forall_map, Forall_forall. intros [s e] He%elem_of_map_to_list. by apply key_of_ok, (wf_entries p Hwf s).
Qed.

Lemma priority_elem k : k ∈ p_priority p ↔ ∃ e, p_entries p !! seq k = Some e ∧ priority k = TxPriority.of_entry e.
Proof.
  rewrite (wf_priority p Hwf). change (map key_of ?l) with (key_of <$> l). rewrite list_elem_of_fmap. split.
  - intros ([s e] & -> & He%elem_of_map_to_list). by exists e.
  - intros (e & He & Hk). exists (seq k, e). split; [destruct k; cbn in *; by subst|by apply elem_of_map_to_list].
Qed.

Lemma fee_less_bound : 0 ≤ p_fee_less p ≤ p_size_bytes p.
Proof.
  rewrite (wf_fee_less p Hwf), (wf_size p Hwf). split.
  - rewrite <- (msum_zero (p_entries p)). apply msum_le. intros s e _. unfold is_fee_less. destruct (_ =? _); lia.
  - apply msum_le. intros s e He. destruct (wf_entries p Hwf s e He) as [_ Hok]. pose proof (entry_bytes_pos e Hok).
    unfold is_fee_less. destruct (_ =? _); lia.
Qed.

End Wf.

(** * Inserting *)

Lemma fold_images (h : Hash) (X : gset Hash) (m : gmap Hash Hash) i :
  set_fold (λ image m, <[image := h]> m) m X !! i = if bool_decide (i ∈ X) then Some h else m !! i.
Proof.
  pose (P (m' : gmap Hash Hash) (X' : gset Hash) := m' !! i = if bool_decide (i ∈ X') then Some h else m !! i).
  apply (set_fold_ind_L P); unfold P.
  - by rewrite bool_decide_eq_false_2 by apply not_elem_of_empty.
  - intros x X' m' Hx IH. destruct (decide (i = x)) as [->|Hne].
    + rewrite lookup_insert_eq, bool_decide_eq_true_2; [done|]. by apply elem_of_union_l, elem_of_singleton.
    + rewrite lookup_insert_ne, IH by congruence. by rewrite (bool_decide_ext (i ∈ X') (i ∈ {[x]} ∪ X')) by (rewrite elem_of_union, elem_of_singleton; tauto).
Qed.

Lemma total_bound p : pool_wf p → 0 ≤ p_size_bytes p.
Proof. intros Hwf. pose proof (fee_less_bound p Hwf). lia. Qed.

Section Insert.
Context (p : TransactionPool) (e : PoolEntry) (Hwf : pool_wf p).
Abbreviation p' := (Pool.insert p e (list_to_set (images e))).

Lemma fresh_seq : p_entries p !! p_next_seq p = None.
Proof. destruct (p_entries p !! p_next_seq p) eqn:E; [|done]. apply wf_entries in E as [? _]; [lia|done]. Qed.

Lemma held_insert e' : held p' e' ↔ e' = e ∨ held p e'.
Proof.
  unfold held. cbn [Pool.insert p_entries]. split.
  - intros [s [[_ ->]|[_ ?]]%lookup_insert_Some]; [by left|right; eauto].
  - intros [->|[s Hs]]; [exists (p_next_seq p); apply lookup_insert_eq|]. exists s. rewrite lookup_insert_ne; [done|].
    intros <-. by rewrite fresh_seq in Hs.
Qed.

Context (He : entry_ok e)
  (Hnew : Pool.contains p (e_hash e) = false) (Hfree : ∀ i, i ∈ images e → p_key_images p !! i = None)
  (Hseq : p_next_seq p < u64_max) (Hroom : p_size_bytes p + entry_bytes e < 2 ^ 64).

Lemma next_seq_insert : p_next_seq p' = p_next_seq p + 1.
Proof. pose proof (wf_next p Hwf) as Hn. unfold in_u in Hn. apply wrap_small. unfold in_u, u64_max in *. lia. Qed.

Lemma not_held_hash e' : held p e' → e_hash e' ≠ e_hash e.
Proof. intros Hh Heq. apply not_true_iff_false in Hnew. apply Hnew, contains_spec; [done|]. by exists e'. Qed.

Lemma insert_by_payment_id pid :
  Pool.hashes_by_payment_id p' pid = Pool.hashes_by_payment_id p pid ++ (if decide (e_payment_id e = Some pid) then [e_hash e] else []).
Proof.
  unfold Pool.hashes_by_payment_id. cbn [Pool.insert p_by_payment_id]. destruct (e_payment_id e) as [q|]; [|by rewrite app_nil_r].
  destruct (decide (Some q = Some pid)) as [[= ->]|Hne]; [by rewrite lookup_insert_eq|].
  rewrite lookup_insert_ne, app_nil_r by congruence. done.
Qed.

Lemma insert_wf : pool_wf p'.
Proof.
  pose proof (fee_less_bound p Hwf) as Hfl. pose proof (entry_bytes_pos e He) as Hpos. pose proof (wf_next p Hwf) as [Hn1 Hn2]. split.
  - intros s e'. rewrite next_seq_insert. cbn [Pool.insert p_entries]. intros [[<- ->]|[_ Hs]]%lookup_insert_Some; [split; [lia|done]|].
    apply (wf_entries p Hwf) in Hs as [? ?]. split; [lia|done].
  - rewrite next_seq_insert. unfold in_u, u64_max in *. lia.
  - intros h s. cbn [Pool.insert p_by_hash p_entries]. rewrite lookup_insert_Some, (wf_by_hash p Hwf). split.
    + intros [[<- <-]|[Hne (e' & Hs & <-)]]; [exists e; by rewrite lookup_insert_eq|]. exists e'. split; [|done]. rewrite lookup_insert_ne; [done|].
      intros <-. by rewrite fresh_seq in Hs.
    + intros (e' & [[<- ->]|[Hne Hs]]%lookup_insert_Some & <-); [by left|]. right. split; [|by exists e']. apply not_eq_sym, not_held_hash. by exists s.
  - cbn [Pool.insert p_priority]. apply insert_ordered; [by apply (key_of_ok (p_next_seq p))|by apply priority_keys_ok|by apply wf_ordered].
  - cbn [Pool.insert p_priority p_entries]. rewrite insert_permutation.
    + rewrite map_to_list_insert by apply fresh_seq. cbn [map]. by rewrite (wf_priority p Hwf).
    + apply Forall_forall. intros k (e' & Hk & _)%priority_elem; [|done]. cbn [seq]. intros Heq. by rewrite Heq, fresh_seq in Hk.
  - intros i h. cbn [Pool.insert p_key_images]. rewrite fold_images. setoid_rewrite held_insert. destruct (bool_decide _) eqn:Hi; bool_hyps; rewrite elem_of_list_to_set in Hi.
    + split; [intros [= <-]; exists e; auto|]. intros (e' & [->|Hh] & <- & Hi'); [done|].
      assert (p_key_images p !! i = Some (e_hash e')) as H1 by (apply wf_images; [done|by exists e']). by rewrite Hfree in H1.
    + rewrite (wf_images p Hwf). split; [intros (e' & ? & ? & ?); exists e'; auto|]. intros (e' & [->|Hh] & <- & Hi'); [done|by exists e'].
  - intros pid h. rewrite insert_by_payment_id, elem_of_app, (wf_payment_id p Hwf). setoid_rewrite held_insert. split.
    + intros [(e' & ? & ? & ?)|Hin]; [exists e'; auto|]. destruct (decide _) as [Hp|]; [|by apply elem_of_nil in Hin]. apply list_elem_of_singleton in Hin as ->. exists e. auto.
    + intros (e' & [->|Hh] & <- & Hp); [right|left; by exists e']. rewrite decide_True by done. by left.
  - intros pid. rewrite insert_by_payment_id. apply NoDup_app. split_and!; [by apply wf_payment_id_distinct| |destruct (decide _); [apply NoDup_singleton|apply NoDup_nil_2]].
    intros h Hh Hin. apply wf_payment_id in Hh as (e' & Hh & <- & _); [|done]. destruct (decide _); [|by apply elem_of_nil in Hin].
    apply list_elem_of_singleton in Hin. by apply not_held_hash in Hh.
  - intros pid. cbn [Pool.insert p_by_payment_id]. destruct (e_payment_id e) as [q|]; [|by apply wf_payment_id_used].
    rewrite lookup_insert_Some. intros [[_ Hnil]|[_ ?]]; [by apply app_nil in Hnil as [_ ?]|by eapply wf_payment_id_used].
  - cbn [Pool.insert p_size_bytes]. change (Z.of_nat (e_size e)) with (entry_bytes e). unfold wrapping_add. rewrite wrap_small; [lia|]. unfold in_u. lia.
  - cbn [Pool.insert p_size_bytes p_entries]. rewrite msum_insert by apply fresh_seq. rewrite <- (wf_size p Hwf).
    change (Z.of_nat (e_size e)) with (entry_bytes e). unfold wrapping_add. rewrite wrap_small; [lia|]. unfold in_u. lia.
  - cbn [Pool.insert p_fee_less p_entries]. rewrite msum_insert by apply fresh_seq. rewrite <- (wf_fee_less p Hwf). unfold is_fee_less at 1.
    destruct (e_fee e =? 0); [|lia]. unfold wrapping_add. rewrite wrap_small; [lia|]. unfold in_u. lia.
Qed.

End Insert.

(** * Removing *)

Lemma release_lookup h ins m i :
  Pool.release h ins m !! i = if bool_decide (i ∈ key_images ins ∧ m !! i = Some h) then None else m !! i.
Proof.
  revert m. induction ins as [|[b|amount offsets image] ins IH]; intros m; cbn [Pool.release].
  - rewrite bool_decide_eq_false_2; [done|]. by intros [?%elem_of_nil _].
  - rewrite IH. done.
  - rewrite IH. change (key_images (Key amount offsets image :: ins)) with (image :: key_images ins).
    destruct (decide (i = image)) as [->|Hne].
    + rewrite (bool_decide_ext (image ∈ image :: key_images ins ∧ m !! image = Some h) (m !! image = Some h)) by (rewrite elem_of_cons; tauto).
      destruct (bool_decide (m !! image = Some h)) eqn:E; bool_hyps; [by rewrite lookup_delete_eq; destruct (bool_decide _)|].
      rewrite bool_decide_eq_false_2; [done|tauto].
    + assert ((if bool_decide (m !! image = Some h) then base.delete image m else m) !! i = m !! i) as ->
        by (destruct (bool_decide _); [by rewrite lookup_delete_ne|done]).
      by rewrite (bool_decide_ext (i ∈ key_images ins ∧ m !! i = Some h) (i ∈ image :: key_images ins ∧ m !! i = Some h)) by (rewrite elem_of_cons; tauto).
Qed.

Lemma forget_payment_id_spec h pid m q :
  default [] (Pool.forget_payment_id h pid m !! q) = (if decide (pid = Some q) then filter (λ x, x ≠ h) (default [] (m !! q)) else default [] (m !! q)).
Proof.
  unfold Pool.forget_payment_id. destruct pid as [r|]; [|by rewrite decide_False]. destruct (decide (Some r = Some q)) as [[= ->]|Hne].
  - destruct (m !! q) as [l|] eqn:E; [|by rewrite E]. cbn [default from_option id]. cbv zeta. destruct (_ =? _)%nat eqn:El; bool_hyps.
    + rewrite lookup_delete_eq. by apply nil_length_inv in El as ->.
    + by rewrite lookup_insert_eq.
  - assert (r ≠ q) by congruence. destruct (m !! r) as [l|]; [|done]. cbv zeta. destruct (_ =? _)%nat; [by rewrite lookup_delete_ne|by rewrite lookup_insert_ne].
Qed.

Section Remove.
Context (p : TransactionPool) (h : Hash) (Hwf : pool_wf p).
Abbreviation p' := ((Pool.remove p h).2).

(** Removing a hash the pool does not hold changes nothing. *)
Lemma remove_absent : (¬ ∃ e, held p e ∧ e_hash e = h) → Pool.remove p h = (false, p).
Proof.
  intros Hno. unfold Pool.remove. destruct (p_by_hash p !! h) as [s|] eqn:E; [|done]. exfalso. apply Hno.
  apply wf_by_hash in E as (e & He & Hh); [|done]. exists e. split; [by exists s|done].
Qed.

Lemma remove_frame : p_cfg p' = p_cfg p ∧ p_next_seq p' = p_next_seq p ∧ p_rejected p' = p_rejected p ∧
  p_recently_deleted p' = p_recently_deleted p ∧ p_evicted p' = p_evicted p ∧ p_clock p' = p_clock p.
Proof. unfold Pool.remove. destruct (p_by_hash p !! h); [|done]. cbn [set_by_hash p_entries]. by destruct (p_entries p !! _). Qed.

Context (s : Z) (e : PoolEntry) (Hs : p_entries p !! s = Some e) (Hh : e_hash e = h).

Lemma remove_eq : Pool.remove p h = (true,
  {| p_cfg := p_cfg p; p_entries := base.delete s (p_entries p);
     p_priority := PriorityKey.remove (key_of (s, e)) (p_priority p);
     p_by_hash := base.delete h (p_by_hash p);
     p_by_payment_id := Pool.forget_payment_id h (e_payment_id e) (p_by_payment_id p);
     p_key_images := Pool.release h (inputs (prefix (e_transaction e))) (p_key_images p);
     p_size_bytes := saturating_sub (p_size_bytes p) (entry_bytes e);
     p_fee_less := if e_fee e =? 0 then wrapping_sub 64 (p_fee_less p) 1 else p_fee_less p;
     p_next_seq := p_next_seq p; p_evicted := p_evicted p; p_recently_deleted := p_recently_deleted p;
     p_rejected := p_rejected p; p_clock := p_clock p |}).
Proof.
  unfold Pool.remove. assert (p_by_hash p !! h = Some s) as -> by (apply wf_by_hash; [done|by exists e]).
  cbn [set_by_hash p_entries]. by rewrite Hs.
Qed.

Lemma held_delete e' : (∃ t, base.delete s (p_entries p) !! t = Some e') ↔ held p e' ∧ e_hash e' ≠ h.
Proof.
  split.
  - intros [t [Hne Ht]%lookup_delete_Some]. split; [by exists t|]. intros Heq.
    assert (p_by_hash p !! h = Some s) as H1 by (apply wf_by_hash; [done|by exists e]).
    assert (p_by_hash p !! h = Some t) as H2 by (apply wf_by_hash; [done|by exists e']). congruence.
  - intros [[t Ht] Hne]. exists t. apply lookup_delete_Some. split; [|done]. intros <-. congruence.
Qed.

Lemma removed_by_hash h' t : base.delete h (p_by_hash p) !! h' = Some t ↔ ∃ e', base.delete s (p_entries p) !! t = Some e' ∧ e_hash e' = h'.
Proof.
  rewrite lookup_delete_Some, (wf_by_hash p Hwf). split.
  - intros [Hne (e' & Ht & <-)]. exists e'. split; [|done]. apply lookup_delete_Some. split; [|done]. intros <-. congruence.
  - intros (e' & Ht & <-). destruct (proj1 (held_delete e')) as [_ Hne]; [by exists t|]. split; [done|].
    exists e'. by apply lookup_delete_Some in Ht as [_ ?].
Qed.

Lemma removed_images i h' : Pool.release h (inputs (prefix (e_transaction e))) (p_key_images p) !! i = Some h' ↔
  ∃ e', (∃ t, base.delete s (p_entries p) !! t = Some e') ∧ e_hash e' = h' ∧ i ∈ images e'.
Proof.
  assert (held p e) as Hheld by (by exists s). rewrite release_lookup. setoid_rewrite held_delete. fold (images e). destruct (bool_decide _) eqn:E; bool_hyps.
  - destruct E as [Hi Hm]. split; [done|]. intros (e' & [Hh' Hne] & _ & Hi'). by rewrite (images_disjoint p Hwf e' e i) in Hne.
  - rewrite (wf_images p Hwf). split.
    + intros (e' & Hh' & <- & Hi). exists e'. split_and!; [done| |done|done]. intros Heq. apply E.
      rewrite (held_hash p Hwf e' e) in Hi by congruence. split; [done|]. apply wf_images; [done|by exists e].
    + intros (e' & [Hh' Hne] & <- & Hi). by exists e'.
Qed.

Lemma removed_payment_ids pid h' : h' ∈ default [] (Pool.forget_payment_id h (e_payment_id e) (p_by_payment_id p) !! pid) ↔
  ∃ e', (∃ t, base.delete s (p_entries p) !! t = Some e') ∧ e_hash e' = h' ∧ e_payment_id e' = Some pid.
Proof.
  assert (held p e) as Hheld by (by exists s). rewrite forget_payment_id_spec. setoid_rewrite held_delete.
  fold (Pool.hashes_by_payment_id p pid). destruct (decide _) as [Hp|Hp]; [rewrite list_elem_of_filter|]; rewrite (wf_payment_id p Hwf).
  - split; [intros (Hne & e' & ? & <- & ?); by exists e'|]. intros (e' & [? Hne] & <- & ?). split; [done|by exists e'].
  - split; [|intros (e' & [? Hne] & <- & ?); by exists e']. intros (e' & ? & <- & ?). exists e'. split_and!; try done. intros Heq.
    assert (e' = e) as -> by (by apply (held_hash p); [..|congruence]). done.
Qed.

Lemma remove_wf_present : pool_wf p'.
Proof.
  rewrite remove_eq. pose proof (wf_next p Hwf) as Hn. assert (held p e) as Hheld by (by exists s).
  assert (key_of (s, e) ∈ p_priority p) as Hk by (apply priority_elem; [done|by exists e]).
  pose proof (msum_delete entry_bytes _ _ _ Hs) as Hsz. rewrite <- (wf_size p Hwf) in Hsz.
  pose proof (msum_delete is_fee_less _ _ _ Hs) as Hfl. rewrite <- (wf_fee_less p Hwf) in Hfl.
  assert (0 ≤ msum entry_bytes (base.delete s (p_entries p))) as Hsz0.
  { rewrite <- (msum_zero (base.delete s (p_entries p))). apply msum_le. intros. unfold entry_bytes. lia. }
  assert (0 ≤ msum is_fee_less (base.delete s (p_entries p))) as Hfl0.
  { rewrite <- (msum_zero (base.delete s (p_entries p))). apply msum_le. intros. unfold is_fee_less. destruct (_ =? _); lia. }
  split; cbn [snd p_entries p_next_seq p_by_hash p_priority p_key_images p_by_payment_id p_size_bytes p_fee_less].
  - intros t e' [_ Ht]%lookup_delete_Some. by apply wf_entries.
  - done.
  - apply removed_by_hash.
  - apply remove_ordered. by apply wf_ordered.
  - apply (Permutation_cons_inv (a := key_of (s, e))). rewrite remove_permutation; [|by apply priority_keys_ok|by apply wf_ordered|done].
    rewrite (wf_priority p Hwf). change (key_of (s, e) :: map key_of ?l) with (map key_of ((s, e) :: l)). by rewrite map_to_list_delete.
  - apply removed_images.
  - apply removed_payment_ids.
  - intros pid. unfold Pool.hashes_by_payment_id. cbn [p_by_payment_id]. rewrite forget_payment_id_spec. fold (Pool.hashes_by_payment_id p pid).
    destruct (decide _); [apply NoDup_filter|]; by apply wf_payment_id_distinct.
  - intros pid. unfold Pool.forget_payment_id. pose proof (wf_payment_id_used p Hwf pid) as Hused. destruct (e_payment_id e) as [q|]; [|done].
    destruct (p_by_payment_id p !! q) as [l|] eqn:E; [|done]. cbv zeta. destruct (_ =? _)%nat eqn:El; bool_hyps.
    + by intros [_ ?]%lookup_delete_Some.
    + intros [[_ Hnil]|[_ ?]]%lookup_insert_Some; [by rewrite Hnil in El|done].
  - pose proof (wf_size_bound p Hwf). unfold saturating_sub, entry_bytes in *. lia.
  - unfold saturating_sub. rewrite Z.max_l; lia.
  - unfold is_fee_less at 1 in Hfl. destruct (e_fee e =? 0); [|lia]. unfold wrapping_sub. rewrite wrap_small; [lia|].
    pose proof (fee_less_bound p Hwf). pose proof (wf_size_bound p Hwf). unfold in_u. lia.
Qed.

End Remove.

Lemma held_remove p h e : pool_wf p → held (Pool.remove p h).2 e ↔ held p e ∧ e_hash e ≠ h.
Proof.
  intros Hwf. destruct (p_by_hash p !! h) as [s|] eqn:E.
  - apply wf_by_hash in E as (x & Hs & Hh); [|done]. rewrite (remove_eq p h Hwf s x Hs Hh). by apply (held_delete p h Hwf s x).
  - assert (¬ ∃ e, held p e ∧ e_hash e = h) as Hno.
    { intros (x & [s Hs] & Hh). assert (p_by_hash p !! h = Some s) by (apply wf_by_hash; [done|by exists x]). congruence. }
    rewrite remove_absent by done. cbn [snd]. split; [|tauto]. intros He. split; [done|]. intros Hh. apply Hno. by exists e.
Qed.

Lemma remove_wf p h : pool_wf p → pool_wf (Pool.remove p h).2.
Proof.
  intros Hwf. destruct (decide (∃ s, p_by_hash p !! h = Some s)) as [[s E]|Hno].
  - apply wf_by_hash in E as (x & Hs & Hh); [|done]. by apply (remove_wf_present p h Hwf s x).
  - rewrite remove_absent; [done..|]. intros (x & [s Hs] & Hh). apply Hno. exists s. apply wf_by_hash; [done|by exists x].
Qed.

Lemma remove_size p h : pool_wf p → p_size_bytes (Pool.remove p h).2 ≤ p_size_bytes p.
Proof.
  intros Hwf. unfold Pool.remove. destruct (p_by_hash p !! h); [|cbn; lia]. cbn [set_by_hash p_entries]. pose proof (total_bound p Hwf).
  destruct (p_entries p !! _); cbn [snd p_size_bytes set_by_hash]; [|lia]. unfold saturating_sub. lia.
Qed.

(** The fields an operation on the entries leaves alone. *)
Definition same_rest (p p' : TransactionPool) : Prop :=
  p_cfg p' = p_cfg p ∧ p_next_seq p' = p_next_seq p ∧ p_rejected p' = p_rejected p ∧
  p_recently_deleted p' = p_recently_deleted p ∧ p_evicted p' = p_evicted p ∧ p_clock p' = p_clock p.

#[export] Instance same_rest_preorder : PreOrder same_rest.
Proof. split; [by intros p|]. intros p q r (? & ? & ? & ? & ? & ?) (? & ? & ? & ? & ? & ?). unfold same_rest. split_and!; congruence. Qed.

Lemma remove_all_spec hs p : pool_wf p →
  let p' := Pool.remove_all p hs in
  pool_wf p' ∧ same_rest p p' ∧ p_size_bytes p' ≤ p_size_bytes p ∧ ∀ e, held p' e ↔ held p e ∧ e_hash e ∉ hs.
Proof.
  revert p. induction hs as [|h hs IH]; intros p Hwf; cbn zeta.
  - split_and!; [done|done|cbn; lia|]. intros e. cbn. split; [|tauto]. intros He. split; [done|apply not_elem_of_nil].
  - change (Pool.remove_all p (h :: hs)) with (Pool.remove_all (Pool.remove p h).2 hs).
    destruct (IH _ (remove_wf p h Hwf)) as (Hwf' & Hr & Hs & He). pose proof (remove_size p h Hwf).
    split_and!; [done|by transitivity (Pool.remove p h).2; [apply remove_frame|]|lia|].
    intros e. rewrite He, held_remove, not_elem_of_cons by done. tauto.
Qed.

(** * The priority index *)

Lemma omap_ext_in {A B} (f g : A → option B) (l : list A) : (∀ x, x ∈ l → f x = g x) → omap f l = omap g l.
Proof.
  induction l as [|x l IH]; intros Hfg; [done|]. cbn. rewrite (Hfg x) by left. rewrite IH; [done|]. intros y Hy. apply Hfg. by right.
Qed.

Lemma read_keys m (l : list (Z * PoolEntry)) : l ⊆ map_to_list m → omap (λ key, m !! seq key) (map key_of l) = map snd l.
Proof.
  induction l as [|[s e] l IH]; intros Hl; [done|]. assert (m !! s = Some e) as He by (apply elem_of_map_to_list, Hl; left).
  cbn. rewrite He. f_equal. apply IH. intros x Hx. apply Hl. by right.
Qed.

Lemma by_priority_keys p : pool_wf p → ∃ l, l ≡ₚ map_to_list (p_entries p) ∧ map key_of l = p_priority p ∧ map snd l = Pool.by_priority p.
Proof.
  intros Hwf. destruct (Permutation_map_inv key_of _ (wf_priority p Hwf)) as (l & Hl & Hp).
  exists l. split_and!; [done|done|]. unfold Pool.by_priority. rewrite Hl. symmetry. apply read_keys. by rewrite <- Hp.
Qed.

Lemma by_priority_elem p e : pool_wf p → e ∈ Pool.by_priority p ↔ held p e.
Proof.
  intros Hwf. destruct (by_priority_keys p Hwf) as (l & Hp & _ & <-). change (map snd l) with (snd <$> l). rewrite list_elem_of_fmap. split.
  - intros ([s x] & -> & Hin). rewrite Hp in Hin. exists s. by apply elem_of_map_to_list.
  - intros [s Hs]. exists (s, e). split; [done|]. rewrite Hp. by apply elem_of_map_to_list.
Qed.

Lemma by_priority_distinct p : pool_wf p → NoDup (Pool.hashes p).
Proof.
  intros Hwf. unfold Pool.hashes. destruct (by_priority_keys p Hwf) as (l & Hp & _ & <-). rewrite Hp. clear l Hp.
  change (map e_hash (map snd ?l)) with (e_hash <$> (snd <$> l)). rewrite <- list_fmap_compose.
  apply NoDup_fmap_2_strong; [|apply NoDup_map_to_list]. intros [s e] [s' e'] Hs%elem_of_map_to_list Hs'%elem_of_map_to_list Hh. cbn in Hh.
  assert (p_by_hash p !! e_hash e = Some s) as H1 by (apply wf_by_hash; [done|by exists e]).
  assert (p_by_hash p !! e_hash e = Some s') as H2 by (apply wf_by_hash; [done|by exists e']). congruence.
Qed.

(** [std::list] order: by sequence number. *)
Definition entry_order (a b : Z * PoolEntry) : Prop := a.1 ≤ b.1.
#[local] Instance entry_order_dec : RelDecision entry_order.
Proof. intros a b. unfold entry_order. apply _. Defined.
Definition insertion_order (p : TransactionPool) : list PoolEntry := map snd (merge_sort entry_order (map_to_list (p_entries p))).

Lemma insertion_order_sorted p : StronglySorted (λ a b : Z * PoolEntry, a.1 < b.1) (merge_sort entry_order (map_to_list (p_entries p))).
Proof.
  assert (StronglySorted entry_order (merge_sort entry_order (map_to_list (p_entries p)))) as Hs.
  { apply StronglySorted_merge_sort; [intros a b c; unfold entry_order; lia|intros a b; unfold entry_order; lia]. }
  assert (NoDup (fst <$> merge_sort entry_order (map_to_list (p_entries p)))) as Hn by (rewrite merge_sort_Permutation; apply NoDup_fst_map_to_list).
  induction Hs as [|a l Hs IH Ha]; [constructor|]. apply NoDup_cons in Hn as [Hni Hn]. constructor; [auto|].
  rewrite Forall_forall in *. intros b Hb. specialize (Ha b Hb). unfold entry_order in Ha.
  assert (a.1 ≠ b.1); [|lia]. intros Heq. apply Hni. rewrite Heq. apply list_elem_of_fmap. by exists b.
Qed.

(** The priority index the pool keeps up to date holds what sorting the whole pool would
    give: its entries in the order of a stable sort, most preferred first, of the pool in
    insertion order. *)
Theorem by_priority_stable_sort p : pool_wf p → Pool.by_priority p = stable_sort (insertion_order p).
Proof.
  intros Hwf. unfold insertion_order. set (l := merge_sort entry_order (map_to_list (p_entries p))).
  assert (l ≡ₚ map_to_list (p_entries p)) as Hl by apply merge_sort_Permutation.
  destruct (stable_sort_ordered l) as (m & Hm & Ho & <-); [apply insertion_order_sorted| |].
  { rewrite Hl. apply Forall_forall. intros [s e] He%elem_of_map_to_list. by apply key_of_ok, (wf_entries p Hwf s). }
  assert (p_priority p = map key_of m) as Hk.
  { apply ordered_unique; [by apply priority_keys_ok|by apply wf_ordered|done|]. by rewrite (wf_priority p Hwf), Hm, Hl. }
  unfold Pool.by_priority. rewrite Hk. apply read_keys. by rewrite Hm, Hl.
Qed.

Lemma total_permutation l k : l ≡ₚ k → total l = total k.
Proof. induction 1; simpl in *; lia. Qed.

Lemma size_by_priority p : pool_wf p → p_size_bytes p = total (map entry_bytes (Pool.by_priority p)).
Proof.
  intros Hwf. rewrite (wf_size p Hwf). destruct (by_priority_keys p Hwf) as (l & Hp & _ & <-).
  transitivity (total (map entry_bytes (map snd (map_to_list (p_entries p))))).
  - clear l Hp. unfold msum. rewrite map_fold_foldr. induction (map_to_list (p_entries p)) as [|[s e] k IH]; [done|]. cbn [foldr curry uncurry map fst snd]. rewrite IH. reflexivity.
  - apply total_permutation. by rewrite Hp.
Qed.

(** The last entry of the index is at most as good as any other. *)
Lemma last_worst p k e : pool_wf p → last (p_priority p) = Some k → held p e → at_least (TxPriority.of_entry e) (priority k).
Proof.
  intros Hwf Hl [s Hs]. apply last_Some in Hl as [l Hl]. pose proof (priority_keys_ok p Hwf) as Hok. pose proof (wf_ordered p Hwf) as Ho.
  assert (key_of (s, e) ∈ p_priority p) as Hk by (apply priority_elem; [done|by exists e]). rewrite Forall_forall in Hok.
  assert (key_ok k) by (apply Hok; rewrite Hl; apply elem_of_app; right; by left). pose proof (Hok _ Hk) as Hke.
  rewrite Hl in Hk, Ho. apply elem_of_app in Hk as [Hk|Hk].
  - pose proof (ordered_last l k Ho _ Hk) as Hlt. apply key_lt_spec in Hlt; [|done..]. destruct Hlt as [Hp|[? _]]; [by apply preferred_weaken|done].
  - apply list_elem_of_singleton in Hk as <-. apply preferred_irrefl.
Qed.

Lemma least_profitable_iff p e : pool_wf p → entry_ok e →
  Pool.is_least_profitable p e = true ↔
  (∃ x, held p x) ∧ ∀ x, held p x → TxPriority.prefers (TxPriority.of_entry e) (TxPriority.of_entry x) = false.
Proof.
  intros Hwf He. assert (priority_ok (TxPriority.of_entry e)) as Hoke by (by apply (key_of_ok 0)).
  assert (∀ x, held p x → priority_ok (TxPriority.of_entry x)) as Hokx.
  { intros x [s Hs]. exact (key_of_ok s x (proj2 (wf_entries p Hwf s x Hs))). }
  unfold Pool.is_least_profitable. destruct (last (p_priority p)) as [k|] eqn:Hl.
  - assert (k ∈ p_priority p) as Hk by (apply last_Some in Hl as [l ->]; apply elem_of_app; right; by left).
    apply priority_elem in Hk as (w & Hw & Hk); [|done]. assert (held p w) as Hhw by (by exists (seq k)).
    rewrite negb_true_iff, Hk. split.
    + intros Hf. split; [by exists w|]. intros x Hx. apply prefers_false; [done|auto|]. intros Hp. apply prefers_false in Hf; [|done|auto].
      apply Hf. apply (preferred_at_least _ (TxPriority.of_entry x)); auto. rewrite <- Hk. by apply (last_worst p k).
    + intros [_ Hall]. auto.
  - split; [done|]. intros [(x & s & Hs) _]. apply last_None in Hl.
    assert (key_of (s, x) ∈ p_priority p) as Hin by (apply priority_elem; [done|by exists x]). rewrite Hl in Hin. by apply elem_of_nil in Hin.
Qed.

(** Asking the last entry of the index whether a candidate is the least profitable is the
    question the walk over the whole pool asks: whether the pool has an entry and the
    candidate is preferred over none. *)
Theorem least_profitable_scan p e : pool_wf p → entry_ok e →
  Pool.is_least_profitable p e = true ↔
  (∃ x, held p x) ∧ ∀ x, held p x → TxPriority.prefers (TxPriority.of_entry e) (TxPriority.of_entry x) = false.
Proof. apply least_profitable_iff. Qed.

(** * Eviction *)

(** Removing the worst entry leaves the rest of the index as it was. *)
Lemma remove_last p l k e : pool_wf p → p_priority p = l ++ [k] → p_entries p !! seq k = Some e →
  ∃ kept, Pool.by_priority p = kept ++ [e] ∧ Pool.by_priority (Pool.remove p (e_hash e)).2 = kept ∧ p_priority (Pool.remove p (e_hash e)).2 = l.
Proof.
  intros Hwf Hl He. assert (k ∈ p_priority p) as Hk by (rewrite Hl; apply elem_of_app; right; by left).
  assert (k = key_of (seq k, e)) as Hke.
  { apply priority_elem in Hk as (x & Hx & Hp); [|done]. rewrite He in Hx. injection Hx as <-. destruct k as [pr sq]. cbn [seq priority] in *. by subst pr. }
  assert (p_priority (Pool.remove p (e_hash e)).2 = l) as Hrm.
  { rewrite (remove_eq p _ Hwf (seq k) e He eq_refl). cbn [snd p_priority]. rewrite <- Hke.
    pose proof (priority_keys_ok p Hwf) as Hok. pose proof (wf_ordered p Hwf) as Ho.
    pose proof (remove_permutation k _ Hok Ho Hk) as Hp. rewrite Hl in Hp at 2. rewrite <- Permutation_cons_append in Hp. apply Permutation_cons_inv in Hp.
    symmetry. apply ordered_unique; [rewrite Hl in Hok; by apply Forall_app in Hok as [? _]| |by apply remove_ordered|by rewrite Hp].
    rewrite Hl in Ho. clear -Ho. induction l as [|x l IH]; [constructor|]. cbn in Ho. apply StronglySorted_inv in Ho as [Ho Hx].
    constructor; [auto|]. by apply Forall_app in Hx as [? _]. }
  exists (Pool.by_priority (Pool.remove p (e_hash e)).2). split_and!; [|done|done]. unfold Pool.by_priority at 1. rewrite Hl, omap_app. cbn. rewrite He.
  f_equal. unfold Pool.by_priority. rewrite Hrm. rewrite (remove_eq p _ Hwf (seq k) e He eq_refl). cbn [snd p_entries].
  apply omap_ext_in. intros x Hx. rewrite lookup_delete_ne; [done|]. intros Heq.
  assert (x ∈ p_priority p) as Hxp by (rewrite Hl; apply elem_of_app; by left). apply priority_elem in Hxp as (y & Hy & Hpy); [|done].
  assert (x = k) as ->.
  { rewrite <- Heq, He in Hy. injection Hy as <-. rewrite Hke, Heq. destruct x as [pr sq]. cbn [seq priority] in *. by subst pr. }
  pose proof (wf_ordered p Hwf) as Ho. rewrite Hl in Ho.
  apply (key_lt_irrefl k); [pose proof (priority_keys_ok p Hwf) as Hok; rewrite Forall_forall in Hok; auto|]. by apply (ordered_last l).
Qed.

Lemma evict_loop_spec fuel target p : pool_wf p → (length (p_priority p) ≤ fuel)%nat → 0 ≤ target →
  let '(evicted, p') := Pool.evict_loop fuel target p in
  pool_wf p' ∧ same_rest p p' ∧ p_size_bytes p' ≤ target ∧ p_size_bytes p' ≤ p_size_bytes p ∧
  ∃ dropped, Pool.by_priority p = Pool.by_priority p' ++ dropped ∧ evicted = reverse (map e_hash dropped) ∧
    ∀ e rest, dropped = e :: rest → target < p_size_bytes p' + entry_bytes e.
Proof.
  intros Hwf Hf Ht. revert p Hwf Hf. induction fuel as [|fuel IH]; intros p Hwf Hf; cbn [Pool.evict_loop].
  - assert (p_size_bytes p = 0) as Hz.
    { rewrite size_by_priority by done. unfold Pool.by_priority. destruct (p_priority p); [done|cbn in Hf; lia]. }
    split_and!; [done|done|lia|lia|]. exists []. by rewrite app_nil_r.
  - destruct (Z.ltb_spec target (p_size_bytes p)) as [Hgt|Hle].
    2:{ split_and!; [done|done|lia|lia|]. exists []. by rewrite app_nil_r. }
    destruct (last (p_priority p)) as [k|] eqn:Hl.
    2:{ apply last_None in Hl. exfalso. rewrite size_by_priority in Hgt by done. unfold Pool.by_priority in Hgt. rewrite Hl in Hgt. cbn in Hgt. lia. }
    apply last_Some in Hl as [l Hl]. destruct (priority_elem p Hwf k) as [(e & He & _) _]; [rewrite Hl; apply elem_of_app; right; by left|].
    rewrite He. destruct (remove_last p l k e Hwf Hl He) as (kept & Hb & Hb' & Hp').
    pose proof (remove_size p (e_hash e) Hwf) as Hsz. pose proof (remove_frame p (e_hash e)) as Hr.
    specialize (IH _ (remove_wf p (e_hash e) Hwf)). rewrite Hp' in IH. rewrite Hl, length_app in Hf. cbn in Hf. specialize (IH ltac:(lia)).
    pose proof (size_by_priority p Hwf) as Hsum. rewrite Hb, map_app, total_app in Hsum. cbn in Hsum.
    pose proof (size_by_priority _ (remove_wf p (e_hash e) Hwf)) as Hsum'. rewrite Hb' in Hsum'.
    destruct (Pool.evict_loop fuel target _) as [evicted p']. destruct IH as (Hwf' & Hr' & Hs1 & Hs2 & dropped & Hd & -> & Hm).
    split_and!; [done|by transitivity (Pool.remove p (e_hash e)).2|done|lia|]. exists (dropped ++ [e]). rewrite Hb, <- Hb', Hd. split_and!.
    + by rewrite app_assoc.
    + rewrite map_app, reverse_app. done.
    + intros x rest. destruct dropped as [|d ds]; cbn; [intros [= <- _]|intros [= <- _]; by eapply Hm].
      rewrite app_nil_r in Hd. assert (p_size_bytes p' = p_size_bytes (Pool.remove p (e_hash e)).2); [|lia].
      rewrite (size_by_priority p' Hwf'), Hsum', <- Hd, Hb'. done.
Qed.

Definition evict_target (cfg : PoolConfig) : Z := max_size_bytes cfg / 100 * evict_to_percent cfg.

Lemma evict_target_exact cfg : config_ok cfg →
  wrapping_mul 64 (max_size_bytes cfg / 100) (evict_to_percent cfg) = evict_target cfg ∧ 0 ≤ evict_target cfg ≤ max_size_bytes cfg.
Proof.
  intros [[? ?] [? ?]]. assert (0 ≤ evict_target cfg ≤ max_size_bytes cfg) as Hb.
  { unfold evict_target. pose proof (Z.div_pos (max_size_bytes cfg) 100). pose proof (Z.mul_div_le (max_size_bytes cfg) 100). nia. }
  split; [|done]. apply wrap_small. unfold in_u. fold (evict_target cfg). lia.
Qed.

Lemma evict_to_fit_spec p : pool_wf p → config_ok (p_cfg p) →
  let '(evicted, p') := Pool.evict_to_fit p in
  pool_wf p' ∧ same_rest p p' ∧ p_size_bytes p' ≤ max_size_bytes (p_cfg p) ∧
  ∃ dropped, Pool.by_priority p = Pool.by_priority p' ++ dropped ∧ evicted = reverse (map e_hash dropped) ∧
    (max_size_bytes (p_cfg p) < p_size_bytes p → p_size_bytes p' ≤ evict_target (p_cfg p)) ∧
    ∀ e rest, dropped = e :: rest → max_size_bytes (p_cfg p) < p_size_bytes p ∧ evict_target (p_cfg p) < p_size_bytes p' + entry_bytes e.
Proof.
  intros Hwf Hcfg. unfold Pool.evict_to_fit. destruct (Z.leb_spec (p_size_bytes p) (max_size_bytes (p_cfg p))) as [Hle|Hgt].
  - split_and!; [done|done|done|]. exists []. rewrite app_nil_r. split_and!; [done|done|lia|done].
  - destruct (evict_target_exact _ Hcfg) as [-> Ht]. cbv zeta.
    pose proof (evict_loop_spec (length (p_priority p)) (evict_target (p_cfg p)) p Hwf ltac:(lia) ltac:(lia)) as Hs.
    destruct (Pool.evict_loop _ _ p) as [evicted p']. destruct Hs as (Hwf' & Hr & H1 & H2 & dropped & Hd & He & Hm).
    split_and!; [done|done|lia|]. exists dropped. split_and!; [done|done|done|]. intros e rest Hdr. split; [lia|by eapply Hm].
Qed.

(** C13. Eviction ends and makes room: a pool over its budget is cut to the most preferred entries,
    in the priority order, that fit [evict_to_percent] of the budget, and no more is shed
    than it takes; a pool within its budget is left as it is. The hashes shed are those of
    the tail of the order, worst first. *)
Theorem eviction_keeps_best p : pool_wf p → config_ok (p_cfg p) →
  let '(evicted, p') := Pool.evict_to_fit p in
  pool_wf p' ∧ p_size_bytes p' ≤ max_size_bytes (p_cfg p) ∧
  ∃ dropped, Pool.by_priority p = Pool.by_priority p' ++ dropped ∧ evicted = reverse (map e_hash dropped) ∧
    (max_size_bytes (p_cfg p) < p_size_bytes p → p_size_bytes p' ≤ evict_target (p_cfg p)) ∧
    ∀ e rest, dropped = e :: rest → max_size_bytes (p_cfg p) < p_size_bytes p ∧ evict_target (p_cfg p) < p_size_bytes p' + entry_bytes e.
Proof.
  intros Hwf Hcfg. pose proof (evict_to_fit_spec p Hwf Hcfg) as Hs. destruct (Pool.evict_to_fit p) as [evicted p']. tauto.
Qed.

(** * Every operation keeps the invariant *)

(** The invariant, with the number of transactions offered so far: the sequence numbers have
    room for as many. *)
Definition pool_inv (n : Z) (p : TransactionPool) : Prop :=
  pool_ok p ∧ p_next_seq p ≤ n ∧ c_next_seq (p_rejected p) ≤ n.

Lemma held_image_None m ins : Pool.held_image m ins = None ↔ ∀ i, i ∈ key_images ins → m !! i = None.
Proof.
  induction ins as [|[b|amount offsets image] ins IH]; cbn [Pool.held_image].
  - split; [by intros _ i ?%elem_of_nil|done].
  - exact IH.
  - change (key_images (Key amount offsets image :: ins)) with (image :: key_images ins). destruct (m !! image) eqn:E.
    + split; [done|]. intros Hall. rewrite Hall in E by left. done.
    + rewrite IH. split; [|intros Hall i Hi; apply Hall; by right]. intros Hall i [->|Hi]%elem_of_cons; auto.
Qed.

(** An operation that only touches the cache, the deleted hashes, the evicted ones or the clock. *)
Lemma same_indexes_wf p p' : pool_wf p → p_entries p' = p_entries p → p_priority p' = p_priority p → p_by_hash p' = p_by_hash p →
  p_by_payment_id p' = p_by_payment_id p → p_key_images p' = p_key_images p → p_size_bytes p' = p_size_bytes p →
  p_fee_less p' = p_fee_less p → p_next_seq p' = p_next_seq p → pool_wf p'.
Proof.
  destruct p, p'. cbn. intros Hwf -> -> -> -> -> -> -> ->. destruct Hwf. split; assumption.
Qed.

Lemma set_rejected_inv n p c : pool_inv n p → cache_ok (rejection_cache_capacity (p_cfg p)) c → c_next_seq c ≤ n → pool_inv n (set_rejected p c).
Proof. intros ([Hwf Hcfg Hb Hc] & Hn & _) Hc' Hcn. split; [|done]. split; [by apply (same_indexes_wf p)|done..]. Qed.

Lemma set_evicted_inv n p l : pool_inv n p → pool_inv n (set_evicted p l).
Proof. intros ([Hwf Hcfg Hb Hc] & Hn & Hcn). split; [|done]. split; [by apply (same_indexes_wf p)|done..]. Qed.

Lemma set_recently_deleted_inv n p m : pool_inv n p → pool_inv n (set_recently_deleted p m).
Proof. intros ([Hwf Hcfg Hb Hc] & Hn & Hcn). split; [|done]. split; [by apply (same_indexes_wf p)|done..]. Qed.

Lemma set_clock_inv n p now : pool_inv n p → pool_inv n (Pool.set_clock p now).
Proof. intros ([Hwf Hcfg Hb Hc] & Hn & Hcn). split; [|done]. split; [by apply (same_indexes_wf p)|done..]. Qed.

Lemma pool_inv_mono n m p : n ≤ m → pool_inv n p → pool_inv m p.
Proof. intros ? (Hok & ? & ?). split; [done|]. lia. Qed.

(** An operation that only sheds entries. *)
Lemma shed_inv n p p' : pool_inv n p → pool_wf p' → same_rest p p' → p_size_bytes p' ≤ p_size_bytes p → pool_inv n p'.
Proof.
  intros ([Hwf Hcfg Hb Hc] & Hn & Hcn) Hwf' (E1 & E2 & E3 & _) Hs. split; [|by rewrite E2, E3]. split; [done|by rewrite E1|rewrite E1; lia|by rewrite E1, E3].
Qed.

Lemma remove_inv n p h : pool_inv n p → pool_inv n (Pool.remove p h).2.
Proof. intros Hp. pose proof (ok_wf p (proj1 Hp)). apply (shed_inv n p); [done|by apply remove_wf|apply remove_frame|by apply remove_size]. Qed.

Lemma remove_all_inv n p hs : pool_inv n p → pool_inv n (Pool.remove_all p hs).
Proof. intros Hp. destruct (remove_all_spec hs p (ok_wf p (proj1 Hp))) as (? & ? & ? & _). by apply (shed_inv n p). Qed.

Lemma fee_loop_bound o i ins : is_u64 (Pool.fee_loop o i ins).
Proof.
  revert i. induction ins as [|[b|amount offsets image] ins IH]; intros i; cbn [fee_loop]; [by apply wrap_bound|done|apply IH].
Qed.

Lemma candidate_ok tx blob h now source : blob_ok blob → entry_ok (Pool.candidate tx blob h now source).
Proof. intros Hb. split; [exact Hb|]. apply fee_loop_bound. Qed.

Lemma from_bytes_blob_ok blob tx : Transaction.from_bytes blob = Ok tx → Z.of_nat (length blob) < 2 ^ 63 → blob_ok blob.
Proof. intros Ht Hl. split; [|done]. intros ->. vm_compute in Ht. done. Qed.

Section Admission.
Context `{C : Crypto} `{PC : PoolChain F} `{!ChainAccessLaws (pool_chain_access (F := F))} `{SystemClock}.

Lemma remember_inv n p h len r ctx now : pool_inv n p → n < u64_max → pool_inv (n + 1) (Pool.remember_rejection p h len r ctx now).
Proof.
  intros Hp Hn. assert (pool_inv (n + 1) p) as Hp1 by (apply (pool_inv_mono n); [lia|done]).
  assert (∀ scope, pool_inv (n + 1) (set_rejected p (RejectionCache.insert (p_rejected p) h len r scope now (rejection_cache_capacity (p_cfg p))))) as Hi.
  { intros scope. destruct Hp as (Hok & _ & Hc). destruct (decide (rejection_cache_capacity (p_cfg p) = 0%nat)) as [E|E].
    - unfold RejectionCache.insert. rewrite E. cbn [Nat.eqb]. apply set_rejected_inv; [done|by apply ok_cache|lia].
    - destruct (insert_spec _ _ (ok_cache p Hok) h len r scope now) as [Hc' _]; [lia|lia|]. apply set_rejected_inv; [done|done|].
      unfold RejectionCache.insert. rewrite (proj2 (Nat.eqb_neq _ _) E). destruct (RejectionCache.shed _ _ _). cbn [c_next_seq].
      pose proof (cache_next _ _ (ok_cache p Hok)) as [? ?]. unfold wrapping_add, u64_max in *. rewrite wrap_small; [lia|]. unfold in_u. lia. }
  unfold Pool.remember_rejection. cbv zeta. destruct (RejectionCategory_of_rule r); auto.
Qed.

Lemma insert_candidate_wf n p e fusion : pool_inv n p → n < u64_max → entry_ok e → Pool.contains p (e_hash e) = false →
  Pool.held_image (p_key_images p) (inputs (prefix (e_transaction e))) = None →
  pool_wf (Pool.insert p (Pool.with_fusion e fusion) (list_to_set (images e))).
Proof.
  intros ([Hwf [[? ?] ?] Hb Hc] & Hpn & Hcn) Hn He Hnew Hfree. pose proof (entry_bytes_pos e He).
  apply (insert_wf p (Pool.with_fusion e fusion)); [done|done|done|intros i Hi; by apply (held_image_None _ (inputs (prefix (e_transaction e))))|lia|].
  change (entry_bytes (Pool.with_fusion e fusion)) with (entry_bytes e). lia.
Qed.

Lemma insert_evict_inv n p e fusion : pool_inv n p → n < u64_max → entry_ok e → Pool.contains p (e_hash e) = false →
  Pool.held_image (p_key_images p) (inputs (prefix (e_transaction e))) = None →
  let q := Pool.insert p (Pool.with_fusion e fusion) (list_to_set (images e)) in
  pool_inv (n + 1) (set_evicted (Pool.evict_to_fit q).2 (p_evicted (Pool.evict_to_fit q).2 ++ (Pool.evict_to_fit q).1)).
Proof.
  intros Hp Hn He Hnew Hfree q. assert (pool_wf q) as Hq by by apply (insert_candidate_wf n).
  destruct Hp as ([Hwf Hcfg Hb Hc] & Hpn & Hcn).
  assert (p_next_seq q = p_next_seq p + 1) as Hnq by (apply (next_seq_insert p (Pool.with_fusion e fusion) Hwf); lia).
  apply set_evicted_inv. pose proof (evict_to_fit_spec q Hq) as Hs. destruct (Pool.evict_to_fit q) as [evicted p'].
  destruct Hs as (Hwf' & (E1 & E2 & E3 & _) & Hb' & _); [done|]. cbn [snd]. change (p_cfg q) with (p_cfg p) in *. change (p_rejected q) with (p_rejected p) in *.
  split; [|rewrite E2, E3; lia]. split; [done|by rewrite E1|by rewrite E1|by rewrite E1, E3].
Qed.

Lemma validate_and_insert_inv n p e now : pool_inv n p → n < u64_max → entry_ok e → Pool.contains p (e_hash e) = false →
  Pool.held_image (p_key_images p) (inputs (prefix (e_transaction e))) = None →
  pool_inv (n + 1) (Pool.validate_and_insert p e now).2.
Proof.
  intros Hp Hn He Hnew Hfree. unfold Pool.validate_and_insert. cbv zeta.
  destruct (validate_transaction_early_exit _ _ _ _) as [[v|[r|x]] w] eqn:Ev; cbn [snd].
  - apply early_exit_iff in Ev as [_ ->]. cbn [spent_key_images]. rewrite (right_id_L ∅ (∪)). fold (images e).
    pose proof (insert_evict_inv n p e (v_is_fusion v) Hp Hn He Hnew Hfree) as Hi. cbv zeta in Hi. by destruct (Pool.evict_to_fit _).
  - by apply remember_inv.
  - apply (pool_inv_mono n); [lia|done].
Qed.

Lemma lookup_inv n p h len : pool_inv n p →
  pool_inv n (set_rejected p (RejectionCache.lookup (p_rejected p) h len (Pool.now p) (rejection_cache_ttl (p_cfg p)) ContextKey_of).2).
Proof.
  intros Hp. apply set_rejected_inv; [done|apply lookup_ok, Hp|].
  replace (c_next_seq (RejectionCache.lookup _ _ _ _ _ _).2) with (c_next_seq (p_rejected p)); [apply Hp|].
  unfold RejectionCache.lookup. destruct (c_entries _ !! h); [|done]. destruct (negb _); [done|]. cbv zeta. by destruct (_ && _).
Qed.

Lemma add_parsed_inv n p tx blob h source : pool_inv n p → n < u64_max → blob_ok blob → pool_inv (n + 1) (Pool.add_parsed p tx blob h source).2.
Proof.
  intros Hp Hn Hb. assert (∀ q, pool_inv n q → pool_inv (n + 1) q) as Hmono by (intros q; apply pool_inv_mono; lia).
  unfold Pool.add_parsed. destruct (Pool.contains p h) eqn:Hnew; [auto|]. cbv zeta.
  pose proof (lookup_inv n p h (length blob) Hp) as Hp'. destruct (RejectionCache.lookup _ _ _ _ _ _) as [cached c]. cbn [snd] in Hp'.
  destruct cached as [r|]; [auto|]. destruct (match transaction_in_chain h with Ok b => b | Err _ => false end); [auto|].
  destruct (bool_decide _); [auto|]. destruct (_ && _); [auto|]. destruct (Pool.held_image _ _) as [[image holder]|] eqn:Hfree; [auto|].
  destruct (_ && _); [auto|]. apply validate_and_insert_inv; [done|done|by apply candidate_ok|exact Hnew|exact Hfree].
Qed.

Lemma add_inv n p blob source : pool_inv n p → n < u64_max → Z.of_nat (length blob) < 2 ^ 63 → pool_inv (n + 1) (Pool.add p blob source).2.
Proof.
  intros Hp Hn Hl. assert (pool_inv (n + 1) p) by (apply (pool_inv_mono n); [lia|done]). unfold Pool.add.
  destruct (Transaction.from_bytes blob) as [tx|] eqn:Ht; [|done]. destruct (Transaction.hash tx); [|done].
  apply add_parsed_inv; [done|done|by eapply from_bytes_blob_ok].
Qed.

Lemma copy_loop_inv n blobs p : pool_inv n p → n + Z.of_nat (length blobs) ≤ u64_max → Forall (λ b, Z.of_nat (length b) < 2 ^ 63) blobs →
  pool_inv (n + Z.of_nat (length blobs)) (Pool.copy_loop blobs p).2.
Proof.
  revert n p. induction blobs as [|blob blobs IH]; intros n p Hp Hn Hl; cbn [Pool.copy_loop length]; [apply (pool_inv_mono n); [lia|done]|].
  apply Forall_cons in Hl as [Hb Hl]. cbn [length] in Hn. replace (n + Z.of_nat (S (length blobs))) with (n + 1 + Z.of_nat (length blobs)) by lia.
  assert (pool_inv (n + 1) p) as Hp1 by (apply (pool_inv_mono n); [lia|done]).
  destruct (Transaction.from_bytes blob) as [tx|] eqn:Ht; [|apply IH; [done|lia|done]]. destruct (Transaction.hash tx) as [h|]; [|apply IH; [done|lia|done]].
  cbv zeta. pose proof (add_parsed_inv n (Pool.forget_deleted p h).2 tx blob h AlternativeBlock) as Ha.
  destruct (Pool.add_parsed _ _ _ _ _) as [status q]. cbn [snd] in Ha. specialize (IH (n + 1) q). destruct (Pool.copy_loop blobs q). cbn [snd] in *.
  apply IH; [|lia|done]. apply Ha; [by apply set_recently_deleted_inv|lia|by eapply from_bytes_blob_ok].
Qed.

Lemma forget_ring_dependent_inv n p : pool_inv n p → pool_inv n (set_rejected p (RejectionCache.forget_ring_dependent (p_rejected p))).
Proof. intros Hp. apply set_rejected_inv; [done|apply forget_ring_dependent_ok, Hp|apply Hp]. Qed.

Lemma clean_loop_inv n height now hs p : pool_inv n p → pool_inv n (Pool.clean_loop height now hs p).2.
Proof.
  revert p. induction hs as [|h hs IH]; intros p Hp; cbn [Pool.clean_loop]; [done|]. destruct (Pool.get p h) as [e|]; [|auto].
  destruct (_ || _); [|auto]. specialize (IH (Pool.remove (set_recently_deleted p (<[h:=now]> (p_recently_deleted p))) h).2).
  destruct (Pool.clean_loop _ _ _ _). apply IH. by apply remove_inv, set_recently_deleted_inv.
Qed.

Lemma clean_inv n p height : pool_inv n p → pool_inv n (Pool.clean p height).2.
Proof.
  intros Hp. unfold Pool.clean. pose proof (clean_loop_inv n height (Pool.now p) (Pool.hashes p) p Hp) as Hq.
  destruct (Pool.clean_loop _ _ _ _) as [deleted q]. cbn [snd] in *. apply (set_recently_deleted_inv n q) with (m := filter (λ x, saturating_sub (Pool.now p) x.2 < tx_livetime (p_cfg q)) (p_recently_deleted q)) in Hq.
  apply set_rejected_inv; [exact Hq|apply expire_ok, Hq|apply Hq].
Qed.

End Admission.

(** * The pool over its lifetime *)

(** What the node does with its pool; the index counts the transactions offered. Each call
    reads a chain and a clock of its own. *)
Inductive pool_step `{C : Crypto} : Z → TransactionPool → TransactionPool → Prop :=
| step_add {F} (PC : PoolChain F) (L : ChainAccessLaws pool_chain_access) (clk : SystemClock) p blob source :
    Z.of_nat (length blob) < 2 ^ 63 → pool_step 1 p (Pool.add p blob source).2
| step_copy {F} (PC : PoolChain F) (L : ChainAccessLaws pool_chain_access) (clk : SystemClock) p blobs :
    Forall (λ b, Z.of_nat (length b) < 2 ^ 63) blobs → pool_step (Z.of_nat (length blobs)) p (Pool.copy_transactions_to_pool p blobs).2
| step_remove p h : pool_step 0 p (Pool.remove p h).2
| step_flush p : pool_step 0 p (Pool.flush p)
| step_clean (clk : SystemClock) p height : pool_step 0 p (Pool.clean p height).2
| step_on_block_added {F} (PC : PoolChain F) p hashes spent : pool_step 0 p (Pool.on_block_added p hashes spent).2
| step_remove_spent {F} (PC : PoolChain F) p : pool_step 0 p (Pool.remove_spent_in_chain p).2
| step_forget_deleted p h : pool_step 0 p (Pool.forget_deleted p h).2
| step_forget_rejection p h : pool_step 0 p (Pool.forget_rejection p h).2
| step_take_evicted p : pool_step 0 p (Pool.take_evicted p).2
| step_set_clock p now : pool_step 0 p (Pool.set_clock p now).

Inductive pool_run `{C : Crypto} (cfg : PoolConfig) : Z → TransactionPool → Prop :=
| run_new : pool_run cfg 0 (Pool.new cfg)
| run_step n k p p' : pool_run cfg n p → pool_step k p p' → pool_run cfg (n + k) p'.

Lemma new_inv cfg : config_ok cfg → pool_inv 0 (Pool.new cfg).
Proof.
  intros Hcfg. split; [|done]. assert (∀ e, ¬ held (Pool.new cfg) e) as Hno by (intros e [s Hs]; cbn [Pool.new p_entries] in Hs; by rewrite lookup_empty in Hs).
  split; [|done|apply Hcfg|apply default_ok]. split; cbn [Pool.new p_entries p_by_hash p_priority p_key_images p_next_seq].
  - intros s e Hs. by rewrite lookup_empty in Hs.
  - done.
  - intros h s. rewrite lookup_empty. split; [done|]. intros (e & Hs & _). by rewrite lookup_empty in Hs.
  - constructor.
  - by rewrite map_to_list_empty.
  - intros i h. rewrite lookup_empty. split; [done|]. intros (e & Hs & _). by apply Hno in Hs.
  - intros pid h. unfold Pool.hashes_by_payment_id. cbn [Pool.new p_by_payment_id]. rewrite lookup_empty. cbn. split; [by intros ?%elem_of_nil|].
    intros (e & Hs & _). by apply Hno in Hs.
  - intros pid. unfold Pool.hashes_by_payment_id. cbn [Pool.new p_by_payment_id]. rewrite lookup_empty. apply NoDup_nil_2.
  - intros pid. cbn [Pool.new p_by_payment_id]. by rewrite lookup_empty.
  - done.
  - by rewrite msum_empty.
  - by rewrite msum_empty.
Qed.

Lemma pool_step_inv `{C : Crypto} n k p p' : pool_step k p p' → pool_inv n p → n + k ≤ u64_max → pool_inv (n + k) p'.
Proof.
  intros Hs Hp Hn. destruct Hs; rewrite ?Z.add_0_r.
  - apply add_inv; [done|lia|done].
  - apply copy_loop_inv; [by apply forget_ring_dependent_inv|done|done].
  - by apply remove_inv.
  - by apply remove_all_inv.
  - by apply clean_inv.
  - by apply remove_all_inv.
  - by apply remove_all_inv, forget_ring_dependent_inv.
  - by apply set_recently_deleted_inv.
  - unfold Pool.forget_rejection. cbn. apply set_rejected_inv; [done|apply forget_ok, Hp|apply Hp].
  - by apply set_evicted_inv.
  - by apply set_clock_inv.
Qed.

Lemma pool_step_count `{C : Crypto} k p p' : pool_step k p p' → 0 ≤ k.
Proof. destruct 1; lia. Qed.

Lemma pool_run_inv `{C : Crypto} cfg n p : config_ok cfg → pool_run cfg n p → n ≤ u64_max → pool_inv n p.
Proof.
  intros Hcfg. induction 1 as [|n k p p' _ IH Hs]; intros Hn; [by apply new_inv|].
  apply (pool_step_inv n k p); [done| |done]. apply IH. apply pool_step_count in Hs. lia.
Qed.

(** C10. Whatever the node does with its pool, the indexes agree: each entry is found by its hash,
    by its payment id, and by each of its key images; no two entries share a hash or a key
    image; the priority index is ordered and holds each entry once; the byte and fee-less
    counters are exact, the bytes within the budget and the memory of rejections within its
    capacity. *)
Theorem pool_invariant `{C : Crypto} cfg n p : config_ok cfg → pool_run cfg n p → n ≤ u64_max → pool_ok p.
Proof. intros Hcfg Hr Hn. by apply (pool_run_inv cfg n p). Qed.

(** * Witnesses *)

(** A pool of 1,000 bytes over the toy chain, at height 10, and its two transactions: each has
    one input of 1,500 and takes 206 bytes; the first pays a fee of 500, the second one of 1,300. *)
Module Toy.

(** Every point is of the prime-order subgroup, so that there is more than one key image. *)
Definition crypto : Crypto := {|
  f1600 := λ st, st; groestl256 := λ _, replicate 32 1; jh256 := λ _, replicate 32 2;
  skein512_256 := λ _, replicate 32 3; argon2id := λ _ _, replicate 32 4;
  wrkz_check_key := λ _, true; wrkz_scalarmult_key := λ _ _, Some IDENTITY;
  wrkz_check_ring_signature := λ _ _ _ _ _, true |}.

Definition clock : SystemClock := {| system_now := 1_000 |}.

Definition pool_chain : PoolChain unit := {|
  pool_chain_access := toy_chain;
  chain_top_index := 10;
  block_info_at _ := Ok None;
  chain_block_median_size := 100_000;
  checkpoint_table := Checkpoints.none;
  fixed_difficulty := fixed_difficulty_default;
  transaction_in_chain := transaction_in_chain_default;
  top_block_hash := Ok (replicate 32 0);
  chain_already_generated_coins := Ok 0 |}.

#[local] Existing Instance crypto.
#[local] Existing Instance clock.
#[local] Existing Instance pool_chain.

Definition spend (image out : Z) : Transaction :=
  mkTransaction (mkPrefix 1 0 [Key 1_500 [3; 2] (replicate 32 image)] [mkOutput out (replicate 32 9)] []) [[replicate 64 1; replicate 64 2]].

Definition blob (t : Transaction) : bytes := match Transaction.to_bytes t with Ok b => b | Err _ => [] end.

Definition config (budget : Z) : PoolConfig := mkPoolConfig budget 90 86_400 86_400 60 8 3_600.

Definition one : TransactionPool := (Pool.add (Pool.new (config 1_000)) (blob (spend 1 1_000)) Network).2.
Definition two : TransactionPool := (Pool.add one (blob (spend 2 200)) Network).2.

(** The same pool under another budget. *)
Definition with_budget (budget : Z) (p : TransactionPool) : TransactionPool :=
  mkPool (config budget) (p_entries p) (p_priority p) (p_by_hash p) (p_by_payment_id p) (p_key_images p) (p_size_bytes p)
    (p_fee_less p) (p_next_seq p) (p_evicted p) (p_recently_deleted p) (p_rejected p) (p_clock p).

Lemma with_budget_wf budget p : pool_wf p → pool_wf (with_budget budget p).
Proof. intros Hwf. by apply (same_indexes_wf p). Qed.

Definition cramped : TransactionPool := with_budget 300 two.

Lemma laws : ChainAccessLaws (pool_chain_access (PoolChain := pool_chain)).
Proof. done. Qed.

Lemma run_two : pool_run (config 1_000) (0 + 1 + 1) two.
Proof.
  apply (run_step _ _ _ one); [apply (run_step _ _ _ (Pool.new (config 1_000))); [apply run_new|]|];
    apply (step_add pool_chain laws clock); vm_compute; reflexivity.
Qed.

Lemma two_ok : pool_ok two.
Proof. apply (pool_run_inv (config 1_000) (0 + 1 + 1)); [done|apply run_two|done]. Qed.

Lemma cramped_wf : pool_wf cramped.
Proof. exact (with_budget_wf 300 two (ok_wf _ two_ok)). Qed.

Lemma cramped_config : config_ok (p_cfg cramped).
Proof. unfold cramped. cbn [with_budget p_cfg]. done. Qed.

End Toy.

Lemma pool_invariant_witness : pool_ok Toy.two.
Proof.
  apply (pool_invariant (C := Toy.crypto) (Toy.config 1_000) (0 + 1 + 1)); [done| |done]. exact Toy.run_two.
Defined.

(** The second transaction pays more for its bytes. *)
Lemma by_priority_stable_sort_witness :
  map e_fee (Pool.by_priority Toy.two) = [1_300; 500] ∧ map e_fee (stable_sort (insertion_order Toy.two)) = [1_300; 500] ∧
  map e_fee (insertion_order Toy.two) = [500; 1_300].
Proof.
  rewrite <- (by_priority_stable_sort Toy.two (ok_wf _ Toy.two_ok)). vm_compute. auto.
Defined.

Lemma least_profitable_scan_witness :
  let e := Pool.candidate (Toy.spend 3 1_100) (Toy.blob (Toy.spend 3 1_100)) [] 0 Network in
  (∃ x, held Toy.two x) ∧ ∀ x, held Toy.two x → TxPriority.prefers (TxPriority.of_entry e) (TxPriority.of_entry x) = false.
Proof.
  cbv zeta. apply (least_profitable_scan Toy.two); [apply ok_wf, Toy.two_ok|apply candidate_ok; split; [vm_compute; discriminate|vm_compute; reflexivity]|].
  vm_compute. reflexivity.
Defined.

Lemma eviction_keeps_best_witness :
  (Pool.evict_to_fit Toy.cramped).1 = map e_hash (drop 1 (Pool.by_priority Toy.two)) ∧
  p_size_bytes (Pool.evict_to_fit Toy.cramped).2 = 206 ∧ pool_wf (Pool.evict_to_fit Toy.cramped).2.
Proof.
  pose proof (eviction_keeps_best Toy.cramped Toy.cramped_wf Toy.cramped_config) as Hw.
  destruct (Pool.evict_to_fit Toy.cramped) as [evicted p'] eqn:E. destruct Hw as (Hwf & _). split; [|split; [|exact Hwf]].
  - change evicted with (evicted, p').1. rewrite <- E. vm_compute. reflexivity.
  - change p' with (evicted, p').2. rewrite <- E. vm_compute. reflexivity.
Defined.
