(* ===== verification/PoolAdmission.v ===== *)
(** Admission to the transaction pool (crates/wrkz-mempool/src/pool.rs): a remembered rejection is
    never wrong, the cheap refusals that run before the validator refuse what running them
    after it would, and a valid transaction the pool has room for is taken in. *)
From stdpp Require Import gmap sets.
From S2P Require Import Prelude Constants Hashing Cryptonight Ser Tx TxExtra Fees Reward Checkpoints Records Validate Accept ChainState.
From S2P Require Import PoolPriority RejectionCache Pool PoolInv.
Local Open Scope Z_scope.

(** * Why a validation failed *)

Section Errors.

Lemma bind_Err {E A B} (m : TxM E A) (f : A → TxM E B) w e w2 : (m ≫= f) w = (Err e, w2) →
  (∃ w1, m w = (Err e, w1)) ∨ ∃ a w1, m w = (Ok a, w1) ∧ f a w1 = (Err e, w2).
Proof.
  unfold mbind, TxM_bind. destruct (m w) as [[a|e'] w1] eqn:E1.
  - intros H. right. by exists a, w1.
  - intros [= -> ->]. left. by exists w2.
Qed.

Lemma rule_Err {F A} (m : TxM TxRule A) w (e : TxError F) w2 : rule m w = (Err e, w2) → ∃ r, e = Rule r ∧ m w = (Err r, w2).
Proof. unfold rule. destruct (m w) as [[x|r] w1]; cbn; [done|]. intros [= <- <-]. by exists r. Qed.

Lemma ensure_Err {E} ok (x e : E) w w2 : ensure ok x w = (Err e, w2) → ok = false ∧ e = x.
Proof. unfold ensure. destruct ok; [done|]. by intros [= <- _]. Qed.

Lemma lift_Err {E A} (r : result E A) w e w2 : lift r w = (Err e, w2) → r = Err e.
Proof. unfold lift. by intros [= -> _]. Qed.

End Errors.

Section Sound.
Context `{C : Crypto}.
#[local] Opaque check_hash cn_upx_hash cn_fast_hash.

(** An output rule other than the cap of an amount fails at every height. *)
Lemma outputs_loop_Err h k sum outs st r w : outputs_loop h 0 k sum outs (mkWorld st None) = (Err r, w) →
  (∃ amount, r = OutputAmountTooLarge amount) ∨
  RejectionCategory_of_rule r = Invalid ∧ ∀ h' s, Forall (output_ok h') outs → TransactionPrefix.try_sum sum (map o_amount outs) = Some s → False.
Proof.
  revert k sum. induction outs as [|o outs IH]; intros k sum; cbn [outputs_loop]; [done|].
  intros [[w1 He]|(u1 & w1 & He & Hr)]%bind_Err; [apply ensure_Err in He as [He ->]|apply ensure_Ok in He as [He1 ->]].
  { bool_hyps. right. split; [done|]. intros h' s [(Hz & _) _]%Forall_cons _. lia. }
  apply bind_Err in Hr as [[w1 He]|(u2 & w1 & He & Hr)]; [apply ensure_Err in He as [He ->]; left; by eexists|apply ensure_Ok in He as [He2 ->]].
  apply bind_Err in Hr as [[w1 He]|(u3 & w1 & He & Hr)]; [apply ensure_Err in He as [He ->]|apply defer_inline_Ok in He as [He3 ->]].
  { right. split; [done|]. intros h' s [(_ & _ & Hk) _]%Forall_cons _. congruence. }
  cbn [map TransactionPrefix.try_sum]. apply bind_Err in Hr as [[w1 He]|(s1 & w1 & He & Hr)].
  - apply lift_Err in He. destruct (checked_add 64 sum (o_amount o)); [done|]. cbn in He. injection He as <-. right. by split.
  - apply lift_Ok in He as [He ->]. apply ok_or_Ok in He as ->. apply IH in Hr as [?|[Hc Hr]]; [by left|right]. split; [done|].
    intros h' s [_ Ho]%Forall_cons Hs. by eapply Hr.
Qed.

(** What the expensive loop stops at. *)
Lemma verify_loop_Err `{A : ChainAccess F} tx ph ctx k ins w e w2 : verify_loop tx ph ctx k ins w = (Err e, w2) →
  ∃ j i, ins !! j = Some i ∧
  (gather_ring tx i (k + j) ctx = Err e ∨
   ∃ image ring sigs, gather_ring tx i (k + j) ctx = Ok (image, ring, sigs) ∧ check_ring_signature ph image ring sigs = false ∧ e = Rule (InputInvalidSignatures (k + j))).
Proof.
  revert k. induction ins as [|i ins IH]; intros k; cbn [verify_loop]; [done|].
  intros [[w1 He]|([[image ring] sigs] & w1 & He & Hr)]%bind_Err; [apply lift_Err in He|apply lift_Ok in He as [He ->]].
  { exists 0%nat, i. rewrite Nat.add_0_r. auto. }
  apply bind_Err in Hr as [[w1 Hs]|(u & w1 & Hs & Hr)]; [apply ensure_Err in Hs as [Hs ->]|apply ensure_Ok in Hs as [_ ->]].
  - exists 0%nat, i. rewrite Nat.add_0_r. split; [done|]. right. by exists image, ring, sigs.
  - apply IH in Hr as (j & i' & Hj & Hr). exists (S j), i'. by rewrite <- plus_n_Sm.
Qed.

Lemma ring_loop_Err `{A : ChainAccess F} ctx amount found r : ring_loop ctx amount found = Err (Rule r) → RejectionCategory_of_rule r = ChainStateDependent.
Proof.
  induction found as [|[g [rec|]] found IH]; cbn [ring_loop ok_or mbind result_bind]; [done| |by intros [= <-]].
  destruct (negb _); [by intros [= <-]|]. intros [Hr|(ring & _ & ?)]%result_bind_Err; [auto|done].
Qed.

(** Gathering a ring fails for what the chain holds, for an input that is not a key input, or
    for a number of signatures other than the number of offsets. *)
Lemma gather_ring_Err `{A : ChainAccess F} `{!ChainAccessLaws A} tx i k ctx r : is_pool_transaction ctx = true → gather_ring tx i k ctx = Err (Rule r) →
  RejectionCategory_of_rule r = ChainStateDependent ∨ (∃ b, i = Base b ∧ r = InputUnknownType) ∨
  ∃ amount offsets image absolute, i = Key amount offsets image ∧ relative_offsets_to_absolute offsets = Some absolute ∧
    length absolute ≠ length (default [] (signatures tx !! k)) ∧ r = InputInvalidSignaturesCount (length absolute) (length (default [] (signatures tx !! k))).
Proof.
  intros Hpool. destruct i as [b|amount offsets image]; cbn [gather_ring].
  { intros [= <-]. right. left. by exists b. }
  intros [Hr|(spent & _ & Hr)]%result_bind_Err; [by destruct (key_image_spent _ _)|]. destruct spent; [injection Hr as <-; by left|].
  apply result_bind_Err in Hr as [Hr|(absolute & Ha & Hr)]; [destruct (relative_offsets_to_absolute _); [done|]; injection Hr as <-; by left|].
  apply ok_or_Ok in Ha. apply result_bind_Err in Hr as [Hr|(found & Hf & Hr)]; [by destruct (key_outputs _ _)|]. apply map_err_Ok in Hf.
  apply result_bind_Err in Hr as [Hr|(ring & Hl & Hr)]; [left; by eapply ring_loop_Err|].
  destruct (proj1 (ring_loop_Ok ctx amount absolute ring)) as (recs & HF & ->); [by exists found|].
  cbv zeta in Hr. rewrite Hpool, length_map in Hr. cbn [orb] in Hr. rewrite <- (Forall2_length _ _ _ HF) in Hr. destruct (negb _) eqn:En; [|done]. bool_hyps.
  injection Hr as <-. right. right. by exists amount, offsets, image, absolute.
Qed.

(** * Remembered rejections *)

(** Whether a rejection by [r], judged on the chain [A] in [ctx], stands on the chain [A'] in [ctx']
    for a blob of another length or the same. *)
Definition stands {F F'} (A : ChainAccess F) (A' : ChainAccess F') (ctx ctx' : TxContext) (len len' : nat) (r : TxRule) : Prop :=
  match RejectionCategory_of_rule r with
  | Invalid => match r with InputInvalidSignaturesCount _ _ => in_zone ctx' = false | _ => True end
  | InvalidSignature => in_zone ctx' = false ∧
      ∀ amount g rec rec', key_output (ChainAccess := A) amount g = Ok (Some rec) → key_output (ChainAccess := A') amount g = Ok (Some rec') →
        public_key rec = public_key rec'
  | InvalidAtHeight => block_height ctx' = block_height ctx ∧ block_median_size ctx' = block_median_size ctx ∧
      block_timestamp ctx' = block_timestamp ctx ∧ len' = len
  | _ => False
  end.

Section Stands.
Context {F F'} (A : ChainAccess F) (A' : ChainAccess F') `{!ChainAccessLaws A}.
Context (tx : Transaction) (blob blob' : bytes) (ctx ctx' : TxContext) (v : TxValidation).
Hypotheses (Hpool : is_pool_transaction ctx = true) (Hpool' : is_pool_transaction ctx' = true)
  (Hok : acceptable (A := A') ∅ tx blob' ctx' v).
Abbreviation stands' := (stands A A' ctx ctx' (length blob) (length blob')).

Lemma inputs_stand r w : validate_inputs tx 0 (mkWorld ∅ None) = (Err r, w) → False.
Proof.
  intros He. destruct (ok_balance _ _ _ _ _ Hok) as (si & so & Hsi & _).
  assert (validate_inputs tx 0 (mkWorld ∅ None) = (Ok si, mkWorld (list_to_set (key_images (inputs (prefix tx))) ∪ ∅) None)) as E; [|congruence].
  apply validate_inputs_inline. destruct Hok. by split_and!.
Qed.

Lemma outputs_stand r st w : validate_outputs tx (block_height ctx) 0 (mkWorld st None) = (Err r, w) → stands' r → False.
Proof.
  intros He Hs. destruct (ok_balance _ _ _ _ _ Hok) as (si & so & _ & Hso & _). unfold validate_outputs in He. pose proof (ok_outputs _ _ _ _ _ Hok) as Ho.
  pose proof He as He'. apply outputs_loop_Err in He' as [[amount ->]|[_ Hr]]; [|by eapply Hr].
  destruct Hs as (Hh & _). rewrite Hh in Ho.
  assert (outputs_loop (block_height ctx) 0 0 0 (outputs (prefix tx)) (mkWorld st None) = (Ok so, mkWorld st None)) as E; [by apply outputs_loop_inline|congruence].
Qed.

Lemma fee_stands r si so : TransactionPrefix.sum_inputs (prefix tx) = Some si → TransactionPrefix.sum_outputs (prefix tx) = Some so →
  validate_fee tx blob si so (block_height ctx) = Err r → stands' r → False.
Proof.
  intros Hsi Hso He Hs. destruct (ok_balance _ _ _ _ _ Hok) as (si' & so' & Hsi' & Hso' & Hb). assert (si' = si) as -> by congruence. assert (so' = so) as -> by congruence.
  pose proof (ok_fee _ _ _ _ _ Hok) as Hf. unfold validate_fee in He. repeat case_bool; bool_hyps; try lia; try done; injection He as <-;
    destruct Hs as (Hh & _ & _ & Hl); rewrite Hh in Hf; unfold fee_ok in Hf; rewrite Hl in Hf; destruct Hf as [Hi Hf]; rewrite Hi in Hf;
    destruct Hb as (_ & _ & Hb); rewrite Hb in Hf; repeat case_bool; congruence.
Qed.

Lemma ring_stands k i ph e : ph = cn_fast_hash (TransactionPrefix.to_bytes (prefix tx)) → inputs (prefix tx) !! k = Some i →
  (gather_ring (A := A) tx i k ctx = Err (Rule e) ∨
   ∃ image ring sigs, gather_ring (A := A) tx i k ctx = Ok (image, ring, sigs) ∧ check_ring_signature ph image ring sigs = false ∧ e = InputInvalidSignatures k) →
  stands' e → False.
Proof.
  intros -> Hi [Hg|(image & ring & sigs & Hg & Hv & ->)] Hs.
  - apply gather_ring_Err in Hg as [Hc|[(b & -> & ->)|(amount & offsets & image & absolute & -> & Ha & Hn & ->)]]; [by unfold stands in Hs; rewrite Hc in Hs| | |done].
    + pose proof (ok_inputs _ _ _ _ _ Hok) as Hin. rewrite Forall_lookup in Hin. by apply Hin in Hi.
    + destruct (ok_rings _ _ _ _ _ Hok k _ Hs Hi) as (_ & absolute' & recs & Ha' & HF & _ & Hc & _). rewrite Ha in Ha'. injection Ha' as <-.
      apply Hn. rewrite (Forall2_length _ _ _ HF). auto.
  - destruct Hs as [Hz Hsame]. pose proof (ok_rings _ _ _ _ _ Hok k _ Hz Hi) as Hr. destruct i as [b|amount offsets image']; [done|].
    destruct Hr as (_ & absolute & recs & Ha & HF & Hle & Hc & Hv'). cbn [gather_ring] in Hg.
    apply result_bind_Ok in Hg as (spent & _ & Hg). destruct spent; [done|]. rewrite Ha in Hg. cbn [ok_or mbind result_bind] in Hg.
    apply result_bind_Ok in Hg as (found & Hf & Hg). apply map_err_Ok in Hf. apply result_bind_Ok in Hg as (ring' & Hl & Hg).
    destruct (proj1 (ring_loop_Ok ctx amount absolute ring')) as (recs0 & HF0 & ->); [by exists found|].
    assert (map public_key recs0 = map public_key recs) as Heq.
    { clear -HF HF0 Hsame. revert recs HF. induction HF0 as [|g rec gs rs [Hk _] _ IH]; intros recs HF; [by apply Forall2_nil_inv_l in HF as ->|].
      apply Forall2_cons_inv_l in HF as (rec' & rs' & [Hk' _] & HF & ->). cbn. f_equal; [by eapply Hsame|by apply IH]. }
    cbv zeta in Hg. rewrite Heq, length_map in Hg. match type of Hg with (if ?b then _ else _) = _ => destruct b end; [done|]. injection Hg as <- <- <-. congruence.
Qed.

Lemma unlock_stands r : validate_unlock_time tx (block_height ctx) (block_timestamp ctx) = Err r → stands' r → False.
Proof.
  intros He Hs. pose proof (ok_unlock_time _ _ _ _ _ Hok) as Hx. assert (∃ a b, r = UnlockTimeTooSmall a b) as (a & b & ->).
  { clear -He. unfold validate_unlock_time in He. repeat case_bool; try done; injection He as <-; eauto. }
  destruct Hs as (Hh & _ & Ht & _). rewrite Hh, Ht in Hx. congruence.
Qed.

Lemma mixin_stands r : validate_mixin tx (block_height ctx) = Err r → stands' r → False.
Proof.
  intros He Hs. pose proof (ok_mixin _ _ _ _ _ Hok) as Hx. apply validate_mixin_Ok in Hx. assert (∃ a, r = InvalidMixin a) as (a & ->).
  { clear -He. unfold validate_mixin in He. destruct (validate_ring_sizes _ _); [done|]. injection He as <-. eauto. }
  destruct Hs as (Hh & _). rewrite Hh in Hx. congruence.
Qed.

Lemma pow_stands r si so fee fusion : TransactionPrefix.sum_inputs (prefix tx) = Some si → TransactionPrefix.sum_outputs (prefix tx) = Some so →
  fee = si - so → fee_ok tx blob (block_height ctx) (mkTxValidation fee fusion) → TRANSACTION_POW_HEIGHT ≤ block_height ctx →
  validate_transaction_pow tx (TransactionPrefix.to_bytes (prefix tx)) fee fusion (block_height ctx) = Err r → stands' r → False.
Proof.
  intros Hsi Hso Hb Hf Eh He Hs. assert (r = PowInvalid (pow_difficulty tx fusion (block_height ctx))) as ->.
  { clear -He. unfold validate_transaction_pow in He. cbv zeta in He. destruct (check_hash _ _); [discriminate He|].
    destruct (fee_escape _ _ _); [discriminate He|]. by injection He as <-. }
  destruct Hs as (Hh & _ & _ & Hl). pose proof (ok_pow _ _ _ _ _ Hok) as Hx. rewrite Hh, Hpool' in Hx. specialize (Hx Eh (or_introl eq_refl)).
  destruct (ok_balance _ _ _ _ _ Hok) as (si' & so' & Hsi' & Hso' & _ & _ & Hv). destruct (ok_fee _ _ _ _ _ Hok) as [Hfu _]. rewrite Hh, Hl in Hfu.
  destruct Hf as [Hf _]. cbn [v_is_fusion v_fee] in Hf. rewrite <- Hf in Hfu. rewrite Hsi in Hsi'. rewrite Hso in Hso'. injection Hsi' as <-. injection Hso' as <-.
  rewrite <- Hb in Hv. rewrite Hfu, Hv in Hx. apply validate_transaction_pow_Ok in Hx. congruence.
Qed.

Lemma rejection_stands r w : validate_transaction_early_exit (A := A) tx blob ctx (mkWorld ∅ None) = (Err (Rule r), w) → stands' r → False.
Proof.
  intros He Hs. unfold validate_transaction_early_exit in He. cbv zeta in He. fold (in_zone ctx) in He.
  apply bind_Err in He as [[w1 He]|(u1 & w1 & He1 & He)]; [apply ensure_Err in He as [He [= ->]]|apply ensure_Ok in He1 as [_ ->]].
  { destruct Hs as (_ & Hm & _ & Hl). pose proof (ok_size _ _ _ _ _ Hok) as Hsz. rewrite Hm, Hl in Hsz. bool_hyps. lia. }
  apply bind_Err in He as [[w1 He]|(si & w1 & He2 & He)]; [apply rule_Err in He as (r' & [= ->] & He); by apply inputs_stand in He|apply rule_Ok in He2].
  apply validate_inputs_inline in He2 as (_ & _ & _ & _ & Hsi & ->).
  apply bind_Err in He as [[w1 He]|(so & w1 & He3 & He)]; [apply rule_Err in He as (r' & [= ->] & He); by eapply outputs_stand|apply rule_Ok in He3].
  apply outputs_loop_inline in He3 as (_ & Hso & ->). fold (TransactionPrefix.sum_outputs (prefix tx)) in Hso.
  apply bind_Err in He as [[w1 He]|([fee fusion] & w1 & He4 & He)]; [apply rule_Err in He as (r' & [= ->] & He); apply lift_Err in He; by eapply fee_stands|].
  apply rule_Ok, lift_Ok in He4 as [Hfee ->]. apply (validate_fee_Ok _ _ _ _ _ (mkTxValidation fee fusion)) in Hfee as [Hb Hf].
  apply bind_Err in He as [[w1 He]|(u5 & w1 & He5 & He)]; [apply rule_Err in He as (r' & [= ->] & He); apply lift_Err in He|apply rule_Ok, lift_Ok in He5 as [_ ->]].
  { pose proof (ok_extra _ _ _ _ _ Hok) as Hx. unfold validate_extra in *. rewrite Hpool in He. rewrite Hpool' in Hx. cbn [orb] in *. by destruct (_ && _). }
  apply bind_Err in He as [[w1 He]|(u6 & w1 & He6 & He)]; [apply rule_Err in He as (r' & [= ->] & He); apply lift_Err in He|apply rule_Ok, lift_Ok in He6 as [_ ->]].
  { by eapply unlock_stands. }
  apply bind_Err in He as [[w1 He]|(u7 & w1 & He7 & He)]; [apply rule_Err in He as (r' & [= ->] & He); apply lift_Err in He|apply rule_Ok, lift_Ok in He7 as [_ ->]].
  { pose proof (ok_ratio _ _ _ _ _ Hok) as Hx. unfold validate_input_output_ratio in *. rewrite Hpool in He. rewrite Hpool' in Hx. cbn [orb] in *. by destruct (_ && _). }
  apply bind_Err in He as [[w1 He]|(u8 & w1 & He8 & He)]; [apply rule_Err in He as (r' & [= ->] & He); apply lift_Err in He|apply rule_Ok, lift_Ok in He8 as [_ ->]].
  { by eapply mixin_stands. }
  rewrite Hpool in He. cbn [orb] in He. rewrite andb_true_r in He.
  apply bind_Err in He as [[w1 He]|(u9 & w1 & He9 & He)].
  { destruct (TRANSACTION_POW_HEIGHT <=? block_height ctx) eqn:Eh; [|done]. bool_hyps. apply rule_Err in He as (r' & [= ->] & He). apply lift_Err in He.
    by eapply (pow_stands _ si so fee fusion); [..|apply Hb| | | |]. }
  destruct u9. apply pow_step in He9 as [_ ->]. apply bind_Err in He as [[w1 He]|(u & w1 & _ & He)]; [|done].
  destruct (in_zone ctx); [done|]. apply verify_loop_Err in He as (j & i & Hi & Hr). cbn [Nat.add] in Hr. eapply ring_stands; [done|exact Hi| |exact Hs].
  destruct Hr as [Hr|(image & ring & sigs & ? & ? & [= ->])]; [by left|right; by exists image, ring, sigs].
Qed.

End Stands.

End Sound.

(** * The cache only holds rejections the validator gave *)

Section History.
Context `{C : Crypto}.

(** The judgement behind a remembered rejection of [hash]. *)
Definition judged {F0} (A0 : ChainAccess F0) (ctx0 : TxContext) (tx0 : Transaction) (hash : Hash) (x : Remembered) : Prop :=
  ChainAccessLaws A0 ∧ is_pool_transaction ctx0 = true ∧ Transaction.hash tx0 = Ok hash ∧
  (∃ blob0 w, length blob0 = r_blob_len x ∧ validate_transaction_early_exit (A := A0) tx0 blob0 ctx0 (mkWorld ∅ None) = (Err (Rule (r_rule x)), w)) ∧
  match r_scope x with
  | Always => RejectionCategory_of_rule (r_rule x) = Invalid
  | UntilChainSwitch => RejectionCategory_of_rule (r_rule x) = InvalidSignature
  | Context_ key => RejectionCategory_of_rule (r_rule x) = InvalidAtHeight ∧
      key = mkContextKey (block_height ctx0) (block_median_size ctx0) (block_timestamp ctx0)
  end.

Definition cache_sound (p : TransactionPool) : Prop :=
  ∀ h x, c_entries (p_rejected p) !! h = Some x → ∃ F0 (A0 : ChainAccess F0) ctx0 tx0, judged A0 ctx0 tx0 h x.

Lemma cache_sound_weaken p p' : c_entries (p_rejected p') ⊆ c_entries (p_rejected p) → cache_sound p → cache_sound p'.
Proof. intros Hs Hp h x Hx. apply Hp. by eapply lookup_weaken. Qed.

Lemma same_rejected_sound p p' : p_rejected p' = p_rejected p → cache_sound p → cache_sound p'.
Proof. intros E. apply cache_sound_weaken. by rewrite E. Qed.

Lemma shed_subseteq capacity entries order : (RejectionCache.shed capacity entries order).1 ⊆ entries.
Proof.
  revert entries. induction order as [|old order IH]; intros entries; cbn [RejectionCache.shed]; destruct (_ || _); cbn [fst]; try done.
  etransitivity; [apply IH|]. destruct (RejectionCache.current _ _); [apply delete_subseteq|done].
Qed.

Lemma lookup_subseteq c h len now ttl ctx : c_entries (RejectionCache.lookup c h len now ttl ctx).2 ⊆ c_entries c.
Proof.
  unfold RejectionCache.lookup. destruct (c_entries c !! h); [|done]. destruct (negb _); [done|]. cbv zeta. destruct (_ && _); [done|apply delete_subseteq].
Qed.

(** A standing entry is the one found. *)
Lemma lookup_hit c h len now ttl ctx r c' : RejectionCache.lookup c h len now ttl ctx = (Some r, c') →
  ∃ x, c_entries c !! h = Some x ∧ r_rule x = r ∧ r_blob_len x = len ∧ match r_scope x with Context_ key => key = ctx | _ => True end.
Proof.
  unfold RejectionCache.lookup. destruct (c_entries c !! h) as [x|]; [|done]. destruct (negb _) eqn:El; [done|]. cbv zeta.
  destruct (_ && _) eqn:Es; [|done]. bool_hyps. intros [= <- _]. exists x. split_and!; [done|done|done|]. destruct (r_scope x); [done|done|by bool_hyps].
Qed.

Lemma remove_rejected p h : p_rejected (Pool.remove p h).2 = p_rejected p.
Proof. by destruct (remove_frame p h) as (_ & _ & ? & _). Qed.

Lemma remove_all_rejected p hs : p_rejected (Pool.remove_all p hs) = p_rejected p.
Proof.
  revert p. induction hs as [|h hs IH]; intros p; [done|]. change (Pool.remove_all p (h :: hs)) with (Pool.remove_all (Pool.remove p h).2 hs).
  by rewrite IH, remove_rejected.
Qed.

Lemma evict_to_fit_rejected p : p_rejected (Pool.evict_to_fit p).2 = p_rejected p.
Proof.
  unfold Pool.evict_to_fit. destruct (_ <=? _); [done|]. cbv zeta. generalize (wrapping_mul 64 (max_size_bytes (p_cfg p) / 100) (evict_to_percent (p_cfg p))).
  intros target. generalize (length (p_priority p)). intros fuel. revert p. induction fuel as [|fuel IH]; intros p; cbn [Pool.evict_loop]; [done|].
  destruct (_ <? _); [|done]. destruct (last _) as [k|]; [|done]. destruct (p_entries p !! seq k) as [e|]; [|done].
  specialize (IH (Pool.remove p (e_hash e)).2). destruct (Pool.evict_loop _ _ _). cbn [snd] in *. by rewrite IH, remove_rejected.
Qed.

Lemma clean_loop_rejected height now hs p : p_rejected (Pool.clean_loop height now hs p).2 = p_rejected p.
Proof.
  revert p. induction hs as [|h hs IH]; intros p; cbn [Pool.clean_loop]; [done|]. destruct (Pool.get p h); [|done]. destruct (_ || _); [|done]. cbv zeta.
  specialize (IH (Pool.remove (set_recently_deleted p (<[h:=now]> (p_recently_deleted p))) h).2). destruct (Pool.clean_loop _ _ _ _). cbn [snd] in *.
  by rewrite IH, remove_rejected.
Qed.

Section Offer.
Context `{PC : PoolChain F} `{L : !ChainAccessLaws (pool_chain_access (F := F))} `{SystemClock}.

Lemma remember_sound p tx blob h r now w : cache_sound p → Transaction.hash tx = Ok h →
  validate_transaction_early_exit tx blob Pool.admission_context (mkWorld ∅ None) = (Err (Rule r), w) →
  cache_sound (Pool.remember_rejection p h (length blob) r ContextKey_of now).
Proof.
  intros Hp Hh Hv. unfold Pool.remember_rejection. cbv zeta.
  assert (∀ scope, match scope with Always => RejectionCategory_of_rule r = Invalid | UntilChainSwitch => RejectionCategory_of_rule r = InvalidSignature
      | Context_ key => RejectionCategory_of_rule r = InvalidAtHeight ∧ key = ContextKey_of end →
    cache_sound (set_rejected p (RejectionCache.insert (p_rejected p) h (length blob) r scope now (rejection_cache_capacity (p_cfg p))))) as Hi.
  { intros scope Hsc h' x. unfold RejectionCache.insert. cbn [set_rejected p_rejected]. destruct (_ =? 0)%nat; [apply Hp|].
    pose proof (shed_subseteq (rejection_cache_capacity (p_cfg p)) (<[h := mkRemembered r scope (length blob) now (c_next_seq (p_rejected p))]> (c_entries (p_rejected p)))
      (c_order (p_rejected p) ++ [(h, c_next_seq (p_rejected p))])) as Hsub. cbv zeta. destruct (RejectionCache.shed _ _ _) as [entries order]. cbn [c_entries fst] in *.
    intros Hx. eapply lookup_weaken in Hx; [|exact Hsub]. apply lookup_insert_Some in Hx as [[<- <-]|[_ Hx]]; [|by apply Hp].
    exists F, pool_chain_access, Pool.admission_context, tx. split_and!; [done|done|done|by exists blob, w|]. cbn [r_scope r_rule]. by destruct scope. }
  destruct (RejectionCategory_of_rule r) eqn:Ec; try done; by apply Hi.
Qed.

Lemma add_parsed_sound p tx blob h source : cache_sound p → Transaction.hash tx = Ok h → cache_sound (Pool.add_parsed p tx blob h source).2.
Proof.
  intros Hp Hh. unfold Pool.add_parsed. destruct (Pool.contains p h); [done|]. cbv zeta.
  pose proof (lookup_subseteq (p_rejected p) h (length blob) (Pool.now p) (rejection_cache_ttl (p_cfg p)) ContextKey_of) as Hl.
  destruct (RejectionCache.lookup _ _ _ _ _ _) as [cached c]. cbn [snd] in Hl. assert (cache_sound (set_rejected p c)) as Hp' by by apply (cache_sound_weaken p).
  destruct cached as [r|]; [done|]. destruct (match transaction_in_chain h with Ok b => b | Err _ => false end); [done|].
  destruct (bool_decide _); [done|]. destruct (_ && _); [done|]. destruct (Pool.held_image _ _) as [[image holder]|]; [done|]. destruct (_ && _); [done|].
  unfold Pool.validate_and_insert. cbv zeta. cbn [Pool.candidate e_transaction e_blob e_hash]. destruct (validate_transaction_early_exit _ _ _ _) as [[v|[r|x]] w] eqn:Ev.
  - pose proof (evict_to_fit_rejected (Pool.insert (set_rejected p c) (Pool.with_fusion (Pool.candidate tx blob h (Pool.now p) source) (v_is_fusion v)) (spent_key_images w))) as Hr.
    destruct (Pool.evict_to_fit _). cbn [snd] in *. apply (same_rejected_sound (set_rejected p c)); [exact Hr|done].
  - by eapply remember_sound.
  - done.
Qed.

Lemma add_sound p blob source : cache_sound p → cache_sound (Pool.add p blob source).2.
Proof.
  intros Hp. unfold Pool.add. destruct (Transaction.from_bytes blob) as [tx|]; [|done]. destruct (Transaction.hash tx) as [h|] eqn:Hh; [|done]. by apply add_parsed_sound.
Qed.

Lemma copy_loop_sound blobs p : cache_sound p → cache_sound (Pool.copy_loop blobs p).2.
Proof.
  revert p. induction blobs as [|blob blobs IH]; intros p Hp; cbn [Pool.copy_loop]; [done|]. destruct (Transaction.from_bytes blob) as [tx|]; [|auto].
  destruct (Transaction.hash tx) as [h|] eqn:Hh; [|auto]. cbv zeta. pose proof (add_parsed_sound (Pool.forget_deleted p h).2 tx blob h AlternativeBlock) as Ha.
  destruct (Pool.add_parsed _ _ _ _ _) as [status q]. cbn [snd] in Ha. specialize (IH q). destruct (Pool.copy_loop blobs q). cbn [snd] in *. apply IH, Ha; [|done].
  by apply (same_rejected_sound p).
Qed.

End Offer.

Lemma pool_step_sound k p p' : pool_step k p p' → cache_sound p → cache_sound p'.
Proof.
  intros Hs Hp. destruct Hs.
  - by apply add_sound.
  - apply copy_loop_sound. by apply (cache_sound_weaken p); [apply map_filter_subseteq|].
  - by apply (same_rejected_sound p); [apply remove_rejected|].
  - by apply (same_rejected_sound p); [apply remove_all_rejected|].
  - unfold Pool.clean. pose proof (clean_loop_rejected height (Pool.now p) (Pool.hashes p) p) as Hr. destruct (Pool.clean_loop _ _ _ _) as [d q]. cbn [snd] in *.
    apply (cache_sound_weaken p); [|done]. rewrite <- Hr. apply map_filter_subseteq.
  - by apply (same_rejected_sound p); [apply remove_all_rejected|].
  - apply (cache_sound_weaken p); [|done]. unfold Pool.remove_spent_in_chain. cbn [snd]. rewrite remove_all_rejected. apply map_filter_subseteq.
  - by apply (same_rejected_sound p).
  - by apply (cache_sound_weaken p); [apply delete_subseteq|].
  - by apply (same_rejected_sound p).
  - by apply (same_rejected_sound p).
Qed.

Lemma pool_run_sound cfg n p : pool_run cfg n p → cache_sound p.
Proof. induction 1 as [|n k p p' _ IH Hs]; [intros h x Hx; cbn in Hx; by rewrite lookup_empty in Hx|by apply (pool_step_sound k p)]. Qed.

Context `{PC : PoolChain F} `{L : !ChainAccessLaws (pool_chain_access (F := F))} `{SystemClock}.

Lemma not_cached p e now r p' : Pool.validate_and_insert p e now ≠ (CachedRejection r, p').
Proof.
  unfold Pool.validate_and_insert. cbv zeta. destruct (validate_transaction_early_exit _ _ _ _) as [[v|[x|x]] w]; [|done|done].
  destruct (Pool.evict_to_fit _) as [evicted q]. by destruct (Pool.contains _ _).
Qed.

(** C12. A transaction refused from the memory of rejections would be refused by the validator. The
    memory holds a judgement on a transaction of that hash, by a chain and in a context of
    the past; if it is the transaction offered, validating it now fails too: always for a
    rule on the transaction's bytes or on the context, whose tip is still the same; for
    its signatures, and their number, as long as the rings are checked and read the same
    keys. *)
Theorem cached_rejection_sound cfg n p blob source r p' : pool_run cfg n p → Pool.add p blob source = (CachedRejection r, p') →
  ∃ tx h F0 (A0 : ChainAccess F0) ctx0 tx0 x, Transaction.from_bytes blob = Ok tx ∧ Transaction.hash tx = Ok h ∧
    r_rule x = r ∧ r_blob_len x = length blob ∧ judged A0 ctx0 tx0 h x ∧
    (tx0 = tx → (RejectionCategory_of_rule r ≠ InvalidAtHeight → stands A0 (@pool_chain_access F PC) ctx0 Pool.admission_context (length blob) (length blob) r) →
     ∀ v w, validate_transaction_early_exit (A := @pool_chain_access F PC) tx blob Pool.admission_context (mkWorld ∅ None) ≠ (Ok v, w)).
Proof.
  intros Hrun Hadd. unfold Pool.add in Hadd. destruct (Transaction.from_bytes blob) as [tx|] eqn:Ht; [|done]. destruct (Transaction.hash tx) as [h|] eqn:Hh; [|done].
  unfold Pool.add_parsed in Hadd. destruct (Pool.contains p h); [done|]. cbv zeta in Hadd.
  destruct (RejectionCache.lookup _ _ _ _ _ _) as [cached c] eqn:Hl. destruct cached as [r'|].
  2:{ exfalso. revert Hadd. destruct (match transaction_in_chain h with Ok b => b | Err _ => false end); [done|]. destruct (bool_decide _); [done|].
      destruct (_ && _); [done|]. destruct (Pool.held_image _ _) as [[image holder]|]; [done|]. destruct (_ && _); [done|]. intros Hadd.
      by eapply not_cached. }
  injection Hadd as -> _. apply lookup_hit in Hl as (x & Hx & <- & Hlen & Hsc).
  destruct (pool_run_sound cfg n p Hrun h x Hx) as (F0 & A0 & ctx0 & tx0 & Hj). exists tx, h, F0, A0, ctx0, tx0, x. split_and!; [done|done|done|done|done|].
  intros -> Hst v w Hacc. pose proof (proj1 (early_exit_iff (A := @pool_chain_access F PC) tx blob ∅ _ v w) Hacc) as [Hok _]. destruct Hj as (Hlaws & Hpool & _ & (blob0 & w0 & Hlen0 & Hv) & Hscope).
  apply (rejection_stands A0 pool_chain_access tx blob0 blob ctx0 Pool.admission_context v Hpool eq_refl Hok _ _ Hv).
  rewrite Hlen0, Hlen. destruct (r_scope x) as [| |key]; [by apply Hst; rewrite Hscope|by apply Hst; rewrite Hscope|].
  destruct Hscope as [Hcat ->]. unfold stands. rewrite Hcat. injection Hsc as -> -> ->. done.
Qed.

End History.

(** * The order of the checks *)

Section Order.
Context `{C : Crypto} `{PC : PoolChain F} `{SystemClock}.

(** [add_parsed] with the validator ahead of the intersection with the pool and of the budget, as
    [Core::addTransactionToPool] and [TransactionPool::pushTransaction] have them. *)
Definition add_validating_first (p : TransactionPool) (tx : Transaction) (blob : bytes) (hash : Hash) (source : PoolSource) : PoolStatus * TransactionPool :=
  if Pool.contains p hash then (AlreadyInPool, p)
  else if match transaction_in_chain hash with Ok b => b | Err _ => false end then (AlreadyInBlockchain, p)
  else if bool_decide (is_Some (p_recently_deleted p !! hash)) then (RecentlyDeleted, p)
  else if (transaction_fee tx =? 0) && (fusion_max_pool_count (p_cfg p) <=? p_fee_less p) then (FusionPoolFull, p)
  else
    match validate_transaction_early_exit tx blob Pool.admission_context (mkWorld ∅ None) with
    | (Err (Rule r), _) => (Rejected r, p)
    | (Err (Chain _), _) => (Rejected (InputKeyImageAlreadySpent (replicate 32 0)), p)
    | (Ok validation, w) =>
        match Pool.held_image (p_key_images p) (inputs (prefix tx)) with
        | Some (image, holder) => (KeyImageInPool image holder, p)
        | None =>
            let entry := Pool.candidate tx blob hash (Pool.now p) source in
            if (max_size_bytes (p_cfg p) <? wrapping_add 64 (p_size_bytes p) (Z.of_nat (length blob))) && Pool.is_least_profitable p entry
            then (PoolFull, p)
            else
              let p := Pool.insert p (Pool.with_fusion entry (v_is_fusion validation)) (spent_key_images w) in
              let '(evicted, p) := Pool.evict_to_fit p in
              let p := set_evicted p (p_evicted p ++ evicted) in
              (if Pool.contains p hash then Added else PoolFull, p)
        end
    end.

Lemma set_rejected_twice p c c' : set_rejected (set_rejected p c) c' = set_rejected p c'.
Proof. done. Qed.

Lemma remember_set p h len r ctx now c : set_rejected (Pool.remember_rejection p h len r ctx now) c = set_rejected p c.
Proof. unfold Pool.remember_rejection. cbv zeta. by destruct (RejectionCategory_of_rule r). Qed.

Lemma evict_loop_set_rejected fuel target p c :
  Pool.evict_loop fuel target (set_rejected p c) = ((Pool.evict_loop fuel target p).1, set_rejected (Pool.evict_loop fuel target p).2 c).
Proof.
  revert p. induction fuel as [|fuel IH]; intros p; cbn [Pool.evict_loop]; [done|]. cbn [set_rejected p_size_bytes p_priority p_entries].
  destruct (_ <? _); [|done]. destruct (last _) as [k|]; [|done]. destruct (p_entries p !! seq k) as [e|]; [|done].
  assert ((Pool.remove (set_rejected p c) (e_hash e)).2 = set_rejected (Pool.remove p (e_hash e)).2 c) as Hr.
  { unfold Pool.remove. cbn [set_rejected p_by_hash]. destruct (p_by_hash p !! e_hash e); [|done]. cbn [set_rejected set_by_hash p_entries]. by destruct (p_entries p !! _). }
  change (mkPool (p_cfg p) (p_entries p) (p_priority p) (p_by_hash p) (p_by_payment_id p) (p_key_images p) (p_size_bytes p)
    (p_fee_less p) (p_next_seq p) (p_evicted p) (p_recently_deleted p) c (p_clock p)) with (set_rejected p c).
  rewrite Hr, IH. by destruct (Pool.evict_loop _ _ _).
Qed.

Lemma evict_set_rejected p c : Pool.evict_to_fit (set_rejected p c) = ((Pool.evict_to_fit p).1, set_rejected (Pool.evict_to_fit p).2 c).
Proof.
  unfold Pool.evict_to_fit. change (p_size_bytes (set_rejected p c)) with (p_size_bytes p). change (p_cfg (set_rejected p c)) with (p_cfg p).
  change (p_priority (set_rejected p c)) with (p_priority p). destruct (_ <=? _); [done|]. apply evict_loop_set_rejected.
Qed.

(** Running the cheap refusals before the validator refuses exactly what running them after it
    would: for a transaction the memory of rejections does not hold, both orders admit it or
    both do not, and leave the same pool but for that memory. *)
Theorem cheap_refusals_first p tx blob h source :
  (RejectionCache.lookup (p_rejected p) h (length blob) (Pool.now p) (rejection_cache_ttl (p_cfg p)) ContextKey_of).1 = None →
  let '(s, q) := Pool.add_parsed p tx blob h source in
  let '(s', q') := add_validating_first p tx blob h source in
  PoolStatus.accepted s = PoolStatus.accepted s' ∧ ∀ c, set_rejected q c = set_rejected q' c.
Proof.
  intros Hmiss. unfold Pool.add_parsed, add_validating_first. destruct (Pool.contains p h) eqn:Hc; [done|]. cbv zeta.
  destruct (RejectionCache.lookup _ _ _ _ _ _) as [cached c]. cbn [fst] in Hmiss. subst cached. cbn [set_rejected p_recently_deleted p_cfg p_fee_less p_key_images p_size_bytes].
  fold (set_rejected p c). destruct (match transaction_in_chain h with Ok b => b | Err _ => false end); [done|]. destruct (bool_decide _); [done|]. destruct (_ && _); [done|].
  change (Pool.is_least_profitable (set_rejected p c)) with (Pool.is_least_profitable p).
  unfold Pool.validate_and_insert. cbn [Pool.candidate e_transaction e_blob e_hash]. fold (Pool.candidate tx blob h (Pool.now p) source).
  destruct (validate_transaction_early_exit _ _ _ _) as [[v|[r|x]] w]; destruct (Pool.held_image _ _) as [[image holder]|]; try done;
    destruct (_ && _); try done.
  - cbv zeta. change (Pool.insert (set_rejected p c) ?e ?k) with (set_rejected (Pool.insert p e k) c). rewrite evict_set_rejected.
    destruct (Pool.evict_to_fit _) as [evicted q]. cbn [fst snd]. split; [|done]. by change (Pool.contains (set_evicted (set_rejected q c) ?l) h) with (Pool.contains (set_evicted q l) h).
  - split; [done|]. intros c'. by rewrite remember_set.
Qed.

End Order.

(** * What is admitted *)

Lemma from_bytes_wf blob tx : is_bytes blob → Transaction.from_bytes blob = Ok tx → wf_transaction tx.
Proof. intros Hb Ht. by apply (parse_all_accepts _ _ _ _ _ accepts_transaction) in Ht as [? _]. Qed.

Lemma fee_loop_exact o i ins : Forall wf_input ins → Forall (λ x, ∃ amount offsets image, x = Key amount offsets image) ins → 0 ≤ i →
  i + total (TransactionPrefix.input_amounts ins) < 2 ^ 64 → fee_loop o i ins = wrapping_sub 64 (i + total (TransactionPrefix.input_amounts ins)) o.
Proof.
  intros Hwf Hk. revert i. induction Hk as [|x ins (amount & offsets & image & ->) _ IH]; intros i Hi Hs.
  - cbn [fee_loop]. cbn. by rewrite Z.add_0_r.
  - apply Forall_cons in Hwf as [(Ha & _) Hwf]. cbn [fee_loop]. change (TransactionPrefix.input_amounts (Key amount offsets image :: ins)) with (amount :: TransactionPrefix.input_amounts ins) in *.
    cbn [total foldr] in *. fold (total (TransactionPrefix.input_amounts ins)) in *.
    assert (0 ≤ total (TransactionPrefix.input_amounts ins)) as Ht.
    { apply total_nonneg. clear -Hwf. induction Hwf as [|[b|a os im] l Hx _ IH]; [constructor|exact IH|]. constructor; [apply Hx|exact IH]. }
    unfold in_u in Ha. assert (wrapping_add 64 i amount = i + amount) as -> by (apply wrap_small; unfold in_u; lia).
    rewrite IH by (done || lia). f_equal. lia.
Qed.

Lemma outputs_sum_exact a l : Forall is_u64 l → 0 ≤ a → a + total l < 2 ^ 64 → foldl (λ a o, wrapping_add 64 a o) a l = a + total l.
Proof.
  intros Hl. revert a. induction Hl as [|x l Hx Hl IH]; intros a Ha Hs; cbn [foldl]; [cbn; lia|]. cbn [total foldr] in *. fold (total l) in *.
  pose proof (total_nonneg l Hl). unfold in_u in Hx. assert (wrapping_add 64 a x = a + x) as -> by (apply wrap_small; unfold in_u; lia). rewrite IH; lia.
Qed.

Section Admissions.
Context `{C : Crypto} `{PC : PoolChain F} `{L : !ChainAccessLaws (pool_chain_access (F := F))} `{SystemClock}.

(** The fee the pool orders by is the one the validator computed. *)
Lemma admitted_fee tx blob ctx v : wf_transaction tx → acceptable ∅ tx blob ctx v → transaction_fee tx = v_fee v.
Proof.
  intros [Hwf _] Hok. destruct (ok_balance _ _ _ _ _ Hok) as (si & so & Hsi & Hso & Hnz & Hle & ->).
  apply sum_inputs_Some in Hsi as [-> Hsi]; [|done]. apply sum_outputs_Some in Hso as [-> Hso]; [|done]. unfold transaction_fee.
  assert (foldl (λ a o, wrapping_add 64 a (o_amount o)) 0 (outputs (prefix tx)) = total (map o_amount (outputs (prefix tx)))) as ->.
  { transitivity (foldl (λ a o, wrapping_add 64 a o) 0 (map o_amount (outputs (prefix tx)))).
    - generalize 0, (outputs (prefix tx)). clear. intros z l. revert z. induction l as [|o os IH]; intros z; [done|]. cbn [foldl map]. apply IH.
    - rewrite outputs_sum_exact; [lia| |lia|lia]. apply Forall_map. pose proof (wf_outputs _ Hwf) as Ho. eapply Forall_impl; [exact Ho|]. by intros o [? _]. }
  assert (0 ≤ total (map o_amount (outputs (prefix tx)))) as Ho0.
  { apply total_nonneg, Forall_map. pose proof (wf_outputs _ Hwf) as Ho. eapply Forall_impl; [exact Ho|]. by intros o [? _]. }
  rewrite fee_loop_exact; [|by apply wf_inputs| |lia|lia].
  - unfold wrapping_sub. rewrite wrap_small; [lia|]. unfold in_u. lia.
  - eapply Forall_impl; [apply (ok_inputs _ _ _ _ _ Hok)|]. intros [b|amount offsets image]; [done|eauto].
Qed.

(** What has to hold, beside validity, for the pool to take a transaction it has room for. *)
Record welcome (p : TransactionPool) (tx : Transaction) (blob : bytes) (h : Hash) : Prop := {
  w_new : Pool.contains p h = false;
  w_not_refused : (RejectionCache.lookup (p_rejected p) h (length blob) (Pool.now p) (rejection_cache_ttl (p_cfg p)) ContextKey_of).1 = None;
  w_not_mined : transaction_in_chain h ≠ Ok true;
  w_not_deleted : p_recently_deleted p !! h = None;
  w_fee : transaction_fee tx = 0 → p_fee_less p < fusion_max_pool_count (p_cfg p);
  w_images i : i ∈ key_images (inputs (prefix tx)) → p_key_images p !! i = None }.

Lemma add_parsed_Added p tx blob h source : (Pool.add_parsed p tx blob h source).1 = Added →
  welcome p tx blob h ∧ ∃ v, acceptable ∅ tx blob Pool.admission_context v.
Proof.
  unfold Pool.add_parsed. destruct (Pool.contains p h) eqn:Hc; [done|]. cbv zeta. destruct (RejectionCache.lookup _ _ _ _ _ _) as [[r|] c] eqn:Hl; [done|].
  cbn [set_rejected p_recently_deleted p_cfg p_fee_less p_key_images p_size_bytes].
  destruct (match transaction_in_chain h with Ok b => b | Err _ => false end) eqn:Hm; [done|]. destruct (bool_decide _) eqn:Hd; [done|].
  destruct (_ && _) eqn:Hf; [done|]. destruct (Pool.held_image _ _) as [[image holder]|] eqn:Hi; [done|]. destruct ((max_size_bytes _ <? _) && _); [done|].
  unfold Pool.validate_and_insert. cbv zeta. cbn [Pool.candidate e_transaction e_blob e_hash].
  destruct (validate_transaction_early_exit _ _ _ _) as [[v|[r|x]] w] eqn:Ev; [|discriminate..]. intros _.
  pose proof (proj1 (early_exit_iff (A := @pool_chain_access F PC) tx blob ∅ _ v w) Ev) as [Hok _]. split; [split|by exists v].
  - done.
  - by rewrite Hl.
  - intros Hmt. by rewrite Hmt in Hm.
  - bool_hyps. by apply eq_None_not_Some.
  - intros Hz. rewrite Hz in Hf. cbn in Hf. bool_hyps. lia.
  - by apply held_image_None.
Qed.

Lemma evict_noop p : p_size_bytes p ≤ max_size_bytes (p_cfg p) → Pool.evict_to_fit p = ([], p).
Proof. intros Hle. unfold Pool.evict_to_fit. by rewrite (proj2 (Z.leb_le _ _)) by lia. Qed.

Lemma add_parsed_welcome p tx blob h source v : pool_wf p → p_next_seq p < u64_max → blob_ok blob →
  welcome p tx blob h → acceptable ∅ tx blob Pool.admission_context v → p_size_bytes p + Z.of_nat (length blob) ≤ max_size_bytes (p_cfg p) < 2 ^ 63 →
  ∃ p', Pool.add_parsed p tx blob h source = (Added, p') ∧
    ∀ e, held p' e ↔ e = Pool.with_fusion (Pool.candidate tx blob h (Pool.now p) source) (v_is_fusion v) ∨ held p e.
Proof.
  intros Hwf Hn Hb [Hnew Hcache Hmined Hdel Hfee Himg] Hok Hroom. unfold Pool.add_parsed. rewrite Hnew. cbv zeta.
  destruct (RejectionCache.lookup _ _ _ _ _ _) as [cached c]. cbn [fst] in Hcache. subst cached. cbn [set_rejected p_recently_deleted p_cfg p_fee_less p_key_images p_size_bytes].
  fold (set_rejected p c). assert (match transaction_in_chain h with Ok b => b | Err _ => false end = false) as ->
    by (destruct (transaction_in_chain h) as [[]|]; [by destruct Hmined|done|done]).
  rewrite (bool_decide_eq_false_2 (is_Some (p_recently_deleted p !! h))) by (rewrite Hdel; by intros [? ?]).
  assert ((transaction_fee tx =? 0) && (fusion_max_pool_count (p_cfg p) <=? p_fee_less p) = false) as ->.
  { apply andb_false_iff. destruct (Z.eqb_spec (transaction_fee tx) 0) as [Hz|]; [right|by left]. specialize (Hfee Hz). lia. }
  rewrite (proj2 (held_image_None _ _) Himg). pose proof (total_bound p Hwf).
  assert (wrapping_add 64 (p_size_bytes p) (Z.of_nat (length blob)) = p_size_bytes p + Z.of_nat (length blob)) as Hw by (apply wrap_small; unfold in_u; lia).
  rewrite Hw, (proj2 (Z.ltb_ge _ _)) by lia. cbn [andb]. unfold Pool.validate_and_insert. cbn [Pool.candidate e_transaction e_blob e_hash].
  fold (Pool.candidate tx blob h (Pool.now p) source). rewrite (proj2 (early_exit_iff (A := @pool_chain_access F PC) tx blob ∅ _ v _) (conj Hok eq_refl)).
  cbn [spent_key_images]. rewrite (right_id_L ∅ (∪)). set (e := Pool.with_fusion (Pool.candidate tx blob h (Pool.now p) source) (v_is_fusion v)).
  change (key_images (inputs (prefix tx))) with (images e). assert (pool_wf (set_rejected p c)) as Hwfc by by apply (same_indexes_wf p).
  set (q := Pool.insert (set_rejected p c) e (list_to_set (images e))).
  assert (entry_bytes e = Z.of_nat (length blob)) as Hbytes by done.
  assert (pool_wf q) as Hq by (apply insert_wf; [done|by apply candidate_ok|done|done|done|rewrite Hbytes; cbn [set_rejected p_size_bytes]; lia]).
  rewrite (evict_noop q) by (change (p_cfg q) with (p_cfg p); change (p_size_bytes q) with (wrapping_add 64 (p_size_bytes p) (Z.of_nat (length blob))); lia).
  assert (∀ x, held (set_evicted q (p_evicted q ++ [])) x ↔ x = e ∨ held p x) as Hheld by (intros x; exact (held_insert (set_rejected p c) e Hwfc x)).
  exists (set_evicted q (p_evicted q ++ [])). split; [|exact Hheld].
  assert (Pool.contains (set_evicted q (p_evicted q ++ [])) h = true) as ->; [|done].
  apply contains_spec; [by apply (same_indexes_wf q)|]. exists e. split; [apply Hheld; by left|done].
Qed.

(** C11. A pool with room admits a transaction exactly when it is valid at the chain's top and nothing of
    the pool's policy is against it: it is new to the pool and to the chain, was not deleted
    or refused of late, conflicts with no pooled transaction, and is under the cap if it
    pays no fee. The pool then holds it, with the fee the validator computed, beside
    everything it held. *)
Theorem admission_spec p blob source : pool_ok p → p_next_seq p < u64_max → is_bytes blob →
  p_size_bytes p + Z.of_nat (length blob) ≤ max_size_bytes (p_cfg p) →
  let '(status, p') := Pool.add p blob source in
  (status = Added ↔ ∃ tx h v, Transaction.from_bytes blob = Ok tx ∧ Transaction.hash tx = Ok h ∧ welcome p tx blob h ∧ acceptable ∅ tx blob Pool.admission_context v) ∧
  (status = Added → ∃ e, (∀ x, held p' x ↔ x = e ∨ held p x) ∧ e_blob e = blob ∧
     ∀ v, acceptable ∅ (e_transaction e) blob Pool.admission_context v → e_fee e = v_fee v ∧ e_is_fusion e = v_is_fusion v).
Proof.
  intros Hok Hn Hb Hroom. destruct (Pool.add p blob source) as [status p'] eqn:Ha. unfold Pool.add in Ha.
  destruct (Transaction.from_bytes blob) as [tx|x] eqn:Ht.
  2:{ injection Ha as <- _. split; [|done]. split; [done|]. by intros (? & ? & ? & ? & _). }
  destruct (Transaction.hash tx) as [h|x] eqn:Hh.
  2:{ injection Ha as <- _. split; [|done]. split; [done|]. intros (? & ? & ? & [= <-] & ? & _). congruence. }
  pose proof (ok_config p Hok) as [[? ?] _]. pose proof (total_bound p (ok_wf p Hok)).
  assert (blob_ok blob) as Hbo by (eapply from_bytes_blob_ok; [done|lia]).
  assert (∀ v, welcome p tx blob h → acceptable ∅ tx blob Pool.admission_context v → status = Added ∧
    ∀ x, held p' x ↔ x = Pool.with_fusion (Pool.candidate tx blob h (Pool.now p) source) (v_is_fusion v) ∨ held p x) as Hw.
  { intros v Hwel Hv. destruct (add_parsed_welcome p tx blob h source v (ok_wf p Hok) Hn Hbo Hwel Hv) as (q & Hq & Hheld); [lia|]. rewrite Hq in Ha. by injection Ha as <- <-. }
  assert (status = Added → welcome p tx blob h ∧ ∃ v, acceptable ∅ tx blob Pool.admission_context v) as Hadd.
  { intros ->. apply (add_parsed_Added p tx blob h source). by rewrite Ha. }
  split; [split|].
  - intros Hs. destruct (Hadd Hs) as [Hwel [v Hv]]. by exists tx, h, v.
  - intros (tx' & h' & v & [= <-] & Hh' & Hwel & Hv). assert (h' = h) as -> by congruence. by apply (Hw v).
  - intros Hs. destruct (Hadd Hs) as [Hwel [v Hv]]. destruct (Hw v Hwel Hv) as [_ Hheld]. eexists. split; [exact Hheld|]. split; [done|].
    intros v' Hv'. cbn [Pool.with_fusion e_transaction Pool.candidate e_fee e_is_fusion] in *. split; [eapply admitted_fee; [by eapply from_bytes_wf|exact Hv']|].
    destruct (ok_fee _ _ _ _ _ Hv) as [-> _], (ok_fee _ _ _ _ _ Hv') as [-> _]. done.
Qed.

End Admissions.

(** * The checkpoint zone *)

(** Inside the checkpoint zone the rings and signatures of a pool transaction are not looked at:
    the verdict is the same on every chain, whatever it holds as spent or as ring members. *)
Theorem zone_skips_rings `{C : Crypto} {F} (A A' : ChainAccess F) tx blob ctx w : is_pool_transaction ctx = true → in_zone ctx = true →
  validate_transaction_early_exit (A := A) tx blob ctx w = validate_transaction_early_exit (A := A') tx blob ctx w.
Proof. intros _ Hz. unfold validate_transaction_early_exit. cbv zeta. fold (in_zone ctx). rewrite Hz. reflexivity. Qed.

(** * Witnesses *)

Module ToyAdmission.

#[local] Existing Instance Toy.crypto.
#[local] Existing Instance Toy.clock.
#[local] Existing Instance Toy.pool_chain.

(** A transaction with an empty output, and the pool that has refused it. *)
Definition worthless : bytes := Toy.blob (Toy.spend 1 0).
Definition refused : TransactionPool := (Pool.add (Pool.new (Toy.config 1_000)) worthless Network).2.

Lemma run_refused : pool_run (Toy.config 1_000) (0 + 1) refused.
Proof.
  apply (run_step _ _ _ (Pool.new (Toy.config 1_000))); [apply run_new|]. apply (step_add Toy.pool_chain Toy.laws Toy.clock). vm_compute. reflexivity.
Qed.

Lemma new_ok : pool_ok (Pool.new (Toy.config 1_000)).
Proof. exact (proj1 (new_inv (Toy.config 1_000) ltac:(done))). Qed.

End ToyAdmission.

Lemma cached_rejection_sound_witness :
  (Pool.add (C := Toy.crypto) (PC := Toy.pool_chain) (H := Toy.clock) ToyAdmission.refused ToyAdmission.worthless Rpc).1 = CachedRejection OutputZeroAmount ∧
  ∃ tx h F0 (A0 : ChainAccess F0) ctx0 tx0 x, Transaction.from_bytes ToyAdmission.worthless = Ok tx ∧ Transaction.hash (C := Toy.crypto) tx = Ok h ∧
    r_rule x = OutputZeroAmount ∧ judged (C := Toy.crypto) A0 ctx0 tx0 h x.
Proof.
  destruct (Pool.add (C := Toy.crypto) (PC := Toy.pool_chain) (H := Toy.clock) ToyAdmission.refused ToyAdmission.worthless Rpc) as [status p'] eqn:E.
  assert (status = CachedRejection OutputZeroAmount) as ->.
  { change status with (status, p').1. rewrite <- E. vm_compute. reflexivity. }
  split; [reflexivity|].
  destruct (cached_rejection_sound (C := Toy.crypto) (PC := Toy.pool_chain) (L := Toy.laws) (H := Toy.clock) (Toy.config 1_000) (0 + 1)
    ToyAdmission.refused ToyAdmission.worthless Rpc OutputZeroAmount p' ToyAdmission.run_refused E)
    as (tx & h & F0 & A0 & ctx0 & tx0 & x & H1 & H2 & H3 & _ & H4 & _).
  exists tx, h, F0, A0, ctx0, tx0, x. auto.
Defined.

Lemma cheap_refusals_first_witness :
  let p := Pool.new (Toy.config 1_000) in
  let t := Toy.spend 1 1_000 in
  PoolStatus.accepted (Pool.add_parsed (C := Toy.crypto) (PC := Toy.pool_chain) (H := Toy.clock) p t (Toy.blob t) [7] Network).1 = true ∧
  PoolStatus.accepted (add_validating_first (C := Toy.crypto) (PC := Toy.pool_chain) (H := Toy.clock) p t (Toy.blob t) [7] Network).1 = true.
Proof.
  cbv zeta. pose proof (cheap_refusals_first (C := Toy.crypto) (PC := Toy.pool_chain) (H := Toy.clock) (Pool.new (Toy.config 1_000))
    (Toy.spend 1 1_000) (Toy.blob (Toy.spend 1 1_000)) [7] Network eq_refl) as Hw.
  assert (PoolStatus.accepted (Pool.add_parsed (C := Toy.crypto) (PC := Toy.pool_chain) (H := Toy.clock) (Pool.new (Toy.config 1_000))
    (Toy.spend 1 1_000) (Toy.blob (Toy.spend 1 1_000)) [7] Network).1 = true) as Ha by (vm_compute; reflexivity).
  destruct (Pool.add_parsed _ _ _ _ _) as [s q], (add_validating_first _ _ _ _ _) as [s' q']. destruct Hw as [Hw _]. cbn [fst] in *.
  rewrite <- Hw. split; exact Ha.
Defined.

Lemma admission_spec_witness :
  (Pool.add (C := Toy.crypto) (PC := Toy.pool_chain) (H := Toy.clock) (Pool.new (Toy.config 1_000)) (Toy.blob (Toy.spend 1 1_000)) Network).1 = Added ∧
  ∃ tx h v, Transaction.from_bytes (Toy.blob (Toy.spend 1 1_000)) = Ok tx ∧ Transaction.hash (C := Toy.crypto) tx = Ok h ∧
    acceptable (C := Toy.crypto) (A := toy_chain) ∅ tx (Toy.blob (Toy.spend 1 1_000)) (Pool.admission_context (PC := Toy.pool_chain)) v.
Proof.
  pose proof (admission_spec (C := Toy.crypto) (PC := Toy.pool_chain) (L := Toy.laws) (H := Toy.clock) (Pool.new (Toy.config 1_000))
    (Toy.blob (Toy.spend 1 1_000)) Network ToyAdmission.new_ok eq_refl) as Hw.
  assert ((Pool.add (C := Toy.crypto) (PC := Toy.pool_chain) (H := Toy.clock) (Pool.new (Toy.config 1_000)) (Toy.blob (Toy.spend 1 1_000)) Network).1 = Added)
    as Ha by (vm_compute; reflexivity).
  destruct (Pool.add _ _ _) as [status p']. cbn [fst] in *. destruct Hw as [Hw _].
  - vm_compute. repeat constructor; discriminate.
  - vm_compute. discriminate.
  - split; [exact Ha|]. apply Hw in Ha as (tx & h & v & H1 & H2 & _ & H3). exists tx, h, v. auto.
Defined.
