(* ===== verification/Template.v ===== *)
(** Block templates: the chain's numbers a template is built from and their cache
    (crates/wrkz-mempool/src/chain.rs), the miner transaction (coinbase.rs) and the template
    itself (template_builder.rs).

    The outer option of a result is a panic: of the difficulty or the reward arithmetic. The
    coinbase key pair, when the caller gives none, is a random one: [fresh_keys]. *)
From stdpp Require Import gmap sets.
From S2P Require Import Prelude Constants Hashing Curve Varint Tx TxExtra Block Base58 Reward Difficulty Fees Checkpoints Records Validate ChainState.
From S2P Require Import PoolPriority RejectionCache Pool.
Local Open Scope Z_scope.

Definition COINBASE_MAX_OUTPUTS : nat := 11.
Definition COINBASE_REBUILD_TRIES : nat := 10.
Definition COINBASE_MAX_OUTS : nat := COINBASE_MAX_OUTPUTS.
Definition MAX_RESERVE_SIZE : nat := 255.

(** * The chain's numbers *)

Record TemplateContext := mkTemplateContext {
  tc_height : Z; tc_previous_block_hash : Hash; tc_difficulty : Z; tc_major_version : Z; tc_minor_version : Z;
  tc_median_size : Z; tc_max_cumulative_size : Z; tc_already_generated_coins : Z; tc_timestamp_median : option Z }.

Inductive ContextError (F : Type) : Type :=
| DifficultyIsZero
| MissingInfo (index : Z)
| ContextChain (e : F).
Arguments DifficultyIsZero {F}.
Arguments MissingInfo {F} index.
Arguments ContextChain {F} e.

Definition BLOCK_MINOR_VERSION_0 : Z := 0.
Definition BLOCK_MINOR_VERSION_1 : Z := 1.

Definition minor_version_for (major_version : Z) : Z :=
  let V2_UNDEFINED := false in
  let V3_UNDEFINED := false in
  if major_version =? BLOCK_MAJOR_VERSION_1 then
    if V2_UNDEFINED then BLOCK_MINOR_VERSION_1 else BLOCK_MINOR_VERSION_0
  else if V3_UNDEFINED && (major_version =? BLOCK_MAJOR_VERSION_2) then BLOCK_MINOR_VERSION_1
  else BLOCK_MINOR_VERSION_0.

Definition template_timestamp_check_window (height : Z) : nat :=
  if LWMA_2_DIFFICULTY_BLOCK_INDEX <=? height then BLOCKCHAIN_TIMESTAMP_CHECK_WINDOW_V3 else BLOCKCHAIN_TIMESTAMP_CHECK_WINDOW.

Section Context_.
Context `{PC : PoolChain F}.

(** [chain.block_info_at(i)?.ok_or(ContextError::Missing(i))?] *)
Definition info_at (i : Z) : result (ContextError F) BlockInfo :=
  info ← map_err ContextChain (block_info_at i); ok_or (MissingInfo i) info.

Definition next_block_difficulty (parent_index : Z) : option (result (ContextError F) (option Z)) :=
  match fixed_difficulty with
  | Some fixed => Some (Ok (Some fixed))
  | None =>
      if bool_decide (is_u32 parent_index) then
        let '(from, last) := difficulty_window_indexes parent_index in
        match collect info_at (seqZ from (last - from + 1)) with
        | Err e => Some (Err e)
        | Ok window => Ok <$> difficulty_for_next_block_from parent_index window
        end
      else Some (Ok None)
  end.

Definition template_timestamp_median (height : Z) : result (ContextError F) (option Z) :=
  let window := Z.of_nat (template_timestamp_check_window height) in
  if height <? window then Ok None
  else
    infos ← collect info_at (seqZ (height - window) window);
    Ok (Some (median_value (map bi_timestamp infos))).

Definition TemplateContext_from_chain : option (result (ContextError F) TemplateContext) :=
  let top := chain_top_index in
  let height := wrapping_add 64 top 1 in
  match next_block_difficulty top with
  | None => None
  | Some difficulty => Some
      (difficulty ← difficulty;
       difficulty ← ok_or DifficultyIsZero difficulty;
       let major_version := block_major_version_for_index height in
       previous_block_hash ← map_err ContextChain top_block_hash;
       coins ← map_err ContextChain chain_already_generated_coins;
       median ← template_timestamp_median height;
       Ok (mkTemplateContext height previous_block_hash difficulty major_version (minor_version_for major_version)
             chain_block_median_size (max_block_cumulative_size height) coins median))
  end.

(** [TemplateContextCache::context]: the answer and what is held after it. *)
Definition TemplateContextCache : Type := option (Z * Hash * TemplateContext).

Definition TemplateContextCache_new : TemplateContextCache := None.
Definition TemplateContextCache_clear (_ : TemplateContextCache) : TemplateContextCache := None.

Definition cached_context (held : TemplateContextCache) : option (result (ContextError F) TemplateContext * TemplateContextCache) :=
  let top_index := chain_top_index in
  match top_block_hash with
  | Err e => Some (Err (ContextChain e), held)
  | Ok top_hash =>
      let miss :=
        match TemplateContext_from_chain with
        | None => None
        | Some (Err e) => Some (Err e, held)
        | Some (Ok ctx) => Some (Ok ctx, Some (top_index, top_hash, ctx))
        end in
      match held with
      | Some (index, hash, ctx) => if (index =? top_index) && bool_decide (hash = top_hash) then Some (Ok ctx, held) else miss
      | None => miss
      end
  end.

End Context_.

Definition clamp_timestamp (ctx : TemplateContext) (now : Z) : Z :=
  match tc_timestamp_median ctx with
  | Some median => if now <? median then median else now
  | None => now
  end.

(** * The miner transaction *)

Inductive MinerTxError : Type :=
| ExtraNonceTooLong (n : nat)
| BlockTooBig (size limit : Z)
| MaxOutsIsZero
| BadKeys
| AmountMismatch (summary reward : Z).

Record MinerTx := mkMinerTx { m_reward : Z; m_tx_public_key : Hash }.

(** The loop that folds the last amount into the one before it; each pass drops one. *)
Fixpoint merge_outs (fuel : nat) (max_outs : nat) (out_amounts : list Z) : list Z :=
  match fuel with
  | O => out_amounts
  | S fuel =>
      if (max_outs <? length out_amounts)%nat then
        match reverse out_amounts with
        | last :: previous :: rest => merge_outs fuel max_outs (reverse (wrapping_add 64 previous last :: rest))
        | _ => out_amounts
        end
      else out_amounts
  end.

Section Coinbase.
Context `{K : CurveKeys}.

Fixpoint derive_outputs (derivation public_spend_key : bytes) (index summary : Z) (amounts : list Z) : result MinerTxError (list Output * Z) :=
  match amounts with
  | [] => Ok ([], summary)
  | amount :: amounts =>
      key ← ok_or BadKeys (derive_public_key derivation index public_spend_key);
      '(outs, summary) ← derive_outputs derivation public_spend_key (index + 1) (wrapping_add 64 summary amount) amounts;
      Ok (mkOutput amount key :: outs, summary)
  end.

Definition construct_miner_tx (block_major_version height median_size already_generated_coins current_block_size fee : Z)
    (public_view_key public_spend_key extra_nonce : bytes) (max_outs : nat) (tx_keys : Hash * Hash)
    : option (result MinerTxError (Transaction * MinerTx)) :=
  let '(tx_secret_key, tx_public_key) := tx_keys in
  let nonce := if (length extra_nonce =? 0)%nat then None else Some extra_nonce in
  if (255 <? length extra_nonce)%nat then Some (Err (ExtraNonceTooLong (length extra_nonce)))
  else
    match build_extra tx_public_key nonce None with
    | Err _ => Some (Err (ExtraNonceTooLong (from_option length 0%nat nonce)))
    | Ok extra =>
        match get_block_reward block_major_version median_size current_block_size already_generated_coins fee height with
        | None => None
        | Some None => Some (Err (BlockTooBig current_block_size (wrapping_mul 64 2 (Z.max median_size (full_reward_zone block_major_version)))))
        | Some (Some r) => Some
            (let reward := reward r in
             let out_amounts := decompose_amount reward (default_dust_threshold height) in
             if (max_outs =? 0)%nat then Err MaxOutsIsZero
             else
               let out_amounts := merge_outs (length out_amounts) max_outs out_amounts in
               derivation ← ok_or BadKeys (generate_key_derivation public_view_key tx_secret_key);
               '(outputs, summary) ← derive_outputs derivation public_spend_key 0 0 out_amounts;
               if negb (summary =? reward) then Err (AmountMismatch summary reward)
               else
                 let tx := mkTransaction
                   (mkPrefix CURRENT_TRANSACTION_VERSION (wrapping_add 64 height CRYPTONOTE_MINED_MONEY_UNLOCK_WINDOW) [Base height] outputs extra) [] in
                 Ok (tx, mkMinerTx reward tx_public_key))
        end
    end.

End Coinbase.

(** * The template *)

Record TemplateTransaction := mkTemplateTransaction { tt_hash : Hash; tt_blob : bytes; tt_fee : Z }.

Record TemplateOptions := mkTemplateOptions { o_tx_key : option (Hash * Hash); o_now : option Z }.

Record BlockTemplateResult := mkTemplateResult {
  bt_blob : bytes; bt_block : BlockTemplate; bt_difficulty : Z; bt_height : Z; bt_reserved_offset : Z;
  bt_reserve_size : nat; bt_tx_public_key : Hash; bt_reward : Z; bt_cumulative_size : Z; bt_fee : Z }.

Inductive TemplateError (F : Type) : Type :=
| BadAddress (e : Base58Error)
| ReserveTooBig (n : nat)
| TemplateContextError (e : ContextError F)
| MinerTxFailed (e : MinerTxError)
| Serialization (e : Error)
| CoinbaseUnstable
| CoinbaseSizeMismatch (cumulative_size transactions_size coinbase_size : Z)
| ReserveDoesNotFit (reserved_offset : Z) (reserve_size blob_len : nat).
Arguments BadAddress {F}. Arguments ReserveTooBig {F}. Arguments TemplateContextError {F}. Arguments MinerTxFailed {F}.
Arguments Serialization {F}. Arguments CoinbaseUnstable {F}. Arguments CoinbaseSizeMismatch {F}. Arguments ReserveDoesNotFit {F}.

Definition coinbase_size (tx : Transaction) : Z :=
  match Transaction.to_bytes tx with Ok b => Z.of_nat (length b) | Err _ => 0 end.

(** The position of the first window equal to [needle]. *)
Fixpoint window_position (needle haystack : bytes) : option nat :=
  if (length haystack <? length needle)%nat then None
  else if bool_decide (take (length needle) haystack = needle) then Some 0%nat
  else match haystack with [] => None | _ :: haystack => S <$> window_position needle haystack end.

Definition find_subslice (haystack needle : bytes) : option nat :=
  if (length needle =? 0)%nat || (length haystack <? length needle)%nat then None
  else window_position needle haystack.

Definition daemon_template_parent_block : ParentBlock :=
  let extra := append_merge_mining_tag [] (mkMMTag 0 (replicate 32 0)) in
  ParentBlock.new 0 0 (replicate 32 0) 1 [] (mkPrefix 0 0 [] [] extra) [].

Definition set_extra (tx : Transaction) (extra : bytes) : Transaction :=
  mkTransaction (mkPrefix (version (prefix tx)) (unlock_time (prefix tx)) (inputs (prefix tx)) (outputs (prefix tx)) extra) (signatures tx).

(** One settled coinbase: the transaction, what [construct_miner_tx] said of it, and the
    cumulative size it was built for. *)
Definition Settled : Type := Transaction * MinerTx * Z.

(** The tries of the rebuild loop; [build] is [construct_miner_tx] for a block of that size. *)
Fixpoint rebuild_loop {F} (tries : nat) (build : Z → option (result MinerTxError (Transaction * MinerTx)))
    (transactions_size cumulative_size : Z) : option (result (TemplateError F) Settled) :=
  match tries with
  | O => Some (Err CoinbaseUnstable)
  | S tries =>
      match build cumulative_size with
      | None => None
      | Some (Err e) => Some (Err (MinerTxFailed e))
      | Some (Ok (coinbase, miner)) =>
          let mismatch coinbase := Some (Err (CoinbaseSizeMismatch cumulative_size transactions_size (coinbase_size coinbase))) in
          let fits coinbase := cumulative_size =? wrapping_add 64 transactions_size (coinbase_size coinbase) in
          let blob_size := coinbase_size coinbase in
          let budget := wrapping_sub 64 cumulative_size transactions_size in
          if budget <? blob_size then rebuild_loop tries build transactions_size (wrapping_add 64 transactions_size blob_size)
          else if blob_size <? budget then
            let delta := budget - blob_size in
            let padded := set_extra coinbase (extra (prefix coinbase) ++ replicate (Z.to_nat delta) 0) in
            if fits padded then Some (Ok (padded, miner, cumulative_size))
            else if negb (wrapping_add 64 cumulative_size 1 =? wrapping_add 64 transactions_size (coinbase_size padded)) then mismatch padded
            else
              let popped := set_extra padded (take (length (extra (prefix padded)) - 1) (extra (prefix padded))) in
              if negb (fits popped) then rebuild_loop tries build transactions_size (wrapping_add 64 cumulative_size (wrapping_sub 64 delta 1))
              else Some (Ok (popped, miner, cumulative_size))
          else if negb (fits coinbase) then mismatch coinbase
          else Some (Ok (coinbase, miner, cumulative_size))
      end
  end.

Section Build.
Context `{C : Crypto} `{K : CurveKeys} `{SystemClock} (fresh_keys : Hash * Hash).

Definition reserved_offset {F} (blob reserve : bytes) (tx_public_key : Hash) : result (TemplateError F) Z :=
  if (length reserve =? 0)%nat then Ok 0
  else
    let at_ := default (length blob) (find_subslice blob tx_public_key) in
    let offset := Z.of_nat (at_ + 32 + 2) in
    if Z.of_nat (length blob) <? offset + Z.of_nat (length reserve)
    then Err (ReserveDoesNotFit offset (length reserve) (length blob))
    else Ok offset.

(** The block around a coinbase; the nonce is the miner's to fill in. *)
Definition template_block (ctx : TemplateContext) (transactions : list TemplateTransaction) (now : Z) (coinbase : Transaction) : BlockTemplate :=
  {| major_version := tc_major_version ctx;
     minor_version := tc_minor_version ctx;
     timestamp := clamp_timestamp ctx now;
     previous_block_hash := tc_previous_block_hash ctx;
     b_nonce := 0;
     parent_block := if BLOCK_MAJOR_VERSION_2 <=? tc_major_version ctx then Some daemon_template_parent_block else None;
     base_transaction := coinbase;
     transaction_hashes := map tt_hash transactions |}.

Definition build_template_from_context {F} (ctx : TemplateContext) (transactions : list TemplateTransaction) (wallet_address : bytes)
    (reserve_size : nat) (extra_nonce : option bytes) (options : TemplateOptions) : option (result (TemplateError F) BlockTemplateResult) :=
  match parse_address wallet_address with
  | Err e => Some (Err (BadAddress e))
  | Ok address =>
      let reserve := match extra_nonce with Some n => n | None => replicate reserve_size 0 end in
      if (MAX_RESERVE_SIZE <? length reserve)%nat then Some (Err (ReserveTooBig (length reserve)))
      else
        let tx_keys := default fresh_keys (o_tx_key options) in
        let now := default system_now (o_now options) in
        let transactions_size := wrap 64 (total (map (λ t, Z.of_nat (length (tt_blob t))) transactions)) in
        let fee := foldl (λ a t, wrapping_add 64 a (tt_fee t)) 0 transactions in
        let build current_block_size :=
          construct_miner_tx (tc_major_version ctx) (tc_height ctx) (tc_median_size ctx) (tc_already_generated_coins ctx) current_block_size fee
            (view_public_key address) (spend_public_key address) reserve COINBASE_MAX_OUTS tx_keys in
        match build transactions_size with
        | None => None
        | Some (Err e) => Some (Err (MinerTxFailed e))
        | Some (Ok (coinbase, _)) =>
            let cumulative_size := wrapping_add 64 transactions_size (coinbase_size coinbase) in
            match rebuild_loop COINBASE_REBUILD_TRIES build transactions_size cumulative_size with
            | None => None
            | Some (Err e) => Some (Err e)
            | Some (Ok (coinbase, miner, cumulative_size)) => Some
                (let block := template_block ctx transactions now coinbase in
                 blob ← map_err Serialization (BlockTemplate.to_bytes block);
                 offset ← reserved_offset blob reserve (m_tx_public_key miner);
                 Ok (mkTemplateResult blob block (tc_difficulty ctx) (tc_height ctx) offset (length reserve)
                       (m_tx_public_key miner) (m_reward miner) cumulative_size fee))
            end
        end
  end.

(** ** Choosing the transactions *)

Context `{PC : PoolChain F}.

Definition template_revalidate_context (height : Z) : RevalidateContext :=
  mkRevalidateContext height chain_block_median_size top_block_timestamp.

Definition valid_for_block_template (entry : PoolEntry) (ctx : RevalidateContext) : bool :=
  match revalidate_after_height_change (e_transaction entry) (e_blob entry) ctx with Ok _ => true | Err _ => false end.

(** The spent-inputs checker: it inserts as it walks. *)
Fixpoint claim_images (already_spent : gset Hash) (ins : list Input) : bool * gset Hash :=
  match ins with
  | [] => (false, already_spent)
  | Key _ _ image :: ins => if bool_decide (image ∈ already_spent) then (true, already_spent) else claim_images ({[image]} ∪ already_spent) ins
  | Base _ :: ins => claim_images already_spent ins
  end.

Definition max_total_size (ctx : TemplateContext) : Z :=
  saturating_sub (Z.min (wrapping_mul 64 125 (tc_median_size ctx) / 100) (tc_max_cumulative_size ctx)) CRYPTONOTE_COINBASE_BLOB_RESERVED_SIZE.

(** The walk: what is selected, what no longer validates. *)
Fixpoint fill_loop (ctx : TemplateContext) (limit transactions_size : Z) (already_spent : gset Hash) (candidates : list PoolEntry)
    : list TemplateTransaction * list Hash :=
  match candidates with
  | [] => ([], [])
  | entry :: candidates =>
      let size := Z.of_nat (e_size entry) in
      if limit <? wrapping_add 64 transactions_size size then fill_loop ctx limit transactions_size already_spent candidates
      else if negb (valid_for_block_template entry (template_revalidate_context (tc_height ctx))) then
        let '(selected, invalid) := fill_loop ctx limit transactions_size already_spent candidates in
        (selected, e_hash entry :: invalid)
      else
        match spends_on_chain (e_transaction entry) (saturating_sub (tc_height ctx) 1) with
        | Err _ => fill_loop ctx limit transactions_size already_spent candidates
        | Ok true =>
            let '(selected, invalid) := fill_loop ctx limit transactions_size already_spent candidates in
            (selected, e_hash entry :: invalid)
        | Ok false =>
            let '(collides, already_spent) := claim_images already_spent (inputs (prefix (e_transaction entry))) in
            if (collides : bool) then fill_loop ctx limit transactions_size already_spent candidates
            else
              let '(selected, invalid) := fill_loop ctx limit (wrapping_add 64 transactions_size size) already_spent candidates in
              (mkTemplateTransaction (e_hash entry) (e_blob entry) (e_fee entry) :: selected, invalid)
        end
  end.

Definition fill_block_template (pool : TransactionPool) (ctx : TemplateContext) : list TemplateTransaction * TransactionPool :=
  let '(regular, fusion) := Pool.for_block_template pool in
  let '(selected, invalid) := fill_loop ctx (max_total_size ctx) 0 ∅ (regular ++ fusion) in
  (selected, Pool.remove_all pool invalid).

Definition build_template (pool : TransactionPool) (wallet_address : bytes) (reserve_size : nat) (extra_nonce : option bytes) (options : TemplateOptions)
    : option (result (TemplateError F) BlockTemplateResult * TransactionPool) :=
  match TemplateContext_from_chain with
  | None => None
  | Some (Err e) => Some (Err (TemplateContextError e), pool)
  | Some (Ok ctx) =>
      let '(selected, pool) := fill_block_template pool ctx in
      (λ r, (r, pool)) <$> build_template_from_context ctx selected wallet_address reserve_size extra_nonce options
  end.

Definition build_template_cached (pool : TransactionPool) (cache : TemplateContextCache) (wallet_address : bytes) (reserve_size : nat)
    (extra_nonce : option bytes) (options : TemplateOptions)
    : option (result (TemplateError F) BlockTemplateResult * TransactionPool * TemplateContextCache) :=
  match cached_context cache with
  | None => None
  | Some (Err e, cache) => Some (Err (TemplateContextError e), pool, cache)
  | Some (Ok ctx, cache) =>
      let '(selected, pool) := fill_block_template pool ctx in
      (λ r, (r, pool, cache)) <$> build_template_from_context ctx selected wallet_address reserve_size extra_nonce options
  end.

End Build.
