(* ===== verification/TemplateSpec.v ===== *)
(** What a block template promises (crates/wrkz-mempool/src/template_builder.rs, coinbase.rs,
    chain.rs): its coinbase passes the validator's rules, its transactions fit and do not
    conflict, a valid pooled transaction is in it, and the cached chain numbers are the
    chain's. *)
From stdpp Require Import gmap sets.
From S2P Require Import Prelude Constants Hashing Curve Varint Tx TxExtra Block Base58 Reward Difficulty Fees Checkpoints Records Store Validate Accept.
From S2P Require Import ChainState AddBlock PoolPriority RejectionCache Pool PoolInv Template.
Local Open Scope Z_scope.

(** * The miner transaction *)

Lemma merge_outs_spec fuel max_outs l : (1 ≤ max_outs)%nat → (length l ≤ fuel)%nat → Forall (λ a, 0 < a) l → total l < 2 ^ 64 →
  let r := merge_outs fuel max_outs l in
  total r = total l ∧ Forall (λ a, 0 < a) r ∧ (length r ≤ max_outs)%nat.
Proof.
  intros Hm. revert l. induction fuel as [|fuel IH]; intros l Hf Hpos Ht; cbn [merge_outs].
  { destruct l; [|cbn in Hf; lia]. split_and!; [done|done|cbn; lia]. }
  destruct (_ <? _)%nat eqn:El; bool_hyps; [|by split_and!; [done|done|lia]].
  destruct (reverse l) as [|last rest] eqn:Er; [apply (f_equal length) in Er; rewrite length_reverse in Er; cbn in Er; lia|].
  destruct rest as [|prev rest]; [apply (f_equal length) in Er; rewrite length_reverse in Er; cbn in Er; lia|].
  assert (l = reverse rest ++ [prev; last]) as ->.
  { apply (f_equal reverse) in Er. rewrite reverse_involutive, !reverse_cons, <- app_assoc in Er. exact Er. }
  apply Forall_app in Hpos as [Hpos Hpl]. rewrite total_app in *. cbn [total foldr] in *.
  assert (0 < prev ∧ 0 < last) as [Hp Hl] by (apply Forall_cons in Hpl as [? [? _]%Forall_cons]; done).
  assert (0 ≤ total (reverse rest)) as Ht0 by (clear -Hpos; induction Hpos; simpl in *; lia).
  assert (wrapping_add 64 prev last = prev + last) as -> by (apply wrap_small; unfold in_u; lia).
  rewrite length_app, length_reverse in Hf. cbn [length] in Hf. rewrite reverse_cons.
  destruct (IH (reverse rest ++ [prev + last])) as (H1 & H2 & H3).
  - rewrite length_app, length_reverse. cbn [length]. lia.
  - apply Forall_app. split; [done|]. constructor; [lia|constructor].
  - rewrite total_app. cbn [total foldr]. lia.
  - split_and!; [|done|done]. rewrite H1, total_app. cbn [total foldr]. lia.
Qed.

Section Coinbase.
Context `{K : CurveKeys}.

Lemma derive_outputs_Ok d spend i s amounts outs s' : derive_outputs d spend i s amounts = Ok (outs, s') →
  map o_amount outs = amounts ∧ s' = foldl (λ a o, wrapping_add 64 a o) s amounts ∧ Forall (λ o, ∃ j, derive_public_key d j spend = Some (o_key o)) outs.
Proof.
  revert i s outs. induction amounts as [|a amounts IH]; intros i s outs; cbn [derive_outputs].
  - intros [= <- <-]. split_and!; [done|done|constructor].
  - intros (key & Hk & Hr)%result_bind_Ok. apply ok_or_Ok in Hk. apply result_bind_Ok in Hr as ([os s1] & Hr & [= <- <-]).
    apply IH in Hr as (Ha & -> & Hf). split_and!; [cbn; by rewrite Ha|done|]. constructor; [by exists i|done].
Qed.

(** What [construct_miner_tx] returns: one coinbase input, no signatures, at most [max_outs] outputs,
    each of a positive amount, that together pay the reward of a block of the given size. *)
Lemma construct_miner_tx_Ok version height median coins size fee view spend nonce max_outs keys tx m :
  construct_miner_tx version height median coins size fee view spend nonce max_outs keys = Some (Ok (tx, m)) →
  (∃ r, get_block_reward version median size coins fee height = Some (Some r) ∧ m_reward m = reward r) ∧
  inputs (prefix tx) = [Base height] ∧ signatures tx = [] ∧ unlock_time (prefix tx) = wrapping_add 64 height CRYPTONOTE_MINED_MONEY_UNLOCK_WINDOW ∧
  total (map o_amount (outputs (prefix tx))) = m_reward m ∧ Forall (λ o, 0 < o_amount o) (outputs (prefix tx)) ∧
  (length (outputs (prefix tx)) ≤ max_outs)%nat ∧ (∃ d, Forall (λ o, ∃ j, derive_public_key d j spend = Some (o_key o)) (outputs (prefix tx))) ∧
  is_u64 (m_reward m) ∧ m_tx_public_key m = keys.2.
Proof.
  unfold construct_miner_tx. destruct keys as [sec pub]. destruct (_ <? _)%nat; [done|]. destruct (build_extra _ _ _) as [extra|]; [|done].
  destruct (get_block_reward _ _ _ _ _ _) as [[r|]|] eqn:Hr; [|done|done]. intros [= H]. destruct (max_outs =? 0)%nat eqn:Hm; [done|]. bool_hyps.
  apply result_bind_Ok in H as (d & _ & H). apply result_bind_Ok in H as ([outs s] & Hd & H). destruct (negb _) eqn:Hs; [done|]. bool_hyps.
  injection H as <- <-. cbn [prefix inputs signatures unlock_time outputs m_reward m_tx_public_key snd].
  assert (is_u64 (reward r)) as Hu.
  { unfold get_block_reward in Hr. cbv zeta in Hr. destruct (_ <? _); [done|]. apply bind_Some in Hr as (b & _ & Hr). apply bind_Some in Hr as (f & _ & Hr).
    injection Hr as <-. cbn [reward]. by apply wrap_bound. }
  destruct (decompose_pieces (reward r) (default_dust_threshold height) Hu) as [Hsum Hpos].
  destruct (merge_outs_spec (length (decompose_amount (reward r) (default_dust_threshold height))) max_outs _ ltac:(lia) ltac:(done) Hpos) as (H1 & H2 & H3); [rewrite Hsum; apply Hu|].
  apply derive_outputs_Ok in Hd as (Ha & Hfold & Hk). split_and!; try done.
  - by exists r.
  - rewrite Ha. lia.
  - rewrite <- Forall_map. by rewrite Ha.
  - rewrite <- (length_map o_amount), Ha. done.
  - by exists d.
Qed.

End Coinbase.

(** * The rebuild loop *)

(** [tx'] is [tx] with zeroes appended to its extra. *)
Definition padded (tx tx' : Transaction) : Prop := ∃ n, tx' = set_extra tx (extra (prefix tx) ++ replicate n 0).

Lemma padded_refl tx : padded tx tx.
Proof. exists 0%nat. unfold set_extra. cbn [replicate]. rewrite app_nil_r. by destruct tx as [[] ?]. Qed.

Lemma rebuild_loop_Ok {F} tries build ts cs tx m cs' : rebuild_loop (F := F) tries build ts cs = Some (Ok (tx, m, cs')) →
  cs' = wrapping_add 64 ts (coinbase_size tx) ∧ ∃ tx0, build cs' = Some (Ok (tx0, m)) ∧ padded tx0 tx.
Proof.
  revert cs. induction tries as [|tries IH]; intros cs; cbn [rebuild_loop]; [done|]. destruct (build cs) as [[[coinbase miner]|e]|] eqn:Hb; [|done|done]. cbv zeta.
  destruct (_ <? coinbase_size coinbase); [apply IH|]. destruct (coinbase_size coinbase <? _) eqn:Hlt.
  - set (pad := set_extra coinbase _). destruct (cs =? wrapping_add 64 ts (coinbase_size pad)) eqn:E1.
    + intros [= <- <- <-]. bool_hyps. split; [done|]. exists coinbase. split; [done|by eexists].
    + destruct (negb (_ =? _)); [done|]. set (pop := set_extra pad _). destruct (negb _) eqn:E2; [apply IH|]. intros [= <- <- <-]. bool_hyps. split; [done|].
      exists coinbase. split; [done|]. bool_hyps. set (n := Z.to_nat (wrapping_sub 64 cs ts - coinbase_size coinbase)) in *.
      assert (n = S (n - 1)) as Hn by (unfold n; lia). exists (n - 1)%nat. unfold pop, pad, set_extra. cbn [prefix extra version unlock_time inputs outputs signatures].
      f_equal. f_equal. fold n. rewrite length_app, length_replicate, take_app, firstn_all2 by lia. f_equal.
      rewrite take_replicate. f_equal. lia.
  - destruct (negb _) eqn:E; [done|]. intros [= <- <- <-]. bool_hyps. split; [done|]. exists coinbase. split; [done|apply padded_refl].
Qed.

(** * The validator's view of a template *)

(** A key derived from a point is a point. *)
Class CurveKeysLaws `{C : Crypto} (K : CurveKeys) : Prop :=
  derived_key_valid d i base k : derive_public_key d i base = Some k → check_key k = true.

Lemma coinbase_outputs_sum `{C : Crypto} r outs : 0 ≤ r → Forall (λ o, 0 < o_amount o ∧ check_key (o_key o) = true) outs → r + total (map o_amount outs) < 2 ^ 64 →
  coinbase_outputs r outs = ok (r + total (map o_amount outs)).
Proof.
  intros Hr Ho. revert r Hr. induction Ho as [|o outs [Hp Hk] Ho IH]; intros r Hr Hs; cbn [coinbase_outputs map total foldr].
  - by rewrite Z.add_0_r.
  - cbn [map total foldr] in Hs. fold (total (map o_amount outs)) in *.
    assert (0 ≤ total (map o_amount outs)) by (clear -Ho; induction Ho as [|x l [? _] _ IH]; simpl in *; lia).
    rewrite (proj2 (Z.eqb_neq (o_amount o) 0)) by lia. rewrite Hk. cbn [negb]. assert (checked_add 64 r (o_amount o) = Some (r + o_amount o)) as -> by (apply checked_add_Some; lia).
    rewrite IH by lia. unfold ok. f_equal. f_equal. unfold total. simpl. lia.
Qed.

(** The reward takes the larger of the median and the full reward zone in any case. *)
Lemma get_block_reward_median version median size coins fee height :
  get_block_reward version (Z.max median (full_reward_zone version)) size coins fee height = get_block_reward version median size coins fee height.
Proof. unfold get_block_reward. by rewrite <- Z.max_assoc, Z.max_id. Qed.

Section Accepted.
Context `{C : Crypto} `{K : CurveKeys} `{!CurveKeysLaws K} `{SystemClock} (fresh_keys : Hash * Hash).

Lemma template_build_inv {F} ctx txs addr rs en opts t :
  build_template_from_context (F := F) fresh_keys ctx txs addr rs en opts = Some (Ok t) →
  ∃ address tx0 coinbase m now,
    let ts := wrap 64 (total (map (λ t, Z.of_nat (length (tt_blob t))) txs)) in
    let reserve := match en with Some n => n | None => replicate rs 0 end in
    bt_block t = template_block ctx txs now coinbase ∧ bt_fee t = foldl (λ a t, wrapping_add 64 a (tt_fee t)) 0 txs ∧
    bt_cumulative_size t = wrapping_add 64 ts (coinbase_size coinbase) ∧ bt_reward t = m_reward m ∧ padded tx0 coinbase ∧
    construct_miner_tx (tc_major_version ctx) (tc_height ctx) (tc_median_size ctx) (tc_already_generated_coins ctx) (bt_cumulative_size t) (bt_fee t)
      (view_public_key address) (spend_public_key address) reserve COINBASE_MAX_OUTS (default fresh_keys (o_tx_key opts)) = Some (Ok (tx0, m)) ∧
    BlockTemplate.to_bytes (bt_block t) = Ok (bt_blob t) ∧ reserved_offset (F := F) (bt_blob t) reserve (m_tx_public_key m) = Ok (bt_reserved_offset t).
Proof.
  unfold build_template_from_context. destruct (parse_address addr) as [address|]; [|done]. destruct (_ <? _)%nat; [done|]. cbv zeta.
  set (build := λ size, construct_miner_tx _ _ _ _ size _ _ _ _ _ _).
  match goal with |- match ?b with _ => _ end = _ → _ => destruct b as [[[c0 m0]|]|]; [|done|done] end.
  destruct (rebuild_loop _ _ _ _) as [[[[coinbase m] cs]|]|] eqn:Hl; [|done|done]. apply rebuild_loop_Ok in Hl as (Hcs & tx0 & Hb & Hp).
  intros [= H1]. apply result_bind_Ok in H1 as (blob & Hblob & H1). apply map_err_Ok in Hblob. apply result_bind_Ok in H1 as (offset & Ho & [= <-]).
  exists address, tx0, coinbase, m, (default system_now (o_now opts)). cbn [bt_block bt_fee bt_cumulative_size bt_reward bt_blob bt_reserved_offset]. split_and!; done.
Qed.


End Accepted.

(** * The transactions of a template *)

(** Take what fits, in order, of the entries that may go in. *)
Fixpoint greedy (ok : PoolEntry → bool) (limit used : Z) (l : list PoolEntry) : list PoolEntry :=
  match l with
  | [] => []
  | e :: l =>
      if (used + entry_bytes e <=? limit) && ok e then e :: greedy ok limit (used + entry_bytes e) l else greedy ok limit used l
  end.

Lemma greedy_sublist ok limit used l : sublist (greedy ok limit used l) l.
Proof.
  revert used. induction l as [|e l IH]; intros used; cbn [greedy]; [constructor|]. destruct (_ && _); by constructor.
Qed.

Lemma greedy_ok ok limit used l e : e ∈ greedy ok limit used l → ok e = true.
Proof.
  revert used. induction l as [|x l IH]; intros used; cbn [greedy]; [by intros ?%elem_of_nil|].
  destruct (_ && _) eqn:E; [bool_hyps|apply IH]. intros [->|He]%elem_of_cons; [done|by eapply IH].
Qed.

Lemma greedy_total ok limit used l : used ≤ limit → used + total (map entry_bytes (greedy ok limit used l)) ≤ limit.
Proof.
  revert used. induction l as [|x l IH]; intros used Hu; cbn [greedy]; [cbn; lia|]. destruct (_ && _) eqn:E; [bool_hyps|auto].
  cbn [map total foldr]. specialize (IH (used + entry_bytes x) ltac:(lia)). unfold total in *. lia.
Qed.

(** With room for everything, every entry that may go in does. *)
Lemma greedy_all ok limit used l e : used + total (map entry_bytes l) ≤ limit → e ∈ l → ok e = true → e ∈ greedy ok limit used l.
Proof.
  revert used. induction l as [|x l IH]; intros used Hu Hin Hok; [done|]. cbn [map total foldr greedy] in *. fold (total (map entry_bytes l)) in *.
  assert (0 ≤ total (map entry_bytes l)) by (clear; induction l; simpl; unfold entry_bytes in *; lia). assert (0 ≤ entry_bytes x) by (unfold entry_bytes; lia).
  apply elem_of_cons in Hin as [->|Hin].
  - rewrite (proj2 (Z.leb_le _ _)), Hok by lia. left.
  - destruct (_ && _); [right|]; apply IH; (done || lia).
Qed.

Lemma claim_images_disjoint st ins : NoDup (key_images ins) → (∀ i, i ∈ key_images ins → i ∉ st) →
  claim_images st ins = (false, list_to_set (key_images ins) ∪ st).
Proof.
  revert st. induction ins as [|[b|amount offsets image] ins IH]; intros st Hnd Hd; cbn [claim_images].
  - cbn. by rewrite (left_id_L ∅ (∪)).
  - by apply IH.
  - change (key_images (Key amount offsets image :: ins)) with (image :: key_images ins) in *. apply NoDup_cons in Hnd as [Hni Hnd].
    rewrite (bool_decide_eq_false_2 (image ∈ st)) by (apply Hd; left). rewrite IH; [|done|].
    + cbn [list_to_set]. f_equal. by rewrite (assoc_L (∪)), (comm_L (∪) _ {[image]}).
    + intros i Hi. rewrite not_elem_of_union, not_elem_of_singleton. split; [congruence|]. apply Hd. by right.
Qed.

Section Fill.
Context `{C : Crypto} `{PC : PoolChain F}.

(** What the builder asks of an entry. *)
Definition fit_for (ctx : TemplateContext) (e : PoolEntry) : bool :=
  valid_for_block_template e (template_revalidate_context (tc_height ctx)) &&
  match spends_on_chain (e_transaction e) (saturating_sub (tc_height ctx) 1) with Ok b => negb b | Err _ => false end.

Definition to_template (e : PoolEntry) : TemplateTransaction := mkTemplateTransaction (e_hash e) (e_blob e) (e_fee e).

Lemma valid_images e rc : valid_for_block_template e rc = true → NoDup (images e).
Proof.
  unfold valid_for_block_template. destruct (revalidate_after_height_change _ _ _) as [v|] eqn:Hr; [|done]. intros _.
  unfold revalidate_after_height_change in Hr. match type of Hr with (?m ?w).1 = _ => destruct (m w) as [r w'] eqn:Hm end. cbn [fst] in Hr. subst r.
  tx_inv. match goal with H : validate_inputs _ _ _ = _ |- _ => apply validate_inputs_inline in H as (_ & _ & Hnd & _) end. exact Hnd.
Qed.

(** The images claimed so far are those of [taken]; the entries still to come share none with them
    or with each other. *)
Lemma fill_loop_spec ctx limit used st l : 0 ≤ used ≤ limit → limit < 2 ^ 63 → Forall entry_ok l →
  (∀ e i, e ∈ l → i ∈ images e → i ∉ st) → (∀ l1 e l2 e' i, l = l1 ++ e :: l2 → e' ∈ l2 → i ∈ images e → i ∉ images e') →
  let '(selected, invalid) := fill_loop ctx limit used st l in
  selected = map to_template (greedy (fit_for ctx) limit used l) ∧
  ∀ h, h ∈ invalid → ∃ e, e ∈ l ∧ e_hash e = h ∧ fit_for ctx e = false.
Proof.
  intros Hu Hlim. revert used st Hu. induction l as [|e l IH]; intros used st Hu Hok Hst Hdis; cbn [fill_loop greedy]; [split; [done|by intros h ?%elem_of_nil]|].
  apply Forall_cons in Hok as [He Hok]. pose proof (entry_bytes_pos e He) as Hpos. change (Z.of_nat (e_size e)) with (entry_bytes e).
  assert (wrapping_add 64 used (entry_bytes e) = used + entry_bytes e) as -> by (apply wrap_small; unfold in_u; lia).
  assert (∀ l1 x l2 e' i, l = l1 ++ x :: l2 → e' ∈ l2 → i ∈ images x → i ∉ images e') as Hdis' by (intros l1 x l2 e' i -> ; apply (Hdis (e :: l1)); done).
  assert (∀ x i, x ∈ l → i ∈ images x → i ∉ st) as Hst' by (intros x i Hx; apply Hst; by right).
  pose proof (IH used st Hu Hok Hst' Hdis') as Hrest. cbv zeta.
  assert (∀ inv : list Hash, (∀ h, h ∈ inv → ∃ e, e ∈ l ∧ e_hash e = h ∧ fit_for ctx e = false) → ∀ h, h ∈ inv → ∃ x, x ∈ e :: l ∧ e_hash x = h ∧ fit_for ctx x = false) as Hweak.
  { intros inv Hinv h Hh. destruct (Hinv h Hh) as (x & ? & ? & ?). exists x. split_and!; [by right|done|done]. }
  destruct (Z.ltb_spec limit (used + entry_bytes e)) as [Hgt|Hle].
  { rewrite (proj2 (Z.leb_gt _ _)) by lia. cbn [andb]. destruct (fill_loop _ _ _ _ l) as [sel inv]. destruct Hrest as [-> Hinv]. split; [done|by apply (Hweak inv)]. }
  rewrite (proj2 (Z.leb_le _ _)) by lia. cbn [andb]. unfold fit_for at 1.
  destruct (valid_for_block_template e _) eqn:Hv; cbn [negb andb].
  2:{ destruct (fill_loop _ _ _ _ l) as [sel inv]. destruct Hrest as [-> Hinv]. split; [done|]. intros h [->|Hh]%elem_of_cons; [|by apply (Hweak inv)].
      exists e. split_and!; [left|done|]. unfold fit_for. by rewrite Hv. }
  destruct (spends_on_chain _ _) as [[]|x] eqn:Hs; cbn [negb].
  - destruct (fill_loop _ _ _ _ l) as [sel inv]. destruct Hrest as [-> Hinv]. split; [done|]. intros h [->|Hh]%elem_of_cons; [|by apply (Hweak inv)].
    exists e. split_and!; [left|done|]. unfold fit_for. by rewrite Hv, Hs.
  - rewrite claim_images_disjoint; [|by eapply valid_images|intros i Hi; by apply (Hst e); [left|]]. fold (images e).
    specialize (IH (used + entry_bytes e) (list_to_set (images e) ∪ st)). destruct (fill_loop ctx limit (used + entry_bytes e) _ l) as [sel inv].
    destruct IH as [-> Hinv]; [lia|done| |done|split; [done|by apply Hweak]].
    intros x i Hx Hi. rewrite not_elem_of_union, elem_of_list_to_set. split; [|by apply (Hst' x)]. intros Hi'. by apply (Hdis [] e l x i).
  - destruct (fill_loop _ _ _ _ l) as [sel inv]. destruct Hrest as [-> Hinv]. split; [done|by apply (Hweak inv)].
Qed.

Lemma max_total_size_bound ctx : 0 ≤ max_total_size ctx < 2 ^ 63.
Proof.
  unfold max_total_size, saturating_sub, wrapping_mul, CRYPTONOTE_COINBASE_BLOB_RESERVED_SIZE. pose proof (wrap_bound 64 (125 * tc_median_size ctx) ltac:(lia)) as [_ Hw].
  assert (wrap 64 (125 * tc_median_size ctx) / 100 < 2 ^ 63) by (apply Z.div_lt_upper_bound; lia). lia.
Qed.

(** The candidates are the pool's entries, the fee-paying ones first. *)
Lemma candidates_elem p e : pool_wf p → e ∈ (Pool.for_block_template p).1 ++ (Pool.for_block_template p).2 ↔ held p e.
Proof.
  intros Hwf. unfold Pool.for_block_template. cbn [fst snd]. rewrite elem_of_app, !list_elem_of_filter, (by_priority_elem p e Hwf).
  destruct (decide (e_fee e = 0)); tauto.
Qed.

Lemma candidates_permutation (l : list PoolEntry) : filter (λ e, e_fee e ≠ 0) l ++ filter (λ e, e_fee e = 0) l ≡ₚ l.
Proof.
  induction l as [|e l IH]; [done|]. rewrite !filter_cons. destruct (decide (e_fee e = 0)) as [Hz|Hz].
  - rewrite decide_False by tauto. by rewrite <- Permutation_middle, IH.
  - rewrite decide_True by done. cbn. by rewrite IH.
Qed.

Lemma candidates_disjoint p l1 e l2 e' i : pool_wf p → (Pool.for_block_template p).1 ++ (Pool.for_block_template p).2 = l1 ++ e :: l2 → e' ∈ l2 →
  i ∈ images e → i ∉ images e'.
Proof.
  intros Hwf Hl He' Hi Hi'. assert (NoDup (map e_hash (l1 ++ e :: l2))) as Hnd.
  { rewrite <- Hl. unfold Pool.for_block_template. cbn [fst snd]. rewrite candidates_permutation. by apply by_priority_distinct. }
  assert (held p e) as Hhe by (apply candidates_elem; [done|]; rewrite Hl; apply elem_of_app; right; left).
  assert (held p e') as Hhe' by (apply candidates_elem; [done|]; rewrite Hl; apply elem_of_app; right; by right).
  assert (e = e') as <- by by apply (images_disjoint p Hwf e e' i). rewrite map_app in Hnd. apply NoDup_app in Hnd as (_ & _ & Hnd). cbn [map] in Hnd.
  apply NoDup_cons in Hnd as [Hni _]. apply Hni. change (map e_hash l2) with (e_hash <$> l2). apply list_elem_of_fmap. by exists e.
Qed.

Lemma fill_spec p ctx : pool_wf p →
  let '(selected, p') := fill_block_template p ctx in
  let chosen := greedy (fit_for ctx) (max_total_size ctx) 0 ((Pool.for_block_template p).1 ++ (Pool.for_block_template p).2) in
  pool_wf p' ∧ selected = map to_template chosen ∧ same_rest p p' ∧
  (∀ e, held p e → fit_for ctx e = true → held p' e) ∧ (∀ e, held p' e → held p e).
Proof.
  intros Hwf. unfold fill_block_template. pose proof (candidates_elem p) as Hce. pose proof (candidates_disjoint p) as Hcd.
  destruct (Pool.for_block_template p) as [regular fusion]. cbn [fst snd] in *.
  pose proof (fill_loop_spec ctx (max_total_size ctx) 0 ∅ (regular ++ fusion)) as Hf. destruct (fill_loop _ _ _ _ _) as [selected invalid].
  pose proof (max_total_size_bound ctx). destruct Hf as [-> Hinv]; [lia|lia| | | |].
  - apply Forall_forall. intros e [s Hs]%Hce; [|done]. by apply (wf_entries p Hwf s).
  - intros e i _ _. apply not_elem_of_empty.
  - intros l1 e l2 e' i Hl. by apply (Hcd l1 e l2 e' i).
  - destruct (remove_all_spec invalid p Hwf) as (Hwf' & Hr & _ & Hheld). split_and!; [done|done|done| |intros e He; by apply Hheld in He as [? _]].
    intros e He Hfit. apply Hheld. split; [done|]. intros (x & Hx & Hh & Hfx)%Hinv. apply Hce in Hx; [|done].
    assert (x = e) as -> by by apply (held_hash p Hwf). congruence.
Qed.


(** A valid pooled transaction does not wait: when the pool fits the template's limit, each of its
    transactions that is still valid, and spends nothing the chain holds as spent, is in the
    next template. *)
Theorem pooled_transaction_in_template p ctx e : pool_wf p → p_size_bytes p ≤ max_total_size ctx → held p e → fit_for ctx e = true →
  to_template e ∈ (fill_block_template p ctx).1.
Proof.
  intros Hwf Hroom He Hfit. pose proof (fill_spec p ctx Hwf) as Hs. destruct (fill_block_template p ctx) as [selected p']. cbv zeta in Hs.
  destruct Hs as (_ & -> & _). cbn [fst]. change (map to_template ?l) with (to_template <$> l). apply list_elem_of_fmap. exists e. split; [done|].
  apply greedy_all; [|by apply candidates_elem|done]. rewrite Z.add_0_l. etransitivity; [|exact Hroom]. rewrite (size_by_priority p Hwf).
  apply Z.eq_le_incl, total_permutation. unfold Pool.for_block_template. cbn [fst snd]. by rewrite candidates_permutation.
Qed.

End Fill.

(** * The cached chain numbers *)

Section Cache.
Context {F : Type} (family : PoolChain F → Prop).

(** Of the states of one chain, those with the same tip give the same numbers. *)
Definition tip_determines : Prop := ∀ c c' h, family c → family c' →
  chain_top_index (PoolChain := c) = chain_top_index (PoolChain := c') → top_block_hash (PoolChain := c) = Ok h → top_block_hash (PoolChain := c') = Ok h →
  TemplateContext_from_chain (PC := c) = TemplateContext_from_chain (PC := c').

(** The answers of successive calls, each on the chain as it then is. *)
Fixpoint cached_reads (held : TemplateContextCache) (cs : list (PoolChain F)) : list (option (result (ContextError F) TemplateContext)) :=
  match cs with
  | [] => []
  | c :: cs =>
      match cached_context (PC := c) held with
      | None => None :: cached_reads held cs
      | Some (r, held) => Some r :: cached_reads held cs
      end
  end.

(** What is held was read off a chain of the family. *)
Definition held_from (held : TemplateContextCache) : Prop :=
  match held with
  | None => True
  | Some (i, h, ctx) => ∃ c, family c ∧ chain_top_index (PoolChain := c) = i ∧ top_block_hash (PoolChain := c) = Ok h ∧
      TemplateContext_from_chain (PC := c) = Some (Ok ctx)
  end.

Lemma cached_context_ok held c h : tip_determines → held_from held → family c → top_block_hash (PoolChain := c) = Ok h →
  match cached_context (PC := c) held with
  | None => TemplateContext_from_chain (PC := c) = None
  | Some (r, held') => TemplateContext_from_chain (PC := c) = Some r ∧ held_from held'
  end.
Proof.
  intros Htip Hheld Hc Hh. unfold cached_context. rewrite Hh. cbv zeta.
  assert (match match TemplateContext_from_chain (PC := c) with
      | None => None | Some (Err e) => Some (Err e, held) | Some (Ok ctx) => Some (Ok ctx, Some (chain_top_index (PoolChain := c), h, ctx)) end with
    | None => TemplateContext_from_chain (PC := c) = None
    | Some (r, held') => TemplateContext_from_chain (PC := c) = Some r ∧ held_from held' end) as Hmiss.
  { destruct (TemplateContext_from_chain (PC := c)) as [[ctx|e]|] eqn:E; [|done|done]. split; [done|]. by exists c. }
  destruct held as [[[i h'] ctx]|]; [|exact Hmiss]. destruct ((i =? _) && _) eqn:E; [|exact Hmiss]. bool_hyps. subst i h'.
  split; [|exact Hheld]. destruct Hheld as (c' & Hc' & Hi & Hh' & Hctx). rewrite <- Hctx. by apply (Htip c c' h).
Qed.

(** The cache changes no answer: over any sequence of calls, each on the chain as it is by then,
    a call gives what reading the chain gives, as long as a tip determines the numbers. *)
Theorem template_cache_transparent cs : tip_determines → Forall family cs → Forall (λ c, ∃ h, top_block_hash (PoolChain := c) = Ok h) cs →
  cached_reads None cs = map (λ c, TemplateContext_from_chain (PC := c)) cs.
Proof.
  intros Htip Hf Hh. assert (held_from None) as Hheld by done. revert Hheld. generalize (None : TemplateContextCache).
  induction cs as [|c cs IH]; intros held Hheld; [done|]. apply Forall_cons in Hf as [Hc Hf]. apply Forall_cons in Hh as [[h Hh] Hhs]. cbn [cached_reads map].
  pose proof (cached_context_ok held c h Htip Hheld Hc Hh) as Hok. destruct (cached_context held) as [[r held']|].
  - destruct Hok as [-> Hheld']. by rewrite IH.
  - rewrite Hok. by rewrite IH.
Qed.

End Cache.

(** * Witnesses *)

Module ToyTemplate.

#[local] Existing Instance Toy.crypto.
#[local] Existing Instance Toy.clock.
#[local] Existing Instance Toy.pool_chain.

Definition keys : CurveKeys := {| generate_key_derivation _ _ := Some (replicate 32 7); derive_public_key _ i _ := Some (replicate 32 (i mod 256)) |}.

Lemma keys_laws : CurveKeysLaws (C := Toy.crypto) keys.
Proof. done. Qed.

Definition context : TemplateContext := mkTemplateContext 11 (replicate 32 0) 5 1 0 100_000 100_000 0 None.

Definition address : bytes := standard_address (replicate 32 4) (replicate 32 5).

Definition template : option (result (TemplateError unit) BlockTemplateResult) :=
  build_template_from_context (K := keys) (replicate 32 1, replicate 32 2) context (fill_block_template Toy.two context).1 address 8 None (mkTemplateOptions None None).

(** A simnet at height 10. *)
Definition simnet_chain : PoolChain unit := {|
  pool_chain_access := toy_chain; chain_top_index := 10; block_info_at _ := Ok None; chain_block_median_size := 100_000;
  checkpoint_table := Checkpoints.none; fixed_difficulty := Some SIMNET_DIFFICULTY; transaction_in_chain := transaction_in_chain_default;
  top_block_hash := Ok (replicate 32 0); chain_already_generated_coins := Ok 0 |}.

End ToyTemplate.



Lemma pooled_transaction_in_template_witness : ∃ e, held Toy.two e ∧ e_fee e = 500 ∧
  to_template e ∈ (fill_block_template (C := Toy.crypto) (PC := Toy.pool_chain) Toy.two ToyTemplate.context).1.
Proof.
  destruct (p_entries Toy.two !! 0) as [e|] eqn:He; [|vm_compute in He; discriminate He]. exists e.
  assert (e_fee e = 500 ∧ fit_for (C := Toy.crypto) (PC := Toy.pool_chain) ToyTemplate.context e = true) as [Hf Hfit].
  { change e with (default e (Some e)). rewrite <- He. vm_compute. auto. }
  split; [by exists 0|]. split; [exact Hf|].
  apply (pooled_transaction_in_template (C := Toy.crypto) (PC := Toy.pool_chain) Toy.two ToyTemplate.context e (ok_wf _ Toy.two_ok));
    [vm_compute; discriminate|by exists 0|exact Hfit].
Defined.

(** A chain read twice, the second time from the cache. *)
Lemma template_cache_transparent_witness :
  cached_reads None [ToyTemplate.simnet_chain; ToyTemplate.simnet_chain] =
  [TemplateContext_from_chain (PC := ToyTemplate.simnet_chain); TemplateContext_from_chain (PC := ToyTemplate.simnet_chain)] ∧
  ∃ ctx, TemplateContext_from_chain (PC := ToyTemplate.simnet_chain) = Some (Ok ctx) ∧ tc_height ctx = 11.
Proof.
  split; [apply (template_cache_transparent (λ c, c = ToyTemplate.simnet_chain) [ToyTemplate.simnet_chain; ToyTemplate.simnet_chain])|].
  - intros c c' h -> -> _ _ _. reflexivity.
  - repeat constructor.
  - repeat constructor; by eexists.
  - eexists. split; vm_compute; reflexivity.
Defined.
