(* ===== verification/PoolUpdate.v ===== *)
(** The pool beside the chain (crates/wrkz-mempool/src/pool.rs [add_block_with_pool],
    [PoolRelay]; template_builder.rs [submit_block]): adding a block, sweeping the pool with
    it, and putting back what left the main chain. The main result is that the pool follows
    the chain: a pool none of whose transactions is spent on the chain stays so, whether the
    block extends the chain, starts a branch or makes the chain switch. *)
From stdpp Require Import gmap sets strings.
From S2P Require Import Prelude Constants Hashing Varint Tx Block Checkpoints Records Store Validate Accept.
From S2P Require Import ChainState ChainRecords AddBlock Acceptance PoolPriority RejectionCache Pool PoolInv.
Local Open Scope Z_scope.

Record ChainUpdate := mkChainUpdate {
  cu_outcome : AddOutcome;
  cu_removed : list Hash;
  cu_restored : list Hash;
  cu_lowest_unwound : option Z
}.

(** The key images of the block's transactions, those that parse. *)
Definition spent_by (tx_blobs : list bytes) : gset Hash :=
  list_to_set (concat (map (λ blob, match Transaction.from_bytes blob with Ok tx => key_images (inputs (prefix tx)) | Err _ => [] end) tx_blobs)).

Inductive SubmitStatus : Type :=
| SubmitAdded (o : AddOutcome)
| SubmitAlreadyExists
| SubmitDeserializationFailed
| TransactionAbsentInPool (h : Hash)
| NotAccepted (r : ChainRule).

Module SubmitStatus.
Definition is_ok (s : SubmitStatus) : bool :=
  match s with SubmitAdded _ | SubmitAlreadyExists => true | _ => false end.
Definition should_relay (s : SubmitStatus) : bool :=
  match s with
  | SubmitAdded o => match ao_status o with Main | AlternativeAndSwitched => true | Alternative => false end
  | _ => false
  end.
End SubmitStatus.

Section Update.
Context {S : Type} `{KvStore S} `{C : Crypto} `{K : SystemClock} `{Sch : !Scheduler}.
Variable SCRATCHPAD : list (list Z).
Implicit Types (s : ChainState S) (p : TransactionPool).

(** The pool's part once the chain has taken the block; [s] is the chain after it. *)
Definition follow_block s p (block : BlockTemplate) (tx_blobs : list bytes) (report : AddReport) : ChainUpdate * TransactionPool :=
  let PC := chain_state_pool_chain s in
  let o := outcome report in
  let lowest_unwound := ub_index <$> last (report_unwound report) in
  let sweep p := Pool.on_block_added (PC := PC) p (transaction_hashes block) (spent_by tx_blobs) in
  match ao_status o with
  | Alternative => (mkChainUpdate o [] [] lowest_unwound, p)
  | Main =>
      let '(removed, p) := sweep p in
      (mkChainUpdate o removed [] lowest_unwound, p)
  | AlternativeAndSwitched =>
      let '(spent, p) := Pool.remove_spent_in_chain (PC := PC) p in
      let unwound := concat (map ub_transactions (report_unwound report)) in
      let '(restored, p) := Pool.copy_transactions_to_pool (PC := PC) p unwound in
      let '(removed, p) := sweep p in
      (mkChainUpdate o (spent ++ removed) restored lowest_unwound, p)
  end.

Definition add_block_with_pool p s (block_blob : bytes) (tx_blobs : list bytes) : option (result ChainError ChainUpdate * TransactionPool * ChainState S) :=
  match BlockTemplate.from_bytes block_blob with
  | Err _ => Some (Err (RuleError (DeserializationFailed "block blob")), p, s)
  | Ok block =>
      match add_block_detailed SCRATCHPAD block_blob tx_blobs s with
      | None => None
      | Some (Err e, s) => Some (Err e, p, s)
      | Some (Ok report, s) =>
          let '(update, p) := follow_block s p block tx_blobs report in
          Some (Ok update, p, s)
      end
  end.

(** The blobs of the named transactions, or the first one the pool does not hold. *)
Fixpoint gather_blobs p (hashes : list Hash) : result Hash (list bytes) :=
  match hashes with
  | [] => Ok []
  | hash :: hashes =>
      match Pool.get p hash with
      | Some entry => rest ← gather_blobs p hashes; Ok (e_blob entry :: rest)
      | None => Err hash
      end
  end.

Definition submit_error (e : ChainError) : SubmitStatus :=
  match ChainError_rule e with
  | Some AlreadyExists => SubmitAlreadyExists
  | Some (DeserializationFailed _) => SubmitDeserializationFailed
  | Some rule => NotAccepted rule
  | None => NotAccepted (DeserializationFailed "chain state fault")
  end.

Definition submit_block_update p s (block_blob : bytes) : option (SubmitStatus * option ChainUpdate * TransactionPool * ChainState S) :=
  match BlockTemplate.from_bytes block_blob with
  | Err _ => Some (SubmitDeserializationFailed, None, p, s)
  | Ok block =>
      match gather_blobs p (transaction_hashes block) with
      | Err hash => Some (TransactionAbsentInPool hash, None, p, s)
      | Ok tx_blobs =>
          match add_block_with_pool p s block_blob tx_blobs with
          | None => None
          | Some (Ok update, p, s) => Some (SubmitAdded (cu_outcome update), Some update, p, s)
          | Some (Err e, p, s) => Some (submit_error e, None, p, s)
          end
      end
  end.

Definition submit_block p s (block_blob : bytes) : option (SubmitStatus * TransactionPool * ChainState S) :=
  match submit_block_update p s block_blob with
  | None => None
  | Some (status, _, p, s) => Some (status, p, s)
  end.
End Update.

(** ** The pool as the peers see it *)

Record PoolRelay := mkPoolRelay {
  add_from_network : bytes → PoolStatus * TransactionPool;
  relay_transactions : list Hash → list bytes;
  relay_has_transaction : Hash → bool;
  pool_transaction_hashes : list Hash
}.

Definition PoolWithChain `{C : Crypto} `{PC : PoolChain F} `{K : SystemClock} (p : TransactionPool) : PoolRelay := {|
  add_from_network := λ blob, Pool.add p blob Network;
  relay_transactions := Pool.transactions_for_relay p;
  relay_has_transaction := Pool.contains p;
  pool_transaction_hashes := Pool.hashes p |}.

(** * What the pool holds after an operation *)

Section Held.
Context `{C : Crypto} `{PC : PoolChain F} `{L : !ChainAccessLaws (pool_chain_access (F := F))} `{K : SystemClock}.
Implicit Types p : TransactionPool.

Lemma evict_held p e : pool_wf p → config_ok (p_cfg p) → held (Pool.evict_to_fit p).2 e → held p e.
Proof.
  intros Hwf Hcfg He. pose proof (evict_to_fit_spec p Hwf Hcfg) as Hs. destruct (Pool.evict_to_fit p) as [evicted p'].
  destruct Hs as (Hwf' & _ & _ & dropped & Hd & _). apply by_priority_elem; [done|]. rewrite Hd. apply elem_of_app. left. by apply by_priority_elem.
Qed.

Lemma validate_and_insert_held n p x now e : pool_inv n p → n < u64_max → entry_ok x → Pool.contains p (e_hash x) = false →
  Pool.held_image (p_key_images p) (inputs (prefix (e_transaction x))) = None →
  held (Pool.validate_and_insert p x now).2 e →
  held p e ∨ ∃ v, e = Pool.with_fusion x (v_is_fusion v) ∧ acceptable ∅ (e_transaction x) (e_blob x) Pool.admission_context v.
Proof.
  intros Hp Hn Hx Hnew Hfree. pose proof (λ f, insert_candidate_wf n p x f Hp Hn Hx Hnew Hfree) as Hq. destruct Hp as ([Hwf Hcfg Hb Hc] & _).
  unfold Pool.validate_and_insert. cbv zeta. destruct (validate_transaction_early_exit _ _ _ _) as [[v|[r|f]] w] eqn:Ev; cbn [snd]; [| |by left].
  - apply early_exit_iff in Ev as [Ha ->]. cbn [spent_key_images]. rewrite (right_id_L ∅ (∪)). fold (images x).
    pose proof (evict_held _ e (Hq (v_is_fusion v)) Hcfg) as Hev. destruct (Pool.evict_to_fit _) as [evicted p']. cbn [snd] in Hev |- *.
    intros [->|He]%Hev%(held_insert p (Pool.with_fusion x (v_is_fusion v)) Hwf); [|by left]. right. by exists v.
  - unfold Pool.remember_rejection. cbv zeta. intros He. left. by destruct (RejectionCategory_of_rule r).
Qed.

(** A transaction in the pool after an admission was there before, or passed the validator. *)
Lemma add_parsed_held n p tx blob h source e : pool_inv n p → n < u64_max → blob_ok blob →
  held (Pool.add_parsed p tx blob h source).2 e →
  held p e ∨ ∃ v, e_transaction e = tx ∧ e_hash e = h ∧ acceptable ∅ tx blob Pool.admission_context v.
Proof.
  intros Hp Hn Hb. unfold Pool.add_parsed. destruct (Pool.contains p h) eqn:Hnew; [by left|]. cbv zeta.
  pose proof (lookup_inv n p h (length blob) Hp) as Hp'. destruct (RejectionCache.lookup _ _ _ _ _ _) as [cached c]. cbn [snd] in Hp'.
  destruct cached as [r|]; [by left|]. destruct (match transaction_in_chain h with Ok b => b | Err _ => false end); [by left|].
  destruct (bool_decide _); [by left|]. destruct (_ && _); [by left|]. destruct (Pool.held_image _ _) as [[image holder]|] eqn:Hfree; [by left|].
  destruct (_ && _); [by left|]. intros [He|(v & -> & Ha)]%(validate_and_insert_held n); [by left| |done|done|by apply candidate_ok|exact Hnew|exact Hfree].
  right. by exists v.
Qed.

Lemma copy_loop_held n blobs p e : pool_inv n p → n + Z.of_nat (length blobs) ≤ u64_max → Forall (λ b, Z.of_nat (length b) < 2 ^ 63) blobs →
  held (Pool.copy_loop blobs p).2 e →
  held p e ∨ ∃ blob v, blob ∈ blobs ∧ Transaction.from_bytes blob = Ok (e_transaction e) ∧ Transaction.hash (e_transaction e) = Ok (e_hash e) ∧
    acceptable ∅ (e_transaction e) blob Pool.admission_context v.
Proof.
  revert n p. induction blobs as [|blob blobs IH]; intros n p Hp Hn Hl; cbn [Pool.copy_loop length]; [by left|].
  apply Forall_cons in Hl as [Hb Hl]. cbn [length] in Hn.
  assert (∀ m q, m ≤ n + 1 → pool_inv m q → held (Pool.copy_loop blobs q).2 e → held q e ∨ ∃ b v, b ∈ blob :: blobs ∧
    Transaction.from_bytes b = Ok (e_transaction e) ∧ Transaction.hash (e_transaction e) = Ok (e_hash e) ∧ acceptable ∅ (e_transaction e) b Pool.admission_context v) as IH'.
  { intros m q Hm Hq He. eapply IH in He as [?|(b & v & Hin & ?)]; [by left|right; exists b, v; split; [by right|done]|exact Hq|lia|done]. }
  destruct (Transaction.from_bytes blob) as [tx|] eqn:Ht; [|apply (IH' n); [lia|done]].
  destruct (Transaction.hash tx) as [h|] eqn:Hh; [|apply (IH' n); [lia|done]]. cbv zeta.
  assert (pool_inv n (Pool.forget_deleted p h).2) as Hf by by apply set_recently_deleted_inv.
  assert (blob_ok blob) as Hbo by by eapply from_bytes_blob_ok.
  pose proof (add_parsed_inv n _ tx blob h AlternativeBlock Hf ltac:(lia) Hbo) as Ha.
  pose proof (λ x, add_parsed_held n _ tx blob h AlternativeBlock x Hf ltac:(lia) Hbo) as Hx.
  destruct (Pool.add_parsed _ _ _ _ _) as [status q]. cbn [snd] in Ha, Hx. pose proof (IH' (n + 1) q ltac:(lia) Ha) as Hq.
  destruct (Pool.copy_loop blobs q) as [restored q']. cbn [snd] in Hq |- *. intros [[He|(v & <- & <- & Hv)]%Hx|Hr]%Hq; [by left| |by right].
  right. exists blob, v. split; [left|done].
Qed.

Lemma select_elem p f h : pool_wf p → h ∈ Pool.select p f ↔ ∃ e, held p e ∧ e_hash e = h ∧ f e = true.
Proof.
  intros Hwf. unfold Pool.select. rewrite list_elem_of_filter. split.
  - intros [Hf _]. destruct (Pool.get p h) as [e|] eqn:Hg; [|done]. apply get_spec in Hg as [? ?]; [|done]. by exists e.
  - intros (e & He & <- & Hf). rewrite (proj2 (get_spec p Hwf (e_hash e) e)) by done. split; [done|].
    apply list_elem_of_fmap. exists e. split; [done|]. by apply by_priority_elem.
Qed.

(** The sweep after a block keeps the entries it does not pick, and reports the others. *)
Lemma on_block_added_held p hs spent : pool_wf p →
  let '(removed, p') := Pool.on_block_added p hs spent in
  pool_wf p' ∧ (∀ e, held p' e ↔ held p e ∧ Pool.swept hs spent e = false) ∧
  ∀ h, h ∈ removed ↔ ∃ e, held p e ∧ e_hash e = h ∧ Pool.swept hs spent e = true.
Proof.
  intros Hwf. unfold Pool.on_block_added. cbv zeta. set (f := Pool.swept hs spent).
  destruct (remove_all_spec (Pool.select p f) p Hwf) as (Hwf' & _ & _ & Hh). split_and!; [done| |intros h; by apply select_elem].
  intros e. rewrite Hh, select_elem by done. split; intros [He Hf]; (split; [done|]).
  - destruct (f e) eqn:E; [|done]. destruct Hf. by exists e.
  - intros (e' & He' & Heq & Hf'). rewrite (held_hash p Hwf e' e He' He Heq) in Hf'. congruence.
Qed.

Lemma remove_spent_held p : pool_wf p →
  let '(removed, p') := Pool.remove_spent_in_chain p in
  pool_wf p' ∧ ∀ e, held p' e ↔ held p e ∧ spends_on_chain (e_transaction e) chain_top_index ≠ Ok true.
Proof.
  intros Hwf. unfold Pool.remove_spent_in_chain. cbv zeta. set (q := set_rejected _ _). assert (pool_wf q) as Hq by by apply (same_indexes_wf p).
  set (hs := map e_hash _). destruct (remove_all_spec hs q Hq) as (Hwf' & _ & _ & Hh). split; [done|]. intros e. rewrite Hh.
  change (held q e) with (held p e). split; intros [He Hf]; (split; [done|]).
  - intros Hs. apply Hf. apply list_elem_of_fmap. exists e. split; [done|]. apply list_elem_of_filter. rewrite Hs. split; [done|]. by apply by_priority_elem.
  - intros (e' & Heq & [Hs He']%list_elem_of_filter)%list_elem_of_fmap. apply by_priority_elem in He'; [|done].
    rewrite (held_hash p Hwf e e' He He' Heq) in Hf. apply Hf. destruct (spends_on_chain _ _); [by rewrite Hs|done].
Qed.

(** ** Spent on the chain *)

(** No transaction of the pool spends an image the chain holds as spent. *)
Definition unspent p : Prop := ∀ e i, held p e → i ∈ images e → key_image_spent i chain_top_index ≠ Ok true.

(** Every record of a key image can be read. *)
Definition readable : Prop := ∀ i, ∃ b, key_image_spent i chain_top_index = Ok b.

Lemma spends_on_chain_images tx i : readable → i ∈ key_images (inputs (prefix tx)) → key_image_spent i chain_top_index = Ok true →
  spends_on_chain tx chain_top_index = Ok true.
Proof.
  intros Hr Hi Hs. unfold spends_on_chain. induction (inputs (prefix tx)) as [|[b|amount offsets image] ins IH]; [by apply elem_of_nil in Hi|exact (IH Hi)|].
  change (key_images (Key amount offsets image :: ins)) with (image :: key_images ins) in Hi. cbn [spent_in_loop].
  destruct (Hr image) as [b Hb]. rewrite Hb. cbn [mbind result_bind]. destruct b; [done|].
  apply elem_of_cons in Hi as [->|Hi]; [congruence|auto].
Qed.

Lemma acceptable_unspent tx blob v i : in_zone Pool.admission_context = false → acceptable ∅ tx blob Pool.admission_context v →
  i ∈ key_images (inputs (prefix tx)) → key_image_spent i chain_top_index ≠ Ok true.
Proof.
  intros Hz Ha Hi. enough (key_image_spent i (block_height Pool.admission_context) = Ok false) as E by (cbn in E; congruence).
  apply (accepted_not_spent _ [(tx, blob)] [v]); [by apply Forall2_cons_2, Forall2_nil_2|done|]. unfold block_images. cbn [map concat]. by rewrite app_nil_r.
Qed.
End Held.

(** * The pool follows the chain *)

Section Follow.
Context {S : Type} `{ReliableStore S} `{C : Crypto} `{K : SystemClock} `{Sch : !Scheduler}.
Variable SCRATCHPAD : list (list Z).
Implicit Types (s : ChainState S) (p : TransactionPool).

(** No transaction of the pool spends a key image that has a record on the chain. *)
Definition clear s p : Prop := ∀ e i, held p e → i ∈ images e → records s !! keys.key_image i = None.

Lemma image_spent_recorded s i : images_recorded s →
  chain_key_image_spent s i (default 0 (tip s)) = Ok (bool_decide (is_Some (records s !! keys.key_image i))).
Proof.
  intros Hi. unfold chain_key_image_spent, key_image_spent_at, read_le32. rewrite store_get_records. cbn [mbind result_bind].
  destruct (records s !! keys.key_image i) as [v|] eqn:Hv; [|done]. destruct (Hi i v Hv) as (b & t & -> & Hb & -> & Hle).
  unfold le32_record. rewrite length_le32. cbn [Nat.eqb mbind result_bind default]. rewrite from_le32 by done.
  rewrite bool_decide_true by done. f_equal. apply Z.leb_le. done.
Qed.

Lemma unspent_clear s p : images_recorded s → unspent (PC := chain_state_pool_chain s) p → clear s p.
Proof.
  intros Hi Hu e i He Hin. pose proof (Hu e i He Hin) as Hn. cbn in Hn. rewrite image_spent_recorded in Hn by done.
  destruct (records s !! keys.key_image i); [|done]. by rewrite bool_decide_true in Hn.
Qed.

Lemma recorded_readable s : images_recorded s → readable (PC := chain_state_pool_chain s).
Proof. intros Hi i. eexists. cbn. by apply image_spent_recorded. Qed.

(** ** What the chain did *)

Lemma parse_images blobs txs : parse_blobs blobs = Some (Ok txs) → list_to_set (block_images (zip txs blobs)) = spent_by blobs.
Proof.
  intros Hp. unfold spent_by. f_equal. revert txs Hp. induction blobs as [|blob blobs IH]; intros txs; cbn [parse_blobs]; [by intros [= <-]|].
  unfold or_rule, of_result, and_then_check. destruct (Transaction.from_bytes blob) as [tx|e] eqn:Ht; [|done]. cbn [map_err].
  destruct (parse_blobs blobs) as [[txs'|e]|]; [|done|done]. intros [= <-]. cbn [map concat]. rewrite Ht, <- (IH txs' eq_refl). done.
Qed.

(** A block on the tip records the images its blobs spend. *)
Lemma add_to_main_images block blob blobs hash prev s o s' i :
  add_to_main SCRATCHPAD block blob blobs hash prev s = Some (Ok o, s') →
  records s' !! keys.key_image i = None ↔ (i ∉ spent_by blobs) ∧ records s !! keys.key_image i = None.
Proof.
  intros (txs & info & d & spent & Hc & Hp & _)%add_to_main_Ok. destruct (main_checks_images _ _ _ _ _ _ _ _ _ _ Hc) as (Hpt & _ & -> & _).
  unfold parse_transactions in Hpt. destruct (negb _); [done|]. apply parse_images in Hpt. rewrite Hpt in Hp. rewrite (push_block_image _ _ _ _ _ _ _ _ _ i Hp).
  destruct (decide (i ∈ spent_by blobs)); [split; [done|tauto]|tauto].
Qed.

(** A block off the tip is reported as a switch or leaves the records alone. *)
Lemma add_to_alternative_records block blob blobs hash prev parent s o s' :
  add_to_alternative SCRATCHPAD block blob blobs hash prev parent s = Some (Ok o, s') →
  ao_status o = AlternativeAndSwitched ∨ ao_status o = Alternative ∧ records s' = records s.
Proof.
  unfold add_to_alternative, act_bind at 1, act_read at 1. destruct (alternative_checks _ _ _ _ _ _ _) as [[[info d]|e]|]; [|done|done].
  unfold act_bind at 1, act_modify at 1, act_bind at 1, act_read at 1, ok. destruct (outweighs_main _ _).
  - unfold act_bind. destruct (switch_to _ _ _) as [[[[]|e] s1]|]; [|done|done]. cbn. intros [= <- _]. by left.
  - cbn. intros [= <- <-]. by right.
Qed.

Lemma add_block_inner_images blob blobs s o s' : add_block_inner SCRATCHPAD blob blobs s = Some (Ok o, s') →
  match ao_status o with
  | Main => ∀ i, records s' !! keys.key_image i = None ↔ (i ∉ spent_by blobs) ∧ records s !! keys.key_image i = None
  | Alternative => records s' = records s
  | AlternativeAndSwitched => True
  end.
Proof.
  unfold add_block_inner, act_bind at 1 2 3 4 5, act_read at 1 2 3 4 5. destruct (or_rule _ (BlockTemplate.from_bytes _)) as [[block|e]|]; [|done|done].
  destruct (or_rule _ _) as [[hash|e]|]; [|done|done]. destruct (of_result _) as [[known|e]|]; [|done|done].
  destruct (ensure_rule _ _) as [[[]|e]|]; [|done|done]. destruct (locate_parent _ _) as [[[prev|prev|h]|e]|]; [| | |done|done].
  - unfold act_bind. destruct (add_to_main _ _ _ _ _ _ _) as [[[o1|e] s1]|] eqn:Ha; [|done|done]. cbn. intros [= <- <-].
    pose proof (add_to_main_Ok _ _ _ _ _ _ _ _ _ Ha) as (txs & info & d & spent & _ & _ & ->). cbn. intros i.
    exact (add_to_main_images _ _ _ _ _ _ _ _ i Ha).
  - by intros [->|[-> ->]]%add_to_alternative_records.
  - destruct (alt_blocks s !! h) as [alt|]; [|done]. by intros [->|[-> ->]]%add_to_alternative_records.
Qed.

Lemma add_block_detailed_images blob blobs s r s' : add_block_detailed SCRATCHPAD blob blobs s = Some (Ok r, s') →
  match ao_status (outcome r) with
  | Main => ∀ i, records s' !! keys.key_image i = None ↔ (i ∉ spent_by blobs) ∧ records s !! keys.key_image i = None
  | Alternative => records s' = records s
  | AlternativeAndSwitched => True
  end.
Proof.
  unfold add_block_detailed, act_bind, act_modify, act_read, act_ret, ok.
  destruct (add_block_inner _ _ _ _) as [[[o|e] s1]|] eqn:Hi; [|done|done]. intros [= <- <-]. exact (add_block_inner_images _ _ _ _ _ Hi).
Qed.

(** ** What the pool does *)

(** What left the main chain fits the pool's counters, and the records of the new chain are in
    order, outside the checkpoint zone. *)
Definition switch_fits (n : Z) s' (report : AddReport) : Prop :=
  let unwound := concat (map ub_transactions (report_unwound report)) in
  n + Z.of_nat (length unwound) ≤ u64_max ∧ Forall (λ b, Z.of_nat (length b) < 2 ^ 63) unwound ∧
  images_recorded s' ∧ in_zone (Pool.admission_context (PC := chain_state_pool_chain s')) = false.

Lemma swept_false hs spent e s : Pool.swept (PC := chain_state_pool_chain s) hs spent e = false →
  (e_hash e ∉ hs) ∧ ∀ i, i ∈ images e → i ∉ spent.
Proof.
  unfold Pool.swept. cbv zeta. rewrite !orb_false_iff. intros ((([Hh _] & _) & _) & Hd). split; [by apply bool_decide_eq_false in Hh|].
  intros i (x & Hx & Hk)%list_elem_of_omap Hs. destruct x as [b|amount offsets image]; [done|]. injection Hk as ->.
  apply not_true_iff_false in Hd. apply Hd, existsb_exists. exists (Key amount offsets i). rewrite <- list_elem_of_In. split; [done|by apply bool_decide_true].
Qed.

(** After a switch, before the last sweep: no transaction of the pool is spent on the new chain. *)
Lemma switched_clear n s' p report : pool_inv n p → switch_fits n s' report →
  let unwound := concat (map ub_transactions (report_unwound report)) in
  let p1 := (Pool.remove_spent_in_chain (PC := chain_state_pool_chain s') p).2 in
  let p2 := (Pool.copy_transactions_to_pool (PC := chain_state_pool_chain s') p1 unwound).2 in
  pool_inv (n + Z.of_nat (length unwound)) p2 ∧ clear s' p2.
Proof.
  intros Hp (Hn & Hl & Hi & Hz) unwound p1 p2. pose proof (recorded_readable s' Hi) as Hr.
  assert (pool_inv n p1) as Hp1 by apply remove_all_inv, forget_ring_dependent_inv, Hp.
  set (q := set_rejected p1 (RejectionCache.forget_ring_dependent (p_rejected p1))). assert (pool_inv n q) as Hq by by apply forget_ring_dependent_inv.
  split; [by apply copy_loop_inv|]. apply unspent_clear; [done|]. intros e i He Hin.
  apply (copy_loop_held (PC := chain_state_pool_chain s') (L := chain_access_laws s') n) in He as [He|(blob & v & _ & _ & _ & Ha)]; [|by eapply acceptable_unspent|done..].
  intros Hs. pose proof (remove_spent_held (PC := chain_state_pool_chain s') p (ok_wf p (proj1 Hp))) as Hh.
  subst q p1. destruct (Pool.remove_spent_in_chain p) as [removed p1]. destruct Hh as [_ Hh]. apply Hh in He as [_ He].
  by apply He, (spends_on_chain_images (PC := chain_state_pool_chain s') _ i).
Qed.

(** The sweep of a block over a pool whose unrelated transactions are clear. *)
Lemma sweep_follows n p s' hs spent :  pool_inv n p →
  (∀ e i, held p e → i ∈ images e → i ∉ spent → records s' !! keys.key_image i = None) →
  let '(removed, p') := Pool.on_block_added (PC := chain_state_pool_chain s') p hs spent in
  pool_ok p' ∧ clear s' p' ∧ ∀ e, held p' e → (e_hash e ∉ hs) ∧ ∀ i, i ∈ images e → i ∉ spent.
Proof.
  intros Hp Hc. pose proof (on_block_added_held (PC := chain_state_pool_chain s') p hs spent (ok_wf p (proj1 Hp))) as Hh.
  pose proof (remove_all_inv n p (Pool.select p (Pool.swept (PC := chain_state_pool_chain s') hs spent)) Hp) as [Hi _]. unfold Pool.on_block_added in *.
  cbv zeta in *. destruct Hh as (_ & Hh & _). assert (∀ e, held (Pool.remove_all p (Pool.select p (Pool.swept (PC := chain_state_pool_chain s') hs spent))) e →
    held p e ∧ (e_hash e ∉ hs) ∧ ∀ i, i ∈ images e → i ∉ spent) as Hk by (intros e [He Hf%swept_false]%Hh; done).
  split_and!; [done| |intros e He; by apply Hk]. intros e i (He & _ & Hn)%Hk Hin. eauto.
Qed.


(** Between two blocks the admissions keep the pool clear as well. *)
Theorem admission_keeps_clear n s p blob source : pool_inv n p → n < u64_max → Z.of_nat (length blob) < 2 ^ 63 →
  images_recorded s → in_zone (Pool.admission_context (PC := chain_state_pool_chain s)) = false → clear s p →
  clear s (Pool.add (PC := chain_state_pool_chain s) p blob source).2.
Proof.
  intros Hp Hn Hl Hi Hz Hc. unfold Pool.add. destruct (Transaction.from_bytes blob) as [tx|] eqn:Ht; [|done]. destruct (Transaction.hash tx) as [h|]; [|done].
  intros e i He Hin. apply (add_parsed_held (PC := chain_state_pool_chain s) (L := chain_access_laws s) n) in He as [He|(v & <- & _ & Ha)];
    [by eapply Hc| |done|done|by eapply from_bytes_blob_ok].
  pose proof (acceptable_unspent (PC := chain_state_pool_chain s) _ _ _ _ Hz Ha Hin) as Hs. cbn in Hs. rewrite image_spent_recorded in Hs by done.
  destruct (records s !! keys.key_image i); [by rewrite bool_decide_true in Hs|done].
Qed.
End Follow.

(** * A block submitted by a miner *)

Section Submit.
Context {S : Type} `{KvStore S} `{C : Crypto} `{K : SystemClock} `{Sch : !Scheduler}.
Variable SCRATCHPAD : list (list Z).
Implicit Types (s : ChainState S) (p : TransactionPool).

(** The blobs the pool holds for the hashes, in their order. *)
Definition holds p (hashes : list Hash) (blobs : list bytes) : Prop :=
  Forall2 (λ h b, ∃ e, held p e ∧ e_hash e = h ∧ e_blob e = b) hashes blobs.

(** [h] is the first of the hashes the pool does not hold. *)
Definition first_absent p (hashes : list Hash) (h : Hash) : Prop :=
  ∃ pre post, hashes = pre ++ h :: post ∧ (∀ x, x ∈ pre → Pool.contains p x = true) ∧ Pool.contains p h = false.

Lemma contains_get p h : pool_wf p → Pool.contains p h = bool_decide (is_Some (Pool.get p h)).
Proof.
  intros Hwf. apply eq_true_iff_eq. rewrite contains_spec, bool_decide_eq_true by done. split.
  - intros (e & He & Hh). exists e. by apply get_spec.
  - intros [e He%get_spec]; [by exists e|done].
Qed.

Lemma gather_blobs_spec p hashes : pool_wf p →
  match gather_blobs p hashes with Ok blobs => holds p hashes blobs | Err h => first_absent p hashes h end.
Proof.
  intros Hwf. induction hashes as [|h hashes IH]; cbn [gather_blobs]; [constructor|]. destruct (Pool.get p h) as [e|] eqn:Hg.
  - destruct (gather_blobs p hashes) as [blobs|h']; cbn [mbind result_bind].
    + constructor; [|done]. exists e. apply get_spec in Hg as [? ?]; done.
    + destruct IH as (pre & post & -> & Hpre & Hh). exists (h :: pre), post. split_and!; [done| |done].
      intros x [->|Hx]%elem_of_cons; [|auto]. by rewrite contains_get, Hg.
  - exists [], hashes. split_and!; [done|by intros x ?%elem_of_nil|]. by rewrite contains_get, Hg.
Qed.

Lemma held_not_absent p hashes blobs h : pool_wf p → holds p hashes blobs → first_absent p hashes h → False.
Proof.
  intros Hwf Hh (pre & post & -> & _ & Hn). apply Forall2_app_inv_l in Hh as (b1 & b2 & _ & Hh & _).
  apply Forall2_cons_inv_l in Hh as (b & b' & (e & He & Heq & _) & _). apply not_true_iff_false in Hn. apply Hn, contains_spec; [done|]. by exists e.
Qed.

Lemma holds_unique p hashes blobs blobs' : pool_wf p → holds p hashes blobs → holds p hashes blobs' → blobs = blobs'.
Proof.
  intros Hwf Hh. revert blobs'. induction Hh as [|h b hashes blobs (e & He & <- & <-) _ IH]; intros blobs' Hh'; [by apply Forall2_nil_inv_l in Hh' as ->|].
  apply Forall2_cons_inv_l in Hh' as (b' & bs & (e' & He' & Heq & <-) & Hbs & ->). rewrite (held_hash p Hwf e' e He' He Heq). f_equal. auto.
Qed.

Lemma first_absent_unique p hashes h h' : first_absent p hashes h → first_absent p hashes h' → h = h'.
Proof.
  intros (pre & post & E & Hpre & Hh) (pre' & post' & E' & Hpre' & Hh'). rewrite E in E'. clear E.
  revert pre' Hpre' E'. induction pre as [|x pre IH]; intros [|y pre'] Hpre' [= ? E']; [done| | |].
  - subst y. rewrite Hpre' in Hh by left. done.
  - subst x. rewrite Hpre in Hh' by left. done.
  - apply (IH (λ z Hz, Hpre z (proj2 (elem_of_cons _ _ _) (or_intror Hz))) pre'); [|done]. intros z Hz. apply Hpre'. by right.
Qed.

(** What a submitted block does. The answer names an absent transaction exactly when the block
    parses and that is the first of its transactions the pool does not hold, and then nothing
    changes. The block is relayed exactly when the chain, given the blobs the pool holds for
    the block's transactions in their order, puts the block on the main chain. Unless the
    block was added, the pool is left as it was. *)
Theorem submit_block_spec p s block_blob status p' s' : pool_wf p → submit_block SCRATCHPAD p s block_blob = Some (status, p', s') →
  (∀ h, status = TransactionAbsentInPool h ↔ ∃ block, BlockTemplate.from_bytes block_blob = Ok block ∧ first_absent p (transaction_hashes block) h) ∧
  (∀ h, status = TransactionAbsentInPool h → s' = s) ∧
  (SubmitStatus.should_relay status = true ↔ ∃ block blobs report s1, BlockTemplate.from_bytes block_blob = Ok block ∧ holds p (transaction_hashes block) blobs ∧
     add_block_detailed SCRATCHPAD block_blob blobs s = Some (Ok report, s1) ∧ ao_status (outcome report) ≠ Alternative) ∧
  ((∀ o, status ≠ SubmitAdded o) → p' = p).
Proof.
  intros Hwf. unfold submit_block, submit_block_update, add_block_with_pool.
  destruct (BlockTemplate.from_bytes block_blob) as [block|e]; [|intros [= <- <- <-]; split_and!; [by split; [|intros (? & ? & ?)]|done|by split; [|intros (? & ? & ? & ? & ? & ?)]|done]].
  pose proof (gather_blobs_spec p (transaction_hashes block) Hwf) as Hg. destruct (gather_blobs p _) as [blobs|h].
  2: { intros [= <- <- <-]. split_and!; [|done| |done].
       - intros h'. split; [intros [= <-]; by exists block|]. intros (? & [= <-] & Hh). f_equal. by eapply first_absent_unique.
       - split; [done|]. intros (? & bs & r & s1 & [= <-] & Hh & _). exfalso. by eapply held_not_absent. }
  assert (∀ h, first_absent p (transaction_hashes block) h → False) as Hna by (intros h; by eapply held_not_absent).
  destruct (add_block_detailed SCRATCHPAD block_blob blobs s) as [[[r|e] s1]|] eqn:Ha; [| |done].
  - destruct (follow_block s1 p block blobs r) as [u q] eqn:Ef. assert (cu_outcome u = outcome r) as Ho.
    { unfold follow_block in Ef. repeat case_match; by simplify_eq. }
    cbv beta iota. intros [= <- <- <-]. rewrite Ho. split_and!; [split; [done|intros (? & [= <-] & []%Hna)]|done| |intros Hs; by destruct (Hs (outcome r))]. split.
    + intros Hr. exists block, blobs, r, s1. split_and!; [done..|]. cbn in Hr. by destruct (ao_status (outcome r)).
    + intros (? & bs & r' & s2 & [= <-] & Hh & Ha' & Hn). rewrite (holds_unique p _ _ _ Hwf Hh Hg), Ha in Ha'. injection Ha' as <- <-. cbn. by destruct (ao_status _).
  - intros [= <- <- <-]. assert (∀ h, submit_error e ≠ TransactionAbsentInPool h) as He by (intros h; unfold submit_error; by repeat case_match).
    split_and!; [|by intros h ?%He| |done].
    + intros h. split; [by intros ?%He|by intros (? & [= <-] & []%Hna)].
    + split; [unfold submit_error; by repeat case_match|]. intros (? & bs & r' & s2 & [= <-] & Hh & Ha' & _).
      by rewrite (holds_unique p _ _ _ Hwf Hh Hg), Ha in Ha'.
Qed.
End Submit.

(** * Witnesses *)

Module ToyUpdate.
Import AcceptanceWitness.
#[local] Existing Instance toy_crypto.
#[local] Existing Instance one_thread.
#[local] Existing Instance midnight.

Definition blob_of (b : BlockTemplate) : bytes := match BlockTemplate.to_bytes b with Ok b => b | Err _ => [] end.
Definition hash_of (b : BlockTemplate) : Hash := match BlockTemplate.hash b with Ok h => h | Err _ => [] end.

(** A branch of two blocks beside [block1], the second of them checkpointed. *)
Definition rival1 : BlockTemplate := mkBlock 1 0 1 (replicate 32 7) 0 None (coinbase_of 1 41 [11_920_928]) [].
Definition rival2 : BlockTemplate :=
  with_parent (mkBlock 2 0 2 (hash_of rival1) 0 None (coinbase_of 2 42 [11_920_926]) []) (self_parent (replicate 32 3) 1 []).
Definition begin : ChainState MemStore :=
  mkState (∅ : MemStore) simnet_config (mkCheckpoints (<[2 := hash_of rival2]> ∅) u64_max) None []
    (full_reward_zone (block_major_version_for_index 0)) ∅ [] (Some 0) None true 0.
Definition state_of {A} (s : ChainState MemStore) (r : option (result ChainError A * ChainState MemStore)) : ChainState MemStore :=
  match r with Some (_, s) => s | None => s end.
Definition first : ChainState MemStore := (push_block begin 0 block0 [] [] [] info0 ∅).2.
Definition spent_here : ChainState MemStore := state_of first (add_block_detailed [] (blob_of block1) [spend_blob] first).
Definition forked : ChainState MemStore := state_of first (add_block_detailed [] (blob_of rival1) [] spent_here).
Definition switched : ChainState MemStore := state_of first (add_block_detailed [] (blob_of rival2) [] forked).
Definition switch_report : AddReport :=
  match add_block_detailed [] (blob_of rival2) [] forked with Some (Ok r, _) => r | _ => mkAddReport (mkAddOutcome 0 [] 0 0 0 Main) [] end.
Definition empty_pool : TransactionPool := Pool.new (Toy.config 1_000).
(** The pool with the transaction [block1] spends. *)
Definition mined_pool : TransactionPool := Eval vm_compute in (Pool.add (PC := chain_state_pool_chain s0) empty_pool spend_blob Network).2.

Lemma switch_happens : add_block_detailed [] (blob_of rival2) [] forked = Some (Ok switch_report, switched).
Proof.
  assert (accepted (add_block_detailed [] (blob_of rival2) [] forked) = true) as (r & s & E)%accepted_Ok by (vm_compute; reflexivity).
  unfold switched, switch_report. by rewrite E.
Qed.

Lemma no_image_left : images_recorded switched.
Proof.
  assert (forallb (λ kv : bytes * bytes, negb (bool_decide (tag_of kv.1 = Some TAG_KEY_IMAGE))) (map_to_list (records switched)) = true) as Hn by (vm_compute; reflexivity).
  intros i v Hv%elem_of_map_to_list. rewrite forallb_forall in Hn. by pose proof (Hn _ (proj1 (list_elem_of_In _ _) Hv)).
Qed.

Lemma empty_inv : pool_inv 0 empty_pool.
Proof. apply (new_inv (Toy.config 1_000)). done. Qed.

Lemma fits : switch_fits 0 switched switch_report.
Proof.
  unfold switch_fits. cbv zeta. assert (concat (map ub_transactions (report_unwound switch_report)) = [spend_blob]) as -> by (vm_compute; reflexivity).
  split_and!; [by vm_compute|apply Forall_singleton; by vm_compute|exact no_image_left|vm_compute; reflexivity].
Qed.

Lemma restores : match add_block_with_pool [] empty_pool forked (blob_of rival2) [] with
  | Some (Ok u, p, _) => Some (cu_restored u, Pool.hashes p) | _ => None end = Some ([spend_hash], [spend_hash]).
Proof. vm_compute. reflexivity. Qed.

Lemma relays : match submit_block [] mined_pool s0 (blob_of block1) with
  | Some (status, p, _) => Some (SubmitStatus.should_relay status, Pool.len p) | None => None end = Some (true, 0%nat).
Proof. vm_compute. reflexivity. Qed.

Lemma parsed : BlockTemplate.from_bytes (blob_of block1) = Ok block1.
Proof. vm_compute. reflexivity. Qed.

Lemma mined_wf : pool_wf mined_pool.
Proof.
  enough (pool_inv (0 + 1) (Pool.add (PC := chain_state_pool_chain s0) empty_pool spend_blob Network).2) as [[Hwf _ _ _] _].
  { replace (Pool.add _ _ _).2 with mined_pool in Hwf by (vm_compute; reflexivity). exact Hwf. }
  apply (add_inv (PC := chain_state_pool_chain s0)); [exact empty_inv|done|by vm_compute].
Qed.
End ToyUpdate.


Lemma submit_block_spec_witness : ∃ status p' s',
  submit_block (C := toy_crypto) (K := AcceptanceWitness.midnight) (Sch := AcceptanceWitness.one_thread) [] ToyUpdate.mined_pool AcceptanceWitness.s0 (ToyUpdate.blob_of AcceptanceWitness.block1) =
    Some (status, p', s') ∧
  SubmitStatus.should_relay status = true ∧ Pool.len p' = 0%nat ∧ ∃ blobs, holds ToyUpdate.mined_pool [AcceptanceWitness.spend_hash] blobs.
Proof.
  pose proof ToyUpdate.relays as Hr.
  destruct (submit_block (C := toy_crypto) [] ToyUpdate.mined_pool AcceptanceWitness.s0 (ToyUpdate.blob_of AcceptanceWitness.block1)) as [[[status p'] s']|] eqn:E;
    [|discriminate Hr]. injection Hr as Hs Hl.
  destruct (submit_block_spec (C := toy_crypto) (K := AcceptanceWitness.midnight) (Sch := AcceptanceWitness.one_thread) [] _ _ _ _ _ _ ToyUpdate.mined_wf E) as (_ & _ & Hi & _).
  exists status, p', s'. split_and!; [reflexivity|exact Hs|exact Hl|]. apply Hi in Hs as (block & blobs & report & s1 & Hb & Hh & _).
  rewrite ToyUpdate.parsed in Hb. injection Hb as <-. exists blobs. exact Hh.
Defined.
