(* ===== verification/Stream.v ===== *)
(** Byte streams: what the codecs of the peer protocol and of WebSockets use of
    [std::io::Read] and [std::io::Write]. A stream is the bytes still to come and how it
    ends; a reader that wants more than there is gets the error of the end, a closed
    connection or a time-out, as [read_exact] reports it. *)
From S2P Require Import Prelude.
Local Open Scope Z_scope.

Inductive IoErrorKind : Type := UnexpectedEof | TimedOut | OtherIo (code : Z).

Record Stream := mkStream { pending : bytes; ending : IoErrorKind }.

(** A function of a [&mut R] that may fail. *)
Definition StreamM (E A : Type) : Type := Stream → result E A * Stream.

#[export] Instance StreamM_ret {E} : MRet (StreamM E) := λ A a s, (Ok a, s).
#[export] Instance StreamM_bind {E} : MBind (StreamM E) := λ A B f m s,
  match m s with (Ok a, s) => f a s | (Err e, s) => (Err e, s) end.

Definition refuse {E A} (e : E) : StreamM E A := λ s, (Err e, s).
Definition require {E} (b : bool) (e : E) : StreamM E unit := if b then mret () else refuse e.
Definition require_some {E A} (o : option A) (e : E) : StreamM E A := match o with Some a => mret a | None => refuse e end.

(** [read_exact] of [n] bytes; [io] is the conversion [?] applies to the error. *)
Definition read_exact {E} (io : IoErrorKind → E) (n : nat) : StreamM E bytes := λ s,
  if (n <=? length (pending s))%nat then (Ok (take n (pending s)), mkStream (drop n (pending s)) (ending s))
  else (Err (io (ending s)), mkStream [] (ending s)).

(** [Write::write_all]. *)
Class IoWrite (W : Type) := write_all : W → bytes → result IoErrorKind unit * W.

(** [impl Write for Vec<u8>] *)
#[export] Instance vec_write : IoWrite bytes := λ out b, (Ok (), out ++ b).

(** * Lemmas *)

Lemma read_exact_app {E} (io : IoErrorKind → E) n a b e : length a = n → read_exact io n (mkStream (a ++ b) e) = (Ok a, mkStream b e).
Proof.
  intros <-. unfold read_exact. cbn [pending ending]. rewrite length_app, (proj2 (Nat.leb_le _ _)) by lia.
  by rewrite take_app_length, drop_app_length.
Qed.

Lemma read_exact_short {E} (io : IoErrorKind → E) n s : (length (pending s) < n)%nat → read_exact io n s = (Err (io (ending s)), mkStream [] (ending s)).
Proof. intros Hn. unfold read_exact. by rewrite (proj2 (Nat.leb_gt _ _)). Qed.

Lemma read_exact_Ok {E} (io : IoErrorKind → E) n s a s' : read_exact io n s = (Ok a, s') →
  length a = n ∧ pending s = a ++ pending s' ∧ ending s' = ending s.
Proof.
  unfold read_exact. destruct (Nat.leb_spec n (length (pending s))); [|done]. intros [= <- <-]. cbn [pending ending].
  rewrite length_take, take_drop. split_and!; [lia|done|done].
Qed.

Lemma bind_stream_Ok {E A B} (m : StreamM E A) (f : A → StreamM E B) s b s' :
  (m ≫= f) s = (Ok b, s') → ∃ a s1, m s = (Ok a, s1) ∧ f a s1 = (Ok b, s').
Proof. unfold mbind, StreamM_bind. destruct (m s) as [[a|e] s1]; [eauto|done]. Qed.

Lemma require_stream_Ok {E} b (e : E) s s' : require b e s = (Ok (), s') → b = true ∧ s' = s.
Proof. unfold require. destruct b; [by intros [= <-]|done]. Qed.

Lemma require_some_Ok {E A} (o : option A) (e : E) s a s' : require_some o e s = (Ok a, s') → o = Some a ∧ s' = s.
Proof. unfold require_some. destruct o; [by intros [= <- <-]|done]. Qed.
