(* ===== verification/Levin.v ===== *)
(** Levin framing (crates/wrkz-p2p/src/levin.rs): the 33-byte header of every packet of the
    peer protocol, and the reader and writer of frames. *)
From S2P Require Import Prelude Constants Stream.
Local Open Scope Z_scope.

Definition LEVIN_SIGNATURE : Z := 0x0101010101012101.
Definition LEVIN_MAX_PACKET_SIZE : Z := 100_000_000.

Definition HEADER_LEN : nat := 33.
Definition PACKET_REQUEST : Z := 1.
Definition PACKET_RESPONSE : Z := 2.
Definition PROTOCOL_VERSION : Z := 1.
Definition RETCODE_SUCCESS : Z := 1.
Definition ERROR_HANDLER_NOT_DEFINED : Z := -6.
Definition DEFAULT_MAX_PAYLOAD : Z := 50 * 1024 * 1024.
Definition READ_CHUNK : nat := Z.to_nat (64 * 1024).
Definition COMBINED_WRITE_LIMIT : Z := 64 * 1024.

Record Header := mkHeader {
  payload_len : Z;
  have_to_return_data : bool;
  command : Z;
  return_code : Z;
  flags : Z;
  protocol_version : Z
}.

#[export] Instance Header_eq_dec : EqDecision Header.
Proof. solve_decision. Defined.

Module Header.
Definition request (command : Z) (need_response : bool) : Header := mkHeader 0 need_response command 0 PACKET_REQUEST PROTOCOL_VERSION.
Definition response (command return_code : Z) : Header := mkHeader 0 false command return_code PACKET_RESPONSE PROTOCOL_VERSION.
Definition is_response (h : Header) : bool := negb (Z.land (flags h) PACKET_RESPONSE =? 0).
Definition is_notification (h : Header) : bool := negb (have_to_return_data h) && (Z.land (flags h) PACKET_RESPONSE =? 0).
Definition is_expected_version (h : Header) : bool := protocol_version h =? PROTOCOL_VERSION.

Definition encode (h : Header) : bytes :=
  to_le_bytes 8 LEVIN_SIGNATURE ++ to_le_bytes 8 (payload_len h) ++ [if have_to_return_data h then 1 else 0] ++
  to_le_bytes 4 (command h) ++ to_le_bytes 4 (wrap 32 (return_code h)) ++ to_le_bytes 4 (flags h) ++ to_le_bytes 4 (protocol_version h).

(** [b] is an array of [HEADER_LEN] bytes. *)
Definition decode (b : bytes) : option Header :=
  let field from n := from_le_bytes (take n (drop from b)) in
  if negb (field 0%nat 8%nat =? LEVIN_SIGNATURE) then None
  else if LEVIN_MAX_PACKET_SIZE <? field 8%nat 8%nat then None
  else if Z.land (field 25%nat 4%nat) (Z.lor PACKET_REQUEST PACKET_RESPONSE) =? 0 then None
  else Some (mkHeader (field 8%nat 8%nat) (negb (nth 16 b 0 =? 0)) (field 17%nat 4%nat) (as_signed 32 (field 21%nat 4%nat))
               (field 25%nat 4%nat) (field 29%nat 4%nat)).
End Header.

Definition with_payload_len (h : Header) (n : Z) : Header :=
  mkHeader n (have_to_return_data h) (command h) (return_code h) (flags h) (protocol_version h).

(** A payload above [COMBINED_WRITE_LIMIT] goes out in a write of its own. *)
Definition write_frame `{IoWrite W} (w : W) (header : Header) (payload : bytes) : result IoErrorKind unit * W :=
  let hb := Header.encode (with_payload_len header (Z.of_nat (length payload))) in
  if Z.of_nat (length payload) <=? COMBINED_WRITE_LIMIT then write_all w (hb ++ payload)
  else match write_all w hb with
       | (Ok _, w) => write_all w payload
       | (Err e, w) => (Err e, w)
       end.

Record OversizedFrame := mkOversized { o_command : Z; o_payload_len : Z; o_limit : Z }.

(** The [io::Error] a frame is refused with: of the stream, or [InvalidData]. *)
Inductive LevinError : Type :=
| LevinIo (k : IoErrorKind)
| BadLevinHeader
| Oversized (o : OversizedFrame).

Definition OversizedFrame_of (e : LevinError) : option OversizedFrame := match e with Oversized o => Some o | _ => None end.

(** The loop of [read_frame_by], with the length the buffer has when it ends. One pass per
    chunk of the payload; see [read_payload_spec]. *)
Fixpoint read_payload (fuel want : nat) (payload : bytes) (s : Stream) : result LevinError bytes * nat * Stream :=
  match fuel with
  | O => (Ok payload, length payload, s)
  | S fuel =>
      if (length payload <? want)%nat then
        let start := length payload in
        let chunk := (READ_CHUNK `min` (want - start))%nat in
        match read_exact LevinIo chunk s with
        | (Ok part, s) => read_payload fuel want (payload ++ part) s
        | (Err e, s) => (Err e, (start + chunk)%nat, s)
        end
      else (Ok payload, length payload, s)
  end.

Definition payload_fuel (want : nat) : nat := S (want / READ_CHUNK).

Definition buffer_payload (want : nat) : StreamM LevinError bytes := λ s,
  let '(r, _, s) := read_payload (payload_fuel want) want [] s in (r, s).

Definition read_frame_by (limit : Header → Z) : StreamM LevinError (Header * bytes) :=
  hb ← read_exact LevinIo HEADER_LEN;
  h ← require_some (Header.decode hb) BadLevinHeader;
  let max := Z.min (limit h) LEVIN_MAX_PACKET_SIZE in
  _ ← require (payload_len h <=? max) (Oversized (mkOversized (command h) (payload_len h) max));
  payload ← buffer_payload (Z.to_nat (payload_len h));
  mret (h, payload).

Definition read_frame_limited (max_payload : Z) : StreamM LevinError (Header * bytes) := read_frame_by (λ _, max_payload).
Definition read_frame : StreamM LevinError (Header * bytes) := read_frame_limited DEFAULT_MAX_PAYLOAD.

(** * The header *)

(** A header the wire can carry and the reader takes. *)
Record header_ok (h : Header) : Prop := {
  hk_payload : 0 ≤ payload_len h ≤ LEVIN_MAX_PACKET_SIZE;
  hk_command : is_u32 (command h);
  hk_return_code : - 2 ^ 31 ≤ return_code h < 2 ^ 31;
  hk_flags : is_u32 (flags h);
  hk_kind : Z.land (flags h) 3 ≠ 0;
  hk_version : is_u32 (protocol_version h)
}.

Lemma length_header_encode h : length (Header.encode h) = HEADER_LEN.
Proof. reflexivity. Qed.

Lemma encode_is_bytes h : is_bytes (Header.encode h).
Proof.
  unfold Header.encode. repeat (apply Forall_app; split); try apply to_le_bytes_is_bytes. apply Forall_singleton. unfold in_u. destruct (have_to_return_data h); lia.
Qed.

Lemma decode_encode h : header_ok h → Header.decode (Header.encode h) = Some h.
Proof.
  intros [Hp Hc Hr Hf Hk Hv]. unfold Header.decode. cbv zeta.
  change (take 8 (drop 0 (Header.encode h))) with (to_le_bytes 8 LEVIN_SIGNATURE). change (take 8 (drop 8 (Header.encode h))) with (to_le_bytes 8 (payload_len h)).
  change (take 4 (drop 17 (Header.encode h))) with (to_le_bytes 4 (command h)). change (take 4 (drop 21 (Header.encode h))) with (to_le_bytes 4 (wrap 32 (return_code h))).
  change (take 4 (drop 25 (Header.encode h))) with (to_le_bytes 4 (flags h)). change (take 4 (drop 29 (Header.encode h))) with (to_le_bytes 4 (protocol_version h)).
  change (nth 16 (Header.encode h) 0) with (if have_to_return_data h then 1 else 0). change (from_le_bytes (to_le_bytes 8 LEVIN_SIGNATURE)) with LEVIN_SIGNATURE.
  unfold LEVIN_MAX_PACKET_SIZE in *. pose proof (wrap_bound 32 (return_code h) ltac:(lia)) as Hw. unfold in_u in *.
  rewrite Z.eqb_refl, !from_to_le_bytes by (cbn; lia). cbn [negb]. rewrite (proj2 (Z.ltb_ge _ _)) by lia.
  change (Z.lor PACKET_REQUEST PACKET_RESPONSE) with 3. rewrite (proj2 (Z.eqb_neq _ _) Hk), as_signed_wrap by lia.
  destruct h as [n [] c r f v]; reflexivity.
Qed.

(** The header the bytes of a frame start with: what it is decoded to is in range, and is what
    the bytes spell, but for the byte of [have_to_return_data], read as zero or not. *)
Lemma decode_Some b h : is_bytes b → length b = HEADER_LEN → Header.decode b = Some h →
  header_ok h ∧ Header.encode h = take 16 b ++ [if have_to_return_data h then 1 else 0] ++ drop 17 b ∧ have_to_return_data h = negb (nth 16 b 0 =? 0).
Proof.
  intros Hb Hl. unfold Header.decode. cbv zeta. destruct (_ =? LEVIN_SIGNATURE) eqn:E1; [|done]. destruct (_ <? _) eqn:E2; [done|].
  destruct (Z.land _ _ =? 0) eqn:E3; [done|]. cbn [negb]. intros [= <-]. bool_hyps. rewrite drop_0 in E1.
  assert (∀ k n, is_bytes (take n (drop k b))) as Hf by (intros; auto with bytes_db).
  assert (∀ k n, (k + n ≤ 33)%nat → length (take n (drop k b)) = n) as Hn by (intros; rewrite length_take, length_drop, Hl; unfold HEADER_LEN; lia).
  assert (∀ k n, (k + n ≤ 33)%nat → 0 ≤ from_le_bytes (take n (drop k b)) < 256 ^ Z.of_nat n) as Hr.
  { intros k n Hk. pose proof (from_le_bytes_bound _ (Hf k n)) as H. by rewrite (Hn k n Hk) in H. }
  assert (∀ k n, (k + n ≤ 33)%nat → to_le_bytes n (from_le_bytes (take n (drop k b))) = take n (drop k b)) as Ht.
  { intros k n Hk. pose proof (to_from_le_bytes _ (Hf k n)) as H. by rewrite (Hn k n Hk) in H. }
  split_and!; [split; cbn [payload_len command return_code flags protocol_version]| |done].
  - pose proof (Hr 8%nat 8%nat ltac:(lia)). lia.
  - apply (Hr 17%nat 4%nat). lia.
  - apply (as_signed_bound 32). lia.
  - apply (Hr 25%nat 4%nat). lia.
  - exact E3.
  - apply (Hr 29%nat 4%nat). lia.
  - unfold Header.encode. cbn [payload_len command return_code flags protocol_version have_to_return_data].
    assert (wrap 32 (as_signed 32 (from_le_bytes (take 4 (drop 21 b)))) = from_le_bytes (take 4 (drop 21 b))) as ->.
    { apply wrap_as_signed; [lia|]. apply (Hr 21%nat 4%nat). lia. }
    rewrite <- E1. change (take 8 b) with (take 8 (drop 0 b)). rewrite !Ht by lia. clear -Hl.
    do 33 (destruct b as [|? b]; [done|]). by destruct b.
Qed.

(** * The reader *)

(** The chunked loop reads what is left of the payload, all of it or to the end of the
    stream, and the buffer is never more than one chunk ahead of the bytes that came. *)
Lemma read_payload_spec fuel want payload s : (want - length payload ≤ fuel * READ_CHUNK)%nat → (length payload ≤ want)%nat →
  let rest := (want - length payload)%nat in
  let '(r, buffer, s') := read_payload fuel want payload s in
  (buffer ≤ length payload + length (pending s) + READ_CHUNK)%nat ∧ (buffer ≤ want)%nat ∧
  if (rest <=? length (pending s))%nat then r = Ok (payload ++ take rest (pending s)) ∧ s' = mkStream (drop rest (pending s)) (ending s)
  else r = Err (LevinIo (ending s)) ∧ s' = mkStream [] (ending s).
Proof.
  revert payload s. induction fuel as [|fuel IH]; intros payload s Hf Hl; cbn [read_payload]; cbv zeta.
  { replace (want - length payload)%nat with 0%nat by lia. cbn [Nat.leb]. rewrite take_0, drop_0, app_nil_r. split_and!; [lia|lia|done|by destruct s]. }
  rewrite Nat.mul_succ_l in Hf. destruct (Nat.ltb_spec (length payload) want) as [Hlt|Hge].
  - set (chunk := (READ_CHUNK `min` (want - length payload))%nat). assert (0 < READ_CHUNK)%nat as Hpos by (unfold READ_CHUNK; lia).
    destruct (decide (length (pending s) < chunk)%nat) as [Hs|Hs].
    + rewrite read_exact_short by done. rewrite (proj2 (Nat.leb_gt _ _)) by lia. split_and!; [lia|lia|done..].
    + unfold read_exact. rewrite (proj2 (Nat.leb_le _ _)) by lia. set (s1 := mkStream _ _).
      assert (length (payload ++ take chunk (pending s)) = length payload + chunk)%nat as Hp by (rewrite length_app, length_take; lia).
      assert (length (pending s1) = length (pending s) - chunk)%nat as Hs1 by (cbn; by rewrite length_drop).
      specialize (IH (payload ++ take chunk (pending s)) s1 ltac:(lia) ltac:(lia)). rewrite Hp, Hs1 in IH.
      destruct (read_payload _ _ _ _) as [[r buffer] s']. destruct IH as (H1 & H2 & IH). split_and!; [lia|lia|].
      replace (want - (length payload + chunk))%nat with (want - length payload - chunk)%nat in IH by lia.
      destruct (Nat.leb_spec (want - length payload - chunk) (length (pending s) - chunk)); rewrite ?(proj2 (Nat.leb_le _ _)), ?(proj2 (Nat.leb_gt _ _)) by lia.
      * destruct IH as [-> ->]. cbn [s1 pending ending]. rewrite <- app_assoc, drop_drop. split; [|do 2 f_equal; lia].
        do 2 f_equal. rewrite <- (take_drop chunk (pending s)) at 3. rewrite take_app_ge by (rewrite length_take; lia). do 2 f_equal. rewrite length_take. lia.
      * done.
  - replace (want - length payload)%nat with 0%nat by lia. cbn [Nat.leb]. rewrite take_0, drop_0, app_nil_r. split_and!; [lia|lia|done|by destruct s].
Qed.

Lemma payload_fuel_enough want : (want ≤ payload_fuel want * READ_CHUNK)%nat.
Proof.
  unfold payload_fuel. assert (READ_CHUNK ≠ 0)%nat as Hn by (unfold READ_CHUNK; lia). pose proof (Nat.div_mod want READ_CHUNK Hn). pose proof (Nat.mod_upper_bound want READ_CHUNK Hn). lia.
Qed.

(** The payload read at once. *)
Lemma buffer_payload_exact want s : buffer_payload want s = read_exact LevinIo want s.
Proof.
  unfold buffer_payload, read_exact. pose proof (payload_fuel_enough want) as Hf.
  pose proof (read_payload_spec (payload_fuel want) want [] s) as Hs. cbn [length] in Hs. rewrite Nat.sub_0_r in Hs. specialize (Hs Hf ltac:(lia)). cbv zeta in Hs.
  destruct (read_payload _ _ _ _) as [[r buffer] s']. destruct Hs as (_ & _ & Hs). destruct (_ <=? _)%nat; by destruct Hs as [-> ->].
Qed.

(** The header codec. Every header whose fields fit the wire, with a payload within the packet
    limit and the request or the response flag, is written in 33 bytes that are read back
    as it; and whatever 33 bytes a peer sends, a header the reader takes is such a header
    and spells those bytes, except that any non-zero [have_to_return_data] byte reads as set. *)
Theorem levin_header_codec h :
  (header_ok h → length (Header.encode h) = HEADER_LEN ∧ is_bytes (Header.encode h) ∧ Header.decode (Header.encode h) = Some h) ∧
  (∀ b, is_bytes b → length b = HEADER_LEN → Header.decode b = Some h →
     header_ok h ∧ Header.encode h = take 16 b ++ [if have_to_return_data h then 1 else 0] ++ drop 17 b ∧ have_to_return_data h = negb (nth 16 b 0 =? 0)).
Proof.
  split; [|intros b; apply decode_Some]. intros Hh. split_and!; [apply length_header_encode|apply encode_is_bytes|by apply decode_encode].
Qed.

(** ** Frames *)

(** The bytes of a frame, and the frame as the reader returns it. *)
Definition sent (f : Header * bytes) : Header * bytes := (with_payload_len f.1 (Z.of_nat (length f.2)), f.2).
Definition wire (f : Header * bytes) : bytes := Header.encode (sent f).1 ++ f.2.

(** A frame the receiver's limit lets through. *)
Definition sendable (limit : Header → Z) (f : Header * bytes) : Prop :=
  header_ok (sent f).1 ∧ Z.of_nat (length f.2) ≤ limit (sent f).1.

Lemma write_frame_wire out h payload : write_frame out h payload = (Ok (), out ++ wire (h, payload)).
Proof.
  unfold write_frame, write_all, vec_write, wire, sent. cbv zeta. cbn [fst snd]. destruct (_ <=? _); [done|]. by rewrite app_assoc.
Qed.

Lemma read_frame_by_wire limit f rest e : sendable limit f → read_frame_by limit (mkStream (wire f ++ rest) e) = (Ok (sent f), mkStream rest e).
Proof.
  intros [Hh Hl]. unfold read_frame_by, wire, mbind, StreamM_bind. rewrite <- app_assoc, read_exact_app by done. rewrite decode_encode by done.
  cbn [require_some mret StreamM_ret]. change (payload_len (sent f).1) with (Z.of_nat (length f.2)).
  pose proof (hk_payload _ Hh) as Hp. cbn [sent fst with_payload_len payload_len] in Hp.
  unfold require. rewrite (proj2 (Z.leb_le _ _)) by lia. cbn [mret StreamM_ret]. by rewrite buffer_payload_exact, Nat2Z.id, read_exact_app.
Qed.

(** One frame after the other. *)
Fixpoint read_frames (limit : Header → Z) (n : nat) : StreamM LevinError (list (Header * bytes)) :=
  match n with
  | O => mret []
  | S n => f ← read_frame_by limit; fs ← read_frames limit n; mret (f :: fs)
  end.

Definition write_frames (out : bytes) (frames : list (Header * bytes)) : bytes := foldl (λ out f, (write_frame out f.1 f.2).2) out frames.

Lemma write_frames_wire out frames : write_frames out frames = out ++ concat (map wire frames).
Proof.
  revert out. induction frames as [|f frames IH]; intros out; [by rewrite app_nil_r|].
  change (write_frames out (f :: frames)) with (write_frames (write_frame out f.1 f.2).2 frames). rewrite write_frame_wire, IH. cbn [snd map concat].
  destruct f. by rewrite app_assoc.
Qed.

(** Frames stay in step: a sequence of frames written to a connection, each within the limit
    the receiver has for its header, is read back frame by frame, payload and header, and
    leaves the reader exactly where the next frame starts. *)
Theorem levin_stream limit frames rest e : Forall (sendable limit) frames →
  read_frames limit (length frames) (mkStream (write_frames [] frames ++ rest) e) = (Ok (map sent frames), mkStream rest e).
Proof.
  rewrite write_frames_wire. cbn [app]. induction 1 as [|f frames Hf _ IH]; [done|]. cbn [map concat length read_frames]. unfold mbind, StreamM_bind in *.
  rewrite <- app_assoc, read_frame_by_wire by done. by rewrite IH.
Qed.

Lemma read_frame_by_short limit s : (length (pending s) < HEADER_LEN)%nat → read_frame_by limit s = (Err (LevinIo (ending s)), mkStream [] (ending s)).
Proof. intros Hs. unfold read_frame_by, mbind, StreamM_bind. by rewrite read_exact_short. Qed.

Lemma read_frame_by_header limit hb rest e : length hb = HEADER_LEN →
  read_frame_by limit (mkStream (hb ++ rest) e) =
  match Header.decode hb with
  | None => (Err BadLevinHeader, mkStream rest e)
  | Some h =>
      let max := limit h `min` LEVIN_MAX_PACKET_SIZE in
      if payload_len h <=? max then
        match read_exact LevinIo (Z.to_nat (payload_len h)) (mkStream rest e) with (Ok p, s) => (Ok (h, p), s) | (Err x, s) => (Err x, s) end
      else (Err (Oversized (mkOversized (command h) (payload_len h) max)), mkStream rest e)
  end.
Proof.
  intros Hh. unfold read_frame_by, mbind, StreamM_bind. rewrite read_exact_app by done. destruct (Header.decode hb) as [h|]; [|done].
  cbn [require_some mret StreamM_ret]. unfold require. destruct (_ <=? _); [|done]. cbn [mret StreamM_ret]. rewrite buffer_payload_exact. done.
Qed.

(** What a peer can make the reader do. On any stream the reader returns a frame exactly when
    the stream starts with 33 bytes that decode to its header, the declared length is within
    the limit for that header and the packet limit, and that many bytes follow; it then
    has consumed those bytes and no more. A frame over the limit is refused with its numbers
    when only the header has been read. *)
Theorem levin_reader_spec limit s :
  (∀ h p s', read_frame_by limit s = (Ok (h, p), s') ↔
     ∃ hb, length hb = HEADER_LEN ∧ Header.decode hb = Some h ∧ pending s = hb ++ p ++ pending s' ∧ ending s' = ending s ∧
       length p = Z.to_nat (payload_len h) ∧ payload_len h ≤ limit h ∧ payload_len h ≤ LEVIN_MAX_PACKET_SIZE) ∧
  (∀ o s', read_frame_by limit s = (Err (Oversized o), s') ↔
     ∃ hb h, length hb = HEADER_LEN ∧ Header.decode hb = Some h ∧ pending s = hb ++ pending s' ∧ ending s' = ending s ∧
       limit h `min` LEVIN_MAX_PACKET_SIZE < payload_len h ∧ o = mkOversized (command h) (payload_len h) (limit h `min` LEVIN_MAX_PACKET_SIZE)).
Proof.
  destruct s as [input e]. cbn [pending ending]. destruct (decide (length input < HEADER_LEN)%nat) as [Hs|Hs].
  - rewrite read_frame_by_short by done. split; intros; (split; [done|]).
    + intros (hb & Hl & _ & -> & _). rewrite length_app in Hs. lia.
    + intros (hb & h & Hl & _ & -> & _). rewrite length_app in Hs. lia.
  - rewrite <- (take_drop HEADER_LEN input). set (hb := take HEADER_LEN input). set (rest := drop HEADER_LEN input).
    assert (length hb = HEADER_LEN) as Hhb by (unfold hb; rewrite length_take; lia). clearbody hb rest. clear Hs.
    assert (∀ hb' k, length hb' = HEADER_LEN → hb ++ rest = hb' ++ k → hb' = hb ∧ k = rest) as Hu by (intros hb' k Hl Heq; apply app_inj_1 in Heq as [-> ->]; [done|lia]).
    rewrite read_frame_by_header by done. cbv zeta. split.
    + intros h p s'. split.
      * destruct (Header.decode hb) as [h'|] eqn:Hd; [|done]. destruct (Z.leb_spec (payload_len h') (limit h' `min` LEVIN_MAX_PACKET_SIZE)); [|done].
        destruct (read_exact _ _ _) as [[p'|x] s1] eqn:Hr; [|done]. apply read_exact_Ok in Hr as (Hl & Hp & He). cbn in Hp, He. intros [= <- <- <-].
        exists hb. rewrite Hp. split_and!; [done..|lia|lia].
      * intros (hb' & Hl & Hd & Heq & He & Hp & H1 & H2). destruct (Hu _ _ Hl Heq) as [-> <-]. rewrite Hd, (proj2 (Z.leb_le _ _)) by lia.
        rewrite read_exact_app by done. destruct s'. cbn in He. by subst.
    + intros o s'. split.
      * destruct (Header.decode hb) as [h|] eqn:Hd; [|done]. destruct (Z.leb_spec (payload_len h) (limit h `min` LEVIN_MAX_PACKET_SIZE)).
        { unfold read_exact. by destruct (_ <=? _)%nat. }
        intros [= <- <-]. by exists hb, h.
      * intros (hb' & h & Hl & Hd & Heq & He & Hlt & ->). destruct (Hu _ _ Hl Heq) as [-> Hr]. rewrite Hd, (proj2 (Z.leb_gt _ _)) by lia.
        destruct s'. cbn in *. by subst.
Qed.

(** * Witnesses *)

Definition ping : Header := Header.request 1003 true.

Lemma ping_ok n : 0 ≤ n ≤ LEVIN_MAX_PACKET_SIZE → header_ok (with_payload_len ping n).
Proof. intros Hn. by split. Qed.

Lemma levin_header_codec_witness : Header.decode (Header.encode (with_payload_len ping 7)) = Some (with_payload_len ping 7).
Proof.
  destruct (levin_header_codec (with_payload_len ping 7)) as [H _]. destruct H as (_ & _ & H); [|exact H].
  apply ping_ok. unfold LEVIN_MAX_PACKET_SIZE. lia.
Defined.

Lemma levin_stream_witness :
  read_frames (λ _, 10) 2 (mkStream (write_frames [] [(ping, [1; 2; 3]); (Header.response 1003 1, [])] ++ [9]) UnexpectedEof) =
  (Ok [(with_payload_len ping 3, [1; 2; 3]); (Header.response 1003 1, [])], mkStream [9] UnexpectedEof).
Proof.
  apply (levin_stream (λ _, 10) [(ping, [1; 2; 3]); (Header.response 1003 1, [])] [9] UnexpectedEof).
  repeat constructor; cbn; unfold LEVIN_MAX_PACKET_SIZE; try lia; try done.
Defined.
