(* ===== verification/WsFrame.v ===== *)
(** WebSocket frames (crates/wrkz-ws/src/frame.rs, RFC 6455): the frame codec with its
    masking, the parser of a growing buffer, and the assembler that joins fragments into
    messages. [utf8_valid] is [String::from_utf8(..).is_ok()]; a [String] is its bytes. *)
From stdpp Require Import strings.
From S2P Require Import Prelude Stream.
Local Open Scope Z_scope.

Definition MAX_CONTROL_PAYLOAD : nat := 125.

Module close.
Definition NORMAL : Z := 1000.
Definition GOING_AWAY : Z := 1001.
Definition PROTOCOL_ERROR : Z := 1002.
Definition INVALID_DATA : Z := 1007.
Definition POLICY : Z := 1008.
Definition TOO_BIG : Z := 1009.
End close.

Inductive Opcode : Type := Continuation | Text | Binary | Close | Ping | Pong.
Inductive Role : Type := Server | Client.

#[export] Instance Opcode_eq_dec : EqDecision Opcode.
Proof. solve_decision. Defined.
#[export] Instance Role_eq_dec : EqDecision Role.
Proof. solve_decision. Defined.

Module Opcode.
Definition from_bits (bits : Z) : option Opcode :=
  if bits =? 0x0 then Some Continuation
  else if bits =? 0x1 then Some Text
  else if bits =? 0x2 then Some Binary
  else if bits =? 0x8 then Some Close
  else if bits =? 0x9 then Some Ping
  else if bits =? 0xa then Some Pong
  else None.
Definition bits (o : Opcode) : Z :=
  match o with Continuation => 0x0 | Text => 0x1 | Binary => 0x2 | Close => 0x8 | Ping => 0x9 | Pong => 0xa end.
Definition is_control (o : Opcode) : bool := match o with Close | Ping | Pong => true | _ => false end.
End Opcode.

Record Frame := mkFrame { fin : bool; opcode : Opcode; f_payload : bytes }.

Inductive FrameError : Type :=
| WsIo (k : IoErrorKind)
| Protocol (what : string)
| TooLarge (len : Z)
| InvalidText.

Definition close_code (e : FrameError) : option Z :=
  match e with
  | WsIo _ => None
  | Protocol _ => Some close.PROTOCOL_ERROR
  | TooLarge _ => Some close.TOO_BIG
  | InvalidText => Some close.INVALID_DATA
  end.

(** [data\[i\] ^= key\[i & 3\]] *)
Definition apply_mask (data key : bytes) : bytes := imap (λ i b, Z.lxor b (nth (Nat.land i 3) key 0)) data.

(** The payload length: seven bits, or the 16 or 64 bits that follow. *)
Definition read_length (short : Z) : StreamM FrameError Z :=
  if short =? 126 then b ← read_exact WsIo 2; mret (from_be_bytes b)
  else if short =? 127 then
    b ← read_exact WsIo 8;
    let len := from_be_bytes b in
    _ ← require (Z.shiftr len 63 =? 0) (Protocol "a 64-bit length with the top bit set");
    mret len
  else mret short.

Definition check_masking (role : Role) (masked : bool) : StreamM FrameError unit :=
  match role, masked with
  | Server, false => refuse (Protocol "a client frame that is not masked")
  | Client, true => refuse (Protocol "a server frame that is masked")
  | _, _ => mret ()
  end.

Definition read_key (masked : bool) : StreamM FrameError (option bytes) :=
  if masked then k ← read_exact WsIo 4; mret (Some k) else mret None.

Definition unmask (key : option bytes) (payload : bytes) : bytes :=
  match key with Some key => apply_mask payload key | None => payload end.

Definition read_frame (role : Role) (max_payload : nat) : StreamM FrameError Frame :=
  head ← read_exact WsIo 2;
  let h0 := nth 0 head 0 in
  let h1 := nth 1 head 0 in
  let fin := negb (Z.land h0 0x80 =? 0) in
  _ ← require (Z.land h0 0x70 =? 0) (Protocol "reserved bits set");
  opcode ← require_some (Opcode.from_bits (Z.land h0 0x0f)) (Protocol "reserved opcode");
  let masked := negb (Z.land h1 0x80 =? 0) in
  _ ← check_masking role masked;
  len ← read_length (Z.land h1 0x7f);
  _ ← require (negb (Opcode.is_control opcode) || fin) (Protocol "a fragmented control frame");
  _ ← require (negb (Opcode.is_control opcode) || (len <=? Z.of_nat MAX_CONTROL_PAYLOAD)) (Protocol "a control frame over 125 bytes");
  _ ← require (len <=? Z.of_nat max_payload) (TooLarge len);
  key ← read_key masked;
  payload ← read_exact WsIo (Z.to_nat len);
  mret (mkFrame fin opcode (unmask key payload)).

Definition encode_frame (opcode : Opcode) (payload : bytes) (mask : option bytes) : bytes :=
  let n := Z.of_nat (length payload) in
  let mask_bit := match mask with Some _ => 0x80 | None => 0 end in
  [Z.lor 0x80 (Opcode.bits opcode)] ++
  (if n <? 126 then [Z.lor mask_bit n]
   else if n <=? 2 ^ 16 - 1 then [Z.lor mask_bit 126] ++ to_be_bytes 2 n
   else [Z.lor mask_bit 127] ++ to_be_bytes 8 n) ++
  match mask with Some key => key ++ apply_mask payload key | None => payload end.

(** [str::is_char_boundary]: the start, the end, or a byte that does not continue a character. *)
Definition is_char_boundary (s : bytes) (i : nat) : bool :=
  (i =? 0)%nat || match s !! i with Some b => negb (continuation b) | None => (i =? length s)%nat end.

Fixpoint char_cut (reason : bytes) (cut : nat) : nat :=
  if is_char_boundary reason cut then cut
  else match cut with S cut => char_cut reason cut | O => O end.

Definition close_payload (code : Z) (reason : bytes) : bytes :=
  to_be_bytes 2 code ++ take (char_cut reason (length reason `min` (MAX_CONTROL_PAYLOAD - 2))%nat) reason.

(** * Messages *)

Inductive Message : Type :=
| TextMessage (s : bytes)
| BinaryMessage (b : bytes)
| PingMessage (b : bytes)
| PongMessage (b : bytes)
| CloseMessage (code : option Z).

Record Assembler := mkAssembler { max_message : nat; partial : option (Opcode * bytes) }.

Definition finish (opcode : Opcode) (payload : bytes) : result FrameError Message :=
  match opcode with
  | Text => if utf8_valid payload then Ok (TextMessage payload) else Err InvalidText
  | _ => Ok (BinaryMessage payload)
  end.

Module Assembler.
Definition new (max_message : nat) : Assembler := mkAssembler max_message None.

Definition room (a : Assembler) : nat := max_message a - match partial a with Some (_, buf) => length buf | None => 0 end.
Definition frame_cap (a : Assembler) : nat := room a `max` MAX_CONTROL_PAYLOAD.

Definition push (a : Assembler) (frame : Frame) : result FrameError (option Message) * Assembler :=
  let payload := f_payload frame in
  let set p := mkAssembler (max_message a) p in
  match opcode frame with
  | Ping => (Ok (Some (PingMessage payload)), a)
  | Pong => (Ok (Some (PongMessage payload)), a)
  | Close =>
      (match payload with
       | [] => Ok (Some (CloseMessage None))
       | [_] => Err (Protocol "a one-byte close body")
       | b0 :: b1 :: _ => Ok (Some (CloseMessage (Some (from_be_bytes [b0; b1]))))
       end, a)
  | Text | Binary =>
      match partial a with
      | Some _ => (Err (Protocol "a new message inside a fragmented one"), a)
      | None =>
          if (room a <? length payload)%nat then (Err (TooLarge (Z.of_nat (length payload))), a)
          else if fin frame then (Some <$> finish (opcode frame) payload, a)
          else (Ok None, set (Some (opcode frame, payload)))
      end
  | Continuation =>
      match partial a with
      | None => (Err (Protocol "a continuation with no message to continue"), a)
      | Some (opcode, buf) =>
          if (room a <? length payload)%nat then (Err (TooLarge (Z.of_nat (length buf + length payload))), set None)
          else if fin frame then (Some <$> finish opcode (buf ++ payload), set None)
          else (Ok None, set (Some (opcode, buf ++ payload)))
      end
  end.
End Assembler.

(** [MessageReader::read]. Every frame takes two bytes or more; see [read_message_total]. *)
Fixpoint read_loop (fuel : nat) (role : Role) (a : Assembler) (s : Stream) : option (result FrameError Message * Assembler * Stream) :=
  match fuel with
  | O => None
  | S fuel =>
      match read_frame role (Assembler.frame_cap a) s with
      | (Err e, s) => Some (Err e, a, s)
      | (Ok frame, s) =>
          match Assembler.push a frame with
          | (Err e, a) => Some (Err e, a, s)
          | (Ok (Some message), a) => Some (Ok message, a, s)
          | (Ok None, a) => read_loop fuel role a s
          end
      end
  end.

Definition read_message (role : Role) (a : Assembler) (s : Stream) : option (result FrameError Message * Assembler * Stream) :=
  read_loop (S (length (pending s))) role a s.

(** [rest] is a slice, whose end is [UnexpectedEof]. *)
Definition parse_frame (buf : bytes) (role : Role) (max_payload : nat) : result FrameError (option (Frame * nat)) :=
  match read_frame role max_payload (mkStream buf UnexpectedEof) with
  | (Ok frame, s) => Ok (Some (frame, (length buf - length (pending s))%nat))
  | (Err (WsIo UnexpectedEof), _) => Ok None
  | (Err e, _) => Err e
  end.

(** * The codec *)

Lemma length_apply_mask data key : length (apply_mask data key) = length data.
Proof. apply length_imap. Qed.

Lemma apply_mask_twice data key : apply_mask (apply_mask data key) key = data.
Proof.
  unfold apply_mask. apply list_eq. intros i. rewrite !list_lookup_imap. destruct (data !! i) as [b|]; [|done]. cbn.
  by rewrite Z.lxor_assoc, Z.lxor_nilpotent, Z.lxor_0_r.
Qed.

Lemma first_byte o : (Z.land (Z.lor 0x80 (Opcode.bits o)) 0x80 =? 0) = false ∧ (Z.land (Z.lor 0x80 (Opcode.bits o)) 0x70 =? 0) = true ∧
  Opcode.from_bits (Z.land (Z.lor 0x80 (Opcode.bits o)) 0x0f) = Some o.
Proof. by destruct o. Qed.

Lemma second_byte (masked : bool) n : 0 ≤ n < 128 → (Z.land (Z.lor (if masked then 0x80 else 0) n) 0x80 =? 0) = negb masked ∧
  Z.land (Z.lor (if masked then 0x80 else 0) n) 0x7f = n.
Proof.
  intros Hn. assert (forallb (λ m : bool, forallb (λ n, Bool.eqb (Z.land (Z.lor (if m then 0x80 else 0) n) 0x80 =? 0) (negb m) &&
    (Z.land (Z.lor (if m then 0x80 else 0) n) 0x7f =? n)) (seqZ 0 128)) [true; false] = true) as H by (vm_compute; reflexivity).
  rewrite forallb_forall in H. specialize (H masked ltac:(destruct masked; cbn; auto)). rewrite forallb_forall in H.
  specialize (H n ltac:(apply list_elem_of_In, elem_of_seqZ; lia)). apply andb_true_iff in H as [H1%eqb_prop H2%Z.eqb_eq]. done.
Qed.

(** A frame the receiver in [role] takes: masked by the client with a key of four bytes and not
    by the server, within its limit and, for a control frame, within 125 bytes. *)
Definition mask_fits (role : Role) (mask : option bytes) : Prop :=
  match role, mask with Server, Some key => length key = 4%nat | Client, None => True | _, _ => False end.
Record ws_sendable (role : Role) (max_payload : nat) (o : Opcode) (payload : bytes) (mask : option bytes) : Prop := {
  ws_mask : mask_fits role mask;
  ws_max : (length payload ≤ max_payload)%nat;
  ws_control : Opcode.is_control o = true → (length payload ≤ MAX_CONTROL_PAYLOAD)%nat;
  ws_length : Z.of_nat (length payload) < 2 ^ 63
}.

(** The length field after the second byte. *)
Definition length_byte (n : Z) : Z := if n <? 126 then n else if n <=? 2 ^ 16 - 1 then 126 else 127.
Definition length_rest (n : Z) : bytes := if n <? 126 then [] else if n <=? 2 ^ 16 - 1 then to_be_bytes 2 n else to_be_bytes 8 n.
Definition is_masked (mask : option bytes) : bool := match mask with Some _ => true | None => false end.
Definition masked_body (payload : bytes) (mask : option bytes) : bytes :=
  match mask with Some key => key ++ apply_mask payload key | None => payload end.

Lemma encode_frame_parts o payload mask : encode_frame o payload mask =
  [Z.lor 0x80 (Opcode.bits o); Z.lor (if is_masked mask then 0x80 else 0) (length_byte (Z.of_nat (length payload)))] ++
  length_rest (Z.of_nat (length payload)) ++ masked_body payload mask.
Proof. unfold encode_frame, length_byte, length_rest, masked_body. cbv zeta. by repeat case_match. Qed.

Lemma read_length_rest n rest e : 0 ≤ n < 2 ^ 63 → read_length (length_byte n) (mkStream (length_rest n ++ rest) e) = (Ok n, mkStream rest e).
Proof.
  intros Hn. unfold read_length, length_byte, length_rest. destruct (Z.ltb_spec n 126) as [H1|H1].
  - rewrite (proj2 (Z.eqb_neq n 126)), (proj2 (Z.eqb_neq n 127)) by lia. done.
  - destruct (Z.leb_spec n (2 ^ 16 - 1)) as [H2|H2]; cbn [Z.eqb Pos.eqb]; unfold mbind, StreamM_bind.
    + rewrite read_exact_app by apply length_to_be_bytes. by rewrite from_to_be_bytes by (cbn; lia).
    + rewrite read_exact_app by apply length_to_be_bytes. rewrite from_to_be_bytes by (cbn; lia). unfold require.
      rewrite Z.shiftr_div_pow2, Z.div_small by lia. done.
Qed.

Lemma read_key_body payload mask rest e (masked : bool) : masked = is_masked mask → (∀ key, mask = Some key → length key = 4%nat) →
  (key ← read_key masked; p ← read_exact WsIo (length payload); mret (unmask key p) : StreamM FrameError bytes)
    (mkStream (masked_body payload mask ++ rest) e) = (Ok payload, mkStream rest e).
Proof.
  intros -> Hk. unfold read_key, masked_body, mbind, StreamM_bind. destruct mask as [key|]; cbn [is_masked mret StreamM_ret].
  - rewrite <- app_assoc, read_exact_app by by apply Hk. cbn [mret StreamM_ret]. rewrite read_exact_app by apply length_apply_mask. cbn. by rewrite apply_mask_twice.
  - by rewrite read_exact_app.
Qed.

Lemma read_frame_encoded role max o payload mask rest e : ws_sendable role max o payload mask →
  read_frame role max (mkStream (encode_frame o payload mask ++ rest) e) = (Ok (mkFrame true o payload), mkStream rest e).
Proof.
  intros [Hm Hx Hc Hl]. rewrite encode_frame_parts, <- !app_assoc. destruct (first_byte o) as (H80 & H70 & Hop).
  set (n := Z.of_nat (length payload)) in *. assert (0 ≤ length_byte n < 128) as Hlb by (unfold length_byte; repeat case_bool; bool_hyps; lia).
  destruct (second_byte (is_masked mask) _ Hlb) as [Hb Hn]. set (b0 := Z.lor 0x80 _) in *. set (b1 := Z.lor _ (length_byte n)) in *. clearbody b0 b1.
  unfold read_frame. unfold mbind at 1, StreamM_bind at 1. rewrite read_exact_app by done. cbn [nth]. rewrite H80, H70, Hop, Hb, Hn. cbn [negb].
  assert (check_masking role (negb (negb (is_masked mask))) = mret ()) as -> by (by destruct role, mask).
  pose proof (read_key_body payload mask rest e (negb (negb (is_masked mask)))) as Hk. unfold require, require_some, mbind, StreamM_bind in *. cbn [mret StreamM_ret] in *.
  rewrite read_length_rest by lia. assert (negb (Opcode.is_control o) || (n <=? Z.of_nat MAX_CONTROL_PAYLOAD) = true) as ->.
  { destruct (Opcode.is_control o); [|done]. apply Z.leb_le. specialize (Hc eq_refl). lia. }
  rewrite orb_true_r, (proj2 (Z.leb_le n _)) by lia. cbn [mret StreamM_ret]. unfold n. rewrite Nat2Z.id.
  specialize (Hk ltac:(by destruct mask) ltac:(intros key ->; by destruct role)). destruct (read_key _ _) as [[key|x] s1]; [|done]. destruct (read_exact _ _ s1) as [[p|x] s2]; [|done].
  by injection Hk as -> ->.
Qed.

(** ** A buffer that grows *)

(** A reader of a prefix decides what it decides on every longer input: only the end of the
    buffer can be reported differently once more has come. *)
Definition incremental {A} (m : StreamM FrameError A) : Prop := ∀ buf more e,
  match m (mkStream buf UnexpectedEof) with
  | (Ok a, s) => m (mkStream (buf ++ more) e) = (Ok a, mkStream (pending s ++ more) e) ∧ ending s = UnexpectedEof ∧ suffix (pending s) buf
  | (Err x, _) => x = WsIo UnexpectedEof ∨ ∃ s', m (mkStream (buf ++ more) e) = (Err x, s')
  end.

Lemma incremental_ret {A} (a : A) : incremental (mret a).
Proof. intros buf more e. cbn. by split_and!. Qed.

Lemma incremental_bind {A B} (m : StreamM FrameError A) (f : A → StreamM FrameError B) :
  incremental m → (∀ a, incremental (f a)) → incremental (m ≫= f).
Proof.
  intros Hm Hf buf more e. unfold mbind, StreamM_bind. specialize (Hm buf more e). destruct (m (mkStream buf _)) as [[a|x] [b1 e1]]; cbn in Hm.
  - destruct Hm as (-> & -> & Hs1). specialize (Hf a b1 more e). destruct (f a (mkStream b1 _)) as [[b|x] s2]; [|done].
    destruct Hf as (-> & -> & Hs2). split_and!; [done|done|]. by etrans.
  - destruct Hm as [?|[s' ->]]; [by left|right; by exists s'].
Qed.

Lemma incremental_read n : incremental (read_exact WsIo n).
Proof.
  intros buf more e. unfold read_exact. cbn [pending ending]. destruct (Nat.leb_spec n (length buf)); [|by left].
  rewrite length_app, (proj2 (Nat.leb_le _ _)) by lia. cbn [pending]. rewrite take_app_le, drop_app_le by lia. split_and!; [done|done|]. apply suffix_drop.
Qed.

Lemma incremental_refuse {A} x : incremental (refuse (A := A) x).
Proof. intros buf more e. right. by eexists. Qed.

Lemma incremental_require b x : incremental (require b x).
Proof. unfold require. destruct b; [apply incremental_ret|apply incremental_refuse]. Qed.

Lemma incremental_frame role max : incremental (read_frame role max).
Proof.
  repeat (apply incremental_bind; [|intros ?]); try apply incremental_read; try apply incremental_require; try apply incremental_ret.
  - unfold require_some. destruct (Opcode.from_bits _); [apply incremental_ret|apply incremental_refuse].
  - unfold check_masking. destruct role; case_match; (apply incremental_ret || apply incremental_refuse).
  - unfold read_length. repeat case_match; repeat (apply incremental_bind; [|intros ?]); (apply incremental_read || apply incremental_require || apply incremental_ret).
  - unfold read_key. case_match; repeat (apply incremental_bind; [|intros ?]); (apply incremental_read || apply incremental_ret).
Qed.

Lemma parse_frame_extends buf more role max :
  match parse_frame buf role max with
  | Ok (Some (f, n)) => (n ≤ length buf)%nat ∧ parse_frame (buf ++ more) role max = Ok (Some (f, n))
  | Ok None => True
  | Err e => parse_frame (buf ++ more) role max = Err e
  end.
Proof.
  unfold parse_frame. pose proof (incremental_frame role max buf more UnexpectedEof) as Hi.
  destruct (read_frame role max (mkStream buf UnexpectedEof)) as [[f|x] s].
  - destruct Hi as (-> & _ & [pre ->]). cbn [pending]. rewrite !length_app. split; [lia|]. do 3 f_equal. lia.
  - destruct x as [[| |c]|what|len|]; [done|..]; (destruct Hi as [?|[s' ->]]; done).
Qed.

(** A frame goes through whole. Whatever the opcode, the payload, within the limits, and the
    masking key, the receiving end reads back the frame that was encoded, takes exactly its
    bytes off the stream, and leaves what follows to be read. *)
Theorem ws_frame_roundtrip role max o payload mask rest e : ws_sendable role max o payload mask →
  read_frame role max (mkStream (encode_frame o payload mask ++ rest) e) = (Ok (mkFrame true o payload), mkStream rest e).
Proof. apply read_frame_encoded. Qed.

(** Parsing a buffer as it grows. Once [parse_frame] has returned a frame or an error it
    returns the same for every longer buffer; on every proper prefix of an encoded frame it
    asks for more, and with the last byte it returns the frame and its length. *)
Theorem ws_parse_incremental role max :
  (∀ buf more r, parse_frame buf role max = r → r ≠ Ok None → parse_frame (buf ++ more) role max = r) ∧
  (∀ o payload mask, ws_sendable role max o payload mask →
     let wire := encode_frame o payload mask in
     (∀ k, (k < length wire)%nat → parse_frame (take k wire) role max = Ok None) ∧
     parse_frame wire role max = Ok (Some (mkFrame true o payload, length wire))).
Proof.
  split.
  - intros buf more r <- Hr. pose proof (parse_frame_extends buf more role max) as He. destruct (parse_frame buf role max) as [[[f n]|]|x]; [|done|done]. by destruct He.
  - intros o payload mask Hs wire. assert (parse_frame wire role max = Ok (Some (mkFrame true o payload, length wire))) as Hw.
    { pose proof (read_frame_encoded role max o payload mask [] UnexpectedEof Hs) as H. rewrite app_nil_r in H. fold wire in H. clearbody wire.
      unfold parse_frame. rewrite H. cbn [pending length]. by rewrite Nat.sub_0_r. }
    split; [|done]. clearbody wire. intros k Hk. pose proof (parse_frame_extends (take k wire) (drop k wire) role max) as He. rewrite take_drop, Hw in He.
    destruct (parse_frame (take k wire) role max) as [[[f n]|]|x]; [|done|done]. destruct He as [Hn [= _ He]]. rewrite length_take in Hn. lia.
Qed.

(** * The assembler *)

(** The frames of a message sent in parts: the first carries the opcode, the others continue
    it, the last one is marked final. *)
Fixpoint continuations (parts : list bytes) : list Frame :=
  match parts with
  | [] => []
  | [p] => [mkFrame true Continuation p]
  | p :: parts => mkFrame false Continuation p :: continuations parts
  end.
Definition fragments (o : Opcode) (parts : list bytes) : list Frame :=
  match parts with
  | [] => []
  | [p] => [mkFrame true o p]
  | p :: parts => mkFrame false o p :: continuations parts
  end.

Definition is_data (f : Frame) : bool := negb (Opcode.is_control (opcode f)).

(** What a control frame says, [None] for a body of one byte. *)
Definition control_message (f : Frame) : option Message :=
  match opcode f, f_payload f with
  | Ping, p => Some (PingMessage p)
  | Pong, p => Some (PongMessage p)
  | Close, [] => Some (CloseMessage None)
  | Close, b0 :: b1 :: _ => Some (CloseMessage (Some (from_be_bytes [b0; b1])))
  | _, _ => None
  end.

(** Frames pushed one after the other, up to the first error. *)
Fixpoint push_all (a : Assembler) (frames : list Frame) : result FrameError (list Message) * Assembler :=
  match frames with
  | [] => (Ok [], a)
  | f :: frames =>
      match Assembler.push a f with
      | (Err e, a) => (Err e, a)
      | (Ok m, a) =>
          match push_all a frames with
          | (Ok ms, a) => (Ok (option_list m ++ ms), a)
          | (Err e, a) => (Err e, a)
          end
      end
  end.

(** The messages of a sequence whose one data message is [m]: the control frames where they
    stand, [m] where its last fragment does. *)
Definition delivered (m : Message) (frames : list Frame) : list Message :=
  concat (map (λ f, if is_data f then (if fin f then [m] else []) else option_list (control_message f)) frames).

Lemma push_control a f : Opcode.is_control (opcode f) = true → is_Some (control_message f) → Assembler.push a f = (Ok (control_message f), a).
Proof.
  destruct f as [fi o p]. unfold control_message, Assembler.push. cbn [opcode f_payload]. intros Hc [m Hm].
  destruct o; try done. by destruct p as [|b0 [|b1 p]].
Qed.

Lemma push_controls a frames m : filter (λ f, is_data f) frames = [] → Forall (λ f, is_data f = true ∨ is_Some (control_message f)) frames →
  push_all a frames = (Ok (delivered m frames), a).
Proof.
  induction frames as [|f frames IH]; [done|]. intros Hf [Hc Hcs]%Forall_cons. cbn [push_all]. rewrite filter_cons in Hf.
  destruct (is_data f) eqn:Hd; [by rewrite decide_True in Hf|]. rewrite decide_False in Hf by auto. destruct Hc as [?|Hc]; [congruence|].
  rewrite push_control by (done || by apply negb_false_iff). rewrite (IH Hf Hcs). unfold delivered. cbn [map concat]. by rewrite Hd.
Qed.

(** A message under way, with [buf] of it held. *)
Lemma push_continuations max o buf frames parts m : parts ≠ [] → filter (λ f, is_data f) frames = continuations parts →
  Forall (λ f, is_data f = true ∨ is_Some (control_message f)) frames → (length (buf ++ concat parts) ≤ max)%nat → finish o (buf ++ concat parts) = Ok m →
  push_all (mkAssembler max (Some (o, buf))) frames = (Ok (delivered m frames), Assembler.new max).
Proof.
  revert buf parts. induction frames as [|f frames IH]; intros buf parts Hne Hf Hc Hl Hm; [by destruct parts as [|p [|q parts]]|].
  apply Forall_cons in Hc as [Hf1 Hc]. cbn [push_all]. rewrite filter_cons in Hf. unfold delivered. cbn [map concat]. destruct (is_data f) eqn:Hd.
  - rewrite decide_True in Hf by done. destruct parts as [|p parts]; [done|]. cbn [concat] in Hl, Hm. rewrite !length_app in Hl.
    assert ((Assembler.room (mkAssembler max (Some (o, buf))) <? length p)%nat = false) as Hr by (apply Nat.ltb_ge; unfold Assembler.room; cbn; lia).
    destruct parts as [|q parts]; injection Hf as -> Hf; unfold Assembler.push; cbn [opcode fin f_payload partial max_message]; rewrite Hr.
    + rewrite app_nil_r in Hm. rewrite Hm. cbn [fmap result_fmap option_list]. rewrite (push_controls _ _ m Hf Hc). done.
    + rewrite (IH (buf ++ p) (q :: parts)); [done|done|done|done|rewrite !length_app; lia|by rewrite <- app_assoc].
  - rewrite decide_False in Hf by auto. destruct Hf1 as [?|Hf1]; [congruence|]. rewrite push_control by (done || by apply negb_false_iff).
    rewrite (IH buf parts) by done. done.
Qed.

Lemma push_overflow max o buf frames parts : filter (λ f, is_data f) frames = continuations parts →
  Forall (λ f, is_data f = true ∨ is_Some (control_message f)) frames → (length buf ≤ max)%nat → (max < length (buf ++ concat parts))%nat →
  ∃ n a, push_all (mkAssembler max (Some (o, buf))) frames = (Err (TooLarge n), a) ∧ Z.of_nat max < n.
Proof.
  revert buf parts. induction frames as [|f frames IH]; intros buf parts Hf Hc Hb Hl.
  { destruct parts as [|p [|q parts]]; [|done..]. cbn [concat] in Hl. rewrite app_nil_r in Hl. lia. }
  apply Forall_cons in Hc as [Hf1 Hc]. cbn [push_all]. rewrite filter_cons in Hf. destruct (is_data f) eqn:Hd.
  - rewrite decide_True in Hf by done. destruct parts as [|p parts]; [done|]. cbn [concat] in Hl.
    assert (f = mkFrame (bool_decide (parts = [])) Continuation p ∧ filter (λ f, is_data f) frames = continuations parts) as [-> Hf'] by (destruct parts; by injection Hf as -> ->).
    unfold Assembler.push. cbn [opcode fin f_payload partial max_message]. unfold Assembler.room. cbn [partial max_message].
    destruct (Nat.ltb_spec (max - length buf) (length p)) as [Hlt|Hge]; [eexists _, _; split; [done|lia]|].
    rewrite bool_decide_false by (intros ->; rewrite !length_app in Hl; cbn in Hl; lia).
    destruct (IH (buf ++ p) parts) as (n & a & -> & Hn); [done|done|rewrite length_app; lia|by rewrite <- app_assoc|]. by exists n, a.
  - rewrite decide_False in Hf by auto. destruct Hf1 as [?|Hf1]; [congruence|]. rewrite push_control by (done || by apply negb_false_iff).
    destruct (IH buf parts) as (n & a & -> & Hn); [done..|]. by exists n, a.
Qed.

Lemma push_first max o fi p : o = Text ∨ o = Binary → Assembler.push (Assembler.new max) (mkFrame fi o p) =
  if (max <? length p)%nat then (Err (TooLarge (Z.of_nat (length p))), Assembler.new max)
  else if fi then (Some <$> finish o p, Assembler.new max) else (Ok None, mkAssembler max (Some (o, p))).
Proof.
  intros Ho. unfold Assembler.push, Assembler.room. cbn [opcode fin f_payload partial max_message Assembler.new]. rewrite Nat.sub_0_r. by destruct Ho as [->| ->].
Qed.

(** The assembler joins fragments. A text or binary message sent in any number of parts, with
    any control frames before, between and after them, is delivered once, where its last part
    comes, as the parts put together; each control frame is delivered where it stands; and
    nothing is held when all has come. It needs that the parts together are within
    the cap and that a text is UTF-8; a longer one is refused, whatever its parts. *)
Theorem ws_assembler_joins max o parts frames m : o = Text ∨ o = Binary → parts ≠ [] → filter (λ f, is_data f) frames = fragments o parts →
  Forall (λ f, is_data f = true ∨ is_Some (control_message f)) frames →
  ((length (concat parts) ≤ max)%nat → finish o (concat parts) = Ok m → push_all (Assembler.new max) frames = (Ok (delivered m frames), Assembler.new max)) ∧
  ((max < length (concat parts))%nat → ∃ n a, push_all (Assembler.new max) frames = (Err (TooLarge n), a) ∧ Z.of_nat max < n).
Proof.
  intros Ho Hne. induction frames as [|f frames IH]; intros Hf; [by destruct parts as [|p [|q parts]]|]. intros [Hf1 Hc]%Forall_cons. rewrite filter_cons in Hf.
  unfold delivered. cbn [push_all map concat]. fold (delivered m frames). destruct (is_data f) eqn:Hd.
  - rewrite decide_True in Hf by done. destruct parts as [|p parts]; [done|]. clear IH Hne. cbn [concat].
    assert (f = mkFrame (bool_decide (parts = [])) o p ∧ filter (λ f, is_data f) frames = continuations parts) as [-> Hf'] by (destruct parts; by injection Hf as -> ->).
    rewrite push_first by done. cbn [fin]. destruct (Nat.ltb_spec max (length p)) as [Hlt|Hge].
    { split; [intros Hl; rewrite length_app in Hl; lia|]. intros _. eexists _, _. split; [done|lia]. }
    destruct parts as [|q parts].
    + rewrite bool_decide_true by done. cbn [concat]. rewrite app_nil_r. split; [|lia]. intros _ ->. cbn [fmap result_fmap option_list].
      by rewrite (push_controls _ _ m Hf' Hc).
    + rewrite bool_decide_false by done. split.
      * intros Hl Hm. by rewrite (push_continuations max o p frames (q :: parts) m).
      * intros Hl. destruct (push_overflow max o p frames (q :: parts)) as (n & a & -> & Hn); [done..|]. by exists n, a.
  - rewrite decide_False in Hf by auto. destruct Hf1 as [?|Hf1]; [congruence|]. rewrite push_control by (done || by apply negb_false_iff).
    destruct (IH Hf Hc) as [IH1 IH2]. split.
    + intros Hl Hm. by rewrite IH1.
    + intros (n & a & -> & Hn)%IH2. by exists n, a.
Qed.

(** ** The reader of messages *)

Definition assembler_ok (a : Assembler) : Prop :=
  match partial a with Some (o, buf) => (o = Text ∨ o = Binary) ∧ (length buf ≤ max_message a)%nat | None => True end.

(** A message within the cap; a text is UTF-8, a control frame has 125 bytes at most. *)
Definition message_ok (max : nat) (m : Message) : Prop :=
  match m with
  | TextMessage t => utf8_valid t = true ∧ (length t ≤ max)%nat
  | BinaryMessage b => (length b ≤ max)%nat
  | PingMessage b | PongMessage b => (length b ≤ MAX_CONTROL_PAYLOAD)%nat
  | CloseMessage _ => True
  end.

Definition frame_ok (f : Frame) : Prop := Opcode.is_control (opcode f) = true → fin f = true ∧ (length (f_payload f) ≤ MAX_CONTROL_PAYLOAD)%nat.

Lemma finish_ok max o p m : finish o p = Ok m → (length p ≤ max)%nat → message_ok max m.
Proof. unfold finish. intros Hf Hl. destruct o; [by injection Hf as <-|destruct (utf8_valid p) eqn:E; [by injection Hf as <-|done]|by injection Hf as <-..]. Qed.

Lemma fmap_Some_Ok {E A} (r : result E A) a : Some <$> r = Ok (Some a) → r = Ok a.
Proof. destruct r; [by intros [= ->]|done]. Qed.

Lemma push_ok a f r a' : assembler_ok a → frame_ok f → Assembler.push a f = (r, a') →
  assembler_ok a' ∧ max_message a' = max_message a ∧ ∀ m, r = Ok (Some m) → message_ok (max_message a) m.
Proof.
  intros Ha Hf. unfold Assembler.push. destruct f as [fi o p]. unfold frame_ok in Hf. cbn [opcode fin f_payload] in *.
  destruct o; cbn [Opcode.is_control] in Hf.
  - unfold assembler_ok in Ha. destruct (partial a) as [[o buf]|] eqn:Hp; [|by intros [= <- <-]; unfold assembler_ok; rewrite Hp]. unfold Assembler.room. rewrite Hp.
    destruct Ha as [Ho Hb]. destruct (Nat.ltb_spec (max_message a - length buf) (length p)); [by intros [= <- <-]|]. destruct fi; intros [= <- <-]; (split_and!; [|done|]).
    + done.
    + intros m Hm%(fmap_Some_Ok (finish o (buf ++ p))). eapply finish_ok; [exact Hm|]. rewrite length_app. lia.
    + split; [done|]. cbn. rewrite length_app. lia.
    + done.
  - destruct (partial a) as [[o buf]|] eqn:Hp; [intros [= <- <-]; by split_and!|]. unfold Assembler.room. rewrite Hp, Nat.sub_0_r.
    destruct (Nat.ltb_spec (max_message a) (length p)); [intros [= <- <-]; by split_and!|]. destruct fi; intros [= <- <-]; (split_and!; [|done|]); [done| | |done].
    + intros m Hm%(fmap_Some_Ok (finish Text p)). by eapply finish_ok.
    + split; [by left|]. done.
  - destruct (partial a) as [[o buf]|] eqn:Hp; [intros [= <- <-]; by split_and!|]. unfold Assembler.room. rewrite Hp, Nat.sub_0_r.
    destruct (Nat.ltb_spec (max_message a) (length p)); [intros [= <- <-]; by split_and!|]. destruct fi; intros [= <- <-]; (split_and!; [|done|]); [done| | |done].
    + intros m Hm. by injection Hm as <-.
    + split; [by right|]. done.
  - intros [= <- <-]. split_and!; [done|done|]. destruct p as [|b0 [|b1 p]]; by intros m [= <-].
  - intros [= <- <-]. split_and!; [done|done|]. intros m [= <-]. by apply Hf.
  - intros [= <- <-]. split_and!; [done|done|]. intros m [= <-]. by apply Hf.
Qed.

Lemma read_length_shrinks n s len s' : read_length n s = (Ok len, s') → (length (pending s') ≤ length (pending s))%nat.
Proof.
  unfold read_length. destruct (n =? 126); [|destruct (n =? 127); [|by intros [= _ <-]]].
  - intros (b & s1 & (_ & Hp & _)%read_exact_Ok & [= _ <-])%bind_stream_Ok. rewrite Hp, length_app. lia.
  - intros (b & s1 & (_ & Hp & _)%read_exact_Ok & ([] & s2 & [_ ->]%require_stream_Ok & [= _ <-])%bind_stream_Ok)%bind_stream_Ok. rewrite Hp, length_app. lia.
Qed.

Lemma read_key_shrinks masked s key s' : read_key masked s = (Ok key, s') → (length (pending s') ≤ length (pending s))%nat.
Proof.
  unfold read_key. destruct masked; [|by intros [= _ <-]]. intros (b & s1 & (_ & Hp & _)%read_exact_Ok & [= _ <-])%bind_stream_Ok. rewrite Hp, length_app. lia.
Qed.

Lemma length_unmask key p : length (unmask key p) = length p.
Proof. destruct key; [apply length_apply_mask|done]. Qed.

(** A frame the reader returns took two bytes or more, and a control frame is whole and short. *)
Lemma read_frame_ok role max s f s' : read_frame role max s = (Ok f, s') → frame_ok f ∧ (length (pending s') + 2 ≤ length (pending s))%nat.
Proof.
  intros Hr. unfold read_frame in Hr. apply bind_stream_Ok in Hr as (head & s1 & (Hh & Hp1 & _)%read_exact_Ok & Hr). cbv zeta in Hr.
  apply bind_stream_Ok in Hr as ([] & s2 & [_ ->]%require_stream_Ok & Hr). apply bind_stream_Ok in Hr as (o & s2 & [_ ->]%require_some_Ok & Hr).
  apply bind_stream_Ok in Hr as ([] & s2 & Hm & Hr). assert (s2 = s1) as -> by (unfold check_masking in Hm; destruct role; case_match; by injection Hm).
  apply bind_stream_Ok in Hr as (len & s2 & Hp2%read_length_shrinks & Hr).
  apply bind_stream_Ok in Hr as ([] & s3 & [Hfin ->]%require_stream_Ok & Hr). apply bind_stream_Ok in Hr as ([] & s3 & [Hlen ->]%require_stream_Ok & Hr).
  apply bind_stream_Ok in Hr as ([] & s3 & [_ ->]%require_stream_Ok & Hr). apply bind_stream_Ok in Hr as (key & s3 & Hp3%read_key_shrinks & Hr).
  apply bind_stream_Ok in Hr as (p & s4 & (Hp & Hp4 & _)%read_exact_Ok & [= <- <-]). rewrite Hp1, length_app, Hh. split.
  - unfold frame_ok. cbn [opcode fin f_payload]. rewrite length_unmask, Hp. intros Hc. rewrite Hc in Hfin, Hlen. cbn [negb orb] in Hfin, Hlen. split; [exact Hfin|]. apply Z.leb_le in Hlen. lia.
  - rewrite Hp4, length_app in Hp3. lia.
Qed.

Lemma read_loop_ok fuel role a s : assembler_ok a → (length (pending s) < fuel)%nat → ∃ r a' s', read_loop fuel role a s = Some (r, a', s') ∧
  assembler_ok a' ∧ max_message a' = max_message a ∧ ∀ m, r = Ok m → message_ok (max_message a) m.
Proof.
  revert a s. induction fuel as [|fuel IH]; intros a s Ha Hf; [lia|]. cbn [read_loop].
  destruct (read_frame role (Assembler.frame_cap a) s) as [[f|e] s1] eqn:Hr; [|by exists (Err e), a, s1]. apply read_frame_ok in Hr as [Hok Hp].
  destruct (Assembler.push a f) as [r a1] eqn:Hu. destruct (push_ok _ _ _ _ Ha Hok Hu) as (Ha1 & Hmax & Hm). destruct r as [[m|]|e].
  - exists (Ok m), a1, s1. split_and!; [done..|]. intros m' [= <-]. by apply Hm.
  - rewrite <- Hmax. apply IH; [done|lia].
  - by exists (Err e), a1, s1.
Qed.

(** C33. Reading a message ends and stays within the cap. On any finite stream, whatever the peer
    sends, [MessageReader::read] returns: a message of at most [max_message] bytes, a text
    being UTF-8 and the body of a ping or pong 125 bytes at most, or an error; and the
    fragments it still holds are within the cap. *)
Theorem ws_reader_total role a s : assembler_ok a → ∃ r a' s', read_message role a s = Some (r, a', s') ∧
  assembler_ok a' ∧ max_message a' = max_message a ∧ ∀ m, r = Ok m → message_ok (max_message a) m.
Proof. intros Ha. apply read_loop_ok; [done|lia]. Qed.

(** ** The close frame *)

(** A valid text starts with a whole character. *)
Lemma utf8_first s : utf8_valid s = true → s ≠ [] → ∃ c r, s = c ++ r ∧ c ≠ [] ∧ Forall (λ b, continuation b = true) (tail c) ∧
  utf8_valid r = true ∧ ∀ r', utf8_valid (c ++ r') = utf8_valid r'.
Proof.
  destruct s as [|b r]; [done|]. intros Hv _. cbn [utf8_valid] in Hv. destruct (in_range 0 0x7f b) eqn:E1.
  { exists [b], r. split_and!; [done|done|constructor|done|]. intros r'. cbn. by rewrite E1. }
  assert (∀ (hi : Z) b', in_range (if b =? hi then 0xa0 else 0x80) (if b =? 0xed then 0x9f else 0xbf) b' = true → continuation b' = true) as Hr1.
  { intros hi b'. unfold continuation, in_range. repeat case_match; intros ?; bool_hyps; apply andb_true_iff; split; apply Z.leb_le; lia. }
  assert (∀ b', in_range (if b =? 0xf0 then 0x90 else 0x80) (if b =? 0xf4 then 0x8f else 0xbf) b' = true → continuation b' = true) as Hr2.
  { intros b'. unfold continuation, in_range. repeat case_match; intros ?; bool_hyps; apply andb_true_iff; split; apply Z.leb_le; lia. }
  destruct r as [|b1 r]; [done|]. destruct (in_range 0xc2 0xdf b) eqn:E2.
  { apply andb_true_iff in Hv as [H1 Hv]. exists [b; b1], r. split_and!; [done|done|by repeat constructor|done|]. intros r'. cbn. by rewrite E1, E2, H1. }
  destruct r as [|b2 r]; [done|]. destruct (in_range 0xe0 0xef b) eqn:E3.
  { rewrite !andb_true_iff in Hv. destruct Hv as [[H1 H2] Hv]. exists [b; b1; b2], r. split_and!; [done|done|repeat constructor; [by eapply Hr1|done]|done|].
    intros r'. cbn. by rewrite E1, E2, E3, H1, H2. }
  destruct r as [|b3 r]; [done|]. rewrite !andb_true_iff in Hv. destruct Hv as [[[[H0 H1] H2] H3] Hv].
  exists [b; b1; b2; b3], r. split_and!; [done|done|repeat constructor; [by apply Hr2|done|done]|done|]. intros r'. cbn. by rewrite E1, E2, E3, H0, H1, H2, H3.
Qed.

Lemma not_boundary l s k : (0 < k < length l)%nat → Forall (λ b, continuation b = true) (tail l) → is_char_boundary (l ++ s) k = false.
Proof.
  intros [Hk Hl] Hc. destruct k as [|k]; [lia|]. unfold is_char_boundary. cbn [Nat.eqb orb]. rewrite lookup_app_l by lia.
  destruct l as [|b l]; [cbn in Hl; lia|]. cbn [length tail] in Hl, Hc. change ((b :: l) !! S k) with (l !! k). destruct (lookup_lt_is_Some_2 l k) as [x Hx]; [lia|]. rewrite Hx. rewrite Forall_lookup in Hc. by rewrite (Hc k x Hx).
Qed.

(** Cutting a text at a character boundary leaves a text. *)
Lemma utf8_cut s k : utf8_valid s = true → is_char_boundary s k = true → utf8_valid (take k s) = true.
Proof.
  remember (length s) as n eqn:Hn. revert s k Hn. induction (lt_wf n) as [n _ IH]; intros s k -> Hv Hb.
  destruct s as [|b s']; [by rewrite take_nil|]. destruct (utf8_first (b :: s') Hv ltac:(done)) as (c & r & E & Hc & Ht & Hr & Hall). rewrite E in *. clear b s' E Hv.
  destruct (decide (k < length c)%nat) as [Hk|Hk].
  - destruct k as [|k]; [by rewrite take_0|]. rewrite not_boundary in Hb by (done || lia). done.
  - rewrite take_app_ge, Hall by lia. assert (0 < length c)%nat by (destruct c; [done|cbn; lia]).
    apply (IH (length r)); [rewrite length_app; lia|done|done|]. unfold is_char_boundary in *. rewrite lookup_app_r in Hb by lia.
    destruct (k - length c)%nat as [|j] eqn:Ek; [done|]. cbn [Nat.eqb orb]. rewrite (proj2 (Nat.eqb_neq k 0)) in Hb by lia. cbn [orb] in Hb.
    destruct (r !! S j); [done|]. rewrite length_app in Hb. apply Nat.eqb_eq in Hb. apply (proj2 (Nat.eqb_eq (S j) (length r))). lia.
Qed.

Lemma char_cut_spec reason cut : (char_cut reason cut ≤ cut)%nat ∧ is_char_boundary reason (char_cut reason cut) = true.
Proof.
  induction cut as [|cut [IH1 IH2]]; cbn [char_cut]; [done|]. destruct (is_char_boundary reason (S cut)) eqn:E; [done|]. split; [lia|done].
Qed.

(** A close frame can always be sent and is understood: with any code and any text, however
    long, the payload fits a control frame, the text in it is a valid prefix of the reason,
    and the other end's assembler reads the code back. *)
Theorem ws_close_payload code reason a : is_u16 code → utf8_valid reason = true →
  let p := close_payload code reason in
  (length p ≤ MAX_CONTROL_PAYLOAD)%nat ∧ utf8_valid (drop 2 p) = true ∧ drop 2 p `prefix_of` reason ∧
  Assembler.push a (mkFrame true Close p) = (Ok (Some (CloseMessage (Some code))), a).
Proof.
  intros Hc Hv p. unfold p, close_payload. destruct (char_cut_spec reason (length reason `min` (MAX_CONTROL_PAYLOAD - 2))) as [Hl Hb].
  set (k := char_cut _ _) in *. rewrite drop_app_length' by (by rewrite length_to_be_bytes). rewrite length_app, length_to_be_bytes, length_take. split_and!.
  - unfold MAX_CONTROL_PAYLOAD in *. lia.
  - by apply utf8_cut.
  - apply prefix_take.
  - unfold Assembler.push. cbn [opcode f_payload]. pose proof (from_to_be_bytes 2 code ltac:(unfold in_u in Hc; cbn; lia)) as Hf.
    pose proof (length_to_be_bytes 2 code) as Hlen. destruct (to_be_bytes 2 code) as [|b0 [|b1 [|]]]; [done|done| |done]. cbn [app]. by rewrite Hf.
Qed.

(** * Witnesses *)

Definition hello : bytes := [104; 101; 108; 108; 111].
Definition hello_frames : list Frame :=
  [mkFrame false Text [104; 101]; mkFrame true Ping [1]; mkFrame false Continuation []; mkFrame true Continuation [108; 108; 111]; mkFrame true Close []].

Lemma hello_sendable : ws_sendable Server 10 Text hello (Some [1; 2; 3; 4]).
Proof. by split; cbn; try lia. Qed.

Lemma ws_frame_roundtrip_witness :
  read_frame Server 10 (mkStream (encode_frame Text hello (Some [1; 2; 3; 4]) ++ [9]) TimedOut) = (Ok (mkFrame true Text hello), mkStream [9] TimedOut).
Proof. apply (ws_frame_roundtrip Server 10 Text hello (Some [1; 2; 3; 4]) [9] TimedOut). exact hello_sendable. Defined.

Lemma ws_parse_incremental_witness :
  parse_frame (encode_frame Text hello (Some [1; 2; 3; 4])) Server 10 = Ok (Some (mkFrame true Text hello, 11%nat)) ∧
  parse_frame (take 10 (encode_frame Text hello (Some [1; 2; 3; 4]))) Server 10 = Ok None.
Proof.
  destruct (ws_parse_incremental Server 10) as [_ H]. destruct (H Text hello (Some [1; 2; 3; 4]) hello_sendable) as [H1 H2].
  split; [exact H2|]. apply H1. vm_compute. lia.
Defined.

Lemma ws_assembler_joins_witness :
  push_all (Assembler.new 10) hello_frames = (Ok [PingMessage [1]; TextMessage hello; CloseMessage None], Assembler.new 10).
Proof.
  destruct (ws_assembler_joins 10 Text [[104; 101]; []; [108; 108; 111]] hello_frames (TextMessage hello)) as [H _];
    [by left|discriminate|reflexivity| |apply H; [cbn; lia|reflexivity]].
  repeat (apply Forall_cons; split); [by left|right; by eexists|by left|by left|right; by eexists|by apply Forall_nil].
Defined.

Lemma ws_reader_total_witness : ∃ a' s',
  read_message Client (Assembler.new 10) (mkStream (encode_frame Text hello None) UnexpectedEof) = Some (Ok (TextMessage hello), a', s') ∧ assembler_ok a'.
Proof.
  destruct (ws_reader_total Client (Assembler.new 10) (mkStream (encode_frame Text hello None) UnexpectedEof)) as (r & a' & s' & Hr & Ha & _); [exact I|].
  exists a', s'. split; [|exact Ha]. rewrite Hr. assert (fst <$> (fst <$> Some (r, a', s')) = Some (Ok (TextMessage hello))) as [= ->]; [|reflexivity].
  rewrite <- Hr. vm_compute. reflexivity.
Defined.

Lemma ws_close_payload_witness :
  Assembler.push (Assembler.new 10) (mkFrame true Close (close_payload close.NORMAL hello)) = (Ok (Some (CloseMessage (Some close.NORMAL))), Assembler.new 10).
Proof.
  destruct (ws_close_payload close.NORMAL hello (Assembler.new 10)) as (_ & _ & _ & H); [unfold in_u, close.NORMAL; lia|vm_compute; reflexivity|exact H].
Defined.
