(* ===== verification/P2pMsg.v ===== *)
(** The messages of the peer protocol (crates/wrkz-p2p/src/msg.rs) and the cap on the payload
    of each command (limits.rs). An encoder returns [None] where [kv::encode] panics. Arrays
    such as [\[u8; 32\]] are byte lists whose length [try_into] checks. *)
From stdpp Require Import strings.
From S2P Require Import Prelude Varint Hashing Levin.
From S2P Require Kv ChainState Windows.
Import Kv(Value, KvSection, Uint, Int, Double, String, Bool, Object, Array).
Module KvSection := Kv.KvSection.
Local Open Scope Z_scope.

Definition COMMAND_HANDSHAKE : Z := 1001.
Definition COMMAND_TIMED_SYNC : Z := 1002.
Definition COMMAND_PING : Z := 1003.
Definition NOTIFY_NEW_BLOCK : Z := 2001.
Definition NOTIFY_NEW_TRANSACTIONS : Z := 2002.
Definition NOTIFY_REQUEST_GET_OBJECTS : Z := 2003.
Definition NOTIFY_RESPONSE_GET_OBJECTS : Z := 2004.
Definition NOTIFY_REQUEST_CHAIN : Z := 2006.
Definition NOTIFY_RESPONSE_CHAIN_ENTRY : Z := 2007.
Definition NOTIFY_REQUEST_TX_POOL : Z := 2008.
Definition NOTIFY_NEW_LITE_BLOCK : Z := 2009.
Definition NOTIFY_MISSING_TXS : Z := 2010.

Definition CRYPTONOTE_NETWORK : bytes :=
  [0xb5; 0x0c; 0x4a; 0x6c; 0xcf; 0x52; 0x57; 0x41; 0x65; 0xf9; 0x91; 0xa4; 0xb6; 0xc1; 0x43; 0xe9].
Definition P2P_CURRENT_VERSION : Z := 19.
Definition P2P_CONNECTION_MAX_WRITE_BUFFER_SIZE : Z := 32 * 1024 * 1024.

Definition MAX_PEERLIST_ENTRIES : nat := 250.
Definition MAX_HASHES : nat := Z.to_nat 10_000.

Definition malformed {A} (what : string) : result Error A := Err (Malformed what).
Definition or_malformed {A} (what : string) (o : option A) : result Error A := ok_or (Malformed what) o.
(** [try_into] an array of [n] bytes *)
Definition array_of (n : nat) (what : string) (b : bytes) : result Error bytes := if (length b =? n)%nat then Ok b else malformed what.

(** Field names, as bytes. *)
Abbreviation name s := (ascii_bytes s).
Abbreviation kv_u8 s n v := (KvSection.u8 s (name n) v).
Abbreviation kv_u32 s n v := (KvSection.u32 s (name n) v).
Abbreviation kv_u64 s n v := (KvSection.u64 s (name n) v).
Abbreviation kv_string s n v := (KvSection.string s (name n) v).
Abbreviation kv_object s n v := (KvSection.object s (name n) v).

(** [is_multiple_of] and the quotient. *)
Definition blob_count (blob : bytes) (stride max : nat) (what : string) : result Error nat :=
  if negb (length blob mod stride =? 0)%nat then malformed what
  else
    let n := (length blob / stride)%nat in
    if (max <? n)%nat then malformed what else Ok n.

(** * Node and sync data *)

Record BasicNodeData := mkBasicNodeData { network_id : bytes; version : Z; peer_id : Z; local_time : Z; my_port : Z }.

Module BasicNodeData.
Definition ours `{ChainState.SystemClock} (peer_id my_port : Z) : BasicNodeData :=
  mkBasicNodeData CRYPTONOTE_NETWORK P2P_CURRENT_VERSION peer_id ChainState.system_now my_port.

Definition to_section (d : BasicNodeData) : KvSection :=
  let s := kv_string [] "network_id" (network_id d) in
  let s := kv_u8 s "version" (version d) in
  let s := kv_u64 s "peer_id" (peer_id d) in
  let s := kv_u64 s "local_time" (local_time d) in
  kv_u32 s "my_port" (my_port d).

Definition from_section (s : KvSection) : result Error BasicNodeData :=
  nid ← or_malformed "network_id" (KvSection.get_bytes s (name "network_id"));
  network_id ← array_of 16 "network_id length" nid;
  let version := wrap 8 (default 0 (KvSection.get_u64 s (name "version"))) in
  peer_id ← or_malformed "peer_id" (KvSection.get_u64 s (name "peer_id"));
  local_time ← or_malformed "local_time" (KvSection.get_u64 s (name "local_time"));
  my_port ← or_malformed "my_port" (KvSection.get_u64 s (name "my_port"));
  Ok (mkBasicNodeData network_id version peer_id local_time (wrap 32 my_port)).
End BasicNodeData.

Record CoreSyncData := mkCoreSyncData {
  current_height : Z; top_id : bytes; capability_flags : Z; pruned_node_height : Z; lite_start_height : Z }.

Module CoreSyncData.
Definition default_ : CoreSyncData := mkCoreSyncData 0 (replicate 32 0) 0 0 0.

Definition to_section (d : CoreSyncData) : KvSection :=
  let s := kv_u32 [] "current_height" (current_height d) in
  let s := kv_string s "top_id" (top_id d) in
  let s := kv_u32 s "capability_flags" (capability_flags d) in
  let s := kv_u32 s "pruned_node_height" (pruned_node_height d) in
  kv_u32 s "lite_start_height" (lite_start_height d).

Definition from_section (s : KvSection) : result Error CoreSyncData :=
  top ← or_malformed "top_id" (KvSection.get_bytes s (name "top_id"));
  current_height ← or_malformed "current_height" (KvSection.get_u64 s (name "current_height"));
  top_id ← array_of 32 "top_id length" top;
  let flag n := wrap 32 (default 0 (KvSection.get_u64 s n)) in
  Ok (mkCoreSyncData (wrap 32 current_height) top_id (flag (name "capability_flags")) (flag (name "pruned_node_height")) (flag (name "lite_start_height"))).
End CoreSyncData.

(** * Peer lists *)

Record PeerlistEntry := mkPeer { p_ip : bytes; p_port : Z; p_id : Z; p_last_seen : Z }.

Module PeerlistEntry.
Definition STRIDE : nat := 24.
Definition to_blob_entry (e : PeerlistEntry) : bytes :=
  p_ip e ++ to_le_bytes 4 (p_port e) ++ to_le_bytes 8 (p_id e) ++ to_le_bytes 8 (p_last_seen e).
Definition of_chunk (c : bytes) : PeerlistEntry :=
  mkPeer (slice c 0 4) (from_le_bytes (slice c 4 4)) (from_le_bytes (slice c 8 8)) (from_le_bytes (slice c 16 8)).
Definition parse_blob (blob : bytes) : result Error (list PeerlistEntry) :=
  _ ← blob_count blob STRIDE MAX_PEERLIST_ENTRIES "local_peerlist";
  Ok (map of_chunk (as_chunks STRIDE blob).1).
End PeerlistEntry.

(** The IPv6 entry, with the four bytes of padding of the C++ structure. *)
Record PeerlistEntry6 := mkPeer6 { p6_id : Z; p6_last_seen : Z; p6_ip : bytes; p6_port : Z }.

Module PeerlistEntry6.
Definition STRIDE : nat := 40.
Definition to_blob_entry (e : PeerlistEntry6) : bytes :=
  to_le_bytes 8 (p6_id e) ++ to_le_bytes 8 (p6_last_seen e) ++ p6_ip e ++ to_le_bytes 4 (p6_port e) ++ replicate 4 0.
Definition of_chunk (c : bytes) : PeerlistEntry6 :=
  mkPeer6 (from_le_bytes (slice c 0 8)) (from_le_bytes (slice c 8 8)) (slice c 16 16) (from_le_bytes (slice c 32 4)).
Definition parse_blob (blob : bytes) : result Error (list PeerlistEntry6) :=
  _ ← blob_count blob STRIDE MAX_PEERLIST_ENTRIES "local_peerlist6";
  Ok (map of_chunk (as_chunks STRIDE blob).1).
End PeerlistEntry6.

Definition peerlist_blob (entries : list PeerlistEntry) : bytes := concat (map PeerlistEntry.to_blob_entry (take MAX_PEERLIST_ENTRIES entries)).
Definition peerlist6_blob (entries : list PeerlistEntry6) : bytes := concat (map PeerlistEntry6.to_blob_entry (take MAX_PEERLIST_ENTRIES entries)).

(** * The 1000 series *)

Record HandshakeResponse := mkHandshakeResponse {
  node_data : BasicNodeData; payload_data : CoreSyncData; local_peerlist : list PeerlistEntry; local_peerlist6 : list PeerlistEntry6 }.

Definition node_and_sync (node : BasicNodeData) (sync : CoreSyncData) : KvSection :=
  kv_object (kv_object [] "node_data" (BasicNodeData.to_section node)) "payload_data" (CoreSyncData.to_section sync).

Definition get_node_data (s : KvSection) : result Error BasicNodeData :=
  o ← or_malformed "node_data" (KvSection.get_object s (name "node_data")); BasicNodeData.from_section o.
Definition get_payload_data (s : KvSection) : result Error CoreSyncData :=
  o ← or_malformed "payload_data" (KvSection.get_object s (name "payload_data")); CoreSyncData.from_section o.
(** [s.get_bytes(n).unwrap_or(&\[\])] *)
Definition get_blob (s : KvSection) (n : bytes) : bytes := default [] (KvSection.get_bytes s n).

Definition handshake_request (node : BasicNodeData) (sync : CoreSyncData) : option bytes := Kv.encode (node_and_sync node sync).

Definition parse_handshake_request (payload : bytes) : result Error (BasicNodeData * CoreSyncData) :=
  s ← Kv.decode payload;
  node ← get_node_data s;
  sync ← get_payload_data s;
  Ok (node, sync).

Definition handshake_response (node : BasicNodeData) (sync : CoreSyncData) (peerlist : list PeerlistEntry) (peerlist6 : list PeerlistEntry6) : option bytes :=
  Kv.encode (kv_string (kv_string (node_and_sync node sync) "local_peerlist" (peerlist_blob peerlist)) "local_peerlist6" (peerlist6_blob peerlist6)).

Definition parse_handshake_response (payload : bytes) : result Error HandshakeResponse :=
  s ← Kv.decode payload;
  node ← get_node_data s;
  sync ← get_payload_data s;
  peers ← PeerlistEntry.parse_blob (get_blob s (name "local_peerlist"));
  peers6 ← PeerlistEntry6.parse_blob (get_blob s (name "local_peerlist6"));
  Ok (mkHandshakeResponse node sync peers peers6).

Definition timed_sync_request (sync : CoreSyncData) : option bytes := Kv.encode (kv_object [] "payload_data" (CoreSyncData.to_section sync)).

Definition parse_timed_sync_request (payload : bytes) : result Error CoreSyncData :=
  s ← Kv.decode payload; get_payload_data s.

Definition timed_sync_response (local_time : Z) (sync : CoreSyncData) (peerlist peerlist6 : bytes) : option bytes :=
  let s := kv_u64 [] "local_time" local_time in
  let s := kv_object s "payload_data" (CoreSyncData.to_section sync) in
  let s := kv_string s "local_peerlist" peerlist in
  Kv.encode (kv_string s "local_peerlist6" peerlist6).

Definition timed_sync_response_from (local_time : Z) (sync : CoreSyncData) (peerlist : list PeerlistEntry) (peerlist6 : list PeerlistEntry6) : option bytes :=
  timed_sync_response local_time sync (peerlist_blob peerlist) (peerlist6_blob peerlist6).

Record TimedSyncResponse := mkTimedSyncResponse {
  ts_local_time : Z; ts_payload_data : CoreSyncData; ts_local_peerlist : list PeerlistEntry; ts_local_peerlist6 : list PeerlistEntry6 }.

Definition parse_timed_sync_response (payload : bytes) : result Error TimedSyncResponse :=
  s ← Kv.decode payload;
  local_time ← or_malformed "local_time" (KvSection.get_u64 s (name "local_time"));
  sync ← get_payload_data s;
  peers ← PeerlistEntry.parse_blob (get_blob s (name "local_peerlist"));
  peers6 ← PeerlistEntry6.parse_blob (get_blob s (name "local_peerlist6"));
  Ok (mkTimedSyncResponse local_time sync peers peers6).

Definition PING_OK_RESPONSE_STATUS_TEXT : bytes := ascii_bytes "OK".

Definition ping_request : option bytes := Kv.encode [].
Definition ping_response (peer_id : Z) : option bytes :=
  Kv.encode (kv_u64 (KvSection.text [] (name "status") (ascii_bytes "OK")) "peer_id" peer_id).

Record PingResponse := mkPingResponse { pr_status : bytes; pr_peer_id : Z }.

Definition is_ok_for (r : PingResponse) (expected_peer_id : Z) : bool :=
  bool_decide (pr_status r = PING_OK_RESPONSE_STATUS_TEXT) && (pr_peer_id r =? expected_peer_id).

Definition parse_ping_response (payload : bytes) : result Error PingResponse :=
  s ← Kv.decode payload;
  status ← or_malformed "status" (KvSection.get_bytes s (name "status"));
  Ok (mkPingResponse status (default 0 (KvSection.get_u64 s (name "peer_id")))).

(** * The 2000 series *)

Definition hashes_blob (hashes : list bytes) : bytes := concat hashes.
Definition blob_hashes (blob : bytes) (what : string) : result Error (list bytes) :=
  _ ← blob_count blob 32 MAX_HASHES what;
  Ok (as_chunks 32 blob).1.

Definition request_chain (block_ids : list bytes) : option bytes := Kv.encode (kv_string [] "block_ids" (hashes_blob block_ids)).

Definition parse_request_chain (payload : bytes) : result Error (list bytes) :=
  s ← Kv.decode payload;
  ids ← blob_hashes (get_blob s (name "block_ids")) "block_ids";
  if bool_decide (ids = []) then malformed "block_ids empty" else Ok ids.

Record ChainEntry := mkChainEntry { start_height : Z; total_height : Z; block_ids : list bytes }.

Definition chain_entry (start_height total_height : Z) (block_ids : list bytes) : option bytes :=
  Kv.encode (kv_string (kv_u32 (kv_u32 [] "start_height" start_height) "total_height" total_height) "m_block_ids" (hashes_blob block_ids)).

Definition parse_chain_entry (payload : bytes) : result Error ChainEntry :=
  s ← Kv.decode payload;
  block_ids ← blob_hashes (get_blob s (name "m_block_ids")) "m_block_ids";
  if bool_decide (block_ids = []) then malformed "m_block_ids empty"
  else
    start_height ← or_malformed "start_height" (KvSection.get_u64 s (name "start_height"));
    total_height ← or_malformed "total_height" (KvSection.get_u64 s (name "total_height"));
    Ok (mkChainEntry (wrap 32 start_height) (wrap 32 total_height) block_ids).

Definition request_get_objects (blocks : list bytes) : option bytes :=
  Kv.encode (kv_string (kv_string [] "txs" []) "blocks" (hashes_blob blocks)).

Definition parse_request_get_objects (payload : bytes) : result Error (list bytes) :=
  s ← Kv.decode payload;
  _ ← blob_hashes (get_blob s (name "txs")) "txs";
  blob_hashes (get_blob s (name "blocks")) "blocks".

Record RawBlockLegacy := mkRawBlock { rb_block : bytes; rb_txs : list bytes }.

Definition RawBlockLegacy_to_section (b : RawBlockLegacy) : KvSection :=
  KvSection.string_array (kv_string [] "block" (rb_block b)) (name "txs") (rb_txs b).

Fixpoint string_array (v : list Value) (what : string) : result Error (list bytes) :=
  match v with
  | [] => Ok []
  | String s :: v => rest ← string_array v what; Ok (s :: rest)
  | _ :: _ => malformed what
  end.

(** [{ block, txs }] as both block messages read it. *)
Definition raw_block_of (o : KvSection) : result Error RawBlockLegacy :=
  block ← or_malformed "block" (KvSection.get_bytes o (name "block"));
  txs ← string_array (KvSection.get_array o (name "txs")) "block txs";
  Ok (mkRawBlock block txs).

Record GetObjectsResponse := mkGetObjectsResponse {
  go_txs : list bytes; go_blocks : list RawBlockLegacy; missed_ids : list bytes; go_current_blockchain_height : Z }.

Definition get_objects_response (blocks : list RawBlockLegacy) (missed_ids : list bytes) (current_blockchain_height : Z) : option bytes :=
  let s := KvSection.string_array [] (name "txs") [] in
  let s := KvSection.object_array s (name "blocks") (map RawBlockLegacy_to_section blocks) in
  let s := kv_string s "missed_ids" (hashes_blob missed_ids) in
  Kv.encode (kv_u32 s "current_blockchain_height" current_blockchain_height).

Fixpoint raw_blocks (v : list Value) : result Error (list RawBlockLegacy) :=
  match v with
  | [] => Ok []
  | Object o :: v => b ← raw_block_of o; rest ← raw_blocks v; Ok (b :: rest)
  | _ :: _ => malformed "blocks entry"
  end.

Definition get_height (s : KvSection) (n : bytes) : Z := wrap 32 (default 0 (KvSection.get_u64 s n)).

Definition parse_get_objects_response (payload : bytes) : result Error GetObjectsResponse :=
  s ← Kv.decode payload;
  blocks ← raw_blocks (KvSection.get_array s (name "blocks"));
  txs ← string_array (KvSection.get_array s (name "txs")) "txs";
  missed ← blob_hashes (get_blob s (name "missed_ids")) "missed_ids";
  Ok (mkGetObjectsResponse txs blocks missed (get_height s (name "current_blockchain_height"))).

Definition request_tx_pool (hashes : list bytes) : option bytes := Kv.encode (kv_string [] "txs" (hashes_blob hashes)).
Definition parse_request_tx_pool (payload : bytes) : result Error (list bytes) :=
  s ← Kv.decode payload; blob_hashes (get_blob s (name "txs")) "txs".

Record NewBlock := mkNewBlock { nb_block : RawBlockLegacy; nb_current_blockchain_height : Z; nb_hop : Z }.

Definition new_block (nb : NewBlock) : option bytes :=
  let s := kv_object [] "b" (RawBlockLegacy_to_section (nb_block nb)) in
  let s := kv_u32 s "current_blockchain_height" (nb_current_blockchain_height nb) in
  Kv.encode (kv_u32 s "hop" (nb_hop nb)).

Definition parse_new_block (payload : bytes) : result Error NewBlock :=
  s ← Kv.decode payload;
  b ← or_malformed "b" (KvSection.get_object s (name "b"));
  block ← raw_block_of b;
  Ok (mkNewBlock block (get_height s (name "current_blockchain_height")) (get_height s (name "hop"))).

Record LiteBlock := mkLiteBlock { lb_current_blockchain_height : Z; lb_hop : Z; block_template : bytes }.

Definition lite_block (lb : LiteBlock) : option bytes :=
  let s := kv_u32 [] "current_blockchain_height" (lb_current_blockchain_height lb) in
  let s := kv_u32 s "hop" (lb_hop lb) in
  Kv.encode (kv_string s "blockTemplate" (block_template lb)).

Definition parse_lite_block (payload : bytes) : result Error LiteBlock :=
  s ← Kv.decode payload;
  t ← or_malformed "blockTemplate" (KvSection.get_bytes s (name "blockTemplate"));
  Ok (mkLiteBlock (get_height s (name "current_blockchain_height")) (get_height s (name "hop")) t).

Definition new_transactions (txs : list bytes) : option bytes := Kv.encode (KvSection.string_array [] (name "txs") txs).
Definition parse_new_transactions (payload : bytes) : result Error (list bytes) :=
  s ← Kv.decode payload; string_array (KvSection.get_array s (name "txs")) "txs".

Record MissingTxs := mkMissingTxs { mt_current_blockchain_height : Z; mt_block_hash : bytes; mt_missing_txs : list bytes }.

Definition missing_txs (m : MissingTxs) : option bytes :=
  let s := kv_u32 [] "current_blockchain_height" (mt_current_blockchain_height m) in
  let s := kv_string s "blockHash" (mt_block_hash m) in
  Kv.encode (kv_string s "missing_txs" (hashes_blob (mt_missing_txs m))).

Definition parse_missing_txs (payload : bytes) : result Error MissingTxs :=
  s ← Kv.decode payload;
  h ← or_malformed "blockHash" (KvSection.get_bytes s (name "blockHash"));
  block_hash ← array_of 32 "blockHash length" h;
  missing ← blob_hashes (get_blob s (name "missing_txs")) "missing_txs";
  Ok (mkMissingTxs (get_height s (name "current_blockchain_height")) block_hash missing).

(** * The sparse chain *)

Definition checked_mul (w a b : Z) : option Z := if a * b <? 2 ^ w then Some (a * b) else None.

(** At most 32 rounds; see [sparse_loop_spec]. *)
Fixpoint sparse_loop (fuel : nat) (tip i : Z) : list Z :=
  match fuel with
  | O => []
  | S fuel => if i <? tip then (tip - i) :: match checked_mul 32 i 2 with Some next => sparse_loop fuel tip next | None => [] end else []
  end.

Definition sparse_chain_indices (tip : Z) : list Z :=
  Windows.dedup ([tip] ++ sparse_loop 33 tip 1 ++ (if tip =? 0 then [] else [0])).

(** [None] is an index out of range, a panic. *)
Definition sparse_chain (chain : list bytes) : option (list bytes) :=
  match chain with
  | [] => Some []
  | _ => mapM (λ i, chain !! Z.to_nat i) (sparse_chain_indices (wrap 32 (Z.of_nat (length chain) - 1)))
  end.

(** * Limits *)

Definition KV_MARGIN : Z := 4 * 1024.
Definition HANDSHAKE_MAX_PAYLOAD : Z := 64 * 1024 + 2 * Z.of_nat (MAX_PEERLIST_ENTRIES * PeerlistEntry6.STRIDE).
Definition PING_MAX_PAYLOAD : Z := 4 * 1024.
Definition HASH_LIST_MAX_PAYLOAD : Z := Z.of_nat (MAX_HASHES * 32) + KV_MARGIN.
Definition GET_OBJECTS_REQUEST_MAX_PAYLOAD : Z := 2 * Z.of_nat (MAX_HASHES * 32) + KV_MARGIN.
Definition RELAY_MAX_PAYLOAD : Z := 8 * 1024 * 1024.
Definition TRANSACTIONS_MAX_PAYLOAD : Z := P2P_CONNECTION_MAX_WRITE_BUFFER_SIZE.
Definition UNKNOWN_MAX_PAYLOAD : Z := 64 * 1024.

Definition max_inbound_payload (header : Header) : Z :=
  let on c := command header =? c in
  let cap :=
    if on COMMAND_HANDSHAKE || on COMMAND_TIMED_SYNC then HANDSHAKE_MAX_PAYLOAD
    else if on COMMAND_PING then PING_MAX_PAYLOAD
    else if on NOTIFY_REQUEST_CHAIN || on NOTIFY_RESPONSE_CHAIN_ENTRY || on NOTIFY_REQUEST_TX_POOL || on NOTIFY_MISSING_TXS then HASH_LIST_MAX_PAYLOAD
    else if on NOTIFY_REQUEST_GET_OBJECTS then GET_OBJECTS_REQUEST_MAX_PAYLOAD
    else if on NOTIFY_NEW_BLOCK || on NOTIFY_NEW_LITE_BLOCK then RELAY_MAX_PAYLOAD
    else if on NOTIFY_NEW_TRANSACTIONS then TRANSACTIONS_MAX_PAYLOAD
    else if on NOTIFY_RESPONSE_GET_OBJECTS then DEFAULT_MAX_PAYLOAD
    else UNKNOWN_MAX_PAYLOAD in
  Z.min cap DEFAULT_MAX_PAYLOAD.
