(* ===== verification/P2pWire.v ===== *)
(** What the peer messages promise: every message is read back as it was written, whatever
    is read is well typed, the messages the protocol bounds fit the caps on their
    payload, and the sparse chain a node asks with is what the sync needs. *)
From stdpp Require Import strings.
From S2P Require Import Prelude Varint Hashing Records Stream Levin P2pMsg.
From S2P Require Kv Windows.
Import Kv(Value, KvSection, Uint, Int, Double, String, Bool, Object, Array).
Local Open Scope Z_scope.

(** * Sections *)

Lemma get_push s m v n : KvSection.get (s ++ [(m, v)]) n =
  match KvSection.get s n with Some x => Some x | None => if bool_decide (m = n) then Some v else None end.
Proof.
  unfold KvSection.get. induction s as [|[m' v'] s IH]; cbn [app List.find fst].
  - by destruct (bool_decide (m = n)).
  - by destruct (bool_decide (m' = n)).
Qed.

Lemma get_push_other s m v n : bool_decide (m = n) = false → KvSection.get (s ++ [(m, v)]) n = KvSection.get s n.
Proof. intros Hn. rewrite get_push, Hn. by destruct (KvSection.get s n). Qed.

Lemma get_push_same s m v : KvSection.get s m = None → KvSection.get (s ++ [(m, v)]) m = Some v.
Proof. intros Hs. by rewrite get_push, Hs, bool_decide_true. Qed.

Lemma get_string_other s m v n : bool_decide (m = n) = false → KvSection.get (KvSection.string s m v) n = KvSection.get s n.
Proof. intros Hn. unfold KvSection.string. destruct (negb _); [by apply get_push_other|done]. Qed.

Lemma get_string_same s m v : KvSection.get s m = None → KvSection.get (KvSection.string s m v) m = if (length v =? 0)%nat then None else Some (String v).
Proof. intros Hs. unfold KvSection.string. destruct (length v =? 0)%nat; [done|]. by apply get_push_same. Qed.

Lemma get_strings_other s m v n : bool_decide (m = n) = false → KvSection.get (KvSection.string_array s m v) n = KvSection.get s n.
Proof. intros Hn. unfold KvSection.string_array. destruct (negb _); [by apply get_push_other|done]. Qed.

Lemma get_objects_other s m v n : bool_decide (m = n) = false → KvSection.get (KvSection.object_array s m v) n = KvSection.get s n.
Proof. intros Hn. unfold KvSection.object_array. destruct (negb _); [by apply get_push_other|done]. Qed.

Lemma get_strings_same s m v : KvSection.get s m = None → KvSection.get_array (KvSection.string_array s m v) m = map String v.
Proof.
  intros Hs. unfold KvSection.string_array, KvSection.get_array. destruct v as [|b v]; cbn [length Nat.eqb negb]; [by rewrite Hs|]. by rewrite get_push_same.
Qed.

Lemma get_objects_same s m v : KvSection.get s m = None → KvSection.get_array (KvSection.object_array s m v) m = map Object v.
Proof.
  intros Hs. unfold KvSection.object_array, KvSection.get_array. destruct v as [|b v]; cbn [length Nat.eqb negb]; [by rewrite Hs|]. by rewrite get_push_same.
Qed.

Lemma get_blob_same s m v : KvSection.get s m = None → get_blob (KvSection.string s m v) m = v.
Proof.
  intros Hs. unfold get_blob, KvSection.get_bytes. rewrite get_string_same by done. by destruct v.
Qed.

Lemma get_bytes_same s m v : KvSection.get s m = None → v ≠ [] → KvSection.get_bytes (KvSection.string s m v) m = Some v.
Proof. intros Hs Hv. unfold KvSection.get_bytes. rewrite get_string_same by done. by destruct v. Qed.

Lemma get_array_eq s s' n : KvSection.get s n = KvSection.get s' n → KvSection.get_array s n = KvSection.get_array s' n.
Proof. intros Hs. unfold KvSection.get_array. by rewrite Hs. Qed.

Lemma get_blob_eq s s' n : KvSection.get s n = KvSection.get s' n → get_blob s n = get_blob s' n.
Proof. intros Hs. unfold get_blob, KvSection.get_bytes. by rewrite Hs. Qed.

(** Looks a field up in a section under construction: the names are literals. *)
Ltac distinct := vm_compute; reflexivity.
Ltac kv_skip := repeat first [rewrite get_push_other by distinct | rewrite get_string_other by distinct | rewrite get_strings_other by distinct | rewrite get_objects_other by distinct].
Ltac kv_absent := kv_skip; reflexivity.
Ltac kv_get :=
  unfold KvSection.get_u64, KvSection.get_object, KvSection.u8, KvSection.u32, KvSection.u64, KvSection.text, KvSection.object;
  repeat first [rewrite get_push_other by distinct | rewrite get_string_other by distinct | rewrite get_strings_other by distinct | rewrite get_objects_other by distinct
    | rewrite get_push_same by kv_absent]; cbn [mbind option_bind or_malformed ok_or default result_bind id].

(** A field written with [string] that is not empty. *)
Ltac kv_bytes H := unfold KvSection.get_bytes; kv_get; rewrite get_string_same by kv_absent; rewrite H; cbn [Nat.eqb mbind option_bind or_malformed ok_or result_bind].

Lemma node_roundtrip (d : BasicNodeData) : length (network_id d) = 16%nat → is_u8 (version d) → is_u32 (my_port d) →
  BasicNodeData.from_section (BasicNodeData.to_section d) = Ok d.
Proof.
  intros Hn Hv Hp. unfold BasicNodeData.from_section, BasicNodeData.to_section. cbv zeta. kv_bytes Hn. unfold array_of. rewrite Hn. cbn [Nat.eqb mbind result_bind].
  rewrite !wrap_small by done. by destruct d.
Qed.

Lemma sync_roundtrip (d : CoreSyncData) : length (top_id d) = 32%nat → is_u32 (current_height d) → is_u32 (capability_flags d) →
  is_u32 (pruned_node_height d) → is_u32 (lite_start_height d) → CoreSyncData.from_section (CoreSyncData.to_section d) = Ok d.
Proof.
  intros Hn ????. unfold CoreSyncData.from_section, CoreSyncData.to_section. cbv zeta. kv_bytes Hn. unfold array_of. rewrite Hn. cbn [Nat.eqb mbind result_bind].
  rewrite !wrap_small by done. by destruct d.
Qed.

(** ** Sections the encoder takes *)

(** The entries are well formed, nested at most [lv] deep, and count at most [k] values. *)
Definition section_ok (lv : nat) (k : Z) (s : KvSection) : Prop := Forall (Kv.wf_entry (Kv.wf_section lv)) s ∧ Kv.values_section s ≤ k.

Lemma values_push s m v : Kv.values_section (s ++ [(m, v)]) = Kv.values_section s + 1 + Kv.values_entry v.
Proof.
  unfold Kv.values_section. rewrite length_app. cbn [length]. assert (Kv.sum_entries Kv.values_scalar (s ++ [(m, v)]) = Kv.sum_entries Kv.values_scalar s + Kv.values_entry v) as ->; [|lia].
  induction s as [|[m' v'] s IH]; cbn [app]; rewrite Kv.sum_entries_cons; [cbn; lia|]. rewrite IH, Kv.sum_entries_cons. lia.
Qed.

Lemma values_length s : Z.of_nat (length s) ≤ Kv.values_section s.
Proof. unfold Kv.values_section. pose proof (Kv.sum_entries_nonneg s). lia. Qed.

Lemma section_ok_wf lv k s : section_ok lv k s → k < 2 ^ 62 → Kv.wf_section (S lv) s.
Proof. intros [Hf Hk] Hb. split; [|done]. unfold Kv.wf_length. pose proof (values_length s). lia. Qed.

Lemma section_ok_mono lv k k' s : section_ok lv k s → k ≤ k' → section_ok lv k' s.
Proof. intros [? ?] ?. split; [done|lia]. Qed.

Lemma nil_ok lv : section_ok lv 0 [].
Proof. by split. Qed.

Lemma push_section_ok lv k s m v j : section_ok lv k s → Kv.wf_entry (Kv.wf_section lv) (m, v) → Kv.values_entry v ≤ j → section_ok lv (k + 1 + j) (s ++ [(m, v)]).
Proof. intros [Hf Hk] He Hv. split; [apply Forall_app; by rewrite Forall_singleton|]. rewrite values_push. lia. Qed.

Lemma uint_ok lv k s m v t w : section_ok lv k s → Kv.wf_name m → Kv.uint_width t = Some w → in_u w v → section_ok lv (k + 1) (s ++ [(m, Uint v t)]).
Proof. intros Hs Hm Ht Hv. replace (k + 1) with (k + 1 + 0) by lia. apply push_section_ok; [done| |done]. split; [done|]. cbn. by rewrite Ht. Qed.

Lemma text_ok lv k s m v : section_ok lv k s → Kv.wf_name m → is_bytes v → Kv.wf_length (length v) → section_ok lv (k + 1) (s ++ [(m, String v)]).
Proof. intros Hs Hm Hv Hl. replace (k + 1) with (k + 1 + 0) by lia. by apply push_section_ok. Qed.

Lemma string_ok lv k s m v : section_ok lv k s → Kv.wf_name m → is_bytes v → Kv.wf_length (length v) → section_ok lv (k + 1) (KvSection.string s m v).
Proof. intros Hs Hm Hv Hl. unfold KvSection.string. destruct (negb _); [by apply text_ok|]. eapply section_ok_mono; [done|lia]. Qed.

Lemma object_ok lv k s m o j : section_ok (S lv) k s → Kv.wf_name m → section_ok lv j o → j < 2 ^ 62 → section_ok (S lv) (k + 1 + j) (KvSection.object s m o).
Proof.
  intros Hs Hm Ho Hj. apply push_section_ok; [done|split; [done|]; by eapply section_ok_wf|]. by destruct Ho.
Qed.

Lemma strings_ok lv k s m v : section_ok lv k s → Kv.wf_name m → Forall (λ b, is_bytes b ∧ Kv.wf_length (length b)) v → Kv.wf_length (length v) →
  section_ok lv (k + 1 + Z.of_nat (length v)) (KvSection.string_array s m v).
Proof.
  intros Hs Hm Hv Hl. unfold KvSection.string_array. destruct (negb _); [|eapply section_ok_mono; [done|lia]]. apply push_section_ok; [done| |].
  - split; [done|]. cbn [snd]. rewrite length_map. split; [done|]. exists Kv.TYPE_STRING. apply Forall_map. eapply Forall_impl; [exact Hv|]. by intros b [? ?].
  - cbn [Kv.values_entry]. rewrite length_map. enough (Kv.sum_items Kv.values_scalar (map String v) = 0) by lia. clear. induction v as [|b v IH]; [done|]. cbn. lia.
Qed.

Lemma objects_ok lv k s m v j : section_ok (S lv) k s → Kv.wf_name m → Forall (λ o, section_ok lv (j o) o) v → Kv.wf_length (length v) → (∀ o, o ∈ v → j o < 2 ^ 62) →
  section_ok (S lv) (k + 1 + (Z.of_nat (length v) + total (map j v))) (KvSection.object_array s m v).
Proof.
  intros Hs Hm Hv Hl Hj. assert (Kv.sum_items Kv.values_scalar (map Object v) ≤ total (map j v) ∧ 0 ≤ Kv.sum_items Kv.values_scalar (map Object v)) as [Ht Ht0].
  { split; [|apply Kv.sum_items_nonneg]. clear -Hv. induction Hv as [|o v [_ Ho] _ IH]; [done|]. cbn [map Kv.sum_items Kv.values_scalar].
    change (total (j o :: map j v)) with (j o + total (map j v)). unfold Kv.values_section in Ho. lia. }
  unfold KvSection.object_array. destruct (negb _); [|eapply section_ok_mono; [done|lia]]. apply push_section_ok; [done| |].
  - split; [done|]. cbn [snd]. rewrite length_map. split; [done|]. exists Kv.TYPE_OBJECT. apply Forall_map. apply Forall_forall. intros o Ho. split; [|done].
    eapply section_ok_wf; [|by apply Hj]. rewrite Forall_forall in Hv. by apply Hv.
  - cbn [Kv.values_entry]. rewrite length_map. lia.
Qed.

Lemma encode_ok k s : section_ok 32 k s → k ≤ Kv.MAX_VALUES → ∃ w, Kv.encode s = Some w ∧ Kv.decode w = Ok s.
Proof.
  intros Hs Hk. destruct (Kv.encode_decode s) as (w & Hw & Hd).
  - apply (section_ok_wf 32 k); [done|]. unfold Kv.MAX_VALUES in Hk. lia.
  - destruct Hs as [_ ?]. lia.
  - exists w. split; [done|]. specialize (Hd []). by rewrite app_nil_r in Hd.
Qed.

(** ** Fields that fit *)

Record node_ok (d : BasicNodeData) : Prop := {
  nd_network : is_array 16 (network_id d); nd_version : is_u8 (version d); nd_peer : is_u64 (peer_id d); nd_time : is_u64 (local_time d); nd_port : is_u32 (my_port d) }.

Record sync_ok (d : CoreSyncData) : Prop := {
  sd_top : is_hash (top_id d); sd_height : is_u32 (current_height d); sd_flags : is_u32 (capability_flags d);
  sd_pruned : is_u32 (pruned_node_height d); sd_lite : is_u32 (lite_start_height d) }.

Record peer_ok (e : PeerlistEntry) : Prop := {
  pe_ip : is_array 4 (p_ip e); pe_port : is_u32 (p_port e); pe_id : is_u64 (p_id e); pe_seen : is_u64 (p_last_seen e) }.

Record peer6_ok (e : PeerlistEntry6) : Prop := {
  pe6_ip : is_array 16 (p6_ip e); pe6_port : is_u32 (p6_port e); pe6_id : is_u64 (p6_id e); pe6_seen : is_u64 (p6_last_seen e) }.

Definition hashes_ok (l : list bytes) : Prop := Forall is_hash l ∧ (length l ≤ MAX_HASHES)%nat.

Lemma name_ok (n : string) : forallb (λ b, (0 <=? b) && (b <? 256)) (name n) && utf8_valid (name n) && (1 <=? length (name n))%nat && (length (name n) <=? 255)%nat = true → Kv.wf_name (name n).
Proof.
  rewrite !andb_true_iff, forallb_forall, !Nat.leb_le. intros [[[Hb Hu] H1] H2]. split_and!; [|done..]. apply Forall_forall. intros x Hx%list_elem_of_In. specialize (Hb x Hx). unfold in_u.
  apply andb_true_iff in Hb as [?%Z.leb_le ?%Z.ltb_lt]. lia.
Qed.

Ltac named := apply name_ok; vm_compute; reflexivity.

Lemma array_length n b : is_array n b → Z.of_nat n < 2 ^ 62 → Kv.wf_length (length b).
Proof. intros [_ ->] Hn. exact Hn. Qed.

Lemma node_section_ok lv d : node_ok d → section_ok lv 5 (BasicNodeData.to_section d).
Proof.
  intros [Hn ????]. unfold BasicNodeData.to_section. cbv zeta.
  apply (uint_ok lv 4 _ _ _ _ 32); [|named|done|done]. apply (uint_ok lv 3 _ _ _ _ 64); [|named|done|done]. apply (uint_ok lv 2 _ _ _ _ 64); [|named|done|done].
  apply (uint_ok lv 1 _ _ _ _ 8); [|named|done|done]. apply (string_ok lv 0); [apply nil_ok|named|apply Hn|by eapply array_length].
Qed.

Lemma sync_section_ok lv d : sync_ok d → section_ok lv 5 (CoreSyncData.to_section d).
Proof.
  intros [Hn ????]. unfold CoreSyncData.to_section. cbv zeta.
  apply (uint_ok lv 4 _ _ _ _ 32); [|named|done|done]. apply (uint_ok lv 3 _ _ _ _ 32); [|named|done|done]. apply (uint_ok lv 2 _ _ _ _ 32); [|named|done|done].
  apply (string_ok lv 1); [|named|apply Hn|by eapply array_length]. apply (uint_ok lv 0 _ _ _ _ 32); [apply nil_ok|named|done|done].
Qed.

(** ** Blobs of fixed-size elements *)

Lemma length_concat_chunks (l : list bytes) n : Forall (λ c, length c = n) l → length (concat l) = (length l * n)%nat.
Proof. induction 1 as [|c l Hc _ IH]; [done|]. cbn. rewrite length_app, IH. lia. Qed.

(** A blob is accepted exactly when it is that many elements, within the maximum. *)
Lemma blob_elements stride max what b l : (0 < stride)%nat →
  (blob_count b stride max what ≫= λ _, Ok (as_chunks stride b).1) = Ok l ↔ b = concat l ∧ Forall (λ c, length c = stride) l ∧ (length l ≤ max)%nat.
Proof.
  intros Hs. pose proof (as_chunks_iff stride b l Hs) as Hi. unfold blob_count. cbv zeta. split.
  - destruct (Nat.eqb_spec (length b mod stride) 0) as [Hm|Hm]; [|done]. destruct (Nat.ltb_spec max (length b / stride)) as [Hx|Hx]; [done|]. cbn. intros [= Hl].
    destruct (proj1 Hi (conj Hm Hl)) as [-> Hf]. split_and!; [done|done|]. rewrite length_concat_chunks with (n := stride), Nat.div_mul in Hx by (done || lia). done.
  - intros (Hb & Hf & Hx). destruct (proj2 Hi (conj Hb Hf)) as [Hm Hl]. rewrite (proj2 (Nat.eqb_eq _ _) Hm). cbn [negb].
    rewrite (proj2 (Nat.ltb_ge _ _)); [cbn; by rewrite Hl|]. subst b. rewrite length_concat_chunks with (n := stride), Nat.div_mul by (done || lia). done.
Qed.

Lemma blob_hashes_iff b what l : blob_hashes b what = Ok l ↔ b = concat l ∧ Forall (λ c, length c = 32%nat) l ∧ (length l ≤ MAX_HASHES)%nat.
Proof. apply blob_elements. lia. Qed.

Lemma blob_hashes_ok what l : hashes_ok l → blob_hashes (hashes_blob l) what = Ok l.
Proof. intros [Hl Hn]. apply blob_hashes_iff. split_and!; [done| |done]. eapply Forall_impl; [exact Hl|]. by intros c [_ ?]. Qed.

Lemma hashes_blob_bytes l : Forall is_hash l → is_bytes (hashes_blob l).
Proof. induction 1 as [|c l [Hc _] _ IH]; [constructor|]. cbn. by apply Forall_app. Qed.

Lemma length_hashes_blob l : Forall is_hash l → length (hashes_blob l) = (length l * 32)%nat.
Proof. intros Hl. apply length_concat_chunks. eapply Forall_impl; [exact Hl|]. by intros c [_ ?]. Qed.

Lemma peer_blob_ok e : peer_ok e → is_array 24 (PeerlistEntry.to_blob_entry e) ∧ PeerlistEntry.of_chunk (PeerlistEntry.to_blob_entry e) = e.
Proof.
  intros [[Hb Hl] Hp Hi Hs]. unfold PeerlistEntry.to_blob_entry, PeerlistEntry.of_chunk. split.
  - split; [repeat (apply Forall_app; split); [done|apply to_le_bytes_is_bytes..]|]. rewrite !length_app, !length_to_le_bytes, Hl. done.
  - destruct e as [ip port id seen]. cbn [p_ip p_port p_id p_last_seen] in *. set (a := to_le_bytes 4 port). set (b := to_le_bytes 8 id). set (c := to_le_bytes 8 seen).
    do 4 (destruct ip as [|? ip]; [done|]). destruct ip; [|done].
    change (mkPeer [z; z0; z1; z2] (from_le_bytes a) (from_le_bytes b) (from_le_bytes c) = mkPeer [z; z0; z1; z2] port id seen).
    unfold a, b, c, in_u in *. by rewrite !from_to_le_bytes by (cbn; lia).
Qed.

Lemma peer6_blob_ok e : peer6_ok e → is_array 40 (PeerlistEntry6.to_blob_entry e) ∧ PeerlistEntry6.of_chunk (PeerlistEntry6.to_blob_entry e) = e.
Proof.
  intros [[Hb Hl] Hp Hi Hs]. unfold PeerlistEntry6.to_blob_entry, PeerlistEntry6.of_chunk. split.
  - split; [repeat (apply Forall_app; split); [apply to_le_bytes_is_bytes|apply to_le_bytes_is_bytes|done|apply to_le_bytes_is_bytes|by apply Forall_replicate]|].
    rewrite !length_app, !length_to_le_bytes, Hl, length_replicate. done.
  - destruct e as [id seen ip port]. cbn [p6_ip p6_port p6_id p6_last_seen] in *. set (a := to_le_bytes 8 id). set (b := to_le_bytes 8 seen). set (c := to_le_bytes 4 port). set (z := replicate 4 0).
    assert (slice (a ++ b ++ ip ++ c ++ z) 16 16 = ip) as -> by by apply (take_app_length' ip).
    assert (slice (a ++ b ++ ip ++ c ++ z) 32 4 = c) as ->.
    { unfold slice. change 32%nat with (length (a ++ b) + 16)%nat. rewrite (app_assoc a), <- drop_drop, drop_app_length, <- Hl, drop_app_length. done. }
    change (mkPeer6 (from_le_bytes a) (from_le_bytes b) ip (from_le_bytes c) = mkPeer6 id seen ip port).
    unfold a, b, c, in_u in *. by rewrite !from_to_le_bytes by (cbn; lia).
Qed.

Lemma map_of_chunks {A} (to : A → bytes) (from : bytes → A) l : Forall (λ e, from (to e) = e) l → map from (map to l) = l.
Proof. induction 1 as [|e l He _ IH]; [done|]. cbn. by rewrite He, IH. Qed.

Lemma peerlist_roundtrip l : Forall peer_ok l → PeerlistEntry.parse_blob (peerlist_blob l) = Ok (take MAX_PEERLIST_ENTRIES l).
Proof.
  intros Hl%(Forall_take _ MAX_PEERLIST_ENTRIES). unfold PeerlistEntry.parse_blob, peerlist_blob. set (t := take _ l) in *.
  assert (length t ≤ MAX_PEERLIST_ENTRIES)%nat as Ht by (unfold t; rewrite length_take; lia). clearbody t.
  pose proof (blob_elements PeerlistEntry.STRIDE MAX_PEERLIST_ENTRIES "local_peerlist" (concat (map PeerlistEntry.to_blob_entry t)) (map PeerlistEntry.to_blob_entry t) ltac:(unfold PeerlistEntry.STRIDE; lia)) as [_ Hb].
  apply result_bind_Ok in Hb as (n & -> & [= ->]); [cbn; f_equal; apply map_of_chunks; eapply Forall_impl; [exact Hl|]; by intros e [_ ?]%peer_blob_ok|].
  split_and!; [done| |by rewrite length_map]. apply Forall_map. eapply Forall_impl; [exact Hl|]. by intros e [[_ ?] _]%peer_blob_ok.
Qed.

Lemma peerlist6_roundtrip l : Forall peer6_ok l → PeerlistEntry6.parse_blob (peerlist6_blob l) = Ok (take MAX_PEERLIST_ENTRIES l).
Proof.
  intros Hl%(Forall_take _ MAX_PEERLIST_ENTRIES). unfold PeerlistEntry6.parse_blob, peerlist6_blob. set (t := take _ l) in *.
  assert (length t ≤ MAX_PEERLIST_ENTRIES)%nat as Ht by (unfold t; rewrite length_take; lia). clearbody t.
  pose proof (blob_elements PeerlistEntry6.STRIDE MAX_PEERLIST_ENTRIES "local_peerlist6" (concat (map PeerlistEntry6.to_blob_entry t)) (map PeerlistEntry6.to_blob_entry t) ltac:(unfold PeerlistEntry6.STRIDE; lia)) as [_ Hb].
  apply result_bind_Ok in Hb as (n & -> & [= ->]); [cbn; f_equal; apply map_of_chunks; eapply Forall_impl; [exact Hl|]; by intros e [_ ?]%peer6_blob_ok|].
  split_and!; [done| |by rewrite length_map]. apply Forall_map. eapply Forall_impl; [exact Hl|]. by intros e [[_ ?] _]%peer6_blob_ok.
Qed.

Lemma peerlist_blob_ok l : Forall peer_ok l → is_bytes (peerlist_blob l) ∧ (length (peerlist_blob l) ≤ 250 * 24)%nat.
Proof.
  intros Hl%(Forall_take _ MAX_PEERLIST_ENTRIES). unfold peerlist_blob. assert (length (take MAX_PEERLIST_ENTRIES l) ≤ 250)%nat as Ht by (rewrite length_take; unfold MAX_PEERLIST_ENTRIES; lia).
  revert Ht Hl. generalize (take MAX_PEERLIST_ENTRIES l). clear l. intros l Ht Hl. split.
  - clear Ht. induction Hl as [|e l [[Hb _] _]%peer_blob_ok _ IH]; [constructor|]. cbn [map concat]. by apply Forall_app.
  - rewrite length_concat_chunks with (n := 24%nat); [rewrite length_map; lia|]. apply Forall_map. eapply Forall_impl; [exact Hl|]. by intros e [[_ ?] _]%peer_blob_ok.
Qed.

Lemma peerlist6_blob_ok l : Forall peer6_ok l → is_bytes (peerlist6_blob l) ∧ (length (peerlist6_blob l) ≤ 250 * 40)%nat.
Proof.
  intros Hl%(Forall_take _ MAX_PEERLIST_ENTRIES). unfold peerlist6_blob. assert (length (take MAX_PEERLIST_ENTRIES l) ≤ 250)%nat as Ht by (rewrite length_take; unfold MAX_PEERLIST_ENTRIES; lia).
  revert Ht Hl. generalize (take MAX_PEERLIST_ENTRIES l). clear l. intros l Ht Hl. split.
  - clear Ht. induction Hl as [|e l [[Hb _] _]%peer6_blob_ok _ IH]; [constructor|]. cbn [map concat]. by apply Forall_app.
  - rewrite length_concat_chunks with (n := 40%nat); [rewrite length_map; lia|]. apply Forall_map. eapply Forall_impl; [exact Hl|]. by intros e [[_ ?] _]%peer6_blob_ok.
Qed.

(** * Every message is read back *)

(** [payload] is a payload [parse] reads as [m]. *)
Definition reads {A} (payload : option bytes) (parse : bytes → result Error A) (m : A) : Prop := ∃ w, payload = Some w ∧ parse w = Ok m.

Lemma reads_section {A} k s (f : KvSection → result Error A) m : section_ok 32 k s → k ≤ Kv.MAX_VALUES → f s = Ok m →
  reads (Kv.encode s) (λ w, Kv.decode w ≫= f) m.
Proof. intros Hs Hk Hf. destruct (encode_ok k s Hs Hk) as (w & Hw & Hd). exists w. split; [done|]. by rewrite Hd. Qed.

Section Messages.
Context (node : BasicNodeData) (sync : CoreSyncData) (peers : list PeerlistEntry) (peers6 : list PeerlistEntry6).
Context (Hnode : node_ok node) (Hsync : sync_ok sync) (Hpeers : Forall peer_ok peers) (Hpeers6 : Forall peer6_ok peers6).

Lemma node_back : BasicNodeData.from_section (BasicNodeData.to_section node) = Ok node.
Proof. destruct Hnode as [[_ ?] ????]. by apply node_roundtrip. Qed.
Lemma sync_back : CoreSyncData.from_section (CoreSyncData.to_section sync) = Ok sync.
Proof. destruct Hsync as [[_ ?] ????]. by apply sync_roundtrip. Qed.

Lemma node_and_sync_ok : section_ok 32 12 (node_and_sync node sync).
Proof.
  unfold node_and_sync. apply (object_ok 31 6 _ _ _ 5); [|named|by apply sync_section_ok|lia].
  apply (object_ok 31 0 _ _ _ 5); [apply nil_ok|named|by apply node_section_ok|lia].
Qed.

Lemma peers_ok k s : section_ok 32 k s → section_ok 32 (k + 1 + 1) (kv_string (kv_string s "local_peerlist" (peerlist_blob peers)) "local_peerlist6" (peerlist6_blob peers6)).
Proof.
  intros Hs. destruct (peerlist_blob_ok peers Hpeers) as [Hb Hl]. destruct (peerlist6_blob_ok peers6 Hpeers6) as [Hb6 Hl6].
  apply string_ok; [|named|done|unfold Kv.wf_length; lia]. apply string_ok; [done|named|done|unfold Kv.wf_length; lia].
Qed.

Lemma handshake_request_reads : reads (handshake_request node sync) parse_handshake_request (node, sync).
Proof.
  apply (reads_section 12 _ (λ s, node ← get_node_data s; sync ← get_payload_data s; Ok (node, sync))); [apply node_and_sync_ok|done|].
  unfold get_node_data, get_payload_data, node_and_sync. kv_get. by rewrite node_back, sync_back.
Qed.

(** Both lists, where nothing else has their names. *)
Lemma peers_back s : KvSection.get s (name "local_peerlist") = None → KvSection.get s (name "local_peerlist6") = None →
  let s' := kv_string (kv_string s "local_peerlist" (peerlist_blob peers)) "local_peerlist6" (peerlist6_blob peers6) in
  PeerlistEntry.parse_blob (get_blob s' (name "local_peerlist")) = Ok (take 250 peers) ∧
  PeerlistEntry6.parse_blob (get_blob s' (name "local_peerlist6")) = Ok (take 250 peers6).
Proof.
  intros H1 H2. cbv zeta. split.
  - assert (get_blob (kv_string (kv_string s "local_peerlist" (peerlist_blob peers)) "local_peerlist6" (peerlist6_blob peers6)) (name "local_peerlist") = peerlist_blob peers) as ->.
    { unfold get_blob, KvSection.get_bytes. rewrite get_string_other by distinct. by apply get_blob_same. }
    by apply peerlist_roundtrip.
  - rewrite get_blob_same by (by rewrite get_string_other by distinct). by apply peerlist6_roundtrip.
Qed.

Lemma handshake_response_reads :
  reads (handshake_response node sync peers peers6) parse_handshake_response (mkHandshakeResponse node sync (take 250 peers) (take 250 peers6)).
Proof.
  apply (reads_section 14 _ (λ s, node ← get_node_data s; sync ← get_payload_data s;
    peers ← PeerlistEntry.parse_blob (get_blob s (name "local_peerlist")); peers6 ← PeerlistEntry6.parse_blob (get_blob s (name "local_peerlist6"));
    Ok (mkHandshakeResponse node sync peers peers6))); [apply (peers_ok 12), node_and_sync_ok|done|].
  destruct (peers_back (node_and_sync node sync)) as [-> ->]; [kv_absent..|]. unfold get_node_data, get_payload_data, node_and_sync. kv_get. by rewrite node_back, sync_back.
Qed.

Lemma timed_sync_request_reads : reads (timed_sync_request sync) parse_timed_sync_request sync.
Proof.
  apply (reads_section 6 _ get_payload_data); [apply (object_ok 31 0 _ _ _ 5); [apply nil_ok|named|by apply sync_section_ok|lia]|done|].
  unfold get_payload_data. kv_get. apply sync_back.
Qed.

Lemma timed_sync_response_reads t : is_u64 t →
  reads (timed_sync_response_from t sync peers peers6) parse_timed_sync_response (mkTimedSyncResponse t sync (take 250 peers) (take 250 peers6)).
Proof.
  intros Ht. apply (reads_section 9 _ (λ s, local_time ← or_malformed "local_time" (KvSection.get_u64 s (name "local_time")); sync ← get_payload_data s;
    peers ← PeerlistEntry.parse_blob (get_blob s (name "local_peerlist")); peers6 ← PeerlistEntry6.parse_blob (get_blob s (name "local_peerlist6"));
    Ok (mkTimedSyncResponse local_time sync peers peers6))); [|done|].
  - apply (peers_ok 7), (object_ok 31 1 _ _ _ 5); [|named|by apply sync_section_ok|lia]. apply (uint_ok 32 0 _ _ _ _ 64); [apply nil_ok|named|done|done].
  - destruct (peers_back (kv_object (kv_u64 [] "local_time" t) "payload_data" (CoreSyncData.to_section sync))) as [-> ->]; [kv_absent..|].
    unfold get_payload_data. kv_get. by rewrite sync_back.
Qed.
End Messages.

Lemma ping_response_reads id : is_u64 id → reads (ping_response id) parse_ping_response (mkPingResponse PING_OK_RESPONSE_STATUS_TEXT id).
Proof.
  intros Hi. apply (reads_section 2 _ (λ s, status ← or_malformed "status" (KvSection.get_bytes s (name "status"));
    Ok (mkPingResponse status (default 0 (KvSection.get_u64 s (name "peer_id")))))); [|done|].
  - apply (uint_ok 32 1 _ _ _ _ 64); [|named|done|done]. apply (text_ok 32 0); [apply nil_ok|named|repeat constructor; vm_compute; discriminate|vm_compute; reflexivity].
  - unfold KvSection.get_bytes. kv_get. done.
Qed.

(** The handshake, the timed sync and the ping are read back as they were sent: the node data,
    the sync data and the first 250 entries of both peer lists, whatever their fields, and
    a ping is answered with the peer id asked for. *)
Theorem p2p_handshake_roundtrip node sync peers peers6 t : node_ok node → sync_ok sync → Forall peer_ok peers → Forall peer6_ok peers6 → is_u64 t →
  reads (handshake_request node sync) parse_handshake_request (node, sync) ∧
  reads (handshake_response node sync peers peers6) parse_handshake_response (mkHandshakeResponse node sync (take 250 peers) (take 250 peers6)) ∧
  reads (timed_sync_request sync) parse_timed_sync_request sync ∧
  reads (timed_sync_response_from t sync peers peers6) parse_timed_sync_response (mkTimedSyncResponse t sync (take 250 peers) (take 250 peers6)) ∧
  reads (ping_response (peer_id node)) (λ w, r ← parse_ping_response w; Ok (is_ok_for r (peer_id node))) true.
Proof.
  intros Hn Hs Hp Hp6 Ht. split_and!.
  - by apply handshake_request_reads.
  - by apply handshake_response_reads.
  - by apply timed_sync_request_reads.
  - by apply timed_sync_response_reads.
  - destruct (ping_response_reads (peer_id node) (nd_peer _ Hn)) as (w & Hw & Hr). exists w. split; [done|]. rewrite Hr. cbn [mbind result_bind]. unfold is_ok_for.
    cbn [pr_status pr_peer_id]. by rewrite bool_decide_true, Z.eqb_refl.
Qed.

(** ** The 2000 series *)

Definition blob_fits (b : bytes) : Prop := is_bytes b ∧ Kv.wf_length (length b).

(** A block as a peer sends it: with a body, since an empty one is left out. *)
Record raw_ok (b : RawBlockLegacy) : Prop := { rw_block : blob_fits (rb_block b); rw_some : rb_block b ≠ []; rw_txs : Forall blob_fits (rb_txs b) }.

(** The values of a block in its message, which the decoder counts. *)
Definition raw_values (b : RawBlockLegacy) : Z := 2 + Z.of_nat (length (rb_txs b)).

Lemma string_array_back v what : string_array (map String v) what = Ok v.
Proof. induction v as [|b v IH]; [done|]. cbn. by rewrite IH. Qed.

Lemma raw_back b : raw_ok b → raw_block_of (RawBlockLegacy_to_section b) = Ok b.
Proof.
  intros [_ Hb _]. unfold raw_block_of, RawBlockLegacy_to_section. rewrite get_strings_same by kv_absent. unfold KvSection.get_bytes.
  rewrite get_strings_other by distinct. rewrite get_string_same by done. destruct b as [[|x block] txs]; [done|]. cbn [rb_block rb_txs length Nat.eqb mbind option_bind or_malformed ok_or result_bind].
  by rewrite string_array_back.
Qed.

Lemma raw_blocks_back blocks : Forall raw_ok blocks → raw_blocks (map Object (map RawBlockLegacy_to_section blocks)) = Ok blocks.
Proof. induction 1 as [|b blocks Hb _ IH]; [done|]. cbn [map raw_blocks]. rewrite raw_back by done. cbn [mbind result_bind]. by rewrite IH. Qed.

Lemma raw_section_ok lv b : raw_ok b → raw_values b ≤ Kv.MAX_VALUES → section_ok lv (raw_values b) (RawBlockLegacy_to_section b).
Proof.
  intros [[Hb Hl] _ Ht] Hv. unfold raw_values, Kv.MAX_VALUES in *. replace (2 + _) with (1 + 1 + Z.of_nat (length (rb_txs b))) by lia.
  apply strings_ok; [apply (string_ok lv 0); [apply nil_ok|named|done|done]|named|done|unfold Kv.wf_length; lia].
Qed.

Lemma hashes_string_ok lv k s n l : section_ok lv k s → Kv.wf_name n → hashes_ok l → section_ok lv (k + 1) (KvSection.string s n (hashes_blob l)).
Proof.
  intros Hs Hn [Hl Hm]. apply string_ok; [done|done|by apply hashes_blob_bytes|]. unfold Kv.wf_length. rewrite length_hashes_blob by done. unfold MAX_HASHES in Hm. lia.
Qed.

Lemma hashes_back s n what l : KvSection.get s n = None → hashes_ok l → blob_hashes (get_blob (KvSection.string s n (hashes_blob l)) n) what = Ok l.
Proof. intros Hs Hl. rewrite get_blob_same by done. by apply blob_hashes_ok. Qed.

Lemma total_values blocks : 0 ≤ total (map raw_values blocks).
Proof. induction blocks as [|b blocks IH]; [done|]. change (total (map raw_values (b :: blocks))) with (raw_values b + total (map raw_values blocks)). unfold raw_values at 1. lia. Qed.

Lemma raw_values_le b blocks : b ∈ blocks → raw_values b ≤ total (map raw_values blocks).
Proof.
  induction blocks as [|c blocks IH]; [by intros ?%elem_of_nil|]. change (total (map raw_values (c :: blocks))) with (raw_values c + total (map raw_values blocks)).
  intros [->|Hb]%elem_of_cons; [pose proof (total_values blocks); lia|]. apply IH in Hb. unfold raw_values at 2. lia.
Qed.

Lemma raw_sections_ok lv blocks : Forall raw_ok blocks → total (map raw_values blocks) ≤ Kv.MAX_VALUES →
  Forall (λ o, section_ok lv (Kv.values_section o) o) (map RawBlockLegacy_to_section blocks) ∧
  total (map Kv.values_section (map RawBlockLegacy_to_section blocks)) ≤ total (map raw_values blocks).
Proof.
  induction 1 as [|b blocks Hb _ IH]; [done|]. change (total (map raw_values (b :: blocks))) with (raw_values b + total (map raw_values blocks)). intros Hv.
  pose proof (total_values blocks). assert (0 ≤ raw_values b) by (unfold raw_values; lia). destruct (raw_section_ok lv b Hb ltac:(lia)) as [Hf Hs].
  destruct (IH ltac:(lia)) as [IH1 IH2]. cbn [map]. split; [by constructor|].
  change (total (?x :: ?l)) with (x + total l). lia.
Qed.

Lemma get_objects_reads blocks missed height : Forall raw_ok blocks → hashes_ok missed → is_u32 height →
  Z.of_nat (length blocks) + total (map raw_values blocks) + 3 ≤ Kv.MAX_VALUES →
  reads (get_objects_response blocks missed height) parse_get_objects_response (mkGetObjectsResponse [] blocks missed height).
Proof.
  intros Hb Hm Hh Hv. set (secs := map RawBlockLegacy_to_section blocks). destruct (raw_sections_ok 31 blocks Hb ltac:(lia)) as [Hs Ht]. fold secs in Hs, Ht.
  apply (reads_section (0 + 1 + (Z.of_nat (length secs) + total (map Kv.values_section secs)) + 1 + 1) _
    (λ s, blocks ← raw_blocks (KvSection.get_array s (name "blocks")); txs ← string_array (KvSection.get_array s (name "txs")) "txs";
      missed ← blob_hashes (get_blob s (name "missed_ids")) "missed_ids"; Ok (mkGetObjectsResponse txs blocks missed (get_height s (name "current_blockchain_height")))));
    [|unfold secs in *; rewrite length_map; lia|].
  - apply (uint_ok 32 _ _ _ _ _ 32); [|named|done|done]. apply hashes_string_ok; [|named|done]. apply objects_ok; [apply nil_ok|named|done| |].
    + unfold secs, Kv.wf_length, Kv.MAX_VALUES in *. rewrite length_map. pose proof (total_values blocks). lia.
    + intros o (b & -> & Hin)%list_elem_of_fmap. pose proof (raw_values_le b blocks Hin). rewrite Forall_forall in Hb.
      destruct (raw_section_ok 31 b (Hb b Hin) ltac:(lia)) as [_ ?]. unfold Kv.MAX_VALUES in *. lia.
  - fold secs. set (s0 := KvSection.string_array [] (name "txs") []). unfold KvSection.u32.
    rewrite (get_array_eq _ (KvSection.object_array s0 (name "blocks") secs) (name "blocks")) by (kv_skip; done). rewrite get_objects_same by done.
    unfold secs. rewrite raw_blocks_back by done. cbn [mbind result_bind]. rewrite (get_array_eq _ [] (name "txs")) by (kv_skip; done). cbn [string_array KvSection.get_array mbind result_bind].
    rewrite (get_blob_eq _ (kv_string (KvSection.object_array s0 (name "blocks") (map RawBlockLegacy_to_section blocks)) "missed_ids" (hashes_blob missed)) (name "missed_ids")) by (kv_skip; done).
    rewrite hashes_back by (done || (kv_skip; done)). unfold get_height, KvSection.get_u64. rewrite get_push_same by (kv_skip; done). cbn. by rewrite wrap_small.
Qed.

Lemma request_chain_reads ids : hashes_ok ids → ids ≠ [] → reads (request_chain ids) parse_request_chain ids.
Proof.
  intros Hi Hn. apply (reads_section 1 _ (λ s, ids ← blob_hashes (get_blob s (name "block_ids")) "block_ids"; if bool_decide (ids = []) then malformed "block_ids empty" else Ok ids));
    [apply (hashes_string_ok 32 0); [apply nil_ok|named|done]|done|]. rewrite hashes_back by done. cbn [mbind result_bind]. by rewrite bool_decide_false.
Qed.

Lemma chain_entry_reads start top ids : is_u32 start → is_u32 top → hashes_ok ids → ids ≠ [] → reads (chain_entry start top ids) parse_chain_entry (mkChainEntry start top ids).
Proof.
  intros Hs Ht Hi Hn. apply (reads_section 3 _ (λ s, block_ids ← blob_hashes (get_blob s (name "m_block_ids")) "m_block_ids";
    if bool_decide (block_ids = []) then malformed "m_block_ids empty"
    else start_height ← or_malformed "start_height" (KvSection.get_u64 s (name "start_height")); total_height ← or_malformed "total_height" (KvSection.get_u64 s (name "total_height"));
         Ok (mkChainEntry (wrap 32 start_height) (wrap 32 total_height) block_ids))).
  - apply (hashes_string_ok 32 2); [|named|done]. apply (uint_ok 32 1 _ _ _ _ 32); [|named|done|done]. apply (uint_ok 32 0 _ _ _ _ 32); [apply nil_ok|named|done|done].
  - done.
  - rewrite hashes_back by (done || kv_absent). cbn [mbind result_bind]. rewrite bool_decide_false by done. kv_get. by rewrite !wrap_small.
Qed.

Lemma request_get_objects_reads ids : hashes_ok ids → reads (request_get_objects ids) parse_request_get_objects ids.
Proof.
  intros Hi. apply (reads_section 1 _ (λ s, _ ← blob_hashes (get_blob s (name "txs")) "txs"; blob_hashes (get_blob s (name "blocks")) "blocks"));
    [apply (hashes_string_ok 32 0); [apply nil_ok|named|done]|done|]. rewrite (get_blob_eq _ [] (name "txs")) by (kv_skip; done). rewrite hashes_back by done. done.
Qed.

Lemma request_tx_pool_reads ids : hashes_ok ids → reads (request_tx_pool ids) parse_request_tx_pool ids.
Proof.
  intros Hi. apply (reads_section 1 _ (λ s, blob_hashes (get_blob s (name "txs")) "txs")); [apply (hashes_string_ok 32 0); [apply nil_ok|named|done]|done|]. by apply hashes_back.
Qed.

Lemma new_block_reads nb : raw_ok (nb_block nb) → raw_values (nb_block nb) + 3 ≤ Kv.MAX_VALUES → is_u32 (nb_current_blockchain_height nb) → is_u32 (nb_hop nb) →
  reads (new_block nb) parse_new_block nb.
Proof.
  intros Hb Hv Hh Hp. assert (0 ≤ raw_values (nb_block nb)) by (unfold raw_values; lia).
  apply (reads_section (0 + 1 + raw_values (nb_block nb) + 1 + 1) _ (λ s, b ← or_malformed "b" (KvSection.get_object s (name "b")); block ← raw_block_of b;
    Ok (mkNewBlock block (get_height s (name "current_blockchain_height")) (get_height s (name "hop"))))).
  - apply (uint_ok 32 _ _ _ _ _ 32); [|named|done|done]. apply (uint_ok 32 _ _ _ _ _ 32); [|named|done|done].
    apply (object_ok 31); [apply nil_ok|named|apply raw_section_ok; [done|lia]|unfold Kv.MAX_VALUES in *; lia].
  - lia.
  - unfold get_height. kv_get. rewrite raw_back by done. cbn [mbind result_bind]. rewrite !wrap_small by done. by destruct nb.
Qed.

Lemma lite_block_reads lb : blob_fits (block_template lb) → block_template lb ≠ [] → is_u32 (lb_current_blockchain_height lb) → is_u32 (lb_hop lb) →
  reads (lite_block lb) parse_lite_block lb.
Proof.
  intros [Hb Hl] Hn Hh Hp. apply (reads_section 3 _ (λ s, t ← or_malformed "blockTemplate" (KvSection.get_bytes s (name "blockTemplate"));
    Ok (mkLiteBlock (get_height s (name "current_blockchain_height")) (get_height s (name "hop")) t))).
  - apply (string_ok 32 2); [|named|done|done]. apply (uint_ok 32 1 _ _ _ _ 32); [|named|done|done]. apply (uint_ok 32 0 _ _ _ _ 32); [apply nil_ok|named|done|done].
  - done.
  - rewrite get_bytes_same by (done || kv_absent). unfold get_height. kv_get. rewrite !wrap_small by done. by destruct lb.
Qed.

Lemma new_transactions_reads txs : Forall blob_fits txs → Z.of_nat (length txs) < Kv.MAX_VALUES → reads (new_transactions txs) parse_new_transactions txs.
Proof.
  intros Ht Hl. unfold Kv.MAX_VALUES in *. apply (reads_section (0 + 1 + Z.of_nat (length txs)) _ (λ s, string_array (KvSection.get_array s (name "txs")) "txs"));
    [apply strings_ok; [apply nil_ok|named|done|unfold Kv.wf_length; lia]|unfold Kv.MAX_VALUES; lia|]. rewrite get_strings_same by done. apply string_array_back.
Qed.

Lemma missing_txs_reads m : is_u32 (mt_current_blockchain_height m) → is_hash (mt_block_hash m) → hashes_ok (mt_missing_txs m) → reads (missing_txs m) parse_missing_txs m.
Proof.
  intros Hh Hb Hm. apply (reads_section 3 _ (λ s, h ← or_malformed "blockHash" (KvSection.get_bytes s (name "blockHash")); block_hash ← array_of 32 "blockHash length" h;
    missing ← blob_hashes (get_blob s (name "missing_txs")) "missing_txs"; Ok (mkMissingTxs (get_height s (name "current_blockchain_height")) block_hash missing))).
  - apply (hashes_string_ok 32 2); [|named|done]. apply (string_ok 32 1); [|named|apply Hb|by eapply array_length]. apply (uint_ok 32 0 _ _ _ _ 32); [apply nil_ok|named|done|done].
  - done.
  - rewrite hashes_back by (done || kv_absent). destruct Hb as [_ Hb]. unfold get_height. kv_bytes Hb. unfold array_of. rewrite Hb. cbn [Nat.eqb mbind result_bind].
    rewrite wrap_small by done. by destruct m.
Qed.

(** The block and transaction messages are read back as they were sent: chain requests and
    entries with up to 10,000 hashes, object requests and their answers with whole blocks,
    pool requests, relayed blocks and transactions and the list of missing ones. The decoder's
    limit of a million values bounds the blocks and transactions of one message. *)
Theorem p2p_notify_roundtrip :
  (∀ ids, hashes_ok ids → ids ≠ [] → reads (request_chain ids) parse_request_chain ids) ∧
  (∀ start top ids, is_u32 start → is_u32 top → hashes_ok ids → ids ≠ [] → reads (chain_entry start top ids) parse_chain_entry (mkChainEntry start top ids)) ∧
  (∀ ids, hashes_ok ids → reads (request_get_objects ids) parse_request_get_objects ids ∧ reads (request_tx_pool ids) parse_request_tx_pool ids) ∧
  (∀ blocks missed height, Forall raw_ok blocks → hashes_ok missed → is_u32 height → Z.of_nat (length blocks) + total (map raw_values blocks) + 3 ≤ Kv.MAX_VALUES →
     reads (get_objects_response blocks missed height) parse_get_objects_response (mkGetObjectsResponse [] blocks missed height)) ∧
  (∀ nb, raw_ok (nb_block nb) → raw_values (nb_block nb) + 3 ≤ Kv.MAX_VALUES → is_u32 (nb_current_blockchain_height nb) → is_u32 (nb_hop nb) →
     reads (new_block nb) parse_new_block nb) ∧
  (∀ lb, blob_fits (block_template lb) → block_template lb ≠ [] → is_u32 (lb_current_blockchain_height lb) → is_u32 (lb_hop lb) → reads (lite_block lb) parse_lite_block lb) ∧
  (∀ txs, Forall blob_fits txs → Z.of_nat (length txs) < Kv.MAX_VALUES → reads (new_transactions txs) parse_new_transactions txs) ∧
  (∀ m, is_u32 (mt_current_blockchain_height m) → is_hash (mt_block_hash m) → hashes_ok (mt_missing_txs m) → reads (missing_txs m) parse_missing_txs m).
Proof.
  split_and!; [exact request_chain_reads|exact chain_entry_reads|intros ids Hi; split; [by apply request_get_objects_reads|by apply request_tx_pool_reads]|
    exact get_objects_reads|exact new_block_reads|exact lite_block_reads|exact new_transactions_reads|exact missing_txs_reads].
Qed.

(** * Whatever is read is well typed *)

Section Typed.
Context (lv : nat) (s : KvSection) (Hs : Kv.wf_section (S lv) s).

Lemma get_wf n v : KvSection.get s n = Some v → ∃ m, Kv.wf_entry (Kv.wf_section lv) (m, v).
Proof.
  destruct Hs as [_ Hf]. unfold KvSection.get. destruct (List.find _ s) as [[m v']|] eqn:E; [|done]. cbn. intros [= ->]. exists m.
  apply List.find_some in E as [Hin _]. rewrite Forall_forall in Hf. by apply Hf, list_elem_of_In.
Qed.

Lemma get_u64_typed n v : KvSection.get_u64 s n = Some v → is_u64 v.
Proof.
  unfold KvSection.get_u64. destruct (KvSection.get s n) as [x|] eqn:E; [|done]. destruct (get_wf n x E) as [m [_ Hx]]. cbn [mbind option_bind].
  destruct x as [i t|u t| | | | |]; try done; intros [= <-]; [by apply wrap_bound|]. cbn in Hx. unfold Kv.uint_width in Hx. unfold in_u.
  repeat (destruct (_ =? _) in Hx; [lia|]). done.
Qed.

Lemma get_bytes_typed n b : KvSection.get_bytes s n = Some b → blob_fits b.
Proof.
  unfold KvSection.get_bytes. destruct (KvSection.get s n) as [x|] eqn:E; [|done]. destruct (get_wf n x E) as [m [_ Hx]]. cbn [mbind option_bind].
  destruct x; try done. by intros [= ->].
Qed.

Lemma get_blob_typed n : is_bytes (get_blob s n).
Proof. unfold get_blob. destruct (KvSection.get_bytes s n) as [b|] eqn:E; [|constructor]. by apply get_bytes_typed in E as [? _]. Qed.

Lemma get_object_typed n o : KvSection.get_object s n = Some o → Kv.wf_section lv o.
Proof.
  unfold KvSection.get_object. destruct (KvSection.get s n) as [x|] eqn:E; [|done]. destruct (get_wf n x E) as [m [_ Hx]]. cbn [mbind option_bind].
  destruct x; try done. by intros [= ->].
Qed.

Lemma get_array_typed n : ∃ t, Forall (λ v, Kv.wf_scalar (Kv.wf_section lv) v ∧ Kv.type_of v = t) (KvSection.get_array s n).
Proof.
  unfold KvSection.get_array. destruct (KvSection.get s n) as [x|] eqn:E; [|exists 0; constructor]. destruct (get_wf n x E) as [m [_ Hx]].
  destruct x; try (exists 0; constructor). by destruct Hx as [_ ?].
Qed.

Lemma node_typed d : BasicNodeData.from_section s = Ok d → node_ok d.
Proof.
  unfold BasicNodeData.from_section. intros (nid & Hn%ok_or_Ok & Hr)%result_bind_Ok. apply result_bind_Ok in Hr as (net & Ha & Hr). unfold array_of in Ha.
  destruct (Nat.eqb_spec (length nid) 16); [|done]. injection Ha as <-.
  apply result_bind_Ok in Hr as (pid & Hp%ok_or_Ok & Hr). apply result_bind_Ok in Hr as (t & Ht%ok_or_Ok & Hr). apply result_bind_Ok in Hr as (port & _ & [= <-]).
  apply get_bytes_typed in Hn as [Hn _]. split; cbn; [done|by apply wrap_bound|by eapply get_u64_typed|by eapply get_u64_typed|by apply wrap_bound].
Qed.

Lemma sync_typed d : CoreSyncData.from_section s = Ok d → sync_ok d.
Proof.
  unfold CoreSyncData.from_section. intros (top & Hn%ok_or_Ok & Hr)%result_bind_Ok. apply result_bind_Ok in Hr as (h & _ & Hr). apply result_bind_Ok in Hr as (id & Ha & [= <-]).
  unfold array_of in Ha. destruct (Nat.eqb_spec (length top) 32); [|done]. injection Ha as <-. apply get_bytes_typed in Hn as [Hn _]. split; cbn; [done|by apply wrap_bound..].
Qed.

Lemma hashes_typed n what l : blob_hashes (get_blob s n) what = Ok l → hashes_ok l.
Proof.
  intros (Hb & Hl & Hm)%blob_hashes_iff. split; [|done]. pose proof (get_blob_typed n) as Ht. rewrite Hb in Ht. clear Hb Hm. induction Hl as [|c l Hc _ IH]; [constructor|].
  cbn in Ht. apply Forall_app in Ht as [? ?]. constructor; [done|auto].
Qed.

Lemma get_height_typed n : is_u32 (get_height s n).
Proof. by apply wrap_bound. Qed.
End Typed.

Lemma slice_typed (c : bytes) i n : is_bytes c → (i + n ≤ length c)%nat → is_array n (slice c i n).
Proof. intros Hc Hl. unfold slice. split; [auto with bytes_db|]. rewrite length_take, length_drop. lia. Qed.

Lemma slice_uint (c : bytes) i n w : is_bytes c → (i + n ≤ length c)%nat → w = 8 * Z.of_nat n → in_u w (from_le_bytes (slice c i n)).
Proof.
  intros Hc Hl ->. destruct (slice_typed c i n Hc Hl) as [Hb Hn]. pose proof (from_le_bytes_bound _ Hb) as Hr. rewrite Hn, Kv.pow256 in Hr. exact Hr.
Qed.

Lemma peers_typed b l : is_bytes b → PeerlistEntry.parse_blob b = Ok l → Forall peer_ok l ∧ (length l ≤ MAX_PEERLIST_ENTRIES)%nat.
Proof.
  intros Hb. unfold PeerlistEntry.parse_blob. intros (n & Hn & [= <-])%result_bind_Ok.
  destruct (proj1 (blob_elements 24 MAX_PEERLIST_ENTRIES "local_peerlist" b (as_chunks 24 b).1 ltac:(lia))) as (_ & _ & Hm); [unfold PeerlistEntry.STRIDE in Hn; by rewrite Hn|].
  destruct (as_chunks_spec 24 b Hb ltac:(lia)) as [Hc _]. split; [|by rewrite length_map]. apply Forall_map. eapply Forall_impl; [exact Hc|]. intros c [Hcb Hcl].
  split; cbn; [apply slice_typed|apply slice_uint..]; (done || lia).
Qed.

Lemma peers6_typed b l : is_bytes b → PeerlistEntry6.parse_blob b = Ok l → Forall peer6_ok l ∧ (length l ≤ MAX_PEERLIST_ENTRIES)%nat.
Proof.
  intros Hb. unfold PeerlistEntry6.parse_blob. intros (n & Hn & [= <-])%result_bind_Ok.
  destruct (proj1 (blob_elements 40 MAX_PEERLIST_ENTRIES "local_peerlist6" b (as_chunks 40 b).1 ltac:(lia))) as (_ & _ & Hm); [unfold PeerlistEntry6.STRIDE in Hn; by rewrite Hn|].
  destruct (as_chunks_spec 40 b Hb ltac:(lia)) as [Hc _]. split; [|by rewrite length_map]. apply Forall_map. eapply Forall_impl; [exact Hc|]. intros c [Hcb Hcl].
  split; cbn; [apply slice_typed|apply slice_uint..]; (done || lia).
Qed.

Lemma strings_typed lv v what l t : Forall (λ v, Kv.wf_scalar (Kv.wf_section lv) v ∧ Kv.type_of v = t) v → string_array v what = Ok l → Forall blob_fits l.
Proof.
  intros Hv. revert l. induction Hv as [|x v [Hx _] _ IH]; intros l; cbn [string_array]; [intros [= <-]; constructor|].
  destruct x; try done. intros (rest & Hr & [= <-])%result_bind_Ok. constructor; [exact Hx|auto].
Qed.

Lemma raw_typed lv o b : Kv.wf_section (S lv) o → raw_block_of o = Ok b → blob_fits (rb_block b) ∧ Forall blob_fits (rb_txs b).
Proof.
  intros Ho (block & Hb%ok_or_Ok & Hr)%result_bind_Ok. apply result_bind_Ok in Hr as (txs & Ht & [= <-]). cbn.
  destruct (get_array_typed lv o Ho (name "txs")) as [t Ha]. split; [by eapply get_bytes_typed|by eapply strings_typed].
Qed.

Lemma raws_typed lv v l t : Forall (λ v, Kv.wf_scalar (Kv.wf_section (S lv)) v ∧ Kv.type_of v = t) v → raw_blocks v = Ok l →
  Forall (λ b, blob_fits (rb_block b) ∧ Forall blob_fits (rb_txs b)) l.
Proof.
  intros Hv. revert l. induction Hv as [|x v [Hx _] _ IH]; intros l; cbn [raw_blocks]; [intros [= <-]; constructor|].
  destruct x as [| | | | |o|]; try done. intros (b & Hb & Hr)%result_bind_Ok. apply result_bind_Ok in Hr as (rest & Hr & [= <-]). constructor; [by eapply raw_typed|auto].
Qed.

Lemma decoded_wf payload s : is_bytes payload → Kv.decode payload = Ok s → Kv.wf_section 33 s.
Proof. intros Hp Hd. by apply Kv.decode_wf in Hd as [? _]. Qed.

Lemma get_node_typed s d : Kv.wf_section 33 s → get_node_data s = Ok d → node_ok d.
Proof. intros Hs (o & Ho%ok_or_Ok & Hr)%result_bind_Ok. apply (get_object_typed 32) in Ho; [|done]. by eapply (node_typed 31). Qed.

Lemma get_payload_typed s d : Kv.wf_section 33 s → get_payload_data s = Ok d → sync_ok d.
Proof. intros Hs (o & Ho%ok_or_Ok & Hr)%result_bind_Ok. apply (get_object_typed 32) in Ho; [|done]. by eapply (sync_typed 31). Qed.

(** C27. Whatever a peer sends, what the parsers return is well typed: ports, heights and ids within
    their width, ids and hashes of their length, at most 250 entries in a peer list and
    10,000 hashes in a hash list, and never an empty chain entry, whose last height would
    be computed below its first. *)
Theorem p2p_parsed_typed payload : is_bytes payload →
  (∀ r, parse_handshake_response payload = Ok r → node_ok (node_data r) ∧ sync_ok (payload_data r) ∧
     (Forall peer_ok (local_peerlist r) ∧ (length (local_peerlist r) ≤ 250)%nat) ∧ (Forall peer6_ok (local_peerlist6 r) ∧ (length (local_peerlist6 r) ≤ 250)%nat)) ∧
  (∀ r, parse_chain_entry payload = Ok r → is_u32 (start_height r) ∧ is_u32 (total_height r) ∧ hashes_ok (block_ids r) ∧ block_ids r ≠ []) ∧
  (∀ l, parse_request_chain payload = Ok l → hashes_ok l ∧ l ≠ []) ∧
  (∀ r, parse_get_objects_response payload = Ok r → is_u32 (go_current_blockchain_height r) ∧ hashes_ok (missed_ids r) ∧ Forall blob_fits (go_txs r) ∧
     Forall (λ b, blob_fits (rb_block b) ∧ Forall blob_fits (rb_txs b)) (go_blocks r)) ∧
  (∀ r, parse_missing_txs payload = Ok r → is_u32 (mt_current_blockchain_height r) ∧ is_hash (mt_block_hash r) ∧ hashes_ok (mt_missing_txs r)).
Proof.
  intros Hp. split_and!.
  - intros r (s & Hs%decoded_wf & Hr)%result_bind_Ok; [|done]. apply result_bind_Ok in Hr as (node & Hn & Hr). apply result_bind_Ok in Hr as (sync & Hy & Hr).
    apply result_bind_Ok in Hr as (l & Hl & Hr). apply result_bind_Ok in Hr as (l6 & Hl6 & [= <-]). cbn.
    split_and!; [by eapply get_node_typed|by eapply get_payload_typed|eapply peers_typed; [|exact Hl]|eapply peers_typed; [|exact Hl]|eapply peers6_typed; [|exact Hl6]|eapply peers6_typed; [|exact Hl6]]; by apply (get_blob_typed 32).
  - intros r (s & Hs%decoded_wf & Hr)%result_bind_Ok; [|done]. apply result_bind_Ok in Hr as (ids & Hi & Hr). case_bool_decide as He; [done|].
    apply result_bind_Ok in Hr as (st & _ & Hr). apply result_bind_Ok in Hr as (top & _ & [= <-]). cbn. split_and!; [by apply wrap_bound|by apply wrap_bound|by eapply (hashes_typed 32)|done].
  - intros l (s & Hs%decoded_wf & Hr)%result_bind_Ok; [|done]. apply result_bind_Ok in Hr as (ids & Hi & Hr). case_bool_decide as He; [done|]. injection Hr as <-. split; [by eapply (hashes_typed 32)|done].
  - intros r (s & Hs%decoded_wf & Hr)%result_bind_Ok; [|done]. apply result_bind_Ok in Hr as (blocks & Hb & Hr). apply result_bind_Ok in Hr as (txs & Ht & Hr).
    apply result_bind_Ok in Hr as (missed & Hm & [= <-]). cbn. destruct (get_array_typed 32 s Hs (name "blocks")) as [tb Hab]. destruct (get_array_typed 32 s Hs (name "txs")) as [tt Hat].
    split_and!; [by apply wrap_bound|by eapply (hashes_typed 32)|eapply strings_typed; [exact Hat|exact Ht]|eapply (raws_typed 31); [exact Hab|exact Hb]].
  - intros r (s & Hs%decoded_wf & Hr)%result_bind_Ok; [|done]. apply result_bind_Ok in Hr as (h & Hh%ok_or_Ok & Hr). apply result_bind_Ok in Hr as (bh & Hb & Hr).
    apply result_bind_Ok in Hr as (missed & Hm & [= <-]). cbn. unfold array_of in Hb. destruct (Nat.eqb_spec (length h) 32); [|done]. injection Hb as <-.
    apply (get_bytes_typed 32 s Hs) in Hh as [? _]. split_and!; [by apply wrap_bound|done|by eapply (hashes_typed 32)].
Qed.

(** * The messages fit their caps *)

(** An upper bound on the bytes of a section: eight for every length and integer. *)
Definition items_size (f : Value → Z) : list Value → Z :=
  fix go l := match l with [] => 0 | v :: l => f v + go l end.
Definition entries_size (f : Value → Z) : KvSection → Z :=
  fix go s :=
    match s with
    | [] => 0
    | (m, v) :: s => 2 + Z.of_nat (length m) + match v with Array items => 8 + items_size f items | _ => f v end + go s
    end.
Fixpoint scalar_size (v : Value) : Z :=
  match v with
  | String s => 8 + Z.of_nat (length s)
  | Object s => 8 + entries_size scalar_size s
  | Array _ => 0
  | _ => 8
  end.
Definition entry_size (v : Value) : Z := match v with Array items => 8 + items_size scalar_size items | _ => scalar_size v end.

Lemma write_varint_size out v : Z.of_nat (length (Kv.write_kv_varint out v)) ≤ Z.of_nat (length out) + 8.
Proof. unfold Kv.write_kv_varint. cbv zeta. repeat case_match; rewrite length_app, ?length_to_le_bytes; cbn; lia. Qed.

Lemma write_scalar_size (v : Value) : ∀ out w, Kv.write_scalar out v = Some w → Z.of_nat (length w) ≤ Z.of_nat (length out) + scalar_size v.
Proof.
  revert v. fix IH 1. intros [i t|u t|d|b|b|s|items] out w.
  1, 2: cbn [Kv.write_scalar scalar_size]; repeat case_match; intros [= <-]; rewrite length_app, ?length_to_le_bytes; cbn [length]; lia.
  - cbn [Kv.write_scalar scalar_size]. intros [= <-]. rewrite length_app. cbn. lia.
  - cbn [Kv.write_scalar scalar_size]. intros [= <-]. rewrite length_app. pose proof (write_varint_size out (Z.of_nat (length b))). lia.
  - cbn [Kv.write_scalar scalar_size]. intros [= <-]. rewrite length_app. cbn. lia.
  - cbn [Kv.write_scalar scalar_size]. pose proof (write_varint_size out (Z.of_nat (length s))) as Hv. revert Hv. generalize (Kv.write_kv_varint out (Z.of_nat (length s))).
    intros o Hv Hw. enough (Z.of_nat (length w) ≤ Z.of_nat (length o) + entries_size scalar_size s) by lia. clear Hv out. revert o w Hw.
    induction s as [|[m v] s IHs]; intros o w; cbn [Kv.write_entries entries_size]; [intros [= ->]; lia|]. destruct (_ && _); [|done].
    match goal with |- match ?x with _ => _ end = _ → _ => destruct x as [o'|] eqn:E; [|done] end. intros Hw%IHs.
    enough (Z.of_nat (length o') ≤ Z.of_nat (length o) + (2 + Z.of_nat (length m) + match v with Array items => 8 + items_size scalar_size items | _ => scalar_size v end)) by lia. clear IHs Hw.
    assert (∀ t, Z.of_nat (length (((o ++ [Z.of_nat (length m)]) ++ m) ++ [t])) = Z.of_nat (length o) + 2 + Z.of_nat (length m)) as Ho by (intros t; rewrite !length_app; cbn; lia).
    pose proof (IH v) as Hsc. destruct v as [| | | | |o2|items]; try (apply Hsc in E; rewrite Ho in E; lia). clear Hsc.
    assert (∀ y w, Kv.write_items Kv.write_scalar y items = Some w → Z.of_nat (length w) ≤ Z.of_nat (length y) + items_size scalar_size items) as Hi.
    { clear E Ho w. induction items as [|v items IHi]; intros y w; cbn [Kv.write_items items_size]; [intros [= ->]; lia|].
      destruct (Kv.write_scalar y v) as [y'|] eqn:E; [|done]. apply IH in E. intros Hw%IHi. lia. }
    apply Hi in E. pose proof (write_varint_size (((o ++ [Z.of_nat (length m)]) ++ m) ++ [Z.lor (match items with e :: _ => Kv.type_of e | [] => Kv.TYPE_STRING end) Kv.ARRAY_FLAG]) (Z.of_nat (length items))) as Hv.
    rewrite Ho in Hv. lia.
  - done.
Qed.

Lemma size_push s m v : entries_size scalar_size (s ++ [(m, v)]) = entries_size scalar_size s + 2 + Z.of_nat (length m) + entry_size v.
Proof. induction s as [|[m' v'] s IH]; cbn [app entries_size]; [unfold entry_size; lia|]. rewrite IH. lia. Qed.

Lemma size_string s m v : entries_size scalar_size (KvSection.string s m v) ≤ entries_size scalar_size s + 10 + Z.of_nat (length m) + Z.of_nat (length v).
Proof. unfold KvSection.string. destruct (negb _); [|lia]. rewrite size_push. cbn [entry_size scalar_size]. lia. Qed.

Lemma encode_size s w : Kv.encode s = Some w → Z.of_nat (length w) ≤ 17 + entries_size scalar_size s.
Proof.
  intros Hw. change (Kv.encode s) with (Kv.write_scalar Kv.HEADER (Object s)) in Hw. apply write_scalar_size in Hw. cbn [scalar_size] in Hw.
  change (Z.of_nat (length Kv.HEADER)) with 9 in Hw. lia.
Qed.

(** Bounds the size of a section under construction; the names are literals. *)
Ltac name_lengths := repeat match goal with |- context [Z.of_nat (length (ascii_bytes ?s))] =>
  let v := eval vm_compute in (Z.of_nat (length (ascii_bytes s))) in change (Z.of_nat (length (ascii_bytes s))) with v end.
Ltac size_bound :=
  unfold KvSection.u8, KvSection.u32, KvSection.u64, KvSection.text, KvSection.object;
  repeat first [rewrite size_push; cbn [entry_size scalar_size]
    | match goal with |- context [entries_size scalar_size (KvSection.string ?s ?m ?v)] =>
        let H := fresh in pose proof (size_string s m v) as H; revert H; generalize (entries_size scalar_size (KvSection.string s m v)); intros ? end];
  cbn [entries_size]; name_lengths.

Lemma node_size d : node_ok d → entries_size scalar_size (BasicNodeData.to_section d) ≤ 128.
Proof. intros [[_ Hn] _ _ _ _]. unfold BasicNodeData.to_section. cbv zeta. size_bound. rewrite Hn. lia. Qed.

Lemma sync_size d : sync_ok d → entries_size scalar_size (CoreSyncData.to_section d) ≤ 192.
Proof. intros [[_ Hn] _ _ _ _]. unfold CoreSyncData.to_section. cbv zeta. size_bound. rewrite Hn. lia. Qed.

(** A frame with this payload and command passes the cap of a receiver, which reads the
    message that was sent and is left at the next frame. *)
Definition delivered {A} (cmd : Z) (payload : option bytes) (parse : bytes → result Error A) (m : A) : Prop :=
  ∃ w, payload = Some w ∧ parse w = Ok m ∧ ∀ h rest e, header_ok h → command h = cmd →
    read_frame_by max_inbound_payload (mkStream ((write_frame [] h w).2 ++ rest) e) = (Ok (sent (h, w)), mkStream rest e).

Lemma deliver {A} cmd payload (parse : bytes → result Error A) m bound : reads payload parse m → (∀ w, payload = Some w → Z.of_nat (length w) ≤ bound) →
  (∀ h, command h = cmd → bound ≤ max_inbound_payload h) → bound ≤ LEVIN_MAX_PACKET_SIZE → delivered cmd payload parse m.
Proof.
  intros (w & Hw & Hp) Hl Hb Hx. exists w. split_and!; [done|done|]. intros h rest e [Hpl Hc Hr Hf Hk Hv] <-. specialize (Hl w Hw).
  rewrite write_frame_wire. cbn [snd app]. apply read_frame_by_wire. split; [split; cbn; (done || lia)|]. cbn [fst snd sent].
  etrans; [exact Hl|]. by apply Hb.
Qed.

Ltac cap := intros ? E; unfold max_inbound_payload; rewrite E; vm_compute; discriminate.

Section Fit.
Context (node : BasicNodeData) (sync : CoreSyncData) (peers : list PeerlistEntry) (peers6 : list PeerlistEntry6) (t : Z).
Context (Hnode : node_ok node) (Hsync : sync_ok sync) (Hpeers : Forall peer_ok peers) (Hpeers6 : Forall peer6_ok peers6) (Ht : is_u64 t).

Lemma node_and_sync_size : entries_size scalar_size (node_and_sync node sync) ≤ 512.
Proof. pose proof (node_size node Hnode). pose proof (sync_size sync Hsync). unfold node_and_sync. size_bound. lia. Qed.

Lemma handshake_request_size w : handshake_request node sync = Some w → Z.of_nat (length w) ≤ 1024.
Proof. intros Hw%encode_size. pose proof node_and_sync_size. lia. Qed.

Lemma handshake_response_size w : handshake_response node sync peers peers6 = Some w → Z.of_nat (length w) ≤ 20_000.
Proof.
  intros Hw%encode_size. pose proof node_and_sync_size. destruct (peerlist_blob_ok peers Hpeers) as [_ Hl]. destruct (peerlist6_blob_ok peers6 Hpeers6) as [_ Hl6].
  revert Hw. size_bound. lia.
Qed.

Lemma timed_sync_request_size w : timed_sync_request sync = Some w → Z.of_nat (length w) ≤ 1024.
Proof. intros Hw%encode_size. pose proof (sync_size sync Hsync). revert Hw. size_bound. lia. Qed.

Lemma timed_sync_response_size w : timed_sync_response_from t sync peers peers6 = Some w → Z.of_nat (length w) ≤ 20_000.
Proof.
  intros Hw%encode_size. pose proof (sync_size sync Hsync). destruct (peerlist_blob_ok peers Hpeers) as [_ Hl]. destruct (peerlist6_blob_ok peers6 Hpeers6) as [_ Hl6].
  revert Hw. size_bound. lia.
Qed.
End Fit.

Lemma hashes_size l : hashes_ok l → Z.of_nat (length (hashes_blob l)) ≤ 320_000.
Proof. intros [Hl Hm]. rewrite length_hashes_blob by done. unfold MAX_HASHES in Hm. lia. Qed.

Lemma hash_list_size (payload : option bytes) s n l : payload = Kv.encode (KvSection.string s n (hashes_blob l)) → entries_size scalar_size s ≤ 256 → (length n ≤ 255)%nat → hashes_ok l →
  ∀ w, payload = Some w → Z.of_nat (length w) ≤ 321_000.
Proof. intros -> Hs Hn Hl w Hw%encode_size. pose proof (hashes_size l Hl). pose proof (size_string s n (hashes_blob l)). lia. Qed.


(** * The sparse chain *)

Lemma sparse_loop_spec fuel tip k : is_u32 tip → (32 ≤ k + fuel)%nat → (k ≤ 31)%nat →
  sparse_loop fuel tip (2 ^ Z.of_nat k) = map (λ j, tip - 2 ^ Z.of_nat j) (seq k (Z.to_nat (Z.log2_up tip) - k)).
Proof.
  intros Ht. revert k. induction fuel as [|fuel IH]; intros k Hf Hk; [lia|]. cbn [sparse_loop]. unfold in_u in Ht.
  destruct (Z.ltb_spec (2 ^ Z.of_nat k) tip) as [Hlt|Hge].
  - assert (Z.of_nat k < Z.log2_up tip) as Hlog by (apply Z.log2_up_lt_pow2; [pose proof (Z.pow_pos_nonneg 2 (Z.of_nat k)); lia|done]).
    replace (Z.to_nat (Z.log2_up tip) - k)%nat with (S (Z.to_nat (Z.log2_up tip) - S k)) by lia. cbn [seq map]. f_equal. unfold checked_mul.
    replace (2 ^ Z.of_nat k * 2) with (2 ^ Z.of_nat (S k)) by (rewrite Nat2Z.inj_succ, Z.pow_succ_r; lia).
    destruct (decide (k = 31%nat)) as [->|Hne].
    + rewrite (proj2 (Z.ltb_ge _ _)) by done. assert (Z.log2_up tip ≤ 32) by (apply Z.log2_up_le_pow2; lia). by replace (Z.to_nat (Z.log2_up tip) - 32)%nat with 0%nat by lia.
    + rewrite (proj2 (Z.ltb_lt _ _)) by (apply Z.pow_lt_mono_r; lia). apply IH; lia.
  - assert (Z.log2_up tip ≤ Z.of_nat k).
    { destruct (decide (tip ≤ 1)); [rewrite Z.log2_up_eqn0 by done; lia|]. apply Z.log2_up_le_pow2; lia. }
    by replace (Z.to_nat (Z.log2_up tip) - k)%nat with 0%nat by lia.
Qed.

Lemma dedup_sorted l : StronglySorted Z.gt l → Windows.dedup l = l.
Proof.
  induction 1 as [|x l Hs IH Hx]; [done|]. destruct l as [|y l]; [done|]. apply Forall_cons in Hx as [Hxy _]. cbn [Windows.dedup]. rewrite (proj2 (Z.eqb_neq x y)) by lia. by f_equal.
Qed.

Lemma sparse_steps_sorted tip n : (∀ j, (j < n)%nat → 2 ^ Z.of_nat j < tip) →
  ∀ k, (k ≤ n)%nat → StronglySorted Z.gt (map (λ j, tip - 2 ^ Z.of_nat j) (seq k (n - k)) ++ [0]).
Proof.
  intros Hn k Hk. remember (n - k)%nat as m eqn:Hm. revert k Hk Hm. induction m as [|m IH]; intros k Hk Hm; cbn [seq map app]; [by repeat constructor|].
  constructor; [apply IH; lia|]. apply Forall_app. split; [|apply Forall_singleton; specialize (Hn k); lia]. apply Forall_map, Forall_forall. intros j Hj%elem_of_seq.
  enough (2 ^ Z.of_nat k < 2 ^ Z.of_nat j) by lia. apply Z.pow_lt_mono_r; lia.
Qed.

Lemma sparse_shape tip : is_u32 tip → tip ≠ 0 → (∀ j, (j < Z.to_nat (Z.log2_up tip))%nat → 2 ^ Z.of_nat j < tip) ∧
  sparse_chain_indices tip = tip :: map (λ j, tip - 2 ^ Z.of_nat j) (seq 0 (Z.to_nat (Z.log2_up tip))) ++ [0] ∧ StronglySorted Z.gt (sparse_chain_indices tip).
Proof.
  intros Ht Hz. assert (∀ j, (j < Z.to_nat (Z.log2_up tip))%nat → 2 ^ Z.of_nat j < tip) as Hn.
  { intros j Hj. unfold in_u in Ht. apply Z.log2_up_lt_pow2; lia. }
  assert (StronglySorted Z.gt (tip :: map (λ j, tip - 2 ^ Z.of_nat j) (seq 0 (Z.to_nat (Z.log2_up tip))) ++ [0])) as Hs.
  { constructor; [pose proof (sparse_steps_sorted tip _ Hn 0 ltac:(lia)) as H; by rewrite Nat.sub_0_r in H|]. unfold in_u in Ht. apply Forall_app. split; [|apply Forall_singleton; lia].
    apply Forall_map, Forall_forall. intros j _. pose proof (Z.pow_pos_nonneg 2 (Z.of_nat j)). lia. }
  enough (sparse_chain_indices tip = tip :: map (λ j, tip - 2 ^ Z.of_nat j) (seq 0 (Z.to_nat (Z.log2_up tip))) ++ [0]) as E by (rewrite E; done).
  unfold sparse_chain_indices. change 1 with (2 ^ Z.of_nat 0) at 1. rewrite sparse_loop_spec by (done || lia). rewrite Nat.sub_0_r, (proj2 (Z.eqb_neq _ _) Hz). by apply dedup_sorted.
Qed.

(** C28. The sparse chain finds the fork. The indices asked with start at the tip, go down without a
    repeat to genesis in steps that double, two and the ceiling of the binary logarithm of
    the tip in number; and whatever the last block [c] two nodes share, one of them is at or
    below [c] and at most twice as far from the tip. *)
Theorem sparse_chain_spec tip : is_u32 tip →
  let l := sparse_chain_indices tip in
  head l = Some tip ∧ last l = Some 0 ∧ StronglySorted Z.gt l ∧ Z.of_nat (length l) = (if tip =? 0 then 1 else 2 + Z.log2_up tip) ∧
  ∀ c, 0 ≤ c ≤ tip → ∃ i, i ∈ l ∧ i ≤ c ∧ tip - i ≤ 2 * (tip - c).
Proof.
  intros Ht l. destruct (Z.eqb_spec tip 0) as [->|Hz].
  { change l with [0]. split_and!; [done|done|by repeat constructor|done|]. intros c Hc. exists 0. split; [left|lia]. }
  destruct (sparse_shape tip Ht Hz) as (Hn & Hl & Hs). fold l in Hl, Hs. rewrite Hl in *. unfold in_u in Ht. split_and!.
  - done.
  - by rewrite app_comm_cons, last_snoc.
  - done.
  - cbn [length]. rewrite length_app, length_map, length_seq. cbn [length]. pose proof (Z.log2_up_nonneg tip). lia.
  - intros c Hc. destruct (decide (c = tip)) as [->|Hne]; [exists tip; split; [left|lia]|]. set (d := tip - c). assert (0 < d) as Hd by (unfold d; lia).
    assert (d ≤ 2 ^ Z.log2_up d ∧ 2 ^ Z.log2_up d < 2 * d) as [Hlo Hhi].
    { destruct (decide (d = 1)) as [->|]; [cbn; lia|]. destruct (Z.log2_up_spec d ltac:(lia)) as [H1 H2]. split; [done|].
      rewrite <- (Z.succ_pred (Z.log2_up d)), Z.pow_succ_r by (pose proof (Z.log2_up_pos d); lia). lia. }
    pose proof (Z.log2_up_nonneg d) as Hj. destruct (decide (2 ^ Z.log2_up d < tip)) as [Hlt|Hge].
    + exists (tip - 2 ^ Z.log2_up d). split; [|unfold d in *; lia]. right. apply elem_of_app. left. apply list_elem_of_fmap. exists (Z.to_nat (Z.log2_up d)).
      rewrite Z2Nat.id by lia. split; [done|]. apply elem_of_seq. assert (Z.log2_up d < Z.log2_up tip) by (apply Z.log2_up_lt_pow2; lia). lia.
    + exists 0. split; [right; apply elem_of_app; right; left|]. unfold d in *. lia.
Qed.

(** The comment of the source has at most [2 + log2(tip)] entries, 24 of them at the height of the
    main network, which limits.rs puts at 4.3 million: they are one more. *)
Theorem sparse_chain_one_more : length (sparse_chain_indices 4_300_000) = 25%nat ∧ length (sparse_chain_indices 3) = 4%nat ∧ 2 + Z.log2 3 = 3.
Proof. vm_compute. done. Qed.

(** * Witnesses *)

Module ToyPeers.
Definition node : BasicNodeData := mkBasicNodeData CRYPTONOTE_NETWORK 19 7 1_700_000_000 17_855.
Definition sync : CoreSyncData := mkCoreSyncData 5 (replicate 32 1) 0 0 0.
Definition peer : PeerlistEntry := mkPeer [10; 0; 0; 1] 17_855 9 1_700_000_000.
Definition peer6 : PeerlistEntry6 := mkPeer6 9 1_700_000_000 (replicate 16 2) 17_855.
Definition ids : list bytes := [replicate 32 3; replicate 32 4].
Definition missing : MissingTxs := mkMissingTxs 5 (replicate 32 5) ids.

Lemma array_replicate n b : is_u8 b → is_array n (replicate n b).
Proof. intros Hb. split; [by apply Forall_replicate|apply length_replicate]. Qed.
Lemma node_typed_ok : node_ok node.
Proof. split; try done. split; [|done]. apply (bool_decide_unpack _). vm_compute. exact I. Qed.
Lemma sync_typed_ok : sync_ok sync.
Proof. split; try done. by apply array_replicate. Qed.
Lemma one_peer_ok : Forall peer_ok [peer].
Proof. apply Forall_singleton. split; try done. split; [|done]. apply (bool_decide_unpack _). vm_compute. exact I. Qed.
Lemma peers6_ok : Forall peer6_ok [peer6].
Proof. apply Forall_singleton. split; try done. by apply array_replicate. Qed.
Lemma ids_ok : hashes_ok ids.
Proof. split; [repeat (apply Forall_cons; split); [by apply array_replicate|by apply array_replicate|by apply Forall_nil]|]. unfold MAX_HASHES. cbn. lia. Qed.
End ToyPeers.

Lemma p2p_handshake_roundtrip_witness : reads (handshake_request ToyPeers.node ToyPeers.sync) parse_handshake_request (ToyPeers.node, ToyPeers.sync).
Proof.
  destruct (p2p_handshake_roundtrip ToyPeers.node ToyPeers.sync [ToyPeers.peer] [ToyPeers.peer6] 5 ToyPeers.node_typed_ok ToyPeers.sync_typed_ok ToyPeers.one_peer_ok ToyPeers.peers6_ok) as [H _];
    [unfold in_u; lia|exact H].
Defined.

Lemma p2p_notify_roundtrip_witness : reads (request_chain ToyPeers.ids) parse_request_chain ToyPeers.ids.
Proof. destruct p2p_notify_roundtrip as [H _]. apply H; [exact ToyPeers.ids_ok|discriminate]. Defined.

Lemma p2p_parsed_typed_witness : ∃ w, request_chain ToyPeers.ids = Some w ∧ ∃ l, parse_request_chain w = Ok l ∧ hashes_ok l.
Proof.
  destruct (request_chain ToyPeers.ids) as [w|] eqn:E; [|discriminate E]. exists w. split; [reflexivity|].
  assert (is_bytes w) as Hw by (injection E as <-; apply (bool_decide_unpack _); vm_compute; exact I).
  destruct (p2p_parsed_typed w Hw) as (_ & _ & H & _). exists ToyPeers.ids. assert (parse_request_chain w = Ok ToyPeers.ids) as Hp by (injection E as <-; vm_compute; reflexivity).
  split; [exact Hp|]. apply H in Hp. exact (proj1 Hp).
Defined.


Lemma sparse_chain_spec_witness : ∃ i, i ∈ sparse_chain_indices 100 ∧ i ≤ 90 ∧ 100 - i ≤ 20.
Proof.
  destruct (sparse_chain_spec 100) as (_ & _ & _ & _ & H); [unfold in_u; lia|]. destruct (H 90) as (i & Hi & Hc & Hd); [lia|]. exists i. split_and!; [exact Hi|exact Hc|lia].
Defined.
