(* ===== verification/Wallet.v ===== *)
(** The wallet: its document (crates/wrkz-wallet/src/file.rs), and what reads and changes it
    (the queries and mutators of sync.rs).

    A [Hex32] and a [SecretKey] are their 32 bytes, a [String] its bytes. Wiping keys,
    display texts, the JSON form and the file cipher are left out. The time of day is an
    argument. *)
From stdpp Require Import gmap sets.
From S2P Require Import Prelude Constants Hashing Curve Base58 Mnemonic.
Local Open Scope Z_scope.

(** * Errors *)

(** The texts the variants carry for the user are left out. *)
Inductive WalletError : Type :=
| InvalidMnemonic (e : MnemonicError)
| InvalidAddress (e : Base58Error)
| SubWalletAlreadyExists
| IllegalViewWalletOperation
| InvalidPrivateKey
| InvalidPublicKey
| WillOverflow
| AddressNotInWallet (address : bytes)
| NotEnoughBalance (needed available : Z)
| IntegratedAddressPaymentIdInvalid
| FeeTooSmall
| NoDestinationsGiven
| AmountIsZero
| FailedToCreateRingSignature
| MixinTooSmall (mixin min : Z)
| MixinTooBig (mixin max : Z)
| PaymentIdWrongLength (n : nat)
| PaymentIdInvalid
| AddressIsIntegrated (address : bytes)
| ConflictingPaymentIds
| NotEnoughFakeOutputs
| DaemonOffline
| DaemonError_
| TooManyInputsToFitInBlock (size max : Z)
| FullyOptimized
| FusionMixinTooLarge
| AmountsNotPretty
| UnexpectedFee (expected actual : Z)
| OutputDecomposition (outputs max : Z)
| PreparedTransactionExpired
| AmountUgly
| UnlockTimeTooSmall_ (unlock_time minimum : Z)
| ShortPaymentIdNeedsSingleDestination (n : nat)
| TransactionPoWFailed
| Json.

(** * Hex *)

(** [char::to_digit(16)] of an ASCII character. *)
Definition to_digit16 (c : Z) : option Z :=
  if (48 <=? c) && (c <=? 57) then Some (c - 48)
  else if (97 <=? c) && (c <=? 102) then Some (c - 87)
  else if (65 <=? c) && (c <=? 70) then Some (c - 55)
  else None.

Definition hex_digit (d : Z) : Z := if d <? 10 then 48 + d else 87 + d.

Fixpoint parse_hex (s : bytes) : option bytes :=
  match s with
  | [] => Some []
  | hi :: lo :: s =>
      hi ← to_digit16 hi;
      lo ← to_digit16 lo;
      out ← parse_hex s;
      Some (hi * 16 + lo :: out)
  | [_] => None
  end.

Definition parse_hex32 (s : bytes) : option bytes := if (length s =? 64)%nat then parse_hex s else None.

Definition write_hex (bs : bytes) : bytes := concat (map (λ b, [hex_digit (Z.shiftr b 4); hex_digit (Z.land b 15)]) bs).

(** * The document *)

Record Transfer := mkTransfer { t_amount : Z; t_public_key : bytes }.

Record WalletTransaction := mkWalletTransaction {
  wt_block_height : Z; wt_fee : Z; wt_hash : Hash; wt_is_coinbase_transaction : bool; wt_payment_id : bytes;
  wt_timestamp : Z; wt_transfers : list Transfer; wt_unlock_time : Z }.

Definition total_amount (t : WalletTransaction) : Z := as_signed 64 (foldr (λ x acc, t_amount x + acc) 0 (wt_transfers t)).

Definition looks_like_fusion (t : WalletTransaction) : bool := (wt_fee t =? 0) && negb (wt_is_coinbase_transaction t).

Record TransactionInput := mkTransactionInput {
  ti_amount : Z; ti_block_height : Z; ti_global_output_index : option Z; ti_key : bytes; ti_key_image : bytes;
  ti_parent_transaction_hash : Hash; ti_private_ephemeral : option bytes; ti_spend_height : Z; ti_transaction_index : Z;
  ti_transaction_public_key : bytes; ti_unlock_time : Z }.

#[export] Instance TransactionInput_eq_dec : EqDecision TransactionInput.
Proof. solve_decision. Defined.

Definition with_spend_height (h : Z) (i : TransactionInput) : TransactionInput :=
  mkTransactionInput (ti_amount i) (ti_block_height i) (ti_global_output_index i) (ti_key i) (ti_key_image i)
    (ti_parent_transaction_hash i) (ti_private_ephemeral i) h (ti_transaction_index i) (ti_transaction_public_key i) (ti_unlock_time i).

Definition with_global_index (g : option Z) (i : TransactionInput) : TransactionInput :=
  mkTransactionInput (ti_amount i) (ti_block_height i) g (ti_key i) (ti_key_image i)
    (ti_parent_transaction_hash i) (ti_private_ephemeral i) (ti_spend_height i) (ti_transaction_index i) (ti_transaction_public_key i) (ti_unlock_time i).

Record UnconfirmedInput := mkUnconfirmedInput { ui_amount : Z; ui_key : bytes; ui_parent_transaction_hash : Hash }.

Record SubWallet := mkSubWallet {
  sw_address : bytes; sw_is_primary_address : bool; sw_locked_inputs : list TransactionInput; sw_private_spend_key : bytes;
  sw_public_spend_key : bytes; sw_spent_inputs : list TransactionInput; sw_sync_start_height : Z; sw_sync_start_timestamp : Z;
  sw_unconfirmed_incoming_amounts : list UnconfirmedInput; sw_unspent_inputs : list TransactionInput; sw_wallet_index : Z }.

(** The lists of a subwallet, replaced. *)
Definition with_lists (s : SubWallet) (unspent locked spent : list TransactionInput) (unconfirmed : list UnconfirmedInput) : SubWallet :=
  mkSubWallet (sw_address s) (sw_is_primary_address s) locked (sw_private_spend_key s) (sw_public_spend_key s) spent
    (sw_sync_start_height s) (sw_sync_start_timestamp s) unconfirmed unspent (sw_wallet_index s).

Definition with_sync_start (s : SubWallet) (height timestamp : Z) : SubWallet :=
  mkSubWallet (sw_address s) (sw_is_primary_address s) (sw_locked_inputs s) (sw_private_spend_key s) (sw_public_spend_key s) (sw_spent_inputs s)
    height timestamp (sw_unconfirmed_incoming_amounts s) (sw_unspent_inputs s) (sw_wallet_index s).

Definition SubWallet_new_primary (public_spend_key private_spend_key address : bytes) (scan_height scan_timestamp : Z) : SubWallet :=
  mkSubWallet address true [] private_spend_key public_spend_key [] scan_height scan_timestamp [] [] 0.

Definition SecretKey_is_null (k : bytes) : bool := bool_decide (k = NULL_SECRET_KEY).

Definition has_spend_key (s : SubWallet) : bool := negb (SecretKey_is_null (sw_private_spend_key s)).

Definition all_inputs (s : SubWallet) : list TransactionInput := sw_unspent_inputs s ++ sw_locked_inputs s ++ sw_spent_inputs s.

Record TxPrivateKey := mkTxPrivateKey { pk_transaction_hash : Hash; pk_tx_private_key : bytes }.

Record SubWallets := mkSubWallets {
  is_view_wallet : bool; locked_transactions : list WalletTransaction; private_view_key : bytes; public_spend_keys : list bytes;
  sub_wallet_list : list SubWallet; sub_wallet_index_counter : Z; transactions : list WalletTransaction; tx_private_keys : list TxPrivateKey }.

Record SynchronizationStatus := mkSynchronizationStatus {
  block_hash_checkpoints : list Hash; last_known_block_hashes : list Hash; last_known_block_height : Z; last_saved_checkpoint_at : Z }.

Definition SynchronizationStatus_default : SynchronizationStatus := mkSynchronizationStatus [] [] 0 0.

(** [if v.len() > n { v.pop(); }] *)
Definition pop_above {A} (n : nat) (l : list A) : list A := if (n <? length l)%nat then take (length l - 1) l else l.

Definition store_block_hash (s : SynchronizationStatus) (hash : Hash) (height : Z) : SynchronizationStatus :=
  if bool_decide (last (last_known_block_hashes s) = Some hash)
  then mkSynchronizationStatus (block_hash_checkpoints s) (last_known_block_hashes s) height (last_saved_checkpoint_at s)
  else
    let due := wrapping_add 64 (last_saved_checkpoint_at s) BLOCK_HASH_CHECKPOINTS_INTERVAL <? height in
    mkSynchronizationStatus (if due then hash :: block_hash_checkpoints s else block_hash_checkpoints s)
      (pop_above LAST_KNOWN_BLOCK_HASHES_SIZE (hash :: last_known_block_hashes s)) height
      (if due then height else last_saved_checkpoint_at s).

Record WalletSynchronizerState := mkWalletSynchronizerState {
  ws_private_view_key : bytes; start_height : Z; start_timestamp : Z; transaction_synchronizer_status : SynchronizationStatus }.

Record Wallet := mkWallet { sub_wallets : SubWallets; wallet_file_format_version : Z; wallet_synchronizer : WalletSynchronizerState }.

(** ** Updates of one part *)

Definition set_sub_wallets (w : Wallet) (s : SubWallets) : Wallet := mkWallet s (wallet_file_format_version w) (wallet_synchronizer w).

Definition set_sub_wallet_list (w : Wallet) (l : list SubWallet) : Wallet :=
  let s := sub_wallets w in
  set_sub_wallets w (mkSubWallets (is_view_wallet s) (locked_transactions s) (private_view_key s) (public_spend_keys s) l
    (sub_wallet_index_counter s) (transactions s) (tx_private_keys s)).

Definition set_transactions (w : Wallet) (locked confirmed : list WalletTransaction) : Wallet :=
  let s := sub_wallets w in
  set_sub_wallets w (mkSubWallets (is_view_wallet s) locked (private_view_key s) (public_spend_keys s) (sub_wallet_list s)
    (sub_wallet_index_counter s) confirmed (tx_private_keys s)).

Definition set_tx_private_keys (w : Wallet) (l : list TxPrivateKey) : Wallet :=
  let s := sub_wallets w in
  set_sub_wallets w (mkSubWallets (is_view_wallet s) (locked_transactions s) (private_view_key s) (public_spend_keys s) (sub_wallet_list s)
    (sub_wallet_index_counter s) (transactions s) l).

Definition set_status (w : Wallet) (st : SynchronizationStatus) : Wallet :=
  let y := wallet_synchronizer w in
  mkWallet (sub_wallets w) (wallet_file_format_version w)
    (mkWalletSynchronizerState (ws_private_view_key y) (start_height y) (start_timestamp y) st).

(** [iter_mut().find(p)] and a change of what it finds. *)
Fixpoint update_first {A} (p : A → bool) (f : A → A) (l : list A) : list A :=
  match l with
  | [] => []
  | x :: l => if p x then f x :: l else x :: update_first p f l
  end.

(** [iter().position(p)] and [remove] of what it finds. *)
Fixpoint remove_first {A} (p : A → bool) (l : list A) : option (A * list A) :=
  match l with
  | [] => None
  | x :: l => if p x then Some (x, l) else '(y, l) ← remove_first p l; Some (y, x :: l)
  end.

(** * Time *)

Definition current_timestamp_adjusted (now : Z) : Z :=
  saturating_sub now
    (Z.max (Z.max CRYPTONOTE_BLOCK_FUTURE_TIME_LIMIT CRYPTONOTE_BLOCK_FUTURE_TIME_LIMIT_V3) CRYPTONOTE_BLOCK_FUTURE_TIME_LIMIT_V4).

Definition timestamp_to_scan_height (timestamp : Z) : Z :=
  if (timestamp =? 0) || (timestamp <=? GENESIS_BLOCK_TIMESTAMP) then 0
  else saturating_sub ((timestamp - GENESIS_BLOCK_TIMESTAMP) / DIFFICULTY_TARGET) 10_000.

(** [isInputUnlocked], with the clock an argument. *)
Definition is_input_unlocked_at (unlock_time current_height now : Z) : bool :=
  if unlock_time =? 0 then true
  else if CRYPTONOTE_MAX_BLOCK_NUMBER <=? unlock_time then unlock_time <=? saturating_add 64 now CRYPTONOTE_LOCKED_TX_ALLOWED_DELTA_SECONDS
  else unlock_time <=? saturating_add 64 current_height CRYPTONOTE_LOCKED_TX_ALLOWED_DELTA_BLOCKS.

(** * Construction *)

Definition with_primary (private_view_key : bytes) (primary : SubWallet) (is_view : bool) (sync_start_height sync_start_timestamp : Z) : Wallet :=
  mkWallet
    (mkSubWallets is_view [] private_view_key [sw_public_spend_key primary] [primary] 0 [] [])
    WALLET_FILE_FORMAT_VERSION
    (mkWalletSynchronizerState private_view_key sync_start_height sync_start_timestamp SynchronizationStatus_default).

Section Construction.
Context `{C : Crypto} `{CurveSecrets}.

Definition validate_private_key (k : bytes) : result WalletError unit := if sc_check k then Ok () else Err InvalidPrivateKey.

Definition private_keys_to_address (spend view : bytes) : result WalletError bytes :=
  spend_public ← ok_or InvalidPrivateKey (secret_key_to_public_key spend);
  view_public ← ok_or InvalidPrivateKey (secret_key_to_public_key view);
  Ok (standard_address spend_public view_public).

Definition create_from_spend_key (now : Z) (private_spend_key public_spend_key : bytes) (network_height : Z) : result WalletError Wallet :=
  validate_private_key private_spend_key;;
  let '(view_secret, view_public) := generate_view_from_spend private_spend_key in
  let address := standard_address public_spend_key view_public in
  let created := current_timestamp_adjusted now in
  let timestamp_height := timestamp_to_scan_height created in
  let candidate :=
    if network_height =? 0 then timestamp_height
    else if timestamp_height =? 0 then network_height else Z.min network_height timestamp_height in
  let '(start_height, start_timestamp) := if negb (candidate =? 0) then (candidate, 0) else (0, created) in
  Ok (with_primary view_secret (SubWallet_new_primary public_spend_key private_spend_key address 0 created) false start_height start_timestamp).

Definition import_from_keys (private_spend_key private_view_key : bytes) (scan_height : Z) : result WalletError Wallet :=
  validate_private_key private_view_key;;
  validate_private_key private_spend_key;;
  spend_public ← ok_or InvalidPrivateKey (secret_key_to_public_key private_spend_key);
  view_public ← ok_or InvalidPrivateKey (secret_key_to_public_key private_view_key);
  let address := standard_address spend_public view_public in
  Ok (with_primary private_view_key (SubWallet_new_primary spend_public private_spend_key address scan_height 0) false scan_height 0).

Definition import_from_mnemonic (seed : bytes) (scan_height : Z) : result WalletError Wallet :=
  spend ← map_err InvalidMnemonic (mnemonic_to_private_key seed);
  let view := (generate_view_from_spend spend).1 in
  validate_private_key view;;
  import_from_keys spend view scan_height.

Definition import_view_only (private_view_key address : bytes) (scan_height : Z) : result WalletError Wallet :=
  validate_private_key private_view_key;;
  parsed ← map_err InvalidAddress (parse_address address);
  if bool_decide (is_Some (payment_id parsed)) then Err (InvalidAddress (WrongAddressLength (length address)))
  else Ok (with_primary private_view_key (SubWallet_new_primary (spend_public_key parsed) NULL_SECRET_KEY address scan_height 0) true scan_height 0).

(** ** Subwallets *)

Definition primary_sub_wallet (w : Wallet) : option SubWallet :=
  List.find sw_is_primary_address (sub_wallet_list (sub_wallets w)).

Definition primary_address (w : Wallet) : option bytes := sw_address <$> primary_sub_wallet w.

Definition addresses (w : Wallet) : list bytes := map sw_address (sub_wallet_list (sub_wallets w)).

Definition sub_wallet (w : Wallet) (k : bytes) : option SubWallet :=
  List.find (λ s, bool_decide (sw_public_spend_key s = k)) (sub_wallet_list (sub_wallets w)).

Definition mnemonic_seed (w : Wallet) : option bytes :=
  primary ← primary_sub_wallet w;
  if negb (has_spend_key primary) then None
  else if negb (bool_decide ((generate_view_from_spend (sw_private_spend_key primary)).1 = private_view_key (sub_wallets w))) then None
  else Some (private_key_to_mnemonic (sw_private_spend_key primary)).

Definition primary_private_spend_key (w : Wallet) : result WalletError bytes :=
  primary ← ok_or IllegalViewWalletOperation (primary_sub_wallet w);
  if negb (has_spend_key primary) then Err IllegalViewWalletOperation else Ok (sw_private_spend_key primary).

Definition set_index_counter (w : Wallet) (n : Z) : Wallet :=
  let s := sub_wallets w in
  set_sub_wallets w (mkSubWallets (is_view_wallet s) (locked_transactions s) (private_view_key s) (public_spend_keys s) (sub_wallet_list s)
    n (transactions s) (tx_private_keys s)).

Definition push_sub_wallet (w : Wallet) (private_spend_key : bytes) (scan_height scan_timestamp wallet_index : Z) : result WalletError (bytes * Wallet) :=
  public ← ok_or InvalidPrivateKey (secret_key_to_public_key private_spend_key);
  let s := sub_wallets w in
  if existsb (λ x, bool_decide (sw_public_spend_key x = public)) (sub_wallet_list s) then Err SubWalletAlreadyExists
  else
    address ← private_keys_to_address private_spend_key (private_view_key s);
    let sub := mkSubWallet address false [] private_spend_key public [] scan_height scan_timestamp [] [] wallet_index in
    Ok (address, set_sub_wallets w (mkSubWallets (is_view_wallet s) (locked_transactions s) (private_view_key s) (public_spend_keys s ++ [public])
      (sub_wallet_list s ++ [sub]) (sub_wallet_index_counter s) (transactions s) (tx_private_keys s))).

Definition add_sub_wallet (now : Z) (w : Wallet) : result WalletError (bytes * Z * Wallet) :=
  if is_view_wallet (sub_wallets w) then Err IllegalViewWalletOperation
  else
    let index := wrapping_add 64 (sub_wallet_index_counter (sub_wallets w)) 1 in
    base ← primary_private_spend_key w;
    let key := generate_deterministic_subwallet_key base index in
    '(address, w) ← push_sub_wallet w key 0 (current_timestamp_adjusted now) index;
    Ok (address, index, set_index_counter w index).

Definition import_sub_wallet_at_index (w : Wallet) (index scan_height : Z) : result WalletError (bytes * Wallet) :=
  if is_view_wallet (sub_wallets w) then Err IllegalViewWalletOperation
  else
    base ← primary_private_spend_key w;
    let key := generate_deterministic_subwallet_key base index in
    '(address, w) ← push_sub_wallet w key scan_height 0 0;
    Ok (address, if sub_wallet_index_counter (sub_wallets w) <? index then set_index_counter w index else w).

Definition import_sub_wallet_from_key (w : Wallet) (private_spend_key : bytes) (scan_height : Z) : result WalletError (bytes * Wallet) :=
  if is_view_wallet (sub_wallets w) then Err IllegalViewWalletOperation
  else
    validate_private_key private_spend_key;;
    push_sub_wallet w private_spend_key scan_height 0 0.

(** [iter().min().unwrap_or(0)] *)
Definition min_or_zero (l : list Z) : Z := match l with [] => 0 | x :: l => foldl Z.min x l end.

Definition min_initial_sync_start (w : Wallet) : Z * Z :=
  let l := sub_wallet_list (sub_wallets w) in
  (min_or_zero (map sw_sync_start_height l), min_or_zero (map sw_sync_start_timestamp l)).

End Construction.

(** * Queries *)

Definition wallet_height (w : Wallet) : Z := last_known_block_height (transaction_synchronizer_status (wallet_synchronizer w)).

Definition is_our_spend_key (w : Wallet) (k : bytes) : bool := existsb (λ x, bool_decide (x = k)) (public_spend_keys (sub_wallets w)).

(** The map of key image to owner, rebuilt from the inputs: later ones win. *)
Definition key_image_owners (w : Wallet) : gmap bytes bytes :=
  if is_view_wallet (sub_wallets w) then ∅
  else foldl (λ m s, foldl (λ m i, <[ti_key_image i := sw_public_spend_key s]> m) m (all_inputs s)) ∅ (sub_wallet_list (sub_wallets w)).

(** The [wrapping_add] of a [fold]. *)
Definition sum64 (l : list Z) : Z := foldl (wrapping_add 64) 0 l.

Definition balance_for_spend_key_at (w : Wallet) (k : bytes) (current_height now : Z) : Z * Z :=
  match sub_wallet w k with
  | None => (0, 0)
  | Some sub =>
      let unlocked i := is_input_unlocked_at (ti_unlock_time i) current_height now in
      (sum64 (map ti_amount (List.filter unlocked (sw_unspent_inputs sub))),
       sum64 (map ti_amount (List.filter (λ i, negb (unlocked i)) (sw_unspent_inputs sub)) ++ map ui_amount (sw_unconfirmed_incoming_amounts sub)))
  end.

Definition balance (w : Wallet) (current_height now : Z) : Z * Z :=
  foldl (λ acc k, let '(a, b) := balance_for_spend_key_at w k current_height now in (wrapping_add 64 acc.1 a, wrapping_add 64 acc.2 b))
    (0, 0) (public_spend_keys (sub_wallets w)).

Definition balance_for_address (w : Wallet) (address : bytes) (current_height now : Z) : option (Z * Z) :=
  sub ← List.find (λ s, bool_decide (sw_address s = address)) (sub_wallet_list (sub_wallets w));
  Some (balance_for_spend_key_at w (sw_public_spend_key sub) current_height now).

Record AddressBalance := mkAddressBalance { ab_address : bytes; ab_unlocked : Z; ab_locked : Z }.

Definition address_balances (w : Wallet) (current_height now : Z) : list AddressBalance :=
  map (λ s, let '(u, l) := balance_for_spend_key_at w (sw_public_spend_key s) current_height now in mkAddressBalance (sw_address s) u l)
    (sub_wallet_list (sub_wallets w)).

Definition transaction (w : Wallet) (hash : Hash) : option WalletTransaction :=
  List.find (λ t, bool_decide (wt_hash t = hash)) (transactions (sub_wallets w) ++ locked_transactions (sub_wallets w)).

(** An owned output: the spend key it belongs to, and the input it makes. *)
Abbreviation OwnedInput := (bytes * TransactionInput)%type.

Definition spendable_inputs (w : Wallet) (current_height now : Z) : list OwnedInput :=
  concat (map (λ s, map (pair (sw_public_spend_key s))
    (List.filter (λ i, is_input_unlocked_at (ti_unlock_time i) current_height now) (sw_unspent_inputs s))) (sub_wallet_list (sub_wallets w))).

(** * Mutators *)

(** [sub_wallet_mut], and a change of what it finds that reports. *)
Fixpoint alter_sub {R} (k : bytes) (dflt : R) (f : SubWallet → R * SubWallet) (l : list SubWallet) : R * list SubWallet :=
  match l with
  | [] => (dflt, [])
  | s :: l =>
      if bool_decide (sw_public_spend_key s = k) then let '(r, s) := f s in (r, s :: l)
      else let '(r, l) := alter_sub k dflt f l in (r, s :: l)
  end.

Definition sub_wallet_mut {R} (w : Wallet) (k : bytes) (dflt : R) (f : SubWallet → R * SubWallet) : R * Wallet :=
  let '(r, l) := alter_sub k dflt f (sub_wallet_list (sub_wallets w)) in (r, set_sub_wallet_list w l).

Definition store_input (is_view : bool) (input : TransactionInput) (sub : SubWallet) : bool * SubWallet :=
  let unconfirmed :=
    if is_view then sw_unconfirmed_incoming_amounts sub
    else List.filter (λ u, negb (bool_decide (ui_key u = ti_key input))) (sw_unconfirmed_incoming_amounts sub) in
  if existsb (λ x, bool_decide (ti_key x = ti_key input)) (sw_unspent_inputs sub)
  then (false, with_lists sub (sw_unspent_inputs sub) (sw_locked_inputs sub) (sw_spent_inputs sub) unconfirmed)
  else (true, with_lists sub (sw_unspent_inputs sub ++ [input]) (sw_locked_inputs sub) (sw_spent_inputs sub) unconfirmed).

Definition store_transaction_input (w : Wallet) (k : bytes) (input : TransactionInput) : bool * Wallet :=
  sub_wallet_mut w k false (store_input (is_view_wallet (sub_wallets w)) input).

Definition has_image (image : bytes) (i : TransactionInput) : bool := bool_decide (ti_key_image i = image).

Definition spend_input (image : bytes) (spend_height : Z) (sub : SubWallet) : bool * SubWallet :=
  let in_spent := existsb (has_image image) (sw_spent_inputs sub) in
  let spent i := if in_spent then sw_spent_inputs sub else sw_spent_inputs sub ++ [with_spend_height spend_height i] in
  match remove_first (has_image image) (sw_unspent_inputs sub) with
  | Some (i, unspent) => (true, with_lists sub unspent (sw_locked_inputs sub) (spent i) (sw_unconfirmed_incoming_amounts sub))
  | None =>
      match remove_first (has_image image) (sw_locked_inputs sub) with
      | Some (i, locked) => (true, with_lists sub (sw_unspent_inputs sub) locked (spent i) (sw_unconfirmed_incoming_amounts sub))
      | None => (false, sub)
      end
  end.

Definition mark_input_as_spent (w : Wallet) (image k : bytes) (spend_height : Z) : bool * Wallet :=
  sub_wallet_mut w k false (spend_input image spend_height).

Definition lock_input (image : bytes) (sub : SubWallet) : bool * SubWallet :=
  match remove_first (has_image image) (sw_unspent_inputs sub) with
  | None => (false, sub)
  | Some (i, unspent) =>
      let locked := if existsb (has_image image) (sw_locked_inputs sub) then sw_locked_inputs sub else sw_locked_inputs sub ++ [i] in
      (true, with_lists sub unspent locked (sw_spent_inputs sub) (sw_unconfirmed_incoming_amounts sub))
  end.

Definition mark_input_as_locked (w : Wallet) (image k : bytes) : bool * Wallet := sub_wallet_mut w k false (lock_input image).

Definition with_payment_id (t : WalletTransaction) (id : bytes) : WalletTransaction :=
  mkWalletTransaction (wt_block_height t) (wt_fee t) (wt_hash t) (wt_is_coinbase_transaction t) id (wt_timestamp t) (wt_transfers t) (wt_unlock_time t).

Definition add_transaction (w : Wallet) (tx : WalletTransaction) : bool * Wallet :=
  let s := sub_wallets w in
  let same t := bool_decide (wt_hash t = wt_hash tx) in
  let tx :=
    match List.find same (locked_transactions s) with
    | Some locked => if (length (wt_payment_id locked) =? 0)%nat then tx else with_payment_id tx (wt_payment_id locked)
    | None => tx
    end in
  let locked := List.filter (λ t, negb (same t)) (locked_transactions s) in
  if existsb same (transactions s) then (false, set_transactions w locked (transactions s))
  else (true, set_transactions w locked (transactions s ++ [tx])).

(** An input below the fork and spent at or above it goes back to the unspent ones, unless
    one with its key is there. *)
Fixpoint unspend (fork_height : Z) (unspent still_spent spent : list TransactionInput) : list TransactionInput * list TransactionInput :=
  match spent with
  | [] => (unspent, still_spent)
  | i :: spent =>
      if fork_height <=? ti_spend_height i then
        if existsb (λ x, bool_decide (ti_key x = ti_key i)) unspent then unspend fork_height unspent still_spent spent
        else unspend fork_height (unspent ++ [with_spend_height 0 i]) still_spent spent
      else unspend fork_height unspent (still_spent ++ [i]) spent
  end.

Definition fork_sub (fork_height : Z) (sub : SubWallet) : list bytes * SubWallet :=
  let gone i := fork_height <=? ti_block_height i in
  let kept l := List.filter (λ i, negb (gone i)) l in
  let images l := map ti_key_image (List.filter gone l) in
  let '(unspent, spent) := unspend fork_height (kept (sw_unspent_inputs sub)) [] (kept (sw_spent_inputs sub)) in
  (images (sw_locked_inputs sub) ++ images (sw_unspent_inputs sub) ++ images (sw_spent_inputs sub),
   with_lists sub unspent (kept (sw_locked_inputs sub)) spent []).

Definition readded (t : WalletTransaction) : WalletTransaction :=
  mkWalletTransaction 0 (wt_fee t) (wt_hash t) (wt_is_coinbase_transaction t) (wt_payment_id t) 0 (wt_transfers t) (wt_unlock_time t).

Definition remove_forked_transactions (w : Wallet) (fork_height : Z) : list bytes * Wallet :=
  let s := sub_wallets w in
  let forked t := (fork_height <=? wt_block_height t) && negb (length (wt_payment_id t) =? 0)%nat && (total_amount t <? 0) in
  let locked := if is_view_wallet s then locked_transactions s
                else locked_transactions s ++ map readded (List.filter forked (transactions s)) in
  let w := set_transactions w locked (List.filter (λ t, wt_block_height t <? fork_height) (transactions s)) in
  let subs := map (fork_sub fork_height) (sub_wallet_list s) in
  (if is_view_wallet s then [] else concat (map fst subs), set_sub_wallet_list w (map snd subs)).

Definition prune_spent_inputs (w : Wallet) (prune_height : Z) : Wallet :=
  set_sub_wallet_list w (map (λ s, with_lists s (sw_unspent_inputs s) (sw_locked_inputs s)
    (List.filter (λ i, prune_height <? ti_spend_height i) (sw_spent_inputs s)) (sw_unconfirmed_incoming_amounts s)) (sub_wallet_list (sub_wallets w))).

Definition remove_cancelled_transactions (w : Wallet) (cancelled : list Hash) : Wallet :=
  let is_cancelled h := bool_decide (h ∈ cancelled) in
  let s := sub_wallets w in
  let w := set_transactions w (List.filter (λ t, negb (is_cancelled (wt_hash t))) (locked_transactions s)) (transactions s) in
  set_sub_wallet_list w (map (λ sub,
    let c i := is_cancelled (ti_parent_transaction_hash i) in
    with_lists sub (sw_unspent_inputs sub ++ map (with_spend_height 0) (List.filter c (sw_locked_inputs sub)))
      (List.filter (λ i, negb (c i)) (sw_locked_inputs sub)) (sw_spent_inputs sub)
      (List.filter (λ u, negb (is_cancelled (ui_parent_transaction_hash u))) (sw_unconfirmed_incoming_amounts sub))) (sub_wallet_list s)).

Definition convert_sync_timestamp_to_height (w : Wallet) (timestamp height : Z) : Wallet :=
  set_sub_wallet_list w (map (λ s, if sw_sync_start_timestamp s =? 0 then s else with_sync_start s height timestamp) (sub_wallet_list (sub_wallets w))).

Definition reset (w : Wallet) (scan_height : Z) : Wallet :=
  let w := set_sub_wallet_list w (map (λ s, with_lists (with_sync_start s scan_height 0) [] [] [] []) (sub_wallet_list (sub_wallets w))) in
  let w := set_transactions w [] [] in
  mkWallet (sub_wallets w) (wallet_file_format_version w)
    (mkWalletSynchronizerState (ws_private_view_key (wallet_synchronizer w)) scan_height 0 SynchronizationStatus_default).

(** * Recording a send (the [impl Wallet] of transfer.rs) *)

(** An input of ours with the keys that spend it. *)
Record OwnedSpendableInput := mkOwned { ow_public_spend_key : bytes; ow_private_spend_key : bytes; ow_input : TransactionInput }.

(** An output the transaction makes. *)
Record KeyOutput := mkKeyOutput { ko_amount : Z; ko_key : bytes }.

Definition have_spendable_input_at (w : Wallet) (input : TransactionInput) (height now : Z) : bool :=
  existsb (λ sub, existsb (λ i, bool_decide (ti_key i = ti_key input) && is_input_unlocked_at (ti_unlock_time i) height now) (sw_unspent_inputs sub))
    (sub_wallet_list (sub_wallets w)).

(** [i64::saturating_add] *)
Definition saturating_add_i64 (a b : Z) : Z := Z.min (Z.max (a + b) (- 2 ^ 63)) (2 ^ 63 - 1).

Fixpoint add_delta (transfers : list Transfer) (k : bytes) (delta : Z) : list Transfer :=
  match transfers with
  | [] => [mkTransfer delta k]
  | t :: transfers =>
      if bool_decide (t_public_key t = k) then mkTransfer (saturating_add_i64 (t_amount t) delta) (t_public_key t) :: transfers
      else t :: add_delta transfers k delta
  end.

Section Record_.
Context `{C : Crypto} `{CurveKeys} `{CurveSecrets}.

Definition sent_transfers (inputs : list OwnedSpendableInput) (change_address : bytes) (change_required : Z) : list Transfer :=
  let transfers := foldl (λ t i, add_delta t (ow_public_spend_key i) (as_signed 64 (- as_signed 64 (ti_amount (ow_input i))))) [] inputs in
  if change_required =? 0 then transfers
  else match parse_address change_address with
       | Ok parsed => add_delta transfers (spend_public_key parsed) (as_signed 64 change_required)
       | Err _ => transfers
       end.

Definition store_sent_transaction (w : Wallet) (hash : Hash) (fee : Z) (payment_id : bytes) (inputs : list OwnedSpendableInput)
    (change_address : bytes) (change_required : Z) : Wallet :=
  let s := sub_wallets w in
  if existsb (λ t, bool_decide (wt_hash t = hash)) (locked_transactions s) then w
  else set_transactions w
    (locked_transactions s ++ [mkWalletTransaction 0 fee hash false payment_id 0 (sent_transfers inputs change_address change_required) 0])
    (transactions s).

Definition push_unconfirmed (u : UnconfirmedInput) (sub : SubWallet) : unit * SubWallet :=
  ((), with_lists sub (sw_unspent_inputs sub) (sw_locked_inputs sub) (sw_spent_inputs sub) (sw_unconfirmed_incoming_amounts sub ++ [u])).

Fixpoint unconfirmed_loop (w : Wallet) (derivation : bytes) (index : Z) (outputs : list KeyOutput) (tx_hash : Hash) : Wallet :=
  match outputs with
  | [] => w
  | output :: outputs =>
      let w :=
        match underive_public_key derivation index (ko_key output) with
        | None => w
        | Some spend_key =>
            if is_our_spend_key w spend_key
            then (sub_wallet_mut w spend_key () (push_unconfirmed (mkUnconfirmedInput (ko_amount output) (ko_key output) tx_hash))).2
            else w
        end in
      unconfirmed_loop w derivation (index + 1) outputs tx_hash
  end.

Definition store_unconfirmed_incoming_inputs (w : Wallet) (outputs : list KeyOutput) (tx_public_key : bytes) (tx_hash : Hash) : Wallet :=
  match generate_key_derivation tx_public_key (private_view_key (sub_wallets w)) with
  | None => w
  | Some derivation => unconfirmed_loop w derivation 0 outputs tx_hash
  end.

Definition store_tx_private_key (w : Wallet) (transaction_hash : Hash) (key : bytes) : Wallet :=
  let l := tx_private_keys (sub_wallets w) in
  let same k := bool_decide (pk_transaction_hash k = transaction_hash) in
  set_tx_private_keys w
    (if existsb same l then update_first same (λ k, mkTxPrivateKey (pk_transaction_hash k) key) l
     else l ++ [mkTxPrivateKey transaction_hash key]).

Definition tx_private_key (w : Wallet) (transaction_hash : Hash) : option bytes :=
  pk_tx_private_key <$> List.find (λ k, bool_decide (pk_transaction_hash k = transaction_hash)) (tx_private_keys (sub_wallets w)).

End Record_.
