(* ===== verification/WalletSync.v ===== *)
(** The wallet's synchronizer (crates/wrkz-wallet/src/sync.rs): downloading blocks, scanning
    them for the wallet's outputs, and applying them.

    A daemon is any client of the trait [SyncDaemon]; its state is threaded, so that it may
    answer the same question differently each time. Strings are bytes. Sleeping is left
    out: a step reports the wait. *)
From stdpp Require Import gmap sets.
From S2P Require Import Prelude Constants Hashing Curve Base58 Mnemonic Windows Wallet.
Local Open Scope Z_scope.

(** * The daemon (daemon.rs) *)

(** The texts of the variants are kept where the code reads them. *)
Inductive DaemonError : Type :=
| RateLimited
| BadRequest (body : bytes)
| NotFound
| Http (code : Z) (body : bytes)
| Transport
| JsonError
| ResponseTooLarge
| UnsupportedScheme
| Status (status : bytes).

Record SyncRequest := mkSyncRequest {
  sr_block_hash_checkpoints : list bytes; sr_start_height : Z; sr_start_timestamp : Z; sr_block_count : Z;
  sr_skip_coinbase_transactions : bool; sr_skip_input_key_offsets : option bool; sr_skip_empty_blocks : option bool; sr_end_height : option Z }.

Record SyncOutput := mkSyncOutput { so_amount : Z; so_key : bytes; so_global_index : option Z }.

Record SyncInput := mkSyncInput { si_amount : Z; si_k_image : bytes }.

Record SyncTransaction := mkSyncTransaction {
  st_hash : bytes; st_outputs : list SyncOutput; st_tx_public_key : bytes; st_unlock_time : Z; st_payment_id : bytes; st_inputs : list SyncInput }.

Record SyncBlock := mkSyncBlock {
  sb_block_hash : bytes; sb_block_height : Z; sb_block_timestamp : Z; sb_coinbase_tx : option SyncTransaction; sb_transactions : list SyncTransaction }.

Record TopBlock := mkTopBlock { tb_hash : bytes; tb_height : Z }.

Record WalletSyncData := mkWalletSyncData {
  wd_items : list SyncBlock; wd_scanned_to_height : option Z; wd_synced : bool; wd_top_block : option TopBlock }.

Record GlobalIndexEntry := mkGlobalIndexEntry { gi_key : bytes; gi_value : list Z }.

Record Info := mkInfo {
  info_height : Z; info_network_height : Z; info_lite_start_height : Z; info_sync_features : list bytes; info_top_block_hash : option bytes }.

Definition supports (i : Info) (feature : bytes) : bool := existsb (λ f, bool_decide (f = feature)) (info_sync_features i).

Class SyncDaemon (D : Type) := {
  wallet_sync_data : D → SyncRequest → result DaemonError WalletSyncData * D;
  wallet_sync_data_many : D → list SyncRequest → list (result DaemonError WalletSyncData) * D;
  global_indexes_for_range : D → Z → Z → result DaemonError (list GlobalIndexEntry) * D;
  transactions_unknown : D → list bytes → result DaemonError (list bytes) * D;
  daemon_info : D → result DaemonError Info * D
}.

(** The default of the trait: one after the other. *)
Fixpoint wallet_sync_data_sequentially {D} (ask : D → SyncRequest → result DaemonError WalletSyncData * D) (d : D) (reqs : list SyncRequest)
    : list (result DaemonError WalletSyncData) * D :=
  match reqs with
  | [] => ([], d)
  | r :: reqs =>
      let '(a, d) := ask d r in
      let '(l, d) := wallet_sync_data_sequentially ask d reqs in
      (a :: l, d)
  end.

(** * Helpers *)

Definition lower_bound (v nearest_multiple : Z) : Z := v - v mod nearest_multiple.

Definition upper_bound (v nearest_multiple : Z) : Z := wrapping_add 64 (lower_bound v nearest_multiple) nearest_multiple.

Definition ENCRYPTED_PAYMENT_ID_TAIL : Z := 0x8d.

Definition GLOBAL_INDEX_MERGE_SPAN : Z := 90.

Section Scan.
Context `{C : Crypto} `{CurveKeys} `{CurveSecrets}.

Definition encrypt_payment_id (payment_id derivation : bytes) : bytes :=
  let keystream := cn_fast_hash (derivation ++ [ENCRYPTED_PAYMENT_ID_TAIL]) in
  zip_with Z.lxor payment_id keystream.

(** Empty for an id that is not sixteen hex digits, or a key that is no point. *)
Definition encrypt_payment_id_hex (payment_id_hex public_key secret_key : bytes) : bytes :=
  if negb (length payment_id_hex =? SHORT_PAYMENT_ID_LENGTH)%nat then []
  else
    match parse_hex payment_id_hex with
    | None => []
    | Some id =>
        match generate_key_derivation public_key secret_key with
        | None => []
        | Some derivation => write_hex (encrypt_payment_id id derivation)
        end
    end.

Definition tx_input_key_image (public_spend_key private_spend_key derivation : bytes) (output_index : Z) (is_view : bool) : bytes * bytes :=
  if is_view then (replicate 32 0, NULL_SECRET_KEY)
  else
    match derive_public_key derivation output_index public_spend_key with
    | None => (replicate 32 0, NULL_SECRET_KEY)
    | Some tmp_public =>
        let tmp_secret := derive_secret_key derivation output_index private_spend_key in
        (generate_key_image tmp_public tmp_secret, tmp_secret)
    end.

(** * Scanning *)

(** The loop over the outputs, from [output_index] on. *)
Fixpoint outputs_ours (w : Wallet) (tx : SyncTransaction) (tx_public_key tx_hash derivation : bytes) (block_height output_index : Z)
    (outputs : list SyncOutput) : result DaemonError (list OwnedInput) :=
  match outputs with
  | [] => Ok []
  | output :: outputs =>
      key ← ok_or JsonError (parse_hex32 (so_key output));
      let mine :=
        match underive_public_key derivation output_index key with
        | None => []
        | Some spend =>
            if negb (is_our_spend_key w spend) then []
            else
              let private_spend_key := from_option sw_private_spend_key NULL_SECRET_KEY (sub_wallet w spend) in
              let '(key_image, ephemeral) := tx_input_key_image spend private_spend_key derivation output_index (is_view_wallet (sub_wallets w)) in
              [(spend, mkTransactionInput (so_amount output) block_height (so_global_index output) key key_image tx_hash (Some ephemeral) 0
                         output_index tx_public_key (st_unlock_time tx))]
        end in
      rest ← outputs_ours w tx tx_public_key tx_hash derivation block_height (output_index + 1) outputs;
      Ok (mine ++ rest)
  end.

Definition process_transaction_outputs (w : Wallet) (tx : SyncTransaction) (block_height : Z) : result DaemonError (list OwnedInput) :=
  tx_public_key ← ok_or JsonError (parse_hex32 (st_tx_public_key tx));
  tx_hash ← ok_or JsonError (parse_hex32 (st_hash tx));
  match generate_key_derivation tx_public_key (private_view_key (sub_wallets w)) with
  | None => Ok []
  | Some derivation => outputs_ours w tx tx_public_key tx_hash derivation block_height 0 (st_outputs tx)
  end.

Fixpoint transactions_ours (w : Wallet) (block_height : Z) (txs : list SyncTransaction) : result DaemonError (list OwnedInput) :=
  match txs with
  | [] => Ok []
  | tx :: txs =>
      ours ← process_transaction_outputs w tx block_height;
      rest ← transactions_ours w block_height txs;
      Ok (ours ++ rest)
  end.

Definition scanned_transactions (skip_coinbase : bool) (block : SyncBlock) : list SyncTransaction :=
  (if skip_coinbase then [] else option_list (sb_coinbase_tx block)) ++ sb_transactions block.

Definition process_block_outputs (w : Wallet) (skip_coinbase : bool) (block : SyncBlock) : result DaemonError (list OwnedInput) :=
  transactions_ours w (sb_block_height block) (scanned_transactions skip_coinbase block).

(** [scan_blocks] on one thread, and on several: [claims] are the blocks each thread took
    from the shared counter, in any interleaving. *)
Fixpoint place {A} (results : list (option A)) (scanned : list (nat * A)) : list (option A) :=
  match scanned with
  | [] => results
  | (i, r) :: scanned => place (<[i := Some r]> results) scanned
  end.

Definition scan_blocks (w : Wallet) (skip_coinbase : bool) (blocks : list SyncBlock) (threads : nat) (claims : nat → nat → list (list nat))
    : option (list (result DaemonError (list OwnedInput))) :=
  let n := length blocks in
  let threads := Nat.min (Nat.max 1 threads) (Nat.max 1 n) in
  if (threads =? 1)%nat then Some (map (process_block_outputs w skip_coinbase) blocks)
  else
    let scan i := process_block_outputs w skip_coinbase <$> (blocks !! i) in
    let workers := map (omap (λ i, r ← scan i; Some (i, r))) (claims threads n) in
    mapM id (place (replicate n None) (concat workers)).

(** * Applying a block *)

(** [add_transfer]: the entry of a key, [i64] arithmetic wrapping. *)
Fixpoint add_transfer (transfers : list Transfer) (k : bytes) (amount : Z) : list Transfer :=
  match transfers with
  | [] => [mkTransfer amount k]
  | t :: transfers =>
      if bool_decide (t_public_key t = k) then mkTransfer (as_signed 64 (t_amount t + amount)) (t_public_key t) :: transfers
      else t :: add_transfer transfers k amount
  end.

(** [-(amount as i64)] *)
Definition neg_i64 (amount : Z) : Z := as_signed 64 (- as_signed 64 amount).

Definition received (hash : Hash) (ours : list OwnedInput) : list Transfer :=
  foldl (λ t '(k, i), add_transfer t k (as_signed 64 (ti_amount i))) [] (List.filter (λ p, bool_decide (ti_parent_transaction_hash p.2 = hash)) ours).

Definition decrypt_payment_id (w : Wallet) (tx : SyncTransaction) (we_spent_inputs : bool) : bytes :=
  if negb (length (st_payment_id tx) =? SHORT_PAYMENT_ID_LENGTH)%nat then st_payment_id tx
  else if we_spent_inputs then []
  else
    match parse_hex32 (st_tx_public_key tx) with
    | None => []
    | Some tx_public_key => encrypt_payment_id_hex (st_payment_id tx) tx_public_key (private_view_key (sub_wallets w))
    end.

Definition process_coinbase_transaction (block : SyncBlock) (tx : SyncTransaction) (ours : list OwnedInput) : result DaemonError (option WalletTransaction) :=
  hash ← ok_or JsonError (parse_hex32 (st_hash tx));
  let transfers := received hash ours in
  if (length transfers =? 0)%nat then Ok None
  else Ok (Some (mkWalletTransaction (sb_block_height block) 0 hash true [] (sb_block_timestamp block) transfers (st_unlock_time tx))).

(** The loop over the inputs: what they took from our keys. *)
Fixpoint inputs_ours (owners : gmap bytes bytes) (transfers : list Transfer) (inputs : list SyncInput)
    : result DaemonError (list Transfer * list (bytes * bytes)) :=
  match inputs with
  | [] => Ok (transfers, [])
  | input :: inputs =>
      key_image ← ok_or JsonError (parse_hex32 (si_k_image input));
      match owners !! key_image with
      | Some owner =>
          '(transfers, spent) ← inputs_ours owners (add_transfer transfers owner (neg_i64 (si_amount input))) inputs;
          Ok (transfers, (owner, key_image) :: spent)
      | None => inputs_ours owners transfers inputs
      end
  end.

Definition process_transaction (w : Wallet) (owners : gmap bytes bytes) (block : SyncBlock) (tx : SyncTransaction) (ours : list OwnedInput)
    : result DaemonError (option WalletTransaction * list (bytes * bytes)) :=
  hash ← ok_or JsonError (parse_hex32 (st_hash tx));
  '(transfers, spent) ← inputs_ours owners (received hash ours) (st_inputs tx);
  if (length transfers =? 0)%nat then Ok (None, [])
  else
    let fee := foldl (wrapping_add 64) 0 (map si_amount (st_inputs tx)) in
    let fee := foldl (wrapping_sub 64) fee (map so_amount (st_outputs tx)) in
    let payment_id := decrypt_payment_id w tx (negb (length spent =? 0)%nat) in
    Ok (Some (mkWalletTransaction (sb_block_height block) fee hash false payment_id (sb_block_timestamp block) transfers (st_unlock_time tx)), spent).

Fixpoint process_transactions (w : Wallet) (owners : gmap bytes bytes) (block : SyncBlock) (ours : list OwnedInput) (txs : list SyncTransaction)
    : result DaemonError (list WalletTransaction * list (bytes * bytes)) :=
  match txs with
  | [] => Ok ([], [])
  | raw :: txs =>
      '(tx, spent) ← process_transaction w owners block raw ours;
      '(l, images) ← process_transactions w owners block ours txs;
      Ok (match tx with Some tx => (tx :: l, spent ++ images) | None => (l, images) end)
  end.

Definition process_block_transactions (w : Wallet) (owners : gmap bytes bytes) (skip_coinbase : bool) (block : SyncBlock) (ours : list OwnedInput)
    : result DaemonError (list WalletTransaction * list (bytes * bytes)) :=
  coinbase ← match sb_coinbase_tx block with
             | Some tx => if skip_coinbase then Ok None else process_coinbase_transaction block tx ours
             | None => Ok None
             end;
  '(l, images) ← process_transactions w owners block ours (sb_transactions block);
  Ok (option_list coinbase ++ l, images).

(** ** The synchronizer *)

Record SyncConfig := mkSyncConfig {
  skip_coinbase_transactions : bool; start_block_count : Z; cfg_max_block_count : Z; block_processing_chunk : nat;
  global_index_retries : nat; height_windows : bool; sync_request_concurrency : Z; scan_threads : nat }.

Definition SyncConfig_default (available_threads : nat) : SyncConfig :=
  mkSyncConfig false BLOCKS_SYNCHRONIZING_DEFAULT_COUNT MAX_BLOCKS_PER_SYNC_REQUEST BLOCK_PROCESSING_CHUNK GLOBAL_INDEX_MAX_RETRIES false
    SYNC_REQUEST_CONCURRENCY (Nat.min 16 (Nat.max 1 available_threads)).

Record DaemonState := mkDaemonState {
  local_block_count : Z; network_block_count : Z; lite_start_height : Z; skips_empty_blocks : bool; supports_height_range : bool;
  top_block_hash_hex : option bytes }.

Definition DaemonState_default : DaemonState := mkDaemonState 0 0 0 false false None.

(** Where the download stands. *)
Record Cursor := mkCursor {
  cu_start_height : Z; cu_start_timestamp : Z; next_download_height : Z; unexplained_start_count : Z; sync_gap : option (Z * Z) }.

(** The batch size. *)
Record Batch := mkBatch { block_count : Z; max_block_count : Z; last_request_rate_limited : bool }.

(** What applying blocks changes. *)
Record Ledger := mkLedger { wallet : Wallet; owners : gmap bytes bytes; forks_resolved : Z; step_added : list Hash }.

(** The fork, if the block is not above the wallet's height. *)
Definition unwind_fork (l : Ledger) (block_height : Z) : Ledger :=
  if (block_height <=? wallet_height (wallet l)) && negb (block_height =? 0) then
    let '(images, w) := remove_forked_transactions (wallet l) block_height in
    mkLedger w (foldl (λ m image, base.delete image m) (owners l) images) (wrapping_add 64 (forks_resolved l) 1) (step_added l)
  else l.

Definition prune_due (block_height : Z) (w : Wallet) : Wallet :=
  if (block_height mod PRUNE_SPENT_INPUTS_INTERVAL =? 0) && (PRUNE_SPENT_INPUTS_INTERVAL <? block_height)
  then prune_spent_inputs w (block_height - PRUNE_SPENT_INPUTS_INTERVAL) else w.

Fixpoint add_transactions (w : Wallet) (txs : list WalletTransaction) : list Hash * Wallet :=
  match txs with
  | [] => ([], w)
  | tx :: txs =>
      let '(added, w) := add_transaction w tx in
      let '(hashes, w) := add_transactions w txs in
      ((if added then [wt_hash tx] else []) ++ hashes, w)
  end.

Fixpoint store_inputs (w : Wallet) (owners : gmap bytes bytes) (ours : list OwnedInput) : Wallet * gmap bytes bytes :=
  match ours with
  | [] => (w, owners)
  | (k, input) :: ours =>
      let owners := if negb (is_view_wallet (sub_wallets w)) && bool_decide (is_Some (sub_wallet w k)) then <[ti_key_image input := k]> owners else owners in
      store_inputs (store_transaction_input w k input).2 owners ours
  end.

Fixpoint mark_spent (w : Wallet) (images : list (bytes * bytes)) (height : Z) : Wallet :=
  match images with
  | [] => w
  | (k, image) :: images => mark_spent (mark_input_as_spent w image k height).2 images height
  end.

(** [complete_block_processing]. What was done before an error stays done. *)
Definition complete_block_processing (skip_coinbase : bool) (l : Ledger) (block : SyncBlock) (ours : list OwnedInput) : result DaemonError nat * Ledger :=
  match parse_hex32 (sb_block_hash block) with
  | None => (Err JsonError, l)
  | Some block_hash =>
      let height := sb_block_height block in
      let l := unwind_fork l height in
      let w := prune_due height (wallet l) in
      let l := mkLedger w (owners l) (forks_resolved l) (step_added l) in
      match process_block_transactions w (owners l) skip_coinbase block ours with
      | Err e => (Err e, l)
      | Ok (txs, images) =>
          let '(hashes, w) := add_transactions w txs in
          let '(w, own) := store_inputs w (owners l) ours in
          let w := mark_spent w images height in
          let w := set_status w (store_block_hash (transaction_synchronizer_status (wallet_synchronizer w)) block_hash height) in
          (Ok (length hashes), mkLedger w own (forks_resolved l) (step_added l ++ hashes))
      end
  end.

End Scan.

(** * Downloading *)

Record Synchronizer (D : Type) := mkSynchronizer {
  daemon : D; config : SyncConfig; state : DaemonState; batch : Batch; cursor : Cursor; stored_blocks : list SyncBlock; ledger : Ledger }.

Arguments mkSynchronizer {D}.
Arguments daemon {D}.
Arguments config {D}.
Arguments state {D}.
Arguments batch {D}.
Arguments cursor {D}.
Arguments stored_blocks {D}.
Arguments ledger {D}.

Section Sync.
Context `{C : Crypto} `{CurveKeys} `{CurveSecrets} {D : Type} `{SyncDaemon D}.
Variable claims : nat → nat → list (list nat).

Implicit Types y : Synchronizer D.

Definition set_daemon y (d : D) := mkSynchronizer d (config y) (state y) (batch y) (cursor y) (stored_blocks y) (ledger y).
Definition set_state y s := mkSynchronizer (daemon y) (config y) s (batch y) (cursor y) (stored_blocks y) (ledger y).
Definition set_batch y b := mkSynchronizer (daemon y) (config y) (state y) b (cursor y) (stored_blocks y) (ledger y).
Definition set_cursor y c := mkSynchronizer (daemon y) (config y) (state y) (batch y) c (stored_blocks y) (ledger y).
Definition set_stored_blocks y b := mkSynchronizer (daemon y) (config y) (state y) (batch y) (cursor y) b (ledger y).
Definition set_ledger y l := mkSynchronizer (daemon y) (config y) (state y) (batch y) (cursor y) (stored_blocks y) l.
Definition set_wallet y w := let l := ledger y in set_ledger y (mkLedger w (owners l) (forks_resolved l) (step_added l)).
Definition set_next_download_height y n :=
  let c := cursor y in set_cursor y (mkCursor (cu_start_height c) (cu_start_timestamp c) n (unexplained_start_count c) (sync_gap c)).
Definition set_start y height timestamp :=
  let c := cursor y in set_cursor y (mkCursor height timestamp (next_download_height c) (unexplained_start_count c) (sync_gap c)).
Definition set_rate_limited y r := set_batch y (mkBatch (block_count (batch y)) (max_block_count (batch y)) r).

Definition with_config (d : D) (w : Wallet) (c : SyncConfig) : Synchronizer D :=
  let max := Z.max (cfg_max_block_count c) 1 in
  mkSynchronizer d c DaemonState_default (mkBatch (Z.min (Z.max (start_block_count c) 1) max) max false)
    (mkCursor (start_height (wallet_synchronizer w)) (start_timestamp (wallet_synchronizer w)) 0 0 None) []
    (mkLedger w (key_image_owners w) 0 []).

Definition refresh_info y : result DaemonError Info * Synchronizer D :=
  match daemon_info (daemon y) with
  | (Err e, d) => (Err e, set_daemon y d)
  | (Ok info, d) =>
      (Ok info, set_state (set_daemon y d)
        (mkDaemonState (saturating_sub (info_height info) 1) (saturating_sub (info_network_height info) 1) (info_lite_start_height info)
          (supports info (ascii_bytes "skipEmptyBlocks")) (supports info (ascii_bytes "heightRange")) (info_top_block_hash info)))
  end.

Definition note_daemon_holds y (height : Z) : Synchronizer D :=
  let s := state y in
  set_state y (mkDaemonState (Z.max (local_block_count s) height) (Z.max (network_block_count s) height) (lite_start_height s)
    (skips_empty_blocks s) (supports_height_range s) (top_block_hash_hex s)).

Definition decrease_requested_block_count y : Synchronizer D :=
  let b := batch y in
  if last_request_rate_limited b then y
  else set_batch y (mkBatch (if 1 <? block_count b then block_count b / 2 else block_count b) (max_block_count b) (last_request_rate_limited b)).

Definition reset_requested_block_count y : Synchronizer D :=
  let b := batch y in
  let ceiling := max_block_count b in
  let current :=
    if block_count b <? start_block_count (config y) then start_block_count (config y)
    else if block_count b <? ceiling then Z.min (wrapping_mul 64 (block_count b) 2) ceiling
    else block_count b in
  set_batch y (mkBatch (Z.min current ceiling) ceiling (last_request_rate_limited b)).

Definition highest_known_height y : Z :=
  let processed := wallet_height (wallet (ledger y)) in
  match last (stored_blocks y) with
  | Some b => Z.max processed (sb_block_height b)
  | None => processed
  end.

Definition block_checkpoints y : list bytes :=
  let status := transaction_synchronizer_status (wallet_synchronizer (wallet (ledger y))) in
  let result := map (λ b, to_ascii_lowercase (sb_block_hash b)) (take LAST_KNOWN_BLOCK_HASHES_SIZE (reverse (stored_blocks y))) in
  let result :=
    if (length result <? LAST_KNOWN_BLOCK_HASHES_SIZE)%nat
    then result ++ map write_hex (take (LAST_KNOWN_BLOCK_HASHES_SIZE - length result) (last_known_block_hashes status))
    else result in
  result ++ map write_hex (block_hash_checkpoints status).

Definition sync_request y (checkpoints : list bytes) (start_height start_timestamp : Z) (end_height : option Z) : SyncRequest :=
  let skip := skip_coinbase_transactions (config y) in
  mkSyncRequest checkpoints start_height start_timestamp (block_count (batch y)) skip (Some true)
    (if skip && skips_empty_blocks (state y) then Some true else None) end_height.

Definition lower_ceiling_after_bad_request y : bool * Synchronizer D :=
  let b := batch y in
  if block_count b <=? start_block_count (config y) then (false, y)
  else
    let reduced := Z.max (block_count b / 2) (start_block_count (config y)) in
    (true, set_batch y (mkBatch reduced reduced (last_request_rate_limited b))).

(** One turn of the loop of [request_sync_data]. *)
Definition request_turn (checkpoints : list bytes) (start_height start_timestamp : Z) (end_height : option Z) y
    : Synchronizer D + (result DaemonError WalletSyncData * Synchronizer D) :=
  let request := sync_request y checkpoints start_height start_timestamp end_height in
  match wallet_sync_data (daemon y) request with
  | (Ok data, d) => inr (Ok data, set_rate_limited (set_daemon y d) false)
  | (Err (BadRequest body), d) =>
      let y := set_rate_limited (set_daemon y d) false in
      let '(lowered, y) := lower_ceiling_after_bad_request y in
      if lowered then inl y else inr (Err (BadRequest body), y)
  | (Err e, d) => inr (Err e, set_rate_limited (set_daemon y d) (match e with RateLimited => true | _ => false end))
  end.

(** Each turn lowers the batch size; see [request_sync_data_ends]. *)
Definition request_sync_data (checkpoints : list bytes) (start_height start_timestamp : Z) (end_height : option Z) y
    : result DaemonError WalletSyncData * Synchronizer D :=
  match iter_until (request_turn checkpoints start_height start_timestamp end_height) (2 ^ 64)%positive y with
  | inr r => r
  | inl y => (Err RateLimited, y)
  end.

Definition record_sync_gap y (covered_to daemon_serves_from : Z) : Synchronizer D :=
  let c := cursor y in
  set_cursor y (mkCursor (cu_start_height c) (cu_start_timestamp c) 0 (unexplained_start_count c) (Some (covered_to, daemon_serves_from))).

Definition clear_sync_gap y : Synchronizer D :=
  let c := cursor y in set_cursor y (mkCursor (cu_start_height c) (cu_start_timestamp c) (next_download_height c) 0 None).

Definition store_downloaded_blocks y (blocks : list SyncBlock) : result DaemonError nat * Synchronizer D :=
  if existsb (λ b, negb (bool_decide (is_Some (parse_hex32 (sb_block_hash b))))) blocks then (Err JsonError, y)
  else
    let y := match last blocks with Some b => note_daemon_holds y (sb_block_height b) | None => y end in
    (Ok (length blocks), set_stored_blocks y (stored_blocks y ++ blocks)).

Inductive Download : Type :=
| Deferred
| Stored
| Synced (height : Z)
| Idle
| Failed (e : DaemonError)
| Gap.

(** The answer held no blocks. *)
Definition empty_answer y (data : WalletSyncData) : Download * Synchronizer D :=
  let y := clear_sync_gap y in
  match (if wd_synced data then wd_top_block data else None), stored_blocks y with
  | Some top, [] =>
      match parse_hex32 (tb_hash top) with
      | None => (Failed JsonError, y)
      | Some hash =>
          let w := wallet (ledger y) in
          let y := set_wallet y (set_status w (store_block_hash (transaction_synchronizer_status (wallet_synchronizer w)) hash (tb_height top))) in
          (Synced (tb_height top), note_daemon_holds y (tb_height top))
      end
  | _, _ => (Idle, decrease_requested_block_count y)
  end.

(** The height the answer has to start at or below, unless holes or a timestamp explain it. *)
Definition expected_start y (covered_to : Z) : Z :=
  if covered_to =? 0 then cu_start_height (cursor y) else Z.max (wrapping_add 64 covered_to 1) (cu_start_height (cursor y)).

(** The answer starts above where the wallet is. *)
Definition unexplained_start y (first_height expected_start : Z) : Download * Synchronizer D :=
  let lite := lite_start_height (state y) in
  let covered_to_report := saturating_sub expected_start 1 in
  if negb (lite =? 0) && (expected_start <? lite) then (Gap, record_sync_gap y covered_to_report lite)
  else
    let c := cursor y in
    let count := wrapping_add 64 (unexplained_start_count c) 1 in
    let y := set_cursor y (mkCursor (cu_start_height c) (cu_start_timestamp c) 0 count (sync_gap c)) in
    if count <? UNEXPLAINED_SYNC_START_LIMIT then (Idle, y)
    else (Gap, record_sync_gap y covered_to_report first_height).

(** The answer carries on from where the wallet is. *)
Definition take_answer y (data : WalletSyncData) (first_height last_height : Z) : Download * Synchronizer D :=
  let c := cursor y in
  let y :=
    if cu_start_timestamp c =? 0 then y
    else
      let y := set_start y first_height 0 in
      set_wallet y (convert_sync_timestamp_to_height (wallet (ledger y)) (cu_start_timestamp c) first_height) in
  let scanned_to_height := default 0 (wd_scanned_to_height data) in
  match store_downloaded_blocks y (wd_items data) with
  | (Err e, y) => (Failed e, y)
  | (Ok _, y) =>
      let y := set_next_download_height y (wrapping_add 64 (if negb (scanned_to_height =? 0) then scanned_to_height else last_height) 1) in
      (Stored, clear_sync_gap y)
  end.

Definition download_step y : Download * Synchronizer D :=
  let w := wallet (ledger y) in
  if local_block_count (state y) <? wallet_height w then (Idle, y)
  else
    let covered_to := highest_known_height y in
    let lite := lite_start_height (state y) in
    if negb (lite =? 0) && negb (covered_to =? 0) && (wrapping_add 64 covered_to 1 <? lite) then (Gap, record_sync_gap y covered_to lite)
    else
      let y :=
        if negb (lite =? 0) && (covered_to =? 0) && (cu_start_height (cursor y) <? lite) then
          let ts := cu_start_timestamp (cursor y) in
          let y := if ts =? 0 then y else set_wallet y (convert_sync_timestamp_to_height w ts lite) in
          set_start y lite 0
        else y in
      let checkpoints := block_checkpoints y in
      let c := cursor y in
      match request_sync_data checkpoints (cu_start_height c) (cu_start_timestamp c) None y with
      | (Err e, y) => (Failed e, decrease_requested_block_count (set_next_download_height y 0))
      | (Ok data, y) =>
          match wd_items data with
          | [] => empty_answer y data
          | first :: _ =>
              let y := reset_requested_block_count y in
              let first_height := sb_block_height first in
              let last_height := from_option sb_block_height 0 (last (wd_items data)) in
              let start := expected_start y covered_to in
              if negb (skip_coinbase_transactions (config y)) && (cu_start_timestamp (cursor y) =? 0) && (start <? first_height)
              then unexplained_start y first_height start
              else take_answer y data first_height last_height
          end
      end.

(** The answers to the windows, in order: how many were taken, and the failure that ended
    the run. [inr] is a malformed block, which fails the step. *)
Fixpoint take_windows (window : Z) y (answers : list (SyncRequest * result DaemonError WalletSyncData)) (completed : nat)
    : (nat * option DaemonError * Synchronizer D) + (DaemonError * Synchronizer D) :=
  match answers with
  | [] => inl (completed, None, y)
  | (request, Err e) :: _ =>
      let y := match e with BadRequest _ => (lower_ceiling_after_bad_request y).2 | _ => y end in
      inl (completed, Some e, set_rate_limited y (match e with RateLimited => true | _ => false end))
  | (request, Ok data) :: answers =>
      let y := set_rate_limited y false in
      let scanned_to_height := default 0 (wd_scanned_to_height data) in
      if scanned_to_height =? 0 then inl (completed, None, y)
      else
        match store_downloaded_blocks y (wd_items data) with
        | (Err e, y) => inr (e, y)
        | (Ok _, y) =>
            let y := set_next_download_height y (wrapping_add 64 scanned_to_height 1) in
            if wrapping_add 64 scanned_to_height 1 <? wrapping_add 64 (sr_start_height request) window
            then inl (S completed, None, y)
            else take_windows window y answers (S completed)
        end
  end.

Definition window_requests y (first_height window : Z) : list SyncRequest :=
  map (λ i, let start := wrapping_add 64 first_height (wrapping_mul 64 window i) in sync_request y [] start 0 (Some (wrapping_add 64 start window)))
    (seqZ 0 (sync_request_concurrency (config y))).

Definition windows_apply y : bool :=
  height_windows (config y) && skip_coinbase_transactions (config y) && skips_empty_blocks (state y) &&
  negb (sync_request_concurrency (config y) <? 2) && negb (next_download_height (cursor y) =? 0) &&
  negb (bool_decide (is_Some (sync_gap (cursor y)))) && supports_height_range (state y).

Definition download_height_windows y : option Download * Synchronizer D :=
  let first_height := next_download_height (cursor y) in
  if negb (windows_apply y) then (None, y)
  else
    let window := Z.min (wrapping_mul 64 (block_count (batch y)) BLOCKS_SYNCHRONIZING_SKIP_EMPTY_SCAN_MULTIPLIER) BLOCKS_SYNCHRONIZING_SKIP_EMPTY_MAX_SCAN in
    let span := wrapping_add 64 (wrapping_mul 64 window (sync_request_concurrency (config y))) (4 * CRYPTONOTE_MAX_ALT_BLOCK_DEPTH) in
    let daemon_height := local_block_count (state y) in
    if (window =? 0) || (daemon_height <? first_height) || (daemon_height - first_height <? span) then (None, y)
    else
      let requests := window_requests y first_height window in
      let '(answers, d) := wallet_sync_data_many (daemon y) requests in
      match take_windows window (set_daemon y d) (zip requests answers) 0 with
      | inr (e, y) => (Some (Failed e), y)
      | inl (O, failure, y) =>
          (match failure with Some RateLimited => Some (Failed RateLimited) | _ => None end, set_next_download_height y 0)
      | inl (S _, _, y) => (Some Stored, reset_requested_block_count y)
      end.

(** ** Global indexes *)

Definition add_indexes (into : gmap Hash (list Z)) (l : list GlobalIndexEntry) : gmap Hash (list Z) :=
  foldl (λ m e, match parse_hex32 (gi_key e) with Some h => <[h := gi_value e]> m | None => m end) into l.

Definition fetch_global_indexes y (start end_ : Z) (into : gmap Hash (list Z)) : result DaemonError (gmap Hash (list Z)) * Synchronizer D :=
  let lite := lite_start_height (state y) in
  let start := if (start <? lite) && (lite <? end_) then lite else start in
  match global_indexes_for_range (daemon y) start end_ with
  | (Ok l, d) => (Ok (add_indexes into l), set_daemon y d)
  | (Err RateLimited, d) => (Err RateLimited, set_daemon y d)
  | (Err Transport, d) => (Err Transport, set_daemon y d)
  | (Err _, d) => (Ok into, set_daemon y d)
  end.

(** Adjacent windows merged: the end of the run that starts at [start], and the windows left. *)
Fixpoint merge_run (start end_ : Z) (windows : list Z) : Z * list Z :=
  match windows with
  | w :: rest =>
      if (w =? end_) && (wrapping_sub 64 (wrapping_add 64 end_ GLOBAL_INDEXES_OBSCURITY) start <=? GLOBAL_INDEX_MERGE_SPAN)
      then merge_run start (wrapping_add 64 end_ GLOBAL_INDEXES_OBSCURITY) rest
      else (end_, windows)
  | [] => (end_, [])
  end.

Fixpoint fetch_runs (fuel : nat) y (windows : list Z) (indexes : gmap Hash (list Z)) : result DaemonError (gmap Hash (list Z)) * Synchronizer D :=
  match fuel, windows with
  | S fuel, start :: rest =>
      let '(end_, rest) := merge_run start (wrapping_add 64 start GLOBAL_INDEXES_OBSCURITY) rest in
      match fetch_global_indexes y start end_ indexes with
      | (Ok indexes, y) => fetch_runs fuel y rest indexes
      | (Err e, y) => (Err e, y)
      end
  | _, _ => (Ok indexes, y)
  end.

Definition needs_index (scanned : SyncBlock * result DaemonError (list OwnedInput)) : bool :=
  match scanned.2 with
  | Ok inputs => existsb (λ p, negb (bool_decide (is_Some (ti_global_output_index p.2)))) inputs
  | Err _ => false
  end.

Definition index_windows (scanned : list (SyncBlock * result DaemonError (list OwnedInput))) : list Z :=
  Windows.dedup (merge_sort Z.le (map (λ p, lower_bound (sb_block_height p.1) GLOBAL_INDEXES_OBSCURITY) (List.filter needs_index scanned))).

Definition prefetch_global_indexes y (scanned : list (SyncBlock * result DaemonError (list OwnedInput)))
    : result DaemonError (gmap Hash (list Z)) * Synchronizer D :=
  if is_view_wallet (sub_wallets (wallet (ledger y))) then (Ok ∅, y)
  else
    let windows := index_windows scanned in
    fetch_runs (length windows) y windows ∅.

Definition found_index (indexes : gmap Hash (list Z)) (i : TransactionInput) : option Z :=
  v ← indexes !! ti_parent_transaction_hash i;
  v !! Z.to_nat (ti_transaction_index i).

(** The lookups of one input, the prefetch counted as the first. *)
Fixpoint index_attempts (fuel : nat) y (block_height : Z) (i : TransactionInput) (indexes : gmap Hash (list Z))
    : result DaemonError (TransactionInput * gmap Hash (list Z)) * Synchronizer D :=
  match found_index indexes i with
  | Some g => (Ok (with_global_index (Some g) i, indexes), y)
  | None =>
      match fuel with
      | O => (Ok (i, indexes), y)
      | S fuel =>
          match fetch_global_indexes y (lower_bound block_height GLOBAL_INDEXES_OBSCURITY) (upper_bound block_height GLOBAL_INDEXES_OBSCURITY) indexes with
          | (Ok indexes, y) => index_attempts fuel y block_height i indexes
          | (Err e, y) => (Err e, y)
          end
      end
  end.

Fixpoint fill_global_indexes y (block_height : Z) (inputs : list OwnedInput) (indexes : gmap Hash (list Z))
    : result DaemonError (list OwnedInput * gmap Hash (list Z)) * Synchronizer D :=
  match inputs with
  | [] => (Ok ([], indexes), y)
  | (k, i) :: inputs =>
      let '(r, y) :=
        if is_view_wallet (sub_wallets (wallet (ledger y))) || bool_decide (is_Some (ti_global_output_index i)) then (Ok (i, indexes), y)
        else index_attempts (global_index_retries (config y) - 1) y block_height i indexes in
      match r with
      | Err e => (Err e, y)
      | Ok (i, indexes) =>
          let '(r, y) := fill_global_indexes y block_height inputs indexes in
          ('(l, indexes) ← r; Ok ((k, i) :: l, indexes), y)
      end
  end.

(** ** A step *)

Definition discard_stored_blocks y : Synchronizer D := set_next_download_height (set_stored_blocks y []) 0.

(** The blocks of a chunk, in order: how many were applied, and the transactions added. *)
Fixpoint apply_blocks y (scanned : list (SyncBlock * result DaemonError (list OwnedInput))) (indexes : gmap Hash (list Z)) (applied added : nat)
    : result DaemonError (nat * nat) * Synchronizer D :=
  match scanned with
  | [] => (Ok (applied, added), y)
  | (_, Err e) :: _ => (Err e, discard_stored_blocks y)
  | (block, Ok inputs) :: rest =>
      match fill_global_indexes y (sb_block_height block) inputs indexes with
      | (Err e, y) => (Err e, set_stored_blocks y (block :: map fst rest ++ stored_blocks y))
      | (Ok (inputs, indexes), y) =>
          match complete_block_processing (skip_coinbase_transactions (config y)) (ledger y) block inputs with
          | (Err e, l) => (Err e, discard_stored_blocks (set_ledger y l))
          | (Ok n, l) => apply_blocks (set_ledger y l) rest indexes (S applied) (added + n)
          end
      end
  end.

(** [None] is the panic of [scan_blocks], when a thread lost a block. *)
Definition process_stored_blocks y : option (result DaemonError (nat * nat) * Synchronizer D) :=
  let n := Nat.min (Nat.max (block_processing_chunk (config y)) 1) (length (stored_blocks y)) in
  if (n =? 0)%nat then Some (Ok (0, 0)%nat, y)
  else
    let blocks := take n (stored_blocks y) in
    let y := set_stored_blocks y (drop n (stored_blocks y)) in
    scanned ← scan_blocks (wallet (ledger y)) (skip_coinbase_transactions (config y)) blocks (scan_threads (config y)) claims;
    Some (match prefetch_global_indexes y (zip blocks scanned) with
          | (Err e, y) => (Err e, set_stored_blocks y (blocks ++ stored_blocks y))
          | (Ok indexes, y) => apply_blocks y (zip blocks scanned) indexes 0 0
          end).

(** A step and the wait it reports: [true] after a rate limit, [false] after a failure. *)
Inductive SyncStep : Type :=
| Processed (blocks transactions : nat) (height : Z)
| StepSynced (height : Z)
| StepIdle (backoff : option bool)
| StepFailed (e : DaemonError) (backoff : bool)
| StepGap (covered_to daemon_serves_from : Z).

Definition clear_step_added y : Synchronizer D :=
  let l := ledger y in set_ledger y (mkLedger (wallet l) (owners l) (forks_resolved l) []).

Definition sync_step y : option (SyncStep * Synchronizer D) :=
  let y := clear_step_added y in
  let '(download, y) :=
    if (Nat.max (block_processing_chunk (config y)) 1 <=? length (stored_blocks y))%nat then (Deferred, y)
    else match download_height_windows y with
         | (Some outcome, y) => (outcome, y)
         | (None, y) => download_step y
         end in
  '(processed, y) ← process_stored_blocks y;
  Some (match processed with
        | Err e => (StepFailed e (match e with RateLimited => true | _ => false end), y)
        | Ok (S n, added) => (Processed (S n) added (wallet_height (wallet (ledger y))), y)
        | Ok (O, _) =>
            (match download with
             | Deferred | Stored => StepIdle None
             | Synced height => StepSynced height
             | Idle => StepIdle (Some false)
             | Failed e => StepFailed e (last_request_rate_limited (batch y))
             | Gap => let '(a, b) := default (0, 0) (sync_gap (cursor y)) in StepGap a b
             end, y)
        end).

Definition check_locked_transactions y : result DaemonError nat * Synchronizer D :=
  let w := wallet (ledger y) in
  if is_view_wallet (sub_wallets w) then (Ok 0%nat, y)
  else
    let hashes := map (λ t, write_hex (wt_hash t)) (locked_transactions (sub_wallets w)) in
    if (length hashes =? 0)%nat then (Ok 0%nat, y)
    else
      match transactions_unknown (daemon y) hashes with
      | (Err e, d) => (Err e, set_daemon y d)
      | (Ok unknown, d) =>
          let y := set_daemon y d in
          let cancelled := omap parse_hex32 unknown in
          if (length cancelled =? 0)%nat then (Ok 0%nat, y)
          else (Ok (length cancelled), set_wallet y (remove_cancelled_transactions w cancelled))
      end.

End Sync.
