(* ===== verification/Transfer.v ===== *)
(** Transaction construction (crates/wrkz-wallet/src/transfer.rs): denominations, input
    selection, rings, the extra field, the transaction proof of work, signatures, the fee
    loop, relaying and the sweep.

    What a send asks the world outside for - random numbers, the daemon, the clock, which of
    several search threads the first find stops - are methods over a state [W] that is
    threaded, so that nothing is assumed to answer the same twice. *)
From stdpp Require Import gmap sets sorting.
From S2P Require Import Prelude Constants F64 Hashing Cryptonight Curve Varint Ser Tx TxExtra Base58 Fees Reward.
From S2P Require Import Wallet WalletSync.
Local Open Scope Z_scope.

(** * The world outside *)

Class TransferRandom (W : Type) := {
  random_scalar : W → bytes * W;
  pow_nonce_start : W → Z * W;
  next_below : Z → W → Z * W;
  key_pair : W → bytes * bytes * W
}.

Record RandomOut := mkRandomOut { global_amount_index : Z; out_key : bytes }.

Record RandomOutsForAmount := mkRandomOuts { ra_amount : Z; ra_outs : list RandomOut }.

Record SendResult := mkSendResult { sd_status : bytes; sd_error : option bytes }.

Class TransferDaemon (W : Type) := {
  random_outs : list Z → Z → W → result DaemonError (list RandomOutsForAmount) * W;
  send_raw_transaction : bytes → W → result DaemonError SendResult * W;
  remote_pow : bytes → Z → Z → W → option bytes * W
}.

(** The clock, the number of processors, which of [n] threads of a nonce search were stopped
    before they found anything, and [serde_json]: the field [errorCode] of a body. *)
Class Platform (W : Type) := {
  now_seconds : W → Z * W;
  available_threads : W → nat * W;
  stopped_threads : nat → W → list bool * W;
  json_error_code : bytes → option Z
}.

(** A failure of the inner pipeline, with what the mixin fallback needs. *)
Record Failure := mkFailure { error : WalletError; achievable_mixin : Z }.

Definition failed (e : WalletError) : Failure := mkFailure e 0.

(** A computation that may fail. *)
Definition SendM (W E A : Type) : Type := W → result E A * W.

#[export] Instance SendM_ret {W E} : MRet (SendM W E) := λ A a w, (Ok a, w).
#[export] Instance SendM_bind {W E} : MBind (SendM W E) := λ A B f m w,
  match m w with (Ok a, w) => f a w | (Err e, w) => (Err e, w) end.

Definition abort {W E A} (e : E) : SendM W E A := λ w, (Err e, w).
Definition check {W E} (b : bool) (e : E) : SendM W E unit := if b then mret () else abort e.
Definition pure {W E A} (r : result E A) : SendM W E A := λ w, (r, w).
(** [?] on a [WalletError] in the pipeline. *)
Definition inner {W A} (r : result WalletError A) : SendM W Failure A := λ w, (map_err failed r, w).
Definition draw {W E A} (f : W → A * W) : SendM W E A := λ w, let '(a, w) := f w in (Ok a, w).
(** [.map_err(|f| f.error)] *)
Definition outer {W A} (m : SendM W Failure A) : SendM W WalletError A := λ w, let '(r, w) := m w in (map_err error r, w).

Definition classify_random_outs_error `{Platform W} (e : DaemonError) : WalletError :=
  match (match e with
         | BadRequest b | Http _ b => Some b
         | Status s => Some s
         | _ => None
         end) with
  | None => DaemonOffline
  | Some body => if bool_decide (json_error_code body = Some 27) then NotEnoughFakeOutputs else DaemonOffline
  end.

(** * Parameters *)

Inductive FeeType : Type :=
| MinimumFee
| FeePerByte (rate : f64)
| FixedFee (fee : Z).

Definition is_fixed (f : FeeType) : bool := match f with FixedFee _ => true | _ => false end.

Definition fixed_fee (f : FeeType) : Z := match f with FixedFee fee => fee | _ => 0 end.

Definition fee_rate (f : FeeType) (network_height : Z) : f64 :=
  match f with
  | FeePerByte r => r
  | _ => if MINIMUM_FEE_PER_BYTE_V2_HEIGHT <? network_height then MINIMUM_FEE_PER_BYTE_V2 else MINIMUM_FEE_PER_BYTE_V1
  end.

Record SendParams := mkSendParams {
  destinations : list (bytes * Z); sp_mixin : Z; sp_fee : FeeType; sp_payment_id : bytes; addresses_to_take_from : list bytes;
  change_address : bytes; sp_unlock_time : Z; extra_data : bytes; send_all : bool; network_height : Z; daemon_height : Z; pow_threads : nat }.

Definition SendParams_basic (destination : bytes) (amount : Z) (payment_id : bytes) (network_height daemon_height : Z) : SendParams :=
  mkSendParams [(destination, amount)] (mr_default (mixin_allowable_range daemon_height)) MinimumFee payment_id [] [] 0 [] false
    network_height daemon_height 1.

Record FusionParams := mkFusionParams {
  fp_mixin : Z; fp_addresses_to_take_from : list bytes; fp_destination_address : bytes; optimize_target : option Z;
  fp_network_height : Z; fp_daemon_height : Z; fp_pow_threads : nat }.

Definition FusionParams_basic (network_height daemon_height : Z) : FusionParams :=
  mkFusionParams (mr_default (mixin_allowable_range daemon_height)) [] [] None network_height daemon_height 1.

(** * Results *)

Record TransactionDestination := mkDestination { d_amount : Z; receiver_public_spend_key : bytes; receiver_public_view_key : bytes }.

Record ObscuredInput := mkObscured {
  ob_amount : Z; ob_key_image : bytes; ob_ring : list (Z * bytes); real_output : nat; ob_private_ephemeral : bytes; owner_public_spend_key : bytes }.

Record PreparedTransaction := mkPrepared {
  p_transaction : Transaction; p_transaction_hash : Hash; p_size : Z; p_fee : Z; p_mixin : Z; p_payment_id : bytes; p_change_address : bytes;
  p_change_required : Z; p_inputs : list OwnedSpendableInput; p_outputs : list KeyOutput; p_tx_private_key : bytes; p_tx_public_key : bytes;
  p_rings : list ObscuredInput; p_pow_nonce : option bytes; p_pow_difficulty : Z; p_pow_hashes : Z; p_is_fusion : bool }.

Section PreparedTransaction_.
Context `{C : Crypto}.

Definition to_hex (p : PreparedTransaction) : bytes :=
  write_hex (match Transaction.to_bytes (p_transaction p) with Ok blob => blob | Err _ => [] end).

Definition prefix_hash (t : Transaction) : Hash := TransactionPrefix.hash (prefix t).

(** [all] of the two lists in step, which have the same length. *)
Definition verify_signatures (p : PreparedTransaction) : bool :=
  let hash := prefix_hash (p_transaction p) in
  (length (p_rings p) =? length (signatures (p_transaction p)))%nat &&
  forallb (λ '(r, sigs), check_ring_signature hash (ob_key_image r) (map snd (ob_ring r)) sigs) (zip (p_rings p) (signatures (p_transaction p))).

End PreparedTransaction_.

(** * Size and fee *)

Definition KEY_IMAGE_SIZE : Z := 32.
Definition OUTPUT_KEY_SIZE : Z := 32.
Definition AMOUNT_SIZE : Z := 10.
Definition GLOBAL_INDEXES_VECTOR_SIZE_SIZE : Z := 1.
Definition GLOBAL_INDEXES_INITIAL_VALUE_SIZE : Z := 4.
Definition GLOBAL_INDEXES_DIFFERENCE_SIZE : Z := 4.
Definition SIGNATURE_SIZE : Z := 64.
Definition EXTRA_TAG_SIZE : Z := 1.
Definition INPUT_TAG_SIZE : Z := 1.
Definition OUTPUT_TAG_SIZE : Z := 1.
Definition PUBLIC_KEY_SIZE : Z := 32.
Definition TRANSACTION_VERSION_SIZE : Z := 1.
Definition TRANSACTION_UNLOCK_TIME_SIZE : Z := 10.
Definition PAYMENT_ID_ALLOWANCE : Z := 35.

(** Sums and products of [usize] wrap alike, so the result is wrapped once. *)
Definition estimate_transaction_size (mixins : list Z) (num_outputs : nat) (have_payment_id : bool) (extra_data : nat) : Z :=
  let extra_data_size := if (0 <? extra_data)%nat then Z.of_nat extra_data + 4 else 0 in
  let payment_id_size := if have_payment_id then PAYMENT_ID_ALLOWANCE else 0 in
  let header_size := TRANSACTION_VERSION_SIZE + TRANSACTION_UNLOCK_TIME_SIZE + EXTRA_TAG_SIZE + extra_data_size + PUBLIC_KEY_SIZE + payment_id_size in
  let input_size := INPUT_TAG_SIZE + AMOUNT_SIZE + KEY_IMAGE_SIZE + SIGNATURE_SIZE + GLOBAL_INDEXES_VECTOR_SIZE_SIZE + GLOBAL_INDEXES_INITIAL_VALUE_SIZE in
  let inputs_size := foldr (λ m acc, input_size + m * (GLOBAL_INDEXES_DIFFERENCE_SIZE + SIGNATURE_SIZE) + acc) 0 mixins in
  let outputs_size := (OUTPUT_TAG_SIZE + OUTPUT_KEY_SIZE + AMOUNT_SIZE) * Z.of_nat num_outputs in
  wrap 64 (header_size + inputs_size + outputs_size).

Definition approximate_maximum_input_count (transaction_size : Z) (output_count : Z) (mixin : Z) : Z :=
  let outputs_size := wrapping_mul 64 output_count (OUTPUT_TAG_SIZE + OUTPUT_KEY_SIZE + AMOUNT_SIZE) in
  let header_size := TRANSACTION_VERSION_SIZE + 8 + EXTRA_TAG_SIZE + PUBLIC_KEY_SIZE in
  let input_size := wrap 64 (INPUT_TAG_SIZE + AMOUNT_SIZE + KEY_IMAGE_SIZE + SIGNATURE_SIZE + GLOBAL_INDEXES_VECTOR_SIZE_SIZE
    + GLOBAL_INDEXES_INITIAL_VALUE_SIZE + mixin * (GLOBAL_INDEXES_DIFFERENCE_SIZE + SIGNATURE_SIZE)) in
  saturating_sub (saturating_sub transaction_size header_size) outputs_size / input_size.

Definition next_fallback_mixin (tried achievable min : Z) : option Z :=
  if tried <=? min then None
  else
    let next := achievable in
    let next := if tried - 1 <? next then tried - 1 else next in
    let next := if next <? min then min else next in
    Some next.

Definition sum_transaction_fee (tx : Transaction) : option Z :=
  si ← TransactionPrefix.sum_inputs (prefix tx);
  so ← TransactionPrefix.sum_outputs (prefix tx);
  checked_sub si so.

Definition verify_amounts (tx : Transaction) : bool := forallb (λ o, is_pretty_amount (o_amount o)) (outputs (prefix tx)).

Definition verify_transaction_fee (expected : FeeType) (actual_fee height size : Z) : bool :=
  if height <=? MINIMUM_FEE_V1_HEIGHT + 1 then MINIMUM_FEE <=? actual_fee
  else if height <? MINIMUM_FEE_PER_BYTE_V1_HEIGHT then MINIMUM_FEE_V1 <=? actual_fee
  else
    match expected with
    | FixedFee f => f =? actual_fee
    | _ =>
        let calculated := f64_to_u64 (f64_mul (fee_rate expected height) (f64_of_u64 size)) in
        (calculated <=? actual_fee) && (actual_fee <=? saturating_mul 64 calculated 2)
    end.

Definition is_transaction_payload_too_big (size height : Z) : result WalletError unit :=
  let max := wallet_max_tx_size height in
  if max <? size then Err (TooManyInputsToFitInBlock size max) else Ok ().

Definition default_unlock_time (network_height : Z) : Z :=
  let window := if UNLOCK_TIME_HEIGHT_V2 <? network_height then UNLOCK_TIME_TRANSACTION_POOL_WINDOW_V2 else UNLOCK_TIME_TRANSACTION_POOL_WINDOW in
  wrapping_add 64 (wrapping_add 64 network_height window) MINIMUM_UNLOCK_TIME_BLOCKS.

(** * Denominations *)

(** [while split_amount > MAX_OUTPUT_SIZE_CLIENT]: a [u64] is below it after eight divisions. *)
Fixpoint split_piece (fuel : nat) (split_amount num_split_amounts : Z) : Z * Z :=
  match fuel with
  | O => (split_amount, num_split_amounts)
  | S fuel =>
      if MAX_OUTPUT_SIZE_CLIENT <? split_amount then split_piece fuel (split_amount / 10) (wrapping_mul 64 num_split_amounts 10)
      else (split_amount, num_split_amounts)
  end.

Definition split_denomination (denomination : Z) (prevent_too_large : bool) : list Z :=
  if (MAX_OUTPUT_SIZE_CLIENT <? denomination) && prevent_too_large then
    let '(piece, n) := split_piece 20 (denomination / 10) 10 in replicate (Z.to_nat n) piece
  else if negb (denomination =? 0) then [denomination] else [].

(** A [u64] has at most twenty digits. *)
Fixpoint split_loop (fuel : nat) (multiplier amount : Z) (prevent_too_large : bool) : list Z :=
  match fuel with
  | O => []
  | S fuel =>
      if 0 <? amount
      then split_denomination (wrapping_mul 64 multiplier (amount mod 10)) prevent_too_large
             ++ split_loop fuel (wrapping_mul 64 multiplier 10) (amount / 10) prevent_too_large
      else []
  end.

Definition split_amount_into_denominations (amount : Z) (prevent_too_large : bool) : list Z := split_loop 20 1 amount prevent_too_large.

(** * Sorting and shuffling *)

(** [sort_by_key], which is stable. *)
Fixpoint insert_by_key {A} (f : A → Z) (x : A) (l : list A) : list A :=
  match l with
  | [] => [x]
  | y :: l => if f x <=? f y then x :: y :: l else y :: insert_by_key f x l
  end.

Definition sort_by_key {A} (f : A → Z) (l : list A) : list A := foldr (insert_by_key f) [] l.

(** [items.swap(i, j)]; [next_below] answers below its bound, so both are in range. *)
Definition swap {A} (i j : nat) (l : list A) : list A :=
  match l !! i, l !! j with
  | Some x, Some y => <[i := y]> (<[j := x]> l)
  | _, _ => l
  end.

Fixpoint shuffle_loop `{TransferRandom W} {A} (i : nat) (l : list A) (w : W) : list A * W :=
  match i with
  | O => (l, w)
  | S i' =>
      let '(j, w) := next_below (Z.of_nat i + 1) w in
      shuffle_loop i' (swap i (Z.to_nat j) l) w
  end.

Definition shuffle `{TransferRandom W} {A} (l : list A) (w : W) : list A * W :=
  if (length l <? 2)%nat then (l, w) else shuffle_loop (length l - 1) l w.

(** * Input selection *)

(** Twenty digits at most. *)
Fixpoint digit_loop (fuel : nat) (a digits : Z) : Z :=
  match fuel with
  | O => digits
  | S fuel => if 0 <? a then digit_loop fuel (a / 10) (digits + 1) else digits
  end.

Definition digit_count (amount : Z) : Z := digit_loop 20 (amount / 10) 1.

(** A [BTreeMap<u32, Vec<_>>] as its entries in order: [entry(k).or_default().push(x)]. *)
Fixpoint bucket_push {A} (k : Z) (x : A) (l : list (Z * list A)) : list (Z * list A) :=
  match l with
  | [] => [(k, [x])]
  | (k', b) :: l => if k =? k' then (k', b ++ [x]) :: l else if k <? k' then (k, [x]) :: (k', b) :: l else (k', b) :: bucket_push k x l
  end.

Definition buckets_of (inputs : list OwnedSpendableInput) : list (Z * list OwnedSpendableInput) :=
  foldl (λ m i, bucket_push (digit_count (ti_amount (ow_input i))) i m) [] inputs.

(** One turn of the round: [pop] from every bucket, and the buckets that are not empty then. *)
Definition pop {A} (l : list A) : option (A * list A) :=
  match reverse l with [] => None | x :: l => Some (x, reverse l) end.

Fixpoint round_turn {A} (l : list (Z * list A)) : list A * list (Z * list A) :=
  match l with
  | [] => ([], [])
  | (k, b) :: l =>
      let '(taken, rest) := round_turn l in
      match pop b with
      | Some (x, b) => (x :: taken, if (length b =? 0)%nat then rest else (k, b) :: rest)
      | None => (taken, rest)
      end
  end.

(** Every turn takes an input: as many turns as inputs are enough. *)
Fixpoint round_robin {A} (fuel : nat) (l : list (Z * list A)) : list A :=
  match fuel, l with
  | S fuel, _ :: _ => let '(taken, l) := round_turn l in taken ++ round_robin fuel l
  | _, _ => []
  end.

(** The unlocked inputs of the subwallets named, in order. *)
Fixpoint available_of (w : Wallet) (keys : list bytes) (height now : Z) : result WalletError (list OwnedSpendableInput) :=
  match keys with
  | [] => Ok []
  | k :: keys =>
      sub ← ok_or (AddressNotInWallet (write_hex k)) (sub_wallet w k);
      rest ← available_of w keys height now;
      Ok (map (mkOwned (sw_public_spend_key sub) (sw_private_spend_key sub))
            (List.filter (λ i, is_input_unlocked_at (ti_unlock_time i) height now) (sw_unspent_inputs sub)) ++ rest)
  end.

Definition available_inputs (w : Wallet) (take_from_all : bool) (take_from : list bytes) (height now : Z) : result WalletError (list OwnedSpendableInput) :=
  if is_view_wallet (sub_wallets w) then Err IllegalViewWalletOperation
  else available_of w (if take_from_all then public_spend_keys (sub_wallets w) else take_from) height now.

Definition spendable_transaction_inputs_at (w : Wallet) (take_from_all : bool) (take_from : list bytes) (height now : Z)
    : result WalletError (list OwnedSpendableInput) :=
  available ← available_inputs w take_from_all take_from height now;
  let available := sort_by_key (λ a, - ti_amount (ow_input a)) available in
  Ok (round_robin (length available) (buckets_of available)).

(** The buckets in turn, until [max_inputs_to_take] are taken. *)
Fixpoint take_buckets (max_inputs_to_take : Z) (taken : list OwnedSpendableInput) (found_money : Z) (l : list OwnedSpendableInput)
    : list OwnedSpendableInput * Z :=
  match l with
  | [] => (taken, found_money)
  | i :: l =>
      let found_money := wrapping_add 64 found_money (ti_amount (ow_input i)) in
      let taken := taken ++ [i] in
      if max_inputs_to_take <=? Z.of_nat (length taken) then (taken, found_money) else take_buckets max_inputs_to_take taken found_money l
  end.

Definition fusion_transaction_inputs `{TransferRandom W} (wal : Wallet) (take_from_all : bool) (take_from : list bytes) (mixin height now : Z)
    (optimize_target : option Z) : SendM W WalletError (list OwnedSpendableInput * Z * Z) :=
  available ← pure (available_inputs wal take_from_all take_from height now);
  let max_inputs_to_take := approximate_maximum_input_count FUSION_TX_MAX_SIZE FUSION_TX_MIN_IN_OUT_COUNT_RATIO mixin in
  available ← draw (shuffle available);
  let below i := match optimize_target with Some target => negb (target <=? ti_amount (ow_input i)) | None => true end in
  let buckets := map snd (buckets_of (List.filter below available)) in
  let full := List.filter (λ b, FUSION_TX_MIN_INPUT_COUNT <=? Z.of_nat (length b)) buckets in
  full ← draw (shuffle full);
  let chosen := match full with first :: _ => [first] | [] => buckets end in
  let '(taken, found_money) := take_buckets max_inputs_to_take [] 0 (concat chosen) in
  mret (taken, max_inputs_to_take, found_money).

(** * Validation *)

Definition validate_payment_id (payment_id : bytes) : result WalletError unit :=
  if (length payment_id =? 0)%nat then Ok ()
  else if negb (length payment_id =? SHORT_PAYMENT_ID_LENGTH)%nat && negb (length payment_id =? LONG_PAYMENT_ID_LENGTH)%nat
  then Err (PaymentIdWrongLength (length payment_id))
  else if negb (forallb is_ascii_hexdigit payment_id) then Err PaymentIdInvalid
  else Ok ().

Definition validate_mixin (mixin height : Z) : result WalletError unit :=
  let range := mixin_allowable_range height in
  if mixin <? mr_min range then Err (MixinTooSmall mixin (mr_min range))
  else if mr_max range <? mixin then Err (MixinTooBig mixin (mr_max range))
  else Ok ().

Definition validate_unlock_time_at (unlock_time current_height now : Z) : result WalletError unit :=
  let minimum :=
    if CRYPTONOTE_MAX_BLOCK_NUMBER <? unlock_time
    then wrapping_add 64 now (MINIMUM_UNLOCK_TIME_BLOCKS * DIFFICULTY_TARGET)
    else wrapping_add 64 current_height MINIMUM_UNLOCK_TIME_BLOCKS in
  if unlock_time <? minimum then Err (UnlockTimeTooSmall_ unlock_time minimum) else Ok ().


Section Addresses.
Context `{C : Crypto}.

Definition validate_address (address : bytes) (integrated_allowed : bool) : result WalletError Address :=
  if negb (length address =? STANDARD_ADDRESS_LENGTH)%nat && negb (length address =? INTEGRATED_ADDRESS_LENGTH)%nat
     && negb (length address =? INTEGRATED_ADDRESS_LENGTH_LONG)%nat
  then Err (InvalidAddress (WrongAddressLength (length address)))
  else if negb (bool_decide (take (length ADDRESS_PREFIX) address = ADDRESS_PREFIX)) then Err (InvalidAddress (WrongPrefix 0))
  else if is_integrated_address address then
    if negb integrated_allowed then Err (AddressIsIntegrated address)
    else
      parsed ← map_err (λ e, match e with BadPaymentId => IntegratedAddressPaymentIdInvalid | other => InvalidAddress other end) (parse_address address);
      match Base58.payment_id parsed with
      | Some id => _ ← map_err (λ _, IntegratedAddressPaymentIdInvalid) (validate_payment_id id); Ok parsed
      | None => Ok parsed
      end
  else map_err InvalidAddress (parse_address address).

Definition validate_our_address (w : Wallet) (address : bytes) : result WalletError bytes :=
  parsed ← validate_address address false;
  if negb (is_our_spend_key w (spend_public_key parsed)) then Err (AddressNotInWallet address) else Ok (spend_public_key parsed).

Fixpoint validate_integrated_addresses (destinations : list (bytes * Z)) (payment_id : bytes) : result WalletError unit :=
  match destinations with
  | [] => Ok ()
  | (address, _) :: destinations =>
      if negb (is_integrated_address address) then validate_integrated_addresses destinations payment_id
      else
        parsed ← map_err InvalidAddress (parse_address address);
        let extracted := default [] (Base58.payment_id parsed) in
        if (length payment_id =? 0)%nat then validate_integrated_addresses destinations extracted
        else if negb (bool_decide (payment_id = extracted)) then Err ConflictingPaymentIds
        else validate_integrated_addresses destinations payment_id
  end.

Definition balance_of (w : Wallet) (take_from_all : bool) (spend_keys : list bytes) (height now : Z) : Z :=
  let keys := if take_from_all then public_spend_keys (sub_wallets w) else spend_keys in
  foldl (λ acc k, wrapping_add 64 acc (balance_for_spend_key_at w k height now).1) 0 keys.

Definition is_empty {A} (l : list A) : bool := match l with [] => true | _ => false end.

Definition validate_amount (w : Wallet) (destinations : list (bytes * Z)) (fee : FeeType) (addresses_to_take_from : list bytes)
    (current_height now : Z) : result WalletError unit :=
  let min_rate := if MINIMUM_FEE_PER_BYTE_V2_HEIGHT <? current_height then MINIMUM_FEE_PER_BYTE_V2 else MINIMUM_FEE_PER_BYTE_V1 in
  if match fee with FeePerByte rate => f64_gt min_rate rate | _ => false end then Err FeeTooSmall
  else
    spend_keys ← collect (validate_our_address w) addresses_to_take_from;
    let available := balance_of w (is_empty addresses_to_take_from) spend_keys current_height now in
    let amounts := (if is_fixed fee then [fixed_fee fee] else []) ++ map snd destinations in
    total ← ok_or WillOverflow (TransactionPrefix.try_sum 0 amounts);
    if available <? total then Err (NotEnoughBalance total available) else Ok ().

Definition validate_transaction_parameters (w : Wallet) (destinations : list (bytes * Z)) (mixin : Z) (fee : FeeType) (payment_id : bytes)
    (addresses_to_take_from : list bytes) (change_address : bytes) (unlock_time current_height now : Z) : result WalletError unit :=
  if is_empty destinations then Err NoDestinationsGiven
  else if existsb (λ '(_, amount), amount =? 0) destinations then Err AmountIsZero
  else
    _ ← collect (λ '(address, _), validate_address address true) destinations;
    _ ← validate_integrated_addresses destinations payment_id;
    _ ← collect (validate_our_address w) addresses_to_take_from;
    _ ← validate_amount w destinations fee addresses_to_take_from current_height now;
    _ ← validate_mixin mixin current_height;
    _ ← validate_payment_id payment_id;
    _ ← validate_our_address w change_address;
    validate_unlock_time_at unlock_time current_height now.

(** * Destinations *)

Definition setup_destinations (addresses_and_amounts : list (bytes * Z)) (change_required : Z) (change_address : bytes)
    : result WalletError (list TransactionDestination) :=
  let all := addresses_and_amounts ++ (if change_required =? 0 then [] else [(change_address, change_required)]) in
  l ← collect (λ '(address, amount),
    keys ← map_err InvalidAddress (parse_address address);
    Ok (map (λ d, mkDestination d (spend_public_key keys) (view_public_key keys)) (split_amount_into_denominations amount true))) all;
  Ok (concat l).

End Addresses.

(** * Extra and proof of work *)

Definition build_wallet_extra (tx_public_key nonce : bytes) (pow_nonce : option bytes) : bytes :=
  TX_EXTRA_TAG_PUBKEY :: tx_public_key
    ++ (if is_empty nonce then [] else varint.write [TX_EXTRA_NONCE] (Z.of_nat (length nonce)) ++ nonce)
    ++ match pow_nonce with Some p => TX_EXTRA_TRANSACTION_POW_NONCE :: p | None => [] end.

Definition build_extra_nonce (payment_id : option PaymentId) (extra_data : bytes) : bytes :=
  build_nonce payment_id (if is_empty extra_data then None else Some extra_data).

(** [prefix[at..].copy_from_slice(nonce)], the last eight bytes. *)
Definition with_nonce (prefix nonce : bytes) : bytes := take (length prefix - TX_POW_NONCE_SIZE) prefix ++ nonce.

Section Pow.
Context `{C : Crypto}.

Definition nonce_satisfies (prefix nonce : bytes) (difficulty : Z) : bool :=
  if (length prefix <? TX_POW_NONCE_SIZE)%nat then false else check_hash (cn_upx_hash (with_nonce prefix nonce)) difficulty.

(** One turn of the loop of a worker that is not stopped; the state is [(nonce, hashes)]. *)
Definition pow_turn (base_prefix : bytes) (difficulty start step : Z) (s : Z * Z) : (Z * Z) + option (bytes * Z) :=
  let '(nonce, hashes) := s in
  let hashes := wrapping_add 64 hashes 1 in
  let out := to_le_bytes 8 nonce in
  if check_hash (cn_upx_hash (with_nonce base_prefix out)) difficulty then inr (Some (out, hashes))
  else
    let nonce := wrapping_add 64 nonce step in
    if nonce =? start then inr None else inl (nonce, hashes).

(** 2^64 turns bring any step back to [start]. *)
Definition pow_worker (base_prefix : bytes) (difficulty start step : Z) : option (bytes * Z) :=
  match iter_until (pow_turn base_prefix difficulty start step) (2 ^ 64)%positive (start, 0) with
  | inr r => r
  | inl _ => None
  end.

(** [stopped]: the workers that saw the flag of another before their own find. The flag is
    set only by a find, so nothing is stopped when no other worker has one. *)
Definition joined (finds : list (option (bytes * Z))) (stopped : list bool) : list (option (bytes * Z)) :=
  let effective := zip_with (λ r (b : bool), if b then None else r) finds stopped in
  if existsb (λ r, match r with Some _ => true | None => false end) effective then effective else finds.

Definition pow_threads_search (prefix : bytes) (difficulty start : Z) (threads : nat) (stopped : list bool) : option (bytes * Z) :=
  let finds := map (λ i, pow_worker prefix difficulty (wrapping_add 64 start (Z.of_nat i)) (Z.of_nat threads)) (seq 0 threads) in
  let results := omap id (joined finds stopped) in
  let hashes := foldl (λ a r, wrapping_add 64 a (r.2)) 0 results in
  match results with [] => None | (nonce, _) :: _ => Some (nonce, hashes) end.

(** The prefix ends in the nonce field, which the source asserts. *)
Definition transaction_pow_search `{Platform W} (prefix : bytes) (difficulty start : Z) (threads : nat) (w : W) : option (bytes * Z) * W :=
  let threads := Nat.max threads 1 in
  if (threads =? 1)%nat then (pow_worker prefix difficulty start 1, w)
  else
    let '(stopped, w) := stopped_threads threads w in
    (pow_threads_search prefix difficulty start threads stopped, w).

End Pow.

(** * Rings *)

(** Inner [Vec::min]: the smallest of the lengths. *)
Definition smallest_length {A} (l : list (Z * list A)) : option Z :=
  foldl (λ m '(_, s), Some (match m with Some m => Z.min m (Z.of_nat (length s)) | None => Z.of_nat (length s) end)) None l.

Definition decode_outs (outs : list RandomOutsForAmount) : result WalletError (list (Z * list (Z * bytes))) :=
  collect (λ entry,
    set ← collect (λ o, key ← ok_or DaemonError_ (parse_hex32 (out_key o)); Ok (global_amount_index o, key)) (ra_outs entry);
    Ok (ra_amount entry, set)) outs.

Definition achievable_mixin_of (amounts : list Z) (outs : list (Z * list (Z * bytes))) : Z :=
  let all_present := forallb (λ a, existsb (λ '(amount, _), amount =? a) outs) amounts in
  match smallest_length outs with
  | Some n => if (0 <? n) && all_present then n - 1 else 0
  | None => 0
  end.

(** Every amount has a set of [mixin] outputs at least, and there is a set per input. *)
Definition outs_suffice (mixin : Z) (amounts : list Z) (outs : list (Z * list (Z * bytes))) : bool :=
  forallb (λ amount, match List.find (λ '(a, _), a =? amount) outs with
                     | Some (_, set) => negb (Z.of_nat (length set) <? mixin)
                     | None => false
                     end) amounts
  && (length outs =? length amounts)%nat
  && forallb (λ '(_, set), negb (Z.of_nat (length set) <? mixin)) outs.

(** The decoys of one input: not our own output, and [mixin] of them at most. *)
Fixpoint decoys (mixin global_index : Z) (ring : list (Z * bytes)) (fake : list (Z * bytes)) : list (Z * bytes) :=
  match fake with
  | [] => ring
  | (index, key) :: fake =>
      if index =? global_index then decoys mixin global_index ring fake
      else
        let ring := ring ++ [(index, key)] in
        if mixin <=? Z.of_nat (length ring) then ring else decoys mixin global_index ring fake
  end.

(** [position(|(index, _)| index >= global_index).unwrap_or(len)] *)
Fixpoint real_position (global_index : Z) (ring : list (Z * bytes)) : nat :=
  match ring with
  | [] => 0
  | (index, _) :: ring => if global_index <=? index then 0 else S (real_position global_index ring)
  end.

Definition insert_at {A} (i : nat) (x : A) (l : list A) : list A := take i l ++ x :: drop i l.

Definition obscure (mixin : Z) (source : OwnedSpendableInput) (fake : list (Z * bytes)) : result Failure ObscuredInput :=
  let input := ow_input source in
  match ti_global_output_index input with
  | None => Err (failed DaemonError_)
  | Some global_index =>
      let ring := if mixin =? 0 then [] else decoys mixin global_index [] fake in
      if Z.of_nat (length ring) <? mixin then Err (mkFailure NotEnoughFakeOutputs (Z.of_nat (length ring)))
      else
        let position := real_position global_index ring in
        Ok (mkObscured (ti_amount input) (ti_key_image input) (insert_at position (global_index, ti_key input) ring) position
              (default NULL_SECRET_KEY (ti_private_ephemeral input)) (ow_public_spend_key source))
  end.

(** [fake_outs] has a set per source, or is empty at mixin zero, where it is not looked at. *)
Fixpoint obscure_all (mixin : Z) (sources : list OwnedSpendableInput) (fake_outs : list (list (Z * bytes))) : result Failure (list ObscuredInput) :=
  match sources with
  | [] => Ok []
  | source :: sources =>
      o ← obscure mixin source (default [] (head fake_outs));
      rest ← obscure_all mixin sources (tail fake_outs);
      Ok (o :: rest)
  end.

(** [copy[i] = absolute[i] - absolute[i - 1]] on [u32]. *)
Fixpoint relative_from (previous : Z) (absolute : list Z) : list Z :=
  match absolute with
  | [] => []
  | a :: absolute => wrapping_sub 32 a previous :: relative_from a absolute
  end.

Definition relative_offsets (ring : list (Z * bytes)) : list Z :=
  match map (λ '(i, _), wrap 32 i) ring with
  | [] => []
  | a :: absolute => a :: relative_from a absolute
  end.

Section Rings.
Context `{C : Crypto} `{CurveKeys} `{CurveSecrets} `{TransferRandom W} `{TransferDaemon W} `{Platform W}.

Definition get_ring_participants (mixin : Z) (sources : list OwnedSpendableInput) : SendM W Failure (list (list (Z * bytes))) :=
  if mixin =? 0 then mret []
  else
    let requested_outs := wrapping_add 64 mixin 1 in
    let amounts := map (λ s, ti_amount (ow_input s)) sources in
    response ← draw (random_outs amounts requested_outs);
    response ← pure (map_err (λ e, failed (classify_random_outs_error (W := W) e)) response);
    outs ← inner (decode_outs response);
    _ ← check (outs_suffice mixin amounts outs) (mkFailure NotEnoughFakeOutputs (achievable_mixin_of amounts outs));
    mret (map snd outs).

Definition prepare_ring_participants (sources : list OwnedSpendableInput) (mixin : Z)
    : SendM W Failure (list ObscuredInput * list OwnedSpendableInput * Z) :=
  let sources := sort_by_key (λ s, ti_amount (ow_input s)) sources in
  fake_outs ← get_ring_participants mixin sources;
  result ← pure (obscure_all mixin sources fake_outs);
  mret (result, sources, mixin).

(** The one-time secret of an input: the one sync stored, or derived again. *)
Definition one_time_secret (private_view_key : bytes) (input : ObscuredInput) (source : OwnedSpendableInput) : result WalletError bytes :=
  if bool_decide (ob_private_ephemeral input = NULL_SECRET_KEY) then
    derivation ← ok_or InvalidPublicKey (generate_key_derivation (ti_transaction_public_key (ow_input source)) private_view_key);
    Ok (derive_secret_key derivation (ti_transaction_index (ow_input source)) (ow_private_spend_key source))
  else Ok (ob_private_ephemeral input).

Definition with_secret (o : ObscuredInput) (k : bytes) : ObscuredInput :=
  mkObscured (ob_amount o) (ob_key_image o) (ob_ring o) (real_output o) k (owner_public_spend_key o).

(** The inputs, their secrets, and the rings with the secrets filled in. *)
Fixpoint setup_inputs (obscured : list ObscuredInput) (sources : list OwnedSpendableInput) (private_view_key : bytes)
    : result WalletError (list Input * list bytes * list ObscuredInput) :=
  match obscured, sources with
  | o :: obscured, source :: sources =>
      k ← one_time_secret private_view_key o source;
      '(inputs, secrets, obscured) ← setup_inputs obscured sources private_view_key;
      Ok (Key (ob_amount o) (relative_offsets (ob_ring o)) (ob_key_image o) :: inputs, k :: secrets, with_secret o k :: obscured)
  | _, _ => Ok ([], [], obscured)
  end.

Fixpoint derive_outputs (secret : bytes) (index : Z) (destinations : list TransactionDestination) : result WalletError (list KeyOutput) :=
  match destinations with
  | [] => Ok []
  | d :: destinations =>
      derivation ← ok_or InvalidPublicKey (generate_key_derivation (receiver_public_view_key d) secret);
      key ← ok_or InvalidPublicKey (derive_public_key derivation index (receiver_public_spend_key d));
      rest ← derive_outputs secret (index + 1) destinations;
      Ok (mkKeyOutput (d_amount d) key :: rest)
  end.

Definition setup_outputs (destinations : list TransactionDestination) : SendM W WalletError (list KeyOutput * bytes * bytes) :=
  let destinations := sort_by_key d_amount destinations in
  '(secret, public) ← draw key_pair;
  outputs ← pure (derive_outputs secret 0 destinations);
  mret (outputs, secret, public).

(** The pairs [(c, r)], the two of a pair drawn in that order. *)
Fixpoint random_pairs (n : nat) (w : W) : list (bytes * bytes) * W :=
  match n with
  | O => ([], w)
  | S n =>
      let '(c, w) := random_scalar w in
      let '(r, w) := random_scalar w in
      let '(rest, w) := random_pairs n w in
      ((c, r) :: rest, w)
  end.

Definition ring_randomness (ring_size : nat) (w : W) : bytes * list (bytes * bytes) * W :=
  let '(k, w) := random_scalar w in
  let '(pairs, w) := random_pairs ring_size w in
  (k, pairs, w).

Fixpoint sign_rings (prefix_hash : Hash) (rings : list ObscuredInput) (secrets : list bytes) : SendM W WalletError (list (list bytes)) :=
  match rings, secrets with
  | ring :: rings, k :: secrets =>
      let keys := map snd (ob_ring ring) in
      '(nonce, pairs) ← draw (ring_randomness (length keys));
      sigs ← pure (ok_or FailedToCreateRingSignature
        (generate_ring_signature_with_randomness prefix_hash (ob_key_image ring) keys k (real_output ring) nonce pairs));
      rest ← sign_rings prefix_hash rings secrets;
      mret (sigs :: rest)
  | _, _ => mret []
  end.

(** The second pass, over every signature; there is one per ring. *)
Definition signatures_hold (prefix_hash : Hash) (rings : list ObscuredInput) (sigs : list (list bytes)) : bool :=
  forallb (λ '(ring, s), check_ring_signature prefix_hash (ob_key_image ring) (map snd (ob_ring ring)) s) (zip rings sigs).

Definition generate_ring_signatures (tx : Transaction) (rings : list ObscuredInput) (secrets : list bytes) : SendM W WalletError Transaction :=
  let hash := prefix_hash tx in
  sigs ← sign_rings hash rings secrets;
  _ ← check (signatures_hold hash rings sigs) FailedToCreateRingSignature;
  mret (mkTransaction (prefix tx) (signatures tx ++ sigs)).

End Rings.

(** * Building *)

Record BuildContext := mkContext {
  bc_mixin : Z; bc_payment_id : bytes; recipient_view_key : option bytes; bc_private_view_key : bytes; bc_unlock_time : Z;
  bc_extra_data : bytes; bc_network_height : Z; bc_pow_threads : nat; bc_is_fusion : bool }.

Record Built := mkBuilt {
  b_transaction : Transaction; b_size : Z; b_rings : list ObscuredInput; b_outputs : list KeyOutput; b_tx_private_key : bytes;
  b_tx_public_key : bytes; b_pow_nonce : option bytes; b_pow_difficulty : Z; b_pow_hashes : Z; b_inputs : list OwnedSpendableInput }.

Inductive FeeLoopOutcome : Type :=
| FeeBuilt (built : Built) (change_required : Z)
| NeedMoreInputs (needed : Z).

Definition with_extra (p : TransactionPrefix) (e : bytes) : TransactionPrefix :=
  mkPrefix (version p) (unlock_time p) (inputs p) (outputs p) e.

Section Build.
Context `{C : Crypto} `{CurveKeys} `{CurveSecrets} `{TransferRandom W} `{TransferDaemon W} `{Platform W}.

(** A long id is [Hex32::from_hex]; a short one is encrypted to the receiver. *)
Definition payment_id_field (ctx : BuildContext) (tx_private_key : bytes) : result WalletError (option PaymentId) :=
  let id := bc_payment_id ctx in
  if is_empty id then Ok None
  else if (length id =? SHORT_PAYMENT_ID_LENGTH)%nat then
    view_key ← ok_or PaymentIdInvalid (recipient_view_key ctx);
    let encrypted := encrypt_payment_id_hex id view_key tx_private_key in
    if is_empty encrypted then Err PaymentIdInvalid
    else
      bs ← ok_or PaymentIdInvalid (parse_hex (take 16 encrypted));
      Ok (Some (EncryptedShort bs))
  else
    id ← ok_or PaymentIdInvalid (parse_hex32 id);
    Ok (Some (Long id)).

Definition needs_pow (ctx : BuildContext) (tx : Transaction) : bool :=
  let fee := default 0 (sum_transaction_fee tx) in
  bc_is_fusion ctx || (bc_network_height ctx <? TRANSACTION_POW_PASS_WITH_FEE_HEIGHT) || (fee <? TRANSACTION_POW_PASS_WITH_FEE).

(** The nonce field appended to the extra, and its value: a server's, if it holds, or the search's. *)
Definition solve_pow (ctx : BuildContext) (p : TransactionPrefix) (difficulty : Z) : SendM W WalletError (TransactionPrefix * bytes * Z) :=
  let p := with_extra p (extra p ++ [TX_EXTRA_TRANSACTION_POW_NONCE] ++ replicate TX_POW_NONCE_SIZE 0) in
  let blob := TransactionPrefix.to_bytes p in
  start ← draw pow_nonce_start;
  remote ← draw (remote_pow blob difficulty (bc_network_height ctx));
  '(nonce, hashes) ←
    match (match remote with Some nonce => if nonce_satisfies blob nonce difficulty then Some nonce else None | None => None end) with
    | Some nonce => mret (nonce, 0)
    | None =>
        r ← draw (transaction_pow_search blob difficulty start (bc_pow_threads ctx));
        pure (ok_or TransactionPoWFailed r)
    end;
  mret (with_extra p (with_nonce (extra p) nonce), nonce, hashes).

Definition add_pow (ctx : BuildContext) (tx : Transaction) : SendM W WalletError (Transaction * option bytes * Z * Z) :=
  let p := prefix tx in
  let difficulty :=
    if needs_pow ctx tx
    then default 0 (transaction_pow_difficulty (bc_network_height ctx) (bc_is_fusion ctx) (Z.of_nat (length (inputs p))) (Z.of_nat (length (outputs p))))
    else 0 in
  if difficulty =? 0 then mret (tx, None, 0, 0)
  else
    '(p, nonce, hashes) ← solve_pow ctx p difficulty;
    mret (mkTransaction p (signatures tx), Some nonce, difficulty, hashes).

(** Serialised, read back, and the prefix is the same. *)
Definition round_trip (tx : Transaction) : result WalletError bytes :=
  blob ← map_err (λ _, Json) (Transaction.to_bytes tx);
  round_tripped ← map_err (λ _, Json) (Transaction.from_bytes blob);
  if bool_decide (prefix_hash round_tripped = prefix_hash tx) then Ok blob else Err FailedToCreateRingSignature.

(** [?] on a [WalletError] inside the pipeline, for a computation. *)
Definition lifted {A} (m : SendM W WalletError A) : SendM W Failure A := λ w, let '(r, w) := m w in (map_err failed r, w).

Definition make_transaction (ctx : BuildContext) (our_inputs : list OwnedSpendableInput) (destinations : list TransactionDestination)
    : SendM W Failure Built :=
  '(rings, sorted_inputs, _) ← prepare_ring_participants our_inputs (bc_mixin ctx);
  '(ins, secrets, rings) ← inner (setup_inputs rings sorted_inputs (bc_private_view_key ctx));
  '(outs, tx_private_key, tx_public_key) ← lifted (setup_outputs destinations);
  payment_id ← inner (payment_id_field ctx tx_private_key);
  let nonce := build_extra_nonce payment_id (bc_extra_data ctx) in
  let extra := build_wallet_extra tx_public_key nonce None in
  let outputs := map (λ o, mkOutput (ko_amount o) (ko_key o)) outs in
  let tx := mkTransaction (mkPrefix CURRENT_TRANSACTION_VERSION (bc_unlock_time ctx) ins outputs extra) [] in
  _ ← check (negb (NORMAL_TX_MAX_OUTPUT_COUNT_V1 <? Z.of_nat (length outputs)))
        (failed (OutputDecomposition (Z.of_nat (length outputs)) NORMAL_TX_MAX_OUTPUT_COUNT_V1));
  '(tx, pow_nonce, pow_difficulty, pow_hashes) ← lifted (add_pow ctx tx);
  tx ← lifted (generate_ring_signatures tx rings secrets);
  blob ← inner (round_trip tx);
  mret (mkBuilt tx (Z.of_nat (length blob)) rings outs tx_private_key tx_public_key pow_nonce pow_difficulty pow_hashes sorted_inputs).

(** One round of the fee loop: the state is the amounts, the destinations and the world. *)
Record FeeState := mkFeeState { amount_pre_fee : Z; amount_including_fee : Z; fs_destinations : list (bytes * Z); fs_world : W }.

(** [addresses_and_amounts[0].1 = amount] *)
Definition set_first_amount (l : list (bytes * Z)) (amount : Z) : list (bytes * Z) :=
  match l with (address, _) :: l => (address, amount) :: l | [] => [] end.

Definition fee_round (ctx : BuildContext) (sum_of_inputs : Z) (fee_per_byte : f64) (change_address : bytes) (our_inputs : list OwnedSpendableInput)
    (send_all : bool) (s : FeeState) : FeeState + (result Failure FeeLoopOutcome * list (bytes * Z) * W) :=
  let change_required := wrapping_sub 64 sum_of_inputs (amount_including_fee s) in
  match (destinations ← inner (setup_destinations (fs_destinations s) change_required change_address);
         make_transaction ctx our_inputs destinations) (fs_world s) with
  | (Err f, w) => inr (Err f, fs_destinations s, w)
  | (Ok built, w) =>
      let actual_fee := transaction_fee (b_size built) (bc_network_height ctx) fee_per_byte in
      if actual_fee <=? wrapping_sub 64 (amount_including_fee s) (amount_pre_fee s) then inr (Ok (FeeBuilt built change_required), fs_destinations s, w)
      else
        let pre := if send_all then wrapping_sub 64 (amount_including_fee s) actual_fee else amount_pre_fee s in
        let destinations := if send_all then set_first_amount (fs_destinations s) pre else fs_destinations s in
        let needed := wrapping_add 64 pre actual_fee in
        if sum_of_inputs <? needed then inr (Ok (NeedMoreInputs needed), destinations, w)
        else inl (mkFeeState pre needed destinations w)
  end.

(** The fee of a round is above that of the round before: 2^64 rounds are enough. *)
Definition try_make_fee_per_byte_transaction (ctx : BuildContext) (sum_of_inputs amount_pre_fee amount_including_fee : Z) (fee_per_byte : f64)
    (addresses_and_amounts : list (bytes * Z)) (change_address : bytes) (our_inputs : list OwnedSpendableInput) (send_all : bool)
    : SendM W Failure (FeeLoopOutcome * list (bytes * Z)) := λ w,
  match iter_until (fee_round ctx sum_of_inputs fee_per_byte change_address our_inputs send_all) (2 ^ 64)%positive
          (mkFeeState amount_pre_fee amount_including_fee addresses_and_amounts w) with
  | inr (Ok r, destinations, w) => (Ok (r, destinations), w)
  | inr (Err f, _, w) => (Err f, w)
  | inl s => (Err (failed FeeTooSmall), fs_world s)
  end.

End Build.

(** * Sending *)

(** The wallet's own reading of the fusion rules, with checked sums. *)
Fixpoint fusion_total (threshold total : Z) (l : list Input) : option Z :=
  match l with
  | [] => Some total
  | Key amount _ _ :: l =>
      if amount <? threshold then None
      else
        total ← checked_add 64 total amount;
        fusion_total threshold total l
  | Base _ :: _ => None
  end.

Definition wallet_is_fusion_transaction (tx : Transaction) (size height : Z) : bool :=
  let p := prefix tx in
  if FUSION_TX_MAX_SIZE <? size then false
  else if Z.of_nat (length (inputs p)) <? FUSION_TX_MIN_INPUT_COUNT then false
  else if Z.of_nat (length (inputs p)) <? FUSION_TX_MIN_IN_OUT_COUNT_RATIO * Z.of_nat (length (outputs p)) then false
  else
    let threshold := default_fusion_dust_threshold height in
    match (total ← fusion_total threshold 0 (inputs p);
           if (FUSION_FEE_V1_HEIGHT <=? height) && (height <? FUSION_ZERO_FEE_V2_HEIGHT) then checked_sub total FUSION_FEE_V1 else Some total) with
    | None => false
    | Some total => bool_decide (merge_sort Z.le (decompose_amount total threshold) = map o_amount (outputs p))
    end.

(** An integrated address becomes an address and a payment id, the last one's. *)
Definition resolve_integrated `{C : Crypto} (destinations : list (bytes * Z)) (payment_id : bytes) : result WalletError (list (bytes * Z) * bytes) :=
  foldl (λ acc '(address, amount),
    '(l, payment_id) ← acc;
    if negb (is_integrated_address address) then Ok (l ++ [(address, amount)], payment_id)
    else
      parsed ← map_err InvalidAddress (parse_address address);
      Ok (l ++ [(standard_address (spend_public_key parsed) (view_public_key parsed), amount)], default [] (Base58.payment_id parsed)))
    (Ok ([], payment_id)) destinations.

Definition is_fake_outputs_error (e : WalletError) : bool := match e with NotEnoughFakeOutputs => true | _ => false end.

Section Send.
Context `{C : Crypto} `{CurveKeys} `{CurveSecrets} `{TransferRandom W} `{TransferDaemon W} `{Platform W}.

Definition finish (built : Built) (fee mixin : Z) (payment_id change_address : bytes) (change_required network_height : Z) : PreparedTransaction :=
  let tx := b_transaction built in
  let hash := match Transaction.hash tx with Ok h => h | Err _ => replicate 32 0 end in
  mkPrepared tx hash (b_size built) fee mixin payment_id change_address change_required (b_inputs built) (b_outputs built)
    (b_tx_private_key built) (b_tx_public_key built) (b_rings built) (b_pow_nonce built) (b_pow_difficulty built) (b_pow_hashes built)
    (wallet_is_fusion_transaction tx (b_size built) network_height).

(** What the loop over the inputs carries, and how it ends. *)
Record Gathering := mkGathering {
  our_inputs : list OwnedSpendableInput; sum_of_inputs : Z; total_amount_ : Z; change_required_ : Z; required_amount : Z;
  g_destinations : list (bytes * Z) }.

Record SendContext := mkSendContext { sc_params : SendParams; sc_build : BuildContext; sc_change_address : bytes }.

(** One input more: [inl] for [continue], [inr] for [break]. *)
Definition fixed_fee_attempt (c : SendContext) (g : Gathering) (destinations : list TransactionDestination) : SendM W Failure Built :=
  candidate ← make_transaction (sc_build c) (our_inputs g) destinations;
  let min_fee := minimum_transaction_fee (b_size candidate) (bc_network_height (sc_build c)) in
  if min_fee <=? fixed_fee (sp_fee (sc_params c)) then mret candidate else abort (failed FeeTooSmall).

Definition with_totals (g : Gathering) (total change required : Z) (destinations : list (bytes * Z)) : Gathering :=
  mkGathering (our_inputs g) (sum_of_inputs g) total change required destinations.

Definition fee_per_byte_attempt (c : SendContext) (g : Gathering) (destinations : list TransactionDestination)
    : SendM W Failure (Gathering * option Built) :=
  let p := sc_params c in
  let h := bc_network_height (sc_build c) in
  let size := estimate_transaction_size (replicate (length (our_inputs g)) (bc_mixin (sc_build c))) (length destinations)
    (negb (is_empty (bc_payment_id (sc_build c)))) (length (extra_data p)) in
  let fee_per_byte := fee_rate (sp_fee p) h in
  let estimated_fee := transaction_fee size h fee_per_byte in
  let first_amount := match g_destinations g with (_, amount) :: _ => amount | [] => 0 end in
  _ ← check (negb (send_all p && (first_amount <? estimated_fee))) (failed (NotEnoughBalance estimated_fee first_amount));
  let g :=
    if send_all p then
      let total := wrapping_sub 64 (total_amount_ g) estimated_fee in
      with_totals g total (wrapping_sub 64 (sum_of_inputs g) total) (required_amount g)
        (set_first_amount (g_destinations g) (first_amount - estimated_fee))
    else g in
  let estimated_amount := wrapping_add 64 (total_amount_ g) estimated_fee in
  if sum_of_inputs g <? estimated_amount
  then mret (with_totals g (total_amount_ g) (change_required_ g) estimated_amount (g_destinations g), None)
  else
    '(outcome, l) ← try_make_fee_per_byte_transaction (sc_build c) (sum_of_inputs g) (total_amount_ g) estimated_amount fee_per_byte
      (g_destinations g) (sc_change_address c) (our_inputs g) (send_all p);
    match outcome with
    | FeeBuilt built change => mret (with_totals g (total_amount_ g) change (required_amount g) l, Some built)
    | NeedMoreInputs needed => mret (with_totals g (total_amount_ g) (change_required_ g) needed l, None)
    end.

Fixpoint gather (c : SendContext) (available : list OwnedSpendableInput) (g : Gathering) : SendM W Failure (Gathering * option Built) :=
  match available with
  | [] => mret (g, None)
  | input :: available =>
      let g := mkGathering (our_inputs g ++ [input]) (wrapping_add 64 (sum_of_inputs g) (ti_amount (ow_input input)))
        (total_amount_ g) (change_required_ g) (required_amount g) (g_destinations g) in
      if sum_of_inputs g <? total_amount_ g then gather c available g
      else
        let g := with_totals g (total_amount_ g) (sum_of_inputs g - total_amount_ g) (required_amount g) (g_destinations g) in
        destinations ← inner (setup_destinations (g_destinations g) (change_required_ g) (sc_change_address c));
        if is_fixed (sp_fee (sc_params c)) then
          built ← fixed_fee_attempt c g destinations;
          mret (g, Some built)
        else
          '(g, built) ← fee_per_byte_attempt c g destinations;
          match built with
          | Some built => mret (g, Some built)
          | None => gather c available g
          end
  end.

(** Steps 1 to 5: defaults, validation, addresses, and what the loop starts from. *)
Definition send_setup (wal : Wallet) (params : SendParams) (mixin now : Z) : result WalletError (SendContext * list OwnedSpendableInput * Gathering) :=
  change_address ← (if is_empty (change_address params) then ok_or IllegalViewWalletOperation (primary_address wal) else Ok (change_address params));
  let unlock_time := if sp_unlock_time params =? 0 then default_unlock_time (network_height params) else sp_unlock_time params in
  _ ← validate_transaction_parameters wal (destinations params) mixin (sp_fee params) (sp_payment_id params) (addresses_to_take_from params)
        change_address unlock_time (daemon_height params) now;
  '(addresses_and_amounts, payment_id) ← resolve_integrated (destinations params) (sp_payment_id params);
  recipient_view_key ←
    (if (length payment_id =? SHORT_PAYMENT_ID_LENGTH)%nat then
       match addresses_and_amounts with
       | [(address, _)] =>
           parsed ← map_err InvalidAddress (parse_address address);
           Ok (Some (view_public_key parsed))
       | _ => Err (ShortPaymentIdNeedsSingleDestination (length addresses_and_amounts))
       end
     else Ok None);
  spend_keys ← collect (validate_our_address wal) (addresses_to_take_from params);
  available ← spendable_transaction_inputs_at wal (is_empty (addresses_to_take_from params)) spend_keys (network_height params) now;
  let total_amount := foldl (λ acc '(_, a), wrapping_add 64 acc a) 0 addresses_and_amounts in
  let total_amount := if is_fixed (sp_fee params) then wrapping_add 64 total_amount (fixed_fee (sp_fee params)) else total_amount in
  let ctx := mkContext mixin payment_id recipient_view_key (private_view_key (sub_wallets wal)) unlock_time (extra_data params)
    (network_height params) (pow_threads params) false in
  Ok (mkSendContext params ctx change_address, available, mkGathering [] 0 total_amount 0 total_amount addresses_and_amounts).

(** Step 7: the self-checks. *)
Definition self_checks (fee : FeeType) (built : Built) (network_height : Z) : result WalletError Z :=
  _ ← is_transaction_payload_too_big (b_size built) network_height;
  if negb (verify_amounts (b_transaction built)) then Err AmountsNotPretty
  else
    actual_fee ← ok_or (UnexpectedFee (fixed_fee fee) 0) (sum_transaction_fee (b_transaction built));
    if negb (verify_transaction_fee fee actual_fee network_height (b_size built))
    then Err (UnexpectedFee (f64_to_u64 (f64_mul (fee_rate fee network_height) (f64_of_u64 (b_size built)))) actual_fee)
    else Ok actual_fee.

Definition send_transaction_advanced_with_mixin (wal : Wallet) (params : SendParams) (mixin : Z) : SendM W Failure PreparedTransaction :=
  now ← draw now_seconds;
  '(c, available, g) ← inner (send_setup wal params mixin now);
  '(g, built) ← gather c available g;
  let short := failed (NotEnoughBalance (required_amount g) (sum_of_inputs g)) in
  _ ← check (negb (sum_of_inputs g <? required_amount g)) short;
  built ← pure (ok_or short built);
  actual_fee ← inner (self_checks (sp_fee params) built (network_height params));
  mret (finish built actual_fee mixin (bc_payment_id (sc_build c)) (sc_change_address c) (change_required_ g) (network_height params)).

Definition build_with_mixin_fallback (wal : Wallet) (params : SendParams) : SendM W WalletError PreparedTransaction := λ w,
  match send_transaction_advanced_with_mixin wal params (sp_mixin params) w with
  | (Ok p, w) => (Ok p, w)
  | (Err f, w) =>
      if negb (is_fake_outputs_error (error f)) then (Err (error f), w)
      else
        let min := mr_min (mixin_allowable_range (daemon_height params)) in
        match next_fallback_mixin (sp_mixin params) (achievable_mixin f) min with
        | None => (Err (error f), w)
        | Some retry =>
            match send_transaction_advanced_with_mixin wal params retry w with
            | (Ok p, w) => (Ok p, w)
            | (Err f, w) =>
                if is_fake_outputs_error (error f) && (min <? retry) then outer (send_transaction_advanced_with_mixin wal params min) w
                else (Err (error f), w)
            end
        end
  end.

Definition prepare_transaction (wal : Wallet) (params : SendParams) : SendM W WalletError PreparedTransaction := build_with_mixin_fallback wal params.

(** * Relay and record *)

Definition OK : bytes := [79; 75].

Definition relay_transaction (tx_hex : bytes) : SendM W WalletError unit :=
  result ← draw (send_raw_transaction tx_hex);
  match result with
  | Err _ => abort DaemonOffline
  | Ok r => if bool_decide (sd_status r = OK) then mret () else abort DaemonError_
  end.

Definition relay_prepared_transaction (p : PreparedTransaction) : SendM W WalletError unit := relay_transaction (to_hex p).

Definition apply_sent_transaction (wal : Wallet) (p : PreparedTransaction) : Wallet :=
  let wal := store_sent_transaction wal (p_transaction_hash p) (p_fee p) (p_payment_id p) (p_inputs p) (p_change_address p) (p_change_required p) in
  let wal := store_unconfirmed_incoming_inputs wal (p_outputs p) (p_tx_public_key p) (p_transaction_hash p) in
  let wal := store_tx_private_key wal (p_transaction_hash p) (p_tx_private_key p) in
  foldl (λ wal i, (mark_input_as_locked wal (ti_key_image (ow_input i)) (ow_public_spend_key i)).2) wal (p_inputs p).

(** The wallet after, whatever the outcome: a failed relay changes nothing. *)
Definition relay_and_store (wal : Wallet) (p : PreparedTransaction) (w : W) : result WalletError PreparedTransaction * Wallet * W :=
  match relay_transaction (to_hex p) w with
  | (Err e, w) => (Err e, wal, w)
  | (Ok _, w) => (Ok p, apply_sent_transaction wal p, w)
  end.

Definition send_transaction_advanced (wal : Wallet) (params : SendParams) (w : W) : result WalletError PreparedTransaction * Wallet * W :=
  match build_with_mixin_fallback wal params w with
  | (Err e, w) => (Err e, wal, w)
  | (Ok p, w) => relay_and_store wal p w
  end.

Definition send_transaction_basic (wal : Wallet) (destination : bytes) (amount : Z) (payment_id : bytes) (network_height daemon_height : Z)
    (send_all : bool) (w : W) : result WalletError PreparedTransaction * Wallet * W :=
  let p := SendParams_basic destination amount payment_id network_height daemon_height in
  send_transaction_advanced wal
    (mkSendParams (destinations p) (sp_mixin p) (sp_fee p) (sp_payment_id p) (addresses_to_take_from p) (change_address p) (sp_unlock_time p)
       (extra_data p) send_all (Transfer.network_height p) (Transfer.daemon_height p) (pow_threads p)) w.

Definition send_prepared_transaction (wal : Wallet) (p : PreparedTransaction) (network_height : Z) (w : W)
    : result WalletError PreparedTransaction * Wallet * W :=
  let '(now, w) := now_seconds w in
  if forallb (λ i, have_spendable_input_at wal (ow_input i) network_height now) (p_inputs p)
  then relay_and_store wal p w
  else (Err PreparedTransactionExpired, wal, w).

End Send.

(** * Fusion *)

Definition sum_amounts (l : list OwnedSpendableInput) : Z := foldl (λ acc i, wrapping_add 64 acc (ti_amount (ow_input i))) 0 l.

(** [inputs.pop()] *)
Definition drop_last {A} (l : list A) : list A := take (length l - 1) l.

Section Fusion.
Context `{C : Crypto} `{CurveKeys} `{CurveSecrets} `{TransferRandom W} `{TransferDaemon W} `{Platform W}.

Definition validate_fusion_parameters (wal : Wallet) (params : FusionParams) (destination : bytes) : result WalletError unit :=
  _ ← validate_mixin (fp_mixin params) (fp_daemon_height params);
  _ ← collect (validate_our_address wal) (fp_addresses_to_take_from params);
  _ ← validate_our_address wal destination;
  match optimize_target params with
  | Some target => if is_pretty_amount target then Ok () else Err AmountUgly
  | None => Ok ()
  end.

(** One input is dropped at every turn: as many turns as inputs are enough. *)
Fixpoint fusion_loop (fuel : nat) (ctx : BuildContext) (keys : Address) (destination : bytes) (inputs : list OwnedSpendableInput)
    : SendM W WalletError PreparedTransaction :=
  match fuel with
  | O => abort FullyOptimized
  | S fuel =>
      if Z.of_nat (length inputs) <? FUSION_TX_MIN_INPUT_COUNT then abort FullyOptimized
      else
        let h := bc_network_height ctx in
        let amounts := merge_sort Z.le (decompose_amount (sum_amounts inputs) (default_fusion_dust_threshold h)) in
        if Z.of_nat (length inputs) <? FUSION_TX_MIN_IN_OUT_COUNT_RATIO * Z.of_nat (length amounts)
        then fusion_loop fuel ctx keys destination (drop_last inputs)
        else
          let destinations := map (λ a, mkDestination a (spend_public_key keys) (view_public_key keys)) amounts in
          built ← outer (make_transaction ctx inputs destinations);
          _ ← pure (is_transaction_payload_too_big (b_size built) h);
          if FUSION_TX_MAX_SIZE <? b_size built then fusion_loop fuel ctx keys destination (drop_last inputs)
          else if negb (wallet_is_fusion_transaction (b_transaction built) (b_size built) h) then fusion_loop fuel ctx keys destination (drop_last inputs)
          else
            let fee := default 0 (sum_transaction_fee (b_transaction built)) in
            if negb (is_valid_fusion_fee fee h) then abort FeeTooSmall
            else mret (finish built fee (bc_mixin ctx) [] destination 0 h)
  end.

Definition prepare_fusion_transaction (wal : Wallet) (params : FusionParams) : SendM W WalletError PreparedTransaction :=
  now ← draw now_seconds;
  let h := fp_network_height params in
  destination ← pure (if is_empty (fp_destination_address params) then ok_or IllegalViewWalletOperation (primary_address wal) else Ok (fp_destination_address params));
  _ ← pure (validate_fusion_parameters wal params destination);
  _ ← check (negb (approximate_maximum_input_count FUSION_TX_MAX_SIZE FUSION_TX_MIN_IN_OUT_COUNT_RATIO (fp_mixin params) <? FUSION_TX_MIN_INPUT_COUNT))
        FusionMixinTooLarge;
  spend_keys ← pure (collect (validate_our_address wal) (fp_addresses_to_take_from params));
  '(inputs, _, _) ← fusion_transaction_inputs wal (is_empty (fp_addresses_to_take_from params)) spend_keys (fp_mixin params) h now (optimize_target params);
  _ ← check (negb (Z.of_nat (length inputs) <? FUSION_TX_MIN_INPUT_COUNT)) FullyOptimized;
  keys ← pure (map_err InvalidAddress (parse_address destination));
  let ctx := mkContext (fp_mixin params) [] None (private_view_key (sub_wallets wal)) (default_unlock_time h) [] h (fp_pow_threads params) true in
  fusion_loop (length inputs) ctx keys destination inputs.

Definition send_fusion_transaction_advanced (wal : Wallet) (params : FusionParams) (w : W) : result WalletError PreparedTransaction * Wallet * W :=
  match prepare_fusion_transaction wal params w with
  | (Err e, w) => (Err e, wal, w)
  | (Ok p, w) => relay_and_store wal p w
  end.

Definition send_fusion_transaction_basic (wal : Wallet) (network_height daemon_height : Z) (w : W) : result WalletError PreparedTransaction * Wallet * W :=
  send_fusion_transaction_advanced wal (FusionParams_basic network_height daemon_height) w.

End Fusion.

(** * Sweep *)

Definition SWEEP_OUTPUT_ALLOWANCE : Z := 2.
Definition SWEEP_POW_NONCE_OVERHEAD : Z := 9.

Record SweepBatchParams := mkSweepParams {
  sb_destination : bytes; sb_payment_id : bytes; sb_recipient_view_key : option bytes; sb_change_address : bytes; sb_amount_to_sweep : Z;
  sb_unlock_time : Z; sb_network_height : Z; sb_mixin : Z; sb_min_mixin : Z }.

(** [slice::chunks(n)] for [n > 0]; a chunk of at least one is taken at every turn. *)
Fixpoint chunk_loop {A} (fuel n : nat) (l : list A) : list (list A) :=
  match fuel, l with
  | S fuel, _ :: _ => take n l :: chunk_loop fuel n (drop n l)
  | _, _ => []
  end.

Definition chunks {A} (n : nat) (l : list A) : list (list A) := chunk_loop (length l) n l.

(** The inputs that cover the amount and a fee for each batch they make. *)
Fixpoint needed_inputs (amount_to_sweep max_inputs_per_tx fee_per_batch : Z) (sum : Z) (needed l : list OwnedSpendableInput) : list OwnedSpendableInput :=
  match l with
  | [] => needed
  | input :: l =>
      let sum := saturating_add 64 sum (ti_amount (ow_input input)) in
      let needed := needed ++ [input] in
      let batch_count := div_ceil (Z.of_nat (length needed)) max_inputs_per_tx in
      if saturating_add 64 amount_to_sweep (saturating_mul 64 batch_count fee_per_batch) <=? sum then needed
      else needed_inputs amount_to_sweep max_inputs_per_tx fee_per_batch sum needed l
  end.

Definition sweep_batches `{Platform W} (wal : Wallet) (payment_id : bytes) (amount_to_sweep network_height mixin : Z) (w : W)
    : option (list (list OwnedSpendableInput)) * W :=
  let max_inputs_per_tx := approximate_maximum_input_count (wallet_max_tx_size network_height) SWEEP_OUTPUT_ALLOWANCE mixin in
  if max_inputs_per_tx =? 0 then (None, w)
  else
    let '(now, w) := now_seconds w in
    match spendable_transaction_inputs_at wal true [] network_height now with
    | Err _ | Ok [] => (None, w)
    | Ok all =>
        let worst_case_size := estimate_transaction_size (replicate (Z.to_nat max_inputs_per_tx) mixin) 1 (negb (is_empty payment_id)) 0 in
        let fee_per_batch := minimum_transaction_fee worst_case_size network_height in
        let all := if 0 <? amount_to_sweep then needed_inputs amount_to_sweep max_inputs_per_tx fee_per_batch 0 [] all else all in
        (Some (chunks (Z.to_nat max_inputs_per_tx) all), w)
    end.

(** How many outputs what is left after the fee splits into. *)
Definition sweep_outputs (amount_to_sweep available : Z) : nat :=
  if 0 <? amount_to_sweep then
    let dest := Z.min amount_to_sweep available in
    let change := saturating_sub available amount_to_sweep in
    (length (split_amount_into_denominations dest true) + (if (0 <? change)%Z then length (split_amount_into_denominations change true) else 0))%nat
  else length (split_amount_into_denominations available true).

Fixpoint fee_fixed_point (rounds : nat) (batch_len : nat) (batch_sum : Z) (payment_id : bytes) (amount_to_sweep network_height mixin : Z)
    (num_outputs : nat) (estimated_fee : Z) : Z :=
  match rounds with
  | O => estimated_fee
  | S rounds =>
      let size := wrapping_add 64 (estimate_transaction_size (replicate batch_len mixin) num_outputs (negb (is_empty payment_id)) 0) SWEEP_POW_NONCE_OVERHEAD in
      let estimated_fee := minimum_transaction_fee size network_height in
      if batch_sum <=? estimated_fee then estimated_fee
      else
        let new_num_outputs := sweep_outputs amount_to_sweep (batch_sum - estimated_fee) in
        if (new_num_outputs =? num_outputs)%nat then estimated_fee
        else fee_fixed_point rounds batch_len batch_sum payment_id amount_to_sweep network_height mixin new_num_outputs estimated_fee
  end.

Definition sweep_batch_fee_estimate (batch_len : nat) (batch_sum : Z) (payment_id : bytes) (amount_to_sweep network_height mixin : Z) : Z :=
  fee_fixed_point 3 batch_len batch_sum payment_id amount_to_sweep network_height mixin 1 0.

(** The fee in all batches that would be sent, [(0, 0)] when there is none. *)
Definition estimate_sweep `{Platform W} (wal : Wallet) (payment_id : bytes) (amount_to_sweep height : Z) (w : W) : Z * Z * W :=
  let mixin := mr_default (mixin_allowable_range height) in
  match sweep_batches wal payment_id amount_to_sweep height mixin w with
  | (None, w) => (0, 0, w)
  | (Some batches, w) =>
      let '(tx_count, total_fee) :=
        foldl (λ '(n, total) batch,
          let batch_sum := sum_amounts batch in
          let fee := sweep_batch_fee_estimate (length batch) batch_sum payment_id amount_to_sweep height mixin in
          if batch_sum <=? fee then (n, total) else (n + 1, wrapping_add 64 total fee)) (0, 0) batches in
      (tx_count, total_fee, w)
  end.

Section Sweep.
Context `{C : Crypto} `{CurveKeys} `{CurveSecrets} `{TransferRandom W} `{TransferDaemon W} `{Platform W}.

Definition batch_context (wal : Wallet) (params : SweepBatchParams) (threads : nat) (mixin : Z) : BuildContext :=
  mkContext mixin (sb_payment_id params) (sb_recipient_view_key params) (private_view_key (sub_wallets wal)) (sb_unlock_time params) []
    (sb_network_height params) threads false.

(** The two retries at a smaller ring; the mixin of the last build comes with its result. *)
Fixpoint ring_retries (attempts : list bool) (ctx : Z → BuildContext) (params : SweepBatchParams) (batch : list OwnedSpendableInput)
    (destinations : list TransactionDestination) (mixin : Z) (r : result Failure Built) (w : W) : Z * result Failure Built * W :=
  match attempts, r with
  | first :: attempts, Err f =>
      if negb (is_fake_outputs_error (error f)) then (mixin, r, w)
      else
        let achievable := if first : bool then achievable_mixin f else sb_min_mixin params in
        match next_fallback_mixin mixin achievable (sb_min_mixin params) with
        | None => (mixin, r, w)
        | Some retry =>
            let '(r, w) := make_transaction (ctx retry) batch destinations w in
            ring_retries attempts ctx params batch destinations retry r w
        end
  | _, _ => (mixin, r, w)
  end.

(** The three rounds: the transaction with its mixin, change and fee, or the fee the last
    round asked for. *)
Fixpoint batch_rounds (rounds : nat) (wal : Wallet) (batch : list OwnedSpendableInput) (batch_sum : Z) (params : SweepBatchParams)
    (mixin batch_fee : Z) : SendM W WalletError (Built * Z * Z * Z + Z) :=
  match rounds with
  | O => mret (inr batch_fee)
  | S rounds =>
      _ ← check (negb (batch_sum <=? batch_fee)) (NotEnoughBalance batch_fee batch_sum);
      let available := batch_sum - batch_fee in
      let to_sweep := sb_amount_to_sweep params in
      let destination_amount := if 0 <? to_sweep then Z.min to_sweep available else available in
      let change_required := if (0 <? to_sweep) && (to_sweep <? available) then available - to_sweep else 0 in
      destinations ← pure (setup_destinations [(sb_destination params, destination_amount)] change_required (sb_change_address params));
      threads ← draw available_threads;
      let ctx := batch_context wal params threads in
      r ← (λ w, let '(r, w) := make_transaction (ctx mixin) batch destinations w in
                let '(m, r, w) := ring_retries [true; false] ctx params batch destinations mixin r w in (Ok (m, r), w));
      let '(mixin, r) := r in
      candidate ← pure (map_err error r);
      let required_fee := minimum_transaction_fee (b_size candidate) (sb_network_height params) in
      if required_fee <=? batch_fee then mret (inl (candidate, mixin, change_required, batch_fee))
      else batch_rounds rounds wal batch batch_sum params mixin required_fee
  end.

Definition prepare_batch (wal : Wallet) (batch : list OwnedSpendableInput) (batch_sum batch_fee : Z) (params : SweepBatchParams)
    : SendM W WalletError PreparedTransaction :=
  r ← batch_rounds 3 wal batch batch_sum params (sb_mixin params) batch_fee;
  match r with
  | inr fee => abort (NotEnoughBalance fee batch_sum)
  | inl (built, mixin, change_required, fee) =>
      _ ← pure (is_transaction_payload_too_big (b_size built) (sb_network_height params));
      _ ← check (verify_amounts (b_transaction built)) AmountsNotPretty;
      actual_fee ← pure (ok_or (UnexpectedFee fee 0) (sum_transaction_fee (b_transaction built)));
      mret (finish built actual_fee mixin (sb_payment_id params) (sb_change_address params) change_required (sb_network_height params))
  end.

(** The result, the wallet after it, and what [on_sent] was handed. *)
Definition sweep_one_batch (wal : Wallet) (batch : list OwnedSpendableInput) (batch_sum batch_fee : Z) (params : SweepBatchParams) (w : W)
    : result WalletError Hash * Wallet * list PreparedTransaction * W :=
  match prepare_batch wal batch batch_sum batch_fee params w with
  | (Err e, w) => (Err e, wal, [], w)
  | (Ok p, w) =>
      match relay_and_store wal p w with
      | (Err e, wal, w) => (Err e, wal, [], w)
      | (Ok p, wal, w) => (Ok (p_transaction_hash p), wal, [p], w)
      end
  end.

Fixpoint sweep_loop (wal : Wallet) (batches : list (list OwnedSpendableInput)) (params : SweepBatchParams) (w : W)
    : list (result WalletError Hash) * Wallet * list PreparedTransaction * W :=
  match batches with
  | [] => ([], wal, [], w)
  | batch :: batches =>
      let batch_sum := sum_amounts batch in
      let fee := sweep_batch_fee_estimate (length batch) batch_sum (sb_payment_id params) (sb_amount_to_sweep params) (sb_network_height params) (sb_mixin params) in
      let '(r, wal, sent, w) :=
        if batch_sum <=? fee then (Err (NotEnoughBalance fee batch_sum), wal, [], w) else sweep_one_batch wal batch batch_sum fee params w in
      let '(results, wal, later, w) := sweep_loop wal batches params w in
      (r :: results, wal, sent ++ later, w)
  end.

(** What a batch is sent with, or why nothing is. *)
Definition sweep_params (wal : Wallet) (destination payment_id : bytes) (amount_to_sweep height : Z) : result WalletError SweepBatchParams :=
  if is_view_wallet (sub_wallets wal) then Err IllegalViewWalletOperation
  else
    parsed ← map_err InvalidAddress (parse_address destination);
    let '(resolved_destination, resolved_payment_id) :=
      match Base58.payment_id parsed with
      | Some embedded =>
          (standard_address (spend_public_key parsed) (view_public_key parsed), if is_empty payment_id then embedded else payment_id)
      | None => (destination, payment_id)
      end in
    _ ← validate_payment_id resolved_payment_id;
    let recipient := if (length resolved_payment_id =? SHORT_PAYMENT_ID_LENGTH)%nat then Some (view_public_key parsed) else None in
    let range := mixin_allowable_range height in
    change_address ← ok_or IllegalViewWalletOperation (primary_address wal);
    let max_size := wallet_max_tx_size height in
    if approximate_maximum_input_count max_size SWEEP_OUTPUT_ALLOWANCE (mr_default range) =? 0 then Err (TooManyInputsToFitInBlock 0 max_size)
    else
      Ok (mkSweepParams resolved_destination resolved_payment_id recipient change_address amount_to_sweep (default_unlock_time height) height
            (mr_default range) (mr_min range)).

Definition sweep_to_address_reporting (wal : Wallet) (destination payment_id : bytes) (amount_to_sweep height : Z) (w : W)
    : list (result WalletError Hash) * Wallet * list PreparedTransaction * W :=
  match sweep_params wal destination payment_id amount_to_sweep height with
  | Err e => ([Err e], wal, [], w)
  | Ok params =>
      match sweep_batches wal (sb_payment_id params) amount_to_sweep height (sb_mixin params) w with
      | (None, w) => ([Err (NotEnoughBalance amount_to_sweep 0)], wal, [], w)
      | (Some batches, w) => sweep_loop wal batches params w
      end
  end.

Definition sweep_to_address (wal : Wallet) (destination payment_id : bytes) (amount_to_sweep height : Z) (w : W)
    : list (result WalletError Hash) * Wallet * W :=
  let '(results, wal, _, w) := sweep_to_address_reporting wal destination payment_id amount_to_sweep height w in (results, wal, w).

End Sweep.
