(* ===== verification/TransferSpec.v ===== *)
(** What the wallet's transactions are worth (crates/wrkz-wallet/src/transfer.rs): the pieces
    an amount is paid in, what selection selects, that every search and loop ends, and that
    the node's validator accepts what the wallet builds. *)
From stdpp Require Import gmap sets sorting.
From S2P Require Import Prelude Constants F64 Hashing Cryptonight Curve Varint Ser Tx TxExtra Base58 Fees Reward Windows Records Validate Accept.
From S2P Require Import Wallet WalletSync Transfer.
Local Open Scope Z_scope.

(** * Denominations *)

(** The node refuses an output above [MAX_OUTPUT_SIZE_NODE]; the wallet stays far below. *)
Definition piece_ok (x : Z) : Prop := is_pretty_amount x = true ∧ 0 < x ≤ MAX_OUTPUT_SIZE_CLIENT.

Definition piece_check (d : Z) : bool :=
  if MAX_OUTPUT_SIZE_CLIENT <? d then
    let '(piece, n) := split_piece 20 (d / 10) 10 in
    (piece * n =? d) && (0 <=? n) && is_pretty_amount piece && (0 <? piece) && (piece <=? MAX_OUTPUT_SIZE_CLIENT)
  else is_pretty_amount d.

Lemma pieces_checked (k : nat) c : (k < 20)%nat → 1 ≤ c ≤ 9 → c * 10 ^ Z.of_nat k < 2 ^ 64 → piece_check (c * 10 ^ Z.of_nat k) = true.
Proof.
  intros Hk Hc Hb.
  assert (forallb (λ k, forallb (λ c, (2 ^ 64 <=? c * 10 ^ Z.of_nat k) || piece_check (c * 10 ^ Z.of_nat k)) (seqZ 1 9)) (seq 0 20) = true)
    as Hall by (vm_compute; reflexivity).
  rewrite forallb_forall in Hall. specialize (Hall k ltac:(apply in_seq; lia)). rewrite forallb_forall in Hall.
  specialize (Hall c ltac:(apply list_elem_of_In, elem_of_seqZ; lia)). apply orb_true_iff in Hall as [?%Z.leb_le|]; [lia|done].
Qed.

Lemma total_replicate n x : total (replicate n x) = Z.of_nat n * x.
Proof. induction n as [|n IH]; cbn [replicate total foldr]; [lia|]. fold (total (replicate n x)). rewrite IH. lia. Qed.

Lemma split_denomination_spec (k : nat) c : (k < 20)%nat → 0 ≤ c ≤ 9 → c * 10 ^ Z.of_nat k < 2 ^ 64 →
  total (split_denomination (c * 10 ^ Z.of_nat k) true) = c * 10 ^ Z.of_nat k ∧ Forall piece_ok (split_denomination (c * 10 ^ Z.of_nat k) true).
Proof.
  intros Hk Hc Hb. destruct (decide (c = 0)) as [->|Hn]; [by split; [|constructor]|].
  pose proof (pieces_checked k c Hk ltac:(lia) Hb) as Hp. pose proof (Z.pow_pos_nonneg 10 (Z.of_nat k) ltac:(lia) ltac:(lia)) as H10.
  set (d := c * 10 ^ Z.of_nat k) in *. assert (0 < d) by nia. unfold split_denomination, piece_check in *. rewrite andb_true_r.
  destruct (MAX_OUTPUT_SIZE_CLIENT <? d) eqn:E.
  - destruct (split_piece 20 (d / 10) 10) as [piece n]. bool_hyps. rewrite total_replicate, Z2Nat.id by lia. split; [lia|].
    apply Forall_replicate. split; [done|lia].
  - destruct (d =? 0) eqn:E0; bool_hyps; [lia|]. cbn. split; [lia|]. constructor; [|done]. split; [done|lia].
Qed.

Lemma split_loop_spec n (k : nat) m a : (n + k = 20)%nat → 0 ≤ a < 10 ^ Z.of_nat n → a * 10 ^ Z.of_nat k < 2 ^ 64 → (0 < a → m = 10 ^ Z.of_nat k) →
  total (split_loop n m a true) = a * 10 ^ Z.of_nat k ∧ Forall piece_ok (split_loop n m a true).
Proof.
  revert k m a. induction n as [|n IH]; intros k m a Hnk Ha Hb Hm; [cbn in *; assert (a = 0) as -> by lia; by split; [|constructor]|].
  cbn [split_loop]. destruct (0 <? a) eqn:E; bool_hyps; [|assert (a = 0) as -> by lia; by split; [|constructor]].
  rewrite (Hm ltac:(lia)). pose proof (Z.div_mod a 10 ltac:(lia)) as Hd. pose proof (Z.mod_pos_bound a 10 ltac:(lia)) as Hr.
  pose proof (Z.pow_pos_nonneg 10 (Z.of_nat k) ltac:(lia) ltac:(lia)) as H10.
  assert (10 ^ Z.of_nat (S k) = 10 * 10 ^ Z.of_nat k) as Hp by (rewrite Nat2Z.inj_succ, Z.pow_succ_r; lia).
  rewrite Nat2Z.inj_succ, Z.pow_succ_r in Ha by lia.
  assert (wrapping_mul 64 (10 ^ Z.of_nat k) (a mod 10) = a mod 10 * 10 ^ Z.of_nat k) as -> by (unfold wrapping_mul; rewrite wrap_small by (unfold in_u; nia); lia).
  destruct (split_denomination_spec k (a mod 10)) as [Hs1 Hs2]; [lia|lia|nia|].
  destruct (IH (S k) (wrapping_mul 64 (10 ^ Z.of_nat k) 10) (a / 10)) as [Hs3 Hs4]; [lia|lia|rewrite Hp; nia| |].
  { intros. rewrite Hp. unfold wrapping_mul. rewrite wrap_small by (unfold in_u; nia). lia. }
  rewrite total_app, Hs1, Hs3, Forall_app. split; [|done]. rewrite Hp. nia.
Qed.

Lemma split_amount_pieces amount : is_u64 amount →
  total (split_amount_into_denominations amount true) = amount ∧ Forall piece_ok (split_amount_into_denominations amount true).
Proof.
  intros [? ?]. destruct (split_loop_spec 20 0 1 amount) as [H1 H2]; [done|split; [lia|]; apply Z.lt_trans with (2 ^ 64); [lia|reflexivity]|lia|done|].
  unfold split_amount_into_denominations. split; [rewrite H1; lia|exact H2].
Qed.

Lemma split_loop_digits n m a out h : 0 ≤ a → (0 < a → 0 < m ∧ a * m < 2 ^ 64) →
  decompose_loop n 0 out h 0 m a = (out ++ split_loop n m a false, h, 0).
Proof.
  revert m a out. induction n as [|n IH]; intros m a out Ha Hm; cbn [decompose_loop split_loop]; [by rewrite app_nil_r|].
  destruct (0 <? a) eqn:E; bool_hyps; [|by rewrite app_nil_r]. destruct (Hm ltac:(lia)) as [Hm0 Hb].
  pose proof (Z.div_mod a 10 ltac:(lia)) as Hd. pose proof (Z.mod_pos_bound a 10 ltac:(lia)) as Hr.
  assert (wrapping_mul 64 m (a mod 10) = a mod 10 * m) as -> by (unfold wrapping_mul; rewrite wrap_small by (unfold in_u; nia); lia).
  assert (0 < a / 10 → 0 < wrapping_mul 64 m 10 ∧ a / 10 * wrapping_mul 64 m 10 < 2 ^ 64) as Hn.
  { intros. unfold wrapping_mul. rewrite wrap_small by (unfold in_u; nia). nia. }
  unfold split_denomination. rewrite andb_false_r. destruct (0 + a mod 10 * m <=? 0) eqn:E1; bool_hyps.
  - assert (a mod 10 * m = 0) as -> by nia. cbn [negb Z.eqb app]. rewrite IH by (nia || exact Hn). done.
  - assert ((a mod 10 * m =? 0) = false) as -> by lia. rewrite andb_false_r. cbn [negb]. rewrite IH by (nia || exact Hn). by rewrite <- app_assoc.
Qed.

(** C23. The pieces the wallet pays an amount in add up to it, and each has one significant
    digit and is at most 500,000,000,000; with the cap off they are the digits that
    [decompose_amount], the daemon's rule, gives. *)
Theorem denominations_spec amount : is_u64 amount →
  total (split_amount_into_denominations amount true) = amount ∧
  Forall (λ x, is_pretty_amount x = true ∧ 0 < x ≤ MAX_OUTPUT_SIZE_CLIENT) (split_amount_into_denominations amount true) ∧
  split_amount_into_denominations amount false = decompose_amount amount 0.
Proof.
  intros Hu. destruct (split_amount_pieces amount Hu) as [H1 H2]. split_and!; [exact H1|exact H2|].
  destruct Hu. unfold decompose_amount. rewrite split_loop_digits by lia. done.
Qed.

Lemma denominations_spec_witness :
  total (split_amount_into_denominations 9_000_000_000_123 true) = 9_000_000_000_123 ∧ length (split_amount_into_denominations 9_000_000_000_123 true) = 103%nat.
Proof. split; [apply (denominations_spec 9_000_000_000_123); unfold in_u; lia|vm_compute; reflexivity]. Defined.

(** * Selection *)

Section Sorting.
Context {A : Type} (f : A → Z).

Lemma insert_by_key_Permutation x l : insert_by_key f x l ≡ₚ x :: l.
Proof. induction l as [|y l IH]; cbn [insert_by_key]; [done|]. destruct (f x <=? f y); [done|]. rewrite IH. apply Permutation_swap. Qed.

Lemma sort_by_key_Permutation l : sort_by_key f l ≡ₚ l.
Proof. induction l as [|x l IH]; [done|]. cbn. rewrite insert_by_key_Permutation. by apply Permutation_skip. Qed.

Lemma insert_by_key_sorted x l : StronglySorted (λ a b, f a ≤ f b) l → StronglySorted (λ a b, f a ≤ f b) (insert_by_key f x l).
Proof.
  induction 1 as [|y l Hs IH Hy]; cbn [insert_by_key]; [by repeat constructor|]. destruct (f x <=? f y) eqn:E; bool_hyps.
  - constructor; [by constructor|]. constructor; [lia|]. eapply Forall_impl; [exact Hy|]. cbn. lia.
  - constructor; [done|]. rewrite insert_by_key_Permutation. constructor; [lia|done].
Qed.

Lemma sort_by_key_sorted l : StronglySorted (λ a b, f a ≤ f b) (sort_by_key f l).
Proof. induction l as [|x l IH]; [constructor|]. by apply insert_by_key_sorted. Qed.

End Sorting.

Lemma StronglySorted_mono {A} (R R' : relation A) l : (∀ a b, R a b → R' a b) → StronglySorted R l → StronglySorted R' l.
Proof. intros HR. induction 1 as [|x l Hs IH Hx]; constructor; [done|]. eapply Forall_impl; [exact Hx|]. auto. Qed.

Lemma StronglySorted_filter {A} (R : relation A) (P : A → Prop) `{∀ x, Decision (P x)} l : StronglySorted R l → StronglySorted R (filter P l).
Proof.
  induction 1 as [|x l Hs IH Hx]; [constructor|]. rewrite filter_cons. case_decide; [|done]. constructor; [done|].
  apply Forall_forall. intros y [_ Hy]%list_elem_of_filter. by eapply Forall_forall in Hx.
Qed.

Section Buckets.
Context {A : Type} (f : A → Z).

(** A [BTreeMap]: ascending keys, and every bucket holds inputs of its key, at least one. *)
Definition bucket_ok (kb : Z * list A) : Prop := kb.2 ≠ [] ∧ Forall (λ x, f x = kb.1) kb.2.
Definition buckets_ok (l : list (Z * list A)) : Prop := StronglySorted Z.lt l.*1 ∧ Forall bucket_ok l.
Definition of_key (d : Z) (l : list (Z * list A)) : list A := filter (λ x, f x = d) (concat l.*2).

Lemma of_key_cons d k b l : of_key d ((k, b) :: l) = filter (λ x, f x = d) b ++ of_key d l.
Proof. apply filter_app. Qed.

Lemma filter_key_all k b : Forall (λ x, f x = k) b → filter (λ x, f x = k) b = b.
Proof. induction 1 as [|x b Hx _ IH]; [done|]. rewrite filter_cons, decide_True by done. by rewrite IH. Qed.

Lemma filter_key_none d k b : Forall (λ x, f x = k) b → k ≠ d → filter (λ x, f x = d) b = [].
Proof. induction 1 as [|x b Hx _ IH]; [done|]. intros. rewrite filter_cons, decide_False by congruence. auto. Qed.

Lemma of_key_absent d l : buckets_ok l → Forall (λ k, d < k) l.*1 → of_key d l = [].
Proof.
  intros [_ Hok] Hk. induction l as [|[k b] l IH]; [done|]. inversion_clear Hok as [|?? [_ Hb] ?]. inversion_clear Hk.
  rewrite of_key_cons, (filter_key_none d k b) by (done || lia). auto.
Qed.

Lemma bucket_push_keys k (x : A) l d : d ∈ (bucket_push k x l).*1 → d = k ∨ d ∈ l.*1.
Proof.
  induction l as [|[k' b] l IH]; cbn [bucket_push fmap list_fmap fst]; [intros ->%list_elem_of_singleton; by left|].
  destruct (k =? k'); [by right|]. destruct (k <? k'); cbn [fmap list_fmap fst]; rewrite !elem_of_cons; tauto.
Qed.

Lemma bucket_push_ok x l : buckets_ok l → buckets_ok (bucket_push (f x) x l).
Proof.
  intros [Hs Hok]. induction l as [|[k b] l IH]; cbn [bucket_push]; [by repeat constructor|].
  inversion_clear Hs as [|?? Hs' Hk]. inversion_clear Hok as [|?? [Hn Hb] Hok']. cbn [fst snd] in *. destruct (f x =? k) eqn:E; bool_hyps.
  - split; [by constructor|]. constructor; [|done]. split; cbn; [by destruct b|]. apply Forall_app. split; [done|]. by repeat constructor.
  - destruct (f x <? k) eqn:E'; bool_hyps.
    + split; cbn; constructor; [by constructor| |by repeat constructor|by constructor]. constructor; [lia|]. eapply Forall_impl; [exact Hk|]. cbn. lia.
    + destruct (IH Hs' Hok') as [H1 H2]. split; cbn; constructor; [done| |done|done].
      apply Forall_forall. intros d [->|Hd]%bucket_push_keys; [lia|]. by eapply Forall_forall in Hk.
Qed.

Lemma bucket_push_of_key x l d : buckets_ok l → of_key d (bucket_push (f x) x l) = of_key d l ++ filter (λ y, f y = d) [x].
Proof.
  intros [Hs Hok]. induction l as [|[k b] l IH]; cbn [bucket_push]; [done|].
  inversion_clear Hs as [|?? Hs' Hk]. inversion_clear Hok as [|?? [Hn Hb] Hok']. cbn [fst snd] in *. destruct (f x =? k) eqn:E; bool_hyps.
  - rewrite !of_key_cons, filter_app. destruct (decide (k = d)) as [->|Hd].
    + rewrite (of_key_absent d l) by done. by rewrite !app_nil_r.
    + rewrite filter_cons, filter_nil, decide_False by congruence. by rewrite !app_nil_r.
  - destruct (f x <? k) eqn:E'; bool_hyps; [|rewrite !of_key_cons, IH by done; by rewrite app_assoc].
    rewrite (of_key_cons _ (f x)), filter_cons, filter_nil. case_decide as Hd; [|by rewrite app_nil_r].
    rewrite (of_key_absent d ((k, b) :: l)); [done|by split; constructor|]. subst d. cbn. constructor; [lia|]. eapply Forall_impl; [exact Hk|]. cbn. lia.
Qed.

Lemma bucket_push_Permutation k (x : A) l : concat (bucket_push k x l).*2 ≡ₚ x :: concat l.*2.
Proof.
  induction l as [|[k' b] l IH]; cbn [bucket_push]; [done|]. destruct (k =? k'); [|destruct (k <? k'); [done|]]; cbn.
  - rewrite <- app_assoc. symmetry. apply Permutation_middle.
  - rewrite IH. symmetry. apply Permutation_middle.
Qed.

Lemma buckets_fold_Permutation l m : concat (foldl (λ m x, bucket_push (f x) x m) m l).*2 ≡ₚ concat m.*2 ++ l.
Proof.
  revert m. induction l as [|x l IH]; intros m; cbn [foldl]; [by rewrite app_nil_r|]. rewrite IH, bucket_push_Permutation. apply Permutation_middle.
Qed.

Lemma buckets_fold l m : buckets_ok m →
  buckets_ok (foldl (λ m x, bucket_push (f x) x m) m l) ∧ ∀ d, of_key d (foldl (λ m x, bucket_push (f x) x m) m l) = of_key d m ++ filter (λ x, f x = d) l.
Proof.
  revert m. induction l as [|x l IH]; intros m Hm; cbn [foldl]; [split; [done|]; intros; by rewrite filter_nil, app_nil_r|].
  destruct (IH (bucket_push (f x) x m)) as [H1 H2]; [by apply bucket_push_ok|]. split; [done|]. intros d.
  rewrite H2, bucket_push_of_key by done. by rewrite <- app_assoc, <- filter_app.
Qed.

End Buckets.

Lemma pop_snoc {A} (b : list A) x : pop (b ++ [x]) = Some (x, b).
Proof. unfold pop. by rewrite reverse_snoc, reverse_involutive. Qed.

Section RoundRobin.
Context {A : Type} (f : A → Z).
Implicit Types l : list (Z * list A).

(** The turn takes the last of each bucket: what is left of a key comes after it. *)
Lemma round_turn_key k (b : list A) (x : A) t l r d : Forall (λ y, f y = k) (b ++ [x]) → buckets_ok f l → Forall (λ k', k < k') l.*1 →
  reverse (of_key f d l) = filter (λ y, f y = d) t ++ reverse (of_key f d r) →
  reverse (of_key f d ((k, b ++ [x]) :: l)) = filter (λ y, f y = d) (x :: t) ++ reverse (filter (λ y, f y = d) b ++ of_key f d r).
Proof.
  intros [Hb [Hx _]%Forall_cons]%Forall_app Hl Hk Hord. rewrite of_key_cons, filter_app, !reverse_app. destruct (decide (k = d)) as [->|Hd].
  - rewrite (of_key_absent f d l) in Hord |- * by done. rewrite reverse_nil in Hord. symmetry in Hord. apply app_eq_nil in Hord as [Ht Hr].
    rewrite Hr, !(filter_cons_True (λ y, f y = d) x) by done. by rewrite Ht, filter_nil.
  - rewrite Hord, (filter_key_none f d k b) by done. rewrite !(filter_cons_False (λ y, f y = d) x) by congruence. by rewrite filter_nil, !reverse_nil, !app_nil_r.
Qed.

Lemma round_turn_spec l taken l' : buckets_ok f l → round_turn l = (taken, l') →
  buckets_ok f l' ∧ (∀ P, Forall P l.*1 → Forall P l'.*1) ∧ taken ++ concat l'.*2 ≡ₚ concat l.*2 ∧ length taken = length l ∧
  ∀ d, reverse (of_key f d l) = filter (λ x, f x = d) taken ++ reverse (of_key f d l').
Proof.
  revert taken l'. induction l as [|[k b] l IH]; intros taken l' [Hs Hok]; cbn [round_turn].
  { intros [= <- <-]. split_and!; try done. }
  inversion_clear Hs as [|?? Hs' Hk]. inversion_clear Hok as [|?? [Hn Hb] Hok']. cbn [fst snd] in *.
  destruct (round_turn l) as [t r] eqn:E. destruct (IH t r) as ([Hr1 Hr2] & Hsub & Hperm & Hlen & Hord); [done..|].
  destruct (exists_last Hn) as (b' & x' & ->). rename b' into b. rewrite pop_snoc. intros [= <- <-].
  pose proof (λ d, round_turn_key k b x' t l r d Hb (conj Hs' Hok') Hk (Hord d)) as Hkey. apply Forall_app in Hb as [Hb _].
  assert (t ++ b ++ concat r.*2 ≡ₚ b ++ concat l.*2) as Hp by (rewrite <- Hperm, !app_assoc; apply Permutation_app_tail, Permutation_app_comm).
  destruct (length b =? 0)%nat eqn:E0.
  - assert (b = []) as -> by (destruct b; [done|discriminate]). split_and!; [by split| | | |done]; cbn.
    + intros P [_ ?]%Forall_cons. auto.
    + apply Permutation_skip. exact Hp.
    + by rewrite Hlen.
  - split_and!; [| | | |intros d; rewrite (of_key_cons f d k b r); apply Hkey]; cbn.
    + split; cbn; constructor; [done|auto| |done]. split; cbn; [by destruct b|done].
    + intros P [? ?]%Forall_cons. constructor; auto.
    + rewrite Hp, <- app_assoc. apply Permutation_middle.
    + by rewrite Hlen.
Qed.

Lemma round_robin_spec fuel l : buckets_ok f l → (length (concat l.*2) ≤ fuel)%nat →
  round_robin fuel l ≡ₚ concat l.*2 ∧ ∀ d, filter (λ x, f x = d) (round_robin fuel l) = reverse (of_key f d l).
Proof.
  revert l. induction fuel as [|fuel IH]; intros l Hl Hn.
  - destruct l as [|[k b] l]; [done|]. destruct Hl as [_ Hok]. inversion_clear Hok as [|?? [Hb _] _]. cbn in *. rewrite length_app in Hn. destruct b; [done|cbn in Hn; lia].
  - destruct l as [|kb l]; [done|]. cbn [round_robin]. destruct (round_turn (kb :: l)) as [t r] eqn:E.
    destruct (round_turn_spec _ _ _ Hl E) as (Hr & _ & Hperm & Hlen & Hord).
    destruct (IH r Hr) as [H1 H2]. { apply Permutation_length in Hperm. rewrite length_app in Hperm. cbn [length] in Hlen. lia. }
    split; [by rewrite H1|]. intros d. by rewrite filter_app, H2, Hord.
Qed.

End RoundRobin.

Lemma selection_facts w take_from_all take_from height now l :
  spendable_transaction_inputs_at w take_from_all take_from height now = Ok l →
  ∃ available, available_inputs w take_from_all take_from height now = Ok available ∧ l ≡ₚ available ∧
    ∀ d, StronglySorted (λ a b, ti_amount (ow_input a) ≤ ti_amount (ow_input b)) (filter (λ i, digit_count (ti_amount (ow_input i)) = d) l).
Proof.
  unfold spendable_transaction_inputs_at. intros (available & Ha & [= <-])%result_bind_Ok. exists available. split; [done|].
  set (s := sort_by_key _ available). set (f := λ i, digit_count (ti_amount (ow_input i))).
  destruct (buckets_fold f s []) as [Hok Hkey]; [by repeat constructor|]. fold (buckets_of s) in Hok, Hkey.
  assert (concat (buckets_of s).*2 ≡ₚ s) as Hperm by apply (buckets_fold_Permutation f s []).
  destruct (round_robin_spec f (length s) (buckets_of s) Hok) as [H1 H2]; [by rewrite (Permutation_length Hperm)|].
  split; [rewrite H1, Hperm; apply sort_by_key_Permutation|]. intros d. change (StronglySorted (λ a b, ti_amount (ow_input a) ≤ ti_amount (ow_input b)) (filter (λ i, f i = d) (round_robin (length s) (buckets_of s)))).
  rewrite H2, Hkey. cbn [app].
  apply StronglySorted_reverse. eapply StronglySorted_mono; [|apply StronglySorted_filter, sort_by_key_sorted]. unfold flip. cbn. lia.
Qed.

(** Selection takes every unlocked input of the subwallets asked for, once; among the
    inputs whose amounts have the same number of digits, the smaller come first. *)
Theorem selection_spec w take_from_all take_from height now l :
  spendable_transaction_inputs_at w take_from_all take_from height now = Ok l →
  ∃ available, available_inputs w take_from_all take_from height now = Ok available ∧ l ≡ₚ available ∧
    ∀ d, StronglySorted (λ a b, ti_amount (ow_input a) ≤ ti_amount (ow_input b)) (filter (λ i, digit_count (ti_amount (ow_input i)) = d) l).
Proof. apply selection_facts. Qed.

(** * The nonce search *)

Section Search.
Context `{C : Crypto}.
#[local] Opaque check_hash cn_upx_hash.

Definition solves (prefix : bytes) (difficulty n : Z) : Prop := check_hash (cn_upx_hash (with_nonce prefix (to_le_bytes 8 n))) difficulty = true.

Definition nth_nonce (start step k : Z) : Z := wrap 64 (start + k * step).

(** The first solution of the class, or none in it: the sequence of nonces is periodic. *)
Definition worker_post (prefix : bytes) (difficulty start step : Z) (r : option (bytes * Z)) : Prop :=
  match r with
  | Some (out, _) => ∃ n, out = to_le_bytes 8 n ∧ solves prefix difficulty n
  | None => ∀ k, 0 ≤ k → ¬ solves prefix difficulty (nth_nonce start step k)
  end.

Definition worker_inv (prefix : bytes) (difficulty start step : Z) (s : Z * Z) : Prop :=
  0 ≤ s.2 < 2 ^ 64 ∧ s.1 = nth_nonce start step s.2 ∧ ∀ k, 0 ≤ k < s.2 → ¬ solves prefix difficulty (nth_nonce start step k).

Lemma nth_nonce_periodic start step m k : 0 < m → is_u64 start → nth_nonce start step m = start → nth_nonce start step k = nth_nonce start step (k mod m).
Proof.
  intros Hm [? ?] Hp. unfold nth_nonce, wrap in *. pose proof (Z.div_mod k m ltac:(lia)) as Hk.
  assert ((m * step) mod 2 ^ 64 = 0) as Hz.
  { rewrite <- (Z.mod_small start (2 ^ 64)) in Hp at 2 by lia. assert ((start + m * step - start) mod 2 ^ 64 = 0) as Hz by (rewrite Zminus_mod, Hp, Z.sub_diag; done).
    by replace (start + m * step - start) with (m * step) in Hz by lia. }
  apply Z.mod_divide in Hz as [q Hq]; [|lia].
  replace (start + k * step) with (start + k mod m * step + k / m * q * 2 ^ 64) by nia. apply Z.mod_add. lia.
Qed.

Lemma pow_turn_spec prefix difficulty start step s : is_u64 start → worker_inv prefix difficulty start step s →
  match pow_turn prefix difficulty start step s with
  | inl s' => worker_inv prefix difficulty start step s' ∧ s'.2 = s.2 + 1
  | inr r => worker_post prefix difficulty start step r
  end.
Proof.
  destruct s as [nonce hashes]. intros Hu (Hh & Hn & Hf). cbn [fst snd] in *. unfold pow_turn.
  destruct (check_hash _ difficulty) eqn:E; [exists nonce; split; [reflexivity|exact E]|].
  assert (∀ k, 0 ≤ k < hashes + 1 → ¬ solves prefix difficulty (nth_nonce start step k)) as Hf'.
  { intros k Hk. destruct (decide (k = hashes)) as [->|]; [|apply Hf; lia]. rewrite <- Hn. unfold solves. by rewrite E. }
  assert (wrapping_add 64 nonce step = nth_nonce start step (hashes + 1)) as ->.
  { rewrite Hn. unfold wrapping_add, nth_nonce, wrap. rewrite Z.add_mod_idemp_l by lia. f_equal. lia. }
  destruct (nth_nonce start step (hashes + 1) =? start) eqn:E2; bool_hyps.
  - intros k Hk. rewrite (nth_nonce_periodic start step (hashes + 1)); [|lia|exact Hu|exact E2]. apply Hf', Z.mod_pos_bound. lia.
  - assert (hashes + 1 < 2 ^ 64) as Hlt.
    { destruct (decide (hashes + 1 = 2 ^ 64)) as [He|]; [|lia]. exfalso. apply E2. rewrite He. unfold nth_nonce, wrap.
      rewrite (Z.mul_comm (2 ^ 64)), Z.mod_add by lia. apply Z.mod_small. destruct Hu. lia. }
    assert (wrapping_add 64 hashes 1 = hashes + 1) as -> by (unfold wrapping_add; rewrite wrap_small; [done|unfold in_u; lia]).
    split; [|done]. split; [cbn; lia|]. split; [done|exact Hf'].
Qed.

Lemma pow_worker_ends prefix difficulty start step : is_u64 start →
  ∃ r, iter_until (pow_turn prefix difficulty start step) (2 ^ 64)%positive (start, 0) = inr r ∧ worker_post prefix difficulty start step r.
Proof.
  intros Hu. assert (worker_inv prefix difficulty start step (start, 0)) as H0.
  { split; [cbn [snd]; lia|]. cbn [fst snd]. split; [|lia]. unfold nth_nonce. rewrite wrap_small; [lia|]. unfold in_u in *. lia. }
  destruct (iter_until_ends (pow_turn prefix difficulty start step) (worker_inv prefix difficulty start step) (λ s, 2 ^ 64 - 1 - s.2) (2 ^ 64) (start, 0)) as [r Hr].
  - intros s s' Hs Hs'. pose proof (pow_turn_spec prefix difficulty start step s Hu Hs) as Hp. rewrite Hs' in Hp. destruct Hp as [Hi He].
    split; [done|]. destruct Hi. lia.
  - exact H0.
  - cbn [snd]. change (Z.pos (2 ^ 64)) with (2 ^ 64). lia.
  - exists r. split; [done|].
    pose proof (iter_until_inv (pow_turn prefix difficulty start step) (worker_inv prefix difficulty start step) (worker_post prefix difficulty start step) (2 ^ 64) (start, 0)) as Hi.
    rewrite Hr in Hi. apply Hi; [|done]. intros s Hs. pose proof (pow_turn_spec prefix difficulty start step s Hu Hs) as Hp. destruct (pow_turn _ _ _ _ s); [apply Hp|done].
Qed.

Lemma pow_worker_spec prefix difficulty start step : is_u64 start → worker_post prefix difficulty start step (pow_worker prefix difficulty start step).
Proof. intros Hu. unfold pow_worker. by destruct (pow_worker_ends prefix difficulty start step Hu) as (r & -> & ?). Qed.

Lemma class_covers start threads n : is_u64 start → is_u64 n → 0 < threads →
  ∃ i k, 0 ≤ i < threads ∧ 0 ≤ k ∧ nth_nonce (wrapping_add 64 start i) threads k = n.
Proof.
  intros [? ?] [? ?] Ht. set (j := wrap 64 (n - start)). assert (0 ≤ j) as Hj by (apply Z.mod_pos_bound; lia).
  exists (j mod threads), (j / threads). split; [apply Z.mod_pos_bound; lia|]. split; [apply Z.div_pos; lia|].
  pose proof (Z.div_mod j threads ltac:(lia)) as Hd. unfold nth_nonce, wrapping_add, wrap. rewrite Z.add_mod_idemp_l by lia.
  replace (start + j mod threads + j / threads * threads) with (start + j) by lia. subst j. unfold wrap.
  rewrite Z.add_mod_idemp_r by lia. replace (start + (n - start)) with n by lia. apply Z.mod_small. lia.
Qed.

Lemma joined_finds finds stopped : (∀ r, Some r ∈ joined finds stopped → Some r ∈ finds) ∧ (omap id (joined finds stopped) = [] → ∀ r, r ∈ finds → r = None).
Proof.
  unfold joined. set (effective := zip_with _ finds stopped). assert (∀ r, Some r ∈ effective → Some r ∈ finds) as Hsub.
  { intros r (i & Hi)%list_elem_of_lookup. subst effective. apply lookup_zip_with_Some in Hi as (x & b & Hx & Hf & Hb). destruct b; [done|]. subst x. by eapply list_elem_of_lookup_2. }
  assert (∀ l : list (option (bytes * Z)), omap id l = [] → ∀ r, r ∈ l → r = None) as Hnone.
  { intros l Hl [r|] Hr; [|done]. exfalso. assert (r ∈ omap id l) as Hin by (apply list_elem_of_omap; by exists (Some r)). rewrite Hl in Hin. by apply elem_of_nil in Hin. }
  destruct (existsb _ effective) eqn:E; [|by split; [|apply Hnone]]. split; [done|]. intros He. exfalso.
  apply existsb_exists in E as (r & Hr%list_elem_of_In & Hs). by rewrite (Hnone _ He r Hr) in Hs.
Qed.

Definition search_post (prefix : bytes) (difficulty : Z) (r : option (bytes * Z)) : Prop :=
  match r with
  | Some (nonce, _) => length nonce = TX_POW_NONCE_SIZE ∧ nonce_satisfies prefix nonce difficulty = true
  | None => ∀ n, is_u64 n → nonce_satisfies prefix (to_le_bytes 8 n) difficulty = false
  end.

Lemma nonce_satisfies_solves prefix difficulty n : (TX_POW_NONCE_SIZE ≤ length prefix)%nat →
  nonce_satisfies prefix (to_le_bytes 8 n) difficulty = true ↔ solves prefix difficulty n.
Proof. intros Hl. unfold nonce_satisfies, solves. assert ((length prefix <? TX_POW_NONCE_SIZE)%nat = false) as -> by (apply Nat.ltb_ge; lia). done. Qed.

Lemma threads_search_spec prefix difficulty start threads stopped : is_u64 start → (TX_POW_NONCE_SIZE ≤ length prefix)%nat → (0 < threads)%nat →
  search_post prefix difficulty (pow_threads_search prefix difficulty start threads stopped).
Proof.
  intros Hs Hl Ht. unfold pow_threads_search. set (finds := map _ (seq 0 threads)). destruct (joined_finds finds stopped) as [Hsub Hnone].
  assert (∀ i, 0 ≤ i < Z.of_nat threads → pow_worker prefix difficulty (wrapping_add 64 start i) (Z.of_nat threads) ∈ finds) as Hin.
  { intros i Hi. apply list_elem_of_fmap. exists (Z.to_nat i). rewrite Z2Nat.id by lia. split; [done|]. apply elem_of_seq. lia. }
  destruct (omap id (joined finds stopped)) as [|[nonce h] rest] eqn:E.
  - intros n Hn. apply not_true_iff_false. rewrite nonce_satisfies_solves by done.
    destruct (class_covers start (Z.of_nat threads) n) as (i & k & Hi & Hk & <-); [done|done|lia|].
    pose proof (pow_worker_spec prefix difficulty (wrapping_add 64 start i) (Z.of_nat threads) (wrap_bound 64 _ ltac:(lia))) as Hp.
    rewrite (Hnone eq_refl _ (Hin i Hi)) in Hp. by apply Hp.
  - assert (Some (nonce, h) ∈ finds) as Hf.
    { apply Hsub. assert ((nonce, h) ∈ omap id (joined finds stopped)) as Hx by (rewrite E; by left). by apply list_elem_of_omap in Hx as ([x|] & Hx & [= ->]). }
    apply list_elem_of_fmap in Hf as (i & Hf & _). pose proof (pow_worker_spec prefix difficulty (wrapping_add 64 start (Z.of_nat i)) (Z.of_nat threads) (wrap_bound 64 _ ltac:(lia))) as Hp.
    rewrite <- Hf in Hp. destruct Hp as (n & -> & Hn). split; [apply length_to_le_bytes|by apply nonce_satisfies_solves].
Qed.

Lemma pow_search_spec `{Platform W} prefix difficulty start threads (w : W) : is_u64 start → (TX_POW_NONCE_SIZE ≤ length prefix)%nat →
  search_post prefix difficulty (transaction_pow_search prefix difficulty start threads w).1.
Proof.
  intros Hs Hl.
  unfold transaction_pow_search. destruct (Nat.max threads 1 =? 1)%nat eqn:E.
  - cbn [fst]. pose proof (pow_worker_spec prefix difficulty start 1 Hs) as Hp. destruct (pow_worker prefix difficulty start 1) as [[nonce h]|].
    + destruct Hp as (n & -> & Hn). split; [apply length_to_le_bytes|by apply nonce_satisfies_solves].
    + intros n Hn. apply not_true_iff_false. rewrite nonce_satisfies_solves by done.
      destruct (class_covers start 1 n) as (i & k & Hi & Hk & Heq); [done..|lia|]. assert (i = 0) as -> by lia.
      unfold wrapping_add in Heq. rewrite Z.add_0_r, wrap_small in Heq by done. rewrite <- Heq. by apply Hp.
  - destruct (stopped_threads (Nat.max threads 1) w) as [stopped w']. cbn [fst]. apply threads_search_spec; [done|done|lia].
Qed.


End Search.

(** * Witnesses *)

Module ToySelection.

(** Inputs of three sizes, one of them locked. *)
Definition input (amount unlock : Z) : TransactionInput := mkTransactionInput amount 100 (Some 5) [] [] [] (Some []) 0 0 [] unlock.

Definition wallet : Wallet := with_primary [] (mkSubWallet [] true [] [] [] [] 0 0 [] (map (λ x, input x.1 x.2) [(70, 0); (5, 0); (30, 0); (900, 400); (8, 0)]) 0) false 0 0.

(** Threads all run. *)
#[export] Instance platform : Platform unit := {| now_seconds w := (0, w); available_threads w := (1%nat, w); stopped_threads n w := (replicate n false, w); json_error_code _ := None |}.

End ToySelection.

Lemma selection_spec_witness : ∃ l available, spendable_transaction_inputs_at ToySelection.wallet true [] 300 0 = Ok l ∧ length l = 4%nat ∧
  available_inputs ToySelection.wallet true [] 300 0 = Ok available ∧ l ≡ₚ available ∧
  ∀ d, StronglySorted (λ a b, ti_amount (ow_input a) ≤ ti_amount (ow_input b)) (filter (λ i, digit_count (ti_amount (ow_input i)) = d) l).
Proof.
  assert (∃ l, spendable_transaction_inputs_at ToySelection.wallet true [] 300 0 = Ok l ∧ length l = 4%nat) as (l & Hl & Hn).
  { eexists. split; [vm_compute; reflexivity|reflexivity]. }
  destruct (selection_spec ToySelection.wallet true [] 300 0 l Hl) as (available & Ha & Hp & Hs). exists l, available. by split_and!.
Defined.

