(* ===== verification/TransferRings.v ===== *)
(** The rings the wallet signs over (crates/wrkz-wallet/src/transfer.rs
    [prepare_ring_participants], [setup_inputs], [generate_ring_signatures]) against the rules
    the validator reads them by (crates/wrkz-chain/src/validate.rs): the offsets give the
    members back, in order and without a repetition, and the signatures are over them. *)
From stdpp Require Import gmap sets sorting.
From S2P Require Import Prelude Constants F64 Hashing Cryptonight Curve Varint Ser Tx TxExtra Base58 Fees Reward Records Validate Accept.
From S2P Require Import Wallet WalletSync Transfer TransferSpec.
Local Open Scope Z_scope.

(** * Inverting a send *)

Section Invert.
Context {W : Type}.

Lemma send_bind_Ok {E A B} (m : SendM W E A) (f : A → SendM W E B) w b w2 :
  (m ≫= f) w = (Ok b, w2) ↔ ∃ a w1, m w = (Ok a, w1) ∧ f a w1 = (Ok b, w2).
Proof.
  unfold mbind, SendM_bind. destruct (m w) as [[a|e] w1]; split.
  - intros ?. by exists a, w1.
  - by intros (? & ? & [= <- <-] & ?).
  - done.
  - by intros (? & ? & ? & _).
Qed.

Lemma send_ret_Ok {E A} (x a : A) (w w2 : W) : (mret x : SendM W E A) w = (Ok a, w2) → a = x ∧ w2 = w.
Proof. by intros [= -> ->]. Qed.

Lemma check_Ok {E} b (e : E) (w w2 : W) u : Transfer.check b e w = (Ok u, w2) ↔ b = true ∧ w2 = w.
Proof. unfold Transfer.check. destruct b, u; split; [by intros [= ->]|by intros [_ ->]|done|by intros [? _]]. Qed.

Lemma pure_Ok {E A} (r : result E A) (w w2 : W) a : pure r w = (Ok a, w2) ↔ r = Ok a ∧ w2 = w.
Proof. unfold pure. split; [by intros [= -> ->]|by intros [-> ->]]. Qed.

Lemma inner_Ok {A} (r : result WalletError A) (w w2 : W) a : inner r w = (Ok a, w2) ↔ r = Ok a ∧ w2 = w.
Proof. unfold inner. destruct r; cbn; split; [by intros [= -> ->]|by intros [[= ->] ->]|done|by intros [? _]]. Qed.

Lemma draw_Ok {E A} (f : W → A * W) (w w2 : W) a : (draw f : SendM W E A) w = (Ok a, w2) → f w = (a, w2).
Proof. unfold draw. destruct (f w). by intros [= -> ->]. Qed.

Lemma lifted_Ok {A} (m : SendM W WalletError A) (w w2 : W) a : lifted m w = (Ok a, w2) ↔ m w = (Ok a, w2).
Proof. unfold lifted. destruct (m w) as [[x|e] w1]; cbn; split; congruence. Qed.

Lemma outer_Ok {A} (m : SendM W Failure A) (w w2 : W) a : outer m w = (Ok a, w2) ↔ m w = (Ok a, w2).
Proof. unfold outer. destruct (m w) as [[x|e] w1]; cbn; split; congruence. Qed.

End Invert.

Ltac send_inv :=
  repeat match goal with
  | H : (_ ≫= _) _ = (Ok _, _) |- _ => apply send_bind_Ok in H as (?&?&?&?)
  | H : mret _ _ = (Ok _, _) |- _ => apply send_ret_Ok in H as [??]; simplify_eq
  | H : Transfer.check _ _ _ = (Ok _, _) |- _ => apply check_Ok in H as [??]; simplify_eq
  | H : pure _ _ = (Ok _, _) |- _ => apply pure_Ok in H as [??]; simplify_eq
  | H : inner _ _ = (Ok _, _) |- _ => apply inner_Ok in H as [??]; simplify_eq
  | H : draw _ _ = (Ok _, _) |- _ => apply draw_Ok in H
  | H : lifted _ _ = (Ok _, _) |- _ => apply lifted_Ok in H
  | H : outer _ _ = (Ok _, _) |- _ => apply outer_Ok in H
  | H : ok_or _ _ = Ok _ |- _ => apply ok_or_Ok in H
  | H : map_err _ _ = Ok _ |- _ => apply map_err_Ok in H
  | H : (_ ≫= _) = Ok _ |- _ => apply result_bind_Ok in H as (?&?&?)
  | H : Ok _ = Ok _ |- _ => injection H as H; simplify_eq
  | x : (_ * _)%type |- _ => destruct x; cbn [fst snd] in *
  | u : () |- _ => destruct u
  end.

(** * Offsets *)

Definition ascending (l : list Z) : Prop := StronglySorted Z.lt l.

Lemma relative_from_loop i prev l : i ≠ 0%nat → 0 ≤ prev < 2 ^ 32 → Forall (λ a, 0 ≤ a < 2 ^ 32) l → ascending (prev :: l) →
  relative_loop i prev (relative_from prev l) = Some l ∧ Forall (λ o, 0 < o) (relative_from prev l).
Proof.
  intros Hi Hp Hl. revert i prev Hi Hp. induction Hl as [|a l Ha Hl IH]; intros i prev Hi Hp Hs; cbn [relative_from relative_loop]; [done|].
  inversion_clear Hs as [|?? Hs' Hf]. apply Forall_cons in Hf as [Hlt _].
  assert (wrapping_sub 32 a prev = a - prev) as -> by (unfold wrapping_sub; apply wrap_small; unfold in_u; lia).
  assert ((i =? 0)%nat = false) as -> by (by apply Nat.eqb_neq).
  assert (checked_add 64 prev (a - prev) = Some a) as -> by (apply checked_add_Some; lia). cbn [mbind option_bind].
  destruct (IH (S i) a) as [-> Hpos]; [lia|lia|done|]. split; [done|]. constructor; [lia|done].
Qed.

(** The offsets of an ascending ring give its indexes back, and none but the first is zero. *)
Lemma relative_offsets_spec (ring : list (Z * bytes)) : ring ≠ [] → Forall (λ a, 0 ≤ a < 2 ^ 32) ring.*1 → ascending ring.*1 →
  relative_offsets_to_absolute (relative_offsets ring) = Some ring.*1 ∧ relative_offsets ring ≠ [] ∧ ¬ (0 ∈ tail (relative_offsets ring)) ∧
  length (relative_offsets ring) = length ring.
Proof.
  intros Hn Hb Hs. unfold relative_offsets.
  assert (map (λ '(i, _), wrap 32 i) ring = ring.*1) as ->.
  { clear Hn Hs. induction ring as [|[i k] ring IH]; [done|]. apply Forall_cons in Hb as [Hi Hb]. cbn. rewrite wrap_small by (unfold in_u; cbn in Hi; lia). by rewrite <- IH. }
  rewrite <- (length_fmap fst ring). destruct ring.*1 as [|a l] eqn:E; [by destruct ring|]. apply Forall_cons in Hb as [Ha Hb].
  destruct (relative_from_loop 1 a l) as [Hr Hp]; [lia|lia|done|done|].
  assert (∀ p, length (relative_from p l) = length l) as Hlen by (clear; induction l as [|x l IH]; intros p; cbn; [done|by rewrite IH]).
  split_and!; [|done| |cbn; by rewrite Hlen].
  - unfold relative_offsets_to_absolute. cbn. by rewrite Hr.
  - cbn. intros H0. eapply Forall_forall in Hp; [|exact H0]. lia.
Qed.

(** * Members *)

Section Members.
Variable P : Z * bytes → Prop.

Lemma ascending_snoc_cons (a : list (Z * bytes)) x b : ascending (a.*1 ++ (x :: b).*1) → ascending ((a ++ [x]).*1 ++ b.*1) ∧ ascending (a.*1 ++ b.*1).
Proof.
  rewrite fmap_app, fmap_cons. intros H. split; [by rewrite <- app_assoc|]. apply StronglySorted_app in H as (Hab & Ha & Hb).
  inversion_clear Hb. apply StronglySorted_app_2; [|done|done]. intros ?? Hx Hy. apply Hab; [done|by right].
Qed.

(** The decoys: as the daemon ordered them, our own output left out, [mixin] at most. *)
Lemma decoys_spec mixin g ring fake : ascending (ring.*1 ++ fake.*1) → Forall P (ring ++ fake) → Forall (λ m, m.1 ≠ g) ring → Z.of_nat (length ring) < mixin →
  ascending (decoys mixin g ring fake).*1 ∧ Forall P (decoys mixin g ring fake) ∧ Forall (λ m, m.1 ≠ g) (decoys mixin g ring fake) ∧
  Z.of_nat (length (decoys mixin g ring fake)) ≤ mixin.
Proof.
  revert ring. induction fake as [|[i k] fake IH]; intros ring Hs HP Hg Hl; cbn [decoys].
  { rewrite !app_nil_r in *. split_and!; [done..|lia]. }
  apply ascending_snoc_cons in Hs as [Hs1 Hs2]. pose proof HP as [HP1 [HP2 HP3]%Forall_cons]%Forall_app.
  destruct (i =? g) eqn:E; bool_hyps; [apply IH; [done|by apply Forall_app|done|done]|].
  assert (Forall P ((ring ++ [(i, k)]) ++ fake)) as HP' by by rewrite <- app_assoc.
  assert (Forall (λ m, m.1 ≠ g) (ring ++ [(i, k)])) as Hg' by (apply Forall_app; split; [done|by repeat constructor]).
  assert (length (ring ++ [(i, k)]) = S (length ring)) as Hlen by (rewrite length_app; cbn; lia).
  destruct (mixin <=? _) eqn:E2; bool_hyps; [|apply IH; [done..|lia]].
  split_and!; [by apply StronglySorted_app in Hs1 as (_ & ? & _)|by apply Forall_app in HP' as [? _]|done|lia].
Qed.

(** The real output goes where its index belongs. *)
Lemma insert_real_spec g (m : bytes) ring : ascending ring.*1 → Forall (λ x, x.1 ≠ g) ring → Forall P ring → P (g, m) →
  let r := insert_at (real_position g ring) (g, m) ring in
  ascending r.*1 ∧ Forall P r ∧ length r = S (length ring) ∧ r !! real_position g ring = Some (g, m) ∧ Forall (λ i, i = g ∨ i ∈ ring.*1) r.*1.
Proof.
  intros Hs Hg HP Hm. cbv zeta. induction ring as [|[i k] ring IH]; cbn [real_position].
  { split_and!; [by repeat constructor|by repeat constructor|done|done|]. repeat constructor. }
  inversion_clear Hs as [|?? Hs' Hi]. apply Forall_cons in Hg as [Hgi Hg], HP as [HPi HP]. cbn [fst] in *.
  destruct (g <=? i) eqn:E; bool_hyps.
  - unfold insert_at. cbn [take drop app fmap list_fmap fst length lookup list_lookup]. split_and!; [|by repeat constructor|done|done|].
    + constructor; [by constructor|]. constructor; [lia|]. eapply Forall_impl; [exact Hi|]. cbn. lia.
    + constructor; [by left|]. apply Forall_forall. intros x Hx. by right.
  - destruct (IH Hs' Hg HP) as (H1 & H2 & H3 & H4 & H5).
    change (insert_at (S (real_position g ring)) (g, m) ((i, k) :: ring)) with ((i, k) :: insert_at (real_position g ring) (g, m) ring).
    cbn [fmap list_fmap fst length lookup list_lookup]. split_and!; [|by constructor|by rewrite H3|done|].
    + constructor; [done|]. eapply Forall_impl; [exact H5|]. intros x [->|Hx]; [lia|]. by eapply Forall_forall in Hi.
    + constructor; [by right; left|]. eapply Forall_impl; [exact H5|]. intros x [->|Hx]; [by left|]. right. by right.
Qed.

End Members.

Section Obscure.
Variable chain_member : Z → Z * bytes → Prop.

(** What a ring must be for the validator, and for the signature to be ours to make. *)
Record ring_spec (mixin : Z) (source : OwnedSpendableInput) (o : ObscuredInput) : Prop := {
  rs_amount : ob_amount o = ti_amount (ow_input source);
  rs_image : ob_key_image o = ti_key_image (ow_input source);
  rs_ascending : ascending (ob_ring o).*1;
  rs_members : Forall (chain_member (ob_amount o)) (ob_ring o);
  rs_length : Z.of_nat (length (ob_ring o)) = mixin + 1;
  rs_real : ∃ g, ti_global_output_index (ow_input source) = Some g ∧ ob_ring o !! real_output o = Some (g, ti_key (ow_input source))
}.

Lemma obscure_spec mixin source fake o : 0 ≤ mixin → obscure mixin source fake = Ok o →
  ascending fake.*1 → Forall (chain_member (ti_amount (ow_input source))) fake →
  (∀ g, ti_global_output_index (ow_input source) = Some g → chain_member (ti_amount (ow_input source)) (g, ti_key (ow_input source))) →
  ring_spec mixin source o.
Proof.
  intros Hm. unfold obscure. destruct (ti_global_output_index (ow_input source)) as [g|] eqn:Eg; [|done]. intros Ho Hs Hf Hg. specialize (Hg g eq_refl).
  set (ring := if mixin =? 0 then [] else decoys mixin g [] fake) in *.
  assert (ascending ring.*1 ∧ Forall (chain_member (ti_amount (ow_input source))) ring ∧ Forall (λ m, m.1 ≠ g) ring ∧ Z.of_nat (length ring) ≤ mixin) as (H1 & H2 & H3 & H4).
  { subst ring. destruct (mixin =? 0) eqn:E; bool_hyps; [by repeat constructor|]. apply decoys_spec; [done|done|constructor|cbn; lia]. }
  destruct (Z.of_nat (length ring) <? mixin) eqn:El; bool_hyps; [done|]. injection Ho as <-.
  destruct (insert_real_spec (chain_member (ti_amount (ow_input source))) g (ti_key (ow_input source)) ring H1 H3 H2 Hg) as (R1 & R2 & R3 & R4 & _).
  split; cbn; [done|done|done|done|lia|]. by exists g.
Qed.

Lemma obscure_all_spec mixin sources fakes obs : 0 ≤ mixin → obscure_all mixin sources fakes = Ok obs →
  (mixin = 0 ∨ Forall2 (λ s f, ascending f.*1 ∧ Forall (chain_member (ti_amount (ow_input s))) f) sources fakes) →
  Forall (λ s, ∀ g, ti_global_output_index (ow_input s) = Some g → chain_member (ti_amount (ow_input s)) (g, ti_key (ow_input s))) sources →
  Forall2 (ring_spec mixin) sources obs.
Proof.
  intros Hm. revert fakes obs. induction sources as [|s sources IH]; intros fakes obs; cbn [obscure_all]; [intros [= <-]; constructor|].
  intros (o & Ho & (rest & Hr & [= <-])%result_bind_Ok)%result_bind_Ok Hf [Hs Hss]%Forall_cons. constructor.
  - destruct Hf as [->|Hf]; [|apply Forall2_cons_inv_l in Hf as (f & fs & [Hf1 Hf2] & _ & ->); by eapply obscure_spec].
    revert Ho. unfold obscure. change (0 =? 0) with true. intros Ho. apply (obscure_spec 0 s [] o); [done|exact Ho|constructor|constructor|done].
  - apply (IH (tail fakes)); [done| |done]. destruct Hf as [->|Hf]; [by left|right]. by apply Forall2_cons_inv_l in Hf as (f & fs & _ & ? & ->).
Qed.

End Obscure.

(** * What the daemon is relied on for *)

Section Pipeline.
Context `{C : Crypto} `{CurveKeys} `{CurveSecrets} `{TransferRandom W} `{TransferDaemon W} `{Platform W}.
Variable chain_member : Z → Z * bytes → Prop.

(** [/getrandom_outs] answers for the amounts asked, in order, with members of the chain in
    ascending order of index. *)
Definition honest_outs (amounts : list Z) (outs : list RandomOutsForAmount) : Prop :=
  map ra_amount outs = amounts ∧
  Forall (λ e, ascending (map global_amount_index (ra_outs e)) ∧
    ∀ o k, o ∈ ra_outs e → parse_hex32 (out_key o) = Some k → chain_member (ra_amount e) (global_amount_index o, k)) outs.

Definition honest_daemon : Prop := ∀ amounts n (w w' : W) outs, random_outs amounts n w = (Ok outs, w') → honest_outs amounts outs.

(** A ring signature has a signature per member. *)
Definition signs_each : Prop := ∀ hash image pubs n sec real k sigs out,
  wrkz_generate_ring_signature hash image pubs n sec real k sigs = Some out → length out = n.

Lemma decode_outs_spec amounts outs l : honest_outs amounts outs → decode_outs outs = Ok l →
  Forall2 (λ a f, ascending f.*1 ∧ Forall (chain_member a) f) amounts l.*2.
Proof.
  intros [<- Hh] Hd%collect_Ok. induction Hd as [|e [a set] outs l He Hd IH]; [constructor|]. apply Forall_cons in Hh as [[Hs Hm] Hh].
  cbn [map fmap list_fmap snd]. constructor; [|by apply IH]. apply result_bind_Ok in He as (set' & Hset%collect_Ok & [= <- <-]).
  assert (set'.*1 = map global_amount_index (ra_outs e)) as Hfst.
  { clear Hs Hm. induction Hset as [|o x os xs Ho Hset IHs]; [done|]. apply result_bind_Ok in Ho as (k & _ & [= <-]). cbn. by rewrite IHs. }
  rewrite Hfst. split; [done|]. clear Hs Hfst. induction Hset as [|o x os xs Ho Hset IHs]; [constructor|].
  apply result_bind_Ok in Ho as (k & Hk%ok_or_Ok & [= <-]). constructor; [by apply Hm; [left|]|]. apply IHs. intros o' k' Ho'. apply Hm. by right.
Qed.

Lemma get_ring_participants_spec mixin sources w fakes w' : honest_daemon → get_ring_participants mixin sources w = (Ok fakes, w') →
  mixin = 0 ∨ Forall2 (λ s f, ascending f.*1 ∧ Forall (chain_member (ti_amount (ow_input s))) f) sources fakes.
Proof.
  intros Hd. unfold get_ring_participants. destruct (mixin =? 0) eqn:E; bool_hyps; [by left|]. intros Hg. right. send_inv.
  match goal with Hr : random_outs _ _ _ = (?r, _), Hm : ?r = Ok _ |- _ => rewrite Hm in Hr; apply Hd in Hr end.
  match goal with Ho : honest_outs _ ?o, Hc : decode_outs ?o = Ok _ |- _ => pose proof (decode_outs_spec _ _ _ Ho Hc) as Hf end.
  by apply Forall2_fmap_l in Hf.
Qed.

Lemma prepare_ring_participants_spec sources mixin w obs sorted m w' : honest_daemon → 0 ≤ mixin →
  Forall (λ s, ∀ g, ti_global_output_index (ow_input s) = Some g → chain_member (ti_amount (ow_input s)) (g, ti_key (ow_input s))) sources →
  prepare_ring_participants sources mixin w = (Ok (obs, sorted, m), w') → sorted ≡ₚ sources ∧ Forall2 (ring_spec chain_member mixin) sorted obs.
Proof.
  intros Hd Hm Hs. unfold prepare_ring_participants. cbv zeta. intros Hp. send_inv. split; [apply sort_by_key_Permutation|].
  match goal with Hr : get_ring_participants _ _ _ = _, Ho : obscure_all _ _ _ = _ |- _ => apply get_ring_participants_spec in Hr; [|done]; eapply obscure_all_spec; [done|exact Ho|exact Hr|] end.
  by rewrite sort_by_key_Permutation.
Qed.

Lemma setup_inputs_spec obs sources k ins secrets obs' : length obs = length sources → setup_inputs obs sources k = Ok (ins, secrets, obs') →
  ins = map (λ o, Key (ob_amount o) (relative_offsets (ob_ring o)) (ob_key_image o)) obs' ∧ length secrets = length obs ∧
  Forall2 (λ o o', ob_amount o' = ob_amount o ∧ ob_key_image o' = ob_key_image o ∧ ob_ring o' = ob_ring o ∧ real_output o' = real_output o) obs obs'.
Proof.
  revert sources ins secrets obs'. induction obs as [|o obs IH]; intros [|s sources] ins secrets obs' Hl; cbn [setup_inputs]; try done.
  - intros [= <- <- <-]. by repeat constructor.
  - intros Hp. send_inv. match goal with Hr : setup_inputs obs sources _ = _ |- _ => apply IH in Hr as (-> & Hs & HF); [|cbn in Hl; lia] end.
    cbn. rewrite Hs. split_and!; [done..|]. by constructor.
Qed.

Lemma random_pairs_length n (w w' : W) l : random_pairs n w = (l, w') → length l = n.
Proof.
  revert w w' l. induction n as [|n IH]; intros w w' l; cbn [random_pairs]; [by intros [= <- _]|].
  destruct (random_scalar w) as [c w1]. destruct (random_scalar w1) as [r w2]. destruct (random_pairs n w2) as [rest w3] eqn:E.
  intros [= <- _]. cbn. by rewrite (IH _ _ _ E).
Qed.

Lemma sign_rings_spec hash rings secrets w sigs w' : signs_each → length secrets = length rings → sign_rings hash rings secrets w = (Ok sigs, w') →
  Forall2 (λ r s, length s = length (ob_ring r)) rings sigs.
Proof.
  intros Hsign. revert secrets w sigs. induction rings as [|r rings IH]; intros [|k secrets] w sigs Hl; cbn [sign_rings]; try done.
  { intros Hs. send_inv. constructor. }
  intros Hs. send_inv.
  match goal with Hr : sign_rings hash rings secrets _ = _ |- _ => apply IH in Hr; [|cbn in Hl; lia] end. constructor; [|done].
  match goal with Hg : generate_ring_signature_with_randomness _ _ _ _ _ _ _ = Some _ |- _ => revert Hg end.
  unfold generate_ring_signature_with_randomness. case_match; [done|]. intros Hg%Hsign. by rewrite Hg, length_map.
Qed.

Lemma generate_ring_signatures_spec tx rings secrets w tx' w' : signs_each → length secrets = length rings →
  generate_ring_signatures tx rings secrets w = (Ok tx', w') → signatures tx = [] →
  prefix tx' = prefix tx ∧ Forall2 (λ r s, length s = length (ob_ring r) ∧ check_ring_signature (prefix_hash tx') (ob_key_image r) (map snd (ob_ring r)) s = true) rings (signatures tx').
Proof.
  intros Hsign Hl. unfold generate_ring_signatures. cbv zeta. intros Hg Hn. send_inv.
  match goal with Hr : sign_rings _ _ _ _ = _ |- _ => apply sign_rings_spec in Hr; [|done|done] end. split; [done|]. rewrite Hn. cbn [signatures app].
  match goal with |- Forall2 _ _ ?s =>
    change (Forall2 (λ r s, length s = length (ob_ring r) ∧ check_ring_signature (prefix_hash tx) (ob_key_image r) (map snd (ob_ring r)) s = true) rings s) end.
  clear Hl. match goal with Hv : signatures_hold _ _ _ = true, HF : Forall2 _ rings _ |- _ => revert Hv; unfold signatures_hold; induction HF as [|r s rs ss Hlen HF IH] end; [constructor|].
  cbn [zip zip_with forallb]. intros [Hc Hv]%andb_true_iff. constructor; [by split|auto].
Qed.

End Pipeline.
