(* ===== verification/TransferBuild.v ===== *)
(** The transaction the wallet builds (crates/wrkz-wallet/src/transfer.rs
    [make_transaction]) against the rules of the validator: outputs, extra, proof of work and
    rings, for whatever the random source, the daemon and the proof-of-work server answer. *)
From stdpp Require Import gmap sets sorting.
From S2P Require Import Prelude Constants F64 Hashing Cryptonight Curve Varint Ser Tx TxExtra Base58 Fees Reward Checkpoints Records Validate Accept.
From S2P Require Import Wallet WalletSync Transfer TransferSpec TransferRings.
Local Open Scope Z_scope.

(** The types of what the world answers: [[u8; 32]], [u64], [[u8; 8]]. *)
Class TransferTyped (W : Type) `{TransferRandom W} `{TransferDaemon W} : Prop := {
  key_pair_typed (w w' : W) secret public : key_pair w = (secret, public, w') → length public = 32%nat;
  pow_nonce_start_typed (w w' : W) start : pow_nonce_start w = (start, w') → is_u64 start;
  remote_pow_typed blob difficulty height (w w' : W) nonce : remote_pow blob difficulty height w = (Some nonce, w') → length nonce = TX_POW_NONCE_SIZE
}.

(** * The proof of work *)

Section Pow.
Context `{C : Crypto} `{CurveKeys} `{CurveSecrets} `{TransferRandom W} `{TransferDaemon W} `{Platform W} `{!TransferTyped W}.
#[local] Opaque check_hash cn_upx_hash.

Lemma with_nonce_length (b nonce : bytes) : (TX_POW_NONCE_SIZE ≤ length b)%nat → length nonce = TX_POW_NONCE_SIZE → length (with_nonce b nonce) = length b.
Proof. intros. unfold with_nonce. rewrite length_app, length_take. lia. Qed.

(** The nonce is the end of the extra, which is the end of the prefix. *)
Lemma to_bytes_with_nonce p e nonce : (TX_POW_NONCE_SIZE ≤ length e)%nat → length nonce = TX_POW_NONCE_SIZE →
  TransactionPrefix.to_bytes (with_extra p (with_nonce e nonce)) = with_nonce (TransactionPrefix.to_bytes (with_extra p e)) nonce.
Proof.
  intros He Hn. unfold TransactionPrefix.to_bytes, TransactionPrefix.write, Writer.bytes. cbn [with_extra version unlock_time inputs outputs extra].
  rewrite with_nonce_length by done. set (w := Writer.varint _ (Z.of_nat (length e))). unfold with_nonce. rewrite length_app.
  replace (length w + length e - TX_POW_NONCE_SIZE)%nat with (length w + (length e - TX_POW_NONCE_SIZE))%nat by lia. by rewrite take_app_add, app_assoc.
Qed.

Lemma prefix_has_nonce p e : (length e ≤ length (TransactionPrefix.to_bytes (with_extra p e)))%nat.
Proof. unfold TransactionPrefix.to_bytes, TransactionPrefix.write, Writer.bytes. cbn [extra with_extra]. rewrite length_app. lia. Qed.

Lemma solve_pow_spec ctx p difficulty w p' nonce hashes w' : solve_pow ctx p difficulty w = (Ok (p', nonce, hashes), w') →
  check_hash (cn_upx_hash (TransactionPrefix.to_bytes p')) difficulty = true ∧
  ∃ e, p' = with_extra p e ∧ length e = (length (extra p) + 9)%nat.
Proof.
  unfold solve_pow. cbv zeta. intros Hp. set (e := extra p ++ [TX_EXTRA_TRANSACTION_POW_NONCE] ++ replicate TX_POW_NONCE_SIZE 0) in *.
  assert (length e = length (extra p) + 9)%nat as He by (subst e; rewrite !length_app, length_replicate; done).
  apply send_bind_Ok in Hp as (start & w1 & Hs%draw_Ok & Hp). apply send_bind_Ok in Hp as (remote & w2 & Hr%draw_Ok & Hp).
  apply send_bind_Ok in Hp as ([n k] & w3 & Hn & Hp). apply send_ret_Ok in Hp as [[= -> -> ->] ->].
  set (blob := TransactionPrefix.to_bytes (with_extra p e)) in *.
  assert (TX_POW_NONCE_SIZE ≤ length blob)%nat as Hb.
  { pose proof (prefix_has_nonce p e) as Hx. fold blob in Hx. change TX_POW_NONCE_SIZE with 8%nat. lia. }
  assert (∀ r w1 w2, transaction_pow_search blob difficulty start (bc_pow_threads ctx) w1 = (Some r, w2) →
    length r.1 = TX_POW_NONCE_SIZE ∧ nonce_satisfies blob r.1 difficulty = true) as Hsearch.
  { intros [r1 r2] v1 v2 Hv. pose proof (pow_search_spec blob difficulty start (bc_pow_threads ctx) v1 (pow_nonce_start_typed _ _ _ Hs) Hb) as Hx. by rewrite Hv in Hx. }
  assert (length n = TX_POW_NONCE_SIZE ∧ nonce_satisfies blob n difficulty = true) as [Hl Hsat].
  { destruct remote as [r|]; [destruct (nonce_satisfies blob r difficulty) eqn:E|].
    - apply send_ret_Ok in Hn as [[= -> _] _]. split; [by eapply remote_pow_typed|done].
    - apply send_bind_Ok in Hn as (r' & w4 & Hd%draw_Ok & [Ho%ok_or_Ok _]%pure_Ok). subst r'. by apply Hsearch in Hd.
    - apply send_bind_Ok in Hn as (r' & w4 & Hd%draw_Ok & [Ho%ok_or_Ok _]%pure_Ok). subst r'. by apply Hsearch in Hd. }
  cbn [with_extra extra]. split; [|exists (with_nonce e n); split; [done|]; rewrite with_nonce_length; [done|rewrite He; change TX_POW_NONCE_SIZE with 8%nat; lia|done]].
  assert (TX_POW_NONCE_SIZE ≤ length e)%nat as Hle by (rewrite He; change TX_POW_NONCE_SIZE with 8%nat; lia).
  change (with_extra (with_extra p e) (with_nonce e n)) with (with_extra p (with_nonce e n)). rewrite to_bytes_with_nonce by done. fold blob.
  revert Hsat. unfold nonce_satisfies. by assert ((length blob <? TX_POW_NONCE_SIZE)%nat = false) as -> by (apply Nat.ltb_ge; lia).
Qed.

Lemma pow_difficulty_positive h fusion i o d : 0 ≤ i → 0 ≤ o → transaction_pow_difficulty h fusion i o = Some d → 0 < d.
Proof.
  intros Hi Ho. unfold transaction_pow_difficulty. case_match; [done|]. intros [= <-]. repeat case_match; try done.
  unfold saturating_add, saturating_mul, TRANSACTION_POW_DIFFICULTY_DYN_V1, MULTIPLIER_TRANSACTION_POW_DIFFICULTY_FACTORED_OUT_V1, MULTIPLIER_TRANSACTION_POW_DIFFICULTY_PER_IO_V1. lia.
Qed.

Lemma add_pow_spec ctx tx w tx' nonce d hashes w' : add_pow ctx tx w = (Ok (tx', nonce, d, hashes), w') →
  signatures tx' = signatures tx ∧ (∃ e, prefix tx' = with_extra (prefix tx) e ∧ (length e ≤ length (extra (prefix tx)) + 9)%nat) ∧
  (TRANSACTION_POW_HEIGHT ≤ bc_network_height ctx →
    check_hash (cn_upx_hash (TransactionPrefix.to_bytes (prefix tx'))) (pow_difficulty tx' (bc_is_fusion ctx) (bc_network_height ctx)) = true ∨
    fee_escape (default 0 (sum_transaction_fee tx')) (bc_is_fusion ctx) (bc_network_height ctx) = true).
Proof.
  unfold add_pow. cbv zeta. destruct (needs_pow ctx tx) eqn:En; [destruct (default 0 _ =? 0) eqn:Ed; bool_hyps|].
  - intros [[= -> _ _ _] _]%send_ret_Ok. split; [done|]. split; [exists (extra (prefix tx)); split; [by destruct (prefix tx)|lia]|]. intros Hh. exfalso.
    destruct (transaction_pow_difficulty _ _ _ _) as [d0|] eqn:Et; [|unfold transaction_pow_difficulty in Et; case_match; [lia|done]].
    apply pow_difficulty_positive in Et; [|lia..]. cbn in Ed. lia.
  - intros Hp. apply send_bind_Ok in Hp as ([[p n] k] & w1 & Hs & [[= -> -> -> ->] _]%send_ret_Ok). apply solve_pow_spec in Hs as [Hc (e & -> & He)].
    split; [done|]. split; [exists e; split; [done|lia]|]. intros _. left. exact Hc.
  - change (0 =? 0) with true. intros [[= -> _ _ _] _]%send_ret_Ok. split; [done|]. split; [exists (extra (prefix tx)); split; [by destruct (prefix tx)|lia]|]. intros _. right.
    unfold needs_pow in En. unfold fee_escape. bool_hyps. rewrite !andb_true_iff, negb_true_iff, !Z.leb_le. split; [split; [lia|done]|lia].
Qed.

End Pow.

(** * The extra field *)

Section Extra.
Context `{C : Crypto} `{CurveKeys} `{CurveSecrets}.

Lemma parse_hex_length n s bs : (length s ≤ n)%nat → parse_hex s = Some bs → length s = (2 * length bs)%nat.
Proof.
  revert s bs. induction n as [|n IH]; intros [|hi [|lo s]] bs Hn; cbn [parse_hex]; try done; try (by intros [= <-]); [cbn in Hn; lia|].
  intros (a & _ & (b & _ & (out & Ho & [= <-])%bind_Some)%bind_Some)%bind_Some. apply IH in Ho; [|cbn in Hn; lia]. cbn. lia.
Qed.

Definition payment_id_bytes (id : PaymentId) : bytes := match id with Long b | EncryptedShort b => b end.

Lemma payment_id_field_length ctx k id : payment_id_field ctx k = Ok (Some id) → (length (payment_id_bytes id) ≤ 32)%nat.
Proof.
  unfold payment_id_field. cbv zeta. case_match; [done|]. case_match.
  - intros (view & _ & Hp)%result_bind_Ok. case_match; [done|]. apply result_bind_Ok in Hp as (bs & Hb%ok_or_Ok & [= <-]).
    apply (parse_hex_length _ _ _ (Nat.le_refl _)) in Hb. rewrite length_take in Hb. cbn. lia.
  - intros (bs & Hb%ok_or_Ok & [= <-])%result_bind_Ok. unfold parse_hex32 in Hb. case_match eqn:E; [|done]. apply Nat.eqb_eq in E.
    apply (parse_hex_length _ _ _ (Nat.le_refl _)) in Hb. cbn. lia.
Qed.

Lemma varint_write_length w v : 0 ≤ v → (length (varint.write w v) ≤ length w + 10)%nat.
Proof. intros Hv. unfold varint.write. rewrite varint.write_loop_leb by done. rewrite length_app. pose proof (varint.leb_length 10 v). lia. Qed.

Lemma extra_length pk id data : length pk = 32%nat → (∀ i, id = Some i → (length (payment_id_bytes i) ≤ 32)%nat) →
  (length (build_wallet_extra pk (build_extra_nonce id data) None) ≤ length data + 88)%nat.
Proof.
  intros Hpk Hid. assert (length (build_extra_nonce id data) ≤ length data + 44)%nat as Hn.
  { unfold build_extra_nonce, build_nonce. set (out := match id with Some _ => _ | None => _ end).
    assert (length out ≤ 33)%nat by (subst out; destruct id as [[i|i]|]; cbn; [specialize (Hid _ eq_refl); cbn in Hid; lia..|lia]).
    destruct data as [|x data]; cbn [is_empty]; [cbn [length]; lia|]. rewrite length_app.
    pose proof (varint_write_length (out ++ [TX_EXTRA_ARBITRARY_DATA]) (Z.of_nat (length (x :: data))) ltac:(lia)) as Hv. rewrite length_app in Hv. cbn [length] in *. lia. }
  unfold build_wallet_extra. set (nonce := build_extra_nonce id data) in *. rewrite app_nil_r. cbn [length]. rewrite length_app, Hpk. destruct (is_empty nonce); cbn [length]; [lia|].
  rewrite length_app. pose proof (varint_write_length [TX_EXTRA_NONCE] (Z.of_nat (length nonce)) ltac:(lia)) as Hv. cbn [length] in Hv. lia.
Qed.

End Extra.

(** * The whole transaction *)

Section Build.
Context `{C : Crypto} `{CurveKeys} `{CurveSecrets} `{TransferRandom W} `{TransferDaemon W} `{Platform W} `{!TransferTyped W}.
Variable chain_member : Z → Z * bytes → Prop.

(** A derived output key is a point of the curve. *)
Definition derives_keys : Prop := ∀ derivation index spend key, derive_public_key derivation index spend = Some key → check_key key = true.

(** Each ring of the transaction, with its signatures, in the order of the inputs. *)
Definition signed_ring (hash : Hash) (r : ObscuredInput) (s : list bytes) : Prop :=
  length s = length (ob_ring r) ∧ check_ring_signature hash (ob_key_image r) (map snd (ob_ring r)) s = true.

Record built_spec (ctx : BuildContext) (ins : list OwnedSpendableInput) (ds : list TransactionDestination) (b : Built) : Prop := {
  bs_sources : b_inputs b ≡ₚ ins;
  bs_rings : Forall2 (ring_spec chain_member (bc_mixin ctx)) (b_inputs b) (b_rings b);
  bs_inputs : inputs (prefix (b_transaction b)) = map (λ o, Key (ob_amount o) (relative_offsets (ob_ring o)) (ob_key_image o)) (b_rings b);
  bs_signatures : Forall2 (signed_ring (prefix_hash (b_transaction b))) (b_rings b) (signatures (b_transaction b));
  bs_amounts : map o_amount (outputs (prefix (b_transaction b))) = map d_amount (sort_by_key d_amount ds);
  bs_keys : Forall (λ o, check_key (o_key o) = true) (outputs (prefix (b_transaction b)));
  bs_count : Z.of_nat (length (outputs (prefix (b_transaction b)))) ≤ NORMAL_TX_MAX_OUTPUT_COUNT_V1;
  bs_unlock : unlock_time (prefix (b_transaction b)) = bc_unlock_time ctx;
  bs_extra : (length (extra (prefix (b_transaction b))) ≤ length (bc_extra_data ctx) + 97)%nat;
  bs_pow : TRANSACTION_POW_HEIGHT ≤ bc_network_height ctx →
    check_hash (cn_upx_hash (TransactionPrefix.to_bytes (prefix (b_transaction b)))) (pow_difficulty (b_transaction b) (bc_is_fusion ctx) (bc_network_height ctx)) = true ∨
    fee_escape (default 0 (sum_transaction_fee (b_transaction b))) (bc_is_fusion ctx) (bc_network_height ctx) = true;
  bs_blob : ∃ blob, Transaction.to_bytes (b_transaction b) = Ok blob ∧ b_size b = Z.of_nat (length blob)
}.

Lemma derive_outputs_spec secret i ds outs : derives_keys → Transfer.derive_outputs secret i ds = Ok outs →
  map ko_amount outs = map d_amount ds ∧ Forall (λ o, check_key (ko_key o) = true) outs.
Proof.
  intros Hd. revert i outs. induction ds as [|d ds IH]; intros i outs; cbn [Transfer.derive_outputs]; [by intros [= <-]|].
  intros (der & _ & (key & Hk%ok_or_Ok & (rest & Hr & [= <-])%result_bind_Ok)%result_bind_Ok)%result_bind_Ok. apply IH in Hr as [Ha Hc].
  cbn. rewrite Ha. split; [done|]. constructor; [by eapply Hd|done].
Qed.

Lemma ring_spec_secret mixin sources obs obs' : Forall2 (ring_spec chain_member mixin) sources obs →
  Forall2 (λ o o', ob_amount o' = ob_amount o ∧ ob_key_image o' = ob_key_image o ∧ ob_ring o' = ob_ring o ∧ real_output o' = real_output o) obs obs' →
  Forall2 (ring_spec chain_member mixin) sources obs'.
Proof.
  intros HF. revert obs'. induction HF as [|s o sources obs Ho HF IH]; intros obs' H'; inversion_clear H' as [|? o' ? os' (Ea & Ei & Er & Ep)]; constructor; [|auto].
  destruct Ho as [? ? ? ? ? ?]. split; rewrite ?Ea, ?Ei, ?Er, ?Ep; done.
Qed.

Lemma make_transaction_spec ctx ins ds w b w' : honest_daemon chain_member → signs_each → derives_keys → 0 ≤ bc_mixin ctx →
  Forall (λ s, ∀ g, ti_global_output_index (ow_input s) = Some g → chain_member (ti_amount (ow_input s)) (g, ti_key (ow_input s))) ins →
  make_transaction ctx ins ds w = (Ok b, w') → built_spec ctx ins ds b.
Proof.
  intros Hd Hsg Hk Hm Hs. unfold make_transaction. intros Hp.
  apply send_bind_Ok in Hp as ([[obs sorted] m] & w1 & Hprep & Hp). apply (prepare_ring_participants_spec chain_member) in Hprep as [Hperm Hrings]; [|done..].
  apply send_bind_Ok in Hp as ([[tins secrets] rings] & w2 & [Hin ->]%inner_Ok & Hp).
  apply setup_inputs_spec in Hin as (Hins & Hlen & Hsame); [|by apply Forall2_length in Hrings]. pose proof (ring_spec_secret _ _ _ _ Hrings Hsame) as Hrings'.
  apply send_bind_Ok in Hp as ([[outs txk] pk] & w3 & Hout%lifted_Ok & Hp). unfold setup_outputs in Hout.
  apply send_bind_Ok in Hout as ([sk pk'] & w4 & Hkp%draw_Ok & Hout). apply send_bind_Ok in Hout as (outs' & w5 & [Hder ->]%pure_Ok & [[= -> -> ->] ->]%send_ret_Ok).
  apply derive_outputs_spec in Hder as [Ham Hck]; [|done]. apply key_pair_typed in Hkp.
  apply send_bind_Ok in Hp as (pid & w6 & [Hpid ->]%inner_Ok & Hp). cbv zeta in Hp.
  apply send_bind_Ok in Hp as ([] & w7 & [Hcount ->]%check_Ok & Hp).
  apply send_bind_Ok in Hp as ([[[tx1 pn] pd] ph] & w8 & Hpow%lifted_Ok & Hp). apply add_pow_spec in Hpow as (Hsig0 & (e & Hpre & He) & Hpow).
  apply send_bind_Ok in Hp as (tx2 & w9 & Hsigs%lifted_Ok & Hp).
  apply generate_ring_signatures_spec in Hsigs as [Hpre2 Hsigs]; [|done|rewrite Hlen; by eapply Forall2_length|done].
  apply send_bind_Ok in Hp as (blob & w10 & [Hrt ->]%inner_Ok & [-> ->]%send_ret_Ok). cbn [prefix signatures extra] in *.
  unfold round_trip in Hrt. apply result_bind_Ok in Hrt as (blob' & Hblob%map_err_Ok & (rt & _ & Hrt)%result_bind_Ok). case_match; [|done]. injection Hrt as ->.
  assert (unlock_time (prefix tx2) = bc_unlock_time ctx ∧ inputs (prefix tx2) = tins ∧
    outputs (prefix tx2) = map (λ o, mkOutput (ko_amount o) (ko_key o)) outs' ∧ extra (prefix tx2) = e) as (Eu & Ei & Eo & Ee) by (rewrite Hpre2, Hpre; done).
  split; cbn [b_inputs b_rings b_transaction b_size].
  - done.
  - done.
  - by rewrite Ei.
  - exact Hsigs.
  - rewrite Eo, map_map. exact Ham.
  - rewrite Eo. apply Forall_map. exact Hck.
  - rewrite Eo. apply negb_true_iff, Z.ltb_ge in Hcount. done.
  - done.
  - rewrite Ee. pose proof (extra_length pk' pid (bc_extra_data ctx) Hkp) as Hxl.
    assert (∀ i, pid = Some i → (length (payment_id_bytes i) ≤ 32)%nat) as Hi by (intros i ->; by eapply payment_id_field_length). specialize (Hxl Hi). lia.
  - unfold pow_difficulty, sum_transaction_fee in *. rewrite Hpre2. exact Hpow.
  - by exists blob.
Qed.

End Build.
