(* ===== verification/TransferAccept.v ===== *)
(** The wallet against the node: a transaction that [prepare_transaction]
    (crates/wrkz-wallet/src/transfer.rs) returns is one that
    [validate_transaction_with_threads] (crates/wrkz-chain/src/validate.rs) accepts at the
    heights the wallet was told, with the fee the wallet reports. *)
From stdpp Require Import gmap sets sorting.
From S2P Require Import Prelude Constants F64 Hashing Cryptonight Curve Varint Ser Tx TxExtra Base58 Fees Reward Checkpoints Records Validate Accept.
From S2P Require Import Wallet WalletSync Transfer TransferSpec TransferRings TransferBuild.
Local Open Scope Z_scope.

(** Sums of [u64]s, as the source keeps them. *)
Definition eqm (a b : Z) : Prop := wrap 64 a = wrap 64 b.

#[export] Instance eqm_equivalence : Equivalence eqm.
Proof. split; [intros ?; reflexivity|intros ???; by symmetry|intros ? y ? ??; by transitivity (wrap 64 y)]. Qed.

#[export] Instance eqm_add : Proper (eqm ==> eqm ==> eqm) Z.add.
Proof. intros a a' Ha b b' Hb. unfold eqm, wrap in *. rewrite Zplus_mod, Ha, Hb. by rewrite <- Zplus_mod. Qed.

#[export] Instance eqm_sub : Proper (eqm ==> eqm ==> eqm) Z.sub.
Proof. intros a a' Ha b b' Hb. unfold eqm, wrap in *. rewrite Zminus_mod, Ha, Hb. by rewrite <- Zminus_mod. Qed.

Lemma eqm_wrap a : eqm (wrap 64 a) a.
Proof. unfold eqm, wrap. by rewrite Zmod_mod. Qed.

Lemma eqm_eq a b : is_u64 a → is_u64 b → eqm a b → a = b.
Proof. intros Ha Hb He. unfold eqm in He. by rewrite !wrap_small in He. Qed.

(** * Destinations *)

Section Destinations.
Context `{C : Crypto}.

Lemma collect_concat_total (l : list (bytes * Z)) (lds : list (list TransactionDestination)) : Forall (λ x, is_u64 x.2) l →
  Forall2 (λ x ds, ∃ keys, ds = map (λ d, mkDestination d (spend_public_key keys) (view_public_key keys)) (split_amount_into_denominations x.2 true)) l lds →
  total (map d_amount (concat lds)) = total (map snd l) ∧ Forall (λ d, piece_ok (d_amount d)) (concat lds).
Proof.
  intros Hu HF. induction HF as [|x ds l lds (keys & ->) HF IH]; [done|]. apply Forall_cons in Hu as [Hx Hu]. destruct (IH Hu) as [IH1 IH2].
  destruct (split_amount_pieces x.2 Hx) as [Ht Hp]. cbn [concat map]. rewrite map_app, total_app, map_map, IH1, Forall_app. cbn [d_amount]. rewrite map_id.
  rewrite Ht. split; [done|]. split; [|done]. by apply Forall_map.
Qed.

Lemma setup_destinations_spec l change addr ds : Forall (λ x, is_u64 x.2) l → is_u64 change → setup_destinations l change addr = Ok ds →
  total (map d_amount ds) = total (map snd l) + change ∧ Forall (λ d, piece_ok (d_amount d)) ds.
Proof.
  intros Hl Hc. unfold setup_destinations. cbv zeta. intros (lds & Hd%collect_Ok & [= <-])%result_bind_Ok.
  set (all := l ++ _) in *. assert (total (map snd all) = total (map snd l) + change ∧ Forall (λ x, is_u64 x.2) all) as [<- Hall].
  { subst all. rewrite map_app, total_app, Forall_app. destruct (change =? 0) eqn:E; bool_hyps; (split; [cbn; lia|split; [exact Hl|]]); [by apply Forall_nil|by apply Forall_singleton]. }
  apply collect_concat_total; [done|]. eapply Forall2_impl; [exact Hd|]. intros [a n] x (keys & _ & Hx)%result_bind_Ok. exists keys. cbn [snd]. congruence.
Qed.

End Destinations.

(** * What the wallet relies on *)

Section Accept.
Context `{C : Crypto} `{A : ChainAccess F} `{!ChainAccessLaws A}.
Context `{CurveKeys} `{CurveSecrets} `{TransferRandom W} `{TransferDaemon W} `{Platform W} `{!TransferTyped W}.
Variable ctx : TxContext.
Variable st : gset Hash.

(** An output of the chain that a ring may hold. *)
Definition chain_member (amount : Z) (m : Z * bytes) : Prop :=
  0 ≤ m.1 < 2 ^ 32 ∧ ∃ rec, key_output amount m.1 = Ok (Some rec) ∧ public_key rec = m.2 ∧ is_spend_time_unlocked (or_unlock_time rec) (block_height ctx) = true.

(** An input the wallet holds for unspent is one: its output, when the index is known, is on
    the chain, and its key image is good and new. *)
Definition spendable (s : OwnedSpendableInput) : Prop :=
  is_u64 (ti_amount (ow_input s)) ∧ key_image_in_prime_subgroup (ti_key_image (ow_input s)) = true ∧
  key_image_spent (ti_key_image (ow_input s)) (block_height ctx) = Ok false ∧ ti_key_image (ow_input s) ∉ st ∧
  ∀ g, ti_global_output_index (ow_input s) = Some g → chain_member (ti_amount (ow_input s)) (g, ti_key (ow_input s)).

Definition image (s : OwnedSpendableInput) : Hash := ti_key_image (ow_input s).

#[local] Opaque check_hash cn_upx_hash cn_fast_hash.

Lemma ring_inputs_ok mixin sources rings : 0 ≤ mixin → Forall spendable sources → Forall2 (ring_spec chain_member mixin) sources rings →
  Forall (λ o, (relative_offsets_to_absolute (relative_offsets (ob_ring o)) = Some (ob_ring o).*1 ∧ relative_offsets (ob_ring o) ≠ [] ∧
    ¬ (0 ∈ tail (relative_offsets (ob_ring o))) ∧ length (relative_offsets (ob_ring o)) = length (ob_ring o)) ∧
    key_image_in_prime_subgroup (ob_key_image o) = true ∧ key_image_spent (ob_key_image o) (block_height ctx) = Ok false ∧
    Forall (chain_member (ob_amount o)) (ob_ring o) ∧ Z.of_nat (length (ob_ring o)) = mixin + 1) rings.
Proof.
  intros Hm Hs HF. induction HF as [|s o sources rings [Ea Ei Has Hme Hl _] HF IH]; [constructor|]. apply Forall_cons in Hs as [(_ & Hsub & Hnew & _ & _) Hs].
  constructor; [|by apply IH]. rewrite Ei. split; [|split; [exact Hsub|split; [exact Hnew|split; [exact Hme|exact Hl]]]].
  apply relative_offsets_spec; [intros Hn; rewrite Hn in Hl; cbn in Hl; lia| |exact Has].
  apply Forall_map. eapply Forall_impl; [exact Hme|]. intros [g k] [Hg _]. exact Hg.
Qed.

Lemma ring_records amount ring : Forall (chain_member amount) ring →
  ∃ recs, Forall2 (λ g rec, key_output amount g = Ok (Some rec) ∧ is_spend_time_unlocked (or_unlock_time rec) (block_height ctx) = true) ring.*1 recs ∧
    map public_key recs = map snd ring ∧ length recs = length ring.
Proof.
  induction 1 as [|[g k] ring (_ & rec & Hr & Hk & Hu) _ (recs & HF & Hp & Hl)]; [by exists []|]. exists (rec :: recs). cbn in *. rewrite Hp, Hl, Hk. by split_and!; [constructor|..].
Qed.

Lemma key_images_of_rings (rings : list ObscuredInput) : key_images (map (λ o, Key (ob_amount o) (relative_offsets (ob_ring o)) (ob_key_image o)) rings) = map ob_key_image rings.
Proof. unfold key_images. induction rings as [|o rings IH]; [done|]. cbn. by rewrite <- IH. Qed.

Lemma input_amounts_of_rings (rings : list ObscuredInput) :
  TransactionPrefix.input_amounts (map (λ o, Key (ob_amount o) (relative_offsets (ob_ring o)) (ob_key_image o)) rings) = map ob_amount rings.
Proof. unfold TransactionPrefix.input_amounts. induction rings as [|o rings IH]; [done|]. cbn. by rewrite <- IH. Qed.

Lemma ring_images mixin sources rings : Forall2 (ring_spec chain_member mixin) sources rings → map ob_key_image rings = map image sources.
Proof. induction 1 as [|s o sources rings [Ea Ei _ _ _ _] HF IH]; [done|]. cbn. by rewrite Ei, IH. Qed.

Lemma ring_amounts mixin sources rings : Forall2 (ring_spec chain_member mixin) sources rings → map ob_amount rings = map (λ s, ti_amount (ow_input s)) sources.
Proof. induction 1 as [|s o sources rings [Ea Ei _ _ _ _] HF IH]; [done|]. cbn. by rewrite Ea, IH. Qed.

(** Every ring has [mixin + 1] members, and [mixin] is in the range of the height. *)
Lemma ring_sizes_ok mixin h (rings : list ObscuredInput) : 0 ≤ mixin < u64_max - 1 → Transfer.validate_mixin mixin h = Ok () → rings ≠ [] →
  Forall (λ o, Z.of_nat (length (relative_offsets (ob_ring o))) = mixin + 1) rings →
  validate_ring_sizes (map Z.of_nat (omap (λ i, match i with Key _ key_offsets _ => Some (length key_offsets) | _ => None end)
    (map (λ o, Key (ob_amount o) (relative_offsets (ob_ring o)) (ob_key_image o)) rings))) h = Ok ().
Proof.
  intros Hm Hv Hn HF. set (l := map Z.of_nat _). assert (Forall (λ r, r = mixin + 1) l ∧ l ≠ []) as [Hl Hl0].
  { subst l. split; [clear Hn; induction HF as [|o rings Ho HF IH]; [constructor|]; cbn; by constructor|by destruct rings]. }
  unfold Transfer.validate_mixin in Hv. cbv zeta in Hv. case_match eqn:E1; [done|]. case_match eqn:E2; [done|]. bool_hyps.
  apply ring_sizes_rule; [eapply Forall_impl; [exact Hl|]; cbn; lia|]. split; [eapply Forall_impl; [exact Hl|]; cbn; lia|]. right.
  destruct (_ <=? h); [split; [done|]; eapply Forall_impl; [exact Hl|]; cbn; lia|]. destruct l as [|r l]; [done|]. apply Forall_cons in Hl as [-> _]. left. lia.
Qed.

Lemma write_signatures_length w ins sigs blob : Transaction.write_signatures w ins sigs = Ok blob → (length w ≤ length blob)%nat.
Proof.
  revert w sigs. induction ins as [|i ins IH]; intros w [|s sigs]; cbn [Transaction.write_signatures]; try (by intros [= <-]).
  case_match; [done|]. intros Hw%IH. assert (∀ l w, length w ≤ length (foldl Writer.raw w l))%nat as Hf; [|specialize (Hf s w); lia].
  clear. induction l as [|x l IH]; intros w; cbn; [lia|]. specialize (IH (Writer.raw w x)). unfold Writer.raw in *. rewrite length_app in IH. lia.
Qed.

Lemma to_bytes_nonempty tx blob : Transaction.to_bytes tx = Ok blob → (0 < length blob)%nat.
Proof.
  unfold Transaction.to_bytes, Transaction.write. set (w := TransactionPrefix.write [] (prefix tx)). assert (0 < length w)%nat as Hw.
  { subst w. unfold TransactionPrefix.write, Writer.bytes, Writer.varint at 1, varint.write. rewrite varint.write_loop_leb by lia. rewrite !length_app.
    assert (∀ v, 0 < length (varint.leb 10 v))%nat as Hl by (intros v; cbn; case_match; cbn; lia). specialize (Hl (Z.of_nat (length (extra (prefix tx))))). lia. }
  destruct (signatures tx); [case_match; [done|]; by intros [= <-]|]. case_match; [done|]. intros Hs%write_signatures_length. lia.
Qed.

(** Above 1,500,000 the minimum is at least ten. *)
Definition live_height (h : Z) : Prop := 1_500_000 < h < 2 ^ 53.

Lemma minimum_fee_live size h : live_height h → 0 ≤ size < 2 ^ 40 → minimum_transaction_fee size h = 10 * div_ceil size 128 ∧ required_minimum_fee size h = minimum_transaction_fee size h.
Proof.
  intros [Hh1 Hh2] Hs. assert (required_minimum_fee size h = minimum_transaction_fee size h) as Hr.
  { unfold required_minimum_fee. by assert ((MINIMUM_FEE_PER_BYTE_V1_HEIGHT <=? h) = true) as -> by (unfold MINIMUM_FEE_PER_BYTE_V1_HEIGHT; lia). }
  split; [|done]. rewrite <- Hr, required_minimum_fee_schedule by lia. unfold fee_schedule.
  assert ((h <=? 678_501) = false) as -> by lia. assert ((h <? 832_000) = false) as -> by lia. by assert ((h <? 1_500_000) = false) as -> by lia.
Qed.

Lemma fusion_needs_no_fee p size h si so : live_height h → is_u64 si → TransactionPrefix.sum_inputs p = Some si → TransactionPrefix.sum_outputs p = Some so →
  Forall is_u64 (TransactionPrefix.input_amounts (inputs p)) → Forall is_u64 (map o_amount (outputs p)) → so < si → is_fusion_transaction p size h = false.
Proof.
  intros [Hh _] Hu Hi Ho Hui Huo Hlt. apply not_true_iff_false. intros (Hf & _)%fusion_outputs.
  apply try_sum_Some in Hi as [-> _]; [|done|lia]. apply try_sum_Some in Ho as [-> _]; [|done|lia]. rewrite !Z.add_0_l in *. rewrite Hf in Hlt. unfold fusion_fee in Hlt.
  assert ((h <? FUSION_ZERO_FEE_V2_HEIGHT) = false) as E by (unfold FUSION_ZERO_FEE_V2_HEIGHT; lia). rewrite E, andb_false_r, Z.sub_0_r in Hlt. rewrite wrap_small in Hlt by done. lia.
Qed.

Lemma rings_accepted mixin tx sources rings k i : 0 ≤ mixin → Forall spendable sources → Forall2 (ring_spec chain_member mixin) sources rings →
  Forall2 (signed_ring (prefix_hash tx)) rings (signatures tx) →
  inputs (prefix tx) = map (λ o, Key (ob_amount o) (relative_offsets (ob_ring o)) (ob_key_image o)) rings → inputs (prefix tx) !! k = Some i → ring_ok tx ctx k i.
Proof.
  intros Hm Hs HF Hsig Hin Hk. pose proof (ring_inputs_ok mixin sources rings Hm Hs HF) as Hok. rewrite Hin in Hk.
  apply list_lookup_fmap_Some in Hk as (o & -> & Ho). eapply Forall_lookup_1 in Hok as ((Habs & _) & _ & Hnew & Hmem & _); [|exact Ho].
  eapply Forall2_lookup_l in Hsig as (sigs & Hsigs & Hlen & Hcheck); [|exact Ho]. destruct (ring_records _ _ Hmem) as (recs & HF2 & Hpub & Hlr).
  split; [exact Hnew|]. exists (ob_ring o).*1, recs. split; [exact Habs|]. split; [exact HF2|]. cbv zeta. rewrite Hsigs. cbn [default from_option id].
  rewrite Hlr, Hlen, Hpub. split; [lia|]. split; [done|]. rewrite <- Hlen, take_ge by lia. exact Hcheck.
Qed.

Lemma built_acceptable bctx ins ds b blob fee : built_spec chain_member bctx ins ds b → ins ≠ [] → Forall spendable ins → NoDup (map image ins) →
  Forall (λ d, piece_ok (d_amount d)) ds → bc_is_fusion bctx = false → bc_network_height bctx = block_height ctx → live_height (block_height ctx) →
  Transaction.to_bytes (b_transaction b) = Ok blob → Z.of_nat (length blob) ≤ max_size (block_median_size ctx) → Z.of_nat (length blob) < 2 ^ 40 →
  sum_transaction_fee (b_transaction b) = Some fee → minimum_transaction_fee (Z.of_nat (length blob)) (block_height ctx) ≤ fee →
  0 ≤ bc_mixin bctx < u64_max - 1 → Transfer.validate_mixin (bc_mixin bctx) (block_height ctx) = Ok () → (length (bc_extra_data bctx) ≤ 900)%nat →
  validate_unlock_time (b_transaction b) (block_height ctx) (block_timestamp ctx) = Ok () →
  acceptable st (b_transaction b) blob ctx (mkTxValidation fee false).
Proof.
  intros [Hperm Hrings Hin Hsig Ham Hkeys Hcount _ Hextra Hpow _] Hn Hs Hnd Hp Hnf Hh Hlive Hblob Hsize Hsmall Hfee Hmin Hm Hmix Hx Hunlock.
  assert (Forall spendable (b_inputs b)) as Hs' by (by rewrite Hperm). pose proof (to_bytes_nonempty _ _ Hblob) as Hpos.
  pose proof (ring_inputs_ok _ _ _ (proj1 Hm) Hs' Hrings) as Hok. set (tx := b_transaction b) in *.
  assert (Forall is_u64 (TransactionPrefix.input_amounts (inputs (prefix tx)))) as Hui.
  { rewrite Hin, input_amounts_of_rings, (ring_amounts _ _ _ Hrings). apply Forall_map. eapply Forall_impl; [exact Hs'|]. intros s (Hu & _). exact Hu. }
  assert (Forall (λ a, piece_ok a) (map o_amount (outputs (prefix tx)))) as Hpo by (rewrite Ham; apply Forall_map; rewrite sort_by_key_Permutation; exact Hp).
  assert (Forall is_u64 (map o_amount (outputs (prefix tx)))) as Huo by (eapply Forall_impl; [exact Hpo|]; intros a [_ Ha]; unfold in_u, MAX_OUTPUT_SIZE_CLIENT in *; lia).
  destruct (minimum_fee_live (Z.of_nat (length blob)) (block_height ctx) Hlive ltac:(lia)) as [Hten Hreq]. rewrite Hten in Hmin.
  assert (0 < div_ceil (Z.of_nat (length blob)) 128) as Hd by (unfold div_ceil; apply Z.div_str_pos; lia).
  unfold sum_transaction_fee in Hfee. apply bind_Some in Hfee as (si & Hsi & (so & Hso & [Hle Hf]%checked_sub_Some)%bind_Some).
  assert (is_u64 si) as Husi by (unfold TransactionPrefix.sum_inputs in Hsi; apply try_sum_Some in Hsi as [-> ?]; [|done|lia]; pose proof (total_nonneg _ Hui); unfold in_u; lia).
  assert (0 ≤ so) as Hso0 by (unfold TransactionPrefix.sum_outputs in Hso; apply try_sum_Some in Hso as [-> ?]; [|done|lia]; pose proof (total_nonneg _ Huo); lia).
  assert (length (b_rings b) = length (b_inputs b)) as Hlen by (symmetry; by eapply Forall2_length).
  assert (b_inputs b ≠ []) as Hbn by (intros E; rewrite E in Hperm; by apply Permutation_nil_l in Hperm).
  assert (b_rings b ≠ []) as Hrn by (intros E; rewrite E in Hlen; by destruct (b_inputs b)).
  assert (map ob_key_image (b_rings b) ≡ₚ map image ins) as Himg by (rewrite (ring_images _ _ _ Hrings); by apply Permutation_map).
  split.
  - exact Hsize.
  - rewrite Hin. by destruct (b_rings b).
  - rewrite Hin. apply Forall_map. eapply Forall_impl; [exact Hok|]. intros o ((_ & Ho1 & Ho2 & _) & Ho3 & _). exact (conj Ho1 (conj Ho2 Ho3)).
  - rewrite Hin, key_images_of_rings, Himg. exact Hnd.
  - intros i. rewrite Hin, key_images_of_rings, Himg. intros (s & -> & Hi)%list_elem_of_fmap. eapply Forall_forall in Hs as (_ & _ & _ & Hs & _); [|exact Hi]. exact Hs.
  - apply Forall_forall. intros o Ho. eapply Forall_forall in Hkeys; [|exact Ho]. rewrite Forall_forall in Hpo. destruct (Hpo (o_amount o)) as [_ Hpo']; [by apply list_elem_of_fmap_2|].
    unfold output_ok, MAX_OUTPUT_SIZE_CLIENT, MAX_OUTPUT_SIZE_NODE in *. split; [lia|]. split; [intros _; lia|exact Hkeys].
  - exists si, so. split_and!; [done|done|lia|done|done].
  - split; cbn [v_is_fusion v_fee].
    + symmetry. eapply fusion_needs_no_fee; [done|exact Husi|exact Hsi|exact Hso|exact Hui|exact Huo|lia].
    + unfold is_valid_normal_fee. rewrite Hreq, Hten, andb_true_iff, negb_true_iff, Z.eqb_neq, Z.leb_le. lia.
  - unfold validate_extra. assert ((MAX_EXTRA_SIZE_V2 <=? Z.of_nat (length (extra (prefix tx)))) = false) as -> by (unfold MAX_EXTRA_SIZE_V2; lia). by rewrite andb_false_r.
  - exact Hunlock.
  - unfold validate_input_output_ratio. assert ((NORMAL_TX_MAX_OUTPUT_COUNT_V1 <? Z.of_nat (length (outputs (prefix tx)))) = false) as -> by lia. by rewrite andb_false_r.
  - unfold TransactionPrefix.ring_sizes. rewrite Hin. apply (ring_sizes_ok (bc_mixin bctx)); [lia|exact Hmix|exact Hrn|].
    eapply Forall_impl; [exact Hok|]. intros o ((_ & _ & _ & ->) & _ & _ & _ & Ho). exact Ho.
  - intros Hhp _. cbn [v_is_fusion v_fee]. rewrite Hh, Hnf in Hpow. destruct (Hpow Hhp) as [Hl|Hr]; [by left|right].
    assert (sum_transaction_fee tx = Some fee) as E; [|by rewrite E in Hr]. unfold sum_transaction_fee. rewrite Hsi. cbn [mbind option_bind]. rewrite Hso. cbn [mbind option_bind]. by apply checked_sub_Some.
  - intros k i _ Hk. eapply rings_accepted; [|exact Hs'|exact Hrings|exact Hsig|exact Hin|exact Hk]. lia.
Qed.

(** * The fee *)

Lemma f64_to_u64_bound x : is_u64 (f64_to_u64 x).
Proof.
  unfold f64_to_u64, in_u, u64_max. destruct x as [|[]| |[] m e]; try lia. pose proof (proj2 (Z.shiftl_nonneg (Z.pos m) e) ltac:(lia)). lia.
Qed.

Lemma transaction_fee_u64 size h r : is_u64 (Fees.transaction_fee size h r).
Proof.
  unfold Fees.transaction_fee, MINIMUM_FEE, MINIMUM_FEE_V1. repeat case_match; try apply f64_to_u64_bound; unfold in_u; lia.
Qed.

Definition amounts (ins : list OwnedSpendableInput) : list Z := map (λ s, ti_amount (ow_input s)) ins.

(** The fee is what the inputs leave over the destinations. *)
Lemma built_fee bctx ins ds b fee : built_spec chain_member bctx ins ds b → Forall spendable ins → Forall (λ d, piece_ok (d_amount d)) ds →
  sum_transaction_fee (b_transaction b) = Some fee → fee = total (amounts ins) - total (map d_amount ds) ∧ is_u64 fee.
Proof.
  intros [Hperm Hrings Hin _ Ham _ _ _ _ _ _] Hs Hp Hfee. unfold sum_transaction_fee in Hfee.
  apply bind_Some in Hfee as (si & Hsi & (so & Hso & [Hle ->]%checked_sub_Some)%bind_Some). unfold TransactionPrefix.sum_inputs, TransactionPrefix.sum_outputs in *.
  rewrite Hin, input_amounts_of_rings, (ring_amounts _ _ _ Hrings) in Hsi. rewrite Ham in Hso.
  assert (map (λ s, ti_amount (ow_input s)) (b_inputs b) ≡ₚ amounts ins) as Hpi by (by apply Permutation_map).
  assert (map d_amount (sort_by_key d_amount ds) ≡ₚ map d_amount ds) as Hpo by (apply Permutation_map, sort_by_key_Permutation).
  assert (Forall is_u64 (amounts ins)) as Hu by (apply Forall_map; eapply Forall_impl; [exact Hs|]; intros s (Hu & _); exact Hu).
  assert (Forall is_u64 (map d_amount ds)) as Huo by (apply Forall_map; eapply Forall_impl; [exact Hp|]; intros d [_ Hd]; unfold in_u, MAX_OUTPUT_SIZE_CLIENT in *; lia).
  apply try_sum_Some in Hsi as [-> Hb]; [|by rewrite Hpi|lia]. apply try_sum_Some in Hso as [-> _]; [|by rewrite Hpo|lia].
  rewrite (total_Permutation _ _ Hpi) in *. rewrite (total_Permutation _ _ Hpo) in *. pose proof (total_nonneg _ Hu). pose proof (total_nonneg _ Huo).
  unfold in_u. lia.
Qed.

Section FeeLoop.
Variables (bctx : BuildContext) (ins : list OwnedSpendableInput) (sum : Z) (rate : f64) (addr : bytes) (all : bool) (pre0 : Z) (l0 : list (bytes * Z)).
Hypothesis Hdaemon : honest_daemon chain_member.
Hypothesis Hsigns : signs_each.
Hypothesis Hderives : derives_keys.
Hypothesis Hmixin : 0 ≤ bc_mixin bctx.
Hypothesis Hspend : Forall spendable ins.
Hypothesis Hsum : is_u64 sum ∧ eqm sum (total (amounts ins)).

Record fee_inv (s : FeeState (W := W)) : Prop := {
  fi_amounts : Forall (λ x, is_u64 x.2) (fs_destinations s);
  fi_pre : eqm (total (map snd (fs_destinations s))) (amount_pre_fee s);
  fi_including : is_u64 (amount_including_fee s) ∧ amount_including_fee s ≤ sum;
  fi_all : all = true → length (fs_destinations s) = 1%nat;
  fi_same : all = false → fs_destinations s = l0 ∧ amount_pre_fee s = pre0
}.

(** The transaction pays what its own size costs. *)
Definition pays (b : Built) : Prop := ∀ fee, sum_transaction_fee (b_transaction b) = Some fee → Fees.transaction_fee (b_size b) (bc_network_height bctx) rate ≤ fee.

Definition fee_post (r : result Failure FeeLoopOutcome * list (bytes * Z) * W) : Prop :=
  match r with
  | (Ok (FeeBuilt b _), _, _) => pays b ∧ ∃ ds, built_spec chain_member bctx ins ds b ∧ Forall (λ d, piece_ok (d_amount d)) ds
  | (Ok (NeedMoreInputs _), l, _) => all = false ∧ l = l0
  | (Err _, _, _) => True
  end.

Lemma sources_members : Forall (λ s, ∀ g, ti_global_output_index (ow_input s) = Some g → chain_member (ti_amount (ow_input s)) (g, ti_key (ow_input s))) ins.
Proof. eapply Forall_impl; [exact Hspend|]. intros s (_ & _ & _ & _ & Hg). exact Hg. Qed.

(** A round: the transaction pays enough, or more is asked for, or the fee goes up. *)
Lemma fee_round_inv s : fee_inv s →
  match fee_round bctx sum rate addr ins all s with
  | inl s' => fee_inv s' ∧ wrapping_sub 64 (amount_including_fee s) (amount_pre_fee s) < wrapping_sub 64 (amount_including_fee s') (amount_pre_fee s')
  | inr r => fee_post r
  end.
Proof.
  intros [Hu Hpre [Hincl Hle] Hall Hsame]. unfold fee_round. cbv zeta. set (change := wrapping_sub 64 sum (amount_including_fee s)).
  match goal with |- context [match ?m with (_, _) => _ end] => destruct m as [[b|f] w] eqn:E end; [|done].
  apply send_bind_Ok in E as (ds & w1 & [Hds ->]%inner_Ok & Hmake). apply setup_destinations_spec in Hds as [Htot Hpieces]; [|exact Hu|by apply wrap_bound].
  apply (make_transaction_spec chain_member) in Hmake; [|exact Hdaemon|exact Hsigns|exact Hderives|exact Hmixin|exact sources_members].
  set (actual := Fees.transaction_fee (b_size b) (bc_network_height bctx) rate). pose proof (transaction_fee_u64 (b_size b) (bc_network_height bctx) rate) as Hact. fold actual in Hact.
  destruct (actual <=? _) eqn:Ea; bool_hyps.
  - split; [|by exists ds]. intros fee Hfee. destruct (built_fee _ _ _ _ _ Hmake Hspend Hpieces Hfee) as [Hf Hfu]. fold actual.
    assert (fee = wrapping_sub 64 (amount_including_fee s) (amount_pre_fee s)) as ->; [|exact Ea].
    apply eqm_eq; [exact Hfu|by apply wrap_bound|]. rewrite Hf, Htot. unfold change, wrapping_sub. rewrite !eqm_wrap, Hpre, <- (proj2 Hsum).
    apply reflexive_eq. lia.
  - assert (∀ p, wrapping_sub 64 (wrapping_add 64 p actual) p = actual) as Hdiff.
    { intros p. apply eqm_eq; [by apply wrap_bound|exact Hact|]. unfold wrapping_sub, wrapping_add. rewrite !eqm_wrap. apply reflexive_eq. lia. }
    destruct all eqn:Eall.
    + assert (wrapping_add 64 (wrapping_sub 64 (amount_including_fee s) actual) actual = amount_including_fee s) as Hback.
      { apply eqm_eq; [by apply wrap_bound|exact Hincl|]. unfold wrapping_sub, wrapping_add. rewrite !eqm_wrap. apply reflexive_eq. lia. }
      rewrite Hback. assert ((sum <? amount_including_fee s) = false) as -> by lia. cbn [amount_including_fee amount_pre_fee].
      split; [|rewrite <- Hback at 2; rewrite Hdiff; exact Ea].
      specialize (Hall eq_refl). destruct (fs_destinations s) as [|[a n] [|? ?]]; [done| |done]. split; cbn [fs_destinations amount_pre_fee amount_including_fee set_first_amount].
      * apply Forall_singleton. by apply wrap_bound.
      * cbn [map snd total foldr]. apply reflexive_eq. lia.
      * done.
      * done.
      * intros; congruence.
    + destruct (Hsame eq_refl) as [El Ep]. destruct (sum <? _) eqn:Es; bool_hyps; [by split|]. cbn [amount_including_fee amount_pre_fee].
      split; [|rewrite Hdiff; exact Ea]. split; cbn [fs_destinations amount_pre_fee amount_including_fee]; [exact Hu|exact Hpre|split; [by apply wrap_bound|lia]|intros; congruence|done].
Qed.
Lemma fee_loop_spec s : fee_inv s →
  ∃ r, iter_until (fee_round bctx sum rate addr ins all) (2 ^ 64)%positive s = inr r ∧ fee_post r.
Proof.
  intros Hs. destruct (iter_until_ends (fee_round bctx sum rate addr ins all) fee_inv
    (λ s, 2 ^ 64 - 1 - wrapping_sub 64 (amount_including_fee s) (amount_pre_fee s)) (2 ^ 64) s) as [r Hr].
  - intros x x' Hx Ex. pose proof (fee_round_inv x Hx) as Hp. rewrite Ex in Hp. destruct Hp as [Hi Hlt]. split; [exact Hi|].
    pose proof (wrap_bound 64 (amount_including_fee x' - amount_pre_fee x') ltac:(lia)) as [? ?]. unfold wrapping_sub in *. lia.
  - exact Hs.
  - pose proof (wrap_bound 64 (amount_including_fee s - amount_pre_fee s) ltac:(lia)) as [? ?]. change (Z.pos (2 ^ 64)) with (2 ^ 64). unfold wrapping_sub. lia.
  - exists r. split; [exact Hr|].
    pose proof (iter_until_inv (fee_round bctx sum rate addr ins all) fee_inv fee_post (2 ^ 64) s) as Hi. rewrite Hr in Hi.
    apply Hi; [|exact Hs]. intros x Hx. pose proof (fee_round_inv x Hx) as Hp. destruct (fee_round _ _ _ _ _ _ x); [apply Hp|exact Hp].
Qed.

Lemma try_make_spec (pre including : Z) w outcome l w' : Forall (λ x, is_u64 x.2) l0 → eqm (total (map snd l0)) pre → pre = pre0 → is_u64 including → including ≤ sum →
  (all = true → length l0 = 1%nat) →
  try_make_fee_per_byte_transaction bctx sum pre including rate l0 addr ins all w = (Ok (outcome, l), w') → fee_post (Ok outcome, l, w').
Proof.
  intros Hu Hpre -> Hincl Hle Hall. unfold try_make_fee_per_byte_transaction.
  destruct (fee_loop_spec (mkFeeState pre0 including l0 w)) as (r & -> & Hr); [by split|]. destruct r as [[[o|f] d] v]; [|done]. by intros [= -> -> ->].
Qed.

End FeeLoop.
(** * Gathering inputs *)

Section Gather.
Variables (c : SendContext) (available : list OwnedSpendableInput).
Hypothesis Hdaemon : honest_daemon chain_member.
Hypothesis Hsigns : signs_each.
Hypothesis Hderives : derives_keys.
Hypothesis Hmixin : 0 ≤ bc_mixin (sc_build c).
Hypothesis Hspend : Forall spendable available.
Let p := sc_params c.
Let h := bc_network_height (sc_build c).

Record gather_inv (g : Gathering) : Prop := {
  gi_inputs : our_inputs g `prefix_of` available;
  gi_sum : is_u64 (sum_of_inputs g) ∧ eqm (sum_of_inputs g) (total (amounts (our_inputs g)));
  gi_amounts : Forall (λ x, is_u64 x.2) (g_destinations g);
  gi_total : is_u64 (total_amount_ g) ∧ (is_fixed (sp_fee p) = false → eqm (total (map snd (g_destinations g))) (total_amount_ g));
  gi_all : send_all p = true → length (g_destinations g) = 1%nat
}.

(** What a build that ends the loop is. *)
Definition gathered (ins : list OwnedSpendableInput) (b : Built) : Prop :=
  (match sp_fee p with
   | FixedFee f => minimum_transaction_fee (b_size b) h ≤ f
   | fee => ∀ paid, sum_transaction_fee (b_transaction b) = Some paid → Fees.transaction_fee (b_size b) h (fee_rate fee h) ≤ paid
   end) ∧ ins `prefix_of` available ∧ ins ≠ [] ∧ ∃ ds, built_spec chain_member (sc_build c) ins ds b ∧ Forall (λ d, piece_ok (d_amount d)) ds.

Lemma prefix_spendable ins : ins `prefix_of` available → Forall spendable ins.
Proof. intros [k Hk]. rewrite Hk in Hspend. by apply Forall_app in Hspend as [? _]. Qed.

Lemma gather_members ins : ins `prefix_of` available →
  Forall (λ s, ∀ g, ti_global_output_index (ow_input s) = Some g → chain_member (ti_amount (ow_input s)) (g, ti_key (ow_input s))) ins.
Proof. intros Hp%prefix_spendable. eapply Forall_impl; [exact Hp|]. intros s (_ & _ & _ & _ & Hg). exact Hg. Qed.

Lemma fixed_attempt_spec g ds b w w' : gather_inv g → our_inputs g ≠ [] → Forall (λ d, piece_ok (d_amount d)) ds → is_fixed (sp_fee p) = true →
  fixed_fee_attempt c g ds w = (Ok b, w') → gathered (our_inputs g) b.
Proof.
  intros Hg Hn Hds Hfix. unfold fixed_fee_attempt. intros (b' & w1 & Hm & Hif)%send_bind_Ok. case_match eqn:E; [|done]. apply send_ret_Ok in Hif as [-> ->].
  apply (make_transaction_spec chain_member) in Hm; [|exact Hdaemon|exact Hsigns|exact Hderives|exact Hmixin|apply gather_members, Hg].
  split; [|split; [apply Hg|split; [exact Hn|by exists ds]]]. destruct (sp_fee p) as [|r|f] eqn:Ef; [done..|]. bool_hyps. unfold p in Ef. rewrite Ef in E. exact E.
Qed.

Definition first_amount (g : Gathering) : Z := match g_destinations g with (_, amount) :: _ => amount | [] => 0 end.

(** A send of everything takes the estimated fee out of the one destination. *)
Definition deducted (g : Gathering) (est : Z) : Gathering :=
  if send_all p then
    let total := wrapping_sub 64 (total_amount_ g) est in
    with_totals g total (wrapping_sub 64 (sum_of_inputs g) total) (required_amount g) (set_first_amount (g_destinations g) (first_amount g - est))
  else g.

Lemma deducted_inv g est : gather_inv g → is_fixed (sp_fee p) = false → send_all p && (first_amount g <? est) = false → is_u64 est → gather_inv (deducted g est).
Proof.
  intros Hg Hfix Hle Hest. unfold deducted. destruct (send_all p) eqn:Ea; [|exact Hg]. destruct Hg as [Hpre Hsum Ham [Htu Hte] Hall]. cbn [andb] in Hle. bool_hyps.
  specialize (Hall Ea). specialize (Hte Hfix). unfold first_amount in *. destruct (g_destinations g) as [|[a n] [|? ?]] eqn:Ed; [done| |done].
  apply Forall_cons in Ham as [Ham _]. cbn [snd] in Ham. cbn [map snd total foldr] in Hte. rewrite Z.add_0_r in Hte. unfold in_u in *.
  split; cbn [with_totals our_inputs sum_of_inputs total_amount_ g_destinations set_first_amount].
  - exact Hpre.
  - exact Hsum.
  - apply Forall_singleton. cbn [snd]. unfold in_u. lia.
  - split; [by apply wrap_bound|]. intros _. cbn [map snd total foldr]. unfold wrapping_sub. rewrite eqm_wrap, <- Hte. apply reflexive_eq. lia.
  - done.
Qed.

Lemma with_totals_inv g change required : gather_inv g → gather_inv (with_totals g (total_amount_ g) change required (g_destinations g)).
Proof. by intros [? ? ? ? ?]. Qed.

Lemma per_byte_attempt_spec g ds g' b w w' : gather_inv g → our_inputs g ≠ [] → is_fixed (sp_fee p) = false →
  fee_per_byte_attempt c g ds w = (Ok (g', b), w') → our_inputs g' = our_inputs g ∧ match b with Some b => gathered (our_inputs g) b | None => gather_inv g' end.
Proof.
  intros Hg Hn Hfix. unfold fee_per_byte_attempt. cbv zeta. fold (first_amount g). set (est := Fees.transaction_fee _ _ _).
  pose proof (transaction_fee_u64 (estimate_transaction_size (replicate (length (our_inputs g)) (bc_mixin (sc_build c))) (length ds)
    (negb (Transfer.is_empty (bc_payment_id (sc_build c)))) (length (extra_data (sc_params c)))) h (fee_rate (sp_fee p) h)) as Hest. fold est in Hest.
  intros (u & w1 & [Hchk%negb_true_iff ->]%check_Ok & Hp)%send_bind_Ok. pose proof (deducted_inv g est Hg Hfix Hchk Hest) as Hg1.
  match type of Hp with context [if send_all (sc_params c) then ?a else g] => change (if send_all (sc_params c) then a else g) with (deducted g est) in Hp end.
  assert (our_inputs (deducted g est) = our_inputs g) as Ei by (unfold deducted; by destruct (send_all p)). set (g1 := deducted g est) in *.
  case_match eqn:El; [apply send_ret_Ok in Hp as [[= -> ->] _]; split; [exact Ei|by apply with_totals_inv]|]. bool_hyps.
  apply send_bind_Ok in Hp as ([outcome l] & w2 & Ht & Hp). pose proof Hg1 as [Hpre [Hsu Hse] Ham [Htu Hte] Hall].
  eapply (try_make_spec (sc_build c) (our_inputs g1) (sum_of_inputs g1) (fee_rate (sp_fee p) h) (sc_change_address c) (send_all p) (total_amount_ g1) (g_destinations g1)) in Ht;
    [|exact Hdaemon|exact Hsigns|exact Hderives|exact Hmixin|by apply prefix_spendable|by split|exact Ham|by apply Hte|done|by apply wrap_bound|lia|exact Hall].
  destruct outcome as [b1 change|needed]; apply send_ret_Ok in Hp as [[= -> ->] _]; (split; [exact Ei|]).
  - destruct Ht as [Hpay Hds]. rewrite <- Ei. split; [|split; [exact Hpre|split; [by rewrite Ei|exact Hds]]]. unfold pays in Hpay. destruct (sp_fee p) as [|r|f]; [exact Hpay|exact Hpay|done].
  - destruct Ht as [_ ->]. by apply with_totals_inv.
Qed.

Lemma gather_spec l g g' b w w' : our_inputs g ++ l = available → gather_inv g → gather c l g w = (Ok (g', Some b), w') → gathered (our_inputs g') b.
Proof.
  revert g w. induction l as [|i l IH]; intros g w Hl Hg; cbn [gather]; [by intros [[= -> ?] _]%send_ret_Ok|].
  set (g1 := mkGathering _ _ _ _ _ _). assert (gather_inv g1) as Hg1.
  { destruct Hg as [Hpre [Hsu Hse] Ham Ht Hall]. split; cbn [our_inputs sum_of_inputs total_amount_ g_destinations g1]; [|split; [by apply wrap_bound|]|exact Ham|exact Ht|exact Hall].
    - exists l. by rewrite <- app_assoc.
    - unfold wrapping_add. rewrite eqm_wrap, Hse. unfold amounts. rewrite map_app, total_app. apply reflexive_eq. cbn. lia. }
  assert (our_inputs g1 ++ l = available) as Hl1 by (cbn; by rewrite <- app_assoc). assert (our_inputs g1 ≠ []) as Hn1 by (cbn; by destruct (our_inputs g)).
  clearbody g1. case_match eqn:Es; [by apply IH|]. bool_hyps. intros (ds & w1 & [Hds ->]%inner_Ok & Hp)%send_bind_Ok.
  set (g2 := with_totals g1 _ _ _ _) in *. assert (gather_inv g2) as Hg2 by by apply with_totals_inv.
  apply setup_destinations_spec in Hds as [_ Hds]; [|apply Hg2|destruct Hg1 as [_ [[? ?] _] _ [[? ?] _] _]; unfold in_u; cbn; lia].
  destruct (is_fixed (sp_fee (sc_params c))) eqn:Ef.
  - apply send_bind_Ok in Hp as (b1 & w2 & Hb & [[= -> ->] _]%send_ret_Ok). by eapply fixed_attempt_spec.
  - apply send_bind_Ok in Hp as ([g3 b3] & w2 & Hb & Hp). apply per_byte_attempt_spec in Hb as [E3 Hb]; [|exact Hg2|exact Hn1|exact Ef].
    destruct b3 as [b3|]; [apply send_ret_Ok in Hp as [[= -> ->] _]; by rewrite E3|]. eapply IH; [|exact Hb|exact Hp]. by rewrite E3.
Qed.

End Gather.
(** * The send *)

Lemma resolve_step_Err (e : WalletError) (l : list (bytes * Z)) (f : result WalletError (list (bytes * Z) * bytes) → bytes * Z → result WalletError (list (bytes * Z) * bytes)) :
  (∀ x, f (Err e) x = Err e) → foldl f (Err e) l = Err e.
Proof. intros Hf. induction l as [|x l IH]; [done|]. cbn [foldl]. by rewrite Hf. Qed.

Lemma resolve_integrated_amounts ds pid l pid' : resolve_integrated ds pid = Ok (l, pid') → map snd l = map snd ds.
Proof.
  unfold resolve_integrated. set (f := λ acc '(address, amount), _). change (map snd ds) with (map snd ([] : list (bytes * Z)) ++ map snd ds). generalize ([] : list (bytes * Z)) as l0.
  revert pid. induction ds as [|[a n] ds IH]; intros pid l0; cbn [foldl]; [intros [= -> ->]; by rewrite app_nil_r|].
  assert (∀ e x, f (Err e) x = Err e) as He by by intros e [x y]. destruct (f (Ok (l0, pid)) (a, n)) as [[l1 pid1]|e] eqn:E; [|by rewrite resolve_step_Err by apply He].
  intros Hr%IH. rewrite Hr. cbn [map]. assert (map snd l1 = map snd l0 ++ [n]) as ->; [|by rewrite <- app_assoc]. subst f. cbn in E.
  case_match; [injection E as <- <-; by rewrite map_app|]. apply result_bind_Ok in E as (k & _ & [= <- <-]). by rewrite map_app.
Qed.

Lemma foldl_amounts (l : list (bytes * Z)) acc : is_u64 acc →
  is_u64 (foldl (λ acc '(_, a), wrapping_add 64 acc a) acc l) ∧ eqm (acc + total (map snd l)) (foldl (λ acc '(_, a), wrapping_add 64 acc a) acc l).
Proof.
  revert acc. induction l as [|[a n] l IH]; intros acc Hacc; cbn [foldl map]; [split; [exact Hacc|]; apply reflexive_eq; cbn; lia|].
  destruct (IH (wrapping_add 64 acc n)) as [Hu He]; [by apply wrap_bound|]. split; [exact Hu|]. rewrite <- He. unfold wrapping_add. rewrite eqm_wrap. apply reflexive_eq.
  change (total (snd (a, n) :: map snd l)) with (n + total (map snd l)). lia.
Qed.

Lemma mixin_range_live h mixin : live_height h → Transfer.validate_mixin mixin h = Ok () → 0 ≤ mixin < u64_max - 1.
Proof.
  intros [Hh _]. unfold Transfer.validate_mixin, mixin_allowable_range. cbv zeta. destruct (MIXIN_LIMITS_V6_HEIGHT <=? h).
  - cbn [mr_min mr_max]. case_match eqn:E1; [done|]. case_match eqn:E2; [done|]. bool_hyps. unfold MINIMUM_MIXIN_V6, MAXIMUM_MIXIN_V6, u64_max in *. lia.
  - assert ((MIXIN_LIMITS_V5_HEIGHT <=? h) = true) as -> by (unfold MIXIN_LIMITS_V5_HEIGHT; lia). cbn [mr_min mr_max].
    case_match eqn:E1; [done|]. case_match eqn:E2; [done|]. bool_hyps. unfold MINIMUM_MIXIN_V5, MAXIMUM_MIXIN_V5, u64_max in *. lia.
Qed.

Lemma unlock_time_agrees tx now : 0 ≤ block_timestamp ctx ≤ now → now < 2 ^ 63 →
  validate_unlock_time_at (unlock_time (prefix tx)) (block_height ctx) now = Ok () → validate_unlock_time tx (block_height ctx) (block_timestamp ctx) = Ok ().
Proof.
  intros Hts Hnow. unfold validate_unlock_time_at, validate_unlock_time. cbv zeta. destruct (block_height ctx <=? UNLOCK_TIME_HEIGHT); [done|].
  destruct (CRYPTONOTE_MAX_BLOCK_NUMBER <? _); [|by destruct (_ <? wrapping_add 64 _ _)].
  unfold MINIMUM_UNLOCK_TIME_BLOCKS, DIFFICULTY_TARGET, saturating_add, wrapping_add. rewrite wrap_small by (unfold in_u; lia).
  destruct (_ <? now + _) eqn:E; [done|]. intros _. bool_hyps. assert ((unlock_time (prefix tx) <? (block_timestamp ctx + 15 * 60) `min` (2 ^ 64 - 1)) = false) as -> by lia. done.
Qed.

(** What the user asks for, as its types have it. A send of everything has one destination. *)
Record good_params (params : SendParams) : Prop := {
  gp_amounts : Forall (λ x, is_u64 x.2) (destinations params);
  gp_all : send_all params = true → length (destinations params) = 1%nat;
  gp_extra : (length (extra_data params) ≤ 900)%nat;
  gp_network : network_height params = block_height ctx;
  gp_daemon : daemon_height params = block_height ctx;
  gp_rate : match sp_fee params with
            | FeePerByte r => ∀ size, 0 ≤ size < 2 ^ 40 → minimum_transaction_fee size (block_height ctx) ≤ Fees.transaction_fee size (block_height ctx) r
            | _ => True
            end
}.

(** The wallet's unspent inputs are outputs of the chain it may spend, each once. *)
Definition tracks_chain (wal : Wallet) (params : SendParams) : Prop := ∀ keys now l,
  collect (validate_our_address wal) (addresses_to_take_from params) = Ok keys →
  available_inputs wal (Transfer.is_empty (addresses_to_take_from params)) keys (network_height params) now = Ok l →
  Forall spendable l ∧ NoDup (map image l).

Definition good_clock : Prop := ∀ w : W, 0 ≤ block_timestamp ctx ≤ (now_seconds w).1 ∧ (now_seconds w).1 < 2 ^ 63.

Lemma validated_parameters wal ds mixin fee pid from change unlock h now : validate_transaction_parameters wal ds mixin fee pid from change unlock h now = Ok () →
  ds ≠ [] ∧ Transfer.validate_mixin mixin h = Ok () ∧ validate_unlock_time_at unlock h now = Ok ().
Proof.
  unfold validate_transaction_parameters. case_match eqn:E; [done|]. case_match; [done|].
  intros (? & _ & (? & _ & (? & _ & ([] & _ & ([] & Hm & (? & _ & (? & _ & Hu)%result_bind_Ok)%result_bind_Ok)%result_bind_Ok)%result_bind_Ok)%result_bind_Ok)%result_bind_Ok)%result_bind_Ok.
  split; [by destruct ds|]. by split.
Qed.

(** What the first five steps of a send establish. *)
Lemma send_setup_spec wal params mixin now c available g : good_params params → tracks_chain wal params → send_setup wal params mixin now = Ok (c, available, g) →
  Transfer.validate_mixin mixin (daemon_height params) = Ok () ∧ validate_unlock_time_at (bc_unlock_time (sc_build c)) (daemon_height params) now = Ok () ∧
  Forall spendable available ∧ NoDup (map image available) ∧ our_inputs g = [] ∧ gather_inv c available g ∧ sc_params c = params ∧
  bc_mixin (sc_build c) = mixin ∧ bc_extra_data (sc_build c) = extra_data params ∧ bc_network_height (sc_build c) = network_height params ∧ bc_is_fusion (sc_build c) = false.
Proof.
  intros Hgp Htr. unfold send_setup. intros (change & _ & ([] & Hv & ([l pid] & Hres & (rk & _ & (keys & Hkeys & (av & Hav & [= <- <- <-])%result_bind_Ok)%result_bind_Ok)%result_bind_Ok)%result_bind_Ok)%result_bind_Ok)%result_bind_Ok.
  apply validated_parameters in Hv as (Hne & Hmix & Hul). apply selection_facts in Hav as (av' & Hav & Hperm & _). destruct (Htr keys now av' Hkeys Hav) as [Hsp Hnd].
  pose proof (resolve_integrated_amounts _ _ _ _ Hres) as Ham. destruct (foldl_amounts l 0 ltac:(unfold in_u; lia)) as [Hfu Hfe].
  split; [exact Hmix|]. split; [exact Hul|]. split; [by rewrite Hperm|]. split; [by rewrite (Permutation_map image Hperm)|]. split; [done|].
  split; [|done]. split; cbn [our_inputs sum_of_inputs g_destinations total_amount_ sc_params].
  - apply prefix_nil.
  - split; [unfold in_u; lia|]. done.
  - apply (Forall_map snd is_u64). rewrite Ham. apply (Forall_map snd is_u64), Hgp.
  - destruct (is_fixed (sp_fee params)); [split; [by apply wrap_bound|done]|]. split; [exact Hfu|]. intros _. by rewrite Z.add_0_l in Hfe.
  - intros Ha. rewrite <- (length_map snd), Ham, length_map. by apply Hgp.
Qed.

(** The self-checks, and that the size is a wallet's. *)
Lemma self_checks_spec fee b h actual : live_height h → self_checks fee b h = Ok actual →
  b_size b ≤ wallet_max_tx_size h ∧ sum_transaction_fee (b_transaction b) = Some actual ∧ (∀ f, fee = FixedFee f → actual = f).
Proof.
  intros [Hh _]. unfold self_checks, is_transaction_payload_too_big. cbv zeta. intros ([] & Hsz & Hc)%result_bind_Ok. destruct (wallet_max_tx_size h <? b_size b) eqn:E1; [done|].
  destruct (negb (verify_amounts _)); [done|]. apply result_bind_Ok in Hc as (a & Ha%ok_or_Ok & Hc). destruct (verify_transaction_fee _ _ _ _) eqn:Ev; [|done].
  injection Hc as <-. bool_hyps. split; [lia|]. split; [exact Ha|]. intros f ->. unfold verify_transaction_fee in Ev.
  assert ((h <=? MINIMUM_FEE_V1_HEIGHT + 1) = false) as E2 by (unfold MINIMUM_FEE_V1_HEIGHT; lia). rewrite E2 in Ev.
  assert ((h <? MINIMUM_FEE_PER_BYTE_V1_HEIGHT) = false) as E3 by (unfold MINIMUM_FEE_PER_BYTE_V1_HEIGHT; lia). rewrite E3 in Ev. bool_hyps. lia.
Qed.

Lemma minimum_rate_live size h : live_height h → Fees.transaction_fee size h (fee_rate MinimumFee h) = minimum_transaction_fee size h.
Proof.
  intros [Hh1 Hh2]. unfold minimum_transaction_fee, fee_rate. rewrite height_above_rate by lia.
  by assert ((MINIMUM_FEE_PER_BYTE_V2_HEIGHT <? h) = true) as -> by (unfold MINIMUM_FEE_PER_BYTE_V2_HEIGHT; lia).
Qed.

Lemma wallet_max_small h : wallet_max_tx_size h < 2 ^ 40.
Proof. unfold wallet_max_tx_size, CRYPTONOTE_COINBASE_BLOB_RESERVED_SIZE. lia. Qed.

Lemma sent_acceptable wal params mixin w p w' : honest_daemon chain_member → signs_each → derives_keys → good_clock → good_params params → tracks_chain wal params →
  live_height (block_height ctx) → wallet_max_tx_size (block_height ctx) ≤ max_size (block_median_size ctx) →
  send_transaction_advanced_with_mixin wal params mixin w = (Ok p, w') →
  ∃ blob, Transaction.to_bytes (p_transaction p) = Ok blob ∧ acceptable st (p_transaction p) blob ctx (mkTxValidation (p_fee p) false).
Proof.
  intros Hd Hsg Hk Hclock Hgp Htr Hlive Hmax. unfold send_transaction_advanced_with_mixin. intros (now & w1 & Hnow%draw_Ok & Hp)%send_bind_Ok.
  apply send_bind_Ok in Hp as ([[c available] g] & w2 & [Hset ->]%inner_Ok & Hp). apply send_bind_Ok in Hp as ([g' bo] & w3 & Hg & Hp). cbv zeta in Hp.
  apply send_bind_Ok in Hp as ([] & w4 & [_ ->]%check_Ok & Hp). apply send_bind_Ok in Hp as (b & w5 & [Hb%ok_or_Ok ->]%pure_Ok & Hp). subst bo.
  apply send_bind_Ok in Hp as (actual & w6 & [Hself ->]%inner_Ok & [-> _]%send_ret_Ok). cbn [finish p_transaction p_fee].
  destruct (send_setup_spec _ _ _ _ _ _ _ Hgp Htr Hset) as (Hmix & Hul & Hsp & Hnd & Hg0 & Hgi & Hpar & Em & Ex & En & Ef).
  pose proof Hgp as [_ _ Hlen Hnet Hdae Hrate]. rewrite Hdae in Hmix, Hul. pose proof (mixin_range_live _ _ Hlive Hmix) as Hmr.
  eapply gather_spec in Hg as (Hpays & [rest Hpre] & Hne & ds & Hbs & Hds); [|exact Hd|exact Hsg|exact Hk|lia|exact Hsp|by rewrite Hg0|exact Hgi].
  rewrite Hnet in Hself. apply self_checks_spec in Hself as (Hsize & Hfee & Hfix); [|exact Hlive]. pose proof Hbs as [_ _ _ _ _ _ _ Hunl _ _ (blob & Hblob & Hsz)].
  exists blob. split; [exact Hblob|]. rewrite Hsz in Hsize, Hpays. pose proof (wallet_max_small (block_height ctx)).
  rewrite Hpre in Hsp, Hnd. apply Forall_app in Hsp as [Hsp _]. rewrite map_app in Hnd. apply NoDup_app in Hnd as [Hnd _].
  eapply built_acceptable; [exact Hbs|exact Hne|exact Hsp|exact Hnd|exact Hds|exact Ef|by rewrite En|exact Hlive|exact Hblob|lia|lia|exact Hfee| |by rewrite Em|by rewrite Em|by rewrite Ex|].
  - rewrite En, Hnet, Hpar in Hpays. destruct (sp_fee params) as [|r|f]; cbn [fee_rate] in Hpays.
    + specialize (Hpays _ Hfee). by rewrite minimum_rate_live in Hpays.
    + specialize (Hpays _ Hfee). specialize (Hrate (Z.of_nat (length blob)) ltac:(lia)). lia.
    + by rewrite (Hfix f eq_refl).
  - destruct (Hclock w) as [Hc1 Hc2]. rewrite Hnow in Hc1, Hc2. eapply unlock_time_agrees; [exact Hc1|exact Hc2|by rewrite Hunl].
Qed.


End Accept.

(** * A wallet with one output, at a daemon that answers *)

Module ToySend.

Definition key : bytes := replicate 32 7.

#[export] Instance crypto : Crypto := toy_crypto.
#[export] Instance keys : CurveKeys := {| generate_key_derivation _ _ := Some key; derive_public_key _ _ _ := Some key |}.
#[export] Instance secrets : CurveSecrets := {|
  sc_check _ := true; secret_key_to_public_key k := Some k; generate_view_from_spend k := (k, k); generate_deterministic_subwallet_key k _ := k;
  derive_secret_key _ _ k := k; underive_public_key _ _ k := Some k; generate_key_image p _ := p;
  wrkz_generate_ring_signature _ _ _ n _ _ _ _ := Some (replicate n (replicate 64 1)) |}.

#[export] Instance random : TransferRandom unit := {|
  random_scalar w := (key, w); pow_nonce_start w := (0, w); next_below _ w := (0, w); key_pair w := (key, key, w) |}.

(** Three outputs of every amount. *)
Definition outs (amount : Z) : RandomOutsForAmount := mkRandomOuts amount (map (λ g, mkRandomOut g (write_hex key)) [3; 5; 8]).

#[export] Instance daemon : TransferDaemon unit := {|
  random_outs amounts _ w := (Ok (map outs amounts), w); send_raw_transaction _ w := (Ok (mkSendResult OK None), w); remote_pow _ _ _ w := (None, w) |}.

#[export] Instance platform : Platform unit := {| now_seconds w := (1_700_000_000, w); available_threads w := (1%nat, w); stopped_threads n w := (replicate n false, w); json_error_code _ := None |}.

#[export] Instance typed : TransferTyped unit.
Proof. split; [by intros ?? ?? [= <- <-]|by intros ??? [= <-]|done]. Qed.

#[export] Instance chain : ChainAccess unit := {|
  key_image_spent _ _ := Ok false; key_output _ _ := Ok (Some (mkOutputRecord key 0 key 0 0));
  key_outputs _ l := Ok (map (λ _, Some (mkOutputRecord key 0 key 0 0)) l); top_block_timestamp := 0; now := 0 |}.

#[export] Instance chain_laws : ChainAccessLaws chain.
Proof. intros amount l. unfold key_outputs_default. cbn. induction l as [|g l IH]; [done|]. cbn [collect map]. rewrite <- IH. done. Qed.

Definition context : TxContext := mkTxContext 2_000_000 100_000 1_600_000_000 true Checkpoints.none.

Definition address : bytes := standard_address key key.

Definition input : TransactionInput := mkTransactionInput 1_000_000 100 (Some 5) key IDENTITY key (Some key) 0 0 key 0.

Definition wallet : Wallet :=
  with_primary key (mkSubWallet address true [] key key [] 0 0 [] [input] 0) false 0 0.

Definition params : SendParams :=
  mkSendParams [(address, 500_000)] 1 (FixedFee 10_000) [] [] [] 0 [] false 2_000_000 2_000_000 1.

(** The wallet's one input is the one input there is to spend. *)
Lemma tracks : tracks_chain context ∅ wallet params.
Proof.
  intros keys t l [= <-] Hl.
  assert (available_inputs wallet true [] 2_000_000 t = Ok [mkOwned key key input]) as Ha by (unfold available_inputs; vm_compute; reflexivity).
  assert (l = [mkOwned key key input]) as -> by (enough (Ok (E := WalletError) [mkOwned key key input] = Ok l) by congruence; rewrite <- Ha; exact Hl). split; [|apply NoDup_singleton].
  constructor; [|constructor]. split; [by vm_compute|]. split; [vm_compute; reflexivity|]. split; [reflexivity|]. split; [set_solver|].
  intros g [= <-]. split; [by vm_compute|]. eexists. split; [reflexivity|]. split; vm_compute; reflexivity.
Qed.

Lemma honest : honest_daemon (chain_member context).
Proof.
  intros amounts n [] [] l [= <-]. split; [induction amounts as [|a amounts IH]; cbn; congruence|].
  apply Forall_map, Forall_true. intros a. split; [by repeat constructor|]. intros o k Ho Hk. cbn [ra_outs outs] in Ho.
  assert (k = key ∧ 0 ≤ global_amount_index o < 2 ^ 32) as [-> Hg].
  { assert (parse_hex32 (write_hex key) = Some key) as Hkey by (vm_compute; reflexivity).
    apply list_elem_of_In in Ho. destruct Ho as [<-|[<-|[<-|[]]]]; cbn [out_key] in Hk; (split; [congruence|by vm_compute]). }
  split; [exact Hg|]. eexists. split; [reflexivity|]. split; vm_compute; reflexivity.
Qed.

Lemma params_good : good_params context params.
Proof. split; [repeat constructor; by vm_compute|discriminate|vm_compute; lia|reflexivity|reflexivity|exact I]. Qed.

Lemma clock_good : good_clock context.
Proof. intros []. by vm_compute. Qed.

End ToySend.

Import ToySend.

