(* ===== verification/WalletScan.v ===== *)
(** The wallet follows the chain. Applying blocks with the synchronizer (sync.rs), with
    reorganisations, sends and cancelled sends in between, keeps the wallet's unspent and
    locked inputs exactly the outputs received on the chain it follows and not spent on it. *)
From stdpp Require Import gmap sets.
From S2P Require Import Prelude Constants Hashing Curve Base58 Mnemonic Windows Wallet WalletSync.
Local Open Scope Z_scope.

(** * Lists *)

Section Lists.
Context {A : Type}.
Implicit Types (l : list A) (p : A → bool).

Lemma elem_of_lfilter p l x : x ∈ List.filter p l ↔ p x = true ∧ x ∈ l.
Proof. rewrite !list_elem_of_In, filter_In. tauto. Qed.

Lemma remove_first_Some p l x l' : remove_first p l = Some (x, l') → p x = true ∧ l ≡ₚ x :: l'.
Proof.
  revert l'. induction l as [|y l IH]; intros l'; [done|]. cbn. destruct (p y) eqn:E; [by intros [= -> ->]|].
  destruct (remove_first p l) as [[z l2]|]; [|done]. intros [= -> <-]. destruct (IH l2 eq_refl) as [Hp Hl]. split; [done|]. rewrite Hl. apply Permutation_swap.
Qed.

Lemma remove_first_None p l : remove_first p l = None → ∀ x, x ∈ l → p x = false.
Proof.
  induction l as [|y l IH]; cbn; [by intros _ x ?%elem_of_nil|]. destruct (p y) eqn:E; [done|]. destruct (remove_first p l) as [[]|] eqn:El; [done|].
  intros _ x [->|Hx]%elem_of_cons; [done|by apply IH].
Qed.

Lemma existsb_elem p l : existsb p l = true ↔ ∃ x, x ∈ l ∧ p x = true.
Proof. rewrite existsb_exists. setoid_rewrite list_elem_of_In. done. Qed.

Lemma NoDup_map_lfilter {B} (f : A → B) p l : NoDup (map f l) → NoDup (map f (List.filter p l)).
Proof.
  induction l as [|x l IH]; cbn; [done|]. intros [Hx Hl]%NoDup_cons. destruct (p x); [|by apply IH]. cbn. apply NoDup_cons. split; [|by apply IH].
  intros (y & Hy & [_ Hin]%elem_of_lfilter)%list_elem_of_fmap. apply Hx. rewrite Hy. by apply list_elem_of_fmap_2.
Qed.

Lemma NoDup_map_inj {B} (f : A → B) l x y : NoDup (map f l) → x ∈ l → y ∈ l → f x = f y → x = y.
Proof.
  induction l as [|z l IH]; cbn; [by intros _ ?%elem_of_nil|]. intros [Hz Hl]%NoDup_cons [->|Hx]%elem_of_cons [->|Hy]%elem_of_cons E; [done| | |by apply IH].
  - contradict Hz. rewrite E. by apply list_elem_of_fmap_2.
  - contradict Hz. rewrite <- E. by apply list_elem_of_fmap_2.
Qed.

Lemma elem_of_concat x (ls : list (list A)) : x ∈ concat ls ↔ ∃ l, x ∈ l ∧ l ∈ ls.
Proof. setoid_rewrite list_elem_of_In. rewrite in_concat. naive_solver. Qed.

End Lists.

(** * What a subwallet holds *)

(** [R] are the outputs received, with their owners, and [X] the key images spent, with the
    heights. Spends at or below [P] may have been forgotten. *)
Record ledger_wf (R : list OwnedInput) (X : list (Hash * Z)) : Prop := {
  wf_keys : NoDup (map (λ p, ti_key p.2) R);
  wf_images : NoDup (map (λ p, ti_key_image p.2) R);
  wf_spends : NoDup X.*1;
  wf_fresh : ∀ p, p ∈ R → ti_spend_height p.2 = 0;
  wf_causal : ∀ p h, p ∈ R → (ti_key_image p.2, h) ∈ X → ti_block_height p.2 < h }.

Definition owned (sub : SubWallet) : list TransactionInput := sw_unspent_inputs sub ++ sw_locked_inputs sub.

Record holds (R : list OwnedInput) (X : list (Hash * Z)) (P : Z) (sub : SubWallet) : Prop := {
  h_owned : ∀ i, i ∈ owned sub ↔ (sw_public_spend_key sub, i) ∈ R ∧ ti_key_image i ∉ X.*1;
  h_spent : ∀ j, j ∈ sw_spent_inputs sub → ∃ i h, (sw_public_spend_key sub, i) ∈ R ∧ (ti_key_image i, h) ∈ X ∧ j = with_spend_height h i;
  h_recent : ∀ i h, (sw_public_spend_key sub, i) ∈ R → (ti_key_image i, h) ∈ X → P < h → with_spend_height h i ∈ sw_spent_inputs sub;
  h_nodup : NoDup (map ti_key_image (owned sub));
  h_nodup_spent : NoDup (map ti_key_image (sw_spent_inputs sub)) }.

Lemma with_spend_height_0 i : ti_spend_height i = 0 → with_spend_height 0 i = i.
Proof. destruct i. cbn. by intros ->. Qed.

Section Wf.
Context (R : list OwnedInput) (X : list (Hash * Z)) (Hwf : ledger_wf R X).

Lemma wf_same_image p q : p ∈ R → q ∈ R → ti_key_image p.2 = ti_key_image q.2 → p = q.
Proof. intros. by eapply (NoDup_map_inj (λ p, ti_key_image p.2)); [apply (wf_images _ _ Hwf)|..]. Qed.

Lemma wf_same_key p q : p ∈ R → q ∈ R → ti_key p.2 = ti_key q.2 → p = q.
Proof. intros. by eapply (NoDup_map_inj (λ p, ti_key p.2)); [apply (wf_keys _ _ Hwf)|..]. Qed.

Lemma wf_same_height image h h' : (image, h) ∈ X → (image, h') ∈ X → h = h'.
Proof. intros H1 H2. assert ((image, h) = (image, h')) as [= ->]; [|done]. by eapply (NoDup_map_inj fst); [apply (wf_spends _ _ Hwf)|..]. Qed.

End Wf.

(** ** A reorganisation *)

(** The inputs whose spends are undone go back, when no two inputs share a key. *)
Lemma unspend_spec f u st s : NoDup (map ti_key (u ++ s)) →
  unspend f u st s = (u ++ map (with_spend_height 0) (List.filter (λ i, f <=? ti_spend_height i) s), st ++ List.filter (λ i, negb (f <=? ti_spend_height i)) s).
Proof.
  revert u st. induction s as [|i s IH]; intros u st Hnd; cbn; [by rewrite !app_nil_r|]. destruct (f <=? ti_spend_height i) eqn:E; cbn.
  - assert (existsb (λ x, bool_decide (ti_key x = ti_key i)) u = false) as ->.
    { apply not_true_iff_false. intros (x & Hx & Hk%bool_decide_eq_true)%existsb_elem. rewrite map_app in Hnd. cbn in Hnd.
      apply NoDup_app in Hnd as (_ & Hd & _). apply (Hd (ti_key x)); [by apply list_elem_of_fmap_2|]. rewrite Hk. left. }
    rewrite IH; [by rewrite <- app_assoc|]. rewrite !map_app in *. cbn in *. by rewrite <- app_assoc.
  - rewrite IH; [by rewrite <- app_assoc|]. rewrite map_app in *. cbn in Hnd. rewrite <- Permutation_middle in Hnd. by apply NoDup_cons in Hnd as [_ Hnd].
Qed.

Lemma NoDup_map_transfer {A B B'} (f : A → B) (g : A → B') l : NoDup (map f l) → (∀ x y, x ∈ l → y ∈ l → g x = g y → f x = f y) → NoDup (map g l).
Proof.
  induction l as [|x l IH]; cbn; [constructor|]. intros [Hx Hl]%NoDup_cons Hi. apply NoDup_cons. split.
  - intros (y & Hy & Hin)%list_elem_of_fmap. apply Hx. rewrite (Hi x y); [by apply list_elem_of_fmap_2|left|by right|done].
  - apply IH; [done|]. intros; apply Hi; by try right.
Qed.

Section Held.
Context (R : list OwnedInput) (X : list (Hash * Z)) (P : Z) (sub : SubWallet).
Context (Hwf : ledger_wf R X) (Hh : holds R X P sub).

(** Each input of the subwallet is one received, but for the height it was spent at. *)
Lemma held_received i : i ∈ owned sub ++ sw_spent_inputs sub →
  ∃ j h, (sw_public_spend_key sub, j) ∈ R ∧ i = with_spend_height h j ∧ ti_spend_height j = 0.
Proof.
  intros [Hi|Hi]%elem_of_app.
  - apply (h_owned _ _ _ _ Hh) in Hi as [Hi _]. pose proof (wf_fresh _ _ Hwf _ Hi) as H0. exists i, 0. by rewrite with_spend_height_0.
  - apply (h_spent _ _ _ _ Hh) in Hi as (j & h & Hj & _ & ->). exists j, h. split; [done|]. split; [done|]. by apply (wf_fresh _ _ Hwf) in Hj.
Qed.

Lemma held_images : NoDup (map ti_key_image (owned sub ++ sw_spent_inputs sub)).
Proof.
  rewrite map_app. apply NoDup_app. split; [apply Hh|]. split; [|apply Hh]. intros image (i & -> & Hi)%list_elem_of_fmap (j & E & Hj)%list_elem_of_fmap.
  apply (h_owned _ _ _ _ Hh) in Hi as [_ Hi]. apply (h_spent _ _ _ _ Hh) in Hj as (j' & h & _ & Hx & ->). apply Hi. rewrite E. cbn. by apply (list_elem_of_fmap_2 fst) in Hx.
Qed.

Lemma held_keys : NoDup (map ti_key (owned sub ++ sw_spent_inputs sub)).
Proof.
  eapply NoDup_map_transfer; [apply held_images|]. intros i j (i' & h & Hi & -> & _)%held_received (j' & h' & Hj & -> & _)%held_received. cbn. intros E.
  by assert ((sw_public_spend_key sub, i') = (sw_public_spend_key sub, j')) as [= ->] by (eapply wf_same_key; done).
Qed.

End Held.

Lemma lfilter_app {A} (p : A → bool) a b : List.filter p (a ++ b) = List.filter p a ++ List.filter p b.
Proof. apply List.filter_app. Qed.

Definition received_below (f : Z) (R : list OwnedInput) : list OwnedInput := List.filter (λ p, ti_block_height p.2 <? f) R.
Definition spent_below (f : Z) (X : list (Hash * Z)) : list (Hash * Z) := List.filter (λ x, x.2 <? f) X.

Lemma below_wf f R X : ledger_wf R X → ledger_wf (received_below f R) (spent_below f X).
Proof.
  intros [Hk Hi Hs Hf Hc]. split; [by apply NoDup_map_lfilter|by apply NoDup_map_lfilter|by apply NoDup_map_lfilter| |].
  - intros p [_ Hp]%elem_of_lfilter. by apply Hf.
  - intros p h [_ Hp]%elem_of_lfilter [_ Hx]%elem_of_lfilter. by apply Hc.
Qed.

(** The lists of a subwallet after a fork. *)
Lemma fork_sub_lists R X P f sub : ledger_wf R X → holds R X P sub →
  let kept := List.filter (λ i, negb (f <=? ti_block_height i)) in
  (fork_sub f sub).2 = with_lists sub
    (kept (sw_unspent_inputs sub) ++ map (with_spend_height 0) (List.filter (λ i, f <=? ti_spend_height i) (kept (sw_spent_inputs sub))))
    (kept (sw_locked_inputs sub)) (List.filter (λ i, negb (f <=? ti_spend_height i)) (kept (sw_spent_inputs sub))) [].
Proof.
  intros Hwf Hh kept. unfold fork_sub. rewrite unspend_spec; [done|]. rewrite <- lfilter_app. apply NoDup_map_lfilter.
  pose proof (held_keys _ _ _ _ Hwf Hh) as Hn. unfold owned in Hn. rewrite <- app_assoc, !map_app in Hn. rewrite map_app.
  apply NoDup_app in Hn as (H1 & H2 & (_ & _ & H3)%NoDup_app). apply NoDup_app. split; [done|]. split; [|done]. intros x Hx Hx'. apply (H2 x Hx). apply elem_of_app. by right.
Qed.

(** Parts of two lists without a common image have none either. *)
Lemma NoDup_map_app_sub {A B} (g : A → B) a b a' b' : NoDup (map g (a ++ b)) → NoDup (map g a') → NoDup (map g b') → a' ⊆ a → b' ⊆ b → NoDup (map g (a' ++ b')).
Proof.
  rewrite !map_app. intros (_ & Hd & _)%NoDup_app Ha Hb Hsa Hsb. apply NoDup_app. split; [done|]. split; [|done].
  intros x (y & -> & Hy%Hsa)%list_elem_of_fmap (z & E & Hz%Hsb)%list_elem_of_fmap. apply (Hd (g y)); [by apply list_elem_of_fmap_2|]. rewrite E. by apply list_elem_of_fmap_2.
Qed.

Section Fork.
Context (R : list OwnedInput) (X : list (Hash * Z)) (P f : Z) (sub : SubWallet).
Context (Hwf : ledger_wf R X) (Hh : holds R X P sub) (HP : P < f).
Let k := sw_public_spend_key sub.

(** An input with its spend undone: the spend was at or above the fork. *)
Lemma undone_iff i : i ∈ map (with_spend_height 0) (List.filter (λ i, f <=? ti_spend_height i) (List.filter (λ i, negb (f <=? ti_block_height i)) (sw_spent_inputs sub))) ↔
  ∃ h, (k, i) ∈ R ∧ (ti_key_image i, h) ∈ X ∧ f ≤ h ∧ ti_block_height i < f.
Proof.
  split.
  - intros (j & -> & [Hs [Hb Hj]%elem_of_lfilter]%elem_of_lfilter)%list_elem_of_fmap. apply (h_spent _ _ _ _ Hh) in Hj as (i & h & Hi & Hx & ->).
    cbn in Hs, Hb. pose proof (wf_fresh _ _ Hwf _ Hi) as H0. exists h. assert (with_spend_height 0 (with_spend_height h i) = i) as -> by (by rewrite <- (with_spend_height_0 i H0) at 2).
    split; [done|]. split; [done|]. lia.
  - intros (h & Hi & Hx & Hf & Hb). apply list_elem_of_fmap. exists (with_spend_height h i). pose proof (wf_fresh _ _ Hwf _ Hi) as H0.
    split; [by rewrite <- (with_spend_height_0 i H0) at 1|]. apply elem_of_lfilter. cbn. split; [lia|]. apply elem_of_lfilter. cbn. split; [lia|].
    apply (h_recent _ _ _ _ Hh); [done|done|lia].
Qed.

Lemma spent_below_iff i : (k, i) ∈ R → ti_key_image i ∉ (spent_below f X).*1 ↔ ti_key_image i ∉ X.*1 ∨ ∃ h, (ti_key_image i, h) ∈ X ∧ f ≤ h.
Proof.
  intros Hi. split.
  - intros Hn. destruct (decide (ti_key_image i ∈ X.*1)) as [([y h] & E & Hx)%list_elem_of_fmap|]; [|by left]. right. cbn in E. subst y. exists h. split; [done|].
    destruct (decide (h < f)); [|lia]. contradict Hn. change (ti_key_image i) with (ti_key_image i, h).1. apply list_elem_of_fmap_2, elem_of_lfilter. split; [cbn; lia|done].
  - intros [Hn|(h & Hx & Hf)] ([y h'] & E & [Hl Hx']%elem_of_lfilter)%list_elem_of_fmap; cbn in E, Hl; subst y.
    + apply Hn. by apply (list_elem_of_fmap_2 fst) in Hx'.
    + pose proof (wf_same_height _ _ Hwf _ _ _ Hx Hx'). lia.
Qed.

Lemma fork_owned i : i ∈ owned (fork_sub f sub).2 ↔ (k, i) ∈ received_below f R ∧ ti_key_image i ∉ (spent_below f X).*1.
Proof.
  rewrite (fork_sub_lists R X P) by done. unfold owned. cbn. rewrite !elem_of_app, undone_iff. unfold received_below. rewrite !elem_of_lfilter. cbn.
  assert (i ∈ sw_unspent_inputs sub ∨ i ∈ sw_locked_inputs sub ↔ (k, i) ∈ R ∧ ti_key_image i ∉ X.*1) as Hown by (rewrite <- elem_of_app; apply Hh).
  rewrite Z.ltb_lt, negb_true_iff, Z.leb_gt. split.
  - intros Hc. assert ((k, i) ∈ R) as Hi by naive_solver. rewrite spent_below_iff by done. naive_solver.
  - intros [[Hb Hi] Hn]. apply spent_below_iff in Hn as [Hn|(h & Hx & Hf)]; [| |done]; naive_solver.
Qed.

Lemma fork_holds : holds (received_below f R) (spent_below f X) P (fork_sub f sub).2.
Proof.
  assert (sw_public_spend_key (fork_sub f sub).2 = k) as Hk by (by rewrite (fork_sub_lists R X P)). split.
  - intros i. rewrite Hk. apply fork_owned.
  - intros j. rewrite Hk, (fork_sub_lists R X P) by done. cbn. intros [Hs [Hb Hj]%elem_of_lfilter]%elem_of_lfilter. apply (h_spent _ _ _ _ Hh) in Hj as (i & h & Hi & Hx & ->).
    cbn in Hs, Hb. exists i, h. unfold received_below, spent_below. rewrite !elem_of_lfilter. cbn. split; [split; [lia|done]|]. split; [split; [lia|done]|done].
  - intros i h. rewrite Hk, (fork_sub_lists R X P) by done. cbn. intros [Hb Hi]%elem_of_lfilter [Hl Hx]%elem_of_lfilter HPh. cbn in Hb, Hl.
    rewrite !elem_of_lfilter. cbn. split; [lia|]. split; [lia|]. by apply (h_recent _ _ _ _ Hh).
  - pose proof (held_images _ _ _ _ Hh) as Hn. rewrite (fork_sub_lists R X P) by done. unfold owned in *. cbn.
    rewrite <- app_assoc, map_app, map_app, map_map. cbn. rewrite (Permutation_app_comm (map _ (List.filter _ (List.filter _ _)))). rewrite <- !map_app, app_assoc, <- lfilter_app.
    eapply NoDup_map_app_sub; [exact Hn| | | |].
    + apply NoDup_map_lfilter, Hh.
    + do 2 apply NoDup_map_lfilter. apply Hh.
    + by intros x [_ Hx]%elem_of_lfilter.
    + by intros x [_ [_ Hx]%elem_of_lfilter]%elem_of_lfilter.
  - rewrite (fork_sub_lists R X P) by done. cbn. do 2 apply NoDup_map_lfilter. apply Hh.
Qed.

End Fork.

(** ** The other changes *)

Section Changes.
Context (R : list OwnedInput) (X : list (Hash * Z)) (P : Z) (sub : SubWallet) (Hh : holds R X P sub).
Let k := sw_public_spend_key sub.

Lemma spends_snoc (image : Hash) h i : ti_key_image i ∉ (X ++ [(image, h)]).*1 ↔ ti_key_image i ∉ X.*1 ∧ ti_key_image i ≠ image.
Proof. rewrite fmap_app. cbn. set_solver. Qed.

Lemma spend_other image h : (∀ i, (k, i) ∈ R → ti_key_image i ≠ image) → holds R (X ++ [(image, h)]) P sub.
Proof.
  intros Hno. destruct Hh as [Ho Hs Hr Hn1 Hn2]. split; [| | |done|done].
  - intros i. rewrite spends_snoc, Ho. naive_solver.
  - intros j Hj. destruct (Hs j Hj) as (i & g & Hi & Hx & ->). exists i, g. rewrite elem_of_app. auto.
  - intros i g Hi [Hx|[= E _]%list_elem_of_singleton]%elem_of_app HP; [by apply Hr|]. by apply Hno in Hi.
Qed.

Lemma store_other p : p.1 ≠ k → holds (R ++ [p]) X P sub.
Proof.
  intros Hp. destruct Hh as [Ho Hs Hr Hn1 Hn2].
  assert (∀ i, (k, i) ∈ R ++ [p] ↔ (k, i) ∈ R) as Hin by (intros i; rewrite elem_of_app, list_elem_of_singleton; destruct p; naive_solver).
  split; [| | |done|done].
  - intros i. fold k. rewrite Hin. apply Ho.
  - intros j Hj. destruct (Hs j Hj) as (i & h & Hi & Hx & ->). exists i, h. split; [by apply Hin|]. done.
  - intros i h Hi%Hin. by apply Hr.
Qed.

Lemma store_mine v i : ledger_wf (R ++ [(k, i)]) X → ti_key_image i ∉ X.*1 → holds (R ++ [(k, i)]) X P (store_input v i sub).2.
Proof.
  intros Hwf Hi. destruct Hh as [Ho Hs Hr Hn1 Hn2]. pose proof (wf_keys _ _ Hwf) as Hk. pose proof (wf_images _ _ Hwf) as Him.
  rewrite map_app in Hk, Him. apply NoDup_app in Hk as (_ & Hk & _), Him as (_ & Him & _). cbn in Hk, Him.
  assert (∀ j, j ∈ owned sub → ti_key j ≠ ti_key i ∧ ti_key_image j ≠ ti_key_image i) as Hnew.
  { intros j Hj. apply Ho in Hj as [Hj _]. split; intros E.
    - eapply Hk; [apply (list_elem_of_fmap_2 (λ p : OwnedInput, ti_key p.2)), Hj|]. cbn. by apply list_elem_of_singleton.
    - eapply Him; [apply (list_elem_of_fmap_2 (λ p : OwnedInput, ti_key_image p.2)), Hj|]. cbn. by apply list_elem_of_singleton. }
  unfold store_input. assert (existsb (λ x, bool_decide (ti_key x = ti_key i)) (sw_unspent_inputs sub) = false) as ->.
  { apply not_true_iff_false. intros (j & Hj & E%bool_decide_eq_true)%existsb_elem. destruct (Hnew j) as [Hne _]; [apply elem_of_app; by left|done]. }
  unfold owned in *. split; cbn.
  - intros j. fold k. rewrite !elem_of_app, !list_elem_of_singleton. specialize (Ho j). rewrite elem_of_app in Ho. fold k in Ho. naive_solver.
  - intros j Hj. destruct (Hs j Hj) as (j' & g & Hj' & Hx & ->). exists j', g. fold k. rewrite elem_of_app. auto.
  - intros j g. fold k. rewrite elem_of_app, list_elem_of_singleton. intros [Hj|[= ->]] Hx HP; [by apply Hr|]. contradict Hi. by apply (list_elem_of_fmap_2 fst) in Hx.
  - rewrite <- app_assoc. cbn. rewrite <- Permutation_middle. cbn. apply NoDup_cons. split; [|done]. intros (j & E & Hj)%list_elem_of_fmap. by apply (Hnew j Hj).
  - done.
Qed.

(** An input taken out of the owned ones. *)
Lemma remove_owned image :
  (∃ i unspent, remove_first (has_image image) (sw_unspent_inputs sub) = Some (i, unspent) ∧ ti_key_image i = image ∧ owned sub ≡ₚ i :: unspent ++ sw_locked_inputs sub) ∨
  remove_first (has_image image) (sw_unspent_inputs sub) = None ∧
    ((∃ i locked, remove_first (has_image image) (sw_locked_inputs sub) = Some (i, locked) ∧ ti_key_image i = image ∧ owned sub ≡ₚ i :: sw_unspent_inputs sub ++ locked) ∨
     remove_first (has_image image) (sw_locked_inputs sub) = None ∧ ∀ i, i ∈ owned sub → ti_key_image i ≠ image).
Proof.
  unfold owned. destruct (remove_first _ (sw_unspent_inputs sub)) as [[i u]|] eqn:E1.
  { left. exists i, u. apply remove_first_Some in E1 as [Hi%bool_decide_eq_true Hp]. split; [done|]. split; [done|]. by rewrite Hp. }
  right. split; [done|]. destruct (remove_first _ (sw_locked_inputs sub)) as [[i u]|] eqn:E2.
  { left. exists i, u. apply remove_first_Some in E2 as [Hi%bool_decide_eq_true Hp]. split; [done|]. split; [done|]. rewrite Hp. by rewrite <- Permutation_middle. }
  right. split; [done|]. intros i [Hi|Hi]%elem_of_app E; [apply (remove_first_None _ _ E1) in Hi|apply (remove_first_None _ _ E2) in Hi];
    unfold has_image in Hi; by apply bool_decide_eq_false in Hi.
Qed.

Lemma lock_holds image : holds R X P (lock_input image sub).2.
Proof.
  unfold lock_input. destruct (remove_owned image) as [(i & u & -> & Hi & Hp)|[-> _]]; [|done]. destruct Hh as [Ho Hs Hr Hn1 Hn2].
  assert (existsb (has_image image) (sw_locked_inputs sub) = false) as ->.
  { apply not_true_iff_false. intros (j & Hj & E%bool_decide_eq_true)%existsb_elem. rewrite Hp in Hn1. cbn in Hn1. apply NoDup_cons in Hn1 as [Hn1 _].
    apply Hn1. rewrite Hi, <- E. apply list_elem_of_fmap_2, elem_of_app. by right. }
  assert (owned sub ≡ₚ u ++ sw_locked_inputs sub ++ [i]) as Hp' by (by rewrite Hp, app_assoc, <- Permutation_cons_append).
  unfold owned in *. split; cbn; [|done|done| |done]; [intros j|]; by rewrite <- Hp'.
Qed.

Lemma cancel_holds c u : ledger_wf R X →
  holds R X P (with_lists sub (sw_unspent_inputs sub ++ map (with_spend_height 0) (List.filter c (sw_locked_inputs sub)))
    (List.filter (λ i, negb (c i)) (sw_locked_inputs sub)) (sw_spent_inputs sub) u).
Proof.
  intros Hwf. destruct Hh as [Ho Hs Hr Hn1 Hn2].
  assert (∀ i, i ∈ sw_locked_inputs sub → ti_spend_height i = 0) as H0.
  { intros i Hi. apply (wf_fresh _ _ Hwf (k, i)), Ho, elem_of_app. by right. }
  assert (map (with_spend_height 0) (List.filter c (sw_locked_inputs sub)) ++ List.filter (λ i, negb (c i)) (sw_locked_inputs sub) ≡ₚ sw_locked_inputs sub) as Hp.
  { clear -H0. induction (sw_locked_inputs sub) as [|i l IH]; [done|]. cbn. destruct (c i); cbn.
    - rewrite IH; [|intros; apply H0; by right]. rewrite with_spend_height_0; [done|apply H0; left].
    - rewrite <- Permutation_middle, IH; [done|]. intros; apply H0; by right. }
  unfold owned in *. split; cbn; [intros j|done|done| |done]; rewrite <- app_assoc, Hp; done.
Qed.

Lemma prune_holds u Q : P ≤ Q → u ≤ Q → holds R X Q (with_lists sub (sw_unspent_inputs sub) (sw_locked_inputs sub)
  (List.filter (λ i, u <? ti_spend_height i) (sw_spent_inputs sub)) (sw_unconfirmed_incoming_amounts sub)).
Proof.
  intros HQ Hu. destruct Hh as [Ho Hs Hr Hn1 Hn2]. split; cbn; [exact Ho| | |exact Hn1|by apply NoDup_map_lfilter].
  - intros j [_ Hj]%elem_of_lfilter. by apply Hs.
  - intros i h Hi Hx Hq. apply elem_of_lfilter. cbn. split; [lia|]. apply Hr; [done|done|lia].
Qed.

Lemma holds_weaken Q : P ≤ Q → holds R X Q sub.
Proof. intros HQ. destruct Hh as [Ho Hs Hr Hn1 Hn2]. split; try done. intros i h Hi Hx Hq. apply Hr; [done|done|lia]. Qed.

(** An owned input moves to the spent ones. *)
Lemma spend_moves image h i sub' : ledger_wf R (X ++ [(image, h)]) → (k, i) ∈ R → ti_key_image i = image →
  sw_public_spend_key sub' = k → owned sub ≡ₚ i :: owned sub' → sw_spent_inputs sub' = sw_spent_inputs sub ++ [with_spend_height h i] →
  holds R (X ++ [(image, h)]) P sub'.
Proof.
  intros Hwf Hi E Hk Hp Es. destruct Hh as [Ho Hs Hr Hn1 Hn2]. rewrite Hp in Hn1. cbn in Hn1. apply NoDup_cons in Hn1 as [Hn1 Hn1'].
  assert (∀ j, (k, j) ∈ R → ti_key_image j = image → j = i) as Huniq.
  { intros j Hj Ej. assert ((k, j) = (k, i)) as [= ->]; [|done]. eapply wf_same_image; [done..|]. cbn. congruence. }
  split; rewrite ?Hk, ?Es.
  - intros j. rewrite spends_snoc. specialize (Ho j). rewrite Hp, elem_of_cons in Ho. fold k in Ho. split.
    + intros Hj. assert (ti_key_image j ≠ image) by (rewrite <- E; intros Ej; apply Hn1; rewrite <- Ej; by apply list_elem_of_fmap_2). naive_solver.
    + intros (Hj & Hx & Hne). assert (j ≠ i) by congruence. naive_solver.
  - intros j [Hj|Hj%list_elem_of_singleton]%elem_of_app.
    + destruct (Hs j Hj) as (i' & g & Hi' & Hx & ->). exists i', g. rewrite elem_of_app. auto.
    + exists i, h. rewrite elem_of_app, list_elem_of_singleton. rewrite E. auto.
  - intros j g Hj [Hx|[= Ej ->]%list_elem_of_singleton]%elem_of_app HP; apply elem_of_app; [left; by apply Hr|right].
    rewrite (Huniq j Hj Ej). by apply list_elem_of_singleton.
  - done.
  - rewrite map_app. cbn. rewrite <- Permutation_cons_append. apply NoDup_cons. split; [|done]. rewrite E.
    intros (j & Ej & (i' & g & _ & Hx & ->)%Hs)%list_elem_of_fmap. cbn in Ej. pose proof (wf_spends _ _ Hwf) as Hn. rewrite fmap_app in Hn.
    apply NoDup_app in Hn as (_ & Hn & _). apply (Hn image); [rewrite Ej; by apply (list_elem_of_fmap_2 fst) in Hx|left].
Qed.

Lemma spend_mine image h i : ledger_wf R (X ++ [(image, h)]) → (k, i) ∈ R → ti_key_image i = image → holds R (X ++ [(image, h)]) P (spend_input image h sub).2.
Proof.
  intros Hwf Hi E. pose proof (wf_spends _ _ Hwf) as Hn. rewrite fmap_app in Hn. apply NoDup_app in Hn as (_ & Hn & _).
  assert (image ∉ X.*1) as Hnew by (intros Hx; apply (Hn image Hx); left).
  assert (existsb (has_image image) (sw_spent_inputs sub) = false) as Hex.
  { apply not_true_iff_false. intros (j & Hj & Ej%bool_decide_eq_true)%existsb_elem. apply (h_spent _ _ _ _ Hh) in Hj as (i' & g & _ & Hx & ->).
    apply Hnew. rewrite <- Ej. cbn. by apply (list_elem_of_fmap_2 fst) in Hx. }
  assert (∀ j, j ∈ owned sub → ti_key_image j = image → j = i) as Huniq.
  { intros j Hj Ej. apply (h_owned _ _ _ _ Hh) in Hj as [Hj _]. assert ((k, j) = (k, i)) as [= ->]; [|done]. eapply wf_same_image; [done..|]. cbn. congruence. }
  assert (i ∈ owned sub) as Hown by (apply Hh; rewrite E; done).
  unfold spend_input. rewrite Hex. destruct (remove_owned image) as [(j & u & -> & Hj & Hp)|[-> [(j & u & -> & Hj & Hp)|[-> Hno]]]]; [| |by apply Hno in Hown];
    (assert (j = i) as -> by (apply Huniq; [rewrite Hp; left|done])); eapply spend_moves; try done.
Qed.

End Changes.

(** * What the wallet holds *)

Abbreviation subs w := (sub_wallet_list (sub_wallets w)).

Record tracks (R : list OwnedInput) (X : list (Hash * Z)) (P : Z) (w : Wallet) : Prop := {
  tr_wf : ledger_wf R X;
  tr_holds : Forall (holds R X P) (subs w);
  tr_keys : NoDup (map sw_public_spend_key (subs w));
  tr_known : ∀ p, p ∈ R → p.1 ∈ map sw_public_spend_key (subs w);
  tr_listed : public_spend_keys (sub_wallets w) = map sw_public_spend_key (subs w);
  tr_spending : is_view_wallet (sub_wallets w) = false }.

(** A change of every subwallet that keeps its key. *)
Lemma tracks_map R X P R' X' P' w w' g : tracks R X P w → ledger_wf R' X' → (∀ p, p ∈ R' → p.1 ∈ map sw_public_spend_key (subs w)) →
  subs w' = map g (subs w) → public_spend_keys (sub_wallets w') = public_spend_keys (sub_wallets w) →
  is_view_wallet (sub_wallets w') = is_view_wallet (sub_wallets w) →
  (∀ sub, sub ∈ subs w → holds R X P sub → holds R' X' P' (g sub)) → (∀ sub, sw_public_spend_key (g sub) = sw_public_spend_key sub) → tracks R' X' P' w'.
Proof.
  intros [_ Hs Hk _ Hl Hv] Hwf Hkn E El Ev Hg Hgk. assert (map sw_public_spend_key (subs w') = map sw_public_spend_key (subs w)) as Ek.
  { rewrite E, map_map. apply map_ext. exact Hgk. }
  split; [done| |by rewrite Ek|by rewrite Ek|congruence|by rewrite Ev]. rewrite E. apply Forall_map, Forall_forall. intros sub Hsub. apply Hg; [done|]. by eapply Forall_forall in Hs.
Qed.

Lemma alter_sub_map {T} k (d : T) f l : NoDup (map sw_public_spend_key l) →
  (alter_sub k d f l).2 = map (λ s, if decide (sw_public_spend_key s = k) then (f s).2 else s) l.
Proof.
  induction l as [|s l IH]; [done|]. intros [Hs Hl]%NoDup_cons. cbn. rewrite decide_bool_decide. case_bool_decide as E.
  - destruct (f s) as [r s']. cbn. f_equal. rewrite <- (map_id l) at 1. apply map_ext_in. intros x Hx%list_elem_of_In. destruct (decide _) as [E'|]; [|done].
    contradict Hs. rewrite E, <- E'. by apply list_elem_of_fmap_2.
  - specialize (IH Hl). destruct (alter_sub k d f l) as [r l']. cbn in *. by rewrite IH.
Qed.

Lemma sub_wallet_mut_map {T} w k (d : T) f : NoDup (map sw_public_spend_key (subs w)) →
  (sub_wallet_mut w k d f).2 = set_sub_wallet_list w (map (λ s, if decide (sw_public_spend_key s = k) then (f s).2 else s) (subs w)).
Proof. intros Hn. unfold sub_wallet_mut. rewrite <- (alter_sub_map k d f) by done. by destruct (alter_sub _ _ _ _). Qed.

Lemma store_input_key v i sub : sw_public_spend_key (store_input v i sub).2 = sw_public_spend_key sub.
Proof. unfold store_input. by case_match. Qed.

Lemma spend_input_key image h sub : sw_public_spend_key (spend_input image h sub).2 = sw_public_spend_key sub.
Proof. unfold spend_input. by repeat case_match. Qed.

Lemma lock_input_key image sub : sw_public_spend_key (lock_input image sub).2 = sw_public_spend_key sub.
Proof. unfold lock_input. by repeat case_match. Qed.

Lemma fork_sub_key f sub : sw_public_spend_key (fork_sub f sub).2 = sw_public_spend_key sub.
Proof. unfold fork_sub. by destruct (unspend _ _ _ _). Qed.

Section Wallet.
Context (R : list OwnedInput) (X : list (Hash * Z)) (P : Z) (w : Wallet) (Ht : tracks R X P w).

Lemma store_tracks k i : ledger_wf (R ++ [(k, i)]) X → k ∈ map sw_public_spend_key (subs w) → ti_key_image i ∉ X.*1 →
  tracks (R ++ [(k, i)]) X P (store_transaction_input w k i).2.
Proof.
  intros Hwf Hk Hi. unfold store_transaction_input. rewrite sub_wallet_mut_map by apply Ht.
  eapply (tracks_map _ _ _ _ _ _ _ _ _ Ht); [done| |reflexivity|reflexivity|reflexivity| |].
  - intros p [Hp|Hp%list_elem_of_singleton]%elem_of_app; [by apply (tr_known _ _ _ _ Ht)|by subst p].
  - intros sub _ Hh. cbn beta. destruct (decide _) as [<-|]; [by apply store_mine|]. apply store_other; done.
  - intros sub. cbn beta. destruct (decide _); [apply store_input_key|done].
Qed.

Lemma spend_tracks k i h : ledger_wf R (X ++ [(ti_key_image i, h)]) → (k, i) ∈ R → tracks R (X ++ [(ti_key_image i, h)]) P (mark_input_as_spent w (ti_key_image i) k h).2.
Proof.
  intros Hwf Hi. unfold mark_input_as_spent. rewrite sub_wallet_mut_map by apply Ht.
  eapply (tracks_map _ _ _ _ _ _ _ _ _ Ht); [done|apply Ht|reflexivity|reflexivity|reflexivity| |].
  - intros sub _ Hh. cbn beta. destruct (decide _) as [<-|Hne]; [by eapply spend_mine|]. apply spend_other; [done|]. intros j Hj E.
    assert ((sw_public_spend_key sub, j) = (k, i)) as [= Hk _]; [|done]. by eapply wf_same_image.
  - intros sub. cbn beta. destruct (decide _); [apply spend_input_key|done].
Qed.

(** A key image that is not ours. *)
Lemma foreign_tracks image h : ledger_wf R (X ++ [(image, h)]) → (∀ p, p ∈ R → ti_key_image p.2 ≠ image) → tracks R (X ++ [(image, h)]) P w.
Proof.
  intros Hwf Hno. eapply (tracks_map _ _ _ _ _ _ _ _ id Ht); [done|apply Ht|by rewrite map_id|reflexivity|reflexivity| |done].
  intros sub _ Hh. apply spend_other; [done|]. intros i Hi. by apply (Hno _ Hi).
Qed.

Lemma lock_tracks image k : tracks R X P (mark_input_as_locked w image k).2.
Proof.
  unfold mark_input_as_locked. rewrite sub_wallet_mut_map by apply Ht. eapply (tracks_map _ _ _ _ _ _ _ _ _ Ht); [apply Ht|apply Ht|reflexivity|reflexivity|reflexivity| |].
  - intros sub _ Hh. cbn beta. destruct (decide _); [by apply lock_holds|done].
  - intros sub. cbn beta. destruct (decide _); [apply lock_input_key|done].
Qed.

Lemma cancel_tracks hashes : tracks R X P (remove_cancelled_transactions w hashes).
Proof.
  eapply (tracks_map _ _ _ _ _ _ _ _ _ Ht); [apply Ht|apply Ht|reflexivity|reflexivity|reflexivity| |done]. intros sub _ Hh. cbn beta. apply cancel_holds; [done|apply Ht].
Qed.

Lemma prune_tracks u Q : P ≤ Q → u ≤ Q → tracks R X Q (prune_spent_inputs w u).
Proof. intros HQ Hu. eapply (tracks_map _ _ _ _ _ _ _ _ _ Ht); [apply Ht|apply Ht|reflexivity|reflexivity|reflexivity| |done]. intros sub _ Hh. by eapply prune_holds. Qed.

Lemma weaken_tracks Q : P ≤ Q → tracks R X Q w.
Proof. intros HQ. eapply (tracks_map _ _ _ _ _ _ _ _ id Ht); [apply Ht|apply Ht|by rewrite map_id|reflexivity|reflexivity| |done]. intros sub _ Hh. by eapply holds_weaken. Qed.

Lemma fork_tracks f : P < f → tracks (received_below f R) (spent_below f X) P (remove_forked_transactions w f).2.
Proof.
  intros HP. eapply (tracks_map _ _ _ _ _ _ _ _ (λ s, (fork_sub f s).2) Ht); [apply below_wf, Ht| |cbn; apply map_map|reflexivity|reflexivity| |apply fork_sub_key].
  - intros p [_ Hp]%elem_of_lfilter. by apply (tr_known _ _ _ _ Ht).
  - intros sub _ Hh. apply fork_holds; [apply Ht|done|done].
Qed.

(** What does not concern the subwallets' inputs. *)
Lemma same_subs_tracks w' : subs w' = subs w → public_spend_keys (sub_wallets w') = public_spend_keys (sub_wallets w) → is_view_wallet (sub_wallets w') = is_view_wallet (sub_wallets w) → tracks R X P w'.
Proof. intros E El Ev. eapply (tracks_map _ _ _ _ _ _ _ _ id Ht); [apply Ht|apply Ht|by rewrite map_id|done|done| |done]. done. Qed.

End Wallet.

(** * The owners of key images *)

(** Every entry is of an output received, and every output whose spend is not forgotten has one. *)
Record owners_ok (R : list OwnedInput) (X : list (Hash * Z)) (P : Z) (own : gmap bytes bytes) : Prop := {
  ow_sound : ∀ image k, own !! image = Some k → ∃ i, (k, i) ∈ R ∧ ti_key_image i = image;
  ow_complete : ∀ k i, (k, i) ∈ R → (∀ h, (ti_key_image i, h) ∈ X → P < h) → own !! ti_key_image i = Some k }.

Lemma foldl_delete_lookup (m : gmap bytes bytes) l x : foldl (λ m image, base.delete image m) m l !! x = if decide (x ∈ l) then None else m !! x.
Proof.
  revert m. induction l as [|y l IH]; intros m; cbn; [by rewrite decide_False by apply not_elem_of_nil|]. rewrite IH.
  destruct (decide (x ∈ l)) as [Hx|Hx]; [by rewrite decide_True by (by right)|]. destruct (decide (x = y)) as [->|Hne].
  - rewrite decide_True by left. apply lookup_delete_eq.
  - rewrite decide_False by (intros [?|?]%elem_of_cons; done). by apply lookup_delete_ne.
Qed.

Section Owners.
Context (R : list OwnedInput) (X : list (Hash * Z)) (P : Z) (w : Wallet) (Ht : tracks R X P w).

(** The subwallet of an output received, and the output in its lists. *)
Lemma received_held k i : (k, i) ∈ R → (∀ h, (ti_key_image i, h) ∈ X → P < h) →
  ∃ sub j, sub ∈ subs w ∧ sw_public_spend_key sub = k ∧ j ∈ owned sub ++ sw_spent_inputs sub ∧ ti_key_image j = ti_key_image i ∧ ti_block_height j = ti_block_height i.
Proof.
  intros Hi HP. pose proof (tr_known _ _ _ _ Ht _ Hi) as (sub & Hk & Hsub)%list_elem_of_fmap. cbn in Hk. subst k.
  pose proof (tr_holds _ _ _ _ Ht) as Hh. rewrite Forall_forall in Hh. specialize (Hh sub Hsub).
  destruct (decide (ti_key_image i ∈ X.*1)) as [([x h] & E & Hx)%list_elem_of_fmap|Hn].
  - cbn in E. subst x. exists sub, (with_spend_height h i). split; [done|]. split; [done|]. rewrite elem_of_app. split; [right; apply (h_recent _ _ _ _ Hh); auto|done].
  - exists sub, i. rewrite elem_of_app. split; [done|]. split; [done|]. split; [left; by apply Hh|done].
Qed.

Lemma held_owner sub j : sub ∈ subs w → j ∈ owned sub ++ sw_spent_inputs sub →
  ∃ i, (sw_public_spend_key sub, i) ∈ R ∧ ti_key_image j = ti_key_image i ∧ ti_block_height j = ti_block_height i.
Proof.
  intros Hsub Hj. pose proof (tr_holds _ _ _ _ Ht) as Hh. rewrite Forall_forall in Hh. specialize (Hh sub Hsub).
  eapply held_received in Hj as (i & h & Hi & -> & _); [by exists i|apply Ht|exact Hh].
Qed.

Lemma fork_images f x : x ∈ (remove_forked_transactions w f).1 ↔
  ∃ sub j, sub ∈ subs w ∧ j ∈ owned sub ++ sw_spent_inputs sub ∧ ti_key_image j = x ∧ f ≤ ti_block_height j.
Proof.
  unfold remove_forked_transactions. cbn. rewrite (tr_spending _ _ _ _ Ht), elem_of_concat. unfold owned. split.
  - intros (l & Hx & (l' & -> & (sub & -> & Hsub)%list_elem_of_fmap)%list_elem_of_fmap). unfold fork_sub in Hx. destruct (unspend _ _ _ _) as [u s]. cbn in Hx.
    exists sub. rewrite <- !map_app, <- !lfilter_app in Hx. apply list_elem_of_fmap in Hx as (j & -> & [Hb Hj]%elem_of_lfilter). exists j.
    split; [done|]. rewrite !elem_of_app in *. split; [tauto|]. split; [done|lia].
  - intros (sub & j & Hsub & Hj & <- & Hb). exists (fork_sub f sub).1. split.
    + unfold fork_sub. destruct (unspend _ _ _ _) as [u s]. cbn. rewrite <- !map_app, <- !lfilter_app. apply list_elem_of_fmap_2, elem_of_lfilter.
      split; [lia|]. rewrite !elem_of_app in *. tauto.
    + apply (list_elem_of_fmap_2 fst), list_elem_of_fmap_2, Hsub.
Qed.

Lemma fork_owners f own : P < f → owners_ok R X P own →
  owners_ok (received_below f R) (spent_below f X) P (foldl (λ m image, base.delete image m) own (remove_forked_transactions w f).1).
Proof.
  intros HP [Hs Hc]. split.
  - intros x k. rewrite foldl_delete_lookup. destruct (decide _) as [|Hx]; [done|]. intros (i & Hi & <-)%Hs. exists i. split; [|done]. apply elem_of_lfilter. split; [|done]. cbn.
    destruct (decide (ti_block_height i < f)); [lia|]. contradict Hx. apply fork_images.
    destruct (received_held k i Hi) as (sub & j & Hsub & _ & Hj & E & Eb); [|exists sub, j; repeat split; [done..|lia]].
    intros h Hx. pose proof (wf_causal _ _ (tr_wf _ _ _ _ Ht) _ _ Hi Hx). cbn in *. lia.
  - intros k i [Hb Hi]%elem_of_lfilter Hall. cbn in Hb. rewrite foldl_delete_lookup. destruct (decide _) as [(sub & j & Hsub & Hj & E & Hf)%fork_images|_].
    + destruct (held_owner sub j Hsub Hj) as (i' & Hi' & E' & Eb). assert ((k, i) = (sw_public_spend_key sub, i')) as [= -> ->]; [|lia].
      eapply wf_same_image; [apply Ht|done|done|]. cbn. congruence.
    + apply Hc; [done|]. intros h Hx. destruct (decide (h < f)); [|lia]. apply Hall, elem_of_lfilter. split; [cbn; lia|done].
Qed.

End Owners.
