(* ===== verification/WalletFollow.v ===== *)
(** The wallet on a chain with reorganisations (sync.rs, [complete_block_processing] and what
    goes on between blocks): the unspent and locked inputs are those of the chain. *)
From stdpp Require Import gmap sets.
From S2P Require Import Prelude Constants Hashing Curve Base58 Mnemonic Windows Wallet WalletSync Transfer WalletScan.
Local Open Scope Z_scope.

(** * What a block spends *)

Definition input_images (inputs : list SyncInput) : list bytes := omap parse_hex32 (map si_k_image inputs).

(** The key images of the inputs of a block. *)
Definition block_images (b : SyncBlock) : list bytes := input_images (concat (map st_inputs (sb_transactions b))).

(** The images that are ours, with their owners. *)
Definition ours_of (own : gmap bytes bytes) (images : list bytes) : list (bytes * bytes) := omap (λ x, k ← own !! x; Some (k, x)) images.

Lemma input_images_app a b : input_images (a ++ b) = input_images a ++ input_images b.
Proof. unfold input_images. by rewrite map_app, omap_app. Qed.

Lemma ours_of_app own a b : ours_of own (a ++ b) = ours_of own a ++ ours_of own b.
Proof. apply omap_app. Qed.

Lemma add_transfer_cons l k a : add_transfer l k a ≠ [].
Proof. destruct l as [|t l]; [done|]. cbn. by case_bool_decide. Qed.

Lemma inputs_ours_spent own tr ins tr' spent : inputs_ours own tr ins = Ok (tr', spent) → spent = ours_of own (input_images ins) ∧ (spent ≠ [] ∨ tr ≠ [] → tr' ≠ []).
Proof.
  revert tr tr' spent. induction ins as [|i ins IH]; intros tr tr' spent; cbn; [intros [= <- <-]; naive_solver|].
  intros (x & Hx%ok_or_Ok & Hr)%result_bind_Ok. unfold input_images, ours_of. cbn. rewrite Hx. cbn. destruct (own !! x) as [k|] eqn:E; cbn in *.
  - apply result_bind_Ok in Hr as ([tr1 sp1] & Hr & [= <- <-]). apply IH in Hr as [-> Hne]. split; [done|]. intros _. apply Hne. right. apply add_transfer_cons.
  - apply IH, Hr.
Qed.

Section Process.
Context `{C : Crypto} `{CurveKeys} `{CurveSecrets}.

Lemma process_transaction_spent w own block tx ours r spent : process_transaction w own block tx ours = Ok (r, spent) → spent = ours_of own (input_images (st_inputs tx)) ∧ (r = None → spent = []).
Proof.
  unfold process_transaction. intros (h & _ & ([tr sp] & Hi%inputs_ours_spent & Hr)%result_bind_Ok)%result_bind_Ok. destruct Hi as [-> Hne].
  destruct (length tr =? 0)%nat eqn:E; injection Hr as <- <-; [|done]. apply Nat.eqb_eq in E. destruct tr; [|done]. split; [|done].
  destruct (ours_of _ _); [done|]. exfalso. apply Hne; [by left|done].
Qed.

Lemma process_block_spent w own skip block ours txs spent : process_block_transactions w own skip block ours = Ok (txs, spent) → spent = ours_of own (block_images block).
Proof.
  unfold process_block_transactions. intros (cb & _ & ([l images] & Hp & [= _ <-])%result_bind_Ok)%result_bind_Ok. unfold block_images. clear txs.
  revert l images Hp. induction (sb_transactions block) as [|tx rest IH]; intros l images Hp; [by injection Hp as <- <-|].
  cbn in Hp. apply result_bind_Ok in Hp as ([r sp] & Hr%process_transaction_spent & ([l' im'] & Hrest & Hend)%result_bind_Ok). apply IH in Hrest as ->.
  destruct Hr as [Hsp Hnone]. cbn [map concat]. rewrite input_images_app, ours_of_app, <- Hsp. destruct r; injection Hend as _ <-; [done|]. by rewrite Hnone.
Qed.

End Process.

(** * Storing and spending *)

Lemma wf_app_l R R' X X' : ledger_wf (R ++ R') (X ++ X') → ledger_wf R X.
Proof.
  intros [Hk Hi Hs Hf Hc]. rewrite map_app in Hk, Hi. rewrite fmap_app in Hs. apply NoDup_app in Hk as [Hk _], Hi as [Hi _], Hs as [Hs _]. split; [done..| |].
  - intros p Hp. apply Hf, elem_of_app. by left.
  - intros p h Hp Hx. apply Hc; apply elem_of_app; by left.
Qed.

Lemma store_inputs_tracks ours R X P w own : tracks R X P w → owners_ok R X P own → ledger_wf (R ++ ours) X →
  Forall (λ p, p.1 ∈ public_spend_keys (sub_wallets w) ∧ ti_key_image p.2 ∉ X.*1) ours →
  let '(w', own') := store_inputs w own ours in
  tracks (R ++ ours) X P w' ∧ owners_ok (R ++ ours) X P own' ∧ wallet_synchronizer w' = wallet_synchronizer w.
Proof.
  revert R w own. induction ours as [|[k i] ours IH]; intros R w own Ht Hown Hwf Hall; [rewrite app_nil_r; by cbn|].
  apply Forall_cons in Hall as [[Hk Hi] Hall]. cbn in Hk, Hi. cbn [store_inputs]. rewrite cons_middle, app_assoc in Hwf.
  assert (ledger_wf (R ++ [(k, i)]) X) as Hwf1 by (eapply (wf_app_l _ ours _ []); by rewrite app_nil_r). rewrite (tr_listed _ _ _ _ Ht) in Hk.
  assert (is_Some (sub_wallet w k)) as Hsub.
  { apply list_elem_of_fmap in Hk as (s & -> & Hs). unfold sub_wallet. destruct (List.find _ _) eqn:E; [done|]. apply list_elem_of_In, (List.find_none _ _ E) in Hs.
    by apply bool_decide_eq_false in Hs. }
  rewrite (tr_spending _ _ _ _ Ht). rewrite bool_decide_eq_true_2 by done. cbn [negb andb].
  pose proof (store_tracks _ _ _ _ Ht k i Hwf1 Hk Hi) as Ht1.
  assert (wallet_synchronizer (store_transaction_input w k i).2 = wallet_synchronizer w ∧ public_spend_keys (sub_wallets (store_transaction_input w k i).2) = public_spend_keys (sub_wallets w)) as [E1 E2].
  { unfold store_transaction_input. rewrite sub_wallet_mut_map by apply Ht. done. }
  specialize (IH (R ++ [(k, i)]) _ (<[ti_key_image i := k]> own) Ht1). destruct (store_inputs _ _ _) as [w' own'].
  rewrite cons_middle, app_assoc, <- E1. apply IH; [|done|by rewrite E2]. destruct Hown as [Hs Hc]. split.
  - intros x k'. rewrite lookup_insert_Some. intros [[<- <-]|[_ (j & Hj & <-)%Hs]]; [exists i|exists j]; (split; [apply elem_of_app|done]); [right; left|by left].
  - intros k' j Hj HP. destruct (decide (ti_key_image j = ti_key_image i)) as [E|Hne].
    + assert ((k', j) = (k, i)) as [= -> ->]; [|apply lookup_insert_eq]. eapply wf_same_image; [exact Hwf1|done|apply elem_of_app; right; left|done].
    + rewrite lookup_insert_ne by done. apply elem_of_app in Hj as [Hj|[= -> ->]%list_elem_of_singleton]; [by apply Hc|done].
Qed.

(** Marking the images found, when the owners tell which are ours. *)
Lemma mark_spent_tracks images h R X P w own : tracks R X P w → ledger_wf R (X ++ map (λ x, (x, h)) images) →
  (∀ x k, x ∈ images → own !! x = Some k → ∃ i, (k, i) ∈ R ∧ ti_key_image i = x) →
  (∀ x, x ∈ images → own !! x = None → ∀ p, p ∈ R → ti_key_image p.2 ≠ x) →
  tracks R (X ++ map (λ x, (x, h)) images) P (mark_spent w (ours_of own images) h) ∧
  wallet_synchronizer (mark_spent w (ours_of own images) h) = wallet_synchronizer w.
Proof.
  revert X w. induction images as [|x images IH]; intros X w Ht Hwf Hs Hn; [rewrite app_nil_r; by cbn|].
  cbn [map] in *. rewrite cons_middle, app_assoc in *.
  assert (ledger_wf R (X ++ [(x, h)])) as Hwf1 by (eapply (wf_app_l _ []); by rewrite app_nil_r).
  unfold ours_of. cbn [omap list_omap mbind option_bind]. destruct (own !! x) as [k|] eqn:E; cbn [mbind option_bind].
  - destruct (Hs x k) as (i & Hi & Ei); [left|done|]. subst x. cbn [mark_spent]. pose proof (spend_tracks _ _ _ _ Ht k i h Hwf1 Hi) as Ht1.
    destruct (IH _ _ Ht1) as [Ht2 E2]; [done|intros; apply Hs; [by right|done]|intros; eapply Hn; [by right|done..]|]. split; [exact Ht2|]. unfold ours_of in E2. rewrite E2.
    unfold mark_input_as_spent. by rewrite sub_wallet_mut_map by apply Ht.
  - apply IH; [|done|intros; apply Hs; [by right|done]|intros; eapply Hn; [by right|done..]]. apply foreign_tracks; [done|done|]. apply Hn; [left|done].
Qed.

Lemma store_block_hash_height s hash h : last_known_block_height (store_block_hash s hash h) = h.
Proof. unfold store_block_hash. by case_bool_decide. Qed.

Lemma add_transactions_subs w txs : subs (add_transactions w txs).2 = subs w ∧ public_spend_keys (sub_wallets (add_transactions w txs).2) = public_spend_keys (sub_wallets w) ∧
  is_view_wallet (sub_wallets (add_transactions w txs).2) = is_view_wallet (sub_wallets w).
Proof.
  revert w. induction txs as [|tx txs IH]; intros w; [done|]. cbn. destruct (add_transaction w tx) as [b w'] eqn:E. specialize (IH w'). destruct (add_transactions w' txs) as [hs w2]. cbn in *.
  unfold add_transaction in E. destruct (existsb _ _) in E; injection E as <- <-; exact IH.
Qed.

(** ** A block *)

Record state_ok (R : list OwnedInput) (X : list (Hash * Z)) (P : Z) (l : Ledger) : Prop := {
  so_tracks : tracks R X P (wallet l);
  so_owners : owners_ok R X P (owners l);
  so_below : Forall (λ x, x.2 ≤ wallet_height (wallet l)) X ∧ Forall (λ p, ti_block_height p.2 ≤ wallet_height (wallet l)) R }.

Lemma below_all {A} (f : A → Z) l b : Forall (λ x, f x < b) l → List.filter (λ x, f x <? b) l = l.
Proof. induction 1 as [|x l Hx Hl IH]; [done|]. cbn. rewrite IH. by destruct (Z.ltb_spec (f x) b); [|lia]. Qed.

(** The ledger when a block at [h] is about to be applied. *)
Lemma unwound_ok R X P l h : state_ok R X P l → P < h → (h = 0 → R = [] ∧ X = []) → state_ok (received_below h R) (spent_below h X) P (unwind_fork l h).
Proof.
  intros [Ht Ho [HX HR]] HP H0. unfold unwind_fork. destruct (_ && _) eqn:E.
  - pose proof (fork_tracks _ _ _ _ Ht h HP) as Ht'. pose proof (fork_owners _ _ _ _ Ht h _ HP Ho) as Ho'.
    assert (wallet_synchronizer (remove_forked_transactions (wallet l) h).2 = wallet_synchronizer (wallet l)) as Es by done.
    destruct (remove_forked_transactions (wallet l) h) as [images w]. cbn in *. split; [done|done|]. cbn. unfold wallet_height. rewrite Es.
    rewrite Forall_forall in HX. rewrite Forall_forall in HR. split; apply Forall_forall; intros x [_ Hx]%elem_of_lfilter; [by apply HX|by apply HR].
  - apply andb_false_iff in E. unfold received_below, spent_below. destruct (decide (h = 0)) as [Hz|Hz]; [destruct (H0 Hz) as [-> ->]; by split|].
    assert (wallet_height (wallet l) < h) by (destruct E; lia).
    rewrite (below_all (λ p : OwnedInput, ti_block_height p.2)), (below_all (λ x : Hash * Z, x.2)); [by split| |]; (eapply Forall_impl; [done|]); cbn; intros; lia.
Qed.

Lemma pruned_tracks R X P w h : tracks R X P w → h - PRUNE_SPENT_INPUTS_INTERVAL ≤ P → tracks R X P (prune_due h w) ∧ wallet_synchronizer (prune_due h w) = wallet_synchronizer w.
Proof. intros Ht HP. unfold prune_due. destruct (_ && _); [|done]. split; [|done]. apply (prune_tracks _ _ P); [done|lia|lia]. Qed.

(** ** The chain *)

(** A block of the chain the wallet follows, with the outputs scanning found in it. *)
Record Entry := mkEntry { e_block : SyncBlock; e_ours : list OwnedInput }.

Definition e_height (e : Entry) : Z := sb_block_height (e_block e).
Definition e_spends (e : Entry) : list (Hash * Z) := map (λ x, (x, e_height e)) (block_images (e_block e)).

Definition received_on (c : list Entry) : list OwnedInput := concat (map e_ours c).
Definition spends_on (c : list Entry) : list (Hash * Z) := concat (map e_spends c).

(** The chain below a height, and the chain with a block in the place of all at or above it. *)
Definition chain_below (h : Z) (c : list Entry) : list Entry := List.filter (λ e, e_height e <? h) c.
Definition extend (c : list Entry) (e : Entry) : list Entry := chain_below (e_height e) c ++ [e].

(** The rules of the chain: no two outputs to us share a key or a key image, no key image is
    spent twice, and an output is spent above the block that made it. *)
Record chain_rules (R : list OwnedInput) (X : list (Hash * Z)) : Prop := {
  cr_keys : NoDup (map (λ p, ti_key p.2) R);
  cr_images : NoDup (map (λ p, ti_key_image p.2) R);
  cr_spends : NoDup X.*1;
  cr_causal : ∀ p h, p ∈ R → (ti_key_image p.2, h) ∈ X → ti_block_height p.2 < h }.

(** What scanning gives to every input it finds. *)
Definition fresh_inputs (h : Z) (ours : list OwnedInput) : Prop := Forall (λ p, ti_block_height p.2 = h ∧ ti_spend_height p.2 = 0) ours.

Definition entry_ok (e : Entry) : Prop := fresh_inputs (e_height e) (e_ours e).

Lemma lfilter_none {A} (p : A → bool) l : Forall (λ x, p x = false) l → List.filter p l = [].
Proof. induction 1 as [|x l Hx Hl IH]; [done|]. cbn. by rewrite Hx. Qed.

Lemma lfilter_all {A} (p : A → bool) l : Forall (λ x, p x = true) l → List.filter p l = l.
Proof. induction 1 as [|x l Hx Hl IH]; [done|]. cbn. by rewrite Hx, IH. Qed.

Lemma received_below_on h c : Forall entry_ok c → received_below h (received_on c) = received_on (chain_below h c).
Proof.
  intros Hc. unfold received_below, received_on, chain_below. induction Hc as [|e c He Hc IH]; [done|]. cbn. rewrite lfilter_app, IH. destruct (e_height e <? h) eqn:E; cbn.
  - rewrite lfilter_all; [done|]. eapply Forall_impl; [exact He|]. cbn. intros p [-> _]. done.
  - rewrite lfilter_none; [done|]. eapply Forall_impl; [exact He|]. cbn. intros p [-> _]. done.
Qed.

Lemma spent_below_on h c : spent_below h (spends_on c) = spends_on (chain_below h c).
Proof.
  unfold spent_below, spends_on, chain_below. induction c as [|e c IH]; [done|]. cbn. rewrite lfilter_app, IH. unfold e_spends at 1. destruct (e_height e <? h) eqn:E; cbn.
  - rewrite lfilter_all; [done|]. by apply Forall_map, Forall_true.
  - rewrite lfilter_none; [done|]. by apply Forall_map, Forall_true.
Qed.

Lemma on_snoc c e : received_on (c ++ [e]) = received_on c ++ e_ours e ∧ spends_on (c ++ [e]) = spends_on c ++ e_spends e.
Proof. unfold received_on, spends_on. rewrite !map_app, !concat_app. cbn. by rewrite !app_nil_r. Qed.

Lemma chain_wf c : Forall entry_ok c → chain_rules (received_on c) (spends_on c) → ledger_wf (received_on c) (spends_on c).
Proof.
  intros Hc [Hk Hi Hs Hca]. split; [done..| |done]. intros p (l & Hp & (e & -> & He)%list_elem_of_fmap)%elem_of_concat. rewrite Forall_forall in Hc. specialize (Hc e He).
  unfold entry_ok, fresh_inputs in Hc. rewrite Forall_forall in Hc. by apply Hc.
Qed.

Lemma spends_below h c : Forall (λ x, x.2 < h) (spends_on (chain_below h c)).
Proof. rewrite <- spent_below_on. apply Forall_forall. intros x [Hx _]%elem_of_lfilter. lia. Qed.

Lemma heights_extended c e : Forall entry_ok c → entry_ok e →
  Forall (λ x, x.2 ≤ e_height e) (spends_on (chain_below (e_height e) c) ++ e_spends e) ∧
  Forall (λ p, ti_block_height p.2 ≤ e_height e) (received_on (chain_below (e_height e) c) ++ e_ours e).
Proof.
  intros Hc He. split; apply Forall_app; split.
  - eapply Forall_impl; [apply spends_below|]. cbn. intros; lia.
  - by apply Forall_map, Forall_true.
  - rewrite <- received_below_on by done. apply Forall_forall. intros p [Hp _]%elem_of_lfilter. lia.
  - eapply Forall_impl; [exact He|]. cbn. intros p [-> _]. done.
Qed.

(** ** A block *)

Section Block.
Context `{C : Crypto} `{CurveKeys} `{CurveSecrets}.

(** From the unwound ledger: the transactions, the outputs, the spends and the new height. *)
Lemma apply_entry_ok b P w own e txs hash : tracks (received_on b) (spends_on b) P w → owners_ok (received_on b) (spends_on b) P own →
  ledger_wf (received_on b ++ e_ours e) (spends_on b ++ e_spends e) → entry_ok e → Forall (λ x, x.2 < e_height e) (spends_on b) →
  Forall (λ p, p.1 ∈ public_spend_keys (sub_wallets w)) (e_ours e) →
  let '(w2, own2) := store_inputs (add_transactions w txs).2 own (e_ours e) in
  let w3 := mark_spent w2 (ours_of own (block_images (e_block e))) (e_height e) in
  tracks (received_on b ++ e_ours e) (spends_on b ++ e_spends e) P (set_status w3 (store_block_hash (transaction_synchronizer_status (wallet_synchronizer w3)) hash (e_height e))) ∧
  owners_ok (received_on b ++ e_ours e) (spends_on b ++ e_spends e) P own2.
Proof.
  intros Ht Ho Hwf He HX Hmine. destruct (add_transactions_subs w txs) as (E1 & E2 & E3).
  pose proof (same_subs_tracks _ _ _ _ Ht _ E1 E2 E3) as Ht1. rewrite <- E2 in Hmine.
  assert (ledger_wf (received_on b ++ e_ours e) (spends_on b)) as Hwf1 by (eapply (wf_app_l _ []); by rewrite app_nil_r).
  unfold entry_ok, fresh_inputs in He. rewrite Forall_forall in He. rewrite Forall_forall in HX. rewrite Forall_forall in Hmine.
  assert (∀ p y, p ∈ e_ours e → (ti_key_image p.2, y) ∈ spends_on b ++ e_spends e → False) as Hunspent.
  { intros p y Hp Hy. pose proof (wf_causal _ _ Hwf p y ltac:(apply elem_of_app; by right) Hy) as Hlt. destruct (He p Hp) as [Eh _].
    apply elem_of_app in Hy as [Hy%HX|(x & [= _ ->] & _)%list_elem_of_fmap]; cbn in *; lia. }
  pose proof (store_inputs_tracks (e_ours e) _ _ _ _ _ Ht1 Ho Hwf1) as Hstore. destruct (store_inputs _ _ _) as [w2 own2].
  destruct Hstore as (Ht2 & Ho2 & _).
  { apply Forall_forall. intros p Hp. split; [by apply Hmine|]. intros ([x y] & Ex & Hx)%list_elem_of_fmap. cbn in Ex. subst x. apply (Hunspent p y Hp). apply elem_of_app. by left. }
  cbv zeta. split.
  - destruct (mark_spent_tracks (block_images (e_block e)) (e_height e) _ _ _ _ own Ht2 Hwf) as [Hm _]; [| |by apply (same_subs_tracks _ _ _ _ Hm)].
    + intros x k _ (i & Hi & <-)%(ow_sound _ _ _ _ Ho). exists i. split; [apply elem_of_app; by left|done].
    + intros x Hx Hnone p Hp E. subst x. assert ((ti_key_image p.2, e_height e) ∈ e_spends e) as Hsp by (apply (list_elem_of_fmap_2 (λ x, (x, e_height e))), Hx).
      apply elem_of_app in Hp as [Hp|Hp]; [|by eapply Hunspent; [|apply elem_of_app; by right]].
      destruct p as [k i]. cbn in *. rewrite (ow_complete _ _ _ _ Ho k i Hp) in Hnone; [done|]. intros y Hy.
      pose proof (wf_spends _ _ Hwf) as Hn. rewrite fmap_app in Hn. apply NoDup_app in Hn as (_ & Hn & _).
      destruct (Hn (ti_key_image i)); [by apply (list_elem_of_fmap_2 fst) in Hy|by apply (list_elem_of_fmap_2 fst) in Hsp].
  - destruct Ho2 as [Hs2 Hc2]. split; [done|]. intros k i Hi Hy. apply Hc2; [done|]. intros y Hyy. apply Hy, elem_of_app. by left.
Qed.

Lemma complete_block_ok skip c P l e r l' : state_ok (received_on c) (spends_on c) P l → Forall entry_ok c → entry_ok e →
  e_height e - PRUNE_SPENT_INPUTS_INTERVAL ≤ P → P < e_height e → (e_height e = 0 → c = []) →
  Forall (λ p, p.1 ∈ public_spend_keys (sub_wallets (wallet l))) (e_ours e) →
  chain_rules (received_on (extend c e)) (spends_on (extend c e)) →
  complete_block_processing skip l (e_block e) (e_ours e) = (r, l') →
  match r with
  | Ok _ => state_ok (received_on (extend c e)) (spends_on (extend c e)) P l'
  | Err _ => parse_hex32 (sb_block_hash (e_block e)) = None ∨ state_ok (received_on (chain_below (e_height e) c)) (spends_on (chain_below (e_height e) c)) P l'
  end.
Proof.
  intros Hok Hc He HP1 HP2 Hz Hmine Hrules. unfold complete_block_processing. destruct (parse_hex32 _) as [bh|] eqn:Ebh; [|intros [= <- <-]; by left].
  assert (state_ok (received_on (chain_below (e_height e) c)) (spends_on (chain_below (e_height e) c)) P (unwind_fork l (e_height e))) as Hun.
  { rewrite <- spent_below_on, <- received_below_on by done. apply unwound_ok; [done|done|]. intros E. by rewrite (Hz E). }
  assert (public_spend_keys (sub_wallets (wallet (unwind_fork l (e_height e)))) = public_spend_keys (sub_wallets (wallet l))) as Ekeys.
  { unfold unwind_fork. by destruct (_ && _). }
  fold (e_height e). cbv zeta. revert Hun Ekeys. generalize (unwind_fork l (e_height e)) as u. intros u [Ht Ho Hb] Ekeys. cbn [owners forks_resolved step_added].
  destruct (pruned_tracks _ _ _ _ (e_height e) Ht HP1) as [Ht1 Es].
  destruct (process_block_transactions _ _ _ _ _) as [[txs images]|err] eqn:Eproc.
  2:{ intros [= <- <-]. right. split; [done|done|]. cbn. unfold wallet_height in *. by rewrite Es. }
  apply process_block_spent in Eproc as ->.
  assert (Forall entry_ok (extend c e)) as Hce.
  { apply Forall_app. split; [|by constructor]. rewrite Forall_forall in Hc. apply Forall_forall. intros x [_ Hx]%elem_of_lfilter. by apply Hc. }
  destruct (on_snoc (chain_below (e_height e) c) e) as [ER EX]. pose proof (chain_wf _ Hce Hrules) as Hwf. unfold extend in *. rewrite ER, EX in *.
  pose proof (apply_entry_ok _ _ _ _ e txs bh Ht1 Ho Hwf He (spends_below _ _)) as Hend.
  destruct (add_transactions _ txs) as [hs w1]. cbn [snd] in Hend. destruct (store_inputs w1 _ _) as [w2 own2].
  destruct Hend as [Ht2 Ho2]. { assert (public_spend_keys (sub_wallets (prune_due (e_height e) (wallet u))) = public_spend_keys (sub_wallets (wallet u))) as -> by (unfold prune_due; by case_match). by rewrite Ekeys. }
  intros [= <- <-]. split; [exact Ht2|exact Ho2|]. cbn. unfold wallet_height. cbn. rewrite store_block_hash_height. by apply heights_extended.
Qed.

End Block.

(** * Scanning *)

Section Scanned.
Context `{C : Crypto} `{CurveKeys} `{CurveSecrets}.

(** The outputs of ours in a block, with global indexes from wherever. *)
Definition scanned (w : Wallet) (skip : bool) (b : SyncBlock) (ours : list OwnedInput) : Prop :=
  ∃ l, process_block_outputs w skip b = Ok l ∧ Forall2 (λ p q, p.1 = q.1 ∧ ∃ g, p.2 = with_global_index g q.2) ours l.

Definition found_by (w : Wallet) (h : Z) (p : OwnedInput) : Prop :=
  p.1 ∈ public_spend_keys (sub_wallets w) ∧ ti_block_height p.2 = h ∧ ti_spend_height p.2 = 0.

Lemma outputs_ours_found w tx pk th d h n outs l : outputs_ours w tx pk th d h n outs = Ok l → Forall (found_by w h) l.
Proof.
  revert n l. induction outs as [|o outs IH]; intros n l; cbn; [by intros [= <-]|].
  intros (key & _ & (rest & Hrest%IH & [= <-])%result_bind_Ok)%result_bind_Ok. apply Forall_app. split; [|done].
  destruct (underive_public_key d n key) as [spend|]; [|done]. destruct (is_our_spend_key w spend) eqn:E; [|done]. cbn.
  destruct (tx_input_key_image _ _ _ _ _) as [image eph]. constructor; [|done]. split; [|done]. cbn.
  unfold is_our_spend_key in E. apply existsb_elem in E as (x & Hx & ->%bool_decide_eq_true). done.
Qed.

Lemma process_block_found w skip b l : process_block_outputs w skip b = Ok l → Forall (found_by w (sb_block_height b)) l.
Proof.
  unfold process_block_outputs. generalize (scanned_transactions skip b) as txs. intros txs. revert l. induction txs as [|tx txs IH]; intros l; cbn; [by intros [= <-]|].
  intros (ours & Ho & (rest & Hrest%IH & [= <-])%result_bind_Ok)%result_bind_Ok. apply Forall_app. split; [|done].
  unfold process_transaction_outputs in Ho. apply result_bind_Ok in Ho as (pk & _ & (th & _ & Ho)%result_bind_Ok). destruct (generate_key_derivation _ _) as [d|]; [|by injection Ho as <-].
  by eapply outputs_ours_found.
Qed.

Lemma scanned_found w skip b ours : scanned w skip b ours → Forall (found_by w (sb_block_height b)) ours.
Proof.
  intros (l & Hl%process_block_found & HF). induction HF as [|[k i] [k' i'] ours l [Ek (g & Ei)] HF IH]; [done|]. apply Forall_cons in Hl as [(H1 & H2 & H3) Hl].
  constructor; [|by apply IH]. cbn in *. subst. by split.
Qed.

End Scanned.

(** * Between blocks *)

Section Between.
Context `{C : Crypto} `{CurveKeys} `{CurveSecrets}.
Context (R : list OwnedInput) (X : list (Hash * Z)) (P : Z).

Lemma push_unconfirmed_tracks w k u : tracks R X P w → tracks R X P (sub_wallet_mut w k () (push_unconfirmed u)).2.
Proof.
  intros Ht. rewrite sub_wallet_mut_map by apply Ht. eapply (tracks_map _ _ _ _ _ _ _ _ _ Ht); [apply Ht|apply Ht|reflexivity|reflexivity|reflexivity| |].
  - intros sub _ Hh. cbn beta. destruct (decide _); [|done]. destruct Hh. by split.
  - intros sub. cbn beta. by destruct (decide _).
Qed.

Lemma unconfirmed_tracks w d n outs h : tracks R X P w → tracks R X P (unconfirmed_loop w d n outs h).
Proof.
  revert w n. induction outs as [|o outs IH]; intros w n Ht; [done|]. cbn. apply IH. destruct (underive_public_key _ _ _); [|done].
  destruct (is_our_spend_key _ _); [|done]. by apply push_unconfirmed_tracks.
Qed.

Lemma sent_tracks w p : tracks R X P w → tracks R X P (apply_sent_transaction w p).
Proof.
  intros Ht. unfold apply_sent_transaction. cbv zeta.
  assert (∀ l w, tracks R X P w → tracks R X P (foldl (λ wal i, (mark_input_as_locked wal (ti_key_image (ow_input i)) (ow_public_spend_key i)).2) w l)) as Hlock.
  { induction l as [|i l IH]; intros v Hv; [done|]. cbn. apply IH, lock_tracks, Hv. }
  apply Hlock.
  assert (tracks R X P (store_sent_transaction w (p_transaction_hash p) (p_fee p) (p_payment_id p) (p_inputs p) (p_change_address p) (p_change_required p))) as Ht1.
  { unfold store_sent_transaction. destruct (existsb _ _); [done|]. by apply (same_subs_tracks _ _ _ _ Ht). }
  revert Ht1. generalize (store_sent_transaction w (p_transaction_hash p) (p_fee p) (p_payment_id p) (p_inputs p) (p_change_address p) (p_change_required p)) as w1. intros w1 Ht1.
  assert (tracks R X P (store_unconfirmed_incoming_inputs w1 (p_outputs p) (p_tx_public_key p) (p_transaction_hash p))) as Ht2.
  { unfold store_unconfirmed_incoming_inputs. destruct (generate_key_derivation _ _); [by apply unconfirmed_tracks|done]. }
  by apply (same_subs_tracks _ _ _ _ Ht2).
Qed.

Lemma sent_status w p : tracks R X P w → wallet_synchronizer (apply_sent_transaction w p) = wallet_synchronizer w.
Proof.
  intros _. unfold apply_sent_transaction. cbv zeta.
  assert (∀ {T} k (d : T) f v, wallet_synchronizer (sub_wallet_mut v k d f).2 = wallet_synchronizer v) as Hm by (intros; unfold sub_wallet_mut; by destruct (alter_sub _ _ _ _)).
  assert (∀ l w, wallet_synchronizer (foldl (λ wal i, (mark_input_as_locked wal (ti_key_image (ow_input i)) (ow_public_spend_key i)).2) w l) = wallet_synchronizer w) as Hlock.
  { induction l as [|i l IH]; intros v; [done|]. cbn. rewrite IH. apply Hm. }
  assert (∀ d h outs n v, wallet_synchronizer (unconfirmed_loop v d n outs h) = wallet_synchronizer v) as Hun.
  { induction outs as [|o outs IH]; intros n v; [done|]. cbn. rewrite IH. destruct (underive_public_key _ _ _); [|done]. destruct (is_our_spend_key _ _); [apply Hm|done]. }
  rewrite Hlock. cbn. unfold store_unconfirmed_incoming_inputs, store_sent_transaction. destruct (existsb _ _), (generate_key_derivation _ _); rewrite ?Hun; done.
Qed.

(** The owners rebuilt from the wallet's inputs. *)
Lemma key_image_owners_spec w x : is_view_wallet (sub_wallets w) = false →
  (∀ k, key_image_owners w !! x = Some k → ∃ sub i, sub ∈ subs w ∧ i ∈ all_inputs sub ∧ ti_key_image i = x ∧ sw_public_spend_key sub = k) ∧
  ((∃ sub i, sub ∈ subs w ∧ i ∈ all_inputs sub ∧ ti_key_image i = x) → is_Some (key_image_owners w !! x)).
Proof.
  intros Hv. unfold key_image_owners. rewrite Hv.
  assert (∀ (k : bytes) l (m : gmap bytes bytes), foldl (λ m i, <[ti_key_image i := k]> m) m l !! x = if decide (x ∈ map ti_key_image l) then Some k else m !! x) as Hin.
  { intros k l. induction l as [|i l IH]; intros m; [done|]. cbn. rewrite IH. destruct (decide (x ∈ map ti_key_image l)) as [Hx|Hx]; [by rewrite decide_True by (by right)|].
    destruct (decide (x = ti_key_image i)) as [->|Hne]; [rewrite decide_True by left; apply lookup_insert_eq|].
    rewrite decide_False by (intros [?|?]%elem_of_cons; done). by rewrite lookup_insert_ne. }
  assert (∀ l (m : gmap bytes bytes), let r := foldl (λ m s, foldl (λ m i, <[ti_key_image i := sw_public_spend_key s]> m) m (all_inputs s)) m l !! x in
    (∀ k, r = Some k → m !! x = Some k ∨ ∃ sub i, sub ∈ l ∧ i ∈ all_inputs sub ∧ ti_key_image i = x ∧ sw_public_spend_key sub = k) ∧
    (is_Some (m !! x) ∨ (∃ sub i, sub ∈ l ∧ i ∈ all_inputs sub ∧ ti_key_image i = x) → is_Some r)) as Hall.
  { induction l as [|s l IH]; intros m; cbn; [split; [by left|]; intros [?|(? & ? & []%elem_of_nil & _)]; done|].
    destruct (IH (foldl (λ m i, <[ti_key_image i := sw_public_spend_key s]> m) m (all_inputs s))) as [IH1 IH2]. split.
    - intros k [Hk|(sub & i & Hs & Hi)]%IH1; [|right; exists sub, i; by rewrite elem_of_cons; auto]. rewrite Hin in Hk.
      destruct (decide _) as [(i & -> & Hi)%list_elem_of_fmap|]; [|by left]. right. exists s, i. injection Hk as <-. rewrite elem_of_cons. auto.
    - intros Hd. apply IH2. rewrite Hin. destruct (decide _) as [|Hx]; [by left|]. destruct Hd as [Hd|(sub & i & [->|Hs]%elem_of_cons & Hi & E)]; [by left| |right; by exists sub, i].
      contradict Hx. rewrite <- E. by apply list_elem_of_fmap_2. }
  destruct (Hall (subs w) ∅) as [H1 H2]. split; [|auto]. intros k [Hk|Hk]%H1; [by rewrite lookup_empty in Hk|done].
Qed.

Lemma rebuilt_owners w : tracks R X P w → owners_ok R X P (key_image_owners w).
Proof.
  intros Ht. pose proof (tr_spending _ _ _ _ Ht) as Hv. split.
  - intros x k (sub & i & Hs & Hi & <- & <-)%(key_image_owners_spec w x Hv). destruct (held_owner _ _ _ _ Ht sub i Hs) as (j & Hj & E & _); [|by exists j].
    unfold all_inputs in Hi. unfold owned. by rewrite <- app_assoc.
  - intros k i Hi HP. destruct (received_held _ _ _ _ Ht k i Hi HP) as (sub & j & Hs & _ & Hj & E & _).
    destruct (key_image_owners_spec w (ti_key_image i) Hv) as [H1 [k' Hk']].
    { exists sub, j. unfold all_inputs. unfold owned in Hj. by rewrite <- app_assoc in Hj. }
    rewrite Hk'. destruct (H1 _ Hk') as (sub' & j' & Hs' & Hj' & E' & <-). destruct (held_owner _ _ _ _ Ht sub' j' Hs') as (i' & Hi' & Ei & _).
    { unfold all_inputs in Hj'. unfold owned. by rewrite <- app_assoc. }
    assert ((sw_public_spend_key sub', i') = (k, i)) as [= -> _]; [|done]. eapply wf_same_image; [apply Ht|done|done|]. cbn. congruence.
Qed.

End Between.

(** * A run *)

Section Run.
Context `{C : Crypto} `{CurveKeys} `{CurveSecrets}.
Variable skip : bool.

(** A wallet that has seen nothing. *)
Record fresh_ledger (l : Ledger) : Prop := {
  fl_lists : Forall (λ s, sw_unspent_inputs s = [] ∧ sw_locked_inputs s = [] ∧ sw_spent_inputs s = []) (subs (wallet l));
  fl_keys : NoDup (map sw_public_spend_key (subs (wallet l)));
  fl_listed : public_spend_keys (sub_wallets (wallet l)) = map sw_public_spend_key (subs (wallet l));
  fl_spending : is_view_wallet (sub_wallets (wallet l)) = false;
  fl_owners : owners l = ∅ }.

Definition with_wallet (l : Ledger) (w : Wallet) : Ledger := mkLedger w (owners l) (forks_resolved l) (step_added l).

(** A block that may come next: it keeps the rules of the chain and does not reach back more
    than the spends that are remembered, below the highest block seen. *)
Record next_block (c : list Entry) (top : Z) (l : Ledger) (e : Entry) : Prop := {
  nb_scanned : scanned (wallet l) skip (e_block e) (e_ours e);
  nb_depth : top - PRUNE_SPENT_INPUTS_INTERVAL < e_height e;
  nb_genesis : e_height e = 0 → c = [];
  nb_rules : chain_rules (received_on (extend c e)) (spends_on (extend c e)) }.

(** What happens to a ledger: [c] is the chain it follows and [top] the highest block it has
    been at. *)
Inductive follows : list Entry → Z → Ledger → Prop :=
| follows_start l : fresh_ledger l → follows [] 0 l
| follows_block c top l e n l' : follows c top l → next_block c top l e →
    complete_block_processing skip l (e_block e) (e_ours e) = (Ok n, l') → follows (extend c e) (Z.max top (e_height e)) l'
| follows_failed c top l e err l' : follows c top l → next_block c top l e → is_Some (parse_hex32 (sb_block_hash (e_block e))) →
    complete_block_processing skip l (e_block e) (e_ours e) = (Err err, l') → follows (chain_below (e_height e) c) (Z.max top (e_height e)) l'
| follows_top c top l hash h : follows c top l → wallet_height (wallet l) ≤ h →
    follows c top (with_wallet l (set_status (wallet l) (store_block_hash (transaction_synchronizer_status (wallet_synchronizer (wallet l))) hash h)))
| follows_sent c top l p : follows c top l → follows c top (with_wallet l (apply_sent_transaction (wallet l) p))
| follows_cancelled c top l hashes : follows c top l → follows c top (with_wallet l (remove_cancelled_transactions (wallet l) hashes))
| follows_reopened c top l : follows c top l → follows c top (mkLedger (wallet l) (key_image_owners (wallet l)) 0 []).

Lemma state_ok_weaken R X P Q l : state_ok R X P l → P ≤ Q → state_ok R X Q l.
Proof.
  intros [Ht [Hs Hc] Hb] HQ. split; [by eapply weaken_tracks| |done]. split; [done|]. intros k i Hi Hall. apply Hc; [done|]. intros h Hx. specialize (Hall h Hx). lia.
Qed.

Lemma state_ok_wallet R X P l w : state_ok R X P l → tracks R X P w → wallet_height (wallet l) ≤ wallet_height w → state_ok R X P (with_wallet l w).
Proof. intros [Ht Ho [HX HR]] Hw Hle. split; [done|done|]. cbn. split; (eapply Forall_impl; [done|]); cbn; intros; lia. Qed.

Lemma fresh_ok l : fresh_ledger l → state_ok [] [] (0 - PRUNE_SPENT_INPUTS_INTERVAL) l.
Proof.
  intros [Hl Hk Hp Hv Ho]. split; [split; try done| |done].
  - split; try constructor; by intros ?? ?%elem_of_nil || intros ? ?%elem_of_nil.
  - eapply Forall_impl; [exact Hl|]. intros s (E1 & E2 & E3). split; unfold owned; rewrite ?E1, ?E2, ?E3; try constructor; cbn; set_solver.
  - by intros p ?%elem_of_nil.
  - rewrite Ho. split; [done|]. by intros k i ?%elem_of_nil.
Qed.

Lemma next_block_ok c top l e r l' : state_ok (received_on c) (spends_on c) (top - PRUNE_SPENT_INPUTS_INTERVAL) l → Forall entry_ok c → next_block c top l e →
  complete_block_processing skip l (e_block e) (e_ours e) = (r, l') → entry_ok e ∧
  match r with
  | Ok _ => state_ok (received_on (extend c e)) (spends_on (extend c e)) (Z.max top (e_height e) - PRUNE_SPENT_INPUTS_INTERVAL) l'
  | Err _ => parse_hex32 (sb_block_hash (e_block e)) = None ∨ state_ok (received_on (chain_below (e_height e) c)) (spends_on (chain_below (e_height e) c)) (Z.max top (e_height e) - PRUNE_SPENT_INPUTS_INTERVAL) l'
  end.
Proof.
  intros Hok Hc [Hs Hd Hg Hr] E. apply scanned_found in Hs.
  assert (entry_ok e) as He by (eapply Forall_impl; [exact Hs|]; intros p (_ & ? & ?); done). split; [done|].
  eapply complete_block_ok; [|done|done| | |done| |done|exact E]; [eapply state_ok_weaken; [done|]; lia|lia|unfold PRUNE_SPENT_INPUTS_INTERVAL in *; lia|].
  eapply Forall_impl; [exact Hs|]. by intros p [? _].
Qed.

Lemma chain_below_ok h c : Forall entry_ok c → Forall entry_ok (chain_below h c).
Proof. rewrite !Forall_forall. intros Hc e [_ He]%elem_of_lfilter. by apply Hc. Qed.

Lemma follows_ok c top l : follows c top l → state_ok (received_on c) (spends_on c) (top - PRUNE_SPENT_INPUTS_INTERVAL) l ∧ Forall entry_ok c.
Proof.
  induction 1 as [l Hl|c top l e n l' _ [Hok Hc] Hn E|c top l e err l' _ [Hok Hc] Hn Hp E|c top l hash h _ [Hok Hc] Hh|c top l p _ [Hok Hc]|c top l hashes _ [Hok Hc]|c top l _ [Hok Hc]].
  - split; [by apply fresh_ok|constructor].
  - destruct (next_block_ok _ _ _ _ _ _ Hok Hc Hn E) as [He Hok']. split; [exact Hok'|]. apply Forall_app. split; [by apply chain_below_ok|by constructor].
  - split; [|by apply chain_below_ok]. destruct (next_block_ok _ _ _ _ _ _ Hok Hc Hn E) as [He [Hnone|Hok']]; [|done]. destruct Hp. congruence.
  - split; [|done]. apply state_ok_wallet; [done| |unfold wallet_height; cbn; by rewrite store_block_hash_height]. by apply (same_subs_tracks _ _ _ _ (so_tracks _ _ _ _ Hok)).
  - split; [|done]. pose proof (so_tracks _ _ _ _ Hok) as Ht. apply state_ok_wallet; [done|by apply sent_tracks|]. unfold wallet_height. by erewrite sent_status.
  - split; [|done]. apply state_ok_wallet; [done|apply cancel_tracks, Hok|done].
  - split; [|done]. destruct Hok as [Ht _ Hb]. split; [done|by apply rebuilt_owners|done].
Qed.


End Run.

(** * An output received, spent, and unspent again by a reorganisation *)

Module ToyFollow.

#[export] Instance crypto : Crypto := toy_crypto.
Definition key : bytes := replicate 32 7.
#[export] Instance keys : CurveKeys := {| generate_key_derivation _ _ := Some key; derive_public_key _ n _ := Some (replicate 32 n) |}.
#[export] Instance secrets : CurveSecrets := {|
  sc_check _ := true; secret_key_to_public_key k := Some k; generate_view_from_spend k := (k, k); generate_deterministic_subwallet_key k _ := k;
  derive_secret_key _ _ k := k; underive_public_key _ _ _ := Some key; generate_key_image p _ := p;
  wrkz_generate_ring_signature _ _ _ n _ _ _ _ := None |}.

Definition wallet : Wallet := with_primary key (SubWallet_new_primary key key [] 0 0) false 0 0.
Definition ledger : Ledger := mkLedger wallet ∅ 0 [].

Definition hex (n : Z) : bytes := write_hex (replicate 32 n).
Definition block (hash height : Z) (txs : list SyncTransaction) : SyncBlock := mkSyncBlock (hex hash) height 0 None txs.

Definition ours : list OwnedInput :=
  [(key, mkTransactionInput 500 1 (Some 3) (replicate 32 9) (replicate 32 0) (replicate 32 21) (Some key) 0 0 (replicate 32 5) 0)].

Definition receive : Entry := mkEntry (block 1 1 [mkSyncTransaction (hex 21) [mkSyncOutput 500 (hex 9) (Some 3)] (hex 5) 0 [] []]) ours.
Definition spend : Entry := mkEntry (block 2 2 [mkSyncTransaction (hex 22) [] (hex 5) 0 [] [mkSyncInput 500 (hex 0)]]) [].
Definition other : Entry := mkEntry (block 3 2 []) [].

Definition step (l : Ledger) (e : Entry) : Ledger := (complete_block_processing false l (e_block e) (e_ours e)).2.

Definition final : Ledger := step (step (step ledger receive) spend) other.

Lemma scan_ok w b l : process_block_outputs w false b = Ok l → scanned w false b l.
Proof. intros E. exists l. split; [done|]. clear E. induction l as [|[k i] l IH]; constructor; [|done]. split; [done|]. exists (ti_global_output_index i). by destruct i. Qed.

(** One output and at most one spend of it, above it. *)
Lemma rules_ok R X : (R = ours ∧ (X = [] ∨ X = [(replicate 32 0, 2)])) → chain_rules R X.
Proof.
  intros [-> HX]. split; [apply NoDup_singleton..| |].
  - destruct HX as [->| ->]; [constructor|apply NoDup_singleton].
  - intros p h Hp%list_elem_of_singleton Hx. subst p. destruct HX as [->| ->]; [by apply elem_of_nil in Hx|]. apply list_elem_of_singleton in Hx as [= ->]. done.
Qed.

Lemma follows_final : follows false [receive; other] 2 final.
Proof.
  assert (follows false [receive] 1 (step ledger receive)) as H1.
  { apply (follows_block false [] 0 ledger receive 1).
    - apply follows_start. split; [by repeat constructor|apply NoDup_singleton|done..].
    - split; [apply scan_ok; vm_compute; reflexivity|done|done|apply rules_ok; vm_compute; auto].
    - vm_compute. reflexivity. }
  assert (follows false [receive; spend] 2 (step (step ledger receive) spend)) as H2.
  { apply (follows_block false [receive] 1 (step ledger receive) spend 1); [exact H1| |vm_compute; reflexivity].
    split; [apply scan_ok; vm_compute; reflexivity|vm_compute; done|done|apply rules_ok; vm_compute; auto]. }
  apply (follows_block false [receive; spend] 2 (step (step ledger receive) spend) other 0); [exact H2| |vm_compute; reflexivity].
  split; [apply scan_ok; vm_compute; reflexivity|vm_compute; done|done|apply rules_ok; vm_compute; auto].
Qed.

End ToyFollow.

Import (hints) ToyFollow.

