(* ===== verification/WalletStep.v ===== *)
(** A step of the synchronizer (sync.rs, [process_stored_blocks]) keeps the wallet following
    the chain: blocks are scanned by several threads with the keys the wallet had at the start,
    global indexes are filled in from the daemon's answers, and the blocks are applied in order. *)
From stdpp Require Import gmap sets.
From S2P Require Import Prelude Constants Hashing Curve Base58 Mnemonic Windows Wallet WalletSync Transfer WalletScan WalletFollow.
Local Open Scope Z_scope.

(** * Scanning by several threads *)

Lemma place_other {A} (scanned : list (nat * A)) (results : list (option A)) i : i ∉ scanned.*1 → place results scanned !! i = results !! i.
Proof.
  revert results. induction scanned as [|[j r] scanned IH]; intros results Hi; [done|]. cbn in *. apply not_elem_of_cons in Hi as [Hne Hi].
  rewrite IH by done. by apply list_lookup_insert_ne.
Qed.

Lemma length_place {A} (scanned : list (nat * A)) (results : list (option A)) : length (place results scanned) = length results.
Proof. revert results. induction scanned as [|[j r] scanned IH]; intros results; [done|]. cbn. rewrite IH. apply length_insert. Qed.

(** Each index once, with its result: each result in its place. *)
Lemma place_all {A} (f : nat → A) (idx : list nat) (results : list (option A)) i : NoDup idx → i ∈ idx → (i < length results)%nat →
  place results (map (λ i, (i, f i)) idx) !! i = Some (Some (f i)).
Proof.
  revert results. induction idx as [|j idx IH]; intros results; [by intros _ ?%elem_of_nil|]. intros [Hj Hn]%NoDup_cons Hi Hl. cbn.
  destruct (decide (i = j)) as [->|Hne].
  - rewrite place_other; [by apply list_lookup_insert_eq|]. by rewrite <- list_fmap_compose, list_fmap_id.
  - apply elem_of_cons in Hi as [?|Hi]; [done|]. apply IH; [done|done|by rewrite length_insert].
Qed.

Section Threads.
Context `{C : Crypto} `{CurveKeys} `{CurveSecrets}.

(** The shared counter hands out each block once, in whatever interleaving. *)
Definition claims_ok (claims : nat → nat → list (list nat)) : Prop := ∀ threads n, concat (claims threads n) ≡ₚ seq 0 n.

Lemma scan_blocks_sequential w skip blocks threads claims : claims_ok claims →
  scan_blocks w skip blocks threads claims = Some (map (process_block_outputs w skip) blocks).
Proof.
  intros Hcl. unfold scan_blocks. cbv zeta. case_match; [done|]. set (t := Nat.min _ _). specialize (Hcl t (length blocks)).
  set (f := process_block_outputs w skip). set (res := λ i, from_option f (Ok []) (blocks !! i)).
  assert (∀ idx, Forall (λ i, i < length blocks)%nat idx → omap (λ i, r ← f <$> blocks !! i; Some (i, r)) idx = map (λ i, (i, res i)) idx) as Hom.
  { induction 1 as [|i idx Hi _ IH]; [done|]. cbn. unfold res. destruct (lookup_lt_is_Some_2 blocks i Hi) as [b ->]. cbn. by rewrite IH. }
  assert (concat (map (omap (λ i, r ← f <$> blocks !! i; Some (i, r))) (claims t (length blocks))) = map (λ i, (i, res i)) (concat (claims t (length blocks)))) as ->.
  { rewrite concat_map. f_equal. apply map_ext_in. intros idx Hidx. apply Hom, Forall_forall. intros i Hi.
    assert (i ∈ seq 0 (length blocks)) as Hs%elem_of_seq; [|lia]. rewrite <- Hcl. apply elem_of_concat. exists idx. split; [done|]. by apply list_elem_of_In. }
  assert (place (replicate (length blocks) None) (map (λ i, (i, res i)) (concat (claims t (length blocks)))) = map (λ b, Some (f b)) blocks) as ->.
  { apply list_eq_same_length with (n := length blocks); [by rewrite length_map|by rewrite length_place, length_replicate|].
    intros i x y Hi. rewrite place_all; [|rewrite Hcl; apply NoDup_seq|rewrite Hcl; apply elem_of_seq; lia|by rewrite length_replicate].
    unfold res. destruct (lookup_lt_is_Some_2 blocks i Hi) as [b Eb]. rewrite Eb. intros [= <-] Hy. rewrite list_lookup_fmap, Eb in Hy. by injection Hy as <-. }
  clear. induction blocks as [|b blocks IH]; [done|]. cbn in *. by rewrite IH.
Qed.

End Threads.

(** * The keys stay *)

Definition spend_keys (s : SubWallet) : bytes * bytes := (sw_public_spend_key s, sw_private_spend_key s).

(** All that scanning reads of a wallet. *)
Definition same_keys (w w' : Wallet) : Prop :=
  map spend_keys (subs w') = map spend_keys (subs w) ∧ public_spend_keys (sub_wallets w') = public_spend_keys (sub_wallets w) ∧
  private_view_key (sub_wallets w') = private_view_key (sub_wallets w) ∧ is_view_wallet (sub_wallets w') = is_view_wallet (sub_wallets w).

#[local] Instance same_keys_equiv : Equivalence same_keys.
Proof. split; [done|by intros w w' (? & ? & ? & ?)|intros u v w (? & ? & ? & ?) (? & ? & ? & ?); split_and!; congruence]. Qed.

Lemma map_keys (g : SubWallet → SubWallet) l : (∀ s, spend_keys (g s) = spend_keys s) → map spend_keys (map g l) = map spend_keys l.
Proof. intros Hg. rewrite map_map. by apply map_ext. Qed.

Lemma mut_same_keys {T} w k (d : T) f : (∀ s, spend_keys (f s).2 = spend_keys s) → same_keys w (sub_wallet_mut w k d f).2.
Proof.
  intros Hf. unfold sub_wallet_mut. assert (map spend_keys (alter_sub k d f (subs w)).2 = map spend_keys (subs w)) as E.
  { induction (subs w) as [|s l IH]; [done|]. cbn. case_bool_decide.
    - specialize (Hf s). destruct (f s). cbn in *. by rewrite Hf.
    - destruct (alter_sub k d f l). cbn in *. by rewrite IH. }
  by destruct (alter_sub _ _ _ _).
Qed.

Lemma find_keys l l' k : map spend_keys l = map spend_keys l' →
  sw_private_spend_key <$> List.find (λ s, bool_decide (sw_public_spend_key s = k)) l = sw_private_spend_key <$> List.find (λ s, bool_decide (sw_public_spend_key s = k)) l'.
Proof.
  revert l'. induction l as [|s l IH]; intros [|s' l']; try done. cbn. unfold spend_keys at 1 3. intros [= Ek Ep El]. rewrite Ek. case_bool_decide; cbn; [by rewrite Ep|by apply IH].
Qed.

Section Step.
Context `{C : Crypto} `{CurveKeys} `{CurveSecrets}.

Lemma scan_same_keys w w' skip b : same_keys w w' → process_block_outputs w' skip b = process_block_outputs w skip b.
Proof.
  intros (Es & Ep & Ev & Ei). unfold process_block_outputs. generalize (scanned_transactions skip b) as txs.
  assert (∀ tx, process_transaction_outputs w' tx (sb_block_height b) = process_transaction_outputs w tx (sb_block_height b)) as Hp.
  { intros tx. unfold process_transaction_outputs. rewrite Ev. destruct (ok_or _ (parse_hex32 (st_tx_public_key tx))) as [pk|]; [|done]. cbn.
    destruct (ok_or _ (parse_hex32 (st_hash tx))) as [th|]; [|done]. cbn. destruct (generate_key_derivation _ _) as [d|]; [|done].
    generalize (st_outputs tx) as outs, 0 as n. induction outs as [|o outs IH]; intros n; [done|]. cbn -[from_option sub_wallet NULL_SECRET_KEY]. destruct (parse_hex32 (so_key o)) as [key|]; [|done].
    cbn -[from_option sub_wallet NULL_SECRET_KEY]. rewrite IH.
    destruct (underive_public_key d n key) as [spend|]; [|done]. unfold is_our_spend_key. rewrite Ep, Ei.
    assert (from_option sw_private_spend_key NULL_SECRET_KEY (sub_wallet w' spend) = from_option sw_private_spend_key NULL_SECRET_KEY (sub_wallet w spend)) as ->; [|done].
    pose proof (find_keys _ _ spend Es) as Hf. unfold sub_wallet. destruct (List.find _ (subs w')), (List.find _ (subs w)); cbn in *; congruence. }
  induction txs as [|tx txs IH]; [done|]. cbn. by rewrite Hp, IH.
Qed.

Lemma store_inputs_same_keys ours w own : same_keys w (store_inputs w own ours).1.
Proof.
  revert w own. induction ours as [|[k i] ours IH]; intros w own; [done|]. cbn. etrans; [|apply IH]. apply mut_same_keys. intros s. unfold store_input. by case_match.
Qed.

Lemma mark_spent_same_keys images w h : same_keys w (mark_spent w images h).
Proof.
  revert w. induction images as [|[k x] images IH]; intros w; [done|]. cbn. etrans; [|apply IH]. apply mut_same_keys. intros s. unfold spend_input. by repeat case_match.
Qed.

Lemma add_transactions_same_keys w txs : same_keys w (add_transactions w txs).2.
Proof.
  revert w. induction txs as [|tx txs IH]; intros w; [done|]. cbn. destruct (add_transaction w tx) as [b w'] eqn:E. specialize (IH w'). destruct (add_transactions w' txs) as [hs w2]. cbn in *.
  etrans; [|exact IH]. unfold add_transaction in E. destruct (existsb _ _) in E; by injection E as <- <-.
Qed.

Lemma unwind_same_keys l h : same_keys (wallet l) (wallet (unwind_fork l h)).
Proof.
  unfold unwind_fork. destruct (_ && _); [|done]. split; [|done]. cbn. rewrite !map_map. apply map_ext. intros s. unfold fork_sub. by destruct (unspend _ _ _ _).
Qed.

Lemma complete_same_keys skip l b ours : same_keys (wallet l) (wallet (complete_block_processing skip l b ours).2).
Proof.
  unfold complete_block_processing. destruct (parse_hex32 _) as [bh|]; [|done]. cbv zeta. etrans; [apply (unwind_same_keys l (sb_block_height b))|].
  generalize (unwind_fork l (sb_block_height b)) as u. intros u. cbn [owners forks_resolved step_added]. etrans.
  { instantiate (1 := prune_due (sb_block_height b) (wallet u)). unfold prune_due. destruct (_ && _); [|done]. split; [|done]. cbn. by apply map_keys. }
  generalize (prune_due (sb_block_height b) (wallet u)) as w. intros w. destruct (process_block_transactions _ _ _ _ _) as [[txs images]|]; [|done].
  pose proof (add_transactions_same_keys w txs) as H1. destruct (add_transactions w txs) as [hs w1].
  pose proof (store_inputs_same_keys ours w1 (owners u)) as H2. destruct (store_inputs w1 (owners u) ours) as [w2 own2]. cbn in *.
  etrans; [exact H1|]. etrans; [exact H2|]. etrans; [apply (mark_spent_same_keys images w2 (sb_block_height b))|done].
Qed.

(** * Applying the blocks *)

Context {D : Type} `{SyncDaemon D}.
Implicit Types y : Synchronizer D.

Lemma fetch_same y a b into r y' : fetch_global_indexes y a b into = (r, y') → ledger y' = ledger y ∧ config y' = config y ∧ stored_blocks y' = stored_blocks y.
Proof. unfold fetch_global_indexes. destruct (global_indexes_for_range _ _ _) as [[l|e] d]; [by intros [= <- <-]|]. destruct e; by intros [= <- <-]. Qed.

Lemma index_attempts_spec fuel y h i idx r y' : index_attempts fuel y h i idx = (r, y') → ledger y' = ledger y ∧ config y' = config y ∧
  match r with Ok (j, _) => ∃ g, j = with_global_index g i | Err _ => True end.
Proof.
  revert y idx. induction fuel as [|fuel IH]; intros y idx; cbn; destruct (found_index idx i) as [g|]; try (intros [= <- <-]; split_and!; [done..|]; by exists (Some g)).
  - intros [= <- <-]. split_and!; [done..|]. exists (ti_global_output_index i). by destruct i.
  - destruct (fetch_global_indexes _ _ _ _) as [[idx'|e] y1] eqn:E; apply fetch_same in E as (El & Ec & _).
    + intros (E1 & E2 & E3)%IH. split_and!; [congruence|congruence|done].
    + intros [= <- <-]. by split_and!.
Qed.

Lemma filled_indexes y h ours idx r y' : fill_global_indexes y h ours idx = (r, y') → ledger y' = ledger y ∧ config y' = config y ∧
  match r with Ok (l, _) => Forall2 (λ p q, p.1 = q.1 ∧ ∃ g, p.2 = with_global_index g q.2) l ours | Err _ => True end.
Proof.
  revert y idx r y'. induction ours as [|[k i] ours IH]; intros y idx r y'; cbn; [intros [= <- <-]; by split_and!|].
  assert (∀ q y1, (if is_view_wallet (sub_wallets (wallet (ledger y))) || bool_decide (is_Some (ti_global_output_index i)) then (Ok (i, idx), y)
     else index_attempts (global_index_retries (config y) - 1) y h i idx) = (q, y1) → ledger y1 = ledger y ∧ config y1 = config y ∧
     match q with Ok (j, _) => ∃ g, j = with_global_index g i | Err _ => True end) as Hone.
  { intros q y1. destruct (_ || _); [|apply index_attempts_spec]. intros [= <- <-]. split_and!; [done..|]. exists (ti_global_output_index i). by destruct i. }
  destruct (if _ : bool then _ else _) as [q y1]. destruct (Hone q y1 eq_refl) as (El & Ec & Hj). destruct q as [[j idx1]|e]; [|intros [= <- <-]; by split_and!].
  destruct (fill_global_indexes y1 h ours idx1) as [r2 y2] eqn:E2. apply IH in E2 as (El2 & Ec2 & Hl). intros [= <- <-]. split_and!; [congruence|congruence|].
  destruct r2 as [[l idx2]|]; [|done]. cbn. constructor; [by split|done].
Qed.

Lemma fetch_runs_same fuel y windows idx r y' : fetch_runs fuel y windows idx = (r, y') → ledger y' = ledger y ∧ config y' = config y ∧ stored_blocks y' = stored_blocks y.
Proof.
  revert y windows idx. induction fuel as [|fuel IH]; intros y [|a rest] idx; cbn; try (by intros [= <- <-]).
  destruct (merge_run _ _ _) as [b rest']. destruct (fetch_global_indexes _ _ _ _) as [[idx'|e] y1] eqn:E; apply fetch_same in E as (El & Ec & Eb).
  - intros (E1 & E2 & E3)%IH. split_and!; congruence.
  - intros [= <- <-]. by split_and!.
Qed.

(** Blocks that may come one after the other, whatever indexes their outputs get. *)
Fixpoint serves (w : Wallet) (skip : bool) (c : list Entry) (top : Z) (blocks : list SyncBlock) : Prop :=
  match blocks with
  | [] => True
  | b :: blocks => ∀ ours, scanned w skip b ours →
      let e := mkEntry b ours in
      top - PRUNE_SPENT_INPUTS_INTERVAL < e_height e ∧ (e_height e = 0 → c = []) ∧ chain_rules (received_on (extend c e)) (spends_on (extend c e)) ∧
      serves w skip (extend c e) (Z.max top (e_height e)) blocks
  end.

Lemma apply_blocks_follows w blocks y c top idx applied added r y' : follows (skip_coinbase_transactions (config y)) c top (ledger y) →
  same_keys w (wallet (ledger y)) → serves w (skip_coinbase_transactions (config y)) c top blocks →
  apply_blocks y (zip blocks (map (process_block_outputs w (skip_coinbase_transactions (config y))) blocks)) idx applied added = (r, y') →
  ∃ c' top', follows (skip_coinbase_transactions (config y)) c' top' (ledger y') ∧
    match r with Ok (n, _) => n = (applied + length blocks)%nat ∧ ∃ es, map e_block es = blocks ∧ c' = foldl extend c es | Err _ => True end.
Proof.
  revert y c top idx applied added. induction blocks as [|b blocks IH]; intros y c top idx applied added Hf Hk Hs; cbn.
  { intros [= <- <-]. exists c, top. split; [done|]. split; [lia|]. by exists []. }
  destruct (process_block_outputs w (skip_coinbase_transactions (config y)) b) as [inputs|e] eqn:Escan; [|intros [= <- <-]; by exists c, top].
  destruct (fill_global_indexes _ _ _ _) as [[[ours idx']|e] y1] eqn:Efill; apply filled_indexes in Efill as (El & Ec & Hours).
  2:{ intros [= <- <-]. exists c, top. split; [|done]. cbn. by rewrite El. }
  assert (scanned w (skip_coinbase_transactions (config y)) b ours) as Hsc by (by exists inputs). destruct (Hs ours Hsc) as (Hd & Hg & Hr & Hrest). rewrite El, Ec.
  assert (next_block (skip_coinbase_transactions (config y)) c top (ledger y) (mkEntry b ours)) as Hnext.
  { split; [|done..]. destruct Hsc as (l & Hl & HF). exists l. split; [|done]. by rewrite (scan_same_keys w) by done. }
  pose proof (complete_same_keys (skip_coinbase_transactions (config y)) (ledger y) b ours) as Hk'.
  destruct (complete_block_processing _ (ledger y) b ours) as [[n|e] l'] eqn:Ecomp.
  - intros Hrun. assert (config (set_ledger y1 l') = config y) as Ec' by done. rewrite <- Ec' in Hrun.
    apply (IH (set_ledger y1 l') (extend c (mkEntry b ours)) (Z.max top (e_height (mkEntry b ours)))) in Hrun as (c' & top' & Hf' & Hm).
    + rewrite Ec' in Hf'. exists c', top'. split; [done|]. destruct r as [[m a]|]; [|done]. destruct Hm as [-> (es & <- & ->)]. split; [cbn; lia|]. by exists (mkEntry b ours :: es).
    + rewrite Ec'. eapply follows_block; [exact Hf|exact Hnext|exact Ecomp].
    + cbn. etrans; [exact Hk|]. exact Hk'.
    + by rewrite Ec'.
  - intros [= <- <-]. cbn. destruct (parse_hex32 (sb_block_hash b)) as [bh|] eqn:Eh.
    + eexists _, _. split; [|done]. eapply (follows_failed _ c top (ledger y) (mkEntry b ours)); [done|done|by exists bh|exact Ecomp].
    + exists c, top. split; [|done]. unfold complete_block_processing in Ecomp. rewrite Eh in Ecomp. by injection Ecomp as _ <-.
Qed.

(** A request that is refused for its size is sent again with a smaller one, at most until the
    size is the one it started from. *)
Lemma request_sync_data_ends checkpoints h t e y : is_u64 (block_count (batch y)) → 0 ≤ start_block_count (config y) →
  ∃ r, iter_until (request_turn checkpoints h t e) (2 ^ 64)%positive y = inr r.
Proof.
  intros [Hb1 Hb2] Hs. apply (iter_until_ends _ (λ y, 0 ≤ block_count (batch y) ∧ 0 ≤ start_block_count (config y)) (λ y, block_count (batch y))); [|done|done].
  clear y Hb1 Hb2 Hs. intros y y' [Hb Hs]. unfold request_turn. cbv zeta. destruct (wallet_sync_data _ _) as [[data|err] d]; [done|].
  destruct err; try done. unfold lower_ceiling_after_bad_request. cbn. destruct (Z.leb_spec (block_count (batch y)) (start_block_count (config y))); [done|].
  intros [= <-]. cbn. assert (block_count (batch y) / 2 < block_count (batch y)) by (apply Z.div_lt; lia). pose proof (Z.div_pos (block_count (batch y)) 2). lia.
Qed.

Variable claims : nat → nat → list (list nat).

(** C20. Applying what has been downloaded neither panics nor leaves the chain: whatever
    interleaving the scanning threads have, and whatever the daemon answers about global
    indexes, the wallet follows a chain afterwards too, and on success it is the one extended by
    the blocks taken, in order. *)
Theorem process_stored_follows y c top : claims_ok claims → follows (skip_coinbase_transactions (config y)) c top (ledger y) →
  (∀ n, serves (wallet (ledger y)) (skip_coinbase_transactions (config y)) c top (take n (stored_blocks y))) →
  ∃ r y' c' top', process_stored_blocks claims y = Some (r, y') ∧ follows (skip_coinbase_transactions (config y)) c' top' (ledger y') ∧
    match r with Ok (n, _) => ∃ es, map e_block es = take n (stored_blocks y) ∧ c' = foldl extend c es | Err _ => True end.
Proof.
  intros Hcl Hf Hs. unfold process_stored_blocks. cbv zeta. set (n := Nat.min _ _). destruct (n =? 0)%nat; [eexists _, y, c, top; split; [done|]; split; [done|]; by exists []|].
  rewrite scan_blocks_sequential by done. cbn [mbind option_bind]. specialize (Hs n).
  destruct (prefetch_global_indexes _ _) as [[idx|e] y1] eqn:E.
  all: assert (ledger y1 = ledger y ∧ config y1 = config y) as [El Ec]
    by (unfold prefetch_global_indexes in E; destruct (is_view_wallet _) in E; [by simplify_eq|by apply fetch_runs_same in E as (? & ? & _)]).
  - destruct (apply_blocks y1 _ idx 0 0) as [r y2] eqn:Ea. cbn [ledger config set_stored_blocks] in Ea. rewrite <- Ec in Hf, Hs, Ea |- *.
    rewrite <- El in Hf. eapply (apply_blocks_follows (wallet (ledger y))) in Ea as (c' & top' & Hf' & Hm); [|exact Hf|by rewrite El|exact Hs].
    exists r, y2, c', top'. split; [done|]. split; [done|]. destruct r as [[m a]|]; [|done]. destruct Hm as [-> (es & Hes & ->)].
    exists es. split; [|done]. rewrite Hes, length_take, Nat.add_0_l, Nat.min_l; [done|]. apply Nat.le_min_r.
  - exists (Err e). eexists _, c, top. split; [done|]. split; [|done]. cbn. by rewrite El.
Qed.

End Step.

(** * Two blocks, scanned by two threads *)

Module ToyStep.
Import ToyFollow.

(** A daemon with nothing to say. *)
#[export] Instance silent : SyncDaemon unit := {|
  wallet_sync_data d _ := (Err Transport, d); wallet_sync_data_many d l := (map (λ _, Err Transport) l, d);
  global_indexes_for_range d _ _ := (Err NotFound, d); transactions_unknown d _ := (Ok [], d); daemon_info d := (Err Transport, d) |}.

(** Two threads: the odd blocks and the even ones. *)
Definition claims (threads n : nat) : list (list nat) := [List.filter Nat.odd (seq 0 n); List.filter Nat.even (seq 0 n)].

Lemma claims_fine : claims_ok claims.
Proof.
  intros threads n. unfold claims. cbn. rewrite app_nil_r. induction (seq 0 n) as [|i l IH]; [done|]. cbn. rewrite <- Nat.negb_even. destruct (Nat.even i); cbn.
  - by rewrite <- Permutation_middle, IH.
  - by rewrite IH.
Qed.

Definition synchronizer : Synchronizer unit :=
  set_stored_blocks (with_config tt ToyFollow.wallet (SyncConfig_default 2)) [e_block receive; e_block spend].

Definition output (g : option Z) : list OwnedInput := [(key, with_global_index g (mkTransactionInput 500 1 (Some 3) (replicate 32 9) (replicate 32 0) (replicate 32 21) (Some key) 0 0 (replicate 32 5) 0))].

Lemma output_rules g X : X = [] ∨ X = [(replicate 32 0, 2)] → chain_rules (output g) X.
Proof.
  intros HX. split; [apply NoDup_singleton..| |].
  - destruct HX as [->| ->]; [constructor|apply NoDup_singleton].
  - intros p h Hp%list_elem_of_singleton Hx. subst p. destruct HX as [->| ->]; [by apply elem_of_nil in Hx|]. apply list_elem_of_singleton in Hx as [= ->]. done.
Qed.

Lemma serves_all n : serves ToyFollow.wallet false [] 0 (take n [e_block receive; e_block spend]).
Proof.
  destruct n as [|n]; [done|]. intros ours (l & Hl & HF). assert (process_block_outputs ToyFollow.wallet false (e_block receive) = Ok ToyFollow.ours) as E by (vm_compute; reflexivity).
  assert (l = ToyFollow.ours) as -> by congruence. apply Forall2_cons_inv_r in HF as ([k i] & rest & [Ek (g & Ei)] & ->%Forall2_nil_inv_r & ->). cbn [fst snd] in *. subst k i.
  split; [done|]. split; [done|]. split; [apply (output_rules g); by left|].
  destruct n as [|n]; [done|]. intros ours (l & Hl2 & HF). assert (process_block_outputs ToyFollow.wallet false (e_block spend) = Ok []) as E2 by (vm_compute; reflexivity).
  assert (l = []) as -> by congruence. apply Forall2_nil_inv_r in HF as ->.
  split; [done|]. split; [done|]. split; [apply (output_rules g); by right|]. by rewrite take_nil.
Qed.

End ToyStep.

Import (hints) ToyFollow ToyStep.

Lemma process_stored_follows_witness : ∃ r y' c' top', process_stored_blocks ToyStep.claims ToyStep.synchronizer = Some (r, y') ∧
  follows false c' top' (ledger y') ∧ match r with Ok (n, _) => ∃ es, map e_block es = take n (stored_blocks ToyStep.synchronizer) ∧ c' = foldl extend [] es | Err _ => True end.
Proof.
  apply (process_stored_follows ToyStep.claims ToyStep.synchronizer [] 0).
  - exact ToyStep.claims_fine.
  - apply follows_start. split; [by repeat constructor|apply NoDup_singleton|reflexivity..].
  - exact ToyStep.serves_all.
Defined.
