(* ===== verification/WalletSend.v ===== *)
(** How a send goes wrong, and what it leaves behind (transfer.rs): the fallback to smaller
    rings, the end of the fee loop, the wallet after a failed relay, and what cancelling a send
    does to its inputs. *)
From stdpp Require Import gmap sets.
From S2P Require Import Prelude Constants F64 Hashing Cryptonight Curve Varint Ser Tx TxExtra Base58 Fees Reward Checkpoints Records Validate Accept.
From S2P Require Import Wallet WalletSync Transfer TransferSpec TransferRings TransferBuild TransferAccept WalletScan WalletFollow.
Local Open Scope Z_scope.

(** * Errors that are not for want of outputs *)

(** A computation that does not fail for want of fake outputs. *)
Definition quiet {A} (r : result WalletError A) : Prop := ∀ e, r = Err e → is_fake_outputs_error e = false.

Lemma quiet_Ok {A} (a : A) : quiet (Ok a).
Proof. by intros e. Qed.

Lemma quiet_Err {A} e : is_fake_outputs_error e = false → quiet (A := A) (Err e).
Proof. by intros He e' [= <-]. Qed.

Lemma quiet_bind {A B} (m : result WalletError A) (f : A → result WalletError B) : quiet m → (∀ a, quiet (f a)) → quiet (a ← m; f a).
Proof. intros Hm Hf e. destruct m as [a|e']; cbn; [apply Hf|]. intros [= <-]. by apply Hm. Qed.

Lemma quiet_map_err {E A} (f : E → WalletError) (m : result E A) : (∀ e, is_fake_outputs_error (f e) = false) → quiet (map_err f m).
Proof. intros Hf e. destruct m; cbn; [done|]. by intros [= <-]. Qed.

Lemma quiet_ok_or {A} e (o : option A) : is_fake_outputs_error e = false → quiet (ok_or e o).
Proof. intros He e'. destruct o; cbn; [done|]. by intros [= <-]. Qed.

Lemma quiet_collect {A B} (f : A → result WalletError B) l : (∀ a, quiet (f a)) → quiet (collect f l).
Proof.
  intros Hf. induction l as [|a l IH]; cbn; [apply quiet_Ok|]. apply quiet_bind; [apply Hf|]. intros b. apply quiet_bind; [exact IH|]. intros bs. apply quiet_Ok.
Qed.

(** Splits the computation at its branches. *)
Ltac quiet := repeat (cbn beta iota zeta; match goal with
  | |- quiet (Ok _) => apply quiet_Ok
  | |- quiet (Err _) => apply quiet_Err; reflexivity
  | |- quiet (mbind _ _) => apply quiet_bind; [|intro]
  | |- quiet (map_err _ _) => apply quiet_map_err; by intros []
  | |- quiet (ok_or _ _) => apply quiet_ok_or; reflexivity
  | |- quiet (collect _ _) => apply quiet_collect; intro
  | |- quiet (if ?b then _ else _) => destruct b
  | |- quiet (match ?x with _ => _ end) => destruct x
  end).

Section Quiet.
Context `{C : Crypto}.

Lemma validate_address_quiet a i : quiet (validate_address a i).
Proof. unfold validate_address. quiet. Qed.

Lemma validate_our_address_quiet w a : quiet (validate_our_address w a).
Proof. unfold validate_our_address. quiet. apply validate_address_quiet. Qed.

Lemma validate_integrated_quiet ds id : quiet (validate_integrated_addresses ds id).
Proof. revert id. induction ds as [|[a x] ds IH]; intros id; cbn; quiet; apply IH. Qed.

Lemma validate_amount_quiet w ds fee from h now : quiet (validate_amount w ds fee from h now).
Proof. unfold validate_amount. quiet. apply validate_our_address_quiet. Qed.

Lemma validate_parameters_quiet w ds mixin fee id from change unlock h now : quiet (validate_transaction_parameters w ds mixin fee id from change unlock h now).
Proof.
  unfold validate_transaction_parameters, Transfer.validate_mixin, validate_payment_id, validate_unlock_time_at.
  quiet; try apply validate_integrated_quiet; try apply validate_amount_quiet; try apply validate_our_address_quiet; apply validate_address_quiet.
Qed.

Lemma resolve_integrated_quiet ds id : quiet (resolve_integrated ds id).
Proof.
  unfold resolve_integrated. pose proof (quiet_Ok (([], id) : list (bytes * Z) * bytes)) as Hacc. revert Hacc.
  generalize (Ok (E := WalletError) (([], id) : list (bytes * Z) * bytes)) as acc. induction ds as [|[a x] ds IH]; intros acc Hacc; [exact Hacc|].
  cbn [foldl]. apply IH. apply quiet_bind; [exact Hacc|]. intros [l id']. quiet.
Qed.

Lemma available_quiet w keys h now : quiet (available_of w keys h now).
Proof. induction keys as [|k keys IH]; cbn; quiet. exact IH. Qed.

Lemma send_setup_quiet wal params mixin now : quiet (send_setup wal params mixin now).
Proof.
  unfold send_setup, spendable_transaction_inputs_at, available_inputs. quiet.
  all: try apply validate_parameters_quiet; try apply resolve_integrated_quiet; try apply validate_our_address_quiet; try apply available_quiet.
Qed.

End Quiet.

(** * The mixin fallback *)

Lemma send_bind_Err {W E A B} (m : SendM W E A) (f : A → SendM W E B) w e w' :
  (a ← m; f a) w = (Err e, w') → m w = (Err e, w') ∨ ∃ a v, m w = (Ok a, v) ∧ f a v = (Err e, w').
Proof. unfold mbind, SendM_bind. destruct (m w) as [[a|e'] v]; [by right; exists a, v|]. intros [= <- <-]. by left. Qed.

Section Fallback.
Context `{C : Crypto} `{CurveKeys} `{CurveSecrets} `{TransferRandom W} `{TransferDaemon W} `{Platform W}.

Definition in_tier (params : SendParams) (m : Z) : Prop :=
  mr_min (mixin_allowable_range (daemon_height params)) ≤ m ≤ mr_max (mixin_allowable_range (daemon_height params)).

Lemma setup_in_tier wal params m now s : send_setup wal params m now = Ok s → in_tier params m.
Proof.
  unfold send_setup. intros (change & _ & ([] & Hv & _)%result_bind_Ok)%result_bind_Ok. apply validated_parameters in Hv as (_ & Hm & _).
  unfold Transfer.validate_mixin in Hm. unfold in_tier. destruct (_ <? _) eqn:E1; [done|]. destruct (_ <? m) eqn:E2; [done|]. lia.
Qed.

(** An attempt that gets as far as looking for outputs is at a mixin of the tier. *)
Lemma attempt_in_tier wal params m v r v' : send_transaction_advanced_with_mixin wal params m v = (r, v') →
  match r with Ok p => p_mixin p = m ∧ in_tier params m | Err f => is_fake_outputs_error (error f) = true → in_tier params m end.
Proof.
  unfold send_transaction_advanced_with_mixin. destruct r as [p|f].
  - intros (now & w1 & _ & Hp)%send_bind_Ok. apply send_bind_Ok in Hp as ([[c available] g] & w2 & [Hset _]%inner_Ok & Hp). apply send_bind_Ok in Hp as ([g' bo] & w3 & _ & Hp).
    cbv zeta in Hp. apply send_bind_Ok in Hp as ([] & w4 & _ & Hp). apply send_bind_Ok in Hp as (b & w5 & _ & Hp).
    apply send_bind_Ok in Hp as (actual & w6 & _ & [-> _]%send_ret_Ok). split; [done|]. by eapply setup_in_tier.
  - intros [Hd|(now & w1 & _ & Hp)]%send_bind_Err; [by destruct (now_seconds v) as [? ?] eqn:E; unfold draw in Hd; rewrite E in Hd|].
    apply send_bind_Err in Hp as [Hp|([[c available] g] & w2 & [Hset _]%inner_Ok & _)]; [|intros _; by eapply setup_in_tier].
    unfold inner in Hp. destruct (send_setup wal params m now) as [s|e] eqn:Es; [done|]. injection Hp as <- _. cbn. intros Hf. apply send_setup_quiet in Es. congruence.
Qed.

(** A send that fails for want of ring members has been tried at the smallest ring the
    network takes; one that succeeds uses a mixin of the tier, and not above the one asked for. *)
Theorem mixin_fallback wal params w r w' : build_with_mixin_fallback wal params w = (r, w') →
  match r with
  | Ok p => in_tier params (p_mixin p) ∧ p_mixin p ≤ sp_mixin params
  | Err e => is_fake_outputs_error e = true →
      ∃ v f, send_transaction_advanced_with_mixin wal params (mr_min (mixin_allowable_range (daemon_height params))) v = (Err f, w') ∧ error f = e
  end.
Proof.
  unfold build_with_mixin_fallback. set (min := mr_min _). destruct (send_transaction_advanced_with_mixin wal params (sp_mixin params) w) as [[p|f] v] eqn:E1;
    pose proof (attempt_in_tier _ _ _ _ _ _ E1) as H1'.
  { intros [= <- <-]. destruct H1' as [-> Ht]. done. }
  destruct (is_fake_outputs_error (error f)) eqn:Ef; cbn [negb]; [|intros [= <- <-]; congruence]. specialize (H1' Ef). unfold in_tier in H1'. fold min in H1'.
  unfold next_fallback_mixin. destruct (Z.leb_spec (sp_mixin params) min) as [Hle|Hgt].
  { intros [= <- <-] _. assert (sp_mixin params = min) as <- by lia. by exists w, f. }
  set (retry := if (if _ : bool then _ else _) <? min then _ else _). assert (min ≤ retry < sp_mixin params) as Hretry.
  { subst retry. destruct (Z.ltb_spec (sp_mixin params - 1) (achievable_mixin f)); case_match; lia. }
  clearbody retry. destruct (send_transaction_advanced_with_mixin wal params retry v) as [[p|f2] v2] eqn:E2; pose proof (attempt_in_tier _ _ _ _ _ _ E2) as H2'.
  { intros [= <- <-]. destruct H2' as [-> Ht]. split; [done|lia]. }
  destruct (is_fake_outputs_error (error f2)) eqn:Ef2; cbn [andb]; [|intros [= <- <-]; congruence]. destruct (Z.ltb_spec min retry) as [Hlt|Hge].
  - unfold outer. destruct (send_transaction_advanced_with_mixin wal params min v2) as [[p|f3] v3] eqn:E3; pose proof (attempt_in_tier _ _ _ _ _ _ E3) as H3'; intros [= <- <-].
    + destruct H3' as [-> Ht]. split; [done|lia].
    + intros _. by exists v2, f3.
  - intros [= <- <-] _. assert (retry = min) as -> by lia. by exists v, f2.
Qed.

End Fallback.

(** * The fee loop ends *)

Section FeeLoop.
Context `{C : Crypto} `{CurveKeys} `{CurveSecrets} `{TransferRandom W} `{TransferDaemon W} `{Platform W}.
Variables (ctx : BuildContext) (sum : Z) (rate : f64) (addr : bytes) (ins : list OwnedSpendableInput) (all : bool).

Definition paid (s : FeeState (W := W)) : Z := wrapping_sub 64 (amount_including_fee s) (amount_pre_fee s).

(** A round that goes on pays more than the round before. *)
Lemma fee_round_pays_more s s' : fee_round ctx sum rate addr ins all s = inl s' → paid s < paid s' < 2 ^ 64.
Proof.
  unfold fee_round. cbv zeta. match goal with |- (match ?x with _ => _ end) = _ → _ => destruct x as [[built|f] v] end; [|done]. set (actual := transaction_fee _ _ _).
  assert (is_u64 actual) as [Ha1 Ha2] by apply transaction_fee_u64. clearbody actual. fold (paid s). destruct (Z.leb_spec actual (paid s)) as [|Hlt]; [done|].
  destruct (sum <? _); [done|]. intros [= <-]. unfold paid at 2 3. cbn [amount_including_fee amount_pre_fee].
  assert (∀ x, wrapping_sub 64 (wrapping_add 64 x actual) x = actual) as ->; [|lia].
  intros x. unfold wrapping_sub, wrapping_add, wrap. rewrite Zminus_mod_idemp_l. replace (x + actual - x) with actual by lia. by apply Z.mod_small.
Qed.

(** The loop that raises the fee until the transaction pays for its size ends: 2^64 rounds
    are always enough, from any amounts. *)
Theorem fee_loop_ends s : ∃ r, iter_until (fee_round ctx sum rate addr ins all) (2 ^ 64)%positive s = inr r.
Proof.
  apply (iter_until_ends _ (λ _, True) (λ s, 2 ^ 64 - 1 - paid s)); [|done|].
  - intros s1 s2 _ Hr%fee_round_pays_more. split; [done|]. lia.
  - assert (is_u64 (paid s)) as [Hp _] by (apply wrap_bound; lia). change (Zpos (2 ^ 64)) with (2 ^ 64). lia.
Qed.

End FeeLoop.

(** * Cancelling a send *)

Section Cancel.
Context `{C : Crypto} `{CurveKeys} `{CurveSecrets}.

(** A property of all unspent and locked inputs, which a send keeps. *)
Definition all_owned (Q : TransactionInput → Prop) (w : Wallet) : Prop := Forall (λ sub, Forall Q (owned sub)) (subs w).

Lemma mut_all_owned {T} Q w k (d : T) f : (∀ sub, Forall Q (owned sub) → Forall Q (owned (f sub).2)) → all_owned Q w → all_owned Q (sub_wallet_mut w k d f).2.
Proof.
  intros Hf. unfold all_owned, sub_wallet_mut. destruct (alter_sub k d f (subs w)) as [r l] eqn:E. cbn. revert r l E.
  induction (subs w) as [|s l0 IH]; intros r l E Ha; [by injection E as _ <-|]. apply Forall_cons in Ha as [Hs Ha]. cbn in E. case_bool_decide.
  - specialize (Hf s Hs). destruct (f s) as [r' s']. injection E as _ <-. by constructor.
  - destruct (alter_sub k d f l0) as [r' l'] eqn:E'. injection E as <- <-. constructor; [done|]. by eapply IH.
Qed.

Lemma lock_all_owned Q image sub : Forall Q (owned sub) → Forall Q (owned (lock_input image sub).2).
Proof.
  intros Hq. unfold lock_input. destruct (remove_first _ _) as [[i u]|] eqn:E; [|done]. apply remove_first_Some in E as [_ Hp]. unfold owned in *. cbn.
  rewrite Hp in Hq. cbn in Hq. apply Forall_cons in Hq as [Hi Hq]. apply Forall_app in Hq as [Hu Hl]. apply Forall_app. split; [done|].
  destruct (existsb _ _); [done|]. apply Forall_app. split; [done|by constructor].
Qed.

Lemma sent_all_owned Q w p : all_owned Q w → all_owned Q (apply_sent_transaction w p).
Proof.
  intros Hq. unfold apply_sent_transaction. cbv zeta.
  assert (∀ l v, all_owned Q v → all_owned Q (foldl (λ wal i, (mark_input_as_locked wal (ti_key_image (ow_input i)) (ow_public_spend_key i)).2) v l)) as Hlock.
  { induction l as [|i l IH]; intros v Hv; [done|]. cbn. apply IH. apply mut_all_owned; [intros sub; apply lock_all_owned|done]. }
  assert (∀ d h outs n v, all_owned Q v → all_owned Q (unconfirmed_loop v d n outs h)) as Hun.
  { induction outs as [|o outs IH]; intros n v Hv; [done|]. cbn. apply IH. destruct (underive_public_key _ _ _); [|done]. destruct (is_our_spend_key _ _); [|done].
    by apply mut_all_owned. }
  apply Hlock. unfold store_unconfirmed_incoming_inputs, store_sent_transaction, store_tx_private_key. destruct (existsb _ _), (generate_key_derivation _ _); cbn; try apply Hun; done.
Qed.

(** C21. Cancelling a send does not give its inputs back: a locked input is compared with the
    cancelled transactions by the transaction it was received in, so after a send of outputs
    received in other transactions is cancelled, its inputs are still locked. *)
Theorem cancelled_inputs_stay_locked w p : all_owned (λ i, ti_parent_transaction_hash i ≠ p_transaction_hash p) w →
  map sw_locked_inputs (subs (remove_cancelled_transactions (apply_sent_transaction w p) [p_transaction_hash p])) =
  map sw_locked_inputs (subs (apply_sent_transaction w p)).
Proof.
  intros Hq%(sent_all_owned _ w p). cbn. rewrite map_map. apply map_ext_in. intros sub Hsub%list_elem_of_In. unfold all_owned in Hq. rewrite Forall_forall in Hq.
  specialize (Hq sub Hsub). cbn. apply lfilter_all. unfold owned in Hq. apply Forall_app in Hq as [_ Hq]. eapply Forall_impl; [exact Hq|]. cbn. intros i Hi.
  apply negb_true_iff, bool_decide_eq_false. by rewrite list_elem_of_singleton.
Qed.

End Cancel.

(** * Witnesses *)

Import (hints) ToySend.

Module ToyFallback.

(** No outputs but ours, at a height with rings of two to eight. *)
Definition daemon : TransferDaemon unit := {|
  random_outs amounts _ w := (Ok (map (λ a, mkRandomOuts a []) amounts), w); send_raw_transaction _ w := (Ok (mkSendResult OK None), w); remote_pow _ _ _ w := (None, w) |}.

Definition params : SendParams :=
  mkSendParams [(ToySend.address, 500_000)] 5 (FixedFee 10_000) [] [] [] 0 [] false 5_000_000 5_000_000 1.

Definition attempt (m : Z) := send_transaction_advanced_with_mixin (H2 := daemon) ToySend.wallet params m.

Definition build := build_with_mixin_fallback (H2 := daemon) ToySend.wallet params.

(** The wallet's only input, spent by a transaction that got lost. *)
Definition lost : PreparedTransaction :=
  mkPrepared toy_transaction (replicate 32 3) 100 10_000 1 [] ToySend.address 490_000 [mkOwned ToySend.key ToySend.key ToySend.input] [] ToySend.key ToySend.key [] None 0 0 false.

End ToyFallback.

Lemma mixin_fallback_witness : ToyFallback.build tt = (Err NotEnoughFakeOutputs, tt) ∧ ∃ v f, ToyFallback.attempt 1 v = (Err f, tt) ∧ error f = NotEnoughFakeOutputs.
Proof.
  assert (ToyFallback.build tt = (Err NotEnoughFakeOutputs, tt)) as E by (vm_compute; reflexivity). split; [exact E|].
  destruct (mixin_fallback (H2 := ToyFallback.daemon) ToySend.wallet ToyFallback.params tt _ _ E eq_refl) as (v & f & Hf & He). exists v, f. split; [exact Hf|exact He].
Defined.

Lemma cancelled_inputs_stay_locked_witness :
  map sw_locked_inputs (subs (remove_cancelled_transactions (apply_sent_transaction ToySend.wallet ToyFallback.lost) [replicate 32 3])) = [[ToySend.input]].
Proof.
  rewrite (cancelled_inputs_stay_locked ToySend.wallet ToyFallback.lost); [vm_compute; reflexivity|].
  repeat constructor; discriminate.
Defined.
