(* ===== verification/Decimal.v ===== *)
(** Unsigned integers of 64 bits as decimal text: [Display] and [FromStr] of the standard
    library, as the JSON codec and the ban file of the peer manager use them. *)
From S2P Require Import Prelude.
Local Open Scope Z_scope.

Definition is_digit (c : Z) : bool := (48 <=? c) && (c <=? 57).

(** The value of a string of digits. *)
Definition digits_value (ds : bytes) : Z := foldl (λ acc c, acc * 10 + (c - 48)) 0 ds.

(** [str::parse::<u64>] of text without a plus sign. *)
Definition parse_u64 (s : bytes) : option Z :=
  if (0 <? length s)%nat && forallb is_digit s && (digits_value s <? 2 ^ 64) then Some (digits_value s) else None.

(** [write!("{v}")] of a [u64], which has at most twenty digits. *)
Fixpoint fmt_digits (fuel : nat) (v : Z) (acc : bytes) : bytes :=
  match fuel with
  | O => acc
  | S fuel =>
      let acc := 48 + v mod 10 :: acc in
      if v / 10 =? 0 then acc else fmt_digits fuel (v / 10) acc
  end.

Definition fmt_u64 (v : Z) : bytes := fmt_digits 20 v [].

Lemma digits_value_nonneg ds : forallb is_digit ds = true → 0 ≤ digits_value ds.
Proof.
  unfold digits_value. assert (∀ a, 0 ≤ a → forallb is_digit ds = true → 0 ≤ foldl (λ acc c, acc * 10 + (c - 48)) a ds) as Hg; [|by apply Hg].
  induction ds as [|c ds IH]; intros a Ha; [done|]. cbn. intros [Hc Hd]%andb_true_iff. apply IH; [|done]. unfold is_digit in Hc. bool_hyps. lia.
Qed.

Lemma parse_u64_bound s v : parse_u64 s = Some v → is_u64 v.
Proof.
  unfold parse_u64. destruct (_ && _) eqn:E; [|done]. intros [= <-]. apply andb_true_iff in E as [[_ Hd]%andb_true_iff Hl]. split; [by apply digits_value_nonneg|lia].
Qed.

(** The decimal digits of a value, without leading zeros. *)
Record decimal (s : bytes) (v : Z) : Prop := {
  dec_digits : forallb is_digit s = true;
  dec_some : s ≠ [];
  dec_value : digits_value s = v;
  dec_zero : head s = Some 48 → length s = 1%nat }.

Lemma digits_value_app a b : digits_value (a ++ b) = digits_value a * 10 ^ Z.of_nat (length b) + digits_value b.
Proof.
  unfold digits_value. rewrite foldl_app. generalize (foldl (λ acc c, acc * 10 + (c - 48)) 0 a) as x. induction b as [|c b IH] using rev_ind; intros x.
  - cbn. lia.
  - rewrite !foldl_app. cbn [foldl]. rewrite IH, length_app. cbn [length]. replace (Z.of_nat (length b + 1)) with (Z.of_nat (length b) + 1) by lia.
    rewrite Z.pow_add_r by lia. lia.
Qed.

Lemma fmt_digits_app fuel v acc : fmt_digits fuel v acc = fmt_digits fuel v [] ++ acc.
Proof.
  revert v acc. induction fuel as [|fuel IH]; intros v acc; [done|]. cbn. destruct (v / 10 =? 0); [done|]. rewrite (IH _ (_ :: acc)), (IH _ [_]). by rewrite <- app_assoc.
Qed.

Lemma fmt_digits_decimal fuel v : 0 ≤ v < 10 ^ Z.of_nat fuel → (0 < fuel)%nat → decimal (fmt_digits fuel v []) v ∧ (0 < v → head (fmt_digits fuel v []) ≠ Some 48).
Proof.
  revert v. induction fuel as [|fuel IH]; intros v Hv Hf; [lia|]. cbn [fmt_digits]. pose proof (Z.mod_pos_bound v 10 ltac:(lia)) as Hm. pose proof (Z.div_mod v 10 ltac:(lia)) as Hd.
  assert (is_digit (48 + v mod 10) = true) as Hdig by (unfold is_digit; apply andb_true_iff; lia). destruct (Z.eqb_spec (v / 10) 0) as [E|E].
  - split; [|intros Hp [= Heq]; lia]. split; [cbn; by rewrite Hdig|done|cbn; lia|done].
  - rewrite fmt_digits_app. assert (0 < v / 10) as Hpos by (pose proof (Z.div_pos v 10); lia).
    assert (v / 10 < 10 ^ Z.of_nat fuel) as Hlt by (apply Z.div_lt_upper_bound; [lia|]; rewrite Nat2Z.inj_succ, Z.pow_succ_r in Hv; lia).
    assert (0 < fuel)%nat by (destruct fuel; [cbn in Hlt; lia|lia]).
    destruct (IH (v / 10)) as [[H1 H2 H3 H4] Hhead]; [lia|done|]. specialize (Hhead Hpos).
    assert (head (fmt_digits fuel (v / 10) [] ++ [48 + v mod 10]) ≠ Some 48) as Hh by (destruct (fmt_digits fuel (v / 10) []); [done|exact Hhead]).
    split; [|done]. split; [rewrite forallb_app, H1; cbn; by rewrite Hdig|by destruct (fmt_digits fuel (v / 10) [])| |by intros ?].
    rewrite digits_value_app, H3. cbn. lia.
Qed.

Lemma fmt_u64_decimal v : is_u64 v → decimal (fmt_u64 v) v.
Proof. intros [H1 H2]. apply fmt_digits_decimal; [|lia]. split; [done|]. apply (Z.lt_trans _ (2 ^ 64)); [done|reflexivity]. Qed.

Lemma decimal_parse_u64 s v : decimal s v → is_u64 v → parse_u64 s = Some v.
Proof.
  intros [H1 H2 H3 H4] [_ Hv]. unfold parse_u64. rewrite H1, H3. assert ((0 <? length s)%nat = true) as -> by (apply Nat.ltb_lt; destruct s; [done|cbn; lia]).
  by assert ((v <? 2 ^ 64) = true) as -> by lia.
Qed.

Lemma decimal_head s v : decimal s v → ∃ c r, s = c :: r ∧ is_digit c = true.
Proof. intros [H1 H2 _ _]. destruct s as [|c r]; [done|]. cbn in H1. apply andb_true_iff in H1 as [H1 _]. by exists c, r. Qed.
