(* ===== verification/Json.v ===== *)
(** The JSON codec of the RPC server (crates/wrkz-rpc/src/json.rs).

    A [String] is its UTF-8 bytes. The parser's state is the position and the bytes from it
    on; its nesting depth, which every construct restores, is an argument. Recursion is by
    fuel, [None] when it runs out, which [value_total] shows it does not. How the language
    prints a double is an argument of the writer. *)
From Stdlib Require Import SpecFloat.
From S2P Require Import Prelude Decimal F64.
Local Open Scope Z_scope.

(** * Values *)

Inductive Json : Type :=
| Null
| Bool (b : bool)
| U64 (v : Z)
| I64 (v : Z)
| F64 (v : f64)
| Str (s : bytes)
| Array (items : list Json)
| Object (items : list (bytes * Json)).

Inductive JsonError : Type :=
| Syntax (what : string) (at_ : nat)
| TooDeep (depth : nat)
| TooLarge (max : nat)
| NotUtf8.

Record ParseLimits := mkParseLimits { max_bytes : nat; max_depth : nat }.

Definition DEFAULT_MAX_DEPTH : nat := 64.

Definition ParseLimits_default : ParseLimits := mkParseLimits (2 * 1024 * 1024) DEFAULT_MAX_DEPTH.

(** * Numbers as text *)

(** [str::parse::<i64>] of text without a plus sign. *)
Definition parse_i64 (s : bytes) : option Z :=
  match s with
  | 45 :: ds => if (0 <? length ds)%nat && forallb is_digit ds && (digits_value ds <=? 2 ^ 63) then Some (- digits_value ds) else None
  | _ => if (0 <? length s)%nat && forallb is_digit s && (digits_value s <? 2 ^ 63) then Some (digits_value s) else None
  end.

(** The double nearest to [m * 10 ^ e], ties to even. *)
Definition f64_of_decimal (negative : bool) (m e : Z) : f64 :=
  match m with
  | Z.pos p =>
      if 0 <=? e then binary_normalize 53 1024 (if negative then - (m * 10 ^ e) else m * 10 ^ e) 0 negative
      else
        let '(mz, ez, lz) := SFdiv_core_binary 53 1024 m 0 (10 ^ (- e)) 0 in
        binary_round_aux 53 1024 negative mz ez lz
  | _ => S754_zero negative
  end.

(** [str::parse::<f64>] of the parts of a number: the digits, those after the point, and the
    exponent. *)
Definition parse_f64 (negative : bool) (int frac : bytes) (exponent : Z) : f64 :=
  f64_of_decimal negative (digits_value (int ++ frac)) (exponent - Z.of_nat (length frac)).

Definition is_finite (x : f64) : bool := match x with S754_zero _ | S754_finite _ _ _ => true | _ => false end.

(** [write!("{v}")] of an [i64]. *)
Definition fmt_i64 (v : Z) : bytes := if v <? 0 then 45 :: fmt_u64 (- v) else fmt_u64 v.

(** * UTF-8 *)

(** [String::push] of a [char]. *)
Definition encode_utf8 (c : Z) : bytes :=
  if c <? 0x80 then [c]
  else if c <? 0x800 then [0xc0 + c / 64; 0x80 + c mod 64]
  else if c <? 0x10000 then [0xe0 + c / 4096; 0x80 + c / 64 mod 64; 0x80 + c mod 64]
  else [0xf0 + c / 262144; 0x80 + c / 4096 mod 64; 0x80 + c / 64 mod 64; 0x80 + c mod 64].

(** [char::from_u32] *)
Definition from_u32 (c : Z) : option Z :=
  if (0xd800 <=? c) && (c <? 0xe000) || (0x10ffff <? c) then None else Some c.

Definition utf8_len (first : Z) : nat :=
  if first <=? 0x7f then 1
  else if (0xc0 <=? first) && (first <=? 0xdf) then 2
  else if (0xe0 <=? first) && (first <=? 0xef) then 3
  else 4.

(** * Parsing *)

Record Parser := mkParser { p_at : nat; p_rest : bytes }.

Definition J (A : Type) : Type := Parser → option (result JsonError (A * Parser)).

#[export] Instance J_ret : MRet J := λ A a p, Some (Ok (a, p)).
#[export] Instance J_bind : MBind J := λ A B f m p,
  match m p with
  | Some (Ok (a, p)) => f a p
  | Some (Err e) => Some (Err e)
  | None => None
  end.

Definition fail {A} (e : JsonError) : J A := λ p, Some (Err e).

Definition syntax {A} (what : string) : J A := λ p, fail (Syntax what (p_at p)) p.

Definition advance (n : nat) (p : Parser) : Parser := mkParser (p_at p + n) (drop n (p_rest p)).

Definition skip (n : nat) : J unit := λ p, Some (Ok ((), advance n p)).

Definition peek : J (option Z) := λ p, Some (Ok (head (p_rest p), p)).

Definition position : J nat := λ p, Some (Ok (p_at p, p)).

Definition remaining : J nat := λ p, Some (Ok (length (p_rest p), p)).

Definition is_ws (c : Z) : bool := (c =? 32) || (c =? 9) || (c =? 10) || (c =? 13).

(** How many bytes satisfy [f], from the start. *)
Fixpoint span (f : Z → bool) (l : bytes) : nat :=
  match l with
  | c :: l => if f c then S (span f l) else O
  | [] => O
  end.

Definition skip_ws : J unit := λ p, skip (span is_ws (p_rest p)) p.

Definition eat (c : Z) (what : string) : J unit :=
  next ← peek;
  if bool_decide (next = Some c) then skip 1 else syntax what.

Definition looking_at (word : bytes) : J bool := λ p, Some (Ok (bool_decide (take (length word) (p_rest p) = word), p)).

Definition literal (word : bytes) (v : Json) : J Json :=
  found ← looking_at word;
  if found : bool then _ ← skip (length word); mret v else syntax "unexpected literal".

Definition hex_value (c : Z) : option Z :=
  if is_digit c then Some (c - 48)
  else if (97 <=? c) && (c <=? 102) then Some (c - 97 + 10)
  else if (65 <=? c) && (c <=? 70) then Some (c - 65 + 10)
  else None.

Definition hex4 : J Z := λ p,
  if (length (p_rest p) <? 4)%nat then syntax "truncated unicode escape" p
  else
    match mapM hex_value (take 4 (p_rest p)) with
    | None => syntax "bad hex in a unicode escape" p
    | Some ds => Some (Ok (foldl (λ v d, Z.lor (wrap 16 (Z.shiftl v 4)) d) 0 ds, advance 4 p))
    end.

Definition unicode_escape : J Z :=
  first ← hex4;
  if (0xd800 <=? first) && (first <? 0xdc00) then
    next ← looking_at [92; 117];
    if next : bool then
      _ ← skip 2;
      second ← hex4;
      if (0xdc00 <=? second) && (second <? 0xe000) then
        match from_u32 (0x10000 + Z.shiftl (first - 0xd800) 10 + (second - 0xdc00)) with
        | Some c => mret c
        | None => syntax "bad surrogate pair"
        end
      else syntax "lone high surrogate"
    else syntax "lone high surrogate"
  else match from_u32 first with Some c => mret c | None => syntax "bad unicode escape" end.

(** The escapes of one character. *)
Definition simple_escape (e : Z) : option Z :=
  if e =? 34 then Some 34
  else if e =? 92 then Some 92
  else if e =? 47 then Some 47
  else if e =? 98 then Some 8
  else if e =? 102 then Some 12
  else if e =? 110 then Some 10
  else if e =? 114 then Some 13
  else if e =? 116 then Some 9
  else None.

(** After the backslash. *)
Definition escape : J bytes :=
  next ← peek;
  match next with
  | None => syntax "unterminated escape"
  | Some e =>
      _ ← skip 1;
      match simple_escape e with
      | Some c => mret [c]
      | None => if e =? 117 then c ← unicode_escape; mret (encode_utf8 c) else syntax "bad escape"
      end
  end.

(** A character that stands for itself, whose first byte [c] is consumed. *)
Definition plain (c : Z) : J bytes := λ p,
  let start := (p_at p - 1)%nat in
  let s := take (utf8_len c) (c :: p_rest p) in
  if (length s <? utf8_len c)%nat then Some (Err (Syntax "truncated UTF-8" start))
  else if negb (utf8_valid s) then Some (Err NotUtf8)
  else Some (Ok (s, mkParser (start + utf8_len c) (drop (utf8_len c) (c :: p_rest p)))).

(** Every turn consumes a byte. *)
Fixpoint string_loop (fuel : nat) (out : bytes) : J bytes :=
  match fuel with
  | O => λ p, None
  | S fuel =>
      next ← peek;
      match next with
      | None => syntax "unterminated string"
      | Some c =>
          _ ← skip 1;
          if c =? 34 then mret out
          else if c =? 92 then s ← escape; string_loop fuel (out ++ s)
          else if c <=? 0x1f then syntax "control character in string"
          else s ← plain c; string_loop fuel (out ++ s)
      end
  end.

Definition string_ : J bytes :=
  _ ← eat 34 "expected a string";
  n ← remaining;
  string_loop (S n) [].

(** A run of digits. *)
Definition digits (what : string) : J bytes := λ p,
  let n := span is_digit (p_rest p) in
  if (n =? 0)%nat then syntax what p
  else Some (Ok (take n (p_rest p), advance n p)).

(** The digits after the point, if there is one. *)
Definition fraction : J (option bytes) :=
  next ← peek;
  if bool_decide (next = Some 46) then _ ← skip 1; ds ← digits "expected a digit after the point"; mret (Some ds)
  else mret None.

(** The exponent, if there is one. *)
Definition exponent : J (option Z) :=
  next ← peek;
  if bool_decide (next = Some 101 ∨ next = Some 69) then
    _ ← skip 1;
    sign ← peek;
    _ ← (if bool_decide (sign = Some 43 ∨ sign = Some 45) then skip 1 else mret ());
    ds ← digits "expected a digit in the exponent";
    mret (Some (if bool_decide (sign = Some 45) then - digits_value ds else digits_value ds))
  else mret None.

Definition number : J Json :=
  sign ← peek;
  let negative := bool_decide (sign = Some 45) in
  _ ← (if negative then skip 1 else mret ());
  int_start ← position;
  int ← digits "expected a digit";
  if bool_decide (head int = Some 48) && (1 <? length int)%nat then fail (Syntax "leading zero" int_start)
  else
    frac ← fraction;
    exp ← exponent;
    let text := if negative then 45 :: int else int in
    let float := F64 (parse_f64 negative int (default [] frac) (default 0 exp)) in
    mret (match frac, exp with
          | None, None =>
              match parse_u64 text with
              | Some v => U64 v
              | None => match parse_i64 text with Some v => I64 v | None => float end
              end
          | _, _ => float
          end).

(** [enter], whose count the callers take back when they succeed. *)
Definition enter (limits : ParseLimits) (depth : nat) : J nat :=
  if (max_depth limits <? S depth)%nat then fail (TooDeep (max_depth limits)) else mret (S depth).

Section Value.
Context (limits : ParseLimits).

Fixpoint value (fuel : nat) (depth : nat) : J Json :=
  match fuel with
  | O => λ p, None
  | S fuel =>
      next ← peek;
      match next with
      | None => syntax "unexpected end of input"
      | Some c =>
          if c =? 110 then literal (ascii_bytes "null") Null
          else if c =? 116 then literal (ascii_bytes "true") (Bool true)
          else if c =? 102 then literal (ascii_bytes "false") (Bool false)
          else if c =? 34 then s ← string_; mret (Str s)
          else if c =? 91 then
            depth ← enter limits depth;
            _ ← skip 1;
            _ ← skip_ws;
            next ← peek;
            if bool_decide (next = Some 93) then _ ← skip 1; mret (Array [])
            else items ← array_loop fuel depth []; mret (Array items)
          else if c =? 123 then
            depth ← enter limits depth;
            _ ← skip 1;
            _ ← skip_ws;
            next ← peek;
            if bool_decide (next = Some 125) then _ ← skip 1; mret (Object [])
            else items ← object_loop fuel depth []; mret (Object items)
          else if (c =? 45) || is_digit c then number
          else syntax "unexpected character"
      end
  end
with array_loop (fuel : nat) (depth : nat) (items : list Json) : J (list Json) :=
  match fuel with
  | O => λ p, None
  | S fuel =>
      _ ← skip_ws;
      v ← value fuel depth;
      let items := items ++ [v] in
      _ ← skip_ws;
      next ← peek;
      if bool_decide (next = Some 44) then _ ← skip 1; array_loop fuel depth items
      else if bool_decide (next = Some 93) then _ ← skip 1; mret items
      else syntax "expected ',' or ']'"
  end
with object_loop (fuel : nat) (depth : nat) (items : list (bytes * Json)) : J (list (bytes * Json)) :=
  match fuel with
  | O => λ p, None
  | S fuel =>
      _ ← skip_ws;
      key ← string_;
      _ ← skip_ws;
      _ ← eat 58 "expected ':'";
      _ ← skip_ws;
      v ← value fuel depth;
      let items := if existsb (λ kv, bool_decide (kv.1 = key)) items then items else items ++ [(key, v)] in
      _ ← skip_ws;
      next ← peek;
      if bool_decide (next = Some 44) then _ ← skip 1; object_loop fuel depth items
      else if bool_decide (next = Some 125) then _ ← skip 1; mret items
      else syntax "expected ',' or '}'"
  end.

(** Two turns of fuel for every byte, and one to start. *)
Definition document (n : nat) : J Json :=
  _ ← skip_ws;
  v ← value (2 * n + 1) 0;
  _ ← skip_ws;
  at_ ← position;
  if (at_ =? n)%nat then mret v else syntax "trailing data".

Definition parse (bs : bytes) : option (result JsonError Json) :=
  if (max_bytes limits <? length bs)%nat then Some (Err (TooLarge (max_bytes limits)))
  else if negb (utf8_valid bs) then Some (Err NotUtf8)
  else
    match document (length bs) (mkParser 0 bs) with
    | Some (Ok (v, _)) => Some (Ok v)
    | Some (Err e) => Some (Err e)
    | None => None
    end.

End Value.

(** * Reading *)

Definition get (v : Json) (key : bytes) : option Json :=
  match v with
  | Object items => snd <$> List.find (λ kv, bool_decide (kv.1 = key)) items
  | _ => None
  end.

Definition has (v : Json) (key : bytes) : bool := bool_decide (is_Some (get v key)).

Definition is_object (v : Json) : bool := match v with Object _ => true | _ => false end.

Definition as_u64 (v : Json) : option Z := match v with U64 n => Some n | _ => None end.

Definition as_bool (v : Json) : option bool := match v with Bool b => Some b | _ => None end.

Definition as_str (v : Json) : option bytes := match v with Str s => Some s | _ => None end.

Definition as_array (v : Json) : option (list Json) := match v with Array l => Some l | _ => None end.

Definition type_name (v : Json) : bytes :=
  match v with
  | Null => ascii_bytes "null"
  | Bool _ => ascii_bytes "bool"
  | U64 _ | I64 _ | F64 _ => ascii_bytes "number"
  | Str _ => ascii_bytes "string"
  | Array _ => ascii_bytes "array"
  | Object _ => ascii_bytes "object"
  end.

(** * Building *)

Abbreviation Obj := (list (bytes * Json)).

(** The first member of the name is replaced, or one is added. *)
Fixpoint set (o : Obj) (key : bytes) (v : Json) : Obj :=
  match o with
  | [] => [(key, v)]
  | (k, u) :: o => if bool_decide (k = key) then (k, v) :: o else (k, u) :: set o key v
  end.

Definition build (o : Obj) : Json := Object o.

(** [encode] is the function of the crate hex. *)
Definition hash_array (encode : bytes → bytes) (hashes : list bytes) : Json := Array (map (λ h, Str (encode h)) hashes).

Definition u64_array (l : list Z) : Json := Array (map U64 l).

(** * Writing *)

(** [sort_by] on the keys' bytes, which is stable. *)
Fixpoint insert_member {A} (x : bytes * A) (l : list (bytes * A)) : list (bytes * A) :=
  match l with
  | [] => [x]
  | y :: l => if bool_decide (bytes_le x.1 y.1) then x :: y :: l else y :: insert_member x l
  end.

Definition sort_members {A} (l : list (bytes * A)) : list (bytes * A) := foldr insert_member [] l.

(** The pieces with commas between. *)
Fixpoint join (l : list bytes) : bytes :=
  match l with
  | [] => []
  | [s] => s
  | s :: l => s ++ 44 :: join l
  end.

(** [format!("{:x}")] of a digit. *)
Definition lower_hex (d : Z) : Z := if d <? 10 then 48 + d else 87 + d.

(** A byte of the string: those of a character that is not ASCII stand for themselves. *)
Definition escaped (c : Z) : bytes :=
  if c =? 34 then [92; 34]
  else if c =? 92 then [92; 92]
  else if c =? 8 then [92; 98]
  else if c =? 12 then [92; 102]
  else if c =? 10 then [92; 110]
  else if c =? 13 then [92; 114]
  else if c =? 9 then [92; 116]
  else if c <? 0x20 then [92; 117; 48; 48; lower_hex (c / 16); lower_hex (c mod 16)]
  else [c].

Definition write_string (s : bytes) : bytes := 34 :: concat (map escaped s) ++ [34].

Section Write.
Variable fmt_f64 : f64 → bytes.

(** The members are written first and sorted then, which the keys do not see. *)
Fixpoint write (v : Json) : bytes :=
  match v with
  | Null => ascii_bytes "null"
  | Bool true => ascii_bytes "true"
  | Bool false => ascii_bytes "false"
  | U64 n => fmt_u64 n
  | I64 n => fmt_i64 n
  | F64 x => if is_finite x then fmt_f64 x else ascii_bytes "null"
  | Str s => write_string s
  | Array items => 91 :: join (map write items) ++ [93]
  | Object items =>
      let order := sort_members (map (λ '(k, v), (k, write v)) items) in
      123 :: join (map (λ '(k, s), write_string k ++ 58 :: s) order) ++ [125]
  end.

Definition to_string (v : Json) : bytes := write v.

End Write.
