(* ===== verification/JsonSpec.v ===== *)
(** The JSON codec (Json): whatever the parser accepts is well formed and within the limits,
    it ends on every input, and what the writer writes it reads back. *)
From stdpp Require Import list.
From S2P Require Import Prelude Decimal F64 Json.
Local Open Scope Z_scope.

(** * Well-formed values *)

(** All members of a list, for the recursion below. *)
Definition all {A} (P : A → Prop) (l : list A) : Prop := foldr (λ a acc, P a ∧ acc) True l.

Lemma all_Forall {A} (P : A → Prop) l : all P l ↔ Forall P l.
Proof. induction l as [|a l IH]; cbn; [by split|]. by rewrite IH, Forall_cons. Qed.

(** Integers within their width, strings of UTF-8, and no two members of a name. [floats]
    says whether doubles are allowed. *)
Fixpoint json_ok (floats : bool) (v : Json) : Prop :=
  match v with
  | Null | Bool _ => True
  | U64 n => is_u64 n
  | I64 n => - 2 ^ 63 ≤ n < 2 ^ 63
  | F64 _ => floats = true
  | Str s => utf8_valid s = true
  | Array items => all (json_ok floats) items
  | Object items => NoDup items.*1 ∧ all (λ kv, utf8_valid kv.1 = true ∧ json_ok floats kv.2) items
  end.

Fixpoint json_depth (v : Json) : nat :=
  match v with
  | Array items => S (foldr (λ v acc, Nat.max (json_depth v) acc) 0 items)%nat
  | Object items => S (foldr (λ kv acc, Nat.max (json_depth kv.2) acc) 0 items)%nat
  | _ => 0%nat
  end.

Lemma depth_le {A} (f : A → nat) l n : (foldr (λ v acc, Nat.max (f v) acc) 0 l ≤ n)%nat ↔ Forall (λ v, f v ≤ n)%nat l.
Proof. induction l as [|a l IH]; cbn; [split; [constructor|lia]|]. rewrite Forall_cons, <- IH. lia. Qed.

Lemma Json_ind' (P : Json → Prop) :
  P Null → (∀ b, P (Bool b)) → (∀ v, P (U64 v)) → (∀ v, P (I64 v)) → (∀ v, P (F64 v)) → (∀ s, P (Str s)) →
  (∀ items, Forall P items → P (Array items)) → (∀ items, Forall (λ kv, P kv.2) items → P (Object items)) → ∀ v, P v.
Proof.
  intros H1 H2 H3 H4 H5 H6 H7 H8. fix IH 1. intros [|b|v|v|v|s|items|items]; [exact H1|apply H2|apply H3|apply H4|apply H5|apply H6| |].
  - apply H7. induction items as [|v items IHi]; constructor; [apply IH|exact IHi].
  - apply H8. induction items as [|[k v] items IHi]; constructor; [apply IH|exact IHi].
Qed.

(** * Running the parser *)

(** [m] does not run out of fuel at [p], and what it returns satisfies [Q]. *)
Definition runs {A} (m : J A) (p : Parser) (Q : A → Parser → Prop) : Prop :=
  match m p with Some (Ok (a, p')) => Q a p' | Some (Err _) => True | None => False end.

Lemma runs_ret {A} (a : A) p (Q : A → Parser → Prop) : Q a p → runs (mret a) p Q.
Proof. done. Qed.

Lemma runs_bind {A B} (m : J A) (f : A → J B) p Q R : runs m p R → (∀ a p', R a p' → runs (f a) p' Q) → runs (m ≫= f) p Q.
Proof. unfold runs, mbind, J_bind. destruct (m p) as [[[a p']|e]|]; [intros HR Hf; by apply (Hf a p')|done|done]. Qed.

Lemma runs_fail {A} e p (Q : A → Parser → Prop) : runs (fail e) p Q.
Proof. done. Qed.

Lemma runs_syntax {A} what p (Q : A → Parser → Prop) : runs (syntax what) p Q.
Proof. done. Qed.

Lemma runs_impl {A} (m : J A) p (Q R : A → Parser → Prop) : runs m p R → (∀ a p', R a p' → Q a p') → runs m p Q.
Proof. unfold runs. destruct (m p) as [[[a p']|e]|]; auto. Qed.

(** The bytes left after a step. *)
Abbreviation left_ p := (length (p_rest p)).

Lemma left_advance n p : left_ (advance n p) = (left_ p - n)%nat.
Proof. cbn. by rewrite length_drop. Qed.

Lemma runs_peek {A} (f : option Z → J A) p Q : runs (f (head (p_rest p))) p Q → runs (peek ≫= f) p Q.
Proof. done. Qed.

Lemma runs_skip n p (Q : unit → Parser → Prop) : Q () (advance n p) → runs (skip n) p Q.
Proof. done. Qed.

Lemma runs_skip_bind {A} n (f : unit → J A) p Q : runs (f ()) (advance n p) Q → runs (skip n ≫= f) p Q.
Proof. done. Qed.

Lemma runs_skip_ws {A} (f : unit → J A) p Q : (∀ p', (left_ p' ≤ left_ p)%nat → runs (f ()) p' Q) → runs (skip_ws ≫= f) p Q.
Proof. intros HQ. apply (HQ (advance (span is_ws (p_rest p)) p)). rewrite left_advance. lia. Qed.

(** Splits a run at the monad's operations. *)
Ltac runs_step := cbn beta iota zeta; match goal with
  | |- runs (mret _) _ _ => apply runs_ret
  | |- runs (fail _) _ _ => apply runs_fail
  | |- runs (syntax _) _ _ => apply runs_syntax
  | |- runs (peek ≫= _) _ _ => apply runs_peek
  | |- runs (skip _ ≫= _) _ _ => apply runs_skip_bind
  | |- runs (if ?b then _ else _) _ _ => destruct b eqn:?
  end.

Lemma head_left p c : head (p_rest p) = Some c → (0 < left_ p)%nat.
Proof. destruct (p_rest p); cbn; [done|]. lia. Qed.

Lemma runs_eat c what p : runs (eat c what) p (λ _ p', (left_ p' < left_ p)%nat).
Proof.
  unfold eat. runs_step. destruct (bool_decide _) eqn:E; [|apply runs_syntax]. apply bool_decide_eq_true, head_left in E. apply runs_skip. rewrite left_advance. lia.
Qed.

(** * UTF-8 *)

(** The bytes of one character. *)
Inductive utf8_char : bytes → Prop :=
| char1 b : in_range 0 0x7f b = true → utf8_char [b]
| char2 b b1 : in_range 0xc2 0xdf b = true → continuation b1 = true → utf8_char [b; b1]
| char3 b b1 b2 : in_range 0xe0 0xef b = true → in_range (if b =? 0xe0 then 0xa0 else 0x80) (if b =? 0xed then 0x9f else 0xbf) b1 = true →
    continuation b2 = true → utf8_char [b; b1; b2]
| char4 b b1 b2 b3 : in_range 0xf0 0xf4 b = true → in_range (if b =? 0xf0 then 0x90 else 0x80) (if b =? 0xf4 then 0x8f else 0xbf) b1 = true →
    continuation b2 = true → continuation b3 = true → utf8_char [b; b1; b2; b3].

Lemma in_range_iff lo hi b : in_range lo hi b = true ↔ lo ≤ b ≤ hi.
Proof. unfold in_range. rewrite andb_true_iff, !Z.leb_le. lia. Qed.

Lemma utf8_char_app ch s : utf8_char ch → utf8_valid (ch ++ s) = utf8_valid s.
Proof.
  intros [b Hb|b b1 Hb H1|b b1 b2 Hb H1 H2|b b1 b2 b3 Hb H1 H2 H3]; cbn -[in_range continuation].
  - by rewrite Hb.
  - pose proof Hb as Hb'%in_range_iff. assert (in_range 0 0x7f b = false) as -> by (apply not_true_iff_false; rewrite in_range_iff; lia). by rewrite Hb, H1.
  - pose proof Hb as Hb'%in_range_iff. assert (in_range 0 0x7f b = false) as -> by (apply not_true_iff_false; rewrite in_range_iff; lia). assert (in_range 0xc2 0xdf b = false) as -> by (apply not_true_iff_false; rewrite in_range_iff; lia).
    by rewrite Hb, H1, H2.
  - pose proof Hb as Hb'%in_range_iff. assert (in_range 0 0x7f b = false) as -> by (apply not_true_iff_false; rewrite in_range_iff; lia). assert (in_range 0xc2 0xdf b = false) as -> by (apply not_true_iff_false; rewrite in_range_iff; lia).
    assert (in_range 0xe0 0xef b = false) as -> by (apply not_true_iff_false; rewrite in_range_iff; lia). by rewrite Hb, H1, H2, H3.
Qed.

Lemma utf8_char_valid ch : utf8_char ch → utf8_valid ch = true.
Proof. intros Hc. rewrite <- (app_nil_r ch). by rewrite utf8_char_app. Qed.

(** A valid string is empty or starts with a character. *)
Lemma utf8_valid_inv s : utf8_valid s = true → s = [] ∨ ∃ ch s', utf8_char ch ∧ s = ch ++ s' ∧ utf8_valid s' = true.
Proof.
  destruct s as [|b r0]; [by left|]. cbn -[in_range continuation]. intros Hv. right. destruct (in_range 0 0x7f b) eqn:E1; [by exists [b], r0; split; [constructor|]|].
  destruct r0 as [|b1 r1]; [done|]. destruct (in_range 0xc2 0xdf b) eqn:E2.
  { apply andb_true_iff in Hv as [H1 Hv]. exists [b; b1], r1. split; [by constructor|done]. }
  destruct r1 as [|b2 r2]; [done|]. destruct (in_range 0xe0 0xef b) eqn:E3.
  { apply andb_true_iff in Hv as [[H1 H2]%andb_true_iff Hv]. exists [b; b1; b2], r2. split; [by constructor|done]. }
  destruct r2 as [|b3 r3]; [done|]. apply andb_true_iff in Hv as [[[[H1 H2]%andb_true_iff H3]%andb_true_iff H4]%andb_true_iff Hv].
  exists [b; b1; b2; b3], r3. split; [by constructor|done].
Qed.

Lemma utf8_char_nonempty ch : utf8_char ch → (0 < length ch)%nat.
Proof. destruct 1; cbn; lia. Qed.

Lemma utf8_valid_ind (P : bytes → Prop) : P [] → (∀ ch s, utf8_char ch → utf8_valid s = true → P s → P (ch ++ s)) → ∀ s, utf8_valid s = true → P s.
Proof.
  intros Hnil Hch. assert (∀ n s, (length s ≤ n)%nat → utf8_valid s = true → P s) as Hall; [|intros s; by apply (Hall (length s))].
  induction n as [|n IH]; intros s Hl [->|(ch & s' & Hc & -> & Hv)]%utf8_valid_inv; [done| |done|].
  - apply utf8_char_nonempty in Hc. rewrite length_app in Hl. lia.
  - apply Hch; [done|done|]. apply IH; [|done]. apply utf8_char_nonempty in Hc. rewrite length_app in Hl. lia.
Qed.

Lemma utf8_valid_app a b : utf8_valid a = true → utf8_valid (a ++ b) = utf8_valid b.
Proof. revert a. apply utf8_valid_ind; [done|]. intros ch s Hc Hs IH. by rewrite <- app_assoc, utf8_char_app. Qed.

(** The first byte tells the length. *)
Lemma utf8_char_len ch c r : utf8_char ch → ch = c :: r → utf8_len c = length ch.
Proof.
  unfold utf8_len. intros [b Hb|b b1 Hb H1|b b1 b2 Hb H1 H2|b b1 b2 b3 Hb H1 H2 H3] [= -> <-]; rewrite ?in_range_iff in Hb; cbn.
  all: repeat (let E := fresh in destruct (_ <=? _) eqn:E; cbn; try (apply Z.leb_le in E); try (apply Z.leb_gt in E)); lia.
Qed.

Lemma encode_utf8_char c : 0 ≤ c → from_u32 c = Some c → utf8_char (encode_utf8 c).
Proof.
  unfold from_u32, encode_utf8. intros Hc Hs. destruct (_ || _) eqn:E; [done|]. apply orb_false_iff in E as [Hsur Hmax%Z.ltb_ge]. clear Hs.
  assert (c < 0xd800 ∨ 0xe000 ≤ c) as Hrange by (apply andb_false_iff in Hsur as [?%Z.leb_gt|?%Z.ltb_ge]; lia). clear Hsur.
  destruct (Z.ltb_spec c 0x80); [constructor; apply in_range_iff; lia|].
  destruct (Z.ltb_spec c 0x800).
  { constructor; apply in_range_iff; [pose proof (Z.div_mod c 64); pose proof (Z.mod_pos_bound c 64)|pose proof (Z.mod_pos_bound c 64)]; lia. }
  pose proof (Z.mod_pos_bound c 64 ltac:(lia)) as M1. pose proof (Z.mod_pos_bound (c / 64) 64 ltac:(lia)) as M2. pose proof (Z.mod_pos_bound (c / 4096) 64 ltac:(lia)) as M3.
  pose proof (Z.div_mod c 64 ltac:(lia)) as D1. pose proof (Z.div_mod (c / 64) 64 ltac:(lia)) as D2. pose proof (Z.div_mod (c / 4096) 64 ltac:(lia)) as D3.
  rewrite Z.div_div in D2 by lia. rewrite Z.div_div in D3 by lia. change (64 * 64) with 4096 in D2. change (4096 * 64) with 262144 in D3.
  destruct (Z.ltb_spec c 0x10000).
  - constructor; [apply in_range_iff; lia| |apply in_range_iff; lia]. apply in_range_iff. destruct (Z.eqb_spec (0xe0 + c / 4096) 0xe0), (Z.eqb_spec (0xe0 + c / 4096) 0xed); lia.
  - constructor; [apply in_range_iff; lia| |apply in_range_iff; lia|apply in_range_iff; lia]. apply in_range_iff. destruct (Z.eqb_spec (0xf0 + c / 262144) 0xf0), (Z.eqb_spec (0xf0 + c / 262144) 0xf4); lia.
Qed.

(** * What the parser accepts *)

Lemma lor_bound n a b : 0 ≤ n → 0 ≤ a < 2 ^ n → 0 ≤ b < 2 ^ n → 0 ≤ Z.lor a b < 2 ^ n.
Proof.
  intros Hn Ha Hb. split; [apply Z.lor_nonneg; lia|]. destruct (Z.eq_dec (Z.lor a b) 0) as [->|Hne]; [lia|].
  apply Z.log2_lt_pow2; [pose proof (Z.lor_nonneg a b); lia|]. rewrite Z.log2_lor by lia. apply Z.max_lub_lt.
  - destruct (Z.eq_dec a 0) as [->|]; [|apply Z.log2_lt_pow2; lia]. cbn. destruct (Z.eq_dec n 0) as [->|]; [|lia]. assert (b = 0) as -> by (cbn in Hb; lia). done.
  - destruct (Z.eq_dec b 0) as [->|]; [|apply Z.log2_lt_pow2; lia]. cbn. destruct (Z.eq_dec n 0) as [->|]; [|lia]. assert (a = 0) as -> by (cbn in Ha; lia). done.
Qed.

Lemma hex_value_bound c d : hex_value c = Some d → 0 ≤ d < 16.
Proof. unfold hex_value, is_digit. repeat case_match; intros [= <-]; bool_hyps; lia. Qed.

Lemma runs_hex4 p : runs hex4 p (λ v p', 0 ≤ v < 2 ^ 16 ∧ (left_ p' < left_ p)%nat).
Proof.
  unfold hex4, runs. destruct (Nat.ltb_spec (left_ p) 4) as [|Hl]; [done|]. destruct (mapM hex_value (take 4 (p_rest p))) as [ds|] eqn:E; [|done].
  rewrite left_advance. split; [|lia]. apply mapM_Some in E. assert (Forall (λ d, 0 ≤ d < 16) ds) as Hds by (eapply Forall2_Forall_r; [exact E|]; apply Forall_true; intros x y; apply hex_value_bound).
  assert (∀ v, 0 ≤ v < 2 ^ 16 → 0 ≤ foldl (λ v d, Z.lor (wrap 16 (Z.shiftl v 4)) d) v ds < 2 ^ 16) as Hf; [|apply Hf; lia].
  clear E. induction Hds as [|d ds Hd _ IH]; intros v Hv; [done|]. cbn [foldl]. apply IH. apply lor_bound; [lia| |lia]. apply wrap_bound. lia.
Qed.

Lemma from_u32_Some c d : from_u32 c = Some d → d = c ∧ from_u32 d = Some d.
Proof. unfold from_u32. intros H. destruct (_ || _) eqn:E; [done|]. injection H as <-. by rewrite E. Qed.

Lemma runs_unicode_escape p : runs unicode_escape p (λ c p', utf8_char (encode_utf8 c) ∧ (left_ p' < left_ p)%nat).
Proof.
  unfold unicode_escape. eapply runs_bind; [apply runs_hex4|]. intros first p1 [Hf Hl1]. runs_step.
  - eapply (runs_bind _ _ _ _ (λ _ p', p' = p1)); [done|]. intros next p' ->. runs_step; [|runs_step]. runs_step. eapply runs_bind; [apply runs_hex4|].
    intros second p2 [Hs Hl2]. rewrite left_advance in Hl2. runs_step; [|runs_step]. destruct (from_u32 _) as [c|] eqn:E; [|apply runs_syntax]. bool_hyps.
    apply from_u32_Some in E as [-> E]. apply runs_ret. split; [|lia]. apply encode_utf8_char; [|done]. rewrite Z.shiftl_mul_pow2 by lia. lia.
  - destruct (from_u32 first) as [c|] eqn:E; [|apply runs_syntax]. apply from_u32_Some in E as [-> E]. apply runs_ret. split; [apply encode_utf8_char; [lia|done]|lia].
Qed.

Lemma simple_escape_ascii e c : simple_escape e = Some c → utf8_char [c].
Proof. unfold simple_escape. repeat case_match; intros [= <-]; by constructor. Qed.

Lemma runs_escape p : runs escape p (λ s p', utf8_valid s = true ∧ (left_ p' < left_ p)%nat).
Proof.
  unfold escape. runs_step. destruct (head (p_rest p)) as [e|] eqn:Eh; [|apply runs_syntax]. apply head_left in Eh. runs_step.
  destruct (simple_escape e) as [c|] eqn:Ee.
  { apply runs_ret. rewrite left_advance. split; [by eapply utf8_char_valid, simple_escape_ascii|lia]. }
  runs_step; [|runs_step]. eapply runs_bind; [apply runs_unicode_escape|]. intros c p' [Hc Hl]. rewrite left_advance in Hl. apply runs_ret. split; [by apply utf8_char_valid|lia].
Qed.

Lemma utf8_len_pos c : (1 ≤ utf8_len c)%nat.
Proof. unfold utf8_len. repeat case_match; lia. Qed.

Lemma runs_plain c p : runs (plain c) p (λ s p', utf8_valid s = true ∧ (left_ p' ≤ left_ p)%nat).
Proof.
  unfold plain, runs. cbv zeta. destruct (_ <? _)%nat; [done|]. destruct (utf8_valid _) eqn:E; cbn [negb]; [|done]. split; [done|]. cbn [p_rest].
  pose proof (utf8_len_pos c). rewrite length_drop. cbn. lia.
Qed.

Lemma runs_string_loop fuel out p : (left_ p < fuel)%nat → utf8_valid out = true → runs (string_loop fuel out) p (λ s p', utf8_valid s = true ∧ (left_ p' < left_ p)%nat).
Proof.
  revert out p. induction fuel as [|fuel IH]; intros out p Hf Ho; [lia|]. cbn [string_loop]. runs_step. destruct (head (p_rest p)) as [c|] eqn:Eh; [|apply runs_syntax].
  apply head_left in Eh. runs_step. runs_step; [apply runs_ret; rewrite left_advance; split; [done|lia]|]. runs_step.
  - eapply runs_bind; [apply runs_escape|]. intros s p' [Hs Hl]. rewrite left_advance in Hl. eapply runs_impl; [apply IH; [lia|by rewrite utf8_valid_app]|]. intros ?? [? ?]. split; [done|lia].
  - runs_step; [runs_step|]. eapply runs_bind; [apply runs_plain|]. intros s p' [Hs Hl]. rewrite left_advance in Hl.
    eapply runs_impl; [apply IH; [lia|by rewrite utf8_valid_app]|]. intros ?? [? ?]. split; [done|lia].
Qed.

Lemma runs_string p : runs string_ p (λ s p', utf8_valid s = true ∧ (left_ p' < left_ p)%nat).
Proof.
  unfold string_. eapply runs_bind; [apply runs_eat|]. intros [] p1 Hl. eapply (runs_bind _ _ _ _ (λ n p', n = left_ p1 ∧ p' = p1)); [done|]. intros n p' [-> ->].
  eapply runs_impl; [apply runs_string_loop; [lia|done]|]. intros ?? [? ?]. split; [done|lia].
Qed.

Lemma runs_digits what p : runs (digits what) p (λ _ p', (left_ p' < left_ p)%nat).
Proof.
  unfold digits, runs. destruct (span is_digit (p_rest p) =? 0)%nat eqn:E; [done|]. rewrite left_advance. apply Nat.eqb_neq in E.
  destruct (p_rest p); cbn in *; lia.
Qed.

Lemma runs_fraction p : runs fraction p (λ _ p', (left_ p' ≤ left_ p)%nat).
Proof.
  unfold fraction. runs_step. runs_step; [|apply runs_ret; lia]. runs_step. eapply runs_bind; [apply runs_digits|]. intros ds p' Hl. rewrite left_advance in Hl. apply runs_ret. lia.
Qed.

Lemma runs_exponent p : runs exponent p (λ _ p', (left_ p' ≤ left_ p)%nat).
Proof.
  unfold exponent. runs_step. runs_step; [|apply runs_ret; lia]. runs_step. runs_step.
  eapply (runs_bind _ _ _ _ (λ _ p', (left_ p' ≤ left_ p)%nat)).
  - runs_step; [apply runs_skip; rewrite !left_advance; lia|apply runs_ret; rewrite left_advance; lia].
  - intros [] p1 Hl1. eapply runs_bind; [apply runs_digits|]. intros ds p' Hl. cbn beta in Hl. apply runs_ret. lia.
Qed.

Lemma parse_i64_bound s v : parse_i64 s = Some v → - 2 ^ 63 ≤ v < 2 ^ 63.
Proof.
  assert (∀ (b : bool) u, ((0 <? length u)%nat && forallb is_digit u && b) = true → 0 ≤ digits_value u ∧ b = true) as Hg.
  { intros b u [[_ Hd]%andb_true_iff Hb]%andb_true_iff. split; [by apply digits_value_nonneg|done]. }
  unfold parse_i64. intros Hs. repeat case_match; simplify_eq; match goal with H : (_ && _) = true |- _ => apply Hg in H as [? ?] end; lia.
Qed.

Definition accepted (d : nat) (p : Parser) (v : Json) (p' : Parser) : Prop := json_ok true v ∧ (json_depth v ≤ d)%nat ∧ (left_ p' < left_ p)%nat.

Lemma runs_number p d : runs number p (accepted d p).
Proof.
  unfold number. runs_step. eapply (runs_bind _ _ _ _ (λ _ p', (left_ p' ≤ left_ p)%nat)).
  { runs_step; [apply runs_skip; rewrite left_advance; lia|apply runs_ret; lia]. }
  intros [] p1 Hl1. eapply (runs_bind _ _ _ _ (λ _ p', p' = p1)); [done|]. intros n p' ->. eapply runs_bind; [apply runs_digits|]. intros int p2 Hl2.
  runs_step; [runs_step|]. eapply runs_bind; [apply runs_fraction|]. intros frac p3 Hl3. eapply runs_bind; [apply runs_exponent|]. intros exp p4 Hl4. cbn beta in *. apply runs_ret.
  assert (∀ v, json_ok true v → json_depth v = 0%nat → accepted d p v p4) as Hacc by (intros v Hv Hd; split; [done|]; rewrite Hd; lia).
  destruct frac as [frac|]; [by apply Hacc|]. destruct exp as [exp|]; [by apply Hacc|].
  destruct (parse_u64 _) as [u|] eqn:Eu; [apply Hacc; [by apply parse_u64_bound in Eu|done]|].
  destruct (parse_i64 _) as [i|] eqn:Ei; [apply Hacc; [by apply parse_i64_bound in Ei|done]|by apply Hacc].
Qed.

Lemma runs_literal w v p d : (0 < length w)%nat → (∀ c, head (p_rest p) = Some c → json_ok true v ∧ json_depth v = 0%nat) → (0 < left_ p)%nat → runs (literal w v) p (accepted d p).
Proof.
  intros Hw Hv Hp. unfold literal. eapply (runs_bind _ _ _ _ (λ _ p', p' = p)); [done|]. intros found p' ->. runs_step; [|runs_step]. runs_step. apply runs_ret.
  destruct (p_rest p) as [|c r] eqn:E; [cbn in Hp; lia|]. destruct (Hv c eq_refl) as [H1 H2]. split; [done|]. rewrite H2, left_advance, E. cbn. lia.
Qed.

Lemma runs_enter limits depth p : runs (enter limits depth) p (λ d p', d = S depth ∧ p' = p ∧ (S depth ≤ max_depth limits)%nat).
Proof. unfold enter. destruct (Nat.ltb_spec (max_depth limits) (S depth)); [done|]. by apply runs_ret. Qed.

Section Accepted.
Variable limits : ParseLimits.

Definition items_ok (d : nat) (items : list Json) : Prop := Forall (λ v, json_ok true v ∧ (json_depth v ≤ d)%nat) items.

Definition members_ok (d : nat) (items : list (bytes * Json)) : Prop :=
  NoDup items.*1 ∧ Forall (λ kv, (utf8_valid kv.1 = true ∧ json_ok true kv.2) ∧ (json_depth kv.2 ≤ d)%nat) items.

(** With two units of fuel for every byte left, the parser ends, and accepts what is well
    formed and within what is left of the depth. *)
Definition value_ok (fuel : nat) : Prop := ∀ depth p, (2 * left_ p + 1 ≤ fuel)%nat → (depth ≤ max_depth limits)%nat →
  runs (value limits fuel depth) p (accepted (max_depth limits - depth) p).

Definition array_ok (fuel : nat) : Prop := ∀ depth items p, (2 * left_ p + 2 ≤ fuel)%nat → (depth ≤ max_depth limits)%nat → items_ok (max_depth limits - depth) items →
  runs (array_loop limits fuel depth items) p (λ l p', items_ok (max_depth limits - depth) l ∧ (left_ p' < left_ p)%nat).

Definition object_ok (fuel : nat) : Prop := ∀ depth items p, (2 * left_ p + 2 ≤ fuel)%nat → (depth ≤ max_depth limits)%nat → members_ok (max_depth limits - depth) items →
  runs (object_loop limits fuel depth items) p (λ l p', members_ok (max_depth limits - depth) l ∧ (left_ p' < left_ p)%nat).

Lemma value_turn fuel : array_ok fuel → object_ok fuel → value_ok (S fuel).
Proof.
  intros IHa IHo depth p Hf Hd. cbn [value]. runs_step. destruct (head (p_rest p)) as [c|] eqn:Eh; [|apply runs_syntax]. pose proof (head_left _ _ Eh) as Hp.
  repeat (runs_step; [apply runs_literal; [cbn; lia|done|done]|]).
  runs_step; [eapply runs_bind; [apply runs_string|]; intros s p' [Hs Hl]; apply runs_ret; split; [done|]; cbn; lia|].
  runs_step; [|runs_step; [|runs_step; [apply runs_number|runs_step]]].
  - eapply runs_bind; [apply runs_enter|]. intros d p' (-> & -> & Hdm). runs_step. apply runs_skip_ws. intros p1 Hl1. rewrite left_advance in Hl1. runs_step.
    runs_step; [runs_step; apply runs_ret; split; [done|]; rewrite left_advance; cbn; lia|].
    eapply runs_bind; [apply (IHa (S depth)); [lia|lia|constructor]|]. intros l p' [Hl Hp']. apply runs_ret. split; [by apply all_Forall; eapply Forall_impl; [exact Hl|]; intros v [? _]|].
    split; [|lia]. cbn [json_depth]. apply (Nat.le_trans _ (S (max_depth limits - S depth))); [|lia]. apply le_n_S, depth_le. eapply Forall_impl; [exact Hl|]. by intros v [_ ?].
  - eapply runs_bind; [apply runs_enter|]. intros d p' (-> & -> & Hdm). runs_step. apply runs_skip_ws. intros p1 Hl1. rewrite left_advance in Hl1. runs_step.
    runs_step; [runs_step; apply runs_ret; split; [by split; [constructor|]|]; rewrite left_advance; cbn; lia|].
    eapply runs_bind; [apply (IHo (S depth)); [lia|lia|by split; constructor]|]. intros l p' [[Hn Hl] Hp']. apply runs_ret.
    split; [split; [done|]; apply all_Forall; eapply Forall_impl; [exact Hl|]; by intros kv [? _]|].
    split; [|lia]. cbn [json_depth]. apply (Nat.le_trans _ (S (max_depth limits - S depth))); [|lia]. apply le_n_S, (depth_le (λ kv, json_depth kv.2)). eapply Forall_impl; [exact Hl|]. by intros v [_ ?].
Qed.

Lemma array_turn fuel : value_ok fuel → array_ok fuel → array_ok (S fuel).
Proof.
  intros IHv IHa depth items p Hf Hd Hi. cbn [array_loop]. apply runs_skip_ws. intros p1 Hl1. eapply runs_bind; [apply (IHv depth); lia|]. intros v p2 (Hv & Hvd & Hl2).
  apply runs_skip_ws. intros p3 Hl3. assert (items_ok (max_depth limits - depth) (items ++ [v])) as Hi' by (apply Forall_app; split; [done|by constructor]).
  runs_step. destruct (bool_decide (head (p_rest p3) = Some 44)) eqn:E1.
  - apply bool_decide_eq_true, head_left in E1. runs_step. eapply runs_impl; [apply (IHa depth); [rewrite left_advance; lia|done|done]|]. intros l p' [? ?]. rewrite left_advance in *. split; [done|lia].
  - runs_step; [|runs_step]. runs_step. apply runs_ret. rewrite left_advance. split; [done|lia].
Qed.

Lemma members_ok_push d items k v : members_ok d items → utf8_valid k = true → json_ok true v → (json_depth v ≤ d)%nat →
  members_ok d (if existsb (λ kv, bool_decide (kv.1 = k)) items then items else items ++ [(k, v)]).
Proof.
  intros Hi Hk Hv Hd. destruct (existsb _ _) eqn:E; [done|]. destruct Hi as [Hn Hall]. split; [|apply Forall_app; split; [done|by repeat constructor]].
  rewrite fmap_app. apply NoDup_app. split; [done|]. split; [|apply NoDup_singleton]. intros k' (kv & -> & Hkv)%list_elem_of_fmap Hin%list_elem_of_singleton.
  apply not_true_iff_false in E. apply E, existsb_exists. exists kv. split; [by apply list_elem_of_In|]. by apply bool_decide_eq_true.
Qed.

Lemma object_turn fuel : value_ok fuel → object_ok fuel → object_ok (S fuel).
Proof.
  intros IHv IHo depth items p Hf Hd Hi. cbn [object_loop]. apply runs_skip_ws. intros p1 Hl1. eapply runs_bind; [apply runs_string|]. intros key p2 [Hk Hl2].
  apply runs_skip_ws. intros p3 Hl3. eapply runs_bind; [apply runs_eat|]. intros [] p4 Hl4. cbn beta in Hl4. apply runs_skip_ws. intros p5 Hl5.
  eapply runs_bind; [apply (IHv depth); lia|]. intros v p6 (Hv & Hvd & Hl6). cbv zeta. pose proof (members_ok_push _ items key v Hi Hk Hv Hvd) as Hi'.
  revert Hi'. generalize (if existsb (λ kv, bool_decide (kv.1 = key)) items then items else items ++ [(key, v)]) as items'. intros items' Hi'.
  apply runs_skip_ws. intros p7 Hl7. runs_step. destruct (bool_decide (head (p_rest p7) = Some 44)) eqn:E1.
  - apply bool_decide_eq_true, head_left in E1. runs_step. eapply runs_impl; [apply (IHo depth); [rewrite left_advance; lia|done|done]|]. intros l p' [? ?]. rewrite left_advance in *. split; [done|lia].
  - runs_step; [|runs_step]. runs_step. apply runs_ret. rewrite left_advance. split; [done|lia].
Qed.

Lemma value_runs fuel : value_ok fuel ∧ array_ok fuel ∧ object_ok fuel.
Proof.
  induction fuel as [|fuel (IHv & IHa & IHo)]; [split_and!; intros ?; intros; lia|]. split_and!; [by apply value_turn|by apply array_turn|by apply object_turn].
Qed.

End Accepted.

(** Parsing ends on every input, in the fuel [parse] gives it, and whatever is accepted is
    within the limits and well formed: integers of 64 bits, strings of UTF-8, no two members
    of a name in an object, and no deeper than the limit. *)
Lemma parse_accepts limits bs : ∃ r, parse limits bs = Some r ∧
  match r with
  | Ok v => (length bs ≤ max_bytes limits)%nat ∧ json_ok true v ∧ (json_depth v ≤ max_depth limits)%nat
  | Err _ => True
  end.
Proof.
  unfold parse. destruct (Nat.ltb_spec (max_bytes limits) (length bs)); [by eexists|]. destruct (utf8_valid bs); cbn [negb]; [|by eexists].
  assert (runs (document limits (length bs)) (mkParser 0 bs) (λ v _, json_ok true v ∧ (json_depth v ≤ max_depth limits)%nat)) as Hrun.
  { unfold document. apply runs_skip_ws. intros p1 Hl1. cbn [p_rest] in Hl1. eapply runs_bind; [apply value_runs; lia|]. intros v p2 (Hv & Hd & _).
    apply runs_skip_ws. intros p3 _. eapply (runs_bind _ _ _ _ (λ _ _, True)); [done|]. intros n p4 _. runs_step; [|runs_step]. apply runs_ret. split; [done|lia]. }
  unfold runs in Hrun. destruct (document _ _ _) as [[[v p]|e]|]; [|by eexists|done]. eexists. split; [done|]. split; [done|exact Hrun].
Qed.

(** * Reading back *)

(** The value as the parser gives it back: members in order, and an integer that is not
    negative unsigned. *)
Fixpoint canon (v : Json) : Json :=
  match v with
  | I64 n => if n <? 0 then I64 n else U64 n
  | Array items => Array (map canon items)
  | Object items => Object (sort_members (map (λ '(k, v), (k, canon v)) items))
  | v => v
  end.

(** The parser [n] bytes on, where [s] is left. *)
Abbreviation past p n s := (mkParser (p_at p + n) s).

Lemma J_run {A B} (m : J A) (f : A → J B) p a p' : m p = Some (Ok (a, p')) → (m ≫= f) p = f a p'.
Proof. unfold mbind, J_bind. by intros ->. Qed.

Lemma advance_app n p s post : p_rest p = s ++ post → n = length s → advance n p = past p n post.
Proof. intros E ->. unfold advance. rewrite E. by rewrite drop_app_length. Qed.

Lemma past_past p n m s s' : past (past p n s) m s' = past p (n + m) s'.
Proof. cbn. f_equal. lia. Qed.

Lemma span_app f a b : forallb f a = true → (∀ c, head b = Some c → f c = false) → span f (a ++ b) = length a.
Proof.
  intros Ha Hb. induction a as [|c a IH]; cbn in *.
  - destruct b as [|c b]; [done|]. cbn. by rewrite (Hb c).
  - apply andb_true_iff in Ha as [-> Ha]. by rewrite IH.
Qed.

(** What may follow a value: the end, or a character that ends it. *)
Definition stops (post : bytes) : Prop := ∀ c, head post = Some c → c = 44 ∨ c = 93 ∨ c = 125.

Lemma skip_ws_stops p : (∀ c, head (p_rest p) = Some c → is_ws c = false) → skip_ws p = Some (Ok ((), p)).
Proof.
  intros Hs. unfold skip_ws, skip, advance. assert (span is_ws (p_rest p) = 0%nat) as ->.
  { destruct (p_rest p) as [|c r]; [done|]. cbn. by rewrite (Hs c). }
  rewrite drop_0, Nat.add_0_r. by destruct p.
Qed.

(** ** Numbers *)

Lemma stops_not post c : stops post → c ≠ 44 → c ≠ 93 → c ≠ 125 → head post ≠ Some c.
Proof. intros Hs H1 H2 H3 [?|[?|?]]%Hs; done. Qed.

Lemma digits_reads what p s v post : decimal s v → p_rest p = s ++ post → stops post → digits what p = Some (Ok (s, past p (length s) post)).
Proof.
  intros [H1 H2 H3 H4] E Hs. unfold digits. assert (span is_digit (p_rest p) = length s) as ->.
  { rewrite E. apply span_app; [done|]. intros c Hc. apply Hs in Hc. unfold is_digit. destruct Hc as [->|[->| ->]]; done. }
  destruct (length s =? 0)%nat eqn:El; [apply Nat.eqb_eq in El; by destruct s|]. rewrite (advance_app _ _ s post) by done. rewrite E, take_app_length. done.
Qed.

Lemma number_reads (neg : bool) s v p post : decimal s v → p_rest p = (if neg then 45 :: s else s) ++ post → stops post →
  number p = Some (Ok (let text := if neg then 45 :: s else s in
                       match parse_u64 text with
                       | Some n => U64 n
                       | None => match parse_i64 text with Some n => I64 n | None => F64 (parse_f64 neg s [] 0) end
                       end, past p (length (if neg then 45 :: s else s)) post)).
Proof.
  intros Hd E Hs. pose proof Hd as [H1 H2 H3 H4]. unfold number. rewrite (J_run peek _ p _ _ eq_refl). cbv zeta.
  assert (bool_decide (head (p_rest p) = Some 45) = neg) as Hneg.
  { rewrite E. destruct neg; [by apply bool_decide_eq_true|]. apply bool_decide_eq_false. destruct s as [|c s]; [done|]. cbn in H1. intros [= ->]. done. }
  rewrite Hneg. set (p1 := if neg then past p 1 (s ++ post) else p).
  assert ((if neg then skip 1 else mret ()) p = Some (Ok ((), p1))) as Hskip.
  { destruct neg; [|done]. unfold skip. by rewrite (advance_app 1 p [45] (s ++ post)). }
  rewrite (J_run _ _ p _ _ Hskip). rewrite (J_run position _ p1 _ _ eq_refl).
  assert (p_rest p1 = s ++ post) as E1 by (subst p1; by destruct neg). rewrite (J_run _ _ _ _ _ (digits_reads _ _ _ _ _ Hd E1 Hs)).
  assert (bool_decide (head s = Some 48) && (1 <? length s)%nat = false) as ->.
  { apply andb_false_iff. destruct (decide (head s = Some 48)) as [Hz|Hz]; [right; rewrite H4; done|left; by apply bool_decide_eq_false]. }
  unfold fraction. rewrite (J_run _ _ _ None (past p1 (length s) post)).
  2:{ rewrite (J_run peek _ _ _ _ eq_refl). cbn [p_rest]. rewrite bool_decide_eq_false_2; [done|]. by apply stops_not. }
  unfold exponent. rewrite (J_run _ _ _ None (past p1 (length s) post)).
  2:{ rewrite (J_run peek _ _ _ _ eq_refl). cbn [p_rest]. rewrite bool_decide_eq_false_2; [done|]. intros [Hc|Hc]; revert Hc; by apply stops_not. }
  assert (past p1 (length s) post = past p (length (if neg then 45 :: s else s)) post) as E2 by (subst p1; destruct neg; [cbn; f_equal; lia|done]).
  unfold mret, J_ret. by rewrite E2.
Qed.

Lemma u64_reads n p post : is_u64 n → p_rest p = fmt_u64 n ++ post → stops post → number p = Some (Ok (U64 n, past p (length (fmt_u64 n)) post)).
Proof.
  intros Hn E Hs. pose proof (fmt_u64_decimal n Hn) as Hd. rewrite (number_reads false _ _ _ _ Hd E Hs). cbv zeta. by rewrite (decimal_parse_u64 _ _ Hd Hn).
Qed.

Lemma i64_reads n p post : - 2 ^ 63 ≤ n < 0 → p_rest p = 45 :: fmt_u64 (- n) ++ post → stops post → number p = Some (Ok (I64 n, past p (S (length (fmt_u64 (- n)))) post)).
Proof.
  intros Hn E Hs. assert (is_u64 (- n)) as Hu by (unfold in_u; lia). pose proof (fmt_u64_decimal _ Hu) as Hd. rewrite (number_reads true _ _ _ _ Hd E Hs). cbv zeta.
  assert (parse_u64 (45 :: fmt_u64 (- n)) = None) as -> by done. destruct Hd as [H1 H2 H3 H4]. unfold parse_i64. rewrite H1, H3.
  assert ((0 <? length (fmt_u64 (- n)))%nat = true) as -> by (apply Nat.ltb_lt; destruct (fmt_u64 (- n)); [done|cbn; lia]).
  assert ((- n <=? 2 ^ 63) = true) as -> by lia. cbn [andb]. by rewrite Z.opp_involutive.
Qed.

(** ** Strings *)

Lemma hex_value_lower d : 0 ≤ d < 16 → hex_value (lower_hex d) = Some d.
Proof. unfold hex_value, lower_hex, is_digit. intros Hd. destruct (Z.ltb_spec d 10); repeat case_match; bool_hyps; try lia; f_equal; lia. Qed.

Lemma next_byte p b rest : p_rest p = b :: rest → head (p_rest p) = Some b ∧ skip 1 p = Some (Ok ((), past p 1 rest)).
Proof. intros Er. rewrite Er. split; [done|]. unfold skip. by rewrite (advance_app 1 p [b] rest). Qed.

Lemma string_turn fuel out p b rest : p_rest p = b :: rest →
  string_loop (S fuel) out p =
    (if b =? 34 then mret out
     else if b =? 92 then s ← escape; string_loop fuel (out ++ s)
     else if b <=? 0x1f then syntax "control character in string"
     else s ← plain b; string_loop fuel (out ++ s)) (past p 1 rest).
Proof. intros Er. cbn [string_loop]. rewrite (J_run peek _ p _ _ eq_refl). destruct (next_byte p b rest Er) as [-> Hs]. by rewrite (J_run _ _ _ _ _ Hs). Qed.

(** A character that stands for itself. *)
Lemma plain_reads ch c r p post fuel out : utf8_char ch → ch = c :: r → 0x1f < c → c ≠ 34 → c ≠ 92 → p_rest p = ch ++ post →
  string_loop (S fuel) out p = string_loop fuel (out ++ ch) (past p (length ch) post).
Proof.
  intros Hc Ech Hlo H1 H2 E. pose proof (utf8_char_len _ _ _ Hc Ech) as Hlen. assert (p_rest p = c :: (r ++ post)) as E' by (by rewrite E, Ech).
  rewrite (string_turn _ _ _ _ _ E'). destruct (Z.eqb_spec c 34); [done|]. destruct (Z.eqb_spec c 92); [done|]. destruct (Z.leb_spec c 0x1f); [lia|].
  rewrite (J_run _ _ _ ch (past p (length ch) post)); [done|]. unfold plain. cbv zeta. cbn [p_rest p_at]. rewrite Hlen.
  assert (c :: r ++ post = ch ++ post) as -> by (by rewrite Ech). rewrite take_app_length, drop_app_length, Nat.ltb_irrefl, utf8_char_valid by done.
  cbn [negb]. by replace (p_at p + 1 - 1 + length ch)%nat with (p_at p + length ch)%nat by lia.
Qed.

(** A character that is written as an escape. *)
Lemma escape_reads e s p post fuel out : p_rest p = 92 :: e ++ post → escape (past p 1 (e ++ post)) = Some (Ok (s, past p (S (length e)) post)) →
  string_loop (S fuel) out p = string_loop fuel (out ++ s) (past p (S (length e)) post).
Proof. intros E He. rewrite (string_turn _ _ _ _ _ E). cbn [Z.eqb Pos.eqb]. by rewrite (J_run _ _ _ _ _ He). Qed.

Lemma simple_reads e c p post n : simple_escape e = Some c → escape (past p n (e :: post)) = Some (Ok ([c], past p (n + 1) post)).
Proof.
  intros He. unfold escape. rewrite (J_run peek _ _ _ _ eq_refl). cbn [p_rest head]. rewrite (J_run _ _ _ _ _ (proj2 (next_byte (past p n (e :: post)) e post eq_refl))). rewrite He.
  unfold mret, J_ret. by rewrite past_past.
Qed.

Lemma hex4_reads b a post : is_u8 b → hex4 (mkParser a (48 :: 48 :: lower_hex (b / 16) :: lower_hex (b mod 16) :: post)) = Some (Ok (b, mkParser (a + 4) post)).
Proof.
  intros Hb. unfold hex4. cbn [p_rest length]. change (S (S (S (S (length post)))) <? 4)%nat with false. cbn [negb].
  assert (0 ≤ b / 16 < 16) as H1 by (destruct Hb; split; [apply Z.div_pos; lia|apply Z.div_lt_upper_bound; lia]). pose proof (Z.mod_pos_bound b 16 ltac:(lia)) as H2.
  assert (mapM hex_value (take 4 (48 :: 48 :: lower_hex (b / 16) :: lower_hex (b mod 16) :: post)) = Some [0; 0; b / 16; b mod 16]) as E.
  { rewrite !firstn_cons, firstn_O. cbn [mapM]. rewrite (hex_value_lower (b / 16)), (hex_value_lower (b mod 16)) by done. done. }
  rewrite E. do 3 f_equal.
  revert b Hb H1 H2 E. intros b Hb _ _ _. assert (foldl (λ v d, Z.lor (wrap 16 (Z.shiftl v 4)) d) 0 [0; 0; b / 16; b mod 16] =? b = true) as Ef; [|lia].
  revert b Hb. apply byte_cases. vm_compute. reflexivity.
Qed.

Lemma unicode_reads b p post n : 0 ≤ b < 32 →
  escape (past p n (117 :: 48 :: 48 :: lower_hex (b / 16) :: lower_hex (b mod 16) :: post)) = Some (Ok ([b], past p (n + 5) post)).
Proof.
  intros Hb. unfold escape. rewrite (J_run peek _ _ _ _ eq_refl). cbn [p_rest head]. rewrite (J_run _ _ _ _ _ (proj2 (next_byte (mkParser _ (117 :: _)) 117 _ eq_refl))).
  change (simple_escape 117) with (@None Z). cbn [Z.eqb Pos.eqb]. assert (is_u8 b) as Hu by (unfold in_u; lia).
  rewrite (J_run unicode_escape _ _ b (past p (n + 5) post)).
  - unfold mret, J_ret. do 3 f_equal. unfold encode_utf8. by destruct (Z.ltb_spec b 0x80); [|lia].
  - unfold unicode_escape. rewrite (J_run _ _ _ _ _ (hex4_reads b _ post Hu)). destruct (Z.leb_spec 0xd800 b); [lia|]. cbn [andb]. unfold from_u32.
    destruct (Z.leb_spec 0xd800 b); [lia|]. destruct (Z.ltb_spec 0x10ffff b); [lia|]. cbn [andb orb]. unfold mret, J_ret. cbn [p_at]. do 4 f_equal. lia.
Qed.

Lemma escaped_plain c : 0x1f < c → c ≠ 34 → c ≠ 92 → escaped c = [c].
Proof. intros H1 H2 H3. unfold escaped. repeat (case_match; bool_hyps; [lia|]). done. Qed.

Lemma escaped_char ch : utf8_char ch → (∃ b, ch = [b] ∧ 0 ≤ b < 0x80) ∨ concat (map escaped ch) = ch ∧ ∃ c r, ch = c :: r ∧ 0x7f < c.
Proof.
  intros [b Hb|b b1 Hb H1|b b1 b2 Hb H1 H2|b b1 b2 b3 Hb H1 H2 H3]; unfold continuation in *; rewrite ?in_range_iff in *; [left; exists b; split; [done|lia]|right..]; cbn.
  all: repeat rewrite escaped_plain by (repeat case_match; lia); (split; [done|]); eexists _, _; split; [done|lia].
Qed.

(** One turn of the loop reads back one character. *)
Lemma char_reads ch p post fuel out : utf8_char ch → p_rest p = concat (map escaped ch) ++ post →
  string_loop (S fuel) out p = string_loop fuel (out ++ ch) (past p (length (concat (map escaped ch))) post).
Proof.
  intros Hc E. destruct (escaped_char ch Hc) as [(b & -> & Hb)|[Ee (c & r & Ech & Hlo)]].
  2:{ rewrite Ee in *. eapply plain_reads; [done|done|lia|lia|lia|done]. }
  cbn [map concat] in *. rewrite app_nil_r in *.
  assert (∀ e, escaped b = [92; e] → simple_escape e = Some b → string_loop (S fuel) out p = string_loop fuel (out ++ [b]) (past p (length (escaped b)) post)) as Hsimple.
  { intros e Ee Hs. rewrite Ee in *. apply (escape_reads [e] [b] p post fuel out); [exact E|]. by apply (simple_reads e b p post 1). }
  destruct (decide (0x1f < b ∧ b ≠ 34 ∧ b ≠ 92)) as [(H1 & H2 & H3)|Hn].
  { rewrite escaped_plain in * by done. by eapply plain_reads. }
  destruct (decide (b = 34)) as [->|]; [by apply (Hsimple 34)|]. destruct (decide (b = 92)) as [->|]; [by apply (Hsimple 92)|]. destruct (decide (b = 8)) as [->|]; [by apply (Hsimple 98)|].
  destruct (decide (b = 12)) as [->|]; [by apply (Hsimple 102)|]. destruct (decide (b = 10)) as [->|]; [by apply (Hsimple 110)|].
  destruct (decide (b = 13)) as [->|]; [by apply (Hsimple 114)|]. destruct (decide (b = 9)) as [->|]; [by apply (Hsimple 116)|].
  assert (escaped b = [92; 117; 48; 48; lower_hex (b / 16); lower_hex (b mod 16)]) as Ee by (unfold escaped; repeat (case_match; bool_hyps; [lia|]); by case_match; bool_hyps; [|lia]).
  rewrite Ee in *. apply (escape_reads [117; 48; 48; lower_hex (b / 16); lower_hex (b mod 16)] [b] p post fuel out); [exact E|].
  apply (unicode_reads b p post 1). lia.
Qed.

(** The loop reads back a string up to its closing quote. *)
Definition reads_back (s : bytes) : Prop := ∀ fuel out p post, p_rest p = concat (map escaped s) ++ 34 :: post → (left_ p ≤ fuel)%nat →
  string_loop fuel out p = Some (Ok (out ++ s, past p (S (length (concat (map escaped s)))) post)).

Lemma string_loop_reads s : utf8_valid s = true → reads_back s.
Proof.
  revert s. apply (utf8_valid_ind reads_back).
  - intros fuel out p post E Hf. cbn [map concat app] in E. rewrite E in Hf. destruct fuel as [|fuel]; [cbn in Hf; lia|]. rewrite (string_turn _ _ _ _ _ E). cbn. by rewrite app_nil_r.
  - intros ch s Hc Hs IH fuel out p post E Hf. rewrite map_app, concat_app in *. rewrite <- app_assoc in E.
    assert (0 < length (concat (map escaped ch)))%nat as Hpos.
    { destruct (escaped_char ch Hc) as [(b & -> & _)|[-> _]]; [|by apply utf8_char_nonempty]. cbn. rewrite length_app. unfold escaped. repeat case_match; cbn; lia. }
    destruct fuel as [|fuel]; [rewrite E, length_app in Hf; lia|]. rewrite (char_reads _ _ _ _ _ Hc E). rewrite (IH fuel (out ++ ch) _ post).
    + rewrite past_past, <- app_assoc, length_app. by replace (length (concat (map escaped ch)) + S (length (concat (map escaped s))))%nat with (S (length (concat (map escaped ch)) + length (concat (map escaped s)))) by lia.
    + done.
    + cbn [p_rest]. rewrite E, length_app in Hf. lia.
Qed.

Lemma string_reads s p post : utf8_valid s = true → p_rest p = write_string s ++ post → string_ p = Some (Ok (s, past p (length (write_string s)) post)).
Proof.
  intros Hs E. unfold write_string in E. assert (p_rest p = 34 :: concat (map escaped s) ++ 34 :: post) as E' by (rewrite E; cbn; by rewrite <- app_assoc).
  unfold string_, eat. assert ((next ← peek; if bool_decide (next = Some 34) then skip 1 else syntax "expected a string") p = Some (Ok ((), past p 1 (concat (map escaped s) ++ 34 :: post)))) as Heat.
  { rewrite (J_run peek _ p _ _ eq_refl). destruct (next_byte _ _ _ E') as [-> Hsk]. by rewrite bool_decide_eq_true_2. }
  rewrite (J_run _ _ _ _ _ Heat). rewrite (J_run remaining _ _ _ _ eq_refl). rewrite (string_loop_reads s Hs _ _ _ post); [|done|cbn [p_rest]; lia].
  rewrite past_past. cbn [app]. unfold write_string. rewrite length_cons, length_app. do 3 f_equal. f_equal. cbn. lia.
Qed.

(** ** Members in order *)

Lemma insert_member_map {A B} (f : A → B) (x : bytes * A) l : insert_member (x.1, f x.2) (map (λ '(k, a), (k, f a)) l) = map (λ '(k, a), (k, f a)) (insert_member x l).
Proof. induction l as [|[k a] l IH]; destruct x as [kx ax]; [done|]. cbn in *. case_bool_decide; [done|]. cbn. by rewrite IH. Qed.

Lemma sort_members_map {A B} (f : A → B) l : sort_members (map (λ '(k, a), (k, f a)) l) = map (λ '(k, a), (k, f a)) (sort_members l).
Proof. unfold sort_members. induction l as [|[k a] l IH]; [done|]. cbn [map foldr]. rewrite IH. apply (insert_member_map f (k, a)). Qed.

Lemma sort_members_perm {A} (l : list (bytes * A)) : sort_members l ≡ₚ l.
Proof.
  assert (∀ (x : bytes * A) l, insert_member x l ≡ₚ x :: l) as Hins.
  { clear l. intros x l. induction l as [|y l IH]; [done|]. cbn. case_bool_decide; [done|]. rewrite IH. apply Permutation_swap. }
  unfold sort_members. induction l as [|x l IH]; [done|]. cbn. by rewrite Hins, IH.
Qed.

(** ** Values *)

Section Reads.
Variables (limits : ParseLimits) (fmt_f64 : f64 → bytes).

(** What a written value starts with tells the parser which it is. *)
Lemma write_head v : json_ok false v → ∃ c r, write fmt_f64 v = c :: r ∧ is_ws c = false ∧ c ≠ 93.
Proof.
  assert (∀ n, is_u64 n → ∃ c r, fmt_u64 n = c :: r ∧ is_ws c = false ∧ c ≠ 93) as Hnum.
  { intros n Hn. destruct (decimal_head _ _ (fmt_u64_decimal n Hn)) as (c & r & E & Hd). exists c, r. split; [done|]. unfold is_digit in Hd. apply andb_true_iff in Hd as [?%Z.leb_le ?%Z.leb_le].
    split; [|lia]. unfold is_ws. repeat (apply orb_false_iff; split); apply Z.eqb_neq; lia. }
  destruct v as [|[]|n|n|x|s|items|items]; cbn; intros Hv; try (by eexists _, _; split; [reflexivity|]); [by apply Hnum| |done].
  unfold fmt_i64. destruct (Z.ltb_spec n 0); [by eexists _, _; split; [reflexivity|]|]. apply Hnum. unfold in_u. lia.
Qed.

Definition value_back (v : Json) : Prop := ∀ fuel depth p post, p_rest p = write fmt_f64 v ++ post → stops post → (2 * left_ p + 1 ≤ fuel)%nat →
  (depth + json_depth v ≤ max_depth limits)%nat → value limits fuel depth p = Some (Ok (canon v, past p (length (write fmt_f64 v)) post)).

Lemma stops_ws post : stops post → ∀ c, head post = Some c → is_ws c = false.
Proof. intros Hs c [->|[->| ->]]%Hs; done. Qed.

(** The step from one element to the next, or to the end [close]. *)
Lemma after_element {A} close (next_ last_ other : J A) p c post : p_rest p = c :: post → c = 44 ∨ c = close → close ≠ 44 → is_ws close = false →
  (_ ← skip_ws; next ← peek; if bool_decide (next = Some 44) then _ ← skip 1; next_ else if bool_decide (next = Some close) then _ ← skip 1; last_ else other) p =
  (if c =? 44 then next_ else last_) (past p 1 post).
Proof.
  intros E Hc Hne Hws. rewrite (J_run skip_ws _ p () p) by (apply skip_ws_stops; rewrite E; intros ? [= <-]; by destruct Hc as [->| ->]).
  rewrite (J_run peek _ p _ _ eq_refl). destruct (next_byte p c post E) as [-> Hsk]. destruct (Z.eqb_spec c 44) as [->|Hn].
  - rewrite bool_decide_eq_true_2 by done. by rewrite (J_run _ _ _ _ _ Hsk).
  - rewrite bool_decide_eq_false_2 by congruence. rewrite bool_decide_eq_true_2 by (destruct Hc; congruence). by rewrite (J_run _ _ _ _ _ Hsk).
Qed.

Lemma array_reads items : items ≠ [] → Forall value_back items → Forall (json_ok false) items → ∀ fuel depth acc p post,
  p_rest p = join (map (write fmt_f64) items) ++ 93 :: post → (2 * left_ p + 2 ≤ fuel)%nat → Forall (λ v, depth + json_depth v ≤ max_depth limits)%nat items →
  array_loop limits fuel depth acc p = Some (Ok (acc ++ map canon items, past p (S (length (join (map (write fmt_f64) items)))) post)).
Proof.
  induction items as [|v items IH]; [done|]. intros _ Hb Hok fuel depth acc p post E Hf Hd. apply Forall_cons in Hb as [Hb Hbs], Hok as [Hv Hoks], Hd as [Hdv Hds].
  destruct fuel as [|fuel]; [lia|]. cbn [array_loop]. destruct (write_head v Hv) as (c & r & Ew & Hws & _).
  set (tail := match items with [] => 93 :: post | _ => 44 :: join (map (write fmt_f64) items) ++ 93 :: post end).
  assert (p_rest p = write fmt_f64 v ++ tail) as E1.
  { rewrite E. subst tail. destruct items; [done|]. cbn [map join]. by rewrite <- app_assoc. }
  rewrite (J_run skip_ws _ p () p) by (apply skip_ws_stops; rewrite E1, Ew; by intros ? [= <-]).
  rewrite (J_run (value limits fuel depth) _ p (canon v) (past p (length (write fmt_f64 v)) tail)).
  2:{ apply Hb; [done| |lia|done]. subst tail. intros x. destruct items; intros [= <-]; auto. }
  cbv zeta. destruct items as [|v2 items].
  - subst tail. rewrite (after_element 93 _ _ _ _ 93 post) by auto. rewrite past_past. cbn. by rewrite Nat.add_1_r.
  - subst tail. rewrite (after_element 93 _ _ _ _ 44 (join (map (write fmt_f64) (v2 :: items)) ++ 93 :: post)) by auto. rewrite past_past. cbn [Z.eqb Pos.eqb].
    rewrite (IH ltac:(done) Hbs Hoks fuel depth _ _ post); [|done| |done].
    + rewrite past_past, <- app_assoc. cbn [map join]. rewrite (length_app (write fmt_f64 v)). cbn [length]. do 4 f_equal. lia.
    + cbn [p_rest]. rewrite E1, length_app in Hf. cbn [length] in Hf. assert (0 < length (write fmt_f64 v))%nat by (rewrite Ew; cbn; lia). lia.
Qed.

Abbreviation member := (λ '(k, v), write_string k ++ 58 :: write fmt_f64 v).

(** A member up to what follows its value. *)
Lemma member_reads {A} (f : bytes → Json → J A) k v fuel depth p post : value_back v → utf8_valid k = true → json_ok false v →
  p_rest p = member (k, v) ++ post → stops post → (2 * left_ p + 1 ≤ fuel)%nat → (depth + json_depth v ≤ max_depth limits)%nat →
  (_ ← skip_ws; key ← string_; _ ← skip_ws; _ ← eat 58 "expected ':'"; _ ← skip_ws; w ← value limits fuel depth; f key w) p =
  f k (canon v) (past p (length (member (k, v))) post).
Proof.
  intros Hb Hk Hv E Hs Hf Hd. cbv beta iota in E |- *. rewrite <- app_assoc in E. cbn [app] in E. rewrite (J_run skip_ws _ p () p) by (apply skip_ws_stops; rewrite E; by intros ? [= <-]).
  rewrite (J_run _ _ _ _ _ (string_reads _ _ _ Hk E)). rewrite (J_run skip_ws _ _ () _) by (apply skip_ws_stops; by intros ? [= <-]).
  rewrite (J_run (eat _ _) _ _ () (past p (length (write_string k) + 1) (write fmt_f64 v ++ post))).
  2:{ unfold eat. rewrite (J_run peek _ _ _ _ eq_refl). cbn [p_rest head]. rewrite bool_decide_eq_true_2 by done.
      rewrite (proj2 (next_byte (mkParser _ (58 :: _)) 58 (write fmt_f64 v ++ post) eq_refl)). by rewrite past_past. }
  destruct (write_head v Hv) as (c & r & Ew & Hws & _). rewrite (J_run skip_ws _ _ () _) by (apply skip_ws_stops; cbn [p_rest]; rewrite Ew; by intros ? [= <-]).
  rewrite (J_run _ _ _ (canon v) (past p (length (write_string k ++ 58 :: write fmt_f64 v)) post)); [done|]. rewrite (Hb fuel depth _ post); [|done|done| |done].
  - rewrite past_past, length_app. cbn [length]. do 4 f_equal. lia.
  - cbn [p_rest]. rewrite E, length_app in Hf. cbn [length] in Hf. lia.
Qed.

Lemma object_reads items : items ≠ [] → Forall (λ kv, value_back kv.2 ∧ utf8_valid kv.1 = true ∧ json_ok false kv.2) items → ∀ fuel depth acc p post,
  NoDup (acc.*1 ++ items.*1) → p_rest p = join (map member items) ++ 125 :: post → (2 * left_ p + 2 ≤ fuel)%nat → Forall (λ kv, depth + json_depth kv.2 ≤ max_depth limits)%nat items →
  object_loop limits fuel depth acc p = Some (Ok (acc ++ map (λ '(k, v), (k, canon v)) items, past p (S (length (join (map member items)))) post)).
Proof.
  induction items as [|[k v] items IH]; [done|]. intros _ Hb fuel depth acc p post Hn E Hf Hd. apply Forall_cons in Hb as [(Hb & Hk & Hv) Hbs], Hd as [Hdv Hds].
  destruct fuel as [|fuel]; [lia|]. cbn [object_loop].
  set (tail := match items with [] => 125 :: post | _ => 44 :: join (map member items) ++ 125 :: post end).
  assert (p_rest p = member (k, v) ++ tail) as E1.
  { rewrite E. subst tail. destruct items; [done|]. cbn [map join]. by rewrite <- app_assoc. }
  rewrite (member_reads _ k v fuel depth p tail Hb Hk Hv E1); [|subst tail; intros x; destruct items; intros [= <-]; auto|lia|done].
  assert (existsb (λ kv, bool_decide (kv.1 = k)) acc = false) as Hx.
  { apply not_true_iff_false. intros ([k' w] & Hin & Ek%bool_decide_eq_true)%existsb_exists. cbn in Ek. subst k'. apply NoDup_app in Hn as (_ & Hn & _). apply (Hn k); [|cbn; left].
    apply list_elem_of_fmap. exists (k, w). split; [done|]. by apply list_elem_of_In. }
  rewrite Hx. cbv zeta. destruct items as [|kv2 items].
  - subst tail. rewrite (after_element 125 _ _ _ _ 125 post) by auto. rewrite past_past. cbn [map join length]. cbn. by rewrite Nat.add_1_r.
  - subst tail. rewrite (after_element 125 _ _ _ _ 44 (join (map member (kv2 :: items)) ++ 125 :: post)) by auto. rewrite past_past. cbn [Z.eqb Pos.eqb].
    rewrite (IH ltac:(done) Hbs fuel depth _ _ post); [| |done| |done].
    + rewrite past_past, <- app_assoc. cbn [map join]. rewrite (length_app (member (k, v))). cbn [length]. do 4 f_equal. lia.
    + rewrite fmap_app, <- app_assoc. exact Hn.
    + cbn [p_rest]. rewrite E1, length_app in Hf. cbn [length] in Hf. lia.
Qed.

(** The step into an array or an object that is not empty. *)
Lemma enter_reads {A} close (empty rest : nat → J A) depth p b c post : (S depth ≤ max_depth limits)%nat → p_rest p = b :: c :: post → is_ws c = false → c ≠ close →
  (depth ← enter limits depth; _ ← skip 1; _ ← skip_ws; next ← peek; if bool_decide (next = Some close) then empty depth else rest depth) p = rest (S depth) (past p 1 (c :: post)).
Proof.
  intros Hd E Hws Hc. unfold enter. destruct (Nat.ltb_spec (max_depth limits) (S depth)); [lia|]. rewrite (J_run (mret _) _ p (S depth) p eq_refl).
  rewrite (J_run _ _ _ _ _ (proj2 (next_byte p b _ E))). rewrite (J_run skip_ws _ _ () _) by (apply skip_ws_stops; by intros ? [= <-]).
  rewrite (J_run peek _ _ _ _ eq_refl). cbn [p_rest head]. by rewrite bool_decide_eq_false_2 by congruence.
Qed.

Lemma literal_reads w v p post : p_rest p = w ++ post → literal w v p = Some (Ok (v, past p (length w) post)).
Proof.
  intros E. unfold literal, looking_at. erewrite J_run; [|reflexivity]. rewrite E, take_app_length, bool_decide_eq_true_2 by done.
  erewrite J_run; [|unfold skip; by rewrite (advance_app _ p w post)]. done.
Qed.

Lemma peek_run {A} (f : option Z → J A) p c r : p_rest p = c :: r → (peek ≫= f) p = f (Some c) p.
Proof. intros E. rewrite (J_run peek _ p _ _ eq_refl). by rewrite E. Qed.

(** The step through an empty array or object. *)
Lemma empty_reads {A} close (v : A) (rest : nat → J A) depth p b post : (S depth ≤ max_depth limits)%nat → p_rest p = b :: close :: post → is_ws close = false →
  (depth ← enter limits depth; _ ← skip 1; _ ← skip_ws; next ← peek; if bool_decide (next = Some close) then _ ← skip 1; mret v else rest depth) p = Some (Ok (v, past p 2 post)).
Proof.
  intros Hd E Hws. unfold enter. destruct (Nat.ltb_spec (max_depth limits) (S depth)); [lia|]. rewrite (J_run (mret _) _ p (S depth) p eq_refl).
  rewrite (J_run _ _ _ _ _ (proj2 (next_byte p b _ E))). rewrite (J_run skip_ws _ _ () _) by (apply skip_ws_stops; by intros ? [= <-]).
  rewrite (J_run peek _ _ _ _ eq_refl). cbn [p_rest head]. rewrite bool_decide_eq_true_2 by done.
  rewrite (J_run _ _ _ _ _ (proj2 (next_byte (mkParser _ (close :: _)) close post eq_refl))). by rewrite past_past.
Qed.

Lemma value_number fuel depth p c r : p_rest p = c :: r → c = 45 ∨ is_digit c = true → value limits (S fuel) depth p = number p.
Proof.
  intros E Hc. cbn [value]. rewrite (J_run peek _ p _ _ eq_refl), E. cbn [head]. assert (c = 45 ∨ 48 ≤ c ≤ 57) as Hr by (destruct Hc as [->|[?%Z.leb_le ?%Z.leb_le]%andb_true_iff]; lia).
  do 6 (match goal with |- context [c =? ?k] => destruct (Z.eqb_spec c k); [lia|] end). destruct (Z.eqb_spec c 45); [done|]. by destruct Hc as [Hc| ->].
Qed.

Lemma u64_back n fuel depth p post : is_u64 n → p_rest p = fmt_u64 n ++ post → stops post → value limits (S fuel) depth p = Some (Ok (U64 n, past p (length (fmt_u64 n)) post)).
Proof.
  intros Hn E Hs. destruct (decimal_head _ _ (fmt_u64_decimal n Hn)) as (c & r & Ec & Hc). assert (p_rest p = c :: (r ++ post)) as E' by (by rewrite E, Ec).
  rewrite (value_number _ _ _ _ _ E' (or_intror Hc)). by apply u64_reads.
Qed.

Lemma array_back items : Forall (λ v, json_ok false v → value_back v) items → json_ok false (Array items) → value_back (Array items).
Proof.
  intros IH Hok%all_Forall fuel depth p post E Hs Hf Hd. destruct fuel as [|fuel]; [lia|]. cbn [write] in *. cbn [app] in E. rewrite <- app_assoc in E. cbn [app] in E.
  cbn [value]. rewrite (peek_run _ _ _ _ E). cbn [Z.eqb Pos.eqb]. cbn [json_depth] in Hd. destruct items as [|v items].
  { cbn [map join app] in *. by rewrite (empty_reads 93 _ _ _ _ 91 post) by (done || lia). }
  assert (Forall (λ v, depth + S (json_depth v) ≤ max_depth limits)%nat (v :: items)) as Hds.
  { eapply Forall_impl; [apply (depth_le json_depth _ (max_depth limits - S depth)); cbn [foldr] in *; lia|]. intros w. cbn. lia. }
  set (l := v :: items) in *. assert (l ≠ []) as Hne by done. destruct (write_head v) as (c & r & Ew & Hws & Hc); [by apply Forall_inv in Hok|].
  assert (∃ r', join (map (write fmt_f64) l) = c :: r') as [r' Ej]. { subst l. cbn [map join]. rewrite Ew. destruct items; by eexists. }
  rewrite (enter_reads 93 _ _ _ _ 91 c (r' ++ 93 :: post)) by (done || lia || (rewrite E, Ej; done)).
  change (c :: r' ++ 93 :: post) with ((c :: r') ++ 93 :: post). rewrite <- Ej. erewrite J_run; [|apply (array_reads l Hne)].
  - rewrite past_past, length_cons, length_app. cbn [length app canon]. unfold mret, J_ret. do 4 f_equal. lia.
  - apply Forall_forall. intros w Hw. by apply (proj1 (Forall_forall _ _) IH), (proj1 (Forall_forall _ _) Hok).
  - done.
  - done.
  - cbn [p_rest]. rewrite E in Hf. cbn [length] in Hf. lia.
  - eapply Forall_impl; [exact Hds|]. intros w. cbn. lia.
Qed.

Lemma write_object items : write fmt_f64 (Object items) = 123 :: join (map member (sort_members items)) ++ [125].
Proof. cbn [write]. rewrite sort_members_map, map_map. do 3 f_equal. apply map_ext. by intros [k v]. Qed.

Lemma object_back items : Forall (λ kv, json_ok false kv.2 → value_back kv.2) items → json_ok false (Object items) → value_back (Object items).
Proof.
  intros IH [Hn Hok%all_Forall] fuel depth p post E Hs Hf Hd. destruct fuel as [|fuel]; [lia|]. rewrite write_object in *. cbn [app] in E. rewrite <- app_assoc in E. cbn [app] in E.
  cbn [canon]. rewrite sort_members_map. cbn [value]. rewrite (peek_run _ _ _ _ E). cbn [Z.eqb Pos.eqb]. cbn [json_depth] in Hd.
  assert (Forall (λ kv, depth + S (json_depth kv.2) ≤ max_depth limits)%nat items) as Hds.
  { eapply Forall_impl; [apply (depth_le (λ kv : bytes * Json, json_depth kv.2) _ (max_depth limits - S depth)); lia|]. intros w. cbn. lia. }
  assert (Forall (λ kv, value_back kv.2 ∧ utf8_valid kv.1 = true ∧ json_ok false kv.2) items) as Hback.
  { apply Forall_forall. intros kv Hkv. destruct (proj1 (Forall_forall _ _) Hok kv Hkv) as [? ?]. split; [|done]. by apply (proj1 (Forall_forall _ _) IH). }
  pose proof (sort_members_perm items) as Hperm. rewrite <- Hperm in Hn, Hds, Hback. clear IH Hok Hperm. destruct (sort_members items) as [|[k v] l'] eqn:El.
  { cbn [map join app] in *. by rewrite (empty_reads 125 _ _ _ _ 123 post) by (done || lia). }
  rewrite <- El in *. assert (sort_members items ≠ []) as Hne by (by rewrite El).
  assert (∃ r', join (map member (sort_members items)) = 34 :: r') as [r' Ej]. { rewrite El. cbn [map join]. destruct l'; by eexists. }
  clear El. rewrite (enter_reads 125 _ _ _ _ 123 34 (r' ++ 125 :: post)) by (done || lia || (rewrite E, Ej; done)).
  change (34 :: r' ++ 125 :: post) with ((34 :: r') ++ 125 :: post). rewrite <- Ej. erewrite J_run; [|apply (object_reads _ Hne)].
  - rewrite past_past, length_cons, length_app. cbn [length app]. unfold mret, J_ret. do 4 f_equal. lia.
  - done.
  - done.
  - done.
  - cbn [p_rest]. rewrite E in Hf. cbn [length] in Hf. lia.
  - eapply Forall_impl; [exact Hds|]. intros w. cbn. lia.
Qed.

Lemma value_reads v : json_ok false v → value_back v.
Proof.
  induction v as [|[]|n|n|x|s|items IH|items IH] using Json_ind'; intros Hok; [..|by apply array_back|by apply object_back];
    intros fuel depth p post E Hs Hf Hd; (destruct fuel as [|fuel]; [lia|]); [| | |by apply u64_back| |done|].
  1-3: cbn [value]; rewrite (peek_run _ _ _ _ E); by apply literal_reads.
  - cbn [write canon] in *. unfold fmt_i64 in *. cbn in Hok. destruct (Z.ltb_spec n 0); [|by apply u64_back; [unfold in_u; lia|..]].
    rewrite (value_number _ _ _ 45 (fmt_u64 (- n) ++ post)) by auto. by apply i64_reads; [lia|..].
  - cbn [value]. rewrite (peek_run _ _ _ _ E). cbn [Z.eqb Pos.eqb].
    by rewrite (J_run _ _ _ _ _ (string_reads _ _ _ Hok E)).
Qed.

End Reads.

(** * What is written is UTF-8 *)

Lemma utf8_ascii s : forallb (in_range 0 0x7f) s = true → utf8_valid s = true.
Proof. induction s as [|c s IH]; [done|]. cbn [forallb]. intros [Hc Hs]%andb_true_iff. change (c :: s) with ([c] ++ s). rewrite utf8_char_app by (by constructor). by apply IH. Qed.

Lemma utf8_ascii_cons c s : in_range 0 0x7f c = true → utf8_valid s = true → utf8_valid (c :: s) = true.
Proof. intros Hc Hs. change (c :: s) with ([c] ++ s). by rewrite utf8_char_app by (by constructor). Qed.

Lemma utf8_app a b : utf8_valid a = true → utf8_valid b = true → utf8_valid (a ++ b) = true.
Proof. intros Ha Hb. by rewrite utf8_valid_app. Qed.

Lemma utf8_join l : Forall (λ s, utf8_valid s = true) l → utf8_valid (join l) = true.
Proof. induction 1 as [|s l Hs _ IH]; [done|]. destruct l; [done|]. apply utf8_app; [done|]. by apply utf8_ascii_cons. Qed.

Lemma utf8_fmt_u64 n : is_u64 n → utf8_valid (fmt_u64 n) = true.
Proof.
  intros [Hd _ _ _]%fmt_u64_decimal. apply utf8_ascii. apply forallb_forall. intros c Hc. eapply forallb_forall in Hd; [|exact Hc].
  apply in_range_iff. apply andb_true_iff in Hd as [?%Z.leb_le ?%Z.leb_le]. lia.
Qed.

Lemma utf8_escaped b : 0 ≤ b < 0x80 → utf8_valid (escaped b) = true.
Proof.
  intros Hb. assert (is_u8 b) as Hu by (unfold in_u; lia). assert ((0x80 <=? b) || utf8_valid (escaped b) = true) as Hall; [|by destruct (Z.leb_spec 0x80 b); [lia|]].
  clear Hb. revert b Hu. apply byte_cases. vm_compute. reflexivity.
Qed.

Lemma utf8_write_string s : utf8_valid s = true → utf8_valid (write_string s) = true.
Proof.
  intros Hs. apply utf8_ascii_cons; [done|]. apply utf8_app; [|done]. revert s Hs. apply utf8_valid_ind; [done|]. intros ch s Hc _ IH. rewrite map_app, concat_app. apply utf8_app; [|done].
  destruct (escaped_char ch Hc) as [(b & -> & Hb)|[-> _]]; [|by apply utf8_char_valid]. cbn. rewrite app_nil_r. by apply utf8_escaped.
Qed.

Lemma utf8_write fmt_f64 v : json_ok false v → utf8_valid (write fmt_f64 v) = true.
Proof.
  induction v as [|[]|n|n|x|s|items IH|items IH] using Json_ind'; intros Hok; [done|done|done|by apply utf8_fmt_u64| |done|by apply utf8_write_string| |].
  - cbn in *. unfold fmt_i64. destruct (Z.ltb_spec n 0); [apply utf8_ascii_cons; [done|]|]; apply utf8_fmt_u64; unfold in_u; lia.
  - apply all_Forall in Hok. cbn [write]. apply utf8_ascii_cons; [done|]. apply utf8_app; [|done]. apply utf8_join, Forall_map. eapply Forall_impl; [apply Forall_and; split; [exact IH|exact Hok]|]. naive_solver.
  - rewrite write_object. destruct Hok as [_ Hok%all_Forall]. apply utf8_ascii_cons; [done|]. apply utf8_app; [|done]. apply utf8_join, Forall_map. rewrite sort_members_perm.
    eapply Forall_impl; [apply Forall_and; split; [exact IH|exact Hok]|]. intros [k v] [H1 [H2 H3]]. cbn in *. apply utf8_app; [by apply utf8_write_string|]. apply utf8_ascii_cons; [done|auto].
Qed.

(** A value within the limits is read back. *)
Lemma json_roundtrip limits fmt_f64 v : json_ok false v → (json_depth v ≤ max_depth limits)%nat → (length (to_string fmt_f64 v) ≤ max_bytes limits)%nat →
  parse limits (to_string fmt_f64 v) = Some (Ok (canon v)).
Proof.
  unfold to_string. intros Hok Hd Hl. unfold parse. destruct (Nat.ltb_spec (max_bytes limits) (length (write fmt_f64 v))); [lia|]. rewrite utf8_write by done. cbn [negb].
  unfold document. destruct (write_head fmt_f64 v Hok) as (c & r & Ew & Hws & _). rewrite (J_run skip_ws _ _ () _) by (apply skip_ws_stops; cbn [p_rest]; rewrite Ew; by intros ? [= <-]).
  rewrite (J_run _ _ _ (canon v) (mkParser (length (write fmt_f64 v)) [])).
  - rewrite (J_run skip_ws _ _ () _) by (by apply skip_ws_stops). rewrite (J_run position _ _ _ _ eq_refl). cbn [p_at]. by rewrite Nat.eqb_refl.
  - apply (value_reads limits fmt_f64 v Hok _ 0%nat (mkParser 0 (write fmt_f64 v)) []); [by rewrite app_nil_r|done|cbn [p_rest]; lia|lia].
Qed.


(** ** A document *)

Module ToyJson.

Definition limits : ParseLimits := {| max_depth := 3; max_bytes := 200 |}.

(** Members out of order, a control character and one of three bytes in a string, and
    integers at the ends of their range. *)
Definition doc : Json :=
  Object [(ascii_bytes "result", Array [U64 (2 ^ 64 - 1); I64 (- 2 ^ 63); I64 7; Null; Array []]);
          (ascii_bytes "id", Str (ascii_bytes "a" ++ [34; 10; 1; 0xe2; 0x82; 0xac]));
          (ascii_bytes "error", Object [(ascii_bytes "ok", Bool true)])].

Lemma doc_ok : json_ok false doc.
Proof. cbn -[ascii_bytes]. split_and!; try done; try lia; vm_compute; repeat constructor; set_solver. Qed.

End ToyJson.

