(* ===== verification/Peers.v ===== *)
(** The peer lists (crates/wrkz-node/src/peers.rs): the white and gray lists with their
    limits, the peer state file, bans, misbehaviour scores and the choice of the addresses
    to dial. Reading and writing the files themselves is left out. *)
From stdpp Require Import gmap.
From S2P Require Import Prelude Decimal Varint P2pMsg.
From S2P Require Mnemonic Checkpoints.
Local Open Scope Z_scope.

(** * Addresses *)

(** [std::net::IpAddr] and [SocketAddr], by their octets. *)
Inductive IpAddr : Type :=
| V4 (octets : bytes)
| V6 (octets : bytes).

Record SocketAddr := mkAddr { sa_ip : IpAddr; sa_port : Z }.

#[export] Instance IpAddr_eq_dec : EqDecision IpAddr.
Proof. solve_decision. Defined.
#[export] Instance SocketAddr_eq_dec : EqDecision SocketAddr.
Proof. solve_decision. Defined.

#[export] Instance IpAddr_countable : Countable IpAddr.
Proof.
  refine (inj_countable' (λ ip, match ip with V4 o => inl o | V6 o => inr o end) (λ s, match s with inl o => V4 o | inr o => V6 o end) _). by intros [].
Defined.
#[export] Instance SocketAddr_countable : Countable SocketAddr.
Proof. refine (inj_countable' (λ a, (sa_ip a, sa_port a)) (λ p, mkAddr p.1 p.2) _). by intros []. Defined.

Definition octet (o : bytes) (i : nat) : Z := nth i o 0.

(** The classes of the standard library. *)
Module Ipv4.
Definition is_loopback (o : bytes) : bool := octet o 0 =? 127.
Definition is_unspecified (o : bytes) : bool := bool_decide (o = [0; 0; 0; 0]).
Definition is_broadcast (o : bytes) : bool := bool_decide (o = [255; 255; 255; 255]).
Definition is_multicast (o : bytes) : bool := (224 <=? octet o 0) && (octet o 0 <=? 239).
Definition is_private (o : bytes) : bool :=
  (octet o 0 =? 10) || (octet o 0 =? 172) && (16 <=? octet o 1) && (octet o 1 <=? 31) || (octet o 0 =? 192) && (octet o 1 =? 168).
Definition is_link_local (o : bytes) : bool := (octet o 0 =? 169) && (octet o 1 =? 254).
End Ipv4.

Module Ipv6.
Definition is_loopback (o : bytes) : bool := bool_decide (o = replicate 15 0 ++ [1]).
Definition is_unspecified (o : bytes) : bool := bool_decide (o = replicate 16 0).
Definition is_multicast (o : bytes) : bool := octet o 0 =? 0xff.
Definition to_ipv4_mapped (o : bytes) : option bytes :=
  if bool_decide (take 12 o = replicate 10 0 ++ [0xff; 0xff]) then Some (drop 12 o) else None.
End Ipv6.

Definition ip_allowed (ip : IpAddr) (allow_local : bool) : bool :=
  match ip with
  | V4 a =>
      if Ipv4.is_loopback a || Ipv4.is_unspecified a || Ipv4.is_broadcast a || Ipv4.is_multicast a then false
      else allow_local || negb (Ipv4.is_private a || Ipv4.is_link_local a)
  | V6 a =>
      if Ipv6.is_loopback a || Ipv6.is_unspecified a || Ipv6.is_multicast a then false
      else
        let segment := octet a 0 * 256 + octet a 1 in
        let local := (Z.land segment 0xffc0 =? 0xfe80) || (Z.land (octet a 0) 0xfe =? 0xfc) in
        allow_local || negb local
  end.

Inductive NetGroup : Type :=
| Net4 (prefix : bytes)
| Net6 (prefix : bytes)
| Local_ (ip : IpAddr).

#[export] Instance NetGroup_eq_dec : EqDecision NetGroup.
Proof. solve_decision. Defined.
#[export] Instance NetGroup_countable : Countable NetGroup.
Proof.
  refine (inj_countable' (λ g, match g with Net4 p => inl (inl p) | Net6 p => inl (inr p) | Local_ ip => inr ip end)
    (λ s, match s with inl (inl p) => Net4 p | inl (inr p) => Net6 p | inr ip => Local_ ip end) _). by intros [].
Defined.

Definition net_group (ip : IpAddr) : NetGroup :=
  let ip := match ip with V6 v6 => match Ipv6.to_ipv4_mapped v6 with Some v4 => V4 v4 | None => ip end | V4 _ => ip end in
  if negb (ip_allowed ip false) then Local_ ip
  else
    match ip with
    | V4 o => Net4 [octet o 0; octet o 1]
    | V6 o => Net6 [octet o 0; octet o 1; octet o 2; octet o 3]
    end.

Definition ipv4_of (entry : PeerlistEntry) : IpAddr := V4 (p_ip entry).

(** [u16::try_from] of the port. *)
Definition socket_addr_of (entry : PeerlistEntry) : option SocketAddr :=
  if p_port entry <? 2 ^ 16 then Some (mkAddr (ipv4_of entry) (p_port entry)) else None.

Definition socket_addr_of6 (entry : PeerlistEntry6) : option SocketAddr :=
  if p6_port entry <? 2 ^ 16 then Some (mkAddr (V6 (p6_ip entry)) (p6_port entry)) else None.

(** * Time *)

(** An [Instant] is its number of nanoseconds, a [Duration] too. Adding a duration panics
    ([None]) when the seconds leave the signed 64 bits of a time stamp of the system. *)
Abbreviation Instant := Z (only parsing).
Abbreviation Duration := Z (only parsing).

Definition from_secs (s : Z) : Duration := s * 1000000000.
Definition instant_add (t : Instant) (d : Duration) : option Instant := if (t + d) / 1000000000 <? 2 ^ 63 then Some (t + d) else None.
(** Zero when the other instant is the later one. *)
Definition duration_since (t u : Instant) : Duration := Z.max (t - u) 0.

Definition FAILED_ADDRESS_BACKOFF : Duration := from_secs 600.
Definition DEFAULT_BAN_SECONDS : Z := 900.
Definition MISBEHAVIOUR_BAN_SECONDS : Z := 24 * 60 * 60.
Definition BAN_THRESHOLD : Z := 100.
Definition SCORE_MEMORY : Duration := from_secs (24 * 60 * 60).
Definition MAX_SCORED_ADDRESSES : nat := 4096.
Definition GRAY_PER_GROUP_LIMIT : nat := 16.
Definition MAX_ANCHORS : nat := 3.
Definition WHITE_PERCENT : Z := 70.
Definition P2P_LOCAL_WHITE_PEERLIST_LIMIT : nat := 1000.
Definition P2P_LOCAL_GRAY_PEERLIST_LIMIT : nat := 5000.

(** * Random numbers *)

(** SplitMix64. *)
Module Rng.
Definition next (state : Z) : Z * Z :=
  let state := wrapping_add 64 state 0x9E3779B97F4A7C15 in
  let z := state in
  let z := wrapping_mul 64 (Z.lxor z (Z.shiftr z 30)) 0xBF58476D1CE4E5B9 in
  let z := wrapping_mul 64 (Z.lxor z (Z.shiftr z 27)) 0x94D049BB133111EB in
  (Z.lxor z (Z.shiftr z 31), state).

(** [items.swap(i, j)], for indexes within the slice. *)
Definition swap {A} (items : list A) (i j : nat) : list A :=
  match items !! i, items !! j with
  | Some a, Some b => <[i := b]> (<[j := a]> items)
  | _, _ => items
  end.

(** Fisher-Yates: [i] from the last index down to 1. *)
Fixpoint shuffle_loop {A} (i : nat) (state : Z) (items : list A) : list A * Z :=
  match i with
  | O => (items, state)
  | S i' =>
      let '(x, state) := next state in
      let j := Z.to_nat (x mod (Z.of_nat i + 1)) in
      shuffle_loop i' state (swap items i j)
  end.

Definition shuffle {A} (state : Z) (items : list A) : list A * Z := shuffle_loop (length items - 1) state items.
End Rng.

(** * Bans *)

Record Ban := mkBan { until : Instant; until_unix : Z }.

Abbreviation BanList := (gmap IpAddr Ban).

(** [now] is [Instant::now()] and [now_secs] the Unix time. *)
Definition ban (now : Instant) (now_secs : Z) (bans : BanList) (ip : IpAddr) (seconds : Z) : option BanList :=
  u ← instant_add now (from_secs seconds);
  Some (<[ip := mkBan u (saturating_add 64 now_secs seconds)]> bans).

Definition unban (bans : BanList) (ip : IpAddr) : bool * BanList := (bool_decide (is_Some (bans !! ip)), delete ip bans).

Definition is_banned (now : Instant) (bans : BanList) (ip : IpAddr) : bool :=
  match bans !! ip with Some b => now <? until b | None => false end.

Definition expire_bans (now : Instant) (bans : BanList) : BanList := filter (λ kv, now < until kv.2) bans.

(** The order of [IpAddr]: IPv4 first, then by octets. *)
Definition ip_le (a b : IpAddr) : bool :=
  match a, b with
  | V4 x, V4 y | V6 x, V6 y => bool_decide (bytes_le x y)
  | V4 _, V6 _ => true
  | V6 _, V4 _ => false
  end.

Fixpoint insert_row {A} (x : IpAddr * A) (l : list (IpAddr * A)) : list (IpAddr * A) :=
  match l with
  | [] => [x]
  | y :: l => if ip_le x.1 y.1 then x :: y :: l else y :: insert_row x l
  end.

Definition sort_rows {A} (l : list (IpAddr * A)) : list (IpAddr * A) := foldr insert_row [] l.

Definition entries (now : Instant) (bans : BanList) : list (IpAddr * Z) :=
  sort_rows (map (λ '(ip, b), (ip, duration_since (until b) now / 1000000000)) (map_to_list (filter (λ kv, now < until kv.2) bans))).

(** [u64::from_str], with its optional plus sign. *)
Definition u64_from_str (t : text) : option Z :=
  match t with
  | c :: rest => if c =? 43 then parse_u64 rest else parse_u64 t
  | [] => None
  end.

(** [Display] and [FromStr] of [IpAddr]. *)
Class IpText : Type := { show_ip : IpAddr → text; parse_ip : text → option IpAddr }.

Section BanFile.
Context `{IpText}.

Definition to_text (now : Instant) (bans : BanList) : text :=
  let rows := sort_rows (map (λ '(ip, b), (ip, until_unix b)) (map_to_list (filter (λ kv, now < until kv.2) bans))) in
  concat (map (λ '(ip, end_), show_ip ip ++ 32 :: fmt_u64 end_ ++ [10]) rows).

(** A line of the file, if it reads. *)
Definition ban_line (line : text) : option (IpAddr * Z) :=
  match Mnemonic.split_whitespace line [] with
  | ip :: end_ :: _ => ip ← parse_ip ip; end_ ← u64_from_str end_; Some (ip, end_)
  | _ => None
  end.

(** [None] is a panic: [Instant::now() + remaining] overflows. *)
Fixpoint load_lines (now : Instant) (now_unix : Z) (ls : list text) (bans : BanList) (added : nat) : option (nat * BanList) :=
  match ls with
  | [] => Some (added, bans)
  | line :: ls =>
      match ban_line line with
      | None => load_lines now now_unix ls bans added
      | Some (ip, end_) =>
          if end_ <=? now_unix then load_lines now now_unix ls bans added
          else
            u ← instant_add now (from_secs (end_ - now_unix));
            load_lines now now_unix ls (<[ip := mkBan u end_]> bans) (S added)
      end
  end.

Definition load_text (now : Instant) (now_unix : Z) (t : text) (bans : BanList) : option (nat * BanList) :=
  load_lines now now_unix (Checkpoints.lines t []) bans 0.

End BanFile.

(** * Misbehaviour *)

Inductive Offence : Type :=
| OffMalformed
| InvalidBlock
| BadProofOfWork
| UnrequestedBlock
| CheckpointMismatch
| Unsolicited
| Oversized
| InvalidTransaction.

Definition points (o : Offence) : Z :=
  match o with
  | OffMalformed | BadProofOfWork | UnrequestedBlock | CheckpointMismatch => BAN_THRESHOLD
  | InvalidBlock | Unsolicited | Oversized => 25
  | InvalidTransaction => 20
  end.

Record Score := mkScore { s_points : Z; s_last : Instant }.

(** * The manager *)

Record PeerManager := mkPM {
  pm_peer_id : Z;
  pm_white : list PeerlistEntry;
  pm_gray : list PeerlistEntry;
  pm_white6 : list PeerlistEntry6;
  pm_gray6 : list PeerlistEntry6;
  pm_allow_local_ip : bool;
  pm_failed : gmap SocketAddr Instant;
  pm_banned : BanList;
  pm_scores : gmap IpAddr Score;
  pm_anchors : list SocketAddr;
  pm_seeds : list SocketAddr;
  pm_dirty : bool }.

(** [peer_id] is [random_u64()]. *)
Definition new (peer_id : Z) (allow_local_ip : bool) : PeerManager := mkPM peer_id [] [] [] [] allow_local_ip ∅ ∅ ∅ [] [] false.

Definition with_lists (pm : PeerManager) (white gray : list PeerlistEntry) (white6 gray6 : list PeerlistEntry6) (dirty : bool) : PeerManager :=
  mkPM (pm_peer_id pm) white gray white6 gray6 (pm_allow_local_ip pm) (pm_failed pm) (pm_banned pm) (pm_scores pm) (pm_anchors pm) (pm_seeds pm) dirty.

Definition with_failed (pm : PeerManager) (failed : gmap SocketAddr Instant) : PeerManager :=
  mkPM (pm_peer_id pm) (pm_white pm) (pm_gray pm) (pm_white6 pm) (pm_gray6 pm) (pm_allow_local_ip pm) failed (pm_banned pm) (pm_scores pm) (pm_anchors pm) (pm_seeds pm) (pm_dirty pm).

Definition with_banned (pm : PeerManager) (banned : BanList) : PeerManager :=
  mkPM (pm_peer_id pm) (pm_white pm) (pm_gray pm) (pm_white6 pm) (pm_gray6 pm) (pm_allow_local_ip pm) (pm_failed pm) banned (pm_scores pm) (pm_anchors pm) (pm_seeds pm) (pm_dirty pm).

Definition with_scores (pm : PeerManager) (scores : gmap IpAddr Score) : PeerManager :=
  mkPM (pm_peer_id pm) (pm_white pm) (pm_gray pm) (pm_white6 pm) (pm_gray6 pm) (pm_allow_local_ip pm) (pm_failed pm) (pm_banned pm) scores (pm_anchors pm) (pm_seeds pm) (pm_dirty pm).

Definition set_seeds (pm : PeerManager) (seeds : list SocketAddr) : PeerManager :=
  mkPM (pm_peer_id pm) (pm_white pm) (pm_gray pm) (pm_white6 pm) (pm_gray6 pm) (pm_allow_local_ip pm) (pm_failed pm) (pm_banned pm) (pm_scores pm) (pm_anchors pm) seeds (pm_dirty pm).

Definition take_anchors (pm : PeerManager) : list SocketAddr * PeerManager :=
  (pm_anchors pm, mkPM (pm_peer_id pm) (pm_white pm) (pm_gray pm) (pm_white6 pm) (pm_gray6 pm) (pm_allow_local_ip pm) (pm_failed pm) (pm_banned pm) (pm_scores pm) [] (pm_seeds pm) (pm_dirty pm)).

Definition white_count (pm : PeerManager) : nat := length (pm_white pm) + length (pm_white6 pm).
Definition gray_count (pm : PeerManager) : nat := length (pm_gray pm) + length (pm_gray6 pm).

Definition white_addresses (pm : PeerManager) : list SocketAddr := omap socket_addr_of (pm_white pm) ++ omap socket_addr_of6 (pm_white6 pm).
Definition gray_addresses (pm : PeerManager) : list SocketAddr := omap socket_addr_of (pm_gray pm) ++ omap socket_addr_of6 (pm_gray6 pm).

(** ** Trimming *)

Section Sort.
Context {E : Type} (key : E → Z).

Fixpoint insert_desc (x : E) (l : list E) : list E :=
  match l with
  | [] => [x]
  | y :: l => if key y <=? key x then x :: y :: l else y :: insert_desc x l
  end.

(** [sort_by_key] with [Reverse], which is stable. *)
Definition sort_desc (l : list E) : list E := foldr insert_desc [] l.

(** The free function [trim]. *)
Definition trim (l : list E) (max : nat) : list E := if (length l <=? max)%nat then l else take max (sort_desc l).
End Sort.

Definition trim_white (pm : PeerManager) : PeerManager :=
  with_lists pm (trim p_last_seen (pm_white pm) P2P_LOCAL_WHITE_PEERLIST_LIMIT) (pm_gray pm)
    (trim p6_last_seen (pm_white6 pm) P2P_LOCAL_WHITE_PEERLIST_LIMIT) (pm_gray6 pm) (pm_dirty pm).

Definition trim_gray (pm : PeerManager) : PeerManager :=
  with_lists pm (pm_white pm) (trim p_last_seen (pm_gray pm) P2P_LOCAL_GRAY_PEERLIST_LIMIT) (pm_white6 pm)
    (trim p6_last_seen (pm_gray6 pm) P2P_LOCAL_GRAY_PEERLIST_LIMIT) (pm_dirty pm).

(** ** Entries *)

Definition same (a b : PeerlistEntry) : bool := bool_decide (p_ip a = p_ip b) && (p_port a =? p_port b).
Definition same6 (a b : PeerlistEntry6) : bool := bool_decide (p6_ip a = p6_ip b) && (p6_port a =? p6_port b).

(** [iter_mut().find(..)] and the assignment to the slot; [None] when there is none. *)
Fixpoint replace_first {E} (found : E → bool) (x : E) (l : list E) : option (list E) :=
  match l with
  | [] => None
  | y :: l => if found y then Some (x :: l) else cons y <$> replace_first found x l
  end.

Definition append_white (pm : PeerManager) (entry : PeerlistEntry) : PeerManager :=
  if negb (ip_allowed (ipv4_of entry) (pm_allow_local_ip pm)) then pm
  else
    let pm :=
      match replace_first (same entry) entry (pm_white pm) with
      | Some white => with_lists pm white (pm_gray pm) (pm_white6 pm) (pm_gray6 pm) (pm_dirty pm)
      | None => trim_white (with_lists pm (pm_white pm ++ [entry]) (pm_gray pm) (pm_white6 pm) (pm_gray6 pm) (pm_dirty pm))
      end in
    with_lists pm (pm_white pm) (filter (λ e, negb (same entry e)) (pm_gray pm)) (pm_white6 pm) (pm_gray6 pm) true.

Definition append_white6 (pm : PeerManager) (entry : PeerlistEntry6) : PeerManager :=
  if negb (ip_allowed (V6 (p6_ip entry)) (pm_allow_local_ip pm)) then pm
  else
    let pm :=
      match replace_first (same6 entry) entry (pm_white6 pm) with
      | Some white6 => with_lists pm (pm_white pm) (pm_gray pm) white6 (pm_gray6 pm) (pm_dirty pm)
      | None => trim_white (with_lists pm (pm_white pm) (pm_gray pm) (pm_white6 pm ++ [entry]) (pm_gray6 pm) (pm_dirty pm))
      end in
    with_lists pm (pm_white pm) (pm_gray pm) (pm_white6 pm) (filter (λ e, negb (same6 entry e)) (pm_gray6 pm)) true.

(** [id] is [random_u64()]. *)
Definition add_command_line_peer (pm : PeerManager) (addr : SocketAddr) (id : Z) : PeerManager :=
  match sa_ip addr with
  | V4 ip =>
      let entry := mkPeer ip (sa_port addr) id 0 in
      if existsb (same entry) (pm_white pm) then pm else append_white pm entry
  | V6 ip =>
      let entry := mkPeer6 id 0 ip (sa_port addr) in
      if existsb (same6 entry) (pm_white6 pm) then pm else append_white6 pm entry
  end.

Definition append_gray (pm : PeerManager) (entry : PeerlistEntry) : PeerManager :=
  if negb (ip_allowed (ipv4_of entry) (pm_allow_local_ip pm)) then pm
  else if existsb (same entry) (pm_white pm) then pm
  else
    let gray := default (pm_gray pm ++ [entry]) (replace_first (same entry) entry (pm_gray pm)) in
    with_lists pm (pm_white pm) gray (pm_white6 pm) (pm_gray6 pm) true.

Definition append_gray6 (pm : PeerManager) (entry : PeerlistEntry6) : PeerManager :=
  if negb (ip_allowed (V6 (p6_ip entry)) (pm_allow_local_ip pm)) then pm
  else if existsb (same6 entry) (pm_white6 pm) then pm
  else
    let gray6 := default (pm_gray6 pm ++ [entry]) (replace_first (same6 entry) entry (pm_gray6 pm)) in
    with_lists pm (pm_white pm) (pm_gray pm) (pm_white6 pm) gray6 true.

Definition set_peer_just_seen (pm : PeerManager) (peer_id : Z) (addr : SocketAddr) (now : Z) : PeerManager :=
  let pm :=
    match sa_ip addr with
    | V4 ip => append_white pm (mkPeer ip (sa_port addr) peer_id now)
    | V6 ip => append_white6 pm (mkPeer6 peer_id now ip (sa_port addr))
    end in
  with_failed pm (delete addr (pm_failed pm)).

(** ** Received lists *)

Definition group_counts (ips : list IpAddr) : gmap NetGroup nat :=
  foldl (λ counts ip, <[net_group ip := S (default 0%nat (counts !! net_group ip))]> counts) ∅ ips.

(** The entry of the group is created with zero if there is none. *)
Definition admit_to_group (counts : gmap NetGroup nat) (ip : IpAddr) : bool * gmap NetGroup nat :=
  let n := default 0%nat (counts !! net_group ip) in
  if (GRAY_PER_GROUP_LIMIT <=? n)%nat then (false, <[net_group ip := n]> counts) else (true, <[net_group ip := S n]> counts).

Definition shift (sender_local_time now last_seen : Z) : Z :=
  let shifted :=
    if sender_local_time <=? now then saturating_add 64 last_seen (now - sender_local_time)
    else saturating_sub last_seen (sender_local_time - now) in
  Z.min shifted now.

Definition merge_turn (sender_local_time now : Z) (acc : PeerManager * gmap NetGroup nat) (e : PeerlistEntry) : PeerManager * gmap NetGroup nat :=
  let '(pm, per_group) := acc in
  let e := mkPeer (p_ip e) (p_port e) (p_id e) (shift sender_local_time now (p_last_seen e)) in
  if existsb (same e) (pm_gray pm) then (append_gray pm e, per_group)
  else
    let '(admitted, per_group) := admit_to_group per_group (ipv4_of e) in
    (if admitted then append_gray pm e else pm, per_group).

Definition merge_peerlist (pm : PeerManager) (entries : list PeerlistEntry) (sender_local_time now : Z) : bool * PeerManager :=
  let kept := take MAX_PEERLIST_ENTRIES entries in
  if existsb (λ e, sender_local_time <? p_last_seen e) kept then (false, pm)
  else
    let per_group := group_counts (map ipv4_of (pm_gray pm)) in
    (true, trim_gray (foldl (merge_turn sender_local_time now) (pm, per_group) kept).1).

Definition merge_turn6 (now : Z) (acc : PeerManager * gmap NetGroup nat) (e : PeerlistEntry6) : PeerManager * gmap NetGroup nat :=
  let '(pm, per_group) := acc in
  let e := mkPeer6 (p6_id e) (Z.min (p6_last_seen e) now) (p6_ip e) (p6_port e) in
  if existsb (same6 e) (pm_gray6 pm) then (append_gray6 pm e, per_group)
  else
    let '(admitted, per_group) := admit_to_group per_group (V6 (p6_ip e)) in
    (if admitted then append_gray6 pm e else pm, per_group).

(** [now] is the Unix time. *)
Definition merge_peerlist6 (pm : PeerManager) (entries : list PeerlistEntry6) (now : Z) : PeerManager :=
  let per_group := group_counts (map (λ e, V6 (p6_ip e)) (pm_gray6 pm)) in
  trim_gray (foldl (merge_turn6 now) (pm, per_group) (take MAX_PEERLIST_ENTRIES entries)).1.

(** ** What is sent *)

(** The list is left sorted. *)
Definition peerlist_head (pm : PeerManager) (depth : nat) : list PeerlistEntry * PeerManager :=
  let white := sort_desc p_last_seen (pm_white pm) in
  (take depth (filter (λ e, p_last_seen e ≠ 0) white), with_lists pm white (pm_gray pm) (pm_white6 pm) (pm_gray6 pm) (pm_dirty pm)).

Definition peerlist6_head (pm : PeerManager) (depth : nat) : list PeerlistEntry6 * PeerManager :=
  let white6 := sort_desc p6_last_seen (pm_white6 pm) in
  (take depth (filter (λ e, p6_last_seen e ≠ 0) white6), with_lists pm (pm_white pm) (pm_gray pm) white6 (pm_gray6 pm) (pm_dirty pm)).

(** ** Bans, failures and scores *)

Definition pm_ban (now : Instant) (now_secs : Z) (pm : PeerManager) (ip : IpAddr) (seconds : Z) : option PeerManager :=
  with_banned pm <$> ban now now_secs (pm_banned pm) ip seconds.

Definition pm_is_banned (now : Instant) (pm : PeerManager) (ip : IpAddr) : bool := is_banned now (pm_banned pm) ip.

Definition note_dial_failure (now : Instant) (pm : PeerManager) (addr : SocketAddr) : option PeerManager :=
  u ← instant_add now FAILED_ADDRESS_BACKOFF;
  Some (with_failed pm (<[addr := u]> (pm_failed pm))).

(** The scores not yet forgotten. *)
Definition live_scores (now : Instant) (scores : gmap IpAddr Score) : gmap IpAddr Score :=
  filter (λ kv, duration_since now (s_last kv.2) ≤ SCORE_MEMORY) scores.

Definition expire (now : Instant) (pm : PeerManager) : PeerManager :=
  let pm := with_failed pm (filter (λ kv, now < kv.2) (pm_failed pm)) in
  let pm := with_banned pm (expire_bans now (pm_banned pm)) in
  with_scores pm (live_scores now (pm_scores pm)).

(** [min_by_key]: the first of the least. *)
Definition stalest (l : list (IpAddr * Score)) : option IpAddr :=
  fst <$> foldl (λ best kv, match best with Some b => if s_last kv.2 <? s_last b.2 then Some kv else best | None => Some kv end) None l.

(** The order a [HashMap] is iterated in. *)
Class HashOrder : Type := { hash_order : gmap IpAddr Score → list (IpAddr * Score) }.

Definition make_room `{HashOrder} (now : Instant) (scores : gmap IpAddr Score) (ip : IpAddr) : gmap IpAddr Score :=
  if bool_decide (scores !! ip = None) && (MAX_SCORED_ADDRESSES <=? size scores)%nat then
    let scores := live_scores now scores in
    if (MAX_SCORED_ADDRESSES <=? size scores)%nat then
      match stalest (hash_order scores) with Some s => delete s scores | None => scores end
    else scores
  else scores.

Definition penalise `{HashOrder} (now : Instant) (now_secs : Z) (pm : PeerManager) (ip : IpAddr) (pts : Z) : option (bool * PeerManager) :=
  let scores := make_room now (pm_scores pm) ip in
  let score := default (mkScore 0 now) (scores !! ip) in
  let held := if SCORE_MEMORY <? duration_since now (s_last score) then 0 else s_points score in
  let score := mkScore (saturating_add 32 held pts) now in
  if s_points score <? BAN_THRESHOLD then Some (false, with_scores pm (<[ip := score]> scores))
  else
    pm ← pm_ban now now_secs (with_scores pm (delete ip scores)) ip MISBEHAVIOUR_BAN_SECONDS;
    Some (true, pm).

Definition score (now : Instant) (pm : PeerManager) (ip : IpAddr) : Z :=
  match pm_scores pm !! ip with
  | Some s => if duration_since now (s_last s) <=? SCORE_MEMORY then s_points s else 0
  | None => 0
  end.

(** ** Dialling *)

Definition dialable (now : Instant) (pm : PeerManager) (addr : SocketAddr) (busy : list SocketAddr) : bool :=
  negb (bool_decide (addr ∈ busy)) && negb (pm_is_banned now pm (sa_ip addr)) &&
  negb (match pm_failed pm !! addr with Some u => now <? u | None => false end) && ip_allowed (sa_ip addr) (pm_allow_local_ip pm).

(** The closure [take]. *)
Fixpoint take_candidates (src : list SocketAddr) (limit : nat) (out : list SocketAddr) (groups : gset NetGroup) : list SocketAddr * gset NetGroup :=
  match src with
  | [] => (out, groups)
  | a :: src =>
      if (limit <=? length out)%nat then (out, groups)
      else if bool_decide (a ∉ out) && bool_decide (net_group (sa_ip a) ∉ groups)
      then take_candidates src limit (out ++ [a]) ({[net_group (sa_ip a)]} ∪ groups)
      else take_candidates src limit out groups
  end.

(** The loop over the seeds. *)
Fixpoint take_seeds (src : list SocketAddr) (want : nat) (out : list SocketAddr) : list SocketAddr :=
  match src with
  | [] => out
  | a :: src =>
      if (want <=? length out)%nat then out
      else take_seeds src want (if bool_decide (a ∉ out) then out ++ [a] else out)
  end.

(** [seed] is the state of [Rng::seeded]. *)
Definition dial_candidates_for (now : Instant) (seed : Z) (pm : PeerManager) (want : nat) (busy outbound : list SocketAddr) : list SocketAddr :=
  if (want =? 0)%nat then []
  else
    let white_target := Z.to_nat (div_ceil (wrapping_mul 64 (Z.of_nat want) WHITE_PERCENT) 100) in
    let groups : gset NetGroup := list_to_set (map (λ a, net_group (sa_ip a)) outbound) in
    let white := filter (λ a, dialable now pm a busy) (white_addresses pm) in
    let gray := filter (λ a, dialable now pm a busy) (gray_addresses pm) in
    let '(white, rng) := Rng.shuffle seed white in
    let '(gray, rng) := Rng.shuffle rng gray in
    let '(out, groups) := take_candidates white (Nat.min white_target want) [] groups in
    let '(out, groups) := take_candidates gray want out groups in
    let '(out, groups) := take_candidates white want out groups in
    if (length out <? want)%nat then
      let seeds := filter (λ a, dialable now pm a busy) (pm_seeds pm) in
      take_seeds (Rng.shuffle rng seeds).1 want out
    else out.

Definition dial_candidates (now : Instant) (seed : Z) (pm : PeerManager) (want : nat) (busy : list SocketAddr) : list SocketAddr :=
  dial_candidates_for now seed pm want busy busy.

Definition may_dial (now : Instant) (pm : PeerManager) (addr : SocketAddr) : bool := dialable now pm addr [].

(** ** The peer state file *)

Definition encode_entry (out : bytes) (e : PeerlistEntry) : bytes :=
  let out := varint.write out (from_le_bytes (p_ip e)) in
  let out := varint.write out (p_port e) in
  let out := varint.write out (p_id e) in
  varint.write out (p_last_seen e).

Definition encode_entry6 (out : bytes) (e : PeerlistEntry6) : bytes :=
  let out := out ++ p6_ip e in
  let out := varint.write out (p6_port e) in
  let out := varint.write out (p6_id e) in
  varint.write out (p6_last_seen e).

Definition encode (pm : PeerManager) : bytes :=
  let out := varint.write [] 1 in
  let out := varint.write out 2 in
  let out := foldl (λ out l, foldl encode_entry (varint.write out (Z.of_nat (length l))) l) out [pm_white pm; pm_gray pm] in
  let out := foldl (λ out l, foldl encode_entry6 (varint.write out (Z.of_nat (length l))) l) out [pm_white6 pm; pm_gray6 pm] in
  varint.write out (pm_peer_id pm).

Inductive StateError : Type :=
| StateVarint (e : Error)
| StateU32
| StateTruncated
| StateList (n : Z)
| StateVersion (v : Z).

(** [VarintReader]: the bytes left. *)
Definition VarintReader (A : Type) : Type := bytes → result StateError (A * bytes).

#[export] Instance VarintReader_ret : MRet VarintReader := λ A a r, Ok (a, r).
#[export] Instance VarintReader_bind : MBind VarintReader := λ A B f m r,
  match m r with Ok (a, r) => f a r | Err e => Err e end.

Definition r_fail {A} (e : StateError) : VarintReader A := λ r, Err e.
Definition r_remaining : VarintReader Z := λ r, Ok (Z.of_nat (length r), r).

Definition r_varint : VarintReader Z := λ r,
  match varint.read r with Ok (v, used) => Ok (v, drop used r) | Err e => Err (StateVarint e) end.

Definition r_u32 : VarintReader Z :=
  v ← r_varint;
  if v <? 2 ^ 32 then mret v else r_fail StateU32.

Definition r_raw16 : VarintReader bytes := λ r,
  if (length r <? 16)%nat then Err StateTruncated else Ok (take 16 r, drop 16 r).

Definition r_count (min_elem_bytes : Z) (limit : nat) : VarintReader nat :=
  n ← r_varint;
  remaining ← r_remaining;
  if (Z.of_nat limit <? n) || (remaining <? saturating_mul 64 n min_elem_bytes) then r_fail (StateList n) else mret (Z.to_nat n).

Fixpoint r_list {A} (p : VarintReader A) (n : nat) : VarintReader (list A) :=
  match n with
  | O => mret []
  | S n => a ← p; l ← r_list p n; mret (a :: l)
  end.

Definition r_entry : VarintReader PeerlistEntry :=
  ip ← r_u32; port ← r_u32; id ← r_varint; last_seen ← r_varint;
  mret (mkPeer (to_le_bytes 4 ip) port id last_seen).

Definition r_entry6 : VarintReader PeerlistEntry6 :=
  ip ← r_raw16; port ← r_u32; id ← r_varint; last_seen ← r_varint;
  mret (mkPeer6 id last_seen ip port).

Definition r_entries : VarintReader (list PeerlistEntry) := n ← r_count 4 P2P_LOCAL_GRAY_PEERLIST_LIMIT; r_list r_entry n.
Definition r_entries6 : VarintReader (list PeerlistEntry6) := n ← r_count 19 P2P_LOCAL_GRAY_PEERLIST_LIMIT; r_list r_entry6 n.

(** The peer id is last: a file that ends before it keeps the one it had. *)
Definition r_id (id : Z) : VarintReader Z := λ r,
  match r_varint r with Ok (id, r) => Ok (id, r) | Err _ => Ok (id, r) end.

(** The lists and the id, which [id] stands for when it does not read; [None] for a list
    version the C++ reads nothing of. *)
Definition r_state (id : Z) : VarintReader (option (list PeerlistEntry * list PeerlistEntry * list PeerlistEntry6 * list PeerlistEntry6 * Z)) :=
  node_version ← r_varint;
  if negb (node_version =? 1) then r_fail (StateVersion node_version)
  else
    list_version ← r_varint;
    if list_version <? 1 then mret None
    else
      white ← r_entries; gray ← r_entries;
      '(white6, gray6) ← (if 2 <=? list_version then white6 ← r_entries6; gray6 ← r_entries6; mret (white6, gray6) else mret ([], []));
      id ← r_id id;
      mret (Some (white, gray, white6, gray6, id)).

Definition decode (pm : PeerManager) (data : bytes) : result StateError PeerManager :=
  match r_state (pm_peer_id pm) data with
  | Err e => Err e
  | Ok (None, _) => Ok pm
  | Ok (Some (white, gray, white6, gray6, id), _) =>
      Ok (trim_gray (trim_white (mkPM id white gray white6 gray6 (pm_allow_local_ip pm) (pm_failed pm) (pm_banned pm) (pm_scores pm) (pm_anchors pm) (pm_seeds pm) (pm_dirty pm))))
  end.
