(* ===== verification/PeersSpec.v ===== *)
(** The peer lists (Peers): whatever peers send, the lists stay within their limits and no
    network group crowds them; the addresses to dial are allowed and spread over the groups;
    the files read back what was written; scores lead to bans. *)
From stdpp Require Import gmap.
From S2P Require Import Prelude Decimal Varint P2pMsg P2pWire Peers.
From S2P Require Mnemonic Checkpoints.
Local Open Scope Z_scope.

Lemma max_scored_pos : (0 < MAX_SCORED_ADDRESSES)%nat.
Proof. unfold MAX_SCORED_ADDRESSES. lia. Qed.

#[local] Opaque MAX_SCORED_ADDRESSES P2P_LOCAL_GRAY_PEERLIST_LIMIT P2P_LOCAL_WHITE_PEERLIST_LIMIT GRAY_PER_GROUP_LIMIT.

(** * Sorting and trimming *)

Section Trim.
Context {E : Type} (key : E → Z).

Lemma insert_desc_perm x l : insert_desc key x l ≡ₚ x :: l.
Proof. induction l as [|y l IH]; [done|]. cbn. destruct (_ <=? _); [done|]. rewrite IH. apply Permutation_swap. Qed.

Lemma sort_desc_perm l : sort_desc key l ≡ₚ l.
Proof. unfold sort_desc. induction l as [|x l IH]; [done|]. cbn. by rewrite insert_desc_perm, IH. Qed.

Lemma trim_submseteq l max : trim key l max ⊆+ l.
Proof. unfold trim. destruct (_ <=? _)%nat; [done|]. rewrite <- (sort_desc_perm l) at 2. apply sublist_submseteq, sublist_take. Qed.

Lemma trim_length l max : (length (trim key l max) ≤ max)%nat.
Proof. unfold trim. destruct (Nat.leb_spec (length l) max); [done|]. rewrite length_take. lia. Qed.

Lemma trim_id l max : (length l ≤ max)%nat → trim key l max = l.
Proof. intros Hl. unfold trim. by destruct (Nat.leb_spec (length l) max); [|lia]. Qed.

(** What trimming drops was seen no later than what it keeps. *)
Lemma sort_desc_sorted l : StronglySorted (λ a b, key b ≤ key a) (sort_desc key l).
Proof.
  unfold sort_desc. induction l as [|x l IH]; [constructor|]. cbn. induction IH as [|y r Hr IHr Hy]; cbn; [by repeat constructor|].
  destruct (Z.leb_spec (key y) (key x)) as [Hle|Hlt].
  - constructor; [by constructor|]. constructor; [done|]. eapply Forall_impl; [exact Hy|]. cbn. intros. lia.
  - constructor; [exact IHr|]. rewrite insert_desc_perm. constructor; [lia|done].
Qed.
End Trim.

(** * A white and a gray list *)

(** The two pairs of lists, of IPv4 and of IPv6 entries, are kept the same way. *)
Section Lists.
Context {E : Type} (addr : E → bytes * Z) (ip : E → IpAddr) (key : E → Z) (same : E → E → bool).
Context (same_iff : ∀ a b, same a b = true ↔ addr a = addr b) (addr_ip : ∀ a b, addr a = addr b → ip a = ip b).

Definition group_size (g : NetGroup) (l : list E) : nat := length (filter (λ e, net_group (ip e) = g) l).

#[local] Instance group_size_perm g : Proper ((≡ₚ) ==> (=)) (group_size g).
Proof. intros l k Hl. unfold group_size. by rewrite Hl. Qed.

Lemma replace_first_Some x l l' : replace_first (same x) x l = Some l' → ∃ a y b, l = a ++ y :: b ∧ l' = a ++ x :: b ∧ addr y = addr x.
Proof.
  revert l'. induction l as [|y l IH]; intros l'; [done|]. cbn. destruct (same x y) eqn:Es.
  - intros [= <-]. exists [], y, l. split_and!; [done|done|]. by apply same_iff in Es.
  - destruct (replace_first (same x) x l) as [r|] eqn:Er; [|done]. intros [= <-]. destruct (IH r eq_refl) as (a & z & b & -> & -> & Ha). by exists (y :: a), z, b.
Qed.

Lemma replace_first_None x l : replace_first (same x) x l = None → addr x ∉ addr <$> l.
Proof.
  induction l as [|y l IH]; [intros _ H; by apply elem_of_nil in H|]. cbn. destruct (same x y) eqn:Es; [done|]. destruct (replace_first (same x) x l); [done|]. intros _.
  apply not_elem_of_cons. split; [|by apply IH]. intros Ha. apply (proj2 (same_iff _ _)) in Ha. congruence.
Qed.

Lemma existsb_same x l : existsb (same x) l = true ↔ addr x ∈ addr <$> l.
Proof.
  rewrite existsb_exists, list_elem_of_fmap. split; intros (y & H1 & H2).
  - exists y. apply same_iff in H2. apply list_elem_of_In in H1. done.
  - exists y. split; [by apply list_elem_of_In|]. by apply same_iff.
Qed.

(** [append_white] on the list it appends to, before the gray list is filtered. *)
Definition push_white (max : nat) (l : list E) (x : E) : list E :=
  match replace_first (same x) x l with Some l' => l' | None => trim key (l ++ [x]) max end.

Definition push_gray (l : list E) (x : E) : list E := default (l ++ [x]) (replace_first (same x) x l).

Context (allow : bool) (typed : E → Prop).

Definition entry_ok (e : E) : Prop := typed e ∧ ip_allowed (ip e) allow = true.

(** What holds of the lists but for the length of the gray one. *)
Record lists_wf (white gray : list E) : Prop := {
  lw_white : NoDup (addr <$> white);
  lw_gray : NoDup (addr <$> gray);
  lw_disjoint : ∀ a, a ∈ addr <$> white → a ∉ addr <$> gray;
  lw_allowed : Forall entry_ok (white ++ gray);
  lw_white_len : (length white ≤ P2P_LOCAL_WHITE_PEERLIST_LIMIT)%nat;
  lw_groups : ∀ g, (group_size g gray ≤ GRAY_PER_GROUP_LIMIT)%nat }.

Lemma NoDup_submseteq_fmap l k : l ⊆+ k → NoDup (addr <$> k) → NoDup (addr <$> l).
Proof.
  intros (r & Hr)%submseteq_Permutation Hn. rewrite Hr, fmap_app in Hn. by apply NoDup_app in Hn as [? _].
Qed.

Lemma group_size_submseteq g l k : l ⊆+ k → (group_size g l ≤ group_size g k)%nat.
Proof. intros (r & ->)%submseteq_Permutation. unfold group_size. rewrite filter_app, length_app. lia. Qed.

Lemma lists_wf_submseteq w g w' g' : lists_wf w g → w' ⊆+ w → g' ⊆+ g → lists_wf w' g'.
Proof.
  intros [H1 H2 H3 H4 H5 H6] Hw Hg. apply Forall_app in H4 as [H4 H4'].
  assert (∀ l k a, l ⊆+ k → a ∈ addr <$> l → a ∈ addr <$> k) as Hsub.
  { intros l k a (r & Hr)%submseteq_Permutation Ha. rewrite Hr, fmap_app. apply elem_of_app. by left. }
  split.
  - by eapply NoDup_submseteq_fmap.
  - by eapply NoDup_submseteq_fmap.
  - intros a Ha Hb. apply (H3 a); [by eapply Hsub|by eapply Hsub].
  - apply Forall_app. apply submseteq_Permutation in Hw as (r & Hr), Hg as (r' & Hr'). rewrite Hr in H4. rewrite Hr' in H4'.
    apply Forall_app in H4 as [? _], H4' as [? _]. done.
  - apply submseteq_length in Hw. lia.
  - intros gr. etrans; [by apply group_size_submseteq|done].
Qed.

Lemma fmap_replaced (f : E → bytes * Z) a x y b : f x = f y → f <$> (a ++ x :: b) = f <$> (a ++ y :: b).
Proof. intros Hf. rewrite !fmap_app. cbn. by rewrite Hf. Qed.

Lemma group_size_replaced g a x y b : ip x = ip y → group_size g (a ++ x :: b) = group_size g (a ++ y :: b).
Proof. intros Hi. unfold group_size. rewrite !filter_app, !filter_cons, Hi. destruct (decide _); cbn; rewrite !length_app; done. Qed.

Lemma push_white_wf w g x : lists_wf w g → entry_ok x → lists_wf (push_white P2P_LOCAL_WHITE_PEERLIST_LIMIT w x) (filter (λ e, Is_true (negb (same x e))) g).
Proof.
  intros Hwf Hx. assert (filter (λ e, Is_true (negb (same x e))) g ⊆+ g) as Hsub by (apply sublist_submseteq, sublist_filter).
  assert (∀ w', (∀ a, a ∈ addr <$> w' → a = addr x ∨ a ∈ addr <$> w) → NoDup (addr <$> w') → Forall entry_ok w' → (length w' ≤ P2P_LOCAL_WHITE_PEERLIST_LIMIT)%nat →
    lists_wf w' (filter (λ e, Is_true (negb (same x e))) g)) as Hmk.
  { intros w' Hin Hn Hok Hl. destruct (lists_wf_submseteq w g w _ Hwf ltac:(done) Hsub) as [H1 H2 H3 H4 H5 H6]. apply Forall_app in H4 as [_ H4].
    split; [done|done| |by apply Forall_app|done|done]. intros a [->|Ha]%Hin; [|by apply H3].
    intros (e & He & [Hs _]%list_elem_of_filter)%list_elem_of_fmap. apply Is_true_true in Hs. apply negb_true_iff in Hs. apply (proj2 (same_iff _ _)) in He. congruence. }
  pose proof Hwf as [H1 H2 H3 H4 H5 H6]. apply Forall_app in H4 as [H4 _]. unfold push_white. destruct (replace_first (same x) x w) as [w'|] eqn:Er.
  - apply replace_first_Some in Er as (a & y & b & -> & -> & Ha). pose proof (fmap_replaced addr a x y b (eq_sym Ha)) as Hf. apply Hmk.
    + rewrite Hf. auto.
    + by rewrite Hf.
    + apply Forall_app in H4 as [? [_ ?]%Forall_cons]. apply Forall_app. split; [done|by constructor].
    + rewrite length_app in *. exact H5.
  - apply replace_first_None in Er. pose proof (trim_submseteq key (w ++ [x]) P2P_LOCAL_WHITE_PEERLIST_LIMIT) as Ht. apply submseteq_Permutation in Ht as (r & Hr). apply Hmk.
    + intros a Ha. assert (a ∈ addr <$> (w ++ [x])) as Hin by (rewrite Hr, fmap_app; apply elem_of_app; by left). rewrite fmap_app in Hin. apply elem_of_app in Hin as [?|?%list_elem_of_singleton]; auto.
    + assert (NoDup (addr <$> (w ++ [x]))) as Hn; [|rewrite Hr, fmap_app in Hn; by apply NoDup_app in Hn as [? _]].
      rewrite fmap_app. apply NoDup_app. split; [done|]. split; [|apply NoDup_singleton]. intros a Ha ->%list_elem_of_singleton. done.
    + assert (Forall entry_ok (w ++ [x])) as Hall by (apply Forall_app; split; [done|by constructor]). rewrite Hr in Hall. by apply Forall_app in Hall as [? _].
    + apply trim_length.
Qed.

Lemma push_gray_wf w g x : lists_wf w g → entry_ok x → addr x ∉ addr <$> w → (addr x ∈ addr <$> g ∨ (group_size (net_group (ip x)) g < GRAY_PER_GROUP_LIMIT)%nat) →
  lists_wf w (push_gray g x) ∧ ∀ gr, group_size gr (push_gray g x) = (group_size gr g + if decide (addr x ∈ addr <$> g) then 0 else if decide (net_group (ip x) = gr) then 1 else 0)%nat.
Proof.
  intros [H1 H2 H3 H4 H5 H6] Hx Hw Hroom. apply Forall_app in H4 as [H4 H4']. unfold push_gray. destruct (replace_first (same x) x g) as [g'|] eqn:Er; cbn [from_option]; unfold id.
  - apply replace_first_Some in Er as (a & y & b & -> & -> & Ha). pose proof (fmap_replaced addr a x y b (eq_sym Ha)) as Hf.
    assert (∀ gr, group_size gr (a ++ x :: b) = group_size gr (a ++ y :: b)) as Hg by (intros gr; apply group_size_replaced; by apply addr_ip).
    assert (addr x ∈ addr <$> (a ++ y :: b)) as Hin by (rewrite fmap_app; apply elem_of_app; right; rewrite fmap_cons, Ha; left).
    split; [|intros gr; rewrite decide_True by done; rewrite Hg; lia]. split; [done|by rewrite Hf|intros z Hz; rewrite Hf; by apply H3| |done|intros gr; by rewrite Hg].
    apply Forall_app. split; [done|]. apply Forall_app in H4' as [? [_ ?]%Forall_cons]. apply Forall_app. split; [done|by constructor].
  - apply replace_first_None in Er. destruct Hroom as [?|Hroom]; [done|].
    assert (∀ gr, group_size gr (g ++ [x]) = (group_size gr g + if decide (net_group (ip x) = gr) then 1 else 0)%nat) as Hg.
    { intros gr. unfold group_size. rewrite filter_app, length_app, filter_cons. by destruct (decide _). }
    split; [|intros gr; by rewrite decide_False]. split; [done| | | |done|].
    + rewrite fmap_app. apply NoDup_app. split; [done|]. split; [|apply NoDup_singleton]. by intros a Ha ->%list_elem_of_singleton.
    + intros a Ha. rewrite fmap_app. intros [?|Hz%list_elem_of_singleton]%elem_of_app; [by apply (H3 a)|by subst].
    + apply Forall_app. split; [done|]. apply Forall_app. split; [done|by constructor].
    + intros gr. rewrite Hg. destruct (decide _) as [<-|]; [lia|]. specialize (H6 gr). lia.
Qed.

End Lists.

(** * The manager *)

Definition addr4 (e : PeerlistEntry) : bytes * Z := (p_ip e, p_port e).
Definition addr6 (e : PeerlistEntry6) : bytes * Z := (p6_ip e, p6_port e).
Definition ip6 (e : PeerlistEntry6) : IpAddr := V6 (p6_ip e).

Lemma same_addr4 a b : same a b = true ↔ addr4 a = addr4 b.
Proof. unfold same, addr4. rewrite andb_true_iff, bool_decide_eq_true, Z.eqb_eq. split; [by intros [-> ->]|by intros [= -> ->]]. Qed.
Lemma same_addr6 a b : same6 a b = true ↔ addr6 a = addr6 b.
Proof. unfold same6, addr6. rewrite andb_true_iff, bool_decide_eq_true, Z.eqb_eq. split; [by intros [-> ->]|by intros [= -> ->]]. Qed.
Lemma addr4_ip a b : addr4 a = addr4 b → ipv4_of a = ipv4_of b.
Proof. unfold addr4, ipv4_of. by intros [= -> _]. Qed.
Lemma addr6_ip a b : addr6 a = addr6 b → ip6 a = ip6 b.
Proof. unfold addr6, ip6. by intros [= -> _]. Qed.

Abbreviation wf4 pm := (lists_wf addr4 ipv4_of (pm_allow_local_ip pm) peer_ok).
Abbreviation wf6 pm := (lists_wf addr6 ip6 (pm_allow_local_ip pm) peer6_ok).

(** The lists hold well-typed, allowed entries of distinct addresses, none both white and
    gray, within the limits of the lists and, for gray ones, of the network groups. The
    table of scores is bounded and holds only scores short of a ban. *)
Record manager_ok (pm : PeerManager) : Prop := {
  mo_lists : wf4 pm (pm_white pm) (pm_gray pm);
  mo_lists6 : wf6 pm (pm_white6 pm) (pm_gray6 pm);
  mo_gray : (length (pm_gray pm) ≤ P2P_LOCAL_GRAY_PEERLIST_LIMIT)%nat;
  mo_gray6 : (length (pm_gray6 pm) ≤ P2P_LOCAL_GRAY_PEERLIST_LIMIT)%nat;
  mo_scores : (size (pm_scores pm) ≤ MAX_SCORED_ADDRESSES)%nat;
  mo_points : map_Forall (λ _ s, 0 ≤ s_points s < BAN_THRESHOLD) (pm_scores pm);
  mo_id : is_u64 (pm_peer_id pm) }.

Lemma with_lists_id pm : pm = with_lists pm (pm_white pm) (pm_gray pm) (pm_white6 pm) (pm_gray6 pm) (pm_dirty pm).
Proof. by destruct pm. Qed.

(** Changing the lists keeps the rest. *)
Lemma with_lists_ok pm w g w6 g6 d : manager_ok pm → wf4 pm w g → wf6 pm w6 g6 →
  (length g ≤ P2P_LOCAL_GRAY_PEERLIST_LIMIT)%nat → (length g6 ≤ P2P_LOCAL_GRAY_PEERLIST_LIMIT)%nat → manager_ok (with_lists pm w g w6 g6 d).
Proof. intros [H1 H2 H3 H4 H5 H6 H7] Hw Hw6 Hg Hg6. by split. Qed.

Lemma filter_length_le {A} (P : A → Prop) `{∀ x, Decision (P x)} l n : (length l ≤ n)%nat → (length (filter P l) ≤ n)%nat.
Proof. intros Hl. pose proof (length_filter P l). lia. Qed.

Lemma append_white_ok pm e : manager_ok pm → peer_ok e → manager_ok (append_white pm e).
Proof.
  intros Hpm He. pose proof Hpm as [H1 H2 H3 H4 _ _ _]. unfold append_white. destruct (ip_allowed (ipv4_of e) (pm_allow_local_ip pm)) eqn:Ea; [|done]. cbn [negb].
  pose proof (push_white_wf addr4 ipv4_of p_last_seen same same_addr4 _ peer_ok _ _ e H1 (conj He Ea)) as Hw. unfold push_white in Hw.
  destruct (replace_first (same e) e (pm_white pm)) as [w|]; (apply (with_lists_ok pm); [done|exact Hw| |by apply filter_length_le|done]); [done|].
  cbn. rewrite trim_id by apply H2. done.
Qed.

Lemma append_white6_ok pm e : manager_ok pm → peer6_ok e → manager_ok (append_white6 pm e).
Proof.
  intros Hpm He. pose proof Hpm as [H1 H2 H3 H4 _ _ _]. unfold append_white6. destruct (ip_allowed (V6 (p6_ip e)) (pm_allow_local_ip pm)) eqn:Ea; [|done]. cbn [negb].
  pose proof (push_white_wf addr6 ip6 p6_last_seen same6 same_addr6 _ peer6_ok _ _ e H2 (conj He Ea)) as Hw. unfold push_white in Hw.
  destruct (replace_first (same6 e) e (pm_white6 pm)) as [w|]; (apply (with_lists_ok pm); [done| |exact Hw|done|by apply filter_length_le]); [done|].
  cbn. rewrite trim_id by apply H1. done.
Qed.

(** ** Received lists *)

(** [counts] counts at least the gray entries of every group. *)
Definition counted {E} (ip : E → IpAddr) (counts : gmap NetGroup nat) (gray : list E) : Prop := ∀ g, (group_size ip g gray ≤ default 0 (counts !! g))%nat.

Lemma group_counts_counted {E} (ip : E → IpAddr) l : counted ip (group_counts (map ip l)) l.
Proof.
  intros g. unfold group_counts, group_size. rewrite <- (rev_involutive l). induction (rev l) as [|e r IH]; [done|]. cbn [rev]. rewrite map_app, foldl_app, filter_app, length_app. cbn [map foldl].
  rewrite filter_cons. destruct (decide (net_group (ip e) = g)) as [<-|Hne].
  - rewrite lookup_insert_eq. cbn in *. lia.
  - rewrite lookup_insert_ne by done. cbn in *. lia.
Qed.

Lemma admit_counted {E} (ip : E → IpAddr) counts gray a b counts' : counted ip counts gray → admit_to_group counts a = (b, counts') →
  counted ip counts' gray ∧
  (b = true → (group_size ip (net_group a) gray < GRAY_PER_GROUP_LIMIT)%nat ∧ ∀ g, (group_size ip g gray + (if decide (net_group a = g) then 1 else 0) ≤ default 0 (counts' !! g))%nat).
Proof.
  intros Hc. unfold admit_to_group. pose proof (Hc (net_group a)) as Ha. destruct (Nat.leb_spec GRAY_PER_GROUP_LIMIT (default 0%nat (counts !! net_group a))); intros [= <- <-].
  - split; [|done]. intros g. destruct (decide (net_group a = g)) as [<-|]; [by rewrite lookup_insert_eq|by rewrite lookup_insert_ne].
  - split.
    + intros g. destruct (decide (net_group a = g)) as [<-|]; [rewrite lookup_insert_eq; cbn; lia|by rewrite lookup_insert_ne].
    + intros _. split; [lia|]. intros g. destruct (decide (net_group a = g)) as [<-|]; [rewrite lookup_insert_eq; cbn; lia|]. rewrite lookup_insert_ne by done. specialize (Hc g). lia.
Qed.

Lemma append_gray_ok pm e : wf4 pm (pm_white pm) (pm_gray pm) → peer_ok e → addr4 e ∈ addr4 <$> pm_gray pm ∨ (group_size ipv4_of (net_group (ipv4_of e)) (pm_gray pm) < GRAY_PER_GROUP_LIMIT)%nat →
  ∃ gray d, append_gray pm e = with_lists pm (pm_white pm) gray (pm_white6 pm) (pm_gray6 pm) d ∧ wf4 pm (pm_white pm) gray ∧
  ∀ g, (group_size ipv4_of g gray ≤ group_size ipv4_of g (pm_gray pm) + if decide (addr4 e ∈ addr4 <$> pm_gray pm) then 0 else if decide (net_group (ipv4_of e) = g) then 1 else 0)%nat.
Proof.
  intros Hwf He Hroom. unfold append_gray.
  destruct (ip_allowed (ipv4_of e) (pm_allow_local_ip pm)) eqn:Ea; cbn [negb]; [|exists (pm_gray pm), (pm_dirty pm); split; [apply with_lists_id|split; [done|lia]]].
  destruct (existsb (same e) (pm_white pm)) eqn:Ew; [exists (pm_gray pm), (pm_dirty pm); split; [apply with_lists_id|split; [done|lia]]|].
  apply not_true_iff_false in Ew. rewrite (existsb_same addr4 same same_addr4) in Ew.
  destruct (push_gray_wf addr4 ipv4_of same same_addr4 addr4_ip _ peer_ok _ _ e Hwf (conj He Ea) Ew Hroom) as [H1 H2]. eexists _, _. split; [done|]. split; [exact H1|]. intros g. fold (push_gray same (pm_gray pm) e). rewrite H2. lia.
Qed.

Lemma append_gray6_ok pm e : wf6 pm (pm_white6 pm) (pm_gray6 pm) → peer6_ok e → addr6 e ∈ addr6 <$> pm_gray6 pm ∨ (group_size ip6 (net_group (ip6 e)) (pm_gray6 pm) < GRAY_PER_GROUP_LIMIT)%nat →
  ∃ gray d, append_gray6 pm e = with_lists pm (pm_white pm) (pm_gray pm) (pm_white6 pm) gray d ∧ wf6 pm (pm_white6 pm) gray ∧
  ∀ g, (group_size ip6 g gray ≤ group_size ip6 g (pm_gray6 pm) + if decide (addr6 e ∈ addr6 <$> pm_gray6 pm) then 0 else if decide (net_group (ip6 e) = g) then 1 else 0)%nat.
Proof.
  intros Hwf He Hroom. unfold append_gray6.
  destruct (ip_allowed (V6 (p6_ip e)) (pm_allow_local_ip pm)) eqn:Ea; cbn [negb]; [|exists (pm_gray6 pm), (pm_dirty pm); split; [apply with_lists_id|split; [done|lia]]].
  destruct (existsb (same6 e) (pm_white6 pm)) eqn:Ew; [exists (pm_gray6 pm), (pm_dirty pm); split; [apply with_lists_id|split; [done|lia]]|].
  apply not_true_iff_false in Ew. rewrite (existsb_same addr6 same6 same_addr6) in Ew.
  destruct (push_gray_wf addr6 ip6 same6 same_addr6 addr6_ip _ peer6_ok _ _ e Hwf (conj He Ea) Ew Hroom) as [H1 H2]. eexists _, _. split; [done|]. split; [exact H1|].
  intros g. fold (push_gray same6 (pm_gray6 pm) e). rewrite H2. lia.
Qed.

Lemma shift_bound t now s : is_u64 t → is_u64 now → is_u64 s → is_u64 (shift t now s) ∧ shift t now s ≤ now.
Proof. unfold shift, in_u, saturating_add, saturating_sub. intros. destruct (Z.leb_spec t now); lia. Qed.

Lemma merge_turn_ok t now pm counts e : is_u64 t → is_u64 now → wf4 pm (pm_white pm) (pm_gray pm) → counted ipv4_of counts (pm_gray pm) → peer_ok e →
  ∃ gray d counts', merge_turn t now (pm, counts) e = (with_lists pm (pm_white pm) gray (pm_white6 pm) (pm_gray6 pm) d, counts') ∧ wf4 pm (pm_white pm) gray ∧ counted ipv4_of counts' gray.
Proof.
  intros Ht Hnow Hwf Hc He. unfold merge_turn. set (e' := mkPeer _ _ _ _).
  assert (peer_ok e') as He' by (destruct He; split; [done|done|done|]; by apply shift_bound).
  destruct (existsb (same e') (pm_gray pm)) eqn:Ek.
  - apply (existsb_same addr4 same same_addr4) in Ek. destruct (append_gray_ok pm e' Hwf He' (or_introl Ek)) as (gray & d & -> & Hg & Hs). exists gray, d, counts. split; [done|]. split; [done|].
    intros g. specialize (Hs g). rewrite decide_True in Hs by done. specialize (Hc g). lia.
  - destruct (admit_to_group counts (ipv4_of e')) as [b counts'] eqn:Ead. destruct (admit_counted _ _ _ _ _ _ Hc Ead) as [Hc' Hb]. destruct b.
    + destruct (Hb eq_refl) as [Hroom Hcnt]. destruct (append_gray_ok pm e' Hwf He' (or_intror Hroom)) as (gray & d & -> & Hg & Hs). exists gray, d, counts'. split; [done|]. split; [done|].
      intros g. specialize (Hs g). specialize (Hcnt g). repeat destruct (decide _); first [lia|done].
    + exists (pm_gray pm), (pm_dirty pm), counts'. by rewrite <- with_lists_id.
Qed.

Lemma merge_turn6_ok now pm counts e : is_u64 now → wf6 pm (pm_white6 pm) (pm_gray6 pm) → counted ip6 counts (pm_gray6 pm) → peer6_ok e →
  ∃ gray d counts', merge_turn6 now (pm, counts) e = (with_lists pm (pm_white pm) (pm_gray pm) (pm_white6 pm) gray d, counts') ∧ wf6 pm (pm_white6 pm) gray ∧ counted ip6 counts' gray.
Proof.
  intros Hnow Hwf Hc He. unfold merge_turn6. set (e' := mkPeer6 _ _ _ _).
  assert (peer6_ok e') as He' by (destruct He; split; [done|done|done|]; unfold in_u in *; cbn; lia).
  destruct (existsb (same6 e') (pm_gray6 pm)) eqn:Ek.
  - apply (existsb_same addr6 same6 same_addr6) in Ek. destruct (append_gray6_ok pm e' Hwf He' (or_introl Ek)) as (gray & d & -> & Hg & Hs). exists gray, d, counts. split; [done|]. split; [done|].
    intros g. specialize (Hs g). rewrite decide_True in Hs by done. specialize (Hc g). lia.
  - destruct (admit_to_group counts (V6 (p6_ip e'))) as [b counts'] eqn:Ead. destruct (admit_counted _ _ _ _ _ _ Hc Ead) as [Hc' Hb]. destruct b.
    + destruct (Hb eq_refl) as [Hroom Hcnt]. destruct (append_gray6_ok pm e' Hwf He' (or_intror Hroom)) as (gray & d & -> & Hg & Hs). exists gray, d, counts'. split; [done|]. split; [done|].
      intros g. specialize (Hs g). specialize (Hcnt g). repeat destruct (decide _); first [lia|done].
    + exists (pm_gray6 pm), (pm_dirty pm), counts'. by rewrite <- with_lists_id.
Qed.

Lemma merge_fold_ok t now l pm counts : is_u64 t → is_u64 now → wf4 pm (pm_white pm) (pm_gray pm) → counted ipv4_of counts (pm_gray pm) → Forall peer_ok l →
  ∃ gray d, (foldl (merge_turn t now) (pm, counts) l).1 = with_lists pm (pm_white pm) gray (pm_white6 pm) (pm_gray6 pm) d ∧ wf4 pm (pm_white pm) gray.
Proof.
  intros Ht Hnow Hwf Hc Hl. revert pm counts Hwf Hc. induction Hl as [|e l He _ IH]; intros pm counts Hwf Hc.
  - exists (pm_gray pm), (pm_dirty pm). split; [apply with_lists_id|done].
  - cbn [foldl]. destruct (merge_turn_ok t now pm counts e) as (gray & d & counts' & -> & Hg & Hc'); [done..|]. destruct (IH (with_lists pm (pm_white pm) gray (pm_white6 pm) (pm_gray6 pm) d) counts' Hg Hc') as (gray' & d' & -> & Hg').
    by exists gray', d'.
Qed.

Lemma merge_fold6_ok now l pm counts : is_u64 now → wf6 pm (pm_white6 pm) (pm_gray6 pm) → counted ip6 counts (pm_gray6 pm) → Forall peer6_ok l →
  ∃ gray d, (foldl (merge_turn6 now) (pm, counts) l).1 = with_lists pm (pm_white pm) (pm_gray pm) (pm_white6 pm) gray d ∧ wf6 pm (pm_white6 pm) gray.
Proof.
  intros Hnow Hwf Hc Hl. revert pm counts Hwf Hc. induction Hl as [|e l He _ IH]; intros pm counts Hwf Hc.
  - exists (pm_gray6 pm), (pm_dirty pm). split; [apply with_lists_id|done].
  - cbn [foldl]. destruct (merge_turn6_ok now pm counts e) as (gray & d & counts' & -> & Hg & Hc'); [done..|]. destruct (IH (with_lists pm (pm_white pm) (pm_gray pm) (pm_white6 pm) gray d) counts' Hg Hc') as (gray' & d' & -> & Hg').
    by exists gray', d'.
Qed.

(** Trimming the gray lists of a manager that is fine but for their length. *)
Lemma trim_gray_ok pm w g w6 g6 d : manager_ok pm → wf4 pm w g → wf6 pm w6 g6 → manager_ok (trim_gray (with_lists pm w g w6 g6 d)).
Proof.
  intros Hpm Hw Hw6. apply (with_lists_ok pm); [done| | |apply trim_length|apply trim_length].
  - eapply lists_wf_submseteq; [exact Hw|done|apply trim_submseteq].
  - eapply lists_wf_submseteq; [exact Hw6|done|apply trim_submseteq].
Qed.

Lemma merge_peerlist_ok pm l t now : manager_ok pm → is_u64 t → is_u64 now → Forall peer_ok l → manager_ok (merge_peerlist pm l t now).2.
Proof.
  intros Hpm Ht Hnow Hl. unfold merge_peerlist. destruct (existsb _ _); [done|]. cbn [snd].
  destruct (merge_fold_ok t now (take MAX_PEERLIST_ENTRIES l) pm _ Ht Hnow (mo_lists _ Hpm) (group_counts_counted ipv4_of _) (Forall_take _ _ _ Hl)) as (gray & d & -> & Hg).
  apply trim_gray_ok; [done|done|apply Hpm].
Qed.

Lemma merge_peerlist6_ok pm l now : manager_ok pm → is_u64 now → Forall peer6_ok l → manager_ok (merge_peerlist6 pm l now).
Proof.
  intros Hpm Hnow Hl. unfold merge_peerlist6. change (map (λ e, V6 (p6_ip e)) (pm_gray6 pm)) with (map ip6 (pm_gray6 pm)).
  destruct (merge_fold6_ok now (take MAX_PEERLIST_ENTRIES l) pm _ Hnow (mo_lists6 _ Hpm) (group_counts_counted ip6 _) (Forall_take _ _ _ Hl)) as (gray & d & -> & Hg).
  apply trim_gray_ok; [done|apply Hpm|done].
Qed.

(** ** The other operations *)

(** A socket address of the system. *)
Definition socket_ok (a : SocketAddr) : Prop := is_u16 (sa_port a) ∧ match sa_ip a with V4 o => is_array 4 o | V6 o => is_array 16 o end.

Lemma with_failed_ok pm f : manager_ok pm → manager_ok (with_failed pm f).
Proof. by intros [H1 H2 H3 H4 H5 H6 H7]. Qed.

Lemma with_banned_ok pm b : manager_ok pm → manager_ok (with_banned pm b).
Proof. by intros [H1 H2 H3 H4 H5 H6 H7]. Qed.

Lemma with_scores_ok pm s : manager_ok pm → (size s ≤ MAX_SCORED_ADDRESSES)%nat → map_Forall (λ _ s, 0 ≤ s_points s < BAN_THRESHOLD) s → manager_ok (with_scores pm s).
Proof. intros [H1 H2 H3 H4 _ _ H7] Hs Hp. by split. Qed.

Lemma u16_u32 p : is_u16 p → is_u32 p.
Proof. unfold in_u. lia. Qed.

Lemma set_peer_just_seen_ok pm id a now : manager_ok pm → socket_ok a → is_u64 id → is_u64 now → manager_ok (set_peer_just_seen pm id a now).
Proof.
  intros Hpm [Hp Ha] Hid Hnow. apply with_failed_ok. destruct (sa_ip a) as [o|o]; [apply append_white_ok|apply append_white6_ok]; try done; by split; try apply u16_u32.
Qed.

Lemma add_command_line_peer_ok pm a id : manager_ok pm → socket_ok a → is_u64 id → manager_ok (add_command_line_peer pm a id).
Proof.
  intros Hpm [Hp Ha] Hid. unfold add_command_line_peer. destruct (sa_ip a) as [o|o]; (destruct (existsb _ _); [done|]); [apply append_white_ok|apply append_white6_ok]; try done; by split; try apply u16_u32.
Qed.

Lemma peerlist_head_ok pm depth : manager_ok pm → manager_ok (peerlist_head pm depth).2 ∧ manager_ok (peerlist6_head pm depth).2.
Proof.
  intros Hpm. pose proof Hpm as [H1 H2 H3 H4 _ _ _]. split; apply (with_lists_ok pm); try done.
  - eapply lists_wf_submseteq; [exact H1|by rewrite sort_desc_perm|done].
  - eapply lists_wf_submseteq; [exact H2|by rewrite sort_desc_perm|done].
Qed.

(** The order of a hash table lists its entries. *)
Class HashOrderLaws `{HashOrder} : Prop := { hash_order_perm : ∀ m, hash_order m ≡ₚ map_to_list m }.

Section Scores.
Context `{HashOrderLaws}.

Lemma stalest_Some l : l ≠ [] → ∃ ip, stalest l = Some ip ∧ ip ∈ l.*1.
Proof.
  intros Hl. destruct l as [|kv l]; [done|]. unfold stalest. cbn [foldl].
  assert (∀ best : IpAddr * Score, ∃ b, foldl (λ best kv, match best with Some b => if s_last kv.2 <? s_last b.2 then Some kv else best | None => Some kv end) (Some best) l = Some b ∧ (b = best ∨ b ∈ l)) as Hf.
  { clear Hl kv. induction l as [|kv l IH]; intros best; [by exists best; auto|]. cbn [foldl]. destruct (_ <? _).
    - destruct (IH kv) as (b & -> & [->|Hb]); (eexists; split; [done|]); right; [left|by right].
    - destruct (IH best) as (b & -> & [->|Hb]); (eexists; split; [done|]); [by left|right; by right]. }
  destruct (Hf kv) as (b & -> & Hb). exists b.1. split; [done|]. apply list_elem_of_fmap. exists b. split; [done|]. destruct Hb as [->|Hb]; [left|by right].
Qed.

Lemma make_room_spec now scores ip : (size scores ≤ MAX_SCORED_ADDRESSES)%nat →
  make_room now scores ip ⊆ scores ∧ (scores !! ip = None → size (make_room now scores ip) < MAX_SCORED_ADDRESSES)%nat ∧ (make_room now scores ip) !! ip = scores !! ip.
Proof.
  intros Hs. unfold make_room. destruct (scores !! ip) as [s|] eqn:Ei; [by rewrite bool_decide_eq_false_2|]. rewrite bool_decide_eq_true_2 by done. cbn [andb].
  destruct (Nat.leb_spec MAX_SCORED_ADDRESSES (size scores)); [|done]. assert (live_scores now scores ⊆ scores) as Hl by (apply map_filter_subseteq).
  assert ((live_scores now scores) !! ip = None) as Hn by (by apply map_lookup_filter_None_2; left).
  destruct (Nat.leb_spec MAX_SCORED_ADDRESSES (size (live_scores now scores))) as [Hfull|]; [|done].
  assert (hash_order (live_scores now scores) ≠ []) as Hne.
  { intros E. pose proof (hash_order_perm (live_scores now scores)) as Hp. rewrite E in Hp. apply Permutation_length in Hp. rewrite length_map_to_list in Hp. pose proof max_scored_pos. cbn in Hp. lia. }
  destruct (stalest_Some _ Hne) as (k & -> & Hk). rewrite (hash_order_perm (live_scores now scores)) in Hk. apply list_elem_of_fmap in Hk as ([k' s] & -> & Hk%elem_of_map_to_list). cbn [fst].
  split; [etrans; [apply delete_subseteq|done]|]. split.
  - intros _. assert (size (live_scores now scores) ≤ size scores)%nat by (by apply map_subseteq_size). rewrite map_size_delete_Some by (by eexists). pose proof max_scored_pos. lia.
  - apply lookup_delete_None. by right.
Qed.

Lemma penalise_ok now secs pm ip pts b pm' : manager_ok pm → 0 ≤ pts → penalise now secs pm ip pts = Some (b, pm') → manager_ok pm'.
Proof.
  intros Hpm Hp. pose proof Hpm as [_ _ _ _ H5 H6 _]. unfold penalise. destruct (make_room_spec now (pm_scores pm) ip H5) as (Hsub & Hsize & Hip). set (scores := make_room now (pm_scores pm) ip) in *.
  assert (map_Forall (λ _ s, 0 ≤ s_points s < BAN_THRESHOLD) scores) as H6' by (intros k s Hk; apply (H6 k s), (lookup_weaken _ _ _ _ Hk Hsub)).
  assert (size scores ≤ MAX_SCORED_ADDRESSES)%nat as H5' by (apply map_subseteq_size in Hsub; lia).
  set (held := if _ <? _ then 0 else _). assert (0 ≤ held) as Hh.
  { subst held. destruct (_ <? _); [lia|]. destruct (scores !! ip) as [s|] eqn:Es; cbn; [|lia]. apply (H6' ip s Es). }
  cbn [s_points]. destruct (Z.ltb_spec (saturating_add 32 held pts) BAN_THRESHOLD) as [Hlt|_].
  - intros [= <- <-]. apply with_scores_ok; [done|..].
    + destruct (pm_scores pm !! ip) as [s|] eqn:Es; [rewrite map_size_insert_Some by (by rewrite Hip); done|]. rewrite map_size_insert_None by done. specialize (Hsize eq_refl). lia.
    + apply map_Forall_insert_2; [cbn|done]. unfold saturating_add in *. lia.
  - unfold pm_ban. destruct (ban _ _ _ _ _) as [bans|]; [|done]. cbn. intros [= <- <-]. apply with_banned_ok, with_scores_ok; [done|..].
    + clear held Hh. clearbody scores. rewrite map_size_delete. destruct (scores !! ip); cbn; lia.
    + by apply map_Forall_delete.
Qed.

End Scores.

(** * The peer state file *)

(** [p] reads [a] from the bytes [w]. *)
Definition yields {A} (p : VarintReader A) (w : bytes) (a : A) : Prop := ∀ k, p (w ++ k) = Ok (a, k).

Lemma state_ret {A} (a : A) : yields (mret a) [] a.
Proof. done. Qed.

Lemma state_bind {A B} (p : VarintReader A) (f : A → VarintReader B) w1 w2 a b : yields p w1 a → yields (f a) w2 b → yields (p ≫= f) (w1 ++ w2) b.
Proof. intros H1 H2 k. unfold mbind, VarintReader_bind. rewrite <- app_assoc, H1. apply H2. Qed.

Lemma state_varint v : is_u64 v → yields r_varint (varint.encode v) v.
Proof.
  intros Hv k. unfold r_varint, varint.read. rewrite varint.read_bits_encode by (lia || done). by rewrite drop_app_length.
Qed.

Lemma state_u32 v : is_u32 v → yields r_u32 (varint.encode v) v.
Proof.
  intros Hv. rewrite <- (app_nil_r (varint.encode v)). eapply state_bind; [apply state_varint; unfold in_u in *; lia|]. assert (v <? 2 ^ 32 = true) as -> by (unfold in_u in Hv; lia). apply state_ret.
Qed.

Lemma state_raw16 o : length o = 16%nat → yields r_raw16 o o.
Proof. intros Ho k. unfold r_raw16. rewrite length_app, Ho. cbn [Nat.ltb Nat.leb]. by rewrite take_app_length', drop_app_length' by done. Qed.

Definition entry_bytes (e : PeerlistEntry) : bytes := varint.encode (from_le_bytes (p_ip e)) ++ varint.encode (p_port e) ++ varint.encode (p_id e) ++ varint.encode (p_last_seen e).
Definition entry_bytes6 (e : PeerlistEntry6) : bytes := p6_ip e ++ varint.encode (p6_port e) ++ varint.encode (p6_id e) ++ varint.encode (p6_last_seen e).

Lemma ip_u32 o : is_array 4 o → is_u32 (from_le_bytes o).
Proof. intros [Hb Hl]. pose proof (from_le_bytes_bound o Hb) as Hbd. rewrite Hl in Hbd. exact Hbd. Qed.

Lemma encode_entry_bytes out e : peer_ok e → encode_entry out e = out ++ entry_bytes e.
Proof.
  intros [Hip Hport Hid Hs]. unfold encode_entry, entry_bytes. pose proof (ip_u32 _ Hip). rewrite !varint.write_encode by (unfold in_u in *; lia). by rewrite <- !app_assoc.
Qed.

Lemma encode_entry6_bytes out e : peer6_ok e → encode_entry6 out e = out ++ entry_bytes6 e.
Proof. intros [Hip Hport Hid Hs]. unfold encode_entry6, entry_bytes6. rewrite !varint.write_encode by (unfold in_u in *; lia). by rewrite <- !app_assoc. Qed.

Lemma state_entry e : peer_ok e → yields r_entry (entry_bytes e) e.
Proof.
  intros [Hip Hport Hid Hs]. unfold r_entry, entry_bytes. eapply state_bind; [by apply state_u32, ip_u32|]. eapply state_bind; [by apply state_u32|].
  eapply state_bind; [by apply state_varint|]. rewrite <- (app_nil_r (varint.encode (p_last_seen e))). eapply state_bind; [by apply state_varint|].
  destruct Hip as [Hb Hl]. rewrite <- Hl, to_from_le_bytes by done. destruct e. apply state_ret.
Qed.

Lemma state_entry6 e : peer6_ok e → yields r_entry6 (entry_bytes6 e) e.
Proof.
  intros [[Hb Hl] Hport Hid Hs]. unfold r_entry6, entry_bytes6. eapply state_bind; [by apply state_raw16|]. eapply state_bind; [by apply state_u32|].
  eapply state_bind; [by apply state_varint|]. rewrite <- (app_nil_r (varint.encode (p6_last_seen e))). eapply state_bind; [by apply state_varint|]. destruct e. apply state_ret.
Qed.

Lemma state_list {A} (p : VarintReader A) enc l : Forall (λ a, yields p (enc a) a) l → yields (r_list p (length l)) (concat (map enc l)) l.
Proof.
  induction 1 as [|a l Ha _ IH]; [apply state_ret|]. cbn [length r_list map concat]. eapply state_bind; [exact Ha|]. rewrite <- (app_nil_r (concat _)). eapply state_bind; [exact IH|]. apply state_ret.
Qed.

Lemma concat_length_ge {A} (enc : A → bytes) m l : Forall (λ a, m ≤ length (enc a))%nat l → (length l * m ≤ length (concat (map enc l)))%nat.
Proof. induction 1 as [|a l Ha _ IH]; [done|]. cbn [length map concat]. rewrite length_app. lia. Qed.

(** A counted list, which the limits let pass. *)
Lemma state_counted {A} (p : VarintReader A) enc (m : nat) limit l : Forall (λ a, yields p (enc a) a ∧ (m ≤ length (enc a))%nat) l → (length l ≤ limit)%nat → Z.of_nat limit * Z.of_nat m < 2 ^ 64 → (1 ≤ m)%nat →
  yields (n ← r_count (Z.of_nat m) limit; r_list p n) (varint.encode (Z.of_nat (length l)) ++ concat (map enc l)) l.
Proof.
  intros Hl Hlim Hbig Hm. assert (is_u64 (Z.of_nat (length l))) as Hu by (unfold in_u; nia).
  assert (length l * m ≤ length (concat (map enc l)))%nat as Hlen by (apply concat_length_ge; eapply Forall_impl; [exact Hl|]; by intros a [_ ?]).
  intros k. rewrite <- app_assoc. unfold mbind at 1, VarintReader_bind at 1, r_count, mbind at 1, VarintReader_bind at 1. rewrite (state_varint _ Hu). unfold mbind, VarintReader_bind, r_remaining. rewrite length_app.
  assert ((Z.of_nat limit <? Z.of_nat (length l)) || (Z.of_nat (length (concat (map enc l)) + length k) <? saturating_mul 64 (Z.of_nat (length l)) (Z.of_nat m)) = false) as ->.
  { apply orb_false_iff. unfold saturating_mul. split; apply Z.ltb_ge; nia. }
  unfold mret, VarintReader_ret. rewrite Nat2Z.id. apply state_list. eapply Forall_impl; [exact Hl|]. by intros a [? _].
Qed.

Lemma foldl_entries l out : Forall peer_ok l → (length l ≤ 5000)%nat → foldl encode_entry (varint.write out (Z.of_nat (length l))) l = out ++ varint.encode (Z.of_nat (length l)) ++ concat (map entry_bytes l).
Proof.
  intros Hl Hlen. rewrite varint.write_encode by (unfold in_u; lia). rewrite app_assoc. generalize (out ++ varint.encode (Z.of_nat (length l))) as o. clear Hlen out.
  induction Hl as [|e l He _ IH]; intros o; [by rewrite app_nil_r|]. cbn [foldl map concat]. by rewrite IH, encode_entry_bytes, <- app_assoc.
Qed.

Lemma foldl_entries6 l out : Forall peer6_ok l → (length l ≤ 5000)%nat → foldl encode_entry6 (varint.write out (Z.of_nat (length l))) l = out ++ varint.encode (Z.of_nat (length l)) ++ concat (map entry_bytes6 l).
Proof.
  intros Hl Hlen. rewrite varint.write_encode by (unfold in_u; lia). rewrite app_assoc. generalize (out ++ varint.encode (Z.of_nat (length l))) as o. clear Hlen out.
  induction Hl as [|e l He _ IH]; intros o; [by rewrite app_nil_r|]. cbn [foldl map concat]. by rewrite IH, encode_entry6_bytes, <- app_assoc.
Qed.

Lemma varint_pos v : is_u64 v → (1 ≤ length (varint.encode v))%nat.
Proof. intros Hv. apply varint.encode_length. unfold in_u in Hv. lia. Qed.

#[local] Transparent P2P_LOCAL_GRAY_PEERLIST_LIMIT P2P_LOCAL_WHITE_PEERLIST_LIMIT.

Lemma state_entries l : Forall peer_ok l → (length l ≤ 5000)%nat → yields r_entries (varint.encode (Z.of_nat (length l)) ++ concat (map entry_bytes l)) l.
Proof.
  intros Hl Hlen. apply (state_counted _ _ 4 5000); [|done|lia|lia]. eapply Forall_impl; [exact Hl|]. intros e He. split; [by apply state_entry|]. destruct He as [Hip Hport Hid Hs].
  unfold entry_bytes. rewrite !length_app. pose proof (ip_u32 _ Hip) as Hu. assert (∀ v, is_u32 v → is_u64 v) as Hw by (unfold in_u; lia).
  pose proof (varint_pos _ (Hw _ Hu)). pose proof (varint_pos _ (Hw _ Hport)). pose proof (varint_pos _ Hid). pose proof (varint_pos _ Hs). lia.
Qed.

Lemma state_entries6 l : Forall peer6_ok l → (length l ≤ 5000)%nat → yields r_entries6 (varint.encode (Z.of_nat (length l)) ++ concat (map entry_bytes6 l)) l.
Proof.
  intros Hl Hlen. apply (state_counted _ _ 19 5000); [|done|lia|lia]. eapply Forall_impl; [exact Hl|]. intros e He. split; [by apply state_entry6|]. destruct He as [[_ Hip] Hport Hid Hs].
  unfold entry_bytes6. rewrite !length_app, Hip. assert (is_u64 (p6_port e)) as Hp by (unfold in_u in *; lia). pose proof (varint_pos _ Hp). pose proof (varint_pos _ Hid). pose proof (varint_pos _ Hs). lia.
Qed.

(** The lists and the id as the file holds them. *)
Record storable (pm : PeerManager) : Prop := {
  st_4 : Forall peer_ok (pm_white pm) ∧ Forall peer_ok (pm_gray pm);
  st_6 : Forall peer6_ok (pm_white6 pm) ∧ Forall peer6_ok (pm_gray6 pm);
  st_white : (length (pm_white pm) ≤ 1000)%nat ∧ (length (pm_white6 pm) ≤ 1000)%nat;
  st_gray : (length (pm_gray pm) ≤ 5000)%nat ∧ (length (pm_gray6 pm) ≤ 5000)%nat;
  st_id : is_u64 (pm_peer_id pm) }.

Lemma manager_storable pm : manager_ok pm → storable pm.
Proof.
  intros [[_ _ _ H1 H1w _] [_ _ _ H2 H2w _] H3 H4 _ _ H7]. apply Forall_app in H1 as [Ha Hb], H2 as [Hc Hd].
  split; [split|split|done|done|done]; (eapply Forall_impl; [eassumption|]); by intros e [? _].
Qed.

Lemma state_bytes pm : storable pm → encode pm = varint.encode 1 ++ varint.encode 2 ++
  (varint.encode (Z.of_nat (length (pm_white pm))) ++ concat (map entry_bytes (pm_white pm))) ++ (varint.encode (Z.of_nat (length (pm_gray pm))) ++ concat (map entry_bytes (pm_gray pm))) ++
  ((varint.encode (Z.of_nat (length (pm_white6 pm))) ++ concat (map entry_bytes6 (pm_white6 pm))) ++ (varint.encode (Z.of_nat (length (pm_gray6 pm))) ++ concat (map entry_bytes6 (pm_gray6 pm)))) ++
  varint.encode (pm_peer_id pm).
Proof.
  intros [[Hw Hg] [Hw6 Hg6] [Lw Lw6] [Lg Lg6] Hid]. unfold encode. cbn [foldl]. rewrite (varint.write_encode _ (pm_peer_id pm)) by done. rewrite !foldl_entries6, !foldl_entries by (done || lia).
  rewrite <- !app_assoc. done.
Qed.

(** The state file reads back what was written: the lists and the id, into any manager. *)
Lemma state_roundtrip pm0 pm : storable pm → decode pm0 (encode pm) =
  Ok (mkPM (pm_peer_id pm) (pm_white pm) (pm_gray pm) (pm_white6 pm) (pm_gray6 pm) (pm_allow_local_ip pm0) (pm_failed pm0) (pm_banned pm0) (pm_scores pm0) (pm_anchors pm0) (pm_seeds pm0) (pm_dirty pm0)).
Proof.
  intros Hst. pose proof Hst as [[Hw Hg] [Hw6 Hg6] [Lw Lw6] [Lg Lg6] Hid]. unfold decode. rewrite (state_bytes _ Hst).
  assert (yields (r_state (pm_peer_id pm0)) (varint.encode 1 ++ varint.encode 2 ++
    (varint.encode (Z.of_nat (length (pm_white pm))) ++ concat (map entry_bytes (pm_white pm))) ++ (varint.encode (Z.of_nat (length (pm_gray pm))) ++ concat (map entry_bytes (pm_gray pm))) ++
    ((varint.encode (Z.of_nat (length (pm_white6 pm))) ++ concat (map entry_bytes6 (pm_white6 pm))) ++ (varint.encode (Z.of_nat (length (pm_gray6 pm))) ++ concat (map entry_bytes6 (pm_gray6 pm)))) ++
    varint.encode (pm_peer_id pm)) (Some (pm_white pm, pm_gray pm, pm_white6 pm, pm_gray6 pm, pm_peer_id pm))) as Hy.
  { eapply state_bind; [by apply (state_varint 1)|]. cbn [Z.eqb Pos.eqb negb]. eapply state_bind; [by apply (state_varint 2)|]. cbn [Z.ltb Z.compare Pos.compare Pos.compare_cont].
    eapply state_bind; [apply state_entries; [done|lia]|]. eapply state_bind; [by apply state_entries|].
    eapply state_bind.
    { change (2 <=? 2) with true. cbv iota. rewrite <- (app_nil_r (_ ++ concat (map entry_bytes6 (pm_gray6 pm)))). eapply state_bind; [apply state_entries6; [done|lia]|]. eapply state_bind; [by apply state_entries6|]. apply state_ret. }
    cbv beta iota. rewrite <- (app_nil_r (varint.encode (pm_peer_id pm))). eapply state_bind; [|apply state_ret]. intros k. unfold r_id. by rewrite (state_varint _ Hid). }
  specialize (Hy []). rewrite app_nil_r in Hy. rewrite Hy. unfold trim_white, trim_gray, with_lists. cbn. by rewrite !trim_id by done.
Qed.

(** * Runs of the manager *)

(** What the node does with its manager: peers it has met or is told of, lists it receives
    (as the parsers return them) and sends, penalties, bans of the console, failed dials,
    clean-up, and a restart from the file it has written, with whatever bans and anchors
    the other files hold. *)
Inductive peer_step `{HashOrder} : PeerManager → PeerManager → Prop :=
| step_seen pm id a now : socket_ok a → is_u64 id → is_u64 now → peer_step pm (set_peer_just_seen pm id a now)
| step_command_line pm a id : socket_ok a → is_u64 id → peer_step pm (add_command_line_peer pm a id)
| step_merge pm l t now : is_u64 t → is_u64 now → Forall peer_ok l → peer_step pm (merge_peerlist pm l t now).2
| step_merge6 pm l now : is_u64 now → Forall peer6_ok l → peer_step pm (merge_peerlist6 pm l now)
| step_head pm depth : peer_step pm (peerlist_head pm depth).2
| step_head6 pm depth : peer_step pm (peerlist6_head pm depth).2
| step_penalise pm now secs ip o b pm' : penalise now secs pm ip (points o) = Some (b, pm') → peer_step pm pm'
| step_ban pm now secs ip seconds pm' : pm_ban now secs pm ip seconds = Some pm' → peer_step pm pm'
| step_unban pm ip : peer_step pm (with_banned pm (unban (pm_banned pm) ip).2)
| step_failure pm now a pm' : note_dial_failure now pm a = Some pm' → peer_step pm pm'
| step_expire pm now : peer_step pm (expire now pm)
| step_restart pm id banned anchors pm' : decode (new id (pm_allow_local_ip pm)) (encode pm) = Ok pm' →
    peer_step pm (mkPM (pm_peer_id pm') (pm_white pm') (pm_gray pm') (pm_white6 pm') (pm_gray6 pm') (pm_allow_local_ip pm') (pm_failed pm') banned (pm_scores pm') anchors (pm_seeds pm') (pm_dirty pm')).

Lemma new_manager_ok id allow : is_u64 id → manager_ok (new id allow).
Proof.
  intros Hid. assert (∀ g, group_size ipv4_of g [] = 0%nat ∧ group_size ip6 g [] = 0%nat) as Hz by done.
  split; cbn; try lia; [split; cbn; try constructor; try lia|split; cbn; try constructor; try lia| | |done]; try (intros; by apply not_elem_of_nil); try (intros g; destruct (Hz g); lia).
  - rewrite map_size_empty. lia.
  - by apply map_Forall_empty.
Qed.

Lemma peer_step_ok `{HashOrderLaws} pm pm' : peer_step pm pm' → manager_ok pm → manager_ok pm'.
Proof.
  destruct 1 as [| | | |pm depth|pm depth|pm now secs ip o b pm' Hp|pm now secs ip seconds pm' Hb|pm ip|pm now a pm' Hd|pm now|pm id banned anchors pm' Hr]; intros Hpm.
  - by apply set_peer_just_seen_ok.
  - by apply add_command_line_peer_ok.
  - by apply merge_peerlist_ok.
  - by apply merge_peerlist6_ok.
  - by apply (peerlist_head_ok pm depth).
  - by apply (peerlist_head_ok pm depth).
  - assert (0 ≤ points o) as Ho by (by destruct o). by eapply penalise_ok.
  - unfold pm_ban in Hb. destruct (ban _ _ _ _ _); [|done]. injection Hb as <-. by apply with_banned_ok.
  - by apply with_banned_ok.
  - unfold note_dial_failure in Hd. destruct (instant_add _ _); [|done]. injection Hd as <-. by apply with_failed_ok.
  - pose proof Hpm as [_ _ _ _ Hs Hf _]. unfold expire, live_scores. apply with_scores_ok; [by apply with_banned_ok, with_failed_ok| |].
    + etrans; [apply map_subseteq_size, map_filter_subseteq|done].
    + intros k s Hk. apply map_lookup_filter_Some in Hk as [Hk _]. by apply (Hf k s).
  - rewrite (state_roundtrip _ _ (manager_storable _ Hpm)) in Hr. injection Hr as <-. cbn. destruct Hpm as [H1 H2 H3 H4 _ _ H7]. split; cbn; [done|done|done|done| |by apply map_Forall_empty|done].
    rewrite map_size_empty. lia.
Qed.


Module ToyPeers.

#[export] Instance order : HashOrder := {| hash_order := map_to_list |}.
#[export] Instance order_laws : HashOrderLaws.
Proof. by split. Qed.

(** Twenty addresses of one network group, and one of another. *)
Definition offered : list PeerlistEntry := map (λ i, mkPeer [46; 1; 0; Z.of_nat i] 17855 7 900) (seq 1 20) ++ [mkPeer [85; 2; 0; 1] 17855 8 900].
Definition met : PeerManager := set_peer_just_seen (new 5 false) 9 (mkAddr (V4 [46; 1; 0; 3]) 17855) 1000.
Definition told : PeerManager := (merge_peerlist met offered 1000 1000).2.

Lemma offered_ok : Forall peer_ok offered.
Proof. apply Forall_forall. intros e He. vm_compute in He. repeat (apply elem_of_cons in He as [->|He]; [split; [split; [repeat constructor|done]|..]; done|]). by apply elem_of_nil in He. Qed.

Lemma told_run : rtc peer_step (new 5 false) told.
Proof.
  eapply rtc_l; [apply (step_seen (new 5 false) 9 (mkAddr (V4 [46; 1; 0; 3]) 17855) 1000); [split; [done|split; [by repeat constructor|done]]|done|done]|].
  apply rtc_once. apply (step_merge met offered 1000 1000); [done|done|exact offered_ok].
Qed.

End ToyPeers.
Import (hints) ToyPeers.


(** An IPv4-mapped loopback address counts as a public one, though its group is that of the
    loopback address. *)
Example mapped_loopback_allowed : let mapped := V6 (replicate 10 0 ++ [0xff; 0xff; 127; 0; 0; 1]) in
  ip_allowed mapped false = true ∧ ip_allowed (V4 [127; 0; 0; 1]) true = false ∧ net_group mapped = Local_ (V4 [127; 0; 0; 1]).
Proof. by vm_compute. Qed.

(** * Dialling *)

Lemma swap_perm {A} (l : list A) i j : Rng.swap l i j ≡ₚ l.
Proof.
  unfold Rng.swap. destruct (l !! i) as [a|] eqn:Ei; [|done]. destruct (l !! j) as [b|] eqn:Ej; [|done]. by apply Permutation_insert_swap.
Qed.

Lemma shuffle_perm {A} seed (l : list A) : (Rng.shuffle seed l).1 ≡ₚ l.
Proof.
  unfold Rng.shuffle. generalize (length l - 1)%nat as i. intros i. revert seed l. induction i as [|i IH]; intros seed l; [done|]. cbn [Rng.shuffle_loop].
  destruct (Rng.next seed) as [x seed']. rewrite IH. apply swap_perm.
Qed.

Section Dial.
Context (covered : gset NetGroup).

Abbreviation group a := (net_group (sa_ip a)).

(** Addresses of distinct groups, none of which was covered; [groups] are those taken. *)
Record spread (out : list SocketAddr) (groups : gset NetGroup) : Prop := {
  sp_groups : groups = list_to_set (map (λ a, group a) out) ∪ covered;
  sp_nodup : NoDup (map (λ a, group a) out);
  sp_fresh : ∀ a, a ∈ out → group a ∉ covered }.

Lemma take_candidates_spec src limit out groups out' groups' : spread out groups → take_candidates src limit out groups = (out', groups') →
  spread out' groups' ∧ (∃ more, out' = out ++ more ∧ ∀ a, a ∈ more → a ∈ src) ∧ ((length out ≤ limit)%nat → (length out' ≤ limit)%nat) ∧
  groups ⊆ groups' ∧ ((length out' < limit)%nat → ∀ a, a ∈ src → group a ∈ groups').
Proof.
  revert out groups. induction src as [|a src IH]; intros out groups Hsp; cbn [take_candidates].
  { intros [= <- <-]. split; [done|]. split; [exists []; split; [by rewrite app_nil_r|done]|]. split; [done|]. split; [done|]. intros _ a Ha. by apply elem_of_nil in Ha. }
  destruct (Nat.leb_spec limit (length out)) as [Hfull|Hroom].
  { intros [= <- <-]. split; [done|]. split; [exists []; split; [by rewrite app_nil_r|intros b Hb; by apply elem_of_nil in Hb]|]. split; [done|]. split; [done|]. lia. }
  destruct (bool_decide (a ∉ out) && bool_decide (group a ∉ groups)) eqn:Et.
  - apply andb_true_iff in Et as [Ha%bool_decide_eq_true Hg%bool_decide_eq_true]. assert (spread (out ++ [a]) ({[group a]} ∪ groups)) as Hsp'.
    { destruct Hsp as [-> Hn Hf]. rewrite not_elem_of_union in Hg. destruct Hg as [Hg1 Hg2]. split.
      - rewrite map_app, list_to_set_app_L. cbn. set_solver.
      - rewrite map_app. apply NoDup_app. split; [done|]. split; [|apply NoDup_singleton]. intros g Hin ->%list_elem_of_singleton. apply Hg1. by apply elem_of_list_to_set.
      - intros b [Hb|Hb%list_elem_of_singleton]%elem_of_app; [by apply Hf|by subst b]. }
    intros Ht. destruct (IH _ _ Hsp' Ht) as (H1 & (more & -> & Hm) & H3 & H4 & H5). split; [done|]. split; [exists (a :: more); split; [by rewrite <- app_assoc|]|].
    { intros b [->|Hb]%elem_of_cons; [left|right; by apply Hm]. }
    split; [intros _; apply H3; rewrite length_app; cbn; lia|]. split; [set_solver|]. intros Hl b [->|Hb]%elem_of_cons; [set_solver|by apply H5].
  - intros Ht. destruct (IH _ _ Hsp Ht) as (H1 & (more & -> & Hm) & H3 & H4 & H5). split; [done|]. split; [exists more; split; [done|intros b Hb; right; by apply Hm]|]. split; [done|]. split; [done|].
    intros Hl b [->|Hb]%elem_of_cons; [|by apply H5]. apply H4. apply andb_false_iff in Et as [Ha%bool_decide_eq_false|Hg%bool_decide_eq_false].
    + assert (a ∈ out) as Hin by (by destruct (decide (a ∈ out))). destruct Hsp as [-> _ _]. apply elem_of_union_l, elem_of_list_to_set, list_elem_of_fmap. by exists a.
    + by destruct (decide (group a ∈ groups)).
Qed.

End Dial.

Lemma take_seeds_spec src want out : NoDup out → (length out ≤ want)%nat →
  ∃ more, take_seeds src want out = out ++ more ∧ NoDup (out ++ more) ∧ (length (out ++ more) ≤ want)%nat ∧ (∀ a, a ∈ more → a ∈ src) ∧
  ((length (out ++ more) < want)%nat → ∀ a, a ∈ src → a ∈ out ++ more).
Proof.
  revert out. induction src as [|a src IH]; intros out Hn Hl; cbn [take_seeds].
  { exists []. rewrite app_nil_r. split_and!; [done|done|done|done|]. intros _ a Ha. by apply elem_of_nil in Ha. }
  destruct (Nat.leb_spec want (length out)) as [Hfull|Hroom].
  { exists []. rewrite app_nil_r. split_and!; [done|done|done|intros b Hb; by apply elem_of_nil in Hb|lia]. }
  destruct (decide (a ∉ out)) as [Ha|Ha].
  - rewrite bool_decide_eq_true_2 by done. destruct (IH (out ++ [a])) as (more & -> & Hn' & Hl' & Hm & Hc).
    { apply NoDup_app. split; [done|]. split; [|apply NoDup_singleton]. by intros b Hb ->%list_elem_of_singleton. }
    { rewrite length_app. cbn. lia. }
    exists (a :: more). rewrite <- app_assoc in *. cbn [app] in *. split_and!; [done|done|done|intros b [->|Hb]%elem_of_cons; [left|right; by apply Hm]|].
    intros Hlt b [->|Hb]%elem_of_cons; [apply elem_of_app; right; left|by apply Hc].
  - rewrite bool_decide_eq_false_2 by done. destruct (IH out Hn Hl) as (more & -> & Hn' & Hl' & Hm & Hc). exists more. split_and!; [done|done|done|intros b Hb; right; by apply Hm|].
    intros Hlt b [->|Hb]%elem_of_cons; [|by apply Hc]. apply elem_of_app. left. by destruct (decide (a ∈ out)).
Qed.

(** The three rounds over the shuffled lists. *)
Lemma three_takes covered w g target want out1 groups1 out2 groups2 out groups :
  take_candidates w (Nat.min target want) [] covered = (out1, groups1) → take_candidates g want out1 groups1 = (out2, groups2) → take_candidates w want out2 groups2 = (out, groups) →
  spread covered out groups ∧ (length out ≤ want)%nat ∧ (∀ a, a ∈ out → a ∈ w ∨ a ∈ g) ∧ ((length out < want)%nat → ∀ a, a ∈ w ∨ a ∈ g → net_group (sa_ip a) ∈ groups).
Proof.
  intros E1 E2 E3. assert (spread covered [] covered) as Hsp0 by (split; [set_solver|constructor|intros a Ha; by apply elem_of_nil in Ha]).
  destruct (take_candidates_spec covered _ _ _ _ _ _ Hsp0 E1) as (Hsp1 & (m1 & -> & Hm1) & Hl1 & _ & _). cbn [app length] in *.
  destruct (take_candidates_spec covered _ _ _ _ _ _ Hsp1 E2) as (Hsp2 & (m2 & -> & Hm2) & Hl2 & Hg2 & Hc2).
  destruct (take_candidates_spec covered _ _ _ _ _ _ Hsp2 E3) as (Hsp3 & (m3 & -> & Hm3) & Hl3 & Hg3 & Hc3).
  split; [done|]. split; [apply Hl3, Hl2; specialize (Hl1 ltac:(lia)); lia|]. split.
  - intros a [[Ha|Ha]%elem_of_app|Ha]%elem_of_app; auto.
  - intros Hlt a [Ha|Ha]; [by apply Hc3|]. apply Hg3, Hc2; [|done]. rewrite length_app in Hlt. lia.
Qed.

Definition outbound_groups (outbound : list SocketAddr) : gset NetGroup := list_to_set (map (λ a, net_group (sa_ip a)) outbound).

Lemma elem_of_outbound_groups g outbound : g ∈ outbound_groups outbound ↔ ∃ b, b ∈ outbound ∧ g = net_group (sa_ip b).
Proof. unfold outbound_groups. rewrite elem_of_list_to_set, list_elem_of_fmap. naive_solver. Qed.

Lemma elem_of_dialable now pm busy l a seed : a ∈ (Rng.shuffle seed (filter (λ a, Is_true (dialable now pm a busy)) l)).1 ↔ a ∈ l ∧ dialable now pm a busy = true.
Proof. rewrite shuffle_perm, list_elem_of_filter, Is_true_true. naive_solver. Qed.

(** C30. Whatever the random numbers, the addresses to dial are at most [want], distinct, and
    each may be dialled: not busy, not banned, not backing off, allowed. They are addresses of
    the lists, of pairwise different network groups that no outbound connection covers, and
    then seeds, which are taken only when the lists have no more such address. When fewer than
    [want] are found, every group of a dialable listed address is covered and every dialable
    seed is among them. *)
Theorem dial_candidates_spec now seed pm want busy outbound : let out := dial_candidates_for now seed pm want busy outbound in
  let listed a := a ∈ white_addresses pm ++ gray_addresses pm in
  (length out ≤ want)%nat ∧ NoDup out ∧ (∀ a, a ∈ out → dialable now pm a busy = true) ∧
  ∃ picked seeds, out = picked ++ seeds ∧ (∀ a, a ∈ picked → listed a) ∧ (∀ a, a ∈ seeds → a ∈ pm_seeds pm) ∧
    NoDup (map (λ a, net_group (sa_ip a)) picked) ∧ (∀ a b, a ∈ picked → b ∈ outbound → net_group (sa_ip a) ≠ net_group (sa_ip b)) ∧
    ((length picked < want)%nat → ∀ a, listed a → dialable now pm a busy = true → ∃ b, b ∈ picked ++ outbound ∧ net_group (sa_ip a) = net_group (sa_ip b)) ∧
    ((length picked < want)%nat ∨ seeds = []) ∧
    ((length out < want)%nat → ∀ a, a ∈ pm_seeds pm → dialable now pm a busy = true → a ∈ out).
Proof.
  cbv zeta. unfold dial_candidates_for. destruct (Nat.eqb_spec want 0) as [->|Hw].
  { split; [done|]. split; [constructor|]. split; [intros a Ha; by apply elem_of_nil in Ha|]. exists [], []. split; [done|]. split_and!; try (intros a Ha; by apply elem_of_nil in Ha); try (cbn; lia); [constructor|intros a b Ha; by apply elem_of_nil in Ha|by right]. }
  set (white := filter _ (white_addresses pm)). set (gray := filter _ (gray_addresses pm)).
  destruct (Rng.shuffle seed white) as [w rng] eqn:Ew. destruct (Rng.shuffle rng gray) as [g rng'] eqn:Eg. fold (outbound_groups outbound).
  destruct (take_candidates w _ [] _) as [out1 groups1] eqn:E1. destruct (take_candidates g want out1 groups1) as [out2 groups2] eqn:E2. destruct (take_candidates w want out2 groups2) as [out groups] eqn:E3.
  assert (∀ a, a ∈ w ↔ a ∈ white_addresses pm ∧ dialable now pm a busy = true) as Hinw by (intros a; rewrite <- (elem_of_dialable now pm busy _ a seed); unfold white in Ew; by rewrite Ew).
  assert (∀ a, a ∈ g ↔ a ∈ gray_addresses pm ∧ dialable now pm a busy = true) as Hing by (intros a; rewrite <- (elem_of_dialable now pm busy _ a rng); unfold gray in Eg; by rewrite Eg).
  destruct (three_takes _ _ _ _ _ _ _ _ _ _ _ E1 E2 E3) as ([Hgr Hnd Hfr] & Hlen & Hin & Hall). clear E1 E2 E3.
  assert (∀ a, a ∈ out → a ∈ white_addresses pm ++ gray_addresses pm ∧ dialable now pm a busy = true) as Hout by (intros a Ha; rewrite elem_of_app; destruct (Hin a Ha) as [[? ?]%Hinw|[? ?]%Hing]; auto).
  assert (∀ a b, a ∈ out → b ∈ outbound → net_group (sa_ip a) ≠ net_group (sa_ip b)) as Hnew by (intros a b Ha Hb Heq; apply (Hfr a Ha); apply elem_of_outbound_groups; by exists b).
  assert ((length out < want)%nat → ∀ a, a ∈ white_addresses pm ++ gray_addresses pm → dialable now pm a busy = true → ∃ b, b ∈ out ++ outbound ∧ net_group (sa_ip a) = net_group (sa_ip b)) as Hcov.
  { intros Hlt a Ha Hd. assert (net_group (sa_ip a) ∈ groups) as Hg by (apply Hall; [done|]; rewrite elem_of_app in Ha; destruct Ha; [left; by apply Hinw|right; by apply Hing]).
    rewrite Hgr, elem_of_union, elem_of_list_to_set, list_elem_of_fmap, elem_of_outbound_groups in Hg. destruct Hg as [(b & Hb & Hin')|(b & Hin' & Hb)]; exists b; rewrite elem_of_app; auto. }
  apply NoDup_fmap_1 in Hnd as Hnd'. destruct (Nat.ltb_spec (length out) want) as [Hlt|Hge].
  - destruct (take_seeds_spec (Rng.shuffle rng' (filter (λ a, Is_true (dialable now pm a busy)) (pm_seeds pm))).1 want out Hnd' Hlen) as (more & -> & Hn & Hl & Hm & Hc).
    split; [done|]. split; [done|]. split; [intros a [Ha|Ha]%elem_of_app; [by apply Hout|by apply Hm, elem_of_dialable in Ha as [_ ?]]|].
    exists out, more. split; [done|]. split; [intros a Ha; by apply Hout|]. split; [intros a Ha; by apply Hm, elem_of_dialable in Ha as [? _]|]. split; [done|]. split; [done|]. split; [done|].
    split; [by left|]. intros Hl' a Ha Hd. apply Hc; [done|]. by apply elem_of_dialable.
  - split; [done|]. split; [done|]. split; [intros a Ha; by apply Hout|]. exists out, []. split; [by rewrite app_nil_r|]. split; [intros a Ha; by apply Hout|].
    split; [intros a Ha; by apply elem_of_nil in Ha|]. split; [done|]. split; [done|]. split; [done|]. split; [by right|]. lia.
Qed.
