(* ===== verification/PeersBans.v ===== *)
(** Bans and scores of the peer manager (Peers): what the ban file keeps across a restart,
    the line of it that stops the node, and when misbehaviour becomes a ban. *)
From stdpp Require Import gmap.
From S2P Require Import Prelude Decimal Varint P2pMsg P2pWire Peers PeersSpec.
From S2P Require Mnemonic Checkpoints.
Local Open Scope Z_scope.

(** * The text of the file *)

Definition plain (t : text) : Prop := t ≠ [] ∧ Forall (λ c, is_whitespace c = false) t.

Lemma split_run w acc t : Forall (λ c, is_whitespace c = false) w → Mnemonic.split_whitespace (w ++ t) acc = Mnemonic.split_whitespace t (reverse w ++ acc).
Proof.
  revert acc. induction w as [|c w IH]; intros acc Hw; [done|]. apply Forall_cons in Hw as [Hc Hw]. cbn [app Mnemonic.split_whitespace]. rewrite Hc, IH by done. by rewrite reverse_cons, <- app_assoc.
Qed.

Lemma reverse_nonempty {A} (l : list A) : l ≠ [] → ∃ c r, reverse l = c :: r.
Proof. intros Hl. destruct (reverse l) as [|c r] eqn:E; [|by exists c, r]. apply (f_equal reverse) in E. by rewrite reverse_involutive in E. Qed.

Lemma split_pair a b : plain a → plain b → Mnemonic.split_whitespace (a ++ 32 :: b) [] = [a; b].
Proof.
  intros [Ha Hwa] [Hb Hwb]. rewrite split_run, app_nil_r by done. cbn [Mnemonic.split_whitespace]. change (is_whitespace 32) with true. cbv iota. destruct (reverse_nonempty a Ha) as (c & r & E).
  rewrite E, <- E, reverse_involutive. f_equal. rewrite <- (app_nil_r b) at 1. rewrite split_run, app_nil_r by done. cbn [Mnemonic.split_whitespace]. destruct (reverse_nonempty b Hb) as (c' & r' & E').
  by rewrite E', <- E', reverse_involutive.
Qed.

Lemma lines_run l cur t : Forall (λ c, c ≠ 10) l → Checkpoints.lines (l ++ t) cur = Checkpoints.lines t (reverse l ++ cur).
Proof.
  revert cur. induction l as [|c l IH]; intros cur Hl; [done|]. apply Forall_cons in Hl as [Hc Hl]. cbn [app Checkpoints.lines]. destruct (Z.eqb_spec c 10); [done|]. rewrite IH by done. by rewrite reverse_cons, <- app_assoc.
Qed.

(** A line whose last character is no carriage return. *)
Lemma lines_row l c t : Forall (λ c, c ≠ 10) (l ++ [c]) → c ≠ 13 → Checkpoints.lines (l ++ c :: 10 :: t) [] = (l ++ [c]) :: Checkpoints.lines t [].
Proof.
  intros Hl Hc. replace (l ++ c :: 10 :: t) with ((l ++ [c]) ++ 10 :: t) by (by rewrite <- app_assoc). rewrite lines_run, app_nil_r by done. cbn [Checkpoints.lines]. rewrite Z.eqb_refl. f_equal.
  rewrite reverse_snoc. assert (match c :: reverse l with 13 :: cur => cur | _ => c :: reverse l end = c :: reverse l) as -> by (repeat case_match; simplify_eq; done).
  by rewrite reverse_cons, reverse_involutive.
Qed.

(** What is assumed of the text of an address: it reads back, and it is one word. *)
Class IpTextLaws `{IpText} : Prop := {
  parse_show : ∀ ip, parse_ip (show_ip ip) = Some ip;
  show_plain : ∀ ip, plain (show_ip ip) }.

Section File.
Context `{IpTextLaws}.

Lemma fmt_u64_plain v : is_u64 v → plain (fmt_u64 v) ∧ Forall (λ c, is_digit c = true) (fmt_u64 v).
Proof.
  intros [Hd Hs _ _]%fmt_u64_decimal. assert (Forall (λ c, is_digit c = true) (fmt_u64 v)) as Hall.
  { apply Forall_forall. intros c Hc. apply list_elem_of_In in Hc. by eapply forallb_forall in Hd. }
  split; [|done]. split; [done|]. eapply Forall_impl; [exact Hall|]. intros c Hc. unfold is_digit in Hc. apply andb_true_iff in Hc as [?%Z.leb_le ?%Z.leb_le].
  unfold is_whitespace. repeat (apply orb_false_intro); lia.
Qed.

Lemma u64_from_str_fmt v : is_u64 v → u64_from_str (fmt_u64 v) = Some v.
Proof.
  intros Hv. pose proof (fmt_u64_decimal v Hv) as Hd. destruct (decimal_head _ _ Hd) as (c & r & E & Hc). unfold u64_from_str. rewrite E. destruct (Z.eqb_spec c 43) as [->|]; [done|].
  rewrite <- E. by apply decimal_parse_u64.
Qed.

Definition row (r : IpAddr * Z) : text := show_ip r.1 ++ 32 :: fmt_u64 r.2.

Lemma ban_line_row ip v : is_u64 v → ban_line (row (ip, v)) = Some (ip, v).
Proof.
  intros Hv. unfold ban_line, row. cbn [fst snd]. rewrite split_pair by (apply show_plain || by apply fmt_u64_plain). rewrite parse_show. cbn [mbind option_bind]. by rewrite u64_from_str_fmt.
Qed.

Lemma lines_rows rows : Forall (λ r, is_u64 r.2) rows → Checkpoints.lines (concat (map (λ '(ip, end_), show_ip ip ++ 32 :: fmt_u64 end_ ++ [10]) rows)) [] = map row rows.
Proof.
  induction 1 as [|[ip v] rows Hv _ IH]; [done|]. cbn [map concat]. cbn [snd] in Hv. destruct (fmt_u64_plain v Hv) as [[Hne Hp] Hd]. destruct (show_plain ip) as [_ Hip].
  destruct (exists_last Hne) as (ds & c & E). assert (Forall (λ c, c ≠ 10) (show_ip ip ++ 32 :: ds ++ [c])) as Hno.
  { rewrite <- E. apply Forall_app. split; [eapply Forall_impl; [exact Hip|]; by intros x Hx ->|]. constructor; [done|]. eapply Forall_impl; [exact Hp|]. by intros x Hx ->. }
  assert (c ≠ 13) as Hc by (rewrite E in Hp; apply Forall_app in Hp as [_ [Hp _]%Forall_cons]; by intros ->).
  unfold row at 1. cbn [fst snd]. rewrite E. replace ((show_ip ip ++ 32 :: (ds ++ [c]) ++ [10]) ++ concat (map (λ '(ip, end_), show_ip ip ++ 32 :: fmt_u64 end_ ++ [10]) rows))
    with ((show_ip ip ++ 32 :: ds) ++ c :: 10 :: concat (map (λ '(ip, end_), show_ip ip ++ 32 :: fmt_u64 end_ ++ [10]) rows)) by (rewrite <- !app_assoc; cbn; by rewrite <- !app_assoc).
  rewrite lines_row; [|by rewrite <- app_assoc|done]. by rewrite <- app_assoc, IH.
Qed.

(** The rows of the bans that are live at [now]. *)
Definition live_rows (now : Instant) (bans : BanList) : list (IpAddr * Z) :=
  sort_rows (map (λ '(ip, b), (ip, until_unix b)) (map_to_list (filter (λ kv, now < until kv.2) bans))).

Lemma sort_rows_perm {A} (l : list (IpAddr * A)) : sort_rows l ≡ₚ l.
Proof.
  assert (∀ (x : IpAddr * A) l, insert_row x l ≡ₚ x :: l) as Hins.
  { clear l. intros x l. induction l as [|y l IH]; [done|]. cbn. destruct (ip_le _ _); [done|]. rewrite IH. apply Permutation_swap. }
  unfold sort_rows. induction l as [|x l IH]; [done|]. cbn. by rewrite Hins, IH.
Qed.

(** The ban a row is read as. *)
Definition read_ban (now : Instant) (now_unix : Z) (v : Z) : Ban := mkBan (now + from_secs (v - now_unix)) v.

Lemma load_rows now nu rows bans n : NoDup rows.*1 → Forall (λ r, is_u64 r.2) rows → Forall (λ r, (now + from_secs (r.2 - nu)) / 1000000000 < 2 ^ 63) rows →
  load_lines now nu (map row rows) bans n = Some (Nat.add n (length (filter (λ r, nu < r.2) rows)), list_to_map (map (λ r, (r.1, read_ban now nu r.2)) (filter (λ r, nu < r.2) rows)) ∪ bans).
Proof.
  revert bans n. induction rows as [|[ip v] rows IH]; intros bans n Hn Hu Ht; [cbn; by rewrite Nat.add_0_r, (left_id_L ∅ (∪))|].
  rewrite fmap_cons in Hn. apply NoDup_cons in Hn as [Hip Hn]. apply Forall_cons in Hu as [Hv Hu], Ht as [Htv Ht]. cbn [fst snd] in *.
  cbn [map load_lines]. rewrite ban_line_row by done. rewrite filter_cons. cbn [snd]. destruct (Z.leb_spec v nu) as [Hle|Hgt].
  - rewrite decide_False by lia. by rewrite IH.
  - rewrite decide_True by lia. unfold instant_add. assert ((now + from_secs (v - nu)) / 1000000000 <? 2 ^ 63 = true) as -> by lia. cbn [mbind option_bind]. rewrite IH by done.
    cbn [length map list_to_map fst snd]. f_equal. f_equal; [lia|]. fold (read_ban now nu v). rewrite <- insert_union_r, insert_union_l; [done|].
    apply not_elem_of_list_to_map. rewrite <- list_fmap_compose. intros (r & -> & [_ Hr]%list_elem_of_filter)%list_elem_of_fmap. apply Hip. apply list_elem_of_fmap. by exists r.
Qed.

Lemma elem_of_live_rows now bans ip v : (ip, v) ∈ live_rows now bans ↔ ∃ b, bans !! ip = Some b ∧ now < until b ∧ until_unix b = v.
Proof.
  unfold live_rows. rewrite sort_rows_perm, list_elem_of_fmap. split.
  - intros ([ip' b] & [= -> ->] & Hin%elem_of_map_to_list). apply map_lookup_filter_Some in Hin as [? ?]. by exists b.
  - intros (b & Hb & Hl & <-). exists (ip, b). split; [done|]. apply elem_of_map_to_list, map_lookup_filter_Some. done.
Qed.

Lemma live_rows_nodup now bans : NoDup (live_rows now bans).*1.
Proof.
  unfold live_rows. rewrite sort_rows_perm, <- list_fmap_compose. erewrite list_fmap_ext; [apply NoDup_fst_map_to_list|]. by intros i [ip b] _.
Qed.

Lemma size_bans_of (l : list (IpAddr * Ban)) : NoDup l.*1 → size (list_to_map l : BanList) = length l.
Proof. intros Hn. rewrite <- length_map_to_list. apply Permutation_length. by apply map_to_list_to_map. Qed.

(** C31. The bans outlive the process: what the ban file of a node holds, read at the next
    start, are the bans that were live when it was written and have not ended since, each
    with the same end; reading it does not panic if their ends are within the clock's range. *)
Theorem bans_survive_restart now bans now' nu :
  (∀ ip b, bans !! ip = Some b → is_u64 (until_unix b) ∧ (now' + from_secs (until_unix b - nu)) / 1000000000 < 2 ^ 63) →
  ∃ bans', load_text now' nu (to_text now bans) ∅ = Some (size bans', bans') ∧
  ∀ ip, bans' !! ip = (b ← bans !! ip; if (now <? until b) && (nu <? until_unix b) then Some (read_ban now' nu (until_unix b)) else None).
Proof.
  intros Hb. unfold load_text, to_text. fold (live_rows now bans).
  assert (Forall (λ r, is_u64 r.2) (live_rows now bans)) as Hu by (apply Forall_forall; intros [ip v] (b & Hl & _ & <-)%elem_of_live_rows; by apply (Hb ip)).
  assert (Forall (λ r, (now' + from_secs (r.2 - nu)) / 1000000000 < 2 ^ 63) (live_rows now bans)) as Ht by (apply Forall_forall; intros [ip v] (b & Hl & _ & <-)%elem_of_live_rows; by apply (Hb ip)).
  rewrite lines_rows, load_rows by (done || apply live_rows_nodup). rewrite (right_id_L ∅ (∪)). set (kept := filter (λ r, nu < r.2) (live_rows now bans)).
  assert (NoDup (map (λ r, (r.1, read_ban now' nu r.2)) kept).*1) as Hn.
  { rewrite <- list_fmap_compose. change (NoDup (fst <$> kept)). eapply sublist_NoDup; [apply (live_rows_nodup now bans)|]. apply fmap_sublist, sublist_filter. }
  eexists. split; [f_equal; f_equal; rewrite size_bans_of by done; by rewrite length_map|]. intros ip. apply option_eq. intros x. rewrite <- elem_of_list_to_map by done. rewrite list_elem_of_fmap. split.
  - intros ([ip' v] & [= -> ->] & [Hv (b & Hl & Hlt & <-)%elem_of_live_rows]%list_elem_of_filter). rewrite Hl. cbn [mbind option_bind]. cbn in Hv.
    by rewrite (proj2 (Z.ltb_lt _ _) Hlt), (proj2 (Z.ltb_lt _ _) Hv).
  - destruct (bans !! ip) as [b|] eqn:Hl; cbn [mbind option_bind]; [|done]. destruct (_ && _) eqn:E; [|done]. intros [= <-]. apply andb_true_iff in E as [E1%Z.ltb_lt E2%Z.ltb_lt].
    exists (ip, until_unix b). split; [done|]. apply list_elem_of_filter. split; [done|]. apply elem_of_live_rows. by exists b.
Qed.

(** C32. A line of the ban file whose end is out of the clock's range panics the node that
    reads it, though the end is an integer of 64 bits as any other: adding the time that
    remains to the clock overflows. *)
Theorem ban_file_panics now nu ip v bans : 0 ≤ now → is_u64 v → 2 ^ 63 ≤ v - nu →
  load_text now nu (show_ip ip ++ 32 :: fmt_u64 v ++ [10]) bans = None.
Proof.
  intros Hnow Hv Hbig. pose proof (lines_rows [(ip, v)] ltac:(by apply Forall_singleton)) as Hl. cbn [map concat] in Hl. rewrite app_nil_r in Hl. unfold load_text. rewrite Hl. cbn [load_lines].
  rewrite ban_line_row by done. destruct (Z.leb_spec v nu); [lia|]. unfold instant_add. assert ((now + from_secs (v - nu)) / 1000000000 <? 2 ^ 63 = false) as ->; [|done].
  apply Z.ltb_ge. apply Z.div_le_lower_bound; [lia|]. unfold from_secs. lia.
Qed.

End File.

(** * Scores *)

(** A penalty takes the address to a ban exactly when its live points and the new ones
    reach the threshold. It is then banned for a day and its score starts again; otherwise
    the points add up and the bans stay as they are. The scores of other addresses are
    untouched unless the table is full, and no other ban is. *)
Theorem penalise_spec `{HashOrderLaws} now secs pm ip pts b pm' : manager_ok pm → 0 ≤ pts ≤ BAN_THRESHOLD → penalise now secs pm ip pts = Some (b, pm') →
  (b = true ↔ BAN_THRESHOLD ≤ score now pm ip + pts) ∧
  (∀ t, if b then score t pm' ip = 0 ∧ (t < now + from_secs MISBEHAVIOUR_BAN_SECONDS → pm_is_banned t pm' ip = true)
        else (now ≤ t ≤ now + SCORE_MEMORY → score t pm' ip = score now pm ip + pts) ∧ pm_is_banned t pm' ip = pm_is_banned t pm ip) ∧
  (∀ t ip', ip' ≠ ip → pm_is_banned t pm' ip' = pm_is_banned t pm ip' ∧
     (is_Some (pm_scores pm !! ip) ∨ (size (pm_scores pm) < MAX_SCORED_ADDRESSES)%nat → score t pm' ip' = score t pm ip')).
Proof.
  intros Hpm Hpts. unfold penalise. destruct (make_room_spec now (pm_scores pm) ip (mo_scores _ Hpm)) as (_ & _ & Hip).
  assert (is_Some (pm_scores pm !! ip) ∨ (size (pm_scores pm) < MAX_SCORED_ADDRESSES)%nat → make_room now (pm_scores pm) ip = pm_scores pm) as Hsame.
  { unfold make_room. intros [[s Hs]|Hlt]; [by rewrite Hs, bool_decide_eq_false_2|]. destruct (Nat.leb_spec MAX_SCORED_ADDRESSES (size (pm_scores pm))); [lia|]. by rewrite andb_false_r. }
  rewrite Hip. set (scores := make_room now (pm_scores pm) ip) in *. clearbody scores.
  set (held := if _ <? _ then 0 else _). assert (held = score now pm ip) as Hheld.
  { unfold held, score. destruct (pm_scores pm !! ip) as [s|]; cbn; [|by unfold duration_since; destruct (_ <? _)]. destruct (Z.ltb_spec SCORE_MEMORY (duration_since now (s_last s))), (Z.leb_spec (duration_since now (s_last s)) SCORE_MEMORY); lia. }
  assert (0 ≤ held < BAN_THRESHOLD) as Hh.
  { rewrite Hheld. unfold score. destruct (pm_scores pm !! ip) as [s|] eqn:Es; [|by vm_compute]. pose proof (mo_points _ Hpm ip s Es) as Hs. destruct (_ <=? _); [done|by vm_compute]. }
  clearbody held. subst held. assert (saturating_add 32 (score now pm ip) pts = score now pm ip + pts) as Hsat by (unfold saturating_add, BAN_THRESHOLD in *; lia).
  cbn [s_points]. rewrite Hsat. destruct (Z.ltb_spec (score now pm ip + pts) BAN_THRESHOLD) as [Hlt|Hge].
  - intros [= <- <-]. split; [split; [done|lia]|]. split.
    + intros t. split; [|done]. intros Ht. unfold score at 1. cbn [pm_scores with_scores]. rewrite lookup_insert_eq. cbn [s_last s_points]. unfold duration_since. destruct (Z.leb_spec (Z.max (t - now) 0) SCORE_MEMORY); [done|].
      unfold SCORE_MEMORY, from_secs in *. lia.
    + intros t ip' Hne. split; [done|]. intros Hroom. unfold score. cbn [pm_scores with_scores]. rewrite lookup_insert_ne by done. by rewrite Hsame.
  - unfold pm_ban, ban. destruct (instant_add now _) as [u|] eqn:Eu; [|done]. unfold instant_add in Eu. destruct (_ <? _) in Eu; [|done]. injection Eu as <-. cbn [mbind option_bind fmap option_fmap option_map].
    intros [= <- <-]. split; [split; [done|done]|]. split.
    + intros t. split; [unfold score; cbn; by rewrite lookup_delete_eq|]. intros Ht. unfold pm_is_banned, is_banned. cbn. rewrite lookup_insert_eq. cbn. by apply Z.ltb_lt.
    + intros t ip' Hne. split; [unfold pm_is_banned, is_banned; cbn; by rewrite lookup_insert_ne|]. intros Hroom. unfold score. cbn. rewrite lookup_delete_ne by done. by rewrite Hsame.
Qed.

(** * Examples *)

Module ToyBans.

(** An address as one word: its kind, and a character for every octet. *)
Definition code (z : Z) : Z := 20000 + if z <? 0 then - 2 * z - 1 else 2 * z.
Definition uncode (c : Z) : Z := let c := c - 20000 in if c mod 2 =? 0 then c / 2 else - (c + 1) / 2.

#[export] Instance ip_text : IpText := {|
  show_ip ip := match ip with V4 o => 52 :: map code o | V6 o => 54 :: map code o end;
  parse_ip t := match t with c :: r => if c =? 52 then Some (V4 (map uncode r)) else if c =? 54 then Some (V6 (map uncode r)) else None | [] => None end |}.

Lemma uncode_code z : uncode (code z) = z.
Proof.
  unfold uncode, code. cbv zeta. destruct (Z.ltb_spec z 0); [|replace (20000 + 2 * z - 20000) with (z * 2) by lia; by rewrite Z_mod_mult, Z_div_mult].
  replace (20000 + (- 2 * z - 1) - 20000) with (1 + (- z - 1) * 2) by lia. rewrite Z_mod_plus_full. cbn [Z.eqb]. change (1 mod 2) with 1. cbn. replace (- (1 + (- z - 1) * 2 + 1)) with (z * 2) by lia. by rewrite Z_div_mult.
Qed.

Lemma code_plain o : Forall (λ c, is_whitespace c = false) (map code o).
Proof.
  apply Forall_map, Forall_true. intros z. assert (20000 ≤ code z) by (unfold code; destruct (Z.ltb_spec z 0); lia). unfold is_whitespace. repeat (apply orb_false_intro); lia.
Qed.

#[export] Instance ip_text_laws : IpTextLaws.
Proof.
  assert (∀ o, map uncode (map code o) = o) as Ho by (intros o; rewrite map_map; rewrite <- (map_id o) at 2; apply map_ext, uncode_code).
  split; intros [o|o]; cbn; [by rewrite Ho|by rewrite Ho|..]; (split; [done|]); (constructor; [done|apply code_plain]).
Qed.

Definition ip1 : IpAddr := V4 [46; 1; 0; 1].
Definition ip2 : IpAddr := V4 [46; 1; 0; 2].
Definition bans : BanList := <[ip1 := mkBan (from_secs 1000) 1700000900]> {[ip2 := mkBan (from_secs 100) 1700000000]}.

Lemma bans_in_range ip b : bans !! ip = Some b → is_u64 (until_unix b) ∧ (5 + from_secs (until_unix b - 1700000500)) / 1000000000 < 2 ^ 63.
Proof.
  unfold bans. intros [[<- <-]|[_ [<- <-]%lookup_singleton_Some]]%lookup_insert_Some; split; try done; vm_compute; done.
Qed.

Definition pm : PeerManager := with_scores (new 1 false) {[ip1 := mkScore 75 0]}.

Lemma pm_ok : manager_ok pm.
Proof.
  apply with_scores_ok; [by apply new_manager_ok| |apply map_Forall_singleton; done]. rewrite map_size_singleton. pose proof max_scored_pos. lia.
Qed.

End ToyBans.
Import (hints) ToyPeers ToyBans.

(** One ban is live when the file is written and when it is read, the other had ended. *)
Lemma bans_survive_restart_witness : ∃ bans', load_text 5 1700000500 (to_text (from_secs 200) ToyBans.bans) ∅ = Some (size bans', bans') ∧
  bans' !! ToyBans.ip1 = Some (mkBan (5 + from_secs 400) 1700000900) ∧ bans' !! ToyBans.ip2 = None.
Proof.
  destruct (bans_survive_restart (from_secs 200) ToyBans.bans 5 1700000500 ToyBans.bans_in_range) as (bans' & H1 & H2). exists bans'. split; [exact H1|]. split; rewrite H2; vm_compute; done.
Defined.

Lemma ban_file_panics_witness : load_text 0 1700000000 (show_ip ToyBans.ip1 ++ 32 :: fmt_u64 (2 ^ 64 - 1) ++ [10]) ∅ = None.
Proof. apply (ban_file_panics 0 1700000000 ToyBans.ip1 (2 ^ 64 - 1) ∅); vm_compute; done. Defined.

(** The fourth message nobody asked for. *)
Lemma penalise_spec_witness : ∃ pm', penalise 1000 1700000000 ToyBans.pm ToyBans.ip1 (points Unsolicited) = Some (true, pm') ∧ pm_is_banned 2000 pm' ToyBans.ip1 = true.
Proof.
  eexists. split; [reflexivity|]. eapply (penalise_spec 1000 1700000000 ToyBans.pm ToyBans.ip1 25 true); [exact ToyBans.pm_ok|by vm_compute|reflexivity|by vm_compute].
Defined.
